(* ===== verification/_CoqProject ===== *)
-Q . S2P
Prelude.v
StateError.v
SmallString.v
SyntaxError.v
Tid.v
CborError.v
Varint.v
Cid.v
CborValue.v
CborEncode.v
CborEncoder.v
CborDecode.v
CborCodec.v
CborShallow.v
CborMapEntries.v
Car.v
CarSlice.v
CarWriter.v
CarReader.v
CarIncremental.v
MstHeight.v
SortedMap.v
MstNode.v
MstTree.v
MstShape.v
MstMutate.v
MstRemove.v
MstFlush.v
MstLoad.v
MstLoadSpec.v
MstLoaded.v
MstDetached.v
MstProof.v
MstStore.v
MstDetachedSpec.v
MstFlushed.v
MstMap.v
MstHostile.v
MstStoreSpec.v
MstPath.v
MstPieces.v
MstStored.v
MstBacked.v
Did.v
RecordKey.v
DnsLabel.v
Handle.v
Nsid.v
AtIdentifier.v
AtUri.v
Datetime.v
Language.v
Crypto.v
RepoCommit.v
RepoProof.v
RepoStore.v
Repo.v
RepoSpec.v
RepoSave.v
RepoDurable.v
RepoBatch.v
RepoMap.v
RepoExample.v
RepoRefines.v
RepoTransfer.v
RepoArchive.v
RepoImport.v
SyncRaw.v
SyncInvert.v
SyncResync.v
SyncState.v
SyncVerifier.v
SyncChain.v
SyncAccept.v
SyncRun.v
StreamEvents.v
StreamParallel.v
StreamClient.v
StreamSerial.v
StreamDispatch.v
