(* ===== verification/Prelude.v ===== *)
(** * A verified model of shrike

    shrike is a Rust library for the AT Protocol. This development models the
    part of it that decides what comes in from the network: identifiers and
    times, the binary format with its content addresses, archives, the Merkle
    search tree that repositories are kept in, the verifier of other hosts'
    commits, and the streams that deliver them. Definitions carry the names of the
    source's functions; the files under [src/src/] they translate are named in
    each file's opening comment.

    ** How the program fits together

    A repository is a map from record keys to CIDs. [mst/] keeps it as a Merkle
    search tree, whose nodes are CBOR blocks named by the hash of their bytes
    ([cbor/], [cbor/cid.rs]); [car/] moves blocks in archives; [syntax/] is
    what keys, URIs and revisions are made of. [repo/] signs the roots of
    trees as commits and proves records; [sync/] follows the commits of other
    hosts and checks each against what it knows of the repository;
    [streaming/] reads them from a server, hands them to the verifier and keeps
    the cursor to restart from. Calls go in that order only: the tree calls the
    codec, the codec the CIDs, the archives both, the verifier all of them, the
    streams the verifier.

    ** Files

    - [Prelude]: outcomes ([res]: a value, an error or a panic), indexing and
      slicing that panic out of bounds as Rust's do, machine integers as [Z]
      with their ranges written out, bytes and their order, UTF-8, the tactics
      and hint databases. [StateError]: the state and error monad of methods
      that take [&mut self]; a failure keeps the state it left.
    - [syntax/]: [SmallString], [SyntaxError], [Tid], [Did], [RecordKey],
      [DnsLabel], [Handle], [Nsid], [AtIdentifier], [AtUri], [Datetime],
      [Language]; a file
      per file of the source. A grammar is stated once, as a predicate, and
      each validator is shown to decide it without a panic; accessors, which
      slice at positions found when parsing, are shown to be in bounds and to
      return the parts of the grammar. [Tid] also has the clock, an atomic
      stepped by interleaved threads.
    - [cbor/]: [CborError], [CborValue], [CborEncode] (the two-pass writer),
      [CborEncoder] (the streaming encoder), [CborDecode] (the decoder with its
      depth limit), [CborShallow], [CborMapEntries] (its lazy interfaces),
      [CborCodec] (what they are to each other), [Varint], [Cid]. The specification is
      [enc], the canonical bytes of a value: the writer produces it, the
      decoder accepts exactly it, and the lazy decoders agree with the eager one.
    - [car/]: [Car] (errors, headers, varints, the grammar of
      archives), [CarSlice], [CarReader], [CarIncremental] (three readers, all
      shown to accept that grammar, however the input is cut into pieces),
      [CarWriter].
    - [mst/], the operations: [MstHeight] ([height.rs]), [MstNode] ([node.rs],
      and the tree of a map as a function of the map alone), [MstTree] (nodes in memory, insert, split, remove, merge), [MstFlush]
      (writing), [MstLoad] (loading, lookups, what a mutation visits first,
      walks), [MstDetached] ([DetachedTree]), [MstProof] (search paths,
      covering proofs), [MstStore] ([Tree], block stores and [diff.rs]).
    - [mst/], what they mean: [SortedMap] (maps as sorted lists), [MstShape] (the invariant of nodes), [MstMutate], [MstRemove], [MstFlush]
      (the operations keep it and change the contents as they should),
      [MstLoadSpec], [MstLoaded] (loading, walks), [MstDetachedSpec],
      [MstFlushed] (the methods of the tree), [MstMap] (the theorems for a
      source that serves the blocks of a tree), [MstHostile] (those for any
      source at all, and walks of the blocks at hand), [MstStoreSpec]
      (trees on stores, differences), [MstPath] (search paths).
    - [mst/], trees over storage that changes: [MstPieces] (the stretches of a
      map that have nodes, and when their CIDs tell them apart;
      trees of one map whose unloaded parts are another's), [MstStored] (a node
      is changed only with those above it; what methods that only read do),
      [MstBacked] (what storage must hold for a tree, kept
      by every method).
    - [crypto/] and [repo/]: [Crypto] (the traits of keys), [RepoCommit]
      ([commit.rs]), [RepoProof] ([proof.rs]), [RepoStore] ([store.rs]), [Repo]
      and [RepoTransfer] ([repo.rs]).
    - [repo/], what it means: [RepoSpec] (what is kept for the store
      between a flush and the commit it accepts; the invariant of a repository;
      reads and writes), [RepoSave] (commits), [RepoDurable] (opening; no
      record is lost), [RepoBatch] ([apply_writes]),
      [RepoMap] (the calls against a map of records), [RepoExample]
      (a small repository, and a record that is lost), [RepoRefines] (the
      theorems), [RepoArchive] (listing a collection), [RepoImport] (archives
      of whole repositories).
    - [sync/]: [SyncRaw] ([raw.rs], the events of the firehose), [SyncInvert]
      ([invert.rs], a commit's operations against its tree), [SyncResync]
      ([resync.rs], the loader of whole repositories), [SyncState] ([state.rs]
      and the token buckets of [verifier.rs]), [SyncVerifier] (every handler
      and job of [verifier.rs]). A handler is a state and error monad over
      everything it shares: the store, the queues, the buckets, the channels.
      [SyncChain]: what each section under a lock does to the kept state.
      [SyncAccept]: what an accepted commit has passed. [SyncRun]: the sections
      as a step relation, what holds of every interleaving, and jobs.
    - [streaming/]: [StreamEvents] ([event.rs] and the frame parser of
      [mod.rs]), [StreamParallel] ([parallel.rs], the scheduler), and
      [client.rs]: [StreamClient] (verified frames and what is delivered of
      them; the specification of a cursor), [StreamSerial]
      (the serial stream, a function of one turn), [StreamDispatch] (the
      parallel one, dispatcher, workers and collector as interleaved steps).

    ** What the theorems show

    Syntax: each validator decides its grammar; parsed values print back to
    the text they came from, handles and NSIDs in normal form; the TID clock is
    monotonic under any interleaving, up to the ceiling it stops at; the greedy parser of language tags decides
    the grammar of RFC 5646, which is unambiguous. CBOR: encoding and decoding are inverse,
    the decoder accepts canonical bytes only, reads within its buffer and its
    depth, and the alternative encoders and decoders agree. Archives: the three
    readers accept the same archives, which are those the writer makes;
    verification accepts those whose CIDs match. Merkle search tree: for
    the detached tree, a refinement of a map. Every method returns and leaves
    what it would on the map, failures change nothing, no call panics, the
    root is that of the reference tree whatever the history, and a flush
    accounts for every block. From a hostile source the keys in memory stay
    ordered, valid and counted. Repositories: a commit and its block determine each other,
    and a signature covers every field. A repository on any store, whose records are
    [plain], is a map of
    records with the map of its last commit, whatever calls fail: reads answer
    with the map's records, a commit lists exactly what changed and gives the
    store what its tree needs, a failed one loses nothing, batches are refused
    for the first write that the map they have reached does not allow, before
    anything is changed, and a restart gives the last commit. A
    listing has the records of its collection, all and in order. Any bytes may
    be imported: what is stored is one commit and what it reaches by links from
    block to block, every block
    under its own hash and all of them from the archive; and an export whose
    blocks are no larger than a reader takes ([fitting]), imported anywhere, is
    the repository of
    the last commit. A record proof that verifies gives the
    answer every repository with its root gives, unless two blocks with one
    hash are known; no bytes make a verifier panic. Sync: frames parse exactly
    if they are canonical and say an event; undoing a commit's operations gives
    the root of a map from which they lead to the commit's map; a loaded
    repository is within its limits and hashes to its CIDs; [verify_commit]
    accepts only what has passed every check and otherwise keeps the state; no
    event makes a handler panic, revisions only grow and queues stay bounded
    under any interleaving, and a job that no other handler interrupts ends. Streaming: without a verifier,
    records are the bytes their CIDs hash, and the two parsers differ only
    where a commit's operations or archive cannot be read; with one, a delivered commit is what
    was accepted, with the records its archive has; the scheduler is a queue per key whose units all run, in
    order, one at a time; and the cursor of either stream lies below every
    frame that is not dealt with, whatever fails and however tasks interleave.

    ** Conventions

    An integer is a [Z] with its wrap-around written out where the source's can
    wrap; a [usize] that indexes memory is a [nat]. Text that the source holds
    as [str] is its UTF-8 bytes. Panics are the outcome [Panic], so that a
    theorem that excludes them covers indexing, slicing and unwrapping. The
    source slices a [str] only at its ends and next to an ASCII character it has found,
    which are boundaries of characters, so slicing checks lengths only.
    Recursion that is not structural takes fuel and panics without it; the
    theorems that exclude panics so also show that the fuel given is enough:
    [load_fuel] counts the levels of nodes in memory and the 128 levels more
    that may load, [span] the levels with their heights, [insert_fuel] the
    levels an insert may add below the height of its key, which is at most 128.
    Borrowed nodes are passed and given back as values, the loader's counts
    along with them; the tree is the only owner of its nodes, so nothing is
    aliased. The binary search over the entries of a node is its contract, a
    scan for the first entry not below the key. Counts of CIDs ([u32] in the
    source) are naturals; a count is one per node in memory. Messages of
    errors keep the data they show and not their wording.

    ** Code that is not in the repository

    The SHA-256 block function ([Sha2]), SIMD UTF-8 validation ([Simdutf8]),
    base32 and float parsing are classes with the documented laws; examples
    instantiate them. A block store is a class ([BlockStore]) with the laws its
    trait documents, which the memory store is shown to satisfy. A tree that is
    not loaded is known through [Stubs]: for each CID not loaded yet, the
    contents its subtree stands for; a source is [faithful] when the blocks it
    serves for them are those of the reference tree. [MstHostile] needs none of this.
    A verifier's state store is a class ([StateStore]) whose laws the memory
    store satisfies; so are a repository's store ([RepoStore]) and its laws,
    which allow each call to fail. That a CID names one block is the hypothesis
    [collision_free] on the blocks that are [known], those the theorem's
    subject meets; the records of a repository are [plain], neither nodes nor
    commits ([RepoExample] shows why). The directory of identities, the host that serves
    repositories and the clock are a class ([Environment]) over a world that
    each call may change, required only to return. The server of a stream is
    a function ([Server]) from the cursor it is given to the frames it would
    send: those numbered above it, in order.

    ** Not modelled

    HTTP, WebSocket and DNS clients and servers, Jetstream's JSON, OAuth
    exchanges and scopes, lexicons, labels, service tokens, identity resolution, backfill's worker pool and the command-line tools are I/O around crates that are not in the repository.
    The generated API types ([src/src/api/]) are data definitions without
    logic. Elliptic-curve keys and signatures are crates. DAG-JSON rests on
    serde_json's value type. The bump allocator is unsafe pointer code without
    protocol logic. Of the verifier, the lock stripes are not: a section under
    the lock of its DID is one step, which the other handlers of that DID see
    as such and those of other DIDs do not touch; a full channel, on which the
    source waits, is one with room here. Of the streams, the delays between
    connections are not, nor is the parallel one's deadline, which only decides
    when its timeout comes; tasks are not aborted. *)
From stdpp Require Export base list option numbers strings gmap sorting.
From Stdlib Require Export ZArith Lia ZifyBool.

#[global] Set Default Goal Selector "!".
#[global] Open Scope Z_scope.

#[global] Arguments Nat.ltb : simpl never.
#[global] Arguments Nat.leb : simpl never.

Create HintDb shrike.

(** ** Outcomes of a call

    [Ok] and [Err] are Rust's [Result]; [Panic] is an out-of-range index or
    slice, which a safety theorem has to exclude. *)
Inductive res (E A : Type) : Type :=
| Ok (a : A)
| Err (e : E)
| Panic.
Arguments Ok {E A} a.
Arguments Err {E A} e.
Arguments Panic {E A}.

#[export] Instance res_ret E : MRet (res E) := fun A a => Ok a.
#[export] Instance res_bind E : MBind (res E) := fun A B f m =>
  match m with Ok a => f a | Err e => Err e | Panic => Panic end.
#[export] Instance res_fmap E : FMap (res E) := fun A B f m =>
  match m with Ok a => Ok (f a) | Err e => Err e | Panic => Panic end.

#[export] Instance res_eq_dec {E A} `{EqDecision E, EqDecision A} : EqDecision (res E A).
Proof. solve_decision. Defined.

(** [map_err] of Rust's [Result]. *)
Definition map_err {E F A} (f : E -> F) (m : res E A) : res F A :=
  match m with Ok a => Ok a | Err e => Err (f e) | Panic => Panic end.

Definition ok_or {E A} (e : E) (o : option A) : res E A :=
  match o with Some a => Ok a | None => Err e end.

Definition is_ok {E A} (m : res E A) : bool :=
  match m with Ok _ => true | _ => false end.

Definition no_panic {E A} (m : res E A) : Prop := m <> Panic.

Section ResLemmas.
Context {E A B : Type}.
Implicit Types (m : res E A) (f : A -> res E B).

Lemma Ok_inj (a b : A) : Ok (E:=E) a = Ok b -> a = b.
Proof. by intros [= ->]. Qed.

Lemma res_bind_Ok m f b :
  m ≫= f = Ok b <-> exists a, m = Ok a /\ f a = Ok b.
Proof. destruct m; cbn; naive_solver. Qed.

Lemma res_bind_Panic m f :
  m ≫= f = Panic <-> m = Panic \/ exists a, m = Ok a /\ f a = Panic.
Proof. destruct m; cbn; naive_solver. Qed.

Lemma map_err_Ok {F} (g : E -> F) m a : map_err g m = Ok a <-> m = Ok a.
Proof. destruct m; cbn; naive_solver. Qed.

Lemma map_err_Panic {F} (g : E -> F) m : map_err g m = Panic <-> m = Panic.
Proof. destruct m; cbn; naive_solver. Qed.

Lemma ok_or_Ok (e : E) (o : option A) a : ok_or e o = Ok a <-> o = Some a.
Proof. destruct o; cbn; naive_solver. Qed.

Lemma is_ok_true m : is_ok m = true <-> exists a, m = Ok a.
Proof. destruct m; cbn; naive_solver. Qed.
End ResLemmas.

(** The early-return style [if bad { return Err(e) } rest]. *)
Section EarlyReturn.
Context {E A : Type}.
Implicit Types (m : res E A).

Lemma if_err_Ok (b : bool) e m a : (if b then Err e else m) = Ok a <-> b = false /\ m = Ok a.
Proof. destruct b; naive_solver. Qed.

Lemma no_panic_if (b : bool) e m :
  (b = false -> no_panic m) -> no_panic (if b then Err e else m).
Proof. unfold no_panic. destruct b; naive_solver. Qed.

Lemma no_panic_bind {B} m (f : A -> res E B) :
  no_panic m -> (forall a, m = Ok a -> no_panic (f a)) -> no_panic (m ≫= f).
Proof. unfold no_panic. destruct m; cbn; naive_solver. Qed.

Lemma no_panic_Ok (a : A) : no_panic (@Ok E A a).
Proof. done. Qed.

Lemma no_panic_Err (e : E) : no_panic (@Err E A e).
Proof. done. Qed.

Lemma no_panic_ok_or (e : E) (o : option A) : no_panic (ok_or e o).
Proof. by destruct o. Qed.

Lemma no_panic_map_err {F} (g : E -> F) m : no_panic m -> no_panic (map_err g m).
Proof. by destruct m. Qed.
End EarlyReturn.

#[export] Hint Resolve no_panic_Ok no_panic_Err no_panic_ok_or no_panic_map_err : shrike.

(** Case analysis on the conditionals and matches of a goal, closing the
    branches whose conditions contradict the context. *)
Ltac split_ifs :=
  repeat (match goal with
          | |- context [if ?b then _ else _] => destruct b eqn:?
          end; simplify_eq/=; try lia).

Ltac split_ifs_in H :=
  repeat (match type of H with
          | context [if ?b then _ else _] => destruct b eqn:?
          end; simplify_eq/=; try lia).

(** ** Bytes and machine integers

    A [u8], [u16], [u32] or [u64] is a [Z] in range; a Rust [str] or byte
    slice is its list of bytes. *)
Abbreviation bytes := (list Z).

Definition is_u8 (b : Z) : Prop := 0 <= b < 256.
Definition is_u16 (v : Z) : Prop := 0 <= v < 2 ^ 16.
Definition is_u32 (v : Z) : Prop := 0 <= v < 2 ^ 32.
Definition is_u64 (v : Z) : Prop := 0 <= v < 2 ^ 64.
Definition is_i64 (v : Z) : Prop := - 2 ^ 63 <= v < 2 ^ 63.
Definition i64_max : Z := 2 ^ 63 - 1.
Definition usize_max : Z := 2 ^ 64 - 1.

(** [v as u8], [v as u64]: truncation to the width. *)
Definition as_u8 (v : Z) : Z := v mod 2 ^ 8.
Definition as_u16 (v : Z) : Z := v mod 2 ^ 16.
Definition as_u32 (v : Z) : Z := v mod 2 ^ 32.
Definition as_u64 (v : Z) : Z := v mod 2 ^ 64.

Definition byte_of_ascii (a : Ascii.ascii) : Z := Z.of_N (Ascii.N_of_ascii a).
Fixpoint bytes_of_string (s : string) : bytes :=
  match s with
  | EmptyString => []
  | String a s' => byte_of_ascii a :: bytes_of_string s'
  end.

(** A byte string literal is written [b# "text"]. *)
Declare Scope shrike_scope.
Delimit Scope shrike_scope with shrike.
Notation "b# s" := (bytes_of_string s%string)
  (at level 1, s at level 0, only parsing) : shrike_scope.
#[global] Open Scope shrike_scope.

Abbreviation ch_hash := 35%Z (only parsing).
Abbreviation ch_percent := 37%Z (only parsing).
Abbreviation ch_plus := 43%Z (only parsing).
Abbreviation ch_hyphen := 45%Z (only parsing).
Abbreviation ch_dot := 46%Z (only parsing).
Abbreviation ch_slash := 47%Z (only parsing).
Abbreviation ch_colon := 58%Z (only parsing).
Abbreviation ch_T := 84%Z (only parsing).
Abbreviation ch_Z := 90%Z (only parsing).
Abbreviation ch_underscore := 95%Z (only parsing).
Abbreviation ch_tilde := 126%Z (only parsing).

(** The [u8::is_ascii_*] tests of the standard library. *)
Definition is_ascii (b : Z) : bool := b <? 128.
Definition is_ascii_digit (b : Z) : bool := (48 <=? b) && (b <=? 57).
Definition is_ascii_lowercase (b : Z) : bool := (97 <=? b) && (b <=? 122).
Definition is_ascii_uppercase (b : Z) : bool := (65 <=? b) && (b <=? 90).
Definition is_ascii_alphabetic (b : Z) : bool :=
  is_ascii_lowercase b || is_ascii_uppercase b.
Definition is_ascii_alphanumeric (b : Z) : bool :=
  is_ascii_alphabetic b || is_ascii_digit b.

Definition to_ascii_lowercase (b : Z) : Z :=
  if is_ascii_uppercase b then b + 32 else b.
Definition to_ascii_uppercase (b : Z) : Z :=
  if is_ascii_lowercase b then b - 32 else b.
Definition make_ascii_lowercase (s : bytes) : bytes := to_ascii_lowercase <$> s.
Definition eq_ignore_ascii_case (a b : bytes) : bool :=
  bool_decide (make_ascii_lowercase a = make_ascii_lowercase b).

#[export] Hint Unfold is_u8 is_u16 is_u32 is_u64 is_i64 : shrike.

(** Unfolds the ASCII tests and the integer ranges, then decides. *)
Ltac ascii_lia :=
  unfold is_ascii_alphanumeric, is_ascii_alphabetic, is_ascii_lowercase,
    is_ascii_uppercase, is_ascii_digit, is_ascii, is_u8 in *; lia.

Lemma to_ascii_lowercase_idemp b :
  to_ascii_lowercase (to_ascii_lowercase b) = to_ascii_lowercase b.
Proof. unfold to_ascii_lowercase. split_ifs; ascii_lia. Qed.

Lemma make_ascii_lowercase_idemp s :
  make_ascii_lowercase (make_ascii_lowercase s) = make_ascii_lowercase s.
Proof.
  unfold make_ascii_lowercase. rewrite <- list_fmap_compose.
  apply list_fmap_ext. intros i b _. apply to_ascii_lowercase_idemp.
Qed.

Lemma make_ascii_lowercase_length s :
  length (make_ascii_lowercase s) = length s.
Proof. apply length_fmap. Qed.

(** ** Indexing and slicing, which panic out of range *)

Section Slices.
Context {E A : Type}.

(** [s[i]] *)
Definition index (s : list A) (i : nat) : res E A :=
  match s !! i with Some b => Ok b | None => Panic end.

(** [&s[i..j]], for [i] and [j] at boundaries of characters *)
Definition slice (s : list A) (i j : nat) : res E (list A) :=
  if decide (i <= j <= length s)%nat then Ok (take (j - i) (drop i s)) else Panic.

(** [&s[i..]] *)
Definition slice_from (s : list A) (i : nat) : res E (list A) :=
  if decide (i <= length s)%nat then Ok (drop i s) else Panic.

(** [&s[..j]] *)
Definition slice_to (s : list A) (j : nat) : res E (list A) :=
  if decide (j <= length s)%nat then Ok (take j s) else Panic.

Lemma index_Ok s i a : index s i = Ok a <-> s !! i = Some a.
Proof. unfold index. destruct (s !! i); naive_solver. Qed.

Lemma slice_Ok_iff s i j t :
  slice s i j = Ok t <-> (i <= j <= length s)%nat /\ t = take (j - i) (drop i s).
Proof. unfold slice. case_decide; naive_solver. Qed.

Lemma slice_from_Ok_iff s i t :
  slice_from s i = Ok t <-> (i <= length s)%nat /\ t = drop i s.
Proof. unfold slice_from. case_decide; naive_solver. Qed.

Lemma slice_to_Ok_iff s j t :
  slice_to s j = Ok t <-> (j <= length s)%nat /\ t = take j s.
Proof. unfold slice_to. case_decide; naive_solver. Qed.

Lemma no_panic_index s i : (i < length s)%nat -> no_panic (index s i).
Proof. intros [a Ha]%lookup_lt_is_Some. unfold index. by rewrite Ha. Qed.

(** The slice between a prefix and a suffix. *)
Lemma slice_middle s pre (seg rest : list A) : s = pre ++ seg ++ rest ->
  slice s (length pre) (length pre + length seg) = Ok seg.
Proof.
  intros ->. apply slice_Ok_iff. rewrite !length_app, drop_app_length.
  split; [lia|]. rewrite take_app_le, take_ge by lia. done.
Qed.

Lemma slice_Ok s i j : (i <= j <= length s)%nat ->
  slice s i j = Ok (take (j - i) (drop i s)).
Proof. intros. unfold slice. by rewrite decide_True. Qed.

Lemma slice_from_Ok s i : (i <= length s)%nat -> slice_from s i = Ok (drop i s).
Proof. intros. unfold slice_from. by rewrite decide_True. Qed.

Lemma slice_to_Ok s j : (j <= length s)%nat -> slice_to s j = Ok (take j s).
Proof. intros. unfold slice_to. by rewrite decide_True. Qed.
End Slices.

(** ** Searching *)

Section Search.
Context {A : Type} (p : A -> bool).

(** [Iterator::position] *)
Fixpoint position (l : list A) : option nat :=
  match l with
  | [] => None
  | a :: l' => if p a then Some 0%nat else S <$> position l'
  end.

(** [Iterator::rposition] *)
Fixpoint rposition (l : list A) : option nat :=
  match l with
  | [] => None
  | a :: l' =>
      match rposition l' with
      | Some i => Some (S i)
      | None => if p a then Some 0%nat else None
      end
  end.

Lemma position_Some l i : position l = Some i <->
  exists a, l !! i = Some a /\ p a = true /\ Forall (fun b => p b = false) (take i l).
Proof.
  revert i. induction l as [|a l IH]; intros i; cbn.
  - split; [done|]. intros (b & Hb & _). by rewrite lookup_nil in Hb.
  - destruct (p a) eqn:Hp; [|destruct i as [|i]].
    + split; [intros [= <-]; eauto|]. intros (b & Hb & Hpb & Hall).
      destruct i as [|i]; [done|]. cbn in Hall. inversion Hall; congruence.
    + split; [by destruct (position l)|]. intros (b & Hb & Hpb & _).
      cbn in *. congruence.
    + rewrite fmap_Some. cbn. split.
      * intros (j & Hj & [= ->]). apply IH in Hj as (b & ? & ? & ?).
        eauto 6 using Forall_cons.
      * intros (b & Hb & Hpb & Hall). exists i. split; [|done].
        apply IH. inversion Hall. eauto.
Qed.

Lemma position_None l : position l = None <-> Forall (fun b => p b = false) l.
Proof.
  induction l as [|a l IH]; cbn; [by split|].
  rewrite Forall_cons. destruct (p a); [naive_solver|].
  rewrite fmap_None, IH. naive_solver.
Qed.

Lemma position_lt l i : position l = Some i -> (i < length l)%nat.
Proof. intros (a & Ha & _)%position_Some. by apply lookup_lt_Some in Ha. Qed.

Lemma position_app_l l k i : position l = Some i -> position (l ++ k) = Some i.
Proof.
  rewrite !position_Some. intros (a & Ha & Hp & Hall). exists a.
  rewrite lookup_app_l by (by eapply lookup_lt_Some).
  rewrite take_app_le; [done|]. apply lookup_lt_Some in Ha. lia.
Qed.

(** Cut at the first hit. *)
Lemma position_cut l i : position l = Some i ->
  exists a, p a = true /\ l = take i l ++ a :: drop (S i) l /\
    Forall (fun b => p b = false) (take i l).
Proof.
  intros (a & Ha & Hp & Hall)%position_Some. exists a. by rewrite take_drop_middle.
Qed.

Lemma rposition_none l : Forall (fun b => p b = false) l -> rposition l = None.
Proof. induction 1 as [|b l Hb _ IH]; [done|]. cbn. by rewrite IH, Hb. Qed.

Lemma rposition_Some l i : rposition l = Some i ->
  exists a, l !! i = Some a /\ p a = true /\ Forall (fun b => p b = false) (drop (S i) l).
Proof.
  revert i. induction l as [|a l IH]; intros i; [done|]. cbn [rposition].
  destruct (rposition l) as [j|] eqn:Hj.
  - intros [= <-]. destruct (IH j eq_refl) as (b & ? & ? & ?). by exists b.
  - destruct (p a) eqn:Ha; [|done]. intros [= <-]. exists a. split_and!; [done..|].
    clear -Hj. cbn. rewrite drop_0. induction l as [|b l IHl]; [done|]. cbn in Hj.
    destruct (rposition l); [done|]. destruct (p b) eqn:?; [done|]. constructor; auto.
Qed.

(** The last hit lies before a suffix without hits. *)
Lemma rposition_app_r l a k :
  p a = true -> Forall (fun b => p b = false) k -> rposition (l ++ a :: k) = Some (length l).
Proof.
  intros Ha Hk. induction l as [|b l IH]; cbn.
  - by rewrite (rposition_none k), Ha.
  - by rewrite IH.
Qed.

(** Cut at the last hit: the part before, the hit, the part after. *)
Lemma rposition_cut l i : rposition l = Some i ->
  exists a, p a = true /\ l = take i l ++ a :: drop (S i) l.
Proof.
  intros (a & Ha & Hp & _)%rposition_Some. exists a. split; [done|].
  by rewrite take_drop_middle.
Qed.

Lemma position_app_r l a k :
  Forall (fun b => p b = false) l -> p a = true ->
  position (l ++ a :: k) = Some (length l).
Proof.
  intros Hl Ha. apply position_Some. exists a.
  by rewrite list_lookup_middle, take_app_length.
Qed.
End Search.

Lemma forallb_Forall {A} (p : A -> bool) l :
  forallb p l = true <-> Forall (fun b => p b = true) l.
Proof. rewrite forallb_forall, Forall_forall. by setoid_rewrite <- list_elem_of_In. Qed.

(** Decides that a literal is made of bytes. *)
Lemma u8_literal (l : bytes) : forallb (fun b => (0 <=? b) && (b <? 256)) l = true -> Forall is_u8 l.
Proof.
  rewrite forallb_Forall. intros H. eapply Forall_impl; [exact H|]. unfold is_u8. cbn. lia.
Qed.

(** [iter.fold(true, |valid, b| valid & p(b))] tests every byte. *)
Definition fold_valid {A} (p : A -> bool) (l : list A) : bool :=
  fold_left (fun valid b => valid && p b) l true.

Lemma fold_valid_forallb {A} (p : A -> bool) l : fold_valid p l = forallb p l.
Proof.
  unfold fold_valid. rewrite <- (andb_true_l (forallb p l)). generalize true as v.
  induction l as [|a l IH]; intros v; cbn; [by rewrite andb_true_r|].
  by rewrite IH, andb_assoc.
Qed.

(** The tests of an early-return chain that returns [Ok], as facts. *)
Ltac res_facts :=
  repeat first
    [ setoid_rewrite if_err_Ok | setoid_rewrite res_bind_Ok | setoid_rewrite map_err_Ok
    | setoid_rewrite ok_or_Ok | setoid_rewrite index_Ok | setoid_rewrite slice_Ok_iff
    | setoid_rewrite slice_from_Ok_iff | setoid_rewrite slice_to_Ok_iff
    | setoid_rewrite negb_false_iff ].

(** [s.starts_with(p)] and [s.ends_with(p)] *)
Definition starts_with (p s : bytes) : bool := bool_decide (take (length p) s = p).
Definition ends_with (p s : bytes) : bool :=
  bool_decide (length p <= length s)%nat &&
  bool_decide (drop (length s - length p) s = p).

Lemma starts_with_true p s : starts_with p s = true <-> exists r, s = p ++ r.
Proof.
  unfold starts_with. rewrite bool_decide_eq_true. split.
  - intros H. exists (drop (length p) s). by rewrite <- H at 1; rewrite take_drop.
  - intros [r ->]. apply take_app_length.
Qed.

Lemma ends_with_true p s : ends_with p s = true <-> exists r, s = r ++ p.
Proof.
  unfold ends_with. rewrite andb_true_iff, !bool_decide_eq_true. split.
  - intros [_ H]. exists (take (length s - length p) s).
    by rewrite <- H at 2; rewrite take_drop.
  - intros [r ->]. rewrite length_app. split; [lia|].
    replace (length r + length p - length p)%nat with (length r) by lia.
    apply drop_app_length.
Qed.

(** [s.split(sep)]: the pieces between separators, always at least one. *)
Fixpoint split_on (sep : Z) (s : bytes) : list bytes :=
  match s with
  | [] => [[]]
  | b :: s' =>
      if b =? sep then [] :: split_on sep s'
      else match split_on sep s' with
           | [] => [[b]]
           | piece :: pieces => (b :: piece) :: pieces
           end
  end.

(** [pieces.join(sep)] *)
Fixpoint join_with (sep : Z) (pieces : list bytes) : bytes :=
  match pieces with
  | [] => []
  | [p] => p
  | p :: pieces' => p ++ sep :: join_with sep pieces'
  end.

Section Splitting.
Variable sep : Z.
Let no_sep (p : bytes) : Prop := Forall (fun b => (b =? sep) = false) p.

Lemma split_on_nonempty s : split_on sep s <> [].
Proof. destruct s; cbn; [done|]. destruct (_ =? _); [done|]. by destruct split_on. Qed.

Lemma join_split_on s : join_with sep (split_on sep s) = s.
Proof.
  induction s as [|b s IH]; [done|]. cbn.
  pose proof (split_on_nonempty s).
  destruct (Z.eqb_spec b sep) as [->|]; destruct (split_on sep s) as [|p [|q ps]];
    simplify_eq/=; by rewrite ?IH.
Qed.

Lemma split_on_no_sep s : Forall no_sep (split_on sep s).
Proof.
  unfold no_sep. induction s as [|b s IH]; cbn; [by repeat constructor|].
  destruct (b =? sep) eqn:Hb; [by repeat constructor|].
  destruct (split_on sep s) as [|p ps]; [by repeat constructor|].
  inversion IH; subst. by repeat constructor.
Qed.

Lemma split_on_piece p : no_sep p -> split_on sep p = [p].
Proof.
  unfold no_sep. induction 1 as [|b p Hb _ IH]; [done|]. cbn. by rewrite Hb, IH.
Qed.

Lemma split_on_app p s : no_sep p -> split_on sep (p ++ sep :: s) = p :: split_on sep s.
Proof.
  unfold no_sep. induction 1 as [|b p Hb _ IH]; cbn.
  - by rewrite Z.eqb_refl.
  - by rewrite Hb, IH.
Qed.

(** Cutting at the last separator cuts off the last piece. *)
Lemma split_on_rposition s :
  match rposition (fun b => b =? sep) s with
  | None => split_on sep s = [s]
  | Some k => (k < length s)%nat /\ split_on sep s = split_on sep (take k s) ++ [drop (S k) s]
  end.
Proof.
  induction s as [|b s IH]; [done|]. cbn [rposition].
  destruct (rposition _ s) as [j|].
  - destruct IH as [Hj IH]. cbn [take drop length split_on]. split; [lia|].
    rewrite IH. destruct (b =? sep); [done|].
    pose proof (split_on_nonempty (take j s)). by destruct (split_on sep (take j s)).
  - cbn [split_on]. rewrite IH. destruct (b =? sep); [|done].
    cbn. split; [lia|done].
Qed.

Lemma split_on_fmap (f : Z -> Z) (s : bytes) : (forall b, (f b =? sep) = (b =? sep)) ->
  split_on sep (fmap (M:=list) f s) = fmap (M:=list) (fmap (M:=list) f) (split_on sep s).
Proof.
  intros Hf. induction s as [|b s IH]; [done|]. cbn. rewrite Hf, IH.
  destruct (b =? sep); [done|]. by destruct (split_on sep s).
Qed.

Lemma split_on_forall (P : Z -> Prop) s :
  P sep -> Forall (Forall P) (split_on sep s) -> Forall P s.
Proof.
  intros Hsep. induction s as [|b s IH]; [done|]. cbn.
  destruct (Z.eqb_spec b sep) as [->|].
  - intros [_ H]%Forall_cons. constructor; auto.
  - pose proof (split_on_nonempty s). destruct (split_on sep s) as [|p ps]; [done|].
    intros [[Hb Hp]%Forall_cons Hps]%Forall_cons. constructor; [done|]. apply IH. by constructor.
Qed.

Lemma split_on_join ps : ps <> [] -> Forall no_sep ps -> split_on sep (join_with sep ps) = ps.
Proof.
  induction ps as [|p [|q ps] IH]; [done| |]; intros _ Hall; inversion_clear Hall.
  - by apply split_on_piece.
  - change (join_with sep (p :: q :: ps)) with (p ++ sep :: join_with sep (q :: ps)).
    rewrite split_on_app by done. f_equal. by apply IH.
Qed.
End Splitting.

(** ** Lexicographic order, as [Ord for str] and [Ord for [u8]] *)

Fixpoint bytes_cmp (a b : bytes) : comparison :=
  match a, b with
  | [], [] => Eq
  | [], _ :: _ => Lt
  | _ :: _, [] => Gt
  | x :: a', y :: b' =>
      match x ?= y with Eq => bytes_cmp a' b' | c => c end
  end.

Definition bytes_lt (a b : bytes) : Prop := bytes_cmp a b = Lt.
Definition bytes_ltb (a b : bytes) : bool :=
  match bytes_cmp a b with Lt => true | _ => false end.
Definition bytes_leb (a b : bytes) : bool :=
  match bytes_cmp a b with Gt => false | _ => true end.

Lemma bytes_cmp_eq a b : bytes_cmp a b = Eq <-> a = b.
Proof.
  revert b. induction a as [|x a IH]; intros [|y b]; cbn; try done.
  destruct (Z.compare_spec x y); [|naive_solver lia..].
  subst. rewrite IH. naive_solver.
Qed.

Lemma bytes_cmp_refl a : bytes_cmp a a = Eq.
Proof. by apply bytes_cmp_eq. Qed.

Lemma bytes_cmp_antisym a b : bytes_cmp b a = CompOpp (bytes_cmp a b).
Proof.
  revert b. induction a as [|x a IH]; intros [|y b]; cbn; try done.
  rewrite (Z.compare_antisym x y). destruct (x ?= y); cbn; auto.
Qed.

Lemma bytes_lt_trans a b c : bytes_lt a b -> bytes_lt b c -> bytes_lt a c.
Proof.
  unfold bytes_lt. revert b c.
  induction a as [|x a IH]; intros [|y b] [|z c]; cbn; try done.
  destruct (Z.compare_spec x y), (Z.compare_spec y z), (Z.compare_spec x z);
    subst; try done; try lia. apply IH.
Qed.

Lemma bytes_lt_irrefl a : ~ bytes_lt a a.
Proof. unfold bytes_lt. by rewrite bytes_cmp_refl. Qed.

#[export] Instance bytes_lt_strict : StrictOrder bytes_lt.
Proof. split; [exact bytes_lt_irrefl | exact bytes_lt_trans]. Qed.

#[export] Instance bytes_lt_dec a b : Decision (bytes_lt a b).
Proof. unfold bytes_lt. apply _. Defined.

Lemma bytes_cmp_Gt a b : bytes_cmp a b = Gt <-> bytes_lt b a.
Proof.
  unfold bytes_lt. rewrite (bytes_cmp_antisym a b). by destruct (bytes_cmp a b).
Qed.

Lemma bytes_ltb_lt a b : bytes_ltb a b = true <-> bytes_lt a b.
Proof. unfold bytes_ltb, bytes_lt. by destruct (bytes_cmp a b). Qed.

Lemma bytes_cmp_spec a b :
  CompareSpec (a = b) (bytes_lt a b) (bytes_lt b a) (bytes_cmp a b).
Proof.
  destruct (bytes_cmp a b) eqn:H; constructor;
    [by apply bytes_cmp_eq | done | by apply bytes_cmp_Gt].
Qed.

Lemma bytes_cmp_app_same p a b : bytes_cmp (p ++ a) (p ++ b) = bytes_cmp a b.
Proof. induction p as [|x p IH]; cbn; [done|]. by rewrite Z.compare_refl. Qed.

Lemma bytes_cmp_app_ne a b x y :
  length a = length b -> bytes_cmp a b <> Eq ->
  bytes_cmp (a ++ x) (b ++ y) = bytes_cmp a b.
Proof.
  revert b. induction a as [|c a IH]; intros [|d b]; cbn; try done.
  intros Hl. destruct (c ?= d); auto.
Qed.

(** ** Big-endian encodings ([to_be_bytes] and [from_be_bytes]) *)

Fixpoint be_bytes (n : nat) (v : Z) : bytes :=
  match n with
  | O => []
  | S n' => (v / 256 ^ Z.of_nat n') mod 256 :: be_bytes n' v
  end.

Definition be_value (bs : bytes) : Z := fold_left (fun acc b => acc * 256 + b) bs 0.

Lemma be_bytes_length n v : length (be_bytes n v) = n.
Proof. induction n; cbn; auto. Qed.

Lemma be_bytes_u8 n v : Forall is_u8 (be_bytes n v).
Proof.
  induction n; cbn; constructor; [|done]. apply Z.mod_pos_bound. lia.
Qed.

Lemma be_value_acc acc bs :
  fold_left (fun acc b => acc * 256 + b) bs acc = acc * 256 ^ Z.of_nat (length bs) + be_value bs.
Proof.
  unfold be_value. revert acc. induction bs as [|b bs IH]; intros acc; cbn -[Z.pow Z.mul].
  - lia.
  - rewrite IH, (IH (0 * 256 + b)). rewrite Nat2Z.inj_succ, Z.pow_succ_r by lia. lia.
Qed.

Lemma be_value_cons b bs :
  be_value (b :: bs) = b * 256 ^ Z.of_nat (length bs) + be_value bs.
Proof. unfold be_value at 1. cbn -[Z.mul]. by rewrite be_value_acc. Qed.

Lemma be_value_bound bs : Forall is_u8 bs -> 0 <= be_value bs < 256 ^ Z.of_nat (length bs).
Proof.
  induction 1 as [|b bs Hb _ IH]; [by cbn|].
  rewrite be_value_cons. cbn [length]. rewrite Nat2Z.inj_succ, Z.pow_succ_r by lia.
  unfold is_u8 in Hb. nia.
Qed.

Lemma be_value_be_bytes n v : be_value (be_bytes n v) = v mod 256 ^ Z.of_nat n.
Proof.
  induction n as [|n IH]; [by rewrite Z.mod_1_r|].
  cbn [be_bytes]. rewrite be_value_cons, IH, be_bytes_length.
  rewrite Nat2Z.inj_succ, Z.pow_succ_r by lia.
  set (m := 256 ^ Z.of_nat n). assert (0 < m) by (apply Z.pow_pos_nonneg; lia).
  rewrite (Z.mul_comm 256 m), Z.rem_mul_r by lia. lia.
Qed.

Lemma be_value_be_bytes_small n v :
  0 <= v < 256 ^ Z.of_nat n -> be_value (be_bytes n v) = v.
Proof. intros. rewrite be_value_be_bytes. by apply Z.mod_small. Qed.

Lemma be_bytes_mod n v k : (n <= k)%nat -> be_bytes n (v mod 256 ^ Z.of_nat k) = be_bytes n v.
Proof.
  induction n as [|n IH]; intros Hk; cbn; [done|]. f_equal; [|apply IH; lia].
  replace (Z.of_nat k) with (Z.of_nat n + (1 + Z.of_nat (k - S n))) by lia.
  rewrite !Z.pow_add_r, Z.pow_1_r by lia.
  set (m := 256 ^ Z.of_nat n). set (r := 256 ^ Z.of_nat (k - S n)).
  assert (0 < m) by (apply Z.pow_pos_nonneg; lia).
  assert (0 < r) by (apply Z.pow_pos_nonneg; lia).
  rewrite Z.rem_mul_r, Z.mul_comm, Z.div_add by nia.
  rewrite (Z.div_small (v mod m)), Z.add_0_l by (apply Z.mod_pos_bound; lia).
  rewrite Z.rem_mul_r by lia.
  rewrite (Z.mul_comm 256), Z.mod_add, Z.mod_mod by lia. done.
Qed.

Lemma be_bytes_be_value bs : Forall is_u8 bs -> be_bytes (length bs) (be_value bs) = bs.
Proof.
  induction 1 as [|b bs Hb Hbs IH]; [done|]. cbn [length be_bytes].
  rewrite be_value_cons. pose proof (be_value_bound bs Hbs) as Hv.
  set (m := 256 ^ Z.of_nat (length bs)) in *. unfold is_u8 in Hb. f_equal.
  - rewrite Z.div_add_l, (Z.div_small (be_value bs)), Z.add_0_r by lia. by apply Z.mod_small.
  - rewrite <- (be_bytes_mod _ _ (length bs)) by lia. fold m.
    rewrite Z.add_comm, Z.mod_add, Z.mod_small by lia. done.
Qed.

(** Big-endian encodings of one width sort as the integers do. *)
Lemma be_value_cmp a b :
  Forall is_u8 a -> Forall is_u8 b -> length a = length b ->
  bytes_cmp a b = (be_value a ?= be_value b).
Proof.
  intros Ha. revert b. induction Ha as [|x a Hx Ha IH]; intros [|y b] Hb Hl; try done.
  inversion_clear Hb. injection Hl as Hl. rewrite !be_value_cons, Hl. cbn.
  pose proof (be_value_bound a Ha) as Hva. pose proof (be_value_bound b ltac:(done)) as Hvb.
  rewrite Hl in Hva. set (m := 256 ^ Z.of_nat (length b)) in *. unfold is_u8 in *.
  destruct (Z.compare_spec x y); subst.
  - rewrite IH by done. destruct (Z.compare_spec (be_value a) (be_value b)); symmetry;
      [apply Z.compare_eq_iff | apply Z.compare_lt_iff | apply Z.compare_gt_iff]; lia.
  - symmetry. apply Z.compare_lt_iff. nia.
  - symmetry. apply Z.compare_gt_iff. nia.
Qed.

(** A UTF-8 string stays UTF-8 when ASCII bytes are replaced by ASCII bytes. *)
Definition ascii_swap (a b : Z) : Prop := a = b \/ a < 128 /\ b < 128.

(** ** Bit fields *)

Lemma lor_disjoint a b n : 0 <= n -> 0 <= b < 2 ^ n -> Z.lor (a * 2 ^ n) b = a * 2 ^ n + b.
Proof.
  intros Hn Hb. destruct (Z.eq_dec b 0) as [->|]; [rewrite Z.lor_0_r; lia|].
  symmetry. apply Z.add_nocarry_lor, Z.bits_inj'.
  intros i Hi. rewrite Z.land_spec, Z.bits_0. destruct (Z.lt_ge_cases i n).
  - by rewrite Z.mul_pow2_bits_low.
  - rewrite (Z.bits_above_log2 b i), andb_false_r; [done|lia|].
    apply Z.log2_lt_pow2; [lia|]. pose proof (Z.pow_le_mono_r 2 n i). lia.
Qed.

Lemma land_mask v n : 0 <= n -> Z.land v (Z.ones n) = v mod 2 ^ n.
Proof. apply Z.land_ones. Qed.

(** ** UTF-8, as [std::str::from_utf8] accepts it *)

Definition utf8_cont (b : Z) : bool := (128 <=? b) && (b <=? 191).
Definition in_range (lo hi b : Z) : bool := (lo <=? b) && (b <=? hi).

Fixpoint utf8_valid (s : bytes) : bool :=
  match s with
  | [] => true
  | b0 :: s1 =>
      if b0 <? 128 then utf8_valid s1
      else match s1 with
      | [] => false
      | b1 :: s2 =>
          if in_range 194 223 b0 then utf8_cont b1 && utf8_valid s2
          else match s2 with
          | [] => false
          | b2 :: s3 =>
              if in_range 224 239 b0 then
                (if b0 =? 224 then in_range 160 191 b1
                 else if b0 =? 237 then in_range 128 159 b1
                 else utf8_cont b1) && utf8_cont b2 && utf8_valid s3
              else match s3 with
              | [] => false
              | b3 :: s4 =>
                  in_range 240 244 b0 &&
                  (if b0 =? 240 then in_range 144 191 b1
                   else if b0 =? 244 then in_range 128 143 b1
                   else utf8_cont b1) &&
                  utf8_cont b2 && utf8_cont b3 && utf8_valid s4
              end
          end
      end
  end.

Lemma utf8_valid_ascii s : Forall (fun b => is_ascii b = true) s -> utf8_valid s = true.
Proof.
  induction 1 as [|b s Hb _ IH]; [done|]. unfold is_ascii in Hb. cbn. by rewrite Hb.
Qed.

Lemma utf8_valid_swap s t : Forall2 ascii_swap s t -> utf8_valid s = true -> utf8_valid t = true.
Proof.
  remember (length s) as n eqn:Hn. assert (length s <= n)%nat as Hle by lia. clear Hn.
  revert s t Hle. induction n as [|n IH]; intros s t Hle H.
  { destruct H; [done|cbn in Hle; lia]. }
  assert (same : forall a b, ascii_swap a b -> a >= 128 -> b = a)
    by (unfold ascii_swap; intros; lia).
  destruct H as [|b0 c0 s1 t1 H0 H1]; [done|]. cbn in Hle |- *.
  destruct (b0 <? 128) eqn:E0.
  { assert ((c0 <? 128) = true) as -> by (unfold ascii_swap in H0; lia). apply IH; [lia|done]. }
  rewrite (same _ _ H0) by lia. rewrite E0.
  destruct H1 as [|b1 c1 s2 t2 H1 H2]; [done|]. cbn in Hle.
  destruct (in_range 194 223 b0) eqn:E1.
  { intros [Hc Hv]%andb_true_iff. rewrite (same _ _ H1) by (unfold utf8_cont in Hc; lia).
    rewrite Hc. apply (IH s2); [lia|done..]. }
  destruct H2 as [|b2 c2 s3 t3 H2 H3]; [done|]. cbn in Hle.
  destruct (in_range 224 239 b0) eqn:E2.
  { rewrite !andb_true_iff. intros [[Hb1 Hb2] Hv].
    rewrite (same _ _ H1) by (unfold utf8_cont, in_range in Hb1; destruct (b0 =? 224), (b0 =? 237); lia).
    rewrite (same _ _ H2) by (unfold utf8_cont in Hb2; lia).
    rewrite Hb1, Hb2. repeat split. apply (IH s3); [lia|done..]. }
  destruct H3 as [|b3 c3 s4 t4 H3 H4]; [done|]. cbn in Hle.
  rewrite !andb_true_iff. intros [[[[Hb0 Hb1] Hb2] Hb3] Hv].
  rewrite (same _ _ H1) by (unfold utf8_cont, in_range in Hb1; destruct (b0 =? 240), (b0 =? 244); lia).
  rewrite (same _ _ H2) by (unfold utf8_cont in Hb2; lia).
  rewrite (same _ _ H3) by (unfold utf8_cont in Hb3; lia).
  rewrite Hb0, Hb1, Hb2, Hb3. repeat split. apply (IH s4); [lia|done..].
Qed.
