(* ===== verification/StateError.v ===== *)
(** The state and error monad of the stateful parts of the program: a method
    that takes [&mut self] and returns a [Result]. The state a failing call
    leaves behind is kept, as the caller still owns the object. *)
From S2P Require Import Prelude.

Definition st (S E A : Type) : Type := S -> res E A * S.

#[export] Instance st_ret S E : MRet (st S E) := fun A a s => (Ok a, s).
#[export] Instance st_bind S E : MBind (st S E) := fun A B f m s =>
  match m s with
  | (Ok a, s') => f a s'
  | (Err e, s') => (Err e, s')
  | (Panic, s') => (Panic, s')
  end.

Section Operations.
Context {S E A : Type}.

Definition fail (e : E) : st S E A := fun s => (Err e, s).
Definition panic : st S E A := fun s => (Panic, s).
Definition lift (m : res E A) : st S E A := fun s => (m, s).
Definition gets (f : S -> A) : st S E A := fun s => (Ok (f s), s).
Definition modify (f : S -> S) : st S E () := fun s => (Ok (), f s).

(** [and_then] on an outcome, whatever it is: the state is kept. *)
Definition attempt (m : st S E A) : st S E (res E A) := fun s =>
  match m s with (Panic, s') => (Panic, s') | (r, s') => (Ok r, s') end.
End Operations.

(** [for _ in 0..n { out.push(m()?) }] *)
Fixpoint replicate_m {S E A} (n : nat) (m : st S E A) : st S E (list A) :=
  match n with
  | O => mret []
  | S n' => a ← m; l ← replicate_m n' m; mret (a :: l)
  end.

(** [for a in l { f(a)?; }] *)
Fixpoint for_each {S E A} (f : A -> st S E ()) (l : list A) : st S E () :=
  match l with
  | [] => mret ()
  | a :: l' => _ ← f a; for_each f l'
  end.

Lemma for_each_map {S E A B} (f : B -> st S E ()) (g : A -> B) l :
  for_each f (map g l) = for_each (fun a => f (g a)) l.
Proof. induction l as [|a l IH]; [done|]. cbn. by rewrite IH. Qed.

Section Runs.
Context {S E A B : Type}.
Implicit Types (m : st S E A) (f : A -> st S E B) (s : S).

Lemma st_bind_Ok m f s b s' :
  (m ≫= f) s = (Ok b, s') <-> exists a s1, m s = (Ok a, s1) /\ f a s1 = (Ok b, s').
Proof. unfold mbind, st_bind. destruct (m s) as [[a| |] s1]; naive_solver. Qed.

Lemma st_ret_Ok (a b : A) s s' : (mret a : st S E A) s = (Ok b, s') <-> a = b /\ s = s'.
Proof. unfold mret, st_ret. naive_solver. Qed.

Lemma st_fail_Ok (e : E) s (a : A) s' : fail e s = (Ok a, s') <-> False.
Proof. unfold fail. naive_solver. Qed.

Lemma st_lift_Ok (r : res E A) s a s' : lift r s = (Ok a, s') <-> r = Ok a /\ s = s'.
Proof. unfold lift. naive_solver. Qed.

Lemma st_gets_Ok (g : S -> A) s a s' : gets (E:=E) g s = (Ok a, s') <-> g s = a /\ s = s'.
Proof. unfold gets. naive_solver. Qed.

Lemma st_modify_Ok (g : S -> S) s u s' : modify (E:=E) g s = (Ok u, s') <-> g s = s'.
Proof. unfold modify. destruct u. naive_solver. Qed.

Lemma st_if_fail_Ok (b : bool) (e : E) m s a s' :
  (if b then fail e else m) s = (Ok a, s') <-> b = false /\ m s = (Ok a, s').
Proof. destruct b; unfold fail; naive_solver. Qed.

Lemma st_bind_assoc {C} m f (g : B -> st S E C) s :
  ((m ≫= f) ≫= g) s = (m ≫= (fun a => f a ≫= g)) s.
Proof. unfold mbind, st_bind. by destruct (m s) as [[]]. Qed.

Lemma st_bind_run m f s a s1 : m s = (Ok a, s1) -> (m ≫= f) s = f a s1.
Proof. intros H. unfold mbind, st_bind. by rewrite H. Qed.
End Runs.

(** ** Safety: an invariant of the state, and no panic *)

Section Safe.
Context {S E : Type} (I : S -> Prop).

(** From a state in the invariant, [m] does not panic, ends in the invariant,
    and a result satisfies [Q]. *)
Definition safe {A} (m : st S E A) (Q : A -> Prop) : Prop :=
  forall s, I s -> match m s with
                   | (Ok a, s') => I s' /\ Q a
                   | (Err _, s') => I s'
                   | (Panic, _) => False
                   end.

Lemma safe_bind {A B} (m : st S E A) (f : A -> st S E B) Q R :
  safe m Q -> (forall a, Q a -> safe (f a) R) -> safe (m ≫= f) R.
Proof.
  intros Hm Hf s Hs. specialize (Hm s Hs). unfold mbind, st_bind.
  destruct (m s) as [[a| |] s1]; [|done..]. destruct Hm as [HI HQ]. exact (Hf a HQ s1 HI).
Qed.

Lemma safe_ret {A} (a : A) (Q : A -> Prop) : Q a -> safe (mret a) Q.
Proof. by intros HQ s Hs. Qed.

Lemma safe_fail {A} (e : E) (Q : A -> Prop) : safe (fail e) Q.
Proof. by intros s Hs. Qed.

Lemma safe_if_fail {A} (b : bool) (e : E) (m : st S E A) Q :
  (b = false -> safe m Q) -> safe (if b then fail e else m) Q.
Proof. destruct b; [|by auto]. intros _. apply safe_fail. Qed.

Lemma safe_if {A} (b : bool) (m1 m2 : st S E A) Q :
  (b = true -> safe m1 Q) -> (b = false -> safe m2 Q) -> safe (if b then m1 else m2) Q.
Proof. destruct b; auto. Qed.

Lemma safe_lift {A} (r : res E A) (Q : A -> Prop) :
  no_panic r -> (forall a, r = Ok a -> Q a) -> safe (lift r) Q.
Proof. intros Hr HQ s Hs. unfold lift. destruct r; naive_solver. Qed.

Lemma safe_gets {A} (g : S -> A) (Q : A -> Prop) : (forall s, I s -> Q (g s)) -> safe (gets g) Q.
Proof. intros HQ s Hs. cbn. auto. Qed.

Lemma safe_modify (g : S -> S) : (forall s, I s -> I (g s)) -> safe (modify g) (fun _ => True).
Proof. intros Hg s Hs. cbn. auto. Qed.

Lemma safe_weaken {A} (m : st S E A) (Q R : A -> Prop) :
  safe m Q -> (forall a, Q a -> R a) -> safe m R.
Proof. intros Hm HQ s Hs. specialize (Hm s Hs). destruct (m s) as [[]]; naive_solver. Qed.

Lemma safe_replicate_m {A} n (m : st S E A) Q : safe m Q -> safe (replicate_m n m) (Forall Q).
Proof.
  intros Hm. induction n as [|n IH]; [by apply safe_ret|]. cbn.
  eapply safe_bind; [done|]. intros a Ha. eapply safe_bind; [done|]. intros l Hl.
  apply safe_ret. by constructor.
Qed.
End Safe.
