(* ===== verification/SmallString.v ===== *)
(** The inline-or-heap string of [src/src/syntax/small_string.rs]. *)
From S2P Require Import Prelude.

Definition INLINE : nat := 32.

(** [Inline { bytes, len }] holds the text in the first [len] of [INLINE]
    bytes. *)
Inductive Storage :=
| Inline (buf : bytes) (len : Z)
| Heap (value : bytes).

Definition from (value : bytes) : Storage :=
  if decide (length value <= INLINE)%nat then
    Inline (value ++ replicate (INLINE - length value) 0) (as_u8 (Z.of_nat (length value)))
  else Heap value.

(** [from_utf8(..).unwrap_or_default()] *)
Definition as_str (s : Storage) : res () bytes :=
  match s with
  | Inline buf len =>
      text ← slice_to buf (Z.to_nat len);
      Ok (if utf8_valid text then text else [])
  | Heap value => Ok value
  end.

Definition lowercase_prefix (s : Storage) (n : nat) : res () Storage :=
  match s with
  | Inline buf len =>
      head ← slice_to buf n;
      Ok (Inline (make_ascii_lowercase head ++ drop n buf) len)
  | Heap value =>
      head ← slice_to value n;
      Ok (Heap (make_ascii_lowercase head ++ drop n value))
  end.

Definition default : Storage := from [].

(** [PartialEq] and [Ord] go through the text. *)
Definition eq (a b : Storage) : res () bool :=
  x ← as_str a; y ← as_str b; Ok (bool_decide (x = y)).

Definition cmp (a b : Storage) : res () comparison :=
  x ← as_str a; y ← as_str b; Ok (bytes_cmp x y).

(** ** The representation is invisible *)

(** A representation of the text [s], inline or on the heap. *)
Definition represents (st : Storage) (s : bytes) : Prop :=
  match st with
  | Inline buf len =>
      exists pad, buf = s ++ pad /\ length buf = INLINE /\ len = Z.of_nat (length s)
  | Heap value => value = s
  end.

Lemma from_represents s : represents (from s) s.
Proof.
  unfold from. case_decide as Hl; [|done]. unfold INLINE in *.
  eexists. split; [done|]. rewrite length_app, length_replicate.
  unfold as_u8. rewrite Z.mod_small by lia. unfold INLINE. lia.
Qed.

Lemma as_str_represents st s : utf8_valid s = true -> represents st s -> as_str st = Ok s.
Proof.
  intros Hu. destruct st as [buf len|value]; cbn; [|by intros ->].
  intros (pad & -> & Hb & ->). rewrite length_app in Hb.
  rewrite Nat2Z.id, slice_to_Ok by (rewrite length_app; lia).
  cbn. by rewrite take_app_length, Hu.
Qed.

Definition lower_prefix (n : nat) (s : bytes) : bytes :=
  make_ascii_lowercase (take n s) ++ drop n s.

Lemma lower_prefix_length n s : length (lower_prefix n s) = length s.
Proof.
  unfold lower_prefix. rewrite length_app, make_ascii_lowercase_length, <- length_app.
  by rewrite take_drop.
Qed.

Lemma make_ascii_lowercase_swap s : Forall2 ascii_swap s (make_ascii_lowercase s).
Proof.
  apply Forall2_fmap_r, Forall_Forall2_diag, Forall_forall. intros b _.
  unfold ascii_swap, to_ascii_lowercase, is_ascii_uppercase. cbn.
  destruct ((65 <=? b) && (b <=? 90)) eqn:?; lia.
Qed.

Lemma lower_prefix_utf8 n s : utf8_valid s = true -> utf8_valid (lower_prefix n s) = true.
Proof.
  apply utf8_valid_swap. rewrite <- (take_drop n s) at 1. apply Forall2_app.
  - apply make_ascii_lowercase_swap.
  - apply Forall_Forall2_diag, Forall_forall. by left.
Qed.

Lemma lowercase_prefix_represents st s n : (n <= length s)%nat -> represents st s ->
  exists st', lowercase_prefix st n = Ok st' /\ represents st' (lower_prefix n s).
Proof.
  intros Hn. destruct st as [buf len|value]; cbn.
  - intros (pad & -> & Hb & ->). rewrite length_app in Hb.
    rewrite slice_to_Ok by (rewrite length_app; lia). eexists. split; [done|]. exists pad.
    rewrite lower_prefix_length, take_app_le, drop_app_le by done. unfold lower_prefix.
    rewrite app_assoc. split; [done|]. split; [|done].
    by rewrite <- Hb, !length_app, make_ascii_lowercase_length, <- (length_app (take _ _)), take_drop.
  - intros ->. rewrite slice_to_Ok by done. by eexists.
Qed.

(** A [SmallString] made from a [str] reads back as it, and lowercasing a
    prefix of it does to the text what [str] indexing would, whichever
    representation it has. *)
Theorem small_string_transparent s n : utf8_valid s = true -> (n <= length s)%nat ->
  as_str (from s) = Ok s /\
  exists st, lowercase_prefix (from s) n = Ok st /\
    as_str st = Ok (make_ascii_lowercase (take n s) ++ drop n s).
Proof.
  intros Hu Hn. split; [by apply as_str_represents, from_represents|].
  destruct (lowercase_prefix_represents (from s) s n Hn (from_represents s)) as (st & -> & Hst).
  exists st. split; [done|]. apply (as_str_represents st); [by apply lower_prefix_utf8|done].
Qed.

Example small_string_transparent_witness :
  as_str (from (b# "App.Bsky.feed")) = Ok (b# "App.Bsky.feed") /\
  exists st, lowercase_prefix (from (b# "App.Bsky.feed")) 8 = Ok st /\
    as_str st = Ok (b# "app.bsky.feed").
Proof. apply (small_string_transparent (b# "App.Bsky.feed") 8); [reflexivity | cbn; lia]. Defined.

Lemma cmp_represents a b s r : utf8_valid s = true -> utf8_valid r = true ->
  represents a s -> represents b r -> cmp a b = Ok (bytes_cmp s r).
Proof.
  intros Hs Hr Ha Hb. unfold cmp.
  by rewrite (as_str_represents a s), (as_str_represents b r).
Qed.
