(* ===== verification/SyntaxError.v ===== *)
(** The error type of [src/src/syntax/mod.rs].

    The messages are built with [format!]; an [ErrMsg] keeps what a message
    is built from (the raw input, the fixed text, the numbers, the error that
    caused it) instead of the rendered text. *)
From S2P Require Import Prelude.

Inductive SyntaxError :=
| InvalidDid (m : ErrMsg)
| InvalidHandle (m : ErrMsg)
| InvalidNsid (m : ErrMsg)
| InvalidAtUri (m : ErrMsg)
| InvalidTid (m : ErrMsg)
| InvalidDatetime (m : ErrMsg)
| InvalidRecordKey (m : ErrMsg)
| InvalidLanguage (m : ErrMsg)
with ErrMsg :=
| Text (text : string)                      (* ["..."] *)
| TextArgs (text : string) (args : list Z)  (* [format!("... {n} ...")] *)
| About (raw : bytes) (text : string)       (* [format!("{raw:?}: {msg}")] *)
| AboutCause (raw : bytes) (text : string) (cause : SyntaxError).
