(* ===== verification/Tid.v ===== *)
(** TIDs and the TID clock: [src/src/syntax/tid.rs].

    A [Tid] is its [u64]. The clock is a transition system: threads run
    [next], whose loop loads the shared timestamp and later tries to
    compare-and-exchange it, and [observe], a single atomic [fetch_max]; the
    steps of different threads interleave freely. *)
From S2P Require Import Prelude SyntaxError.

(** ** Construction and accessors *)

Definition ALPHABET : bytes := Eval cbv in b# "234567abcdefghijklmnopqrstuvwxyz".

Definition MAX_TID_MICROS : Z := Z.shiftl 1 53 - 1.
Definition MAX_TID_CLOCK_ID : Z := Z.shiftl 1 10 - 1.

Definition new (timestamp_micros clock_id : Z) : res SyntaxError Z :=
  if MAX_TID_MICROS <? timestamp_micros then
    Err (InvalidTid (TextArgs "timestamp_micros {} out of range [0, 2^53)" [timestamp_micros]))
  else if MAX_TID_CLOCK_ID <? clock_id then
    Err (InvalidTid (TextArgs "clock_id {} out of range [0, 2^10)" [clock_id]))
  else Ok (Z.lor (as_u64 (Z.shiftl timestamp_micros 10)) clock_id).

Definition from_integer (v : Z) : Z := Z.land v (as_u64 (Z.lnot (Z.shiftl 1 63))).

Definition timestamp_micros (t : Z) : Z := Z.shiftr t 10.
Definition clock_id (t : Z) : Z := as_u16 (Z.land t 0x3FF).

(** ** Display and parsing *)

(** [for i in (0..13).rev() { buf[i] = ALPHABET[v & 0x1F]; v >>= 5 }]: the
    buffer fills from its end. *)
Fixpoint display_loop (i : nat) (v : Z) (buf : bytes) : bytes :=
  match i with
  | O => buf
  | S i' => display_loop i' (Z.shiftr v 5) (ALPHABET !!! Z.to_nat (Z.land v 0x1F) :: buf)
  end.

Definition display (t : Z) : res () bytes :=
  let buf := display_loop 13 t [] in
  if utf8_valid buf then Ok buf else Err ().

Definition is_tid_first_char (c : Z) : bool := in_range 50 55 c || in_range 97 106 c.
Definition is_tid_char (c : Z) : bool := in_range 50 55 c || is_ascii_lowercase c.
Definition base32_decode (c : Z) : Z := if in_range 50 55 c then c - 50 else c - 97 + 6.

Definition decode_step (v b : Z) : Z := Z.lor (as_u64 (Z.shiftl v 5)) (base32_decode b).

Definition try_from (raw : bytes) : res SyntaxError Z :=
  let err msg := Err (InvalidTid (About raw msg)) in
  if negb (length raw =? 13)%nat then err "must be exactly 13 characters"%string
  else
    b0 ← index raw 0;
    if negb (is_tid_first_char b0) then
      err "invalid first character (high bit would be set)"%string
    else if negb (forallb is_tid_char (drop 1 raw)) then err "invalid character"%string
    else Ok (fold_left decode_step raw 0).

(** ** The clock *)

Definition clock_new (clock_id : Z) : res SyntaxError (Z * Z) :=
  if 1024 <=? clock_id then Err (InvalidTid (Text "clock_id must fit in 10 bits"))
  else Ok (0, clock_id).

(** The timestamp [next] tries to install, from the one it loaded. *)
Definition next_ts (prev now : Z) : Z :=
  Z.min (if prev <? now then now else prev + 1) MAX_TID_MICROS.

Definition next_tid (clock_id ts : Z) : Z :=
  from_integer (Z.lor (as_u64 (Z.shiftl ts 10)) clock_id).

(** What a thread is about to do: start an iteration of [next]'s loop, or
    exchange the timestamp it loaded. *)
Inductive thread := Idle | Loaded (prev : Z).

Inductive event := Observed (t : Z) | Emitted (t : Z).
Definition event_tid (e : event) : Z := match e with Observed t => t | Emitted t => t end.

Record clock := MkClock {
  last : Z;                    (* the [AtomicU64] *)
  threads : gmap nat thread;   (* absent: [Idle] *)
  log : list event;            (* most recent first *)
}.

Definition thread_at (c : clock) (i : nat) : thread := default Idle (threads c !! i).

(** [fetch_max(tid.timestamp_micros())] *)
Definition observe (c : clock) (t : Z) : clock :=
  MkClock (Z.max (last c) (timestamp_micros t)) (threads c) (Observed t :: log c).

(** [let prev = self.last.load(..)] *)
Definition load (c : clock) (i : nat) : clock :=
  MkClock (last c) (<[i := Loaded (last c)]> (threads c)) (log c).

(** A successful [compare_exchange_weak(prev, ts)], and the return of [next]. *)
Definition exchange (cid : Z) (c : clock) (i : nat) (prev now : Z) : clock :=
  let ts := next_ts prev now in
  MkClock ts (<[i := Idle]> (threads c)) (Emitted (next_tid cid ts) :: log c).

(** A failed exchange: another iteration of the loop. *)
Definition retry (c : clock) (i : nat) : clock :=
  MkClock (last c) (<[i := Idle]> (threads c)) (log c).

Inductive step (cid : Z) (c : clock) : clock -> Prop :=
| step_observe t : is_u64 t -> step cid c (observe c t)
| step_load i : thread_at c i = Idle -> step cid c (load c i)
| step_exchange i prev now :
    thread_at c i = Loaded prev -> is_u64 now -> last c = prev ->
    step cid c (exchange cid c i prev now)
| step_retry i prev : thread_at c i = Loaded prev -> step cid c (retry c i).

Definition init : clock := MkClock 0 ∅ [].

Inductive reachable (cid : Z) : clock -> Prop :=
| reach_init : reachable cid init
| reach_step c c' : reachable cid c -> step cid c c' -> reachable cid c'.

(** ** Digits *)

(** The digit characters are the alphabet's entries for [0..31], and
    [base32_decode] is their inverse. *)
Definition alphabet_at (d : Z) : Z := ALPHABET !!! Z.to_nat d.

Definition digit_facts (d : Z) : bool :=
  (base32_decode (alphabet_at d) =? d) && is_tid_char (alphabet_at d) &&
  is_ascii (alphabet_at d) && (0 <=? alphabet_at d) &&
  Bool.eqb (is_tid_first_char (alphabet_at d)) (d <? 16).

Lemma digit_facts_all d : 0 <= d < 32 -> digit_facts d = true.
Proof.
  intros Hd.
  assert (H : forallb digit_facts (Z.of_nat <$> seq 0 32) = true) by reflexivity.
  rewrite forallb_forall in H. apply H. rewrite <- list_elem_of_In.
  apply list_elem_of_fmap. exists (Z.to_nat d).
  rewrite Z2Nat.id by lia. split; [done|]. apply elem_of_seq. lia.
Qed.

Lemma alphabet_at_mono d e : 0 <= d < 32 -> 0 <= e < 32 ->
  (alphabet_at d ?= alphabet_at e) = (d ?= e).
Proof.
  intros Hd He.
  set (ok d e := bool_decide ((alphabet_at d ?= alphabet_at e) = (d ?= e))).
  assert (H : forallb (fun d => forallb (ok d) (Z.of_nat <$> seq 0 32))
                (Z.of_nat <$> seq 0 32) = true) by reflexivity.
  assert (Hin : forall x, 0 <= x < 32 -> In x (Z.of_nat <$> seq 0 32)).
  { intros x Hx. rewrite <- list_elem_of_In. apply list_elem_of_fmap.
    exists (Z.to_nat x). rewrite Z2Nat.id by lia. split; [done|]. apply elem_of_seq. lia. }
  rewrite forallb_forall in H. specialize (H d (Hin d Hd)).
  rewrite forallb_forall in H. specialize (H e (Hin e He)).
  by apply bool_decide_eq_true in H.
Qed.

Lemma char_digit c : is_tid_char c = true ->
  exists d, 0 <= d < 32 /\ c = alphabet_at d.
Proof.
  intros Hc. exists (base32_decode c).
  assert (Hr : 50 <= c <= 55 \/ 97 <= c <= 122)
    by (unfold is_tid_char, in_range in Hc; ascii_lia).
  assert (H : forallb (fun c => bool_decide (c = alphabet_at (base32_decode c))
      && (0 <=? base32_decode c) && (base32_decode c <? 32))
      ((fun n => Z.of_nat n + 50) <$> seq 0 6 ++ seq 47 26) = true) by reflexivity.
  rewrite forallb_forall in H. specialize (H c). rewrite <- list_elem_of_In in H.
  rewrite list_elem_of_fmap in H.
  assert (Hin : exists y, c = Z.of_nat y + 50 /\ y ∈ seq 0 6 ++ seq 47 26).
  { exists (Z.to_nat (c - 50)). split; [lia|].
    rewrite elem_of_app, !elem_of_seq. lia. }
  specialize (H Hin). rewrite !andb_true_iff in H.
  destruct H as [[H1 ?] ?]. apply bool_decide_eq_true in H1. lia.
Qed.

(** The [n] base-32 digits of [v], most significant first. *)
Fixpoint digits (n : nat) (v : Z) : bytes :=
  match n with
  | O => []
  | S n' => digits n' (v / 32) ++ [alphabet_at (v mod 32)]
  end.

Lemma digits_length n v : length (digits n v) = n.
Proof.
  revert v. induction n as [|n IH]; intros v; cbn; [done|].
  rewrite length_app, IH. cbn. lia.
Qed.

Lemma display_loop_digits n v buf : display_loop n v buf = digits n v ++ buf.
Proof.
  revert v buf. induction n as [|n IH]; intros v buf; [done|]. cbn [display_loop digits].
  rewrite IH, <- (app_assoc _ [_]). cbn [app]. rewrite Z.shiftr_div_pow2 by lia.
  change 0x1F with (Z.ones 5). rewrite Z.land_ones by lia. done.
Qed.

Lemma digits_chars n v : Forall (fun c => is_tid_char c = true) (digits n v).
Proof.
  revert v. induction n as [|n IH]; intros v; cbn; [done|].
  apply Forall_app. split; [done|]. repeat constructor.
  pose proof (digit_facts_all (v mod 32) ltac:(apply Z.mod_pos_bound; lia)) as H.
  unfold digit_facts in H. by rewrite !andb_true_iff in H; destruct_and!.
Qed.

Lemma display_digits v : display v = Ok (digits 13 v).
Proof.
  unfold display. rewrite display_loop_digits, app_nil_r.
  rewrite utf8_valid_ascii; [done|].
  eapply Forall_impl; [apply digits_chars|]. intros c Hc. cbn in Hc.
  unfold is_tid_char, in_range in Hc. ascii_lia.
Qed.

Lemma decode_step_spec v b : 0 <= v < 2 ^ 59 -> is_tid_char b = true ->
  decode_step v b = 32 * v + base32_decode b.
Proof.
  intros Hv Hb. apply char_digit in Hb as (d & Hd & ->).
  pose proof (digit_facts_all d Hd) as Hf. unfold digit_facts in Hf.
  rewrite !andb_true_iff in Hf. destruct_and!.
  unfold decode_step. replace (base32_decode (alphabet_at d)) with d by lia.
  rewrite Z.shiftl_mul_pow2 by lia. unfold as_u64. rewrite Z.mod_small by lia.
  rewrite (Z.mul_comm v), (Z.mul_comm (2 ^ 5)), lor_disjoint by lia. lia.
Qed.

Lemma decode_digits n v : (n <= 12)%nat -> 0 <= v < 32 ^ Z.of_nat n ->
  fold_left decode_step (digits n v) 0 = v.
Proof.
  revert v. induction n as [|n IH]; intros v Hn Hv; [cbn in *; lia|].
  cbn [digits]. rewrite Nat2Z.inj_succ, Z.pow_succ_r in Hv by lia.
  pose proof (Z.div_mod v 32 ltac:(lia)) as Hdm.
  pose proof (Z.mod_pos_bound v 32 ltac:(lia)) as Hm.
  assert (0 <= v / 32 < 32 ^ Z.of_nat n) as Hd by lia.
  rewrite fold_left_app, IH by (auto; lia). cbn [fold_left].
  pose proof (Z.pow_le_mono_r 32 (Z.of_nat n) 11 ltac:(lia) ltac:(lia)).
  pose proof (digit_facts_all _ Hm) as Hf. unfold digit_facts in Hf.
  rewrite !andb_true_iff in Hf. destruct_and!.
  rewrite decode_step_spec by (done || lia). lia.
Qed.

Lemma decode_digits_13 v : is_u64 v -> fold_left decode_step (digits 13 v) 0 = v.
Proof.
  unfold is_u64. intros Hv. change (digits 13 v) with (digits 12 (v / 32) ++ [alphabet_at (v mod 32)]).
  pose proof (Z.div_mod v 32 ltac:(lia)).
  pose proof (Z.mod_pos_bound v 32 ltac:(lia)) as Hm.
  rewrite fold_left_app, decode_digits by (try change (32 ^ Z.of_nat 12) with (2 ^ 60); lia). cbn [fold_left].
  pose proof (digit_facts_all _ Hm) as Hf. unfold digit_facts in Hf.
  rewrite !andb_true_iff in Hf. destruct_and!.
  rewrite decode_step_spec by (done || lia). lia.
Qed.

Lemma digits_head n v : 0 <= v ->
  digits (S n) v !! 0%nat = Some (alphabet_at ((v / 32 ^ Z.of_nat n) mod 32)).
Proof.
  revert v. induction n as [|n IH]; intros v Hv.
  - cbn. by rewrite Z.div_1_r.
  - cbn [digits] in *. rewrite lookup_app_l
      by (rewrite length_app; cbn; lia).
    rewrite IH by (apply Z.div_pos; lia).
    rewrite Z.div_div, <- Z.pow_succ_r, <- Nat2Z.inj_succ by lia. done.
Qed.

Lemma digits_first_char v : is_u64 v ->
  exists b, digits 13 v !! 0%nat = Some b /\ is_tid_first_char b = true.
Proof.
  unfold is_u64. intros Hv. rewrite digits_head by lia. eexists. split; [done|].
  change (32 ^ Z.of_nat 12) with (2 ^ 60).
  assert (0 <= v / 2 ^ 60 < 16) as Hd
    by (split; [apply Z.div_pos|apply Z.div_lt_upper_bound]; lia).
  rewrite Z.mod_small by lia.
  pose proof (digit_facts_all (v / 2 ^ 60) ltac:(lia)) as Hf. unfold digit_facts in Hf.
  rewrite !andb_true_iff in Hf. destruct_and!.
  destruct (is_tid_first_char _); [done|].
  destruct (v / 2 ^ 60 <? 16) eqn:?; [done|lia].
Qed.

Lemma try_from_digits v : is_u64 v -> try_from (digits 13 v) = Ok v.
Proof.
  intros Hv. pose proof (digits_length 13 v) as Hlen.
  pose proof (digits_first_char v Hv) as (b & Hb & Hf).
  pose proof (digits_chars 13 v) as Hall. pose proof (decode_digits_13 v Hv) as Hdec.
  revert Hlen Hb Hall Hdec. generalize (digits 13 v) as s. intros s Hlen Hb Hall Hdec.
  unfold try_from, index. rewrite Hlen, Hb. cbn [negb Nat.eqb mbind res_bind].
  rewrite Hf, Hdec. cbn [negb].
  assert (forallb is_tid_char (drop 1 s) = true) as ->; [|done].
  apply forallb_forall. intros c Hc. rewrite Forall_forall in Hall.
  apply Hall. apply list_elem_of_In in Hc.
  rewrite <- (take_drop 1 s). apply elem_of_app. auto.
Qed.

Lemma digits_surj n s : length s = n -> Forall (fun c => is_tid_char c = true) s ->
  exists v, 0 <= v < 32 ^ Z.of_nat n /\ digits n v = s.
Proof.
  revert s. induction n as [|n IH]; intros s Hl Hs.
  - destruct s; [|done]. exists 0. by split.
  - destruct s as [|c s] using rev_ind; [done|]. clear IHs.
    rewrite length_app in Hl. cbn in Hl. apply Forall_app in Hs as [Hs Hc].
    inversion_clear Hc.
    destruct (IH s ltac:(lia) Hs) as (v & Hv & <-).
    destruct (char_digit c) as (d & Hd & ->); [done|].
    exists (32 * v + d). rewrite Nat2Z.inj_succ, Z.pow_succ_r by lia. split; [lia|].
    cbn [digits]. rewrite (Z.mul_comm 32), Z.div_add_l, (Z.div_small d), Z.add_0_r by lia.
    by rewrite Z.add_comm, Z.mod_add, Z.mod_small by lia.
Qed.

Lemma try_from_inv raw t : try_from raw = Ok t -> is_u64 t /\ raw = digits 13 t.
Proof.
  unfold try_from. destruct (length raw =? 13)%nat eqn:Hlen; cbn [negb]; [|done].
  apply Nat.eqb_eq in Hlen.
  intros (b0 & Hb0 & H)%res_bind_Ok. apply index_Ok in Hb0.
  destruct (is_tid_first_char b0) eqn:Hf; cbn [negb] in H; [|done].
  destruct (forallb _ _) eqn:Hall; cbn [negb] in H; [|done].
  injection H as <-.
  destruct (digits_surj 13 raw Hlen) as (v & Hv & <-).
  { destruct raw as [|b raw]; [done|]. injection Hb0 as ->. constructor.
    - unfold is_tid_first_char, is_tid_char, in_range in *. ascii_lia.
    - rewrite forallb_forall in Hall. apply Forall_forall. intros c Hc.
      apply Hall. rewrite <- list_elem_of_In. by cbn. }
  rewrite digits_head in Hb0 by lia. injection Hb0 as <-.
  change (32 ^ Z.of_nat 12) with (2 ^ 60) in Hf. change (32 ^ Z.of_nat 13) with (2 ^ 65) in Hv.
  assert (0 <= v / 2 ^ 60 < 32) as Hd
    by (split; [apply Z.div_pos|apply Z.div_lt_upper_bound]; lia).
  rewrite Z.mod_small in Hf by lia.
  pose proof (digit_facts_all (v / 2 ^ 60) ltac:(lia)) as Hff. unfold digit_facts in Hff.
  rewrite Hf, !andb_true_iff in Hff. destruct_and!.
  assert (is_u64 v) as Hu.
  { unfold is_u64. pose proof (Z.div_mod v (2 ^ 60) ltac:(lia)).
    pose proof (Z.mod_pos_bound v (2 ^ 60) ltac:(lia)).
    destruct (v / 2 ^ 60 <? 16) eqn:?; [lia|done]. }
  by rewrite decode_digits_13.
Qed.

Lemma bytes_cmp_snoc a b x y : length a = length b ->
  bytes_cmp (a ++ [x]) (b ++ [y]) = match bytes_cmp a b with Eq => x ?= y | c => c end.
Proof.
  intros Hl. destruct (bytes_cmp a b) eqn:H.
  - apply bytes_cmp_eq in H. subst. rewrite bytes_cmp_app_same. cbn. by destruct (x ?= y).
  - by rewrite bytes_cmp_app_ne; rewrite ?H.
  - by rewrite bytes_cmp_app_ne; rewrite ?H.
Qed.

Lemma digits_cmp n a b : 0 <= a < 32 ^ Z.of_nat n -> 0 <= b < 32 ^ Z.of_nat n ->
  bytes_cmp (digits n a) (digits n b) = (a ?= b).
Proof.
  revert a b. induction n as [|n IH]; intros a b Ha Hb.
  { cbn in *. symmetry. apply Z.compare_eq_iff. lia. }
  cbn [digits]. rewrite Nat2Z.inj_succ, Z.pow_succ_r in Ha, Hb by lia.
  pose proof (Z.div_mod a 32 ltac:(lia)). pose proof (Z.mod_pos_bound a 32 ltac:(lia)).
  pose proof (Z.div_mod b 32 ltac:(lia)). pose proof (Z.mod_pos_bound b 32 ltac:(lia)).
  rewrite bytes_cmp_snoc, IH by (rewrite ?digits_length; lia).
  rewrite alphabet_at_mono by done.
  destruct (Z.compare_spec (a / 32) (b / 32)).
  - destruct (Z.compare_spec (a mod 32) (b mod 32)); symmetry;
      [apply Z.compare_eq_iff|apply Z.compare_lt_iff|apply Z.compare_gt_iff]; lia.
  - symmetry. apply Z.compare_lt_iff. lia.
  - symmetry. apply Z.compare_gt_iff. lia.
Qed.

(** ** Properties of parsing *)

(** Every [u64] prints as a string that parses back to it. *)
Theorem tid_display_roundtrip t : is_u64 t ->
  exists s, display t = Ok s /\ try_from s = Ok t.
Proof. intros Ht. exists (digits 13 t). by rewrite display_digits, try_from_digits. Qed.

Example tid_display_roundtrip_witness :
  exists s, display 1945000000000000512 = Ok s /\ try_from s = Ok 1945000000000000512.
Proof. apply (tid_display_roundtrip 1945000000000000512). unfold is_u64. lia. Defined.

(** A string parses to at most one TID, and that TID prints as exactly
    the string: the text form is canonical. *)
Theorem tid_parse_canonical raw t : try_from raw = Ok t ->
  is_u64 t /\ display t = Ok raw.
Proof. intros [Ht ->]%try_from_inv. by rewrite display_digits. Qed.

(** TID strings sort as the integers they stand for. *)
Theorem tid_display_order a b s r :
  is_u64 a -> is_u64 b -> display a = Ok s -> display b = Ok r ->
  bytes_cmp s r = (a ?= b).
Proof.
  rewrite !display_digits. unfold is_u64. intros Ha Hb Hs Hr.
  assert (s = digits 13 a /\ r = digits 13 b) as [-> ->] by (split; congruence).
  apply digits_cmp; change (32 ^ Z.of_nat 13) with (2 ^ 65); lia.
Qed.

Example tid_parse_canonical_witness :
  is_u64 1945000000000000512 /\ display 1945000000000000512 = Ok (b# "3pzkbabo472k2").
Proof. apply (tid_parse_canonical (b# "3pzkbabo472k2")). vm_compute. reflexivity. Defined.

Lemma pack_spec ts id : 0 <= ts <= MAX_TID_MICROS -> 0 <= id <= MAX_TID_CLOCK_ID ->
  Z.lor (as_u64 (Z.shiftl ts 10)) id = ts * 2 ^ 10 + id.
Proof.
  unfold MAX_TID_MICROS, MAX_TID_CLOCK_ID, as_u64. rewrite !Z.shiftl_mul_pow2 by lia.
  intros Hts Hid. rewrite Z.mod_small by lia. apply lor_disjoint; lia.
Qed.

Lemma unpack_timestamp ts id : 0 <= id < 2 ^ 10 -> timestamp_micros (ts * 2 ^ 10 + id) = ts.
Proof.
  intros Hid. unfold timestamp_micros. rewrite Z.shiftr_div_pow2 by lia.
  rewrite Z.div_add_l, Z.div_small by lia. lia.
Qed.

Lemma unpack_clock_id ts id : 0 <= id < 2 ^ 10 -> clock_id (ts * 2 ^ 10 + id) = id.
Proof.
  intros Hid. unfold clock_id, as_u16. change 0x3FF with (Z.ones 10).
  rewrite land_mask by lia. rewrite Z.add_comm, Z.mod_add by lia.
  by rewrite (Z.mod_small id), Z.mod_small by lia.
Qed.

(** [Tid::new] accepts exactly the in-range fields, packs them below the
    reserved bit, and the accessors read them back. *)
Theorem tid_new_spec ts id t : is_u64 ts -> is_u16 id ->
  new ts id = Ok t <->
  ts < 2 ^ 53 /\ id < 2 ^ 10 /\ t < 2 ^ 63 /\ timestamp_micros t = ts /\ clock_id t = id.
Proof.
  unfold is_u64, is_u16. intros Hts Hid. unfold new.
  assert (MAX_TID_MICROS = 2 ^ 53 - 1 /\ MAX_TID_CLOCK_ID = 2 ^ 10 - 1) as [HM HC] by done.
  destruct (MAX_TID_MICROS <? ts) eqn:?; [split; [done|lia]|].
  destruct (MAX_TID_CLOCK_ID <? id) eqn:?; [split; [done|lia]|].
  rewrite pack_spec by lia. split.
  - intros [= <-]. rewrite unpack_timestamp, unpack_clock_id by lia. lia.
  - intros (_ & _ & Ht & Hts' & Hid'). f_equal. rewrite <- Hts', <- Hid'.
    unfold clock_id, timestamp_micros, as_u16 in *. change 0x3FF with (Z.ones 10) in *.
    rewrite land_mask, Z.shiftr_div_pow2 in * by lia.
    pose proof (Z.mod_pos_bound t (2 ^ 10) ltac:(lia)).
    rewrite (Z.mod_small (t mod _)) by lia.
    pose proof (Z.div_mod t (2 ^ 10) ltac:(lia)). lia.
Qed.

Example tid_new_spec_witness :
  new 1743000000000000 21 = Ok 1784832000000000021 <->
  1743000000000000 < 2 ^ 53 /\ 21 < 2 ^ 10 /\ 1784832000000000021 < 2 ^ 63 /\
  timestamp_micros 1784832000000000021 = 1743000000000000 /\ clock_id 1784832000000000021 = 21.
Proof. apply (tid_new_spec 1743000000000000 21); [unfold is_u64|unfold is_u16]; lia. Defined.

Example tid_display_order_witness :
  bytes_cmp (b# "3pzkbabo472k2") (b# "3qzkbabo47222") = (1945000000000000512 ?= 1981028797018963968).
Proof.
  refine (tid_display_order 1945000000000000512 1981028797018963968 _ _ _ _ _ _);
    [unfold is_u64; lia | unfold is_u64; lia | reflexivity | reflexivity].
Defined.

(** The documented layout keeps bit 63 clear, but the first character holds
    the top four bits of a 64-bit value, not three: a string may start with
    [j] and set the reserved bit. *)
Theorem tid_parse_sets_reserved_bit :
  exists raw t, try_from raw = Ok t /\ Z.testbit t 63 = true /\ MAX_TID_MICROS < timestamp_micros t.
Proof. exists (b# "jzzzzzzzzzzzz"), 18446744073709551615. by vm_compute. Qed.

(** ** The clock never goes backwards *)

(** How the TID of an event must relate to every earlier event. A TID the
    clock returns is above all that it returned, unless it is the highest it
    can return, which it then repeats; and above all that it observed below
    the ceiling of its timestamps. *)
Definition follows (later earlier : event) : Prop :=
  match later, earlier with
  | Observed _, _ => True
  | Emitted t, Emitted u => u < t \/ u = t /\ timestamp_micros t = MAX_TID_MICROS
  | Emitted t, Observed u => timestamp_micros u < MAX_TID_MICROS -> u < t
  end.

(** The clock is not behind an event, but for the ceiling; what it returned,
    it made. *)
Definition seen (cid : Z) (last : Z) (e : event) : Prop :=
  Z.min (timestamp_micros (event_tid e)) MAX_TID_MICROS <= last /\
  match e with Observed _ => True | Emitted t => exists ts, 0 <= ts <= MAX_TID_MICROS /\ t = ts * 2 ^ 10 + cid end.

Record clock_inv (cid : Z) (c : clock) : Prop := {
  inv_last : 0 <= last c;
  inv_seen : Forall (seen cid (last c)) (log c);
  inv_order : StronglySorted follows (log c);
}.

Lemma next_ts_bounds prev now : 0 <= prev ->
  0 <= next_ts prev now <= MAX_TID_MICROS /\ Z.min prev MAX_TID_MICROS <= next_ts prev now /\
  (prev < next_ts prev now \/ next_ts prev now = MAX_TID_MICROS).
Proof. unfold next_ts. change MAX_TID_MICROS with (2 ^ 53 - 1). intros H. destruct (prev <? now) eqn:?; lia. Qed.

Lemma next_tid_spec cid ts : 0 <= cid <= MAX_TID_CLOCK_ID -> 0 <= ts <= MAX_TID_MICROS ->
  next_tid cid ts = ts * 2 ^ 10 + cid.
Proof.
  intros Hc Hts. unfold next_tid. rewrite pack_spec by done. unfold from_integer.
  change (as_u64 (Z.lnot (Z.shiftl 1 63))) with (Z.ones 63).
  rewrite land_mask by lia. apply Z.mod_small.
  unfold MAX_TID_MICROS, MAX_TID_CLOCK_ID in *. rewrite Z.shiftl_mul_pow2 in * by lia. lia.
Qed.

Lemma below_timestamp u v n : timestamp_micros u < n -> n * 2 ^ 10 <= v -> u < v.
Proof.
  unfold timestamp_micros. rewrite Z.shiftr_div_pow2 by lia. intros Hu Hv.
  pose proof (Z.div_mod u (2 ^ 10) ltac:(lia)).
  pose proof (Z.mod_pos_bound u (2 ^ 10) ltac:(lia)). lia.
Qed.

Lemma Forall_seen_mono cid l m n : Z.min m MAX_TID_MICROS <= n -> Forall (seen cid m) l -> Forall (seen cid n) l.
Proof. intros Hmn Hl. eapply Forall_impl; [exact Hl|]. intros e [He ?]. split; [lia|done]. Qed.

Lemma exchange_follows cid m ts e : 0 <= cid <= MAX_TID_CLOCK_ID -> 0 <= ts <= MAX_TID_MICROS -> m < ts \/ ts = MAX_TID_MICROS ->
  seen cid m e -> follows (Emitted (ts * 2 ^ 10 + cid)) e.
Proof.
  change MAX_TID_CLOCK_ID with 1023. intros Hcid Hts Hlt [He Hm].
  assert (Hbelow : timestamp_micros (event_tid e) < ts -> event_tid e < ts * 2 ^ 10 + cid) by (intros; apply (below_timestamp _ _ ts); lia).
  destruct e as [u|u]; cbn [follows event_tid] in *; [lia|]. destruct Hm as (tu & Htu & ->). rewrite !unpack_timestamp in * by lia.
  destruct (decide (tu = ts)) as [->|]; [|left; lia]. right. split; [done|]. lia.
Qed.

Lemma step_inv cid c c' : 0 <= cid <= MAX_TID_CLOCK_ID ->
  clock_inv cid c -> step cid c c' -> clock_inv cid c'.
Proof.
  intros Hcid [Hlast Hseen Hord] Hstep.
  destruct Hstep as [t Ht|i Hi|i prev now Hi Hnow Hprev|i prev Hi]; try (by split).
  - split; cbn [observe last log]; [lia| |].
    + constructor; [split; [cbn; lia|done]|]. eapply Forall_seen_mono; [|exact Hseen]. lia.
    + constructor; [done|]. by apply Forall_forall.
  - subst prev. pose proof (next_ts_bounds (last c) now Hlast) as (Hb & Hmin & Hlt).
    assert (Htid : next_tid cid (next_ts (last c) now) = next_ts (last c) now * 2 ^ 10 + cid)
      by (apply next_tid_spec; lia).
    split; cbn [exchange last log]; [lia| |].
    + constructor; [|by eapply Forall_seen_mono]. split; [|by exists (next_ts (last c) now)].
      cbn [event_tid]. rewrite Htid, unpack_timestamp by (change MAX_TID_CLOCK_ID with 1023 in Hcid; lia). lia.
    + constructor; [done|]. eapply Forall_impl; [exact Hseen|]. intros e He. cbn beta in He |- *. rewrite Htid.
      by apply (exchange_follows cid (last c)).
Qed.

Lemma reachable_inv cid c : 0 <= cid <= MAX_TID_CLOCK_ID -> reachable cid c -> clock_inv cid c.
Proof.
  intros Hcid. induction 1 as [|c c' _ IH Hstep].
  - split; cbn; [by compute|constructor|constructor].
  - by apply (step_inv cid c).
Qed.

(** C37. However threads interleave, and whatever TIDs are observed, every TID
    the clock returns is greater than every TID it returned before, or is the
    highest it can return, which it repeats; and it is greater than every TID
    it observed whose timestamp is below the ceiling of 53 bits. *)
Theorem tid_clock_monotonic cid c : 0 <= cid < 2 ^ 10 -> reachable cid c ->
  StronglySorted follows (log c).
Proof.
  intros Hcid Hr. apply (reachable_inv cid); [|done]. change MAX_TID_CLOCK_ID with 1023. lia.
Qed.

(** A TID at the ceiling or above can be parsed and observed, and the clock
    then returns lesser ones, though [observe] promises greater ones. *)
Theorem tid_observed_not_surpassed : exists raw t u c, try_from raw = Ok t /\ reachable 3 c /\ log c = [Emitted u; Observed t] /\ u < t.
Proof.
  exists (b# "jzzzzzzzzzzzz"), 18446744073709551615, (MAX_TID_MICROS * 2 ^ 10 + 3). eexists. split; [by vm_compute|]. split.
  - eapply reach_step; [eapply reach_step; [eapply reach_step; [exact (reach_init 3)|]|]|].
    + apply (step_observe 3 _ 18446744073709551615). unfold is_u64. lia.
    + apply (step_load 3 _ 1). reflexivity.
    + apply (step_exchange 3 _ 1 18014398509481983 5); [reflexivity|unfold is_u64; lia|reflexivity].
  - by vm_compute.
Qed.

(** Two threads race: both load 0, the second wins the exchange, the first
    retries, loads again and returns the greater TID. *)
Example tid_clock_monotonic_witness :
  StronglySorted follows [Emitted (8 * 2 ^ 10 + 3); Emitted (7 * 2 ^ 10 + 3)].
Proof.
  assert (H : exists c, reachable 3 c /\
    log c = [Emitted (8 * 2 ^ 10 + 3); Emitted (7 * 2 ^ 10 + 3)]).
  { eexists. split.
    - eapply reach_step.
      { eapply reach_step.
        { eapply reach_step.
          { eapply reach_step.
            { eapply reach_step.
              { eapply reach_step; [exact (reach_init 3)|].
                apply (step_load 3 _ 1); reflexivity. }
              apply (step_load 3 _ 2); reflexivity. }
            apply (step_exchange 3 _ 2 0 7); [reflexivity|unfold is_u64; lia|reflexivity]. }
          apply (step_retry 3 _ 1 0); reflexivity. }
        apply (step_load 3 _ 1); reflexivity. }
      apply (step_exchange 3 _ 1 7 5); [reflexivity|unfold is_u64; lia|reflexivity].
    - vm_compute. reflexivity. }
  destruct H as (c & Hr & Hl). rewrite <- Hl.
  apply (tid_clock_monotonic 3); [lia|exact Hr].
Defined.
