(* ===== verification/CborError.v ===== *)
(** The error type of [src/src/cbor/mod.rs], and what [format!] builds. *)
From S2P Require Import Prelude SyntaxError.

(** [Io] carries the writer's own error, here its message. *)
Inductive CborError :=
| InvalidCbor (m : ErrMsg)
| InvalidCid (m : ErrMsg)
| DataModel (m : ErrMsg)
| Io (m : ErrMsg).

Definition invalid_cbor (s : string) : CborError := InvalidCbor (Text s).
Definition invalid_cid (s : string) : CborError := InvalidCid (Text s).
