(* ===== verification/Varint.v ===== *)
(** Unsigned varints (LEB128): [src/src/cbor/varint.rs]. *)
From S2P Require Import Prelude SyntaxError CborError.

#[local] Ltac Zify.zify_post_hook ::= Z.to_euclidean_division_equations.

(** One byte per round; [None] is the fuel running out, which ten rounds
    exclude for a [u64] ([encode_varint_loop_total]). *)
Fixpoint encode_varint_loop (fuel : nat) (value : Z) (buf : bytes) : option bytes :=
  match fuel with
  | O => None
  | S fuel' =>
      let byte := as_u8 (Z.land value 127) in
      let value := Z.shiftr value 7 in
      let byte := if value =? 0 then byte else Z.lor byte 128 in
      let buf := buf ++ [byte] in
      if value =? 0 then Some buf else encode_varint_loop fuel' value buf
  end.

Definition encode_varint (value : Z) (buf : bytes) : bytes :=
  default [] (encode_varint_loop 10 value buf).

Fixpoint decode_varint_loop (buf : bytes) (i : nat) (value shift : Z) : res CborError (Z * nat) :=
  match buf with
  | [] => Err (invalid_cbor "truncated varint")
  | byte :: buf' =>
      if (63 <=? shift) && (1 <? Z.land byte 127) then Err (invalid_cbor "varint overflow")
      else
        let value := Z.lor value (as_u64 (Z.shiftl (Z.land byte 127) shift)) in
        if Z.land byte 128 =? 0 then Ok (value, S i)
        else
          let shift := shift + 7 in
          if 63 <? shift then Err (invalid_cbor "varint overflow")
          else decode_varint_loop buf' (S i) value shift
  end.

Definition decode_varint (buf : bytes) : res CborError (Z * nat) :=
  if bool_decide (buf = []) then Err (invalid_cbor "empty buffer for varint")
  else decode_varint_loop buf 0 0 0.

(** ** The encoding *)

(** The base-128 number a varint writes, least significant digit first. *)
Definition varint_value (enc : bytes) : Z :=
  foldr (fun b acc => b mod 128 + 128 * acc) 0 enc.

(** Every byte but the last has its continuation bit. *)
Inductive varint_shape : bytes -> Prop :=
| LastByte b : 0 <= b < 128 -> varint_shape [b]
| NextByte b enc : 128 <= b < 256 -> varint_shape enc -> varint_shape (b :: enc).

(** No superfluous last digit. *)
Definition varint_minimal (enc : bytes) : Prop := last enc <> Some 0 \/ enc = [0].

Lemma land_127 b : Z.land b 127 = b mod 128.
Proof. change 127 with (Z.ones 7). apply land_mask. lia. Qed.

Lemma land_128 b : is_u8 b -> (Z.land b 128 =? 0) = (b <? 128).
Proof.
  intros Hb. assert (H : forallb (fun b => eqb (Z.land b 128 =? 0) (b <? 128)) (Z.of_nat <$> seq 0 256) = true)
    by reflexivity.
  rewrite forallb_Forall, Forall_forall in H. apply eqb_prop, H, list_elem_of_fmap.
  exists (Z.to_nat b). unfold is_u8 in Hb. rewrite Z2Nat.id by lia. split; [done|].
  apply elem_of_seq. lia.
Qed.

Lemma lor_128 b : 0 <= b < 128 -> Z.lor b 128 = b + 128.
Proof. intros. rewrite Z.lor_comm. change 128 with (1 * 2 ^ 7). rewrite lor_disjoint; lia. Qed.

Lemma varint_value_cons b enc : varint_value (b :: enc) = b mod 128 + 128 * varint_value enc.
Proof. done. Qed.
#[local] Opaque varint_value.

Lemma varint_value_nonneg enc : 0 <= varint_value enc.
Proof. induction enc as [|b enc IH]; [done|]. rewrite varint_value_cons. pose proof (Z.mod_pos_bound b 128 ltac:(lia)). lia. Qed.

Lemma encode_varint_loop_spec fuel v buf : 0 <= v < 128 ^ Z.of_nat fuel -> (0 < fuel)%nat ->
  exists enc, encode_varint_loop fuel v buf = Some (buf ++ enc) /\ varint_shape enc /\
    varint_value enc = v /\ (length enc <= fuel)%nat /\ varint_minimal enc /\ (0 < v -> last enc <> Some 0).
Proof.
  revert v buf. induction fuel as [|fuel IH]; intros v buf Hv Hf; [lia|]. cbn [encode_varint_loop].
  rewrite land_127, Z.shiftr_div_pow2 by lia. change (2 ^ 7) with 128.
  assert (Hm : as_u8 (v mod 128) = v mod 128) by (unfold as_u8; apply Z.mod_small; lia).
  rewrite Hm. destruct (Z.eqb_spec (v / 128) 0) as [Hz|Hnz].
  - assert (v mod 128 = v) as -> by lia. exists [v]. rewrite varint_value_cons. unfold varint_minimal. change (varint_value []) with 0. cbn [length last].
    split_and!; try done; try lia; [constructor; lia|destruct (Z.eq_dec v 0); [right|left]; congruence|].
    intros ? [= ->]. lia.
  - rewrite Nat2Z.inj_succ, Z.pow_succ_r in Hv by lia.
    assert (Hd : 0 <= v / 128 < 128 ^ Z.of_nat fuel) by (split; [lia|apply Z.div_lt_upper_bound; lia]).
    destruct fuel as [|fuel]; [cbn in Hd; lia|].
    destruct (IH (v / 128) (buf ++ [Z.lor (v mod 128) 128]) Hd ltac:(lia)) as (enc & -> & Hs & Hval & Hl & Hmin & Hlast).
    rewrite lor_128 by lia. exists ((v mod 128 + 128) :: enc).
    assert (last (v mod 128 + 128 :: enc) <> Some 0) by (inversion Hs; subst; apply Hlast; lia).
    split_and!.
    + by rewrite <- app_assoc.
    + constructor; [lia|done].
    + rewrite varint_value_cons, Hval. lia.
    + cbn. lia.
    + by left.
    + done.
Qed.

(** ** Decoding *)

(** One round, at the [k]-th digit. *)
Lemma decode_varint_step b rest i acc k : is_u8 b -> 0 <= k <= 9 -> 0 <= acc < 2 ^ (7 * k) ->
  decode_varint_loop (b :: rest) i acc (7 * k) =
    if (k =? 9) && (1 <? b mod 128) then Err (invalid_cbor "varint overflow")
    else if b <? 128 then Ok (acc + b * 2 ^ (7 * k), S i)
    else if k =? 9 then Err (invalid_cbor "varint overflow")
    else decode_varint_loop rest (S i) (acc + (b mod 128) * 2 ^ (7 * k)) (7 * (k + 1)).
Proof.
  intros Hb Hk Hacc. cbn [decode_varint_loop]. rewrite land_127, land_128 by done.
  replace (63 <=? 7 * k) with (k =? 9) by lia. destruct (_ && _) eqn:Ho; [done|].
  assert (Hs : as_u64 (Z.shiftl (b mod 128) (7 * k)) = b mod 128 * 2 ^ (7 * k)).
  { rewrite Z.shiftl_mul_pow2 by lia. unfold as_u64. apply Z.mod_small.
    destruct (Z.eqb_spec k 9) as [->|]; [lia|].
    pose proof (Z.pow_le_mono_r 2 (7 * k) 56 ltac:(lia) ltac:(lia)). nia. }
  rewrite Hs, Z.lor_comm, lor_disjoint, (Z.add_comm _ acc) by lia.
  replace (63 <? 7 * k + 7) with (k =? 9) by lia.
  replace (7 * k + 7) with (7 * (k + 1)) by lia. unfold is_u8 in Hb.
  destruct (b <? 128) eqn:?; [|done]. by rewrite Z.mod_small by lia.
Qed.

Lemma digit_bound acc d k : 0 <= k -> 0 <= acc < 2 ^ (7 * k) -> 0 <= d < 128 ->
  0 <= acc + d * 2 ^ (7 * k) < 2 ^ (7 * (k + 1)).
Proof. intros. replace (7 * (k + 1)) with (7 * k + 7) by lia. rewrite Z.pow_add_r by lia. nia. Qed.

Lemma decode_varint_loop_app enc rest i acc k : varint_shape enc ->
  0 <= k <= 9 -> 0 <= acc < 2 ^ (7 * k) -> acc + varint_value enc * 2 ^ (7 * k) < 2 ^ 64 ->
  Z.of_nat (length enc) + k <= 10 ->
  decode_varint_loop (enc ++ rest) i acc (7 * k) =
    Ok (acc + varint_value enc * 2 ^ (7 * k), (i + length enc)%nat).
Proof.
  intros Hs. revert i acc k. induction Hs as [b Hb|b enc Hb Hs IH]; intros i acc k Hk Hacc Hv Hlen;
    rewrite varint_value_cons in *; cbn [length app] in *;
    rewrite decode_varint_step by (try done; unfold is_u8; lia).
  - change (varint_value []) with 0 in *. rewrite Z.mod_small in * by lia.
    assert ((k =? 9) && (1 <? b) = false) as ->.
    { destruct (Z.eqb_spec k 9) as [->|]; [|done]. cbn in *. lia. }
    replace (b <? 128) with true by lia. f_equal. f_equal; lia.
  - pose proof (varint_value_nonneg enc).
    assert (1 <= length enc)%nat by (destruct Hs; cbn; lia).
    replace (k =? 9) with false by lia. replace (b <? 128) with false by lia. cbn [andb].
    pose proof (digit_bound acc (b mod 128) k ltac:(lia) Hacc ltac:(lia)).
    replace (7 * (k + 1)) with (7 * k + 7) in * by lia. rewrite Z.pow_add_r in * by lia.
    replace (7 * k + 7) with (7 * (k + 1)) in * by lia.
    rewrite IH; [|lia|replace (7 * (k + 1)) with (7 * k + 7) by lia; rewrite Z.pow_add_r by lia; lia| |lia];
      replace (7 * (k + 1)) with (7 * k + 7) by lia; rewrite Z.pow_add_r by lia; [|lia].
    change (2 ^ 7) with 128. f_equal. f_equal; [ring|lia].
Qed.

Lemma decode_varint_loop_sound buf i acc k v n : Forall is_u8 buf ->
  0 <= k <= 9 -> 0 <= acc < 2 ^ (7 * k) ->
  decode_varint_loop buf i acc (7 * k) = Ok (v, n) ->
  exists enc rest, buf = enc ++ rest /\ n = (i + length enc)%nat /\ varint_shape enc /\
    v = acc + varint_value enc * 2 ^ (7 * k) /\ v < 2 ^ 64 /\ Z.of_nat (length enc) + k <= 10.
Proof.
  intros Hbuf. revert i acc k. induction Hbuf as [|b buf Hb Hbuf IH]; intros i acc k Hk Hacc; [done|].
  rewrite decode_varint_step by done. unfold is_u8 in Hb.
  destruct (_ && _) eqn:Ho; [done|]. destruct (b <? 128) eqn:Hb'.
  - intros [= <- <-]. exists [b], buf. rewrite varint_value_cons. change (varint_value []) with 0.
    cbn [length app]. split_and!; [done|lia|constructor; lia|rewrite Z.mod_small; lia| |lia].
    pose proof (digit_bound acc b k ltac:(lia) Hacc ltac:(lia)).
    destruct (Z.eqb_spec k 9) as [->|].
    + rewrite Z.mod_small in Ho by lia. cbn in *. lia.
    + pose proof (Z.pow_le_mono_r 2 (7 * (k + 1)) 63 ltac:(lia) ltac:(lia)). lia.
  - destruct (Z.eqb_spec k 9) as [->|]; [done|]. intros H.
    apply IH in H as (enc & rest & -> & -> & Hs & -> & Hlt & Hl); [|lia|apply digit_bound; lia].
    exists (b :: enc), rest. rewrite varint_value_cons. cbn [length app].
    replace (7 * (k + 1)) with (7 * k + 7) in * by lia. rewrite Z.pow_add_r in * by lia.
    split_and!; [done|lia|constructor; [lia|done]|lia|lia|lia].
Qed.

Lemma encode_varint_spec v buf : is_u64 v -> exists enc, encode_varint v buf = buf ++ enc /\
  varint_shape enc /\ varint_value enc = v /\ (length enc <= 10)%nat /\ varint_minimal enc.
Proof.
  intros Hv. destruct (encode_varint_loop_spec 10 v buf) as (enc & He & ? & ? & ? & ? & _).
  { unfold is_u64 in Hv. change (128 ^ Z.of_nat 10) with (2 ^ 70). lia. }
  { lia. }
  exists enc. unfold encode_varint. by rewrite He.
Qed.

(** What [decode_varint] accepts: a complete varint of at most ten bytes
    whose value is a [u64]. *)
Lemma decode_varint_Ok buf v n : Forall is_u8 buf ->
  decode_varint buf = Ok (v, n) <->
  exists enc rest, buf = enc ++ rest /\ n = length enc /\ varint_shape enc /\
    (length enc <= 10)%nat /\ v = varint_value enc /\ v < 2 ^ 64.
Proof.
  intros Hb. unfold decode_varint. case_bool_decide as He.
  { subst. split; [done|]. intros (enc & rest & He & _ & Hs & _). destruct Hs; done. }
  split.
  - intros H. apply (decode_varint_loop_sound _ _ 0 0) in H as (enc & rest & -> & -> & Hs & -> & ? & ?);
      [|done|lia|lia].
    exists enc, rest. rewrite Z.mul_0_r, Z.pow_0_r, Z.mul_1_r in *. split_and!; try done; lia.
  - intros (enc & rest & -> & -> & Hs & Hl & -> & Hv).
    change (decode_varint_loop (enc ++ rest) 0 0 (7 * 0) = Ok (varint_value enc, length enc)).
  rewrite (decode_varint_loop_app enc rest 0 0 0) by (try done; lia). f_equal. f_equal; lia.
Qed.

Lemma decode_varint_loop_no_panic buf i v s : no_panic (decode_varint_loop buf i v s).
Proof. revert i v s. induction buf as [|b buf IH]; intros; cbn; [done|]. split_ifs; auto; done. Qed.

Lemma decode_varint_loop_err buf i v s e :
  decode_varint_loop buf i v s = Err e -> exists m, e = invalid_cbor m.
Proof.
  revert i v s. induction buf as [|b buf IH]; intros i a s; cbn; [naive_solver|].
  split_ifs; [naive_solver..|]. by apply IH.
Qed.

(** Encoding a [u64] terminates within ten bytes, appends to the buffer the
    shortest varint of the value, and decoding it back from the front of any
    input returns the value and the number of bytes it took. *)
Theorem varint_roundtrip v buf rest : is_u64 v ->
  exists enc, encode_varint v buf = buf ++ enc /\ (1 <= length enc <= 10)%nat /\
    varint_minimal enc /\ decode_varint (enc ++ rest) = Ok (v, length enc).
Proof.
  intros Hv. destruct (encode_varint_spec v buf Hv) as (enc & He & Hs & Hval & Hl & Hm).
  exists enc. split_and!; try done; [by destruct Hs; cbn; lia|].
  unfold decode_varint. rewrite bool_decide_false by (by destruct Hs).
  unfold is_u64 in Hv.
  change (decode_varint_loop (enc ++ rest) 0 0 (7 * 0) = Ok (v, length enc)).
  rewrite (decode_varint_loop_app enc rest 0 0 0) by (try done; lia). f_equal. f_equal; lia.
Qed.

Example varint_roundtrip_witness :
  encode_varint 300 [7] = [7; 172; 2] /\ decode_varint ([172; 2] ++ [9]) = Ok (300, 2%nat).
Proof.
  destruct (varint_roundtrip 300 [7] [9]) as (enc & He & _ & _ & Hd); [by unfold is_u64|].
  assert (enc = [172; 2]) as -> by (by apply (app_inv_head [7])). by split.
Defined.

(** Decoding a varint never panics: it returns a [u64] and how many bytes it
    took, at most ten and at most the input, or refuses the input because it
    is empty, truncated or does not fit a [u64]. *)
Theorem decode_varint_safe buf : Forall is_u8 buf ->
  match decode_varint buf with
  | Ok (v, n) => is_u64 v /\ (1 <= n <= 10)%nat /\ (n <= length buf)%nat
  | Err e => exists s, e = invalid_cbor s
  | Panic => False
  end.
Proof.
  intros Hb. pose proof (decode_varint_Ok buf) as Hok.
  destruct (decode_varint buf) as [[v n]|e|] eqn:H.
  - destruct (proj1 (Hok v n Hb) eq_refl) as (enc & rest & -> & -> & Hs & ? & -> & ?).
    pose proof (varint_value_nonneg enc). rewrite length_app. unfold is_u64.
    assert (1 <= length enc)%nat by (destruct Hs; cbn; lia). lia.
  - clear Hok. unfold decode_varint in H. case_bool_decide; [naive_solver|].
    by apply decode_varint_loop_err in H.
  - unfold decode_varint in H. case_bool_decide; [done|]. by apply decode_varint_loop_no_panic in H.
Qed.

Example decode_varint_safe_witness :
  decode_varint [172; 2; 9] = Ok (300, 2%nat) /\ is_u64 300 /\ (1 <= 2 <= 10)%nat /\ (2 <= 3)%nat.
Proof.
  split; [done|].
  exact (decode_varint_safe [172; 2; 9] ltac:(repeat constructor; by unfold is_u8)).
Defined.
