(* ===== verification/Cid.v ===== *)
(** CIDs, their hash function and their text form: [src/src/cbor/cid.rs].

    The SHA-256 block function and the base32 codec belong to the crates
    [sha2] and [data_encoding]: they are parameters, with the laws the code
    relies on as hypotheses. *)
From S2P Require Import Prelude SyntaxError CborError.

(** ** SHA-256 *)

(** [sha2::block_api::compress256(&mut state, blocks)] *)
Class Sha2 : Type := compress256 : list Z -> list bytes -> list Z.

(** Blocks are absorbed one after the other, on a state of eight words. *)
Class Sha2Laws `{Sha2} : Prop := {
  compress256_app s a b : compress256 s (a ++ b) = compress256 (compress256 s a) b;
  compress256_words s bs : length s = 8%nat -> length (compress256 s bs) = 8%nat
}.

(** [l.as_chunks::<n>()]: whole chunks, then the rest. *)
Fixpoint chunks_of {A} (count n : nat) (l : list A) : list (list A) :=
  match count with O => [] | S count' => take n l :: chunks_of count' n (drop n l) end.
Definition as_chunks {A} (n : nat) (l : list A) : list (list A) * list A :=
  let count := (length l / n)%nat in (chunks_of count n l, drop (count * n) l).

Definition initial_state : list Z :=
  [0x6a09e667; 0xbb67ae85; 0x3c6ef372; 0xa54ff53a; 0x510e527f; 0x9b05688c; 0x1f83d9ab;
   0x5be0cd19].

Definition sha256 `{Sha2} (data : bytes) : bytes :=
  let '(blocks, tail) := as_chunks 64 data in
  let state := compress256 initial_state blocks in
  let used := if (length tail <? 56)%nat then 1%nat else 2%nat in
  let padded := replicate 128 0 in
  let padded := list_inserts 0 tail padded in
  let padded := <[length tail := 0x80]> padded in
  let bits := as_u64 (as_u64 (Z.of_nat (length data)) * 8) in
  let padded := list_inserts (used * 64 - 8) (be_bytes 8 bits) padded in
  let last := (as_chunks 64 padded).1 in
  let state := compress256 state (take used last) in
  concat (be_bytes 4 <$> state).

(** ** CIDs *)

Inductive Codec := Drisl | Raw.

#[export] Instance Codec_eq_dec : EqDecision Codec.
Proof. solve_decision. Defined.

(** [self.codec as u8] *)
Definition codec_byte (c : Codec) : Z := match c with Drisl => 0x71 | Raw => 0x55 end.

Record Cid := MkCid { codec : Codec; hash : bytes }.

#[export] Instance Cid_eq_dec : EqDecision Cid.
Proof. solve_decision. Defined.

#[export] Instance Codec_countable : Countable Codec :=
  inj_countable' (fun c => match c with Drisl => true | Raw => false end) (fun b : bool => if b then Drisl else Raw)
    (fun c => match c with Drisl => eq_refl | Raw => eq_refl end).

#[export] Instance Cid_countable : Countable Cid :=
  inj_countable' (fun c => (codec c, hash c)) (fun p => MkCid p.1 p.2) (fun c => match c with MkCid _ _ => eq_refl end).


(** The type of the field: [hash: [u8; 32]]. *)
Definition cid_wf (c : Cid) : Prop := length (hash c) = 32%nat /\ Forall is_u8 (hash c).

Definition zeroed : Cid := MkCid Raw (replicate 32 0).

Definition compute `{Sha2} (c : Codec) (data : bytes) : Cid := MkCid c (sha256 data).

Definition to_bytes (c : Cid) : bytes := [0x01; codec_byte (codec c); 0x12; 0x20] ++ hash c.

(** The tests after the fast path. *)
Definition from_bytes_slow (b : bytes) : res CborError Cid :=
  if negb (length b =? 36)%nat then Err (invalid_cid "wrong length")
  else
    b0 ← index b 0;
    if negb (b0 =? 0x01) then Err (invalid_cid "unsupported CID version")
    else
      b1 ← index b 1;
      codec ← (if b1 =? 0x71 then Ok Drisl else if b1 =? 0x55 then Ok Raw
               else Err (invalid_cid "unsupported codec"));
      b2 ← index b 2; b3 ← index b 3;
      if negb (b2 =? 0x12) || negb (b3 =? 0x20) then Err (invalid_cid "unsupported hash")
      else
        hash ← slice_from b 4;
        Ok (MkCid codec hash).

Definition from_bytes (b : bytes) : res CborError Cid :=
  match b with
  | b0 :: b1 :: b2 :: b3 :: hash =>
      if (b0 =? 0x01) && ((b1 =? 0x71) || (b1 =? 0x55)) && (b2 =? 0x12) && (b3 =? 0x20) &&
         (length hash =? 32)%nat
      then Ok (MkCid (if b1 =? 0x71 then Drisl else Raw) hash)
      else from_bytes_slow b
  | _ => from_bytes_slow b
  end.

Definition to_tag42_bytes (c : Cid) : bytes := 0x00 :: to_bytes c.

Definition from_tag42_bytes (b : bytes) : res CborError Cid :=
  if bool_decide (b = []) then Err (invalid_cid "missing tag 42 prefix")
  else
    b0 ← index b 0;
    if negb (b0 =? 0x00) then Err (invalid_cid "missing tag 42 prefix")
    else rest ← slice_from b 1; from_bytes rest.

(** ** The text form *)

(** [data_encoding::BASE32_NOPAD] on the 36 bytes of a CID. *)
Class Base32 : Type := {
  base32_encode : bytes -> bytes;
  base32_decode : bytes -> option bytes
}.

Definition base32_char (c : Z) : Prop := is_ascii_uppercase c = true \/ 50 <= c <= 55.

(** The encoding is a bijection between 36 bytes and the 58-character
    strings it accepts: the two trailing bits have to be zero. *)
Class Base32Laws `{Base32} : Prop := {
  base32_length b : length b = 36%nat -> length (base32_encode b) = 58%nat;
  base32_alphabet b : length b = 36%nat -> Forall is_u8 b -> Forall base32_char (base32_encode b);
  base32_decode_encode b : length b = 36%nat -> Forall is_u8 b ->
    base32_decode (base32_encode b) = Some b;
  base32_encode_decode s b : length s = 58%nat -> base32_decode s = Some b ->
    length b = 36%nat /\ Forall is_u8 b /\ base32_encode b = s
}.

Definition CID_BASE32_LEN : nat := 58.

Definition to_multibase `{Base32} (c : Cid) : bytes :=
  make_ascii_lowercase (98 :: base32_encode (to_bytes c)).

(** [Display for Cid]; [None] is [fmt::Error]. *)
Definition display `{Base32} (c : Cid) : option bytes :=
  if utf8_valid (to_multibase c) then Some (to_multibase c) else None.

Definition from_str `{Base32} (s : bytes) : res CborError Cid :=
  rest ← match s with
         | c :: rest => if c =? 98 then Ok rest else Err (invalid_cid "missing 'b' prefix")
         | [] => Err (invalid_cid "missing 'b' prefix")
         end;
  if negb (length rest =? CID_BASE32_LEN)%nat then Err (invalid_cid "wrong base32 length")
  else if existsb is_ascii_uppercase rest then Err (invalid_cid "CID base32 must be lowercase")
  else
    match base32_decode (to_ascii_uppercase <$> rest) with
    | None => Err (invalid_cid "invalid base32 encoding")
    | Some cid_bytes => from_bytes cid_bytes
    end.

(** ** Hashing for maps *)

Record FastHasher := MkFastHasher { state : Z; multiplier : Z }.

Fixpoint le_value (b : bytes) : Z :=
  match b with [] => 0 | x :: b' => x + 256 * le_value b' end.

Definition write_u64 (h : FastHasher) (n : Z) : FastHasher :=
  let product := Z.lxor (state h) n * multiplier h in
  MkFastHasher (Z.lxor (as_u64 product) (as_u64 (Z.shiftr product 64))) (multiplier h).

(** [bytes.chunks(8)]: the last chunk may be shorter. *)
Definition chunks {A} (n : nat) (l : list A) : list (list A) :=
  let '(whole, rest) := as_chunks n l in
  match rest with [] => whole | _ => whole ++ [rest] end.

(** [word[..chunk.len()].copy_from_slice(chunk)] on [[0; 8]] *)
Definition pad_word (chunk : bytes) : bytes := list_inserts 0 chunk (replicate 8 0).

Definition write (h : FastHasher) (b : bytes) : FastHasher :=
  let h := fold_left (fun h chunk => write_u64 h (le_value (pad_word chunk)))
             (chunks 8 b) h in
  write_u64 h (Z.of_nat (length b)).

(** [Hash for Cid] *)
Definition hash_cid (c : Cid) (h : FastHasher) : FastHasher :=
  write_u64 h (Z.lxor (le_value (take 8 (hash c))) (codec_byte (codec c))).

(** ** Chunks *)

Section Chunks.
Context {A : Type} (n : nat).
Implicit Types (l : list A).

Lemma chunks_of_spec count l : (count * n <= length l)%nat ->
  concat (chunks_of count n l) = take (count * n) l /\
  length (chunks_of count n l) = count /\
  Forall (fun c => length c = n) (chunks_of count n l).
Proof.
  revert l. induction count as [|count IH]; intros l Hl; [done|]. cbn [chunks_of concat length].
  destruct (IH (drop n l)) as (Hc & Hlen & Hall); [rewrite length_drop; lia|].
  split_and!; [|by rewrite Hlen|constructor; [|done]].
  - rewrite Hc. cbn. by rewrite take_take_drop.
  - rewrite length_take. lia.
Qed.

Lemma as_chunks_spec l : (0 < n)%nat ->
  concat (as_chunks n l).1 ++ (as_chunks n l).2 = l /\
  Forall (fun c => length c = n) (as_chunks n l).1 /\
  (length (as_chunks n l).2 < n)%nat /\ length (as_chunks n l).1 = (length l / n)%nat.
Proof.
  intros Hn. unfold as_chunks. cbn [fst snd].
  pose proof (Nat.div_mod (length l) n ltac:(lia)). pose proof (Nat.mod_upper_bound (length l) n ltac:(lia)).
  set (q := (length l / n)%nat) in *.
  destruct (chunks_of_spec q l) as (-> & Hlen & Hall); [rewrite Nat.mul_comm; lia|].
  rewrite take_drop, length_drop. split_and!; [done|done|rewrite Nat.mul_comm; lia|done].
Qed.

(** Chunks of one length are determined by their concatenation. *)
Lemma concat_chunks_inj (cs ds : list (list A)) : (0 < n)%nat ->
  Forall (fun c => length c = n) cs -> Forall (fun c => length c = n) ds ->
  concat cs = concat ds -> cs = ds.
Proof.
  intros Hn Hcs. revert ds. induction Hcs as [|c cs Hc Hcs IH]; intros ds Hds He; destruct Hds as [|d ds Hd Hds];
    cbn in He; [done| | |].
  - destruct d; [cbn in Hd; lia|done].
  - destruct c; [cbn in Hc; lia|done].
  - apply app_inj_1 in He as [-> He]; [|congruence]. f_equal. by apply IH.
Qed.

Lemma concat_length (cs : list (list A)) :
  Forall (fun c => length c = n) cs -> length (concat cs) = (length cs * n)%nat.
Proof. induction 1 as [|c cs Hc _ IH]; [done|]. cbn. rewrite length_app. lia. Qed.

Lemma as_chunks_app (cs : list (list A)) l : (0 < n)%nat -> Forall (fun c => length c = n) cs ->
  as_chunks n (concat cs ++ l) = (cs ++ (as_chunks n l).1, (as_chunks n l).2).
Proof.
  intros Hn Hcs. pose proof (as_chunks_spec l Hn) as (H1 & H2 & H3 & _).
  pose proof (as_chunks_spec (concat cs ++ l) Hn) as (G1 & G2 & G3 & _).
  destruct (as_chunks n l) as [ds r], (as_chunks n (concat cs ++ l)) as [es q]. cbn in *.
  assert (Hlen : length es = (length cs + length ds)%nat /\ length q = length r).
  { apply (f_equal length) in G1. rewrite <- H1, !length_app, !concat_length in G1 by done.
    destruct (Nat.lt_trichotomy (length es) (length cs + length ds)) as [Hlt|[Heq|Hlt]].
    - pose proof (Nat.mul_le_mono_r (S (length es)) (length cs + length ds) n Hlt). lia.
    - rewrite Heq in *. lia.
    - pose proof (Nat.mul_le_mono_r (S (length cs + length ds)) (length es) n Hlt). lia. }
  rewrite <- H1, app_assoc, <- concat_app in G1.
  destruct Hlen as [_ Hq]. destruct (app_inj_2 _ _ _ _ (eq_sym Hq) (eq_sym G1)) as [G2' ->]. f_equal.
  apply concat_chunks_inj; [done..|by apply Forall_app|done].
Qed.
End Chunks.

(** ** The binary form *)

Lemma from_bytes_fast b : from_bytes b = from_bytes_slow b.
Proof.
  destruct b as [|b0 [|b1 [|b2 [|b3 hash]]]]; [done..|]. cbn [from_bytes].
  destruct (_ && _) eqn:H; [|done]. rewrite !andb_true_iff, orb_true_iff in H.
  destruct H as [[[[H0 H1] H2] H3] Hl]. unfold from_bytes_slow.
  replace (length _ =? 36)%nat with true by (cbn [length]; lia). cbn.
  rewrite H0, H2, H3. cbn. destruct (b1 =? 0x71); cbn; [done|].
  destruct (b1 =? 0x55); [done|naive_solver].
Qed.

Lemma to_bytes_length c : cid_wf c -> length (to_bytes c) = 36%nat.
Proof. intros [Hl _]. unfold to_bytes. rewrite length_app, Hl. done. Qed.

Lemma to_bytes_u8 c : cid_wf c -> Forall is_u8 (to_bytes c).
Proof.
  intros [_ Hu]. apply Forall_app. split; [|done]. unfold is_u8.
  destruct (codec c); repeat constructor; cbn; lia.
Qed.

Lemma from_bytes_to_bytes c : cid_wf c -> from_bytes (to_bytes c) = Ok c.
Proof.
  intros [Hl _]. destruct c as [cd h]. cbn in *. rewrite Hl. destruct cd; done.
Qed.

Lemma from_bytes_Ok b c : Forall is_u8 b -> from_bytes b = Ok c -> cid_wf c /\ to_bytes c = b.
Proof.
  intros Hb. rewrite from_bytes_fast. unfold from_bytes_slow.
  destruct b as [|b0 [|b1 [|b2 [|b3 h]]]]; try done.
  destruct (_ =? _)%nat eqn:Hl; [|done]. cbn. intros H. split_ifs_in H.
  all: rewrite drop_0; unfold to_bytes, cid_wf; cbn in *; split; [split; [lia|by do 4 (apply Forall_inv_tail in Hb)]|].
  all: repeat f_equal; lia.
Qed.

Lemma from_bytes_no_panic b : no_panic (from_bytes b).
Proof.
  rewrite from_bytes_fast. unfold from_bytes_slow.
  destruct b as [|b0 [|b1 [|b2 [|b3 h]]]]; try done.
  destruct (_ =? _)%nat; [|done]. cbn. split_ifs; done.
Qed.

Lemma from_tag42_bytes_eq b : from_tag42_bytes b =
  match b with
  | 0 :: b' => from_bytes b'
  | _ => Err (invalid_cid "missing tag 42 prefix")
  end.
Proof.
  destruct b as [|b0 b]; [done|]. unfold from_tag42_bytes. cbn -[slice_from].
  destruct (Z.eqb_spec b0 0) as [->|]; cbn -[slice_from].
  - rewrite slice_from_Ok by (cbn; lia). done.
  - by destruct b0.
Qed.

Lemma from_tag42_bytes_no_panic b : no_panic (from_tag42_bytes b).
Proof. rewrite from_tag42_bytes_eq. repeat case_match; try done. apply from_bytes_no_panic. Qed.

Lemma from_tag42_bytes_Ok b c : Forall is_u8 b ->
  from_tag42_bytes b = Ok c <-> cid_wf c /\ b = to_tag42_bytes c.
Proof.
  intros Hb. rewrite from_tag42_bytes_eq. split.
  - repeat case_match; try done. intros H'%from_bytes_Ok; [|by inversion Hb].
    unfold to_tag42_bytes. naive_solver.
  - intros [Hc ->]. by apply from_bytes_to_bytes.
Qed.

(** A CID and its 36 bytes determine each other, with or without the tag 42
    prefix, and decoding refuses everything else without panicking. *)
Theorem cid_binary_form b c : Forall is_u8 b ->
  (from_bytes b = Ok c <-> cid_wf c /\ b = to_bytes c) /\
  (from_tag42_bytes b = Ok c <-> cid_wf c /\ b = to_tag42_bytes c) /\
  no_panic (from_bytes b) /\ no_panic (from_tag42_bytes b).
Proof.
  intros Hb. split_and!; [|by apply from_tag42_bytes_Ok|apply from_bytes_no_panic|apply from_tag42_bytes_no_panic].
  split; [intros [? <-]%from_bytes_Ok; by eauto|]. intros [Hc ->]. by apply from_bytes_to_bytes.
Qed.

Example cid_binary_form_witness :
  from_bytes ([0x01; 0x71; 0x12; 0x20] ++ replicate 32 7) = Ok (MkCid Drisl (replicate 32 7)).
Proof.
  apply (cid_binary_form ([0x01; 0x71; 0x12; 0x20] ++ replicate 32 7)).
  - repeat constructor; by unfold is_u8.
  - split; [|done]. split; [done|]. repeat constructor; by unfold is_u8.
Defined.

(** ** The text form *)

Section Text.
Context `{Base32Laws}.

Lemma upper_lower_base32 c : base32_char c -> to_ascii_uppercase (to_ascii_lowercase c) = c.
Proof. unfold base32_char, to_ascii_uppercase, to_ascii_lowercase. intros. split_ifs; ascii_lia. Qed.

Lemma lower_upper c : is_ascii_uppercase c = false -> to_ascii_lowercase (to_ascii_uppercase c) = c.
Proof. unfold to_ascii_uppercase, to_ascii_lowercase. intros. split_ifs; ascii_lia. Qed.

Lemma lower_not_upper c : base32_char c -> is_ascii_uppercase (to_ascii_lowercase c) = false.
Proof. unfold base32_char, to_ascii_lowercase. intros. split_ifs; ascii_lia. Qed.

Lemma map_forall_id (f g : Z -> Z) (P : Z -> Prop) (l : bytes) :
  (forall c, P c -> f (g c) = c) -> Forall P l -> f <$> (g <$> l) = l.
Proof. intros Hfg. induction 1 as [|c l Hc _ IH]; [done|]. cbn. by rewrite Hfg, IH. Qed.

Lemma to_multibase_ascii c : cid_wf c -> utf8_valid (to_multibase c) = true.
Proof.
  intros Hc. apply utf8_valid_ascii. unfold to_multibase. cbn. constructor; [done|].
  apply Forall_fmap. eapply Forall_impl; [apply base32_alphabet; [by apply to_bytes_length|by apply to_bytes_u8]|].
  unfold base32_char, to_ascii_lowercase. cbn. intros x Hx. split_ifs; ascii_lia.
Qed.

Lemma from_str_display c s : cid_wf c -> display c = Some s -> from_str s = Ok c.
Proof.
  intros Hc. unfold display. rewrite to_multibase_ascii by done. intros [= <-].
  unfold from_str, to_multibase. cbn [make_ascii_lowercase fmap list_fmap mbind res_bind].
  change (to_ascii_lowercase 98 =? 98) with true. cbn [res_bind mbind].
  pose proof (to_bytes_length c Hc) as Hl. pose proof (to_bytes_u8 c Hc) as Hu.
  pose proof (base32_alphabet _ Hl Hu) as Ha.
  change (list_fmap Z Z to_ascii_lowercase) with (fmap (M:=list) to_ascii_lowercase).
  rewrite length_fmap, base32_length by done. cbn [Nat.eqb CID_BASE32_LEN negb].
  assert (existsb is_ascii_uppercase (to_ascii_lowercase <$> base32_encode (to_bytes c)) = false) as ->.
  { clear -Ha. induction Ha as [|x l Hx _ IH]; [done|]. cbn. by rewrite lower_not_upper, IH. }
  erewrite map_forall_id by (done || apply upper_lower_base32).
  rewrite base32_decode_encode by done. by apply from_bytes_to_bytes.
Qed.

Lemma from_str_Ok s c : from_str s = Ok c -> cid_wf c /\ display c = Some s.
Proof.
  unfold from_str. destruct s as [|x rest]; [done|]. destruct (Z.eqb_spec x 98) as [->|]; [|done].
  cbn [mbind res_bind]. destruct (negb _) eqn:Hl; [done|].
  destruct (existsb _ _) eqn:Hup; [done|]. destruct (base32_decode _) as [b|] eqn:Hd; [|done].
  apply base32_encode_decode in Hd as (Hb & Hu & He); [|rewrite length_fmap; unfold CID_BASE32_LEN in Hl; lia].
  intros [Hc Ht]%from_bytes_Ok; [|done]. split; [done|].
  unfold display. rewrite to_multibase_ascii by done. f_equal.
  unfold to_multibase. rewrite Ht, He. cbn. f_equal.
  apply (map_forall_id _ _ (fun c => is_ascii_uppercase c = false)); [apply lower_upper|].
  clear -Hup. induction rest as [|x rest IH]; [done|]. cbn in Hup. apply orb_false_iff in Hup as [].
  constructor; auto.
Qed.
End Text.

(** Every CID has exactly one text form, ["b"] and base32 in lower case:
    printing and parsing are inverse to each other. *)
Theorem cid_text_roundtrip `{Base32Laws} s c :
  (cid_wf c -> exists s', display c = Some s') /\
  (cid_wf c /\ display c = Some s <-> from_str s = Ok c).
Proof.
  split.
  - intros Hc. unfold display. rewrite to_multibase_ascii by done. eauto.
  - split; [intros []; by apply from_str_display|apply from_str_Ok].
Qed.

(** A base32 codec with the laws, for 36 bytes. *)
Definition alphabet_char (d : Z) : Z := if d <? 26 then 65 + d else 24 + d.
Definition char_value (c : Z) : option Z :=
  if is_ascii_uppercase c then Some (c - 65)
  else if in_range 50 55 c then Some (c - 24) else None.

Fixpoint digits32 (n : nat) (v : Z) : bytes :=
  match n with O => [] | S n' => (v / 32 ^ Z.of_nat n') mod 32 :: digits32 n' v end.
Definition value32 (ds : bytes) : Z := foldl (fun acc d => acc * 32 + d) 0 ds.

#[export] Instance base32_ref : Base32 := {|
  base32_encode b := alphabet_char <$> digits32 58 (be_value b * 4);
  base32_decode s :=
    ds ← mapM char_value s;
    if value32 ds mod 4 =? 0 then Some (be_bytes 36 (value32 ds / 4)) else None
|}.

Lemma value32_acc acc ds : foldl (fun acc d => acc * 32 + d) acc ds = acc * 32 ^ Z.of_nat (length ds) + value32 ds.
Proof.
  unfold value32. revert acc. induction ds as [|d ds IH]; intros acc; cbn -[Z.pow Z.mul]; [lia|].
  rewrite IH, (IH (0 * 32 + d)). rewrite Nat2Z.inj_succ, Z.pow_succ_r by lia. lia.
Qed.

Lemma value32_cons d ds : value32 (d :: ds) = d * 32 ^ Z.of_nat (length ds) + value32 ds.
Proof. unfold value32 at 1. cbn -[Z.mul]. by rewrite value32_acc. Qed.

Lemma digits32_length n v : length (digits32 n v) = n.
Proof. induction n; cbn; auto. Qed.

Lemma digits32_range n v : Forall (fun d => 0 <= d < 32) (digits32 n v).
Proof. induction n; cbn; constructor; [apply Z.mod_pos_bound; lia|done]. Qed.

Lemma value32_digits32 n v : value32 (digits32 n v) = v mod 32 ^ Z.of_nat n.
Proof.
  induction n as [|n IH]; [by rewrite Z.mod_1_r|].
  cbn [digits32]. rewrite value32_cons, IH, digits32_length, Nat2Z.inj_succ, Z.pow_succ_r by lia.
  set (m := 32 ^ Z.of_nat n). assert (0 < m) by (apply Z.pow_pos_nonneg; lia).
  rewrite (Z.mul_comm 32 m), Z.rem_mul_r by lia. lia.
Qed.

Lemma value32_bound ds : Forall (fun d => 0 <= d < 32) ds -> 0 <= value32 ds < 32 ^ Z.of_nat (length ds).
Proof.
  induction 1 as [|d ds Hd _ IH]; [by cbn|].
  rewrite value32_cons. cbn [length]. rewrite Nat2Z.inj_succ, Z.pow_succ_r by lia. nia.
Qed.

Lemma value32_inj ds es : length ds = length es -> Forall (fun d => 0 <= d < 32) ds ->
  Forall (fun d => 0 <= d < 32) es -> value32 ds = value32 es -> ds = es.
Proof.
  intros Hl Hds. revert es Hl. induction Hds as [|d ds Hd Hds IH]; intros [|e es] Hl Hes Hv; try done.
  inversion_clear Hes. injection Hl as Hl. rewrite !value32_cons, Hl in Hv.
  pose proof (value32_bound ds Hds). pose proof (value32_bound es ltac:(done)). rewrite Hl in *.
  assert (d = e) as -> by nia. f_equal. apply IH; [done..|lia].
Qed.

Lemma char_value_alphabet d : 0 <= d < 32 -> char_value (alphabet_char d) = Some d.
Proof.
  unfold char_value, alphabet_char, in_range. intros.
  destruct (d <? 26) eqn:?; split_ifs; first [exfalso; ascii_lia | f_equal; ascii_lia].
Qed.

Lemma alphabet_char_value c d : char_value c = Some d -> 0 <= d < 32 /\ alphabet_char d = c.
Proof.
  unfold char_value, alphabet_char, in_range. intros H.
  destruct (is_ascii_uppercase c) eqn:?; [|destruct (_ && _) eqn:?; [|done]];
    injection H as <-; split_ifs; ascii_lia.
Qed.

Lemma base32_widths : 32 ^ Z.of_nat 58 = 4 * 256 ^ Z.of_nat 36.
Proof. reflexivity. Qed.

#[export] Instance base32_ref_laws : Base32Laws.
Proof.
  split.
  - intros b _. cbn [base32_encode base32_ref]. by rewrite length_fmap, digits32_length.
  - intros b _ _. cbn [base32_encode base32_ref]. apply Forall_fmap. eapply Forall_impl; [apply digits32_range|].
    unfold base32_char, alphabet_char. cbn. intros d Hd. split_ifs; ascii_lia.
  - intros b Hl Hu. pose proof (be_value_bound b Hu) as Hv. rewrite Hl in Hv.
    assert (Hm : mapM char_value (alphabet_char <$> digits32 58 (be_value b * 4)) =
      Some (digits32 58 (be_value b * 4))).
    { pose proof (digits32_range 58 (be_value b * 4)) as Hr. induction Hr as [|d ds Hd _ IH]; [done|].
      cbn. by rewrite char_value_alphabet, IH. }
    cbn [base32_decode base32_encode base32_ref]. rewrite Hm. cbn [mbind option_bind].
    rewrite value32_digits32, (Z.mod_small (be_value b * 4)) by (clear Hm; pose proof base32_widths; lia).
    rewrite Z.mod_mul, Z.eqb_refl, Z.div_mul by lia.
    f_equal. rewrite <- Hl. by apply be_bytes_be_value.
  - intros s b Hl Hd. cbn [base32_decode base32_ref] in Hd.
    destruct (mapM char_value s) as [ds|] eqn:Hm; [|done]. cbn [mbind option_bind] in Hd.
    destruct (Z.eqb_spec (value32 ds mod 4) 0) as [Hz|]; [|done].
    assert (b = be_bytes 36 (value32 ds / 4)) as -> by congruence.
    apply mapM_Some in Hm. rewrite be_bytes_length. split_and!; [done|apply be_bytes_u8|].
    assert (Hds : Forall (fun d => 0 <= d < 32) ds /\ alphabet_char <$> ds = s /\ length ds = length s).
    { clear -Hm. induction Hm as [|c d s ds Hc _ (IH1 & IH2 & IH3)]; [done|].
      apply alphabet_char_value in Hc as [? <-]. cbn. rewrite IH3, IH2. auto. }
    destruct Hds as (Hr & <- & Hlen). cbn [base32_encode base32_ref]. f_equal.
    rewrite length_fmap in Hl. pose proof (value32_bound ds Hr) as Hv. rewrite Hl in Hv.
    assert (Hq : value32 ds / 4 * 4 = value32 ds) by (rewrite (Z.div_mod (value32 ds) 4) at 2; lia).
    assert (0 <= value32 ds / 4 < 256 ^ Z.of_nat 36).
    { pose proof base32_widths. split; [apply Z.div_pos; lia|apply Z.div_lt_upper_bound; lia]. }
    rewrite be_value_be_bytes_small, Hq by done.
    apply value32_inj; [by rewrite digits32_length|apply digits32_range|done|].
    rewrite value32_digits32. apply Z.mod_small. by rewrite <- Hl in *.
Qed.

Example cid_text_roundtrip_witness :
  let c := MkCid Raw (replicate 32 7) in
  exists s, display c = Some s /\ from_str s = Ok c.
Proof.
  intros c. assert (Hc : cid_wf c) by (split; [done|]; repeat constructor; by unfold is_u8).
  destruct (proj1 (cid_text_roundtrip [] c) Hc) as [s Hs].
  exists s. exact (conj Hs (proj1 (proj2 (cid_text_roundtrip s c)) (conj Hc Hs))).
Defined.

(** ** SHA-256 padding *)

(** The padded message of FIPS 180-4: the bit [1], as few zeros as reach a
    whole number of blocks, and the length in bits. *)
Definition sha256_pad (data : bytes) : bytes :=
  data ++ [0x80] ++ replicate (Z.to_nat ((55 - Z.of_nat (length data)) mod 64)) 0 ++
    be_bytes 8 (as_u64 (8 * Z.of_nat (length data))).

Lemma list_inserts_middle {A} (pre mid post k : list A) : length mid = length k ->
  list_inserts (length pre) k (pre ++ mid ++ post) = pre ++ k ++ post.
Proof.
  revert pre mid. induction k as [|x k IH]; intros pre [|y mid] Hl; try done. cbn [list_inserts].
  injection Hl as Hl. specialize (IH (pre ++ [y]) mid Hl).
  rewrite length_app, Nat.add_1_r in IH. rewrite <- !app_assoc in IH. cbn in IH |- *.
  rewrite IH. by rewrite list_insert_alter, alter_app_r_alt, Nat.sub_diag by lia.
Qed.

Lemma padded_block t (len8 : bytes) (used : nat) : length len8 = 8%nat ->
  (length t + 9 <= used * 64 <= 128)%nat ->
  list_inserts (used * 64 - 8) len8 (<[length t := 0x80]> (list_inserts 0 t (replicate 128 0))) =
  (t ++ [0x80] ++ replicate (used * 64 - 9 - length t) 0 ++ len8) ++ replicate (128 - used * 64) 0.
Proof.
  intros Hl Hu.
  replace 128%nat with (length t + (1 + ((used * 64 - 9 - length t) + (8 + (128 - used * 64)))))%nat at 1 by lia.
  rewrite !replicate_add. pose proof (list_inserts_middle [] (replicate (length t) 0)
    (replicate 1 0 ++ replicate (used * 64 - 9 - length t) 0 ++ replicate 8 0 ++ replicate (128 - used * 64) 0) t) as H1.
  cbn [length app] in H1. rewrite H1 by apply length_replicate.
  rewrite list_insert_alter, alter_app_r_alt, Nat.sub_diag by lia. cbn [replicate app alter list_alter].
  pose proof (list_inserts_middle (t ++ 0x80 :: replicate (used * 64 - 9 - length t) 0) (replicate 8 0)
    (replicate (128 - used * 64) 0) len8) as H2.
  replace (length (t ++ _ :: _)) with (used * 64 - 8)%nat in H2
    by (rewrite length_app; cbn [length]; rewrite length_replicate; lia).
  rewrite <- !app_assoc in H2. cbn [app replicate] in H2. rewrite H2 by (cbn; lia).
  rewrite <- !app_assoc. cbn [app]. by rewrite <- !app_assoc.
Qed.

Lemma sha256_padded `{Sha2Laws} data :
  sha256 data = concat (be_bytes 4 <$> compress256 initial_state (as_chunks 64 (sha256_pad data)).1) /\
  (as_chunks 64 (sha256_pad data)).2 = [] /\
  length (sha256 data) = 32%nat.
Proof.
  assert (Hmain : sha256 data = concat (be_bytes 4 <$> compress256 initial_state (as_chunks 64 (sha256_pad data)).1) /\
    (as_chunks 64 (sha256_pad data)).2 = []).
  { unfold sha256. pose proof (as_chunks_spec 64 data ltac:(lia)) as (Hc & Hall & Ht & _).
    destruct (as_chunks 64 data) as [blocks t]. cbn [fst snd] in *.
    set (used := if (length t <? 56)%nat then 1%nat else 2%nat).
    assert (Hdl : length data = (length blocks * 64 + length t)%nat).
    { rewrite <- Hc, length_app, (concat_length 64) by done. lia. }
    assert (Hused : (length t + 9 <= used * 64 <= 128)%nat /\ (used * 64 <= length t + 72)%nat)
      by (unfold used; case_match; lia).
    destruct Hused as [Hused Hleast].
    rewrite padded_block by (apply be_bytes_length || done).
    set (len8 := be_bytes 8 _). set (k := (used * 64 - 9 - length t)%nat).
    assert (Hpad : sha256_pad data = concat blocks ++ (t ++ [0x80] ++ replicate k 0 ++ len8)).
    { unfold sha256_pad. rewrite <- Hc at 1. rewrite <- app_assoc. do 3 f_equal.
      assert (Z.to_nat ((55 - Z.of_nat (length data)) mod 64) = k) as ->.
      { unfold k. rewrite Hdl.
        replace (55 - Z.of_nat (length blocks * 64 + length t)) with
          ((Z.of_nat used * 64 - 9 - Z.of_nat (length t)) + (1 - Z.of_nat used - Z.of_nat (length blocks)) * 64) by lia.
        rewrite Z.mod_add, Z.mod_small by lia. lia. }
      unfold len8, as_u64. do 2 f_equal. rewrite Z.mul_comm. symmetry. apply Z.mul_mod_idemp_l. lia. }
    set (final := t ++ [0x80] ++ replicate k 0 ++ len8) in *.
    assert (Hfl : length final = (used * 64)%nat).
    { unfold final, k, len8. rewrite !length_app, length_replicate, be_bytes_length. cbn [length]. lia. }
    rewrite Hpad, as_chunks_app by (lia || done). cbn [fst snd].
    rewrite compress256_app.
    assert (Hf : as_chunks 64 final = (take used (as_chunks 64 (final ++ replicate (128 - used * 64) 0)).1, [])).
    { pose proof (as_chunks_spec 64 final ltac:(lia)) as (F1 & F2 & F3 & F4).
      rewrite Hfl, Nat.div_mul in F4 by lia. destruct (as_chunks 64 final) as [fs r]. cbn [fst snd] in *.
      assert (r = []) as ->.
      { apply (f_equal length) in F1. rewrite length_app, (concat_length 64), F4, Hfl in F1 by done.
        by apply nil_length_inv; lia. }
      rewrite app_nil_r in F1. rewrite <- F1, as_chunks_app by (lia || done). cbn [fst].
      by rewrite <- F4, take_app_length. }
    by rewrite Hf. }
  destruct Hmain as [Hs Hr]. split_and!; [done..|]. rewrite Hs.
  rewrite (concat_length 4), length_fmap, compress256_words;
    [done|done|apply Forall_fmap, Forall_true; intros; apply be_bytes_length].
Qed.

Lemma sha256_length `{Sha2Laws} data : length (sha256 data) = 32%nat.
Proof. by destruct (sha256_padded data) as (_ & _ & Hl). Qed.

(** The one-pass hash absorbs the blocks of the padded message: whole blocks
    straight from the data and one or two from the stack. The digest has 32
    bytes. *)
Theorem sha256_padding `{Sha2Laws} data :
  sha256 data = concat (be_bytes 4 <$> compress256 initial_state (as_chunks 64 (sha256_pad data)).1) /\
  (as_chunks 64 (sha256_pad data)).2 = [] /\
  length (sha256 data) = 32%nat.
Proof. apply sha256_padded. Qed.

(** A block function with the laws, for examples. *)
Definition sha2_toy : Sha2 := fun s bs =>
  fold_left (fun (s : list Z) b => (fun w => as_u32 (w + foldr Z.add 0 b)) <$> s) bs s.

Lemma sha2_toy_laws : @Sha2Laws sha2_toy.
Proof.
  split.
  - intros. apply fold_left_app.
  - intros s bs. unfold compress256, sha2_toy. revert s.
    induction bs as [|b bs IH]; intros s Hs; [done|]. cbn. apply IH. by rewrite length_fmap.
Qed.

Example sha256_padding_witness : length (@sha256 sha2_toy (replicate 119 1)) = 32%nat.
Proof. exact (proj2 (proj2 (@sha256_padding sha2_toy sha2_toy_laws (replicate 119 1)))). Defined.

(** ** What the map hasher reads *)

(** The words [write] feeds to [write_u64]. *)
Definition words (b : bytes) : list Z :=
  (le_value <$> (pad_word <$> chunks 8 b)) ++ [Z.of_nat (length b)].

Lemma write_words h b : write h b = fold_left write_u64 (words b) h.
Proof.
  unfold write, words. rewrite fold_left_app. cbn [fold_left]. f_equal.
  revert h. induction (chunks 8 b) as [|c cs IH]; intros h; [done|]. cbn. apply IH.
Qed.

Lemma le_value_inj a b : length a = length b -> Forall is_u8 a -> Forall is_u8 b ->
  le_value a = le_value b -> a = b.
Proof.
  intros Hl Ha. revert b Hl. unfold is_u8 in *. induction Ha as [|x a Hx Ha IH]; intros [|y b] Hl Hb Hv; try done.
  inversion_clear Hb. cbn in Hv. injection Hl as Hl.
  assert (x = y) as -> by lia. f_equal. apply IH; [done..|lia].
Qed.

Lemma padded_chunk c : (length c <= 8)%nat ->
  pad_word c = c ++ replicate (8 - length c) 0.
Proof.
  intros Hl. pose proof (list_inserts_middle [] (replicate (length c) 0) (replicate (8 - length c) 0) c) as H.
  cbn [app length] in H. rewrite <- replicate_add in H.
  replace (length c + (8 - length c))%nat with 8%nat in H by lia. apply H, length_replicate.
Qed.

(** The chunks of a string, each padded with zeros to eight bytes, are the
    chunks of the string padded with zeros. *)
Lemma padded_chunks b : exists k, (k < 8)%nat /\
  concat (pad_word <$> chunks 8 b) = b ++ replicate k 0 /\
  Forall (fun c => length c = 8%nat) (pad_word <$> chunks 8 b).
Proof.
  pose proof (as_chunks_spec 8 b ltac:(lia)) as (Hc & Hall & Hr & _). unfold chunks.
  destruct (as_chunks 8 b) as [cs r]. cbn [fst snd] in *.
  assert (Hcs : pad_word <$> cs = cs).
  { clear Hc. induction Hall as [|c cs Hl _ IH]; [done|]. cbn. rewrite IH. f_equal.
    rewrite padded_chunk by lia. by rewrite Hl, app_nil_r. }
  destruct r as [|x r]; cbv iota.
  - exists 0%nat. rewrite Hcs, app_nil_r in *. by split_and!; [lia|..].
  - exists (8 - length (x :: r))%nat. rewrite fmap_app, Hcs, concat_app. cbn [fmap list_fmap concat].
    rewrite app_nil_r, padded_chunk, <- Hc, <- app_assoc by lia. split_and!; [cbn; lia|done|].
    apply Forall_app. split; [done|]. constructor; [|done].
    rewrite length_app, length_replicate. lia.
Qed.

(** The hasher of maps reads every string as a different sequence of words:
    two strings that differ only in trailing zero bytes are told apart by
    the length written last. *)
Theorem hasher_words_injective a b : Forall is_u8 a -> Forall is_u8 b ->
  words a = words b -> a = b.
Proof.
  intros Ha Hb [Hw Hl]%app_inj_tail.
  destruct (padded_chunks a) as (k & _ & Hca & Hla), (padded_chunks b) as (j & _ & Hcb & Hlb).
  set (cs := _ <$> chunks 8 a) in *. set (ds := _ <$> chunks 8 b) in *.
  assert (Hu : forall l m, Forall is_u8 l -> Forall is_u8 (l ++ replicate m 0)).
  { intros. apply Forall_app. split; [done|]. by apply Forall_replicate. }
  assert (Hcu : Forall (Forall is_u8) cs) by (apply Forall_concat; rewrite Hca; auto).
  assert (Hdu : Forall (Forall is_u8) ds) by (apply Forall_concat; rewrite Hcb; auto).
  assert (cs = ds) as He.
  { clearbody cs ds. clear Hca Hcb Hl Hu. revert ds Hw Hlb Hdu.
    induction Hla as [|c cs Hc _ IH]; intros [|d ds] Hw Hlb Hdu; try done. cbn in Hw.
    injection Hw as Hv Hw. inversion_clear Hcu. inversion_clear Hdu. inversion_clear Hlb.
    f_equal; [apply le_value_inj; (done || congruence)|by apply IH]. }
  rewrite He, Hcb in Hca. apply app_inj_1 in Hca as [-> _]; [done|lia].
Qed.

Example hasher_words_injective_witness : words [97] <> words [97; 0].
Proof.
  intros He. assert (H : [97] = [97; 0]); [|done].
  apply (hasher_words_injective [97] [97; 0]); [repeat constructor; by unfold is_u8..|exact He].
Defined.
