(* ===== verification/CborValue.v ===== *)
(** DRISL values: [src/src/cbor/value.rs], their induction principle, the
    type and the canonical form of a value. *)
From S2P Require Import Prelude Cid.

Module Value.
(** A [f64] is its bit pattern, [f64::to_bits]. *)
Inductive t :=
| Unsigned (n : Z)
| Signed (n : Z)
| Float (bits : Z)
| Bool (b : bool)
| Null
| Text (s : bytes)
| Bytes (b : bytes)
| Cid (c : Cid)
| Array (items : list t)
| Map (entries : list (bytes * t)).
End Value.

Abbreviation Value := Value.t.

(** ** [f64] *)

Definition exponent (bits : Z) : Z := Z.land (Z.shiftr bits 52) 0x7ff.
Definition mantissa (bits : Z) : Z := Z.land bits (2 ^ 52 - 1).
Definition is_finite (bits : Z) : bool := negb (exponent bits =? 0x7ff).
Definition is_nan (bits : Z) : bool := (exponent bits =? 0x7ff) && negb (mantissa bits =? 0).
Definition is_infinite (bits : Z) : bool := (exponent bits =? 0x7ff) && (mantissa bits =? 0).

Lemma is_finite_cases bits : is_finite bits = negb (is_nan bits) && negb (is_infinite bits).
Proof. unfold is_finite, is_nan, is_infinite. by destruct (_ =? _), (_ =? _). Qed.

(** ** Induction *)

Section Induction.
Variable P : Value -> Prop.
Hypothesis HUnsigned : forall n, P (Value.Unsigned n).
Hypothesis HSigned : forall n, P (Value.Signed n).
Hypothesis HFloat : forall bits, P (Value.Float bits).
Hypothesis HBool : forall b, P (Value.Bool b).
Hypothesis HNull : P Value.Null.
Hypothesis HText : forall s, P (Value.Text s).
Hypothesis HBytes : forall b, P (Value.Bytes b).
Hypothesis HCid : forall c, P (Value.Cid c).
Hypothesis HArray : forall items, Forall P items -> P (Value.Array items).
Hypothesis HMap : forall entries, Forall (fun e => P e.2) entries -> P (Value.Map entries).

Fixpoint Value_ind' (v : Value) : P v :=
  match v with
  | Value.Unsigned n => HUnsigned n
  | Value.Signed n => HSigned n
  | Value.Float bits => HFloat bits
  | Value.Bool b => HBool b
  | Value.Null => HNull
  | Value.Text s => HText s
  | Value.Bytes b => HBytes b
  | Value.Cid c => HCid c
  | Value.Array items =>
      HArray items ((fix go l : Forall P l :=
        match l with [] => Forall_nil_2 _ | v :: l' => Forall_cons_2 _ _ _ (Value_ind' v) (go l') end) items)
  | Value.Map entries =>
      HMap entries ((fix go l : Forall (fun e => P e.2) l :=
        match l with
        | [] => Forall_nil_2 _
        | e :: l' => Forall_cons_2 (fun e => P e.2) e l' (Value_ind' e.2) (go l')
        end) entries)
  end.
End Induction.

(** ** Well-typed values *)

(** The Rust types of the payloads: [u64], [i64], a [str] is UTF-8, and a
    length is at most [isize::MAX]. *)
Definition str_ok (s : bytes) : Prop := Forall is_u8 s /\ utf8_valid s = true.

Inductive typed : Value -> Prop :=
| TUnsigned n : is_u64 n -> typed (Value.Unsigned n)
| TSigned n : is_i64 n -> typed (Value.Signed n)
| TFloat bits : is_u64 bits -> typed (Value.Float bits)
| TBool b : typed (Value.Bool b)
| TNull : typed Value.Null
| TText s : str_ok s -> Z.of_nat (length s) <= i64_max -> typed (Value.Text s)
| TBytes b : Forall is_u8 b -> Z.of_nat (length b) <= i64_max -> typed (Value.Bytes b)
| TCid c : cid_wf c -> typed (Value.Cid c)
| TArray items : Forall typed items -> Z.of_nat (length items) <= i64_max -> typed (Value.Array items)
| TMap entries :
    Forall (fun e => str_ok e.1 /\ Z.of_nat (length e.1) <= i64_max) entries ->
    Forall (fun e => typed e.2) entries ->
    Z.of_nat (length entries) <= i64_max -> typed (Value.Map entries).

(** ** Key order *)

(** Shorter keys first, keys of one length as bytes. *)
Definition key_lt (a b : bytes) : Prop :=
  (length a < length b)%nat \/ length a = length b /\ bytes_lt a b.

#[export] Instance key_lt_strict : StrictOrder key_lt.
Proof.
  split.
  - intros a [?|[_ H]]; [lia|]. by apply bytes_lt_irrefl in H.
  - intros a b c [?|[? H1]] [?|[? H2]]; [left; lia..|].
    right. split; [lia|]. by eapply bytes_lt_trans.
Qed.

Lemma key_lt_trichotomy a b : key_lt a b \/ a = b \/ key_lt b a.
Proof.
  unfold key_lt. destruct (Nat.lt_trichotomy (length a) (length b)) as [?|[He|?]]; [auto| |auto].
  destruct (bytes_cmp_spec a b); [auto..|]. right. right. right. auto.
Qed.

Definition keys_sorted {A} (entries : list (bytes * A)) : Prop := StronglySorted key_lt (entries.*1).

(** ** Canonical values *)

Definition MAX_DEPTH : nat := 64.
Definition MAX_COLLECTION_LEN : Z := 500000.

(** A canonical value inside [d] arrays and maps: integers of the atproto
    range in the variant of their sign, finite floats, sorted maps without
    duplicates, and nothing deeper or longer than the limits. *)
Inductive canonical : nat -> Value -> Prop :=
| CUnsigned d n : (d < MAX_DEPTH)%nat -> 0 <= n <= i64_max -> canonical d (Value.Unsigned n)
| CSigned d n : (d < MAX_DEPTH)%nat -> - 2 ^ 63 <= n < 0 -> canonical d (Value.Signed n)
| CFloat d bits : (d < MAX_DEPTH)%nat -> is_u64 bits -> is_finite bits = true -> canonical d (Value.Float bits)
| CBool d b : (d < MAX_DEPTH)%nat -> canonical d (Value.Bool b)
| CNull d : (d < MAX_DEPTH)%nat -> canonical d Value.Null
| CText d s : (d < MAX_DEPTH)%nat -> str_ok s -> Z.of_nat (length s) <= i64_max -> canonical d (Value.Text s)
| CBytes d b : (d < MAX_DEPTH)%nat -> Forall is_u8 b -> Z.of_nat (length b) <= i64_max -> canonical d (Value.Bytes b)
| CCid d c : (d < MAX_DEPTH)%nat -> cid_wf c -> canonical d (Value.Cid c)
| CArray d items : (d < MAX_DEPTH)%nat -> Z.of_nat (length items) <= MAX_COLLECTION_LEN ->
    Forall (canonical (S d)) items -> canonical d (Value.Array items)
| CMap d entries : (d < MAX_DEPTH)%nat -> Z.of_nat (length entries) <= MAX_COLLECTION_LEN ->
    keys_sorted entries ->
    Forall (fun e => str_ok e.1 /\ Z.of_nat (length e.1) <= i64_max) entries ->
    Forall (fun e => canonical (S d) e.2) entries -> canonical d (Value.Map entries).

Lemma canonical_depth d v : canonical d v -> (d < MAX_DEPTH)%nat.
Proof. by destruct 1. Qed.

Lemma canonical_typed d v : canonical d v -> typed v.
Proof.
  revert d. induction v as [| | | | | | | |items IH|entries IH] using Value_ind'; inversion 1; subst;
    constructor; unfold is_u64, is_i64, i64_max, MAX_COLLECTION_LEN in *; try done; try lia.
  - rewrite Forall_forall in *. eauto.
  - rewrite Forall_forall in *. eauto.
Qed.
