(* ===== verification/CborEncode.v ===== *)
(** Encoding: [src/src/cbor/encode.rs] and the encoding half of
    [src/src/cbor/mod.rs]. *)
From S2P Require Import Prelude StateError SyntaxError CborError Cid CborValue.

(** ** Writing to a [Vec<u8>] *)

Definition put_head (buf : bytes) (major value : Z) : bytes :=
  let major := as_u8 (Z.shiftl major 5) in
  if value <? 24 then buf ++ [Z.lor major (as_u8 value)]
  else if value <=? 255 then buf ++ [Z.lor major 24; as_u8 value]
  else if value <=? 65535 then buf ++ Z.lor major 25 :: be_bytes 2 (as_u16 value)
  else if value <=? 4294967295 then buf ++ Z.lor major 26 :: be_bytes 4 (as_u32 value)
  else buf ++ Z.lor major 27 :: be_bytes 8 value.

(** [v.len() as u64] *)
Definition len_u64 {A} (l : list A) : Z := as_u64 (Z.of_nat (length l)).

Definition put_text (buf s : bytes) : bytes := put_head buf 3 (len_u64 s) ++ s.

Definition tag42 (c : Cid) : bytes := [0xd8; 0x2a; 0x58; 0x25; 0x00] ++ to_bytes c.

Definition put_cid (buf : bytes) (c : Cid) : bytes := buf ++ tag42 c.

Definition non_finite : CborError := invalid_cbor "NaN and Infinity not allowed in DRISL".

(** ** Key order *)

(** The first pair of eight-byte words that differ decides. *)
Fixpoint words_cmp (a b : list bytes) : option comparison :=
  match a, b with
  | x :: a', y :: b' =>
      if bool_decide (x = y) then words_cmp a' b' else Some (be_value x ?= be_value y)
  | _, _ => None
  end.

(** [.zip(..).map(cmp).find(is_ne).unwrap_or(Equal)] *)
Fixpoint rest_cmp (a b : bytes) : comparison :=
  match a, b with
  | x :: a', y :: b' => match x ?= y with Eq => rest_cmp a' b' | c => c end
  | _, _ => Eq
  end.

Definition cbor_key_cmp (a b : bytes) : comparison :=
  if negb (length a =? length b)%nat then (length a ?= length b)%nat
  else
    let '(a_words, a_rest) := as_chunks 8 a in
    let '(b_words, b_rest) := as_chunks 8 b in
    match words_cmp a_words b_words with
    | Some c => c
    | None => rest_cmp a_rest b_rest
    end.

Definition is_lt (c : comparison) : bool := match c with Lt => true | _ => false end.

(** [sorted.sort_by(|a, b| cbor_key_cmp(a.0, b.0))], a stable sort. *)
Fixpoint insert_by_key {A} (e : bytes * A) (l : list (bytes * A)) : list (bytes * A) :=
  match l with
  | [] => [e]
  | f :: l' =>
      match cbor_key_cmp e.1 f.1 with Gt => f :: insert_by_key e l' | _ => e :: f :: l' end
  end.
Definition sort_by_key {A} (l : list (bytes * A)) : list (bytes * A) := foldr insert_by_key [] l.

(** [.windows(2).all(|w| cbor_key_cmp(w[0].0, w[1].0).is_lt())] *)
Fixpoint windows_lt {A} (l : list (bytes * A)) : bool :=
  match l with
  | e :: ((f :: _) as l') => is_lt (cbor_key_cmp e.1 f.1) && windows_lt l'
  | _ => true
  end.

(** ** [write_value] *)

Inductive Reject := Rejected.

(** A pass appends to the buffer; what it wrote stays when it is rejected. *)
Definition pass : Type := st bytes Reject ().
Definition push (f : bytes -> bytes) : pass := modify f.

(** [for (key, value) in sorted { .. }] *)
Definition write_sorted (l : list (bytes * pass)) : pass :=
  for_each (fun '(key, write) => _ ← push (fun buf => put_text buf key); write) l.

(** The loop that checks each key against the one before it, unless [sort]. *)
Fixpoint write_entries (sort : bool) (prev : option bytes) (l : list (bytes * pass)) : pass :=
  match l with
  | [] => mret ()
  | (key, write) :: l' =>
      if negb sort && match prev with Some p => negb (is_lt (cbor_key_cmp p key)) | None => false end
      then fail Rejected
      else
        _ ← push (fun buf => put_text buf key);
        _ ← write;
        write_entries sort (Some key) l'
  end.

(** [write_array] and [write_map], given the passes of the items: an entry
    is its key and the pass that writes its value. *)
Definition write_array (items : list pass) : pass :=
  _ ← push (fun buf => put_head buf 4 (len_u64 items));
  for_each (fun write => write) items.

Definition write_map (sort : bool) (entries : list (bytes * pass)) : pass :=
  _ ← push (fun buf => put_head buf 5 (len_u64 entries));
  if sort && negb (windows_lt entries) then write_sorted (sort_by_key entries)
  else write_entries sort None entries.

(** [write_item::<SORT>] *)
Fixpoint write_item (sort : bool) (v : Value) : pass :=
  match v with
  | Value.Unsigned n => push (fun buf => put_head buf 0 n)
  | Value.Signed n =>
      if 0 <=? n then push (fun buf => put_head buf 0 (as_u64 n))
      else push (fun buf => put_head buf 1 (as_u64 (-1 - n)))
  | Value.Float f =>
      if negb (is_finite f) then fail Rejected
      else push (fun buf => (buf ++ [0xfb]) ++ be_bytes 8 f)
  | Value.Bool b => push (fun buf => buf ++ [if b then 0xf5 else 0xf4])
  | Value.Null => push (fun buf => buf ++ [0xf6])
  | Value.Text s => push (fun buf => put_text buf s)
  | Value.Bytes b => push (fun buf => put_head buf 2 (len_u64 b) ++ b)
  | Value.Cid c => push (fun buf => put_cid buf c)
  | Value.Array items => write_array (map (write_item sort) items)
  | Value.Map entries => write_map sort (map (fun e => (e.1, write_item sort e.2)) entries)
  end.

(** The pass that does not sort, then, from the start again, the one that does. *)
Definition write_value (v : Value) : st bytes CborError () := fun buf =>
  let start := length buf in
  match write_item false v buf with
  | (Ok _, buf) => (Ok (), buf)
  | (_, buf) =>
      let '(r, buf) := write_item true v (take start buf) in
      (map_err (fun _ => non_finite) r, buf)
  end.

Definition encode_value (v : Value) : res CborError bytes :=
  match write_value v [] with
  | (Ok _, buf) => Ok buf
  | (Err e, _) => Err e
  | (Panic, _) => Panic
  end.

Definition encode_value_into (v : Value) : st bytes CborError () := write_value v.

(** ** The capacity [encode_value] reserves *)

Fixpoint estimated_size (v : Value) : Z :=
  match v with
  | Value.Unsigned _ | Value.Signed _ => 9
  | Value.Float _ => 9
  | Value.Bool _ | Value.Null => 1
  | Value.Text s => 5 + Z.of_nat (length s)
  | Value.Bytes b => 5 + Z.of_nat (length b)
  | Value.Cid _ => 41
  | Value.Array items => fold_left (fun size item => size + item) (map estimated_size items) 5
  | Value.Map entries =>
      fold_left (fun size e => size + (5 + Z.of_nat (length e.1) + e.2))
        (map (fun e => (e.1, estimated_size e.2)) entries) 5
  end.

(** ** Heads *)

Definition head (major n : Z) : bytes := put_head [] major n.
Definition text_enc (s : bytes) : bytes := head 3 (len_u64 s) ++ s.

Lemma put_head_app buf major n : put_head buf major n = buf ++ head major n.
Proof. unfold head, put_head. by repeat case_match. Qed.

Lemma put_text_app buf s : put_text buf s = buf ++ text_enc s.
Proof. unfold put_text, text_enc. by rewrite put_head_app, app_assoc. Qed.

(** The width of an argument: additional info and number of argument bytes. *)
Definition arg_width (n : Z) : nat :=
  if n <? 24 then 0 else if n <=? 255 then 1 else if n <=? 65535 then 2
  else if n <=? 4294967295 then 4 else 8.
Definition arg_info (n : Z) : Z :=
  if n <? 24 then n else if n <=? 255 then 24 else if n <=? 65535 then 25
  else if n <=? 4294967295 then 26 else 27.

Lemma arg_info_range n : 0 <= n -> 0 <= arg_info n < 28.
Proof. unfold arg_info. intros. split_ifs; lia. Qed.

Lemma lor_major major a : 0 <= major < 8 -> 0 <= a < 32 ->
  Z.lor (as_u8 (Z.shiftl major 5)) a = major * 32 + a.
Proof.
  intros. unfold as_u8. rewrite Z.shiftl_mul_pow2, Z.mod_small by lia. by apply (lor_disjoint _ _ 5).
Qed.

(** A head is the major type and the info in one byte, then the argument in
    the fewest bytes. *)
Lemma head_eq major n : 0 <= major < 8 -> is_u64 n ->
  head major n = (major * 32 + arg_info n) :: be_bytes (arg_width n) n.
Proof.
  intros Hm Hn. unfold is_u64 in Hn. unfold head, put_head, arg_info, arg_width.
  destruct (n <? 24) eqn:?; [cbn; unfold as_u8 at 2; by rewrite Z.mod_small, lor_major by lia|].
  destruct (n <=? 255) eqn:?.
  { cbn -[Z.div Z.mod_small]. rewrite lor_major by lia. unfold as_u8. by rewrite Z.div_1_r. }
  destruct (n <=? 65535) eqn:?.
  { rewrite lor_major by lia. unfold as_u16. by rewrite Z.mod_small by lia. }
  destruct (n <=? 4294967295) eqn:?.
  { rewrite lor_major by lia. unfold as_u32. by rewrite Z.mod_small by lia. }
  by rewrite lor_major by lia.
Qed.

Lemma head_u8 major n : 0 <= major < 8 -> is_u64 n -> Forall is_u8 (head major n).
Proof.
  intros Hm Hn. rewrite head_eq by done. constructor; [|apply be_bytes_u8].
  pose proof (arg_info_range n). unfold is_u8, is_u64 in *. lia.
Qed.

Lemma head_length major n : 0 <= major < 8 -> is_u64 n -> length (head major n) = S (arg_width n).
Proof. intros. rewrite head_eq by done. cbn. by rewrite be_bytes_length. Qed.

Lemma len_u64_small {A} (l : list A) : Z.of_nat (length l) <= i64_max -> len_u64 l = Z.of_nat (length l).
Proof. unfold len_u64, as_u64, i64_max. intros. apply Z.mod_small. lia. Qed.

Lemma len_u64_range {A} (l : list A) : is_u64 (len_u64 l).
Proof. unfold len_u64, as_u64, is_u64. apply Z.mod_pos_bound. lia. Qed.

(** Heads of one major type sort as their arguments. *)
Lemma head_cmp major a b x y : 0 <= major < 8 -> is_u64 a -> is_u64 b -> a < b ->
  bytes_cmp (head major a ++ x) (head major b ++ y) = Lt.
Proof.
  intros Hm Ha Hb Hlt. rewrite !head_eq by done. unfold is_u64 in *. cbn [app bytes_cmp].
  destruct (Z.compare_spec (major * 32 + arg_info a) (major * 32 + arg_info b)) as [He|He|He]; [|done|exfalso].
  - assert (Hw : arg_width a = arg_width b /\ (arg_width a <> 0)%nat).
    { unfold arg_info, arg_width in *. split_ifs; auto. }
    destruct Hw as [Hw Hnz]. rewrite <- Hw.
    assert (Hv : forall n, 0 <= n < 2 ^ 64 -> 0 <= n < 256 ^ Z.of_nat (arg_width n) \/ arg_width n = 0%nat).
    { intros n Hn. unfold arg_width. split_ifs; cbn; auto; lia. }
    assert (Hcmp : bytes_cmp (be_bytes (arg_width a) a) (be_bytes (arg_width a) b) = Lt).
    { rewrite be_value_cmp by (apply be_bytes_u8 || by rewrite !be_bytes_length).
      destruct (Hv a Ha) as [?|?]; [|done]. destruct (Hv b Hb) as [?|?]; [|congruence].
      rewrite !be_value_be_bytes_small by (done || by rewrite Hw). by apply Z.compare_lt_iff. }
    rewrite bytes_cmp_app_ne; [done|by rewrite !be_bytes_length|congruence].
  - unfold arg_info in He. revert He. split_ifs; lia.
Qed.

(** ** The order of keys *)

Lemma words_cmp_spec (cs ds : list bytes) (x y : bytes) :
  length cs = length ds ->
  Forall (fun c => length c = 8%nat /\ Forall is_u8 c) cs ->
  Forall (fun c => length c = 8%nat /\ Forall is_u8 c) ds ->
  bytes_cmp (concat cs ++ x) (concat ds ++ y) =
    match words_cmp cs ds with Some c => c | None => bytes_cmp x y end.
Proof.
  intros Hl Hcs. revert ds Hl. induction Hcs as [|c cs [Hc Hcu] Hcs IH]; intros [|d ds] Hl Hds; try done.
  inversion_clear Hds as [|? ? [Hd Hdu] Hds']. injection Hl as Hl. cbn [concat words_cmp].
  rewrite <- !app_assoc. case_bool_decide as He.
  - subst. rewrite bytes_cmp_app_same. by apply IH.
  - rewrite bytes_cmp_app_ne, be_value_cmp; try done; [congruence|congruence|].
    intros H. by apply bytes_cmp_eq in H.
Qed.

Lemma rest_cmp_spec a b : length a = length b -> rest_cmp a b = bytes_cmp a b.
Proof.
  revert b. induction a as [|x a IH]; intros [|y b] Hl; try done. cbn. injection Hl as Hl. by rewrite IH.
Qed.

Lemma as_chunks_u8 (b : bytes) : Forall is_u8 b ->
  Forall (fun c => length c = 8%nat /\ Forall is_u8 c) (as_chunks 8 b).1.
Proof.
  intros Hb. pose proof (as_chunks_spec 8 b ltac:(lia)) as (Hc & Hall & _).
  rewrite <- Hc in Hb. apply Forall_app in Hb as [Hb _]. apply Forall_concat in Hb.
  rewrite Forall_forall in *. auto.
Qed.

Lemma cbor_key_cmp_cases a b : Forall is_u8 a -> Forall is_u8 b ->
  cbor_key_cmp a b =
    if (length a =? length b)%nat then bytes_cmp a b else (length a ?= length b)%nat.
Proof.
  intros Ha Hb. unfold cbor_key_cmp. destruct (Nat.eqb_spec (length a) (length b)) as [Hl|]; [|done].
  cbn [negb]. pose proof (as_chunks_u8 a Ha) as Hca. pose proof (as_chunks_u8 b Hb) as Hcb.
  pose proof (as_chunks_spec 8 a ltac:(lia)) as (Hea & Ha8 & Hra & Hna).
  pose proof (as_chunks_spec 8 b ltac:(lia)) as (Heb & Hb8 & Hrb & Hnb).
  rewrite Hl, <- Hnb in Hna.
  destruct (as_chunks 8 a) as [cs x], (as_chunks 8 b) as [ds y]. cbn [fst snd] in *.
  rewrite <- Hea, <- Heb. rewrite words_cmp_spec by done. rewrite rest_cmp_spec; [done|].
  rewrite <- Hea, <- Heb, !length_app, !(concat_length 8) in Hl by done. lia.
Qed.

Lemma cbor_key_cmp_spec a b : Forall is_u8 a -> Forall is_u8 b ->
  CompareSpec (a = b) (key_lt a b) (key_lt b a) (cbor_key_cmp a b).
Proof.
  intros Ha Hb. rewrite cbor_key_cmp_cases by done. unfold key_lt.
  destruct (Nat.eqb_spec (length a) (length b)).
  - destruct (bytes_cmp_spec a b); constructor; auto.
  - destruct (Nat.compare_spec (length a) (length b)); constructor; auto; lia.
Qed.

Lemma key_lt_encoded a b : Z.of_nat (length a) <= i64_max -> Z.of_nat (length b) <= i64_max ->
  key_lt a b -> bytes_cmp (text_enc a) (text_enc b) = Lt.
Proof.
  intros Ha Hb [Hl|[Hl Hlt]]; unfold text_enc.
  - apply head_cmp; [lia|apply len_u64_range..|]. rewrite !len_u64_small by done. lia.
  - rewrite (len_u64_small a), (len_u64_small b), Hl, bytes_cmp_app_same by done. done.
Qed.

(** [cbor_key_cmp], which compares lengths and then eight bytes at a time,
    orders keys as their complete CBOR encodings are ordered. *)
Theorem cbor_key_cmp_encoded a b :
  Forall is_u8 a -> Forall is_u8 b ->
  Z.of_nat (length a) <= i64_max -> Z.of_nat (length b) <= i64_max ->
  cbor_key_cmp a b = bytes_cmp (put_text [] a) (put_text [] b).
Proof.
  intros Ha Hb Hla Hlb. rewrite !put_text_app. cbn [app].
  destruct (cbor_key_cmp_spec a b Ha Hb) as [->|Hlt|Hlt]; symmetry.
  - apply bytes_cmp_refl.
  - by apply key_lt_encoded.
  - apply bytes_cmp_Gt. by apply key_lt_encoded.
Qed.

Example cbor_key_cmp_encoded_witness :
  cbor_key_cmp (b# "$typeofthing") (b# "$typeofthinh") = Lt /\
  bytes_cmp (put_text [] (b# "$typeofthing")) (put_text [] (b# "$typeofthinh")) = Lt.
Proof.
  assert (H : cbor_key_cmp (b# "$typeofthing") (b# "$typeofthinh") = Lt) by reflexivity.
  split; [exact H|]. rewrite <- H. symmetry.
  apply (cbor_key_cmp_encoded (b# "$typeofthing") (b# "$typeofthinh"));
    [by apply u8_literal..|vm_compute; congruence|vm_compute; congruence].
Defined.

(** ** Sorting by key *)

Section Sorting.
Context {A B : Type}.
Implicit Types (l : list (bytes * A)).

Lemma insert_by_key_map (g : bytes * A -> B) e l :
  insert_by_key (e.1, g e) (map (fun e => (e.1, g e)) l) = map (fun e => (e.1, g e)) (insert_by_key e l).
Proof. induction l as [|h l IH]; [done|]. cbn. by destruct (cbor_key_cmp _ _); rewrite ?IH. Qed.

(** Sorting looks at the keys only. *)
Lemma sort_by_key_map (g : bytes * A -> B) l :
  sort_by_key (map (fun e => (e.1, g e)) l) = map (fun e => (e.1, g e)) (sort_by_key l).
Proof.
  induction l as [|e l IH]; [done|]. unfold sort_by_key in *. cbn [map foldr].
  by rewrite IH, <- insert_by_key_map.
Qed.

Lemma sort_by_key_fmap (f : A -> B) l :
  sort_by_key (map (fun e => (e.1, f e.2)) l) = map (fun e => (e.1, f e.2)) (sort_by_key l).
Proof. apply (sort_by_key_map (fun e => f e.2)). Qed.

Lemma windows_lt_fmap (f : A -> B) l : windows_lt (map (fun e => (e.1, f e.2)) l) = windows_lt l.
Proof. induction l as [|e [|g l] IH]; [done..|]. cbn in *. by rewrite IH. Qed.

Lemma sort_by_key_sorted l : windows_lt l = true -> sort_by_key l = l.
Proof.
  induction l as [|e l IH]; [done|]. intros H. unfold sort_by_key in *. cbn [foldr].
  destruct l as [|g l]; [done|]. cbn in H. apply andb_true_iff in H as [Hlt H].
  rewrite IH by done. cbn. by destruct (cbor_key_cmp _ _).
Qed.

Lemma sort_by_key_cons e l : sort_by_key (e :: l) = insert_by_key e (sort_by_key l).
Proof. done. Qed.

Lemma insert_by_key_perm e l : insert_by_key e l ≡ₚ e :: l.
Proof.
  induction l as [|g l IH]; [done|]. cbn. destruct (cbor_key_cmp _ _); [done..|].
  rewrite IH. constructor.
Qed.

Lemma sort_by_key_perm l : sort_by_key l ≡ₚ l.
Proof. induction l as [|e l IH]; [done|]. by rewrite sort_by_key_cons, insert_by_key_perm, IH. Qed.

Lemma sort_by_key_length l : length (sort_by_key l) = length l.
Proof. apply Permutation_length, sort_by_key_perm. Qed.
End Sorting.

(** With distinct keys the sorted list is the one in strict key order. *)
Lemma insert_by_key_keys {A} (e : bytes * A) l : Forall is_u8 e.1 -> Forall (fun e => Forall is_u8 e.1) l ->
  e.1 ∉ l.*1 -> keys_sorted l -> keys_sorted (insert_by_key e l).
Proof.
  intros He Hl. unfold keys_sorted. induction Hl as [|g l Hg Hl IH]; intros Hni Hs; cbn [insert_by_key].
  { constructor; [constructor|constructor]. }
  cbn in Hni. apply not_elem_of_cons in Hni as [Hne Hni]. inversion_clear Hs as [|? ? Hs' Hall].
  destruct (cbor_key_cmp_spec e.1 g.1 He Hg) as [|Hlt|Hlt]; [done| |].
  - cbn. constructor; [by constructor|]. constructor; [done|].
    eapply Forall_impl; [done|]. intros k Hk. by etrans.
  - cbn. constructor; [by apply IH|]. rewrite insert_by_key_perm. by constructor.
Qed.

Lemma sort_by_key_keys {A} (l : list (bytes * A)) : Forall (fun e => Forall is_u8 e.1) l ->
  NoDup (l.*1) -> keys_sorted (sort_by_key l).
Proof.
  induction 1 as [|e l He Hl IH]; intros Hnd; [constructor|]. rewrite sort_by_key_cons. inversion_clear Hnd.
  apply insert_by_key_keys; [done| | |auto].
  - by rewrite sort_by_key_perm.
  - by rewrite sort_by_key_perm.
Qed.

Lemma keys_sorted_windows {A} (l : list (bytes * A)) : Forall (fun e => Forall is_u8 e.1) l ->
  keys_sorted l <-> windows_lt l = true.
Proof.
  unfold keys_sorted. induction 1 as [|e l He Hl IH]; [split; [done|constructor]|].
  destruct l as [|g l]; [split; [done|repeat constructor]|].
  inversion_clear Hl as [|? ? Hg _]. cbn [windows_lt]. rewrite andb_true_iff, <- IH. cbn. split.
  - intros Hs. inversion_clear Hs as [|? ? Hs' Hall]. inversion_clear Hall as [|? ? Hlt].
    split; [|done]. destruct (cbor_key_cmp_spec e.1 g.1 He Hg) as [Heq|?|Hgt]; [exfalso|done|exfalso].
    + rewrite Heq in Hlt. by apply (irreflexivity key_lt) in Hlt.
    + eapply (irreflexivity key_lt), (transitivity Hlt Hgt).
  - intros [Hlt Hs]. constructor; [done|].
    destruct (cbor_key_cmp_spec e.1 g.1 He Hg) as [|Hlt'|]; [done| |done].
    constructor; [done|]. inversion_clear Hs. eapply Forall_impl; [done|]. intros k Hk. by etrans.
Qed.

Lemma keys_sorted_nodup {A} (l : list (bytes * A)) : keys_sorted l -> NoDup (l.*1).
Proof.
  unfold keys_sorted. induction 1 as [|k ks Hs IH Hall]; constructor; [|done].
  intros Hin. rewrite Forall_forall in Hall. apply Hall in Hin. by apply (irreflexivity key_lt) in Hin.
Qed.

(** ** What is written *)

(** The encoding of a value whose maps are in order. *)
Fixpoint enc (v : Value) : bytes :=
  match v with
  | Value.Unsigned n => head 0 n
  | Value.Signed n => if 0 <=? n then head 0 (as_u64 n) else head 1 (as_u64 (-1 - n))
  | Value.Float f => 0xfb :: be_bytes 8 f
  | Value.Bool b => [if b then 0xf5 else 0xf4]
  | Value.Null => [0xf6]
  | Value.Text s => text_enc s
  | Value.Bytes b => head 2 (len_u64 b) ++ b
  | Value.Cid c => tag42 c
  | Value.Array items => head 4 (len_u64 items) ++ concat (map enc items)
  | Value.Map entries =>
      head 5 (len_u64 entries) ++ concat (map (fun e => text_enc e.1 ++ enc e.2) entries)
  end.

(** Maps in order, and non-negative integers in their own variant. *)
Fixpoint normalize (v : Value) : Value :=
  match v with
  | Value.Signed n => if 0 <=? n then Value.Unsigned (as_u64 n) else v
  | Value.Array items => Value.Array (map normalize items)
  | Value.Map entries => Value.Map (sort_by_key (map (fun e => (e.1, normalize e.2)) entries))
  | _ => v
  end.

Fixpoint finite_floats (v : Value) : bool :=
  match v with
  | Value.Float f => is_finite f
  | Value.Array items => forallb finite_floats items
  | Value.Map entries => forallb (fun e => finite_floats e.2) entries
  | _ => true
  end.

(** A pass that appends [out] to whatever the buffer holds. *)
Definition appends (p : pass) (out : bytes) : Prop := forall buf, p buf = (Ok (), buf ++ out).
Definition rejects (p : pass) : Prop := forall buf, exists buf', p buf = (Err Rejected, buf').

Lemma appends_push f out : (forall buf, f buf = buf ++ out) -> appends (push f) out.
Proof. intros Hf buf. unfold push, modify. by rewrite Hf. Qed.

Lemma appends_bind p out (q : () -> pass) out' :
  appends p out -> appends (q ()) out' -> appends (p ≫= q) (out ++ out').
Proof.
  intros Hp Hq buf. unfold mbind, st_bind. rewrite Hp, Hq. by rewrite app_assoc.
Qed.

Lemma appends_ret : appends (mret ()) [].
Proof. intros buf. by rewrite app_nil_r. Qed.

Lemma rejects_bind p (q : () -> pass) :
  rejects p \/ (exists out, appends p out) /\ rejects (q ()) -> rejects (p ≫= q).
Proof.
  intros [Hp|[[out Hp] Hq]] buf; unfold mbind, st_bind.
  - destruct (Hp buf) as [buf' ->]. eauto.
  - rewrite Hp. apply Hq.
Qed.

Lemma for_each_appends {A} (f : A -> pass) (l : list A) (out : A -> bytes) :
  Forall (fun a => appends (f a) (out a)) l -> appends (for_each f l) (concat (map out l)).
Proof.
  induction 1 as [|a l Ha _ IH]; [apply appends_ret|]. cbn. by apply appends_bind.
Qed.

Lemma for_each_rejects {A} (f : A -> pass) (l : list A) :
  Forall (fun a => (exists out, appends (f a) out) \/ rejects (f a)) l ->
  Exists (fun a => rejects (f a)) l -> rejects (for_each f l).
Proof.
  intros Hl. induction 1 as [a l Ha|a l _ IH]; inversion_clear Hl; cbn; apply rejects_bind; [by left|].
  destruct H; [right; auto|by left].
Qed.

(** ** The sorting pass *)

Definition entry_pass (sort : bool) (e : bytes * Value) : bytes * pass := (e.1, write_item sort e.2).
Definition entry_out (out : Value -> bytes) (e : bytes * Value) : bytes := text_enc e.1 ++ out e.2.

Lemma write_sorted_appends entries out :
  Forall (fun e => appends (write_item true e.2) (out e.2)) entries ->
  appends (write_sorted (map (entry_pass true) entries)) (concat (map (entry_out out) entries)).
Proof.
  induction 1 as [|e l He _ IH]; [apply appends_ret|]. cbn. apply appends_bind; [|done].
  apply appends_bind; [|done]. apply appends_push. intros. apply put_text_app.
Qed.

Lemma write_sorted_rejects entries :
  Forall (fun e => (exists out, appends (write_item true e.2) out) \/ rejects (write_item true e.2)) entries ->
  Exists (fun e => rejects (write_item true e.2)) entries ->
  rejects (write_sorted (map (entry_pass true) entries)).
Proof.
  intros Hl Hx. assert (Hp : forall k, exists out, appends (push (fun buf => put_text buf k)) out).
  { intros k. exists (text_enc k). apply appends_push. intros. apply put_text_app. }
  apply for_each_rejects.
  - clear Hx. induction Hl as [|e l He _ IH]; constructor; [|done]. cbn. destruct (Hp e.1) as [p Hpush].
    destruct He as [[out Ho]|Hr]; [left; eexists; by apply appends_bind|right; apply rejects_bind; eauto].
  - clear Hl. induction Hx as [e l He|e l _ IH]; [left|right; done]. cbn. apply rejects_bind. eauto.
Qed.

Lemma write_entries_unsorted prev l buf : write_entries true prev l buf = write_sorted l buf.
Proof.
  revert prev buf. induction l as [|[k p] l IH]; intros prev buf; [done|]. cbn.
  unfold mbind, st_bind, push, modify. destruct (p (put_text buf k)) as [[[]| |] b]; [apply IH|done..].
Qed.

Lemma write_map_true l buf :
  write_map true l buf = write_sorted (sort_by_key l) (put_head buf 5 (len_u64 l)).
Proof.
  unfold write_map. rewrite (st_bind_run _ _ _ () (put_head buf 5 (len_u64 l))) by done. cbn [andb].
  destruct (windows_lt l) eqn:Hw; cbn [negb]; [|done].
  by rewrite write_entries_unsorted, sort_by_key_sorted.
Qed.

Lemma len_u64_sorted {A B} (f : A -> B) (l : list (bytes * A)) :
  len_u64 (sort_by_key (map (fun e => (e.1, f e.2)) l)) = len_u64 l.
Proof. unfold len_u64. by rewrite sort_by_key_length, length_map. Qed.

Lemma enc_normalize_map entries : enc (normalize (Value.Map entries)) =
  head 5 (len_u64 entries) ++
  concat (map (entry_out (fun v => enc (normalize v))) (sort_by_key entries)).
Proof.
  cbn [normalize enc]. rewrite len_u64_sorted. f_equal. by rewrite sort_by_key_fmap, map_map.
Qed.

Lemma enc_normalize_array items : enc (normalize (Value.Array items)) =
  head 4 (len_u64 items) ++ concat (map (fun v => enc (normalize v)) items).
Proof. cbn [normalize enc]. unfold len_u64. by rewrite length_map, map_map. Qed.

Lemma forallb_false_Exists {A} (f : A -> bool) l : forallb f l = false <-> Exists (fun a => f a = false) l.
Proof.
  induction l as [|a l IH]; cbn; [by rewrite Exists_nil|].
  rewrite Exists_cons, <- IH. by destruct (f a), (forallb f l); naive_solver.
Qed.

(** One of the two always happens. *)
Definition outcome (v : Value) : Prop :=
  (finite_floats v = true /\ appends (write_item true v) (enc (normalize v))) \/
  (finite_floats v = false /\ rejects (write_item true v)).

Lemma outcome_weaken v : outcome v ->
  (exists out, appends (write_item true v) out) \/ rejects (write_item true v).
Proof. intros [[_ ?]|[_ ?]]; eauto. Qed.

Lemma write_array_outcome items : Forall outcome items -> outcome (Value.Array items).
Proof.
  intros IH. unfold outcome. cbn [finite_floats]. rewrite enc_normalize_array.
  assert (Hpush : appends (push (fun buf => put_head buf 4 (len_u64 (map (write_item true) items))))
    (head 4 (len_u64 items))).
  { apply appends_push. intros. rewrite put_head_app. unfold len_u64. by rewrite length_map. }
  destruct (forallb finite_floats items) eqn:Hf; [left|right]; split; try done.
  - cbn [write_item]. apply appends_bind; [done|]. rewrite for_each_map.
    apply for_each_appends. rewrite forallb_Forall, Forall_forall in Hf. rewrite Forall_forall in *.
    intros v Hv. destruct (IH v Hv) as [[_ ?]|[Hn _]]; [done|]. rewrite Hf in Hn; done.
  - cbn [write_item]. apply rejects_bind. right. split; [eauto|]. rewrite for_each_map.
    apply for_each_rejects; [eapply Forall_impl; [done|]; apply outcome_weaken|].
    apply forallb_false_Exists in Hf. rewrite Exists_exists in *. destruct Hf as (v & Hv & Hf).
    exists v. split; [done|]. rewrite Forall_forall in IH. destruct (IH v Hv) as [[Ht _]|[_ ?]]; [congruence|done].
Qed.

Lemma write_map_outcome entries : Forall (fun e => outcome e.2) entries -> outcome (Value.Map entries).
Proof.
  intros IH. unfold outcome. cbn [finite_floats]. rewrite enc_normalize_map.
  assert (Hw : forall buf, write_item true (Value.Map entries) buf =
    write_sorted (map (entry_pass true) (sort_by_key entries)) (buf ++ head 5 (len_u64 entries))).
  { intros buf. cbn [write_item]. rewrite write_map_true.
    change (map (fun e => (e.1, write_item true e.2)) entries) with (map (entry_pass true) entries).
    unfold len_u64. rewrite length_map, put_head_app. f_equal. apply (sort_by_key_fmap (write_item true)). }
  assert (IHs : Forall (fun e => outcome e.2) (sort_by_key entries)) by (by rewrite sort_by_key_perm).
  destruct (forallb _ entries) eqn:Hf; [left|right]; split; try done; intros buf; rewrite Hw.
  - rewrite app_assoc. apply write_sorted_appends with (out := fun v => enc (normalize v)).
    rewrite forallb_Forall in Hf. rewrite <- (sort_by_key_perm entries) in Hf. rewrite Forall_forall in *.
    intros e He. destruct (IHs e He) as [[_ ?]|[Hn _]]; [done|]. rewrite Hf in Hn; done.
  - apply write_sorted_rejects; [eapply Forall_impl; [done|]; intros e; apply outcome_weaken|].
    apply forallb_false_Exists in Hf. rewrite <- (sort_by_key_perm entries) in Hf.
    rewrite Exists_exists in *. destruct Hf as (e & He & Hf).
    exists e. split; [done|]. rewrite Forall_forall in IHs. destruct (IHs e He) as [[Ht _]|[_ ?]]; [congruence|done].
Qed.

Lemma write_item_true v : outcome v.
Proof.
  induction v as [| |bits| | | | | |items IH|entries IH] using Value_ind';
    [..|by apply write_array_outcome|by apply write_map_outcome].
  all: try (left; split; [done|]; apply appends_push; intros buf; cbn [normalize enc];
    by rewrite ?put_head_app, ?put_text_app, <- ?app_assoc).
  - left. split; [done|]. intros buf. cbn [write_item normalize]. destruct (0 <=? n) eqn:Hn; cbn [enc].
    + unfold push, modify. by rewrite put_head_app.
    + rewrite Hn. unfold push, modify. by rewrite put_head_app.
  - unfold outcome. cbn [finite_floats write_item]. destruct (is_finite bits); cbn [negb]; [left|right]; split; try done.
    + apply appends_push. intros. by rewrite <- app_assoc.
    + intros buf. by exists buf.
Qed.

(** ** The first pass *)

(** It appends, and when it succeeds it wrote what the other pass writes. *)
Definition checks (v : Value) : Prop := forall buf,
  (exists t, (write_item false v buf).2 = buf ++ t) /\
  forall buf', write_item false v buf = (Ok (), buf') -> write_item true v buf = (Ok (), buf').

Lemma write_entries_false prev entries : Forall (fun e => checks e.2) entries -> forall buf,
  (exists t, (write_entries false prev (map (entry_pass false) entries) buf).2 = buf ++ t) /\
  forall buf', write_entries false prev (map (entry_pass false) entries) buf = (Ok (), buf') ->
    write_entries true prev (map (entry_pass true) entries) buf = (Ok (), buf') /\
    windows_lt entries = true /\
    match prev, entries with Some p, e :: _ => is_lt (cbor_key_cmp p e.1) = true | _, _ => True end.
Proof.
  intros Hl. revert prev. induction Hl as [|[k v] entries Hv _ IH]; intros prev buf.
  { split; [exists []; by rewrite app_nil_r|]. cbn. intros buf' H. by destruct prev. }
  cbn [map entry_pass write_entries fst snd negb andb] in *.
  set (bad := match prev with Some p => _ | None => false end).
  destruct bad eqn:Hbad.
  { split; [exists []; by rewrite app_nil_r|]. done. }
  unfold mbind, st_bind, push, modify. rewrite put_text_app.
  destruct (Hv (buf ++ text_enc k)) as [[t Ht] Hok].
  destruct (write_item false v (buf ++ text_enc k)) as [[[]| |] b1] eqn:Hw; cbn [snd] in Ht; subst b1.
  2-3: split; [exists (text_enc k ++ t); by rewrite app_assoc|done].
  rewrite (Hok _ eq_refl). destruct (IH (Some k) ((buf ++ text_enc k) ++ t)) as [[t' Ht'] Hok'].
  split; [exists (text_enc k ++ t ++ t'); rewrite Ht'; by rewrite !app_assoc|].
  intros buf' H. destruct (Hok' buf' H) as (Hrun & Hwin & Hk).
  split; [done|]. split; [destruct entries as [|[k' v'] entries]; [done|]; cbn in *; by rewrite Hk|].
  subst bad. destruct prev; [|done]. by apply negb_false_iff.
Qed.

Lemma write_array_false items : Forall checks items -> checks (Value.Array items).
Proof.
  intros IH buf. cbn [write_item]. unfold write_array. rewrite !for_each_map.
  unfold mbind, st_bind, push, modify. rewrite !put_head_app. unfold len_u64. rewrite !length_map.
  set (h := head 4 _). assert (Hgen : forall buf,
    (exists t, (for_each (write_item false) items buf).2 = buf ++ t) /\
    forall buf', for_each (write_item false) items buf = (Ok (), buf') ->
      for_each (write_item true) items buf = (Ok (), buf')).
  { clear buf. induction IH as [|v items Hv _ IH]; intros buf.
    { split; [exists []; by rewrite app_nil_r|done]. }
    cbn. unfold mbind, st_bind. destruct (Hv buf) as [[t Ht] Hok].
    destruct (write_item false v buf) as [[[]| |] b1]; cbn [snd] in Ht; subst b1; [|split; [by eauto|done]..].
    rewrite (Hok _ eq_refl). destruct (IH (buf ++ t)) as [[t' Ht'] Hok'].
    split; [|done]. exists (t ++ t'). by rewrite app_assoc. }
  destruct (Hgen (buf ++ h)) as [[t Ht] Hok]. split; [|done].
  exists (h ++ t). by rewrite app_assoc.
Qed.

Lemma write_map_false entries : Forall (fun e => checks e.2) entries -> checks (Value.Map entries).
Proof.
  intros IH buf. cbn [write_item]. unfold write_map. unfold len_u64. rewrite !length_map.
  unfold mbind, st_bind, push, modify. rewrite !put_head_app. set (h := head 5 _).
  change (map (fun e => (e.1, write_item ?s e.2)) entries) with (map (entry_pass s) entries).
  destruct (write_entries_false None entries IH (buf ++ h)) as [[t Ht] Hok].
  split; [exists (h ++ t); rewrite app_assoc; exact Ht|].
  intros buf' H. destruct (Hok buf' H) as (Hrun & Hwin & _). cbn [andb].
  change (map (entry_pass true) entries) with (map (fun e => (e.1, write_item true e.2)) entries) in *.
  by rewrite windows_lt_fmap, Hwin.
Qed.

Lemma write_item_false v : checks v.
Proof.
  induction v as [| |bits| | | | | |items IH|entries IH] using Value_ind';
    [..|by apply write_array_false|by apply write_map_false]; intros buf; cbn [write_item].
  all: try (unfold push, modify; split; [|done]; cbn [snd];
    rewrite ?put_head_app, ?put_text_app; unfold put_cid; rewrite <- ?app_assoc; by eexists).
  - destruct (0 <=? n); unfold push, modify; split; try done; cbn [snd]; rewrite put_head_app; by eexists.
  - destruct (is_finite bits); unfold push, modify; split; try done; cbn [snd negb].
    + rewrite <- app_assoc. by eexists.
    + exists []. by rewrite app_nil_r.
Qed.

(** ** The theorem *)

Lemma write_value_two_pass v buf : write_value v buf =
  (map_err (fun _ => non_finite) (write_item true v buf).1, (write_item true v buf).2).
Proof.
  unfold write_value. destruct (write_item_false v buf) as [[t Ht] Hok].
  destruct (write_item false v buf) as [[[]| |] b1]; cbn [snd] in Ht; subst b1.
  - by rewrite (Hok _ eq_refl).
  - rewrite take_app_length. by destruct (write_item true v buf).
  - rewrite take_app_length. by destruct (write_item true v buf).
Qed.

(** The encoding of any value, in terms of the reference encoding of its
    normal form. *)
Lemma encode_value_eq v :
  encode_value v = if finite_floats v then Ok (enc (normalize v)) else Err non_finite.
Proof.
  unfold encode_value. rewrite write_value_two_pass.
  destruct (write_item_true v) as [[-> H]|[-> H]].
  - rewrite (H []). cbn [fst snd map_err app]. reflexivity.
  - by destruct (H []) as [b ->].
Qed.

(** Writing a value makes two passes only to save a sort: the buffer and the
    result, error included, are those of the sorting pass alone. It fails
    exactly when a float is not finite; otherwise it appends to the buffer
    the encoding of the value with every map in key order. *)
Theorem write_value_spec v buf :
  write_value v buf = (map_err (fun _ => non_finite) (write_item true v buf).1, (write_item true v buf).2) /\
  (finite_floats v = true -> write_value v buf = (Ok (), buf ++ enc (normalize v))) /\
  (finite_floats v = false -> exists buf', write_value v buf = (Err non_finite, buf')).
Proof.
  split; [apply write_value_two_pass|]. rewrite write_value_two_pass.
  destruct (write_item_true v) as [[-> H]|[-> H]]; split; try done; intros _.
  - by rewrite H.
  - destruct (H buf) as [b ->]. eauto.
Qed.

Example write_value_spec_witness :
  let v := Value.Map [(b# "bb", Value.Signed 1); (b# "a", Value.Bool true)] in
  write_value v [9] = (Ok (), [9; 162; 97; 97; 245; 98; 98; 98; 1]).
Proof. intros v. exact (proj1 (proj2 (write_value_spec v [9])) eq_refl). Defined.

(** ** The reserved capacity *)

(** Every string, array and map is shorter than 4 GiB. *)
Definition short {A} (l : list A) : bool := Z.of_nat (length l) <=? 4294967295.
Fixpoint lengths_short (v : Value) : bool :=
  match v with
  | Value.Text s => short s
  | Value.Bytes b => short b
  | Value.Array items => short items && forallb lengths_short items
  | Value.Map entries =>
      short entries && forallb (fun e => short e.1 && lengths_short e.2) entries
  | _ => true
  end.

Lemma head_length_le major n : 0 <= major < 8 -> is_u64 n ->
  Z.of_nat (length (head major n)) <= if n <=? 4294967295 then 5 else 9.
Proof. intros Hm Hn. rewrite head_length by done. unfold arg_width. split_ifs; lia. Qed.

Lemma head_length_9 major n : 0 <= major < 8 -> is_u64 n -> Z.of_nat (length (head major n)) <= 9.
Proof. intros Hm Hn. pose proof (head_length_le major n Hm Hn) as H. destruct (n <=? _); lia. Qed.

Lemma head_length_short {A} major (l : list A) : 0 <= major < 8 -> short l = true ->
  Z.of_nat (length (head major (len_u64 l))) <= 5.
Proof.
  intros Hm Hl. unfold short in Hl.
  assert (He : len_u64 l = Z.of_nat (length l)) by (apply len_u64_small; unfold i64_max; lia).
  pose proof (head_length_le major (len_u64 l) Hm (len_u64_range l)) as H. rewrite He in *.
  by rewrite Hl in H.
Qed.

Lemma fold_size_acc {A} (f : A -> Z) l acc :
  fold_left (fun size a => size + f a) l acc = acc + foldr (fun a s => f a + s) 0 l.
Proof. revert acc. induction l as [|a l IH]; intros acc; cbn; [lia|]. rewrite IH. lia. Qed.

Lemma concat_size {A} (out : A -> bytes) (f : A -> Z) l :
  Forall (fun a => Z.of_nat (length (out a)) <= f a) l ->
  Z.of_nat (length (concat (map out l))) <= foldr (fun a s => f a + s) 0 l.
Proof. induction 1 as [|a l Ha _ IH]; cbn; [lia|]. rewrite length_app. lia. Qed.

Lemma concat_perm_length {A} (out : A -> bytes) (l l' : list A) : l ≡ₚ l' ->
  length (concat (map out l)) = length (concat (map out l')).
Proof. induction 1; cbn; rewrite ?length_app; lia. Qed.

(** The capacity [encode_value] reserves is never too small: the encoding of
    a value whose strings and containers are shorter than 4 GiB fits it, so
    that the buffer is allocated once. *)
Theorem estimated_size_enough v b : typed v -> lengths_short v = true ->
  encode_value v = Ok b -> Z.of_nat (length b) <= estimated_size v.
Proof.
  rewrite encode_value_eq. intros Ht Hs H. destruct (finite_floats v); [|done]. injection H as <-.
  revert Ht Hs. induction v as [n|n|bits| | |s|b|c|items IH|entries IH] using Value_ind'; intros Ht Hs.
  - inversion Ht. by apply head_length_9.
  - assert (Hu : forall x, is_u64 (as_u64 x)) by (intros; unfold is_u64, as_u64; apply Z.mod_pos_bound; lia).
    cbn [normalize estimated_size]. destruct (0 <=? n) eqn:Hn; cbn [enc]; rewrite ?Hn; by apply head_length_9.
  - cbn. lia.
  - cbn. lia.
  - cbn. lia.
  - cbn [normalize enc estimated_size] in *. unfold text_enc. rewrite length_app.
    pose proof (head_length_short 3 s ltac:(lia) Hs). lia.
  - cbn [normalize enc estimated_size] in *. rewrite length_app.
    pose proof (head_length_short 2 b ltac:(lia) Hs). lia.
  - inversion Ht as [| | | | | | |? Hc| |]; subst. cbn [normalize enc estimated_size]. unfold tag42.
    rewrite length_app, to_bytes_length by done. cbn. lia.
  - rewrite enc_normalize_array, length_app. cbn [estimated_size lengths_short] in *.
    apply andb_true_iff in Hs as [Hl Hs]. pose proof (head_length_short 4 items ltac:(lia) Hl).
    rewrite (fold_size_acc (fun z => z)). rewrite forallb_Forall in Hs. inversion_clear Ht.
    assert (Hsz : Forall (fun v => Z.of_nat (length (enc (normalize v))) <= estimated_size v) items).
    { rewrite Forall_forall in *. auto. }
    apply concat_size in Hsz.
    assert (Hm : foldr (fun a s => a + s) 0 (map estimated_size items) =
      foldr (fun a s => estimated_size a + s) 0 items) by (clear; induction items as [|v l IHl]; cbn; congruence).
    lia.
  - rewrite enc_normalize_map, length_app, (concat_perm_length _ _ _ (sort_by_key_perm entries)).
    cbn [estimated_size lengths_short] in *.
    apply andb_true_iff in Hs as [Hl Hs]. pose proof (head_length_short 5 entries ltac:(lia) Hl).
    rewrite (fold_size_acc (fun e : bytes * Z => 5 + Z.of_nat (length e.1) + e.2)).
    rewrite forallb_Forall in Hs. inversion_clear Ht.
    assert (Hsz : Forall (fun e => Z.of_nat (length (entry_out (fun v => enc (normalize v)) e)) <=
      5 + Z.of_nat (length e.1) + estimated_size e.2) entries).
    { rewrite Forall_forall in *. intros e He. unfold entry_out, text_enc. rewrite !length_app.
      destruct (proj1 (andb_true_iff _ _) (Hs e He)) as [Hk Hv]. pose proof (head_length_short 3 e.1 ltac:(lia) Hk).
      specialize (IH e He). naive_solver lia. }
    apply concat_size in Hsz.
    assert (Hm : foldr (fun a s => 5 + Z.of_nat (length a.1) + a.2 + s) 0 (map (fun e => (e.1, estimated_size e.2)) entries) =
      foldr (fun e s => 5 + Z.of_nat (length e.1) + estimated_size e.2 + s) 0 entries)
      by (clear; induction entries as [|e l IHl]; cbn in *; congruence).
    lia.
Qed.

Example estimated_size_enough_witness :
  let v := Value.Map [(b# "a", Value.Signed 1); (b# "bb", Value.Bool true)] in
  exists b, encode_value v = Ok b /\ Z.of_nat (length b) <= estimated_size v.
Proof.
  intros v. exists (enc (normalize v)).
  assert (He : encode_value v = Ok (enc (normalize v))) by reflexivity. split; [exact He|].
  apply (estimated_size_enough v (enc (normalize v))); [|reflexivity|exact He].
  unfold v. constructor; [|repeat constructor; unfold is_i64; cbn; lia|vm_compute; congruence].
  repeat constructor; try (by apply u8_literal); vm_compute; congruence.
Defined.
