(* ===== verification/CborEncoder.v ===== *)
(** The streaming encoder [Encoder<W>] of [src/src/cbor/encode.rs], over any
    writer. *)
From S2P Require Import Prelude StateError SyntaxError CborError Cid CborValue CborEncode.

(** [std::io::Write::write_all]: the writer's own error, and its state. *)
Class Write (W : Type) : Type := write_all : bytes -> st W ErrMsg ().

(** [impl Write for Vec<u8>] *)
Definition vec_write : Write bytes := fun b w => (Ok (), w ++ b).

Section Encoder.
Context {W : Type} `{Write W}.

(** The encoder is its writer; [?] turns the writer's error into [Io]. *)
Definition emit (b : bytes) : st W CborError () := fun w =>
  let '(r, w') := write_all b w in (map_err Io r, w').

(** Merges header byte and argument into a single write. *)
Definition write_type_value (major value : Z) : st W CborError () :=
  let major_bits := as_u8 (Z.shiftl major 5) in
  if value <? 24 then emit [Z.lor major_bits (as_u8 value)]
  else if value <=? 255 then emit [Z.lor major_bits 24; as_u8 value]
  else if value <=? 65535 then emit (Z.lor major_bits 25 :: be_bytes 2 (as_u16 value))
  else if value <=? 4294967295 then emit (Z.lor major_bits 26 :: be_bytes 4 (as_u32 value))
  else emit (Z.lor major_bits 27 :: be_bytes 8 value).

Definition encode_u64 (v : Z) : st W CborError () := write_type_value 0 v.

Definition encode_i64 (v : Z) : st W CborError () :=
  if 0 <=? v then write_type_value 0 (as_u64 v) else write_type_value 1 (as_u64 (-1 - v)).

Definition encode_bool (v : bool) : st W CborError () := emit [if v then 0xf5 else 0xf4].

Definition encode_null : st W CborError () := emit [0xf6].

Definition encode_f64 (v : Z) : st W CborError () :=
  if negb (is_finite v) then fail non_finite else emit (0xfb :: be_bytes 8 v).

Definition encode_text (v : bytes) : st W CborError () :=
  _ ← write_type_value 3 (len_u64 v); emit v.

Definition encode_bytes (v : bytes) : st W CborError () :=
  _ ← write_type_value 2 (len_u64 v); emit v.

Definition encode_array_header (len : Z) : st W CborError () := write_type_value 4 len.

Definition encode_map_header (len : Z) : st W CborError () := write_type_value 5 len.

Definition encode_cid (c : Cid) : st W CborError () := emit (tag42 c).

(** ** Sorted text maps *)

(** The closure of [encode_text_map] is [FnMut]: it has a state of its own. *)
Context {C : Type}.

Definition on_writer (m : st W CborError ()) : st (C * W) CborError () := fun '(c, w) =>
  let '(r, w') := m w in (r, (c, w')).

Definition encode_text_map (keys : list bytes) (encode_value : bytes -> st (C * W) CborError ()) :
    st (C * W) CborError () :=
  let sorted := (sort_by_key (map (fun k => (k, ())) keys)).*1 in
  _ ← on_writer (encode_map_header (len_u64 sorted));
  for_each (fun key => _ ← on_writer (encode_text key); encode_value key) sorted.

Lemma write_type_value_emit major value : write_type_value major value = emit (head major value).
Proof. unfold write_type_value, head, put_head. by repeat case_match. Qed.
End Encoder.

(** ** On a [Vec<u8>] *)

Section OnVec.
Existing Instance vec_write.

Definition writes (m : st bytes CborError ()) (out : bytes) : Prop :=
  forall w, m w = (Ok (), w ++ out).

Lemma writes_emit b : writes (emit b) b.
Proof. done. Qed.

Lemma writes_head major value : writes (write_type_value major value) (head major value).
Proof. rewrite write_type_value_emit. apply writes_emit. Qed.

Lemma writes_bind m out (k : () -> st bytes CborError ()) out' :
  writes m out -> writes (k ()) out' -> writes (m ≫= k) (out ++ out').
Proof. intros Hm Hk w. unfold mbind, st_bind. rewrite Hm, Hk. by rewrite app_assoc. Qed.

Lemma writes_text s : writes (encode_text s) (enc (Value.Text s)).
Proof. apply writes_bind; [apply writes_head|apply writes_emit]. Qed.

Lemma writes_bytes b : writes (encode_bytes b) (enc (Value.Bytes b)).
Proof. apply writes_bind; [apply writes_head|apply writes_emit]. Qed.

(** On a [Vec<u8>] each method of the encoder appends exactly what
    [encode_value] produces for the corresponding value, and fails only on a
    float that is not finite, before writing anything. *)
Theorem encoder_methods :
  (forall n, writes (encode_u64 n) (enc (Value.Unsigned n))) /\
  (forall n, writes (encode_i64 n) (enc (Value.Signed n))) /\
  (forall b, writes (encode_bool b) (enc (Value.Bool b))) /\
  writes encode_null (enc Value.Null) /\
  (forall f w, encode_f64 f w =
     if is_finite f then (Ok (), w ++ enc (Value.Float f)) else (Err non_finite, w)) /\
  (forall s, writes (encode_text s) (enc (Value.Text s))) /\
  (forall b, writes (encode_bytes b) (enc (Value.Bytes b))) /\
  (forall c, writes (encode_cid c) (enc (Value.Cid c))) /\
  (forall items, writes (_ ← encode_array_header (len_u64 items);
      for_each (fun v => emit (enc v)) items) (enc (Value.Array items))).
Proof.
  split_and!; intros; try apply writes_emit.
  - apply writes_head.
  - unfold encode_i64. cbn [enc]. destruct (0 <=? n); apply writes_head.
  - unfold encode_f64. by destruct (is_finite f).
  - apply writes_text.
  - apply writes_bytes.
  - apply writes_bind; [apply writes_head|]. induction items as [|v items IH].
    + intros w. by rewrite app_nil_r.
    + cbn. apply writes_bind; [apply writes_emit|exact IH].
Qed.

(** [encode_text_map] calls its closure once per key, in key order, each time
    after the key, and so writes the map that [encode_value] writes. *)
Lemma encode_text_map_spec {C} (keys : list bytes) (f : bytes -> Value)
    (encode_value : bytes -> st (C * bytes) CborError ()) (c : C) (w : bytes) :
  (forall k c w, In k keys -> exists c', encode_value k (c, w) = (Ok (), (c', w ++ enc (normalize (f k))))) ->
  exists c', encode_text_map keys encode_value (c, w) =
    (Ok (), (c', w ++ enc (normalize (Value.Map (map (fun k => (k, f k)) keys))))).
Proof.
  intros Hf. rewrite enc_normalize_map.
  replace (sort_by_key (map (fun k => (k, f k)) keys)) with
    (map (fun k => (k, f k)) (sort_by_key (map (fun k => (k, ())) keys)).*1).
  2:{ pose proof (sort_by_key_map (fun e => f e.1) (map (fun k => (k, ())) keys)) as Hs.
      rewrite map_map in Hs. cbn [fst] in Hs. rewrite Hs. clear.
      induction (sort_by_key _) as [|[k []] l IH]; [done|]. cbn in *. by rewrite IH. }
  unfold encode_text_map. set (sorted := (sort_by_key _).*1).
  assert (Hlen : len_u64 sorted = len_u64 (map (fun k => (k, f k)) keys)).
  { unfold sorted, len_u64. by rewrite length_fmap, sort_by_key_length, !length_map. }
  rewrite (st_bind_run _ _ _ () (c, w ++ head 5 (len_u64 sorted)))
    by (unfold on_writer, encode_map_header; by rewrite (writes_head 5 (len_u64 sorted) w)).
  assert (Hin : forall k, In k sorted -> In k keys).
  { intros k Hk. unfold sorted in Hk. apply list_elem_of_In in Hk. rewrite sort_by_key_perm in Hk.
    apply list_elem_of_fmap in Hk as (e & -> & He%list_elem_of_In).
    apply in_map_iff in He as (k' & <- & Hk'). done. }
  rewrite Hlen, app_assoc. generalize (w ++ head 5 (len_u64 (map (fun k => (k, f k)) keys))). clear Hlen w.
  revert c. induction sorted as [|k l IH]; intros c w; cbn [for_each map concat].
  { exists c. by rewrite app_nil_r. }
  destruct (Hf k c (w ++ text_enc k) ltac:(apply Hin; by left)) as [c1 Hk].
  assert (Hone : (_ ← on_writer (encode_text k); encode_value k) (c, w) =
    (Ok (), (c1, (w ++ text_enc k) ++ enc (normalize (f k))))).
  { assert (Hw : on_writer (encode_text k) (c, w) = (Ok (), (c, w ++ text_enc k))).
    { unfold on_writer, encode_text.
      by rewrite (writes_bind _ (head 3 (len_u64 k)) _ k (writes_head _ _) (writes_emit _)). }
    by rewrite (st_bind_run _ (fun _ => encode_value k) _ _ _ Hw). }
  rewrite (st_bind_run _ _ _ _ _ Hone).
  destruct (IH ltac:(intros; apply Hin; by right) c1 ((w ++ text_enc k) ++ enc (normalize (f k)))) as [c2 H2]. exists c2. rewrite H2.
  unfold entry_out at 2. cbn [fst snd]. by rewrite !app_assoc.
Qed.

Example encode_text_map_spec_witness :
  exists c', encode_text_map [b# "bb"; b# "a"]
      (fun k '(c, w) => (Ok (), (c + 1, w ++ enc (normalize (Value.Text k))))) (0, []) =
    (Ok (), (c', [162; 97; 97; 97; 97; 98; 98; 98; 98; 98; 98])).
Proof.
  exact (encode_text_map_spec [b# "bb"; b# "a"] Value.Text
    (fun k '(c, w) => (Ok (), (c + 1, w ++ enc (normalize (Value.Text k))))) 0 []
    (fun k c w _ => ex_intro _ (c + 1) eq_refl)).
Defined.
End OnVec.
