(* ===== verification/CborDecode.v ===== *)
(** The strict decoder: [src/src/cbor/decode.rs] and [decode] of
    [src/src/cbor/mod.rs].

    The buffer of a [Decoder], which no method writes, is a parameter; its
    state is the position and the nesting depth. Capacities are not modelled. *)
From S2P Require Import Prelude StateError SyntaxError CborError Cid CborValue CborEncode.

(** [simdutf8::basic::from_utf8(..).is_ok()] *)
Class Simdutf8 : Type := simd_utf8 : bytes -> bool.

(** It accepts what the standard library accepts. *)
Class Simdutf8Laws `{Simdutf8} : Prop := simd_utf8_valid b : simd_utf8 b = utf8_valid b.

Record Decoder := MkDecoder { pos : nat; depth : nat }.

Definition set_pos (s : Decoder) (p : nat) : Decoder := MkDecoder p (depth s).
Definition set_depth (s : Decoder) (d : nat) : Decoder := MkDecoder (pos s) d.

(** A value as [decode_shallow] reads it. *)
Inductive Shallow :=
| ShallowText (s : bytes)
| ShallowArray (len : nat)
| ShallowMap (len : nat)
| Scalar (v : Value).

Definition usize_try_from (v : Z) : option Z := if v <=? usize_max then Some v else None.

Section Decoder.
Context `{Simdutf8} (buf : bytes).

Abbreviation dec := (st Decoder CborError).

Definition utf8 (b : bytes) : res CborError bytes :=
  if forallb is_ascii b || simd_utf8 b then Ok b
  else Err (invalid_cbor "invalid UTF-8 in text string").

Definition new : Decoder := MkDecoder 0 0.

Definition is_empty (s : Decoder) : bool := (length buf <=? pos s)%nat.

(** ** Reading bytes *)

Definition read_byte : dec Z := fun s =>
  if (length buf <=? pos s)%nat then (Err (invalid_cbor "unexpected end of input"), s)
  else match buf !! pos s with
       | Some b => (Ok b, set_pos s (S (pos s)))
       | None => (Panic, s)
       end.

Definition read_fixed (n : nat) : dec bytes := fun s =>
  if (length buf <? pos s + n)%nat then (Err (invalid_cbor "unexpected end of input"), s)
  else (Ok (take n (drop (pos s) buf)), set_pos s (pos s + n)).

Definition read_slice (len : Z) : dec bytes := fun s =>
  let end_ := Z.of_nat (pos s) + len in
  if usize_max <? end_ then (Err (invalid_cbor "length overflow"), s)
  else if Z.of_nat (length buf) <? end_ then (Err (invalid_cbor "unexpected end of input"), s)
  else match slice buf (pos s) (Z.to_nat end_) with
       | Ok b => (Ok b, set_pos s (Z.to_nat end_))
       | Err e => (Err e, s)
       | Panic => (Panic, s)
       end.

Definition non_minimal (form : string) (val : Z) : CborError :=
  InvalidCbor (TextArgs (String.append "non-minimal integer encoding, use " form) [val]).

Definition read_argument (additional : Z) : dec Z :=
  if in_range 0 23 additional then mret additional
  else if additional =? 24 then
    val ← read_byte;
    if val <? 24 then fail (non_minimal "inline form" val) else mret val
  else if additional =? 25 then
    b ← read_fixed 2;
    let val := be_value b in
    if val <=? 255 then fail (non_minimal "1-byte form" val) else mret val
  else if additional =? 26 then
    b ← read_fixed 4;
    let val := be_value b in
    if val <=? 65535 then fail (non_minimal "2-byte form" val) else mret val
  else if additional =? 27 then
    b ← read_fixed 8;
    let val := be_value b in
    if val <=? 4294967295 then fail (non_minimal "4-byte form" val) else mret val
  else if in_range 28 30 additional then
    fail (InvalidCbor (TextArgs "reserved additional info value" [additional]))
  else if additional =? 31 then fail (invalid_cbor "indefinite length not allowed in DRISL")
  else fail (invalid_cbor "invalid additional info").

(** [usize::try_from(len).map_err(..)] *)
Definition to_usize (len : Z) : dec Z :=
  lift (ok_or (invalid_cbor "length exceeds platform limits") (usize_try_from len)).

Definition read_string (additional : Z) : dec bytes :=
  len ← read_argument additional; len ← to_usize len; read_slice len.

Definition collection_len (additional : Z) (too_long : string) : dec nat :=
  len ← read_argument additional; len ← to_usize len;
  if MAX_COLLECTION_LEN <? len then fail (invalid_cbor too_long) else mret (Z.to_nat len).

(** ** Values *)

Definition read_tag42_body : dec Cid :=
  inner ← read_byte;
  if negb (Z.shiftr inner 5 =? 2) then fail (invalid_cbor "tag 42 must wrap a bytestring")
  else
    len ← read_argument (Z.land inner 0x1f); len ← to_usize len;
    b ← read_slice len;
    lift (from_tag42_bytes b).

(** The key and its complete encoding, which becomes [*prev_key_bytes]. *)
Definition read_map_key_bytes (prev_key_bytes : bytes) : dec (bytes * bytes) :=
  key_start ← gets pos;
  key_byte ← read_byte;
  if negb (Z.shiftr key_byte 5 =? 3) then fail (invalid_cbor "map keys must be text strings")
  else
    key_len ← read_argument (Z.land key_byte 0x1f); key_len ← to_usize key_len;
    key_bytes ← read_slice key_len;
    key_end ← gets pos;
    key_encoded ← lift (slice buf key_start key_end);
    match (if bool_decide (prev_key_bytes = []) then Lt else bytes_cmp prev_key_bytes key_encoded) with
    | Gt => fail (invalid_cbor "map keys not in canonical sort order")
    | Eq => fail (invalid_cbor "duplicate map key")
    | Lt => mret (key_bytes, key_encoded)
    end.

Definition from_utf8 (b : bytes) : dec bytes :=
  if simd_utf8 b then mret b else fail (invalid_cbor "invalid UTF-8 in text string").

Definition read_map_key (prev_key_bytes : bytes) : dec (bytes * bytes) :=
  k ← read_map_key_bytes prev_key_bytes; b ← from_utf8 k.1; mret (b, k.2).

Definition read_map_key_utf8 (prev_key_bytes : bytes) : dec (bytes * bytes) :=
  k ← read_map_key_bytes prev_key_bytes; b ← lift (utf8 k.1); mret (b, k.2).

(** [for _ in 0..len { let key = ..; let value = self.decode()?; .. }] *)
Fixpoint read_entries (rec : dec Value) (n : nat) (prev : bytes) : dec (list (bytes * Value)) :=
  match n with
  | O => mret []
  | S n' =>
      k ← read_map_key prev;
      value ← rec;
      l ← read_entries rec n' k.2;
      mret ((k.1, value) :: l)
  end.

(** [self.depth += 1], [self.depth -= 1] *)
Definition descend : dec () := modify (fun s => set_depth s (S (depth s))).
Definition ascend : dec () := modify (fun s => set_depth s (depth s - 1)).

Definition read_simple (additional : Z) : dec Value :=
  if additional =? 20 then mret (Value.Bool false)
  else if additional =? 21 then mret (Value.Bool true)
  else if additional =? 22 then mret Value.Null
  else if additional =? 24 then fail (invalid_cbor "unsupported simple value")
  else if additional =? 25 then fail (invalid_cbor "half-precision floats not allowed in DRISL")
  else if additional =? 26 then fail (invalid_cbor "single-precision floats not allowed in DRISL")
  else if additional =? 27 then
    b ← read_fixed 8;
    let val := be_value b in
    if is_nan val then fail (invalid_cbor "NaN not allowed in DRISL")
    else if is_infinite val then fail (invalid_cbor "Infinity not allowed in DRISL")
    else mret (Value.Float val)
  else if additional =? 31 then fail (invalid_cbor "indefinite length not allowed in DRISL")
  else fail (InvalidCbor (TextArgs "unsupported simple value" [additional])).

(** The [match major { .. }] of [decode], given [self.decode()]. *)
Definition decode_major (rec : dec Value) (major additional : Z) : dec Value :=
  if major =? 0 then
    n ← read_argument additional;
    if i64_max <? n then fail (invalid_cbor "unsigned integer exceeds i64 range")
    else mret (Value.Unsigned n)
  else if major =? 1 then
    n ← read_argument additional;
    if n <=? i64_max then mret (Value.Signed (-1 - n))
    else fail (invalid_cbor "negative integer too large for i64")
  else if major =? 2 then
    b ← read_string additional; mret (Value.Bytes b)
  else if major =? 3 then
    b ← read_string additional;
    text ← from_utf8 b;
    mret (Value.Text text)
  else if major =? 4 then
    len ← collection_len additional "array length exceeds maximum";
    _ ← descend;
    items ← replicate_m len rec;
    _ ← ascend;
    mret (Value.Array items)
  else if major =? 5 then
    _ ← descend;
    len ← collection_len additional "map length exceeds maximum";
    entries ← read_entries rec len [];
    _ ← ascend;
    mret (Value.Map entries)
  else if major =? 6 then
    tag_num ← read_argument additional;
    if negb (tag_num =? 42) then fail (InvalidCbor (TextArgs "unsupported CBOR tag" [tag_num]))
    else c ← read_tag42_body; mret (Value.Cid c)
  else if major =? 7 then read_simple additional
  else fail (invalid_cbor "invalid major type").

Definition decode_body (rec : dec Value) : dec Value :=
  d ← gets depth;
  if (MAX_DEPTH <=? d)%nat then fail (invalid_cbor "maximum nesting depth exceeded")
  else
    initial_byte ← read_byte;
    decode_major rec (Z.shiftr initial_byte 5) (Z.land initial_byte 0x1f).

(** The depth limit bounds the recursion: a call at depth [d] recurs at
    depth [d + 1] only, and not at all from [MAX_DEPTH]. *)
Fixpoint decode_fuel (fuel : nat) : dec Value :=
  match fuel with O => panic | S fuel' => decode_body (decode_fuel fuel') end.

Definition decode : dec Value := fun s => decode_fuel (S (MAX_DEPTH - depth s)) s.

(** ** Shallow decoding *)

Definition enter (additional : Z) (too_long : string) : dec nat :=
  len ← collection_len additional too_long; _ ← descend; mret len.

Definition leave : dec () := ascend.

Definition decode_shallow : dec Shallow := fun s =>
  match buf !! pos s with
  | Some byte =>
      if in_range 0x60 0xbf byte && (depth s <? MAX_DEPTH)%nat then
        let additional := Z.land byte 0x1f in
        (_ ← modify (fun s => set_pos s (S (pos s)));
         if Z.shiftr byte 5 =? 3 then b ← read_string additional; t ← lift (utf8 b); mret (ShallowText t)
         else if Z.shiftr byte 5 =? 4 then
           len ← enter additional "array length exceeds maximum"; mret (ShallowArray len)
         else len ← enter additional "map length exceeds maximum"; mret (ShallowMap len)) s
      else (v ← decode; mret (Scalar v)) s
  | None => (v ← decode; mret (Scalar v)) s
  end.

(** The typed text field of generated code. *)
Definition text : dec bytes :=
  d ← gets depth;
  if (MAX_DEPTH <=? d)%nat then fail (invalid_cbor "maximum nesting depth exceeded")
  else
    byte ← read_byte;
    if negb (Z.shiftr byte 5 =? 3) then fail (invalid_cbor "expected text")
    else
      len ← read_argument (Z.land byte 0x1f); len ← to_usize len;
      b ← read_slice len;
      from_utf8 b.
End Decoder.

(** [cbor::decode] *)
Definition cbor_decode `{Simdutf8} (data : bytes) : res CborError Value :=
  match decode data new with
  | (Ok v, s) =>
      if negb (is_empty data s) then Err (invalid_cbor "trailing data after value") else Ok v
  | (Err e, _) => Err e
  | (Panic, _) => Panic
  end.

(** A UTF-8 check with the law, for examples. *)
Definition simd_ref : Simdutf8 := utf8_valid.

Lemma simd_ref_laws : @Simdutf8Laws simd_ref.
Proof. by intros b. Qed.
