(* ===== verification/CborCodec.v ===== *)
(** Decoding and encoding are inverse to each other: the decoder accepts
    exactly the canonical encodings of canonical values. *)
From S2P Require Import Prelude StateError SyntaxError CborError Cid CborValue CborEncode CborDecode.

(** ** Bits of the initial byte *)

Lemma byte_split b : is_u8 b ->
  b = Z.shiftr b 5 * 32 + Z.land b 0x1f /\ 0 <= Z.shiftr b 5 < 8 /\ 0 <= Z.land b 0x1f < 32.
Proof.
  unfold is_u8. intros Hb. rewrite Z.shiftr_div_pow2 by lia. change 31 with (Z.ones 5).
  rewrite land_mask by lia. change (2 ^ 5) with 32.
  pose proof (Z.div_mod b 32 ltac:(lia)). pose proof (Z.mod_pos_bound b 32 ltac:(lia)). lia.
Qed.

Lemma byte_join m a : 0 <= m < 8 -> 0 <= a < 32 ->
  is_u8 (m * 32 + a) /\ Z.shiftr (m * 32 + a) 5 = m /\ Z.land (m * 32 + a) 0x1f = a.
Proof.
  intros Hm Ha. assert (Hb : is_u8 (m * 32 + a)) by (unfold is_u8; lia). split; [done|].
  destruct (byte_split _ Hb). lia.
Qed.

Section Codec.
Context `{Simdutf8Laws}.
Variable buf : bytes.
Hypothesis buf_u8 : Forall is_u8 buf.
Hypothesis buf_len : Z.of_nat (length buf) <= i64_max.

(** ** What lies at a position of the buffer *)

Definition at_ (p : nat) (seg : bytes) : Prop :=
  exists pre rest, buf = pre ++ seg ++ rest /\ length pre = p.

Lemma at_app p a b : at_ p (a ++ b) <-> at_ p a /\ at_ (p + length a) b.
Proof.
  split.
  - intros (pre & rest & He & Hp). split; [exists pre, (b ++ rest)|exists (pre ++ a), rest];
      rewrite He, ?length_app, <- ?app_assoc; auto.
  - intros [(pre & rest & He & Hp) (pre' & rest' & He' & Hp')]. exists pre, rest'.
    split; [|done]. rewrite He in He'. rewrite app_assoc in He'.
    apply app_inj_1 in He' as [<- Hr]; [|rewrite length_app; lia].
    rewrite He, Hr. by rewrite <- !app_assoc.
Qed.

Lemma at_take p n : (p + n <= length buf)%nat -> at_ p (take n (drop p buf)).
Proof.
  intros Hl. exists (take p buf), (drop (p + n) buf). split; [|rewrite length_take; lia].
  rewrite <- (take_drop p buf) at 1. f_equal. rewrite <- (take_drop n (drop p buf)) at 1.
  by rewrite drop_drop.
Qed.

Lemma at_bound p seg : at_ p seg -> (p + length seg <= length buf)%nat.
Proof. intros (pre & rest & -> & <-). rewrite !length_app. lia. Qed.

Lemma at_eq p seg : at_ p seg -> seg = take (length seg) (drop p buf).
Proof. intros (pre & rest & -> & <-). by rewrite drop_app_length, take_app_length. Qed.

Lemma at_inj p a b x y : at_ p (a ++ x) -> at_ p (b ++ y) -> length a = length b -> a = b.
Proof.
  intros [Ha _]%at_app [Hb _]%at_app Hl. rewrite (at_eq _ _ Ha), (at_eq _ _ Hb). by rewrite Hl.
Qed.

Lemma at_u8 p seg : at_ p seg -> Forall is_u8 seg.
Proof.
  intros (pre & rest & He & _). rewrite He in buf_u8.
  by apply Forall_app in buf_u8 as [_ [? _]%Forall_app].
Qed.

Lemma at_nil p : at_ p [] <-> (p <= length buf)%nat.
Proof.
  split; [intros Ha%at_bound; cbn in Ha; lia|]. intros Hp.
  pose proof (at_take p 0 ltac:(lia)) as Ha. by rewrite take_0 in Ha.
Qed.

(** ** Reading *)

Notation MK := MkDecoder.
Abbreviation runs m p d a s' := (m (MkDecoder p d) = (Ok a, s')).

Lemma read_byte_Ok p d b s' : runs (read_byte buf) p d b s' <-> at_ p [b] /\ s' = MK (p + 1) d.
Proof.
  unfold read_byte, set_pos. cbn [pos depth]. rewrite Nat.add_1_r. split.
  - destruct (_ <=? _)%nat eqn:Hl; [done|]. destruct (buf !! p) as [c|] eqn:Hc; [|done].
    intros [= -> <-]. split; [|done].
    pose proof (at_take p 1 ltac:(lia)) as Ha. by rewrite (drop_S _ _ _ Hc) in Ha.
  - intros [Ha ->]. pose proof (at_bound _ _ Ha). cbn in *. replace (length buf <=? p)%nat with false by lia.
    destruct Ha as (pre & rest & -> & <-). cbn. by rewrite list_lookup_middle by done.
Qed.

Lemma read_fixed_Ok p d n b s' : runs (read_fixed buf n) p d b s' <->
  at_ p b /\ length b = n /\ s' = MK (p + n) d.
Proof.
  unfold read_fixed. cbn [pos]. split.
  - destruct (_ <? _)%nat eqn:Hl; [done|]. intros [= <- <-].
    split; [apply at_take; lia|]. split; [|done]. rewrite length_take, length_drop. lia.
  - intros (Ha & <- & ->). pose proof (at_bound _ _ Ha).
    replace (length buf <? p + length b)%nat with false by lia. by rewrite <- (at_eq p b Ha).
Qed.

Lemma read_bytes_Ok p d len b s' : 0 <= len -> runs (read_slice buf len) p d b s' <->
  at_ p b /\ Z.of_nat (length b) = len /\ s' = MK (p + length b) d.
Proof.
  intros Hlen. unfold read_slice, usize_max, i64_max in *. cbn [pos]. split.
  - destruct (_ <? _) eqn:Ho; [done|]. destruct (Z.of_nat (length buf) <? _) eqn:Hl; [done|].
    destruct (Nat.le_gt_cases p (length buf)) as [Hp|Hp].
    + rewrite slice_Ok by lia. intros [= <- <-].
      replace (Z.to_nat (Z.of_nat p + len) - p)%nat with (Z.to_nat len) by lia.
      split; [apply at_take; lia|]. rewrite length_take, length_drop. split; [lia|].
      unfold set_pos. cbn. f_equal. lia.
    + lia.
  - intros (Ha & <- & ->). pose proof (at_bound _ _ Ha).
    replace (_ <? _) with false by lia. replace (Z.of_nat (length buf) <? _) with false by lia.
    rewrite slice_Ok by lia. replace (Z.to_nat _ - p)%nat with (length b) by lia.
    rewrite <- (at_eq p b Ha). unfold set_pos. cbn. do 2 f_equal. lia.
Qed.

Lemma in_range_spec lo hi b : in_range lo hi b = true <-> lo <= b <= hi.
Proof. unfold in_range. lia. Qed.

Lemma at_fixed p b : at_ p b ->
  be_bytes (length b) (be_value b) = b /\ 0 <= be_value b < 256 ^ Z.of_nat (length b).
Proof. intros Hb%at_u8. split; [by apply be_bytes_be_value|by apply be_value_bound]. Qed.

(** [read_fixed] followed by the test for a shorter form. *)
Lemma read_minimal_Ok p d w lo (e : Z -> CborError) n s' :
  runs (b ← read_fixed buf w; if be_value b <=? lo then fail (e (be_value b)) else mret (be_value b)) p d n s' <->
  lo < n < 256 ^ Z.of_nat w /\ 0 <= n /\ at_ p (be_bytes w n) /\ s' = MK (p + w) d.
Proof.
  rewrite st_bind_Ok. setoid_rewrite read_fixed_Ok. setoid_rewrite st_if_fail_Ok. setoid_rewrite st_ret_Ok.
  split.
  - intros (b & s1 & (Hb & <- & ->) & Hlo & <- & <-). destruct (at_fixed _ _ Hb) as [He Hr].
    rewrite He. split_and!; [lia|lia|lia|done|done].
  - intros (Hn & Hn0 & Hat & ->). exists (be_bytes w n), (MK (p + w) d).
    rewrite be_bytes_length, be_value_be_bytes_small by lia. split_and!; try done. lia.
Qed.

(** Which width an argument takes. *)
#[local] Ltac width_cases := unfold is_u64, arg_info, arg_width; intros; split_ifs; lia.

(** The argument of a head, with minimality. *)
Lemma read_argument_Ok p d a n s' : 0 <= a < 32 -> (p <= length buf)%nat ->
  runs (read_argument buf a) p d n s' <->
  is_u64 n /\ a = arg_info n /\ at_ p (be_bytes (arg_width n) n) /\ s' = MK (p + arg_width n) d.
Proof.
  intros Ha Hp. unfold read_argument.
  assert (Hinfo : forall k, a = arg_info n -> a = k -> arg_info n = k) by congruence.
  destruct (in_range 0 23 a) eqn:Hr; [apply in_range_spec in Hr|].
  { rewrite st_ret_Ok. split.
    - intros [<- <-]. unfold is_u64, arg_width, arg_info. replace (a <? 24) with true by lia.
      rewrite Nat.add_0_r. split_and!; [lia|lia|done|by apply at_nil|done].
    - intros (Hn & He & _ & ->). unfold is_u64, arg_width, arg_info in *. split_ifs; try lia.
      rewrite Nat.add_0_r. done. }
  assert (Hwide : forall w lo hi,
    (forall n, is_u64 n -> arg_info n = a <-> lo < n < hi) ->
    (forall n, lo < n < hi -> arg_width n = w) -> 0 <= lo -> hi = 256 ^ Z.of_nat w -> hi <= 2 ^ 64 ->
    lo < n < 256 ^ Z.of_nat w /\ 0 <= n /\ at_ p (be_bytes w n) /\ s' = MK (p + w) d <->
    is_u64 n /\ a = arg_info n /\ at_ p (be_bytes (arg_width n) n) /\ s' = MK (p + arg_width n) d).
  { intros w lo hi Hi Hw Hlo -> Hhi. unfold is_u64 in *. split.
    - intros (Hn & _ & Hat & ->). rewrite (Hw n) by done. split_and!; try lia; try done. symmetry. apply Hi; lia.
    - intros (Hn & He & Hat & ->). assert (Hb : lo < n < 256 ^ Z.of_nat w) by (apply Hi; lia).
      rewrite (Hw n) in * by done. split_and!; try lia; done. }
  destruct (Z.eqb_spec a 24) as [->|].
  { rewrite <- (Hwide 1%nat 23 256) by (width_cases || done).
    rewrite st_bind_Ok. setoid_rewrite read_byte_Ok. setoid_rewrite st_if_fail_Ok. setoid_rewrite st_ret_Ok.
    assert (Hone : forall n, is_u8 n -> be_bytes 1 n = [n]).
    { intros m Hm. cbn. rewrite Z.div_1_r, Z.mod_small; [done|by unfold is_u8 in Hm]. }
    split.
    - intros (b & s1 & [Hb ->] & Hlo & <- & <-). pose proof (Forall_inv (at_u8 _ _ Hb)) as Hu.
      rewrite Hone by done. unfold is_u8 in Hu. split_and!; [lia|cbn; lia|lia|done|done].
    - intros (Hn & Hn0 & Hat & ->). rewrite Hone in Hat by (unfold is_u8; cbn in Hn; lia).
      exists n, (MK (p + 1) d). split_and!; try done. lia. }
  destruct (Z.eqb_spec a 25) as [->|].
  { rewrite <- (Hwide 2%nat 255 65536) by (width_cases || done). apply read_minimal_Ok. }
  destruct (Z.eqb_spec a 26) as [->|].
  { rewrite <- (Hwide 4%nat 65535 4294967296) by (width_cases || done). apply read_minimal_Ok. }
  destruct (Z.eqb_spec a 27) as [->|].
  { rewrite <- (Hwide 8%nat 4294967295 (2 ^ 64)) by (width_cases || done). apply read_minimal_Ok. }
  assert (forall m, a <> arg_info m).
  { intros m He. unfold in_range in Hr. revert He. unfold arg_info. split_ifs; lia. }
  split; [|naive_solver]. by repeat case_match.
Qed.

(** ** Heads *)

Definition arg (n : Z) : bytes := be_bytes (arg_width n) n.

Lemma arg_length n : length (arg n) = arg_width n.
Proof. apply be_bytes_length. Qed.

Lemma head_arg major n : 0 <= major < 8 -> is_u64 n -> head major n = [major * 32 + arg_info n] ++ arg n.
Proof. apply head_eq. Qed.

Lemma usize_total (n : Z) s : is_u64 n -> to_usize n s = (Ok n, s).
Proof. intros Hn. unfold to_usize, usize_try_from, usize_max, is_u64 in *. by replace (n <=? _) with true by lia. Qed.

Lemma bind_usize {A} n (f : Z -> st Decoder CborError A) s :
  is_u64 n -> (len ← to_usize n; f len) s = f n s.
Proof. intros Hn. apply st_bind_run. by apply usize_total. Qed.

Lemma at_length_small p seg : at_ p seg -> Z.of_nat (length seg) <= i64_max.
Proof. intros Ha%at_bound. lia. Qed.

(** The head of a string, then the string. *)
Lemma read_sized_Ok p d a b s' : 0 <= a < 32 -> (p <= length buf)%nat ->
  runs (read_string buf a) p d b s' <->
  a = arg_info (len_u64 b) /\ at_ p (arg (len_u64 b) ++ b) /\
  s' = MK (p + length (arg (len_u64 b) ++ b)) d.
Proof.
  intros Ha Hp. unfold read_string. rewrite st_bind_Ok. split.
  - intros (n & s1 & Harg & Hrun). apply read_argument_Ok in Harg as (Hn & -> & Hat & ->); [|done..].
    rewrite bind_usize in Hrun by done. apply read_bytes_Ok in Hrun as (Hb & Hl & ->); [|by destruct Hn].
    assert (He : len_u64 b = n) by (rewrite len_u64_small; [done|by eapply at_length_small]).
    rewrite He. split_and!; [done| |].
    + apply at_app. unfold arg at 2. by rewrite be_bytes_length.
    + rewrite length_app, arg_length. f_equal. lia.
  - intros (-> & [Hat Hb]%at_app & ->). pose proof (at_length_small _ _ Hb) as Hl.
    exists (len_u64 b), (MK (p + arg_width (len_u64 b)) d). split.
    + apply read_argument_Ok; [done..|]. split; [apply len_u64_range|done].
    + rewrite bind_usize by apply len_u64_range. rewrite arg_length in Hb.
      apply read_bytes_Ok; [apply len_u64_range|]. rewrite length_app, arg_length.
      split_and!; [done|by rewrite len_u64_small|f_equal; lia].
Qed.

(** The same, inlined in its callers. *)
Lemma read_sized_bind {A} p d a (k : bytes -> st Decoder CborError A) x s' :
  0 <= a < 32 -> (p <= length buf)%nat ->
  runs (len ← read_argument buf a; len ← to_usize len; b ← read_slice buf len; k b) p d x s' <->
  exists b, a = arg_info (len_u64 b) /\ at_ p (arg (len_u64 b) ++ b) /\
    runs (k b) (p + length (arg (len_u64 b) ++ b)) d x s'.
Proof.
  intros Ha Hp.
  assert (He : runs (len ← read_argument buf a; len ← to_usize len; b ← read_slice buf len; k b) p d x s' <->
    runs (read_string buf a ≫= k) p d x s').
  { unfold read_string. rewrite st_bind_assoc, !st_bind_Ok.
    split; intros (n & s1 & ? & Hr); exists n, s1; (split; [done|]); [rewrite st_bind_assoc|rewrite st_bind_assoc in Hr]; done. }
  rewrite He, st_bind_Ok. setoid_rewrite read_sized_Ok; [|done..]. naive_solver.
Qed.

Lemma collection_len_Ok p d a e n s' : 0 <= a < 32 -> (p <= length buf)%nat ->
  runs (collection_len buf a e) p d n s' <->
  a = arg_info (Z.of_nat n) /\ Z.of_nat n <= MAX_COLLECTION_LEN /\ at_ p (arg (Z.of_nat n)) /\
  s' = MK (p + length (arg (Z.of_nat n))) d.
Proof.
  intros Ha Hp. unfold collection_len. rewrite st_bind_Ok. split.
  - intros (m & s1 & Harg & Hrun). apply read_argument_Ok in Harg as (Hm & -> & Hat & ->); [|done..].
    rewrite bind_usize in Hrun by done. apply st_if_fail_Ok in Hrun as [Hmax [<- <-]%st_ret_Ok].
    unfold is_u64 in Hm. rewrite Z2Nat.id by lia. rewrite arg_length. split_and!; [done|lia|done|done].
  - intros (-> & Hmax & Hat & ->). rewrite arg_length.
    exists (Z.of_nat n), (MK (p + arg_width (Z.of_nat n)) d).
    assert (Hn : is_u64 (Z.of_nat n)) by (unfold is_u64, MAX_COLLECTION_LEN in *; lia).
    split; [by apply read_argument_Ok|]. rewrite bind_usize by done.
    apply st_if_fail_Ok. split; [lia|]. apply st_ret_Ok. by rewrite Nat2Z.id.
Qed.

Lemma from_utf8_Ok p d b t s' : runs (from_utf8 b) p d t s' <-> utf8_valid b = true /\ t = b /\ s' = MK p d.
Proof.
  unfold from_utf8. rewrite simd_utf8_valid. destruct (utf8_valid b).
  - rewrite st_ret_Ok. naive_solver.
  - rewrite st_fail_Ok. naive_solver.
Qed.

(** The byte that starts a head. *)
Lemma read_head_byte {A} p d (k : Z -> st Decoder CborError A) a s' :
  runs (read_byte buf ≫= k) p d a s' <->
  exists b, at_ p [b] /\ b = Z.shiftr b 5 * 32 + Z.land b 0x1f /\ 0 <= Z.shiftr b 5 < 8 /\
    0 <= Z.land b 0x1f < 32 /\ (p + 1 <= length buf)%nat /\ runs (k b) (p + 1) d a s'.
Proof.
  rewrite st_bind_Ok. setoid_rewrite read_byte_Ok. split.
  - intros (b & s1 & [Hb ->] & Hrun). pose proof (Forall_inv (at_u8 _ _ Hb)) as Hu.
    destruct (byte_split b Hu) as (He & ? & ?). pose proof (at_bound _ _ Hb) as Hl. cbn in Hl.
    exists b. split_and!; try done; lia.
  - intros (b & Hb & _ & _ & _ & _ & Hrun). eauto.
Qed.

Lemma at_head major n p rest : 0 <= major < 8 -> is_u64 n ->
  at_ p (head major n ++ rest) <-> at_ p [major * 32 + arg_info n] /\ at_ (p + 1) (arg n ++ rest).
Proof. intros Hm Hn. rewrite head_arg, <- app_assoc by done. apply at_app. Qed.

Lemma app_nil_at p seg : at_ p seg <-> at_ p (seg ++ []).
Proof. by rewrite app_nil_r. Qed.

(** ** Map keys *)

Lemma text_enc_length s : length (text_enc s) = S (length (arg (len_u64 s) ++ s)).
Proof. unfold text_enc. rewrite head_arg by (lia || apply len_u64_range). done. Qed.

Lemma slice_at {E} p seg : at_ p seg -> slice (E:=E) buf p (p + length seg) = Ok seg.
Proof.
  intros Ha. pose proof (at_bound _ _ Ha). rewrite slice_Ok by lia.
  replace (p + length seg - p)%nat with (length seg) by lia. by rewrite <- (at_eq _ _ Ha).
Qed.

(** A head at a position: its byte, its major type and its info. *)
Lemma at_head_byte p major n rest : 0 <= major < 8 -> is_u64 n -> at_ p (head major n ++ rest) ->
  exists b, at_ p [b] /\ Z.shiftr b 5 = major /\ Z.land b 0x1f = arg_info n /\
    at_ (p + 1) (arg n ++ rest) /\ 0 <= arg_info n < 32 /\ (p + 1 <= length buf)%nat.
Proof.
  intros Hm Hn [Hb Hr]%at_head; [|done..]. pose proof (arg_info_range n ltac:(by destruct Hn)).
  destruct (byte_join major (arg_info n) Hm ltac:(lia)) as (_ & ? & ?).
  pose proof (at_bound _ _ Hb) as Hl. cbn in Hl. eexists. split_and!; try done; lia.
Qed.

(** The test against the previous key, empty at the start of a map. *)
Definition after (prev k : bytes) : Prop := prev = [] \/ bytes_lt prev (text_enc k).

Lemma read_map_key_bytes_Ok p d prev k ke s' :
  runs (read_map_key_bytes buf prev) p d (k, ke) s' <->
  ke = text_enc k /\ at_ p (text_enc k) /\ after prev k /\ s' = MK (p + length (text_enc k)) d.
Proof.
  unfold read_map_key_bytes. rewrite (st_bind_run _ _ _ p (MK p d)) by done.
  rewrite read_head_byte. split.
  - intros (b & Hb & He & Hm & Hi & Hp & [H3 Hrun]%st_if_fail_Ok).
    assert (Z.shiftr b 5 = 3) as E3 by lia. rewrite E3 in He.
    apply read_sized_bind in Hrun as (kb & Ei & Hat & Hrun); [|done..].
    rewrite (st_bind_run _ _ _ (p + 1 + length (arg (len_u64 kb) ++ kb))%nat _) in Hrun by done.
    assert (Hkey : at_ p (text_enc kb)).
    { unfold text_enc. apply at_head; [lia|apply len_u64_range|]. rewrite <- Ei, <- He. done. }
    rewrite (st_bind_run _ _ _ (text_enc kb) (MK (p + 1 + length (arg (len_u64 kb) ++ kb)) d)) in Hrun.
    2:{ unfold lift. f_equal. rewrite <- (slice_at p (text_enc kb)) by done. rewrite text_enc_length. f_equal. lia. }
    unfold after. case_bool_decide as Hprev; [|destruct (bytes_cmp prev (text_enc kb)) eqn:Hc].
    all: try done; injection Hrun as -> <- <-; rewrite text_enc_length.
    all: split_and!; [done|done|by eauto|f_equal; lia].
  - intros (-> & Hat & Haft & ->). pose proof Hat as Hkey.
    apply at_head_byte in Hat as (b & Hb & H3 & Hinfo & Hr & Hi & Hp); [|lia|apply len_u64_range].
    exists b. rewrite H3, Hinfo. split_and!; try done; try lia.
    { destruct (byte_split b) as (He & _ & _); [by apply (Forall_inv (at_u8 _ _ Hb))|]. by rewrite H3, Hinfo in He. }
    cbn [Z.eqb Pos.eqb negb]. apply read_sized_bind; [done..|]. exists k. split; [done|]. split; [done|].
    rewrite (st_bind_run _ _ _ (p + 1 + length (arg (len_u64 k) ++ k))%nat (MK (p + 1 + length (arg (len_u64 k) ++ k)) d)) by done.
    rewrite (st_bind_run _ _ _ (text_enc k) (MK (p + 1 + length (arg (len_u64 k) ++ k)) d)).
    2:{ unfold lift. f_equal. rewrite <- (slice_at p (text_enc k)) by done. rewrite text_enc_length. f_equal. lia. }
    assert (Hs : MK (p + 1 + length (arg (len_u64 k) ++ k)) d = MK (p + length (text_enc k)) d)
      by (rewrite text_enc_length; f_equal; lia).
    destruct Haft as [->|Hlt]; [by rewrite bool_decide_true, Hs by done|].
    unfold bytes_lt in Hlt. rewrite Hlt, Hs. by case_bool_decide.
Qed.

(** ** Values, by induction on the depth that is left *)

(** [m] decodes, at depth [d], exactly the canonical values of that depth. *)
Definition decodes (m : st Decoder CborError Value) (d : nat) : Prop :=
  forall p v s', (p <= length buf)%nat ->
    runs m p d v s' <-> canonical d v /\ at_ p (enc v) /\ s' = MK (p + length (enc v)) d.

Lemma replicate_decodes m d n p l s' : decodes m d -> (p <= length buf)%nat ->
  runs (replicate_m n m) p d l s' <->
  length l = n /\ Forall (canonical d) l /\ at_ p (concat (map enc l)) /\
  s' = MK (p + length (concat (map enc l))) d.
Proof.
  intros Hm. revert p l s'. induction n as [|n IH]; intros p l s' Hp; cbn [replicate_m].
  { rewrite st_ret_Ok. split.
    - intros [<- <-]. cbn. rewrite Nat.add_0_r. split_and!; [done|done|by apply at_nil|done].
    - intros (Hl & _ & _ & ->). destruct l; [|done]. cbn. by rewrite Nat.add_0_r. }
  rewrite st_bind_Ok. split.
  - intros (v & s1 & Hv & Hrest). apply Hm in Hv as (Hc & Hat & ->); [|done].
    pose proof (at_bound _ _ Hat). apply st_bind_Ok in Hrest as (l' & s2 & Hl & [<- <-]%st_ret_Ok).
    apply IH in Hl as (<- & Hcs & Hats & ->); [|lia]. cbn. rewrite at_app, length_app.
    split_and!; try done; [by constructor|f_equal; lia].
  - intros (Hl & Hc & Hat & ->). destruct l as [|v l]; [done|]. cbn in Hat |- *. injection Hl as <-.
    inversion_clear Hc. apply at_app in Hat as [Hat Hats]. pose proof (at_bound _ _ Hat).
    exists v, (MK (p + length (enc v)) d). split; [by apply Hm|].
    rewrite (st_bind_run _ _ _ l (MK (p + length (enc v ++ concat (map enc l))) d)); [done|].
    apply IH; [lia|]. rewrite length_app. split_and!; try done. f_equal. lia.
Qed.

(** Each key after the one before it. *)
Fixpoint chain (prev : bytes) (l : list (bytes * Value)) : Prop :=
  match l with [] => True | e :: l' => after prev e.1 /\ chain (text_enc e.1) l' end.

Definition key_ok (e : bytes * Value) : Prop := str_ok e.1 /\ Z.of_nat (length e.1) <= i64_max.

Lemma text_enc_lt a b : Z.of_nat (length a) <= i64_max -> Z.of_nat (length b) <= i64_max ->
  bytes_lt (text_enc a) (text_enc b) <-> key_lt a b.
Proof.
  intros Ha Hb. split; [|by apply key_lt_encoded]. intros Hlt.
  destruct (key_lt_trichotomy a b) as [|[->|Hgt]]; [done|by apply bytes_lt_irrefl in Hlt|].
  apply key_lt_encoded in Hgt; [|done..]. exfalso. eapply bytes_lt_irrefl, (bytes_lt_trans _ _ _ Hlt Hgt).
Qed.

Lemma chain_cons k l : Z.of_nat (length k) <= i64_max -> Forall key_ok l ->
  chain (text_enc k) l <-> StronglySorted key_lt (k :: l.*1).
Proof.
  intros Hk Hl. revert k Hk. induction Hl as [|e l [_ He] Hl IH]; intros k Hk; cbn [chain].
  { split; [repeat constructor|done]. }
  rewrite IH by done. unfold after. rewrite text_enc_lt by done. split.
  - intros [[Hn|Hlt] Hs]; [by apply (f_equal length) in Hn; rewrite text_enc_length in Hn|].
    constructor; [done|]. constructor; [done|]. inversion_clear Hs.
    eapply Forall_impl; [done|]. intros. by etrans.
  - intros Hs. inversion_clear Hs as [|? ? Hs' Hall]. inversion_clear Hall. auto.
Qed.

Lemma chain_sorted l : Forall key_ok l -> chain [] l <-> keys_sorted l.
Proof.
  intros Hl. destruct Hl as [|e l [_ He] Hl]; [split; [constructor|done]|]. cbn [chain].
  rewrite chain_cons by done. unfold after, keys_sorted. cbn. naive_solver.
Qed.

Lemma read_map_key_Ok p d prev k ke s' :
  runs (read_map_key buf prev) p d (k, ke) s' <->
  ke = text_enc k /\ str_ok k /\ at_ p (text_enc k) /\ after prev k /\ s' = MK (p + length (text_enc k)) d.
Proof.
  unfold read_map_key. rewrite st_bind_Ok. split.
  - intros ([k' ke'] & s1 & (-> & Hat & Haft & ->)%read_map_key_bytes_Ok & Hrun). cbn [fst snd] in Hrun.
    apply st_bind_Ok in Hrun as (b & s2 & (Hu & -> & ->)%from_utf8_Ok & [[= <- <-] <-]%st_ret_Ok).
    unfold text_enc in Hat. pose proof Hat as [_ Hk]%at_app. split_and!; try done. split; [by eapply at_u8|done].
  - intros (-> & [Hu Hv] & Hat & Haft & ->).
    exists (k, text_enc k), (MK (p + length (text_enc k)) d). split; [by apply read_map_key_bytes_Ok|].
    cbn [fst snd]. rewrite (st_bind_run _ _ _ k (MK (p + length (text_enc k)) d)); [done|].
    by apply from_utf8_Ok.
Qed.

Lemma read_entries_decodes m d n prev p l s' : decodes m d -> (p <= length buf)%nat ->
  runs (read_entries buf m n prev) p d l s' <->
  length l = n /\ chain prev l /\ Forall key_ok l /\ Forall (fun e => canonical d e.2) l /\
  at_ p (concat (map (entry_out enc) l)) /\ s' = MK (p + length (concat (map (entry_out enc) l))) d.
Proof.
  intros Hm. revert prev p l s'. induction n as [|n IH]; intros prev p l s' Hp; cbn [read_entries].
  { rewrite st_ret_Ok. split.
    - intros [<- <-]. cbn. rewrite Nat.add_0_r. split_and!; try done. by apply at_nil.
    - intros (Hl & _ & _ & _ & _ & ->). destruct l; [|done]. cbn. by rewrite Nat.add_0_r. }
  rewrite st_bind_Ok. split.
  - intros ([k ke] & s1 & (-> & Hk & Hat & Haft & ->)%read_map_key_Ok & Hrest). cbn [fst snd] in Hrest.
    pose proof (at_bound _ _ Hat). apply st_bind_Ok in Hrest as (v & s2 & Hv & Hrest).
    apply Hm in Hv as (Hc & Hatv & ->); [|lia]. pose proof (at_bound _ _ Hatv).
    apply st_bind_Ok in Hrest as (l' & s3 & Hl & [<- <-]%st_ret_Ok).
    apply IH in Hl as (<- & Hch & Hks & Hcs & Hats & ->); [|lia]. cbn.
    change (entry_out enc (k, v)) with (text_enc k ++ enc v).
    rewrite <- !app_assoc, !at_app, !length_app. split_and!; try done; [|by constructor|f_equal; lia].
    constructor; [|done]. split; [done|]. unfold text_enc in Hat. apply at_app in Hat as [_ Hat].
    by eapply at_length_small.
  - intros (Hl & Hch & Hks & Hc & Hat & ->). destruct l as [|[k v] l]; [done|]. cbn in Hat, Hch |- *.
    injection Hl as <-. inversion_clear Hc. inversion_clear Hks as [|? ? [Hk _] Hks'].
    change (entry_out enc (k, v)) with (text_enc k ++ enc v) in *. cbn [fst snd] in *. rewrite <- app_assoc, !at_app in Hat.
    destruct Hat as (Hatk & Hatv & Hats). pose proof (at_bound _ _ Hatk). pose proof (at_bound _ _ Hatv).
    exists (k, text_enc k), (MK (p + length (text_enc k)) d). split; [by apply read_map_key_Ok; naive_solver|].
    cbn [fst snd]. rewrite (st_bind_run _ _ _ v (MK (p + length (text_enc k) + length (enc v)) d)) by (by apply Hm; [lia|]).
    rewrite (st_bind_run _ _ _ l (MK (p + length (text_enc k) + length (enc v) + length (concat (map (entry_out enc) l))) d)).
    + unfold mret, st_ret. rewrite !length_app. do 2 f_equal. lia.
    + apply IH; [lia|]. naive_solver.
Qed.

(** ** One value *)

Lemma head_join major n rest p d : 0 <= major < 8 -> is_u64 n ->
  at_ p [major * 32 + arg_info n] -> at_ (p + 1) (arg n ++ rest) ->
  at_ p (head major n ++ rest) /\
  MK (p + 1 + length (arg n ++ rest)) d = MK (p + length (head major n ++ rest)) d.
Proof.
  intros Hm Hn Hb Hr. split; [by apply at_head|].
  rewrite head_arg by done. cbn. f_equal. lia.
Qed.

Lemma len_nat_u64 (n : nat) : Z.of_nat n <= MAX_COLLECTION_LEN -> is_u64 (Z.of_nat n).
Proof. unfold is_u64, MAX_COLLECTION_LEN. lia. Qed.

Lemma len_u64_collection {A} (l : list A) : Z.of_nat (length l) <= MAX_COLLECTION_LEN ->
  len_u64 l = Z.of_nat (length l).
Proof. intros. apply len_u64_small. unfold i64_max, MAX_COLLECTION_LEN in *. lia. Qed.

Section OneValue.
Variable rec : st Decoder CborError Value.
Variable d : nat.
Hypothesis Hd : (d < MAX_DEPTH)%nat.
Hypothesis Hrec : decodes rec (S d).

Definition decoded (p : nat) (v : Value) (s' : Decoder) : Prop :=
  canonical d v /\ at_ p (enc v) /\ s' = MK (p + length (enc v)) d.

Lemma read_integer_Ok p a n s' : 0 <= a < 32 -> (p + 1 <= length buf)%nat ->
  runs (read_argument buf a) (p + 1) d n s' ->
  is_u64 n /\ a = arg_info n /\ at_ (p + 1) (arg n) /\ s' = MK (p + 1 + length (arg n)) d.
Proof.
  intros Ha Hp Hrun. apply read_argument_Ok in Hrun as (? & ? & ? & ->); [|done..].
  by rewrite arg_length.
Qed.

Lemma head_alone major n p s' : 0 <= major < 8 -> is_u64 n ->
  at_ p [major * 32 + arg_info n] -> at_ (p + 1) (arg n) -> s' = MK (p + 1 + length (arg n)) d ->
  at_ p (head major n) /\ s' = MK (p + length (head major n)) d.
Proof.
  intros Hm Hn Hb Hr ->. rewrite <- (app_nil_r (arg n)), <- (app_nil_r (head major n)) in *.
  by apply head_join.
Qed.

Lemma array_sound p a v s' : 0 <= a < 32 -> (p + 1 <= length buf)%nat -> at_ p [4 * 32 + a] ->
  runs (decode_major buf rec 4 a) (p + 1) d v s' -> decoded p v s'.
Proof.
  intros Ha Hp Hb. cbn [decode_major Z.eqb Pos.eqb]. rewrite st_bind_Ok.
  intros (n & s1 & (-> & Hmax & Hat & ->)%collection_len_Ok & Hrun); [|done..].
  rewrite (st_bind_run _ _ _ () (MK (p + 1 + length (arg (Z.of_nat n))) (S d))) in Hrun by done.
  apply st_bind_Ok in Hrun as (l & s2 & Hl & Hrun).
  pose proof (at_bound _ _ Hat). apply replicate_decodes in Hl as (<- & Hc & Hats & ->); [|done|lia].
  injection Hrun as <- <-. unfold decoded. cbn [enc]. rewrite (len_u64_collection l) by done.
  destruct (head_join 4 (Z.of_nat (length l)) (concat (map enc l)) p d) as [Hj Hs];
    [lia|by apply len_nat_u64|done|by apply at_app|].
  split; [by constructor|]. split; [done|]. rewrite <- Hs. unfold set_depth. cbn [pos depth].
  rewrite length_app. f_equal; lia.
Qed.

Lemma map_sound p a v s' : 0 <= a < 32 -> (p + 1 <= length buf)%nat -> at_ p [5 * 32 + a] ->
  runs (decode_major buf rec 5 a) (p + 1) d v s' -> decoded p v s'.
Proof.
  intros Ha Hp Hb. cbn [decode_major Z.eqb Pos.eqb].
  rewrite (st_bind_run _ _ _ () (MK (p + 1) (S d))) by done. rewrite st_bind_Ok.
  intros (n & s1 & (-> & Hmax & Hat & ->)%collection_len_Ok & Hrun); [|done..].
  apply st_bind_Ok in Hrun as (l & s2 & Hl & Hrun). pose proof (at_bound _ _ Hat).
  apply read_entries_decodes in Hl as (<- & Hch & Hks & Hc & Hats & ->); [|done|lia].
  apply chain_sorted in Hch; [|done].
  injection Hrun as <- <-. unfold decoded. cbn [enc]. rewrite (len_u64_collection l) by done.
  destruct (head_join 5 (Z.of_nat (length l)) (concat (map (entry_out enc) l)) p d) as [Hj Hs];
    [lia|by apply len_nat_u64|done|by apply at_app|].
  split; [by constructor|]. split; [done|]. etrans; [|exact Hs]. unfold set_depth. cbn [pos depth].
  rewrite length_app. f_equal; lia.
Qed.

Lemma tag_sound p a v s' : 0 <= a < 32 -> (p + 1 <= length buf)%nat -> at_ p [6 * 32 + a] ->
  runs (decode_major buf rec 6 a) (p + 1) d v s' -> decoded p v s'.
Proof.
  intros Ha Hp Hb. cbn [decode_major Z.eqb Pos.eqb]. rewrite st_bind_Ok.
  intros (n & s1 & (Hn & -> & Hat & ->)%read_integer_Ok & Hrun); [|done..].
  apply st_if_fail_Ok in Hrun as [H42 Hrun]. assert (n = 42) as -> by lia. clear H42 Hn.
  apply st_bind_Ok in Hrun as (c & s1 & Hc & [<- <-]%st_ret_Ok).
  unfold read_tag42_body in Hc. change (arg 42) with [0x2a] in *. cbn [length] in Hc.
  change (arg_info 42) with 24 in Hb.
  apply read_head_byte in Hc as (b & Hb' & He & Hm & Hi & Hp' & [H2 Hrun]%st_if_fail_Ok).
  assert (Z.shiftr b 5 = 2) as E2 by lia. rewrite E2 in He.
  apply read_sized_bind in Hrun as (t & Ei & Ht & [Hc <-]%st_lift_Ok); [|done..].
  pose proof Ht as [_ Hu%at_u8]%at_app. apply from_tag42_bytes_Ok in Hc as [Hc ->]; [|done].
  assert (Hlen : len_u64 (to_tag42_bytes c) = 37).
  { unfold to_tag42_bytes, len_u64. cbn [length]. by rewrite to_bytes_length. }
  rewrite Hlen in *. change (arg 37) with [0x25] in *. change (arg_info 37) with 24 in Ei. rewrite Ei in He.
  split; [by constructor|]. cbn [enc]. unfold tag42.
  change ([216; 42; 88; 37; 0] ++ to_bytes c) with ([6 * 32 + 24] ++ [42] ++ [2 * 32 + 24] ++ [37] ++ to_tag42_bytes c).
  split; [|f_equal; rewrite !length_app; cbn [length]; lia].
  rewrite !at_app. cbn [length]. subst b. rewrite at_app in Ht. cbn [length] in Ht. naive_solver.
Qed.

Lemma simple_sound p a v s' : 0 <= a < 32 -> (p + 1 <= length buf)%nat -> at_ p [7 * 32 + a] ->
  runs (decode_major buf rec 7 a) (p + 1) d v s' -> decoded p v s'.
Proof.
  intros Ha Hp Hb. cbn [decode_major Z.eqb Pos.eqb]. unfold read_simple, decoded.
  destruct (Z.eqb_spec a 20) as [->|]; [intros [<- <-]%st_ret_Ok; split; [by constructor|done]|].
  destruct (Z.eqb_spec a 21) as [->|]; [intros [<- <-]%st_ret_Ok; split; [by constructor|done]|].
  destruct (Z.eqb_spec a 22) as [->|]; [intros [<- <-]%st_ret_Ok; split; [by constructor|done]|].
  destruct (a =? 24); [done|]. destruct (a =? 25); [done|]. destruct (a =? 26); [done|].
  destruct (Z.eqb_spec a 27) as [->|]; [|by destruct (a =? 31)].
  rewrite st_bind_Ok. intros (b & s1 & (Hat & Hl & ->)%read_fixed_Ok & Hrun).
  apply st_if_fail_Ok in Hrun as [Hnan Hrun]. apply st_if_fail_Ok in Hrun as [Hinf [<- <-]%st_ret_Ok].
  destruct (at_fixed _ _ Hat) as [He Hr]. rewrite Hl in *.
  split; [constructor; [done|exact Hr|by rewrite is_finite_cases, Hnan, Hinf]|]. cbn [enc]. rewrite He.
  split; [change (251 :: b) with ([7 * 32 + 27] ++ b); by apply at_app|]. cbn [length]. f_equal. lia.
Qed.

Lemma decode_major_sound p m a v s' : 0 <= m < 8 -> 0 <= a < 32 -> (p + 1 <= length buf)%nat ->
  at_ p [m * 32 + a] -> runs (decode_major buf rec m a) (p + 1) d v s' -> decoded p v s'.
Proof.
  intros Hm Ha Hp Hb.
  assert (Hcases : m = 0 \/ m = 1 \/ m = 2 \/ m = 3 \/ m = 4 \/ m = 5 \/ m = 6 \/ m = 7) by lia.
  destruct Hcases as [->|[->|[->|[->|[->|[->|[->| ->]]]]]]].
  5: by apply (array_sound p a).
  5: by apply (map_sound p a).
  5: by apply (tag_sound p a).
  5: by apply (simple_sound p a).
  all: cbn [decode_major Z.eqb Pos.eqb]; rewrite st_bind_Ok.
  - intros (n & s1 & (Hn & -> & Hat & ->)%read_integer_Ok & [Hmax [<- <-]%st_ret_Ok]%st_if_fail_Ok); [|done..].
    unfold is_u64 in Hn. split; [constructor; [done|lia]|]. by apply head_alone.
  - intros (n & s1 & (Hn & -> & Hat & ->)%read_integer_Ok & Hrun); [|done..].
    destruct (n <=? i64_max) eqn:Hmax; [|done]. apply st_ret_Ok in Hrun as [<- <-].
    unfold is_u64, i64_max in *. split; [constructor; [done|lia]|]. cbn [enc].
    replace (0 <=? -1 - n) with false by lia. replace (-1 - (-1 - n)) with n by lia.
    unfold as_u64. rewrite Z.mod_small by lia. by apply head_alone.
  - intros (b & s1 & (-> & Hat & ->)%read_sized_Ok & [<- <-]%st_ret_Ok); [|done..].
    pose proof Hat as [_ Hb']%at_app. split; [constructor; [done|by eapply at_u8|by eapply at_length_small]|].
    cbn [enc]. apply head_join; [lia|apply len_u64_range|done..].
  - intros (b & s1 & (-> & Hat & ->)%read_sized_Ok & Hrun); [|done..].
    apply st_bind_Ok in Hrun as (t & s2 & (Hv & -> & ->)%from_utf8_Ok & [<- <-]%st_ret_Ok).
    pose proof Hat as [_ Hb']%at_app.
    split; [constructor; [done|split; [by eapply at_u8|done]|by eapply at_length_small]|].
    cbn [enc]. unfold text_enc. apply head_join; [lia|apply len_u64_range|done..].
Qed.

(** From the initial byte of a head into the branch of its major type. *)
Lemma decode_head p major n rest v s' : 0 <= major < 8 -> is_u64 n -> at_ p (head major n ++ rest) ->
  (0 <= arg_info n < 32 -> (p + 1 <= length buf)%nat -> at_ (p + 1) (arg n ++ rest) ->
    runs (decode_major buf rec major (arg_info n)) (p + 1) d v s') ->
  runs (decode_body buf rec) p d v s'.
Proof.
  intros Hm Hn Hat Hrun. unfold decode_body. rewrite (st_bind_run _ _ _ d (MK p d)) by done.
  replace (MAX_DEPTH <=? d)%nat with false by lia.
  destruct (at_head_byte _ _ _ _ Hm Hn Hat) as (b & Hb & Hmb & Hib & Hr & Hi & Hp).
  rewrite (st_bind_run _ _ _ b (MK (p + 1) d)) by (by apply read_byte_Ok).
  rewrite Hmb, Hib. by apply Hrun.
Qed.

Lemma end_eq p major n rest : 0 <= major < 8 -> is_u64 n ->
  (p + 1 + length (arg n ++ rest))%nat = (p + length (head major n ++ rest))%nat.
Proof. intros. rewrite head_arg by done. cbn. lia. Qed.

Lemma integer_complete p major n v : 0 <= major < 8 -> is_u64 n -> at_ p (head major n) ->
  (forall s', runs (decode_major buf rec major (arg_info n)) (p + 1) d v s' <->
    runs (n ← read_argument buf (arg_info n); mret n) (p + 1) d n s') ->
  runs (decode_body buf rec) p d v (MK (p + length (head major n)) d).
Proof.
  intros Hm Hn Hat Heq. rewrite <- (app_nil_r (head major n)) in *.
  apply (decode_head _ _ _ _ _ _ Hm Hn Hat). intros Hi Hp Hr. apply Heq.
  rewrite app_nil_r in Hr. rewrite (st_bind_run _ _ _ n (MK (p + 1 + length (arg n)) d)).
  - rewrite <- end_eq by done. by rewrite app_nil_r.
  - apply read_argument_Ok; [done..|]. rewrite arg_length. done.
Qed.

Lemma array_complete p l : canonical d (Value.Array l) -> at_ p (enc (Value.Array l)) ->
  runs (decode_body buf rec) p d (Value.Array l) (MK (p + length (enc (Value.Array l))) d).
Proof.
  inversion_clear 1 as [| | | | | | | |? ? _ Hmax Hc|]. cbn [enc]. rewrite len_u64_collection by done. intros Hat.
  pose proof (len_nat_u64 _ Hmax) as Hn. apply (decode_head _ 4 _ _ _ _ ltac:(lia) Hn Hat). intros Hi Hp Hr.
  rewrite <- end_eq by (lia || done). apply at_app in Hr as [Hr Hl]. pose proof (at_bound _ _ Hr).
  cbn [decode_major Z.eqb Pos.eqb].
  rewrite (st_bind_run _ _ _ (length l) (MK (p + 1 + length (arg (Z.of_nat (length l)))) d)) by (by apply collection_len_Ok).
  rewrite (st_bind_run _ _ _ () (MK (p + 1 + length (arg (Z.of_nat (length l)))) (S d))) by done.
  rewrite (st_bind_run _ _ _ l (MK (p + 1 + length (arg (Z.of_nat (length l)) ++ concat (map enc l))) (S d))).
  - unfold mbind, st_bind, ascend, modify, set_depth. cbn [pos depth]. by rewrite Nat.sub_0_r || (do 2 f_equal; lia).
  - apply (replicate_decodes _ _ _ _ _ _ Hrec); [lia|]. split_and!; try done. rewrite length_app. f_equal. lia.
Qed.

Lemma map_complete p l : canonical d (Value.Map l) -> at_ p (enc (Value.Map l)) ->
  runs (decode_body buf rec) p d (Value.Map l) (MK (p + length (enc (Value.Map l))) d).
Proof.
  inversion_clear 1 as [| | | | | | | | |? ? _ Hmax Hs Hk Hc]. cbn [enc]. rewrite len_u64_collection by done. intros Hat.
  pose proof (len_nat_u64 _ Hmax) as Hn. apply (decode_head _ 5 _ _ _ _ ltac:(lia) Hn Hat). intros Hi Hp Hr.
  rewrite <- end_eq by (lia || done). apply at_app in Hr as [Hr Hl]. pose proof (at_bound _ _ Hr).
  cbn [decode_major Z.eqb Pos.eqb]. change (map (fun e => text_enc e.1 ++ enc e.2) l) with (map (entry_out enc) l) in *.
  rewrite (st_bind_run _ _ _ () (MK (p + 1) (S d))) by done.
  rewrite (st_bind_run _ _ _ (length l) (MK (p + 1 + length (arg (Z.of_nat (length l)))) (S d))) by (by apply collection_len_Ok).
  rewrite (st_bind_run _ _ _ l (MK (p + 1 + length (arg (Z.of_nat (length l)) ++ concat (map (entry_out enc) l))) (S d))).
  - unfold mbind, st_bind, ascend, modify, set_depth. cbn [pos depth]. by rewrite Nat.sub_0_r || (do 2 f_equal; lia).
  - apply (read_entries_decodes _ _ _ _ _ _ _ Hrec); [lia|]. apply chain_sorted in Hs; [|done].
    split_and!; try done. rewrite length_app. f_equal. lia.
Qed.

Lemma cid_complete p c : cid_wf c -> at_ p (tag42 c) ->
  runs (decode_body buf rec) p d (Value.Cid c) (MK (p + length (tag42 c)) d).
Proof.
  intros Hc Hat.
  assert (Hlen : len_u64 (to_tag42_bytes c) = 37).
  { unfold to_tag42_bytes, len_u64. cbn [length]. by rewrite to_bytes_length. }
  assert (He : tag42 c = head 6 42 ++ head 2 (len_u64 (to_tag42_bytes c)) ++ to_tag42_bytes c) by (by rewrite Hlen).
  rewrite He in *. apply (decode_head _ 6 42 _ _ _ ltac:(lia) ltac:(unfold is_u64; lia) Hat). intros Hi Hp Hr.
  cbn [decode_major Z.eqb Pos.eqb]. apply at_app in Hr as [Hr Ht]. change (arg 42) with [0x2a] in *.
  rewrite (st_bind_run _ _ _ 42 (MK (p + 2) d)).
  2:{ apply read_argument_Ok; [done..|]. split_and!; [by unfold is_u64|done|done|]. f_equal. cbn. lia. }
  change (negb (42 =? 42)) with false. cbv iota. unfold read_tag42_body.
  rewrite (st_bind_run _ _ _ c (MK (p + length (head 6 42 ++ head 2 (len_u64 (to_tag42_bytes c)) ++ to_tag42_bytes c)) d)); [done|].
  replace (p + 1 + length [42%Z])%nat with (p + 2)%nat in Ht by (cbn; lia).
  destruct (at_head_byte _ _ _ _ (ltac:(lia) : 0 <= 2 < 8) (len_u64_range _) Ht) as (b & Hb & Hmb & Hib & Hr2 & Hi2 & Hp2).
  rewrite (st_bind_run (read_byte buf) _ (MK (p + 2) d) b (MK (p + 2 + 1) d)) by (apply read_byte_Ok; split; [exact Hb|reflexivity]). rewrite Hmb, Hib.
  change (negb (2 =? 2)) with false. cbv iota. apply read_sized_bind; [done..|].
  exists (to_tag42_bytes c). split; [done|]. split; [done|]. apply st_lift_Ok.
  assert (Hu : Forall is_u8 (to_tag42_bytes c)) by (constructor; [by unfold is_u8|by apply to_bytes_u8]).
  split; [by apply from_tag42_bytes_Ok|]. rewrite Hlen. f_equal. rewrite !length_app. cbn [length]. cbn. lia.
Qed.

Lemma simple_complete p v a rest : at_ p ([7 * 32 + a] ++ rest) -> 0 <= a < 32 ->
  (forall s', (p + 1 <= length buf)%nat -> at_ (p + 1) rest -> s' = MK (p + 1 + length rest) d ->
    runs (read_simple buf a) (p + 1) d v s') ->
  runs (decode_body buf rec) p d v (MK (p + length ([7 * 32 + a] ++ rest)) d).
Proof.
  intros [Hb Hr]%at_app Ha Hrun. unfold decode_body. rewrite (st_bind_run _ _ _ d (MK p d)) by done.
  replace (MAX_DEPTH <=? d)%nat with false by lia.
  destruct (byte_join 7 a ltac:(lia) Ha) as (_ & H7 & Hia).
  rewrite (st_bind_run _ _ _ (7 * 32 + a) (MK (p + 1) d)) by (by apply read_byte_Ok). rewrite H7, Hia.
  pose proof (at_bound _ _ Hb). apply Hrun; [cbn in *; lia|done|]. rewrite length_app. cbn. f_equal. lia.
Qed.

Lemma decode_body_complete p v : canonical d v -> at_ p (enc v) ->
  runs (decode_body buf rec) p d v (MK (p + length (enc v)) d).
Proof.
  intros Hc Hat. destruct v as [n|n|bits|b| |s|b|c|l|l];
    [..|by apply array_complete|by apply map_complete];
    inversion Hc as [? ? _ Hn|? ? _ Hn|? ? _ Hb Hf|? ? _|? _|? ? _ [Hu Hv] Hl|? ? _ Hu Hl|? ? _ Hcid|? ?|? ?]; clear Hc.
  - apply integer_complete; [lia|unfold is_u64, i64_max in *; lia|done|]. intros s'.
    cbn [decode_major Z.eqb Pos.eqb]. rewrite !st_bind_Ok. setoid_rewrite st_if_fail_Ok. setoid_rewrite st_ret_Ok.
    split; intros (m & s1 & Hm & Hx); exists m, s1; split; try done; [naive_solver|].
    destruct Hx as [-> ->]. split_and!; [lia|done|done].
  - cbn [enc] in *. replace (0 <=? n) with false in * by lia.
    assert (Hm : as_u64 (-1 - n) = -1 - n) by (unfold as_u64; apply Z.mod_small; lia). rewrite Hm in *.
    apply integer_complete; [lia|unfold is_u64; lia|done|]. intros s'.
    cbn [decode_major Z.eqb Pos.eqb]. rewrite !st_bind_Ok.
    split; intros (m & s1 & Hr & Hx); exists m, s1; split; try done.
    + destruct (m <=? i64_max); [|done]. apply st_ret_Ok in Hx as [[= He] ->]. apply st_ret_Ok. split; [lia|done].
    + apply st_ret_Ok in Hx as [-> ->]. unfold i64_max. replace (_ <=? _) with true by lia.
      apply st_ret_Ok. split; [|done]. f_equal. lia.
  - cbn [enc] in *. change (251 :: be_bytes 8 bits) with ([7 * 32 + 27] ++ be_bytes 8 bits) in *.
    apply simple_complete; [done|lia|]. intros s' Hp Hr ->. unfold read_simple. cbn [Z.eqb Pos.eqb].
    rewrite (st_bind_run _ _ _ (be_bytes 8 bits) (MK (p + 1 + 8) d)).
    2:{ apply read_fixed_Ok. split_and!; [done|apply be_bytes_length|done]. }
    rewrite be_value_be_bytes_small by exact Hb.
    rewrite is_finite_cases in Hf. apply andb_true_iff in Hf as [Hn%negb_true_iff Hi%negb_true_iff].
    rewrite Hn, Hi. by rewrite be_bytes_length.
  - cbn [enc] in *. apply (simple_complete p _ (if b then 21 else 20) []); [by destruct b|destruct b; lia|].
    intros s' Hp _ ->. cbn [length]. rewrite Nat.add_0_r. by destruct b.
  - apply (simple_complete p _ 22 []); [done|lia|]. intros s' Hp _ ->. cbn [length]. by rewrite Nat.add_0_r.
  - cbn [enc] in *. unfold text_enc in *. apply (decode_head _ 3 _ _ _ _ ltac:(lia) (len_u64_range s) Hat).
    intros Hi Hp Hr. rewrite <- end_eq by (lia || apply len_u64_range). cbn [decode_major Z.eqb Pos.eqb].
    rewrite (st_bind_run _ _ _ s (MK (p + 1 + length (arg (len_u64 s) ++ s)) d)) by (by apply read_sized_Ok).
    rewrite (st_bind_run _ _ _ s (MK (p + 1 + length (arg (len_u64 s) ++ s)) d)); [done|]. by apply from_utf8_Ok.
  - cbn [enc] in *. apply (decode_head _ 2 _ _ _ _ ltac:(lia) (len_u64_range b) Hat).
    intros Hi Hp Hr. rewrite <- end_eq by (lia || apply len_u64_range). cbn [decode_major Z.eqb Pos.eqb].
    by rewrite (st_bind_run _ _ _ b (MK (p + 1 + length (arg (len_u64 b) ++ b)) d)) by (by apply read_sized_Ok).
  - by apply cid_complete.
Qed.

Lemma decode_body_decodes : decodes (decode_body buf rec) d.
Proof.
  intros p v s' Hp. split; [|intros (Hc & Hat & ->); by apply decode_body_complete].
  unfold decode_body. rewrite (st_bind_run _ _ _ d (MK p d)) by done.
  rewrite st_if_fail_Ok. intros [_ Hrun].
  apply read_head_byte in Hrun as (b & Hb & He & Hm & Hi & Hp' & Hrun).
  eapply decode_major_sound in Hrun; [exact Hrun|done..|]. by rewrite <- He.
Qed.
End OneValue.

Lemma decode_fuel_decodes fuel d : (MAX_DEPTH < fuel + d)%nat -> decodes (decode_fuel buf fuel) d.
Proof.
  revert d. induction fuel as [|fuel IH]; intros d Hd.
  - intros p v s' Hp. cbn. split; [done|]. intros [Hc%canonical_depth _]. lia.
  - cbn [decode_fuel]. destruct (Nat.lt_ge_cases d MAX_DEPTH) as [Hlt|Hge].
    + apply decode_body_decodes; [done|]. apply IH. lia.
    + intros p v s' Hp. split; [|intros [Hc%canonical_depth _]; lia]. unfold decode_body.
      rewrite (st_bind_run _ _ _ d (MK p d)) by done. by replace (MAX_DEPTH <=? d)%nat with true by lia.
Qed.

Lemma decode_decodes d : decodes (decode buf) d.
Proof. intros p v s' Hp. unfold decode. cbn [depth]. apply decode_fuel_decodes; [lia|done]. Qed.
End Codec.

(** ** The theorems *)

Section Theorems.
Context `{Simdutf8Laws}.

Lemma cbor_decode_Ok data v : Forall is_u8 data -> Z.of_nat (length data) <= i64_max ->
  cbor_decode data = Ok v <-> canonical 0 v /\ data = enc v.
Proof.
  intros Hu Hl. unfold cbor_decode. pose proof (decode_decodes data Hu Hl 0%nat 0%nat v) as Hd. split.
  - destruct (decode data new) as [[w| |] s] eqn:He; [|done..]. destruct (is_empty data s) eqn:Hem; [|done].
    intros [= ->]. apply (Hd s ltac:(lia)) in He as (Hc & (pre & rest & Hdata & Hpre) & ->).
    split; [done|]. destruct pre; [|done]. cbn in Hdata. unfold is_empty in Hem. cbn in Hem.
    rewrite Hdata, length_app in Hem. destruct rest; [by rewrite app_nil_r in Hdata|cbn in Hem; lia].
  - intros [Hc ->]. unfold new.
    rewrite (proj2 (Hd (MkDecoder (length (enc v)) 0) ltac:(lia))).
    + unfold is_empty. cbn [pos]. by rewrite Nat.leb_refl.
    + split; [done|]. split; [|done]. exists [], []. by rewrite app_nil_r.
Qed.

Lemma map_forall_eq {A} (f : A -> A) l : Forall (fun a => f a = a) l -> map f l = l.
Proof. induction 1 as [|a l Ha _ IH]; [done|]. cbn. by rewrite Ha, IH. Qed.

Lemma canonical_normal d v : canonical d v -> normalize v = v /\ finite_floats v = true.
Proof.
  revert d. induction v as [n|n|bits|b| |s|b|c|l IH|l IH] using Value_ind'; intros d Hc; try done;
    inversion Hc as [|? ? _ Hn| | | | | | |? ? _ _ Hl|? ? _ _ Hs Hk Hl]; subst; cbn [normalize finite_floats].
  - by replace (0 <=? n) with false by lia.
  - done.
  - assert (HI : Forall (fun v => normalize v = v /\ finite_floats v = true) l)
      by (rewrite Forall_forall in *; eauto).
    split; [f_equal; apply map_forall_eq|apply forallb_Forall];
      (eapply Forall_impl; [exact HI|]); by intros ? [].
  - assert (HI : Forall (fun e => normalize e.2 = e.2 /\ finite_floats e.2 = true) l)
      by (rewrite Forall_forall in *; eauto).
    split.
    + rewrite map_forall_eq by (eapply Forall_impl; [exact HI|]; intros [k v] [? _]; cbn in *; by f_equal).
      f_equal. apply sort_by_key_sorted. apply keys_sorted_windows; [|done].
      eapply Forall_impl; [exact Hk|]. by intros ? [[] _].
    + apply forallb_Forall. eapply Forall_impl; [exact HI|]. by intros ? [].
Qed.

Lemma canonical_encode d v : canonical d v -> encode_value v = Ok (enc v).
Proof. intros [Hn Hf]%canonical_normal. by rewrite encode_value_eq, Hf, Hn. Qed.

(** C35. The decoder is the exact inverse of the encoder on canonical values: it
    accepts a byte string precisely when it is the encoding of a canonical
    value, which it returns. In particular it accepts one encoding of each
    value only. *)
Theorem cbor_decode_canonical data v : Forall is_u8 data -> Z.of_nat (length data) <= i64_max ->
  cbor_decode data = Ok v <-> canonical 0 v /\ encode_value v = Ok data.
Proof.
  intros Hu Hl. rewrite cbor_decode_Ok by done. split.
  - intros [Hc ->]. split; [done|]. by eapply canonical_encode.
  - intros [Hc He]. split; [done|]. rewrite (canonical_encode _ _ Hc) in He. congruence.
Qed.

Lemma text_enc_u8 s : Forall is_u8 s -> Forall is_u8 (text_enc s).
Proof. intros Hs. apply Forall_app. split; [|done]. apply head_u8; [lia|apply len_u64_range]. Qed.

Lemma as_u64_range n : is_u64 (as_u64 n).
Proof. unfold as_u64, is_u64. apply Z.mod_pos_bound. lia. Qed.

Lemma enc_u8 d v : canonical d v -> Forall is_u8 (enc v).
Proof.
  revert d. induction v as [n|n|bits|b| |s|b|c|l IH|l IH] using Value_ind'; intros d Hc;
    inversion_clear Hc as [? ? _ Hn|? ? _ Hn|? ? _ Hb Hf|? ? _|? _|? ? _ [Hu Hv] Hl|? ? _ Hu Hl|? ? _ Hcid|? ? _ Hl Hi|? ? _ Hl Hs Hk Hi];
    cbn [enc].
  - apply head_u8; [lia|]. unfold is_u64, i64_max in *. lia.
  - destruct (0 <=? n); apply head_u8; (lia || apply as_u64_range).
  - constructor; [by unfold is_u8|apply be_bytes_u8].
  - destruct b; repeat constructor; by unfold is_u8.
  - repeat constructor; by unfold is_u8.
  - by apply text_enc_u8.
  - apply Forall_app. split; [apply head_u8; [lia|apply len_u64_range]|done].
  - unfold tag42. apply Forall_app. split; [repeat constructor; by unfold is_u8|by apply to_bytes_u8].
  - apply Forall_app. split; [apply head_u8; [lia|apply len_u64_range]|].
    apply Forall_concat, Forall_fmap. rewrite Forall_forall in *. cbn. eauto.
  - apply Forall_app. split; [apply head_u8; [lia|apply len_u64_range]|].
    apply Forall_concat, Forall_fmap. rewrite Forall_forall in *. cbn. intros e He.
    apply Forall_app. split; [apply text_enc_u8, Hk, He|eauto].
Qed.

(** What can be encoded and decoded again: integers of the atproto range,
    finite floats, and maps, in any order, with distinct keys. *)
Inductive encodable : nat -> Value -> Prop :=
| EUnsigned d n : (d < MAX_DEPTH)%nat -> 0 <= n <= i64_max -> encodable d (Value.Unsigned n)
| ESigned d n : (d < MAX_DEPTH)%nat -> is_i64 n -> encodable d (Value.Signed n)
| EScalar d v : canonical d v -> normalize v = v -> encodable d v
| EArray d items : (d < MAX_DEPTH)%nat -> Z.of_nat (length items) <= MAX_COLLECTION_LEN ->
    Forall (encodable (S d)) items -> encodable d (Value.Array items)
| EMap d entries : (d < MAX_DEPTH)%nat -> Z.of_nat (length entries) <= MAX_COLLECTION_LEN ->
    NoDup (entries.*1) -> Forall (fun e => str_ok e.1 /\ Z.of_nat (length e.1) <= i64_max) entries ->
    Forall (fun e => encodable (S d) e.2) entries -> encodable d (Value.Map entries).

Lemma encodable_normalize d v : encodable d v -> canonical d (normalize v) /\ finite_floats v = true.
Proof.
  revert d. induction v as [n|n|bits|b| |s|b|c|l IH|l IH] using Value_ind'; intros d He;
    inversion He as [|? ? Hd Hn|? ? Hc Hno|? ? Hd Hl Hi|? ? Hd Hl Hnd Hk Hi]; subst;
    try (rewrite Hno; split; [done|by eapply canonical_normal]); cbn [normalize finite_floats].
  - split; [by constructor|done].
  - unfold is_i64 in Hn. split; [|done]. destruct (0 <=? n) eqn:?; constructor; try done; [|lia].
    unfold as_u64, i64_max. rewrite Z.mod_small; lia.
  - assert (HI : Forall (fun v => canonical (S d) (normalize v) /\ finite_floats v = true) l)
      by (rewrite Forall_forall in *; eauto).
    split; [constructor; [done|by rewrite length_map|]|apply forallb_Forall].
    + apply Forall_fmap. eapply Forall_impl; [exact HI|]. by intros ? [].
    + eapply Forall_impl; [exact HI|]. by intros ? [].
  - assert (HI : Forall (fun e => canonical (S d) (normalize e.2) /\ finite_floats e.2 = true) l)
      by (rewrite Forall_forall in *; eauto).
    split; [|apply forallb_Forall; eapply Forall_impl; [exact HI|]; by intros ? []].
    rewrite sort_by_key_fmap. rewrite <- (sort_by_key_perm l) in Hk, HI.
    assert (Hks : keys_sorted (sort_by_key l)).
    { apply sort_by_key_keys; [|done]. rewrite (sort_by_key_perm l) in Hk.
      eapply Forall_impl; [exact Hk|]. by intros ? [[] _]. }
    constructor; [done|by rewrite length_map, sort_by_key_length| | |].
    + unfold keys_sorted in *. by rewrite <- list_fmap_compose.
    + apply Forall_fmap. exact Hk.
    + apply Forall_fmap. eapply Forall_impl; [exact HI|]. by intros ? [].
Qed.

(** Encoding and decoding returns the value in normal form: its maps in key
    order and its non-negative integers unsigned. *)
Theorem cbor_roundtrip v : encodable 0 v -> Z.of_nat (length (enc (normalize v))) <= i64_max ->
  exists data, encode_value v = Ok data /\ cbor_decode data = Ok (normalize v).
Proof.
  intros [Hc Hf]%encodable_normalize Hl. exists (enc (normalize v)).
  rewrite encode_value_eq, Hf. split; [done|]. apply cbor_decode_Ok; [by eapply enc_u8|done|done].
Qed.
End Theorems.

(** ** Safety *)

Section Safety.
Context `{Simdutf8}.
Variable buf : bytes.

(** The position is between a start and the end of the buffer, and the depth
    is not above its start. *)
Definition inside (p d : nat) (s : Decoder) : Prop :=
  (p <= pos s <= length buf)%nat /\ (d <= depth s)%nat.

Abbreviation safely p d m := (safe (inside p d) m (fun _ => True)).

Lemma safe_read_byte p d : safely p d (read_byte buf).
Proof.
  intros s [Hp Hd]. unfold read_byte. destruct (_ <=? _)%nat eqn:?; [done|].
  destruct (lookup_lt_is_Some_2 buf (pos s)) as [b ->]; [lia|]. split; [|done]. split; cbn; [lia|done].
Qed.

Lemma safe_read_fixed p d n : safely p d (read_fixed buf n).
Proof.
  intros s [Hp Hd]. unfold read_fixed. destruct (_ <? _)%nat eqn:?; [done|].
  split; [|done]. split; cbn; [lia|done].
Qed.

Lemma safe_read_slice p d len : 0 <= len -> safely p d (read_slice buf len).
Proof.
  intros Hlen s [Hp Hd]. unfold read_slice. destruct (_ <? _) eqn:?; [done|].
  destruct (Z.of_nat (length buf) <? _) eqn:?; [done|]. rewrite slice_Ok by lia.
  split; [|done]. split; cbn; [lia|done].
Qed.

Lemma safe_read_argument p d a : 0 <= a -> safe (inside p d) (read_argument buf a) (fun n => 0 <= n).
Proof.
  intros Ha. unfold read_argument. destruct (in_range 0 23 a); [by apply safe_ret|].
  assert (Hfix : forall w lo e, 0 <= lo -> safe (inside p d)
    (b ← read_fixed buf w; if be_value b <=? lo then fail (e (be_value b) : CborError) else mret (be_value b)) (fun n => 0 <= n)).
  { intros w lo e Hlo. eapply safe_bind; [apply safe_read_fixed|]. intros b _.
    apply safe_if_fail. intros Hle. apply safe_ret. lia. }
  destruct (a =? 24).
  { eapply safe_bind; [apply safe_read_byte|]. intros b _. apply safe_if_fail. intros. apply safe_ret. lia. }
  destruct (a =? 25); [by apply Hfix|]. destruct (a =? 26); [by apply Hfix|]. destruct (a =? 27); [by apply Hfix|].
  destruct (in_range 28 30 a); [apply safe_fail|]. destruct (a =? 31); apply safe_fail.
Qed.

Lemma safe_to_usize p d n : 0 <= n -> safe (inside p d) (to_usize n) (fun m => 0 <= m).
Proof.
  intros Hn. apply safe_lift; [apply no_panic_ok_or|]. intros a Ha%ok_or_Ok.
  unfold usize_try_from in Ha. destruct (_ <=? _); naive_solver.
Qed.

(** Chains of reads, leaf by leaf. *)
Ltac safe_step :=
  match goal with
  | |- safe _ (read_byte _ ≫= _) _ => eapply safe_bind; [apply safe_read_byte|intros ? _]
  | |- safe _ (read_argument _ _ ≫= _) _ =>
      eapply safe_bind; [apply safe_read_argument; apply Z.land_nonneg; right; lia|intros ? ?; cbn beta in *]
  | |- safe _ (to_usize _ ≫= _) _ => eapply safe_bind; [by apply safe_to_usize|intros ? ?; cbn beta in *]
  | |- safe _ (read_slice _ _ ≫= _) _ => eapply safe_bind; [by apply safe_read_slice|intros ? _]
  | |- safe _ (read_slice _ _) _ => by apply safe_read_slice
  | |- safe _ (if _ then fail _ else _) _ => apply safe_if_fail; intros ?
  | |- safe _ (mret _) _ => by apply safe_ret
  | |- safe _ (fail _) _ => apply safe_fail
  end.

Lemma safe_read_string p d a : 0 <= a -> safely p d (read_string buf a).
Proof. intros Ha. unfold read_string. eapply safe_bind; [by apply safe_read_argument|intros n Hn]. repeat safe_step. Qed.

Lemma safe_collection_len p d a e : 0 <= a -> safely p d (collection_len buf a e).
Proof.
  intros Ha. unfold collection_len. eapply safe_bind; [by apply safe_read_argument|intros n Hn]. repeat safe_step.
Qed.

Lemma safe_read_tag42_body p d : safely p d (read_tag42_body buf).
Proof.
  unfold read_tag42_body. repeat safe_step.
  apply safe_lift; [apply from_tag42_bytes_no_panic|done].
Qed.

Lemma safe_from_utf8 p d b : safely p d (from_utf8 b).
Proof. unfold from_utf8. destruct (simd_utf8 b); [by apply safe_ret|apply safe_fail]. Qed.

Lemma safe_read_map_key_bytes p d prev : safely p d (read_map_key_bytes buf prev).
Proof.
  intros s [Hp Hd]. unfold read_map_key_bytes. rewrite (st_bind_run _ _ _ (pos s) s) by done.
  match goal with |- match ?m s with _ => _ end => assert (Hrest : safely (pos s) (depth s) m) end.
  { repeat safe_step. eapply (safe_bind _ _ _ (fun e => pos s <= e <= length buf)%nat).
    { intros s' [Hs' Hd']. done. }
    intros e He. eapply safe_bind.
    { apply (safe_lift _ _ (fun _ => True)); [|done]. rewrite slice_Ok by lia. done. }
    intros k _. case_match; repeat safe_step. }
  specialize (Hrest s ltac:(unfold inside; lia)). unfold inside in *.
  match type of Hrest with match ?x with _ => _ end => destruct x as [[]] end;
    [split; [lia|done]|lia|done].
Qed.

Lemma safe_read_map_key p d prev : safely p d (read_map_key buf prev).
Proof.
  unfold read_map_key. eapply safe_bind; [apply safe_read_map_key_bytes|]. intros k _.
  eapply safe_bind; [apply safe_from_utf8|]. intros b _. safe_step.
Qed.

Lemma safe_read_entries p d m n prev : safely p d m -> safely p d (read_entries buf m n prev).
Proof.
  intros Hm. revert prev. induction n as [|n IH]; intros prev; cbn [read_entries]; [safe_step|].
  eapply safe_bind; [apply safe_read_map_key|]. intros k _. eapply safe_bind; [done|]. intros v _.
  eapply safe_bind; [apply IH|]. intros l _. safe_step.
Qed.

(** Between [descend] and [ascend] the depth is one more. *)
Lemma safe_nested {A B} p d (m : st Decoder CborError A) (k : A -> B) :
  safely p (S d) m -> safely p d (_ ← descend; a ← m; _ ← ascend; mret (k a)).
Proof.
  intros Hm s [Hp Hd]. rewrite (st_bind_run _ _ _ () (set_depth s (S (depth s)))) by done.
  specialize (Hm (set_depth s (S (depth s)))). unfold mbind, st_bind, inside in *. cbn [pos depth set_depth] in Hm.
  destruct (m _) as [[a| |] s1]; cbn; lia || (apply Hm; lia).
Qed.

Lemma safe_ext {A} p d (m m' : st Decoder CborError A) Q :
  (forall s, m s = m' s) -> safe (inside p d) m Q -> safe (inside p d) m' Q.
Proof. intros He Hm s Hs. specialize (Hm s Hs). by rewrite He in Hm. Qed.

Lemma safe_decode_major p d rec major a : 0 <= a -> safely p (S d) rec ->
  safely p d (decode_major buf rec major a).
Proof.
  intros Ha Hrec. unfold decode_major.
  destruct (major =? 0); [eapply safe_bind; [by apply safe_read_argument|]; intros n Hn; repeat safe_step|].
  destruct (major =? 1).
  { eapply safe_bind; [by apply safe_read_argument|]. intros n Hn. destruct (_ <=? _); safe_step. }
  destruct (major =? 2); [eapply safe_bind; [by apply safe_read_string|]; intros; safe_step|].
  destruct (major =? 3).
  { eapply safe_bind; [by apply safe_read_string|]. intros b _.
    eapply safe_bind; [apply safe_from_utf8|]. intros t _. safe_step. }
  destruct (major =? 4).
  { eapply safe_bind; [by apply safe_collection_len|]. intros n _. apply safe_nested.
    eapply safe_weaken; [by apply safe_replicate_m|done]. }
  destruct (major =? 5).
  { eapply safe_ext; [|apply (safe_nested p d
      (n ← collection_len buf a "map length exceeds maximum"; read_entries buf rec n []) Value.Map)].
    - intros s. rewrite !(st_bind_run _ _ _ () (set_depth s (S (depth s)))) by done. apply st_bind_assoc.
    - eapply safe_bind; [by apply safe_collection_len|]. intros n _. by apply safe_read_entries. }
  destruct (major =? 6).
  { eapply safe_bind; [by apply safe_read_argument|]. intros n Hn. safe_step.
    eapply safe_bind; [apply safe_read_tag42_body|]. intros c _. safe_step. }
  destruct (major =? 7); [|safe_step]. unfold read_simple.
  destruct (a =? 20); [safe_step|]. destruct (a =? 21); [safe_step|]. destruct (a =? 22); [safe_step|].
  destruct (a =? 24); [safe_step|]. destruct (a =? 25); [safe_step|]. destruct (a =? 26); [safe_step|].
  destruct (a =? 27); [|destruct (a =? 31); safe_step].
  eapply safe_bind; [apply safe_read_fixed|]. intros b _. repeat safe_step.
Qed.

Lemma safe_decode_fuel fuel p d : (0 < fuel)%nat -> (MAX_DEPTH < fuel + d)%nat ->
  safely p d (decode_fuel buf fuel).
Proof.
  revert d. induction fuel as [|fuel IH]; intros d Hf Hd; [lia|].
  intros s Hs. cbn [decode_fuel]. unfold decode_body. rewrite (st_bind_run _ _ _ (depth s) s) by done.
  destruct (MAX_DEPTH <=? depth s)%nat eqn:Hmax; [done|].
  assert (Hbody : safely p d (b ← read_byte buf; decode_major buf (decode_fuel buf fuel) (Z.shiftr b 5) (Z.land b 0x1f))).
  { eapply safe_bind; [apply safe_read_byte|]. intros b _.
    apply safe_decode_major; [apply Z.land_nonneg; right; lia|]. apply IH; destruct Hs; lia. }
  by apply Hbody.
Qed.

Lemma safe_decode s : (pos s <= length buf)%nat ->
  match decode buf s with
  | (Panic, _) => False
  | (_, s') => (pos s <= pos s' <= length buf)%nat /\ (depth s <= depth s')%nat
  end.
Proof.
  intros Hp. pose proof (safe_decode_fuel (S (MAX_DEPTH - depth s)) (pos s) (depth s) ltac:(lia) ltac:(lia) s) as Hs.
  unfold decode, inside in *. specialize (Hs ltac:(lia)). destruct (decode_fuel _ _ s) as [[]]; naive_solver.
Qed.
End Safety.

(** The decoder is total and safe on arbitrary input: from any position in
    the buffer and at any depth it never reads outside the buffer, the
    recursion stays within the depth limit, and it never moves back. When it
    succeeds it restores the depth; a failure may leave it higher, never
    lower. *)
Theorem decode_safe `{Simdutf8Laws} buf s : Forall is_u8 buf -> Z.of_nat (length buf) <= i64_max ->
  (pos s <= length buf)%nat ->
  match decode buf s with
  | (Ok v, s') =>
      (pos s < pos s' <= length buf)%nat /\ depth s' = depth s /\ (depth s < MAX_DEPTH)%nat /\
      canonical (depth s) v
  | (Err _, s') => (pos s <= pos s' <= length buf)%nat /\ (depth s <= depth s')%nat
  | (Panic, _) => False
  end.
Proof.
  intros Hu Hl Hp. pose proof (safe_decode buf s Hp) as Hs. destruct s as [p d]. cbn [pos depth] in *.
  pose proof (decode_decodes buf Hu Hl d p) as Hd.
  destruct (decode buf _) as [[v| |] s'] eqn:He; [|done..].
  destruct (proj1 (Hd v s' Hp) eq_refl) as (Hc & Hat & ->). cbn [pos depth] in *.
  assert (1 <= length (enc v))%nat.
  { assert (Hne : enc v <> []); [|destruct (enc v); [done|cbn; lia]].
    intros Hnil. apply (f_equal length) in Hnil. revert Hnil. clear -Hc.
    assert (Hh : forall m n r, is_u64 n -> 0 <= m < 8 -> length (head m n ++ r) <> 0%nat)
      by (intros; rewrite length_app, head_length by done; lia).
    destruct Hc; cbn [enc]; try done; try (apply Hh; [apply len_u64_range|lia]).
    - rewrite <- (app_nil_r (head _ _)). apply Hh; [unfold is_u64, i64_max in *; lia|lia].
    - destruct (0 <=? n); rewrite <- (app_nil_r (head _ _)); (apply Hh; [apply as_u64_range|lia]). }
  split_and!; try lia; [by eapply canonical_depth|done].
Qed.

(** ** At a concrete input *)

#[local] Existing Instances simd_ref simd_ref_laws.

(** [{"a": [1, null]}] *)
Definition sample_value : Value := Value.Map [(b# "a", Value.Array [Value.Unsigned 1; Value.Null])].
Definition sample_data : bytes := [0xa1; 0x61; 0x61; 0x82; 0x01; 0xf6].

Example cbor_decode_canonical_witness : canonical 0 sample_value /\ encode_value sample_value = Ok sample_data.
Proof.
  apply (cbor_decode_canonical sample_data sample_value); [by apply u8_literal|done|reflexivity].
Defined.

Example cbor_roundtrip_witness :
  exists data, encode_value (Value.Map [(b# "bb", Value.Signed 1); (b# "a", Value.Null)]) = Ok data /\
    cbor_decode data = Ok (Value.Map [(b# "a", Value.Null); (b# "bb", Value.Unsigned 1)]).
Proof.
  apply (cbor_roundtrip (Value.Map [(b# "bb", Value.Signed 1); (b# "a", Value.Null)])); [|done].
  assert (Hd : forall d, (d <= 1)%nat -> (d < MAX_DEPTH)%nat) by (unfold MAX_DEPTH; lia).
  constructor; [by apply Hd; lia|done| | |].
  - by apply (bool_decide_unpack _); vm_compute.
  - repeat constructor; try done; by apply u8_literal.
  - constructor; [constructor; [by apply Hd|done]|constructor; [|done]].
    constructor; [constructor; by apply Hd|done].
Defined.

Example decode_safe_witness : canonical 0 sample_value.
Proof.
  pose proof (decode_safe sample_data new ltac:(by apply u8_literal) ltac:(done) ltac:(cbn; lia)) as H.
  vm_compute in H. exact (proj2 (proj2 (proj2 H))).
Defined.
