(* ===== verification/CborShallow.v ===== *)
(** The two other ways to read a value of [src/src/cbor/decode.rs]: shallow
    decoding, where the caller reads the items itself, and [MapEntries],
    which lends the decoder to typed field readers. Both accept what
    [Decoder::decode] accepts. *)
From S2P Require Import Prelude StateError SyntaxError CborError Cid CborValue CborEncode CborDecode CborCodec.

Section Shallow.
Context `{Simdutf8Laws}.
Variable buf : bytes.

Abbreviation dec := (st Decoder CborError).

(** ** The caller of [decode_shallow] *)

Fixpoint read_entries_utf8 (rec : dec Value) (n : nat) (prev : bytes) : dec (list (bytes * Value)) :=
  match n with
  | O => mret []
  | S n' =>
      k ← read_map_key_utf8 buf prev;
      value ← rec;
      l ← read_entries_utf8 rec n' k.2;
      mret ((k.1, value) :: l)
  end.

(** The documented protocol: read each item (a map key with
    [read_map_key_utf8], then a value), then [leave]. *)
Fixpoint decode_items (fuel : nat) : dec Value :=
  match fuel with
  | O => panic
  | S fuel' =>
      v ← decode_shallow buf;
      match v with
      | ShallowText t => mret (Value.Text t)
      | ShallowArray len =>
          items ← replicate_m len (decode_items fuel'); _ ← leave; mret (Value.Array items)
      | ShallowMap len =>
          entries ← read_entries_utf8 (decode_items fuel') len []; _ ← leave; mret (Value.Map entries)
      | Scalar v => mret v
      end
  end.

(** ** Two readers with the same outcome

    The same value in the same state, or the same error at the same place
    (the depth a failed read leaves may differ). *)
Definition same {A} (m m' : dec A) : Prop := forall s,
  match m s, m' s with
  | (Ok a, s1), (Ok b, s2) => a = b /\ s1 = s2
  | (Err e, s1), (Err f, s2) => e = f /\ pos s1 = pos s2
  | (Panic, _), (Panic, _) => True
  | _, _ => False
  end.

Lemma same_refl {A} (m : dec A) : same m m.
Proof. intros s. by destruct (m s) as [[]]. Qed.

Lemma same_bind {A B} (m m' : dec A) (f f' : A -> dec B) :
  same m m' -> (forall a, same (f a) (f' a)) -> same (m ≫= f) (m' ≫= f').
Proof.
  intros Hm Hf s. specialize (Hm s). unfold mbind, st_bind.
  destruct (m s) as [[a| |] s1], (m' s) as [[b| |] s2]; try done.
  destruct Hm as [-> ->]. apply Hf.
Qed.

Lemma same_eq_l {A} (m m1 m' : dec A) : (forall s, m s = m1 s) -> same m1 m' -> same m m'.
Proof. intros He Hs s. rewrite He. apply Hs. Qed.

Lemma utf8_eq b : same (lift (utf8 b)) (from_utf8 b).
Proof.
  intros s. unfold lift, utf8, from_utf8. rewrite simd_utf8_valid.
  destruct (forallb is_ascii b) eqn:Ha; cbn [orb].
  - rewrite utf8_valid_ascii by (by apply forallb_Forall). by split.
  - destruct (utf8_valid b); by split.
Qed.

Lemma same_map_key prev : same (read_map_key_utf8 buf prev) (read_map_key buf prev).
Proof.
  apply same_bind; [apply same_refl|]. intros k. apply same_bind; [apply utf8_eq|]. intros. apply same_refl.
Qed.

Lemma same_entries m m' n prev : same m m' -> same (read_entries_utf8 m n prev) (read_entries buf m' n prev).
Proof.
  intros Hm. revert prev. induction n as [|n IH]; intros prev; cbn; [apply same_refl|].
  apply same_bind; [apply same_map_key|]. intros k. apply same_bind; [done|]. intros v.
  apply same_bind; [apply IH|]. intros. apply same_refl.
Qed.

Lemma same_replicate {A} (m m' : dec A) n : same m m' -> same (replicate_m n m) (replicate_m n m').
Proof.
  intros Hm. induction n as [|n IH]; cbn; [apply same_refl|]. apply same_bind; [done|]. intros a.
  apply same_bind; [done|]. intros. apply same_refl.
Qed.

(** ** Reads that do not touch the depth *)

Definition frames {A} (m : dec A) : Prop :=
  forall s d, m (set_depth s d) = let '(r, s') := m s in (r, set_depth s' d).

Lemma frames_bind {A B} (m : dec A) (f : A -> dec B) :
  frames m -> (forall a, frames (f a)) -> frames (m ≫= f).
Proof.
  intros Hm Hf s d. unfold mbind, st_bind. rewrite Hm. destruct (m s) as [[a| |] s1]; [apply Hf|done..].
Qed.

Lemma frames_ret {A} (a : A) : frames (mret a).
Proof. done. Qed.

Lemma frames_fail {A} e : frames (A:=A) (fail e).
Proof. done. Qed.

Lemma frames_read_byte : frames (read_byte buf).
Proof. intros s d. unfold read_byte. cbn. destruct (_ <=? _)%nat; [done|]. by destruct (buf !! pos s). Qed.

Lemma frames_read_fixed n : frames (read_fixed buf n).
Proof. intros s d. unfold read_fixed. cbn. by destruct (_ <? _)%nat. Qed.

Lemma frames_read_argument a : frames (read_argument buf a).
Proof.
  unfold read_argument.
  repeat match goal with
  | |- frames (if ?b then _ else _) => destruct b
  | |- frames (_ ≫= _) => apply frames_bind; [apply frames_read_byte || apply frames_read_fixed|intros ?]
  | |- frames (mret _) => apply frames_ret
  | |- frames (fail _) => apply frames_fail
  end.
Qed.

Lemma frames_collection_len a e : frames (collection_len buf a e).
Proof.
  unfold collection_len. apply frames_bind; [apply frames_read_argument|]. intros n.
  apply frames_bind; [by intros s d|]. intros m. destruct (_ <? _); done.
Qed.

(** Entering a map after its length is read, or before. *)
Lemma same_enter {B} (m : dec nat) (f f' : nat -> dec B) :
  frames m -> (forall n, same (f n) (f' n)) ->
  same (n ← m; _ ← descend; f n) (_ ← descend; n ← m; f' n).
Proof.
  intros Hm Hf s. unfold mbind, st_bind, descend, modify. rewrite Hm.
  destruct (m s) as [[n|e|] s1] eqn:Hms; [|by split|done].
  assert (depth s1 = depth s) as ->; [|apply Hf].
  pose proof (Hm s (depth s)) as Hd. unfold set_depth in Hd at 1. destruct s as [p d]. cbn [pos depth] in *.
  rewrite Hms in Hd. injection Hd as ->. done.
Qed.

(** ** Shallow decoding *)

Lemma in_range_text b : is_u8 b -> in_range 0x60 0xbf b = true <-> 3 <= Z.shiftr b 5 <= 5.
Proof.
  intros Hb. unfold in_range. destruct (byte_split b Hb) as (He & Hm & Hi).
  lia.
Qed.

Hypothesis buf_u8 : Forall is_u8 buf.

Lemma same_shallow_major rec rec' b : is_u8 b -> 3 <= Z.shiftr b 5 <= 5 -> same rec rec' ->
  same (v ← (let additional := Z.land b 0x1f in
             if Z.shiftr b 5 =? 3 then b ← read_string buf additional; t ← lift (utf8 b); mret (ShallowText t)
             else if Z.shiftr b 5 =? 4 then
               len ← enter buf additional "array length exceeds maximum"; mret (ShallowArray len)
             else len ← enter buf additional "map length exceeds maximum"; mret (ShallowMap len));
        match v with
        | ShallowText t => mret (Value.Text t)
        | ShallowArray len => items ← replicate_m len rec; _ ← leave; mret (Value.Array items)
        | ShallowMap len => entries ← read_entries_utf8 rec len []; _ ← leave; mret (Value.Map entries)
        | Scalar v => mret v
        end)
    (decode_major buf rec' (Z.shiftr b 5) (Z.land b 0x1f)).
Proof.
  intros Hb Hm Hrec. assert (Hc : Z.shiftr b 5 = 3 \/ Z.shiftr b 5 = 4 \/ Z.shiftr b 5 = 5) by lia.
  destruct Hc as [->|[->| ->]]; cbn [Z.eqb Pos.eqb decode_major]; cbv zeta.
  - eapply same_eq_l; [intros s; apply st_bind_assoc|]. apply same_bind; [apply same_refl|]. intros t.
    eapply same_eq_l; [intros s; apply st_bind_assoc|]. apply same_bind; [apply utf8_eq|]. intros u.
    apply same_refl.
  - eapply same_eq_l; [intros s; apply st_bind_assoc|]. unfold enter.
    eapply same_eq_l; [intros s; apply st_bind_assoc|]. apply same_bind; [apply same_refl|]. intros n.
    eapply same_eq_l; [intros s; apply st_bind_assoc|]. apply same_bind; [apply same_refl|]. intros [].
    apply (same_bind (A:=list Value)); [by apply same_replicate|]. intros l. apply same_refl.
  - eapply same_eq_l; [intros s; apply st_bind_assoc|]. unfold enter.
    eapply same_eq_l; [intros s; apply st_bind_assoc|].
    eapply same_eq_l; [|apply (same_enter _ (fun n => entries ← read_entries_utf8 rec n []; _ ← leave; mret (Value.Map entries)));
      [apply frames_collection_len|]].
    + intros s. unfold mbind, st_bind. by destruct (collection_len buf _ _ s) as [[]].
    + intros n. apply (same_bind (A:=list (bytes * Value))); [by apply same_entries|]. intros l. apply same_refl.
Qed.

(** Whether [decode_shallow] reads the head itself. *)
Definition shallow_head (s : Decoder) : bool :=
  match buf !! pos s with
  | Some b => in_range 0x60 0xbf b && (depth s <? MAX_DEPTH)%nat
  | None => false
  end.

Lemma decode_body_scalar rec rec' s : shallow_head s = false -> decode_body buf rec s = decode_body buf rec' s.
Proof.
  unfold shallow_head, decode_body. intros Hs. rewrite !(st_bind_run _ _ _ (depth s) s) by done.
  destruct (MAX_DEPTH <=? depth s)%nat eqn:Hd; [done|]. unfold mbind, st_bind, read_byte.
  destruct (length buf <=? pos s)%nat; [done|]. destruct (buf !! pos s) as [b|] eqn:Hb; [|reflexivity].
  assert (Hu : is_u8 b) by (rewrite Forall_lookup in buf_u8; eauto).
  replace (depth s <? MAX_DEPTH)%nat with true in Hs by lia. rewrite andb_true_r in Hs.
  assert (Hn : ~ 3 <= Z.shiftr b 5 <= 5) by (rewrite <- in_range_text by done; congruence).
  unfold decode_major. replace (Z.shiftr b 5 =? 4) with false by lia.
  by replace (Z.shiftr b 5 =? 5) with false by lia.
Qed.

Lemma decode_items_same fuel : same (decode_items fuel) (decode_fuel buf fuel).
Proof.
  induction fuel as [|fuel IH]; [by intros s|]. intros s. cbn [decode_items decode_fuel].
  destruct (shallow_head s) eqn:Hs.
  - unfold shallow_head in Hs. destruct (buf !! pos s) as [b|] eqn:Hb; [|done].
    assert (Hu : is_u8 b) by (rewrite Forall_lookup in buf_u8; eauto).
    pose proof Hs as [Hr Hd]%andb_true_iff. apply in_range_text in Hr; [|done].
    pose proof (same_shallow_major _ _ b Hu Hr IH (set_pos s (S (pos s)))) as Hsame.
    unfold decode_body. rewrite (st_bind_run _ _ _ (depth s) s) by done.
    replace (MAX_DEPTH <=? depth s)%nat with false by lia.
    rewrite (st_bind_run (read_byte buf) _ s b (set_pos s (S (pos s)))).
    2:{ unfold read_byte. rewrite Hb. apply lookup_lt_Some in Hb. by replace (_ <=? _)%nat with false by lia. }
    set (rest := decode_major _ _ _ _ _) in *. unfold mbind, st_bind, decode_shallow in *. rewrite Hb, Hs.
    exact Hsame.
  - assert (He : (decode_shallow buf s) = (v ← decode buf; mret (Scalar v)) s).
    { unfold decode_shallow, shallow_head in *. destruct (buf !! pos s); [by rewrite Hs|done]. }
    unfold mbind, st_bind in *. rewrite He. unfold decode. cbn [decode_fuel].
    rewrite (decode_body_scalar _ (decode_fuel buf fuel) s Hs).
    destruct (decode_body buf _ s) as [[v| |] s1]; by split.
Qed.

(** A caller that follows the protocol of [decode_shallow] (reads as many
    items as the array or map announces, then leaves it) reads the value that
    [decode] reads and ends in the same state, or gets the same error at the
    same position. *)
Theorem decode_shallow_spec s :
  match decode_items (S (MAX_DEPTH - depth s)) s, decode buf s with
  | (Ok a, s1), (Ok b, s2) => a = b /\ s1 = s2
  | (Err e, s1), (Err f, s2) => e = f /\ pos s1 = pos s2
  | (Panic, _), (Panic, _) => True
  | _, _ => False
  end.
Proof. apply decode_items_same. Qed.
End Shallow.

#[local] Existing Instances simd_ref simd_ref_laws.

Example decode_shallow_spec_witness :
  (decode_items [0xa1; 0x61; 0x61; 0x82; 0x01; 0xf6] 65 new).1 =
    Ok (Value.Map [(b# "a", Value.Array [Value.Unsigned 1; Value.Null])]).
Proof.
  pose proof (decode_shallow_spec [0xa1; 0x61; 0x61; 0x82; 0x01; 0xf6] ltac:(by apply u8_literal) new) as H.
  vm_compute in H. destruct H as [H _]. vm_compute. exact (f_equal Ok H).
Defined.
