(* ===== verification/CborMapEntries.v ===== *)
(** [MapEntries] of [src/src/cbor/decode.rs]: the iterator that lends the
    decoder to the typed field readers of generated code. *)
From S2P Require Import Prelude StateError SyntaxError CborError Cid CborValue CborEncode CborDecode CborCodec CborShallow.

Record MapEntries := MkMapEntries { parent_depth : nat; remaining : nat; previous : bytes }.

(** The iterator and the decoder it borrows. *)
Definition Lent : Type := MapEntries * Decoder.

Section MapEntries.
Context `{Simdutf8} (buf : bytes).

Abbreviation dec := (st Decoder CborError).

Definition map_entries : dec MapEntries :=
  d ← gets depth;
  if (MAX_DEPTH <=? d)%nat then fail (invalid_cbor "maximum nesting depth exceeded")
  else
    byte ← read_byte buf;
    if negb (Z.shiftr byte 5 =? 5) then fail (invalid_cbor "expected map")
    else
      len ← read_argument buf (Z.land byte 0x1f);
      if MAX_COLLECTION_LEN <? len then fail (invalid_cbor "map length exceeds maximum")
      else
        parent ← gets depth;
        _ ← descend;
        mret (MkMapEntries parent (Z.to_nat len) []).

(** [read_key(&mut self.previous).and_then(|key| decode(key, self.decoder))].
    A key that is refused leaves [previous] as it is: [remaining] becomes 0,
    and [previous] is not read again. *)
Definition next_of {T} (read_key : bytes -> dec (bytes * bytes)) (decode : bytes -> dec T) (l : Lent) :
    option (res CborError T) * Lent :=
  let '(e, s) := l in
  if (remaining e =? 0)%nat then (None, l)
  else
    let rest := (remaining e - 1)%nat in
    match read_key (previous e) s with
    | (Ok (key, encoded), s) =>
        match decode key s with
        | (Ok t, s) => (Some (Ok t), (MkMapEntries (parent_depth e) rest encoded, s))
        | (Err err, s) => (Some (Err err), (MkMapEntries (parent_depth e) 0 encoded, s))
        | (Panic, s) => (Some Panic, (MkMapEntries (parent_depth e) 0 encoded, s))
        end
    | (Err err, s) => (Some (Err err), (MkMapEntries (parent_depth e) 0 (previous e), s))
    | (Panic, s) => (Some Panic, (MkMapEntries (parent_depth e) 0 (previous e), s))
    end.

Definition next_raw {T} (decode : bytes -> dec T) : Lent -> option (res CborError T) * Lent :=
  next_of (read_map_key_bytes buf) decode.

Definition next_with {T} (decode : bytes -> dec T) : Lent -> option (res CborError T) * Lent :=
  next_of (read_map_key buf) decode.

(** [Iterator::next] *)
Definition next (l : Lent) : option (res CborError (bytes * Value)) * Lent :=
  next_with (fun key => v ← decode buf; mret (key, v)) l.

Definition try_field (encoded : bytes) (decode : dec ()) (l : Lent) : res CborError bool * Lent :=
  let '(e, s) := l in
  if (remaining e =? 0)%nat || negb (starts_with encoded (drop (pos s) buf)) then (Ok false, l)
  else if negb (bool_decide (previous e = [])) && bytes_leb encoded (previous e) then
    (Err (invalid_cbor "duplicate or noncanonical map key"), l)
  else
    let s := set_pos s (pos s + length encoded) in
    match decode s with
    | (Ok _, s) => (Ok true, (MkMapEntries (parent_depth e) (remaining e - 1) encoded, s))
    | (Err err, s) => (Err err, (MkMapEntries (parent_depth e) 0 encoded, s))
    | (Panic, s) => (Panic, (MkMapEntries (parent_depth e) 0 encoded, s))
    end.

(** [Drop for MapEntries] *)
Definition drop_entries (l : Lent) : Decoder := set_depth l.2 (parent_depth l.1).

(** ** A caller: [for entry in decoder.map_entries()? { out.push(entry?) }]

    At most [remaining] entries are left, so the fuel is their number. *)
Fixpoint collect (fuel : nat) (l : Lent) : res CborError (list (bytes * Value)) * Lent :=
  match fuel with
  | O => (Ok [], l)
  | S fuel' =>
      match next l with
      | (None, l) => (Ok [], l)
      | (Some (Ok e), l) => let '(r, l) := collect fuel' l in (cons e <$> r, l)
      | (Some (Err err), l) => (Err err, l)
      | (Some Panic, l) => (Panic, l)
      end
  end.

Definition collect_entries : dec (list (bytes * Value)) := fun s =>
  match map_entries s with
  | (Ok e, s1) => let '(r, l) := collect (remaining e) (e, s1) in (r, drop_entries l)
  | (Err err, s1) => (Err err, s1)
  | (Panic, s1) => (Panic, s1)
  end.
End MapEntries.

Section Theorems.
Context `{Simdutf8Laws}.
Variable buf : bytes.
Hypothesis buf_u8 : Forall is_u8 buf.
Hypothesis buf_len : Z.of_nat (length buf) <= i64_max.

(** The iterator runs the loop of [decode]. *)
Lemma collect_read_entries n e s : remaining e = n ->
  match collect buf n (e, s), read_entries buf (decode buf) n (previous e) s with
  | (Ok l, (e', s1)), (Ok l', s2) => l = l' /\ s1 = s2 /\ parent_depth e' = parent_depth e
  | (Err err, (e', s1)), (Err err', s2) => err = err' /\ s1 = s2 /\ parent_depth e' = parent_depth e
  | (Panic, _), (Panic, _) => True
  | _, _ => False
  end.
Proof.
  revert e s. induction n as [|n IH]; intros e s Hr; [done|]. cbn [collect read_entries].
  unfold next, next_with, next_of. rewrite Hr. cbn [Nat.eqb Nat.sub]. unfold mbind, st_bind.
  destruct (read_map_key buf (previous e) s) as [[[k ke]| |] s1]; [|done..]. cbn [fst snd].
  destruct (decode buf s1) as [[v| |] s2]; [|done..]. cbn [fst snd].
  unfold mret, st_ret.
  rewrite Nat.sub_0_r. specialize (IH (MkMapEntries (parent_depth e) n ke) s2 eq_refl). cbn [previous parent_depth] in IH.
  destruct (collect buf n _) as [[l| |] [e' s3]], (read_entries buf _ n ke s2) as [[l'| |] s4];
    try done; cbn; naive_solver.
Qed.

Lemma collect_depth n l : parent_depth (collect buf n l).2.1 = parent_depth l.1.
Proof.
  revert l. induction n as [|n IH]; intros [e s]; [done|]. cbn [collect]. unfold next, next_with, next_of.
  destruct (remaining e =? 0)%nat; [done|].
  destruct (read_map_key _ _ _) as [[[k ke]| |] s1]; [|done..].
  destruct ((v ← decode buf; _) _) as [[v| |] s2]; [|done..].
  match goal with |- context [collect buf n ?l] => pose proof (IH l) as Hc; destruct (collect buf n l) as [r l'] end.
  done.
Qed.

Lemma map_entries_Ok p d e s1 :
  map_entries buf (MkDecoder p d) = (Ok e, s1) <->
  (d < MAX_DEPTH)%nat /\ exists n, Z.of_nat n <= MAX_COLLECTION_LEN /\ at_ buf p (head 5 (Z.of_nat n)) /\
    e = MkMapEntries d n [] /\ s1 = MkDecoder (p + length (head 5 (Z.of_nat n))) (S d).
Proof.
  unfold map_entries. rewrite (st_bind_run _ _ _ d (MkDecoder p d)) by done. rewrite st_if_fail_Ok. split.
  - intros [Hd Hrun]. split; [lia|].
    apply (read_head_byte buf buf_u8 buf_len) in Hrun as (b & Hb & He & Hm & Hi & Hp & [H5 Hrun]%st_if_fail_Ok).
    assert (Z.shiftr b 5 = 5) as E5 by lia. rewrite E5 in He.
    apply st_bind_Ok in Hrun as (n & s2 & Hn & [Hmax Hrun]%st_if_fail_Ok).
    apply (read_argument_Ok buf buf_u8 buf_len) in Hn as (Hn & Ei & Hat & ->); [|done..].
    injection Hrun as <- <-. exists (Z.to_nat n). unfold is_u64 in Hn. rewrite Z2Nat.id by lia.
    rewrite He, Ei in Hb. destruct (head_alone buf d 5 n p (MkDecoder (p + 1 + length (arg n)) d)) as [Hh Hs];
      [lia|done|done|done|done|].
    injection Hs as Hs. unfold arg in Hs. rewrite be_bytes_length in Hs.
    split_and!; [lia|done|done|]. unfold set_depth. cbn. f_equal. done.
  - intros (Hd & n & Hmax & Hat & -> & ->). split; [lia|].
    rewrite <- (app_nil_r (head 5 _)) in Hat. pose proof (len_nat_u64 buf n Hmax) as Hn.
    destruct (at_head_byte buf buf_u8 buf_len _ _ _ _ (ltac:(lia) : 0 <= 5 < 8) Hn Hat) as (b & Hb & Hmb & Hib & Hr & Hi & Hp).
    rewrite (st_bind_run _ _ _ b (MkDecoder (p + 1) d)) by (by apply read_byte_Ok).
    rewrite Hmb, Hib. cbn [Z.eqb Pos.eqb negb]. rewrite app_nil_r in Hr.
    rewrite (st_bind_run _ _ _ (Z.of_nat n) (MkDecoder (p + 1 + arg_width (Z.of_nat n)) d))
      by (by apply read_argument_Ok).
    replace (MAX_COLLECTION_LEN <? Z.of_nat n) with false by lia. unfold mbind, st_bind, descend, modify, gets. cbn.
    rewrite Nat2Z.id, head_length by (lia || done). do 2 f_equal. unfold set_depth. cbn. f_equal. lia.
Qed.

Lemma collect_entries_Ok p d l s' : (p <= length buf)%nat ->
  collect_entries buf (MkDecoder p d) = (Ok l, s') <-> decode buf (MkDecoder p d) = (Ok (Value.Map l), s').
Proof.
  intros Hp. rewrite (decode_decodes buf buf_u8 buf_len d p _ _ Hp).
  pose proof (decode_decodes buf buf_u8 buf_len (S d)) as Hrec. unfold collect_entries. split.
  - destruct (map_entries buf _) as [[e| |] s1] eqn:Hme; [|done..].
    apply map_entries_Ok in Hme as (Hd & n & Hmax & Hat & -> & ->). cbn [remaining].
    pose proof (collect_read_entries n (MkMapEntries d n []) (MkDecoder (p + length (head 5 (Z.of_nat n))) (S d)) eq_refl) as Hcol.
    destruct (collect buf n _) as [[l1| |] [e' s2]]; [|done..]. intros [= <- <-].
    destruct (read_entries _ _ _ _ _) as [[l2| |] s3] eqn:Hrd; [|done..]. destruct Hcol as (<- & -> & Hpd).
    pose proof (at_bound buf buf_u8 buf_len _ _ Hat).
    apply (read_entries_decodes buf buf_u8 buf_len _ _ _ _ _ _ _ Hrec) in Hrd as (<- & Hch & Hks & Hc & Hats & ->); [|lia].
    apply (chain_sorted buf) in Hch; [|done]. split; [by constructor|]. cbn [enc]. rewrite (len_u64_collection buf) by done.
    split; [by apply at_app|]. unfold drop_entries, set_depth. cbn [fst snd pos]. rewrite Hpd.
    cbn [parent_depth]. rewrite length_app. unfold entry_out. f_equal. lia.
  - intros (Hc & Hat & ->). inversion Hc as [| | | | | | | | |? ? Hd Hmax Hs Hk Hcs]; subst.
    cbn [enc] in *. rewrite (len_u64_collection buf) in * by done. apply at_app in Hat as [Hat Hats].
    assert (Hme : map_entries buf (MkDecoder p d) = (Ok (MkMapEntries d (length l) []),
      MkDecoder (p + length (head 5 (Z.of_nat (length l)))) (S d))) by (apply map_entries_Ok; eauto 10).
    rewrite Hme. cbn [remaining].
    pose proof (collect_read_entries (length l) (MkMapEntries d (length l) []) (MkDecoder (p + length (head 5 (Z.of_nat (length l)))) (S d)) eq_refl) as Hcol.
    pose proof (at_bound buf buf_u8 buf_len _ _ Hat). cbn [previous] in Hcol.
    rewrite (proj2 (read_entries_decodes buf buf_u8 buf_len _ (S d) (length l) [] (p + length (head 5 (Z.of_nat (length l)))) l
      (MkDecoder (p + length (head 5 (Z.of_nat (length l))) + length (concat (map (entry_out enc) l))) (S d)) Hrec ltac:(lia))) in Hcol.
    2:{ split_and!; try done. by apply (chain_sorted buf). }
    destruct (collect buf _ _) as [[l1| |] [e' s2]]; [|done..]. destruct Hcol as (-> & -> & Hpd).
    unfold drop_entries, set_depth. cbn [fst snd pos]. rewrite Hpd. cbn [parent_depth].
    rewrite length_app. unfold entry_out. do 2 f_equal. lia.
Qed.

(** Reading a map through the iterator gives the entries that [decode] gives
    and leaves the decoder where [decode] leaves it; whether an entry fails
    or not, dropping the iterator restores the depth. *)
Theorem map_entries_spec s : (pos s <= length buf)%nat ->
  (forall l s', collect_entries buf s = (Ok l, s') <-> decode buf s = (Ok (Value.Map l), s')) /\
  (forall e s1, map_entries buf s = (Ok e, s1) -> depth (collect_entries buf s).2 = depth s).
Proof.
  destruct s as [p d]. intros Hp. split; [intros l s'; by apply collect_entries_Ok|].
  intros e s1 Hme. unfold collect_entries. rewrite Hme.
  apply map_entries_Ok in Hme as (Hd & n & Hmax & Hat & -> & ->). cbn [remaining].
  match goal with |- context [collect buf n ?l] => pose proof (collect_depth n l) as Hc end.
  destruct (collect buf n _) as [r l]. cbn [fst snd parent_depth] in *. done.
Qed.
End Theorems.

#[local] Existing Instances simd_ref simd_ref_laws.

Example map_entries_spec_witness :
  collect_entries [0xa1; 0x61; 0x61; 0xf6] new = (Ok [(b# "a", Value.Null)], MkDecoder 4 0).
Proof.
  apply (map_entries_spec [0xa1; 0x61; 0x61; 0xf6] ltac:(by apply u8_literal) ltac:(vm_compute; congruence) new);
    [cbn; lia|reflexivity].
Defined.

(** ** Known fields *)

Lemma text_enc_nonempty k : text_enc k <> [].
Proof. unfold text_enc. rewrite head_eq by (lia || apply len_u64_range). done. Qed.

Section TryField.
Context `{Simdutf8Laws}.
Variable buf : bytes.
Hypothesis buf_u8 : Forall is_u8 buf.
Hypothesis buf_len : Z.of_nat (length buf) <= i64_max.

(** Text is self-delimiting. *)
Lemma text_enc_at_inj p k k' : at_ buf p (text_enc k) -> at_ buf p (text_enc k') -> k = k'.
Proof.
  intros H1 H2.
  pose proof (proj2 (read_map_key_bytes_Ok buf buf_u8 buf_len p 0 [] k _ _) (conj eq_refl (conj H1 (conj (or_introl eq_refl) eq_refl)))) as R1.
  pose proof (proj2 (read_map_key_bytes_Ok buf buf_u8 buf_len p 0 [] k' _ _) (conj eq_refl (conj H2 (conj (or_introl eq_refl) eq_refl)))) as R2.
  congruence.
Qed.

(** The fast path for a known key: when its complete encoding comes next and
    is in order, [try_field] does what [next_with] does on reading that key;
    when no entry is left or another key comes next it changes nothing; a
    known key out of order is an error for both. *)
Theorem try_field_spec k (f : st Decoder CborError ()) e s :
  str_ok k -> Z.of_nat (length k) <= i64_max ->
  let encoded := text_enc k in
  let hit := (0 < remaining e)%nat /\ starts_with encoded (drop (pos s) buf) = true in
  (~ hit -> try_field buf encoded f (e, s) = (Ok false, (e, s))) /\
  (hit -> match next_with buf (fun key => _ ← f; mret key) (e, s), try_field buf encoded f (e, s) with
          | (Some (Ok key), l), (Ok b, l') => key = k /\ b = true /\ l = l'
          | (Some (Err err), (e1, s1)), (Err err', (e2, s2)) =>
              after (previous e) k -> err = err' /\ e1 = e2 /\ s1 = s2
          | (Some Panic, _), (Panic, _) => True
          | _, _ => False
          end).
Proof.
  intros [Hku Hkv] Hkl encoded hit. unfold try_field, next_with, next_of, hit. split.
  { intros Hn. destruct (Nat.eqb_spec (remaining e) 0); cbn [orb]; [done|].
    destruct (starts_with _ _) eqn:Hs; [exfalso; apply Hn; split; [lia|done]|done]. }
  intros [Hr Hs]. rewrite Hs. replace (remaining e =? 0)%nat with false by lia. cbn [orb negb].
  destruct s as [p d]. cbn [pos] in *.
  assert (Hat : at_ buf p encoded).
  { apply starts_with_true in Hs as [rest Hrest]. exists (take p buf), rest.
    assert (Hp : (p <= length buf)%nat).
    { destruct (Nat.le_gt_cases p (length buf)); [done|]. rewrite drop_ge in Hrest by lia.
      exfalso. apply (text_enc_nonempty k). fold encoded. by destruct encoded. }
    split; [by rewrite <- Hrest, take_drop|rewrite length_take; lia]. }
  destruct (negb (bool_decide (previous e = [])) && bytes_leb encoded (previous e)) eqn:Hord.
  - (* out of order *)
    assert (Hnot : ~ after (previous e) k).
    { apply andb_true_iff in Hord as [Hp Hle]. apply negb_true_iff, bool_decide_eq_false in Hp.
      intros [?|Hlt]; [done|]. unfold bytes_leb in Hle. fold encoded in Hlt.
      apply bytes_cmp_Gt in Hlt. by rewrite Hlt in Hle. }
    destruct (read_map_key buf (previous e) _) as [[[k' ke]| |] s1] eqn:Hk.
    + apply (read_map_key_Ok buf buf_u8 buf_len) in Hk as (-> & _ & Hat' & Haft & ->).
      by rewrite (text_enc_at_inj p k' k) in Haft.
    + done.
    + pose proof (safe_read_map_key buf p d (previous e) (MkDecoder p d)) as Hsafe. rewrite Hk in Hsafe.
      apply Hsafe. pose proof (at_bound buf buf_u8 buf_len _ _ Hat). split; cbn; lia.
  - assert (Haft : after (previous e) k).
    { unfold after. fold encoded. apply andb_false_iff in Hord as [Hp|Hlt].
      - left. by apply negb_false_iff, bool_decide_eq_true in Hp.
      - right. unfold bytes_leb, bytes_lt in *. rewrite (bytes_cmp_antisym encoded). by destruct (bytes_cmp encoded _). }
    assert (Hk : read_map_key buf (previous e) (MkDecoder p d) = (Ok (k, encoded), MkDecoder (p + length encoded) d)).
    { apply (read_map_key_Ok buf buf_u8 buf_len). by split_and!. }
    rewrite Hk. unfold mbind, st_bind, set_pos. cbn [pos depth].
    destruct (f _) as [[[]| |] s1]; [by split_and!|by intros _; split_and!|done].
Qed.
End TryField.

Example try_field_spec_witness :
  try_field [0xa1; 0x61; 0x61; 0xf6] (text_enc (b# "a")) (mret ()) (MkMapEntries 0 1 [], MkDecoder 1 1) =
    (Ok true, (MkMapEntries 0 0 [0x61; 0x61], MkDecoder 3 1)).
Proof.
  pose proof (proj2 (try_field_spec [0xa1; 0x61; 0x61; 0xf6] ltac:(by apply u8_literal) ltac:(vm_compute; congruence)
    (b# "a") (mret ()) (MkMapEntries 0 1 []) (MkDecoder 1 1) ltac:(split; [by apply u8_literal|done])
    ltac:(vm_compute; congruence)) ltac:(cbn; split; [lia|reflexivity])) as H.
  vm_compute in H. vm_compute. destruct H as (_ & _ & H). reflexivity.
Defined.
