(* ===== verification/Car.v ===== *)
(** CAR v1 archives: the error type and the block of [src/src/car/mod.rs],
    and the framing that all readers share, from [src/src/car/reader.rs].

    The format of a CAR v1 archive as a grammar, which the writer produces
    and the three readers accept. *)
From S2P Require Import Prelude StateError SyntaxError CborError Varint Cid CborValue CborEncode CborDecode CborCodec.

(** [std::io::Error], by its kind. *)
Inductive IoError :=
| UnexpectedEof
| Interrupted
| OtherIo (m : ErrMsg).

Inductive CarError :=
| InvalidHeader (m : ErrMsg)
| InvalidBlock (m : ErrMsg)
| CarIo (e : IoError)
| Cbor (e : CborError).

Definition invalid_header (s : string) : CarError := InvalidHeader (Text s).
Definition invalid_block (s : string) : CarError := InvalidBlock (Text s).

Record Block := MkBlock { cid : Cid; data : bytes }.

(** [BlockRef] borrows its data, which does not change while it does. *)
Definition BlockRef : Type := Block.

Definition block_default : Block := MkBlock zeroed [].

Definition MAX_HEADER_SIZE : Z := Z.shiftl 1 20.
Definition MAX_BLOCK_SIZE : Z := Z.shiftl 128 20.
Definition CID_LEN : nat := 36.

Definition check_header_len (len : Z) : res CarError nat :=
  if MAX_HEADER_SIZE <? len then
    Err (InvalidHeader (TextArgs "header length exceeds maximum" [len; MAX_HEADER_SIZE]))
  else Ok (Z.to_nat len).

Definition check_block_len (len : Z) : res CarError nat :=
  if len =? 0 then Err (invalid_block "zero-length block")
  else if MAX_BLOCK_SIZE <? len then
    Err (InvalidBlock (TextArgs "block length exceeds maximum" [len; MAX_BLOCK_SIZE]))
  else if len <? Z.of_nat CID_LEN then Err (invalid_block "block too short to contain CID")
  else Ok (Z.to_nat len).

(** Folds byte [i] into the value; returns it and whether it is complete. *)
Definition varint_step (value : Z) (i : nat) (byte : Z) : res CarError (Z * bool) :=
  let value := Z.lor value (as_u64 (Z.shiftl (Z.land byte 127) (7 * Z.of_nat i))) in
  if Z.land byte 128 =? 0 then
    if (0 <? i)%nat && (byte =? 0) then Err (invalid_block "non-minimal varint encoding")
    else Ok (value, true)
  else if (i =? 8)%nat then Err (invalid_block "varint too long")
  else Ok (value, false).

Fixpoint varint_loop (buf : bytes) (i : nat) (value : Z) : res CarError (option (Z * nat)) :=
  match buf with
  | [] => Ok None
  | byte :: buf' =>
      '(value, done) ← varint_step value i byte;
      if done : bool then Ok (Some (value, S i)) else varint_loop buf' (S i) value
  end.

Definition varint_from_slice (buf : bytes) : res CarError (option (Z * nat)) := varint_loop buf 0 0.

(** ** The header *)

Definition key_version : bytes := Eval cbv in b# "version".
Definition key_roots : bytes := Eval cbv in b# "roots".

Fixpoint root_cids (items : list Value) : res CarError (list Cid) :=
  match items with
  | [] => Ok []
  | Value.Cid c :: items' => cids ← root_cids items'; Ok (c :: cids)
  | _ :: _ => Err (invalid_header "roots must contain CIDs")
  end.

Fixpoint header_fields (entries : list (bytes * Value)) (version : option Z) (roots : option (list Cid)) :
    res CarError (option Z * option (list Cid)) :=
  match entries with
  | [] => Ok (version, roots)
  | (key, value) :: entries' =>
      if bool_decide (key = key_version) then
        match value with
        | Value.Unsigned n => header_fields entries' (Some n) roots
        | _ => Err (invalid_header "version must be an integer")
        end
      else if bool_decide (key = key_roots) then
        match value with
        | Value.Array items => cids ← root_cids items; header_fields entries' version (Some cids)
        | _ => Err (invalid_header "roots must be an array")
        end
      else header_fields entries' version roots
  end.

Definition decode_header `{Simdutf8} (buf : bytes) : res CarError (list Cid) :=
  match decode buf new with
  | (Err e, _) => Err (Cbor e)
  | (Panic, _) => Panic
  | (Ok val, dec) =>
      if negb (is_empty buf dec) then Err (invalid_header "trailing data after header CBOR map")
      else
        match val with
        | Value.Map entries =>
            '(version, roots) ← header_fields entries None None;
            version ← ok_or (invalid_header "missing 'version' field") version;
            if negb (version =? 1) then
              Err (InvalidHeader (TextArgs "unsupported version, expected 1" [version]))
            else ok_or (invalid_header "missing 'roots' field") roots
        | _ => Err (invalid_header "header must be a CBOR map")
        end
  end.

Lemma max_header_size : MAX_HEADER_SIZE = 1048576.
Proof. done. Qed.

Lemma max_block_size : MAX_BLOCK_SIZE = 134217728.
Proof. done. Qed.

(** ** Varints of at most nine bytes *)

(** One step on the [i]-th digit of a canonical varint below [2^63]. *)
Lemma varint_step_eq value i byte : is_u8 byte -> (i <= 8)%nat -> 0 <= value < 2 ^ (7 * Z.of_nat i) ->
  varint_step value i byte =
    if byte <? 128 then
      if (0 <? i)%nat && (byte =? 0) then Err (invalid_block "non-minimal varint encoding")
      else Ok (value + byte * 2 ^ (7 * Z.of_nat i), true)
    else if (i =? 8)%nat then Err (invalid_block "varint too long")
    else Ok (value + (byte mod 128) * 2 ^ (7 * Z.of_nat i), false).
Proof.
  intros Hb Hi Hv. unfold varint_step. rewrite land_127, land_128 by done.
  pose proof (Z.mod_pos_bound byte 128 ltac:(lia)).
  pose proof (Z.pow_le_mono_r 2 (7 * Z.of_nat i) 56 ltac:(lia) ltac:(lia)).
  assert (Hs : as_u64 (Z.shiftl (byte mod 128) (7 * Z.of_nat i)) = byte mod 128 * 2 ^ (7 * Z.of_nat i)).
  { rewrite Z.shiftl_mul_pow2 by lia. unfold as_u64. apply Z.mod_small. nia. }
  rewrite Hs, Z.lor_comm, lor_disjoint, (Z.add_comm _ value) by lia. unfold is_u8 in Hb.
  destruct (byte <? 128) eqn:?; [|done]. by rewrite Z.mod_small by lia.
Qed.

(** A varint as the readers accept it. *)
Definition canonical_varint (enc : bytes) : Prop :=
  varint_shape enc /\ varint_minimal enc /\ (length enc <= 9)%nat.

Lemma varint_loop_app enc rest i value : varint_shape enc -> (i + length enc <= 9)%nat ->
  0 <= value < 2 ^ (7 * Z.of_nat i) -> (last enc <> Some 0 \/ i = 0%nat /\ enc = [0]) ->
  varint_loop (enc ++ rest) i value =
    Ok (Some (value + varint_value enc * 2 ^ (7 * Z.of_nat i), (i + length enc)%nat)).
Proof.
  intros Hs. revert i value. induction Hs as [b Hb|b enc Hb Hs IH]; intros i value Hi Hv Hm; cbn [app varint_loop length] in *;
    rewrite varint_step_eq by (try done; unfold is_u8; lia); rewrite varint_value_cons.
  - replace (b <? 128) with true by lia. change (varint_value []) with 0. rewrite Z.mod_small by lia.
    replace ((0 <? i)%nat && (b =? 0)) with false by (destruct Hm as [Hm|[-> Hm]]; simplify_eq/=; [|done];
      destruct (Z.eqb_spec b 0); [congruence|by rewrite andb_false_r]).
    cbn. do 3 f_equal; lia.
  - replace (b <? 128) with false by lia. assert (1 <= length enc)%nat by (destruct Hs; cbn; lia).
    replace (i =? 8)%nat with false by lia. cbn [mbind res_bind].
    pose proof (digit_bound value (b mod 128) (Z.of_nat i) ltac:(lia) Hv ltac:(apply Z.mod_pos_bound; lia)) as Hd.
    replace (Z.of_nat i + 1) with (Z.of_nat (S i)) in Hd by lia.
    rewrite IH; [|lia|done|].
    + replace (7 * Z.of_nat (S i)) with (7 * Z.of_nat i + 7) by lia. rewrite Z.pow_add_r by lia.
      change (2 ^ 7) with 128. f_equal. f_equal. f_equal; [ring|lia].
    + left. destruct Hm as [Hm|[_ Hm]]; [|by destruct Hs].
      destruct Hs; cbn in Hm |- *; done.
Qed.

Lemma varint_loop_sound buf i value v n : Forall is_u8 buf -> (i <= 8)%nat ->
  0 <= value < 2 ^ (7 * Z.of_nat i) -> varint_loop buf i value = Ok (Some (v, n)) ->
  exists enc rest, buf = enc ++ rest /\ n = (i + length enc)%nat /\ varint_shape enc /\
    (n <= 9)%nat /\ v = value + varint_value enc * 2 ^ (7 * Z.of_nat i) /\
    (last enc <> Some 0 \/ i = 0%nat /\ enc = [0]).
Proof.
  intros Hbuf. revert i value. induction Hbuf as [|b buf Hb Hbuf IH]; intros i value Hi Hv; [done|].
  cbn [varint_loop]. rewrite varint_step_eq by done. unfold is_u8 in Hb. destruct (b <? 128) eqn:Hlt.
  - destruct (_ && _) eqn:Hz; [done|]. cbn. intros [= <- <-]. exists [b], buf.
    rewrite varint_value_cons. change (varint_value []) with 0. rewrite Z.mod_small by lia.
    split_and!; [done|cbn; lia|constructor; lia|lia|lia|].
    destruct (Nat.ltb_spec 0 i); cbn in *; [left; intros [= ->]; lia|].
    destruct (Z.eqb_spec b 0) as [->|]; [right; split; [lia|done]|left; congruence].
  - destruct (Nat.eqb_spec i 8); [done|]. cbn [mbind res_bind]. intros H.
    apply IH in H as (enc & rest & -> & -> & Hs & Hn & -> & Hm); [|lia|].
    + exists (b :: enc), rest. rewrite varint_value_cons.
      replace (7 * Z.of_nat (S i)) with (7 * Z.of_nat i + 7) by lia. rewrite Z.pow_add_r by lia.
      change (2 ^ 7) with 128. split_and!; [done|cbn; lia|constructor; [lia|done]|lia|ring|].
      left. destruct Hm as [Hm|[? _]]; [|lia]. destruct Hs; cbn in *; done.
    + pose proof (digit_bound value (b mod 128) (Z.of_nat i) ltac:(lia) Hv ltac:(apply Z.mod_pos_bound; lia)) as Hd.
      by replace (Z.of_nat i + 1) with (Z.of_nat (S i)) in Hd by lia.
Qed.

(** The readers accept exactly the canonical varints: at most nine bytes and
    no superfluous zero byte. *)
Lemma varint_from_slice_Ok buf v n : Forall is_u8 buf ->
  varint_from_slice buf = Ok (Some (v, n)) <->
  exists enc rest, buf = enc ++ rest /\ n = length enc /\ canonical_varint enc /\ v = varint_value enc.
Proof.
  intros Hb. unfold varint_from_slice, canonical_varint, varint_minimal. split.
  - intros H. apply varint_loop_sound in H as (enc & rest & -> & -> & Hs & Hn & -> & Hm); [|done|lia|cbn; lia].
    exists enc, rest. cbn in *. rewrite Z.mul_1_r. naive_solver.
  - intros (enc & rest & -> & -> & (Hs & Hm & Hl) & ->).
    rewrite varint_loop_app; [|done|lia|cbn; lia|naive_solver]. do 3 f_equal. cbn. lia.
Qed.

(** ** The header *)

(** The fields that the entries of a map give. *)
Definition is_header (entries : list (bytes * Value)) (roots : list Cid) : Prop :=
  In (key_version, Value.Unsigned 1) entries /\
  In (key_roots, Value.Array (Value.Cid <$> roots)) entries.

Lemma root_cids_Ok items cids : root_cids items = Ok cids <-> items = Value.Cid <$> cids.
Proof.
  revert cids. induction items as [|v items IH]; intros cids; cbn; [destruct cids; naive_solver|].
  destruct v as [ | | | | | | |c| | ]; try (split; [done|by destruct cids]).
  rewrite res_bind_Ok. setoid_rewrite IH. destruct cids; naive_solver.
Qed.

(** Reads a value, or keeps what was there. *)
Lemma header_fields_Ok entries version roots v r : NoDup (entries.*1) ->
  header_fields entries version roots = Ok (v, r) ->
  match v with
  | Some n => In (key_version, Value.Unsigned n) entries \/ version = Some n
  | None => version = None
  end /\
  match r with
  | Some l => In (key_roots, Value.Array (Value.Cid <$> l)) entries \/ roots = Some l
  | None => roots = None
  end.
Proof.
  revert version roots. induction entries as [|[key value] entries IH]; intros version roots Hnd; cbn in *.
  { intros [= -> ->]. destruct v, r; auto. }
  inversion_clear Hnd. case_bool_decide as Hk; [|case_bool_decide as Hk'].
  - destruct value; try done. intros H'. apply IH in H'; [|done]. subst key. destruct v, r; naive_solver.
  - destruct value; try done. rewrite res_bind_Ok. intros (cids & ->%root_cids_Ok & H').
    apply IH in H'; [|done]. subst key. destruct v, r; naive_solver.
  - intros H'. apply IH in H'; [|done]. destruct v, r; naive_solver.
Qed.

Lemma header_fields_complete entries roots version0 roots0 : NoDup (entries.*1) ->
  (In (key_version, Value.Unsigned 1) entries \/ version0 = Some 1 /\ ~ In key_version (entries.*1)) ->
  (In (key_roots, Value.Array (Value.Cid <$> roots)) entries \/ roots0 = Some roots /\ ~ In key_roots (entries.*1)) ->
  header_fields entries version0 roots0 = Ok (Some 1, Some roots).
Proof.
  revert version0 roots0. induction entries as [|[key value] entries IH]; intros version0 roots0 Hnd Hv Hr; cbn in *.
  { naive_solver. }
  inversion_clear Hnd as [|? ? Hnin Hnd']. assert (Hni : forall x, ~ In (key, x) entries).
  { intros x Hx. apply Hnin, list_elem_of_fmap. exists (key, x). split; [done|by apply list_elem_of_In]. }
  assert (Hni' : ~ In key (entries.*1)) by (by rewrite <- list_elem_of_In).
  assert (key_version <> key_roots) by done.
  case_bool_decide as Hk; [|case_bool_decide as Hk']; subst.
  - assert (value = Value.Unsigned 1) as -> by naive_solver. apply IH; [done|right|]; naive_solver.
  - assert (value = Value.Array (Value.Cid <$> roots)) as -> by naive_solver.
    rewrite (proj2 (root_cids_Ok _ roots) eq_refl). apply IH; [done| |right]; naive_solver.
  - apply IH; [done|naive_solver..].
Qed.

Lemma decode_header_Ok `{Simdutf8Laws} buf roots : Forall is_u8 buf -> Z.of_nat (length buf) <= MAX_HEADER_SIZE ->
  decode_header buf = Ok roots <->
  exists entries, canonical 0 (Value.Map entries) /\ buf = enc (Value.Map entries) /\ is_header entries roots.
Proof.
  intros Hu Hl. assert (Hl' : Z.of_nat (length buf) <= i64_max) by (rewrite max_header_size in Hl; unfold i64_max; lia).
  pose proof (cbor_decode_Ok buf) as Hok. unfold cbor_decode, decode_header in *.
  destruct (decode buf new) as [[val| |] s]; [|split; [done|]; intros (es & Hc & He & _);
    pose proof (proj2 (Hok _ Hu Hl') (conj Hc He)); done..].
  destruct (is_empty buf s); cbn [negb].
  2:{ split; [done|]. intros (es & Hc & He & _). pose proof (proj2 (Hok _ Hu Hl') (conj Hc He)). done. }
  assert (Hval : canonical 0 val /\ buf = enc val) by (by apply Hok). destruct Hval as [Hc ->].
  assert (Huniq : forall es, canonical 0 (Value.Map es) -> enc val = enc (Value.Map es) -> val = Value.Map es).
  { intros es Hes He. pose proof (proj2 (Hok _ Hu Hl') (conj Hes He)) as Hx. cbn in Hx. congruence. }
  destruct val as [ | | | | | | | | |entries]; try (split; [done|]; intros (es & Hes & He & _); by specialize (Huniq _ Hes He)).
  assert (Hnd : NoDup (entries.*1)) by (inversion Hc; by apply keys_sorted_nodup).
  rewrite res_bind_Ok. split.
  - intros ([v r] & Hf & Hrun). apply header_fields_Ok in Hf as [Hv Hr]; [|done].
    exists entries. split_and!; [done..|]. destruct v as [n|]; [|done]. cbn in Hrun.
    destruct (Z.eqb_spec n 1) as [->|]; [|done]. destruct r as [l|]; [|done]. injection Hrun as ->.
    split; naive_solver.
  - intros (es & Hes & He & Hv & Hr). injection (Huniq _ Hes He) as ->.
    exists (Some 1, Some roots). split; [|done]. apply header_fields_complete; auto.
Qed.

Lemma decode_header_no_panic `{Simdutf8} buf : Forall is_u8 buf -> Z.of_nat (length buf) <= MAX_HEADER_SIZE ->
  no_panic (decode_header buf).
Proof.
  intros Hu Hl. unfold decode_header. pose proof (safe_decode buf new ltac:(cbn; lia)) as Hs.
  destruct (decode buf new) as [[val| |] s]; [|done..]. destruct (negb _); [done|]. destruct val; try done.
  apply no_panic_bind.
  - clear. generalize (@None Z) (@None (list Cid)).
    induction entries as [|[k v] es IH]; intros; cbn; [done|]. repeat case_bool_decide; [destruct v; auto; done| |auto].
    destruct v; try done. apply no_panic_bind; [|auto]. clear. induction items as [|v items IH]; [done|]. cbn.
    destruct v; try done. by apply no_panic_bind.
  - intros [v r] _. apply no_panic_bind; [by destruct v|]. intros n _. destruct (negb _); [done|]. by destruct r.
Qed.

(** A length in front of a body. *)
Definition prefixed (limit : Z) (body frame : bytes) : Prop :=
  exists enc, canonical_varint enc /\ frame = enc ++ body /\
    varint_value enc = Z.of_nat (length body) /\ Z.of_nat (length body) <= limit.

Definition block_frame (frame : bytes) (b : Block) : Prop :=
  cid_wf (cid b) /\ prefixed MAX_BLOCK_SIZE (to_bytes (cid b) ++ data b) frame.

Definition header_frame (frame : bytes) (roots : list Cid) : Prop :=
  exists entries, canonical 0 (Value.Map entries) /\ is_header entries roots /\
    prefixed MAX_HEADER_SIZE (enc (Value.Map entries)) frame.

Definition block_frames (body : bytes) (blocks : list Block) : Prop :=
  exists frames, Forall2 block_frame frames blocks /\ body = concat frames.

Definition car_format (car : bytes) (roots : list Cid) (blocks : list Block) : Prop :=
  exists header body, header_frame header roots /\ block_frames body blocks /\ car = header ++ body.

(** ** Varints of a stream that has arrived in part *)

Lemma varint_shape_nonempty enc : varint_shape enc -> (1 <= length enc)%nat.
Proof. destruct 1; cbn; lia. Qed.

Lemma varint_loop_partial enc part rest i value : varint_shape enc -> (i + length enc <= 9)%nat ->
  0 <= value < 2 ^ (7 * Z.of_nat i) -> enc = part ++ rest -> rest <> [] ->
  varint_loop part i value = Ok None.
Proof.
  intros Hs. revert part i value. induction Hs as [b Hb|b enc Hb Hs IH]; intros part i value Hi Hv He Hr.
  - destruct part as [|x part]; [done|]. injection He as <- He. by destruct part, rest.
  - destruct part as [|x part]; [done|]. injection He as <- He. cbn [varint_loop length] in *.
    pose proof (varint_shape_nonempty _ Hs).
    rewrite varint_step_eq by (try done; unfold is_u8; lia).
    replace (b <? 128) with false by lia. replace (i =? 8)%nat with false by lia. cbn [mbind res_bind].
    apply IH; [lia| |done|done].
    pose proof (digit_bound value (b mod 128) (Z.of_nat i) ltac:(lia) Hv ltac:(apply Z.mod_pos_bound; lia)) as Hd.
    by replace (Z.of_nat i + 1) with (Z.of_nat (S i)) in Hd by lia.
Qed.

Lemma varint_from_slice_partial enc part rest : canonical_varint enc -> enc = part ++ rest -> rest <> [] ->
  varint_from_slice part = Ok None.
Proof. intros (Hs & _ & Hl) He Hr. by apply (varint_loop_partial enc part rest 0 0); [|lia|cbn; lia|..]. Qed.

Lemma canonical_varint_u8 enc : canonical_varint enc -> Forall is_u8 enc.
Proof. intros [Hs _]. unfold is_u8. induction Hs; constructor; try done; lia. Qed.

Lemma varint_from_slice_app enc rest : canonical_varint enc ->
  varint_from_slice (enc ++ rest) = Ok (Some (varint_value enc, length enc)).
Proof.
  intros (Hs & Hm & Hl). unfold varint_from_slice.
  rewrite varint_loop_app; [|done|lia|cbn; lia|destruct Hm; auto].
  do 3 f_equal. cbn. lia.
Qed.

Lemma varint_from_slice_no_panic buf : no_panic (varint_from_slice buf).
Proof.
  unfold varint_from_slice. generalize 0%nat, 0. induction buf as [|b buf IH]; intros i v; [done|]. cbn.
  apply no_panic_bind; [|intros [w []] _; [done|auto]].
  unfold varint_step. by repeat case_match.
Qed.

(** ** Lengths *)

Lemma check_block_len_Ok len n : 0 <= len -> check_block_len len = Ok n <->
  Z.of_nat CID_LEN <= len <= MAX_BLOCK_SIZE /\ n = Z.to_nat len.
Proof.
  unfold check_block_len, CID_LEN. rewrite max_block_size. intros Hl. rewrite !if_err_Ok.
  split; [|intros [? ->]; split_and!; try lia; done]. intros (? & ? & ? & [= <-]). lia.
Qed.

Lemma check_header_len_Ok len n : check_header_len len = Ok n <-> len <= MAX_HEADER_SIZE /\ n = Z.to_nat len.
Proof.
  unfold check_header_len. rewrite if_err_Ok. split; [|intros [? ->]; split; [lia|done]].
  intros (? & [= <-]). lia.
Qed.

Lemma check_block_len_no_panic len : no_panic (check_block_len len).
Proof. unfold check_block_len. by repeat case_match. Qed.

Lemma check_header_len_no_panic len : no_panic (check_header_len len).
Proof. unfold check_header_len. by repeat case_match. Qed.

Lemma block_frame_parts frame b : block_frame frame b <->
  exists enc, canonical_varint enc /\ cid_wf (cid b) /\ frame = enc ++ to_bytes (cid b) ++ data b /\
    check_block_len (varint_value enc) = Ok (CID_LEN + length (data b))%nat.
Proof.
  unfold block_frame, prefixed. split.
  - intros (Hc & enc & He & -> & Hv & Hmax). exists enc. split_and!; [done..|].
    pose proof (to_bytes_length _ Hc). rewrite length_app in *.
    apply check_block_len_Ok; [apply varint_value_nonneg|]. unfold CID_LEN. lia.
  - intros (enc & He & Hc & -> & Hv). split; [done|]. exists enc.
    apply check_block_len_Ok in Hv; [|apply varint_value_nonneg].
    rewrite length_app, (to_bytes_length _ Hc). unfold CID_LEN in *. split_and!; [done|done|lia|lia].
Qed.

Lemma block_frame_nonempty frame b : block_frame frame b -> (1 <= length frame)%nat.
Proof.
  intros (enc & (Hs & _) & _ & -> & _)%block_frame_parts. rewrite length_app.
  pose proof (varint_shape_nonempty _ Hs). lia.
Qed.

Lemma block_frames_nil body : block_frames body [] <-> body = [].
Proof.
  split; [intros (fs & H & ->); by inversion H|]. intros ->. by exists [].
Qed.

Lemma block_frames_cons body b blocks : block_frames body (b :: blocks) <->
  exists f rest, body = f ++ rest /\ block_frame f b /\ block_frames rest blocks.
Proof.
  split.
  - intros (fs & H & ->). inversion H as [|f ? fs' ? Hf Hfs]; subst. exists f, (concat fs'). split_and!; [done..|].
    by exists fs'.
  - intros (f & rest & -> & Hf & fs & Hfs & ->). exists (f :: fs). split; [by constructor|done].
Qed.

Lemma block_frames_app a b xs ys : block_frames a xs -> block_frames b ys -> block_frames (a ++ b) (xs ++ ys).
Proof.
  intros (fs & Hf & ->) (gs & Hg & ->). exists (fs ++ gs). split; [by apply Forall2_app|]. by rewrite concat_app.
Qed.

Section HeaderFrame.
Context `{Simdutf8Laws}.

Lemma enc_map_u8 entries : canonical 0 (Value.Map entries) -> Forall is_u8 (enc (Value.Map entries)).
Proof. apply enc_u8. Qed.

Lemma header_frame_parts frame roots : header_frame frame roots <->
  exists enc hdr, canonical_varint enc /\ Forall is_u8 hdr /\ frame = enc ++ hdr /\
    check_header_len (varint_value enc) = Ok (length hdr) /\ decode_header hdr = Ok roots.
Proof.
  unfold header_frame, prefixed. split.
  - intros (es & Hc & Hh & e & He & -> & Hv & Hmax). exists e, (enc (Value.Map es)).
    assert (Hu : Forall is_u8 (enc (Value.Map es))) by (by eapply enc_u8).
    split_and!; [done|done|done| |].
    + apply check_header_len_Ok. rewrite Hv, Nat2Z.id. done.
    + apply decode_header_Ok; [done..|]. eauto.
  - intros (e & hdr & He & Hu & -> & [Hl Hn]%check_header_len_Ok & Hd).
    pose proof (varint_value_nonneg e).
    apply decode_header_Ok in Hd as (es & Hc & -> & Hh); [|done|lia].
    exists es. split_and!; [done..|]. exists e. split_and!; [done|done|lia|lia].
Qed.
End HeaderFrame.
