(* ===== verification/CarSlice.v ===== *)
(** The reader over bytes in memory: [src/src/car/slice.rs], and [read_slice]
    of [src/src/car/mod.rs]. *)
From S2P Require Import Prelude StateError SyntaxError CborError Varint Cid CborValue CborEncode CborDecode CborShallow Car.

Record SliceReader := MkSliceReader { rest : bytes; roots : list Cid }.

(** [s.get(n..)], [s.get(..n)], [s.split_at_checked(n)] *)
Definition get_from (s : bytes) (n : nat) : option bytes :=
  if (n <=? length s)%nat then Some (drop n s) else None.
Definition get_to (s : bytes) (n : nat) : option bytes :=
  if (n <=? length s)%nat then Some (take n s) else None.
Definition split_at_checked (s : bytes) (n : nat) : option (bytes * bytes) :=
  if (n <=? length s)%nat then Some (take n s, drop n s) else None.

Definition new `{Simdutf8} (car : bytes) : res CarError SliceReader :=
  varint ← varint_from_slice car;
  '(len, prefix) ← match varint with
                   | Some varint => Ok varint
                   | None =>
                       if bool_decide (car = []) then
                         Err (invalid_header "unexpected EOF reading varint")
                       else Err (invalid_block "truncated varint")
                   end;
  len ← check_header_len len;
  tail ← slice_from car prefix;
  match split_at_checked tail len with
  | None => Err (invalid_header "truncated header")
  | Some (header, rest) => roots ← decode_header header; Ok (MkSliceReader rest roots)
  end.

(** The length in front of a block; one- and two-byte lengths directly. *)
Definition block_prefix (buf : bytes) : res CarError (Z * nat) :=
  let slow := varint ← varint_from_slice buf; ok_or (invalid_block "truncated varint") varint in
  match buf with
  | [] => slow
  | b0 :: buf' =>
      if b0 <? 0x80 then Ok (b0, 1%nat)
      else match buf' with
           | b1 :: _ =>
               if (b1 <? 0x80) && negb (b1 =? 0) then
                 Ok (Z.lor (Z.land b0 0x7f) (as_u64 (Z.shiftl b1 7)), 2%nat)
               else slow
           | [] => slow
           end
  end.

Definition split_block : st SliceReader CarError BlockRef := fun s =>
  let buf := rest s in
  let r :=
    '(len, prefix) ← block_prefix buf;
    len ← check_block_len len;
    let truncated := invalid_block "truncated block data" in
    frame ← ok_or truncated (get_from buf prefix);
    cid_buf ← ok_or truncated (get_to frame CID_LEN);
    cid ← map_err Cbor (from_bytes cid_buf);
    '(block, rest) ← ok_or truncated (split_at_checked frame len);
    data ← slice_from block CID_LEN;
    Ok (MkBlock cid data, rest)
  in
  match r with
  | Ok (b, rest') => (Ok b, MkSliceReader rest' (roots s))
  | Err e => (Err e, s)
  | Panic => (Panic, s)
  end.

(** [Iterator::next] *)
Definition next (s : SliceReader) : option (res CarError BlockRef) * SliceReader :=
  if bool_decide (rest s = []) then (None, s)
  else
    let '(block, s') := split_block s in
    (Some block, if is_ok block then s' else MkSliceReader [] (roots s')).

(** [self.next().transpose()] *)
Definition next_block : st SliceReader CarError (option BlockRef) := fun s =>
  let '(item, s') := next s in
  (match item with
   | None => Ok None
   | Some (Ok b) => Ok (Some b)
   | Some (Err e) => Err e
   | Some Panic => Panic
   end, s').

(** [for block in reader { blocks.push(block?); }] *)
Fixpoint collect_blocks (fuel : nat) (s : SliceReader) : res CarError (list BlockRef) :=
  match fuel with
  | O => Panic
  | S fuel' =>
      match next s with
      | (None, _) => Ok []
      | (Some block, s') => b ← block; blocks ← collect_blocks fuel' s'; Ok (b :: blocks)
      end
  end.

Definition read_slice `{Simdutf8} (car : bytes) : res CarError (list Cid * list BlockRef) :=
  reader ← new car;
  blocks ← collect_blocks (S (length (rest reader))) reader;
  Ok (roots reader, blocks).

(** ** The fast path *)

Lemma block_prefix_eq buf : Forall is_u8 buf ->
  block_prefix buf = (varint ← varint_from_slice buf; ok_or (invalid_block "truncated varint") varint).
Proof.
  intros Hu. destruct buf as [|b0 buf]; [done|]. inversion_clear Hu as [|? ? H0 Hu'].
  unfold block_prefix. destruct (Z.ltb_spec b0 0x80).
  { unfold varint_from_slice. cbn [varint_loop]. rewrite varint_step_eq by (done || lia).
    replace (b0 <? 128) with true by lia. cbn. by rewrite Z.mul_1_r. }
  destruct buf as [|b1 buf]; [done|]. inversion_clear Hu' as [|? ? H1 _].
  destruct ((b1 <? 0x80) && negb (b1 =? 0)) eqn:Hb; [|done].
  unfold varint_from_slice. cbn [varint_loop].
  rewrite varint_step_eq by (done || lia). replace (b0 <? 128) with false by lia. cbn [Nat.eqb mbind res_bind].
  pose proof (Z.mod_pos_bound b0 128 ltac:(lia)).
  rewrite varint_step_eq; [|done|lia|cbn; lia]. replace (b1 <? 128) with true by lia.
  replace (b1 =? 0) with false by lia. cbn -[Z.pow].
  rewrite land_127, Z.lor_comm, Z.shiftl_mul_pow2 by lia. unfold is_u8 in *.
 unfold as_u64. rewrite (Z.mod_small (b1 * 2 ^ 7)) by lia.
  rewrite lor_disjoint, andb_false_r by lia. cbn [mbind res_bind ok_or]. do 2 f_equal.
  change (2 ^ (7 * Z.of_nat 0)) with 1. change (7 * Z.of_nat 1) with 7. lia.
Qed.

(** ** What is read *)

(** The steps of a successful [split_block]. *)
Lemma split_block_run buf rts b s' : Forall is_u8 buf ->
  split_block (MkSliceReader buf rts) = (Ok b, s') <->
  exists enc body n, buf = enc ++ body /\ canonical_varint enc /\
    check_block_len (varint_value enc) = Ok n /\ (n <= length body)%nat /\
    from_bytes (take CID_LEN body) = Ok (cid b) /\ data b = drop CID_LEN (take n body) /\
    s' = MkSliceReader (drop n body) rts.
Proof.
  intros Hu. unfold split_block. cbn [rest roots]. rewrite block_prefix_eq by done. split.
  - destruct (_ ≫= _) as [[b' r']|e|] eqn:H; [|done..]. intros [= -> <-].
  rewrite !res_bind_Ok in H. destruct H as ([len prefix] & (v & Hv & ->%ok_or_Ok)%res_bind_Ok & H).
  apply varint_from_slice_Ok in Hv as (enc & body & -> & -> & He & ->); [|done].
    apply res_bind_Ok in H as (n & Hn & H). exists enc, body, n. split; [done|]. split; [done|]. split; [done|].
  apply check_block_len_Ok in Hn as [Hlen Hn]; [|apply varint_value_nonneg].
  unfold get_from, get_to, split_at_checked in H.
  rewrite (proj2 (Nat.leb_le _ _)) in H by (rewrite length_app; lia).
  rewrite drop_app_length in H. cbn [ok_or mbind res_bind] in H.
  destruct (CID_LEN <=? length body)%nat; [|done]. cbn [ok_or mbind res_bind] in H.
  apply res_bind_Ok in H as (c & Hc%map_err_Ok & H).
  destruct (Nat.leb_spec n (length body)); [|done]. cbn [ok_or mbind res_bind] in H.
  rewrite slice_from_Ok in H by (rewrite length_take; unfold CID_LEN in *; lia).
  cbn in H. injection H as <- <-. cbn [cid data]. split_and!; [lia|done|done|done].
  - intros (enc & body & n & -> & He & Hn & Hl & Hc & Hd & ->).
  rewrite varint_from_slice_app by done. cbn [mbind res_bind ok_or]. rewrite Hn. cbn [mbind res_bind].
  apply check_block_len_Ok in Hn as [Hlen Hn]; [|apply varint_value_nonneg].
  unfold get_from, get_to, split_at_checked.
  rewrite (proj2 (Nat.leb_le (length enc) _)) by (rewrite length_app; lia).
  rewrite drop_app_length. cbn [ok_or mbind res_bind].
  rewrite (proj2 (Nat.leb_le CID_LEN _)) by lia. cbn [ok_or mbind res_bind]. rewrite Hc.
  cbn [map_err mbind res_bind]. rewrite (proj2 (Nat.leb_le n _)) by lia. cbn [ok_or mbind res_bind].
  rewrite slice_from_Ok by (rewrite length_take; lia). cbn [mbind res_bind]. rewrite <- Hd. by destruct b.
Qed.

Lemma split_block_Ok s b s' : Forall is_u8 (rest s) ->
  split_block s = (Ok b, s') <->
  exists frame, rest s = frame ++ rest s' /\ block_frame frame b /\ roots s' = roots s.
Proof.
  destruct s as [buf rts]. intros Hu. rewrite split_block_run by done.
  setoid_rewrite block_frame_parts. cbn [rest roots] in *. split.
  - intros (enc & body & n & -> & He & Hn & Hl & Hc & Hd & ->). cbn [rest roots].
      pose proof Hn as [Hlen Hn']%check_block_len_Ok; [|apply varint_value_nonneg].
      apply from_bytes_Ok in Hc as [Hwf Hc].
      2:{ apply Forall_take. by apply Forall_app in Hu as [_ ?]. }
      exists (enc ++ take n body). rewrite <- app_assoc, take_drop. split; [done|]. split; [|done].
      exists enc. split_and!; [done|done| |].
    + f_equal. rewrite Hd, Hc. replace (take CID_LEN body) with (take CID_LEN (take n body)) by
          (rewrite take_take; f_equal; unfold CID_LEN in *; lia). by rewrite take_drop.
    + rewrite Hn, Hd, length_drop, length_take. f_equal. unfold CID_LEN in *. lia.
  - intros (frame & -> & (enc & He & Hwf & -> & Hn) & Hr).
      pose proof (to_bytes_length _ Hwf) as Hl.
      exists enc, ((to_bytes (cid b) ++ data b) ++ rest s'), (CID_LEN + length (data b))%nat.
      rewrite <- app_assoc. split; [done|]. split; [done|]. split; [done|].
      assert (Hl' : length (to_bytes (cid b) ++ data b) = (CID_LEN + length (data b))%nat)
        by (rewrite length_app, Hl; done).
      rewrite <- Hl', take_app_length, drop_app_length. split_and!.
    + rewrite (length_app _ (rest s')). lia.
    + rewrite <- app_assoc, take_app_le, take_ge by (unfold CID_LEN; lia). by apply from_bytes_to_bytes.
    + replace CID_LEN with (length (to_bytes (cid b))) by done. by rewrite drop_app_length.
    + destruct s'. cbn in *. by subst.
Qed.

Lemma split_block_complete s f r b : Forall is_u8 (rest s) -> rest s = f ++ r -> block_frame f b ->
  split_block s = (Ok b, MkSliceReader r (roots s)).
Proof. intros Hu He Hf. apply split_block_Ok; [done|]. by exists f. Qed.

Lemma split_block_no_panic s : Forall is_u8 (rest s) -> (split_block s).1 <> Panic.
Proof.
  intros Hu. unfold split_block. rewrite block_prefix_eq by done.
  destruct (_ ≫= _) as [[b' r']|e|] eqn:H; [done..|]. exfalso. revert H.
  match goal with |- ?m = Panic -> _ => change (no_panic m) end. apply no_panic_bind.
  - apply no_panic_bind; [apply varint_from_slice_no_panic|]. intros v _. apply no_panic_ok_or.
  - intros [len prefix] Hv. apply no_panic_bind; [apply check_block_len_no_panic|]. intros n Hn.
    assert (Hlen : (CID_LEN <= n)%nat).
    { destruct (Z.le_gt_cases 0 len).
      - apply check_block_len_Ok in Hn; [unfold CID_LEN in *; lia|done].
      - apply res_bind_Ok in Hv as (v & Hv & ->%ok_or_Ok).
        apply varint_from_slice_Ok in Hv as (enc & body & _ & _ & _ & ->); [|done].
        pose proof (varint_value_nonneg enc). lia. }
    apply no_panic_bind; [apply no_panic_ok_or|]. intros frame _.
    apply no_panic_bind; [apply no_panic_ok_or|]. intros c _.
    apply no_panic_bind; [apply no_panic_map_err, from_bytes_no_panic|]. intros cid' _.
    apply no_panic_bind; [apply no_panic_ok_or|]. intros [block r] Hs%ok_or_Ok.
    apply no_panic_bind; [|done]. unfold split_at_checked in Hs.
    destruct (Nat.leb_spec n (length frame)); [|done]. injection Hs as <- _.
    rewrite slice_from_Ok; [done|]. rewrite length_take. lia.
Qed.

Lemma split_block_shorter s b s' : Forall is_u8 (rest s) -> split_block s = (Ok b, s') ->
  (length (rest s') < length (rest s))%nat /\ Forall is_u8 (rest s').
Proof.
  intros Hu (f & Hr & Hf & _)%split_block_Ok; [|done]. rewrite Hr in *. apply Forall_app in Hu as [_ Hu].
  apply block_frame_nonempty in Hf. rewrite length_app. split; [lia|done].
Qed.

Lemma collect_blocks_Ok fuel s blocks : Forall is_u8 (rest s) -> (length (rest s) < fuel)%nat ->
  collect_blocks fuel s = Ok blocks <-> block_frames (rest s) blocks.
Proof.
  revert s blocks. induction fuel as [|fuel IH]; intros s blocks Hu Hl; [lia|]. cbn [collect_blocks].
  unfold next. case_bool_decide as Hn.
  { rewrite Hn. destruct blocks; [by rewrite block_frames_nil|]. rewrite block_frames_cons.
    split; [done|]. intros (f & r & He & Hf%block_frame_nonempty & _). destruct f; [cbn in Hf; lia|done]. }
  destruct (split_block s) as [[b|e|] s'] eqn:Hs; cbn [is_ok mbind res_bind].
  - pose proof (split_block_shorter s b s' Hu Hs) as [Hlt Hu'].
    apply split_block_Ok in Hs as (f & Hr & Hf & _); [|done]. rewrite res_bind_Ok. split.
    + intros (bs & Hbs & [= <-]). apply IH in Hbs; [|done|lia]. rewrite Hr. apply block_frames_cons. eauto.
    + destruct blocks as [|b2 bs]; [intros He%block_frames_nil; done|].
      rewrite block_frames_cons. intros (f2 & r2 & He & Hf2 & Hbs).
      assert (Hs2 : split_block s = (Ok b2, MkSliceReader r2 (roots s))) by (by eapply split_block_complete).
      assert (Hs1 : split_block s = (Ok b, MkSliceReader (rest s') (roots s)))
        by (eapply split_block_complete; [done|exact Hr|done]).
      rewrite Hs1 in Hs2. injection Hs2 as <- <-. exists bs. split; [|done]. apply IH; [done|lia|done].
  - split; [done|]. destruct blocks as [|b bs]; [intros He%block_frames_nil; done|].
    rewrite block_frames_cons. intros (f & r & He & Hf & _).
    assert (Hs2 : split_block s = (Ok b, MkSliceReader r (roots s))) by (by eapply split_block_complete). congruence.
  - exfalso. apply (split_block_no_panic s Hu). by rewrite Hs.
Qed.

Lemma collect_blocks_no_panic fuel s : Forall is_u8 (rest s) -> (length (rest s) < fuel)%nat ->
  no_panic (collect_blocks fuel s).
Proof.
  revert s. induction fuel as [|fuel IH]; intros s Hu Hl; [lia|]. cbn [collect_blocks]. unfold next.
  case_bool_decide; [done|]. pose proof (split_block_no_panic s Hu) as Hp.
  destruct (split_block s) as [[b|e|] s'] eqn:Hs; cbn [is_ok mbind res_bind]; [|done..].
  pose proof (split_block_shorter s b s' Hu Hs) as [Hlt Hu'].
  apply no_panic_bind; [apply IH; [done|lia]|done].
Qed.

Section ReadSlice.
Context `{Simdutf8Laws}.

Lemma new_Ok car s : Forall is_u8 car ->
  new car = Ok s <-> exists header, car = header ++ rest s /\ header_frame header (roots s).
Proof.
  intros Hu. setoid_rewrite header_frame_parts. unfold new. split.
  - intros (v & Hv & Hr)%res_bind_Ok. destruct v as [[len prefix]|]; [|by case_bool_decide].
    apply varint_from_slice_Ok in Hv as (e & body & -> & -> & He & ->); [|done]. cbn [mbind res_bind] in Hr.
    apply res_bind_Ok in Hr as (n & Hn & Hr). apply Forall_app in Hu as [_ Hu].
    rewrite slice_from_Ok, drop_app_length in Hr by (rewrite length_app; lia). cbn [mbind res_bind] in Hr.
    unfold split_at_checked in Hr. destruct (Nat.leb_spec n (length body)); [|done].
    apply res_bind_Ok in Hr as (rts & Hd & [= <-]). cbn [rest roots].
    exists (e ++ take n body). rewrite <- app_assoc, take_drop. split; [done|].
    exists e, (take n body). rewrite length_take, Nat.min_l by lia. split_and!; [done| |done..].
    by apply Forall_take.
  - intros (header & -> & e & hdr & He & Hh & -> & Hn & Hd). rewrite <- app_assoc, varint_from_slice_app by done.
    cbn [mbind res_bind]. rewrite Hn. cbn [mbind res_bind].
    rewrite slice_from_Ok, drop_app_length by (rewrite length_app; lia). cbn [mbind res_bind].
    unfold split_at_checked. rewrite (proj2 (Nat.leb_le _ _)) by (rewrite length_app; lia).
    rewrite take_app_length, drop_app_length, Hd. by destruct s.
Qed.

Lemma new_no_panic car : Forall is_u8 car -> no_panic (new car).
Proof.
  intros Hu. unfold new. apply no_panic_bind; [apply varint_from_slice_no_panic|].
  intros [[len prefix]|] Hv; [|by case_bool_decide]. cbn [mbind res_bind].
  apply varint_from_slice_Ok in Hv as (e & body & -> & -> & He & ->); [|done]. apply Forall_app in Hu as [_ Hu].
  apply no_panic_bind; [apply check_header_len_no_panic|]. intros n [Hn ->]%check_header_len_Ok.
  rewrite slice_from_Ok, drop_app_length by (rewrite length_app; lia). cbn [mbind res_bind].
  unfold split_at_checked. destruct (Nat.leb_spec (Z.to_nat (varint_value e)) (length body)); [|done].
  apply no_panic_bind; [|done]. apply decode_header_no_panic; [by apply Forall_take|].
  rewrite length_take. pose proof (varint_value_nonneg e). lia.
Qed.

Lemma read_slice_Ok car rts blocks : Forall is_u8 car ->
  read_slice car = Ok (rts, blocks) <-> car_format car rts blocks.
Proof.
  intros Hu. unfold read_slice. rewrite res_bind_Ok. split.
  - intros (s & Hs & Hr). apply new_Ok in Hs as (h & -> & Hh); [|done]. apply Forall_app in Hu as [_ Hu].
    apply res_bind_Ok in Hr as (bs & Hb & [= <- <-]). apply collect_blocks_Ok in Hb; [|done|lia].
    exists h, (rest s). auto.
  - intros (h & body & Hh & Hb & ->). exists (MkSliceReader body rts). split; [apply new_Ok; [done|]; by exists h|].
    apply Forall_app in Hu as [_ Hu]. cbn [rest].
    rewrite (proj2 (collect_blocks_Ok (S (length body)) (MkSliceReader body rts) blocks Hu ltac:(cbn; lia)) Hb). done.
Qed.

Lemma read_slice_no_panic car : Forall is_u8 car -> no_panic (read_slice car).
Proof.
  intros Hu. unfold read_slice. apply no_panic_bind; [by apply new_no_panic|]. intros s (h & -> & _)%new_Ok; [|done].
  apply Forall_app in Hu as [_ Hu]. apply no_panic_bind; [|done]. by apply collect_blocks_no_panic; [|lia].
Qed.

(** Reading a CAR in memory never panics and always ends; it accepts exactly
    the archives of the format, with their roots and blocks: the two-byte
    fast path, the limits on lengths and the checks of the header included. *)
Theorem read_slice_spec car : Forall is_u8 car ->
  no_panic (read_slice car) /\
  forall roots blocks, read_slice car = Ok (roots, blocks) <-> car_format car roots blocks.
Proof.
  intros Hu. split; [by apply read_slice_no_panic|]. intros. by apply read_slice_Ok.
Qed.
End ReadSlice.

(** An archive without blocks: the header [{"roots": [], "version": 1}]. *)
Definition empty_car : bytes :=
  17 :: 162 :: text_enc key_roots ++ [128] ++ text_enc key_version ++ [1].

#[local] Existing Instances simd_ref simd_ref_laws.

Example read_slice_spec_witness : car_format empty_car [] [].
Proof. by apply (read_slice_spec empty_car ltac:(by apply u8_literal)). Defined.
