(* ===== verification/CarWriter.v ===== *)
(** The CAR writer: [src/src/car/writer.rs], and [write_all] of
    [src/src/car/mod.rs]. *)
From S2P Require Import Prelude StateError SyntaxError CborError Varint Cid CborValue CborEncode CborEncoder CborDecode CborCodec CborShallow Car CarSlice.

(** [buf[i] = byte] *)
Definition store (buf : bytes) (i : nat) (byte : Z) : res CarError bytes :=
  if (i <? length buf)%nat then Ok (<[i := byte]> buf) else Panic.

(** The loop writes at increasing positions: it stops, or leaves [buf], after
    as many rounds as [buf] is long. *)
Fixpoint encode_varint_buf_loop (fuel : nat) (value : Z) (buf : bytes) (i : nat) : res CarError (bytes * nat) :=
  match fuel with
  | O => Panic
  | S fuel' =>
      let byte := as_u8 (Z.land value 0x7f) in
      let value := Z.shiftr value 7 in
      let byte := if negb (value =? 0) then Z.lor byte 0x80 else byte in
      buf ← store buf i byte;
      if value =? 0 then Ok (buf, S i) else encode_varint_buf_loop fuel' value buf (S i)
  end.

Definition encode_varint_buf (value : Z) (buf : bytes) : res CarError (bytes * nat) :=
  encode_varint_buf_loop (S (length buf)) value buf 0.

(** [self.writer.write_all(..)?] *)
Definition put {W} `{Write W} (b : bytes) : st W CarError () := fun w =>
  let '(r, w') := write_all b w in (map_err (fun m => CarIo (OtherIo m)) r, w').

(** [&vbuf[..vlen]] after [encode_varint_buf]. *)
Definition put_varint {W} `{Write W} (value : Z) : st W CarError () :=
  '(vbuf, vlen) ← lift (encode_varint_buf value (replicate 10 0));
  b ← lift (slice_to vbuf vlen);
  put b.

(** The closure that writes the value of a header key. *)
Definition header_entry (roots : list Cid) (key : bytes) : st (() * bytes) CborError () :=
  if bool_decide (key = key_roots) then
    @on_writer bytes () (_ ← @encode_array_header bytes vec_write (len_u64 roots);
      for_each (fun cid => @encode_cid bytes vec_write cid) roots)
  else if bool_decide (key = key_version) then
    @on_writer bytes () (@encode_u64 bytes vec_write 1)
  else mret ().

Definition header_buf (roots : list Cid) : res CborError bytes :=
  match @encode_text_map bytes vec_write () [key_roots; key_version] (header_entry roots) ((), []) with
  | (Ok _, (_, buf)) => Ok buf
  | (Err e, _) => Err e
  | (Panic, _) => Panic
  end.

(** A [Writer] is the writer it wraps: [new] leaves it after the header, and
    [finish] returns it. *)
Definition new {W} `{Write W} (roots : list Cid) : st W CarError () :=
  header_buf ← lift (map_err Cbor (header_buf roots));
  _ ← put_varint (len_u64 header_buf);
  put header_buf.

Definition write_block_ref {W} `{Write W} (block : BlockRef) : st W CarError () :=
  let cid_bytes := to_bytes (cid block) in
  let block_len := Z.of_nat (length cid_bytes + length (data block)) in
  _ ← put_varint block_len;
  _ ← put cid_bytes;
  put (data block).

Definition write_block {W} `{Write W} (block : Block) : st W CarError () :=
  write_block_ref (MkBlock (cid block) (data block)).

Definition write_all (roots : list Cid) (blocks : list Block) : res CarError bytes :=
  match (_ ← @new bytes vec_write roots; for_each (@write_block bytes vec_write) blocks) [] with
  | (Ok _, buf) => Ok buf
  | (Err e, _) => Err e
  | (Panic, _) => Panic
  end.

(** ** Varints *)

Lemma encode_varint_buf_loop_spec k value pre post fuel : 0 <= value < 128 ^ Z.of_nat k -> (0 < k)%nat ->
  (k <= length post)%nat -> (k <= fuel)%nat -> exists enc mid rest,
  (forall buf, encode_varint_loop k value buf = Some (buf ++ enc)) /\
  post = mid ++ rest /\ length mid = length enc /\
  encode_varint_buf_loop fuel value (pre ++ post) (length pre) = Ok (pre ++ enc ++ rest, (length pre + length enc)%nat).
Proof.
  revert value pre post fuel. induction k as [|k IH]; intros value pre post fuel Hv Hk Hp Hf; [lia|].
  destruct fuel as [|fuel]; [lia|]. destruct post as [|x post]; [cbn in Hp; lia|].
  cbn [encode_varint_loop encode_varint_buf_loop length] in *. unfold store.
  replace (length pre <? length (pre ++ x :: post))%nat with true by (rewrite length_app; cbn; lia).
  rewrite list_insert_alter, alter_app_r_alt, Nat.sub_diag by lia. cbn [alter list_alter mbind res_bind].
  change 0x7f with 127. rewrite land_127, Z.shiftr_div_pow2 by lia. change (2 ^ 7) with 128.
  assert (Hq : 0 <= value / 128) by (apply Z.div_pos; lia).
  destruct (Z.eqb_spec (value / 128) 0) as [Hz|Hnz]; cbn [negb].
  - exists [as_u8 (value mod 128)], [x], post. cbn. split_and!; try done. by rewrite Nat.add_1_r.
  - rewrite Nat2Z.inj_succ, Z.pow_succ_r in Hv by lia.
    assert (Hd : 0 <= value / 128 < 128 ^ Z.of_nat k) by (split; [lia|apply Z.div_lt_upper_bound; lia]).
    destruct k as [|k]; [cbn in Hd; lia|]. set (byte := Z.lor (as_u8 (value mod 128)) 128).
    destruct (IH (value / 128) (pre ++ [byte]) post fuel Hd ltac:(lia) ltac:(lia) ltac:(lia))
      as (enc & mid & rest & He & -> & Hl & Hr).
    exists (byte :: enc), (x :: mid), rest. split_and!.
    + intros buf. rewrite He. by rewrite <- app_assoc.
    + done.
    + cbn. lia.
    + rewrite <- !app_assoc in Hr. cbn [app] in Hr. rewrite length_app, Nat.add_1_r in Hr.
      rewrite Hr. f_equal. f_equal. cbn. lia.
Qed.

(** The stack buffer of ten bytes holds every [u64]. *)
Lemma encode_varint_buf_eq v rest0 : is_u64 v -> length rest0 = 10%nat ->
  exists vlen vbuf, encode_varint_buf v rest0 = Ok (vbuf, vlen) /\
    (vlen <= length vbuf)%nat /\ take vlen vbuf = encode_varint v [].
Proof.
  intros Hv Hl. destruct (encode_varint_buf_loop_spec 10 v [] rest0 (S (length rest0))) as (enc & mid & rest & He & -> & Hm & Hr);
    [unfold is_u64 in Hv; change (128 ^ Z.of_nat 10) with (2 ^ 70); lia|lia..|].
  unfold encode_varint_buf. cbn [app length] in Hr. rewrite Hr. eexists _, _. split; [done|].
  cbn [Nat.add]. rewrite length_app, take_app_length. split; [lia|]. unfold encode_varint. by rewrite He.
Qed.

(** Below [2^63] the varint has at most nine bytes. *)
Lemma encode_varint_canonical v : 0 <= v < 2 ^ 63 ->
  canonical_varint (encode_varint v []) /\ varint_value (encode_varint v []) = v.
Proof.
  intros Hv. destruct (encode_varint_buf_loop_spec 9 v [] (replicate 10 0) 11) as (enc & mid & rest & He & Hr & Hm & Hrun);
    [change (128 ^ Z.of_nat 9) with (2 ^ 63); lia|cbn; lia..|].
  destruct (encode_varint_buf_loop_spec 10 v [] (replicate 10 0) 11) as (enc' & mid' & rest' & He' & Hr' & Hm' & Hrun');
    [change (128 ^ Z.of_nat 10) with (2 ^ 70); lia|cbn; lia..|].
  cbn [app length Nat.add] in Hrun, Hrun'. rewrite Hrun in Hrun'. injection Hrun' as Happ Hlen.
  apply app_inj_1 in Happ as [<- _]; [|lia].
  destruct (encode_varint_spec v []) as (enc2 & H2 & Hs & Hval & _ & Hmin); [unfold is_u64; lia|].
  unfold encode_varint in *. rewrite He' in *. cbn [app default] in *. subst enc2.
  destruct (encode_varint_loop_spec 9 v []) as (enc3 & H3 & _ & _ & Hl & _);
    [change (128 ^ Z.of_nat 9) with (2 ^ 63); lia|lia|].
  rewrite He in H3. injection H3 as <-. split; [|done]. split_and!; done.
Qed.

(** ** On a [Vec<u8>] *)

Section OnVec.
#[local] Existing Instance vec_write.

Definition puts (m : st bytes CarError ()) (out : bytes) : Prop := forall w, m w = (Ok (), w ++ out).

Lemma puts_put b : puts (put b) b.
Proof. done. Qed.

Lemma puts_bind m out (k : () -> st bytes CarError ()) out' :
  puts m out -> puts (k ()) out' -> puts (m ≫= k) (out ++ out').
Proof. intros Hm Hk w. unfold mbind, st_bind. by rewrite Hm, Hk, app_assoc. Qed.

Lemma puts_varint v : is_u64 v -> puts (put_varint v) (encode_varint v []).
Proof.
  intros Hv w. destruct (encode_varint_buf_eq v (replicate 10 0) Hv eq_refl) as (vlen & vbuf & He & Hl & Ht).
  unfold put_varint, mbind, st_bind, lift. rewrite He, slice_to_Ok by done. by rewrite Ht.
Qed.

Definition header_value (roots : list Cid) : Value :=
  Value.Map [(key_roots, Value.Array (Value.Cid <$> roots)); (key_version, Value.Unsigned 1)].

Lemma header_value_normal roots : normalize (header_value roots) = header_value roots.
Proof.
  unfold header_value. cbn [normalize map fst snd].
  assert (Hr : map normalize (Value.Cid <$> roots) = Value.Cid <$> roots)
    by (induction roots as [|c roots IH]; [done|]; cbn; by rewrite IH).
  by rewrite Hr.
Qed.

Lemma header_buf_eq roots : header_buf roots = Ok (enc (header_value roots)).
Proof.
  rewrite <- header_value_normal. unfold header_buf.
  destruct (encode_text_map_spec [key_roots; key_version]
    (fun k => if bool_decide (k = key_roots) then Value.Array (Value.Cid <$> roots) else Value.Unsigned 1)
    (header_entry roots) () []) as [c' ->]; [|done].
  intros k [] w [<-|[<-|[]]]; exists (); [|done]. unfold header_entry. rewrite !bool_decide_true by done.
  unfold on_writer. cbn [normalize].
  assert (Hr : map normalize (Value.Cid <$> roots) = Value.Cid <$> roots)
    by (induction roots as [|c roots IH]; [done|]; cbn; by rewrite IH).
  rewrite Hr. assert (Hw : writes (_ ← encode_array_header (len_u64 roots); for_each (fun cid => encode_cid cid) roots)
    (enc (Value.Array (Value.Cid <$> roots)))).
  { cbn [enc]. unfold len_u64 at 2. rewrite length_fmap. apply writes_bind; [apply writes_head|]. clear Hr.
    induction roots as [|c roots IH]; [intros w'; by rewrite app_nil_r|]. apply (writes_bind _ (tag42 c) _ _ (writes_emit _) IH). }
  by rewrite (Hw w).
Qed.

Definition header_out (roots : list Cid) : bytes :=
  encode_varint (len_u64 (enc (header_value roots))) [] ++ enc (header_value roots).

Definition block_out (b : Block) : bytes :=
  encode_varint (Z.of_nat (length (to_bytes (cid b)) + length (data b))) [] ++ to_bytes (cid b) ++ data b.

Lemma puts_new roots : puts (new roots) (header_out roots).
Proof.
  intros w. unfold new. rewrite header_buf_eq. cbn [map_err].
  rewrite (st_bind_run _ _ _ (enc (header_value roots)) w) by done.
  apply puts_bind; [apply puts_varint, len_u64_range|apply puts_put].
Qed.

Lemma puts_write_block b : is_u64 (Z.of_nat (length (to_bytes (cid b)) + length (data b))) ->
  puts (write_block b) (block_out b).
Proof.
  intros Hl. unfold write_block, write_block_ref. cbn [cid data].
  apply puts_bind; [by apply puts_varint|]. apply puts_bind; apply puts_put.
Qed.

(** What a reader can take back: no larger than the limits. *)
Definition block_fits (b : Block) : Prop :=
  cid_wf (cid b) /\ Forall is_u8 (data b) /\
  Z.of_nat (CID_LEN + length (data b)) <= MAX_BLOCK_SIZE.

Lemma block_out_frame b : block_fits b -> block_frame (block_out b) b.
Proof.
  intros (Hc & _ & Hl). split; [done|]. unfold block_out. pose proof (to_bytes_length _ Hc) as Hcl.
  unfold CID_LEN in Hl. rewrite <- Hcl in Hl.
  destruct (encode_varint_canonical (Z.of_nat (length (to_bytes (cid b)) + length (data b)))) as [He Hv];
    [rewrite max_block_size in Hl; lia|].
  eexists. split_and!; [exact He|done| |]; by rewrite length_app.
Qed.

Lemma write_all_eq roots blocks : Forall block_fits blocks ->
  write_all roots blocks = Ok (header_out roots ++ concat (block_out <$> blocks)).
Proof.
  intros Hb. unfold write_all.
  assert (Hp : puts (_ ← new roots; for_each write_block blocks) (header_out roots ++ concat (block_out <$> blocks))).
  { apply puts_bind; [apply puts_new|]. induction Hb as [|b blocks Hf _ IH]; [intros w; by rewrite app_nil_r|].
    cbn. apply puts_bind; [|exact IH]. apply puts_write_block. destruct Hf as (Hc & _ & Hl).
    rewrite (to_bytes_length _ Hc). rewrite max_block_size in Hl. unfold CID_LEN in Hl. unfold is_u64. lia. }
  by rewrite (Hp []).
Qed.

(** As many roots as fit the header limit of the readers. *)
Definition MAX_ROOTS : Z := 25574.

Lemma cids_length roots : Forall cid_wf roots ->
  length (concat (map enc (Value.Cid <$> roots))) = (41 * length roots)%nat.
Proof.
  induction 1 as [|c roots Hc _ IH]; [done|]. rewrite fmap_cons. cbn [map concat length]. rewrite length_app, IH.
  cbn [enc]. unfold tag42. rewrite length_app, (to_bytes_length _ Hc). cbn. lia.
Qed.

Lemma header_value_length roots : Forall cid_wf roots -> Z.of_nat (length roots) <= MAX_ROOTS ->
  Z.of_nat (length (enc (header_value roots))) <= MAX_HEADER_SIZE.
Proof.
  intros Hc Hr. unfold header_value. cbn [enc map fst snd concat]. rewrite !length_app, cids_length by done.
  assert (Hh : (length (head 4 (len_u64 (Value.Cid <$> roots))) <= 9)%nat)
    by (pose proof (head_length_9 4 (len_u64 (Value.Cid <$> roots)) ltac:(lia) (len_u64_range _)); lia).
  rewrite max_header_size. unfold MAX_ROOTS in *. cbn [length].
  change (length (text_enc key_roots)) with 6%nat. change (length (text_enc key_version)) with 8%nat.
  change (length (head 5 _)) with 1%nat. change (length (head 0 1)) with 1%nat. lia.
Qed.

Lemma header_value_canonical roots : Forall cid_wf roots -> Z.of_nat (length roots) <= MAX_ROOTS ->
  canonical 0 (header_value roots).
Proof.
  intros Hc Hr. unfold MAX_ROOTS in Hr. apply CMap; [unfold MAX_DEPTH; lia|done| | |].
  - repeat constructor.
  - repeat constructor; try done; by apply u8_literal.
  - constructor; [|constructor; [|done]]; cbn [snd].
    + apply CArray; [unfold MAX_DEPTH; lia|rewrite length_fmap; unfold MAX_COLLECTION_LEN; lia|].
      apply Forall_fmap. eapply Forall_impl; [exact Hc|]. intros c Hw. constructor; [unfold MAX_DEPTH; lia|done].
    + constructor; [unfold MAX_DEPTH; lia|done].
Qed.

Lemma header_out_frame roots : Forall cid_wf roots -> Z.of_nat (length roots) <= MAX_ROOTS ->
  header_frame (header_out roots) roots.
Proof.
  intros Hc Hr. pose proof (header_value_length roots Hc Hr) as Hl.
  exists [(key_roots, Value.Array (Value.Cid <$> roots)); (key_version, Value.Unsigned 1)].
  fold (header_value roots). split_and!; [by apply header_value_canonical|split; cbn; auto|].
  unfold header_out. rewrite max_header_size in Hl. rewrite len_u64_small by (unfold i64_max; lia).
  destruct (encode_varint_canonical (Z.of_nat (length (enc (header_value roots))))) as [He Hv]; [lia|].
  eexists. split_and!; [exact He|done|exact Hv|by rewrite max_header_size].
Qed.

Lemma write_all_format roots blocks : Forall cid_wf roots -> Z.of_nat (length roots) <= MAX_ROOTS ->
  Forall block_fits blocks -> exists car, write_all roots blocks = Ok car /\ car_format car roots blocks.
Proof.
  intros Hc Hr Hb. rewrite write_all_eq by done. eexists. split; [done|]. eexists _, _.
  split_and!; [by apply header_out_frame| |done]. exists (block_out <$> blocks). split; [|done].
  apply Forall2_fmap_l. induction Hb; constructor; [by apply block_out_frame|done].
Qed.

Lemma prefixed_u8 limit body frame : Forall is_u8 body -> prefixed limit body frame -> Forall is_u8 frame.
Proof.
  intros Hb (e & He & -> & _). apply Forall_app. split; [by apply canonical_varint_u8|done].
Qed.

Lemma car_format_u8 car roots blocks : Forall (fun b => Forall is_u8 (data b)) blocks ->
  car_format car roots blocks -> Forall is_u8 car.
Proof.
  intros Hb (h & body & (es & Hc & _ & Hh) & (fs & Hfs & ->) & ->). apply Forall_app. split.
  - eapply prefixed_u8; [|exact Hh]. by eapply enc_u8.
  - apply Forall_concat. induction Hfs as [|f b fs bs [Hwf Hf] _ IH]; [done|]. inversion_clear Hb.
    constructor; [|auto]. eapply prefixed_u8; [|exact Hf]. apply Forall_app. split; [by apply to_bytes_u8|done].
Qed.

(** An archive written from at most 25574 roots and blocks within the size
    limit is read back with the same roots and blocks, in order; the writer
    does not fail on them. *)
Theorem car_roundtrip `{Simdutf8Laws} roots blocks :
  Forall cid_wf roots -> Z.of_nat (length roots) <= MAX_ROOTS -> Forall block_fits blocks ->
  exists car, write_all roots blocks = Ok car /\ read_slice car = Ok (roots, blocks).
Proof.
  intros Hc Hr Hb. destruct (write_all_format roots blocks Hc Hr Hb) as (car & Hw & Hf).
  exists car. split; [done|]. apply read_slice_Ok; [|done]. eapply car_format_u8; [|done].
  eapply Forall_impl; [exact Hb|]. by intros b (_ & ? & _).
Qed.

#[local] Existing Instances simd_ref simd_ref_laws.

Example car_roundtrip_witness :
  let c := MkCid Raw (replicate 32 7) in
  exists car, write_all [c] [MkBlock c [1; 2]] = Ok car /\ read_slice car = Ok ([c], [MkBlock c [1; 2]]).
Proof.
  intros c. assert (Hc : cid_wf c) by (split; [done|by apply u8_literal]).
  apply (car_roundtrip [c] [MkBlock c [1; 2]]); [by constructor|done|].
  constructor; [|done]. split_and!; [done|by apply u8_literal|done].
Defined.
End OnVec.
