(* ===== verification/CarReader.v ===== *)
(** The streaming reader: [src/src/car/reader.rs], and [read_all] and
    [verify] of [src/src/car/mod.rs]. *)
From S2P Require Import Prelude StateError SyntaxError CborError Varint Cid CborValue CborEncode CborDecode CborShallow Car CarSlice.

(** ** [std::io::Read]

    A source is the sequence of what its calls of [read] can deliver: a chunk
    of bytes (given out in parts when the caller asks for less; an empty one
    reads as the end of the input) or an error. At the end of the sequence
    [read] returns nothing. *)
Inductive Event :=
| Chunk (b : bytes)
| Fault (e : IoError).

Abbreviation Source := (list Event).

(** What remains of a chunk after [n] bytes of it are read. *)
Definition unread (n : nat) (b : bytes) (s : Source) : Source :=
  match drop n b with [] => s | b' => Chunk b' :: s end.

(** [read(&mut buf)] with a buffer of [n] bytes: the bytes read. *)
Definition read (n : nat) : st Source IoError bytes := fun s =>
  match s with
  | [] => (Ok [], [])
  | Chunk b :: s' => (Ok (take n b), unread n b s')
  | Fault e :: s' => (Err e, s')
  end.

(** [read_exact]: reads until the buffer is full, retries interrupted reads. *)
Fixpoint read_exact_from (s : Source) (n : nat) : res IoError bytes * Source :=
  if (n =? 0)%nat then (Ok [], s)
  else
    match s with
    | [] | Chunk [] :: _ => (Err UnexpectedEof, tail s)
    | Chunk b :: s' =>
        if (n <=? length b)%nat then (Ok (take n b), unread n b s')
        else
          let '(r, s'') := read_exact_from s' (n - length b) in
          (r ≫= (fun b' => Ok (b ++ b')), s'')
    | Fault Interrupted :: s' => read_exact_from s' n
    | Fault e :: s' => (Err e, s')
    end.
Definition read_exact (n : nat) : st Source IoError bytes := fun s => read_exact_from s n.

(** [take(n).read_to_end(&mut buf)]: what is appended to [buf] until [n] bytes
    are read or the input ends, and the error that stopped it before, if any;
    interrupted reads are retried. *)
Fixpoint take_read_to_end (s : Source) (n : nat) : bytes * option IoError * Source :=
  if (n =? 0)%nat then ([], None, s)
  else
    match s with
    | [] | Chunk [] :: _ => ([], None, tail s)
    | Chunk b :: s' =>
        if (n <=? length b)%nat then (take n b, None, unread n b s')
        else let '(b', e, s'') := take_read_to_end s' (n - length b) in (b ++ b', e, s'')
    | Fault Interrupted :: s' => take_read_to_end s' n
    | Fault e :: s' => ([], Some e, s')
    end.

(** ** The reader *)

Definition is_unexpected_eof (e : IoError) : bool := match e with UnexpectedEof => true | _ => false end.

(** [map_err] of [read_exact] to a truncation. *)
Definition truncated_or_io (truncated : CarError) (e : IoError) : CarError :=
  if is_unexpected_eof e then truncated else CarIo e.

Definition on_source {A} (f : IoError -> CarError) (m : st Source IoError A) : st Source CarError A := fun s =>
  let '(r, s') := m s in (map_err f r, s').

(** [for i in 0..]: [varint_step] ends the loop when [i = 8]. *)
Fixpoint read_varint_loop (fuel : nat) (i : nat) (value : Z) : st Source CarError (option Z) :=
  match fuel with
  | O => fail (invalid_block "varint too long")
  | S fuel' => fun s =>
      match read 1 s with
      | (Ok [], s') =>
          if (i =? 0)%nat then (Ok None, s') else (Err (invalid_block "truncated varint"), s')
      | (Ok (byte :: _), s') =>
          ('(value, done) ← lift (varint_step value i byte);
           if done : bool then mret (Some value) else read_varint_loop fuel' (S i) value) s'
      | (Err e, s') =>
          if is_unexpected_eof e then
            if (i =? 0)%nat then (Ok None, s') else (Err (invalid_block "truncated varint"), s')
          else (Err (CarIo e), s')
      | (Panic, s') => (Panic, s')
      end
  end.

Definition read_varint_eof : st Source CarError (option Z) := read_varint_loop 9 0 0.

Definition read_varint : st Source CarError Z :=
  v ← read_varint_eof;
  match v with
  | Some v => mret v
  | None => fail (invalid_header "unexpected EOF reading varint")
  end.

Record Reader := MkReader { reader : Source; roots : list Cid }.

Definition new `{Simdutf8} : st Source CarError (list Cid) :=
  len ← read_varint;
  header_len ← lift (check_header_len len);
  header_buf ← on_source (truncated_or_io (invalid_header "truncated header")) (read_exact header_len);
  lift (decode_header header_buf).

(** The state is the source and the caller's block. *)
Definition on_reader {A} (m : st Source CarError A) : st (Source * Block) CarError A := fun '(s, block) =>
  let '(r, s') := m s in (r, (s', block)).

Definition set_cid (c : Cid) : st (Source * Block) CarError () :=
  modify (fun '(s, block) => (s, MkBlock c (data block))).

(** [block.data.clear(); reader.take(n).read_to_end(&mut block.data)?] *)
Definition read_data (n : nat) : st (Source * Block) CarError nat := fun '(s, block) =>
  let '(d, e, s') := take_read_to_end s n in
  (match e with Some e => Err (CarIo e) | None => Ok (length d) end, (s', MkBlock (cid block) d)).

Definition next_block_into : st (Source * Block) CarError bool :=
  v ← on_reader read_varint_eof;
  match v with
  | None => mret false
  | Some block_len =>
      block_len_usize ← lift (check_block_len block_len);
      cid_buf ← on_reader (on_source (truncated_or_io (invalid_block "truncated block data")) (read_exact CID_LEN));
      cid ← lift (map_err Cbor (from_bytes cid_buf));
      _ ← set_cid cid;
      let data_len := (block_len_usize - CID_LEN)%nat in
      read ← read_data data_len;
      if negb (read =? data_len)%nat then fail (invalid_block "truncated block data")
      else mret true
  end.

Definition next_block : st Source CarError (option Block) := fun s =>
  let '(r, (s', block)) := next_block_into (s, block_default) in
  (more ← r; Ok (if more : bool then Some block else None), s').

(** How many bytes a source can deliver at most, which bounds the loops. *)
Definition available (s : Source) : nat :=
  list_sum ((fun ev => match ev with Chunk b => length b | Fault _ => 0%nat end) <$> s).

(** [while let Some(block) = car.next_block()? { blocks.push(block); }] *)
Fixpoint read_blocks (fuel : nat) : st Source CarError (list Block) :=
  match fuel with
  | O => panic
  | S fuel' =>
      b ← next_block;
      match b with
      | None => mret []
      | Some b => bs ← read_blocks fuel'; mret (b :: bs)
      end
  end.

Definition read_all `{Simdutf8} : st Source CarError (list Cid * list Block) :=
  roots ← new;
  fuel ← gets available;
  blocks ← read_blocks (S fuel);
  mret (roots, blocks).

Definition cid_mismatch (stored computed : Cid) : CarError :=
  InvalidBlock (TextArgs "CID mismatch for block" (codec_byte (codec stored) :: hash stored ++ hash computed)).

(** [let mut block = Block::default();] *)
Definition with_block {A} (m : st (Source * Block) CarError A) : st Source CarError A := fun s =>
  let '(r, (s', _)) := m (s, block_default) in (r, s').

(** [while car.next_block_into(&mut block)? { .. }] *)
Fixpoint verify_blocks `{Sha2} (fuel : nat) : st (Source * Block) CarError () :=
  match fuel with
  | O => panic
  | S fuel' =>
      more ← next_block_into;
      if negb more then mret ()
      else
        block ← gets snd;
        let computed := compute (codec (cid block)) (data block) in
        if bool_decide (cid block = computed) then verify_blocks fuel'
        else fail (cid_mismatch (cid block) computed)
  end.

Definition verify `{Simdutf8, Sha2} : st Source CarError () :=
  _ ← new;
  fuel ← gets available;
  with_block (verify_blocks (S fuel)).

(** ** Sources without faults *)

Definition content (s : Source) : bytes :=
  concat ((fun ev => match ev with Chunk b => b | Fault _ => [] end) <$> s).

(** Only bytes, in chunks of any size but none empty. *)
Definition clean (s : Source) : Prop :=
  Forall (fun ev => match ev with Chunk b => b <> [] /\ Forall is_u8 b | Fault _ => False end) s.

Lemma content_u8 s : clean s -> Forall is_u8 (content s).
Proof.
  intros Hs. apply Forall_concat, Forall_fmap. eapply Forall_impl; [exact Hs|]. intros [b|e] H; [by destruct H|done].
Qed.

Lemma available_content s : clean s -> available s = length (content s).
Proof.
  induction 1 as [|[b|e] s Hb _ IH]; [done| |done].
  change (available (Chunk b :: s)) with (length b + available s)%nat.
  change (content (Chunk b :: s)) with (b ++ content s). by rewrite length_app, IH.
Qed.

Lemma unread_clean n b s : clean (Chunk b :: s) -> clean (unread n b s).
Proof.
  intros Hs. apply Forall_cons in Hs as [[Hb Hu] Hs']. unfold unread.
  destruct (drop n b) eqn:He; [done|]. constructor; [|done]. split; [done|]. rewrite <- He. by apply Forall_drop.
Qed.

Lemma unread_content n b s : content (unread n b s) = drop n b ++ content s.
Proof. unfold unread. by destruct (drop n b). Qed.

Lemma read_one s : clean s ->
  match content s with
  | [] => read 1 s = (Ok [], [])
  | x :: c => exists s', read 1 s = (Ok [x], s') /\ clean s' /\ content s' = c
  end.
Proof.
  intros Hs. destruct s as [|[b|e] s]; [done| |by inversion Hs].
  pose proof (unread_clean 1 b s Hs) as Hc. apply Forall_cons in Hs as [[Hb _] _].
  destruct b as [|x b]; [done|]. change (content (Chunk (x :: b) :: s)) with (x :: b ++ content s). cbv iota.
  exists (unread 1 (x :: b) s). split_and!; [by destruct b|done|]. by rewrite unread_content.
Qed.

Lemma read_exact_content s n : clean s ->
  exists s', clean s' /\
    read_exact n s = (if (n <=? length (content s))%nat then Ok (take n (content s)) else Err UnexpectedEof, s') /\
    content s' = drop n (content s).
Proof.
  unfold read_exact. intros Hs. revert n. induction Hs as [|ev s Hev Hs IH]; intros n.
  - exists []. split_and!; [by constructor|by destruct n|by destruct n].
  - cbn [read_exact_from]. destruct (Nat.eqb_spec n 0) as [->|Hn].
    { exists (ev :: s). split_and!; [by constructor|done|done]. }
    destruct ev as [b|e]; [|done]. pose proof (unread_clean n b s ltac:(by constructor)) as Hc.
    destruct Hev as [Hne Hu].
    change (content (Chunk b :: s)) with (b ++ content s). rewrite length_app.
    destruct b as [|x b]; [done|]. set (l := x :: b) in *.
    destruct (Nat.leb_spec n (length l)).
    + exists (unread n l s). rewrite unread_content. replace (n <=? _)%nat with true by lia.
      rewrite take_app_le, drop_app_le by lia. done.
    + destruct (IH (n - length l)%nat) as (s' & Hs' & -> & Hc'). exists s'.
      replace (n <=? length l + length (content s))%nat with (n - length l <=? length (content s))%nat
        by (destruct (Nat.leb_spec (n - length l) (length (content s))), (Nat.leb_spec n (length l + length (content s))); lia).
      rewrite take_app_ge, drop_app_ge by lia. split_and!; [done| |done].
      by destruct (_ <=? _)%nat.
Qed.

Lemma take_read_to_end_content s n : clean s ->
  exists s', clean s' /\ take_read_to_end s n = (take n (content s), None, s') /\ content s' = drop n (content s).
Proof.
  intros Hs. revert n. induction Hs as [|ev s Hev Hs IH]; intros n.
  - exists []. split_and!; [by constructor|by destruct n|by destruct n].
  - cbn [take_read_to_end]. destruct (Nat.eqb_spec n 0) as [->|Hn].
    { exists (ev :: s). split_and!; [by constructor|done|done]. }
    destruct ev as [b|e]; [|done]. pose proof (unread_clean n b s ltac:(by constructor)) as Hc.
    destruct Hev as [Hne Hu]. change (content (Chunk b :: s)) with (b ++ content s).
    destruct b as [|x b]; [done|]. set (l := x :: b) in *.
    destruct (Nat.leb_spec n (length l)).
    + exists (unread n l s). rewrite unread_content, take_app_le, drop_app_le by lia. done.
    + destruct (IH (n - length l)%nat) as (s' & Hs' & -> & Hc'). exists s'.
      rewrite take_app_ge, drop_app_ge by lia. done.
Qed.

(** ** Agreement with the reader in memory *)

(** On a clean source the call [m] and the reader in memory have the same
    outcome, and on success leave the same bytes unread. *)
Definition agrees {A} (m : res CarError A * Source) (r : res CarError (A * bytes)) : Prop :=
  match m, r with
  | (Ok a, s), Ok (a', c) => a = a' /\ clean s /\ content s = c
  | (Err e, _), Err e' => e = e'
  | (Panic, _), Panic => True
  | _, _ => False
  end.

Lemma agrees_bind {A B} (m : st Source CarError A) (f : A -> st Source CarError B) s r q :
  agrees (m s) r -> (forall a s', clean s' -> agrees (f a s') (q (a, content s'))) ->
  agrees ((m ≫= f) s) (r ≫= q).
Proof.
  unfold agrees at 1, mbind at 1, st_bind. intros Hm Hf.
  destruct (m s) as [[a|e|] s'], r as [[a' c]|e'|]; try done.
  destruct Hm as (-> & Hs & <-). by apply Hf.
Qed.

Lemma agrees_lift {A} (r : res CarError A) s : clean s -> agrees (lift r s) (a ← r; Ok (a, content s)).
Proof. intros Hs. unfold lift. by destruct r. Qed.

(** The length at the front of the content: [None] at its end. *)
Definition varint_at (c : bytes) : res CarError (option Z * bytes) :=
  if bool_decide (c = []) then Ok (None, [])
  else
    v ← varint_from_slice c;
    match v with
    | None => Err (invalid_block "truncated varint")
    | Some (v, n) => Ok (Some v, drop n c)
    end.

Lemma varint_loop_end c i value v n : varint_loop c i value = Ok (Some (v, n)) -> (i < n)%nat.
Proof.
  revert i value. induction c as [|y c IH]; intros i value; cbn; [done|].
  destruct (varint_step value i y) as [[v' [|]]|e|]; cbn; try done; [intros [= _ <-]; lia|].
  intros H%IH. lia.
Qed.

Lemma read_varint_loop_agrees fuel i value s : clean s -> (0 < i)%nat -> (fuel + i = 9)%nat -> (0 < fuel)%nat ->
  agrees (read_varint_loop fuel i value s)
    (v ← varint_loop (content s) i value;
     match v with
     | None => Err (invalid_block "truncated varint")
     | Some (v, n) => Ok (Some v, drop (n - i) (content s))
     end).
Proof.
  revert i value s. induction fuel as [|fuel IH]; intros i value s Hs Hi Hf Hpos; [lia|]. cbn [read_varint_loop].
  pose proof (read_one s Hs) as Hr. destruct (content s) as [|x c] eqn:Hc.
  { rewrite Hr. by replace (i =? 0)%nat with false by lia. }
  destruct Hr as (s' & -> & Hs' & Hc'). cbn [varint_loop]. unfold lift, mbind at 1, st_bind.
  assert (Hlast : i = 8%nat -> forall v, varint_step value i x <> Ok (v, false)).
  { intros -> v. unfold varint_step. split_ifs; done. }
  destruct (varint_step value i x) as [[v [|]]|e|]; cbn [mbind res_bind]; [| |done..].
  - replace (S i - i)%nat with 1%nat by lia. done.
  - assert (i <> 8%nat) by (intros Hi8; by apply (Hlast Hi8 v)).
    specialize (IH (S i) v s' Hs' ltac:(lia) ltac:(lia) ltac:(lia)). rewrite Hc' in IH.
    destruct (varint_loop c (S i) v) as [[[w n]|]|e|] eqn:Hl; cbn [mbind res_bind] in *; [|done..].
    apply varint_loop_end in Hl.
    replace (n - i)%nat with (S (n - S i)) by lia. exact IH.
Qed.

Lemma read_varint_eof_agrees s : clean s -> agrees (read_varint_eof s) (varint_at (content s)).
Proof.
  intros Hs. unfold read_varint_eof, varint_at. pose proof (read_one s Hs) as Hr.
  destruct (content s) as [|x c] eqn:Hc.
  { cbn [read_varint_loop]. rewrite Hr. split_and!; [done|by constructor|done]. }
  rewrite bool_decide_false by done. change (read_varint_loop 9 0 0 s) with (match read 1 s with
      | (Ok [], s') => (Ok None, s')
      | (Ok (byte :: _), s') =>
          ('(value, done) ← lift (varint_step 0 0 byte);
           if done : bool then mret (Some value) else read_varint_loop 8 1 value) s'
      | (Err e, s') => if is_unexpected_eof e then (Ok None, s') else (Err (CarIo e), s')
      | (Panic, s') => (Panic, s')
      end).
  destruct Hr as (s' & -> & Hs' & Hc'). unfold varint_from_slice. cbn [varint_loop].
  unfold lift, mbind at 1, st_bind. destruct (varint_step 0 0 x) as [[v [|]]|e|]; cbn [mbind res_bind]; [done| |done..].
  pose proof (read_varint_loop_agrees 8 1 v s' Hs' ltac:(lia) ltac:(lia) ltac:(lia)) as H. rewrite Hc' in H.
  destruct (varint_loop c 1 v) as [[[w n]|]|e|] eqn:Hl; cbn [mbind res_bind] in *; [|done..].
  apply varint_loop_end in Hl.
  by replace (drop n (x :: c)) with (drop (n - 1) c) by (destruct n; [lia|cbn; by rewrite Nat.sub_0_r]).
Qed.

Lemma varint_at_nonempty c : c <> [] -> Forall is_u8 c ->
  match varint_from_slice c with
  | Ok (Some (v, n)) => varint_at c = Ok (Some v, drop n c) /\ (n <= length c)%nat /\ 0 <= v
  | Ok None => varint_at c = Err (invalid_block "truncated varint")
  | Err e => varint_at c = Err e
  | Panic => False
  end.
Proof.
  intros Hc Hu. unfold varint_at. rewrite bool_decide_false by done.
  pose proof (varint_from_slice_Ok c) as Hok. pose proof (varint_from_slice_no_panic c) as Hp.
  destruct (varint_from_slice c) as [[[v n]|]|e|]; cbn; try done. split; [done|].
  destruct (proj1 (Hok v n Hu) eq_refl) as (e & r & -> & -> & _ & ->). rewrite length_app.
  pose proof (varint_value_nonneg e). lia.
Qed.

(** [read_exact] of the next [n] bytes. *)
Lemma read_exact_agrees s n t : clean s ->
  agrees (on_source (truncated_or_io t) (read_exact n) s)
    (if (n <=? length (content s))%nat then Ok (take n (content s), drop n (content s)) else Err t).
Proof.
  intros Hs. destruct (read_exact_content s n Hs) as (s' & Hs' & Hr & Hc). unfold on_source. rewrite Hr.
  by destruct (_ <=? _)%nat.
Qed.

Section Agreement.
Context `{Simdutf8}.

Lemma new_agrees s : clean s ->
  agrees (new s) (r ← CarSlice.new (content s); Ok (CarSlice.roots r, CarSlice.rest r)).
Proof.
  intros Hs. pose proof (content_u8 s Hs) as Hu. pose proof (read_varint_eof_agrees s Hs) as Hv.
  unfold new, read_varint, CarSlice.new. destruct (decide (content s = [])) as [Hn|Hn].
  { rewrite Hn in *. change (varint_at []) with (Ok (E:=CarError) (None (A:=Z), @nil Z)) in Hv.
    unfold mbind, st_bind. destruct (read_varint_eof s) as [[v|e|] s1]; try done. by destruct Hv as [-> _]. }
  pose proof (varint_at_nonempty _ Hn Hu) as Hat.
  destruct (varint_from_slice (content s)) as [[[v n]|]|e|]; try done.
  - destruct Hat as (Hat & Hl & Hv0). rewrite Hat in Hv. cbn [mbind res_bind] in *. unfold mbind, st_bind.
    destruct (read_varint_eof s) as [[v'|e|] s1]; try done. destruct Hv as (-> & Hs1 & Hc1).
    cbn [mret st_ret]. unfold lift at 1. destruct (check_header_len v) as [len|e|]; [|done..]. cbn [res_bind].
    pose proof (read_exact_agrees s1 len (invalid_header "truncated header") Hs1) as Hx. rewrite Hc1 in Hx.
    rewrite slice_from_Ok by done. cbn [res_bind]. unfold split_at_checked.
    destruct (len <=? length (drop n (content s)))%nat.
    + destruct (on_source _ _ s1) as [[h|e|] s2]; try done. destruct Hx as (-> & Hs2 & Hc2). unfold lift.
      destruct (decode_header _) as [rts|e|]; done.
    + destruct (on_source _ _ s1) as [[h|e|] s2]; done.
  - rewrite Hat in Hv. cbn [mbind res_bind]. rewrite bool_decide_false by done. unfold mbind, st_bind.
    by destruct (read_varint_eof s) as [[v|e|] s1].
  - rewrite Hat in Hv. unfold mbind, st_bind. by destruct (read_varint_eof s) as [[v|e'|] s1].
Qed.
End Agreement.

Definition slice_block (c : bytes) : res CarError (option Block * bytes) :=
  match CarSlice.next_block (MkSliceReader c []) with
  | (Ok b, r) => Ok (b, CarSlice.rest r)
  | (Err e, _) => Err e
  | (Panic, _) => Panic
  end.

(** The body of a block, after its length, for either reader. *)
Definition read_body (v : Z) : st (Source * Block) CarError bool :=
  block_len_usize ← lift (check_block_len v);
  cid_buf ← on_reader (on_source (truncated_or_io (invalid_block "truncated block data")) (read_exact CID_LEN));
  cid ← lift (map_err Cbor (from_bytes cid_buf));
  _ ← set_cid cid;
  let data_len := (block_len_usize - CID_LEN)%nat in
  read ← read_data data_len;
  if negb (read =? data_len)%nat then fail (invalid_block "truncated block data")
  else mret true.

Definition slice_body (c : bytes) (v : Z) : res CarError (Block * bytes) :=
  len ← check_block_len v;
  let truncated := invalid_block "truncated block data" in
  cid_buf ← ok_or truncated (get_to c CID_LEN);
  cid ← map_err Cbor (from_bytes cid_buf);
  '(block, rest) ← ok_or truncated (split_at_checked c len);
  data ← slice_from block CID_LEN;
  Ok (MkBlock cid data, rest).

Lemma next_block_into_eq : next_block_into =
  (v ← on_reader read_varint_eof; match v with None => mret false | Some v => read_body v end).
Proof. reflexivity. Qed.

Lemma slice_block_eq c : c <> [] -> Forall is_u8 c -> slice_block c =
  ('(v, c') ← varint_at c;
   match v with None => Ok (None, c') | Some v => '(b, rest) ← slice_body c' v; Ok (Some b, rest) end).
Proof.
  intros Hc Hu. unfold slice_block, CarSlice.next_block, next. cbn [rest]. rewrite bool_decide_false by done.
  unfold split_block. cbn [rest CarSlice.roots]. rewrite block_prefix_eq by done.
  pose proof (varint_at_nonempty c Hc Hu) as Hat.
  destruct (varint_from_slice c) as [[[v n]|]|e|]; cbn [mbind res_bind ok_or is_ok] in *; [|by rewrite Hat..|done].
  destruct Hat as (-> & Hl & _). cbn [mbind res_bind]. unfold get_from. rewrite (proj2 (Nat.leb_le _ _)) by done.
  cbn [ok_or res_bind].
  change (check_block_len v ≫= _) with (slice_body (drop n c) v).
  by destruct (slice_body (drop n c) v) as [[b r]|e|].
Qed.

Lemma body_agrees s1 block v c : clean s1 -> content s1 = c -> 0 <= v ->
  match read_body v (s1, block), slice_body c v with
  | (Ok more, (s', b)), Ok (b', c') => more = true /\ b = b' /\ clean s' /\ content s' = c'
  | (Err e, _), Err e' => e = e'
  | (Panic, _), Panic => True
  | _, _ => False
  end.
Proof.
  intros Hs1 Hc Hv. unfold read_body, slice_body.
  unfold mbind, st_bind, on_reader, lift, set_cid, modify, read_data, fail, mret, st_ret.
  destruct (check_block_len v) as [len|e|] eqn:Hlen; cbn [res_bind]; [|done..].
  apply check_block_len_Ok in Hlen as [Hlen Hl]; [|done].
  assert (Hcl : (CID_LEN <= len)%nat) by lia. clear Hl.
  pose proof (read_exact_agrees s1 CID_LEN (invalid_block "truncated block data") Hs1) as Hx. rewrite Hc in Hx.
  unfold get_to. destruct (on_source _ _ s1) as [[buf|e|] s2];
    destruct (Nat.leb_spec CID_LEN (length c)); cbn [ok_or res_bind]; try done.
  destruct Hx as (-> & Hs2 & Hc2).
  destruct (from_bytes (take CID_LEN c)) as [cid'|e|]; cbn [map_err res_bind]; [|done..].
  destruct (take_read_to_end_content s2 (len - CID_LEN) Hs2) as (s3 & Hs3 & -> & Hc3).
  rewrite Hc2 in Hc3. cbn [cid]. rewrite Hc2, length_take, length_drop. unfold split_at_checked.
  destruct (Nat.leb_spec len (length c)); cbn [ok_or res_bind].
  - replace (_ =? _)%nat with true by lia. cbn [negb].
    rewrite slice_from_Ok by (rewrite length_take; lia). cbn [res_bind].
    rewrite take_drop_commute, drop_drop in *. replace (CID_LEN + (len - CID_LEN))%nat with len in * by lia. done.
  - by replace (_ =? _)%nat with false by lia.
Qed.

Lemma next_block_agrees s : clean s -> agrees (next_block s) (slice_block (content s)).
Proof.
  intros Hs. pose proof (content_u8 s Hs) as Hu. pose proof (read_varint_eof_agrees s Hs) as Hv.
  unfold next_block. rewrite next_block_into_eq. unfold mbind, st_bind, on_reader.
  destruct (decide (content s = [])) as [Hn|Hn].
  { rewrite Hn in *. change (varint_at []) with (Ok (E:=CarError) (None (A:=Z), @nil Z)) in Hv.
    destruct (read_varint_eof s) as [[v|e|] s1]; try done. by destruct Hv as (-> & Hs1 & Hc1). }
  rewrite slice_block_eq by done. pose proof (varint_at_nonempty _ Hn Hu) as Hat.
  destruct (varint_from_slice (content s)) as [[[v n]|]|e|]; [|rewrite Hat in *; by destruct (read_varint_eof s) as [[]]..|done].
  destruct Hat as (Hat & Hl & Hv0). rewrite Hat in *. cbn [mbind res_bind].
  destruct (read_varint_eof s) as [[v'|e|] s1]; try done. destruct Hv as (-> & Hs1 & Hc1).
  pose proof (body_agrees s1 block_default v _ Hs1 Hc1 Hv0) as Hb.
  destruct (read_body v _) as [[more|e|] [s2 b]], (slice_body _ v) as [[b' c']|e'|]; try done.
  by destruct Hb as (-> & -> & Hb).
Qed.

(** ** Both read the same archives *)

(** The reader in memory, block by block. *)
Lemma collect_blocks_step fuel c rts : c <> [] -> collect_blocks (S fuel) (MkSliceReader c rts) =
  ('(b, c') ← slice_block c;
   match b with None => Ok [] | Some b => bs ← collect_blocks fuel (MkSliceReader c' rts); Ok (b :: bs) end).
Proof.
  intros Hc. cbn [collect_blocks]. unfold slice_block, CarSlice.next_block, next. cbn [rest].
  rewrite bool_decide_false by done. unfold split_block. cbn [rest CarSlice.roots].
  by destruct (_ ≫= _) as [[b r]|e|].
Qed.

Lemma read_blocks_agrees fuel s rts : clean s -> (length (content s) < fuel)%nat ->
  match read_blocks fuel s, collect_blocks fuel (MkSliceReader (content s) rts) with
  | (Ok a, _), Ok b => a = b
  | (Err e, _), Err e' => e = e'
  | _, _ => False
  end.
Proof.
  revert s. induction fuel as [|fuel IH]; intros s Hs Hl; [lia|].
  pose proof (next_block_agrees s Hs) as Hb. cbn [read_blocks]. unfold mbind at 1, st_bind.
  destruct (decide (content s = [])) as [Hn|Hn].
  { rewrite Hn in *. cbn in Hb. destruct (next_block s) as [[b|e|] s']; try done. by destruct Hb as (-> & _). }
  pose proof (content_u8 s Hs) as Hu. rewrite collect_blocks_step by done.
  assert (Hlt : forall b c', slice_block (content s) = Ok (Some b, c') -> (length c' < length (content s))%nat).
  { intros b c'. unfold slice_block, CarSlice.next_block, next. cbn [rest]. rewrite bool_decide_false by done.
    destruct (split_block _) as [[b0|e|] s'] eqn:Hsp; cbn [is_ok]; try done. intros [= <- <-].
    by apply split_block_shorter in Hsp as [? _]. }
  assert (Hnp : slice_block (content s) <> Panic).
  { unfold slice_block, CarSlice.next_block, next. cbn [rest]. rewrite bool_decide_false by done.
    pose proof (split_block_no_panic (MkSliceReader (content s) []) Hu).
    by destruct (split_block _) as [[b0|e|] s']. }
  destruct (next_block s) as [[b|e|] s'], (slice_block (content s)) as [[b' c']|e'|]; cbn [mbind res_bind]; try done.
  destruct Hb as (-> & Hs' & <-). destruct b' as [b|]; [|done].
  specialize (IH s' Hs' ltac:(specialize (Hlt b _ eq_refl); lia)). unfold mbind, st_bind.
  destruct (read_blocks fuel s') as [[bs|e|] s2], (collect_blocks fuel (MkSliceReader (content s') rts)) as [bs'|e'|]; try done. by subst.
Qed.

(** Whatever the sizes of the chunks in which a source delivers an archive,
    the streaming reader and the reader in memory give the same roots and
    blocks, or the same error. *)
Theorem read_all_read_slice `{Simdutf8} s : clean s ->
  (read_all s).1 = read_slice (content s).
Proof.
  intros Hs. pose proof (new_agrees s Hs) as Hn. unfold read_all, read_slice. unfold mbind at 1 2 3, st_bind, gets.
  destruct (new s) as [[rts|e|] s1], (CarSlice.new (content s)) as [r|e'|]; try done;
    [|by cbn in Hn; subst].
  destruct Hn as (-> & Hs1 & Hc). cbn [mbind res_bind]. rewrite available_content by done.
  pose proof (read_blocks_agrees (S (length (content s1))) s1 (CarSlice.roots r) Hs1 ltac:(lia)) as Hb.
  rewrite Hc in *. replace (MkSliceReader (rest r) (CarSlice.roots r)) with r in Hb by (by destruct r).
  destruct (read_blocks (S (length (rest r))) s1) as [[bs|e|] s2], (collect_blocks (S (length (rest r))) r);
    try done; cbn; by subst.
Qed.

Example read_all_read_slice_witness :
  (@read_all simd_ref [Chunk (take 3 empty_car); Chunk (drop 3 empty_car)]).1 = Ok ([], []).
Proof.
  rewrite (@read_all_read_slice simd_ref [Chunk (take 3 empty_car); Chunk (drop 3 empty_car)]); [reflexivity|].
  repeat constructor; unfold is_u8; (done || lia).
Defined.

(** ** Any source *)

Definition bytes_source (s : Source) : Prop :=
  Forall (fun ev => match ev with Chunk b => Forall is_u8 b | Fault _ => True end) s.

(** At most [n] bytes are left. *)
Definition left (n : nat) (s : Source) : Prop := (available s <= n)%nat /\ bytes_source s.

Lemma available_cons ev s :
  available (ev :: s) = (match ev with Chunk b => length b | Fault _ => 0 end + available s)%nat.
Proof. done. Qed.

Lemma unread_available n b s : available (unread n b s) = (length b - n + available s)%nat.
Proof.
  unfold unread. pose proof (length_drop b n) as Hl. destruct (drop n b); cbn in Hl.
  - lia.
  - rewrite available_cons. cbn [length]. lia.
Qed.

Lemma unread_bytes n b s : bytes_source (Chunk b :: s) -> bytes_source (unread n b s).
Proof.
  intros [Hb Hs]%Forall_cons. unfold unread. destruct (drop n b) eqn:He; [done|].
  constructor; [|done]. rewrite <- He. by apply Forall_drop.
Qed.

Lemma safe_read n k : safe (left n) (read k) (fun b => Forall is_u8 b).
Proof.
  intros s [Hn Hs]. destruct s as [|[b|e] s]; cbn [read].
  - done.
  - pose proof (unread_bytes k b s Hs). apply Forall_cons in Hs as [Hb Hs].
    rewrite available_cons in Hn. unfold left. rewrite unread_available.
    split; [split; [lia|done]|by apply Forall_take].
  - apply Forall_cons in Hs as [_ Hs]. by rewrite available_cons in Hn.
Qed.

Lemma read_one_less s x b s' : read 1 s = (Ok (x :: b), s') -> (available s' < available s)%nat.
Proof.
  destruct s as [|[c|e] s]; cbn [read]; [done| |done]. intros [= Hc <-].
  rewrite unread_available, available_cons. destruct c; [done|cbn; lia].
Qed.

Lemma safe_read_exact n k : safe (left n) (read_exact k) (fun b => Forall is_u8 b /\ length b = k).
Proof.
  intros s. unfold read_exact. revert k n. induction s as [|ev s IH]; intros k n [Hn Hs].
  { cbn. by destruct k. }
  pose proof (fun b => unread_bytes k b s) as Hun. cbn [read_exact_from].
  destruct (Nat.eqb_spec k 0) as [->|Hk]; [done|]. rewrite available_cons in Hn.
  assert (Hleft : left n s) by (apply Forall_cons in Hs as [_ Hs]; split; [destruct ev; lia|done]).
  destruct ev as [b|e].
  - specialize (Hun b Hs). apply Forall_cons in Hs as [Hb Hs]. destruct b as [|x b]; [done|]. set (l := x :: b) in *.
    destruct (Nat.leb_spec k (length l)).
    + split; [split; [rewrite unread_available; lia|done]|]. rewrite length_take. split; [by apply Forall_take|lia].
    + specialize (IH (k - length l)%nat n Hleft). destruct (read_exact_from s _) as [[b'|e|] s']; cbn; [|done..].
      destruct IH as (HI & Hb' & Hl). split; [done|]. split; [by apply (Forall_app_2 _ l)|].
      unfold l in *. cbn [length] in *. rewrite length_app. lia.
  - destruct e; [done|by apply IH|done].
Qed.

Lemma take_read_to_end_left s n k : left n s -> left n (take_read_to_end s k).2.
Proof.
  revert k n. induction s as [|ev s IH]; intros k n [Hn Hs].
  { cbn. by destruct k. }
  pose proof (fun b => unread_bytes k b s) as Hun. cbn [take_read_to_end].
  destruct (Nat.eqb_spec k 0) as [->|Hk]; [done|]. rewrite available_cons in Hn.
  assert (Hleft : left n s) by (apply Forall_cons in Hs as [_ Hs]; split; [destruct ev; lia|done]).
  destruct ev as [b|e].
  - specialize (Hun b Hs). destruct b as [|x b]; [done|]. set (l := x :: b) in *.
    destruct (Nat.leb_spec k (length l)).
    + cbn [snd]. split; [rewrite unread_available; lia|done].
    + specialize (IH (k - length l)%nat n Hleft). by destruct (take_read_to_end s _) as [[b' e] s'].
  - destruct e; [done|by apply IH|done].
Qed.

Lemma safe_on_source {A} n f (m : st Source IoError A) Q : safe (left n) m Q -> safe (left n) (on_source f m) Q.
Proof. intros Hm s Hs. specialize (Hm s Hs). unfold on_source. by destruct (m s) as [[]]. Qed.

Lemma varint_step_no_panic v i b : no_panic (varint_step v i b).
Proof. unfold varint_step. by repeat case_match. Qed.

(** A varint that is read takes at least one byte. *)
Lemma read_varint_loop_safe fuel i value s n : left n s ->
  match read_varint_loop fuel i value s with
  | (Ok v, s') => left n s' /\ (v <> None -> (available s' < available s)%nat)
  | (Err _, s') => left n s'
  | (Panic, _) => False
  end.
Proof.
  revert i value s n. induction fuel as [|fuel IH]; intros i value s n Hs; [done|]. cbn [read_varint_loop].
  pose proof (safe_read n 1 s Hs) as Hr. destruct (read 1 s) as [[[|x b]|e|] s'] eqn:He; [| | |done].
  - destruct Hr as [Hr _]. by destruct (i =? 0)%nat.
  - destruct Hr as [Hr _]. apply read_one_less in He. unfold mbind, st_bind, lift.
    pose proof (varint_step_no_panic value i x) as Hp. destruct (varint_step value i x) as [[v [|]]|e|]; [done| |done..].
    specialize (IH (S i) v s' n Hr). destruct (read_varint_loop fuel (S i) v s') as [[w|e|] s2]; [|done..].
    destruct IH as [HI Hlt]. split; [done|]. intros Hw. specialize (Hlt Hw). lia.
  - destruct (is_unexpected_eof e); [|done]. by destruct (i =? 0)%nat.
Qed.

Lemma next_block_into_safe s b n : left n s ->
  match next_block_into (s, b) with
  | (Ok more, (s', _)) => left n s' /\ (more = true -> (available s' < available s)%nat)
  | (Err _, (s', _)) => left n s'
  | (Panic, _) => False
  end.
Proof.
  intros Hs. rewrite next_block_into_eq. unfold mbind, st_bind, on_reader, read_varint_eof.
  pose proof (read_varint_loop_safe 9 0 0 s n Hs) as Hv.
  destruct (read_varint_loop 9 0 0 s) as [[v|e|] s1]; [|done..]. destruct Hv as [Hs1 Hlt].
  destruct v as [v|]; [|done]. specialize (Hlt ltac:(done)).
  unfold read_body, mbind, st_bind, on_reader, lift.
  pose proof (check_block_len_no_panic v) as Hp. destruct (check_block_len v) as [len|e|]; [|done..].
  assert (Hs1' : left (available s1) s1) by (split; [done|by destruct Hs1]).
  pose proof (safe_on_source _ (truncated_or_io (invalid_block "truncated block data")) _ _ (safe_read_exact (available s1) CID_LEN) s1 Hs1') as Hx.
  assert (Hmono : forall s', left (available s1) s' -> left n s') by (intros s' [? ?]; destruct Hs1; split; [lia|done]).
  destruct (on_source _ _ s1) as [[buf|e|] s2]; [|by auto|done]. destruct Hx as [Hs2 _].
  pose proof (from_bytes_no_panic buf) as Hc. destruct (from_bytes buf) as [c|e|]; cbn; [|by auto|done].
  unfold read_data. pose proof (take_read_to_end_left s2 _ (len - CID_LEN) Hs2) as Hd.
  destruct (take_read_to_end s2 _) as [[d [e|]] s3]; cbn [snd] in Hd; [by auto|].
  destruct (negb _); cbn; [by auto|]. split; [by auto|]. intros _. destruct Hd. lia.
Qed.

Lemma read_blocks_no_panic fuel s : (available s < fuel)%nat -> bytes_source s -> (read_blocks fuel s).1 <> Panic.
Proof.
  revert s. induction fuel as [|fuel IH]; intros s Hl Hs; [lia|]. cbn [read_blocks]. unfold next_block, mbind, st_bind.
  pose proof (next_block_into_safe s block_default (available s) ltac:(done)) as Hb.
  destruct (next_block_into _) as [[more|e|] [s' b]]; cbn [res_bind]; [|done..]. destruct Hb as [[_ Hs'] Hlt].
  destruct more; [|done]. specialize (IH s' ltac:(specialize (Hlt eq_refl); lia) Hs').
  by destruct (read_blocks fuel s') as [[]].
Qed.

(** The header, from any source. *)
Lemma new_safe `{Simdutf8} s : bytes_source s ->
  match new s with
  | (Ok _, s') => bytes_source s'
  | (Err _, _) => True
  | (Panic, _) => False
  end.
Proof.
  intros Hs. assert (Hs' : left (available s) s) by done.
  unfold new, read_varint, mbind, st_bind, read_varint_eof, lift.
  pose proof (read_varint_loop_safe 9 0 0 s _ Hs') as Hv.
  destruct (read_varint_loop 9 0 0 s) as [[[v|]|e|] s1]; [|done..]. destruct Hv as [Hs1 _].
  cbn. pose proof (check_header_len_Ok v) as Hok. pose proof (check_header_len_no_panic v) as Hp.
  destruct (check_header_len v) as [len|e|]; [|done..].
  destruct (proj1 (Hok len) eq_refl) as [Hmax Hlen].
  pose proof (safe_on_source _ (truncated_or_io (invalid_header "truncated header")) _ _ (safe_read_exact (available s) len) s1 Hs1) as Hx.
  destruct (on_source _ _ s1) as [[buf|e|] s2]; [|done..]. destruct Hx as ([_ Hs2] & Hb & Hl).
  pose proof (@decode_header_no_panic H buf Hb) as Hd. destruct (@decode_header H buf) as [rts|e|]; [exact Hs2|exact I|].
  apply Hd; [|done]. destruct (Z.le_gt_cases 0 v); [lia|]. rewrite Hl, Hlen, max_header_size. lia.
Qed.

Lemma read_all_no_panic `{Simdutf8} s : bytes_source s -> (read_all s).1 <> Panic.
Proof.
  intros Hs. unfold read_all, mbind, st_bind, gets. pose proof (new_safe s Hs) as Hn.
  destruct (new s) as [[rts|e|] s1]; [|done..].
  pose proof (read_blocks_no_panic (S (available s1)) s1 ltac:(lia) Hn) as Hb.
  by destruct (read_blocks _ s1) as [[]].
Qed.

(** ** Verification *)

Lemma next_block_into_any s b0 b1 :
  (next_block_into (s, b0)).1 = (next_block_into (s, b1)).1 /\
  (next_block_into (s, b0)).2.1 = (next_block_into (s, b1)).2.1 /\
  ((next_block_into (s, b0)).1 = Ok true -> (next_block_into (s, b0)).2.2 = (next_block_into (s, b1)).2.2).
Proof.
  rewrite next_block_into_eq. unfold mbind, st_bind, on_reader.
  destruct (read_varint_eof s) as [[[v|]|e|] s1]; [|done..]. unfold read_body, mbind, st_bind, on_reader, lift.
  destruct (check_block_len v) as [len|e|]; [|done..]. destruct (on_source _ _ s1) as [[buf|e|] s2]; [|done..].
  destruct (from_bytes buf) as [c|e|]; cbn; [|done..]. destruct (take_read_to_end s2 _) as [[d [e|]] s3]; [done|].
  by destruct (negb _).
Qed.

Section Verify.
Context `{Simdutf8, Sha2}.

(** The CID of a block is the hash of its data. *)
Definition content_addressed (b : Block) : Prop := cid b = compute (codec (cid b)) (data b).

Lemma verify_blocks_spec fuel s b0 :
  (verify_blocks fuel (s, b0)).1 = Ok () <->
  exists blocks, (read_blocks fuel s).1 = Ok blocks /\ Forall content_addressed blocks.
Proof.
  revert s b0. induction fuel as [|fuel IH]; intros s b0; [split; [done|by intros (? & ? & _)]|].
  cbn [verify_blocks read_blocks]. unfold next_block, mbind, st_bind.
  pose proof (next_block_into_any s b0 block_default) as (Hr & Hs & Hb).
  destruct (next_block_into (s, b0)) as [r [s1 b1]], (next_block_into (s, block_default)) as [r2 [s2 b2]].
  cbn [fst snd] in *. subst r2 s2. destruct r as [[|]|e|]; cbn [negb res_bind]; [| |split; [done|by intros (? & ? & _)]..].
  - specialize (Hb eq_refl). subst b2. unfold gets. cbn [snd]. case_bool_decide as Hc.
    + rewrite IH. destruct (read_blocks fuel s1) as [[bs|e|] s2]; cbn [fst].
      * split; [intros (bs' & [= ->] & Hf); exists (b1 :: bs'); split; [done|by constructor]|].
        intros (bs' & [= <-] & Hf). inversion_clear Hf. eauto.
      * split; by intros (? & ? & _).
      * split; by intros (? & ? & _).
    + split; [done|]. intros (bs & Hbs & Hf). destruct (read_blocks fuel s1) as [[bs'|e|] s2]; try done.
      injection Hbs as <-. by inversion_clear Hf.
  - split; [intros _; by exists []|done].
Qed.

(** [verify] accepts exactly the streams that [read_all] reads and in which
    every CID is the hash of its block; it reuses one block for all, which
    makes no difference. Neither ever panics, whatever chunks or I/O errors
    the source delivers, and both end. *)
Theorem verify_spec s : bytes_source s ->
  (read_all s).1 <> Panic /\
  ((verify s).1 = Ok () <->
   exists roots blocks, (read_all s).1 = Ok (roots, blocks) /\ Forall content_addressed blocks).
Proof.
  intros Hs. split; [by apply read_all_no_panic|]. unfold verify, read_all, mbind, st_bind, gets.
  destruct (new s) as [[rts|e|] s1]; [|split; [done|by intros (? & ? & ? & _)]..].
  unfold with_block. pose proof (verify_blocks_spec (S (available s1)) s1 block_default) as Hv.
  destruct (verify_blocks _ _) as [r [s2 b2]], (read_blocks _ s1) as [[bs|e|] s3]; cbn [fst] in *; rewrite Hv; clear.
  - split; [intros (b & [= ->] & Hf); by exists rts, b|]. intros (r' & b & [= _ ->] & Hf). eauto.
  - split; [by intros (? & ? & _)|by intros (? & ? & ? & _)].
  - split; [by intros (? & ? & _)|by intros (? & ? & ? & _)].
Qed.
End Verify.

Example verify_spec_witness : (@verify simd_ref sha2_toy [Chunk empty_car]).1 = Ok ().
Proof.
  apply (@verify_spec simd_ref sha2_toy [Chunk empty_car]).
  - constructor; [by apply u8_literal|done].
  - by exists [], [].
Defined.
