(* ===== verification/CarIncremental.v ===== *)
(** The reader for bytes that arrive in chunks: [src/src/car/incremental.rs]. *)
From S2P Require Import Prelude StateError SyntaxError CborError Varint Cid CborValue CborEncode CborDecode CborShallow Car CarSlice.

Record IncrementalReader := MkIncremental { buf : bytes; pos : nat; roots : option (list Cid) }.

Definition new : IncrementalReader := MkIncremental [] 0 None.

Definition set_pos (p : nat) (s : IncrementalReader) : IncrementalReader := MkIncremental (buf s) p (roots s).
Definition set_roots (r : list Cid) (s : IncrementalReader) : IncrementalReader :=
  MkIncremental (buf s) (pos s) (Some r).

(** [self.buf.drain(..self.pos)] panics when [pos] is past the end. *)
Definition push (chunk : bytes) : st IncrementalReader CarError () := fun s =>
  if (0 <? pos s)%nat then
    match slice_from (E:=CarError) (buf s) (pos s) with
    | Ok b => (Ok (), MkIncremental (b ++ chunk) 0 (roots s))
    | _ => (Panic, s)
    end
  else (Ok (), MkIncremental (buf s ++ chunk) (pos s) (roots s)).

Section Operations.
Context `{Simdutf8}.

(** The range of the frame in [buf]. *)
Definition next_frame (check_len : Z -> res CarError nat) :
    st IncrementalReader CarError (option (nat * nat)) :=
  b ← gets buf; p ← gets pos;
  rest ← lift (slice_from b p);
  varint ← lift (varint_from_slice rest);
  match varint with
  | None => mret None
  | Some (len, prefix) =>
      len ← lift (check_len len);
      if (length rest - prefix <? len)%nat then mret None
      else
        let start := (p + prefix)%nat in
        _ ← modify (set_pos (start + len));
        mret (Some (start, (start + len)%nat))
  end.

Definition read_header : st IncrementalReader CarError bool :=
  r ← gets roots;
  match r with
  | Some _ => mret true
  | None =>
      header ← next_frame check_header_len;
      match header with
      | None => mret false
      | Some (i, j) =>
          b ← gets buf;
          header ← lift (slice b i j);
          roots ← lift (decode_header header);
          _ ← modify (set_roots roots);
          mret true
      end
  end.

Definition next_block : st IncrementalReader CarError (option Block) :=
  header ← read_header;
  if negb header then mret None
  else
    frame ← next_frame check_block_len;
    match frame with
    | None => mret None
    | Some (i, j) =>
        b ← gets buf;
        frame ← lift (slice b i j);
        cid_buf ← lift (slice_to frame CID_LEN);
        cid ← lift (map_err Cbor (from_bytes cid_buf));
        data ← lift (slice_from frame CID_LEN);
        mret (Some (MkBlock cid data))
    end.

Definition next_block_data_len : st IncrementalReader CarError (option nat) :=
  header ← read_header;
  if negb header then mret None
  else
    b ← gets buf; p ← gets pos;
    rest ← lift (slice_from b p);
    varint ← lift (varint_from_slice rest);
    match varint with
    | None => mret None
    | Some (len, _) => len ← lift (check_block_len len); mret (Some (len - CID_LEN)%nat)
    end.
End Operations.

Definition finish (s : IncrementalReader) : res CarError () :=
  rest ← slice_from (buf s) (pos s);
  if bool_decide (roots s = None) then
    Err (invalid_header (if bool_decide (rest = []) then "unexpected EOF reading varint" else "truncated header"))
  else if bool_decide (rest = []) then Ok ()
  else
    varint ← varint_from_slice rest;
    Err (invalid_block (match varint with Some _ => "truncated block data" | None => "truncated varint" end)).

(** ** The loop of the type's documentation

    [for chunk in chunks { reader.push(chunk);
     while let Some(block) = reader.next_block()? { blocks.push(block); } }
     reader.finish()?] *)
Section Driver.
Context `{Simdutf8}.

Fixpoint drain (fuel : nat) : st IncrementalReader CarError (list Block) :=
  match fuel with
  | O => panic
  | S fuel' =>
      b ← next_block;
      match b with
      | None => mret []
      | Some b => bs ← drain fuel'; mret (b :: bs)
      end
  end.

(** The blocks that the bytes pushed so far complete. *)
Definition drain_all : st IncrementalReader CarError (list Block) :=
  fuel ← gets (fun s => length (buf s) - pos s)%nat;
  drain (S fuel).

Fixpoint feed (chunks : list bytes) : st IncrementalReader CarError (list Block) :=
  match chunks with
  | [] => mret []
  | chunk :: chunks' =>
      _ ← push chunk;
      bs ← drain_all;
      bs' ← feed chunks';
      mret (bs ++ bs')
  end.

Definition read_chunks (chunks : list bytes) : res CarError (option (list Cid) * list Block) :=
  match feed chunks new with
  | (Ok blocks, s) => _ ← finish s; Ok (roots s, blocks)
  | (Err e, _) => Err e
  | (Panic, _) => Panic
  end.
End Driver.

(** ** What the state holds *)

(** The bytes not consumed yet; the reader is well formed when they are a
    suffix of the buffer, and what has come in are bytes. *)
Definition pending (s : IncrementalReader) : bytes := drop (pos s) (buf s).

Definition wf (s : IncrementalReader) : Prop := (pos s <= length (buf s))%nat /\ Forall is_u8 (buf s).

Lemma push_spec chunk s : wf s -> Forall is_u8 chunk ->
  exists s', push chunk s = (Ok (), s') /\ wf s' /\ pending s' = pending s ++ chunk /\ roots s' = roots s /\ pos s' = 0%nat.
Proof.
  intros [Hp Hu] Hc. unfold push, pending. destruct (Nat.ltb_spec 0 (pos s)).
  - rewrite slice_from_Ok by done. eexists. split; [done|]. cbn. split_and!; try done.
    split; [cbn; lia|]. apply Forall_app. split; [by apply Forall_drop|done].
  - eexists. split; [done|]. cbn. replace (pos s) with 0%nat by lia. rewrite !drop_0. split_and!; try done.
    split; [cbn; lia|]. by apply Forall_app.
Qed.

(** A frame: as a function of the pending bytes alone. *)
Definition frame_of (check_len : Z -> res CarError nat) (rest : bytes) : res CarError (option (bytes * bytes)) :=
  varint ← varint_from_slice rest;
  match varint with
  | None => Ok None
  | Some (len, prefix) =>
      len ← check_len len;
      if (length rest - prefix <? len)%nat then Ok None
      else Ok (Some (take len (drop prefix rest), drop len (drop prefix rest)))
  end.

Lemma next_frame_spec check s : wf s ->
  match next_frame check s with
  | (Ok None, s') => frame_of check (pending s) = Ok None /\ s' = s
  | (Ok (Some (i, j)), s') => exists body rest, frame_of check (pending s) = Ok (Some (body, rest)) /\
      slice (E:=CarError) (buf s) i j = Ok body /\ pending s' = rest /\ wf s' /\ roots s' = roots s /\ buf s' = buf s /\
      (length rest < length (pending s))%nat
  | (Err e, s') => frame_of check (pending s) = Err e
  | (Panic, _) => frame_of check (pending s) = Panic
  end.
Proof.
  intros [Hp Hu]. unfold next_frame, frame_of, pending, mbind, st_bind, gets, lift, modify, mret, st_ret.
  rewrite slice_from_Ok by done. set (rest := drop (pos s) (buf s)).
  pose proof (varint_from_slice_Ok rest) as Hok. assert (Hur : Forall is_u8 rest) by (by apply Forall_drop).
  destruct (varint_from_slice rest) as [[[len prefix]|]|e|]; cbn [res_bind]; [|done..].
  destruct (proj1 (Hok len prefix Hur) eq_refl) as (enc & tail & Hr & -> & (Hs & _) & ->).
  pose proof (varint_shape_nonempty _ Hs) as Hne.
  destruct (check (varint_value enc)) as [n|e|]; cbn [res_bind]; [|done..].
  destruct (length rest - length enc <? n)%nat eqn:Hn; [done|].
  assert (Hl : length rest = (length (buf s) - pos s)%nat) by apply length_drop.
  assert (Hle : (length enc <= length rest)%nat) by (rewrite Hr, length_app; lia).
  eexists _, _. split; [done|]. unfold set_pos. cbn. rewrite slice_Ok by lia.
  unfold rest. rewrite !drop_drop. split_and!; try done; try lia.
  - do 2 f_equal. lia.
  - split; cbn; [lia|done].
  - rewrite !length_drop. lia.
Qed.

Lemma frame_of_complete check enc body p future tail : canonical_varint enc ->
  check (varint_value enc) = Ok (length body) -> p ++ future = (enc ++ body) ++ tail ->
  frame_of check p =
    Ok (if (length (enc ++ body) <=? length p)%nat then Some (body, drop (length (enc ++ body)) p) else None).
Proof.
  intros He Hc Hp. unfold frame_of. destruct (Nat.le_gt_cases (length enc) (length p)) as [Hle|Hgt].
  - assert (Hp' : exists p', p = enc ++ p' /\ p' ++ future = body ++ tail).
    { exists (drop (length enc) p). rewrite <- app_assoc in Hp.
      pose proof (f_equal (take (length enc)) Hp) as Ht. pose proof (f_equal (drop (length enc)) Hp) as Hd.
      rewrite take_app_le, take_app_length in Ht by done. rewrite drop_app_le, drop_app_length in Hd by done.
      split; [|done]. rewrite <- Ht at 1. by rewrite take_drop. }
    destruct Hp' as (p' & -> & Hp'). rewrite varint_from_slice_app by done. cbn [mbind res_bind]. rewrite Hc.
    rewrite !length_app, drop_app_length, drop_app_add. cbn [mbind res_bind].
    replace (length enc + length p' - length enc <? length body)%nat with (negb (length enc + length body <=? length enc + length p')%nat)
      by lia.
    destruct (Nat.leb_spec (length enc + length body) (length enc + length p')); [|done]. cbn [negb].
    pose proof (f_equal (take (length body)) Hp') as Ht.
    rewrite take_app_le, take_app_length in Ht by lia. by rewrite Ht.
  - rewrite length_app. replace (_ <=? _)%nat with false by lia.
    assert (Hn : varint_from_slice p = Ok None); [|by rewrite Hn].
    apply (varint_from_slice_partial enc p (drop (length p) enc)); [done| |].
    + rewrite <- app_assoc in Hp. pose proof (f_equal (take (length p)) Hp) as Ht.
      rewrite take_app_length, take_app_le in Ht by lia. rewrite Ht at 1. by rewrite take_drop.
    + intros Hnil%(f_equal length). rewrite length_drop in Hnil. cbn in Hnil. lia.
Qed.

Lemma frame_of_sound check p body rest : Forall is_u8 p -> frame_of check p = Ok (Some (body, rest)) ->
  exists enc n, canonical_varint enc /\ p = (enc ++ body) ++ rest /\ check (varint_value enc) = Ok n /\ length body = n.
Proof.
  intros Hu. unfold frame_of. intros (v & Hv & Hr)%res_bind_Ok. destruct v as [[len prefix]|]; [|done].
  apply varint_from_slice_Ok in Hv as (enc & tail & -> & -> & He & ->); [|done].
  apply res_bind_Ok in Hr as (n & Hn & Hr). rewrite length_app in Hr. destruct (_ <? _)%nat eqn:Hl; [done|].
  rewrite drop_app_length in Hr. injection Hr as <- <-. exists enc, n.
  rewrite <- app_assoc, take_drop, length_take. split_and!; [done..|lia].
Qed.

Lemma frame_of_no_panic check p : (forall len, no_panic (check len)) -> no_panic (frame_of check p).
Proof.
  intros Hc. unfold frame_of. apply no_panic_bind; [apply varint_from_slice_no_panic|].
  intros [[len prefix]|] _; [|done]. apply no_panic_bind; [done|]. intros n _. by destruct (_ <? _)%nat.
Qed.

Section Reader.
Context `{Simdutf8Laws}.

(** Reading the header: it is there, or it is consumed, or it has not
    arrived. *)
Lemma read_header_spec s : wf s ->
  match read_header s with
  | (Ok true, s') => wf s' /\
      match roots s with
      | Some r => s' = s
      | None => exists h r, header_frame h r /\ pending s = h ++ pending s' /\ roots s' = Some r
      end
  | (Ok false, s') => s' = s /\ roots s = None /\ frame_of check_header_len (pending s) = Ok None
  | (Err e, _) => roots s = None /\
      (frame_of check_header_len (pending s) = Err e \/
       exists hdr rest, frame_of check_header_len (pending s) = Ok (Some (hdr, rest)) /\ decode_header hdr = Err e)
  | (Panic, _) => False
  end.
Proof.
  intros Hw. unfold read_header, mbind, st_bind, gets, lift, modify. destruct (roots s) as [r|] eqn:Hr; [done|].
  pose proof (next_frame_spec check_header_len s Hw) as Hn.
  destruct (next_frame check_header_len s) as [[[[i j]|]|e|] s1]; [| | |].
  - destruct Hn as (hdr & rest & Hf & Hs & Hp & Hw1 & Hr1 & Hb & _). rewrite Hb, Hs.
    assert (Hup : Forall is_u8 (pending s)) by (apply Forall_drop, Hw).
    pose proof (frame_of_sound _ _ _ _ Hup Hf) as (enc & n & He & Hpe & [Hmax Hn]%check_header_len_Ok & Hl).
    pose proof (varint_value_nonneg enc).
    assert (Hu : Forall is_u8 hdr) by (rewrite Hpe in Hup; by apply Forall_app in Hup as [[_ ?]%Forall_app _]).
    pose proof (decode_header_no_panic hdr Hu ltac:(lia)) as Hnp.
    destruct (decode_header hdr) as [r|e|] eqn:Hd; [|split; [done|right; by exists hdr, rest]|done].
    cbn [mret st_ret]. split; [done|]. exists (enc ++ hdr), r. split; [|split; [|done]].
    + apply header_frame_parts. exists enc, hdr. split_and!; try done. apply check_header_len_Ok. split; [done|lia].
    + by rewrite Hpe, <- Hp.
  - naive_solver.
  - naive_solver.
  - by apply (frame_of_no_panic check_header_len (pending s) check_header_len_no_panic).
Qed.

Lemma next_block_spec s r : wf s -> roots s = Some r ->
  match next_block s with
  | (Ok (Some b), s') => wf s' /\ roots s' = Some r /\ (length (pending s') < length (pending s))%nat /\
      exists f, block_frame f b /\ pending s = f ++ pending s'
  | (Ok None, s') => s' = s /\ frame_of check_block_len (pending s) = Ok None
  | (Err e, _) => frame_of check_block_len (pending s) = Err e \/
       exists body rest e', frame_of check_block_len (pending s) = Ok (Some (body, rest)) /\
         from_bytes (take CID_LEN body) = Err e' /\ e = Cbor e'
  | (Panic, _) => False
  end.
Proof.
  intros Hw Hr. unfold next_block, read_header, mbind, st_bind, gets, lift, modify. rewrite Hr. cbn [negb mret st_ret].
  pose proof (next_frame_spec check_block_len s Hw) as Hn.
  destruct (next_frame check_block_len s) as [[[[i j]|]|e|] s1]; [| | |].
  - destruct Hn as (body & rest & Hf & Hs & Hp & Hw1 & Hr1 & Hb & Hlt). rewrite Hb, Hs.
    assert (Hup : Forall is_u8 (pending s)) by (apply Forall_drop, Hw).
    pose proof (frame_of_sound _ _ _ _ Hup Hf) as (enc & n & He & Hpe & Hc & Hl).
    pose proof Hc as [Hmin Hn]%check_block_len_Ok; [|apply varint_value_nonneg].
    assert (Hu : Forall is_u8 body) by (rewrite Hpe in Hup; by apply Forall_app in Hup as [[_ ?]%Forall_app _]).
    assert (HCL : (CID_LEN <= length body)%nat) by lia.
    rewrite slice_to_Ok, slice_from_Ok by done.
    pose proof (from_bytes_no_panic (take CID_LEN body)) as Hnp. destruct (from_bytes (take CID_LEN body)) as [c|e|] eqn:Hfb;
      cbn [map_err]; [|naive_solver|done].
    apply from_bytes_Ok in Hfb as [Hwf Hcb]; [|by apply Forall_take].
    split_and!; [done|congruence|by subst rest|]. exists (enc ++ body). split; [|by rewrite Hpe, <- Hp].
    apply block_frame_parts. exists enc. cbn [cid data]. rewrite Hcb, take_drop, length_drop.
    split_and!; [done..|]. rewrite Hc. f_equal. lia.
  - naive_solver.
  - naive_solver.
  - by apply (frame_of_no_panic check_block_len (pending s) check_block_len_no_panic).
Qed.

(** ** Sound: what is yielded is a prefix of the stream *)

(** The blocks yielded so far and the pending bytes make up what was pushed. *)
Definition consumed (total : bytes) (blocks : list Block) (s : IncrementalReader) : Prop :=
  wf s /\
  match roots s with
  | None => blocks = [] /\ total = pending s
  | Some r => exists h body, header_frame h r /\ block_frames body blocks /\ total = h ++ body ++ pending s
  end.

Lemma read_header_consumed total s : consumed total [] s -> roots s = None ->
  match read_header s with
  | (Ok true, s') => consumed total [] s' /\ (exists r, roots s' = Some r) /\
      (length (pending s') <= length (pending s))%nat
  | (Ok false, s') => s' = s
  | (Err _, _) => True
  | (Panic, _) => False
  end.
Proof.
  intros [Hw Hc] Hr. rewrite Hr in Hc. destruct Hc as [_ ->]. pose proof (read_header_spec s Hw) as Hh.
  destruct (read_header s) as [[[|]|e|] s1]; [|naive_solver|done..]. rewrite Hr in Hh.
  destruct Hh as (Hw1 & h & r & Hf & Hp & Hr1). split; [|split; [eauto|rewrite Hp, length_app; lia]].
  split; [done|]. rewrite Hr1. exists h, []. split_and!; [done|by apply block_frames_nil|done].
Qed.

(** [next_block] when the header has been read. *)
Lemma next_block_after s s1 : read_header s = (Ok true, s1) -> (exists r, roots s1 = Some r) ->
  next_block s = next_block s1.
Proof.
  intros Hh [r Hr]. unfold next_block. rewrite (st_bind_run _ _ s true s1) by done.
  rewrite (st_bind_run _ _ s1 true s1); [done|]. unfold read_header, mbind, st_bind, gets. by rewrite Hr.
Qed.

Lemma next_block_consumed total blocks s : consumed total blocks s ->
  match next_block s with
  | (Ok (Some b), s') => consumed total (blocks ++ [b]) s' /\ (length (pending s') < length (pending s))%nat
  | (Ok None, s') => consumed total blocks s'
  | (Err _, _) => True
  | (Panic, _) => False
  end.
Proof.
  assert (Hsome : forall s r, consumed total blocks s -> roots s = Some r ->
    match next_block s with
    | (Ok (Some b), s') => consumed total (blocks ++ [b]) s' /\ (length (pending s') < length (pending s))%nat
    | (Ok None, s') => consumed total blocks s'
    | (Err _, _) => True
    | (Panic, _) => False
    end).
  { clear s. intros s r Hc Hr. pose proof Hc as [Hw Hc']. rewrite Hr in Hc'. destruct Hc' as (h & body & Hh & Hb & Htot).
    pose proof (next_block_spec s r Hw Hr) as Hn. destruct (next_block s) as [[[b|]|e|] s1]; [|by destruct Hn as [-> _]|done..].
    destruct Hn as (Hw1 & Hr1 & Hlt & f & Hf & Hp). split; [|done]. split; [done|]. rewrite Hr1.
    exists h, (body ++ f). split_and!; [done| |by rewrite Htot, Hp, <- app_assoc].
    apply block_frames_app; [done|]. apply block_frames_cons. exists f, []. rewrite app_nil_r.
    split_and!; [done..|by apply block_frames_nil]. }
  intros Hc. destruct (roots s) as [r|] eqn:Hr; [by apply (Hsome s r)|].
  assert (blocks = []) as -> by (destruct Hc as [_ Hc]; rewrite Hr in Hc; by destruct Hc).
  pose proof (read_header_consumed total s Hc Hr) as Hh.
  destruct (read_header s) as [[[|]|e|] s1] eqn:Hrun; [| | |done].
  - destruct Hh as (Hc1 & [r Hr1] & Hle). rewrite (next_block_after s s1 Hrun) by eauto.
    specialize (Hsome s1 r Hc1 Hr1). destruct (next_block s1) as [[[b|]|e|] s2]; try done.
    destruct Hsome. split; [done|lia].
  - subst s1. unfold next_block. by rewrite (st_bind_run _ _ s false s).
  - unfold next_block, mbind, st_bind. by rewrite Hrun.
Qed.

Lemma drain_consumed fuel total blocks s : consumed total blocks s -> (length (pending s) < fuel)%nat ->
  match drain fuel s with
  | (Ok bs, s') => consumed total (blocks ++ bs) s'
  | (Err _, _) => True
  | (Panic, _) => False
  end.
Proof.
  revert blocks s. induction fuel as [|fuel IH]; intros blocks s Hc Hl; [lia|]. cbn [drain]. unfold mbind, st_bind.
  pose proof (next_block_consumed total blocks s Hc) as Hn.
  destruct (next_block s) as [[[b|]|e|] s1]; [|cbn; by rewrite app_nil_r|done..]. destruct Hn as [Hc1 Hlt].
  specialize (IH _ s1 Hc1 ltac:(lia)). destruct (drain fuel s1) as [[bs|e|] s2]; [|done..].
  cbn. by rewrite <- app_assoc in IH.
Qed.

Lemma pending_length s : length (pending s) = (length (buf s) - pos s)%nat.
Proof. apply length_drop. Qed.

Lemma drain_all_run s : drain_all s = drain (S (length (pending s))) s.
Proof. unfold drain_all. rewrite (st_bind_run _ _ s (length (buf s) - pos s)%nat s) by done. by rewrite pending_length. Qed.

Lemma push_consumed total blocks chunk s : consumed total blocks s -> Forall is_u8 chunk ->
  exists s', push chunk s = (Ok (), s') /\ consumed (total ++ chunk) blocks s'.
Proof.
  intros [Hw Hc] Hu. destruct (push_spec chunk s Hw Hu) as (s1 & Hrun & Hw1 & Hp & Hr & _). exists s1. split; [done|].
  split; [done|]. rewrite Hr. destruct (roots s) as [r|].
  - destruct Hc as (h & body & Hh & Hb & ->). exists h, body. rewrite Hp, <- !app_assoc. done.
  - destruct Hc as [-> ->]. by rewrite Hp.
Qed.

Lemma feed_consumed chunks total blocks s : consumed total blocks s -> Forall (Forall is_u8) chunks ->
  match feed chunks s with
  | (Ok bs, s') => consumed (total ++ concat chunks) (blocks ++ bs) s'
  | (Err _, _) => True
  | (Panic, _) => False
  end.
Proof.
  intros Hc Hu. revert total blocks s Hc. induction Hu as [|chunk chunks Hu _ IH]; intros total blocks s Hc.
  { cbn. by rewrite !app_nil_r. }
  cbn [feed concat]. destruct (push_consumed total blocks chunk s Hc Hu) as (s1 & Hrun & Hc1).
  rewrite (st_bind_run _ _ s () s1 Hrun). unfold mbind, st_bind. rewrite drain_all_run.
  pose proof (drain_consumed (S (length (pending s1))) _ _ s1 Hc1 ltac:(lia)) as Hd.
  destruct (drain _ s1) as [[bs|e|] s2]; [|done..]. specialize (IH _ _ s2 Hd).
  destruct (feed chunks s2) as [[bs'|e|] s3]; [|done..]. cbn. by rewrite !app_assoc in *.
Qed.

Lemma finish_Ok s : wf s -> finish s = Ok () <-> (exists r, roots s = Some r) /\ pending s = [].
Proof.
  intros [Hp _]. unfold finish. rewrite slice_from_Ok by done. cbn [mbind res_bind]. fold (pending s).
  destruct (roots s) as [r|]; [|by split; [|intros [[? ?] _]]]. rewrite bool_decide_false by done.
  case_bool_decide as Hn; [split; eauto|]. split; [|naive_solver]. by destruct (varint_from_slice _).
Qed.

Lemma finish_no_panic s : wf s -> no_panic (finish s).
Proof.
  intros [Hp _]. unfold finish. rewrite slice_from_Ok by done. cbn [mbind res_bind].
  repeat case_bool_decide; try done. apply no_panic_bind; [apply varint_from_slice_no_panic|done].
Qed.

(** ** Complete: a valid stream is read to its end *)

Lemma take_cid c d : cid_wf c -> take CID_LEN (to_bytes c ++ d) = to_bytes c.
Proof. intros Hc. rewrite take_app_le, take_ge by (rewrite (to_bytes_length _ Hc); unfold CID_LEN; lia). done. Qed.

Lemma block_frame_of f b p future tail : block_frame f b -> p ++ future = f ++ tail ->
  frame_of check_block_len p =
    Ok (if (length f <=? length p)%nat then Some (to_bytes (cid b) ++ data b, drop (length f) p) else None).
Proof.
  intros (enc & He & Hc & -> & Hn)%block_frame_parts Hp.
  apply (frame_of_complete _ enc (to_bytes (cid b) ++ data b) p future tail); [done| |done].
  rewrite Hn, length_app, (to_bytes_length _ Hc). done.
Qed.

Lemma frame_of_app check enc body x : canonical_varint enc -> check (varint_value enc) = Ok (length body) ->
  frame_of check ((enc ++ body) ++ x) = Ok (Some (body, x)).
Proof.
  intros He Hc. rewrite (frame_of_complete check enc body _ [] x He Hc) by (by rewrite app_nil_r).
  rewrite (length_app (enc ++ body)), drop_app_length. by rewrite (proj2 (Nat.leb_le _ _)) by lia.
Qed.

Lemma block_frame_app f b x : block_frame f b -> frame_of check_block_len (f ++ x) = Ok (Some (to_bytes (cid b) ++ data b, x)).
Proof.
  intros Hf. rewrite (block_frame_of f b _ [] x Hf) by (by rewrite app_nil_r).
  rewrite length_app, drop_app_length. by rewrite (proj2 (Nat.leb_le _ _)) by lia.
Qed.

Lemma block_frame_inj f f' b b' x y : block_frame f b -> block_frame f' b' -> f ++ x = f' ++ y ->
  f = f' /\ b = b' /\ x = y.
Proof.
  intros Hf Hf' He. pose proof (block_frame_app f b x Hf) as H1.
  rewrite He, (block_frame_app f' b' y Hf') in H1.
  assert (to_bytes (cid b) ++ data b = to_bytes (cid b') ++ data b' /\ x = y) as [Hb ->] by (split; congruence).
  split_and!; [by apply app_inv_tail in He| |done].
  destruct Hf as [Hw _], Hf' as [Hw' _].
  pose proof (f_equal (take CID_LEN) Hb) as Hc. rewrite !take_cid in Hc by done.
  rewrite Hc in Hb. apply app_inv_head in Hb. apply (f_equal from_bytes) in Hc.
  rewrite !from_bytes_to_bytes in Hc by done. destruct b, b'. cbn in *. congruence.
Qed.

Section Expects.
Variables (h : bytes) (r : list Cid) (future : bytes).
Hypothesis header : header_frame h r.

(** What is pending and what is still to come is the rest of a valid archive. *)
Definition expects (frames : list bytes) (s : IncrementalReader) : Prop :=
  wf s /\
  (roots s = None /\ pending s ++ future = h ++ concat frames \/
   roots s = Some r /\ pending s ++ future = concat frames).

(** The next frame has not fully arrived. *)
Definition stuck (frames : list bytes) (s : IncrementalReader) : Prop :=
  match roots s with
  | None => (length (pending s) < length h)%nat
  | Some _ => match frames with [] => True | f :: _ => (length (pending s) < length f)%nat end
  end.

Lemma next_block_expects_some frames blocks s : Forall2 block_frame frames blocks -> expects frames s ->
  roots s = Some r ->
  match next_block s with
  | (Ok (Some b), s') => exists f fs bs, frames = f :: fs /\ blocks = b :: bs /\ expects fs s' /\ roots s' = Some r
  | (Ok None, s') => s' = s /\ stuck frames s
  | _ => False
  end.
Proof.
  intros Hfs [Hw He] Hr. destruct He as [[? _]|[_ He]]; [congruence|].
  pose proof (next_block_spec s r Hw Hr) as Hn. unfold stuck. rewrite Hr. destruct Hfs as [|f b fs bs Hf Hfs].
  - apply app_eq_nil in He as [Hp ->]. rewrite Hp in Hn.
    destruct (next_block s) as [[[b|]|e|] s1]; [|by destruct Hn| |done].
    + destruct Hn as (_ & _ & Hlt & _). cbn in Hlt. lia.
    + by destruct Hn as [Hn|(? & ? & ? & Hn & _)].
  - cbn [concat] in He. pose proof (block_frame_of f b _ _ _ Hf He) as Hfo. rewrite Hfo in Hn.
    destruct (next_block s) as [[[b'|]|e|] s1]; [| | |done].
    + destruct Hn as (Hw1 & Hr1 & _ & f' & Hf' & Hp). rewrite Hp, <- app_assoc in He.
      destruct (block_frame_inj _ _ _ _ _ _ Hf' Hf He) as (-> & -> & He1).
      exists f, fs, bs. split_and!; [done..| |done]. split; [done|]. by right.
    + destruct Hn as [-> Hn]. split; [done|]. destruct (Nat.leb_spec (length f) (length (pending s))); [done|lia].
    + exfalso. destruct Hn as [Hn|(body & rest & e' & Hn & Hb & _)]; [done|]. destruct (_ <=? _)%nat; [|done].
      assert (body = to_bytes (cid b) ++ data b) as -> by congruence. destruct Hf as [Hc _]. by rewrite take_cid, from_bytes_to_bytes in Hb.
Qed.

Lemma header_frame_of p tail : p ++ future = h ++ tail ->
  exists hdr, frame_of check_header_len p =
    Ok (if (length h <=? length p)%nat then Some (hdr, drop (length h) p) else None) /\ decode_header hdr = Ok r.
Proof using H0 header.
  intros Hp. pose proof header as (enc & hdr & He & Hu & -> & Hc & Hd)%header_frame_parts. exists hdr.
  split; [|done]. by apply (frame_of_complete _ enc hdr p future tail).
Qed.

Lemma header_frame_inj h' r' x y : header_frame h' r' -> h' ++ x = h ++ y -> h' = h /\ r' = r /\ x = y.
Proof using H0 header.
  intros (e' & hd' & He' & _ & -> & Hc' & Hd')%header_frame_parts Heq.
  pose proof header as (e & hd & He & _ & -> & Hc & Hd)%header_frame_parts.
  pose proof (frame_of_app _ e' hd' x He' Hc') as H1. rewrite Heq, (frame_of_app _ e hd y He Hc) in H1.
  assert (hd' = hd /\ x = y) as [-> ->] by (split; congruence).
  split_and!; [by apply app_inv_tail in Heq|congruence|done].
Qed.

Lemma next_block_expects frames blocks s : Forall2 block_frame frames blocks -> expects frames s ->
  match next_block s with
  | (Ok (Some b), s') => exists f fs bs, frames = f :: fs /\ blocks = b :: bs /\ expects fs s'
  | (Ok None, s') => expects frames s' /\ stuck frames s'
  | _ => False
  end.
Proof using H0 header.
  intros Hfs He. pose proof He as [Hw [[Hr Hp]|[Hr Hp]]].
  2:{ pose proof (next_block_expects_some frames blocks s Hfs He Hr) as Hn.
      destruct (next_block s) as [[[b|]|e|] s1]; [|by destruct Hn as [-> Hn]|done..]. naive_solver. }
  pose proof (read_header_spec s Hw) as Hh. rewrite Hr in Hh.
  destruct (header_frame_of (pending s) (concat frames) Hp) as (hdr & Hfo & Hd). rewrite Hfo in Hh.
  destruct (read_header s) as [[[|]|e|] s1] eqn:Hrun; [| | |done].
  - destruct Hh as (Hw1 & h' & r' & Hf & Hps & Hr1). rewrite Hps, <- app_assoc in Hp.
    destruct (header_frame_inj _ _ _ _ Hf Hp) as (-> & -> & Hp1).
    assert (He1 : expects frames s1) by (split; [done|by right]).
    rewrite (next_block_after s s1 Hrun) by eauto.
    pose proof (next_block_expects_some frames blocks s1 Hfs He1 Hr1) as Hn.
    destruct (next_block s1) as [[[b|]|e|] s2]; [|by destruct Hn as [-> Hn]|done..]. naive_solver.
  - destruct Hh as (-> & _ & Hn). unfold next_block. rewrite (st_bind_run _ _ s false s) by done. cbn.
    split; [done|]. unfold stuck. rewrite Hr. destruct (Nat.leb_spec (length h) (length (pending s))); [done|lia].
  - exfalso. destruct Hh as [_ [Hn|(hdr' & rest & Hn & Hd')]]; [done|]. destruct (_ <=? _)%nat; [|done]. congruence.
Qed.

Lemma drain_expects fuel frames blocks s : Forall2 block_frame frames blocks -> expects frames s ->
  (length (pending s) < fuel)%nat ->
  exists bs s' fs2 bs2, drain fuel s = (Ok bs, s') /\ blocks = bs ++ bs2 /\ Forall2 block_frame fs2 bs2 /\
    expects fs2 s' /\ stuck fs2 s'.
Proof using H0 header.
  revert frames blocks s. induction fuel as [|fuel IH]; intros frames blocks s Hfs He Hl; [lia|].
  cbn [drain]. unfold mbind, st_bind. pose proof (next_block_expects frames blocks s Hfs He) as Hn.
  assert (Hshort : forall b s', next_block s = (Ok (Some b), s') -> (length (pending s') < length (pending s))%nat).
  { intros b s' Hrun. destruct He as [Hw _].
    destruct (roots s) as [r0|] eqn:Hr0.
    - pose proof (next_block_spec s r0 Hw Hr0) as Hs. rewrite Hrun in Hs. by destruct Hs as (_ & _ & ? & _).
    - pose proof (next_block_consumed (pending s) [] s) as Hs. rewrite Hrun in Hs. apply Hs.
      split; [done|]. by rewrite Hr0. }
  destruct (next_block s) as [[[b|]|e|] s1]; [| |done..].
  - destruct Hn as (f & fs & bs & -> & -> & He1). inversion_clear Hfs.
    destruct (IH fs bs s1) as (bs1 & s2 & fs2 & bs2 & Hrun & -> & Hrest); [done..|specialize (Hshort b s1 eq_refl); lia|].
    exists (b :: bs1), s2, fs2, bs2. rewrite Hrun. done.
  - destruct Hn as [He1 Hst]. by exists [], s1, frames, blocks.
Qed.
End Expects.

Lemma push_expects h r future chunk frames s : expects h r (chunk ++ future) frames s -> Forall is_u8 chunk ->
  exists s', push chunk s = (Ok (), s') /\ expects h r future frames s'.
Proof.
  intros [Hw He] Hu. destruct (push_spec chunk s Hw Hu) as (s1 & Hrun & Hw1 & Hp & Hr & _). exists s1.
  split; [done|]. split; [done|]. rewrite Hr, Hp, <- app_assoc. done.
Qed.

Lemma feed_expects h r chunks frames blocks s : header_frame h r -> Forall2 block_frame frames blocks ->
  Forall (Forall is_u8) chunks -> expects h r (concat chunks) frames s -> stuck h frames s ->
  exists bs s' fs2 bs2, feed chunks s = (Ok bs, s') /\ blocks = bs ++ bs2 /\ Forall2 block_frame fs2 bs2 /\
    expects h r [] fs2 s' /\ stuck h fs2 s'.
Proof.
  intros Hh Hfs Hu. revert frames blocks s Hfs. induction Hu as [|chunk chunks Hu _ IH]; intros frames blocks s Hfs He Hst.
  { by exists [], s, frames, blocks. }
  cbn [feed concat] in *. destruct (push_expects _ _ _ _ _ _ He Hu) as (s1 & Hrun & He1).
  rewrite (st_bind_run _ _ s () s1 Hrun). unfold mbind, st_bind. rewrite drain_all_run.
  destruct (drain_expects h r _ Hh (S (length (pending s1))) frames blocks s1 Hfs He1 ltac:(lia))
    as (bs & s2 & fs2 & bs2 & -> & -> & Hfs2 & He2 & Hst2).
  destruct (IH fs2 bs2 s2 Hfs2 He2 Hst2) as (bs' & s3 & fs3 & bs3 & -> & -> & Hrest).
  exists (bs ++ bs'), s3, fs3, bs3. split; [done|]. by rewrite app_assoc.
Qed.

(** At the end of the stream nothing is left. *)
Lemma expects_done h r frames s : expects h r [] frames s -> stuck h frames s -> Forall (fun f => f <> []) frames ->
  h <> [] -> roots s = Some r /\ pending s = [] /\ frames = [].
Proof.
  unfold stuck. intros [Hw [[Hr Hp]|[Hr Hp]]] Hst Hne Hh; rewrite Hr, app_nil_r in *.
  - rewrite Hp, length_app in Hst. lia.
  - destruct frames as [|f fs]; [done|]. rewrite Hp in Hst. cbn [concat] in Hst. rewrite length_app in Hst. lia.
Qed.

Lemma header_frame_nonempty h r : header_frame h r -> h <> [].
Proof.
  intros (enc & hdr & (Hs & _) & _ & -> & _)%header_frame_parts. pose proof (varint_shape_nonempty _ Hs).
  by destruct enc; [cbn in *; lia|].
Qed.

(** C36. However a stream is cut into chunks, draining the reader after each one
    neither panics nor runs forever, and reading succeeds exactly when the
    whole stream is an archive of the format, with its roots and its blocks
    in order: the same archives that [read_slice] accepts. *)
Theorem read_chunks_spec chunks : Forall (Forall is_u8) chunks ->
  no_panic (read_chunks chunks) /\
  forall r blocks, read_chunks chunks = Ok (r, blocks) <->
    exists roots, r = Some roots /\ car_format (concat chunks) roots blocks.
Proof.
  intros Hu. assert (Hinit : consumed [] [] new) by (split; [split; [done|constructor]|done]).
  pose proof (feed_consumed chunks [] [] new Hinit Hu) as Hf. cbn [app] in Hf. unfold read_chunks. split.
  { destruct (feed chunks new) as [[bs|e|] s]; [|done..]. apply no_panic_bind; [apply finish_no_panic, Hf|done]. }
  intros r blocks. split.
  - destruct (feed chunks new) as [[bs|e|] s]; [|done..]. intros ([] & Hfin & [= <- <-])%res_bind_Ok.
    destruct Hf as [Hw Hf]. apply finish_Ok in Hfin as [[rts Hr] Hp]; [|done]. rewrite Hr in *.
    destruct Hf as (h & body & Hh & Hb & ->). rewrite Hp, app_nil_r. exists rts. split; [done|]. by exists h, body.
  - intros (rts & -> & h & body & Hh & (fs & Hfs & ->) & Hcat).
    pose proof (header_frame_nonempty _ _ Hh) as Hne.
    destruct (feed_expects h rts chunks fs blocks new Hh Hfs Hu) as (bs & s' & fs2 & bs2 & Hrun & -> & Hfs2 & He & Hst).
    + split; [split; [done|constructor]|]. left. split; [done|]. cbn. by rewrite Hcat.
    + unfold stuck. cbn. destruct h; [done|cbn; lia].
    + rewrite Hrun. destruct (expects_done h rts fs2 s' He Hst) as (Hr & Hp & ->); [|done|].
      { clear -Hfs2. induction Hfs2 as [|f b fs bs Hf _ IH]; constructor; [|done].
        apply block_frame_nonempty in Hf. by destruct f; [cbn in Hf; lia|]. }
      inversion Hfs2; subst. rewrite (proj2 (finish_Ok s' ltac:(by destruct He))) by eauto. cbn.
      by rewrite Hr, app_nil_r.
Qed.
End Reader.

#[local] Existing Instances simd_ref simd_ref_laws.

Example read_chunks_spec_witness :
  read_chunks [take 5 empty_car; []; drop 5 empty_car] = Ok (Some [], []).
Proof.
  apply (read_chunks_spec [take 5 empty_car; []; drop 5 empty_car]).
  - repeat constructor; unfold is_u8; (done || lia).
  - exists []. split; [done|]. apply (read_slice_Ok empty_car); [by apply u8_literal|reflexivity].
Defined.
