(* ===== verification/MstHeight.v ===== *)
(** The height of a key in the Merkle search tree: [src/src/mst/height.rs]. *)
From S2P Require Import Prelude SyntaxError CborError Cid.

(** [word.leading_zeros()] of a [u64]. *)
Definition leading_zeros (word : Z) : Z := if word =? 0 then 64 else 63 - Z.log2 word.

(** [for i in (0..32).step_by(8)]: the words from byte [i] on. *)
Fixpoint height_loop (words : list bytes) (i : Z) : Z :=
  match words with
  | [] => 128
  | w :: words' =>
      let word := be_value w in
      if word =? 0 then height_loop words' (i + 8) else i * 4 + leading_zeros word / 2
  end.

Definition height_from_hash (h : bytes) : Z := height_loop (as_chunks 8 h).1 0.

Definition height_for_key `{Sha2} (key : bytes) : Z := height_from_hash (sha256 key).

#[global] Arguments height_for_key : simpl never.

(** ** Reference: leading zero pairs of bits *)

(** The bits of a byte string as pairs, most significant first. *)
Definition pairs_of_byte (b : Z) : list Z := [b / 64; (b / 16) mod 4; (b / 4) mod 4; b mod 4].

Fixpoint leading_zero_pairs (ps : list Z) : Z :=
  match ps with
  | [] => 0
  | p :: ps' => if p =? 0 then 1 + leading_zero_pairs ps' else 0
  end.

Definition height_reference (h : bytes) : Z := leading_zero_pairs (concat (pairs_of_byte <$> h)).

#[local] Ltac Zify.zify_post_hook ::= Z.to_euclidean_division_equations.

Lemma leading_zero_pairs_zeros n ps :
  leading_zero_pairs (replicate n 0 ++ ps) = Z.of_nat n + leading_zero_pairs ps.
Proof. induction n as [|n IH]; [done|]. cbn [replicate app leading_zero_pairs]. rewrite IH. cbn. lia. Qed.

Lemma leading_zeros_bound w n : 0 <= n -> 2 ^ n <= w < 2 ^ (n + 1) -> leading_zeros w = 63 - n.
Proof.
  intros Hn Hw. unfold leading_zeros. pose proof (Z.pow_pos_nonneg 2 n ltac:(lia) Hn).
  replace (w =? 0) with false by lia. f_equal. by apply Z.log2_unique.
Qed.

(** In a byte that is not zero. *)
Lemma pairs_of_byte_zeros x ps : 0 < x < 256 ->
  leading_zero_pairs (pairs_of_byte x ++ ps) = 3 - Z.log2 x / 2.
Proof.
  intros Hx. assert (Hl : forall n, 0 <= n -> 2 ^ n <= x < 2 ^ (n + 2) -> n <= Z.log2 x <= n + 1).
  { intros n Hn [H1 H2]. apply Z.log2_le_mono in H1. rewrite Z.log2_pow2 in H1 by done.
    apply Z.log2_lt_pow2 in H2; lia. }
  cbn [pairs_of_byte app leading_zero_pairs].
  destruct (Z.eqb_spec (x / 64) 0); [|specialize (Hl 6); lia].
  destruct (Z.eqb_spec ((x / 16) mod 4) 0); [|specialize (Hl 4); lia].
  destruct (Z.eqb_spec ((x / 4) mod 4) 0); [|specialize (Hl 2); lia].
  destruct (Z.eqb_spec (x mod 4) 0); [lia|specialize (Hl 0); lia].
Qed.

(** A string of [n] bytes that is not all zero. *)
Lemma height_reference_word b : Forall is_u8 b -> be_value b <> 0 ->
  height_reference b = 4 * Z.of_nat (length b) - 1 - Z.log2 (be_value b) / 2.
Proof.
  unfold height_reference. induction 1 as [|x b Hx Hb IH]; [done|]. rewrite be_value_cons. intros Hne.
  pose proof (be_value_bound b Hb) as Hv. set (v := be_value b) in *. cbn [length]. rewrite Nat2Z.inj_succ.
  set (n := Z.of_nat (length b)) in *. assert (Hn : 0 <= n) by (unfold n; lia).
  assert (Hp : 256 ^ n = 2 ^ (8 * n)) by (rewrite Z.pow_mul_r by lia; done).
  rewrite fmap_cons. cbn [concat]. unfold is_u8 in Hx. destruct (Z.eq_dec x 0) as [->|Hnz].
  - rewrite Z.mul_0_l, Z.add_0_l in *. change (pairs_of_byte 0) with (replicate 4 0).
    rewrite leading_zero_pairs_zeros, IH by done. lia.
  - assert (Hlog : Z.log2 (x * 256 ^ n + v) = Z.log2 x + 8 * n).
    { apply Z.log2_unique; [pose proof (Z.log2_nonneg x); lia|].
      pose proof (Z.log2_spec x ltac:(lia)) as [Hlo Hhi]. rewrite Hp in *.
      rewrite <- Z.add_succ_l, !Z.pow_add_r by (pose proof (Z.log2_nonneg x); lia). nia. }
    rewrite Hlog, pairs_of_byte_zeros by lia. lia.
Qed.

Lemma height_reference_zero b : Forall is_u8 b -> be_value b = 0 -> height_reference b = 4 * Z.of_nat (length b).
Proof.
  unfold height_reference. induction 1 as [|x b Hx Hb IH]; [done|]. rewrite be_value_cons. intros Hz.
  pose proof (be_value_bound b Hb) as Hv. unfold is_u8 in Hx.
  assert (0 < 256 ^ Z.of_nat (length b)) by (apply Z.pow_pos_nonneg; lia).
  assert (x = 0 /\ be_value b = 0) as [-> Hz'] by nia.
  rewrite fmap_cons. cbn [concat length]. change (pairs_of_byte 0) with (replicate 4 0).
  rewrite leading_zero_pairs_zeros, IH by done. lia.
Qed.

(** Zero bytes in front. *)
Lemma height_reference_app w b : Forall is_u8 w -> height_reference (w ++ b) =
  if be_value w =? 0 then 4 * Z.of_nat (length w) + height_reference b else height_reference w.
Proof.
  unfold height_reference. induction 1 as [|x w Hx Hw IH]; [cbn; lia|]. rewrite be_value_cons.
  pose proof (be_value_bound w Hw) as Hv. unfold is_u8 in Hx.
  assert (0 < 256 ^ Z.of_nat (length w)) by (apply Z.pow_pos_nonneg; lia).
  rewrite <- app_comm_cons, !fmap_cons. cbn [concat length]. destruct (Z.eq_dec x 0) as [->|Hnz].
  - change (pairs_of_byte 0) with (replicate 4 0). rewrite !leading_zero_pairs_zeros, IH.
    replace (0 * 256 ^ Z.of_nat (length w) + be_value w) with (be_value w) by lia.
    destruct (be_value w =? 0); lia.
  - rewrite !pairs_of_byte_zeros by lia. replace (_ =? 0) with false by nia. done.
Qed.

Lemma height_loop_reference ws i : Forall (fun w => length w = 8%nat /\ Forall is_u8 w) ws ->
  i + 8 * Z.of_nat (length ws) = 32 -> height_loop ws i = 4 * i + height_reference (concat ws).
Proof.
  intros Hws. revert i. induction Hws as [|w ws [Hl Hu] _ IH]; intros i Hi; cbn [height_loop concat length] in *.
  { unfold height_reference. cbn. lia. }
  rewrite height_reference_app, Hl by done. destruct (Z.eqb_spec (be_value w) 0) as [Hz|Hnz].
  { rewrite IH by lia. lia. }
  rewrite height_reference_word, Hl by done. unfold leading_zeros. replace (be_value w =? 0) with false by lia.
  pose proof (be_value_bound w Hu) as Hb. rewrite Hl in Hb.
  pose proof (Z.log2_nonneg (be_value w)). assert (Z.log2 (be_value w) < 64) by (apply Z.log2_lt_pow2; [lia|exact (proj2 Hb)]).
  lia.
Qed.

Lemma height_reference_range h : Forall is_u8 h -> 0 <= height_reference h <= 4 * Z.of_nat (length h).
Proof.
  intros Hu. destruct (Z.eq_dec (be_value h) 0) as [Hz|Hnz]; [rewrite height_reference_zero by done; lia|].
  rewrite height_reference_word by done. pose proof (be_value_bound h Hu) as Hb.
  pose proof (Z.log2_nonneg (be_value h)). replace (256 ^ Z.of_nat (length h)) with (2 ^ (8 * Z.of_nat (length h))) in Hb
    by (rewrite Z.pow_mul_r by lia; done).
  assert (Z.log2 (be_value h) < 8 * Z.of_nat (length h)) by (apply Z.log2_lt_pow2; lia). lia.
Qed.

Lemma height_from_hash_reference h : length h = 32%nat -> Forall is_u8 h ->
  height_from_hash h = height_reference h /\ 0 <= height_from_hash h <= 128.
Proof.
  intros Hl Hu. assert (He : height_from_hash h = height_reference h).
  { unfold height_from_hash. pose proof (as_chunks_spec 8 h ltac:(lia)) as (Hc & Hall & Hr & Hn).
    rewrite Hl in Hn. change (32 / 8)%nat with 4%nat in Hn.
    assert (Hnil : (as_chunks 8 h).2 = []).
    { apply (f_equal length) in Hc. rewrite length_app, (concat_length 8), Hn, Hl in Hc by done.
      apply nil_length_inv. lia. }
    rewrite Hnil, app_nil_r in Hc. rewrite height_loop_reference.
    - rewrite Hc. lia.
    - assert (Hcu : Forall (Forall is_u8) (as_chunks 8 h).1) by (apply Forall_concat; by rewrite Hc).
      apply Forall_and. done.
    - rewrite Hn. lia. }
  split; [done|]. rewrite He. pose proof (height_reference_range h Hu). lia.
Qed.

(** Counting whole zero words and then the leading zeros of the first word
    that is not zero is counting the leading zero pairs of bits of the hash;
    a key's height is at most 128. *)
Theorem height_from_hash_spec h : length h = 32%nat -> Forall is_u8 h ->
  height_from_hash h = height_reference h /\ 0 <= height_from_hash h <= 128.
Proof. apply height_from_hash_reference. Qed.

Example height_from_hash_spec_witness : height_from_hash ([0; 0; 8] ++ replicate 29 255) = 10.
Proof.
  rewrite (proj1 (height_from_hash_spec ([0; 0; 8] ++ replicate 29 255) eq_refl ltac:(by apply u8_literal))). reflexivity.
Defined.

Lemma sha256_u8 `{Sha2} data : Forall is_u8 (sha256 data).
Proof.
  unfold sha256. destruct (as_chunks 64 data) as [blocks t]. apply Forall_concat, Forall_fmap.
  apply Forall_true. intros w. apply be_bytes_u8.
Qed.

Lemma height_for_key_range `{Sha2Laws} key : 0 <= height_for_key key <= 128.
Proof.
  apply height_from_hash_reference; [apply sha256_length|apply sha256_u8].
Qed.
