(* ===== verification/SortedMap.v ===== *)
(** The maps the trees of [src/src/mst] stand for: association lists in
    strict key order, with lookup, insertion and removal written without
    recursion on a tree. *)
From S2P Require Import Prelude.

Section Maps.
Context {V : Type}.
Implicit Types (l a b : list (bytes * V)) (k : bytes) (v : V).

Definition ordered l : Prop := StronglySorted bytes_lt (l.*1).
Definition all_below k l : Prop := Forall (fun e => bytes_lt e.1 k) l.
Definition all_above k l : Prop := Forall (fun e => bytes_lt k e.1) l.

Definition below k l := filter (fun e => bytes_lt e.1 k) l.
Definition above k l := filter (fun e => bytes_lt k e.1) l.

(** The value of a key; the map with a key set; the map without a key. *)
Definition get k l : option V := snd <$> list_find (fun e => e.1 = k) l ≫= (fun x => Some x.2).
Definition upsert k v l := below k l ++ (k, v) :: above k l.
Definition without k l := below k l ++ above k l.

Lemma bytes_lt_asym x y : bytes_lt x y -> ~ bytes_lt y x.
Proof. intros H1 H2. exact (bytes_lt_irrefl _ (bytes_lt_trans _ _ _ H1 H2)). Qed.

Lemma all_below_app k a b : all_below k (a ++ b) <-> all_below k a /\ all_below k b.
Proof. apply Forall_app. Qed.

Lemma all_above_app k a b : all_above k (a ++ b) <-> all_above k a /\ all_above k b.
Proof. apply Forall_app. Qed.

Lemma all_below_lt k k' l : all_below k l -> bytes_lt k k' -> all_below k' l.
Proof. intros H Hk. eapply Forall_impl; [exact H|]. intros e He. exact (bytes_lt_trans _ _ _ He Hk). Qed.

Lemma all_above_lt k k' l : all_above k l -> bytes_lt k' k -> all_above k' l.
Proof. intros H Hk. eapply Forall_impl; [exact H|]. intros e He. exact (bytes_lt_trans _ _ _ Hk He). Qed.

Lemma ordered_nil : ordered [].
Proof. constructor. Qed.

Lemma ordered_app_l a b : ordered (a ++ b) -> ordered a.
Proof. unfold ordered. rewrite fmap_app. apply StronglySorted_app_1_l. Qed.

Lemma ordered_app_r a b : ordered (a ++ b) -> ordered b.
Proof. unfold ordered. rewrite fmap_app. apply StronglySorted_app_1_r. Qed.

Lemma ordered_app_lt a b e f : ordered (a ++ b) -> e ∈ a -> f ∈ b -> bytes_lt e.1 f.1.
Proof.
  unfold ordered. rewrite fmap_app. intros Ho He Hf.
  eapply StronglySorted_app_1_elem_of; [exact Ho|by apply list_elem_of_fmap_2..].
Qed.

Lemma ordered_cons k v l : ordered ((k, v) :: l) <-> all_above k l /\ ordered l.
Proof.
  unfold ordered, all_above. cbn. split.
  - intros H. inversion_clear H as [|? ? Ho Ha]. split; [by rewrite Forall_fmap in Ha|done].
  - intros [Ha Ho]. constructor; [done|]. by rewrite Forall_fmap.
Qed.

(** Around a key. *)
Lemma ordered_join k a b : ordered a -> ordered b -> all_below k a -> all_above k b -> ordered (a ++ b).
Proof.
  unfold ordered. intros Ha Hb Hka Hkb. rewrite fmap_app. apply StronglySorted_app_2; [|done..].
  intros x y (e & -> & He)%list_elem_of_fmap (f & -> & Hf)%list_elem_of_fmap.
  eapply bytes_lt_trans; [exact (proj1 (Forall_forall _ _) Hka e He)|exact (proj1 (Forall_forall _ _) Hkb f Hf)].
Qed.

Lemma ordered_mid k v a b : ordered (a ++ (k, v) :: b) <->
  ordered a /\ ordered b /\ all_below k a /\ all_above k b.
Proof.
  split.
  - intros Ho. pose proof (ordered_app_r _ _ Ho) as [Hb Hob]%ordered_cons. split_and!; [by eapply ordered_app_l|done| |done].
    apply Forall_forall. intros e He. eapply (ordered_app_lt _ _ e (k, v)); [exact Ho|done|by left].
  - intros (Ha & Hb & Hka & Hkb). unfold ordered in *. rewrite fmap_app. apply StronglySorted_app_2.
    + intros x y (e & -> & He)%list_elem_of_fmap. cbn.
      pose proof (proj1 (Forall_forall _ _) Hka e He) as Hek. cbn in Hek.
      intros [->|(f & -> & Hf)%list_elem_of_fmap]%elem_of_cons; [done|].
      eapply bytes_lt_trans; [exact Hek|exact (proj1 (Forall_forall _ _) Hkb f Hf)].
    + done.
    + cbn. constructor; [done|]. by rewrite Forall_fmap.
Qed.

Lemma ordered_drop_mid k v a b : ordered (a ++ (k, v) :: b) -> ordered (a ++ b).
Proof. intros (Ha & Hb & Hka & Hkb)%ordered_mid. by eapply ordered_join. Qed.

(** Filters on the two sides of a key. *)
Lemma below_all k l : all_below k l -> below k l = l.
Proof.
  unfold below. induction 1 as [|e l He _ IH]; [done|]. by rewrite filter_cons_True, IH.
Qed.

Lemma above_all k l : all_above k l -> above k l = l.
Proof.
  unfold above. induction 1 as [|e l He _ IH]; [done|]. by rewrite filter_cons_True, IH.
Qed.

Lemma below_none k l : all_above k l -> below k l = [].
Proof.
  unfold below. induction 1 as [|e l He _ IH]; [done|]. rewrite filter_cons_False by exact (bytes_lt_asym _ _ He). exact IH.
Qed.

Lemma above_none k l : all_below k l -> above k l = [].
Proof.
  unfold above. induction 1 as [|e l He _ IH]; [done|]. rewrite filter_cons_False by exact (bytes_lt_asym _ _ He). exact IH.
Qed.

Lemma below_app k a b : below k (a ++ b) = below k a ++ below k b.
Proof. apply filter_app. Qed.

Lemma above_app k a b : above k (a ++ b) = above k a ++ above k b.
Proof. apply filter_app. Qed.

Lemma below_self k v l : below k ((k, v) :: l) = below k l.
Proof. apply filter_cons_False. apply bytes_lt_irrefl. Qed.

Lemma above_self k v l : above k ((k, v) :: l) = above k l.
Proof. apply filter_cons_False. apply bytes_lt_irrefl. Qed.

Lemma upsert_cut k v a b : all_below k a -> all_above k b -> upsert k v (a ++ b) = a ++ (k, v) :: b.
Proof.
  intros Ha Hb. unfold upsert. rewrite below_app, above_app, (below_all k a), (above_all k b), (below_none k b), (above_none k a) by done.
  by rewrite app_nil_r.
Qed.

Lemma upsert_mid k v w a b : all_below k a -> all_above k b -> upsert k v (a ++ (k, w) :: b) = a ++ (k, v) :: b.
Proof.
  intros Ha Hb. rewrite <- (upsert_cut k v a b) by done. unfold upsert.
  by rewrite !below_app, !above_app, below_self, above_self.
Qed.

Lemma without_cut k a b : all_below k a -> all_above k b -> without k (a ++ b) = a ++ b.
Proof.
  intros Ha Hb. unfold without. rewrite below_app, above_app, (below_all k a), (above_all k b), (below_none k b), (above_none k a) by done.
  by rewrite app_nil_r.
Qed.

Lemma without_mid k w a b : all_below k a -> all_above k b -> without k (a ++ (k, w) :: b) = a ++ b.
Proof.
  intros Ha Hb. transitivity (without k (a ++ b)); [|by apply without_cut]. unfold without.
  by rewrite !below_app, !above_app, below_self, above_self.
Qed.

(** Lookup *)
Lemma get_nil k : get k [] = None.
Proof. done. Qed.

Lemma get_cons k e l : get k (e :: l) = if decide (e.1 = k) then Some e.2 else get k l.
Proof.
  unfold get. cbn. case_decide; [done|]. destruct (list_find _ l) as [[i f]|]; done.
Qed.

Lemma get_Some_in k v l : get k l = Some v -> (k, v) ∈ l.
Proof.
  induction l as [|[k' w] l IH]; [done|]. rewrite get_cons. case_decide as Hk; cbn in *.
  - intros [= ->]. subst. by left.
  - intros Hg. right. auto.
Qed.

Lemma get_app k a b : get k (a ++ b) = match get k a with Some v => Some v | None => get k b end.
Proof.
  induction a as [|e a IH]; [done|]. rewrite <- app_comm_cons, !get_cons. case_decide; [done|]. exact IH.
Qed.

Lemma get_below k l : all_below k l -> get k l = None.
Proof.
  induction 1 as [|e l He _ IH]; [done|]. rewrite get_cons. case_decide as Hk; [|done].
  rewrite Hk in He. by apply bytes_lt_irrefl in He.
Qed.

Lemma get_above k l : all_above k l -> get k l = None.
Proof.
  induction 1 as [|e l He _ IH]; [done|]. rewrite get_cons. case_decide as Hk; [|done].
  rewrite Hk in He. by apply bytes_lt_irrefl in He.
Qed.

Lemma get_mid k v a b : all_below k a -> get k (a ++ (k, v) :: b) = Some v.
Proof. intros Ha. rewrite get_app, get_below, get_cons by done. by rewrite decide_True. Qed.

Lemma get_in k v l : ordered l -> (k, v) ∈ l -> get k l = Some v.
Proof. intros Ho Hin. apply list_elem_of_split in Hin as (a & b & ->). apply ordered_mid in Ho as (_ & _ & Ha & _). by apply get_mid. Qed.

Lemma get_cut k a b : all_below k a -> all_above k b -> get k (a ++ b) = None.
Proof. intros Ha Hb. by rewrite get_app, get_below, get_above. Qed.

(** A key outside a stretch of the list. *)
Lemma get_between k a m b : all_below k a -> all_above k b -> get k (a ++ m ++ b) = get k m.
Proof.
  intros Ha Hb. rewrite !get_app, (get_below k a), (get_above k b) by done. by destruct (get k m).
Qed.

Lemma without_between k a m b : all_below k a -> all_above k b ->
  without k (a ++ m ++ b) = a ++ without k m ++ b.
Proof.
  intros Ha Hb. unfold without. rewrite !below_app, !above_app, (below_all k a), (above_all k b), (below_none k b), (above_none k a) by done.
  by rewrite app_nil_r, <- !app_assoc.
Qed.

Lemma upsert_between k v a m b : all_below k a -> all_above k b ->
  upsert k v (a ++ m ++ b) = a ++ upsert k v m ++ b.
Proof.
  intros Ha Hb. unfold upsert. rewrite !below_app, !above_app, (below_all k a), (above_all k b), (below_none k b), (above_none k a) by done.
  by rewrite app_nil_r, <- !app_assoc.
Qed.

Lemma below_below k l : all_below k (below k l).
Proof. apply Forall_forall. intros e He. by apply list_elem_of_filter in He as [? _]. Qed.

Lemma above_above k l : all_above k (above k l).
Proof. apply Forall_forall. intros e He. by apply list_elem_of_filter in He as [? _]. Qed.

Lemma ordered_filter (P : bytes * V -> Prop) `{!forall e, Decision (P e)} l : ordered l -> ordered (filter P l).
Proof.
  unfold ordered. induction l as [|e l IH]; [done|]. intros Ho. inversion Ho as [|? ? Hs Hf]; subst.
  destruct (decide (P e)); [rewrite filter_cons_True by done|rewrite filter_cons_False by done; auto].
  cbn. constructor; [auto|]. rewrite Forall_fmap in *. apply Forall_forall. intros f [_ Hfl]%list_elem_of_filter.
  exact (proj1 (Forall_forall _ _) Hf f Hfl).
Qed.

Lemma ordered_upsert k v l : ordered l -> ordered (upsert k v l).
Proof.
  intros Ho. apply ordered_mid. split_and!; [by apply ordered_filter..|apply below_below|apply above_above].
Qed.

Lemma ordered_without k l : ordered l -> ordered (without k l).
Proof.
  intros Ho. eapply ordered_join; [by apply ordered_filter..|apply below_below|apply above_above].
Qed.

(** A key that is absent cuts the list in two, a key that is present in three. *)
Lemma ordered_cut k l : ordered l ->
  l = below k l ++ match get k l with Some v => [(k, v)] | None => [] end ++ above k l.
Proof.
  unfold below, above. induction l as [|[k' v'] l IH]; intros Ho; [done|]. apply ordered_cons in Ho as [Ha Ho].
  rewrite get_cons. cbn [fst snd]. case_decide as Hk.
  - subst k'. rewrite filter_cons_False by apply bytes_lt_irrefl. rewrite filter_cons_False by apply bytes_lt_irrefl.
    fold (below k l) (above k l). by rewrite below_none, above_all.
  - destruct (bytes_cmp_spec k' k) as [He|Hlt|Hgt]; [done| |].
    + rewrite filter_cons_True by done. rewrite filter_cons_False by (by apply bytes_lt_asym). cbn. f_equal. auto.
    + rewrite filter_cons_False by (by apply bytes_lt_asym). rewrite filter_cons_True by done.
      assert (Hal : all_above k l) by (by eapply all_above_lt).
      fold (below k l) (above k l). by rewrite below_none, above_all, get_above.
Qed.

Lemma without_absent k l : ordered l -> get k l = None -> without k l = l.
Proof. intros Ho Hk. rewrite (ordered_cut k l Ho) at 2. by rewrite Hk. Qed.

Lemma upsert_same k v l : ordered l -> get k l = Some v -> upsert k v l = l.
Proof. intros Ho Hk. rewrite (ordered_cut k l Ho) at 2. by rewrite Hk. Qed.

Lemma upsert_keys k v l e : ordered l -> e ∈ l -> exists w, (e.1, w) ∈ upsert k v l.
Proof.
  intros Ho He. unfold upsert. destruct (bytes_cmp_spec e.1 k) as [Hk|Hlt|Hgt].
  - exists v. rewrite Hk. set_solver.
  - exists e.2. apply elem_of_app. left. destruct e. by apply list_elem_of_filter.
  - exists e.2. apply elem_of_app. right. right. destruct e. by apply list_elem_of_filter.
Qed.

Lemma upsert_in k v l e : e ∈ upsert k v l -> e = (k, v) \/ e ∈ l.
Proof.
  unfold upsert. intros [Hb|[->|Ha]%elem_of_cons]%elem_of_app; [right|by left|right].
  - by apply list_elem_of_filter in Hb as [_ ?].
  - by apply list_elem_of_filter in Ha as [_ ?].
Qed.

Lemma without_in k l e : e ∈ without k l -> e ∈ l.
Proof. unfold without. intros [Hb|Hb]%elem_of_app; by apply list_elem_of_filter in Hb as [_ ?]. Qed.

(** Two ordered lists with the same lookups are equal. *)
Lemma ordered_ext l l' : ordered l -> ordered l' -> (forall k, get k l = get k l') -> l = l'.
Proof.
  revert l'. induction l as [|[k v] l IH]; intros [|[k' v'] l'] Ho Ho' Hg.
  - done.
  - specialize (Hg k'). rewrite get_cons in Hg. by rewrite decide_True in Hg.
  - specialize (Hg k). rewrite get_cons in Hg. by rewrite decide_True in Hg.
  - apply ordered_cons in Ho as [Ha Ho], Ho' as [Ha' Ho'].
    assert (Hk : k = k').
    { destruct (bytes_cmp_spec k k') as [He|Hlt|Hgt]; [done|exfalso..].
      - specialize (Hg k). rewrite !get_cons, (get_above k l') in Hg by (by eapply all_above_lt). cbn [fst snd] in Hg.
        rewrite decide_True in Hg by done. case_decide as Hc; [|done]. rewrite Hc in Hlt. by apply bytes_lt_irrefl in Hlt.
      - specialize (Hg k'). rewrite !get_cons, (get_above k' l) in Hg by (by eapply all_above_lt). cbn [fst snd] in Hg.
        rewrite (decide_True (P := k' = k')) in Hg by done. case_decide as Hc; [|done]. rewrite Hc in Hgt. by apply bytes_lt_irrefl in Hgt. }
    subst k'. assert (v = v') as ->.
    { specialize (Hg k). rewrite !get_cons in Hg. cbn [fst snd] in Hg. rewrite !decide_True in Hg by done. congruence. }
    f_equal. apply IH; [done..|]. intros j. specialize (Hg j). rewrite !get_cons in Hg. cbn [fst snd] in Hg.
    case_decide as Hj; [|done]. subst j. by rewrite !get_above.
Qed.

Lemma get_upsert k v j l : ordered l -> get j (upsert k v l) = if decide (j = k) then Some v else get j l.
Proof.
  intros Ho. unfold upsert. rewrite get_app, get_cons. cbn [fst snd]. case_decide as Hj; case_decide as Hj'; try congruence.
  - subst j. by rewrite get_below by apply below_below.
  - rewrite (f_equal (get j) (ordered_cut k l Ho)), !get_app. destruct (get j (below k l)); [done|].
    destruct (get k l); [|done]. rewrite get_cons. cbn [fst snd]. by rewrite decide_False.
Qed.

Lemma get_without k j l : ordered l -> get j (without k l) = if decide (j = k) then None else get j l.
Proof.
  intros Ho. unfold without. rewrite get_app. case_decide as Hj.
  - subst j. by rewrite get_below, get_above by (apply below_below || apply above_above).
  - rewrite (f_equal (get j) (ordered_cut k l Ho)), !get_app. destruct (get j (below k l)); [done|].
    destruct (get k l); [|done]. rewrite get_cons. cbn [fst snd]. by rewrite decide_False.
Qed.
End Maps.
