(* ===== verification/MstNode.v ===== *)
(** The blocks of the Merkle search tree and their CBOR form:
    [src/src/mst/node.rs], with the errors of [src/src/mst/mod.rs].

    The Merkle search tree of a map, without the program: its blocks and its
    root, as functions of the contents alone. *)
From S2P Require Import Prelude StateError SyntaxError CborError Cid CborValue CborEncode CborDecode CborCodec MstHeight SortedMap.

(** A CID in a message stands for its text. *)
Inductive MstError :=
| BlockNotFound (c : Cid)
| InvalidNode (m : ErrMsg)
| InvalidKey (key : bytes)
| MstCbor (e : CborError)
| Internal (m : ErrMsg)
| Storage (m : ErrMsg).

Definition invalid_node (s : string) : MstError := InvalidNode (Text s).
Definition internal (s : string) : MstError := Internal (Text s).

Definition MAX_ENTRIES_PER_NODE : Z := 10000.
Definition MAX_KEY_LEN : Z := 1024.

Record EntryData := MkEntryData {
  prefix_len : nat;
  key_suffix : bytes;
  value : Cid;
  data_right : option Cid
}.

Record NodeData := MkNodeData { data_left : option Cid; data_entries : list EntryData }.

Definition put_cid_or_null (buf : bytes) (cid : option Cid) : bytes :=
  match cid with Some cid => put_cid buf cid | None => buf ++ [0xf6] end.

Definition start_node (buf : bytes) (entries : nat) : bytes :=
  let buf := put_head buf 5 2 in
  let buf := put_text buf (b# "e") in
  put_head buf 4 (as_u64 (Z.of_nat entries)).

Definition put_entry (buf : bytes) (prefix_len : nat) (key_suffix : bytes) (value : Cid) (right : option Cid) : bytes :=
  let buf := put_head buf 5 4 in
  let buf := put_text buf (b# "k") in
  let buf := put_head buf 2 (len_u64 key_suffix) in
  let buf := buf ++ key_suffix in
  let buf := put_text buf (b# "p") in
  let buf := put_head buf 0 (as_u64 (Z.of_nat prefix_len)) in
  let buf := put_text buf (b# "t") in
  let buf := put_cid_or_null buf right in
  let buf := put_text buf (b# "v") in
  put_cid buf value.

Definition finish_node (buf : bytes) (left : option Cid) : bytes :=
  let buf := put_text buf (b# "l") in
  put_cid_or_null buf left.

Definition encode_node_data (nd : NodeData) : res MstError bytes :=
  let buf := start_node [] (length (data_entries nd)) in
  let buf := fold_left (fun buf e => put_entry buf (prefix_len e) (key_suffix e) (value e) (data_right e))
               (data_entries nd) buf in
  Ok (finish_node buf (data_left nd)).

(** ** Decoding *)

Definition key_k : bytes := Eval cbv in b# "k".
Definition key_p : bytes := Eval cbv in b# "p".
Definition key_t : bytes := Eval cbv in b# "t".
Definition key_v : bytes := Eval cbv in b# "v".
Definition key_e : bytes := Eval cbv in b# "e".
Definition key_l : bytes := Eval cbv in b# "l".

(** The four fields found so far. *)
Record Fields := MkFields {
  f_prefix : option nat; f_suffix : option bytes; f_value : option Cid; f_right : option Cid
}.

Fixpoint entry_fields (entries : list (bytes * Value)) (f : Fields) : res MstError Fields :=
  match entries with
  | [] => Ok f
  | (key, v) :: entries' =>
      if bool_decide (key = key_k) then
        match v with
        | Value.Bytes b => entry_fields entries' (MkFields (f_prefix f) (Some b) (f_value f) (f_right f))
        | _ => Err (invalid_node "expected bytes for 'k'")
        end
      else if bool_decide (key = key_p) then
        match v with
        | Value.Unsigned n =>
            if MAX_KEY_LEN <? n then
              Err (InvalidNode (TextArgs "entry prefix length exceeds max key length" [n; MAX_KEY_LEN]))
            else entry_fields entries' (MkFields (Some (Z.to_nat n)) (f_suffix f) (f_value f) (f_right f))
        | _ => Err (invalid_node "expected uint for 'p'")
        end
      else if bool_decide (key = key_t) then
        match v with
        | Value.Null => entry_fields entries' f
        | Value.Cid c => entry_fields entries' (MkFields (f_prefix f) (f_suffix f) (f_value f) (Some c))
        | _ => Err (invalid_node "expected CID or null for 't'")
        end
      else if bool_decide (key = key_v) then
        match v with
        | Value.Cid c => entry_fields entries' (MkFields (f_prefix f) (f_suffix f) (Some c) (f_right f))
        | _ => Err (invalid_node "expected CID for 'v'")
        end
      else Err (InvalidNode (About key "unexpected entry key"))
  end.

Definition decode_entry_data (val : Value) : res MstError EntryData :=
  match val with
  | Value.Map m =>
      f ← entry_fields m (MkFields None None None None);
      prefix ← ok_or (invalid_node "missing 'p'") (f_prefix f);
      suffix ← ok_or (invalid_node "missing 'k'") (f_suffix f);
      value ← ok_or (invalid_node "missing 'v'") (f_value f);
      Ok (MkEntryData prefix suffix value (f_right f))
  | _ => Err (invalid_node "expected map for entry")
  end.

Fixpoint decode_entries (items : list Value) : res MstError (list EntryData) :=
  match items with
  | [] => Ok []
  | item :: items' => e ← decode_entry_data item; es ← decode_entries items'; Ok (e :: es)
  end.

Fixpoint node_fields (entries : list (bytes * Value)) (nd : NodeData) : res MstError NodeData :=
  match entries with
  | [] => Ok nd
  | (key, v) :: entries' =>
      if bool_decide (key = key_e) then
        match v with
        | Value.Array arr =>
            if MAX_ENTRIES_PER_NODE <? Z.of_nat (length arr) then
              Err (InvalidNode (TextArgs "node has too many entries" [Z.of_nat (length arr); MAX_ENTRIES_PER_NODE]))
            else es ← decode_entries arr; node_fields entries' (MkNodeData (data_left nd) es)
        | _ => Err (invalid_node "expected array for 'e'")
        end
      else if bool_decide (key = key_l) then
        match v with
        | Value.Null => node_fields entries' nd
        | Value.Cid c => node_fields entries' (MkNodeData (Some c) (data_entries nd))
        | _ => Err (invalid_node "expected CID or null for 'l'")
        end
      else Err (InvalidNode (About key "unexpected key"))
  end.

Definition decode_node_data `{Simdutf8} (data : bytes) : res MstError NodeData :=
  val ← map_err MstCbor (cbor_decode data);
  match val with
  | Value.Map map => node_fields map (MkNodeData None [])
  | _ => Err (invalid_node "expected map")
  end.

(** ** The block as a CBOR value *)

Definition cid_or_null (c : option Cid) : Value := match c with Some c => Value.Cid c | None => Value.Null end.

Definition entry_value (e : EntryData) : Value :=
  Value.Map [(key_k, Value.Bytes (key_suffix e)); (key_p, Value.Unsigned (Z.of_nat (prefix_len e)));
    (key_t, cid_or_null (data_right e)); (key_v, Value.Cid (value e))].

Definition node_value (nd : NodeData) : Value :=
  Value.Map [(key_e, Value.Array (entry_value <$> data_entries nd)); (key_l, cid_or_null (data_left nd))].

(** The types of the fields, and the limits of the decoder. *)
Definition opt_cid_wf (c : option Cid) : Prop := match c with Some c => cid_wf c | None => True end.

Definition entry_ok (e : EntryData) : Prop :=
  Z.of_nat (prefix_len e) <= MAX_KEY_LEN /\ Forall is_u8 (key_suffix e) /\
  Z.of_nat (length (key_suffix e)) <= i64_max /\ cid_wf (value e) /\ opt_cid_wf (data_right e).

Definition node_ok (nd : NodeData) : Prop :=
  Z.of_nat (length (data_entries nd)) <= MAX_ENTRIES_PER_NODE /\ Forall entry_ok (data_entries nd) /\
  opt_cid_wf (data_left nd).

Lemma put_cid_or_null_app buf c : put_cid_or_null buf c = buf ++ enc (cid_or_null c).
Proof. by destruct c. Qed.

Lemma as_u64_small n : 0 <= n < 2 ^ 64 -> as_u64 n = n.
Proof. apply Z.mod_small. Qed.

Lemma put_entry_app buf e : Z.of_nat (prefix_len e) <= MAX_KEY_LEN ->
  put_entry buf (prefix_len e) (key_suffix e) (value e) (data_right e) = buf ++ enc (entry_value e).
Proof.
  intros Hp. unfold put_entry. rewrite !put_text_app, put_cid_or_null_app, !put_head_app.
  unfold put_cid, entry_value. cbn [enc map concat fst snd]. change (len_u64 [_; _; _; _]) with 4.
  unfold MAX_KEY_LEN in Hp. rewrite as_u64_small by lia. rewrite app_nil_r, <- !app_assoc. done.
Qed.

Lemma encode_node_data_eq nd : node_ok nd -> encode_node_data nd = Ok (enc (node_value nd)).
Proof.
  intros (Hn & He & _). unfold encode_node_data, finish_node, start_node.
  rewrite put_text_app, put_cid_or_null_app. f_equal.
  assert (Hf : forall buf, fold_left (fun buf e => put_entry buf (prefix_len e) (key_suffix e) (value e) (data_right e))
      (data_entries nd) buf = buf ++ concat (map enc (entry_value <$> data_entries nd))).
  { clear Hn. induction He as [|e es [Hp _] _ IH]; intros buf; [by rewrite app_nil_r|].
    cbn [fold_left]. rewrite put_entry_app, IH by done. rewrite fmap_cons. cbn [map concat]. by rewrite app_assoc. }
  rewrite Hf, !put_head_app, put_text_app. unfold node_value. cbn [enc map concat fst snd].
  unfold len_u64 at 2. rewrite length_fmap. change (len_u64 [_; _]) with 2.
  rewrite app_nil_r. cbn [app]. by rewrite <- !app_assoc.
Qed.

Lemma decode_entry_data_value e : entry_ok e -> decode_entry_data (entry_value e) = Ok e.
Proof.
  intros (Hp & _). unfold decode_entry_data, entry_value. destruct e as [p k v r]. cbn [prefix_len key_suffix value data_right] in *.
  cbn [entry_fields]. rewrite !bool_decide_true by done. rewrite !(bool_decide_false (_ = _)) by done.
  unfold MAX_KEY_LEN in *. replace (1024 <? Z.of_nat p) with false by lia. rewrite Nat2Z.id.
  destruct r; cbn [cid_or_null]; rewrite ?bool_decide_true by done; reflexivity.
Qed.

Lemma decode_entries_value es : Forall entry_ok es -> decode_entries (entry_value <$> es) = Ok es.
Proof.
  induction 1 as [|e es He _ IH]; [done|]. rewrite fmap_cons. cbn [decode_entries].
  rewrite decode_entry_data_value, IH by done. done.
Qed.

Lemma node_fields_value nd : node_ok nd ->
  (match node_value nd with Value.Map m => node_fields m (MkNodeData None []) | _ => Err (invalid_node "") end) = Ok nd.
Proof.
  intros (Hn & He & _). unfold node_value. cbn [node_fields]. rewrite !bool_decide_true by done.
  rewrite length_fmap. replace (_ <? _) with false by lia. rewrite decode_entries_value by done. cbn [mbind res_bind].
  rewrite bool_decide_false by done. destruct nd as [[l|] es]; done.
Qed.

Lemma opt_cid_canonical d c : (d < MAX_DEPTH)%nat -> opt_cid_wf c -> canonical d (cid_or_null c).
Proof. destruct c; by constructor. Qed.

Lemma entry_value_canonical e : entry_ok e -> canonical 2 (entry_value e).
Proof.
  intros (Hp & Hu & Hl & Hv & Hr). unfold MAX_KEY_LEN in Hp.
  assert (Hd : forall d, (d <= 3)%nat -> (d < MAX_DEPTH)%nat) by (unfold MAX_DEPTH; lia).
  apply CMap; [by apply Hd; lia|done| | |].
  - by apply (bool_decide_unpack _); vm_compute.
  - repeat constructor; try done; by apply u8_literal.
  - rewrite !Forall_cons, Forall_nil. cbn [snd]. split_and!; [..|done].
    + constructor; [apply Hd; lia|done..].
    + constructor; [apply Hd; lia|unfold i64_max; lia].
    + apply opt_cid_canonical; [apply Hd; lia|done].
    + constructor; [apply Hd; lia|done].
Qed.

Lemma node_value_canonical nd : node_ok nd -> canonical 0 (node_value nd).
Proof.
  intros (Hn & He & Hl). unfold MAX_ENTRIES_PER_NODE in Hn.
  assert (Hd : forall d, (d <= 3)%nat -> (d < MAX_DEPTH)%nat) by (unfold MAX_DEPTH; lia).
  apply CMap; [by apply Hd; lia|done| | |].
  - by apply (bool_decide_unpack _); vm_compute.
  - repeat constructor; try done; by apply u8_literal.
  - rewrite !Forall_cons, Forall_nil. cbn [snd]. split_and!; [constructor| |done].
    + by apply Hd; lia.
    + rewrite length_fmap. unfold MAX_COLLECTION_LEN. lia.
    + apply Forall_fmap. eapply Forall_impl; [exact He|]. apply entry_value_canonical.
    + apply opt_cid_canonical; [apply Hd; lia|done].
Qed.

Lemma decode_node_value `{Simdutf8Laws} nd : node_ok nd ->
  Z.of_nat (length (enc (node_value nd))) <= i64_max -> decode_node_data (enc (node_value nd)) = Ok nd.
Proof.
  intros Hn Hl. pose proof (node_value_canonical nd Hn) as Hc. unfold decode_node_data.
  rewrite (proj2 (cbor_decode_Ok _ (node_value nd) (enc_u8 _ _ Hc) Hl)) by done.
  cbn [map_err mbind res_bind]. exact (node_fields_value nd Hn).
Qed.

(** The CBOR form of a block and back: within the decoder's limits every node
    comes back from its encoding unchanged. *)
Theorem node_roundtrip `{Simdutf8Laws} nd : node_ok nd ->
  Z.of_nat (length (enc (node_value nd))) <= i64_max ->
  exists data, encode_node_data nd = Ok data /\ decode_node_data data = Ok nd.
Proof.
  intros Hn Hl. exists (enc (node_value nd)). split; [by apply encode_node_data_eq|by apply decode_node_value].
Qed.

Lemma safe_fold {E A B} (f : A -> res E B) (m : res E A) : no_panic m -> (forall a, no_panic (f a)) -> no_panic (m ≫= f).
Proof. intros. by apply no_panic_bind. Qed.

Lemma decode_entry_data_no_panic v : no_panic (decode_entry_data v).
Proof.
  assert (Hf : forall m f, no_panic (entry_fields m f)).
  { induction m as [|[k v'] m IH]; intros f; [done|]. cbn [entry_fields].
    repeat case_bool_decide; repeat case_match; auto with shrike. }
  destruct v; try done. cbn [decode_entry_data]. repeat (apply safe_fold; [auto with shrike|intros]). done.
Qed.

Lemma decode_node_data_no_panic `{Simdutf8} data : no_panic (cbor_decode data) -> no_panic (decode_node_data data).
Proof.
  intros Hd. assert (He : forall l, no_panic (decode_entries l)).
  { induction l as [|v l IH]; [done|]. cbn [decode_entries].
    repeat (apply safe_fold; [done || apply decode_entry_data_no_panic|intros]). done. }
  assert (Hf : forall m nd, no_panic (node_fields m nd)).
  { induction m as [|[k v'] m IH]; intros nd; [done|]. cbn [node_fields].
    repeat case_bool_decide; repeat case_match; auto with shrike; by apply safe_fold. }
  apply safe_fold; [by apply no_panic_map_err|]. by intros [].
Qed.

#[local] Existing Instances simd_ref simd_ref_laws.

Example node_roundtrip_witness : exists data,
  encode_node_data (MkNodeData None [MkEntryData 0 (b# "a/b") (MkCid Raw (replicate 32 7)) None]) = Ok data /\
  decode_node_data data = Ok (MkNodeData None [MkEntryData 0 (b# "a/b") (MkCid Raw (replicate 32 7)) None]).
Proof.
  apply node_roundtrip; [|vm_compute; discriminate]. split; [done|]. split; [|done]. constructor; [|constructor].
  split; [done|]. split; [apply u8_literal; reflexivity|]. split; [done|]. split; [|done].
  split; [reflexivity|apply u8_literal; reflexivity].
Defined.

(** A list cut at its keys of height [h]: what lies before the first, and each
    of them with what lies between it and the next. *)
Abbreviation kvs := (list (bytes * Cid)).

Fixpoint common_prefix_len (a b : bytes) : nat :=
  match a, b with
  | x :: a', y :: b' => if x =? y then S (common_prefix_len a' b') else 0%nat
  | _, _ => 0%nat
  end.

(** The entries of a block: each key without the prefix it shares with the one
    before. *)
Fixpoint compress (prev : bytes) (es : list (bytes * Cid * option Cid)) : list EntryData :=
  match es with
  | [] => []
  | (k, v, r) :: es' =>
      let p := common_prefix_len prev k in
      MkEntryData p (drop p k) v r :: compress k es'
  end.

Section Reference.
Context `{Sha2}.

Fixpoint cut_levels (h : Z) (l : kvs) : kvs * list (bytes * Cid * kvs) :=
  match l with
  | [] => ([], [])
  | e :: l' =>
      let '(pre, segs) := cut_levels h l' in
      if height_for_key e.1 =? h then ([], (e, pre) :: segs) else (e :: pre, segs)
  end.

Definition block_cid (nd : NodeData) : option Cid :=
  match encode_node_data nd with Ok data => Some (compute Drisl data) | _ => None end.

(** The node of height [h] for a stretch of the contents: nothing if there is
    nothing in it, else the block that holds its keys of height [h] and links
    the nodes of height [h - 1] between them. *)
Fixpoint tree_cid_at (levels : nat) (h : Z) (l : kvs) : option Cid :=
  match l, levels with
  | [], _ | _, O => None
  | _, S levels =>
      let '(pre, segs) := cut_levels h l in
      block_cid (MkNodeData (tree_cid_at levels (h - 1) pre)
        (compress [] (map (fun s => (s.1, tree_cid_at levels (h - 1) s.2)) segs)))
  end.

(** The block itself. *)
Definition list_node (h : Z) (l : kvs) : NodeData :=
  let '(pre, segs) := cut_levels h l in
  MkNodeData (tree_cid_at (Z.to_nat h) (h - 1) pre)
    (compress [] (map (fun s => (s.1, tree_cid_at (Z.to_nat h) (h - 1) s.2)) segs)).

Definition tree_cid (h : Z) (l : kvs) : option Cid := tree_cid_at (S (Z.to_nat h)) h l.

(** The height of the root: that of the highest key. *)
Definition tree_height (l : kvs) : Z := foldr (fun e => Z.max (height_for_key e.1)) 0 l.

(** The root block of a map. *)
Definition map_root (l : kvs) : option Cid :=
  match l with
  | [] => block_cid (MkNodeData None [])
  | _ => tree_cid (tree_height l) l
  end.

(** ** Pieces *)

(** What lies between the keys of height [h]. *)
Definition cuts (h : Z) (l : kvs) : list kvs := (cut_levels h l).1 :: (cut_levels h l).2.*2.

(** The stretches of a map that its tree has nodes for, with their heights. *)
Inductive part (h : Z) (l : kvs) : Z -> kvs -> Prop :=
| part_self : part h l h l
| part_below s h' s' : s ∈ cuts h l -> s <> [] -> part (h - 1) s h' s' -> part h l h' s'.

Definition map_part (l : kvs) (h : Z) (s : kvs) : Prop :=
  (l = [] /\ h = 0 /\ s = []) \/ (l <> [] /\ part (tree_height l) l h s).

(** The block of such a stretch, under its CID. *)
Definition block_of (h : Z) (s : kvs) (b : Cid * bytes) : Prop :=
  b.1 = compute Drisl b.2 /\ encode_node_data (list_node h s) = Ok b.2.
End Reference.
