(* ===== verification/MstTree.v ===== *)
(** The Merkle search tree in memory and the operations that restructure it:
    [Entry], [Node], the searches within a node, and the mutations
    [insert_node], [update_node], [split_node], [remove_node],
    [merge_nodes] and [trim_top] of [src/src/mst/tree.rs].

    The mutations run in the state of the tree's list of released CIDs. They
    recurse along the tree, so they take fuel and panic when it runs out;
    [span] gives fuel that is enough, which the theorems about them show. *)
From S2P Require Import Prelude StateError SyntaxError CborError Cid MstNode.

(** A [Box<Node>] is the node it points to; [EntryOf] leaves the type of the
    subtrees open. *)
Record EntryOf (N : Type) := MkEntry { e_key : bytes; e_val : Cid; e_right : option N }.
Arguments MkEntry {N} e_key e_val e_right.
Arguments e_key {N} e.
Arguments e_val {N} e.
Arguments e_right {N} e.

Inductive Node :=
  MkNode (left : option Node) (entries : list (EntryOf Node)) (cid : option Cid) (height : Z) (loaded : bool).
Abbreviation Entry := (EntryOf Node).

Definition n_left (n : Node) : option Node := let '(MkNode l _ _ _ _) := n in l.
Definition n_entries (n : Node) : list Entry := let '(MkNode _ es _ _ _) := n in es.
Definition n_cid (n : Node) : option Cid := let '(MkNode _ _ c _ _) := n in c.
Definition n_height (n : Node) : Z := let '(MkNode _ _ _ h _) := n in h.
Definition n_loaded (n : Node) : bool := let '(MkNode _ _ _ _ ld) := n in ld.

Definition set_left (l : option Node) (n : Node) : Node :=
  let '(MkNode _ es c h ld) := n in MkNode l es c h ld.
Definition set_entries (es : list Entry) (n : Node) : Node :=
  let '(MkNode l _ c h ld) := n in MkNode l es c h ld.
Definition set_cid (c : option Cid) (n : Node) : Node :=
  let '(MkNode l es _ h ld) := n in MkNode l es c h ld.
Definition set_right (r : option Node) (e : Entry) : Entry := MkEntry (e_key e) (e_val e) r.
Definition set_val (v : Cid) (e : Entry) : Entry := MkEntry (e_key e) v (e_right e).

Definition fresh (height : Z) (left : option Node) (entries : list Entry) : Node :=
  MkNode left entries None height true.

Definition stub (cid : Cid) (height : Z) : Node := MkNode None [] (Some cid) height false.

(** ** Searching within a node *)

(** [entries.binary_search_by(|e| e.key.cmp(key))]: where [key] is or belongs,
    and whether it is there ([Ok(i)] or [Err(i)]). The entries of a node are
    in order, so this is also where a scan for the first entry not below
    [key] stops. *)
Fixpoint search {N} (es : list (EntryOf N)) (key : bytes) : nat * bool :=
  match es with
  | [] => (0%nat, false)
  | e :: es' =>
      match bytes_cmp key (e_key e) with
      | Lt => (0%nat, false)
      | Eq => (0%nat, true)
      | Gt => let '(i, found) := search es' key in (S i, found)
      end
  end.

Definition find_child_index (n : Node) (key : bytes) : nat := (search (n_entries n) key).1.

(** The subtree between [entries[i - 1]] and [entries[i]]: [left] when [i] is
    zero. *)
Definition slot {N} (left : option N) (es : list (EntryOf N)) (i : nat) : option N :=
  match i with O => left | S j => es !! j ≫= e_right end.

Definition child (n : Node) (i : nat) : option Node := slot (n_left n) (n_entries n) i.

(** The node with another subtree in slot [i]. *)
Definition set_child (n : Node) (i : nat) (c : option Node) : Node :=
  match i with
  | O => set_left c n
  | S j => set_entries (alter (set_right c) j (n_entries n)) n
  end.

(** Levels of nodes below and including [n], each counted with its height:
    fuel for what recurses along the tree. *)
Fixpoint span (n : Node) : nat :=
  let '(MkNode l es _ h _) := n in
  S (Z.abs_nat h + Nat.max (match l with Some c => span c | None => 0%nat end)
    (list_max (map (fun e : Entry => match e_right e with Some c => span c | None => 0%nat end) es))).

Definition span_of (o : option Node) : nat := match o with Some n => span n | None => 0 end.

(** Levels of nodes in memory. *)
Fixpoint levels (n : Node) : nat :=
  let '(MkNode l es _ _ _) := n in
  S (Nat.max (match l with Some c => levels c | None => 0%nat end)
    (list_max (map (fun e : Entry => match e_right e with Some c => levels c | None => 0%nat end) es))).

(** ** Mutations *)

Abbreviation mut := (st (list Cid) MstError).

Definition touch (n : Node) : mut Node := fun released =>
  (Ok (set_cid None n), released ++ option_list (n_cid n)).

Definition discard (n : Node) : mut () := modify (fun released => released ++ option_list (n_cid n)).

Definition require_loaded (n : Node) : mut () :=
  if n_loaded n then mret () else fail (internal "MST mutation reached a node that was not loaded first").

(** [if i == 0 { n.left.take() } else { n.entries[i - 1].right.take() }] *)
Definition take_child (n : Node) (i : nat) : mut (option Node) :=
  match i with
  | O => mret (n_left n)
  | S j => e ← lift (index (n_entries n) j); mret (e_right e)
  end.

(** [if i == 0 { n.left = c } else { n.entries[i - 1].right = c }] *)
Definition put_child (n : Node) (i : nat) (c : option Node) : mut Node :=
  match i with
  | O => mret (set_left c n)
  | S j =>
      e ← lift (index (n_entries n) j);
      mret (set_entries (<[j := set_right c e]> (n_entries n)) n)
  end.

Fixpoint update_node (fuel : nat) (n : Node) (key : bytes) (v : Cid) : mut Node :=
  match fuel with
  | O => panic
  | S fuel =>
      _ ← require_loaded n;
      n ← touch n;
      match search (n_entries n) key with
      | (i, true) =>
          e ← lift (index (n_entries n) i);
          mret (set_entries (<[i := set_val v e]> (n_entries n)) n)
      | (i, false) =>
          match child n i with
          | Some c => c ← update_node fuel c key v; put_child n i (Some c)
          | None => fail (internal "updated key is not in the tree")
          end
      end
  end.

(** Remove completely empty nodes. *)
Definition is_empty_node (n : Node) : bool :=
  n_loaded n && match n_entries n, n_left n with [], None => true | _, _ => false end.

Definition trim_node (n : Node) : option Node := if is_empty_node n then None else Some n.
Definition trim_node_opt (n : option Node) : option Node := n ≫= trim_node.

(** The three cases of [split_node] on a node that it has touched; [rec] is
    [split_node] on the subtree. *)
Definition split_entries (rec : option Node -> bytes -> mut (option Node * option Node))
    (n : Node) (key : bytes) : mut (option Node * option Node) :=
  let split_i := (search (n_entries n) key).1 in
  if (length (n_entries n) <=? split_i)%nat then
    (* All entries are below the key. *)
    last_child ← take_child n split_i;
    '(child_left, child_right) ← rec last_child key;
    n' ← put_child n split_i child_left;
    let right_node := (fun cr => fresh (n_height n) (Some cr) []) <$> child_right in
    mret (trim_node n', trim_node_opt right_node)
  else match split_i with
  | O =>
      '(child_left, child_right) ← rec (n_left n) key;
      let left_node := (fun cl => fresh (n_height n) (Some cl) []) <$> child_left in
      mret (trim_node_opt left_node, trim_node (set_left child_right n))
  | S _ =>
      let right_entries := drop split_i (n_entries n) in
      let left_node := fresh (n_height n) (n_left n) (take split_i (n_entries n)) in
      mid_child ← take_child left_node split_i;
      '(mid_left, mid_right) ← rec mid_child key;
      left_node ← put_child left_node split_i mid_left;
      let right_node := fresh (n_height n) mid_right right_entries in
      mret (trim_node left_node, trim_node right_node)
  end.

Fixpoint split_node (fuel : nat) (n : option Node) (key : bytes) : mut (option Node * option Node) :=
  match fuel with
  | O => panic
  | S fuel =>
      match n with
      | None => mret (None, None)
      | Some n =>
          _ ← require_loaded n;
          n ← touch n;
          split_entries (split_node fuel) n key
      end
  end.

(** [entries.insert(i, e)], [entries.remove(i)] *)
Definition insert_entry (i : nat) (e : Entry) (es : list Entry) : list Entry := take i es ++ e :: drop i es.
Definition remove_entry (i : nat) (es : list Entry) : list Entry := take i es ++ drop (S i) es.

Definition insert_at_level (n : Node) (key : bytes) (v : Cid) : mut Node :=
  let '(i, found) := search (n_entries n) key in
  if found then
    e ← lift (index (n_entries n) i);
    touch (set_entries (<[i := set_val v e]> (n_entries n)) n)
  else
    child_to_split ← take_child n i;
    '(l, r) ← split_node (S (span_of child_to_split)) child_to_split key;
    let n := set_entries (insert_entry i (MkEntry key v r) (n_entries n)) n in
    n ← put_child n i l;
    touch n.

(** [insert_node] is [rec], for the subtree. *)
Definition insert_below (rec : option Node -> bytes -> Cid -> Z -> mut Node)
    (n : Node) (key : bytes) (v : Cid) (height : Z) : mut Node :=
  let idx := find_child_index n key in
  c ← take_child n idx;
  if bool_decide (c = None) && (n_height n - 1 =? height) then
    n ← touch n;
    put_child n idx (Some (fresh height None [MkEntry key v None]))
  else
    let c := match c with Some c => c | None => fresh (n_height n - 1) None [] end in
    new_child ← rec (Some c) key v height;
    n ← touch n;
    put_child n idx (Some new_child).

Fixpoint insert_node (fuel : nat) (n : option Node) (key : bytes) (v : Cid) (height : Z) : mut Node :=
  match fuel with
  | O => panic
  | S fuel' =>
      match n with
      | None => mret (fresh height None [MkEntry key v None])
      | Some n =>
          _ ← require_loaded n;
          if n_height n <? height then
            insert_node fuel' (Some (fresh (n_height n + 1) (Some n) [])) key v height
          else if height <? n_height n then
            insert_below (insert_node fuel') n key v height
          else insert_at_level n key v
      end
  end.

Definition prune_empty (n : Node) : mut (option Node) :=
  if is_empty_node n then _ ← discard n; mret None else mret (Some n).

Fixpoint merge_nodes (fuel : nat) (l r : option Node) : mut (option Node) :=
  match fuel with
  | O => panic
  | S fuel =>
      match l, r with
      | None, r => mret r
      | l, None => mret l
      | Some l, Some r =>
          _ ← require_loaded l;
          _ ← require_loaded r;
          left_right_child ← take_child l (length (n_entries l));
          merged ← merge_nodes fuel left_right_child (n_left r);
          l ← put_child l (length (n_entries l)) merged;
          let l := set_entries (n_entries l ++ n_entries r) l in
          l ← touch l;
          _ ← discard r;
          mret (Some l)
      end
  end.

(** The scan of the entries stops at the key, or at the first entry above it,
    or at the end; what is not an entry is looked up in the subtree there. *)
Fixpoint remove_node (fuel : nat) (n : Node) (key : bytes) : mut (option Node * option Cid) :=
  match fuel with
  | O => panic
  | S fuel =>
      _ ← require_loaded n;
      match search (n_entries n) key with
      | (i, true) =>
          e ← lift (index (n_entries n) i);
          left_child ← take_child n i;
          merged ← merge_nodes (S (span_of left_child)) left_child (e_right e);
          let n := set_entries (remove_entry i (n_entries n)) n in
          n ← put_child n i merged;
          n ← touch n;
          o ← prune_empty n;
          mret (o, Some (e_val e))
      | (i, false) =>
          c ← take_child n i;
          match c with
          | Some c =>
              '(new_child, removed) ← remove_node fuel c key;
              n ← (if bool_decide (removed = None) then mret n else touch n);
              n ← put_child n i new_child;
              o ← prune_empty n;
              mret (o, removed)
          | None => mret (Some n, None)
          end
      end
  end.

Fixpoint trim_top (fuel : nat) (n : option Node) : mut (option Node) :=
  match fuel with
  | O => panic
  | S fuel =>
      match n with
      | None => mret None
      | Some node =>
          if negb (n_loaded node) && (n_height node =? 0) then mret (Some node)
          else
            _ ← require_loaded node;
            match n_entries node with
            | _ :: _ => mret (Some node)
            | [] => _ ← discard node; trim_top fuel (n_left node)
            end
      end
  end.

Definition remove_from_root (root : Node) (key : bytes) : mut (option Node * option Cid) :=
  '(root, removed) ← remove_node (S (span root)) root key;
  root ← trim_top (S (span_of root)) root;
  mret (root, removed).

(** [insert_node] steps up from [n] to [height], or down to it. *)
Definition insert_fuel (n : option Node) (height : Z) : nat :=
  match n with
  | None => 1
  | Some n =>
      if n_height n <? height then S (Z.to_nat (height - n_height n))
      else if height <? n_height n then S (S (span n + Z.to_nat height))
      else 1
  end.
