(* ===== verification/MstShape.v ===== *)
(** What a Merkle search tree in memory stands for: its contents in key
    order, the blocks it holds, and the shape the keys' heights give it.

    Nodes that are not loaded are known by their CID only. [Stubs] says what
    they hold; the definitions and theorems are relative to it, so they cover
    partially loaded trees. *)
From S2P Require Import Prelude StateError SyntaxError CborError Cid MstHeight SortedMap MstNode MstTree.

Class Stubs := {
  stub_contents : Cid -> list (bytes * Cid);
  stub_shape : Z -> Cid -> Prop
}.

(** The blocks not loaded yet are those of trees, too. *)
Class StubsLaws `{Sha2, Stubs} : Prop := {
  stub_heights h c : stub_shape h c -> Forall (fun e => height_for_key e.1 <= h) (stub_contents c);
  stub_children h c s : stub_shape h c ->
    s = (cut_levels h (stub_contents c)).1 \/ s ∈ (cut_levels h (stub_contents c)).2.*2 -> s <> [] ->
    exists c', 1 <= h /\ tree_cid (h - 1) s = Some c' /\ stub_contents c' = s /\ stub_shape (h - 1) c'
}.

Section Induction.
Context (P : Node -> Prop).

Definition opt_all (o : option Node) : Prop := match o with Some n => P n | None => True end.

Hypothesis HP : forall l es c h ld,
  opt_all l -> Forall (fun e : Entry => opt_all (e_right e)) es -> P (MkNode l es c h ld).

Fixpoint Node_ind' (n : Node) : P n :=
  match n with
  | MkNode l es c h ld =>
      HP l es c h ld (match l return opt_all l with Some m => Node_ind' m | None => I end)
        ((fix go (es : list Entry) : Forall (fun e : Entry => opt_all (e_right e)) es :=
            match es with
            | [] => @List.Forall_nil Entry _
            | MkEntry k v r :: es' =>
                @List.Forall_cons Entry (fun e => opt_all (e_right e)) (MkEntry k v r) es'
                  (match r return opt_all r with Some m => Node_ind' m | None => I end) (go es')
            end) es)
  end.
End Induction.

(** ** Contents, blocks and size *)

Definition kv (e : Entry) : bytes * Cid := (e_key e, e_val e).

(** The value of a subtree's slot. *)
Definition opt_map {A} (f : Node -> list A) (o : option Node) : list A :=
  match o with Some n => f n | None => [] end.

Lemma alter_insert {A} (f : A -> A) (l : list A) (i : nat) a : l !! i = Some a -> alter f i l = <[i := f a]> l.
Proof. revert i. induction l as [|b l IH]; intros [|i] Hi; cbn in *; [done..|congruence|]. f_equal. auto. Qed.

Section Shape.
Context `{Sha2, Stubs}.

Fixpoint contents (n : Node) : list (bytes * Cid) :=
  let '(MkNode l es c _ loaded) := n in
  if loaded then
    match l with Some c => contents c | None => [] end ++
    concat (map (fun e => kv e :: match e_right e with Some c => contents c | None => [] end) es)
  else match c with Some c => stub_contents c | None => [] end.

Definition contents_of (o : option Node) : list (bytes * Cid) := opt_map contents o.
Definition entries_contents (es : list Entry) : list (bytes * Cid) :=
  concat (map (fun e => kv e :: contents_of (e_right e)) es).

(** The CIDs of the nodes in memory. *)
Fixpoint cids (n : Node) : list Cid :=
  let '(MkNode l es c _ loaded) := n in
  option_list c ++
  if loaded then
    match l with Some c => cids c | None => [] end ++
    concat (map (fun e : Entry => match e_right e with Some c => cids c | None => [] end) es)
  else [].

Definition cids_of (o : option Node) : list Cid := opt_map cids o.
Definition entries_cids (es : list Entry) : list Cid := concat (map (fun e => cids_of (e_right e)) es).

(** Every node of height [h] has the keys of height [h], its subtrees are one
    level below and not empty, and its CID, if it has one, is that of the block
    for its contents. *)
Fixpoint shape (h : Z) (n : Node) : Prop :=
  let '(MkNode l es c ht loaded) := n in
  ht = h /\ 0 <= h /\ (forall cid, c = Some cid -> tree_cid h (contents n) = Some cid) /\
  if loaded then
    match l with Some c => shape (h - 1) c /\ is_empty_node c = false | None => True end /\
    foldr (fun (e : Entry) P => (height_for_key (e_key e) = h /\
      match e_right e with Some c => shape (h - 1) c /\ is_empty_node c = false | None => True end) /\ P) True es
  else match c with Some c => stub_shape h c | None => False end.

Definition shape_of (h : Z) (o : option Node) : Prop :=
  match o with Some c => shape h c /\ is_empty_node c = false | None => True end.
Definition entry_shape (h : Z) (e : Entry) : Prop :=
  height_for_key (e_key e) = h /\ shape_of (h - 1) (e_right e).

Lemma contents_loaded n : n_loaded n = true ->
  contents n = contents_of (n_left n) ++ entries_contents (n_entries n).
Proof. destruct n as [l es c h []]; [|done]. by destruct l. Qed.

Lemma cids_eq n : n_loaded n = true -> cids n = option_list (n_cid n) ++ cids_of (n_left n) ++ entries_cids (n_entries n).
Proof. by destruct n as [? ? ? ? []]. Qed.

Definition cid_ok (h : Z) (n : Node) : Prop := forall c, n_cid n = Some c -> tree_cid h (contents n) = Some c.

(** The shape alone: what is left when the CID is given up. *)
Definition bare (h : Z) (n : Node) : Prop := shape h (set_cid None n).

Lemma bare_loaded h n : n_loaded n = true -> bare h n <->
  n_height n = h /\ 0 <= h /\ shape_of (h - 1) (n_left n) /\ Forall (entry_shape h) (n_entries n).
Proof.
  destruct n as [l es c ht []]; [|done]. intros _. unfold bare. cbn [shape set_cid n_height n_left n_entries].
  assert (Hf : forall es, Forall (entry_shape h) es <->
    foldr (fun (e : Entry) P => (height_for_key (e_key e) = h /\
      match e_right e with Some c => shape (h - 1) c /\ is_empty_node c = false | None => True end) /\ P) True es).
  { clear. induction es as [|e es IH]; [by rewrite Forall_nil|]. rewrite Forall_cons, IH. done. }
  rewrite Hf. split; [by intros (? & ? & _ & ?)|by intros (? & ? & ?)].
Qed.

Lemma shape_bare h n : n_loaded n = true -> shape h n <-> bare h n /\ cid_ok h n.
Proof.
  destruct n as [l es c ht []]; [|done]. intros _. unfold bare, cid_ok. cbn [shape set_cid n_cid].
  split; [by intros (? & ? & ? & ?)|by intros [(? & ? & _ & ?) ?]].
Qed.

Lemma shape_to_bare h n : n_loaded n = true -> shape h n -> bare h n.
Proof. intros Hl Hs. by apply shape_bare in Hs as [? _]. Qed.

Lemma bare_shape h n : n_cid n = None -> bare h n <-> shape h n.
Proof. destruct n. cbn. by intros ->. Qed.

Lemma shape_fresh h n : n_loaded n = true -> n_cid n = None -> shape h n <->
  n_height n = h /\ 0 <= h /\ shape_of (h - 1) (n_left n) /\ Forall (entry_shape h) (n_entries n).
Proof. intros Hl Hc. by rewrite <- bare_shape, bare_loaded. Qed.

Lemma bare_height h n : bare h n -> n_height n = h /\ 0 <= h.
Proof. destruct n. by intros (? & ? & _). Qed.

Lemma shape_height h n : shape h n -> n_height n = h /\ 0 <= h.
Proof. destruct n. by intros (? & ? & _). Qed.

Lemma entries_contents_app es fs : entries_contents (es ++ fs) = entries_contents es ++ entries_contents fs.
Proof. unfold entries_contents. by rewrite map_app, concat_app. Qed.

Lemma entries_cids_app es fs : entries_cids (es ++ fs) = entries_cids es ++ entries_cids fs.
Proof. unfold entries_cids. by rewrite map_app, concat_app. Qed.

Lemma entries_cids_cut i es : entries_cids es = entries_cids (take i es) ++ entries_cids (drop i es).
Proof. by rewrite <- entries_cids_app, take_drop. Qed.

Lemma entries_contents_cons e es : entries_contents (e :: es) = kv e :: contents_of (e_right e) ++ entries_contents es.
Proof. done. Qed.

(** ** Subtrees *)

(** A measure of an entry's subtree is below the maximum over the entries. *)
Lemma slot_measure (f : Node -> nat) l es i :
  let m o := match o with Some c => f c | None => 0%nat end in
  (m (slot l es i) <= Nat.max (m l) (list_max (map (fun e => m (e_right e)) es)))%nat.
Proof.
  cbn zeta. destruct i as [|j]; cbn [slot]; [lia|].
  destruct (es !! j) as [e|] eqn:He; cbn [mbind option_bind]; [|lia].
  set (g := fun e : Entry => match e_right e with Some c => f c | None => 0%nat end).
  pose proof (proj1 (List.list_max_le (map g es) _) (le_n _)) as Hall. rewrite List.Forall_forall in Hall.
  assert (He' : In (g e) (map g es)).
  { apply List.in_map, list_elem_of_In. by eapply list_elem_of_lookup_2. }
  specialize (Hall (g e) He'). change (match e_right e with Some c => f c | None => 0%nat end) with (g e). lia.
Qed.

Lemma child_span n i : (span_of (child n i) + S (Z.abs_nat (n_height n)) <= span n)%nat.
Proof.
  destruct n as [l es cd h ld]. unfold child. cbn [n_left n_entries n_height span].
  pose proof (slot_measure span l es i) as Hm. cbn zeta in Hm. unfold span_of. lia.
Qed.

Lemma child_levels n i c : child n i = Some c -> (levels c < levels n)%nat.
Proof.
  destruct n as [l es cd h ld]. unfold child. cbn [n_left n_entries levels]. intros Hc.
  pose proof (slot_measure levels l es i) as Hm. cbn zeta in Hm. rewrite Hc in Hm. lia.
Qed.

Lemma take_child_run n i s : (i <= length (n_entries n))%nat -> take_child n i s = (Ok (child n i), s).
Proof.
  destruct i as [|j]; [done|]. intros [e He]%lookup_lt_is_Some. unfold take_child, child, lift, mbind, st_bind, index.
  cbn [slot]. by rewrite He.
Qed.

Lemma put_child_run n i c s : (i <= length (n_entries n))%nat -> put_child n i c s = (Ok (set_child n i c), s).
Proof.
  destruct i as [|j]; [done|]. intros [e He]%lookup_lt_is_Some. unfold put_child, set_child, lift, mbind, st_bind, index.
  rewrite He. unfold mret, st_ret. cbn. by rewrite (alter_insert _ _ _ e).
Qed.

Lemma set_child_fields n i c : n_cid (set_child n i c) = n_cid n /\ n_height (set_child n i c) = n_height n /\
  n_loaded (set_child n i c) = n_loaded n /\ length (n_entries (set_child n i c)) = length (n_entries n).
Proof. destruct n, i; cbn; by rewrite ?length_alter. Qed.

(** What lies before and after the slot. *)
Definition before (n : Node) (i : nat) : list (bytes * Cid) :=
  match i with
  | O => []
  | S j => contents_of (n_left n) ++ entries_contents (take j (n_entries n)) ++
           match n_entries n !! j with Some e => [kv e] | None => [] end
  end.

Definition after (n : Node) (i : nat) : list (bytes * Cid) := entries_contents (drop i (n_entries n)).

Lemma contents_cut n i : n_loaded n = true -> (i <= length (n_entries n))%nat ->
  contents n = before n i ++ contents_of (child n i) ++ after n i.
Proof.
  intros Hl Hi. rewrite contents_loaded by done. unfold after. destruct i as [|j]; [by rewrite drop_0|].
  apply lookup_lt_is_Some in Hi as [e He]. unfold before, child. cbn [slot]. rewrite He. cbn [mbind option_bind].
  rewrite <- (take_drop_middle (n_entries n) j e He) at 1. rewrite entries_contents_app, entries_contents_cons.
  rewrite <- !app_assoc. done.
Qed.


Lemma contents_set_child n i c : n_loaded n = true -> (i <= length (n_entries n))%nat ->
  contents (set_child n i c) = before n i ++ contents_of c ++ after n i.
Proof.
  intros Hl Hi. pose proof (set_child_fields n i c) as (_ & _ & Hl' & Hn).
  rewrite (contents_cut (set_child n i c) i) by congruence. destruct n as [l es cd h ld], i as [|j].
  - done.
  - apply lookup_lt_is_Some in Hi as [e He]. unfold before, after, child. cbn in *.
    by rewrite take_alter_ge, drop_alter_lt, list_lookup_alter_eq, He by lia.
Qed.

Lemma cids_set_child n i c : n_loaded n = true -> (i <= length (n_entries n))%nat ->
  cids (set_child n i c) ++ cids_of (child n i) ≡ₚ cids n ++ cids_of c.
Proof.
  intros Hl Hi. pose proof (set_child_fields n i c) as (_ & _ & Hl' & _). rewrite !cids_eq by congruence. clear Hl Hl'.
  destruct n as [l es cd h ld], i as [|j]; unfold child; cbn [set_child set_left set_entries
    n_left n_entries n_cid slot] in *; [solve_Permutation|].
  apply lookup_lt_is_Some in Hi as [e He]. rewrite He, (alter_insert _ _ _ e) by done. cbn [mbind option_bind].
  pose proof (take_drop_middle _ _ _ He) as Hes. rewrite insert_take_drop by (by eapply lookup_lt_Some).
  rewrite <- Hes at 3. rewrite !entries_cids_app. unfold entries_cids. cbn [map concat set_right e_right].
  solve_Permutation.
Qed.

Lemma bare_child h n i : n_loaded n = true -> bare h n -> shape_of (h - 1) (child n i).
Proof.
  intros Hl (_ & _ & Hleft & Hes)%bare_loaded; [|done]. unfold child. destruct i as [|j]; [done|]. cbn [slot].
  destruct (n_entries n !! j) as [e|] eqn:He; [|done]. cbn.
  by apply (proj1 (Forall_lookup _ _) Hes) in He as [_ ?].
Qed.

Lemma shape_child h n i : n_loaded n = true -> shape h n -> shape_of (h - 1) (child n i).
Proof. intros Hl Hs. apply bare_child; [done|]. by apply shape_to_bare. Qed.

Lemma bare_set_child h n i c : n_loaded n = true -> bare h n -> shape_of (h - 1) c -> bare h (set_child n i c).
Proof.
  intros Hl Hn Hc. pose proof (set_child_fields n i c) as (_ & _ & Hl' & _).
  apply bare_loaded in Hn as (Hh & Hnn & Hleft & Hes); [|done]. apply bare_loaded; [congruence|].
  destruct n as [l es cd ht ld], i as [|j]; cbn in *; split_and!; try done.
  apply Forall_alter; [done|]. by intros e _ [? _].
Qed.

(** ** Searching *)

Lemma search_spec (es : list Entry) key i found : search es key = (i, found) ->
  (i <= length es)%nat /\
  (forall j, i = S j -> exists e, es !! j = Some e /\ bytes_lt (e_key e) key) /\
  if found then exists e, es !! i = Some e /\ e_key e = key
  else forall e, es !! i = Some e -> bytes_lt key (e_key e).
Proof.
  revert i. induction es as [|e es IH]; intros i; cbn [search].
  { intros [= <- <-]. by split_and!. }
  destruct (bytes_cmp_spec key (e_key e)) as [He|Hlt|Hgt].
  - intros [= <- <-]. split_and!; [cbn; lia|done|]. by exists e.
  - intros [= <- <-]. split_and!; [cbn; lia|done|]. by intros ? [= <-].
  - destruct (search es key) as [i' f]. intros [= <- <-]. destruct (IH i' eq_refl) as (Hi & Hb & Hf).
    split_and!; [cbn; lia| |done]. intros j [= ->]. destruct j as [|j]; [by exists e|]. by apply Hb.
Qed.

Lemma all_below_before n i key : n_loaded n = true -> ordered (contents n) -> (i <= length (n_entries n))%nat ->
  (forall j, i = S j -> exists e, n_entries n !! j = Some e /\ bytes_lt (e_key e) key) ->
  all_below key (before n i).
Proof.
  intros Hl Ho Hi Hb. rewrite (contents_cut n i) in Ho by done. destruct i as [|j]; [constructor|].
  destruct (Hb j eq_refl) as (e & He & Hlt). unfold before in *. rewrite He in *. rewrite <- !app_assoc in Ho.
  rewrite (app_assoc _ (entries_contents _)) in *. apply ordered_mid in Ho as (_ & _ & Ha & _).
  apply all_below_app. split; [by eapply all_below_lt|]. by constructor.
Qed.

Lemma all_above_entry es i e key l : ordered (l ++ entries_contents (drop i es)) -> es !! i = Some e ->
  bytes_lt key (e_key e) -> all_above key (entries_contents (drop i es)).
Proof.
  intros Ho He Hlt. rewrite (drop_S _ e) in * by done. rewrite entries_contents_cons in *.
  apply ordered_mid in Ho as (_ & _ & _ & Ha). constructor; [done|]. by eapply all_above_lt.
Qed.

(** Where an absent key belongs. *)
Lemma cut_absent n key i : n_loaded n = true -> ordered (contents n) -> search (n_entries n) key = (i, false) ->
  (i <= length (n_entries n))%nat /\ all_below key (before n i) /\ all_above key (after n i).
Proof.
  intros Hl Ho (Hi & Hb & Ha)%search_spec. split_and!; [done|by apply all_below_before|].
  unfold after. destruct (n_entries n !! i) as [e|] eqn:He.
  - rewrite (contents_cut n i), app_assoc in Ho by done. eapply all_above_entry; eauto.
  - apply lookup_ge_None in He. rewrite drop_ge by done. constructor.
Qed.

(** Where a key of the node is. *)
Lemma cut_present n key i : n_loaded n = true -> ordered (contents n) -> search (n_entries n) key = (i, true) ->
  exists e, n_entries n !! i = Some e /\ e_key e = key /\
  contents n = (before n i ++ contents_of (child n i)) ++ (key, e_val e) :: contents_of (e_right e) ++ after n (S i) /\
  all_below key (before n i ++ contents_of (child n i)) /\
  all_above key (contents_of (e_right e) ++ after n (S i)).
Proof.
  intros Hl Ho (Hi & _ & e & He & Hk)%search_spec. exists e. rewrite (contents_cut n i), app_assoc in * by done.
  assert (Ha : after n i = (key, e_val e) :: contents_of (e_right e) ++ after n (S i)).
  { unfold after. rewrite (drop_S _ e) by done. rewrite entries_contents_cons. unfold kv. by rewrite Hk. }
  rewrite Ha in *. apply ordered_mid in Ho as (_ & _ & Hb & Hab). done.
Qed.
End Shape.
