(* ===== verification/MstMutate.v ===== *)
(** What the mutations of [MstTree] do: the contents they leave, the blocks
    they release, the shape they keep, and the nodes they need loaded. *)
From S2P Require Import Prelude StateError SyntaxError CborError Cid MstHeight SortedMap MstNode MstTree MstShape.

Section Runs.
Context {A : Type}.

Lemma require_loaded_run n s : n_loaded n = true -> require_loaded n s = (Ok (), s).
Proof. unfold require_loaded. by intros ->. Qed.
End Runs.

(** Permutations of appended lists, by counting. *)
Definition count (c : Cid) (l : list Cid) : nat := count_occ Cid_eq_dec l c.

Lemma count_app c l k : count c (l ++ k) = (count c l + count c k)%nat.
Proof. apply count_occ_app. Qed.

Lemma count_nil c : count c [] = 0%nat.
Proof. done. Qed.

Lemma perm_count l k : l ≡ₚ k <-> forall c, count c l = count c k.
Proof. apply Permutation_count_occ. Qed.

Ltac perm_lia :=
  let c := fresh "c" in
  repeat match goal with H : @Permutation Cid _ _ |- _ => rewrite perm_count in H end;
  rewrite perm_count; intros c;
  repeat match goal with H : forall c, count c _ = count c _ |- _ => specialize (H c) end;
  rewrite ?count_app, ?count_nil in *; lia.

(** The nodes on the search path of a key are loaded. *)
Inductive path_ready (key : bytes) : Node -> Prop :=
| ready_found n i : n_loaded n = true -> search (n_entries n) key = (i, true) -> path_ready key n
| ready_end n i : n_loaded n = true -> search (n_entries n) key = (i, false) -> child n i = None -> path_ready key n
| ready_down n i c : n_loaded n = true -> search (n_entries n) key = (i, false) -> child n i = Some c ->
    path_ready key c -> path_ready key n.

Definition path_ready_of (key : bytes) (o : option Node) : Prop :=
  match o with Some n => path_ready key n | None => True end.

Lemma path_ready_loaded key n : path_ready key n -> n_loaded n = true.
Proof. by destruct 1. Qed.

Lemma path_ready_child key n i : path_ready key n -> search (n_entries n) key = (i, false) ->
  path_ready_of key (child n i).
Proof.
  destruct 1 as [n j Hl Hs|n j Hl Hs Hc|n j c Hl Hs Hc Hr]; rewrite Hs; intros [= <-]; by rewrite Hc.
Qed.

Section Mutate.
Context `{Sha2, Stubs}.

Lemma contents_set_cid c n : n_loaded n = true -> contents (set_cid c n) = contents n.
Proof. by destruct n as [l es c' h []]. Qed.

Lemma set_cid_bare h n : bare h n <-> shape h (set_cid None n).
Proof. done. Qed.

Lemma cids_set_cid n : cids n = option_list (n_cid n) ++ cids (set_cid None n).
Proof. by destruct n. Qed.

Lemma contents_set_entries es n : n_loaded n = true ->
  contents (set_entries es n) = contents_of (n_left n) ++ entries_contents es.
Proof. destruct n as [l es' c h []]; [|done]. intros _. by rewrite contents_loaded. Qed.

(** ** [trim_node] *)

Lemma trim_node_spec n : n_cid n = None ->
  contents_of (trim_node n) = contents n /\ cids_of (trim_node n) = cids n /\
  forall h, bare h n -> shape_of h (trim_node n).
Proof.
  intros Hc. setoid_rewrite (bare_shape _ n Hc). unfold trim_node. destruct (is_empty_node n) eqn:He.
  - destruct n as [[l|] [|e es] c h []]; try done. cbn in Hc. by rewrite Hc.
  - split_and!; [done..|]. by intros h Hs.
Qed.

(** The filler [split_node] puts above what it cuts off. *)
Lemma filler_spec (o : option Node) ht : let f := trim_node_opt ((fun c => fresh ht (Some c) []) <$> o) in
  contents_of f = contents_of o /\ cids_of f = cids_of o /\
  (0 <= ht -> shape_of (ht - 1) o -> shape_of ht f).
Proof.
  destruct o as [c|]; [|done]. cbn. unfold entries_contents. rewrite !app_nil_r. split_and!; done.
Qed.

(** ** [split_node] *)

Definition split_post (n : option Node) (key : bytes) (rel : list Cid) (l r : option Node) (rel' : list Cid) : Prop :=
  contents_of n = contents_of l ++ contents_of r /\
  all_below key (contents_of l) /\ all_above key (contents_of r) /\
  cids_of l ++ cids_of r ++ rel' ≡ₚ cids_of n ++ rel /\
  forall h, shape_of h n -> shape_of h l /\ shape_of h r.

(** The left part of a node cut at a slot. *)
Definition cut_left (n : Node) (i : nat) : Node := fresh (n_height n) (n_left n) (take i (n_entries n)).

Lemma cut_left_spec n i : n_loaded n = true -> n_cid n = None -> (i <= length (n_entries n))%nat ->
  child (cut_left n i) i = child n i /\ before (cut_left n i) i = before n i /\ after (cut_left n i) i = [] /\
  cids (cut_left n i) ++ entries_cids (drop i (n_entries n)) = cids n /\
  forall h, bare h n -> bare h (cut_left n i) /\ Forall (entry_shape h) (drop i (n_entries n)).
Proof.
  intros Hl Hc Hi. unfold cut_left, child, before, after. cbn [fresh n_left n_entries]. split_and!.
  - destruct i as [|j]; [done|]. cbn [slot]. by rewrite lookup_take_lt by lia.
  - destruct i as [|j]; [done|]. rewrite take_take, lookup_take_lt by lia. by replace (j `min` S j)%nat with j by lia.
  - by rewrite drop_ge by (rewrite length_take; lia).
  - rewrite !cids_eq, Hc by done. cbn [fresh n_cid n_left n_entries option_list app].
    rewrite <- !app_assoc, <- entries_cids_app. by rewrite take_drop.
  - intros h Hs. apply bare_loaded in Hs as (Hh & Hnn & Hleft & Hes); [|done]. split; [|by apply Forall_drop].
    apply bare_loaded; [done|]. split_and!; try done. by apply Forall_take.
Qed.

Lemma split_entries_spec rec n key i rel l r rel' : n_loaded n = true -> n_cid n = None ->
  search (n_entries n) key = (i, false) -> (i <= length (n_entries n))%nat ->
  rec (child n i) key rel = (Ok (l, r), rel') ->
  exists l' r', split_entries rec n key rel = (Ok (l', r'), rel') /\
    contents_of l' = before n i ++ contents_of l /\ contents_of r' = contents_of r ++ after n i /\
    cids_of l' ++ cids_of r' ++ cids_of (child n i) ≡ₚ cids n ++ cids_of l ++ cids_of r /\
    forall h, bare h n -> shape_of (h - 1) l -> shape_of (h - 1) r -> shape_of h l' /\ shape_of h r'.
Proof.
  intros Hl Hc Hs Hi Hrec. unfold split_entries. rewrite Hs. cbn [fst].
  destruct (length (n_entries n) <=? i)%nat eqn:Hlen.
  - rewrite (st_bind_run _ _ _ _ _ (take_child_run n i rel Hi)), (st_bind_run _ _ _ _ _ Hrec).
    rewrite (st_bind_run _ _ _ _ _ (put_child_run n i l rel' Hi)). eexists _, _; split; [done|].
    destruct (set_child_fields n i l) as (Hc' & _).
    destruct (trim_node_spec (set_child n i l)) as (-> & -> & Ht); [congruence|].
    destruct (filler_spec r (n_height n)) as (-> & -> & Hf).
    assert (Ha : after n i = []) by (unfold after; by rewrite drop_ge by lia).
    rewrite contents_set_child, Ha, !app_nil_r by done. split_and!; [done..| |].
    + pose proof (cids_set_child n i l Hl Hi) as Hp. rewrite (Permutation_app_comm (cids_of r)), app_assoc, Hp.
      by rewrite <- app_assoc.
    + intros h Hsh Hsl Hsr. destruct (bare_height _ _ Hsh) as [<- ?]. split; [|by apply Hf].
      by apply Ht, bare_set_child.
  - destruct i as [|j].
    + rewrite (st_bind_run _ _ _ _ _ Hrec). eexists _, _; split; [done|].
      destruct (trim_node_spec (set_left r n)) as (-> & -> & Ht); [by destruct n|].
      destruct (filler_spec l (n_height n)) as (-> & -> & Hf).
      change (set_left r n) with (set_child n 0 r) in *. rewrite contents_set_child by (done || lia). split_and!; [done..| |].
      * pose proof (cids_set_child n 0 r Hl ltac:(lia)) as Hp. rewrite Hp. solve_Permutation.
      * intros h Hsh Hsl Hsr. destruct (bare_height _ _ Hsh) as [<- ?]. split; [by apply Hf|].
        by apply Ht, bare_set_child.
    + destruct (cut_left_spec n (S j) Hl Hc Hi) as (Hch & Hb & Ha & Hcs & Hsh).
      fold (cut_left n (S j)).
      assert (Hi' : (S j <= length (n_entries (cut_left n (S j))))%nat) by (cbn; rewrite length_take; lia).
      rewrite (st_bind_run _ _ _ _ _ (take_child_run (cut_left n (S j)) (S j) rel Hi')), Hch, (st_bind_run _ _ _ _ _ Hrec).
      rewrite (st_bind_run _ _ _ _ _ (put_child_run _ (S j) l rel' Hi')). eexists _, _; split; [done|].
      destruct (set_child_fields (cut_left n (S j)) (S j) l) as (Hc' & _).
      destruct (trim_node_spec (set_child (cut_left n (S j)) (S j) l)) as (-> & -> & Ht); [by rewrite Hc'|].
      destruct (trim_node_spec (fresh (n_height n) r (drop (S j) (n_entries n)))) as (-> & -> & Ht'); [done|].
      rewrite contents_set_child, Hb, Ha, app_nil_r by done. rewrite contents_loaded by done. split_and!; [done..| |].
      * pose proof (cids_set_child (cut_left n (S j)) (S j) l eq_refl Hi') as Hp. rewrite Hch in Hp.
        rewrite (Permutation_app_comm (cids (fresh _ _ _))), app_assoc, Hp, <- Hcs, (cids_eq (fresh _ _ _)) by done.
        cbn [fresh n_cid n_left n_entries option_list]. solve_Permutation.
      * intros h Hn Hsl Hsr. destruct (Hsh h Hn) as [Hcl Hdr]. split; [by apply Ht, bare_set_child|].
        apply Ht', bare_loaded; [done|]. destruct (bare_height _ _ Hn) as [<- ?]. done.
Qed.

Lemma split_node_spec fuel n key rel : (span_of n < fuel)%nat -> path_ready_of key n ->
  ordered (contents_of n) -> get key (contents_of n) = None ->
  exists l r rel', split_node fuel n key rel = (Ok (l, r), rel') /\ split_post n key rel l r rel'.
Proof.
  revert n rel. induction fuel as [|fuel IH]; intros n rel Hf Hr Ho Hk; [lia|].
  destruct n as [n|]; [|exists None, None, rel; split; [done|]; split_and!; by try apply Forall_nil_2].
  cbn [split_node path_ready_of contents_of opt_map span_of] in *.
  pose proof (path_ready_loaded _ _ Hr) as Hl.
  rewrite (st_bind_run _ _ _ _ _ (require_loaded_run n rel Hl)).
  rewrite (st_bind_run _ _ _ _ _ (eq_refl : touch n rel = _)).
  destruct (search (n_entries n) key) as [i [|]] eqn:Hs.
  { apply cut_present in Hs as (e & _ & _ & Hc & Hb & Ha); [|done..]. rewrite Hc, get_mid in Hk; done. }
  pose proof (path_ready_child _ _ _ Hr Hs) as Hrc.
  destruct (cut_absent n key i Hl Ho Hs) as (Hi & Hb & Ha).
  pose proof (contents_cut n i Hl Hi) as Hc. rewrite Hc in Ho, Hk. rewrite get_between in Hk by done.
  destruct (IH (child n i) (rel ++ option_list (n_cid n))) as (l & r & rel' & Hrun & Hcc & Hbl & Har & Hp & Hsh); try done.
  { pose proof (child_span n i). lia. }
  { by eapply ordered_app_l, ordered_app_r. }
  set (m := set_cid None n). assert (Hm : n_loaded m = true /\ n_cid m = None /\ n_entries m = n_entries n /\
    child m i = child n i /\ before m i = before n i /\ after m i = after n i /\ n_height m = n_height n) by (by destruct n).
  destruct Hm as (Hlm & Hcm & Hem & Hchm & Hbm & Ham & Hhm).
  destruct (split_entries_spec (split_node fuel) m key i (rel ++ option_list (n_cid n)) l r rel') as (l' & r' & Hrun' & Hl' & Hr' & Hp' & Hsh');
    [done|done|by rewrite Hem|by rewrite Hem|by rewrite Hchm|].
  exists l', r', rel'. split; [exact Hrun'|]. rewrite Hbm, Ham, Hchm in *. split_and!.
  - cbn. rewrite Hc, Hcc, Hl', Hr'. by rewrite <- !app_assoc.
  - rewrite Hl'. by apply all_below_app.
  - rewrite Hr'. by apply all_above_app.
  - cbn [cids_of opt_map]. rewrite (cids_set_cid n). fold m. perm_lia.
  - intros h [Hn He]. apply shape_to_bare in Hn; [|done]. apply Hsh'; [by apply bare_shape|apply Hsh..]; by apply bare_child.
Qed.
(** ** [insert_node] *)

Lemma insert_entry_spec n i e : n_loaded n = true -> (i <= length (n_entries n))%nat ->
  let n' := set_entries (insert_entry i e (n_entries n)) n in
  (i <= length (n_entries n'))%nat /\ child n' i = child n i /\ before n' i = before n i /\
  after n' i = kv e :: contents_of (e_right e) ++ after n i /\ n_loaded n' = true /\ n_entries n' <> [] /\
  cids n' ≡ₚ cids n ++ cids_of (e_right e) /\
  forall h, bare h n -> entry_shape h e -> bare h n'.
Proof.
  intros Hl Hi. destruct n as [l es c ht ld]. cbn in Hl. subst ld. cbn [n_entries set_entries] in *. unfold insert_entry.
  assert (Hti : length (take i es) = i) by (rewrite length_take; lia). split_and!.
  - rewrite length_app, Hti. lia.
  - unfold child. cbn [n_left n_entries]. destruct i as [|j]; [done|]. cbn [slot].
    by rewrite lookup_app_l, lookup_take_lt by lia.
  - unfold before. cbn [n_left n_entries]. destruct i as [|j]; [done|].
    rewrite take_app_le, take_take, lookup_app_l, lookup_take_lt by lia. by replace (j `min` S j)%nat with j by lia.
  - unfold after. cbn [n_entries]. by rewrite drop_app_length'.
  - done.
  - by destruct (take i es).
  - rewrite !cids_eq by done. cbn [n_cid n_left n_entries]. rewrite (entries_cids_cut i es), !entries_cids_app.
    change (entries_cids (e :: drop i es)) with (cids_of (e_right e) ++ entries_cids (drop i es)). perm_lia.
  - intros h Hs He. apply bare_loaded in Hs as (Hh & Hnn & Hleft & Hes); [|done]. apply bare_loaded; [done|].
    split_and!; try done. cbn [n_entries]. apply Forall_app. split; [by apply Forall_take|].
    constructor; [done|by apply Forall_drop].
Qed.

Definition insert_post (key : bytes) (v : Cid) (h : Z) (n : option Node) (rel : list Cid) (n' : Node) (rel' : list Cid) : Prop :=
  n_loaded n' = true /\ is_empty_node n' = false /\
  contents n' = upsert key v (contents_of n) /\
  cids n' ++ rel' ≡ₚ cids_of n ++ rel /\
  (height_for_key key = h -> 0 <= h ->
   match n with
   | Some n => forall ht, shape ht n -> (ht < h -> is_empty_node n = false) -> shape (Z.max ht h) n'
   | None => shape h n'
   end).

Lemma not_empty n : n_entries n <> [] -> is_empty_node n = false.
Proof. destruct n as [? [] ? ? []]; done. Qed.

Lemma insert_at_level_spec n key v rel : path_ready key n -> ordered (contents n) -> get key (contents n) = None ->
  exists n' rel', insert_at_level n key v rel = (Ok n', rel') /\ insert_post key v (n_height n) (Some n) rel n' rel'.
Proof.
  intros Hr Ho Hk. pose proof (path_ready_loaded _ _ Hr) as Hl. unfold insert_at_level.
  destruct (search (n_entries n) key) as [i [|]] eqn:Hs.
  { apply cut_present in Hs as (e & _ & _ & Hc & Hb & Ha); [|done..]. rewrite Hc, get_mid in Hk; done. }
  pose proof (path_ready_child _ _ _ Hr Hs) as Hrc.
  destruct (cut_absent n key i Hl Ho Hs) as (Hi & Hb & Ha).
  pose proof (contents_cut n i Hl Hi) as Hc. rewrite Hc in Ho, Hk. rewrite get_between in Hk by done.
  rewrite (st_bind_run _ _ _ _ _ (take_child_run n i rel Hi)).
  destruct (split_node_spec (S (span_of (child n i))) (child n i) key rel) as (l & r & rel' & Hrun & Hcc & Hbl & Har & Hp & Hsh);
    [lia|done|by eapply ordered_app_l, ordered_app_r|done|].
  rewrite (st_bind_run _ _ _ _ _ Hrun). set (e := MkEntry key v r).
  destruct (insert_entry_spec n i e Hl Hi) as (Hi' & Hch & Hbm & Ham & Hlm & Hne & Hpm & Hshm).
  set (m := set_entries _ n) in *. rewrite (st_bind_run _ _ _ _ _ (put_child_run m i l rel' Hi')).
  set (n' := set_child m i l). destruct (set_child_fields m i l) as (Hcid & Hht & Hld & Hlen). fold n' in Hcid, Hht, Hld, Hlen.
  eexists _, _. split; [done|]. split_and!.
  - rewrite <- Hlm, <- Hld. by destruct n'.
  - apply not_empty. intros He. assert (length (n_entries n') = 0)%nat as Hz by (destruct n'; cbn in *; by rewrite He).
    rewrite Hlen in Hz. by apply nil_length_inv in Hz.
  - rewrite contents_set_cid by congruence. unfold n'. rewrite contents_set_child, Hbm, Ham by done.
    cbn [contents_of opt_map kv e e_key e_val e_right]. rewrite Hc, Hcc, upsert_between by done.
    rewrite upsert_cut by done. by rewrite <- !app_assoc.
  - pose proof (cids_set_child m i l Hlm Hi') as Hp'. fold n' in Hp'. rewrite Hch in Hp'. rewrite (cids_set_cid n') in Hp'.
    cbn [e e_right cids_of opt_map] in *. perm_lia.
  - intros Hh Hnn ht Hn _. destruct (shape_height _ _ Hn) as [<- _]. rewrite Z.max_id.
    destruct (Hsh (n_height n - 1)) as [Hsl Hsr]; [by apply shape_child|].
    apply bare_set_child; [done| |done]. apply Hshm; [by apply shape_to_bare|done].
Qed.

(** A touched node with a subtree replaced. *)
Lemma set_child_some_not_empty n i c : (i <= length (n_entries n))%nat -> is_empty_node (set_child n i (Some c)) = false.
Proof.
  intros Hi. destruct n as [l es cd ht []], i as [|j]; cbn in *; try done.
  - by destruct es.
  - destruct es as [|e es]; cbn in *; [lia|]. by destruct j.
Qed.

Lemma touched_child n key i c : n_loaded n = true -> ordered (contents n) -> search (n_entries n) key = (i, false) ->
  let n' := set_child (set_cid None n) i c in
  n_loaded n' = true /\
  (exists a b, all_below key a /\ all_above key b /\
    contents n = a ++ contents_of (child n i) ++ b /\ contents n' = a ++ contents_of c ++ b) /\
  cids n' ++ cids_of (child n i) ++ option_list (n_cid n) ≡ₚ cids n ++ cids_of c /\
  (forall h, bare h n -> shape_of (h - 1) c -> shape h n').
Proof.
  intros Hl Ho Hs. destruct (cut_absent n key i Hl Ho Hs) as (Hi & Hb & Ha).
  set (m := set_cid None n). assert (Hm : n_loaded m = true /\ n_entries m = n_entries n /\
    child m i = child n i /\ before m i = before n i /\ after m i = after n i) by (by destruct n).
  destruct Hm as (Hlm & Hem & Hchm & Hbm & Ham). assert (Him : (i <= length (n_entries m))%nat) by (by rewrite Hem).
  cbn zeta. destruct (set_child_fields m i c) as (_ & _ & Hld & _). split_and!.
  - congruence.
  - exists (before n i), (after n i). split_and!; [done..|by apply contents_cut|].
    by rewrite contents_set_child, Hbm, Ham.
  - pose proof (cids_set_child m i c Hlm Him) as Hp. rewrite Hchm in Hp. rewrite (cids_set_cid n). fold m. perm_lia.
  - intros h Hn Hc. apply bare_shape; [by rewrite (proj1 (set_child_fields m i c)); destruct n|]. apply bare_set_child; [done| |done].
    by apply bare_shape; [destruct n|].
Qed.

Lemma insert_below_spec rec n key v h i rel : n_loaded n = true -> ordered (contents n) ->
  get key (contents n) = None -> search (n_entries n) key = (i, false) -> 0 <= h < n_height n ->
  (forall c rel, child n i = Some c \/ child n i = None /\ c = fresh (n_height n - 1) None [] ->
     exists c' rel', rec (Some c) key v h rel = (Ok c', rel') /\ insert_post key v h (Some c) rel c' rel') ->
  exists n' rel', insert_below rec n key v h rel = (Ok n', rel') /\ insert_post key v h (Some n) rel n' rel'.
Proof.
  intros Hn Ho Hk Hs Hh Hrec. unfold insert_below, find_child_index. rewrite Hs. cbn [fst].
  destruct (cut_absent n key i Hn Ho Hs) as (Hi & _).
  assert (Him : (i <= length (n_entries (set_cid None n)))%nat) by (by destruct n).
  rewrite (st_bind_run _ _ _ _ _ (take_child_run n i rel Hi)).
  (* what the node has become once its subtree is [c'] *)
  assert (Hend : forall c' rel', is_empty_node c' = false ->
    contents c' = upsert key v (contents_of (child n i)) -> cids c' ++ rel' ≡ₚ cids_of (child n i) ++ rel ->
    (height_for_key key = h -> shape_of (n_height n - 1) (child n i) -> shape (n_height n - 1) c') ->
    insert_post key v h (Some n) rel (set_child (set_cid None n) i (Some c')) (rel' ++ option_list (n_cid n))).
  { intros c' rel' Hne Hc' Hp Hsh.
    destruct (touched_child n key i (Some c') Hn Ho Hs) as (Hl' & (a & b & Hb & Ha & Hcn & Hcn') & Hpn & Hshn).
    split_and!; [done|by apply set_child_some_not_empty| | |].
    - rewrite Hcn'. cbn [contents_of opt_map]. by rewrite Hcn, upsert_between, Hc'.
    - cbn [cids_of opt_map] in *. perm_lia.
    - intros Hhk Hnn ht Hsn _. destruct (shape_height _ _ Hsn) as [Hht _]. subst ht. rewrite Z.max_l by lia.
      apply Hshn; [apply shape_to_bare; done|]. split; [|done]. apply Hsh; [done|]. apply shape_child; done. }
  assert (Hgo : forall c, child n i = Some c \/ child n i = None /\ c = fresh (n_height n - 1) None [] ->
    exists n' rel', (c' ← rec (Some c) key v h; m ← touch n; put_child m i (Some c')) rel = (Ok n', rel') /\
      insert_post key v h (Some n) rel n' rel').
  { intros c Hc. destruct (Hrec c rel Hc) as (c' & rel' & Hrun & Hl' & Hne & Hcon & Hp & Hsh).
    rewrite (st_bind_run _ _ _ _ _ Hrun), (st_bind_run _ _ _ _ _ (eq_refl : touch n rel' = _)), put_child_run by done.
    eexists _, _. split; [done|]. apply Hend; [done|..].
    - rewrite Hcon. by destruct Hc as [->|[-> ->]].
    - destruct Hc as [->|[-> ->]]; cbn in *; perm_lia.
    - intros Hhk Hsc. specialize (Hsh Hhk ltac:(lia) (n_height n - 1)). rewrite Z.max_l in Hsh by lia. apply Hsh; [|lia].
      destruct Hc as [Hc|[Hc ->]]; [rewrite Hc in Hsc; apply Hsc|]. apply shape_fresh; [done..|].
      split_and!; [done|lia|done|constructor]. }
  destruct (child n i) as [c|] eqn:Hc.
  - cbn [bool_decide andb]. rewrite bool_decide_false by done. apply Hgo. by left.
  - rewrite bool_decide_true by done. cbn [andb]. destruct (Z.eqb_spec (n_height n - 1) h) as [He|He].
    + rewrite (st_bind_run _ _ _ _ _ (eq_refl : touch n rel = _)), put_child_run by done.
      eexists _, _. split; [done|]. apply Hend; [done..|]. intros Hhk _. apply shape_fresh; [done..|].
      rewrite He. split_and!; [done|lia|done|]. by repeat constructor.
    + apply Hgo. by right.
Qed.

(** The child a key that is in a node's subtree descends to. *)
Lemma absent_child n key i : n_loaded n = true -> ordered (contents n) -> search (n_entries n) key = (i, false) ->
  ordered (contents_of (child n i)) /\ get key (contents n) = get key (contents_of (child n i)).
Proof.
  intros Hl Ho Hs. destruct (cut_absent n key i Hl Ho Hs) as (Hi & Hb & Ha). rewrite (contents_cut n i) in * by done.
  split; [by eapply ordered_app_l, ordered_app_r|]. by apply get_between.
Qed.

Lemma insert_node_spec fuel n key v h rel : (insert_fuel n h <= fuel)%nat -> 0 <= h -> path_ready_of key n ->
  ordered (contents_of n) -> get key (contents_of n) = None ->
  exists n' rel', insert_node fuel n key v h rel = (Ok n', rel') /\ insert_post key v h n rel n' rel'.
Proof.
  intros Hf Hh. revert n rel Hf. induction fuel as [|fuel IH]; intros n rel Hf Hr Ho Hk.
  { destruct n as [n|]; cbn in Hf; [|lia]. destruct (n_height n <? h), (h <? n_height n); lia. }
  destruct n as [n|].
  2: { exists (fresh h None [MkEntry key v None]), rel. split; [done|]. split_and!; [done..|].
       intros Hhk _. apply shape_fresh; [done..|]. split_and!; [done..|]. by repeat constructor. }
  cbn [insert_node path_ready_of contents_of opt_map insert_fuel] in *.
  pose proof (path_ready_loaded _ _ Hr) as Hl.
  rewrite (st_bind_run _ _ _ _ _ (require_loaded_run n rel Hl)).
  destruct (Z.ltb_spec (n_height n) h) as [Hlt|Hge].
  - set (p := fresh (n_height n + 1) (Some n) []).
    destruct (IH (Some p) rel) as (n' & rel' & Hrun & Hl' & Hne & Hc & Hp & Hsh).
    + cbn [insert_fuel]. change (n_height p) with (n_height n + 1).
      destruct (n_height n + 1 <? h) eqn:H1; [lia|]. replace (h <? n_height n + 1) with false by lia. lia.
    + by apply (ready_down key p 0 n).
    + cbn. by rewrite app_nil_r.
    + cbn. by rewrite app_nil_r.
    + exists n', rel'. split; [done|]. cbn in Hc, Hp. rewrite !app_nil_r in Hc, Hp. split_and!; [done..|].
      intros Hhk _ ht Hsn Hemp. destruct (shape_height _ _ Hsn) as [Hht Hnn]. subst ht.
      specialize (Hsh Hhk Hh (n_height n + 1)). rewrite !Z.max_r in * by lia. apply Hsh; [|done].
      apply shape_fresh; [done..|]. cbn. replace (n_height n + 1 - 1) with (n_height n) by lia.
      split_and!; [done|lia|done|by apply Hemp|constructor].
  - destruct (Z.ltb_spec h (n_height n)) as [Hlt|He].
    + destruct (search (n_entries n) key) as [i [|]] eqn:Hs.
      { apply cut_present in Hs as (e & _ & _ & Hc & Hb & Ha); [|done..]. rewrite Hc, get_mid in Hk; done. }
      destruct (absent_child n key i) as [Hoc Hkc]; [done..|]. pose proof (child_span n i) as Hsp.
      apply (insert_below_spec _ n key v h i); [done..|lia|]. intros c rel' Hc. apply IH.
      * cbn [insert_fuel]. destruct Hc as [Hc|[_ ->]]; [rewrite Hc in Hsp; cbn [span_of] in Hsp|].
        -- pose proof (path_ready_child _ _ _ Hr Hs) as Hrc. rewrite Hc in Hrc.
           pose proof (child_span c 0). destruct (n_height c <? h); [lia|]. destruct (h <? n_height c); lia.
        -- cbn [fresh n_height span]. cbn. replace (n_height n - 1 <? h) with false by lia. destruct (h <? n_height n - 1); lia.
      * destruct Hc as [Hc|[_ ->]]; [pose proof (path_ready_child _ _ _ Hr Hs) as Hrc; by rewrite Hc in Hrc|].
        by apply (ready_end _ _ 0).
      * destruct Hc as [Hc|[_ ->]]; [by rewrite Hc in Hoc|apply ordered_nil].
      * destruct Hc as [Hc|[_ ->]]; [by rewrite <- Hc, <- Hkc|done].
    + replace h with (n_height n) by lia. by apply insert_at_level_spec.
Qed.

(** ** Inserting above an empty root *)

(** Nodes without entries, down to the end. Only the root of an empty tree,
    and what [insert_node] stacks on it, are like this. *)
Inductive hollow : Node -> Prop :=
| hollow_end c h : hollow (MkNode None [] c h true)
| hollow_left l c h : hollow l -> hollow (MkNode (Some l) [] c h true).

Lemma split_node_hollow fuel n key rel : hollow n -> (span n < fuel)%nat ->
  exists rel', split_node fuel (Some n) key rel = (Ok (None, None), rel') /\ rel' ≡ₚ cids n ++ rel.
Proof.
  intros Hn. revert fuel rel. induction Hn as [c h|l c h Hl IH]; intros fuel rel Hf; (destruct fuel as [|fuel]; [lia|]).
  - destruct fuel as [|fuel]; [cbn in Hf; lia|]. exists (rel ++ option_list c). split; [done|]. cbn. rewrite app_nil_r. apply Permutation_app_comm.
  - cbn [span list_max map foldr] in Hf. destruct (IH fuel (rel ++ option_list c) ltac:(lia)) as (rel' & Hrun & Hp).
    exists rel'. split.
    + cbn [split_node]. rewrite (st_bind_run _ _ rel () rel) by done.
      rewrite (st_bind_run _ _ rel (MkNode (Some l) [] None h true) (rel ++ option_list c)) by done.
      unfold split_entries. cbn [search n_entries length fst take_child n_left]. change (0 <=? 0)%nat with true. cbv iota.
      rewrite (st_bind_run _ _ (rel ++ option_list c) (Some l) (rel ++ option_list c)) by done.
      by rewrite (st_bind_run _ _ _ _ _ Hrun).
    + cbn. rewrite app_nil_r. perm_lia.
Qed.

Lemma insert_node_hollow fuel n key v h rel : hollow n -> n_height n <= h -> (insert_fuel (Some n) h <= fuel)%nat ->
  exists rel', insert_node fuel (Some n) key v h rel = (Ok (fresh h None [MkEntry key v None]), rel') /\ rel' ≡ₚ cids n ++ rel.
Proof.
  revert n rel. induction fuel as [|fuel IH]; intros n rel Hn Hle Hf.
  { cbn in Hf. destruct (n_height n <? h), (h <? n_height n); lia. }
  assert (Hl : n_loaded n = true) by (by destruct Hn). cbn [insert_node].
  rewrite (st_bind_run _ _ _ _ _ (require_loaded_run n rel Hl)). cbn [insert_fuel] in Hf.
  destruct (Z.ltb_spec (n_height n) h) as [Hlt|Hge].
  - destruct (IH (fresh (n_height n + 1) (Some n) []) rel) as (rel' & Hrun & Hp).
    + by constructor.
    + cbn. lia.
    + cbn [insert_fuel fresh n_height]. destruct (Z.ltb_spec (n_height n + 1) h); [lia|]. replace (h <? n_height n + 1) with false by lia. lia.
    + exists rel'. split; [done|]. cbn in Hp. by rewrite app_nil_r in Hp.
  - assert (h = n_height n) as -> by lia. rewrite Z.ltb_irrefl. unfold insert_at_level.
    inversion Hn as [c h' Heq|l c h' Hlh Heq]; subst n; cbn [n_height n_entries search].
    + exists (rel ++ option_list c). split; [done|]. cbn. rewrite app_nil_r. apply Permutation_app_comm.
    + destruct (split_node_hollow (S (span l)) l key rel Hlh ltac:(lia)) as (rel' & Hrun & Hp).
      exists (rel' ++ option_list c). split; [|cbn; rewrite app_nil_r; perm_lia].
      rewrite (st_bind_run _ _ rel (Some l) rel) by done. by rewrite (st_bind_run _ _ _ _ _ Hrun).
Qed.

(** ** [update_node] *)

Lemma set_val_spec n i e v : n_entries n !! i = Some e -> n_loaded n = true ->
  let n' := set_entries (<[i := set_val v e]> (n_entries n)) n in
  contents n' = (before n i ++ contents_of (child n i)) ++ (e_key e, v) :: contents_of (e_right e) ++ after n (S i) /\
  cids n' = cids n /\ n_loaded n' = true /\ is_empty_node n' = false /\ forall h, bare h n -> bare h n'.
Proof.
  intros He Hl. destruct n as [l es c ht ld]. cbn in He, Hl. subst ld. cbn [n_entries set_entries].
  pose proof (lookup_lt_Some _ _ _ He) as Hi. split_and!.
  - rewrite (contents_cut (MkNode _ _ _ _ _) i); [|done|cbn; rewrite length_insert; lia].
    unfold before, child, after. cbn [n_left n_entries]. rewrite (drop_S _ (set_val v e)) by (by apply list_lookup_insert_eq).
    rewrite drop_insert_lt by lia. rewrite entries_contents_cons.
    destruct i as [|j]; cbn [slot]; rewrite ?take_insert_ge, ?list_lookup_insert_ne by lia; by rewrite <- !app_assoc.
  - rewrite !cids_eq by done. cbn [n_cid n_left n_entries]. do 2 f_equal. rewrite insert_take_drop by done.
    rewrite <- (take_drop_middle es i e He) at 3. by rewrite !entries_cids_app.
  - done.
  - apply not_empty. cbn. intros Hn. apply (f_equal length) in Hn. rewrite length_insert in Hn. cbn in Hn. lia.
  - intros h Hs. apply bare_loaded in Hs as (Hh & Hnn & Hleft & Hes); [|done]. apply bare_loaded; [done|].
    split_and!; try done. cbn [n_entries] in *. apply Forall_insert; [done|].
    exact (proj1 (Forall_lookup _ _) Hes i e He).
Qed.

Lemma update_node_spec fuel n key v w rel : (span n < fuel)%nat -> path_ready key n ->
  ordered (contents n) -> get key (contents n) = Some w ->
  exists n' rel', update_node fuel n key v rel = (Ok n', rel') /\
    n_loaded n' = true /\ is_empty_node n' = false /\ contents n' = upsert key v (contents n) /\
    cids n' ++ rel' ≡ₚ cids n ++ rel /\ forall h, shape h n -> shape h n'.
Proof.
  revert n rel. induction fuel as [|fuel IH]; intros n rel Hf Hr Ho Hk; [lia|]. cbn [update_node].
  pose proof (path_ready_loaded _ _ Hr) as Hl.
  rewrite (st_bind_run _ _ _ _ _ (require_loaded_run n rel Hl)), (st_bind_run _ _ _ _ _ (eq_refl : touch n rel = _)).
  set (m := set_cid None n). assert (Hm : n_loaded m = true /\ n_entries m = n_entries n /\ child m = child n /\
    before m = before n /\ after m = after n /\ contents m = contents n) by (by destruct n as [? ? ? ? []]).
  destruct Hm as (Hlm & -> & -> & Hbm & Ham & Hcm).
  destruct (search (n_entries n) key) as [i [|]] eqn:Hs.
  - apply cut_present in Hs as (e & He & Hek & Hc & Hb & Ha); [|done..].
    unfold index, lift. rewrite He. unfold mbind at 1, st_bind at 1.
    destruct (set_val_spec m i e v) as (Hc' & Hcd & Hl' & Hne & Hsh); [by destruct n|done|].
    assert (Hem : n_entries m = n_entries n) by (by destruct n). rewrite Hem in *.
    eexists _, _. split; [done|]. split_and!; [done..| | |].
    + rewrite Hc', Hbm, Ham, Hek, Hc, upsert_mid by done. f_equal. f_equal. by destruct n.
    + rewrite Hcd, (cids_set_cid n). fold m. perm_lia.
    + intros h Hn. apply shape_to_bare in Hn; [|done].
      apply bare_shape; [by destruct n|]. by apply Hsh, bare_shape; [destruct n|].
  - destruct (absent_child n key i) as [Hoc Hkc]; [done..|].
    pose proof (path_ready_child _ _ _ Hr Hs) as Hrc. pose proof (child_span n i) as Hsp.
    destruct (cut_absent n key i Hl Ho Hs) as (Hi & _). rewrite Hk in Hkc.
    destruct (child n i) as [c|] eqn:Hc; [|done]. cbn [contents_of opt_map path_ready_of span_of] in *.
    destruct (IH c (rel ++ option_list (n_cid n))) as (c' & rel' & Hrun & Hlc & Hnec & Hcc & Hp & Hsh); [lia|done..|].
    rewrite (st_bind_run _ _ _ _ _ Hrun), put_child_run by (by destruct n).
    destruct (touched_child n key i (Some c')) as (Hl' & (a & b & Hb & Ha & Hcn & Hcn') & Hpn & Hshn);
      [done..|]. fold m in Hl', Hcn', Hpn, Hshn.
    eexists _, _. split; [done|]. split_and!; [done| | | |].
    + apply set_child_some_not_empty. by destruct n.
    + rewrite Hcn'. cbn [contents_of opt_map]. by rewrite Hcn, Hc, upsert_between, Hcc.
    + rewrite Hc in Hpn. cbn [cids_of opt_map] in Hpn. perm_lia.
    + intros h Hn. apply Hshn; [by apply shape_to_bare|]. pose proof (shape_child h n i Hl Hn) as Hsc. rewrite Hc in Hsc.
      destruct Hsc as [Hsc _]. split; [by apply Hsh|done].
Qed.
End Mutate.
