(* ===== verification/MstRemove.v ===== *)
(** Removing a key: what [merge_nodes], [remove_node] and [trim_top] of
    [MstTree] do, and the nodes they need loaded. *)
From S2P Require Import Prelude StateError SyntaxError CborError Cid MstHeight SortedMap MstNode MstTree MstShape MstMutate.

(** The chain of nodes without entries that [trim_top] drops is loaded, down to
    a node with entries, or to one of height zero. *)
Inductive top_ready : option Node -> Prop :=
| top_none : top_ready None
| top_leaf n : n_loaded n = false -> n_height n = 0 -> top_ready (Some n)
| top_entries n : n_loaded n = true -> n_entries n <> [] -> top_ready (Some n)
| top_chain n : n_loaded n = true -> n_entries n = [] -> top_ready (n_left n) -> top_ready (Some n).

Definition no_entries (n : Node) : bool := match n_entries n with [] => true | _ => false end.

(** What merging two neighbouring subtrees reads is loaded; with [chain], also
    what [trim_top] reads if they end up as the root. *)
Inductive merge_ready : bool -> option Node -> option Node -> Prop :=
| merge_none chain : merge_ready chain None None
| merge_left chain l : (chain = true -> top_ready (Some l)) -> merge_ready chain (Some l) None
| merge_right chain r : (chain = true -> top_ready (Some r)) -> merge_ready chain None (Some r)
| merge_both chain l r : n_loaded l = true -> n_loaded r = true ->
    merge_ready (chain && no_entries l && no_entries r) (child l (length (n_entries l))) (child r 0) ->
    merge_ready chain (Some l) (Some r).

(** What removing a key reads is loaded. [top] is set while no node above has
    entries. *)
Inductive remove_ready (key : bytes) : bool -> Node -> Prop :=
| remove_found top n i e : n_loaded n = true -> search (n_entries n) key = (i, true) -> n_entries n !! i = Some e ->
    merge_ready (top && (length (n_entries n) =? 1)%nat) (child n i) (e_right e) -> remove_ready key top n
| remove_end top n i : n_loaded n = true -> search (n_entries n) key = (i, false) -> child n i = None -> remove_ready key top n
| remove_down top n i c : n_loaded n = true -> search (n_entries n) key = (i, false) -> child n i = Some c ->
    remove_ready key (top && no_entries n) c -> remove_ready key top n.

Section Remove.
Context `{Sha2, Stubs}.

Lemma append_entries_spec n es : n_loaded n = true -> let n' := set_entries (n_entries n ++ es) n in
  contents n' = contents n ++ entries_contents es /\ cids n' = cids n ++ entries_cids es /\ n_loaded n' = true /\
  (forall h, bare h n -> Forall (entry_shape h) es -> bare h n').
Proof.
  destruct n as [l es' c ht ld]. cbn [n_loaded n_entries set_entries]. intros ->. split_and!.
  - rewrite !contents_loaded by done. cbn [n_left n_entries]. by rewrite entries_contents_app, app_assoc.
  - rewrite !cids_eq by done. cbn [n_cid n_left n_entries]. by rewrite entries_cids_app, <- !app_assoc.
  - done.
  - intros h Hs Hes. apply bare_loaded in Hs as (? & ? & ? & ?); [|done]. apply bare_loaded; [done|].
    split_and!; try done. by apply Forall_app.
Qed.

Lemma is_empty_loaded n : n_loaded n = true -> is_empty_node n = false <-> n_entries n <> [] \/ n_left n <> None.
Proof. destruct n as [[] [] ? ? []]; cbn; naive_solver. Qed.

(** ** [merge_nodes] *)

Definition merge_post (chain : bool) (l r : option Node) (rel : list Cid) (m : option Node) (rel' : list Cid) : Prop :=
  contents_of m = contents_of l ++ contents_of r /\
  cids_of m ++ rel' ≡ₚ cids_of l ++ cids_of r ++ rel /\
  (forall h, shape_of h l -> shape_of h r -> shape_of h m) /\
  (m = None -> l = None /\ r = None) /\ (chain = true -> top_ready m).

Lemma merge_nodes_spec fuel chain l r rel : (span_of l < fuel)%nat -> merge_ready chain l r ->
  exists m rel', merge_nodes fuel l r rel = (Ok m, rel') /\ merge_post chain l r rel m rel'.
Proof.
  revert chain l r rel. induction fuel as [|fuel IH]; intros chain l r rel Hf Hr; [lia|].
  destruct Hr as [chain|chain l Ht|chain r Ht|chain l r Hl Hr Hm].
  - exists None, rel. split; [done|]. split_and!; try done. intros. apply top_none.
  - exists (Some l), rel. split; [done|]. split_and!; try done. cbn. by rewrite app_nil_r.
  - exists (Some r), rel. by split.
  - cbn [merge_nodes span_of] in *.
    rewrite (st_bind_run _ _ _ _ _ (require_loaded_run l rel Hl)), (st_bind_run _ _ _ _ _ (require_loaded_run r rel Hr)).
    set (i := length (n_entries l)) in *. assert (Hi : (i <= length (n_entries l))%nat) by done.
    rewrite (st_bind_run _ _ _ _ _ (take_child_run l i rel Hi)).
    pose proof (child_span l i) as Hsp.
    destruct (IH _ (child l i) (child r 0) rel ltac:(lia) Hm) as (m & rel1 & Hrun & Hc & Hp & Hsh & Hnone & Htop).
    change (child r 0) with (n_left r) in *. rewrite (st_bind_run _ _ _ _ _ Hrun), (st_bind_run _ _ _ _ _ (put_child_run l i m rel1 Hi)).
    set (l1 := set_child l i m). destruct (set_child_fields l i m) as (_ & _ & Hl1 & Hlen1). fold l1 in Hl1, Hlen1.
    rewrite Hl in Hl1. destruct (append_entries_spec l1 (n_entries r) Hl1) as (Hc2 & Hcd2 & Hl2 & Hsh2).
    assert (Hcase : n_entries l = [] \/ n_entries l <> []) by (destruct (n_entries l); auto).
    assert (Hes : n_entries (set_entries (n_entries l1 ++ n_entries r) l1) = n_entries l1 ++ n_entries r) by (by destruct l1).
    assert (Hleft : n_entries l = [] -> n_left (set_entries (n_entries l1 ++ n_entries r) l1) = m).
    { intros He. assert (i = 0%nat) as -> by (unfold i; by rewrite He). unfold l1. by destruct l. }
    assert (Hne1 : n_entries l <> [] -> n_entries l1 ++ n_entries r <> []).
    { intros He Hn. apply app_nil in Hn as [Hn _]. rewrite Hn in Hlen1. symmetry in Hlen1. by apply nil_length_inv in Hlen1. }
    set (l2 := set_entries (n_entries l1 ++ n_entries r) l1) in *.
    eexists _, _. split; [done|]. split_and!.
    + cbn [contents_of opt_map]. rewrite contents_set_cid, Hc2 by done. unfold l1. rewrite contents_set_child, Hc by done.
      rewrite (contents_cut l i), (contents_loaded r) by done. unfold after. rewrite drop_ge by done.
      cbn. by rewrite !app_nil_r, <- !app_assoc.
    + cbn [cids_of opt_map]. pose proof (cids_set_child l i m Hl Hi) as Hp1. fold l1 in Hp1. rewrite (cids_eq r Hr).
      assert (Hp2 : option_list (n_cid l2) ++ cids (set_cid None l2) ≡ₚ cids l1 ++ entries_cids (n_entries r))
        by (by rewrite <- cids_set_cid, Hcd2).
      clear Hcd2. perm_lia.
    + intros h [Hsl Hnl] [Hsr Hnr]. split.
      * apply shape_to_bare in Hsl, Hsr; [|done..]. apply Hsh2.
        -- apply bare_set_child; [done..|]. apply Hsh; [by apply bare_child|]. by apply (bare_child h r 0).
        -- by apply bare_loaded in Hsr as (_ & _ & _ & ?).
      * apply is_empty_loaded in Hnl; [|done]. apply is_empty_loaded; [by destruct l2|].
        destruct Hcase as [He|He].
        -- right. rewrite <- (Hleft He) in Hnone. replace (n_left (set_cid None l2)) with (n_left l2) by (by destruct l2).
           intros Hn. destruct Hnl as [|Hnl]; [done|]. destruct (Hnone Hn) as [Hn' _]. apply Hnl.
           assert (i = 0%nat) as Hi0 by (unfold i; by rewrite He). by rewrite Hi0 in Hn'.
        -- left. replace (n_entries (set_cid None l2)) with (n_entries l2) by (by destruct l2). rewrite Hes. by apply Hne1.
    + done.
    + intros ->. assert (Hl3 : n_loaded (set_cid None l2) = true) by (by destruct l2).
      assert (He3 : n_entries (set_cid None l2) = n_entries l1 ++ n_entries r) by (by rewrite <- Hes; destruct l2).
      destruct Hcase as [He|He].
      * destruct (n_entries r) as [|e es] eqn:He'.
        -- apply top_chain; [done| |].
           ++ rewrite He3. rewrite He in Hlen1. by rewrite (nil_length_inv _ Hlen1).
           ++ replace (n_left (set_cid None l2)) with (n_left l2) by (by destruct l2). rewrite (Hleft He).
              apply Htop. unfold no_entries. by rewrite He, He'.
        -- apply top_entries; [done|]. rewrite He3. by destruct (n_entries l1).
      * apply top_entries; [done|]. rewrite He3. by apply Hne1.
Qed.

(** ** [remove_node] *)

Lemma prune_empty_spec n rel : n_loaded n = true -> exists o rel', prune_empty n rel = (Ok o, rel') /\
  contents_of o = contents n /\ cids_of o ++ rel' ≡ₚ cids n ++ rel /\
  (forall h, shape h n -> shape_of h o) /\ (top_ready (Some n) -> top_ready o).
Proof.
  intros Hl. unfold prune_empty. destruct (is_empty_node n) eqn:He.
  - eexists None, _. split; [done|]. destruct n as [[l|] [|e es] c h []]; try done. split_and!; try done.
    + cbn. perm_lia.
    + intros. apply top_none.
  - exists (Some n), rel. split; [done|]. by split_and!.
Qed.

Lemma remove_entry_spec n i e : n_loaded n = true -> n_entries n !! i = Some e ->
  let n' := set_entries (remove_entry i (n_entries n)) n in
  (i <= length (n_entries n'))%nat /\ child n' i = child n i /\ before n' i = before n i /\
  after n' i = after n (S i) /\ n_loaded n' = true /\ (S (length (n_entries n')) = length (n_entries n))%nat /\
  cids n' ++ cids_of (e_right e) ≡ₚ cids n /\ forall h, bare h n -> bare h n'.
Proof.
  intros Hl He. destruct n as [l es c ht ld]. cbn in Hl. subst ld. cbn [n_entries set_entries] in *. unfold remove_entry.
  pose proof (lookup_lt_Some _ _ _ He) as Hi. assert (Hti : length (take i es) = i) by (rewrite length_take; lia). split_and!.
  - rewrite length_app, Hti. lia.
  - unfold child. cbn [n_left n_entries]. destruct i as [|j]; [done|]. cbn [slot].
    by rewrite lookup_app_l, lookup_take_lt by lia.
  - unfold before. cbn [n_left n_entries]. destruct i as [|j]; [done|].
    rewrite take_app_le, take_take, lookup_app_l, lookup_take_lt by lia. by replace (j `min` S j)%nat with j by lia.
  - unfold after. cbn [n_entries]. by rewrite drop_app_length'.
  - done.
  - rewrite length_app, Hti, length_drop. lia.
  - rewrite !cids_eq by done. cbn [n_cid n_left n_entries]. rewrite (entries_cids_cut i es), !entries_cids_app, (drop_S es e i) by done.
    change (entries_cids (e :: drop (S i) es)) with (cids_of (e_right e) ++ entries_cids (drop (S i) es)). perm_lia.
  - intros h Hs. apply bare_loaded in Hs as (Hh & Hnn & Hleft & Hes); [|done]. apply bare_loaded; [done|].
    split_and!; try done. cbn [n_entries]. apply Forall_app. split; [by apply Forall_take|by apply Forall_drop].
Qed.

Definition remove_post (top : bool) (key : bytes) (n : Node) (rel : list Cid)
    (res : option Node * option Cid) (rel' : list Cid) : Prop :=
  res.2 = get key (contents n) /\ contents_of res.1 = without key (contents n) /\
  cids_of res.1 ++ rel' ≡ₚ cids n ++ rel /\
  (forall h, shape_of h (Some n) -> shape_of h res.1) /\ (top = true -> top_ready res.1).

(** The end of both branches of [remove_node]: prune what is left, [n']. *)
Lemma remove_end_spec top key n n' removed rel rel' : n_loaded n' = true ->
  removed = get key (contents n) -> contents n' = without key (contents n) ->
  cids n' ++ rel' ≡ₚ cids n ++ rel -> (forall h, shape_of h (Some n) -> shape h n') ->
  (top = true -> top_ready (Some n')) ->
  exists res rel'', (o ← prune_empty n'; mret (o, removed)) rel' = (Ok res, rel'') /\ remove_post top key n rel res rel''.
Proof.
  intros Hl Hr Hc Hp Hsh Ht. destruct (prune_empty_spec n' rel' Hl) as (o & rel'' & Hrun & Hco & Hpo & Hso & Hto).
  rewrite (st_bind_run _ _ _ _ _ Hrun). eexists _, _. split; [done|]. split_and!; cbn [fst snd].
  - done.
  - congruence.
  - perm_lia.
  - auto.
  - auto.
Qed.

Lemma remove_found_spec top key n i e rel fuel : n_loaded n = true -> ordered (contents n) ->
  search (n_entries n) key = (i, true) -> n_entries n !! i = Some e ->
  merge_ready (top && (length (n_entries n) =? 1)%nat) (child n i) (e_right e) ->
  exists res rel', remove_node (S fuel) n key rel = (Ok res, rel') /\ remove_post top key n rel res rel'.
Proof.
  intros Hl Ho Hs He Hm. cbn [remove_node]. rewrite (st_bind_run _ _ _ _ _ (require_loaded_run n rel Hl)), Hs.
  apply cut_present in Hs as (e' & He' & Hek & Hc & Hb & Ha); [|done..]. rewrite He in He'. injection He' as <-.
  rewrite (st_bind_run (lift (index (n_entries n) i)) _ rel e rel) by (unfold lift, index; by rewrite He).
  assert (Hi : (i <= length (n_entries n))%nat) by (apply lookup_lt_Some in He; lia).
  rewrite (st_bind_run _ _ _ _ _ (take_child_run n i rel Hi)).
  destruct (merge_nodes_spec (S (span_of (child n i))) _ (child n i) (e_right e) rel ltac:(lia) Hm) as (m & rel1 & Hrun & Hcm & Hpm & Hshm & _ & Htop).
  rewrite (st_bind_run _ _ _ _ _ Hrun).
  destruct (remove_entry_spec n i e Hl He) as (Hi1 & Hch1 & Hb1 & Ha1 & Hl1 & Hlen1 & Hp1 & Hsh1).
  set (n1 := set_entries (remove_entry i (n_entries n)) n) in *.
  rewrite (st_bind_run _ _ _ _ _ (put_child_run n1 i m rel1 Hi1)).
  set (n2 := set_child n1 i m). destruct (set_child_fields n1 i m) as (_ & _ & Hl2 & Hlen2). fold n2 in Hl2, Hlen2.
  rewrite (st_bind_run _ _ _ _ _ (eq_refl : touch n2 rel1 = _)).
  assert (Hcc : contents n2 = without key (contents n)).
  { unfold n2. rewrite contents_set_child, Hb1, Ha1, Hcm, Hc, without_mid by done. by rewrite <- !app_assoc. }
  apply remove_end_spec.
  - destruct n2; cbn in *. congruence.
  - by rewrite Hc, get_mid by done.
  - rewrite contents_set_cid by congruence. done.
  - pose proof (cids_set_child n1 i m Hl1 Hi1) as Hp2. fold n2 in Hp2. rewrite Hch1, (cids_set_cid n2) in Hp2. perm_lia.
  - intros h [Hn _]. apply shape_to_bare in Hn; [|done]. apply set_cid_bare, bare_set_child; [done|by apply Hsh1|].
    apply Hshm; [by apply bare_child|]. apply bare_loaded in Hn as (_ & _ & _ & Hes); [|done].
    by apply (proj1 (Forall_lookup _ _) Hes) in He as [_ ?].
  - intros ->. cbn [andb] in *. destruct (n_entries n2) as [|e2 es2] eqn:He2.
    + apply top_chain; [destruct n2; cbn in *; congruence|by destruct n2|].
      cbn in Hlen2. rewrite <- Hlen2 in Hlen1. assert (i = 0%nat) as ->.
      { apply lookup_lt_Some in He. lia. }
      replace (n_left (set_cid None n2)) with m by (unfold n2, n1; by destruct n). apply Htop. by rewrite <- Hlen1.
    + apply top_entries; [destruct n2; cbn in *; congruence|]. destruct n2. cbn in *. by rewrite He2.
Qed.

(** The way back up: the subtree is replaced, in a node that is touched if
    the key was found. *)
Lemma remove_descend_spec top key n i c o removed rel rel1 : n_loaded n = true -> ordered (contents n) ->
  search (n_entries n) key = (i, false) -> child n i = Some c ->
  remove_post (top && no_entries n) key c rel (o, removed) rel1 ->
  exists res rel', (n ← (if bool_decide (removed = None) then mret n else touch n); n ← put_child n i o;
      o ← prune_empty n; mret (o, removed)) rel1 = (Ok res, rel') /\ remove_post top key n rel res rel'.
Proof.
  intros Hn Ho Hs Hc (Hrem & Hco & Hpo & Hsho & Htop). cbn [fst snd] in *. pose proof Hn as Hl.
  destruct (absent_child n key i Hn Ho Hs) as [_ Hkc]. destruct (cut_absent n key i Hl Ho Hs) as (Hi & Hb & Ha).
  set (n1 := if bool_decide (removed = None) then n else set_cid None n).
  set (rel2 := if bool_decide (removed = None) then rel1 else rel1 ++ option_list (n_cid n)).
  assert (Hrun : (if bool_decide (removed = None) then mret n else touch n) rel1 = (Ok n1, rel2))
    by (unfold n1, rel2; by destruct (bool_decide _)).
  assert (Hn1 : n_loaded n1 = true /\ n_entries n1 = n_entries n /\ before n1 = before n /\ after n1 = after n /\
    child n1 i = Some c /\ cids n1 ++ rel2 ≡ₚ cids n ++ rel1 /\ (forall h, bare h n -> bare h n1) /\
    (n_cid n1 = None \/ n1 = n /\ removed = None)).
  { unfold n1, rel2. case_bool_decide; [by split_and!; try right|]. split_and!; [by destruct n..| | |].
    - rewrite (cids_set_cid n). perm_lia.
    - intros h Hb'. by apply bare_shape; [destruct n|].
    - left. by destruct n. }
  clearbody n1 rel2. destruct Hn1 as (Hl1 & He1 & Hb1 & Ha1 & Hc1 & Hp1 & Hs1 & Hcid1).
  assert (Hi1 : (i <= length (n_entries n1))%nat) by (by rewrite He1).
  rewrite (st_bind_run _ _ _ _ _ Hrun), (st_bind_run _ _ _ _ _ (put_child_run n1 i o rel2 Hi1)).
  destruct (set_child_fields n1 i o) as (Hcid2 & _ & Hl2 & Hlen2). rewrite Hl1 in Hl2.
  assert (Hcon : contents (set_child n1 i o) = without key (contents n)).
  { rewrite contents_set_child, Hb1, Ha1, (contents_cut n i), without_between, Hco, Hc by done. done. }
  pose proof (cids_set_child n1 i o Hl1 Hi1) as Hp2. rewrite Hc1 in Hp2. cbn [cids_of opt_map] in Hp2.
  apply remove_end_spec; [done| | |perm_lia| |].
  - by rewrite Hkc, Hc.
  - done.
  - intros h [Hsn _]. pose proof (shape_child h n i Hl Hsn) as Hsc. rewrite Hc in Hsc.
    apply shape_bare in Hsn as [Hsn Hok]; [|done]. apply shape_bare; [done|].
    split; [by apply bare_set_child; [|apply Hs1|apply Hsho]|].
    intros cd Hcd. rewrite Hcid2 in Hcd. destruct Hcid1 as [Hnone|[-> ->]]; [congruence|].
    rewrite Hcon, without_absent by (done || (rewrite Hkc, Hc; done)). by apply Hok.
  - intros ->. destruct (n_entries n) as [|e es] eqn:He.
    + apply top_chain; [done|by apply nil_length_inv; rewrite Hlen2, He1|]. cbn in Hs. injection Hs as <-.
      replace (n_left (set_child n1 0 o)) with o by (by destruct n1). apply Htop. unfold no_entries. by rewrite He.
    + apply top_entries; [done|]. intros Hnil. rewrite Hnil, He1 in Hlen2. done.
Qed.

Lemma remove_node_spec fuel top n key rel : (span n < fuel)%nat -> remove_ready key top n -> ordered (contents n) ->
  exists res rel', remove_node fuel n key rel = (Ok res, rel') /\ remove_post top key n rel res rel'.
Proof.
  revert top n rel. induction fuel as [|fuel IH]; intros top n rel Hf Hr Ho; [lia|].
  destruct Hr as [top n i e Hn Hs He Hm|top n i Hn Hs Hc|top n i c Hn Hs Hc Hr]; [by eapply remove_found_spec|..];
    destruct (absent_child n key i Hn Ho Hs) as [Hoc Hkc]; destruct (cut_absent n key i Hn Ho Hs) as (Hi & Hb & Ha);
    cbn [remove_node]; rewrite (st_bind_run _ _ _ _ _ (require_loaded_run n rel Hn)), Hs;
    rewrite (st_bind_run _ _ _ _ _ (take_child_run n i rel Hi)), Hc; rewrite Hc in Hoc, Hkc.
  - eexists _, _. split; [done|]. split_and!; cbn [fst snd]; try done.
    + cbn. rewrite (contents_cut n i), Hc in * by apply Hn || done. cbn. by rewrite without_cut.
    + intros ->. destruct (n_entries n) as [|e es] eqn:He; [|apply top_entries; [done|by rewrite He]].
      cbn in Hs. injection Hs as <-. apply top_chain; [done|done|]. unfold child in Hc. cbn in Hc. rewrite Hc. apply top_none.
  - pose proof (child_span n i) as Hsp. rewrite Hc in Hsp. cbn [span_of] in Hsp.
    destruct (IH (top && no_entries n) c rel ltac:(lia) Hr Hoc) as ([o removed] & rel1 & Hrun & Hrem & Hco & Hpo & Hsho & Htop).
    rewrite (st_bind_run _ _ _ _ _ Hrun). by eapply remove_descend_spec.
Qed.

(** ** [trim_top] *)

(** A root: a node with entries, or a node of height zero that is not
    loaded; one that is neither would be dropped. *)
Definition rooted (n : Node) : Prop :=
  if n_loaded n then n_entries n <> [] else n_height n = 0.

Lemma trim_top_spec fuel n rel : (span_of n < fuel)%nat -> top_ready n ->
  exists m rel', trim_top fuel n rel = (Ok m, rel') /\
    contents_of m = contents_of n /\ cids_of m ++ rel' ≡ₚ cids_of n ++ rel /\
    (forall h, shape_of h n -> exists h', h' <= h /\ shape_of h' m) /\
    (forall r, m = Some r -> rooted r).
Proof.
  revert n rel. induction fuel as [|fuel IH]; intros n rel Hf Hr; [lia|]. cbn [trim_top].
  destruct Hr as [|n Hl Hh|n Hl He|n Hl He Hr].
  - exists None, rel. split_and!; try done. intros h _. by exists h.
  - rewrite Hl. replace (n_height n =? 0) with true by lia. exists (Some n), rel. split_and!; try done.
    + intros h Hs. by exists h.
    + intros r [= <-]. unfold rooted. by rewrite Hl.
  - rewrite Hl. cbn [negb andb]. rewrite (st_bind_run _ _ _ _ _ (require_loaded_run n rel Hl)).
    destruct (n_entries n) as [|e es] eqn:Hes; [done|]. exists (Some n), rel. split_and!; try done.
    + intros h Hs. by exists h.
    + intros r [= <-]. unfold rooted. by rewrite Hl, Hes.
  - rewrite Hl. cbn [negb andb]. rewrite (st_bind_run _ _ _ _ _ (require_loaded_run n rel Hl)), He.
    rewrite (st_bind_run _ _ _ _ _ (eq_refl : discard n rel = _)).
    pose proof (child_span n 0) as Hsp. cbn [span_of] in Hf. unfold child in Hsp. cbn [slot] in Hsp.
    destruct (IH (n_left n) (rel ++ option_list (n_cid n)) ltac:(lia) Hr) as (m & rel' & Hrun & Hc & Hp & Hsh & Hroot).
    exists m, rel'. split_and!; [done| | | |done].
    + rewrite Hc. cbn [contents_of opt_map]. rewrite contents_loaded, He by done. cbn. by rewrite app_nil_r.
    + cbn [cids_of opt_map]. rewrite (cids_eq n Hl), He. change (entries_cids []) with (@nil Cid). perm_lia.
    + intros h [Hs _]. apply shape_to_bare, bare_loaded in Hs as (_ & _ & Hleft & _); [|done..].
      destruct (Hsh _ Hleft) as (h' & Hle & Hs'). exists h'. split; [lia|done].
Qed.

(** ** [remove_from_root] *)

Lemma remove_from_root_spec root key rel : remove_ready key true root -> ordered (contents root) ->
  exists m rel', remove_from_root root key rel = (Ok (m, get key (contents root)), rel') /\
    contents_of m = without key (contents root) /\
    cids_of m ++ rel' ≡ₚ cids root ++ rel /\
    (forall h, shape_of h (Some root) -> exists h', h' <= h /\ shape_of h' m) /\
    (forall r, m = Some r -> rooted r).
Proof.
  intros Hr Ho. destruct (remove_node_spec (S (span root)) true root key rel ltac:(lia) Hr Ho) as
    ([o removed] & rel1 & Hrun & Hrem & Hc & Hp & Hsh & Htop). cbn [fst snd] in *.
  destruct (trim_top_spec (S (span_of o)) o rel1 ltac:(lia) (Htop eq_refl)) as (m & rel2 & Hrun2 & Hc2 & Hp2 & Hsh2 & Hroot).
  exists m, rel2. split_and!; [| |perm_lia|by auto|done].
  - unfold remove_from_root. rewrite (st_bind_run _ _ _ _ _ Hrun), (st_bind_run _ _ _ _ _ Hrun2). by rewrite Hrem.
  - by rewrite Hc2, Hc.
Qed.
End Remove.
