(* ===== verification/MstFlush.v ===== *)
(** Writing the changed nodes of a tree: [shared_prefix_len], [encode_node],
    [empty_node_block] and [write_node] of [src/src/mst/tree.rs]. *)
From S2P Require Import Prelude StateError SyntaxError CborError Cid MstHeight SortedMap MstNode MstTree MstShape MstMutate.

(** [diff.trailing_zeros()] of a [u64]. *)
Fixpoint pos_trailing_zeros (p : positive) : Z :=
  match p with xO p => 1 + pos_trailing_zeros p | _ => 0 end.
Definition trailing_zeros (d : Z) : Z := match d with Zpos p => pos_trailing_zeros p | _ => 64 end.

(** The loop over the words the keys share. [inl] is the early return. *)
Fixpoint shared_words (xs ys : list bytes) (len : nat) : nat + nat :=
  match xs, ys with
  | x :: xs', y :: ys' =>
      let diff := Z.lxor (le_value x) (le_value y) in
      if diff =? 0 then shared_words xs' ys' (len + 8)
      else inl (len + Z.to_nat (trailing_zeros diff / 8))%nat
  | _, _ => inr len
  end.

(** [rest.take_while(|(x, y)| x == y).count()] *)
Fixpoint equal_run (a b : bytes) : nat :=
  match a, b with
  | x :: a', y :: b' => if x =? y then S (equal_run a' b') else 0%nat
  | _, _ => 0%nat
  end.

Definition shared_prefix_len (a b : bytes) : nat :=
  match shared_words (as_chunks 8 a).1 (as_chunks 8 b).1 0 with
  | inl len => len
  | inr len => (len + equal_run (drop len a) (drop len b))%nat
  end.

Definition node_cid (o : option Node) (e : MstError) : res MstError (option Cid) :=
  match o with
  | Some n => c ← ok_or e (n_cid n); Ok (Some c)
  | None => Ok None
  end.

(** The entries of a block. *)
Fixpoint encode_entries (es : list Entry) (prev_key buf : bytes) : res MstError bytes :=
  match es with
  | [] => Ok buf
  | e :: es' =>
      right ← node_cid (e_right e) (internal "right node CID not computed; call write_node first");
      let prefix_len := shared_prefix_len prev_key (e_key e) in
      suffix ← slice_from (e_key e) prefix_len;
      encode_entries es' (e_key e) (put_entry buf prefix_len suffix (e_val e) right)
  end.

Definition encode_node (n : Node) (buf : bytes) : res MstError bytes :=
  left ← node_cid (n_left n) (internal "left node CID not computed; call write_node first");
  buf ← encode_entries (n_entries n) [] (start_node buf (length (n_entries n)));
  Ok (finish_node buf left).

(** Each block is encoded in an empty buffer. *)
Abbreviation writer := (st (list (Cid * bytes)) MstError).

Section Write.
Context `{Sha2}.

Definition empty_node_block : res MstError (Cid * bytes) :=
  data ← encode_node_data (MkNodeData None []);
  Ok (compute Drisl data, data).

(** The loop over the entries' subtrees; [write] is [write_node]. *)
Definition write_right (write : Node -> writer (Cid * Node)) (e : Entry) : writer Entry :=
  match e with
  | MkEntry k v (Some r) => '(_, r) ← write r; mret (MkEntry k v (Some r))
  | MkEntry k v None => mret (MkEntry k v None)
  end.

Definition write_rights (write : Node -> writer (Cid * Node)) : list Entry -> writer (list Entry) :=
  fix go es :=
    match es with
    | [] => mret []
    | e :: es' => e ← write_right write e; es' ← go es'; mret (e :: es')
    end.

Definition write_left (write : Node -> writer (Cid * Node)) (l : option Node) : writer (option Node) :=
  match l with Some l => '(_, l) ← write l; mret (Some l) | None => mret None end.

(** The node as [write_node] leaves it, with its CID. *)
Fixpoint write_node (n : Node) : writer (Cid * Node) :=
  match n with
  | MkNode l es (Some cid) h loaded => mret (cid, n)
  | MkNode l es None h false => fail (internal "MST mutation reached a node that was not loaded first")
  | MkNode l es None h true =>
      l ← write_left write_node l;
      es ← write_rights write_node es;
      data ← lift (encode_node (MkNode l es None h true) []);
      let cid := compute Drisl data in
      _ ← modify (fun out => out ++ [(cid, data)]);
      mret (cid, MkNode l es (Some cid) h true)
  end.
End Write.

(** ** [shared_prefix_len] is the length of the common prefix *)

Lemma pos_trailing_zeros_spec p : 0 <= pos_trailing_zeros p /\ (2 ^ pos_trailing_zeros p | Zpos p).
Proof.
  induction p as [p IH|p [Hn IH]|]; cbn [pos_trailing_zeros]; [split; [lia|apply Z.divide_1_l]| |split; [lia|apply Z.divide_1_l]].
  split; [lia|]. rewrite Z.pow_add_r, (Pos2Z.inj_xO p) by lia. change (2 ^ 1) with 2. by apply Z.mul_divide_mono_l.
Qed.

Lemma trailing_zeros_low d D : 0 < d < 256 -> 0 <= D -> 0 <= trailing_zeros (d + 256 * D) < 8.
Proof.
  intros Hd HD. destruct (d + 256 * D) as [|p|p] eqn:He; [lia| |lia]. cbn [trailing_zeros].
  destruct (pos_trailing_zeros_spec p) as [Hn Hdiv]. split; [done|].
  destruct (Z.lt_ge_cases (pos_trailing_zeros p) 8) as [|Hge]; [done|exfalso].
  assert (H8 : (2 ^ 8 | Zpos p)).
  { eapply Z.divide_trans; [|exact Hdiv]. exists (2 ^ (pos_trailing_zeros p - 8)). rewrite <- Z.pow_add_r by lia. f_equal. lia. }
  destruct H8 as [k Hk]. change (2 ^ 8) with 256 in Hk. lia.
Qed.

Lemma trailing_zeros_high D : 0 < D -> trailing_zeros (256 * D) = 8 + trailing_zeros D.
Proof.
  intros HD. destruct D as [|p|p]; [lia| |lia].
  change (256 * Zpos p) with (Zpos p~0~0~0~0~0~0~0~0). cbn [trailing_zeros pos_trailing_zeros]. lia.
Qed.

Lemma lxor_range a b : 0 <= a < 256 -> 0 <= b < 256 -> 0 <= Z.lxor a b < 256.
Proof.
  intros Ha Hb. assert (H0 : 0 <= Z.lxor a b) by (apply Z.lxor_nonneg; lia). split; [done|].
  destruct (Z.eq_dec (Z.lxor a b) 0) as [->|]; [lia|]. change 256 with (2 ^ 8). apply Z.log2_lt_pow2; [lia|].
  pose proof (Z.log2_lxor a b ltac:(lia) ltac:(lia)).
  pose proof (Z.log2_le_mono a 255 ltac:(lia)). pose proof (Z.log2_le_mono b 255 ltac:(lia)). change (Z.log2 255) with 7 in *. lia.
Qed.

Lemma lxor_bytes a b X Y : 0 <= a < 256 -> 0 <= b < 256 ->
  Z.lxor (a + 256 * X) (b + 256 * Y) = Z.lxor a b + 256 * Z.lxor X Y.
Proof.
  intros Ha Hb.
  assert (Hj : forall x Z', 0 <= x < 256 -> x + 256 * Z' = Z.lor (Z.shiftl Z' 8) x).
  { intros x Z' Hx. rewrite Z.shiftl_mul_pow2 by lia. rewrite lor_disjoint by lia. change (2 ^ 8) with 256. lia. }
  pose proof (lxor_range a b Ha Hb) as Hab.
  rewrite !Hj by lia. apply Z.bits_inj'. intros n Hn.
  rewrite Z.lxor_spec, !Z.lor_spec, !Z.shiftl_spec, !Z.lxor_spec by lia.
  assert (Hhi : forall x, 0 <= x < 256 -> 8 <= n -> Z.testbit x n = false).
  { intros x Hx Hn8. apply Z.bits_above_log2; [lia|]. destruct (Z.eq_dec x 0) as [->|]; [cbn; lia|].
    pose proof (Z.log2_lt_pow2 x 8 ltac:(lia)) as Hlt. change (2 ^ 8) with 256 in Hlt. lia. }
  destruct (Z.lt_ge_cases n 8) as [Hlt|Hge].
  - rewrite !(Z.testbit_neg_r _ (n - 8)) by lia. done.
  - rewrite !Hhi by lia. by rewrite !orb_false_r.
Qed.

Lemma le_value_nonneg x : Forall is_u8 x -> 0 <= le_value x.
Proof. induction 1 as [|a x Ha _ IH]; [done|]. unfold is_u8 in Ha. cbn. lia. Qed.

Lemma common_prefix_len_app p a b : common_prefix_len (p ++ a) (p ++ b) = (length p + common_prefix_len a b)%nat.
Proof. induction p as [|x p IH]; [done|]. cbn. by rewrite Z.eqb_refl, IH. Qed.

Lemma common_prefix_len_ne x y a b : length x = length y -> x <> y ->
  common_prefix_len (x ++ a) (y ++ b) = common_prefix_len x y.
Proof.
  revert y. induction x as [|c x IH]; intros [|d y] Hl Hne; try done. cbn.
  destruct (Z.eqb_spec c d) as [->|]; [|done]. rewrite IH; [done|cbn in Hl; lia|congruence].
Qed.

(** Two different words. *)
Lemma shared_word x y : length x = length y -> Forall is_u8 x -> Forall is_u8 y ->
  Z.lxor (le_value x) (le_value y) <> 0 ->
  Z.to_nat (trailing_zeros (Z.lxor (le_value x) (le_value y)) / 8) = common_prefix_len x y.
Proof.
  intros Hl Hx. revert y Hl. induction Hx as [|a x Ha Hx IH]; intros [|b y] Hl Hy Hne; try done.
  inversion_clear Hy as [|? ? Hb Hy']. cbn [le_value common_prefix_len] in *. unfold is_u8 in *.
  rewrite lxor_bytes in * by done. pose proof (le_value_nonneg x Hx). pose proof (le_value_nonneg y Hy').
  assert (0 <= Z.lxor (le_value x) (le_value y)) by (apply Z.lxor_nonneg; lia).
  pose proof (lxor_range a b Ha Hb) as Hab.
  destruct (Z.eqb_spec a b) as [->|Hab'].
  - rewrite Z.lxor_nilpotent in *. rewrite Z.add_0_l in *. rewrite trailing_zeros_high by lia.
    rewrite <- (IH y) by (done || cbn in Hl; lia). set (d := Z.lxor (le_value x) (le_value y)) in *.
    assert (0 <= trailing_zeros d) by (destruct d; cbn; try lia; apply pos_trailing_zeros_spec).
    replace (8 + trailing_zeros d) with (1 * 8 + trailing_zeros d) by lia. rewrite Z.div_add_l by lia.
    assert (0 <= trailing_zeros d / 8) by (apply Z.div_pos; lia). lia.
  - assert (Z.lxor a b <> 0) by (intros Hz%Z.lxor_eq; done).
    pose proof (trailing_zeros_low (Z.lxor a b) (Z.lxor (le_value x) (le_value y)) ltac:(lia) ltac:(lia)).
    rewrite Z.div_small by lia. done.
Qed.

Lemma shared_words_spec xs ys len ra rb :
  Forall (fun x => length x = 8%nat /\ Forall is_u8 x) xs -> Forall (fun y => length y = 8%nat /\ Forall is_u8 y) ys ->
  match shared_words xs ys len with
  | inl n => n = (len + common_prefix_len (concat xs ++ ra) (concat ys ++ rb))%nat
  | inr n => exists k p, n = (len + k)%nat /\ length p = k /\
      take k (concat xs ++ ra) = p /\ take k (concat ys ++ rb) = p /\
      (k <= length (concat xs ++ ra))%nat /\ (k <= length (concat ys ++ rb))%nat
  end.
Proof.
  intros Hxs. revert ys len. induction Hxs as [|x xs [Hlx Hux] _ IH]; intros ys len Hys; cbn [shared_words concat].
  { exists 0%nat, []. split_and!; try done; lia. }
  destruct Hys as [|y ys [Hly Huy] Hys]; [exists 0%nat, []; split_and!; try done; lia|]. cbn [concat].
  rewrite <- !app_assoc. destruct (Z.eqb_spec (Z.lxor (le_value x) (le_value y)) 0) as [He|Hne].
  - apply Z.lxor_eq, le_value_inj in He as ->; [|congruence|done..]. specialize (IH ys (len + 8)%nat Hys).
    destruct (shared_words xs ys (len + 8)) as [n|n].
    + rewrite common_prefix_len_app, Hly. lia.
    + destruct IH as (k & p & -> & Hlp & Ht & Ht' & Hk & Hk'). exists (8 + k)%nat, (y ++ p).
      assert (Hta : forall t, take (8 + k) (y ++ t) = y ++ take k t).
      { intros t. rewrite take_app_ge, Hly by lia. by replace (8 + k - 8)%nat with k by lia. }
      rewrite !length_app, Hly, Hlp, !Hta in *. split_and!; [lia|done|by rewrite Ht|by rewrite Ht'|lia..].
  - rewrite shared_word, common_prefix_len_ne by (done || congruence || (intros ->; by rewrite Z.lxor_nilpotent in Hne)). done.
Qed.

Lemma shared_prefix_len_common a b : Forall is_u8 a -> Forall is_u8 b -> shared_prefix_len a b = common_prefix_len a b.
Proof.
  intros Ha Hb. unfold shared_prefix_len.
  pose proof (as_chunks_spec 8 a ltac:(lia)) as (Ca & La & _ & _). pose proof (as_chunks_spec 8 b ltac:(lia)) as (Cb & Lb & _ & _).
  destruct (as_chunks 8 a) as [xs ra], (as_chunks 8 b) as [ys rb]. cbn [fst snd] in *. subst a b.
  apply Forall_app in Ha as [Ha _], Hb as [Hb _]. apply Forall_concat in Ha, Hb.
  pose proof (shared_words_spec xs ys 0 ra rb ltac:(by apply Forall_and) ltac:(by apply Forall_and)) as Hs.
  destruct (shared_words xs ys 0) as [n|n]; [done|]. destruct Hs as (k & p & -> & Hlp & Ht & Ht' & _).
  assert (Hc : common_prefix_len (concat xs ++ ra) (concat ys ++ rb) =
    (k + common_prefix_len (drop k (concat xs ++ ra)) (drop k (concat ys ++ rb)))%nat).
  { rewrite <- (take_drop k (concat xs ++ ra)) at 1. rewrite <- (take_drop k (concat ys ++ rb)) at 1.
    by rewrite Ht, Ht', common_prefix_len_app, Hlp. }
  by rewrite Hc.
Qed.

Lemma common_prefix_len_le a b : (common_prefix_len a b <= length b)%nat.
Proof. revert b. induction a as [|x a IH]; intros [|y b]; cbn; try lia. destruct (x =? y); [|lia]. specialize (IH b). lia. Qed.

Lemma common_prefix_len_take a b : take (common_prefix_len a b) a = take (common_prefix_len a b) b.
Proof.
  revert b. induction a as [|x a IH]; intros [|y b]; try done. cbn.
  destruct (Z.eqb_spec x y) as [->|]; [|done]. cbn. by rewrite IH.
Qed.

(** ** The block of a node is that of its contents *)

Section Blocks.
Context `{StubsLaws}.

Definition child_cid (h : Z) (o : option Node) : option Cid :=
  match o with Some c => tree_cid h (contents c) | None => None end.

Lemma tree_cid_nil h : tree_cid h [] = None.
Proof. done. Qed.

Lemma shape_nonempty h n : shape h n -> is_empty_node n = false -> contents n <> [].
Proof.
  revert h. induction n as [l es c ht ld IHl _] using Node_ind'. intros h Hs He Hc.
  destruct ld; cbn [shape contents] in *.
  - destruct Hs as (_ & _ & _ & Hl & _). apply app_nil in Hc as [Hl' Hes]. destruct es; [|done].
    destruct l as [m|]; [|done]. destruct Hl as [Hm Hem]. by apply (IHl (h - 1)).
  - destruct Hs as (_ & _ & Hok & Hs). destruct c as [c|]; [|done]. specialize (Hok c eq_refl). by rewrite Hc in Hok.
Qed.

Lemma opt_list_heights h o : (forall m, o = Some m -> shape (h - 1) m -> Forall (fun e => height_for_key e.1 <= h - 1) (contents m)) ->
  shape_of (h - 1) o -> Forall (fun e => height_for_key e.1 <= h - 1) (contents_of o).
Proof. intros IH Hs. destruct o as [m|]; [|constructor]. destruct Hs. by apply IH. Qed.

Lemma shape_heights h n : shape h n -> Forall (fun e => height_for_key e.1 <= h) (contents n).
Proof.
  revert h. induction n as [l es c ht ld IHl IHes] using Node_ind'. intros h Hs. destruct ld.
  - apply shape_to_bare, bare_loaded in Hs as (_ & _ & Hl & Hes); [|done..]. rewrite contents_loaded by done.
    cbn [n_left n_entries] in *. apply Forall_app. split.
    + eapply Forall_impl; [apply (opt_list_heights h l); [|done]|cbn; lia].
      intros m -> Hm. by apply IHl.
    + unfold entries_contents. apply Forall_concat, List.Forall_map, Forall_forall. intros e He.
      destruct (proj1 (Forall_forall _ _) Hes e He) as [Hk Hr]. constructor; [cbn; lia|].
      eapply Forall_impl; [apply (opt_list_heights h (e_right e)); [|done]|cbn; lia].
      intros m Hm Hsm. pose proof (proj1 (Forall_forall _ _) IHes e He) as IH. cbn in IH. rewrite Hm in IH. by apply IH.
  - cbn [shape contents] in *. destruct Hs as (_ & _ & _ & Hs). destruct c; [|constructor]. by apply stub_heights.
Qed.

Lemma shape_of_heights h o : shape_of h o -> Forall (fun e => height_for_key e.1 <= h) (contents_of o).
Proof. destruct o; [|constructor]. intros []. by apply shape_heights. Qed.

Lemma cut_levels_app h (pre l : kvs) : Forall (fun e => height_for_key e.1 <= h - 1) pre ->
  cut_levels h (pre ++ l) = (pre ++ (cut_levels h l).1, (cut_levels h l).2).
Proof.
  induction 1 as [|e pre He _ IH]; [cbn [app]; by destruct (cut_levels h l)|]. cbn [app cut_levels]. rewrite IH.
  cbn beta in He. destruct (Z.eqb_spec (height_for_key e.1) h); [lia|done].
Qed.

Lemma cut_levels_node h n : n_loaded n = true -> bare h n ->
  cut_levels h (contents n) = (contents_of (n_left n), map (fun e => (kv e, contents_of (e_right e))) (n_entries n)).
Proof.
  intros Hl Hs. rewrite contents_loaded by done. apply bare_loaded in Hs as (_ & _ & Hleft & Hes); [|done].
  rewrite cut_levels_app by (by apply shape_of_heights).
  assert (Hc : cut_levels h (entries_contents (n_entries n)) = ([], map (fun e => (kv e, contents_of (e_right e))) (n_entries n))).
  { clear Hleft. induction Hes as [|e es [Hk Hr] _ IH]; [done|]. rewrite entries_contents_cons. cbn [cut_levels map].
    rewrite cut_levels_app by (by apply shape_of_heights). rewrite IH. cbn [fst snd kv]. rewrite Hk, Z.eqb_refl. by rewrite app_nil_r. }
  rewrite Hc. cbn. by rewrite app_nil_r.
Qed.

Lemma child_cid_at h o : 0 <= h -> shape_of (h - 1) o -> tree_cid_at (Z.to_nat h) (h - 1) (contents_of o) = child_cid (h - 1) o.
Proof.
  intros Hh Hs. destruct o as [m|]; [|by destruct (Z.to_nat h)]. destruct Hs as [Hs _].
  destruct (shape_height _ _ Hs) as [_ Hnn]. unfold child_cid, tree_cid. cbn [contents_of opt_map].
  by replace (Z.to_nat h) with (S (Z.to_nat (h - 1))) by lia.
Qed.

(** The block of a node in the right shape. *)
Definition node_data (h : Z) (n : Node) : NodeData :=
  MkNodeData (child_cid (h - 1) (n_left n))
    (compress [] (map (fun e => (kv e, child_cid (h - 1) (e_right e))) (n_entries n))).

Lemma list_node_node h n : n_loaded n = true -> bare h n -> list_node h (contents n) = node_data h n.
Proof.
  intros Hl Hs. unfold list_node. rewrite cut_levels_node by done. apply bare_loaded in Hs as (_ & Hh & Hleft & Hes); [|done].
  rewrite child_cid_at by done. unfold node_data. do 2 f_equal. rewrite map_map. apply map_ext_in.
  intros e Hin%list_elem_of_In. cbn [fst snd]. f_equal. apply child_cid_at; [done|].
  by destruct (proj1 (Forall_forall _ _) Hes e Hin).
Qed.

Lemma tree_cid_node h n : n_loaded n = true -> bare h n -> is_empty_node n = false ->
  tree_cid h (contents n) = block_cid (node_data h n).
Proof.
  intros Hl Hs He. assert (Hne : contents n <> []).
  { rewrite <- (contents_set_cid None) by done. eapply shape_nonempty; [exact Hs|]. by destruct n. }
  rewrite <- list_node_node by done. unfold tree_cid, list_node. destruct (contents n); [done|]. cbn [tree_cid_at].
  by destruct (cut_levels _ _).
Qed.

(** ** [encode_node] *)

Definition known (o : option Node) : Prop := forall n, o = Some n -> n_cid n <> None.

Lemma node_cid_known o e : known o -> node_cid o e = Ok (o ≫= n_cid).
Proof.
  intros Hk. destruct o as [n|]; [|done]. cbn. destruct (n_cid n) eqn:Hc; [done|]. by destruct (Hk n eq_refl).
Qed.

Definition block_entries (es : list Entry) : list (bytes * Cid * option Cid) :=
  map (fun e => (kv e, e_right e ≫= n_cid)) es.

Lemma encode_entries_eq es prev buf : Forall is_u8 prev -> Forall (fun e => Forall is_u8 (e_key e)) es ->
  Forall (fun e => known (e_right e)) es ->
  encode_entries es prev buf = Ok (fold_left (fun buf e => put_entry buf (prefix_len e) (key_suffix e) (value e) (data_right e))
    (compress prev (block_entries es)) buf).
Proof.
  intros Hp Hu. revert prev buf Hp. induction Hu as [|e es Hk Hes IH]; intros prev buf Hp Hr; [done|].
  inversion_clear Hr as [|? ? Hke Hr']. cbn [encode_entries]. rewrite node_cid_known by done.
  cbn [mbind res_bind]. rewrite shared_prefix_len_common by done.
  rewrite slice_from_Ok by (apply common_prefix_len_le). cbn [mbind res_bind]. rewrite IH by done. done.
Qed.

Lemma compress_length prev es : length (compress prev es) = length es.
Proof. revert prev. induction es as [|[[k v] r] es IH]; intros prev; cbn; [done|]. by rewrite IH. Qed.

Lemma encode_node_eq n : known (n_left n) -> Forall (fun e => known (e_right e)) (n_entries n) ->
  Forall (fun e => Forall is_u8 (e_key e)) (n_entries n) ->
  encode_node n [] = encode_node_data (MkNodeData (n_left n ≫= n_cid) (compress [] (block_entries (n_entries n)))).
Proof.
  intros Hl Hr Hu. unfold encode_node, encode_node_data. rewrite node_cid_known by done. cbn [mbind res_bind data_left data_entries].
  rewrite encode_entries_eq by (done || constructor). cbn [mbind res_bind].
  rewrite compress_length. unfold block_entries. by rewrite length_map.
Qed.

(** ** [write_node] *)

(** A block of a stretch of the contents. *)
Definition part_block (h : Z) (l : kvs) (b : Cid * bytes) : Prop := exists h' s, part h l h' s /\ block_of h' s b.

Lemma part_block_cut h l s b : s ∈ cuts h l -> s <> [] -> part_block (h - 1) s b -> part_block h l b.
Proof. intros Hs Hne (h' & s' & Hp & Hb). exists h', s'. split; [by eapply part_below|done]. Qed.

(** The subtrees of a node are cut from its contents. *)
Lemma slot_cut h n o : n_loaded n = true -> bare h n -> o = n_left n \/ (exists e, e ∈ n_entries n /\ o = e_right e) ->
  contents_of o ∈ cuts h (contents n).
Proof.
  intros Hl Hs Ho. unfold cuts. rewrite cut_levels_node by done. cbn [fst snd]. destruct Ho as [->|(e & He & ->)]; [by left|right].
  apply list_elem_of_fmap. exists (kv e, contents_of (e_right e)). split; [done|]. rewrite list_elem_of_In. apply in_map_iff.
  exists e. split; [done|by apply list_elem_of_In].
Qed.

Definition written (h : Z) (n : Node) (c : Cid) (n' : Node) (blocks : list (Cid * bytes)) : Prop :=
  tree_cid h (contents n) = Some c /\ n_cid n' = Some c /\ contents n' = contents n /\
  shape h n' /\ is_empty_node n' = false /\ n_loaded n' = n_loaded n /\
  cids n' ≡ₚ cids n ++ blocks.*1 /\ Forall (part_block h (contents n)) blocks.

Definition keys_u8 (l : kvs) : Prop := Forall (fun e => Forall is_u8 e.1) l.

Definition writes (n : Node) : Prop := forall h out, shape h n -> is_empty_node n = false -> keys_u8 (contents n) ->
  exists c n' blocks, write_node n out = (Ok (c, n'), out ++ blocks) /\ written h n c n' blocks.

Lemma write_left_spec h l out : opt_all writes l -> shape_of h l -> keys_u8 (contents_of l) ->
  exists l' blocks, write_left write_node l out = (Ok l', out ++ blocks) /\
    shape_of h l' /\ contents_of l' = contents_of l /\ l' ≫= n_cid = child_cid h l /\ known l' /\ (l' = None -> l = None) /\
    cids_of l' ≡ₚ cids_of l ++ blocks.*1 /\ (contents_of l = [] -> blocks = []) /\ Forall (part_block h (contents_of l)) blocks.
Proof.
  intros Hw Hs Hu. destruct l as [m|]; cbn [write_left].
  - destruct Hs as [Hs He]. destruct (Hw h out Hs He Hu) as (c & m' & bs & Hrun & Hc & Hcid & Hcon & Hs' & He' & _ & Hp & Hb).
    rewrite (st_bind_run _ _ _ _ _ Hrun). exists (Some m'), bs. split_and!; try done.
    + change (n_cid m' = tree_cid h (contents m)). congruence.
    + intros n [= <-]. by rewrite Hcid.
    + intros Hnil. by destruct (shape_nonempty h m Hs He).
  - exists None, []. rewrite app_nil_r. split_and!; done.
Qed.

Lemma write_rights_spec h es out : Forall (fun e : Entry => opt_all writes (e_right e)) es ->
  Forall (entry_shape h) es -> keys_u8 (entries_contents es) ->
  exists es' blocks, write_rights write_node es out = (Ok es', out ++ blocks) /\
    Forall (entry_shape h) es' /\ entries_contents es' = entries_contents es /\
    block_entries es' = map (fun e => (kv e, child_cid (h - 1) (e_right e))) es /\
    Forall (fun e => known (e_right e)) es' /\ map e_key es' = map e_key es /\
    entries_cids es' ≡ₚ entries_cids es ++ blocks.*1 /\
    Forall (fun b => exists e, e ∈ es /\ contents_of (e_right e) <> [] /\ part_block (h - 1) (contents_of (e_right e)) b) blocks.
Proof.
  intros Hw Hs. revert out. induction Hs as [|[k v r] es [Hk Hr] Hes IH]; intros out Hu.
  - exists [], []. rewrite app_nil_r. split_and!; done.
  - inversion_clear Hw as [|? ? Hw0 Hws]. rewrite entries_contents_cons in Hu. inversion_clear Hu as [|? ? Hu0 Hu1].
    apply Forall_app in Hu1 as [Hur Hus]. cbn [e_right e_key] in *.
    destruct (write_left_spec (h - 1) r out Hw0 Hr Hur) as (r' & bs & Hrun & Hs' & Hc & Hcid & Hkn & _ & Hp & Hne & Hb).
    destruct (IH Hws (out ++ bs) Hus) as (es' & bs' & Hrun' & Hes' & Hcs & Hbl & Hkns & Hkeys & Hps & Hbs).
    exists (MkEntry k v r' :: es'), (bs ++ bs'). rewrite app_assoc. split_and!.
    + cbn [write_rights]. rewrite (st_bind_run _ _ out (MkEntry k v r') (out ++ bs)).
      * change ((es'' ← write_rights write_node es; mret (MkEntry k v r' :: es'')) (out ++ bs) =
          (Ok (MkEntry k v r' :: es'), (out ++ bs) ++ bs')). by rewrite (st_bind_run _ _ _ _ _ Hrun').
      * destruct r as [m|]; cbn [write_left write_right] in *; unfold mbind, st_bind in *.
        -- destruct (write_node m out) as [[[c m']|e|] s]; [|done|done]. by injection Hrun as <- <-.
        -- by injection Hrun as <- <-.
    + by constructor.
    + rewrite !entries_contents_cons. cbn [e_right]. by rewrite Hc, Hcs.
    + unfold block_entries in *. cbn [map e_right]. by rewrite Hbl, Hcid.
    + by constructor.
    + cbn. by rewrite Hkeys.
    + change (entries_cids (MkEntry k v r' :: es')) with (cids_of r' ++ entries_cids es').
      change (entries_cids (MkEntry k v r :: es)) with (cids_of r ++ entries_cids es). rewrite fmap_app. perm_lia.
    + apply Forall_app. split.
      * destruct (decide (contents_of r = [])) as [Hnil|Hnn]; [by rewrite (Hne Hnil)|].
        eapply Forall_impl; [exact Hb|]. intros b Hpb. exists (MkEntry k v r). split; [by left|done].
      * eapply Forall_impl; [exact Hbs|]. intros b (e & He & Hpb). exists e. split; [by right|done].
Qed.

Lemma keys_u8_entries es : keys_u8 (entries_contents es) -> Forall (fun e => Forall is_u8 (e_key e)) es.
Proof.
  induction es as [|e es IH]; [constructor|]. rewrite entries_contents_cons. intros Hu. inversion_clear Hu as [|? ? He Hu'].
  apply Forall_app in Hu' as [_ Hu']. constructor; [done|auto].
Qed.

Lemma write_node_spec n : writes n.
Proof.
  induction n as [l es c ht ld IHl IHes] using Node_ind'. intros h out Hs He Hu. destruct c as [cid|].
  { exists cid, (MkNode l es (Some cid) ht ld), []. rewrite app_nil_r. split; [done|]. split_and!; try done.
    - cbn [shape] in Hs. destruct Hs as (_ & _ & Hok & _). by apply Hok.
    - by rewrite app_nil_r. }
  destruct ld; [|by destruct Hs as (_ & _ & _ & [])].
  pose proof (proj1 (shape_fresh _ (MkNode l es None ht true) eq_refl eq_refl) Hs) as (Hh & Hnn & Hl & Hes).
  cbn [n_height n_left n_entries] in *. subst ht. rewrite contents_loaded in Hu by done. apply Forall_app in Hu as [Hul Hue].
  destruct (write_left_spec (h - 1) l out IHl Hl Hul) as (l' & bs & Hrun & Hl' & Hcl & Hcidl & Hknl & Hnl & Hpl & Hnbl & Hbl).
  destruct (write_rights_spec h es (out ++ bs) IHes Hes Hue) as (es' & bs' & Hrun' & Hes' & Hce & Hbe & Hkne & Hkeys & Hpe & Hbe').
  cbn [write_node]. rewrite (st_bind_run _ _ _ _ _ Hrun), (st_bind_run _ _ _ _ _ Hrun').
  set (m := MkNode l' es' None h true).
  assert (Hcm : contents m = contents (MkNode l es None h true)).
  { rewrite !contents_loaded by done. cbn [n_left n_entries]. unfold m. cbn [n_left n_entries]. by rewrite Hcl, Hce. }
  assert (Hsm : shape h m) by (by apply shape_fresh).
  set (nd := MkNodeData (child_cid (h - 1) l) (compress [] (map (fun e => (kv e, child_cid (h - 1) (e_right e))) es))).
  assert (Henc : encode_node m [] = encode_node_data nd).
  { rewrite encode_node_eq.
    - unfold nd, m. cbn [n_left n_entries]. by rewrite Hcidl, Hbe.
    - done.
    - done.
    - apply keys_u8_entries. unfold m. cbn [n_entries]. by rewrite Hce. }
  assert (Hdata : exists data, encode_node_data nd = Ok data) by (by eexists). destruct Hdata as [data Hdata].
  rewrite Henc, Hdata. unfold lift, modify, mbind, st_bind. cbv beta iota zeta. unfold mret, st_ret.
  exists (compute Drisl data), (MkNode l' es' (Some (compute Drisl data)) h true), (bs ++ bs' ++ [(compute Drisl data, data)]).
  assert (Hc : tree_cid h (contents (MkNode l es None h true)) = Some (compute Drisl data)).
  { rewrite (tree_cid_node h) by (done || by apply bare_shape). change (node_data h _) with nd. unfold block_cid. by rewrite Hdata. }
  split; [by rewrite <- !app_assoc|]. split_and!; try done.
  - apply shape_bare; [done|]. split; [by apply bare_shape in Hsm|]. intros c' [= <-].
    change (contents (MkNode l' es' (Some (compute Drisl data)) h true)) with (contents m). by rewrite Hcm.
  - destruct es as [|e es], es' as [|e' es']; try done. destruct l; [|done]. destruct l' as [m'|]; [done|]. by specialize (Hnl eq_refl).
  - rewrite !cids_eq by done. cbn [n_cid n_left n_entries]. rewrite !fmap_app. change (option_list (Some ?c)) with [c].
    cbn [fmap list_fmap fst option_list]. perm_lia.
  - assert (Hbare : bare h (MkNode l es None h true)) by (by apply bare_shape). apply Forall_app. split; [|apply Forall_app; split].
    + destruct (decide (contents_of l = [])) as [Hnil|Hnnil]; [by rewrite (Hnbl Hnil)|]. eapply Forall_impl; [exact Hbl|].
      intros b. apply part_block_cut; [|done]. by apply slot_cut; [..|left].
    + eapply Forall_impl; [exact Hbe'|]. intros b (e & Hin & Hnnil & Hpb). eapply part_block_cut; [|exact Hnnil|done].
      apply slot_cut; [done..|]. right. by exists e.
    + constructor; [|constructor]. exists h, (contents (MkNode l es None h true)). split; [constructor|]. split; [done|].
      rewrite list_node_node by done. exact Hdata.
Qed.
End Blocks.
