(* ===== verification/MstLoad.v ===== *)
(** Loading nodes from a block source: [Place], [is_valid_key],
    [for_each_key], [populate_node], [Loader] and the traversals that load
    what they visit, of [src/src/mst/tree.rs].

    A traversal that takes [&mut Node] runs in the state of that node and the
    loader's counts, so the nodes it loaded before a failure stay loaded.
    Every step descends one level; the traversals take fuel for that and
    panic when it runs out. *)
From S2P Require Import Prelude StateError SyntaxError CborError Cid CborDecode MstHeight SortedMap MstNode MstTree.

(** ** Places *)

Definition MAX_LEVELS : nat := 128.   (* [MAX_DEPTH] *)

Record Place := MkPlace { p_depth : nat; p_lo : option bytes; p_hi : option bytes }.

Definition ROOT : Place := MkPlace 0 None None.

Definition admits (at_ : Place) (key : bytes) : bool :=
  match p_lo at_ with Some lo => bytes_ltb lo key | None => true end &&
  match p_hi at_ with Some hi => bytes_ltb key hi | None => true end.

(** The place of the subtree between [entries[i - 1]] and [entries[i]] of a
    node at [at_]. *)
Definition child_place (es : list Entry) (i : nat) (at_ : Place) : Place :=
  MkPlace (S (p_depth at_))
    (match i with O => p_lo at_ | S j => e_key <$> es !! j end)
    (match es !! i with Some e => Some (e_key e) | None => p_hi at_ end).

(** ** Valid keys *)

Definition key_char (b : Z) : bool :=
  is_ascii_alphanumeric b || existsb (Z.eqb b) (b# "_~-:.").

Definition is_valid_key (key : bytes) : bool :=
  match position (fun b => b =? ch_slash) key with
  | None => false
  | Some slash =>
      (Z.of_nat (length key) <=? MAX_KEY_LEN) && (0 <? slash)%nat && (S slash <? length key)%nat &&
      forallb key_char (take slash key) && forallb key_char (drop (S slash) key)
  end.

(** ** From a block to a node *)

(** The calls [f(i, ed, key)], as the list of the entries with their keys. *)
Fixpoint for_each_key_from (first : bool) (prev : bytes) (es : list EntryData) : res MstError (list (EntryData * bytes)) :=
  match es with
  | [] => Ok []
  | ed :: es' =>
      if (length prev <? prefix_len ed)%nat then
        Err (InvalidNode (TextArgs "entry prefix length exceeds previous key length"
          [Z.of_nat (prefix_len ed); Z.of_nat (length prev)]))
      else
        let key := take (prefix_len ed) prev ++ key_suffix ed in
        if negb (utf8_valid key) then Err (invalid_node "key is not valid UTF-8")
        else if negb (is_valid_key key) then Err (InvalidNode (About key "invalid MST key"))
        else if negb first && bytes_leb key prev then
          Err (InvalidNode (About key "entry key is not greater than previous key"))
        else rest ← for_each_key_from false key es'; Ok ((ed, key) :: rest)
  end.

Definition for_each_key (nd : NodeData) : res MstError (list (EntryData * bytes)) :=
  for_each_key_from true [] (data_entries nd).

Definition out_of_place (key : bytes) : MstError :=
  InvalidNode (About key "outside the range its place in the tree allows").

Definition too_deep (cid : Cid) : MstError :=
  InvalidNode (About (to_bytes cid) "more than 128 levels below the root").

Fixpoint all_admitted (at_ : Place) (keys : list bytes) : res MstError () :=
  match keys with
  | [] => Ok ()
  | k :: keys' => if negb (admits at_ k) then Err (out_of_place k) else all_admitted at_ keys'
  end.

(** How many nodes in memory carry each CID. *)
Abbreviation Refs := (gmap Cid nat).
(** [src.read_block] *)
Abbreviation Source := (Cid -> res MstError (option bytes)).
(** A [&mut Node] and the counts. *)
Abbreviation loading := (st (Node * Refs) MstError).

(** Two subtrees and the counts. *)
Abbreviation merging := (st (option Node * option Node * Refs) MstError).

Section Load.
Context `{Sha2} `{Simdutf8}.

Definition populate_node (n : Node) (nd : NodeData) (at_ : Place) : res MstError Node :=
  keys ← for_each_key nd;
  _ ← all_admitted at_ (option_list (snd <$> head keys) ++ option_list (snd <$> last keys));
  let height := match head keys with Some (_, first) => height_for_key first | None => n_height n end in
  let child_height := Z.max 0 (height - 1) in
  let stub_at (c : option Cid) := (fun cid => stub cid child_height) <$> c in
  Ok (MkNode (stub_at (data_left nd))
        (map (fun x : EntryData * bytes => MkEntry x.2 (value x.1) (stub_at (data_right x.1))) keys)
        (n_cid n) height true).

(** ** The loader *)

Definition children (nd : NodeData) : list Cid :=
  option_list (data_left nd) ++ omap data_right (data_entries nd).

(** [for child in children()]: the counts, and the children counted. *)
Fixpoint link_children (cs : list Cid) (refs : Refs) (linked : list Cid) : res MstError () * (Refs * list Cid) :=
  match cs with
  | [] => (Ok (), (refs, linked))
  | c :: cs' =>
      let count := default 0%nat (refs !! c) in
      if (0 <? count)%nat then
        (Err (InvalidNode (About (to_bytes c) "linked from more than one place")), (refs, linked))
      else link_children cs' (<[c := 1%nat]> refs) (linked ++ [c])
  end.

Definition load (src : Source) (at_ : Place) : loading (option Cid) := fun '(n, refs) =>
  if n_loaded n then (Ok None, (n, refs)) else
  match n_cid n with
  | None => (Err (internal "unloaded MST node has no CID"), (n, refs))
  | Some cid =>
      if (MAX_LEVELS <? p_depth at_)%nat then (Err (too_deep cid), (n, refs)) else
      match (data ← src cid; match data with
                             | None => Ok None
                             | Some data => nd ← decode_node_data data; Ok (Some nd)
                             end) with
      | Err e => (Err e, (n, refs))
      | Panic => (Panic, (n, refs))
      | Ok None => (Ok (Some cid), (n, refs))
      | Ok (Some nd) =>
          let '(result, (refs', linked)) := link_children (children nd) refs [] in
          match (_ ← result; populate_node n nd at_) with
          | Ok n' => (Ok None, (n', refs'))
          | Err e => (Err e, (n, foldr delete refs' linked))
          | Panic => (Panic, (n, refs'))
          end
      end
  end.

Definition ensure_loaded (src : Source) (at_ : Place) : loading () :=
  absent ← load src at_;
  match absent with
  | None => mret ()
  | Some cid => fail (BlockNotFound cid)
  end.

(** Run a traversal on the subtree in slot [i], if there is one. *)
Definition on_child {A} (i : nat) (none : A) (m : loading A) : loading A := fun '(n, refs) =>
  match child n i with
  | None => (Ok none, (n, refs))
  | Some c =>
      let '(r, (c', refs')) := m (c, refs) in
      (r, (set_child n i (Some c'), refs'))
  end.

Definition the_node : loading Node := gets fst.

(** Fuel for a traversal from [n] at [at_]: down the nodes in memory, and then
    down to the deepest level that loads. *)
Definition load_fuel (n : Node) (at_ : Place) : nat := levels n + (S (S MAX_LEVELS) - p_depth at_).

Fixpoint get_node (fuel : nat) (src : Source) (key : bytes) (at_ : Place) : loading (option Cid) :=
  match fuel with
  | O => panic
  | S fuel =>
      _ ← ensure_loaded src at_;
      n ← the_node;
      match search (n_entries n) key with
      | (i, true) => mret (e_val <$> n_entries n !! i)
      | (i, false) => on_child i None (get_node fuel src key (child_place (n_entries n) i at_))
      end
  end.

(** ** What a mutation will need *)

Inductive Visit := Lookup | Remove.

#[export] Instance Visit_eq_dec : EqDecision Visit.
Proof. solve_decision. Defined.

Fixpoint visit_root_chain (fuel : nat) (src : Source) (at_ : Place) (chain : bool) : loading (list Cid) :=
  match fuel with
  | O => panic
  | S fuel =>
      if negb chain then mret [] else
      absent ← load src at_;
      n ← the_node;
      match absent with
      | Some cid => mret (if negb (n_height n =? 0) then [cid] else [])   (* [height > 0] of a [u8] *)
      | None =>
          let chain := match n_entries n with [] => true | _ => false end in
          on_child 0 [] (visit_root_chain fuel src (child_place (n_entries n) 0 at_) chain)
      end
  end.

Definition on_left {A} (none : A) (m : loading A) : merging A := fun '(l, r, refs) =>
  match l with
  | None => (Ok none, (l, r, refs))
  | Some n => let '(a, (n', refs')) := m (n, refs) in (a, (Some n', r, refs'))
  end.

Definition on_right {A} (none : A) (m : loading A) : merging A := fun '(l, r, refs) =>
  match r with
  | None => (Ok none, (l, r, refs))
  | Some n => let '(a, (n', refs')) := m (n, refs) in (a, (l, Some n', refs'))
  end.

(** Run a merge's traversal on the facing subtrees of two nodes: in slot [i]
    of the left one and slot [j] of the right one. *)
Definition on_edges {A} (l r : Node) (i j : nat) (m : merging A) : merging A := fun '(_, _, refs) =>
  let '(a, (lc, rc, refs')) := m (child l i, child r j, refs) in
  (a, (Some (match lc with Some _ => set_child l i lc | None => l end),
       Some (match rc with Some _ => set_child r j rc | None => r end), refs')).

Fixpoint visit_merge (fuel : nat) (src : Source) (left_at right_at : Place) (chain : bool) : merging (list Cid) :=
  match fuel with
  | O => panic
  | S fuel' =>
      sides ← gets fst;
      match sides with
      | (Some _, Some _) =>
          absent_left ← on_left None (load src left_at);
          absent_right ← on_right None (load src right_at);
          match option_list absent_left ++ option_list absent_right with
          | (_ :: _) as absent => mret absent
          | [] =>
              sides ← gets fst;
              match sides with
              | (Some l, Some r) =>
                  let chain := chain && match n_entries l with [] => true | _ => false end
                    && match n_entries r with [] => true | _ => false end in
                  let last := length (n_entries l) in
                  on_edges l r last 0
                    (visit_merge fuel' src (child_place (n_entries l) last left_at) (child_place (n_entries r) 0 right_at) chain)
              | _ => mret []
              end
          end
      | (Some _, None) => on_left [] (visit_root_chain fuel src left_at chain)
      | (None, Some _) => on_right [] (visit_root_chain fuel src right_at chain)
      | (None, None) => mret []
      end
  end.

(** The neighbours of [entries[i]] of the node: the subtrees in slots [i] and
    [i + 1]. *)
Definition on_neighbours {A} (i : nat) (m : merging A) : loading A := fun '(n, refs) =>
  let '(a, (lc, rc, refs')) := m (child n i, child n (S i), refs) in
  let n := match lc with Some _ => set_child n i lc | None => n end in
  (a, (match rc with Some _ => set_child n (S i) rc | None => n end, refs')).

Fixpoint visit_key_path (fuel : nat) (src : Source) (key : bytes) (visit : Visit) (top : bool) (at_ : Place) : loading (list Cid) :=
  match fuel with
  | O => panic
  | S fuel =>
      absent ← load src at_;
      match absent with
      | Some cid => mret [cid]
      | None =>
          n ← the_node;
          match search (n_entries n) key with
          | (i, true) =>
              if bool_decide (visit = Lookup) then mret []
              else
                let chain := top && (length (n_entries n) =? 1)%nat in
                on_neighbours i (visit_merge fuel src (child_place (n_entries n) i at_) (child_place (n_entries n) (S i) at_) chain)
          | (i, false) =>
              let top := top && match n_entries n with [] => true | _ => false end in
              on_child i [] (visit_key_path fuel src key visit top (child_place (n_entries n) i at_))
          end
      end
  end.

(** ** Walking *)

(** The state of the closure [f] rides along. *)
Definition on_tree {S A} (m : loading A) : st (Node * Refs * S) MstError A := fun '(nr, s) =>
  let '(a, nr') := m nr in (a, (nr', s)).

Definition on_child_walk {S} (i : nat) (m : st (Node * Refs * S) MstError ()) : st (Node * Refs * S) MstError () :=
  fun '(n, refs, s) =>
  match child n i with
  | None => (Ok (), (n, refs, s))
  | Some c => let '(r, (c', refs', s')) := m (c, refs, s) in (r, (set_child n i (Some c'), refs', s'))
  end.

Definition call {S} (f : bytes -> Cid -> st S MstError ()) (e : option Entry) : st (Node * Refs * S) MstError () :=
  fun '(nr, s) =>
  match e with
  | Some e => let '(r, s') := f (e_key e) (e_val e) s in (r, (nr, s'))
  | None => (Ok (), (nr, s))
  end.

(** [i.checked_sub(1).and_then(|j| n.entries.get(j))] *)
Definition entry_before (n : Node) (i : nat) : option Entry :=
  match i with O => None | S j => n_entries n !! j end.

Fixpoint walk_node {S} (fuel : nat) (src : Source) (f : bytes -> Cid -> st S MstError ()) (at_ : Place) : st (Node * Refs * S) MstError () :=
  match fuel with
  | O => panic
  | Datatypes.S fuel =>
      _ ← on_tree (ensure_loaded src at_);
      n ← on_tree the_node;
      for_each (fun i => _ ← call f (entry_before n i);
                         on_child_walk i (walk_node fuel src f (child_place (n_entries n) i at_)))
        (seq 0 (Datatypes.S (length (n_entries n))))
  end.

(** The node is loaded; a subtree that is not available is skipped. *)
Fixpoint walk_reachable_node {S} (fuel : nat) (src : Source) (f : bytes -> Cid -> st S MstError ()) (at_ : Place) : st (Node * Refs * S) MstError () :=
  match fuel with
  | O => panic
  | Datatypes.S fuel =>
      n ← on_tree the_node;
      for_each (fun i => _ ← call f (entry_before n i);
          let at_ := child_place (n_entries n) i at_ in
          on_child_walk i (absent ← on_tree (load src at_);
                           match absent with
                           | None => walk_reachable_node fuel src f at_
                           | Some _ => mret ()
                           end))
        (seq 0 (Datatypes.S (length (n_entries n))))
  end.
End Load.
