(* ===== verification/MstLoadSpec.v ===== *)
(** What the traversals of [MstLoad] do to a tree, for any source: they turn
    stubs into the nodes their blocks hold and change nothing else, they keep
    the counts of the blocks in memory, and they do not run out of fuel.

    Walking a tree in key order: [walk_node] of [MstLoad] loads every node
    and calls the closure on the contents of the tree, in order. *)
From S2P Require Import Prelude StateError SyntaxError CborError Cid CborDecode CborCodec MstHeight SortedMap MstNode MstTree MstShape MstMutate MstRemove MstLoad.

(** ** Loading as steps *)

Section Steps.
Context `{Sha2} `{Simdutf8} (src : Cid -> res MstError (option bytes)).

(** One stub, somewhere in the tree, becomes the node its block holds. *)
Inductive load_step : Place -> Node -> Node -> Prop :=
| step_load at_ n n' cid data nd : n_loaded n = false -> n_cid n = Some cid -> (p_depth at_ <= MAX_LEVELS)%nat ->
    src cid = Ok (Some data) -> decode_node_data data = Ok nd -> populate_node n nd at_ = Ok n' ->
    load_step at_ n n'
| step_child at_ n i c c' : n_loaded n = true -> child n i = Some c ->
    load_step (child_place (n_entries n) i at_) c c' -> load_step at_ n (set_child n i (Some c')).

Definition loads (at_ : Place) : Node -> Node -> Prop := rtc (load_step at_).

Lemma child_set_child n i c : (i <= length (n_entries n))%nat -> child (set_child n i c) i = c.
Proof.
  destruct n as [l es cd h ld], i as [|j]; [done|]. intros [e He]%lookup_lt_is_Some. unfold child. cbn in *.
  by rewrite list_lookup_alter_eq, He.
Qed.

Lemma child_le n i c : child n i = Some c -> (i <= length (n_entries n))%nat.
Proof.
  unfold child. destruct i as [|j]; [lia|]. cbn [slot]. intros (e & He & _)%bind_Some. apply lookup_lt_Some in He. lia.
Qed.

Lemma set_child_set_child n i c c' : set_child (set_child n i c) i c' = set_child n i c'.
Proof.
  destruct n as [l es cd h ld], i as [|j]; [done|]. cbn. f_equal. apply list_eq. intros k.
  destruct (decide (k = j)) as [->|]; [|by rewrite !list_lookup_alter_ne].
  rewrite !list_lookup_alter_eq. by destruct (es !! j).
Qed.

Lemma set_child_same n i c : child n i = Some c -> set_child n i (Some c) = n.
Proof.
  destruct n as [l es cd h ld], i as [|j]; unfold child; cbn; [by intros ->|]. intros (e & He & Hr)%bind_Some. f_equal.
  rewrite (alter_insert _ _ _ e) by done. apply list_insert_id. rewrite He. f_equal. destruct e. cbn in *. by subst.
Qed.

(** The keys of a node and its fields survive in the slots. *)
Lemma set_child_keys n i c : map e_key (n_entries (set_child n i c)) = map e_key (n_entries n).
Proof.
  destruct n as [l es cd h ld], i as [|j]; [done|]. cbn. revert j. induction es as [|e es IH]; intros [|j]; cbn; [done..|].
  f_equal. apply IH.
Qed.

Lemma child_place_keys es es' i at_ : map e_key es = map e_key es' -> child_place es i at_ = child_place es' i at_.
Proof.
  intros Hk. assert (Hl : forall j, e_key <$> es !! j = e_key <$> es' !! j).
  { intros j. pose proof (f_equal (fun l => l !! j) Hk) as Hj. by rewrite !list_lookup_fmap in Hj. }
  unfold child_place. f_equal.
  - destruct i; [done|]. apply Hl.
  - specialize (Hl i). destruct (es !! i), (es' !! i); cbn in *; congruence.
Qed.

Lemma loads_child at_ n i c c' : n_loaded n = true -> child n i = Some c ->
  loads (child_place (n_entries n) i at_) c c' -> loads at_ n (set_child n i (Some c')).
Proof.
  intros Hl Hc Hs. remember (child_place (n_entries n) i at_) as p eqn:Hp. revert n Hl Hc Hp.
  induction Hs as [c|c c1 c' Hstep _ IH]; intros n Hl Hc Hp.
  - rewrite set_child_same by done. constructor.
  - subst p. eapply rtc_l; [by apply (step_child at_ n i c c1)|]. rewrite <- (set_child_set_child n i (Some c1) (Some c')).
    apply IH.
    + by destruct (set_child_fields n i (Some c1)) as (_ & _ & -> & _).
    + apply child_set_child. by eapply child_le.
    + symmetry. apply child_place_keys, set_child_keys.
Qed.

(** ** Runs of a traversal *)

(** The counts follow the blocks in memory. *)
Definition kept (old new : list Cid) (refs refs' : gmap Cid nat) : Prop :=
  (forall c, default 0 (refs' !! c) + count c old = default 0 (refs !! c) + count c new)%nat /\
  ((forall c, refs !! c <> Some 0%nat) -> forall c, refs' !! c <> Some 0%nat).

Lemma kept_refl l refs : kept l l refs refs.
Proof. split; [lia|auto]. Qed.

Lemma kept_trans l1 l2 l3 r1 r2 r3 : kept l1 l2 r1 r2 -> kept l2 l3 r2 r3 -> kept l1 l3 r1 r3.
Proof. intros [H1 H2] [H3 H4]. split; [|auto]. intros c. specialize (H1 c). specialize (H3 c). lia. Qed.

(** The run of [m] on [n] at [at_]: it loads nodes and panics never; a result
    satisfies [Q] with the node that is left. *)
Definition run_ok {A} (at_ : Place) (m : loading A) (n : Node) (refs : gmap Cid nat) (Q : Node -> A -> Prop) : Prop :=
  let '(r, (n', refs')) := m (n, refs) in
  loads at_ n n' /\ kept (cids n) (cids n') refs refs' /\
  match r with Ok a => Q n' a | Err _ => True | Panic => False end.

Lemma run_ok_bind {A B} at_ (m : loading A) (f : A -> loading B) n refs Q R :
  run_ok at_ m n refs Q ->
  (forall n' refs' a, loads at_ n n' -> Q n' a -> run_ok at_ (f a) n' refs' R) ->
  run_ok at_ (m ≫= f) n refs R.
Proof.
  unfold run_ok. unfold mbind, st_bind. destruct (m (n, refs)) as [[a|e|] [n' refs']]; intros (Hl & Hk & Hq) Hf; [|done..].
  specialize (Hf n' refs' a Hl Hq). destruct (f a (n', refs')) as [r [n2 refs2]]. destruct Hf as (Hl2 & Hk2 & Hq2).
  split_and!; [by etrans|by eapply kept_trans|done].
Qed.

Lemma run_ok_ret {A} at_ (a : A) n refs (Q : Node -> A -> Prop) : Q n a -> run_ok at_ (mret a) n refs Q.
Proof. intros Hq. split_and!; [constructor|apply kept_refl|done]. Qed.

Lemma run_ok_weaken {A} at_ (m : loading A) n refs (Q R : Node -> A -> Prop) : run_ok at_ m n refs Q ->
  (forall n' a, loads at_ n n' -> Q n' a -> R n' a) -> run_ok at_ m n refs R.
Proof.
  unfold run_ok. destruct (m (n, refs)) as [[a|e|] [n' refs']]; intros (Hl & Hk & Hq) Hw; split_and!; auto.
Qed.

Lemma on_child_ok {A} at_ i (none : A) m n refs (Q : Node -> A -> Prop) : n_loaded n = true ->
  (child n i = None -> Q n none) ->
  (forall c, child n i = Some c -> run_ok (child_place (n_entries n) i at_) m c refs (fun c' a => Q (set_child n i (Some c')) a)) ->
  run_ok at_ (on_child i none m) n refs Q.
Proof.
  intros Hl Hnone Hsome. unfold run_ok, on_child. destruct (child n i) as [c|] eqn:Hc.
  - specialize (Hsome c eq_refl). unfold run_ok in Hsome. destruct (m (c, refs)) as [r [c' refs']].
    destruct Hsome as (Hs & [Hk Hz] & Hq). split_and!; [by eapply loads_child| |done].
    pose proof (cids_set_child n i (Some c') Hl (child_le n i c Hc)) as Hp. rewrite Hc in Hp. rewrite perm_count in Hp.
    split; [|done]. intros x. specialize (Hp x). specialize (Hk x). rewrite !count_app in Hp. cbn [cids_of opt_map] in Hp. lia.
  - split_and!; [constructor|apply kept_refl|auto].
Qed.

(** ** [load] *)

Lemma link_children_spec cs refs linked :
  let '(r, (refs', linked')) := link_children cs refs linked in
  exists done rest, cs = done ++ rest /\ linked' = linked ++ done /\ NoDup done /\
    (forall c, c ∈ done -> default 0%nat (refs !! c) = 0%nat) /\
    (forall c, refs' !! c = if decide (c ∈ done) then Some 1%nat else refs !! c) /\
    match r with Ok _ => rest = [] | Err _ => True | Panic => False end.
Proof.
  revert refs linked. induction cs as [|c cs IH]; intros refs linked; cbn [link_children].
  { exists [], []. split_and!; try done; [by rewrite app_nil_r|constructor|set_solver]. }
  destruct (0 <? default 0 (refs !! c))%nat eqn:Hc.
  { exists [], (c :: cs). split_and!; try done; [by rewrite app_nil_r|constructor|set_solver]. }
  specialize (IH (<[c := 1%nat]> refs) (linked ++ [c])).
  destruct (link_children cs (<[c:=1%nat]> refs) (linked ++ [c])) as [r [refs' linked']].
  destruct IH as (dn & rest & -> & -> & Hnd & Hz & Hr & Hres). exists (c :: dn), rest.
  assert (Hni : c ∉ dn). { intros Hin. specialize (Hz c Hin). rewrite lookup_insert_eq in Hz. done. }
  split_and!; [done|by rewrite <- app_assoc|by constructor| | |done].
  - intros x [->|Hx]%elem_of_cons; [lia|]. specialize (Hz x Hx). rewrite lookup_insert_ne in Hz; [done|]. by intros ->.
  - intros x. rewrite Hr. destruct (decide (x ∈ dn)) as [Hx|Hx].
    + rewrite decide_True by set_solver. done.
    + destruct (decide (x = c)) as [->|Hne].
      * rewrite decide_True by set_solver. by rewrite lookup_insert_eq.
      * rewrite decide_False by set_solver. by rewrite lookup_insert_ne.
Qed.

Lemma foldr_delete (refs : Refs) cs c : foldr delete refs cs !! c = if decide (c ∈ cs) then None else refs !! c.
Proof.
  induction cs as [|x cs IH]; cbn [foldr]; [by rewrite decide_False by set_solver|].
  destruct (decide (c = x)) as [->|Hne].
  - rewrite lookup_delete_eq. by rewrite decide_True by set_solver.
  - rewrite lookup_delete_ne, IH by done. repeat case_decide; set_solver.
Qed.

Lemma count_nodup c l : NoDup l -> count c l = if decide (c ∈ l) then 1%nat else 0%nat.
Proof.
  unfold count. induction 1 as [|x l Hx _ IH]; cbn [count_occ]; [by rewrite decide_False by set_solver|].
  rewrite IH. destruct (Cid_eq_dec x c) as [->|Hne].
  - rewrite decide_False by done. by rewrite decide_True by set_solver.
  - repeat case_decide; set_solver.
Qed.

Lemma for_each_key_from_data b prev es ks : for_each_key_from b prev es = Ok ks -> map fst ks = es.
Proof.
  revert b prev ks. induction es as [|ed es IH]; intros b prev ks; cbn [for_each_key_from]; [by intros [= <-]|].
  res_facts. intros (_ & _ & _ & _ & rest & Hrest & [= <-]). cbn. by rewrite (IH _ _ _ Hrest).
Qed.

(** What [populate_node] makes of a block. *)
Lemma populate_node_Ok n nd at_ n' : populate_node n nd at_ = Ok n' ->
  exists keys, for_each_key nd = Ok keys /\
    all_admitted at_ (option_list (snd <$> head keys) ++ option_list (snd <$> last keys)) = Ok () /\
    n' = let height := match head keys with Some (_, first) => height_for_key first | None => n_height n end in
         let stub_at (c : option Cid) := (fun cid => stub cid (Z.max 0 (height - 1))) <$> c in
         MkNode (stub_at (data_left nd))
           (map (fun x : EntryData * bytes => MkEntry x.2 (value x.1) (stub_at (data_right x.1))) keys)
           (n_cid n) height true.
Proof.
  unfold populate_node. intros (keys & Hk & Hr)%res_bind_Ok. apply res_bind_Ok in Hr as ([] & Ha & Hr).
  injection Hr as <-. by exists keys.
Qed.

Lemma populate_cids n nd at_ n' : n_loaded n = false -> populate_node n nd at_ = Ok n' ->
  cids n' ≡ₚ cids n ++ children nd.
Proof.
  intros Hl (keys & Hk & _ & ->)%populate_node_Ok. cbn zeta. set (h := match head keys with Some _ => _ | None => _ end).
  rewrite cids_eq by done. cbn [n_cid n_left n_entries].
  assert (Hn : cids n = option_list (n_cid n)) by (destruct n as [? ? ? ? []]; [done|]; cbn; by rewrite app_nil_r).
  rewrite Hn. apply Permutation_app_head. unfold children. apply Permutation_app; [by destruct (data_left nd)|].
  apply for_each_key_from_data in Hk. rewrite <- Hk. clearbody h. clear. induction keys as [|[ed k] keys IH]; [done|].
  cbn [map]. unfold entries_cids. cbn [map concat e_right]. cbn [omap list_omap fst].
  destruct (data_right ed); cbn; [by apply Permutation_skip|]. exact IH.
Qed.

Lemma populate_children n nd at_ n' i c : populate_node n nd at_ = Ok n' -> child n' i = Some c -> levels c = 1%nat.
Proof.
  intros (keys & _ & _ & ->)%populate_node_Ok. cbn zeta. unfold child. cbn [n_left n_entries]. destruct i as [|j]; cbn [slot].
  - destruct (data_left nd); [|done]. by intros [= <-].
  - intros (e & He & Hr)%bind_Some. rewrite list_lookup_fmap in He. apply fmap_Some in He as ([ed k] & _ & ->).
    cbn in Hr. destruct (data_right ed); [|done]. by injection Hr as <-.
Qed.

Lemma for_each_key_from_no_panic b prev es : no_panic (for_each_key_from b prev es).
Proof.
  revert b prev. induction es as [|ed es IH]; intros b prev; cbn [for_each_key_from]; [done|].
  repeat (apply no_panic_if; intros _). apply no_panic_bind; [apply IH|done].
Qed.

Lemma populate_node_no_panic n nd at_ : no_panic (populate_node n nd at_).
Proof.
  unfold populate_node. apply no_panic_bind; [apply for_each_key_from_no_panic|]. intros keys _.
  apply no_panic_bind; [|done]. induction (_ ++ _) as [|k ks IH]; [done|]. cbn. by apply no_panic_if.
Qed.

Lemma cbor_decode_no_panic data : no_panic (cbor_decode data).
Proof.
  unfold no_panic, cbor_decode. pose proof (safe_decode data new ltac:(cbn; lia)) as Hs.
  destruct (decode data new) as [[v|e|] s]; [|done|done]. by destruct (is_empty data s).
Qed.

Hypothesis src_no_panic : forall c, no_panic (src c).

(** What a loaded node needs of the fuel: enough for its subtrees. *)
Definition fuel_below (n : Node) (at_ : Place) (fuel : nat) : Prop :=
  forall i c, child n i = Some c -> (load_fuel c (child_place (n_entries n) i at_) < fuel)%nat.

Lemma load_ok at_ n refs : run_ok at_ (load src at_) n refs (fun n' absent =>
  match absent with
  | None => n_loaded n' = true /\ fuel_below n' at_ (load_fuel n at_)
  | Some c => n' = n /\ n_loaded n = false
  end).
Proof.
  unfold run_ok, load. destruct (n_loaded n) eqn:Hl.
  { split_and!; [constructor|apply kept_refl|done|]. intros i c Hc. pose proof (child_levels n i c Hc).
    unfold load_fuel, child_place. cbn [p_depth]. lia. }
  destruct (n_cid n) as [cid|] eqn:Hcid; [|split_and!; [constructor|apply kept_refl|done]].
  destruct (MAX_LEVELS <? p_depth at_)%nat eqn:Hd; [split_and!; [constructor|apply kept_refl|done]|].
  pose proof (src_no_panic cid) as Hnp.
  destruct (src cid) as [[data|]|e|] eqn:Hs.
  2-3: by (split; [constructor|split; [apply kept_refl|]]).
  2: done.
  cbn [mbind res_bind].  pose proof (decode_node_data_no_panic data (cbor_decode_no_panic data)) as Hdp.
  destruct (decode_node_data data) as [nd|e|] eqn:Hdec; cbn [mbind res_bind]; [|split_and!; [constructor|apply kept_refl|done]|done].
  pose proof (link_children_spec (children nd) refs []) as Hlink.
  destruct (link_children (children nd) refs []) as [r [refs' linked]].
  destruct Hlink as (dn & rest & Hch & -> & Hnd & Hz & Hr & Hres). cbn [app].
  assert (Hundo : kept (cids n) (cids n) refs (foldr delete refs' dn)).
  { split.
    - intros c. rewrite foldr_delete, Hr. destruct (decide (c ∈ dn)) as [Hin|]; [|done]. cbn. rewrite (Hz c Hin). done.
    - intros H0' c. rewrite foldr_delete, Hr. by destruct (decide (c ∈ dn)). }
  destruct r as [[]|e|]; cbn [mbind res_bind]; [|split_and!; [constructor|done|done]|done].
  subst rest. rewrite app_nil_r in Hch.
  pose proof (populate_node_no_panic n nd at_) as Hpp.
  destruct (populate_node n nd at_) as [n'|e|] eqn:Hpop; [|split_and!; [constructor|done|done]|done].
  split_and!.
  - apply rtc_once. eapply step_load; [done|done|lia|done|done|done].
  - pose proof (populate_cids n nd at_ n' Hl Hpop) as Hp. rewrite perm_count in Hp. split.
    + intros c. specialize (Hp c). rewrite count_app, Hch, (count_nodup c dn Hnd) in Hp. rewrite Hr.
      specialize (Hz c). destruct (decide (c ∈ dn)) as [Hin|]; [rewrite (Hz Hin)|]; cbn; lia.
    + intros H0' c. rewrite Hr. by destruct (decide (c ∈ dn)).
  - by apply populate_node_Ok in Hpop as (keys & _ & _ & ->).
  - intros i c Hc. pose proof (populate_children n nd at_ n' i c Hpop Hc) as Hlev. unfold load_fuel, child_place.
    cbn [p_depth]. rewrite Hlev. assert (1 <= levels n)%nat by (destruct n; cbn; lia). unfold MAX_LEVELS in *. lia.
Qed.

Lemma load_fuel_pos n at_ : (0 < load_fuel n at_)%nat.
Proof. unfold load_fuel. destruct n. cbn. lia. Qed.

Lemma ensure_loaded_ok at_ n refs : run_ok at_ (ensure_loaded src at_) n refs (fun n' _ =>
  n_loaded n' = true /\ fuel_below n' at_ (load_fuel n at_)).
Proof.
  eapply run_ok_bind; [apply load_ok|]. intros n' refs' [c|] _ Hq; [by split; [constructor|split; [apply kept_refl|]]|].
  by apply run_ok_ret.
Qed.

Lemma the_node_ok {B} at_ (f : Node -> loading B) n refs Q :
  run_ok at_ (f n) n refs Q -> run_ok at_ (n ← the_node; f n) n refs Q.
Proof. done. Qed.

Lemma search_keys (es es' : list Entry) key : map e_key es = map e_key es' -> search es key = search es' key.
Proof.
  revert es'. induction es as [|e es IH]; intros [|e' es'] Hk; try done. cbn in *. injection Hk as He Hes.
  by rewrite He, (IH es').
Qed.

Lemma search_set_child n i c key : search (n_entries (set_child n i c)) key = search (n_entries n) key.
Proof. apply search_keys, set_child_keys. Qed.

Lemma set_child_loaded n i c : n_loaded (set_child n i c) = n_loaded n.
Proof. apply set_child_fields. Qed.

(** ** [get_node] *)

(** The value of a key in a tree whose search path is loaded. *)
Inductive finds (key : bytes) : Node -> option Cid -> Prop :=
| finds_here n i e : n_loaded n = true -> search (n_entries n) key = (i, true) -> n_entries n !! i = Some e ->
    finds key n (Some (e_val e))
| finds_none n i : n_loaded n = true -> search (n_entries n) key = (i, false) -> child n i = None -> finds key n None
| finds_below n i c v : n_loaded n = true -> search (n_entries n) key = (i, false) -> child n i = Some c ->
    finds key c v -> finds key n v.

Lemma get_node_ok fuel key at_ n refs : (load_fuel n at_ <= fuel)%nat ->
  run_ok at_ (get_node fuel src key at_) n refs (finds key).
Proof.
  revert at_ n refs. induction fuel as [|fuel IH]; intros at_ n refs Hf; [pose proof (load_fuel_pos n at_); lia|].
  cbn [get_node]. eapply run_ok_bind; [apply ensure_loaded_ok|]. intros n1 refs1 [] _ [Hl Hb]. apply the_node_ok.
  destruct (search (n_entries n1) key) as [i [|]] eqn:Hs.
  - apply run_ok_ret. pose proof (search_spec _ _ _ _ Hs) as (_ & _ & e & He & _). rewrite He. by eapply finds_here.
  - apply on_child_ok; [done|by eapply finds_none|]. intros c Hc. pose proof (Hb i c Hc).
    eapply run_ok_weaken; [apply IH; lia|]. intros c' v _ Hv. cbn beta.
    eapply (finds_below key _ i c'); [by rewrite set_child_loaded|by rewrite search_set_child| |done].
    apply child_set_child. by eapply child_le.
Qed.

(** ** [visit_root_chain] *)

Lemma no_entries_set_child n i c : no_entries (set_child n i c) = no_entries n.
Proof.
  unfold no_entries. pose proof (set_child_keys n i c) as Hk. destruct (n_entries (set_child n i c)), (n_entries n); done.
Qed.

Lemma no_entries_true n : no_entries n = true <-> n_entries n = [].
Proof. unfold no_entries. by destruct (n_entries n). Qed.

Lemma visit_root_chain_ok fuel at_ chain n refs : (load_fuel n at_ <= fuel)%nat ->
  run_ok at_ (visit_root_chain fuel src at_ chain) n refs (fun n' missing =>
    missing = [] -> chain = true -> top_ready (Some n')).
Proof.
  revert at_ chain n refs. induction fuel as [|fuel IH]; intros at_ chain n refs Hf; [pose proof (load_fuel_pos n at_); lia|].
  cbn [visit_root_chain]. destruct chain; cbn [negb]; [|by apply run_ok_ret].
  eapply run_ok_bind; [apply load_ok|]. intros n1 refs1 [cid|] _; [intros [-> Hl]|intros [Hl Hb]]; apply the_node_ok.
  - apply run_ok_ret. destruct (Z.eqb_spec (n_height n) 0) as [Hh|]; [|done]. intros _ _. by apply top_leaf.
  - apply on_child_ok; [done| |].
    + intros Hc _ _. destruct (n_entries n1) as [|e es] eqn:He; [|by apply top_entries; [|rewrite He]].
      apply top_chain; [done..|]. unfold child in Hc. cbn in Hc. rewrite Hc. apply top_none.
    + intros c Hc. pose proof (Hb 0%nat c Hc). eapply run_ok_weaken; [apply IH; lia|]. intros c' ms _ Hq Hms _.
      pose proof (no_entries_set_child n1 0 (Some c')) as Hne. unfold no_entries in Hne at 2. fold (no_entries n1) in Hne.
      destruct (no_entries n1) eqn:He.
      * apply top_chain; [by rewrite set_child_loaded|by apply no_entries_true|].
        replace (n_left (set_child n1 0 (Some c'))) with (Some c') by (by destruct n1). apply Hq; [done|exact He].
      * apply top_entries; [by rewrite set_child_loaded|]. intros Hn%no_entries_true. congruence.
Qed.

(** ** [visit_merge] *)

Definition loads_of (at_ : Place) (o o' : option Node) : Prop :=
  match o, o' with Some n, Some n' => loads at_ n n' | None, None => True | _, _ => False end.

Definition merge_ok {A} (left_at right_at : Place) (m : merging A) (l r : option Node) (refs : Refs)
    (Q : option Node -> option Node -> A -> Prop) : Prop :=
  let '(a, (l', r', refs')) := m (l, r, refs) in
  loads_of left_at l l' /\ loads_of right_at r r' /\
  kept (cids_of l ++ cids_of r) (cids_of l' ++ cids_of r') refs refs' /\
  match a with Ok a => Q l' r' a | Err _ => True | Panic => False end.

Lemma loads_of_refl at_ o : loads_of at_ o o.
Proof. destruct o; [constructor|done]. Qed.

Lemma loads_of_trans at_ a b c : loads_of at_ a b -> loads_of at_ b c -> loads_of at_ a c.
Proof. destruct a, b, c; cbn; try done. by etrans. Qed.

Lemma merge_ok_bind {A B} la ra (m : merging A) (f : A -> merging B) l r refs Q R :
  merge_ok la ra m l r refs Q ->
  (forall l' r' refs' a, Q l' r' a -> merge_ok la ra (f a) l' r' refs' R) ->
  merge_ok la ra (m ≫= f) l r refs R.
Proof.
  unfold merge_ok. unfold mbind, st_bind. destruct (m (l, r, refs)) as [[a|e|] [[l' r'] refs']]; intros (Hl & Hr & Hk & Hq) Hf; [|done..].
  specialize (Hf l' r' refs' a Hq). destruct (f a (l', r', refs')) as [x [[l2 r2] refs2]]. destruct Hf as (Hl2 & Hr2 & Hk2 & Hq2).
  split_and!; [by eapply loads_of_trans|by eapply loads_of_trans|by eapply kept_trans|done].
Qed.

Lemma merge_ok_ret {A} la ra (a : A) l r refs (Q : option Node -> option Node -> A -> Prop) :
  Q l r a -> merge_ok la ra (mret a) l r refs Q.
Proof. intros Hq. split_and!; [apply loads_of_refl..|apply kept_refl|done]. Qed.

Lemma merge_ok_gets la ra l r refs :
  merge_ok la ra (gets fst) l r refs (fun l' r' s => l' = l /\ r' = r /\ s = (l, r)).
Proof. split; [apply loads_of_refl|split; [apply loads_of_refl|split; [apply kept_refl|done]]]. Qed.

Lemma merge_ok_weaken {A} la ra (m : merging A) l r refs (Q R : option Node -> option Node -> A -> Prop) :
  merge_ok la ra m l r refs Q -> (forall l' r' a, Q l' r' a -> R l' r' a) -> merge_ok la ra m l r refs R.
Proof.
  unfold merge_ok. destruct (m (l, r, refs)) as [[a|e|] [[l' r'] refs']]; intros (Hl & Hr & Hk & Hq) Hw; split_and!; auto.
Qed.

Lemma on_left_ok {A} la ra (none : A) m n r refs Q : run_ok la m n refs Q ->
  merge_ok la ra (on_left none m) (Some n) r refs (fun l' r' a => exists n', l' = Some n' /\ r' = r /\ Q n' a).
Proof.
  unfold run_ok, merge_ok, on_left. destruct (m (n, refs)) as [x [n' refs']]. intros (Hl & [Hk Hz] & Hq).
  split_and!; [done|apply loads_of_refl| |destruct x; naive_solver]. split; [|done]. intros c. specialize (Hk c).
  rewrite !count_app. cbn [cids_of opt_map]. lia.
Qed.

Lemma on_right_ok {A} la ra (none : A) m n l refs Q : run_ok ra m n refs Q ->
  merge_ok la ra (on_right none m) l (Some n) refs (fun l' r' a => exists n', l' = l /\ r' = Some n' /\ Q n' a).
Proof.
  unfold run_ok, merge_ok, on_right. destruct (m (n, refs)) as [x [n' refs']]. intros (Hl & [Hk Hz] & Hq).
  split_and!; [apply loads_of_refl|done| |destruct x; naive_solver]. split; [|done]. intros c. specialize (Hk c).
  rewrite !count_app. cbn [cids_of opt_map]. lia.
Qed.

Lemma child_set_child_ne n i j c : i <> j -> child (set_child n i c) j = child n j.
Proof.
  intros Hne. destruct n as [l es cd h ld], i as [|i], j as [|j]; unfold child; cbn; try done.
  by rewrite list_lookup_alter_ne by congruence.
Qed.

(** A subtree put back. *)
Definition put_back (n : Node) (i : nat) (c : option Node) : Node :=
  match c with Some _ => set_child n i c | None => n end.

Lemma put_back_spec at_ n i c : n_loaded n = true -> loads_of (child_place (n_entries n) i at_) (child n i) c ->
  let n' := put_back n i c in
  loads at_ n n' /\ child n' i = c /\ n_loaded n' = true /\ map e_key (n_entries n') = map e_key (n_entries n) /\
  (forall x, count x (cids n') + count x (cids_of (child n i)) = count x (cids n) + count x (cids_of c))%nat /\
  forall j, j <> i -> child n' j = child n j.
Proof.
  intros Hl Hs. unfold put_back. destruct (child n i) as [c0|] eqn:Hc, c as [c'|]; try done; cbn [loads_of] in Hs.
  pose proof (child_le _ _ _ Hc) as Hi. split_and!.
  - by eapply loads_child.
  - by apply child_set_child.
  - by rewrite set_child_loaded.
  - apply set_child_keys.
  - intros x. pose proof (cids_set_child n i (Some c') Hl Hi) as Hp. rewrite perm_count in Hp. specialize (Hp x).
    rewrite Hc, !count_app in Hp. exact Hp.
  - intros j Hj. by apply child_set_child_ne.
Qed.

Lemma on_edges_ok {A} la ra l r i j (m : merging A) refs Q : n_loaded l = true -> n_loaded r = true ->
  merge_ok (child_place (n_entries l) i la) (child_place (n_entries r) j ra) m (child l i) (child r j) refs Q ->
  merge_ok la ra (on_edges l r i j m) (Some l) (Some r) refs (fun l' r' a => exists l1 r1, l' = Some l1 /\ r' = Some r1 /\
    n_loaded l1 = true /\ n_loaded r1 = true /\ map e_key (n_entries l1) = map e_key (n_entries l) /\
    map e_key (n_entries r1) = map e_key (n_entries r) /\ Q (child l1 i) (child r1 j) a).
Proof.
  intros Hl Hr. unfold merge_ok, on_edges. destruct (m (child l i, child r j, refs)) as [a [[lc rc] refs']].
  intros (Hll & Hlr & [Hk Hz] & Hq).
  destruct (put_back_spec la l i lc Hl Hll) as (S1 & C1 & L1 & K1 & N1 & _).
  destruct (put_back_spec ra r j rc Hr Hlr) as (S2 & C2 & L2 & K2 & N2 & _).
  unfold put_back in *. split_and!; [done..| |].
  - split; [|done]. intros x. specialize (Hk x). specialize (N1 x). specialize (N2 x). rewrite !count_app in *.
    cbn [cids_of opt_map]. lia.
  - destruct a as [a|e|]; [|done..]. eexists _, _. split_and!; [done..|]. by rewrite C1, C2.
Qed.

Lemma no_entries_keys n n' : map e_key (n_entries n') = map e_key (n_entries n) -> no_entries n' = no_entries n.
Proof. unfold no_entries. by destruct (n_entries n'), (n_entries n). Qed.

Lemma keys_length n n' : map e_key (n_entries n') = map e_key (n_entries n) -> length (n_entries n') = length (n_entries n).
Proof. intros Hk. apply (f_equal length) in Hk. by rewrite !length_map in Hk. Qed.

Definition fuel_for (at_ : Place) (o : option Node) (fuel : nat) : Prop :=
  forall n, o = Some n -> (load_fuel n at_ < fuel)%nat.

Lemma visit_merge_ok fuel la ra chain l r refs : (0 < fuel)%nat -> fuel_for la l fuel -> fuel_for ra r fuel ->
  merge_ok la ra (visit_merge fuel src la ra chain) l r refs (fun l' r' missing => missing = [] -> merge_ready chain l' r').
Proof.
  revert la ra chain l r refs. induction fuel as [|fuel IH]; intros la ra chain l r refs Hpos Hfl Hfr; [lia|].
  cbn [visit_merge]. eapply merge_ok_bind; [apply merge_ok_gets|].
  intros ? ? refs1 ? (-> & -> & ->).
  destruct l as [l|], r as [r|].
  - eapply merge_ok_bind; [apply on_left_ok, load_ok|].
    intros ? ? refs2 al (l1 & -> & -> & Hal).
    eapply merge_ok_bind; [apply on_right_ok, load_ok|].
    intros ? ? refs3 ar (r1 & -> & -> & Har).
    destruct al as [c|]; [by apply merge_ok_ret|]. destruct ar as [c|]; [by apply merge_ok_ret|].
    cbn [option_list app]. destruct Hal as [Hl Hbl], Har as [Hr Hbr].
    eapply merge_ok_bind; [apply merge_ok_gets|]. intros ? ? refs4 ? (-> & -> & ->). fold (no_entries l1) (no_entries r1).
    set (last := length (n_entries l1)).
    specialize (Hfl l eq_refl). specialize (Hfr r eq_refl).
    eapply merge_ok_weaken; [apply on_edges_ok; [done..|apply IH]|].
    + pose proof (load_fuel_pos l la). lia.
    + intros c Hc. pose proof (Hbl last c Hc). lia.
    + intros c Hc. pose proof (Hbr 0%nat c Hc). lia.
    + intros ? ? ms (l2 & r2 & -> & -> & Hl2 & Hr2 & Hkl & Hkr & Hq) Hms. apply merge_both; [done..|].
      rewrite (no_entries_keys _ _ Hkl), (no_entries_keys _ _ Hkr), (keys_length _ _ Hkl). by apply Hq.
  - specialize (Hfl l eq_refl). eapply merge_ok_weaken.
    + apply on_left_ok. apply visit_root_chain_ok. lia.
    + intros ? ? ms (l1 & -> & -> & Hq) Hms. apply merge_left. auto.
  - specialize (Hfr r eq_refl). eapply merge_ok_weaken.
    + apply on_right_ok. apply visit_root_chain_ok. lia.
    + intros ? ? ms (r1 & -> & -> & Hq) Hms. apply merge_right. auto.
  - apply merge_ok_ret. intros _. apply merge_none.
Qed.

(** ** [visit_key_path] *)

Lemma on_neighbours_ok {A} at_ n i (m : merging A) refs Q : n_loaded n = true ->
  merge_ok (child_place (n_entries n) i at_) (child_place (n_entries n) (S i) at_) m (child n i) (child n (S i)) refs Q ->
  run_ok at_ (on_neighbours i m) n refs (fun n' a =>
    n_loaded n' = true /\ map e_key (n_entries n') = map e_key (n_entries n) /\ Q (child n' i) (child n' (S i)) a).
Proof.
  intros Hl. unfold merge_ok, run_ok, on_neighbours. destruct (m (child n i, child n (S i), refs)) as [a [[lc rc] refs']].
  intros (Hll & Hlr & [Hk Hz] & Hq).
  destruct (put_back_spec at_ n i lc Hl Hll) as (S1 & C1 & L1 & K1 & N1 & O1).
  rewrite <- (O1 (S i)) in Hlr by lia.
  rewrite (child_place_keys (n_entries n) (n_entries (put_back n i lc))) in Hlr by done.
  destruct (put_back_spec at_ (put_back n i lc) (S i) rc L1 Hlr) as (S2 & C2 & L2 & K2 & N2 & O2).
  fold (put_back n i lc). fold (put_back (put_back n i lc) (S i) rc). split_and!; [by etrans| |].
  - split; [|done]. intros x. specialize (Hk x). specialize (N1 x). specialize (N2 x). rewrite (O1 (S i)) in N2 by lia.
    rewrite !count_app in *. lia.
  - destruct a as [a|e|]; [|done..]. split_and!; [done|congruence|]. rewrite C2, O2, C1 by lia. done.
Qed.

Lemma visit_key_path_ok fuel key visit top at_ n refs : (load_fuel n at_ < fuel)%nat ->
  run_ok at_ (visit_key_path fuel src key visit top at_) n refs (fun n' missing => missing = [] ->
    match visit with Lookup => path_ready key n' | Remove => remove_ready key top n' end).
Proof.
  revert top at_ n refs. induction fuel as [|fuel IH]; intros top at_ n refs Hf; [lia|].
  cbn [visit_key_path]. eapply run_ok_bind; [apply load_ok|]. intros n1 refs1 [cid|] _; [intros _; by apply run_ok_ret|].
  intros [Hl Hb]. apply the_node_ok. destruct (search (n_entries n1) key) as [i [|]] eqn:Hs.
  - case_bool_decide as Hv.
    + subst visit. apply run_ok_ret. intros _. by eapply ready_found.
    + destruct visit; [done|]. eapply run_ok_weaken.
      * apply on_neighbours_ok; [done|]. apply visit_merge_ok.
        -- pose proof (load_fuel_pos n at_). lia.
        -- intros c Hc. pose proof (Hb i c Hc). lia.
        -- intros c Hc. pose proof (Hb (S i) c Hc). lia.
      * intros n2 ms _ (Hl2 & Hk2 & Hq) Hms. specialize (Hq Hms).
        assert (Hs2 : search (n_entries n2) key = (i, true)) by (by rewrite (search_keys _ _ _ Hk2)).
        pose proof (search_spec _ _ _ _ Hs2) as (_ & _ & e & He & _).
        apply (remove_found _ _ _ i e); [done..|]. rewrite (keys_length _ _ Hk2).
        unfold child at 2 in Hq. cbn [slot] in Hq. by rewrite He in Hq.
  - apply on_child_ok; [done| |].
    + intros Hc _. destruct visit; [by eapply ready_end|by eapply remove_end].
    + intros c Hc. pose proof (Hb i c Hc). eapply run_ok_weaken; [apply IH; lia|].
      intros c' ms _ Hq Hms. specialize (Hq Hms). assert (Hc' : child (set_child n1 i (Some c')) i = Some c').
      { apply child_set_child. by eapply child_le. }
      destruct visit.
      * eapply ready_down; [by rewrite set_child_loaded|by rewrite search_set_child|done..].
      * eapply remove_down; [by rewrite set_child_loaded|by rewrite search_set_child|done|].
        by rewrite no_entries_set_child.
Qed.
End Steps.

(** Every node is in memory. *)
Inductive full : Node -> Prop :=
| full_intro n : n_loaded n = true -> (forall i c, child n i = Some c -> full c) -> full n.

Section Walk.
Context `{Sha2} `{Simdutf8} `{Stubs} (src : Cid -> res MstError (option bytes)).
Hypothesis src_no_panic : forall c, no_panic (src c).
Context {S : Type} (f : bytes -> Cid -> st S MstError ()).
Hypothesis f_no_panic : forall k v s, (f k v s).1 <> Panic.

(** The calls of the closure on a list of entries. *)
Definition calls (l : kvs) : st S MstError () := for_each (fun e => f e.1 e.2) l.

Lemma for_each_app {A} (g : A -> st S MstError ()) l k s : for_each g (l ++ k) s = (_ ← for_each g l; for_each g k) s.
Proof.
  revert s. induction l as [|a l IH]; intros s; [done|]. cbn [app for_each].
  rewrite st_bind_assoc. unfold mbind, st_bind. destruct (g a s) as [[[]|e|] s']; [|done..].
  specialize (IH s'). unfold mbind, st_bind in IH. exact IH.
Qed.

Lemma calls_app l k s s' s'' : calls l s = (Ok (), s') -> calls k s' = (Ok (), s'') -> calls (l ++ k) s = (Ok (), s'').
Proof. unfold calls. intros Hl Hk. rewrite for_each_app. by rewrite (st_bind_run _ _ _ _ _ Hl). Qed.

Definition walk_ok {A} (at_ : Place) (m : st (Node * Refs * S) MstError A) (n : Node) (refs : Refs) (s : S)
    (Q : Node -> S -> A -> Prop) : Prop :=
  let '(r, (n', refs', s')) := m (n, refs, s) in
  loads src at_ n n' /\ kept (cids n) (cids n') refs refs' /\
  match r with Ok a => Q n' s' a | Err _ => True | Panic => False end.

Lemma walk_ok_bind {A B} at_ (m : st (Node * Refs * S) MstError A) (g : A -> st (Node * Refs * S) MstError B) n refs s Q R :
  walk_ok at_ m n refs s Q ->
  (forall n' refs' s' a, Q n' s' a -> walk_ok at_ (g a) n' refs' s' R) ->
  walk_ok at_ (m ≫= g) n refs s R.
Proof.
  unfold walk_ok, mbind, st_bind. destruct (m (n, refs, s)) as [[a|e|] [[n' refs'] s']]; intros (Hl & Hk & Hq) Hf; [|done..].
  specialize (Hf n' refs' s' a Hq). destruct (g a (n', refs', s')) as [r [[n2 refs2] s2]]. destruct Hf as (Hl2 & Hk2 & Hq2).
  split_and!; [by etrans|by eapply kept_trans|done].
Qed.

Lemma walk_ok_stay {A} at_ (r : res MstError A) n refs s (Q : Node -> S -> A -> Prop) :
  match r with Ok a => Q n s a | Err _ => True | Panic => False end ->
  walk_ok at_ (fun x => (r, x)) n refs s Q.
Proof. intros Hq. split; [constructor|split; [apply kept_refl|done]]. Qed.

Lemma on_tree_ok {A} at_ (m : loading A) n refs s Q : run_ok src at_ m n refs Q ->
  walk_ok at_ (on_tree m) n refs s (fun n' s' a => s' = s /\ Q n' a).
Proof.
  unfold run_ok, walk_ok, on_tree. destruct (m (n, refs)) as [r [n' refs']]. intros (Hl & Hk & Hq).
  split_and!; [done..|]. by destruct r.
Qed.

(** What the closure has been called on before slot [i]. *)
Definition walked (n : Node) (i : nat) : kvs :=
  match i with O => [] | Datatypes.S j => before n j ++ contents_of (child n j) end.

Lemma before_step n i e : n_entries n !! i = Some e ->
  before n (Datatypes.S i) = before n i ++ contents_of (child n i) ++ [kv e].
Proof.
  intros He. unfold before. rewrite He. destruct i as [|j]; [done|].
  assert (Hj : (j < length (n_entries n))%nat) by (apply lookup_lt_Some in He; lia).
  apply lookup_lt_is_Some in Hj as [d Hd]. rewrite Hd. unfold child. cbn [slot]. rewrite Hd. cbn [mbind option_bind].
  rewrite (take_S_r _ _ d Hd), entries_contents_app, entries_contents_cons. cbn [entries_contents map concat].
  rewrite app_nil_r. by rewrite <- !app_assoc.
Qed.

Lemma walked_before n i : (i <= length (n_entries n))%nat ->
  before n i = walked n i ++ match entry_before n i with Some e => [kv e] | None => [] end.
Proof.
  destruct i as [|j]; [done|]. intros [e He]%lookup_lt_is_Some. cbn [walked entry_before]. rewrite He.
  by rewrite (before_step n j e He), app_assoc.
Qed.

Lemma call_ok at_ e n refs s Q :
  (forall s', calls (match e with Some e => [kv e] | None => [] end) s = (Ok (), s') -> Q n s' ()) ->
  walk_ok at_ (call f e) n refs s Q.
Proof.
  intros Hq. unfold walk_ok, call. destruct e as [e|].
  - pose proof (f_no_panic (e_key e) (e_val e) s) as Hp. unfold calls in Hq. cbn [for_each kv fst snd] in Hq.
    unfold mbind, st_bind in Hq. destruct (f (e_key e) (e_val e) s) as [[[]|x|] s']; [|by split; [constructor|split; [apply kept_refl|]]|done].
    split; [constructor|split; [apply kept_refl|]]. by apply Hq.
  - split; [constructor|split; [apply kept_refl|]]. by apply Hq.
Qed.

Lemma on_child_walk_ok at_ i m n refs s Q : n_loaded n = true ->
  (child n i = None -> Q n s ()) ->
  (forall c, child n i = Some c -> walk_ok (child_place (n_entries n) i at_) m c refs s (fun c' s' _ => Q (set_child n i (Some c')) s' ())) ->
  walk_ok at_ (on_child_walk i m) n refs s Q.
Proof.
  intros Hl Hnone Hsome. unfold walk_ok, on_child_walk. destruct (child n i) as [c|] eqn:Hc.
  - specialize (Hsome c eq_refl). unfold walk_ok in Hsome. destruct (m (c, refs, s)) as [r [[c' refs'] s']].
    destruct Hsome as (Hs & [Hk Hz] & Hq). split_and!; [by eapply loads_child| |by destruct r as [[]| |]].
    pose proof (cids_set_child n i (Some c') Hl (child_le n i c Hc)) as Hp. rewrite Hc, perm_count in Hp.
    split; [|done]. intros x. specialize (Hp x). specialize (Hk x). rewrite !count_app in Hp. cbn [cids_of opt_map] in Hp. lia.
  - split; [constructor|split; [apply kept_refl|auto]].
Qed.

(** Slots up to [i] are done: their subtrees are left as [P] says, and the
    closure was called on what lies before slot [i]. *)
Definition progress (P : Node -> Prop) (n0 : Node) (s0 : S) (n : Node) (i : nat) (s : S) : Prop :=
  n_loaded n = true /\ map e_key (n_entries n) = map e_key (n_entries n0) /\
  (forall j c, (j < i)%nat -> child n j = Some c -> P c) /\
  (forall j, (i <= j)%nat -> child n j = child n0 j) /\
  calls (walked n i) s0 = (Ok (), s).

Lemma before_set_child n i c : before (set_child n i c) i = before n i.
Proof.
  destruct n as [l es cd h ld], i as [|j]; [done|]. unfold before. cbn [set_child set_entries n_left n_entries].
  rewrite take_alter_ge, list_lookup_alter_eq by lia. by destruct (es !! j).
Qed.

Lemma entry_before_kv n n' i : map kv (n_entries n) = map kv (n_entries n') ->
  (kv <$> entry_before n i) = (kv <$> entry_before n' i).
Proof.
  intros Hk. destruct i as [|j]; [done|]. cbn [entry_before]. pose proof (f_equal (fun l => l !! j) Hk) as Hj.
  by rewrite !list_lookup_fmap in Hj.
Qed.

Definition walk_body (rec : Place -> st (Node * Refs * S) MstError ()) (at_ : Place) (n0 : Node) (i : nat) : st (Node * Refs * S) MstError () :=
  _ ← call f (entry_before n0 i); on_child_walk i (rec (child_place (n_entries n0) i at_)).

Lemma walk_loop_ok P rec at_ n0 s0 :
  (forall i c refs s, child n0 i = Some c -> walk_ok (child_place (n_entries n0) i at_) (rec (child_place (n_entries n0) i at_)) c refs s
     (fun c' s' _ => P c' /\ calls (contents c') s = (Ok (), s'))) ->
  forall k i n refs s, (i + k = Datatypes.S (length (n_entries n0)))%nat -> map kv (n_entries n) = map kv (n_entries n0) ->
  progress P n0 s0 n i s ->
  walk_ok at_ (for_each (walk_body rec at_ n0) (seq i k)) n refs s (fun n' s' _ =>
    map kv (n_entries n') = map kv (n_entries n0) /\ progress P n0 s0 n' (Datatypes.S (length (n_entries n0))) s').
Proof.
  intros Hrec. induction k as [|k IH]; intros i n refs s Hik Hkv Hp; cbn [seq for_each].
  { apply walk_ok_stay. rewrite Nat.add_0_r in Hik. by subst i. }
  destruct Hp as (Hl & Hk & Hfull & Hsame & Hs).
  assert (Hlen : length (n_entries n) = length (n_entries n0)) by (by apply keys_length).
  eapply (walk_ok_bind _ _ _ _ _ _ (fun n' s' _ => map kv (n_entries n') = map kv (n_entries n0) /\ progress P n0 s0 n' (Datatypes.S i) s')).
  2: { intros n' refs' s' [] [Hkv' Hp']. apply IH; [lia|done..]. }
  unfold walk_body. eapply (walk_ok_bind _ _ _ _ _ _ (fun n' s' _ => n' = n /\ calls (before n i) s0 = (Ok (), s'))).
  { apply call_ok. intros s' Hc. split; [done|]. rewrite walked_before by lia. eapply calls_app; [exact Hs|].
    pose proof (entry_before_kv _ _ i Hkv) as He. revert Hc He.
    destruct (entry_before n i) as [e|], (entry_before n0 i) as [e0|]; cbn [fmap option_fmap option_map]; try done.
    intros Hc He. by assert (kv e = kv e0) as -> by congruence. }
  intros ? refs' s' [] [-> Hb]. apply on_child_walk_ok; [done| |].
  - intros Hc. split; [done|]. split_and!; [done..| | |].
    + intros j c Hj Hcj. destruct (decide (j = i)) as [->|]; [congruence|]. apply (Hfull j); [lia|done].
    + intros j Hj. apply Hsame. lia.
    + cbn [walked]. rewrite Hc. cbn [contents_of opt_map]. by rewrite app_nil_r.
  - intros c Hc. rewrite (child_place_keys (n_entries n) (n_entries n0)) by done.
    rewrite (Hsame i) in Hc by lia. specialize (Hrec i c refs' s' Hc).
    unfold walk_ok in *. destruct (rec _ (c, refs', s')) as [[[]|e|] [[c' refs''] s'']]; [|done..].
    destruct Hrec as (Hlo & Hke & Hf & Hcalls). split_and!; [done..| |].
    + rewrite <- Hkv. destruct n as [l es cd h ld], i as [|j]; [done|]. cbn. clear.
      revert j. induction es as [|e es IH]; intros [|j]; cbn; [done..|]. f_equal. apply IH.
    + assert (Hci : child n i = Some c) by (by rewrite (Hsame i) by lia).
      assert (Hc' : child (set_child n i (Some c')) i = Some c') by (apply child_set_child; by eapply child_le).
      split_and!.
      * by rewrite set_child_loaded.
      * by rewrite set_child_keys.
      * intros j d Hj Hcj. destruct (decide (j = i)) as [->|]; [by simplify_eq|].
        rewrite child_set_child_ne in Hcj by done. apply (Hfull j); [lia|done].
      * intros j Hj. rewrite child_set_child_ne by lia. apply Hsame. lia.
      * cbn [walked]. rewrite before_set_child, Hc'. by eapply calls_app.
Qed.

Lemma full_of_slots n : n_loaded n = true ->
  (forall j c, (j < Datatypes.S (length (n_entries n)))%nat -> child n j = Some c -> full c) -> full n.
Proof. intros Hl Hf. constructor; [done|]. intros i c Hc. apply (Hf i); [|done]. pose proof (child_le _ _ _ Hc). lia. Qed.

(** [walk_node] calls the closure on the contents, once everything is loaded. *)
Lemma walk_node_ok fuel at_ n refs s : (load_fuel n at_ <= fuel)%nat ->
  walk_ok at_ (walk_node fuel src f at_) n refs s (fun n' s' _ => full n' /\ calls (contents n') s = (Ok (), s')).
Proof.
  revert at_ n refs s. induction fuel as [|fuel IH]; intros at_ n refs s Hf; [pose proof (load_fuel_pos n at_); lia|].
  cbn [walk_node]. eapply walk_ok_bind; [apply on_tree_ok, ensure_loaded_ok; done|].
  intros n1 refs1 s1 [] (-> & Hl & Hb).
  eapply (walk_ok_bind _ _ _ _ _ _ (fun n' s' a => n' = n1 /\ s' = s /\ a = n1)); [by apply walk_ok_stay|].
  intros ? refs2 ? ? (-> & -> & ->).
  change (walk_ok at_ (for_each (walk_body (walk_node fuel src f) at_ n1) (seq 0 (Datatypes.S (length (n_entries n1))))) n1 refs2 s
    (fun n' s' _ => full n' /\ calls (contents n') s = (Ok (), s'))).
  pose proof (walk_loop_ok full (walk_node fuel src f) at_ n1 s) as Hloop.
  specialize (Hloop ltac:(intros i c r' s' Hc; pose proof (Hb i c Hc); apply IH; lia)
    (Datatypes.S (length (n_entries n1))) 0%nat n1 refs2 s eq_refl eq_refl).
  assert (Hp : progress full n1 s n1 0 s) by (split_and!; [done..|lia|done|done]). specialize (Hloop Hp).
  unfold walk_ok in *. destruct (for_each _ _ _) as [[[]|e|] [[n' refs'] s']]; [|done..].
  destruct Hloop as (Hlo & Hke & Hkv & Hl' & Hk' & Hfull & _ & Hcalls). split_and!; [done..| |].
  - apply full_of_slots; [done|]. intros j c. rewrite (keys_length _ _ Hk'). apply Hfull.
  - cbn [walked] in Hcalls. rewrite <- (keys_length _ _ Hk') in Hcalls. rewrite (contents_cut n' (length (n_entries n'))) by done.
    unfold after. rewrite drop_ge by done. cbn [entries_contents map concat]. by rewrite app_nil_r.
Qed.
End Walk.
