(* ===== verification/MstLoaded.v ===== *)
(** What loading means. From a source that serves the blocks of a tree, it
    changes neither the contents nor the shape; from any source at all, the
    keys in memory stay in order and in their places. *)
From S2P Require Import CborEncode Prelude StateError SyntaxError CborError Cid CborDecode CborCodec MstHeight SortedMap MstNode MstTree MstShape MstMutate MstRemove MstFlush MstLoad MstLoadSpec.

(** ** Keys from a block *)

(** Whatever [for_each_key] accepts of a compressed list are its keys. *)
Lemma for_each_key_compress b prev es ks : for_each_key_from b prev (compress prev es) = Ok ks ->
  map snd ks = map (fun e => e.1.1) es.
Proof.
  revert b prev ks. induction es as [|[[k v] r] es IH]; intros b prev ks; cbn [compress for_each_key_from]; [by intros [= <-]|].
  cbn [prefix_len key_suffix]. res_facts. intros (Hlen & _ & _ & _ & rest & Hrest & [= <-]).
  assert (Hk : take (common_prefix_len prev k) prev ++ drop (common_prefix_len prev k) k = k).
  { rewrite common_prefix_len_take. apply take_drop. }
  rewrite Hk in *. cbn [map snd fst]. f_equal. by eapply IH.
Qed.

Lemma compress_entries {B} (g : bytes -> Cid -> option Cid -> B) prev es (ks : list (EntryData * bytes)) :
  map fst ks = compress prev es -> map snd ks = map (fun e => e.1.1) es ->
  map (fun x => g x.2 (value x.1) (data_right x.1)) ks = map (fun e => g e.1.1 e.1.2 e.2) es.
Proof.
  revert prev ks. induction es as [|[[k v] r] es IH]; intros prev [|[ed k'] ks]; try done.
  cbn. intros [= -> Hf] [= -> Hs]. cbn. f_equal. by eapply IH.
Qed.

(** ** From a faithful source *)

Section Faithful.
Context `{Simdutf8Laws} `{StubsLaws} (src : Cid -> res MstError (option bytes)).

(** The source has, for the blocks of the tree, nothing but those blocks. *)
Definition faithful : Prop := forall h c data, stub_shape h c -> src c = Ok (Some data) ->
  encode_node_data (list_node h (stub_contents c)) = Ok data /\ node_ok (list_node h (stub_contents c)) /\
  Z.of_nat (length data) <= i64_max.

Hypothesis Hfaithful : faithful.

Lemma faithful_decode h c data nd : stub_shape h c -> src c = Ok (Some data) -> decode_node_data data = Ok nd ->
  nd = list_node h (stub_contents c).
Proof.
  intros Hs Hd Hdec. destruct (Hfaithful h c data Hs Hd) as (Henc & Hok & Hlen).
  rewrite encode_node_data_eq in Henc by done. assert (data = enc (node_value (list_node h (stub_contents c)))) as -> by congruence.
  rewrite decode_node_value in Hdec by done. congruence.
Qed.

(** The contents come back from the pieces [cut_levels] cuts. *)
Lemma cut_levels_join h (l : kvs) : l = (cut_levels h l).1 ++ concat (map (fun s => s.1 :: s.2) (cut_levels h l).2).
Proof.
  induction l as [|e l IH]; [done|]. cbn [cut_levels]. destruct (cut_levels h l) as [pre segs]. cbn [fst snd] in IH.
  destruct (height_for_key e.1 =? h); cbn; by rewrite IH at 1.
Qed.

Lemma cut_levels_heights h (l : kvs) : Forall (fun s => height_for_key s.1.1 = h) (cut_levels h l).2.
Proof.
  induction l as [|e l IH]; [constructor|]. cbn [cut_levels]. destruct (cut_levels h l) as [pre segs]. cbn [snd] in IH.
  destruct (Z.eqb_spec (height_for_key e.1) h); cbn; [by constructor|done].
Qed.

(** The stub of a piece stands for that piece. *)
Lemma piece_stub h c s ch : stub_shape h c ->
  s = (cut_levels h (stub_contents c)).1 \/ s ∈ (cut_levels h (stub_contents c)).2.*2 ->
  ch = Z.max 0 (h - 1) ->
  let o := (fun cid => stub cid ch) <$> tree_cid_at (Z.to_nat h) (h - 1) s in
  contents_of o = s /\ shape_of (h - 1) o.
Proof.
  intros Hs Hin ->. destruct (decide (s = [])) as [->|Hne]; [by destruct (Z.to_nat h)|].
  destruct (stub_children h c s Hs Hin Hne) as (c' & Hh & Hc & Hcon & Hsh).
  replace (Z.to_nat h) with (S (Z.to_nat (h - 1))) by lia. change (tree_cid_at (S (Z.to_nat (h - 1))) (h - 1) s) with (tree_cid (h - 1) s).
  rewrite Hc. cbn. split; [done|]. split; [|done]. rewrite Hcon. split_and!; [lia|lia| |done]. by intros ? [= <-].
Qed.

(** The node that a stub of the tree becomes. Its height does not matter if its
    block has entries. *)
Lemma populate_stub h n cid n' at_ : n_loaded n = false -> n_cid n = Some cid -> stub_shape h cid -> 0 <= h ->
  tree_cid h (stub_contents cid) = Some cid ->
  n_height n = h \/ (cut_levels h (stub_contents cid)).2 <> [] ->
  populate_node n (list_node h (stub_contents cid)) at_ = Ok n' ->
  contents n' = stub_contents cid /\ shape h n'.
Proof.
  intros Hl Hcid Hs Hh Htc Hht (keys & Hk & _ & ->)%populate_node_Ok. cbn zeta.
  pose proof (cut_levels_join h (stub_contents cid)) as Hj. pose proof (cut_levels_heights h (stub_contents cid)) as Hhs.
  pose proof (fun s => piece_stub h cid s (Z.max 0 (h - 1)) Hs) as Hpiece.
  unfold list_node, for_each_key in *. destruct (cut_levels h (stub_contents cid)) as [pre segs]. cbn [fst snd data_left data_entries] in *.
  pose proof (for_each_key_from_data _ _ _ _ Hk) as Hf. pose proof (for_each_key_compress _ _ _ _ Hk) as Hsn.
  set (es := map (fun s => (s.1, tree_cid_at (Z.to_nat h) (h - 1) s.2)) segs) in *.
  assert (Hheight : match head keys with Some (_, first) => height_for_key first | None => n_height n end = h).
  { destruct segs as [|[e s] segs'], keys as [|[ed k] keys']; try done; [by destruct Hht|].
    cbn in Hsn. injection Hsn as -> _. by inversion_clear Hhs. }
  rewrite Hheight. clear Hheight.
  rewrite (compress_entries (fun k v r => MkEntry k v ((fun c => stub c (Z.max 0 (h - 1))) <$> r)) [] es keys Hf Hsn).
  unfold es. rewrite map_map. cbn [fst snd].
  destruct (Hpiece pre (or_introl eq_refl) eq_refl) as [Hpc Hps].
  assert (Hsegs : forall s, s ∈ segs.*2 -> let o := (fun c => stub c (Z.max 0 (h - 1))) <$> tree_cid_at (Z.to_nat h) (h - 1) s in
    contents_of o = s /\ shape_of (h - 1) o) by (intros s Hin; apply Hpiece; [by right|done]).
  clear Hpiece Hk Hf Hsn es Hht.
  set (n' := MkNode _ _ _ _ _).
  assert (Hcon : contents n' = stub_contents cid).
  { rewrite contents_loaded by done. unfold n'. cbn [n_left n_entries]. rewrite Hpc. rewrite Hj. f_equal.
    clear Hj Hhs n'. induction segs as [|[[k v] s] segs IH]; [done|]. cbn [map]. rewrite entries_contents_cons. cbn [e_right concat].
    destruct (Hsegs s ltac:(by left)) as [Hsc _]. cbn [snd fst] in *. rewrite Hsc, IH; [done|].
    intros s' Hin. apply Hsegs. by right. }
  split; [done|]. apply shape_bare; [done|]. split.
  - apply bare_loaded; [done|]. unfold n'. cbn [n_height n_left n_entries]. split_and!; [done..|].
    clear Hcon n' Hj. induction Hhs as [|[[k v] s] segs Hks _ IH]; [constructor|]. cbn [map]. constructor.
    + split; [exact Hks|]. apply (Hsegs s). by left.
    + apply IH. intros s' Hin. apply Hsegs. by right.
  - intros c' Hc'. unfold n' in Hc'. cbn [n_cid] in Hc'. rewrite Hcon. congruence.
Qed.

(** Loading a node of a tree in the right shape changes neither its contents
    nor its shape. *)
Lemma load_step_faithful at_ n n' : load_step src at_ n n' -> forall h, shape h n ->
  contents n' = contents n /\ shape h n' /\ is_empty_node n' = is_empty_node n.
Proof.
  induction 1 as [at_ n n' cid data nd Hl Hcid Hd Hsrc Hdec Hpop|at_ n i c c' Hl Hc _ IH]; intros h Hs.
  - destruct n as [l es c ht ld]. cbn in Hl, Hcid. subst ld c. pose proof Hs as (Hht & Hh & Hok & Hst). cbn [shape contents] in *.
    assert (nd = list_node h (stub_contents cid)) as -> by (by eapply faithful_decode).
    destruct (populate_stub h (MkNode l es (Some cid) ht false) cid n' at_ eq_refl eq_refl Hst Hh (Hok cid eq_refl) (or_introl Hht) Hpop) as [Hc Hsh].
    split_and!; [done..|]. cbn. destruct (is_empty_node n') eqn:He; [|done]. exfalso.
    assert (Hn : contents n' = []).
    { destruct n' as [[|] [|] ? ? []]; done. }
    rewrite Hc in Hn. specialize (Hok cid eq_refl). by rewrite Hn in Hok.
  - pose proof (shape_child h n i Hl Hs) as Hsc. rewrite Hc in Hsc. destruct Hsc as [Hsc Hec].
    destruct (IH (h - 1) Hsc) as (Hcc & Hsc' & Hec'). pose proof (child_le _ _ _ Hc) as Hi.
    assert (Hcon : contents (set_child n i (Some c')) = contents n).
    { rewrite contents_set_child, (contents_cut n i), Hc by done. cbn [contents_of opt_map]. by rewrite Hcc. }
    apply shape_bare in Hs as [Hb Hok]; [|done]. split_and!; [done| |].
    + apply shape_bare; [by rewrite set_child_loaded|]. split.
      * apply bare_set_child; [done..|]. split; [done|congruence].
      * intros cd Hcd. rewrite (proj1 (set_child_fields n i (Some c'))) in Hcd. rewrite Hcon. by apply Hok.
    + rewrite set_child_some_not_empty by done. symmetry. apply is_empty_loaded; [done|].
      destruct i as [|j]; [right; unfold child in Hc; cbn in Hc; by rewrite Hc|left; intros Hn; unfold child in Hc; cbn in Hc; by rewrite Hn in Hc].
Qed.

Lemma loads_faithful at_ n n' : loads src at_ n n' -> forall h, shape h n ->
  contents n' = contents n /\ shape h n' /\ is_empty_node n' = is_empty_node n.
Proof.
  induction 1 as [n|n n1 n' Hs _ IH]; intros h Hn; [done|].
  destruct (load_step_faithful at_ n n1 Hs h Hn) as (Hc & Hsh & He). destruct (IH h Hsh) as (Hc' & Hsh' & He').
  split_and!; [congruence|done|congruence].
Qed.
End Faithful.

(** ** From any source *)

(** What is in memory: stubs hold nothing. *)
Definition in_memory : Stubs := {| stub_contents _ := []; stub_shape _ _ := False |}.

Lemma bytes_leb_false a b : bytes_leb a b = false <-> bytes_lt b a.
Proof. unfold bytes_leb. rewrite <- bytes_cmp_Gt. by destruct (bytes_cmp a b). Qed.

Lemma for_each_key_sorted b prev es ks : for_each_key_from b prev es = Ok ks ->
  StronglySorted bytes_lt (map snd ks) /\ Forall (fun k => is_valid_key k = true) (map snd ks) /\
  (b = false -> Forall (bytes_lt prev) (map snd ks)).
Proof.
  revert b prev ks. induction es as [|ed es IH]; intros b prev ks; cbn [for_each_key_from].
  { intros [= <-]. split_and!; [constructor|constructor|intros; constructor]. }
  res_facts. intros (_ & _ & Hv & Hlt & rest & Hrest & [= <-]). set (key := take (prefix_len ed) prev ++ key_suffix ed) in *.
  destruct (IH _ _ _ Hrest) as (Hs & Hval & Hgt). specialize (Hgt eq_refl). cbn [map snd]. split_and!.
  - by constructor.
  - by constructor.
  - intros ->. cbn [negb andb] in Hlt. apply bytes_leb_false in Hlt. constructor; [done|].
    eapply Forall_impl; [exact Hgt|]. intros k Hk. by eapply bytes_lt_trans.
Qed.

Lemma admits_true at_ k : admits at_ k = true <->
  (forall lo, p_lo at_ = Some lo -> bytes_lt lo k) /\ (forall hi, p_hi at_ = Some hi -> bytes_lt k hi).
Proof.
  unfold admits. rewrite andb_true_iff. destruct (p_lo at_), (p_hi at_); rewrite ?bytes_ltb_lt; naive_solver.
Qed.

Lemma all_admitted_Ok at_ keys : all_admitted at_ keys = Ok () <-> Forall (fun k => admits at_ k = true) keys.
Proof.
  induction keys as [|k keys IH]; cbn [all_admitted]; [done|]. rewrite if_err_Ok, IH, Forall_cons, negb_false_iff. done.
Qed.

(** Between an admitted first and last key, every key is admitted. *)
Lemma ends_admitted at_ ks : StronglySorted bytes_lt ks ->
  Forall (fun k => admits at_ k = true) (option_list (head ks) ++ option_list (last ks)) ->
  Forall (fun k => admits at_ k = true) ks.
Proof.
  intros Hs [Hf Hl]%Forall_app. apply Forall_forall. intros k Hk. destruct ks as [|k0 ks]; [by apply elem_of_nil in Hk|].
  cbn [head option_list] in Hf. apply Forall_cons in Hf as [Hf _].
  destruct (last (k0 :: ks)) as [kl|] eqn:Hlast; [|by apply last_None in Hlast]. cbn [option_list] in Hl. apply Forall_cons in Hl as [Hl _].
  apply admits_true in Hf as [Hlo _], Hl as [_ Hhi]. apply admits_true. split.
  - intros lo Hp. specialize (Hlo lo Hp). apply elem_of_cons in Hk as [->|Hk]; [done|].
    inversion Hs as [|? ? _ Hall]; subst. eapply bytes_lt_trans; [exact Hlo|]. exact (proj1 (Forall_forall _ _) Hall k Hk).
  - intros hi Hp. specialize (Hhi hi Hp). apply last_Some in Hlast as [l' Hl']. rewrite Hl' in *.
    apply elem_of_app in Hk as [Hk|Hk%list_elem_of_singleton]; [|by subst].
    eapply bytes_lt_trans; [|exact Hhi]. eapply StronglySorted_app_1_elem_of; [exact Hs|done|by left].
Qed.

Section Hostile.
Context `{Sha2} `{Simdutf8} (src : Cid -> res MstError (option bytes)).
#[local] Existing Instance in_memory.

(** The keys in memory are valid, in order, and where the place allows. *)
Definition sane (at_ : Place) (n : Node) : Prop :=
  ordered (contents n) /\ Forall (fun e => admits at_ e.1 = true /\ is_valid_key e.1 = true) (contents n).

Definition sane_of (at_ : Place) (o : option Node) : Prop := match o with Some n => sane at_ n | None => True end.

Lemma populate_sane n nd at_ n' : populate_node n nd at_ = Ok n' -> sane at_ n'.
Proof.
  intros (keys & Hk & Ha & ->)%populate_node_Ok. cbn zeta. set (h := match head keys with Some _ => _ | None => _ end). clearbody h.
  assert (Hc : contents (MkNode ((fun cid => stub cid (Z.max 0 (h - 1))) <$> data_left nd)
      (map (fun x : EntryData * bytes => MkEntry x.2 (value x.1) ((fun cid => stub cid (Z.max 0 (h - 1))) <$> data_right x.1)) keys)
      (n_cid n) h true) = map (fun x => (x.2, value x.1)) keys).
  { rewrite contents_loaded by done. cbn [n_left n_entries].
    assert (Hn : forall o : option Cid, contents_of ((fun cid => stub cid (Z.max 0 (h - 1))) <$> o) = []) by (by intros []).
    rewrite Hn. cbn [app]. clear -Hn. induction keys as [|[ed k] keys IH]; [done|].
    cbn [map]. rewrite entries_contents_cons. cbn [e_right fst snd]. by rewrite Hn, IH. }
  destruct (for_each_key_sorted _ _ _ _ Hk) as (Hs & Hv & _). unfold sane. rewrite Hc. clear Hc.
  apply all_admitted_Ok in Ha.
  assert (Hm : map snd keys = (map (fun x : EntryData * bytes => (x.2, value x.1)) keys).*1).
  { clear. induction keys as [|[ed k] keys IH]; [done|]. cbn. by f_equal. }
  split; [unfold ordered; by rewrite <- Hm|].
  assert (Hall : Forall (fun k => admits at_ k = true) (map snd keys)).
  { apply ends_admitted; [done|]. change (map snd keys) with (snd <$> keys). rewrite fmap_last.
    replace (head (snd <$> keys)) with (snd <$> head keys) by (by destruct keys). done. }
  rewrite Hm, Forall_fmap in Hall, Hv. by apply Forall_and.
Qed.

(** The keys that fit in a subtree's place lie between those around it. *)
Lemma child_place_between n i at_ k : n_loaded n = true -> ordered (contents n) -> (i <= length (n_entries n))%nat ->
  admits (child_place (n_entries n) i at_) k = true -> all_below k (before n i) /\ all_above k (after n i).
Proof.
  intros Hl Ho Hi [Hlo Hhi]%admits_true. cbn [child_place p_lo p_hi] in *. split.
  - apply all_below_before; [done..|]. intros j ->. apply lookup_lt_is_Some in Hi as [e He]. exists e. split; [done|].
    apply Hlo. by rewrite He.
  - destruct (n_entries n !! i) as [e|] eqn:He.
    + rewrite (contents_cut n i), app_assoc in Ho by done. eapply all_above_entry; [exact Ho|done|by apply Hhi].
    + apply lookup_ge_None in He. unfold after. rewrite drop_ge by done. constructor.
Qed.

(** The subtrees of a sane node are sane where they are. *)
Lemma sane_child at_ n i : n_loaded n = true -> sane at_ n -> (i <= length (n_entries n))%nat ->
  sane_of (child_place (n_entries n) i at_) (child n i).
Proof.
  intros Hl [Ho Hf] Hi. destruct (child n i) as [c|] eqn:Hc; [|done]. pose proof (contents_cut n i Hl Hi) as Hcut.
  rewrite Hc in Hcut. cbn [contents_of opt_map] in Hcut. rewrite Hcut in Ho, Hf. split; [by eapply ordered_app_l, ordered_app_r|].
  apply Forall_forall. intros e He. assert (Hfe : admits at_ e.1 = true /\ is_valid_key e.1 = true).
  { apply (proj1 (Forall_forall _ _) Hf). set_solver. }
  destruct Hfe as [Ha Hv]. split; [|done]. apply admits_true in Ha as [Hlo Hhi]. apply admits_true.
  cbn [child_place p_lo p_hi]. split.
  - destruct i as [|j]; [done|]. intros lo Hlo'. apply fmap_Some in Hlo' as (d & Hd & ->).
    change (e_key d) with (kv d).1. apply (ordered_app_lt _ _ (kv d) e Ho); [|set_solver].
    unfold before. rewrite Hd. set_solver.
  - intros hi. destruct (n_entries n !! i) as [d|] eqn:Hd; [|apply Hhi]. intros [= <-].
    change (e_key d) with (kv d).1. rewrite app_assoc in Ho. apply (ordered_app_lt _ _ e (kv d) Ho); [set_solver|].
    unfold after. rewrite (drop_S _ d) by done. rewrite entries_contents_cons. by left.
Qed.

(** A sane subtree in its place keeps the node sane. *)
Lemma sane_set_child at_ n i c : n_loaded n = true -> sane at_ n -> (i <= length (n_entries n))%nat ->
  sane (child_place (n_entries n) i at_) c -> sane at_ (set_child n i (Some c)).
Proof.
  intros Hl [Ho Hf] Hi [Hoc Hfc]. pose proof (contents_cut n i Hl Hi) as Hcut. unfold sane.
  rewrite contents_set_child by done. cbn [contents_of opt_map].
  assert (Hb : forall e, e ∈ contents c -> all_below e.1 (before n i) /\ all_above e.1 (after n i)).
  { intros e He. apply (child_place_between n i at_); [done..|]. by apply (proj1 (Forall_forall _ _) Hfc) in He as [? _]. }
  pose proof Ho as Ho'. rewrite Hcut in Ho, Hf. split.
  - unfold ordered in *. rewrite !fmap_app in *. apply StronglySorted_app in Ho as (Hx & Hob & Hom).
    apply StronglySorted_app in Hom as (_ & _ & Hoa).
    apply StronglySorted_app_2; [|done|apply StronglySorted_app_2; [|done..]].
    + intros x y Hin [Hy|Hy]%elem_of_app.
      * apply list_elem_of_fmap in Hin as (e & -> & He), Hy as (d & -> & Hd).
        exact (proj1 (Forall_forall _ _) (proj1 (Hb d Hd)) e He).
      * apply Hx; [done|]. apply elem_of_app. by right.
    + intros x y Hin Hy. apply list_elem_of_fmap in Hin as (e & -> & He), Hy as (d & -> & Hd).
      exact (proj1 (Forall_forall _ _) (proj2 (Hb e He)) d Hd).
  - apply Forall_app in Hf as [Hfb [_ Hfa]%Forall_app]. apply Forall_app. split; [done|]. apply Forall_app. split; [|done].
    eapply Forall_impl; [apply (proj2 (Forall_forall _ _))|]. { intros e He. exact He. }
    intros e He. cbn beta in He. pose proof (proj1 (Forall_forall _ _) Hfc e He) as [Hac Hv]. split; [|done].
    apply admits_true in Hac as [Hlo Hhi]. apply admits_true. cbn [child_place p_lo p_hi] in *. split.
    + destruct i as [|j]; [done|]. intros lo Hp. pose proof Hi as [d Hd]%lookup_lt_is_Some.
      rewrite Hd in Hlo. specialize (Hlo _ eq_refl). eapply bytes_lt_trans; [|exact Hlo].
      assert (Hin : kv d ∈ before n (S j)) by (unfold before; rewrite Hd; set_solver).
      apply (proj1 (Forall_forall _ _) Hfb) in Hin as [[Hl' _]%admits_true _]. by apply Hl'.
    + intros hi Hp. destruct (n_entries n !! i) as [d|] eqn:Hd; [|by apply Hhi]. specialize (Hhi _ eq_refl).
      eapply bytes_lt_trans; [exact Hhi|].
      assert (Hin : kv d ∈ after n i) by (unfold after; rewrite (drop_S _ d), entries_contents_cons by done; by left).
      apply (proj1 (Forall_forall _ _) Hfa) in Hin as [[_ Hh']%admits_true _]. by apply Hh'.
Qed.

(** Whatever a source serves, what loads is sane. *)
Lemma load_step_sane at_ n n' : load_step src at_ n n' -> sane at_ n -> sane at_ n'.
Proof.
  induction 1 as [at_ n n' cid data nd Hl Hcid Hd Hsrc Hdec Hpop|at_ n i c c' Hl Hc _ IH]; intros Hs.
  - by eapply populate_sane.
  - pose proof (child_le _ _ _ Hc) as Hi. apply sane_set_child; [done..|]. apply IH.
    pose proof (sane_child at_ n i Hl Hs Hi) as Hsc. by rewrite Hc in Hsc.
Qed.

Lemma loads_sane at_ n n' : loads src at_ n n' -> sane at_ n -> sane at_ n'.
Proof. induction 1 as [n|n n1 n' Hs _ IH]; [done|]. intros Hn. apply IH. by eapply load_step_sane. Qed.
End Hostile.
