(* ===== verification/MstDetached.v ===== *)
(** [DetachedTree] of [src/src/mst/tree.rs]: the tree that owns no storage,
    with the loading, the mutations and the writing of the files before put
    together. Its methods run in the state of the tree. *)
From S2P Require Import Prelude StateError SyntaxError CborError Cid CborDecode MstHeight SortedMap MstNode MstTree MstFlush MstLoad.

(** ** Lists of CIDs *)

(** [Ord for Cid], derived: by the codec's number, then by the hash. *)
Definition cid_cmp (a b : Cid) : comparison :=
  match codec_byte (codec a) ?= codec_byte (codec b) with Eq => bytes_cmp (hash a) (hash b) | c => c end.

Definition cid_le (a b : Cid) : Prop := cid_cmp a b <> Gt.

#[export] Instance cid_le_dec a b : Decision (cid_le a b).
Proof. unfold cid_le. apply _. Defined.

(** [v.sort_unstable()] and [v.dedup()] *)
Definition sort_cids (l : list Cid) : list Cid := merge_sort cid_le l.

Fixpoint dedup {A} `{EqDecision A} (l : list A) : list A :=
  match l with
  | a :: ((b :: _) as l') => if bool_decide (a = b) then dedup l' else a :: dedup l'
  | l => l
  end.

(** ** The tree *)

Record DetachedTree := MkTree {
  root : option Node;
  refs : Refs;
  released : list Cid;
  empty_root : option Cid;
  poisoned : bool
}.

Definition set_root (r : option Node) (t : DetachedTree) : DetachedTree :=
  MkTree r (refs t) (released t) (empty_root t) (poisoned t).
Definition set_refs (rf : Refs) (t : DetachedTree) : DetachedTree :=
  MkTree (root t) rf (released t) (empty_root t) (poisoned t).
Definition set_released (rel : list Cid) (t : DetachedTree) : DetachedTree :=
  MkTree (root t) (refs t) rel (empty_root t) (poisoned t).
Definition set_empty_root (e : option Cid) (t : DetachedTree) : DetachedTree :=
  MkTree (root t) (refs t) (released t) e (poisoned t).

Record TreeWrite := MkWrite { w_root : Cid; new_blocks : list (Cid * bytes); retired : list Cid }.

Definition new : DetachedTree := MkTree None ∅ [] None false.

Definition load_tree (r : Cid) : DetachedTree := MkTree (Some (stub r 0)) {[r := 1%nat]} [] None false.

Abbreviation method := (st DetachedTree MstError).

Definition check_usable : method () := fun t =>
  if poisoned t then (Err (internal "tree is unusable: an earlier mutation failed partway through"), t)
  else (Ok (), t).

(** The tree after a mutation failed partway. *)
Definition poison (t : DetachedTree) : DetachedTree :=
  MkTree None (refs t) (released t) (empty_root t) true.

(** [.map_err(|e| self.poison(e))] *)
Definition poisoning {A} (m : method A) : method A := fun t =>
  match m t with
  | (Err e, t') => (Err e, poison t')
  | r => r
  end.

(** A traversal of the root, if there is one. *)
Definition on_root {A} (none : A) (m : Node -> loading A) : method A := fun t =>
  match root t with
  | None => (Ok none, t)
  | Some n =>
      let '(r, (n', refs')) := m n (n, refs t) in
      (r, set_refs refs' (set_root (Some n') t))
  end.

(** A mutation, which adds to the CIDs released. *)
Definition mutate {A} (m : mut A) : method A := fun t =>
  let '(r, rel) := m (released t) in (r, set_released rel t).

(** A source without blocks. *)
Definition NoBlocks : Source := fun _ => Ok None.

Section Methods.
Context `{Sha2} `{Simdutf8}.

Fixpoint visit_keys (src : Source) (visit : Visit) (keys : list bytes) : loading (list Cid) :=
  match keys with
  | [] => mret []
  | key :: keys' =>
      n ← the_node;
      missing ← visit_key_path (S (load_fuel n ROOT)) src key visit true ROOT;
      rest ← visit_keys src visit keys';
      mret (missing ++ rest)
  end.

Definition missing (src : Source) (keys : list bytes) (visit : Visit) : method (list Cid) :=
  _ ← check_usable;
  found ← on_root [] (fun n => visit_keys src visit keys);
  mret (dedup (sort_cids found)).

Definition missing_blocks (src : Source) (keys : list bytes) : method (list Cid) := missing src keys Lookup.
Definition missing_blocks_for_remove (src : Source) (keys : list bytes) : method (list Cid) := missing src keys Remove.

Definition get (src : Source) (key : bytes) : method (option Cid) :=
  _ ← check_usable;
  on_root None (fun n => get_node (load_fuel n ROOT) src key ROOT).

(** The lookup after the visit reads nothing. *)
Definition load_key_path (src : Source) (key : bytes) (visit : Visit) : method (option Cid) :=
  on_root None (fun n =>
    missing ← visit_key_path (S (load_fuel n ROOT)) src key visit true ROOT;
    match missing with
    | cid :: _ => fail (BlockNotFound cid)
    | [] => n ← the_node; get_node (load_fuel n ROOT) NoBlocks key ROOT
    end).

Definition insert (src : Source) (key : bytes) (v : Cid) : method (option Cid) :=
  _ ← check_usable;
  if negb (is_valid_key key) then fail (InvalidKey key) else
  prev ← load_key_path src key Lookup;
  if bool_decide (prev = Some v) then mret prev
  else match prev with
  | Some _ =>
      _ ← poisoning (fun t =>
        match root t with
        | Some n =>
            (n ← mutate (update_node (S (span n)) n key v); modify (set_root (Some n))) t
        | None => (Err (internal "updated key is not in the tree"), t)
        end);
      mret prev
  | None =>
      let height := height_for_key key in
      r ← gets root;
      _ ← modify (set_root None);
      _ ← (if bool_decide (r = None)
           then modify (fun t => set_empty_root None (set_released (released t ++ option_list (empty_root t)) t))
           else mret ());
      n ← poisoning (mutate (insert_node (insert_fuel r height) r key v height));
      _ ← modify (set_root (Some n));
      mret prev
  end.

Definition remove (src : Source) (key : bytes) : method (option Cid) :=
  _ ← check_usable;
  found ← load_key_path src key Remove;
  if bool_decide (found = None) then mret None
  else
    r ← gets root;
    match r with
    | None => mret None
    | Some n =>
        _ ← modify (set_root None);
        '(n', removed) ← poisoning (mutate (remove_from_root n key));
        _ ← modify (set_root n');
        mret removed
    end.

(** ** [flush] *)

(** [for cid in &self.released { *count -= 1 }] *)
Fixpoint release (refs : Refs) (cs : list Cid) : res MstError () * Refs :=
  match cs with
  | [] => (Ok (), refs)
  | c :: cs' =>
      match refs !! c with
      | Some (S count) => release (<[c := count]> refs) cs'
      | _ => (Err (Internal (About (to_bytes c) "released more often than it was held")), refs)
      end
  end.

(** [new_blocks.retain(..)]: the blocks not counted yet, with the counts. *)
Fixpoint retain_new (refs : Refs) (blocks : list (Cid * bytes)) : list (Cid * bytes) * Refs :=
  match blocks with
  | [] => ([], refs)
  | b :: blocks' =>
      match refs !! b.1 with
      | Some count => retain_new (<[b.1 := S count]> refs) blocks'
      | None => let '(rest, refs) := retain_new (<[b.1 := 1%nat]> refs) blocks' in (b :: rest, refs)
      end
  end.

(** [for cid in self.released.drain(..) { .. }] *)
Fixpoint retire (refs : Refs) (cs : list Cid) : list Cid * Refs :=
  match cs with
  | [] => ([], refs)
  | c :: cs' =>
      if bool_decide (refs !! c = Some 0%nat) then
        let '(rest, refs) := retire (delete c refs) cs' in (c :: rest, refs)
      else retire refs cs'
  end.

Definition settle (written : list (Cid * bytes)) (r : Cid) : method TreeWrite := fun t =>
  match release (refs t) (released t) with
  | (Err e, refs') => (Err e, set_refs refs' t)
  | (Panic, refs') => (Panic, set_refs refs' t)
  | (Ok _, refs1) =>
      let '(new_blocks, refs2) := retain_new refs1 written in
      let '(ret, refs3) := retire refs2 (released t) in
      (Ok (MkWrite r new_blocks (sort_cids ret)), set_released [] (set_refs refs3 t))
  end.

(** The blocks of the changed nodes, and the root's CID. *)
Definition write_root : method (Cid * list (Cid * bytes)) := fun t =>
  match root t with
  | None =>
      let t := set_empty_root None (set_released (released t ++ option_list (empty_root t)) t) in
      match empty_node_block with
      | Ok (cid, data) => (Ok (cid, [(cid, data)]), t)
      | Err e => (Err e, t)
      | Panic => (Panic, t)
      end
  | Some n =>
      match write_node n [] with
      | (Ok (cid, n'), written) => (Ok (cid, written), set_root (Some n') t)
      | (Err e, _) => (Err e, t)
      | (Panic, _) => (Panic, t)
      end
  end.

Definition flush : method TreeWrite :=
  _ ← check_usable;
  '(r, written) ← poisoning write_root;
  _ ← modify (fun t => if bool_decide (root t = None) then set_empty_root (Some r) t else t);
  poisoning (settle written r).

Definition root_cid (t : DetachedTree) : option Cid :=
  match root t with Some n => n_cid n | None => empty_root t end.

(** ** Walks *)

Definition walk {S} (src : Source) (f : bytes -> Cid -> st S MstError ()) : st (DetachedTree * S) MstError () := fun '(t, s) =>
  match check_usable t with
  | (Ok _, t) =>
      match root t with
      | None => (Ok (), (t, s))
      | Some n =>
          let '(r, (n', refs', s')) := walk_node (load_fuel n ROOT) src f ROOT (n, refs t, s) in
          (r, (set_refs refs' (set_root (Some n') t), s'))
      end
  | (Err e, t) => (Err e, (t, s))
  | (Panic, t) => (Panic, (t, s))
  end.

Definition walk_reachable {S} (src : Source) (f : bytes -> Cid -> st S MstError ()) : st (DetachedTree * S) MstError () := fun '(t, s) =>
  match check_usable t with
  | (Ok _, t) =>
      match root t with
      | None => (Ok (), (t, s))
      | Some n =>
          let '(r, (n', refs', s')) :=
            (_ ← on_tree (ensure_loaded src ROOT);
             n ← on_tree the_node;
             walk_reachable_node (load_fuel n ROOT) src f ROOT) (n, refs t, s) in
          (r, (set_refs refs' (set_root (Some n') t), s'))
      end
  | (Err e, t) => (Err e, (t, s))
  | (Panic, t) => (Panic, (t, s))
  end.

(** [result.push((key.to_owned(), val))] *)
Definition push_entry (key : bytes) (v : Cid) : st (list (bytes * Cid)) MstError () :=
  modify (fun l => l ++ [(key, v)]).

Definition entries (src : Source) : method (list (bytes * Cid)) := fun t =>
  match walk src push_entry (t, []) with
  | (Ok _, (t', result)) => (Ok result, t')
  | (Err e, (t', _)) => (Err e, t')
  | (Panic, (t', _)) => (Panic, t')
  end.
End Methods.
