(* ===== verification/MstProof.v ===== *)
(** Paths and proofs in [src/src/mst/tree.rs]: [search_path], which names the
    blocks that prove one key, and [covering_proof], which names those that
    let a consumer undo changes to a list of keys. *)
From S2P Require Import Prelude StateError SyntaxError CborError Cid CborDecode MstHeight SortedMap MstNode MstTree MstFlush MstLoad MstDetached.

Section Paths.
Context `{Sha2} `{Simdutf8}.

(** The path is pushed to while it is searched, and kept when that fails. *)
Abbreviation pathing := (st (list Cid) MstError).

Definition push_cid (c : Cid) : pathing () := modify (fun path => path ++ [c]).

(** The key after the subtree to search, with whether it is the key sought. *)
Definition first_at_least (keys : list (EntryData * bytes)) (key : bytes) : option (nat * bool) :=
  i ← position (fun x => bytes_leb key x.2) keys;
  x ← keys !! i;
  Some (i, bool_decide (key = x.2)).

(** The keys on either side of that subtree. *)
Definition key_below (keys : list (EntryData * bytes)) (at_ : option (nat * bool)) : option bytes :=
  match at_ with
  | Some (O, _) => None
  | Some (S i, _) => snd <$> keys !! i
  | None => snd <$> last keys
  end.

Definition key_above (keys : list (EntryData * bytes)) (at_ : option (nat * bool)) : option bytes :=
  '(i, _) ← at_; snd <$> keys !! i.

Definition or_else {A} (a b : option A) : option A := match a with Some x => Some x | None => b end.

(** The loop takes one level of blocks per unit of fuel; it ends below level
    128. *)
Fixpoint search_blocks (fuel : nat) (src : Source) (cid : Cid) (key : bytes) (at_ : Place) : pathing (option Cid) :=
  match fuel with
  | O => panic
  | S fuel =>
      if (MAX_LEVELS <? p_depth at_)%nat then fail (too_deep cid) else
      data ← lift (src cid);
      data ← lift (ok_or (BlockNotFound cid) data);
      _ ← push_cid cid;
      nd ← lift (decode_node_data data);
      keys ← lift (for_each_key nd);
      _ ← lift (all_admitted at_ (option_list (snd <$> head keys) ++ option_list (snd <$> last keys)));
      let found := first_at_least keys key in
      let go (c : option Cid) := match c with
        | Some next => search_blocks fuel src next key
            (MkPlace (S (p_depth at_)) (or_else (key_below keys found) (p_lo at_)) (or_else (key_above keys found) (p_hi at_)))
        | None => mret None
        end in
      match found with
      | Some (i, true) => mret (value <$> data_entries nd !! i)
      | Some (O, false) => go (data_left nd)
      | Some (S i, false) => go (data_entries nd !! i ≫= data_right)
      | None => go (match last (data_entries nd) with Some e => data_right e | None => data_left nd end)
      end
  end.

Definition blocks_fuel (at_ : Place) : nat := S (S MAX_LEVELS) - p_depth at_.

Definition unflushed : MstError := internal "the tree has changes since its last flush".

(** The part of the loop over nodes in memory. *)
Fixpoint search_nodes (fuel : nat) (src : Source) (n : Node) (key : bytes) (at_ : Place) : pathing (option Cid) :=
  match fuel with
  | O => panic
  | S fuel =>
      cid ← lift (ok_or unflushed (n_cid n));
      if negb (n_loaded n) then search_blocks (S (blocks_fuel at_)) src cid key at_ else
      _ ← push_cid cid;
      match search (n_entries n) key with
      | (i, true) => e ← lift (index (n_entries n) i); mret (Some (e_val e))
      | (i, false) =>
          match child n i with
          | Some c => search_nodes fuel src c key (child_place (n_entries n) i at_)
          | None => mret None
          end
      end
  end.

Definition search_path (src : Source) (t : DetachedTree) (key : bytes) : pathing (option Cid) :=
  _ ← lift (check_usable t).1;
  match root t with
  | None => cid ← lift (ok_or unflushed (empty_root t)); _ ← push_cid cid; mret None
  | Some n => search_nodes (levels n) src n key ROOT
  end.

(** ** Covering proofs *)

(** [Ord for str] *)
Definition key_le (a b : bytes) : Prop := bytes_leb a b = true.

#[export] Instance key_le_dec a b : Decision (key_le a b).
Proof. unfold key_le. apply _. Defined.

Inductive Slot := Left | Leaf (i : nat) | Right (i : nat).

#[export] Instance Slot_eq_dec : EqDecision Slot.
Proof. solve_decision. Defined.

(** [slot_subtree]: the subtree's slot among those of [child]. *)
Definition slot_subtree (s : Slot) : option nat :=
  match s with Left => Some 0%nat | Right i => Some (S i) | Leaf _ => None end.

(** [partition_point]: how many entries have a smaller key. *)
Definition gte_entry (n : Node) (key : bytes) : nat := (search (n_entries n) key).1.

Definition slot_before (n : Node) (i : nat) : option Slot :=
  match i with
  | O => match n_left n with Some _ => Some Left | None => None end
  | S j =>
      e ← n_entries n !! j;
      match e_right e with Some _ => Some (Right j) | None => Some (Leaf j) end
  end.

Definition slot_after (n : Node) (i : nat) : option Slot :=
  e ← n_entries n !! i;
  match e_right e with
  | Some _ => Some (Right i)
  | None => if (S i <? length (n_entries n))%nat then Some (Leaf (S i)) else None
  end.

Abbreviation ProofStep := (Node -> bytes -> bool * option Slot).

Definition is_subtree (s : option Slot) : bool :=
  match s with Some Left | Some (Right _) => true | _ => false end.

Definition key_step : ProofStep := fun n key =>
  let i := gte_entry n key in
  if bool_decide (e_key <$> n_entries n !! i = Some key) then (true, None)
  else let next := slot_before n i in (is_subtree next, next).

Definition left_sib_step : ProofStep := fun n key => (true, slot_before n (gte_entry n key)).

Definition right_sib_step : ProofStep := fun n key =>
  let i := gte_entry n key in
  let found := if (i <? length (n_entries n))%nat then Some (Leaf i) else slot_before n i in
  let next := match found with
    | Some (Leaf j) => if bool_decide (e_key <$> n_entries n !! j = Some key) then slot_after n j else slot_before n i
    | subtree => subtree
    end in
  (true, next).

(** The keys from [start] to [end] that continue into one subtree. *)
Definition add_run (runs : list (Slot * nat * nat)) (slot : Slot) (k : nat) : list (Slot * nat * nat) :=
  match last runs with
  | Some (last, start, _) =>
      if bool_decide (last = slot) then removelast runs ++ [(slot, start, S k)] else runs ++ [(slot, k, S k)]
  | None => runs ++ [(slot, k, S k)]
  end.

Fixpoint proof_runs (step : ProofStep) (n : Node) (keys : list bytes) (k : nat)
    (included : bool) (runs : list (Slot * nat * nat)) : bool * list (Slot * nat * nat) :=
  match keys with
  | [] => (included, runs)
  | key :: keys' =>
      let '(include, next) := step n key in
      let runs := match next with
        | Some (Leaf _) | None => runs
        | Some slot => add_run runs slot k
        end in
      proof_runs step n keys' (S k) (included || include) runs
  end.

Fixpoint proof_pass (fuel : nat) (src : Source) (keys : list bytes) (step : ProofStep) (at_ : Place) : st (Node * Refs * list Cid) MstError () :=
  match fuel with
  | O => panic
  | S fuel =>
      _ ← on_tree (ensure_loaded src at_);
      n ← on_tree the_node;
      let '(included, runs) := proof_runs step n keys 0 false [] in
      _ ← (if included then
             match n_cid n with
             | Some cid => modify (fun s => (s.1, s.2 ++ [cid]))
             | None => fail (internal "covering proof needs a flushed tree")
             end
           else mret ());
      for_each (fun run => let '(slot, start, end_) := run in
        match slot_subtree slot with
        | Some i =>
            on_child_walk i (fun s =>
              match slice keys start end_ with
              | Ok run => proof_pass fuel src run step (child_place (n_entries n) i at_) s
              | Err e => (Err e, s)
              | Panic => (Panic, s)
              end)
        | None => mret ()
        end) runs
  end.

Definition sort_keys (keys : list bytes) : list bytes := merge_sort key_le keys.

(** The three passes over the tree. *)
Definition proof_passes (src : Source) (keys : list bytes) : method (list Cid) := fun t =>
  match root t with
  | None => ('(cid, _) ← empty_node_block; Ok [cid], t)
  | Some n =>
      let '(r, (n', refs', out)) :=
        for_each (fun step => n ← on_tree the_node; proof_pass (load_fuel n ROOT) src keys step ROOT)
          [key_step; left_sib_step; right_sib_step] (n, refs t, []) in
      (_ ← r; Ok out, set_refs refs' (set_root (Some n') t))
  end.

Definition covering_proof (src : Source) (keys : list bytes) : method (list Cid) :=
  _ ← check_usable;
  let keys := dedup (sort_keys keys) in
  if bool_decide (keys = []) then mret [] else
  out ← proof_passes src keys;
  mret (dedup (sort_cids out)).
End Paths.
