(* ===== verification/MstStore.v ===== *)
(** The tree on a block store, [Tree] of [src/src/mst/tree.rs] with the stores
    of [src/src/mst/block_store.rs], and the difference of two trees,
    [src/src/mst/diff.rs]. *)
From S2P Require Import Prelude StateError SyntaxError CborError Cid CborDecode MstHeight SortedMap MstNode MstTree MstFlush MstLoad MstDetached.

(** ** Block stores *)

(** The trait takes [&self] and mutates inside, so its methods run in the state
    of the store; reading leaves it alone. *)
Class BlockStore (S : Type) := {
  get_block : S -> Cid -> res MstError bytes;
  put_block : Cid -> bytes -> st S MstError ();
  has_block : S -> Cid -> res MstError bool
}.

(** [MemBlockStore], a hash map; [read_block] is what it serves as a source. *)
Definition MemBlockStore : Type := gmap Cid bytes.

Definition mem_new : MemBlockStore := ∅.
Definition read_block (s : MemBlockStore) : Source := fun c => Ok (s !! c).

#[export] Instance mem_block_store : BlockStore MemBlockStore := {|
  get_block s c := ok_or (BlockNotFound c) (s !! c);
  put_block c data := modify <[c := data]>;
  has_block s c := Ok (bool_decide (is_Some (s !! c)))
|}.

(** [StoreSource]: a block that is not found is absent. *)
Definition store_source {S : Type} `{BlockStore S} (s : S) : Source := fun c =>
  match get_block s c with
  | Ok data => Ok (Some data)
  | Err (BlockNotFound _) => Ok None
  | Err e => Err e
  | Panic => Panic
  end.

(** ** The tree *)

Record Tree (S : Type) := MkStoreTree { inner : DetachedTree; store : S; unsaved : list (Cid * bytes) }.
Arguments MkStoreTree {S} inner store unsaved.
Arguments inner {S} t.
Arguments store {S} t.
Arguments unsaved {S} t.

Section Tree.
Context `{Sha2} `{Simdutf8} {S : Type} `{BlockStore S}.
Abbreviation on_store := (st (Tree S) MstError).

Definition tree_new (s : S) : Tree S := MkStoreTree new s [].
Definition tree_load (s : S) (r : Cid) : Tree S := MkStoreTree (load_tree r) s [].

(** A method of the tree inside, reading from the store. *)
Definition on_inner {A} (m : Source -> method A) : on_store A := fun t =>
  let '(r, inner) := m (store_source (store t)) (inner t) in (r, MkStoreTree inner (store t) (unsaved t)).

Definition tree_get (key : bytes) : on_store (option Cid) := on_inner (fun src => get src key).
Definition tree_insert (key : bytes) (cid : Cid) : on_store () := _ ← on_inner (fun src => insert src key cid); mret ().
Definition tree_remove (key : bytes) : on_store (option Cid) := on_inner (fun src => remove src key).
Definition tree_entries : on_store (list (bytes * Cid)) := on_inner entries.

Definition tree_walk {X} (f : bytes -> Cid -> st X MstError ()) : st (Tree S * X) MstError () := fun '(t, x) =>
  let '(r, (inner, x)) := walk (store_source (store t)) f (inner t, x) in (r, (MkStoreTree inner (store t) (unsaved t), x)).

(** [while let Some(..) = self.unsaved.last() { .. }], on the blocks from the
    last to the first. *)
Fixpoint save (pending : list (Cid * bytes)) (s : S) : res MstError () * (list (Cid * bytes) * S) :=
  match pending with
  | [] => (Ok (), ([], s))
  | (c, data) :: pending' =>
      match put_block c data s with
      | (Ok _, s) => save pending' s
      | (Err e, s) => (Err e, (pending, s))
      | (Panic, s) => (Panic, (pending, s))
      end
  end.

Definition save_unsaved : on_store () := fun t =>
  let '(r, (pending, s)) := save (rev (unsaved t)) (store t) in (r, MkStoreTree (inner t) s (rev pending)).

Definition tree_root_cid : on_store Cid :=
  write ← on_inner (fun _ => flush);
  _ ← modify (fun t => MkStoreTree (inner t) (store t) (unsaved t ++ new_blocks write));
  _ ← save_unsaved;
  mret (w_root write).
End Tree.

(** ** The difference of two trees *)

Record Diff := MkDiff {
  added : list (bytes * Cid);
  updated : list (bytes * Cid * Cid);
  removed : list (bytes * Cid)
}.

Definition no_diff : Diff := MkDiff [] [] [].

Definition push_added (e : bytes * Cid) (d : Diff) : Diff := MkDiff (added d ++ [e]) (updated d) (removed d).
Definition push_updated (e : bytes * Cid * Cid) (d : Diff) : Diff := MkDiff (added d) (updated d ++ [e]) (removed d).
Definition push_removed (e : bytes * Cid) (d : Diff) : Diff := MkDiff (added d) (updated d) (removed d ++ [e]).

(** The three loops over what is left of the two lists. *)
Fixpoint diff_entries (left : kvs) : kvs -> Diff -> Diff :=
  fix right_loop (right : kvs) (result : Diff) : Diff :=
    match left, right with
    | (lk, lv) :: left', (rk, rv) :: right' =>
        match bytes_cmp lk rk with
        | Eq => diff_entries left' right' (if bool_decide (lv = rv) then result else push_updated (lk, lv, rv) result)
        | Lt => diff_entries left' right (push_removed (lk, lv) result)
        | Gt => right_loop right' (push_added (rk, rv) result)
        end
    | (lk, lv) :: left', [] => diff_entries left' [] (push_removed (lk, lv) result)
    | [], (rk, rv) :: right' => right_loop right' (push_added (rk, rv) result)
    | [], [] => result
    end.

Definition diff `{Sha2} `{Simdutf8} {S : Type} `{BlockStore S} : st (Tree S * Tree S) MstError Diff := fun '(lt, rt) =>
  match tree_entries lt with
  | (Ok left_entries, lt) =>
      match tree_entries rt with
      | (Ok right_entries, rt) => (Ok (diff_entries left_entries right_entries no_diff), (lt, rt))
      | (Err e, rt) => (Err e, (lt, rt))
      | (Panic, rt) => (Panic, (lt, rt))
      end
  | (Err e, lt) => (Err e, (lt, rt))
  | (Panic, lt) => (Panic, (lt, rt))
  end.
