(* ===== verification/MstDetachedSpec.v ===== *)
(** [DetachedTree] as a map: from a source that serves the blocks of a tree,
    its methods read and change the map the tree stands for, a failure
    leaves it as it was, and a flush accounts for every block. *)
From S2P Require Import Prelude StateError SyntaxError CborError Cid CborDecode CborCodec MstHeight SortedMap MstNode MstTree MstShape MstMutate MstRemove MstFlush MstLoad MstLoadSpec MstLoaded MstDetached.

(** ** The counts *)

(** The CIDs that nodes carry. *)
Definition held (t : DetachedTree) : list Cid := cids_of (root t) ++ option_list (empty_root t).

(** Every CID is counted as often as nodes carry it or gave it up since the
    last flush, and no count is zero. *)
Definition refs_ok (t : DetachedTree) : Prop :=
  (forall c, default 0 (refs t !! c) = count c (held t) + count c (released t))%nat /\
  forall c, refs t !! c <> Some 0%nat.

Lemma refs_ok_dom t c : refs_ok t -> is_Some (refs t !! c) <-> (0 < count c (held t) + count c (released t))%nat.
Proof.
  intros [Hc Hz]. specialize (Hc c). specialize (Hz c). destruct (refs t !! c) as [[|k]|]; cbn in Hc; [done|..].
  - split; [lia|by eexists].
  - split; [by intros []|lia].
Qed.

(** A mutation keeps the CIDs it gives up in the list of released ones. *)
Lemma refs_ok_mutated t t' : refs_ok t -> refs t' = refs t ->
  held t' ++ released t' ≡ₚ held t ++ released t -> refs_ok t'.
Proof.
  intros [Hc Hz] Hr Hp. unfold refs_ok. rewrite Hr. split; [|done]. intros c. specialize (Hc c).
  rewrite perm_count in Hp. specialize (Hp c). rewrite !count_app in Hp. lia.
Qed.

(** ** Loading a path *)

(** Reading what is loaded needs no source. *)
Lemma get_node_ready `{Sha2} `{Simdutf8} src fuel key at_ n rf : path_ready key n -> (levels n <= fuel)%nat ->
  exists v, get_node fuel src key at_ (n, rf) = (Ok v, (n, rf)) /\ finds key n v.
Proof.
  intros Hr. revert fuel at_ rf. induction Hr as [n i Hl Hs|n i Hl Hs Hc|n i c Hl Hs Hc Hr IH]; intros fuel at_ rf Hf;
    (destruct fuel as [|fuel]; [destruct n; cbn in Hf; lia|]); cbn [get_node];
    rewrite (st_bind_run _ _ (n, rf) () (n, rf)) by (unfold ensure_loaded, load, mbind, st_bind; by rewrite Hl);
    rewrite (st_bind_run _ _ (n, rf) n (n, rf)) by done; rewrite Hs.
  - pose proof (search_spec _ _ _ _ Hs) as (_ & _ & e & He & _). exists (Some (e_val e)). rewrite He. split; [done|by eapply finds_here].
  - exists None. unfold on_child. rewrite Hc. split; [done|by eapply finds_none].
  - pose proof (child_levels n i c Hc). destruct (IH fuel (child_place (n_entries n) i at_) rf ltac:(lia)) as (v & Hrun & Hv).
    exists v. unfold on_child. rewrite Hc, Hrun, set_child_same by done. split; [done|by eapply finds_below].
Qed.

Lemma remove_ready_path key top n : remove_ready key top n -> path_ready key n.
Proof.
  induction 1 as [top n i e Hn Hs He Hm|top n i Hn Hs Hc|top n i c Hn Hs Hc Hr IH];
    [by eapply ready_found|by eapply ready_end|by eapply ready_down].
Qed.

Definition visited (key : bytes) (visit : Visit) (n : Node) : Prop :=
  match visit with Lookup => path_ready key n | Remove => remove_ready key true n end.

Lemma visited_path key visit n : visited key visit n -> path_ready key n.
Proof. destruct visit; [done|apply remove_ready_path]. Qed.

Section Paths.
Context `{Sha2} `{Simdutf8} (src : Source).
(** The counts after a traversal of the root. *)
Lemma refs_ok_loaded t n n' rf : root t = Some n -> refs_ok t -> kept (cids n) (cids n') (refs t) rf ->
  refs_ok (set_refs rf (set_root (Some n') t)).
Proof.
  intros Hr [Hc Hz] [Hk Hkz]. split; [|by apply Hkz]. intros c. specialize (Hc c). specialize (Hk c).
  unfold held in *. rewrite Hr in Hc. cbn [root refs set_refs set_root empty_root released cids_of opt_map] in *.
  rewrite !count_app in *. lia.
Qed.

(** [t'] is [t] with more of its root loaded, to [n']. *)
Definition loaded_more (t : DetachedTree) (n : Node) (t' : DetachedTree) (n' : Node) : Prop :=
  loads src ROOT n n' /\ root t' = Some n' /\ refs_ok t' /\
  released t' = released t /\ empty_root t' = empty_root t /\ poisoned t' = poisoned t.

Lemma on_root_run {A} (none : A) m t n Q : root t = Some n -> refs_ok t ->
  run_ok src ROOT (m n) n (refs t) Q ->
  let '(r, t') := on_root none m t in
  exists n', loaded_more t n t' n' /\ match r with Ok a => Q n' a | Err _ => True | Panic => False end.
Proof.
  intros Hr Hok. unfold run_ok, on_root. rewrite Hr. destruct (m n (n, refs t)) as [r [n' refs']].
  intros (Hl & Hk & Hq). exists n'. split; [|done]. split_and!; try done. by eapply refs_ok_loaded.
Qed.

Hypothesis src_no_panic : forall c, no_panic (src c).

Lemma calls_push_entry l s : calls push_entry l s = (Ok (), s ++ l).
Proof.
  revert s. induction l as [|[k v] l IH]; intros s; [by rewrite app_nil_r|].
  unfold calls. cbn [for_each]. rewrite (st_bind_run _ _ s () (s ++ [(k, v)])) by done.
  change (calls push_entry l (s ++ [(k, v)]) = (Ok (), s ++ (k, v) :: l)). by rewrite IH, <- app_assoc.
Qed.

Lemma entries_run `{!Stubs} t n : root t = Some n -> refs_ok t -> poisoned t = false ->
  let '(r, t') := entries src t in
  exists n', loaded_more t n t' n' /\ match r with Ok es => full n' /\ es = contents n' | Err _ => True | Panic => False end.
Proof.
  intros Hr Hok Hp. unfold entries, walk, check_usable. rewrite Hp, Hr.
  pose proof (walk_node_ok src src_no_panic push_entry ltac:(done) (load_fuel n ROOT) ROOT n (refs t) [] (Nat.le_refl _)) as Hw.
  unfold walk_ok in Hw. destruct (walk_node _ _ _ _ _) as [r [[n' rf] es]]. destruct Hw as (Hl & Hk & Hq).
  assert (Hmore : loaded_more t n (set_refs rf (set_root (Some n') t)) n') by (split_and!; try done; by eapply refs_ok_loaded).
  destruct r as [[]|e|]; [|by exists n'|done]. exists n'. split; [done|]. destruct Hq as [Hf Hc]. split; [done|].
  rewrite calls_push_entry in Hc. by injection Hc as <-.
Qed.

Lemma load_key_path_run key visit n rf : run_ok src ROOT
  (missing ← visit_key_path (S (load_fuel n ROOT)) src key visit true ROOT;
   match missing with
   | cid :: _ => fail (BlockNotFound cid)
   | [] => n ← the_node; get_node (load_fuel n ROOT) NoBlocks key ROOT
   end) n rf (fun n' v => visited key visit n' /\ finds key n' v).
Proof.
  eapply run_ok_bind; [apply visit_key_path_ok; [done|lia]|]. intros n' rf' [|cid ms] _ Hq.
  - specialize (Hq eq_refl). apply the_node_ok.
    destruct (get_node_ready NoBlocks (load_fuel n' ROOT) key ROOT n' rf') as (v & Hrun & Hv);
      [by eapply visited_path|unfold load_fuel; lia|].
    unfold run_ok. rewrite Hrun. split; [constructor|split; [apply kept_refl|]]. split; [|done]. by destruct visit.
  - split; [constructor|split; [apply kept_refl|done]].
Qed.

(** The traversal [load_key_path] makes of the root. *)
Lemma load_key_path_Some key visit t n : root t = Some n -> refs_ok t ->
  let '(r, t') := load_key_path src key visit t in
  exists n', loaded_more t n t' n' /\ match r with Ok v => visited key visit n' /\ finds key n' v | Err _ => True | Panic => False end.
Proof. intros Hr Ho. unfold load_key_path. by apply on_root_run; [..|apply load_key_path_run]. Qed.
End Paths.

(** A lookup in loaded nodes is a lookup in the contents. *)
Lemma finds_get `{Stubs} key n v : finds key n v -> ordered (contents n) -> v = SortedMap.get key (contents n).
Proof.
  induction 1 as [n i e Hl Hs He|n i Hl Hs Hc|n i c v Hl Hs Hc _ IH]; intros Ho.
  - apply cut_present in Hs as (e' & He' & _ & Hcon & Hb & _); [|done..]. rewrite He in He'. injection He' as <-.
    by rewrite Hcon, get_mid.
  - destruct (absent_child n key i Hl Ho Hs) as [_ Hk]. by rewrite Hk, Hc.
  - destruct (absent_child n key i Hl Ho Hs) as [Hoc Hk]. rewrite Hc in Hoc, Hk. rewrite Hk. by apply IH.
Qed.

(** ** The tree of a map *)

Section Honest.
Context `{Simdutf8Laws} `{Sha2Laws} `{!Stubs} `{!StubsLaws}.

(** A root of the right shape. A root that is not loaded may not know its
    height, but its block has entries. *)
Definition root_shape (n : Node) : Prop :=
  if n_loaded n then exists h, shape h n /\ n_entries n <> []
  else exists h c, n_cid n = Some c /\ stub_shape h c /\ 0 <= h /\
    tree_cid h (stub_contents c) = Some c /\ (cut_levels h (stub_contents c)).2 <> [].

(** The root of an empty tree that was loaded, or will be. *)
Definition root_empty (n : Node) : Prop :=
  exists c, n_cid n = Some c /\ map_root [] = Some c /\ n_height n = 0 /\
    if n_loaded n then n_left n = None /\ n_entries n = [] else stub_shape 0 c /\ stub_contents c = [].

Definition root_ok (n : Node) : Prop := root_shape n \/ root_empty n.

(** The tree stands for the map [l]. *)
Definition stands_for (t : DetachedTree) (l : kvs) : Prop :=
  poisoned t = false /\ refs_ok t /\ ordered l /\ Forall (fun e => is_valid_key e.1 = true) l /\
  match root t with
  | Some n => (root_ok n /\ contents n = l) /\ empty_root t = None
  | None => l = [] /\ forall c, empty_root t = Some c -> map_root [] = Some c
  end.

Lemma entries_nonempty h n e : n_loaded n = true -> shape h n -> e ∈ contents n -> height_for_key e.1 = h -> n_entries n <> [].
Proof.
  intros Hl Hs He Hh Hnil. apply shape_to_bare, bare_loaded in Hs as (_ & _ & Hleft & _); [|done..].
  rewrite contents_loaded, Hnil in He by done. cbn in He. rewrite app_nil_r in He.
  apply shape_of_heights in Hleft. apply (proj1 (Forall_forall _ _) Hleft) in He. cbn beta in He. lia.
Qed.

Lemma cut_levels_nonempty h (l : kvs) : (cut_levels h l).2 <> [] <-> exists e, e ∈ l /\ height_for_key e.1 = h.
Proof.
  induction l as [|e l IH]; cbn [cut_levels].
  - split; [done|]. intros (e & He & _). by apply elem_of_nil in He.
  - destruct (cut_levels h l) as [pre segs]. cbn [snd] in IH. destruct (Z.eqb_spec (height_for_key e.1) h) as [Hh|Hh]; cbn [snd].
    + split; [|done]. intros _. exists e. split; [by left|done].
    + rewrite IH. split; intros (d & Hd & Hdh); exists d; (split; [|done]); [by right|].
      by apply elem_of_cons in Hd as [->|Hd].
Qed.

Lemma root_shape_loaded n : n_loaded n = true -> root_shape n <-> exists h, shape h n /\ n_entries n <> [].
Proof. unfold root_shape. by intros ->. Qed.

(** A node in the right shape with a key of its own height. *)
Lemma root_shape_intro h n e : n_loaded n = true -> shape h n -> e ∈ contents n -> height_for_key e.1 = h -> root_shape n.
Proof.
  intros Hl Hs He Hh. apply root_shape_loaded; [done|]. exists h. split; [done|]. by eapply entries_nonempty.
Qed.

(** The key of an entry of a node has its height. *)
Lemma entry_in_contents h n e : n_loaded n = true -> shape h n -> e ∈ n_entries n ->
  kv e ∈ contents n /\ height_for_key (kv e).1 = h.
Proof.
  intros Hl Hs He. apply shape_to_bare, bare_loaded in Hs as (_ & _ & _ & Hes); [|done..].
  apply (proj1 (Forall_forall _ _) Hes) in He as Hh. destruct Hh as [Hh _]. split; [|done]. rewrite contents_loaded by done.
  apply elem_of_app. right. apply list_elem_of_split in He as (a & b & ->). rewrite entries_contents_app, entries_contents_cons. set_solver.
Qed.

(** The root [trim_top] leaves. *)
Lemma root_shape_rooted h n : rooted n -> shape h n -> root_shape n.
Proof.
  unfold rooted, root_shape. destruct (n_loaded n) eqn:Hl; intros Hr Hs; [by exists h|].
  destruct n as [l es c ht ld]. cbn in Hl, Hr. subst ld ht. destruct Hs as (Hh & Hnn & Hok & Hst). cbn [n_cid contents] in *.
  destruct c as [c|]; [|done]. exists h, c. specialize (Hok c eq_refl). split_and!; [done..|]. apply cut_levels_nonempty.
  destruct (stub_contents c) as [|e s] eqn:Hc; [done|]. exists e. split; [by left|].
  pose proof (stub_heights h c Hst) as Hle. rewrite Hc in Hle. inversion_clear Hle as [|? ? He _].
  pose proof (height_for_key_range e.1). lia.
Qed.

Lemma root_empty_contents n : root_empty n -> contents n = [].
Proof.
  intros (c & Hc & _ & _ & Hn). destruct (n_loaded n) eqn:Hl.
  - destruct Hn as [Hleft Hes]. by rewrite contents_loaded, Hleft, Hes.
  - destruct n as [l es cd ht ld]. cbn in Hl, Hc. subst ld cd. apply Hn.
Qed.

Lemma root_empty_hollow n : root_empty n -> n_loaded n = true -> hollow n.
Proof.
  intros (c & _ & _ & _ & Hn) Hl. rewrite Hl in Hn. destruct n as [l es cd ht ld]. cbn in *. destruct Hn as [-> ->]. subst ld. constructor.
Qed.

(** A loaded root with a key in it. *)
Lemma root_ok_loaded n e : root_ok n -> n_loaded n = true -> e ∈ contents n -> exists h, shape h n /\ n_entries n <> [].
Proof.
  intros [Hs|Hs] Hl He; [by apply root_shape_loaded|]. rewrite (root_empty_contents n Hs) in He. by apply elem_of_nil in He.
Qed.

Lemma load_step_root src n n' : faithful src -> load_step src ROOT n n' -> root_shape n ->
  contents n' = contents n /\ root_shape n'.
Proof.
  intros Hf Hstep Hn. destruct (n_loaded n) eqn:Hl.
  - pose proof Hn as (h & Hs & He)%root_shape_loaded; [|done].
    destruct (load_step_faithful src Hf ROOT n n' Hstep h Hs) as (Hc & Hs1 & _). split; [done|].
    inversion Hstep as [? ? ? ? ? ? Hl0|at_ m i c c' Hl0 Hch Hst]; subst; [congruence|].
    apply root_shape_loaded; [by rewrite set_child_loaded|]. exists h. split; [done|].
    intros Hnil. pose proof (keys_length _ _ (set_child_keys n i (Some c'))) as Hlen. rewrite Hnil in Hlen.
    symmetry in Hlen. by apply nil_length_inv in Hlen.
  - unfold root_shape in Hn. rewrite Hl in Hn. destruct Hn as (h & c & Hc & Hst & Hh & Htc & Hcut).
    inversion Hstep as [? ? ? cid data nd ? Hcid Hd Hsrc Hdec Hpop|at_ m i c0 c' Hl0]; subst; [|congruence].
    rewrite Hc in Hcid. injection Hcid as <-.
    assert (nd = list_node h (stub_contents c)) as -> by (by eapply faithful_decode).
    destruct (populate_stub h n c n' ROOT Hl Hc Hst Hh Htc (or_intror Hcut) Hpop) as [Hcon Hs1].
    assert (Hcn : contents n = stub_contents c).
    { destruct n as [l es cd ht ld]. cbn in Hl, Hc. by subst. }
    split; [congruence|]. apply cut_levels_nonempty in Hcut as (e & He & Hhe). rewrite <- Hcon in He.
    eapply root_shape_intro; [|done..]. by apply populate_node_Ok in Hpop as (? & _ & _ & ->).
Qed.

Lemma load_step_empty src n n' : faithful src -> load_step src ROOT n n' -> root_empty n -> root_empty n'.
Proof.
  intros Hf Hstep (c & Hc & Hroot & Hht & Hn).
  inversion Hstep as [? ? ? cid data nd Hl Hcid Hd Hsrc Hdec Hpop|at_ m i c0 c' Hl Hch]; subst; rewrite Hl in Hn.
  - destruct Hn as [Hst Hcon]. rewrite Hc in Hcid. injection Hcid as <-.
    assert (nd = list_node 0 (stub_contents c)) as -> by (by eapply faithful_decode). rewrite Hcon in Hpop.
    injection Hpop as <-. exists c. by split_and!.
  - destruct Hn as [Hleft Hes]. unfold child in Hch. rewrite Hleft, Hes in Hch. by destruct i.
Qed.

Lemma loads_root src n n' : faithful src -> loads src ROOT n n' -> root_ok n ->
  contents n' = contents n /\ root_ok n'.
Proof.
  intros Hf. induction 1 as [n|n n1 n' Hstep _ IH]; [done|]. intros Hn.
  enough (contents n1 = contents n /\ root_ok n1) as [Hc Hr] by (destruct (IH Hr); split; [congruence|done]).
  destruct Hn as [Hn|Hn].
  - destruct (load_step_root src n n1 Hf Hstep Hn) as [Hc Hr]. split; [done|by left].
  - pose proof (load_step_empty src n n1 Hf Hstep Hn) as Hn1. rewrite !root_empty_contents by done. split; [done|by right].
Qed.

Lemma is_valid_key_chars key : is_valid_key key = true -> Forall (fun b => key_char b = true \/ b = ch_slash) key.
Proof.
  unfold is_valid_key. destruct (position _ key) as [i|] eqn:Hp; [|done]. rewrite !andb_true_iff, !forallb_Forall.
  intros [[_ Ha1] Ha2]. apply position_cut in Hp as (b & Hb & Hk & _). rewrite Hk. apply Forall_app. split.
  - eapply Forall_impl; [exact Ha1|]. auto.
  - constructor; [right; lia|]. eapply Forall_impl; [exact Ha2|]. auto.
Qed.

Lemma valid_keys_u8 l : Forall (fun e => is_valid_key e.1 = true) l -> keys_u8 l.
Proof.
  intros Hl. eapply Forall_impl; [exact Hl|]. intros e He. eapply Forall_impl; [by apply is_valid_key_chars|].
  intros b [Hb| ->]; [|unfold is_u8; lia]. unfold key_char in Hb. apply orb_true_iff in Hb as [Hb|Hb]; [ascii_lia|].
  apply List.existsb_exists in Hb as (c & Hc & Hbc). assert (b = c) as -> by lia.
  assert (Hu : Forall is_u8 (b# "_~-:.")) by (by apply u8_literal). rewrite List.Forall_forall in Hu. by apply Hu.
Qed.

(** ** [get], [insert] and [remove] *)

Section Methods.
Context (src : Source).
Hypothesis src_no_panic : forall c, no_panic (src c).
Hypothesis Hfaithful : faithful src.

(** The tree after a traversal that loaded some nodes. *)
Lemma stands_for_loaded t t' n n' l : stands_for t l -> root t = Some n ->
  loaded_more src t n t' n' -> stands_for t' l.
Proof.
  intros (Hp & _ & Ho & Hv & Hr) Hn (Hl & Hn' & Hok & _ & Hemp & Hpo). rewrite Hn in Hr. destruct Hr as [[Hs Hc] He].
  destruct (loads_root src n n' Hfaithful Hl Hs) as [Hc' Hs']. unfold stands_for. rewrite Hn'. split_and!; congruence || done.
Qed.

Lemma get_stands_for t l key : stands_for t l ->
  let '(r, t') := get src key t in
  stands_for t' l /\ match r with Ok v => v = SortedMap.get key l | Err _ => True | Panic => False end.
Proof.
  intros Ht. pose proof Ht as (Hp & Hok & Ho & Hv & Hr). unfold get.
  rewrite (st_bind_run _ _ t () t) by (unfold check_usable; by rewrite Hp).
  destruct (root t) as [n|] eqn:Hn.
  - pose proof (on_root_run src None (fun n => get_node (load_fuel n ROOT) src key ROOT) t n (finds key) Hn Hok) as Hrun.
    specialize (Hrun (get_node_ok src src_no_panic (load_fuel n ROOT) key ROOT n (refs t) (Nat.le_refl _))).
    destruct (on_root _ _ t) as [r t']. destruct Hrun as (n' & Hm & Hq).
    split; [by eapply stands_for_loaded|]. destruct r as [v|e|]; [|done..]. destruct Hr as [[Hs Hc] _].
    pose proof Hm as (Hl & _). destruct (loads_root src n n' Hfaithful Hl Hs) as [Hc' _]. rewrite <- Hc, <- Hc' in *. by apply finds_get.
  - unfold on_root. rewrite Hn. split; [done|]. by destruct Hr as [-> _].
Qed.

Lemma entries_stands_for t l : stands_for t l ->
  let '(r, t') := entries src t in
  stands_for t' l /\ match r with Ok es => es = l | Err _ => True | Panic => False end.
Proof.
  intros Ht. pose proof Ht as (Hp & Hok & Ho & Hv & Hr). destruct (root t) as [n|] eqn:Hn.
  - pose proof (entries_run src src_no_panic t n Hn Hok Hp) as Hrun. destruct (entries src t) as [r t'].
    destruct Hrun as (n' & Hm & Hq). split; [by eapply stands_for_loaded|]. destruct r as [es|e|]; [|done..].
    destruct Hr as [[Hs Hc] _], Hq as [_ ->]. pose proof Hm as (Hl & _).
    destruct (loads_root src n n' Hfaithful Hl Hs) as [Hc' _]. congruence.
  - unfold entries, walk, check_usable. rewrite Hp, Hn. split; [done|]. by destruct Hr.
Qed.

(** What [load_key_path] leaves. *)
Lemma load_key_path_stands_for t l key visit : stands_for t l ->
  let '(r, t') := load_key_path src key visit t in
  stands_for t' l /\
  match r with
  | Ok v => v = SortedMap.get key l /\
      match root t' with Some n => visited key visit n /\ n_loaded n = true | None => True end
  | Err _ => True
  | Panic => False
  end.
Proof.
  intros Ht. pose proof Ht as (Hp & Hok & Ho & Hv & Hr). destruct (root t) as [n|] eqn:Hn.
  - pose proof (load_key_path_Some src src_no_panic key visit t n Hn Hok) as Hrun.
    destruct (load_key_path src key visit t) as [r t']. destruct Hrun as (n' & Hm & Hq).
    split; [by eapply stands_for_loaded|]. destruct r as [v|e|]; [|done..]. destruct Hr as [[Hs Hc] _], Hq as [Hvis Hf].
    pose proof Hm as (Hl & Hn' & _). destruct (loads_root src n n' Hfaithful Hl Hs) as [Hc' _]. rewrite <- Hc, <- Hc' in *. rewrite Hn'. split; [by apply finds_get|].
    split; [done|]. by apply visited_path, path_ready_loaded in Hvis.
  - unfold load_key_path, on_root. rewrite Hn. split; [done|]. destruct Hr as [-> _]. by rewrite Hn.
Qed.

(** Setting the value of a key that is there. *)
Lemma update_stands_for t l key v w n : stands_for t l -> root t = Some n -> path_ready key n ->
  SortedMap.get key l = Some w ->
  exists n' rel, update_node (S (span n)) n key v (released t) = (Ok n', rel) /\
    stands_for (set_root (Some n') (set_released rel t)) (upsert key v l).
Proof.
  intros (Hp & Hok & Ho & Hv & Hr) Hn Hready Hk. rewrite Hn in Hr. destruct Hr as [[Hs Hc] Hemp]. rewrite <- Hc in Ho, Hk.
  destruct (update_node_spec (S (span n)) n key v w (released t) ltac:(lia) Hready Ho Hk)
    as (n' & rel & Hrun & Hl' & _ & Hc' & Hp' & Hsh).
  exists n', rel. split; [done|]. rewrite <- Hc in *. unfold stands_for. split; [done|].
  split; [apply (refs_ok_mutated t); [done..|]|].
  { unfold held. cbn [root empty_root released set_root set_released cids_of opt_map]. rewrite Hn. cbn [cids_of opt_map]. perm_lia. }
  split; [by apply ordered_upsert|]. split.
  { apply Forall_forall. intros e He. destruct (upsert_in _ _ _ _ He) as [->|Hin]; [|by apply (proj1 (Forall_forall _ _) Hv)].
    apply get_Some_in in Hk. by apply (proj1 (Forall_forall _ _) Hv) in Hk. }
  cbn [root set_root]. split; [|done]. split; [|done]. pose proof (path_ready_loaded _ _ Hready) as Hl.
  left. apply get_Some_in in Hk. destruct (root_ok_loaded n _ Hs Hl Hk) as (h & Hs' & He). destruct (n_entries n) as [|e es] eqn:Hes; [done|].
  destruct (entry_in_contents h n e Hl Hs' ltac:(rewrite Hes; by left)) as [Hin Hh].
  destruct (upsert_keys key v _ _ Ho Hin) as [x Hx]. eapply root_shape_intro; [done|by apply Hsh|by rewrite Hc'|done].
Qed.

(** [insert_node] on a root. *)
Lemma insert_root_spec o key v rel : match o with Some n => root_ok n | None => True end -> path_ready_of key o ->
  ordered (contents_of o) -> SortedMap.get key (contents_of o) = None ->
  exists n' rel', insert_node (insert_fuel o (height_for_key key)) o key v (height_for_key key) rel = (Ok n', rel') /\
    n_loaded n' = true /\ contents n' = upsert key v (contents_of o) /\ cids n' ++ rel' ≡ₚ cids_of o ++ rel /\ root_shape n'.
Proof.
  intros Hok Hready Ho Hk. pose proof (proj1 (height_for_key_range key)) as Hpos.
  assert (Hnew : root_shape (fresh (height_for_key key) None [MkEntry key v None])).
  { apply root_shape_loaded; [done|]. exists (height_for_key key). split; [|done]. apply shape_fresh; [done..|].
    split_and!; [done..|]. by repeat constructor. }
  destruct o as [n|]; [|by exists (fresh (height_for_key key) None [MkEntry key v None]), rel].
  cbn [path_ready_of contents_of opt_map] in *. pose proof (path_ready_loaded _ _ Hready) as Hl. destruct Hok as [Hs|Hs].
  - apply root_shape_loaded in Hs as (h & Hs & He); [|done].
    destruct (insert_node_spec _ (Some n) key v (height_for_key key) rel (Nat.le_refl _) Hpos Hready Ho Hk)
      as (n' & rel' & Hrun & Hl' & _ & Hc' & Hp' & Hsh).
    exists n', rel'. split_and!; [done..|]. specialize (Hsh eq_refl Hpos h Hs (fun _ => not_empty n He)).
    assert (Hkin : (key, v) ∈ contents n') by (rewrite Hc'; unfold upsert; set_solver).
    destruct (Z.max_spec h (height_for_key key)) as [[_ Hm]|[_ Hm]]; rewrite Hm in Hsh; [by eapply root_shape_intro|].
    destruct (n_entries n) as [|e es] eqn:Hes; [done|].
    destruct (entry_in_contents h n e Hl Hs ltac:(rewrite Hes; by left)) as [Hin Hh].
    destruct (upsert_keys key v _ _ Ho Hin) as [x Hx]. eapply root_shape_intro; [done..|by rewrite Hc'|done].
  - pose proof Hs as (c & _ & _ & Hht & _).
    destruct (insert_node_hollow _ n key v (height_for_key key) rel (root_empty_hollow n Hs Hl) ltac:(lia) (Nat.le_refl _)) as (rel' & Hrun & Hp).
    eexists _, rel'. split; [done|]. rewrite (root_empty_contents n Hs). by split_and!.
Qed.

(** Adding a key. *)
Lemma add_stands_for t l key v : stands_for t l -> path_ready_of key (root t) -> is_valid_key key = true ->
  SortedMap.get key l = None ->
  let rel0 := released t ++ (if bool_decide (root t = None) then option_list (empty_root t) else []) in
  exists n' rel, insert_node (insert_fuel (root t) (height_for_key key)) (root t) key v (height_for_key key) rel0 = (Ok n', rel) /\
    forall t', root t' = Some n' -> refs t' = refs t -> released t' = rel -> poisoned t' = false ->
      empty_root t' = (if bool_decide (root t = None) then None else empty_root t) -> stands_for t' (upsert key v l).
Proof.
  intros (Hp & Hok & Ho & Hv & Hr) Hready Hkey Hk. cbn zeta. set (rel0 := released t ++ _).
  assert (Hc : contents_of (root t) = l) by (destruct (root t); [apply Hr|symmetry; apply Hr]). rewrite <- Hc in Ho, Hk.
  destruct (insert_root_spec (root t) key v rel0) as (n' & rel & Hrun & Hl' & Hc' & Hp' & Hsh); [destruct (root t); [apply Hr|done]|done..|].
  exists n', rel. split; [done|]. intros t' Hroot Hrefs Hrel Hpo Hempty. rewrite <- Hc. unfold stands_for.
  split; [done|]. split; [apply (refs_ok_mutated t); [done..|]|].
  { unfold held. rewrite Hroot, Hrel, Hempty. cbn [cids_of opt_map]. unfold rel0 in Hp'.
    destruct (root t); cbn [bool_decide decide_rel cids_of opt_map] in *; case_bool_decide; try done; cbn [option_list] in *; perm_lia. }
  split; [by apply ordered_upsert|]. split.
  { apply Forall_forall. intros e He. destruct (upsert_in _ _ _ _ He) as [->|Hin]; [done|].
    rewrite Hc in Hin. by apply (proj1 (Forall_forall _ _) Hv). }
  rewrite Hroot. split; [split; [by left|done]|]. rewrite Hempty. case_bool_decide; [done|]. destruct (root t); [apply Hr|done].
Qed.

(** What [insert] and [remove] do once the path is loaded. *)
Definition insert_rest (key : bytes) (v : Cid) (prev : option Cid) : method (option Cid) :=
  if bool_decide (prev = Some v) then mret prev
  else match prev with
  | Some _ =>
      _ ← poisoning (fun t =>
        match root t with
        | Some n => (n ← mutate (update_node (S (span n)) n key v); modify (set_root (Some n))) t
        | None => (Err (internal "updated key is not in the tree"), t)
        end);
      mret prev
  | None =>
      let height := height_for_key key in
      r ← gets root;
      _ ← modify (set_root None);
      _ ← (if bool_decide (r = None)
           then modify (fun t => set_empty_root None (set_released (released t ++ option_list (empty_root t)) t))
           else mret ());
      n ← poisoning (mutate (insert_node (insert_fuel r height) r key v height));
      _ ← modify (set_root (Some n));
      mret prev
  end.

Definition remove_rest (key : bytes) (found : option Cid) : method (option Cid) :=
  if bool_decide (found = None) then mret None
  else
    r ← gets root;
    match r with
    | None => mret None
    | Some n =>
        _ ← modify (set_root None);
        '(n', removed) ← poisoning (mutate (remove_from_root n key));
        _ ← modify (set_root n');
        mret removed
    end.

Lemma insert_eq key v : insert src key v = (_ ← check_usable; if negb (is_valid_key key) then fail (InvalidKey key) else
  prev ← load_key_path src key Lookup; insert_rest key v prev).
Proof. reflexivity. Qed.

Lemma remove_eq key : remove src key = (_ ← check_usable; found ← load_key_path src key Remove; remove_rest key found).
Proof. reflexivity. Qed.

Definition path_visited (key : bytes) (visit : Visit) (t : DetachedTree) : Prop :=
  match root t with Some n => visited key visit n /\ n_loaded n = true | None => True end.

Lemma insert_rest_stands_for t l key v : stands_for t l -> is_valid_key key = true -> path_visited key Lookup t ->
  exists t', insert_rest key v (SortedMap.get key l) t = (Ok (SortedMap.get key l), t') /\ stands_for t' (upsert key v l) /\ refs t' = refs t.
Proof.
  intros Ht Hkey Hvis. pose proof Ht as (Hp & _ & Ho & _ & Hr). unfold insert_rest, path_visited in *. case_bool_decide as Hsame.
  { exists t. by rewrite upsert_same. }
  destruct (SortedMap.get key l) as [w|] eqn:Hprev.
  - destruct (root t) as [n|] eqn:Hn; [|destruct Hr as [-> _]; done]. destruct Hvis as [Hvis _].
    destruct (update_stands_for t l key v w n Ht Hn Hvis Hprev) as (n' & rel & Hrun & Ht2).
    erewrite st_bind_run; [|unfold poisoning; rewrite Hn; unfold mutate, mbind, st_bind; rewrite Hrun; reflexivity].
    eexists. split; [done|]. by split.
  - assert (Hready : path_ready_of key (root t)) by (destruct (root t); [apply Hvis|done]).
    destruct (add_stands_for t l key v Ht Hready Hkey Hprev) as (n' & rel & Hrun & Hend).
    rewrite (st_bind_run _ _ t (root t) t) by done. rewrite (st_bind_run _ _ t () (set_root None t)) by done.
    set (t2 := MkTree None (refs t) (released t ++ (if bool_decide (root t = None) then option_list (empty_root t) else []))
      (if bool_decide (root t = None) then None else empty_root t) (poisoned t)).
    rewrite (st_bind_run _ _ (set_root None t) () t2).
    2: { unfold t2. case_bool_decide; [done|]. unfold mret, st_ret, set_root. by rewrite app_nil_r. }
    erewrite st_bind_run; [|unfold poisoning, mutate; cbn [released t2]; rewrite Hrun; reflexivity].
    eexists. split; [done|]. split; [by apply Hend|done].
Qed.

Lemma insert_stands_for t l key v : stands_for t l ->
  let '(r, t') := insert src key v t in
  match r with
  | Ok prev => is_valid_key key = true /\ prev = SortedMap.get key l /\ stands_for t' (upsert key v l)
  | Err e => (is_valid_key key = false -> e = InvalidKey key) /\ stands_for t' l
  | Panic => False
  end.
Proof.
  intros Ht. rewrite insert_eq. rewrite (st_bind_run _ _ t () t) by (unfold check_usable; by rewrite (proj1 Ht)).
  destruct (is_valid_key key) eqn:Hkey; cbn [negb]; [|done].
  pose proof (load_key_path_stands_for t l key Lookup Ht) as Hload. destruct (load_key_path src key Lookup t) as [r1 t1] eqn:Hrun1.
  unfold mbind at 1, st_bind at 1. rewrite Hrun1. destruct Hload as [Ht1 Hq]. destruct r1 as [prev|e|]; [|done..].
  destruct Hq as [-> Hvis]. destruct (insert_rest_stands_for t1 l key v Ht1 Hkey Hvis) as (t' & -> & Ht' & _). done.
Qed.

Lemma remove_rest_stands_for t l key : stands_for t l -> path_visited key Remove t ->
  exists t', remove_rest key (SortedMap.get key l) t = (Ok (SortedMap.get key l), t') /\ stands_for t' (without key l) /\ refs t' = refs t.
Proof.
  intros Ht Hvis. pose proof Ht as (Hp & Hok & Ho & Hv & Hr). unfold remove_rest, path_visited in *. case_bool_decide as Hnone.
  { exists t. by rewrite Hnone, without_absent. }
  rewrite (st_bind_run _ _ t (root t) t) by done. destruct (root t) as [n|] eqn:Hn; [|destruct Hr as [-> _]; done].
  destruct Hvis as [Hvis Hl], Hr as [[Hs Hc] Hemp]. rewrite <- Hc in Ho, Hnone |- *.
  destruct (remove_from_root_spec n key (released t) Hvis Ho) as (m & rel & Hrun & Hcm & Hpm & Hsh & Hroot).
  rewrite (st_bind_run _ _ t () (set_root None t)) by done.
  erewrite st_bind_run; [|unfold poisoning, mutate; cbn [released set_root]; rewrite Hrun; reflexivity].
  eexists. split; [done|]. split; [|done]. unfold stands_for. split; [done|]. split; [apply (refs_ok_mutated t); [done..|]|].
  { unfold held. cbn. rewrite Hn. cbn [cids_of opt_map]. change (cids_of m ++ option_list (empty_root t)) with (cids_of m ++ option_list (empty_root t)). perm_lia. }
  split; [by apply ordered_without|]. split.
  { apply Forall_forall. intros e He%without_in. rewrite Hc in He. by apply (proj1 (Forall_forall _ _) Hv). }
  cbn. assert (Hin : exists e, e ∈ contents n).
  { destruct (SortedMap.get key (contents n)) as [w|] eqn:Hg; [|done]. exists (key, w). by apply get_Some_in. }
  destruct Hin as [e Hin]. destruct (root_ok_loaded n e Hs Hl Hin) as (h & Hs0 & He).
  destruct (Hsh h (conj Hs0 (not_empty n He))) as (h' & _ & Hs'). destruct m as [r|].
  - split; [split; [left|done]|done]. by apply (root_shape_rooted h'); [apply Hroot|apply Hs'].
  - split; [by symmetry|]. by rewrite Hemp.
Qed.

Lemma remove_stands_for t l key : stands_for t l ->
  let '(r, t') := remove src key t in
  match r with
  | Ok removed => removed = SortedMap.get key l /\ stands_for t' (without key l)
  | Err _ => stands_for t' l
  | Panic => False
  end.
Proof.
  intros Ht. rewrite remove_eq. rewrite (st_bind_run _ _ t () t) by (unfold check_usable; by rewrite (proj1 Ht)).
  pose proof (load_key_path_stands_for t l key Remove Ht) as Hload. destruct (load_key_path src key Remove t) as [r1 t1] eqn:Hrun1.
  unfold mbind at 1, st_bind at 1. rewrite Hrun1. destruct Hload as [Ht1 Hq]. destruct r1 as [found|e|]; [|done..].
  destruct Hq as [-> Hvis]. destruct (remove_rest_stands_for t1 l key Ht1 Hvis) as (t' & -> & Ht' & _). done.
Qed.
End Methods.
End Honest.
