(* ===== verification/MstFlushed.v ===== *)
(** [DetachedTree::flush]: the root it returns is that of the map alone, and
    its blocks and retired CIDs are what storage gains and loses. *)
From S2P Require Import Prelude StateError SyntaxError CborError Cid CborDecode CborCodec MstHeight SortedMap MstNode MstTree MstShape MstMutate MstRemove MstFlush MstLoad MstLoadSpec MstLoaded MstDetached MstDetachedSpec.

(** ** The three passes of [settle] *)

Lemma count_cons c d l : count c (d :: l) = ((if decide (d = c) then 1 else 0) + count c l)%nat.
Proof. unfold count. cbn. destruct (Cid_eq_dec d c), (decide (d = c)); done || lia. Qed.

Lemma count_in c l : (0 < count c l)%nat <-> c ∈ l.
Proof. rewrite list_elem_of_In. symmetry. apply (count_occ_In Cid_eq_dec). Qed.

Lemma refs_ok_load c : refs_ok (load_tree c).
Proof.
  split; intros d; cbn -[count]; (destruct (decide (c = d)) as [->|Hne]; [rewrite lookup_singleton_eq|rewrite lookup_singleton_ne by done]).
  - unfold held. cbn -[count]. rewrite count_cons, decide_True by done. cbn. lia.
  - unfold held. cbn -[count]. by rewrite count_cons, decide_False by done.
  - done.
  - done.
Qed.

Lemma release_Ok rf cs : (forall c, count c cs <= default 0 (rf !! c))%nat ->
  exists rf', release rf cs = (Ok (), rf') /\
    forall c, (default 0 (rf !! c) = default 0 (rf' !! c) + count c cs)%nat /\ (rf' !! c = None <-> rf !! c = None).
Proof.
  revert rf. induction cs as [|d cs IH]; intros rf Hle.
  { exists rf. split; [done|]. intros c. cbn. split; [lia|done]. }
  cbn [release]. pose proof (Hle d) as Hd. rewrite count_cons, decide_True in Hd by done.
  destruct (rf !! d) as [[|k]|] eqn:Hrd; cbn in Hd; [lia| |lia]. destruct (IH (<[d := k]> rf)) as (rf' & Hrun & Hc).
  { intros c. specialize (Hle c). rewrite count_cons in Hle. destruct (decide (d = c)) as [->|Hne].
    - rewrite lookup_insert_eq. rewrite Hrd in Hle. cbn in *. lia.
    - rewrite lookup_insert_ne by done. lia. }
  exists rf'. split; [done|]. intros c. destruct (Hc c) as [Hcount Hnone]. rewrite count_cons. destruct (decide (d = c)) as [->|Hne].
  - rewrite lookup_insert_eq in *. rewrite Hrd. cbn in *. split; [lia|]. rewrite Hnone. done.
  - rewrite lookup_insert_ne in * by done. split; [lia|done].
Qed.

Lemma retain_new_spec rf blocks : let '(new, rf') := retain_new rf blocks in
  (forall c, rf' !! c = if decide (c ∈ blocks.*1) then Some (default 0%nat (rf !! c) + count c blocks.*1)%nat else rf !! c) /\
  (forall c, c ∈ new.*1 <-> c ∈ blocks.*1 /\ rf !! c = None) /\ NoDup new.*1 /\ incl new blocks.
Proof.
  revert rf. induction blocks as [|[d data] blocks IH]; intros rf; cbn [retain_new fst].
  { split_and!; [|intros c; cbn; split; [by intros ?%elem_of_nil|by intros [?%elem_of_nil ?]]|apply NoDup_nil_2|apply incl_refl].
    intros c. rewrite decide_False; [done|]. apply not_elem_of_nil. }
  assert (Hrefs : forall (rf' : Refs) n, (forall c, rf' !! c = if decide (c ∈ blocks.*1)
      then Some (default 0%nat (<[d := n]> rf !! c) + count c blocks.*1)%nat else <[d := n]> rf !! c) ->
    n = S (default 0%nat (rf !! d)) -> forall c, rf' !! c = if decide (c ∈ ((d, data) :: blocks).*1)
      then Some (default 0%nat (rf !! c) + count c ((d, data) :: blocks).*1)%nat else rf !! c).
  { intros rf' n Hrf' -> c. rewrite Hrf'. cbn [fmap list_fmap fst]. rewrite count_cons. destruct (decide (d = c)) as [->|Hne].
    - rewrite lookup_insert_eq. rewrite (decide_True (P := c ∈ c :: _)) by (by left). case_decide as Hin; cbn [default].
      + f_equal. cbn. lia.
      + rewrite <- count_in in Hin. f_equal. lia.
    - rewrite lookup_insert_ne by done. case_decide as Hin.
      + rewrite decide_True by (by right). f_equal.
      + rewrite decide_False; [done|]. intros [->|?]%elem_of_cons; done. }
  destruct (rf !! d) as [n|] eqn:Hd.
  - specialize (IH (<[d := S n]> rf)). destruct (retain_new _ blocks) as [new rf']. destruct IH as (Hrf' & Hnew & Hdup & Hincl).
    split_and!; [by apply (Hrefs rf' (S n))| |done|by apply incl_tl]. intros c. rewrite Hnew. cbn [fmap list_fmap fst].
    rewrite elem_of_cons. destruct (decide (d = c)) as [->|Hne].
    + rewrite lookup_insert_eq. split; [by intros []|]. intros [_ Hc]. congruence.
    + rewrite lookup_insert_ne by done. naive_solver.
  - specialize (IH (<[d := 1%nat]> rf)). destruct (retain_new _ blocks) as [new rf']. destruct IH as (Hrf' & Hnew & Hdup & Hincl).
    assert (Hnd : d ∉ new.*1) by (rewrite Hnew, lookup_insert_eq; by intros []).
    split_and!; [by apply (Hrefs rf' 1%nat)| |by constructor|by apply incl_cons; [left|apply incl_tl]].
    intros c. cbn [fmap list_fmap fst]. rewrite !elem_of_cons, Hnew. destruct (decide (d = c)) as [->|Hne].
    + rewrite lookup_insert_eq. naive_solver.
    + rewrite lookup_insert_ne by done. naive_solver.
Qed.

Lemma retire_spec rf cs : let '(ret, rf') := retire rf cs in
  (forall c, rf' !! c = if decide (rf !! c = Some 0%nat /\ c ∈ cs) then None else rf !! c) /\
  (forall c, c ∈ ret <-> rf !! c = Some 0%nat /\ c ∈ cs) /\ NoDup ret.
Proof.
  revert rf. induction cs as [|d cs IH]; intros rf; cbn [retire].
  { split_and!; [|intros c; split; [by intros ?%elem_of_nil|by intros [_ ?%elem_of_nil]]|apply NoDup_nil_2].
    intros c. rewrite decide_False; [done|]. by intros [_ ?%elem_of_nil]. }
  case_bool_decide as Hd.
  - specialize (IH (delete d rf)). destruct (retire _ cs) as [ret rf']. destruct IH as (Hrf' & Hret & Hdup).
    assert (Hnd : d ∉ ret) by (rewrite Hret, lookup_delete_eq; by intros []).
    split_and!; [| |by constructor].
    + intros c. rewrite Hrf'. destruct (decide (d = c)) as [->|Hne].
      * rewrite lookup_delete_eq. rewrite (decide_True (P := rf !! c = _ /\ _)) by (split; [done|by left]). by case_decide.
      * rewrite lookup_delete_ne by done. do 2 case_decide; set_solver.
    + intros c. rewrite elem_of_cons, Hret, elem_of_cons. destruct (decide (d = c)) as [->|Hne].
      * rewrite lookup_delete_eq. naive_solver.
      * rewrite lookup_delete_ne by done. naive_solver.
  - specialize (IH rf). destruct (retire rf cs) as [ret rf']. destruct IH as (Hrf' & Hret & Hdup). split_and!; [| |done].
    + intros c. rewrite Hrf'. do 2 case_decide; set_solver.
    + intros c. rewrite Hret, elem_of_cons. naive_solver.
Qed.

(** Sorting CIDs. *)
Lemma cid_le_total a b : cid_le a b \/ cid_le b a.
Proof.
  unfold cid_le, cid_cmp. rewrite (Z.compare_antisym (codec_byte (codec a))), (bytes_cmp_antisym (hash a)).
  destruct (_ ?= _), (bytes_cmp (hash a) (hash b)); cbn; (by left) || (by right).
Qed.

#[export] Instance cid_le_is_total : Total cid_le := cid_le_total.

(** What storage is told: the blocks of [rf'] that are not in [rf], and the
    CIDs of [rf] that are not in [rf'], each once. *)
Definition accounts (rf rf' : Refs) (w : TreeWrite) : Prop :=
  (forall c, c ∈ (new_blocks w).*1 <-> rf !! c = None /\ is_Some (rf' !! c)) /\ NoDup (new_blocks w).*1 /\
  (forall c, c ∈ retired w <-> is_Some (rf !! c) /\ rf' !! c = None) /\ NoDup (retired w) /\ Sorted cid_le (retired w).

(** [settle], once the nodes carry the CIDs of the blocks written. *)
Lemma settle_spec t blocks r :
  (forall c, default 0 (refs t !! c) + count c blocks.*1 = count c (held t) + count c (released t))%nat ->
  (forall c, count c (released t) <= default 0 (refs t !! c))%nat -> (forall c, refs t !! c <> Some 0%nat) ->
  exists w rf', settle blocks r t = (Ok w, set_released [] (set_refs rf' t)) /\
    refs_ok (set_released [] (set_refs rf' t)) /\ w_root w = r /\ accounts (refs t) rf' w /\ incl (new_blocks w) blocks.
Proof.
  intros Hcount Hrel Hz. unfold settle. destruct (release_Ok (refs t) (released t) Hrel) as (rf1 & -> & H1).
  pose proof (retain_new_spec rf1 blocks) as H2. destruct (retain_new rf1 blocks) as [new rf2]. destruct H2 as (H2 & Hnew & Hdup & Hincl).
  pose proof (retire_spec rf2 (released t)) as H3. destruct (retire rf2 (released t)) as [ret rf3]. destruct H3 as (H3 & Hret & Hdret).
  assert (Hrf3 : forall c, default 0%nat (rf3 !! c) = count c (held t) /\ rf3 !! c <> Some 0%nat /\
    (c ∈ new.*1 <-> refs t !! c = None /\ is_Some (rf3 !! c)) /\ (c ∈ ret <-> is_Some (refs t !! c) /\ rf3 !! c = None)).
  { intros c. rewrite Hnew, Hret, H3. specialize (H2 c). destruct (H1 c) as [Hc1 Hn1]. specialize (Hcount c). specialize (Hz c).
    pose proof (count_in c (released t)) as Hir. pose proof (count_in c blocks.*1) as Hib. rewrite Hn1. rewrite H2 in *.
    destruct (decide (c ∈ blocks.*1)) as [Hb|Hb].
    - apply Hib in Hb as Hb'. rewrite decide_False by (intros [[= ?] _]; lia). cbn. split; [lia|]. split; [intros [= ?]; lia|].
      split; [split; intros [? ?]; split; (done || by eexists)|]. split; [intros [[= ?] _]; lia|by intros []].
    - assert (count c blocks.*1 = 0%nat) as Hb0 by (rewrite <- Hib in Hb; lia). rewrite Hb0, Nat.add_0_r in Hcount.
      destruct (rf1 !! c) as [k|] eqn:Hr1.
      + destruct (refs t !! c) as [m|] eqn:Hrt; [|by specialize (proj2 Hn1 eq_refl)]. cbn in Hc1, Hcount.
        destruct (decide (Some k = Some 0%nat /\ c ∈ released t)) as [[[= ->] Hin]|Hno]; cbn.
        * split; [lia|]. split; [done|]. split; [by split; intros []|by split].
        * assert (k <> 0%nat). { intros ->. apply Hno. split; [done|]. apply Hir. destruct m; [done|lia]. }
          split; [lia|]. split; [congruence|]. split; [by split; intros []|]. split; [done|by intros []].
      + rewrite (proj1 Hn1 eq_refl) in *. rewrite decide_False by by intros []. cbn in *. split; [lia|]. split; [done|].
        split; [by split; intros []|]. split; [by intros []|by intros [[] _]]. }
  exists (MkWrite r new (sort_cids ret)), rf3. split; [done|]. split.
  { split; intros c; [|apply Hrf3]. change (default 0 (rf3 !! c) = count c (held t) + count c [])%nat.
    destruct (Hrf3 c) as [-> _]. cbn. lia. }
  split; [done|]. split; [|done]. unfold accounts, sort_cids. cbn [new_blocks MstDetached.retired]. split_and!.
  - intros c. apply Hrf3.
  - done.
  - intros c. rewrite merge_sort_Permutation. apply Hrf3.
  - by rewrite merge_sort_Permutation.
  - apply (Sorted_merge_sort cid_le).
Qed.

(** ** The root *)

Section Flushed.
Context `{Simdutf8Laws} `{Sha2Laws} `{!Stubs} `{!StubsLaws}.

Lemma tree_height_eq h l : 0 <= h -> Forall (fun e => height_for_key e.1 <= h) l ->
  (exists e, e ∈ l /\ height_for_key e.1 = h) -> tree_height l = h.
Proof.
  intros Hh Hle (e & He & Heh). assert (Hub : tree_height l <= h).
  { unfold tree_height. clear He. induction Hle as [|d l Hd _ IH]; cbn; [done|]. lia. }
  assert (Hlb : height_for_key e.1 <= tree_height l).
  { unfold tree_height. clear Hle Hub. induction l as [|d l IH]; [by apply elem_of_nil in He|].
    cbn. apply elem_of_cons in He as [->|He]; [lia|]. specialize (IH He). lia. }
  lia.
Qed.

Lemma map_root_tree h l : 0 <= h -> Forall (fun e => height_for_key e.1 <= h) l ->
  (exists e, e ∈ l /\ height_for_key e.1 = h) -> map_root l = tree_cid h l.
Proof.
  intros Hh Hle He. unfold map_root. rewrite (tree_height_eq h) by done.
  destruct l; [|done]. destruct He as (e & He & _). by apply elem_of_nil in He.
Qed.

Lemma write_node_known n c out : n_cid n = Some c -> write_node n out = (Ok (c, n), out).
Proof. destruct n as [l es cd h ld]. cbn. by intros ->. Qed.

Lemma keys_loaded n h : n_loaded n = true -> shape h n -> n_entries n <> [] ->
  exists e, e ∈ contents n /\ height_for_key e.1 = h.
Proof.
  intros Hl Hs He. destruct (n_entries n) as [|e es] eqn:Hes; [done|]. exists (kv e).
  apply (entry_in_contents h n e Hl Hs). rewrite Hes. by left.
Qed.

(** The block of a node of the map's tree. *)
Definition map_block (l : kvs) (b : Cid * bytes) : Prop := exists h s, map_part l h s /\ block_of h s b.

(** The root of a map is written as [map_root] says. *)
Lemma write_node_root n : root_ok n -> keys_u8 (contents n) ->
  exists c n' blocks, write_node n [] = (Ok (c, n'), blocks) /\ map_root (contents n) = Some c /\ n_cid n' = Some c /\
    contents n' = contents n /\ root_ok n' /\ cids n' ≡ₚ cids n ++ blocks.*1 /\ Forall (map_block (contents n)) blocks.
Proof.
  intros Hr Hu.
  assert (Hknown : forall c, n_cid n = Some c -> map_root (contents n) = Some c ->
    exists c n' blocks, write_node n [] = (Ok (c, n'), blocks) /\ map_root (contents n) = Some c /\ n_cid n' = Some c /\
      contents n' = contents n /\ root_ok n' /\ cids n' ≡ₚ cids n ++ blocks.*1 /\ Forall (map_block (contents n)) blocks).
  { intros c Hc Hroot. exists c, n, []. rewrite app_nil_r. split; [by apply write_node_known|]. by split_and!. }
  destruct Hr as [Hr|Hr].
  2: { pose proof Hr as (c & Hc & Hroot & _). apply (Hknown c Hc). by rewrite root_empty_contents. }
  destruct (n_loaded n) eqn:Hl.
  - apply root_shape_loaded in Hr as (h & Hs & He); [|done].
    destruct (write_node_spec n h [] Hs (not_empty n He) Hu) as (c & n' & blocks & Hrun & Hc & Hcid & Hcon & Hs' & _ & Hl' & Hp & Hb).
    destruct (keys_loaded n h Hl Hs He) as (e & Hin & Hh). destruct (shape_height _ _ Hs) as [_ Hnn].
    exists c, n', blocks. split_and!; try done.
    + rewrite (map_root_tree h); [done|done|by apply shape_heights|by exists e].
    + left. eapply root_shape_intro; [congruence|done|by rewrite Hcon|done].
    + eapply Forall_impl; [exact Hb|]. intros b (h' & s & Hpart & Hbs). exists h', s. split; [|done].
      right. split; [intros Hnil; rewrite Hnil in Hin; by apply elem_of_nil in Hin|].
      rewrite (tree_height_eq h); [done|done|by apply shape_heights|by exists e].
  - unfold root_shape in Hr. rewrite Hl in Hr. destruct Hr as (h & c & Hc & Hst & Hh & Htc & Hcut).
    apply (Hknown c Hc). assert (Hcon : contents n = stub_contents c).
    { destruct n as [l es cd ht ld]. cbn in Hl, Hc. by subst. }
    rewrite Hcon, (map_root_tree h); [done|done|by apply stub_heights|by apply cut_levels_nonempty].
Qed.

(** ** [flush] *)

Definition flushed (t : DetachedTree) (l : kvs) (w : TreeWrite) (t' : DetachedTree) : Prop :=
  map_root l = Some (w_root w) /\ stands_for t' l /\ root_cid t' = Some (w_root w) /\ released t' = [] /\
  accounts (refs t) (refs t') w /\ Forall (map_block l) (new_blocks w).

Lemma incl_Forall (P : Cid * bytes -> Prop) new blocks : incl new blocks -> Forall P blocks -> Forall P new.
Proof. rewrite !List.Forall_forall. auto. Qed.

(** From the tree with the written nodes to the end. *)
Lemma flush_settle t l t1 r blocks : stands_for t l -> map_root l = Some r ->
  refs t1 = refs t -> poisoned t1 = false ->
  held t1 ++ released t1 ≡ₚ (held t ++ released t) ++ blocks.*1 ->
  (forall c, count c (released t1) <= count c (held t) + count c (released t))%nat ->
  match root t1 with
  | Some n => (root_ok n /\ contents n = l) /\ empty_root t1 = None /\ n_cid n = Some r
  | None => l = [] /\ empty_root t1 = Some r
  end -> Forall (map_block l) blocks ->
  exists w t', poisoning (settle blocks r) t1 = (Ok w, t') /\ flushed t l w t'.
Proof.
  intros (Hp & [Hc Hz] & Ho & Hv & _) Hroot Hrefs Hpo Hperm Hle Hr Hb. rewrite perm_count in Hperm.
  destruct (settle_spec t1 blocks r) as (w & rf' & Hrun & Hok & Hw & Hacc & Hincl).
  { intros c. rewrite Hrefs, Hc. specialize (Hperm c). rewrite !count_app in Hperm. lia. }
  { intros c. rewrite Hrefs, Hc. apply Hle. }
  { intros c. rewrite Hrefs. apply Hz. }
  exists w, (set_released [] (set_refs rf' t1)). split; [unfold poisoning; by rewrite Hrun|].
  rewrite Hrefs in Hacc. unfold flushed. rewrite Hw. split_and!; [done| | |done|done|by eapply incl_Forall].
  - unfold stands_for. split_and!; [done..|]. cbn. destruct (root t1) as [n|]; [by destruct Hr as (? & ? & ?)|].
    destruct Hr as [-> He]. split; [done|]. rewrite He. by intros c [= <-].
  - unfold root_cid. cbn. destruct (root t1) as [n|]; apply Hr.
Qed.

Lemma empty_node_block_ok : exists c data, empty_node_block = Ok (c, data) /\ map_root [] = Some c /\ map_block [] (c, data).
Proof.
  assert (Hdata : exists data, encode_node_data (MkNodeData None []) = Ok data) by (by eexists). destruct Hdata as [data Hdata].
  exists (compute Drisl data), data. unfold empty_node_block, map_root, block_cid. rewrite Hdata. split_and!; [done..|].
  exists 0, []. split; [by left|by split].
Qed.

Lemma flush_stands_for t l : stands_for t l -> exists w t', flush t = (Ok w, t') /\ flushed t l w t'.
Proof.
  intros Ht. pose proof Ht as (Hp & Hok & Ho & Hv & Hr). unfold flush.
  rewrite (st_bind_run _ _ t () t) by (unfold check_usable; by rewrite Hp). destruct (root t) as [n|] eqn:Hn.
  - destruct Hr as [[Hs Hc] He]. destruct (write_node_root n Hs) as (r & n' & blocks & Hrun & Hroot & Hcid & Hcon & Hs' & Hperm & Hb).
    { rewrite Hc. by apply valid_keys_u8. }
    rewrite (st_bind_run _ _ t (r, blocks) (set_root (Some n') t)).
    2: { unfold poisoning, write_root. by rewrite Hn, Hrun. }
    cbv beta iota. rewrite (st_bind_run _ _ _ () (set_root (Some n') t)) by done.
    eapply flush_settle; [done|by rewrite <- Hc|done|done| | |by rewrite <- Hc|by rewrite <- Hc].
    + unfold held. cbn. rewrite Hn. cbn [cids_of opt_map]. perm_lia.
    + intros c. cbn [released set_root]. lia.
  - destruct Hr as [-> He]. destruct empty_node_block_ok as (r & data & Hrun & Hroot & Hb).
    set (t1 := MkTree None (refs t) (released t ++ option_list (empty_root t)) None false).
    rewrite (st_bind_run _ _ t (r, [(r, data)]) t1).
    2: { unfold poisoning, write_root. rewrite Hn, Hrun. unfold t1. by rewrite <- Hp, <- Hn. }
    cbv beta iota. rewrite (st_bind_run _ _ _ () (set_empty_root (Some r) t1)) by done.
    eapply flush_settle; [done..| | |done|by apply Forall_singleton].
    + unfold held. rewrite Hn. unfold t1. cbn [root set_empty_root empty_root released cids_of opt_map app fmap list_fmap fst option_list]. change (option_list (Some r)) with [r]. perm_lia.
    + intros c. unfold held. rewrite Hn. unfold t1. cbn [cids_of opt_map app set_empty_root released]. rewrite count_app. lia.
Qed.
End Flushed.
