(* ===== verification/MstMap.v ===== *)
(** [DetachedTree] refines a map from keys to CIDs: what each method returns
    and leaves, every sequence of them, and the root they all agree on. *)
From S2P Require Import Prelude StateError SyntaxError CborError Cid CborDecode CborCodec MstHeight SortedMap MstNode MstTree MstShape MstMutate MstRemove MstFlush MstLoad MstLoadSpec MstLoaded MstDetached MstDetachedSpec MstFlushed.

(** ** Where trees begin *)

Section Begin.
Context `{Simdutf8Laws} `{Sha2Laws} `{!Stubs} `{!StubsLaws}.

Lemma new_stands_for : stands_for new [].
Proof. split_and!; try done; by constructor || apply lookup_empty_ne. Qed.

(** A root that storage may be asked for. *)
Lemma load_stands_for c l : ordered l -> Forall (fun e => is_valid_key e.1 = true) l -> map_root l = Some c ->
  stub_contents c = l -> stub_shape (tree_height l) c -> stands_for (load_tree c) l.
Proof.
  intros Ho Hv Hroot Hcon Hst. split_and!; [done|apply refs_ok_load|done|done|]. cbn. split; [|done]. split; [|done].
  destruct l as [|e l']; [right; by exists c|left]. set (l := e :: l') in *. exists (tree_height l), c. rewrite Hcon.
  assert (Hh : 0 <= tree_height l) by (unfold tree_height; clear; induction l; cbn; lia).
  split_and!; [done..|]. apply cut_levels_nonempty. destruct (decide (tree_height l = 0)) as [Hz|Hz].
  - exists e. split; [by left|]. pose proof (stub_heights _ _ Hst) as Hle. rewrite Hcon in Hle. inversion_clear Hle as [|? ? He _].
    pose proof (height_for_key_range e.1). lia.
  - clearbody l. clear -Hz H2. induction l as [|d l IH]; [done|]. cbn in *. destruct (Z.max_spec (height_for_key d.1) (tree_height l)) as [[Hlt Hm]|[Hge Hm]];
      unfold tree_height in *; cbn in *; rewrite Hm in *.
    + destruct (IH Hz) as (x & Hx & Hxh). exists x. split; [by right|done].
    + exists d. split; [by left|done].
Qed.
End Begin.

(** ** Sequences of calls *)

Inductive Op := Get (key : bytes) | Insert (key : bytes) (v : Cid) | Remove (key : bytes) | Entries | Flush.

Section Refines.
Context `{Simdutf8Laws} `{Sha2Laws} `{!Stubs} `{!StubsLaws} (src : Source).
Hypothesis src_no_panic : forall c, no_panic (src c).
Hypothesis src_faithful : faithful src.

(** A call, without what it returns. *)
Definition run_op (op : Op) : method () :=
  match op with
  | Get key => _ ← get src key; mret ()
  | Insert key v => _ ← insert src key v; mret ()
  | Remove key => _ ← remove src key; mret ()
  | Entries => _ ← entries src; mret ()
  | Flush => _ ← flush; mret ()
  end.

(** What a call that succeeds does to the map. *)
Definition op_effect (op : Op) (l : kvs) : kvs :=
  match op with
  | Insert key v => upsert key v l
  | Remove key => without key l
  | _ => l
  end.

(** The trees that calls on a new one reach, with the map each is for. *)
Inductive reach : DetachedTree -> kvs -> Prop :=
| reach_new : reach new []
| reach_ok t l op t' : reach t l -> run_op op t = (Ok (), t') -> reach t' (op_effect op l)
| reach_err t l op e t' : reach t l -> run_op op t = (Err e, t') -> reach t' l.

Lemma run_op_stands_for t l op : stands_for t l ->
  let '(r, t') := run_op op t in
  match r with Ok _ => stands_for t' (op_effect op l) | Err _ => stands_for t' l | Panic => False end.
Proof.
  intros Ht. destruct op as [key|key v|key| |]; cbn [run_op op_effect]; unfold mbind, st_bind.
  - pose proof (get_stands_for src src_no_panic src_faithful t l key Ht) as Hg. destruct (get src key t) as [[v|e|] t']; by destruct Hg.
  - pose proof (insert_stands_for src src_no_panic src_faithful t l key v Ht) as Hg.
    destruct (insert src key v t) as [[p|e|] t']; [|by destruct Hg|done]. by destruct Hg as (_ & _ & ?).
  - pose proof (remove_stands_for src src_no_panic src_faithful t l key Ht) as Hg.
    destruct (remove src key t) as [[p|e|] t']; [by destruct Hg|done..].
  - pose proof (entries_stands_for src src_no_panic src_faithful t l Ht) as Hg. destruct (entries src t) as [[p|e|] t']; by destruct Hg.
  - destruct (flush_stands_for t l Ht) as (w & t' & -> & Hw). apply Hw.
Qed.

Lemma reach_stands_for t l : reach t l -> stands_for t l.
Proof.
  induction 1 as [|t l op t' _ IH Hrun|t l op e t' _ IH Hrun]; [apply new_stands_for|..];
    pose proof (run_op_stands_for t l op IH) as Hop; by rewrite Hrun in Hop.
Qed.

(** [get] returns the value of the key in the map and [entries] lists the
    map in the order of its keys; a read that fails changes nothing. *)
Theorem detached_reads t l key : stands_for t l ->
  (let '(r, t') := get src key t in
   stands_for t' l /\ match r with Ok v => v = SortedMap.get key l | Err _ => True | Panic => False end) /\
  (let '(r, t') := entries src t in
   stands_for t' l /\ match r with Ok es => es = l | Err _ => True | Panic => False end).
Proof. split; [by apply get_stands_for|by apply entries_stands_for]. Qed.

(** [insert] sets the key in the map and returns the value it had; a key
    that is not valid is refused as such, and no failure changes the map. *)
Theorem detached_insert t l key v : stands_for t l ->
  let '(r, t') := insert src key v t in
  match r with
  | Ok prev => is_valid_key key = true /\ prev = SortedMap.get key l /\ stands_for t' (upsert key v l)
  | Err e => (is_valid_key key = false -> e = InvalidKey key) /\ stands_for t' l
  | Panic => False
  end.
Proof. by apply insert_stands_for. Qed.

(** [remove] takes the key out of the map and returns the value it had; no
    failure changes the map. *)
Theorem detached_remove t l key : stands_for t l ->
  let '(r, t') := remove src key t in
  match r with
  | Ok removed => removed = SortedMap.get key l /\ stands_for t' (without key l)
  | Err _ => stands_for t' l
  | Panic => False
  end.
Proof. by apply remove_stands_for. Qed.

(** C27. [flush] never fails. Its root is that of the map's Merkle search tree
    and becomes the root's CID; its blocks are those the tree holds and did
    not hold before, its retired CIDs those it does not hold any more, each
    once; and every block is that of a node of the map's tree, under its CID. *)
Theorem detached_flush t l : stands_for t l ->
  exists w t', flush t = (Ok w, t') /\ map_root l = Some (w_root w) /\ root_cid t' = Some (w_root w) /\
    stands_for t' l /\ (forall c, is_Some (refs t' !! c) <-> c ∈ held t') /\
    accounts (refs t) (refs t') w /\ Forall (map_block l) (new_blocks w).
Proof.
  intros Ht. destruct (flush_stands_for t l Ht) as (w & t' & Hrun & Hroot & Ht' & Hcid & Hrel & Hacc & Hb).
  exists w, t'. split_and!; try done. intros c. rewrite refs_ok_dom by apply Ht'. rewrite Hrel, <- count_in. cbn. lia.
Qed.

(** C1. Whatever calls are made on a new tree, in whatever order, failed ones
    among them, it stands for the map that the calls that succeeded describe,
    and no call panics. *)
Theorem detached_refines_map t l : reach t l ->
  stands_for t l /\ forall op, (run_op op t).1 <> Panic.
Proof.
  intros Hr. apply reach_stands_for in Hr as Ht. split; [done|]. intros op. pose proof (run_op_stands_for t l op Ht) as Hop.
  by destruct (run_op op t) as [[] ?].
Qed.

(** C9. The root does not depend on the history: two trees that came to the
    same entries flush to the same CID. *)
Theorem root_history_independent t1 t2 l1 l2 : reach t1 l1 -> reach t2 l2 ->
  (forall key, SortedMap.get key l1 = SortedMap.get key l2) ->
  exists w1 w2 t1' t2', flush t1 = (Ok w1, t1') /\ flush t2 = (Ok w2, t2') /\ w_root w1 = w_root w2 /\ map_root l1 = Some (w_root w1).
Proof.
  intros Hr1%reach_stands_for Hr2%reach_stands_for Hg.
  assert (l1 = l2) as <- by (apply ordered_ext; [apply Hr1|apply Hr2|done]).
  destruct (flush_stands_for t1 l1 Hr1) as (w1 & t1' & Hf1 & Hroot1 & _).
  destruct (flush_stands_for t2 l1 Hr2) as (w2 & t2' & Hf2 & Hroot2 & _).
  exists w1, w2, t1', t2'. split_and!; try done. congruence.
Qed.
End Refines.

(** ** Examples *)

(** A map of one key, its tree in a source of one block. *)
#[local] Existing Instances simd_ref simd_ref_laws sha2_toy sha2_toy_laws.

Definition ex_key : bytes := b# "app.bsky.feed.post/3k".
Definition ex_val : Cid := compute Raw [1].
Definition ex_map : kvs := [(ex_key, ex_val)].
Definition ex_block : bytes := match encode_node_data (list_node (tree_height ex_map) ex_map) with Ok data => data | _ => [] end.
Definition ex_root : Cid := compute Drisl ex_block.
Definition ex_source : Source := fun c => Ok (if bool_decide (c = ex_root) then Some ex_block else None).

#[local] Instance ex_stubs : Stubs := {|
  stub_contents c := if bool_decide (c = ex_root) then ex_map else [];
  stub_shape h c := h = tree_height ex_map /\ c = ex_root
|}.

#[local] Instance ex_stubs_laws : StubsLaws.
Proof.
  split.
  - intros h c [-> ->]. cbn [stub_contents ex_stubs]. rewrite bool_decide_true by done.
    constructor; [vm_compute; discriminate|constructor].
  - intros h c s [-> ->] Hs Hne. exfalso. apply Hne. cbn [stub_contents ex_stubs] in Hs. rewrite bool_decide_true in Hs by done.
    assert (Hcut : cut_levels (tree_height ex_map) ex_map = ([], [(ex_key, ex_val, [])])) by (vm_compute; reflexivity).
    rewrite Hcut in Hs. destruct Hs as [->|Hs]; [done|]. by apply list_elem_of_singleton in Hs.
Qed.

Lemma ex_source_no_panic c : no_panic (ex_source c).
Proof. done. Qed.

Lemma served_inj (a b : bytes) : @Ok MstError _ (Some a) = Ok (Some b) -> a = b.
Proof. by intros [= ->]. Qed.

Lemma ex_source_faithful : faithful ex_source.
Proof.
  intros h c data [-> ->]. unfold ex_source. rewrite bool_decide_true by done. intros <-%served_inj.
  cbn [stub_contents ex_stubs]. rewrite bool_decide_true by done. split; [vm_compute; reflexivity|].
  split; [|vm_compute; discriminate].
  assert (list_node (tree_height ex_map) ex_map = MkNodeData None [MkEntryData 0 ex_key ex_val None]) as -> by (vm_compute; reflexivity).
  split; [done|]. split; [|done]. constructor; [|constructor]. split; [done|]. split; [apply u8_literal; vm_compute; reflexivity|].
  split; [done|]. split; [|done]. split; [vm_compute; reflexivity|apply u8_literal; vm_compute; reflexivity].
Qed.

Lemma ex_stands_for : stands_for (load_tree ex_root) ex_map.
Proof.
  apply load_stands_for.
  - repeat constructor.
  - constructor; [vm_compute; reflexivity|constructor].
  - vm_compute. reflexivity.
  - cbn. by rewrite bool_decide_true.
  - done.
Qed.

Example detached_reads_witness : (get ex_source ex_key (load_tree ex_root)).1 = Ok (Some ex_val) /\
  (entries ex_source (load_tree ex_root)).1 = Ok ex_map.
Proof.
  destruct (detached_reads ex_source ex_source_no_panic ex_source_faithful _ _ ex_key ex_stands_for) as [Hg He].
  assert (Hv : exists v, (get ex_source ex_key (load_tree ex_root)).1 = Ok v) by (vm_compute; by eexists).
  assert (Hes : exists es, (entries ex_source (load_tree ex_root)).1 = Ok es) by (vm_compute; by eexists).
  destruct (get ex_source ex_key (load_tree ex_root)) as [r t'], (entries ex_source (load_tree ex_root)) as [r' t''].
  destruct Hv as [v Hv], Hes as [es Hes]. cbn in Hv, Hes. subst r r'. destruct Hg as [_ ->], He as [_ ->]. split; [|reflexivity].
  vm_compute. reflexivity.
Defined.

Example detached_insert_witness :
  (insert ex_source (b# "a/b") ex_val (load_tree ex_root)).1 = Ok None /\
  stands_for (insert ex_source (b# "a/b") ex_val (load_tree ex_root)).2 [(b# "a/b", ex_val); (ex_key, ex_val)].
Proof.
  pose proof (detached_insert ex_source ex_source_no_panic ex_source_faithful _ _ (b# "a/b") ex_val ex_stands_for) as Hi.
  assert (Hok : exists v, (insert ex_source (b# "a/b") ex_val (load_tree ex_root)).1 = Ok v) by (vm_compute; by eexists).
  destruct (insert ex_source (b# "a/b") ex_val (load_tree ex_root)) as [r t']. destruct Hok as [v Hv]. cbn in Hv. subst r.
  destruct Hi as (_ & -> & Ht). split; [vm_compute; reflexivity|exact Ht].
Defined.

Example detached_remove_witness :
  (remove ex_source ex_key (load_tree ex_root)).1 = Ok (Some ex_val) /\
  stands_for (remove ex_source ex_key (load_tree ex_root)).2 [].
Proof.
  pose proof (detached_remove ex_source ex_source_no_panic ex_source_faithful _ _ ex_key ex_stands_for) as Hi.
  assert (Hok : exists v, (remove ex_source ex_key (load_tree ex_root)).1 = Ok v) by (vm_compute; by eexists).
  destruct (remove ex_source ex_key (load_tree ex_root)) as [r t']. destruct Hok as [v Hv]. cbn in Hv. subst r.
  destruct Hi as (-> & Ht). split; [vm_compute; reflexivity|exact Ht].
Defined.

Example detached_flush_witness : exists w t', flush (load_tree ex_root) = (Ok w, t') /\ w_root w = ex_root.
Proof.
  destruct (detached_flush _ _ ex_stands_for) as (w & t' & Hf & Hroot & _). exists w, t'. split; [exact Hf|].
  assert (Hr : map_root ex_map = Some ex_root) by (vm_compute; reflexivity). congruence.
Defined.

(** Two ways to one map. *)
Definition ex_one : DetachedTree := (run_op ex_source (Insert ex_key ex_val) new).2.
Definition ex_two : DetachedTree := (run_op ex_source (Insert (b# "a/b") ex_val) ex_one).2.
Definition ex_back : DetachedTree := (run_op ex_source (Remove (b# "a/b")) ex_two).2.

Lemma ex_reach_one : reach ex_source ex_one ex_map.
Proof.
  apply (reach_ok ex_source new [] (Insert ex_key ex_val)); [apply reach_new|]. unfold ex_one. vm_compute. reflexivity.
Qed.

Lemma ex_reach_back : reach ex_source ex_back ex_map.
Proof.
  apply (reach_ok ex_source ex_two [(b# "a/b", ex_val); (ex_key, ex_val)] (Remove (b# "a/b"))); [|vm_compute; reflexivity].
  apply (reach_ok ex_source ex_one ex_map (Insert (b# "a/b") ex_val)); [apply ex_reach_one|vm_compute; reflexivity].
Qed.

Example detached_refines_map_witness : stands_for ex_back ex_map.
Proof. exact (proj1 (detached_refines_map ex_source ex_source_no_panic ex_source_faithful _ _ ex_reach_back)). Defined.

Example root_history_independent_witness : exists w1 w2 t1 t2,
  flush ex_one = (Ok w1, t1) /\ flush ex_back = (Ok w2, t2) /\ w_root w1 = w_root w2 /\ map_root ex_map = Some (w_root w1).
Proof.
  exact (root_history_independent ex_source ex_source_no_panic ex_source_faithful _ _ _ _ ex_reach_one ex_reach_back (fun _ => eq_refl)).
Defined.
