(* ===== verification/MstHostile.v ===== *)
(** [DetachedTree] on a source that may serve anything: what is in memory
    stays in order, in its place and counted, and the methods agree on it.

    [walk_reachable]: the walk that goes as far as the blocks of a source
    reach. It calls the closure on exactly the entries in memory when it
    ends. *)
From S2P Require Import Prelude StateError SyntaxError CborError Cid CborDecode MstHeight SortedMap MstNode MstTree MstShape MstMutate MstRemove MstFlush MstLoad MstLoadSpec MstLoaded MstDetached MstDetachedSpec MstFlushed.

#[local] Existing Instance in_memory.

(** The entries in memory. *)
Definition in_tree `{Sha2} (t : DetachedTree) : kvs := contents_of (root t).

(** Usable, with every CID counted, and the keys in memory valid, in order and
    in their places. *)
Definition sound `{Sha2} (t : DetachedTree) : Prop :=
  poisoned t = false /\ refs_ok t /\ sane_of ROOT (root t).

Section Hostile.
Context `{Sha2Laws} `{Simdutf8} (src : Source).
Hypothesis src_no_panic : forall c, no_panic (src c).

Lemma sane_root n : sane ROOT n <-> ordered (contents n) /\ Forall (fun e => is_valid_key e.1 = true) (contents n).
Proof.
  unfold sane. split; intros [Ho Hf]; (split; [done|]); (eapply Forall_impl; [exact Hf|]); cbn; [by intros ? []|done].
Qed.

Lemma sound_loaded t n t' n' : sound t -> root t = Some n -> loaded_more src t n t' n' -> sound t' /\ in_tree t' = contents n'.
Proof.
  intros (Hp & _ & Hs) Hn (Hl & Hn' & Hok & _ & _ & Hpo). rewrite Hn in Hs. unfold sound, in_tree. rewrite Hn'.
  split; [|done]. split_and!; [congruence|done|by eapply loads_sane].
Qed.

Lemma get_sound t key : sound t -> let '(r, t') := get src key t in
  sound t' /\ match r with Ok v => v = SortedMap.get key (in_tree t') | Err _ => True | Panic => False end.
Proof.
  intros Ht. pose proof Ht as (Hp & Hok & Hs). unfold get.
  rewrite (st_bind_run _ _ t () t) by (unfold check_usable; by rewrite Hp). destruct (root t) as [n|] eqn:Hn.
  - pose proof (on_root_run src None (fun n => get_node (load_fuel n ROOT) src key ROOT) t n (finds key) Hn Hok) as Hrun.
    specialize (Hrun (get_node_ok src src_no_panic (load_fuel n ROOT) key ROOT n (refs t) (Nat.le_refl _))).
    destruct (on_root _ _ t) as [r t']. destruct Hrun as (n' & Hm & Hq).
    destruct (sound_loaded t n t' n' Ht Hn Hm) as [Ht' ->]. split; [done|]. destruct r as [v|e|]; [|done..].
    apply finds_get; [done|]. pose proof Hm as (_ & Hn' & _). destruct Ht' as (_ & _ & Hs'). rewrite Hn' in Hs'. apply Hs'.
  - unfold on_root. rewrite Hn. split; [done|]. unfold in_tree. by rewrite Hn.
Qed.

Lemma entries_sound t : sound t -> let '(r, t') := entries src t in
  sound t' /\ match r with Ok es => es = in_tree t' | Err _ => True | Panic => False end.
Proof.
  intros Ht. pose proof Ht as (Hp & Hok & _). destruct (root t) as [n|] eqn:Hn.
  - pose proof (entries_run src src_no_panic t n Hn Hok Hp) as Hrun. destruct (entries src t) as [r t'].
    destruct Hrun as (n' & Hm & Hq). destruct (sound_loaded t n t' n' Ht Hn Hm) as [Ht' ->]. split; [done|]. by destruct r; try apply Hq.
  - unfold entries, walk, check_usable. rewrite Hp, Hn. split; [done|]. unfold in_tree. by rewrite Hn.
Qed.

Lemma load_key_path_sound t key visit : sound t -> let '(r, t') := load_key_path src key visit t in
  sound t' /\ match r with
    | Ok v => v = SortedMap.get key (in_tree t') /\ match root t' with Some n => visited key visit n | None => True end
    | Err _ => True
    | Panic => False
    end.
Proof.
  intros Ht. pose proof Ht as (Hp & Hok & _). destruct (root t) as [n|] eqn:Hn.
  - pose proof (load_key_path_Some src src_no_panic key visit t n Hn Hok) as Hrun.
    destruct (load_key_path src key visit t) as [r t']. destruct Hrun as (n' & Hm & Hq).
    destruct (sound_loaded t n t' n' Ht Hn Hm) as [Ht' ->]. split; [done|]. destruct r as [v|e|]; [|done..].
    destruct Hq as [Hvis Hf]. pose proof Hm as (_ & Hn' & _). rewrite Hn'. split; [|done]. apply finds_get; [done|].
    destruct Ht' as (_ & _ & Hs'). rewrite Hn' in Hs'. apply Hs'.
  - unfold load_key_path, on_root. rewrite Hn. split; [done|]. unfold in_tree. by rewrite Hn.
Qed.

(** A root with other contents that are in order and valid. *)
Lemma sound_changed t t' : sound t -> poisoned t' = false -> refs t' = refs t ->
  held t' ++ released t' ≡ₚ held t ++ released t ->
  ordered (in_tree t') -> Forall (fun e => is_valid_key e.1 = true) (in_tree t') -> sound t'.
Proof.
  intros (_ & Hok & _) Hp Hr Hperm Ho Hv. split_and!; [done|by apply (refs_ok_mutated t)|].
  unfold in_tree in *. destruct (root t') as [n|]; [|done]. by apply sane_root.
Qed.

Lemma sound_keys t : sound t -> ordered (in_tree t) /\ Forall (fun e => is_valid_key e.1 = true) (in_tree t).
Proof.
  intros (_ & _ & Hs). unfold in_tree. destruct (root t) as [n|]; [by apply sane_root|].
  split; [apply ordered_nil|apply Forall_nil_2].
Qed.

Lemma upsert_valid key v (l : kvs) : is_valid_key key = true ->
  Forall (fun e => is_valid_key e.1 = true) l -> Forall (fun e => is_valid_key e.1 = true) (upsert key v l).
Proof.
  rewrite !Forall_forall. intros Hk Hl e He. destruct (upsert_in _ _ _ _ He) as [->|Hin]; [done|by apply Hl].
Qed.

Lemma insert_sound t key v : sound t -> let '(r, t') := insert src key v t in
  sound t' /\ match r with Ok _ => SortedMap.get key (in_tree t') = Some v | Err _ => True | Panic => False end.
Proof.
  intros Ht. unfold insert. rewrite (st_bind_run _ _ t () t) by (unfold check_usable; by rewrite (proj1 Ht)).
  destruct (is_valid_key key) eqn:Hkey; cbn [negb]; [|done].
  pose proof (load_key_path_sound t key Lookup Ht) as Hload. destruct (load_key_path src key Lookup t) as [r1 t1] eqn:Hrun1.
  unfold mbind at 1, st_bind at 1. rewrite Hrun1. destruct Hload as [Ht1 Hq]. destruct r1 as [prev|e|]; [|done..].
  destruct Hq as [Hprev Hvis]. clear Hrun1 Ht t. rename t1 into t. destruct (sound_keys t Ht1) as [Ho Hv].
  pose proof (proj1 Ht1) as Hp. case_bool_decide as Hsame; [cbn; split; [done|congruence]|].
  assert (Hend : forall t', poisoned t' = false -> refs t' = refs t -> held t' ++ released t' ≡ₚ held t ++ released t ->
    in_tree t' = upsert key v (in_tree t) -> sound t' /\ SortedMap.get key (in_tree t') = Some v).
  { intros t' Hp' Hr' Hperm Hin. split; [apply (sound_changed t); try done; rewrite Hin|].
    - by apply ordered_upsert.
    - by apply upsert_valid.
    - rewrite Hin, get_upsert by done. by rewrite decide_True. }
  destruct prev as [w|].
  - unfold in_tree in *. destruct (root t) as [n|] eqn:Hn; [|done].
    destruct (update_node_spec (S (span n)) n key v w (released t) ltac:(lia) Hvis Ho (eq_sym Hprev))
      as (n' & rel & Hrun & _ & _ & Hc' & Hp' & _).
    erewrite st_bind_run; [|unfold poisoning; rewrite Hn; unfold mutate, mbind, st_bind; rewrite Hrun; reflexivity].
    apply Hend; [done|done| |done]. unfold held. cbn [root set_root set_released empty_root released]. rewrite Hn. cbn [cids_of opt_map]. perm_lia.
  - assert (Hready : path_ready_of key (root t)) by (destruct (root t); done).
    set (rel0 := released t ++ (if bool_decide (root t = None) then option_list (empty_root t) else [])).
    pose proof (proj1 (height_for_key_range key)) as Hh.
    destruct (insert_node_spec _ (root t) key v (height_for_key key) rel0 (Nat.le_refl _) Hh Hready Ho (eq_sym Hprev))
      as (n' & rel & Hrun & _ & _ & Hc' & Hp' & _).
    rewrite (st_bind_run _ _ t (root t) t) by done. rewrite (st_bind_run _ _ t () (set_root None t)) by done.
    set (t2 := MkTree None (refs t) rel0 (if bool_decide (root t = None) then None else empty_root t) (poisoned t)).
    rewrite (st_bind_run _ _ (set_root None t) () t2).
    2: { unfold t2, rel0. case_bool_decide; [done|]. unfold mret, st_ret, set_root. by rewrite app_nil_r. }
    erewrite st_bind_run; [|unfold poisoning, mutate; cbn [released t2]; rewrite Hrun; reflexivity].
    apply Hend; [done|done| |done]. unfold held. cbn [root set_root set_released empty_root released t2 cids_of opt_map].
    unfold rel0 in Hp'. case_bool_decide as Hnone; [rewrite Hnone in *|]; cbn [cids_of opt_map option_list] in *; perm_lia.
Qed.

Lemma remove_sound t key : sound t -> let '(r, t') := remove src key t in
  sound t' /\ match r with Ok _ => SortedMap.get key (in_tree t') = None | Err _ => True | Panic => False end.
Proof.
  intros Ht. unfold remove. rewrite (st_bind_run _ _ t () t) by (unfold check_usable; by rewrite (proj1 Ht)).
  pose proof (load_key_path_sound t key Remove Ht) as Hload. destruct (load_key_path src key Remove t) as [r1 t1] eqn:Hrun1.
  unfold mbind at 1, st_bind at 1. rewrite Hrun1. destruct Hload as [Ht1 Hq]. destruct r1 as [found|e|]; [|done..].
  destruct Hq as [Hf Hvis]. clear Hrun1 Ht t. rename t1 into t. destruct (sound_keys t Ht1) as [Ho Hv].
  pose proof (proj1 Ht1) as Hp. case_bool_decide as Hnone; [cbn; split; [done|congruence]|].
  rewrite (st_bind_run _ _ t (root t) t) by done. unfold in_tree in *. destruct (root t) as [n|] eqn:Hn; [|done].
  destruct (remove_from_root_spec n key (released t) Hvis Ho) as (m & rel & Hrun & Hcm & Hpm & _).
  rewrite (st_bind_run _ _ t () (set_root None t)) by done.
  erewrite st_bind_run; [|unfold poisoning, mutate; cbn [released set_root]; rewrite Hrun; reflexivity].
  assert (Hin : in_tree (set_root m (set_released rel (set_root None t))) = without key (contents n)) by done.
  cbn -[in_tree]. split; [apply (sound_changed t); try done|].
  - unfold held. cbn. rewrite Hn. cbn [cids_of opt_map]. perm_lia.
  - rewrite Hin. by apply ordered_without.
  - rewrite Hin. rewrite Forall_forall in *. intros e He%without_in. by apply Hv.
  - change (SortedMap.get key (in_tree (set_root m (set_released rel (set_root None t)))) = None).
    rewrite Hin, get_without by done. by rewrite decide_True.
Qed.

(** ** Writing *)

Lemma encode_entries_no_panic es prev buf : Forall is_u8 prev -> Forall (fun e => Forall is_u8 (e_key e)) es ->
  no_panic (encode_entries es prev buf).
Proof.
  intros Hp Hes. revert prev buf Hp. induction Hes as [|e es He _ IH]; intros prev buf Hp; cbn [encode_entries]; [done|].
  apply no_panic_bind; [unfold node_cid; destruct (e_right e) as [m|]; [by destruct (n_cid m)|done]|]. intros right _.
  rewrite shared_prefix_len_common, slice_from_Ok by (done || apply common_prefix_len_le). cbn [mbind res_bind]. by apply IH.
Qed.

(** Writing a node of valid keys does not panic, and keeps the keys. *)
Definition write_safe (n : Node) : Prop := keys_u8 (contents n) -> forall out, no_panic (write_node n out).1.

Lemma write_rights_safe es : Forall (fun e : Entry => opt_all write_safe (e_right e)) es -> keys_u8 (entries_contents es) ->
  forall out, match write_rights write_node es out with
    | (Ok es', _) => map e_key es' = map e_key es
    | (Err _, _) => True
    | (Panic, _) => False
    end.
Proof.
  induction 1 as [|[k v r] es Hr _ IH]; [done|]. rewrite entries_contents_cons. intros [_ [Hur Hus]%Forall_app]%Forall_cons out.
  cbn [write_rights]. unfold mbind at 1, st_bind at 1. assert (Hw : match write_right write_node (MkEntry k v r) out with
    | (Ok e', _) => e_key e' = k | (Err _, _) => True | (Panic, _) => False end).
  { destruct r as [m|]; cbn [write_right]; [|done]. specialize (Hr Hur out). unfold mbind, st_bind.
    destruct (write_node m out) as [[[c m']|e|] out']; done. }
  destruct (write_right _ _ _) as [[e'|e|] out']; [|done..]. unfold mbind, st_bind. specialize (IH Hus out').
  destruct (write_rights write_node es out') as [[es'|e|] out'']; [|done..]. cbn. by rewrite Hw, IH.
Qed.

Lemma write_node_safe n : write_safe n.
Proof.
  induction n as [l es c ht ld IHl IHes] using Node_ind'. intros Hu out. destruct c as [cid|]; [done|]. destruct ld; [|done].
  rewrite contents_loaded in Hu by done. apply Forall_app in Hu as [Hul Hue]. cbn [n_left n_entries] in *.
  cbn [write_node]. unfold mbind at 1, st_bind at 1.
  assert (Hw : no_panic (write_left write_node l out).1).
  { destruct l as [m|]; cbn [write_left]; [|done]. specialize (IHl Hul out). unfold mbind, st_bind.
    by destruct (write_node m out) as [[[c m']|e|] out']. }
  destruct (write_left write_node l out) as [[l'|e|] out']; [|done..].
  pose proof (write_rights_safe es IHes Hue out') as Hr. unfold mbind at 1, st_bind at 1.
  destruct (write_rights write_node es out') as [[es'|e|] out'']; [|done..].
  unfold mbind at 1, st_bind at 1, lift. assert (He : no_panic (encode_node (MkNode l' es' None ht true) [])).
  { unfold encode_node. cbn [n_left n_entries]. apply no_panic_bind; [unfold node_cid; destruct l' as [m|]; [by destruct (n_cid m)|done]|].
    intros left _. apply no_panic_bind; [|done]. apply encode_entries_no_panic; [constructor|].
    apply keys_u8_entries in Hue. rewrite <- (Forall_map e_key (Forall is_u8)) in Hue |- *. by rewrite Hr. }
  by destruct (encode_node _ _).
Qed.

(** [flush] of whatever is in memory. *)
Lemma flush_safe t : sound t -> no_panic (flush t).1.
Proof.
  intros Ht. unfold flush. rewrite (st_bind_run _ _ t () t) by (unfold check_usable; by rewrite (proj1 Ht)).
  assert (Hw : no_panic (write_root t).1).
  { unfold write_root. destruct (root t) as [n|] eqn:Hn.
    - assert (Hu : keys_u8 (contents n)) by (apply valid_keys_u8; pose proof (proj2 (sound_keys t Ht)) as Hv; unfold in_tree in Hv; by rewrite Hn in Hv).
      pose proof (write_node_safe n Hu []) as Hw. by destruct (write_node n []) as [[[c n']|e|] out].
    - destruct empty_node_block_ok as (c & data & -> & _). done. }
  assert (Hs : forall written r t', no_panic (settle written r t').1).
  { intros written r t'. unfold settle. assert (Hr : forall cs rf, no_panic (release rf cs).1).
    { induction cs as [|c cs IH]; intros rf; [done|]. cbn [release]. destruct (rf !! c) as [[]|]; done. }
    specialize (Hr (released t') (refs t')). destruct (release _ _) as [[[]|e|] rf]; [|done..].
    destruct (retain_new _ _). by destruct (retire _ _). }
  unfold mbind at 1, st_bind at 1, poisoning at 1. destruct (write_root t) as [[[r written]|e|] t']; [|done..].
  unfold mbind, st_bind, modify, poisoning. specialize (Hs written r (if bool_decide (root t' = None) then set_empty_root (Some r) t' else t')).
  by destruct (settle _ _ _) as [[]].
Qed.

Lemma sound_new : sound new.
Proof. split_and!; try done; by constructor || apply lookup_empty_ne. Qed.

(** C28. Reads from any source whatever: no panic, and a usable tree with its
    keys in order, in their places and counted. A lookup answers with what the
    entries in memory, which only grow more, have for the key; a listing that
    succeeds is of valid keys, each once and in order, and is what later
    lookups see. *)
Theorem untrusted_reads t key : sound t ->
  (let '(r, t') := get src key t in
   sound t' /\ match r with Ok v => v = SortedMap.get key (in_tree t') | Err _ => True | Panic => False end) /\
  (let '(r, t') := entries src t in
   sound t' /\
   match r with
   | Ok es => es = in_tree t' /\ StronglySorted bytes_lt es.*1 /\ Forall (fun e => is_valid_key e.1 = true) es
   | Err _ => True
   | Panic => False
   end).
Proof.
  intros Ht. split; [by apply get_sound|]. pose proof (entries_sound t Ht) as He. destruct (entries src t) as [r t']. destruct He as [Ht' Hr].
  split; [done|]. destruct r as [es|e|]; [|done..]. subst es. split; [done|]. by apply sound_keys.
Qed.

(** C29. Inserts and removes from any source whatever: they never panic, never
    leave the tree unusable, and the key has the value, or is gone, when they
    succeed. *)
Theorem untrusted_mutation t key v : sound t ->
  (let '(r, t') := insert src key v t in
   sound t' /\ match r with Ok _ => SortedMap.get key (in_tree t') = Some v | Err _ => True | Panic => False end) /\
  (let '(r, t') := remove src key t in
   sound t' /\ match r with Ok _ => SortedMap.get key (in_tree t') = None | Err _ => True | Panic => False end).
Proof. split; [by apply insert_sound|by apply remove_sound]. Qed.
End Hostile.

(** ** Examples *)

#[local] Existing Instances simd_ref sha2_toy sha2_toy_laws.

(** One block, under whatever CID: it links itself on the left. *)
Definition ex_loop : Cid := compute Drisl [7].
Definition ex_loop_block : bytes :=
  match encode_node_data (MkNodeData (Some ex_loop) [MkEntryData 0 (b# "a/b") ex_loop None]) with Ok data => data | _ => [] end.
Definition ex_leaf_block : bytes :=
  match encode_node_data (MkNodeData None [MkEntryData 0 (b# "a/b") ex_loop None]) with Ok data => data | _ => [] end.
Definition ex_loop_source : Source := fun _ => Ok (Some ex_loop_block).
Definition ex_leaf_source : Source := fun _ => Ok (Some ex_leaf_block).

Lemma ex_load_sound : sound (load_tree ex_loop).
Proof. split_and!; [done|apply refs_ok_load|]. split; [apply ordered_nil|apply Forall_nil_2]. Qed.

Example untrusted_reads_witness : (entries ex_leaf_source (load_tree ex_loop)).1 = Ok [(b# "a/b", ex_loop)] /\
  StronglySorted bytes_lt [(b# "a/b", ex_loop)].*1.
Proof.
  assert (Hr : (entries ex_leaf_source (load_tree ex_loop)).1 = Ok [(b# "a/b", ex_loop)]) by (vm_compute; reflexivity).
  split; [exact Hr|].
  pose proof (proj2 (untrusted_reads ex_leaf_source (fun _ => no_panic_Ok _) _ (b# "a/a") ex_load_sound)) as Hg.
  destruct (entries _ _) as [r t']. cbn in Hr. subst r. apply Hg.
Defined.

Example untrusted_mutation_witness :
  SortedMap.get (b# "a/c") (in_tree (insert ex_leaf_source (b# "a/c") ex_loop (load_tree ex_loop)).2) = Some ex_loop.
Proof.
  pose proof (proj1 (untrusted_mutation ex_leaf_source (fun _ => no_panic_Ok _) _ (b# "a/c") ex_loop ex_load_sound)) as Hg.
  assert (Hok : exists p, (insert ex_leaf_source (b# "a/c") ex_loop (load_tree ex_loop)).1 = Ok p) by (vm_compute; by eexists).
  destruct (insert _ _ _ _) as [r t']. destruct Hok as [p Hp]. cbn in Hp. subst r. apply Hg.
Defined.

#[local] Existing Instance in_memory.

Section Reach.
Context `{Sha2Laws} `{Simdutf8} (src : Source).
Hypothesis src_no_panic : forall c, no_panic (src c).

Section Closure.
Context {S : Type} (f : bytes -> Cid -> st S MstError ()).
Hypothesis f_no_panic : forall k v s, (f k v s).1 <> Panic.

(** A subtree in a slot: walked if it loads, else nothing. *)
Definition reach_child (fuel : nat) (at_ : Place) : st (Node * Refs * S) MstError () :=
  absent ← on_tree (load src at_);
  match absent with
  | None => walk_reachable_node fuel src f at_
  | Some _ => mret ()
  end.

Lemma walk_ok_weaken {A} at_ (m : st (Node * Refs * S) MstError A) n refs s (Q R : Node -> S -> A -> Prop) :
  walk_ok src at_ m n refs s Q -> (forall n' s' a, Q n' s' a -> R n' s' a) -> walk_ok src at_ m n refs s R.
Proof. unfold walk_ok. destruct (m (n, refs, s)) as [[a|e|] [[n' refs'] s']]; naive_solver. Qed.

Lemma loaded_fuel n at_ : fuel_below n at_ (load_fuel n at_).
Proof. intros i c Hc. pose proof (child_levels n i c Hc). unfold load_fuel, child_place. cbn [p_depth]. lia. Qed.

Lemma walk_reachable_node_ok fuel at_ n refs s : n_loaded n = true -> fuel_below n at_ fuel -> (0 < fuel)%nat ->
  walk_ok src at_ (walk_reachable_node fuel src f at_) n refs s (fun n' s' _ =>
    n_loaded n' = true /\ calls f (contents n') s = (Ok (), s')).
Proof.
  revert at_ n refs s. induction fuel as [|fuel IH]; intros at_ n refs s Hl Hf Hpos0; [lia|].
  cbn [walk_reachable_node].
  eapply (walk_ok_bind src _ _ _ _ _ _ (fun n' s' a => n' = n /\ s' = s /\ a = n)); [by apply walk_ok_stay|].
  intros ? refs2 ? ? (-> & -> & ->).
  change (walk_ok src at_ (for_each (walk_body f (reach_child fuel) at_ n) (seq 0 (Datatypes.S (length (n_entries n))))) n refs2 s
    (fun n' s' _ => n_loaded n' = true /\ calls f (contents n') s = (Ok (), s'))).
  pose proof (walk_loop_ok src f f_no_panic (fun _ => True) (reach_child fuel) at_ n s) as Hloop.
  assert (Hrec : forall i c refs s, child n i = Some c ->
    walk_ok src (child_place (n_entries n) i at_) (reach_child fuel (child_place (n_entries n) i at_)) c refs s
      (fun c' s' _ => True /\ calls f (contents c') s = (Ok (), s'))).
  { intros i c refs' s' Hc. pose proof (Hf i c Hc) as Hlt. pose proof (load_fuel_pos c (child_place (n_entries n) i at_)) as Hpos.
    eapply walk_ok_bind; [apply on_tree_ok, load_ok; done|]. intros n1 refs1 s1 [absent|] [-> Hq].
    - destruct Hq as [-> Hn]. apply walk_ok_stay. split; [done|]. by destruct c as [? ? [] ? []].
    - destruct Hq as [Hl1 Hb]. eapply walk_ok_weaken; [apply IH; [done| |lia]|by intros ? ? [] [_ ?]].
      intros j d Hd. specialize (Hb j d Hd). lia. }
  specialize (Hloop Hrec (Datatypes.S (length (n_entries n))) 0%nat n refs2 s eq_refl eq_refl).
  assert (Hp : progress f (fun _ => True) n s n 0 s) by (split_and!; [done..|lia|done|done]). specialize (Hloop Hp).
  eapply walk_ok_weaken; [exact Hloop|]. intros n' s' [] (Hkv & Hl' & Hk' & _ & _ & Hcalls). split; [done|].
  cbn [walked] in Hcalls. rewrite <- (keys_length _ _ Hk') in Hcalls. rewrite (contents_cut n' (length (n_entries n'))) by done.
  unfold after. rewrite drop_ge by done. cbn [entries_contents map concat]. by rewrite app_nil_r.
Qed.
End Closure.

(** The entries listed are those in memory at the end. *)
Lemma walk_reachable_entries t n : poisoned t = false -> root t = Some n ->
  let '(r, (t', es)) := walk_reachable src push_entry (t, []) in
  exists n', root t' = Some n' /\ loads src ROOT n n' /\ poisoned t' = false /\
    match r with Ok _ => n_loaded n' = true /\ es = contents n' | Err _ => True | Panic => False end.
Proof.
  intros Hp Hr. unfold walk_reachable, check_usable. rewrite Hp, Hr.
  set (m := _ ≫= _). assert (Hm : walk_ok src ROOT m n (refs t) ([] : list (bytes * Cid)) (fun n' s' _ =>
    n_loaded n' = true /\ calls push_entry (contents n') ([] : list (bytes * Cid)) = (Ok (), s'))).
  { unfold m. eapply walk_ok_bind; [apply on_tree_ok, ensure_loaded_ok; done|]. intros n1 refs1 s1 [] (-> & Hl & _).
    eapply (walk_ok_bind src _ _ _ _ _ _ (fun n' s' a => n' = n1 /\ s' = [] /\ a = n1)); [by apply walk_ok_stay|].
    intros ? refs2 ? ? (-> & -> & ->). apply walk_reachable_node_ok; [done|done|apply loaded_fuel|apply load_fuel_pos]. }
  unfold walk_ok in Hm. destruct (m (n, refs t, [])) as [r [[n' refs'] es]]. destruct Hm as (Hl & _ & Hq).
  exists n'. split_and!; [done..|]. destruct r as [[]|e|]; [|done..]. destruct Hq as [Hl' Hc]. split; [done|].
  rewrite calls_push_entry in Hc. by injection Hc as <-.
Qed.
End Reach.

(** An entry in memory is what a lookup finds. *)
Lemma contents_finds fuel n key v : (levels n <= fuel)%nat -> ordered (contents n) ->
  SortedMap.get key (contents n) = Some v -> finds key n (Some v).
Proof.
  revert n. induction fuel as [|fuel IH]; intros n Hf Ho Hg; [destruct n; cbn in Hf; lia|].
  destruct (n_loaded n) eqn:Hl; [|by destruct n as [? ? [] ? []]].
  destruct (search (n_entries n) key) as [i [|]] eqn:Hs.
  - destruct (cut_present n key i Hl Ho Hs) as (e & He & _ & Hc & Hb & _). rewrite Hc, get_mid in Hg by done.
    injection Hg as <-. by eapply finds_here.
  - destruct (absent_child n key i Hl Ho Hs) as [Hoc Hk]. rewrite Hk in Hg. destruct (child n i) as [c|] eqn:Hc; [|done].
    eapply finds_below; [done..|]. apply IH; [|done..]. pose proof (child_levels n i c Hc). lia.
Qed.

(** What the walk lists is what lookups find in the nodes it left. *)
Lemma walk_reachable_finds `{Sha2Laws} `{Simdutf8} src t n : (forall c, no_panic (src c)) ->
  poisoned t = false -> root t = Some n -> sane ROOT n ->
  let '(r, (t', es)) := walk_reachable src push_entry (t, []) in
  exists n', root t' = Some n' /\ loads src ROOT n n' /\
    match r with
    | Ok _ => StronglySorted bytes_lt es.*1 /\ Forall (fun e => is_valid_key e.1 = true /\ finds e.1 n' (Some e.2)) es
    | Err _ => True
    | Panic => False
    end.
Proof.
  intros Hnp Hp Hr Hs. pose proof (walk_reachable_entries src Hnp t n Hp Hr) as Hw.
  destruct (walk_reachable src push_entry (t, [])) as [r [t' es]]. destruct Hw as (n' & Hr' & Hl & _ & Hq).
  exists n'. split_and!; [done..|]. destruct r as [[]|e|]; [|done..]. destruct Hq as [_ ->].
  assert (Hs' : sane ROOT n') by (by eapply loads_sane). destruct Hs' as [Ho Hv]. split; [done|].
  apply Forall_forall. intros [k v] Hin. split.
  - apply (proj1 (Forall_forall _ _) Hv) in Hin. by destruct Hin.
  - apply (contents_finds (levels n')); [done..|]. by apply SortedMap.get_in.
Qed.
