(* ===== verification/MstStoreSpec.v ===== *)
(** [Tree] and [diff]: the map a tree on a store stands for, what reaches the
    store, and the difference of two maps. *)
From S2P Require Import Prelude StateError SyntaxError CborError Cid CborDecode MstHeight SortedMap MstNode MstTree MstShape MstMutate MstRemove MstFlush MstLoad MstLoadSpec MstLoaded MstDetached MstStore MstDetachedSpec MstFlushed MstMap.

(** ** Differences *)

(** The reference: what one map has and the other does not, in order. *)
Definition only_in (r l : kvs) : kvs := filter (fun e => SortedMap.get e.1 l = None) r.

Definition changed (l r : kvs) : list (bytes * Cid * Cid) :=
  omap (fun e => w ← SortedMap.get e.1 r; if bool_decide (e.2 = w) then None else Some (e.1, e.2, w)) l.

Lemma get_cons_above k v (l : kvs) j : bytes_lt k j -> SortedMap.get j ((k, v) :: l) = SortedMap.get j l.
Proof. intros Hj. rewrite get_cons, decide_False; [done|]. cbn. intros ->. by apply bytes_lt_irrefl in Hj. Qed.

Lemma only_in_cons r l k v : all_above k r -> only_in r ((k, v) :: l) = only_in r l.
Proof.
  unfold only_in. induction 1 as [|e r He _ IH]; [done|]. by rewrite !filter_cons, IH, get_cons_above.
Qed.

Lemma changed_cons r l k v : all_above k l -> changed l ((k, v) :: r) = changed l r.
Proof.
  unfold changed. induction 1 as [|e l He _ IH]; [done|]. cbn [omap list_omap]. by rewrite IH, get_cons_above.
Qed.

Lemma get_head k v (l : kvs) : SortedMap.get k ((k, v) :: l) = Some v.
Proof. by rewrite get_cons, decide_True. Qed.

Lemma only_in_both k v w l r : all_above k l -> only_in ((k, v) :: l) ((k, w) :: r) = only_in l r.
Proof.
  intros Hl. rewrite <- (only_in_cons l r k w) by done. unfold only_in. rewrite filter_cons_False; [done|].
  cbn [fst]. by rewrite get_head.
Qed.

Lemma only_in_new k v l r : all_above k r -> only_in ((k, v) :: l) r = (k, v) :: only_in l r.
Proof. intros Hr. unfold only_in. rewrite filter_cons_True; [done|]. by apply get_above. Qed.

Lemma changed_both k v w l r : all_above k l ->
  changed ((k, v) :: l) ((k, w) :: r) = (if bool_decide (v = w) then [] else [(k, v, w)]) ++ changed l r.
Proof.
  intros Hl. rewrite <- (changed_cons r l k w) by done. unfold changed. cbn [omap list_omap fst snd].
  rewrite get_head. cbn. by case_bool_decide.
Qed.

Lemma changed_new k v l r : all_above k r -> changed ((k, v) :: l) r = changed l r.
Proof. intros Hr. unfold changed. cbn [omap list_omap fst snd]. by rewrite get_above. Qed.

Lemma diff_entries_spec l r d : ordered l -> ordered r ->
  diff_entries l r d = MkDiff (added d ++ only_in r l) (updated d ++ changed l r) (removed d ++ only_in l r).
Proof.
  revert r d. induction l as [|[lk lv] l IHl]; intros r d Hl Hr.
  - revert d. induction r as [|[rk rv] r IHr]; intros d; [by destruct d; cbn; rewrite !app_nil_r|].
    apply ordered_cons in Hr as [_ Hr].
    change (diff_entries [] ((rk, rv) :: r) d) with (diff_entries [] r (push_added (rk, rv) d)).
    rewrite IHr by done. cbn. by rewrite <- app_assoc.
  - apply ordered_cons in Hl as [Hla Hl]. revert d. induction r as [|[rk rv] r IHr]; intros d.
    + change (diff_entries ((lk, lv) :: l) [] d) with (diff_entries l [] (push_removed (lk, lv) d)).
      rewrite IHl by done. cbn. by rewrite <- app_assoc.
    + apply ordered_cons in Hr as [Hra Hr].
      change (diff_entries ((lk, lv) :: l) ((rk, rv) :: r) d) with
        (match bytes_cmp lk rk with
         | Eq => diff_entries l r (if bool_decide (lv = rv) then d else push_updated (lk, lv, rv) d)
         | Lt => diff_entries l ((rk, rv) :: r) (push_removed (lk, lv) d)
         | Gt => diff_entries ((lk, lv) :: l) r (push_added (rk, rv) d)
         end).
      destruct (bytes_cmp_spec lk rk) as [<-|Hlt|Hgt].
      * rewrite IHl by done. rewrite !only_in_both, changed_both by done. by case_bool_decide; cbn; rewrite <- ?app_assoc.
      * assert (Har : all_above lk ((rk, rv) :: r)) by (constructor; [done|by eapply all_above_lt]).
        rewrite IHl by (done || by apply ordered_cons).
        rewrite (only_in_cons ((rk, rv) :: r) l lk), (only_in_new lk), (changed_new lk) by done. cbn. by rewrite <- app_assoc.
      * assert (Hal : all_above rk ((lk, lv) :: l)) by (constructor; [done|by eapply all_above_lt]).
        rewrite IHr by done. rewrite (only_in_new rk), (changed_cons r _ rk), (only_in_cons ((lk, lv) :: l) r rk) by done.
        cbn. by rewrite <- app_assoc.
Qed.

(** ** Stores *)

(** What the trait promises: a block put is found, and no call loses one. *)
Definition stored `{BlockStore St} (s : St) (c : Cid) : Prop := exists data, get_block s c = Ok data.

Class BlockStoreLaws (St : Type) `{BlockStore St} : Prop := {
  get_block_no_panic (s : St) c : no_panic (get_block s c);
  put_block_ok c data (s : St) : let '(r, s') := put_block c data s in
    match r with Ok _ => get_block s' c = Ok data | Err _ => True | Panic => False end;
  put_block_keeps c data (s : St) c' : stored s c' -> stored (put_block c data s).2 c'
}.

#[export] Instance mem_block_store_laws : BlockStoreLaws MemBlockStore.
Proof.
  split.
  - intros s c. cbn. by destruct (s !! c).
  - intros c data s. change (ok_or (BlockNotFound c) (<[c := data]> (s : gmap Cid bytes) !! c) = Ok data). by rewrite lookup_insert_eq.
  - intros c data s c' [d Hd]. change (exists d, ok_or (BlockNotFound c') (<[c := data]> (s : gmap Cid bytes) !! c') = Ok d).
    destruct (decide (c = c')) as [->|Hne].
    + rewrite lookup_insert_eq. by exists data.
    + rewrite lookup_insert_ne by done. by exists d.
Qed.

Section Stored.
Context `{Simdutf8Laws} `{Sha2Laws} `{!Stubs} `{!StubsLaws} {St : Type} `{BlockStoreLaws St}.

Lemma store_source_no_panic (s : St) c : no_panic (store_source s c).
Proof. unfold store_source. pose proof (get_block_no_panic s c) as Hg. destruct (get_block s c) as [?|[]|]; done. Qed.

(** [save] stores the blocks from the last on; those the store refuses are
    left. *)
Lemma save_spec pending (s : St) : let '(r, (pending', s')) := save pending s in
  (forall c, stored s c -> stored s' c) /\ (forall c, c ∈ pending.*1 -> stored s' c \/ c ∈ pending'.*1) /\
  match r with Ok _ => pending' = [] | Err _ => True | Panic => False end.
Proof.
  revert s. induction pending as [|[c data] pending IH]; intros s; cbn [save].
  { split_and!; [done| |done]. intros c. by right. }
  pose proof (put_block_ok c data s) as Hput. pose proof (put_block_keeps c data s) as Hkeep.
  destruct (put_block c data s) as [[[]|e|] s1]; [|by split_and!; auto|done]. cbn [snd] in Hkeep.
  specialize (IH s1). destruct (save pending s1) as [r [pending' s']]. destruct IH as (Hk & Hp & Hr).
  split_and!; [auto| |done]. intros c' [->|Hin]%elem_of_cons; [left|auto]. apply Hk. by exists data.
Qed.

(** The tree stands for the map, and the store serves its blocks. *)
Definition tree_for (t : Tree St) (l : kvs) : Prop :=
  stands_for (inner t) l /\ faithful (store_source (store t)).

Lemma on_inner_run {A} (m : Source -> method A) t : on_inner m t =
  ((m (store_source (store t)) (inner t)).1, MkStoreTree (m (store_source (store t)) (inner t)).2 (store t) (unsaved t)).
Proof. unfold on_inner. by destruct (m _ _). Qed.

Lemma tree_entries_for t l : tree_for t l ->
  let '(r, t') := tree_entries t in
  tree_for t' l /\ match r with Ok es => es = l | Err _ => True | Panic => False end.
Proof.
  intros [Ht Hs]. pose proof (entries_stands_for _ (store_source_no_panic (store t)) Hs _ _ Ht) as He.
  unfold tree_entries. rewrite on_inner_run. destruct (entries _ _) as [r t']. cbn. by destruct He.
Qed.

(** [root_cid], whether the store takes every block or not. *)
Lemma tree_root_cid_for t l : stands_for (inner t) l ->
  let '(r, t') := tree_root_cid t in
  stands_for (inner t') l /\
  (forall c, stored (store t) c -> stored (store t') c) /\
  (forall c, c ∈ held (inner t') \/ c ∈ (unsaved t).*1 ->
     is_Some (refs (inner t) !! c) \/ stored (store t') c \/ c ∈ (unsaved t').*1) /\
  (forall c, c ∈ (unsaved t).*1 -> stored (store t') c \/ c ∈ (unsaved t').*1) /\
  match r with Ok root => map_root l = Some root /\ unsaved t' = [] | Err _ => True | Panic => False end.
Proof.
  intros Ht. destruct (flush_stands_for _ _ Ht) as (w & t1 & Hf & Hroot & Ht1 & _ & Hrel & Hacc & _).
  unfold tree_root_cid. rewrite (st_bind_run _ _ t w (MkStoreTree t1 (store t) (unsaved t))) by (rewrite on_inner_run; by rewrite Hf).
  rewrite (st_bind_run _ _ _ () (MkStoreTree t1 (store t) (unsaved t ++ new_blocks w))) by done.
  unfold save_unsaved, mbind, st_bind. cbn [unsaved store inner]. pose proof (save_spec (rev (unsaved t ++ new_blocks w)) (store t)) as Hs.
  destruct (save _ _) as [r [pending s']]. destruct Hs as (Hk & Hp & Hr).
  assert (Hleft : forall c, c ∈ (unsaved t ++ new_blocks w).*1 -> stored s' c \/ c ∈ (rev pending).*1).
  { intros c Hin. destruct (Hp c) as [?|Hin']; [|by left|right].
    - rewrite rev_alt. apply list_elem_of_fmap in Hin as (b & -> & Hb). apply list_elem_of_fmap. exists b. split; [done|].
      rewrite <- rev_alt. by apply list_elem_of_In, in_rev, list_elem_of_In in Hb.
    - apply list_elem_of_fmap in Hin' as (b & -> & Hb). apply list_elem_of_fmap. exists b. split; [done|].
      apply list_elem_of_In. apply -> in_rev. by apply list_elem_of_In. }
  assert (Hheld : forall c, c ∈ held t1 -> is_Some (refs (inner t) !! c) \/ stored s' c \/ c ∈ (rev pending).*1).
  { intros c Hin. destruct (refs (inner t) !! c) eqn:Hc; [by left; eexists|right]. apply Hleft. rewrite fmap_app. apply elem_of_app. right.
    apply Hacc. split; [done|]. apply refs_ok_dom; [apply Ht1|]. apply count_in in Hin. lia. }
  assert (Hun : forall c, c ∈ (unsaved t).*1 -> stored s' c \/ c ∈ (rev pending).*1).
  { intros c Hin. apply Hleft. rewrite fmap_app. apply elem_of_app. by left. }
  destruct r as [[]|e|]; [|by split_and!; naive_solver|done]. cbn [inner store unsaved]. split_and!; [done|done|naive_solver|done|done|].
  by rewrite Hr.
Qed.


(** C31. [diff] of two trees is what the right map has and the left one does
    not, what both have with other values, and what only the left has, each in
    the order of the keys; and it leaves both maps as they were. *)
Theorem diff_spec (lt rt : Tree St) l r : tree_for lt l -> tree_for rt r ->
  let '(d, (lt', rt')) := diff (lt, rt) in
  tree_for lt' l /\ tree_for rt' r /\
  match d with
  | Ok d => d = MkDiff (only_in r l) (changed l r) (only_in l r)
  | Err _ => True
  | Panic => False
  end.
Proof.
  intros Hl Hr. unfold diff. pose proof (tree_entries_for lt l Hl) as Hel. destruct (tree_entries lt) as [r1 lt'].
  destruct Hel as [Hl' He1]. destruct r1 as [el|e|]; [|done..]. subst el.
  pose proof (tree_entries_for rt r Hr) as Her. destruct (tree_entries rt) as [r2 rt']. destruct Her as [Hr' He2].
  destruct r2 as [er|e|]; [|done..]. subst er. split_and!; [done..|]. by rewrite diff_entries_spec by (apply Hl || apply Hr).
Qed.
End Stored.

(** ** Examples *)

#[local] Existing Instances simd_ref simd_ref_laws sha2_toy sha2_toy_laws ex_stubs ex_stubs_laws.


(** The store that serves the example's block. *)
Definition ex_mem : gmap Cid bytes := {[ex_root := ex_block]}.

Lemma ex_mem_source c : store_source ex_mem c = ex_source c.
Proof.
  unfold store_source, ex_source. change (get_block ex_mem c) with (ok_or (BlockNotFound c) (ex_mem !! c)).
  unfold ex_mem. case_bool_decide as Hc.
  - rewrite Hc, lookup_singleton_eq. done.
  - rewrite lookup_singleton_ne by done. done.
Qed.

Example diff_spec_witness :
  (diff (MkStoreTree (load_tree ex_root) ex_mem [], MkStoreTree new ex_mem [])).1 = Ok (MkDiff [] [] ex_map).
Proof.
  assert (Hs : faithful (store_source ex_mem)).
  { intros h c data Hc. rewrite ex_mem_source. by apply ex_source_faithful. }
  pose proof (diff_spec (MkStoreTree (load_tree ex_root) ex_mem []) (MkStoreTree new ex_mem []) ex_map []
    (conj ex_stands_for Hs) (conj new_stands_for Hs)) as Hd.
  assert (Hok : exists d, (diff (MkStoreTree (load_tree ex_root) ex_mem [], MkStoreTree new ex_mem [])).1 = Ok d) by (vm_compute; by eexists).
  destruct (diff _) as [d [lt' rt']]. destruct Hok as [d' Hd']. cbn in Hd'. subst d. destruct Hd as (_ & _ & ->). reflexivity.
Defined.
