(* ===== verification/MstPath.v ===== *)
(** What a lookup reads: the blocks on the search path of a key. They settle
    its value, so a lookup in a tree, a search path and a proof made of that
    path agree, whatever else their sources hold. *)
From S2P Require Import Prelude StateError SyntaxError CborError Cid CborDecode CborCodec MstHeight SortedMap MstNode MstTree MstShape MstMutate MstFlush MstLoad MstLoadSpec MstLoaded MstDetached MstProof MstDetachedSpec MstFlushed MstMap.

(** ** Lookups in blocks *)

(** The entries of a block, and the subtree in a slot. *)
Definition entries_of (keys : list (EntryData * bytes)) : list (EntryOf ()) :=
  map (fun x => MkEntry x.2 (value x.1) None) keys.

Definition slot_cid (nd : NodeData) (i : nat) : option Cid :=
  match i with O => data_left nd | S j => data_entries nd !! j ≫= data_right end.

Lemma scan_keys {N M} (es : list (EntryOf N)) (es' : list (EntryOf M)) key :
  map e_key es = map e_key es' -> search es key = search es' key.
Proof.
  revert es'. induction es as [|e es IH]; intros [|e' es']; try done. cbn. intros [= Hk Hks].
  rewrite Hk. destruct (bytes_cmp key (e_key e')); [done..|]. by rewrite (IH es').
Qed.

Section Blocks.
Context `{Sha2} `{Simdutf8}.

Definition block_at (src : Source) (c : Cid) (nd : NodeData) (keys : list (EntryData * bytes)) : Prop :=
  exists data, src c = Ok (Some data) /\ decode_node_data data = Ok nd /\ for_each_key nd = Ok keys.

(** The value of [key] below the block [c], with the blocks read. *)
Inductive block_finds (src : Source) (key : bytes) : Cid -> option Cid -> list Cid -> Prop :=
| bf_here c nd keys i x : block_at src c nd keys -> search (entries_of keys) key = (i, true) -> keys !! i = Some x ->
    block_finds src key c (Some (value x.1)) [c]
| bf_none c nd keys i : block_at src c nd keys -> search (entries_of keys) key = (i, false) -> slot_cid nd i = None ->
    block_finds src key c None [c]
| bf_below c nd keys i c' v p : block_at src c nd keys -> search (entries_of keys) key = (i, false) ->
    slot_cid nd i = Some c' -> block_finds src key c' v p -> block_finds src key c v (c :: p).

(** Two sources that agree on the blocks both have. *)
Definition agree (src src' : Source) : Prop :=
  forall c d d', src c = Ok (Some d) -> src' c = Ok (Some d') -> d = d'.

Lemma block_at_agree src src' c nd nd' keys keys' : agree src src' -> block_at src c nd keys -> block_at src' c nd' keys' ->
  nd = nd' /\ keys = keys'.
Proof.
  intros Ha (d & Hs & Hd & Hk) (d' & Hs' & Hd' & Hk'). assert (d = d') as <- by (by eapply Ha). split; congruence.
Qed.

(** The blocks settle the value and the path. *)
Lemma block_finds_agree src src' key c v v' p p' : agree src src' ->
  block_finds src key c v p -> block_finds src' key c v' p' -> v = v' /\ p = p'.
Proof.
  intros Ha Hf. revert v' p'.
  induction Hf as [c nd keys i x Hb Hs Hx|c nd keys i Hb Hs Hn|c nd keys i c1 v p Hb Hs Hc _ IH];
    intros v' p' Hf'; inversion Hf' as [c' nd' keys' i' x' Hb' Hs' Hx'|c' nd' keys' i' Hb' Hs' Hn'|c' nd' keys' i' c2 v2 p2 Hb' Hs' Hc' Hf2];
    subst; destruct (block_at_agree src src' c nd nd' keys keys' Ha Hb Hb') as [<- <-]; try congruence.
  - assert (x = x') as -> by congruence. done.
  - done.
  - assert (c1 = c2) as <- by congruence. destruct (IH _ _ Hf2) as [-> ->]. done.
Qed.

(** A source that has the blocks of the path finds the value. *)
Lemma block_finds_sub src src' key c v p : block_finds src key c v p ->
  (forall d, d ∈ p -> src' d = src d) -> block_finds src' key c v p.
Proof.
  assert (Hat : forall c nd keys, block_at src c nd keys -> src' c = src c -> block_at src' c nd keys).
  { intros c0 nd keys (d & Hs & Hr) He. exists d. by rewrite He. }
  induction 1 as [c nd keys i x Hb Hs Hx|c nd keys i Hb Hs Hn|c nd keys i c1 v p Hb Hs Hc _ IH]; intros Hp.
  - eapply bf_here; [|done..]. apply Hat; [done|]. apply Hp. by left.
  - eapply bf_none; [|done..]. apply Hat; [done|]. apply Hp. by left.
  - eapply bf_below; [|done..|]; [apply Hat; [done|]; apply Hp; by left|]. apply IH. intros d Hd. apply Hp. by right.
Qed.

(** ** Nodes and their blocks *)

Definition slot_of (o : option Node) (c : option Cid) : Prop :=
  match o with Some m => c = n_cid m | None => c = None end.

(** What is loaded is what the blocks of the source hold. *)
Inductive backed (src : Source) : Node -> Prop :=
| backed_stub n : n_loaded n = false -> n_cid n <> None -> backed src n
| backed_node n c nd keys : n_loaded n = true -> n_cid n = Some c -> block_at src c nd keys ->
    map kv (n_entries n) = map (fun x => (x.2, value x.1)) keys ->
    (forall i, slot_of (child n i) (slot_cid nd i)) -> (forall i m, child n i = Some m -> backed src m) -> backed src n.

Lemma load_step_cid src at_ n n' : load_step src at_ n n' -> n_cid n' = n_cid n.
Proof.
  destruct 1 as [at_ n n' cid data nd _ _ _ _ _ Hpop|at_ n i c c' _ _ _].
  - by apply populate_node_Ok in Hpop as (keys & _ & _ & ->).
  - by destruct (set_child_fields n i (Some c')) as (-> & _).
Qed.

Lemma set_child_kv n i c : map kv (n_entries (set_child n i c)) = map kv (n_entries n).
Proof.
  destruct n as [l es cd h ld], i as [|j]; [done|]. cbn. revert j. induction es as [|e es IH]; intros [|j]; cbn; [done..|].
  f_equal. apply IH.
Qed.

Lemma populate_backed src n nd at_ n' c data : n_cid n = Some c -> src c = Ok (Some data) -> decode_node_data data = Ok nd ->
  populate_node n nd at_ = Ok n' -> backed src n'.
Proof.
  intros Hc Hs Hd (keys & Hk & _ & ->)%populate_node_Ok. cbn zeta. set (h := match head keys with Some _ => _ | None => _ end). clearbody h.
  apply (backed_node _ _ c nd keys); [done|done|by exists data|..].
  - cbn [n_entries]. rewrite map_map. done.
  - pose proof (for_each_key_from_data _ _ _ _ Hk) as Hf. intros [|j]; unfold child; cbn [slot n_left n_entries slot_cid].
    + by destruct (data_left nd).
    + rewrite <- Hf. change (map fst keys) with (fst <$> keys). change (map ?f keys) with (f <$> keys). rewrite !list_lookup_fmap.
      destruct (keys !! j) as [[ed k]|]; cbn; [|done]. by destruct (data_right ed).
  - intros i m. unfold child. destruct i as [|j]; cbn [slot n_left n_entries].
    + intros (x & _ & ->)%fmap_Some. by apply backed_stub.
    + change (map ?f keys) with (f <$> keys). rewrite list_lookup_fmap. destruct (keys !! j) as [[ed k]|]; cbn; [|done].
      intros (x & _ & ->)%fmap_Some. by apply backed_stub.
Qed.

Lemma load_step_backed src at_ n n' : load_step src at_ n n' -> backed src n -> backed src n'.
Proof.
  induction 1 as [at_ n n' cid data nd Hl Hcid _ Hs Hd Hpop|at_ n i c c' Hl Hc Hstep IH]; intros Hb.
  - by eapply populate_backed.
  - inversion Hb as [m Hl' _|m cd nd keys _ Hcd Hat Hkv Hch Hbk]; subst; [congruence|].
    destruct (set_child_fields n i (Some c')) as (Hcid' & _ & Hl' & _). eapply backed_node; [by rewrite Hl'|by rewrite Hcid'|done|by rewrite set_child_kv|..].
    + intros j. destruct (decide (i = j)) as [<-|Hne]; [|by rewrite child_set_child_ne].
      rewrite child_set_child by (by eapply child_le). specialize (Hch i). rewrite Hc in Hch. cbn in *.
      rewrite Hch. symmetry. by eapply load_step_cid.
    + intros j m. destruct (decide (i = j)) as [<-|Hne]; [|rewrite child_set_child_ne by done; apply Hbk].
      rewrite child_set_child by (by eapply child_le). intros [= <-]. apply IH. by eapply Hbk.
Qed.

Lemma loads_backed src at_ n n' : loads src at_ n n' -> backed src n -> backed src n' /\ n_cid n' = n_cid n.
Proof.
  induction 1 as [n|n n1 n' Hs _ IH]; [done|]. intros Hb. destruct IH as [Hb' Hc]; [by eapply load_step_backed|].
  split; [done|]. rewrite Hc. by eapply load_step_cid.
Qed.

Lemma backed_search n keys key : map kv (n_entries n) = map (fun x : EntryData * bytes => (x.2, value x.1)) keys ->
  search (n_entries n) key = search (entries_of keys) key.
Proof.
  intros Hkv. apply scan_keys. apply (f_equal (map fst)) in Hkv. unfold entries_of. rewrite !map_map in *. exact Hkv.
Qed.

Lemma backed_entry n keys i e : map kv (n_entries n) = map (fun x : EntryData * bytes => (x.2, value x.1)) keys ->
  n_entries n !! i = Some e -> exists x, keys !! i = Some x /\ e_val e = value x.1.
Proof.
  intros Hkv He. apply (f_equal (fun l => l !! i)) in Hkv. change (map ?f ?l) with (f <$> l) in Hkv. rewrite !list_lookup_fmap, He in Hkv.
  destruct (keys !! i) as [x|]; [|done]. exists x. split; [done|]. unfold kv in Hkv. cbn in Hkv. by injection Hkv.
Qed.

(** A lookup in memory is one in the blocks. *)
Lemma finds_backed src key n v c : finds key n v -> backed src n -> n_cid n = Some c -> exists p, block_finds src key c v p.
Proof.
  intros Hf. revert c. induction Hf as [n i e Hl Hs He|n i Hl Hs Hc|n i m v Hl Hs Hc _ IH]; intros c Hb Hcid;
    (inversion Hb as [n0 Hl' _|n0 cd nd keys _ Hcd Hat Hkv Hch Hbk]; subst; [congruence|]);
    (assert (cd = c) as -> by congruence); rewrite (backed_search n keys) in Hs by done.
  - destruct (backed_entry n keys i e Hkv He) as (x & Hx & ->). eexists. by eapply bf_here.
  - specialize (Hch i). rewrite Hc in Hch. eexists. by eapply bf_none.
  - specialize (Hch i). rewrite Hc in Hch. cbn in Hch. pose proof (Hbk i m Hc) as Hbm.
    destruct (n_cid m) as [c'|] eqn:Hm.
    + destruct (IH c' Hbm eq_refl) as [p Hp]. eexists. by eapply bf_below.
    + exfalso. destruct Hbm; congruence.
Qed.
End Blocks.

(** ** Search paths *)

Lemma first_at_least_search keys key : let '(i, found) := search (entries_of keys) key in
  first_at_least keys key = (if (i <? length keys)%nat then Some (i, found) else None) /\
  (i <= length keys)%nat /\ (found = true -> (i < length keys)%nat).
Proof.
  induction keys as [|[ed k] keys IH]; [by split_and!|]. unfold first_at_least in *. cbn [entries_of map search e_key fst snd position length].
  change (map _ keys) with (entries_of keys). unfold bytes_leb at 1. destruct (bytes_cmp_spec key k) as [->|Hlt|Hgt].
  - cbn. rewrite bool_decide_true by done. split_and!; [done|lia|lia].
  - cbn. rewrite bool_decide_false; [split_and!; [done|lia|done]|]. intros ->. by apply bytes_lt_irrefl in Hlt.
  - destruct (search (entries_of keys) key) as [i found]. destruct IH as (IH & Hi & Hf).
    split_and!; [|lia|intros Ht; specialize (Hf Ht); lia]. change (S i <? S (length keys))%nat with (i <? length keys)%nat.
    destruct (position _ keys) as [j|]; cbn in *.
    + destruct (keys !! j) as [x|]; cbn in *; [|by destruct (i <? length keys)%nat].
      destruct (i <? length keys)%nat; [|done]. by injection IH as -> ->.
    + by destruct (i <? length keys)%nat.
Qed.

Section Paths.
Context `{Sha2} `{Simdutf8}.

(** The loop of [search_blocks] at a block it can read. *)
Definition next_block (nd : NodeData) (found : option (nat * bool)) : option Cid :=
  match found with
  | Some (i, _) => slot_cid nd i
  | None => match last (data_entries nd) with Some e => data_right e | None => data_left nd end
  end.

Definition block_place (at_ : Place) (keys : list (EntryData * bytes)) (found : option (nat * bool)) : Place :=
  MkPlace (S (p_depth at_)) (or_else (key_below keys found) (p_lo at_)) (or_else (key_above keys found) (p_hi at_)).

Lemma search_blocks_step fuel src cid key at_ path : search_blocks (S fuel) src cid key at_ path =
  if (MAX_LEVELS <? p_depth at_)%nat then (Err (too_deep cid), path) else
  match src cid with
  | Ok (Some data) =>
      match decode_node_data data with
      | Ok nd =>
          match (keys ← for_each_key nd; _ ← all_admitted at_ (option_list (snd <$> head keys) ++ option_list (snd <$> last keys)); Ok keys) with
          | Ok keys =>
              let found := first_at_least keys key in
              match found with
              | Some (i, true) => (Ok (value <$> data_entries nd !! i), path ++ [cid])
              | _ => match next_block nd found with
                     | Some next => search_blocks fuel src next key (block_place at_ keys found) (path ++ [cid])
                     | None => (Ok None, path ++ [cid])
                     end
              end
          | Err e => (Err e, path ++ [cid])
          | Panic => (Panic, path ++ [cid])
          end
      | Err e => (Err e, path ++ [cid])
      | Panic => (Panic, path ++ [cid])
      end
  | Ok None => (Err (BlockNotFound cid), path)
  | Err e => (Err e, path)
  | Panic => (Panic, path)
  end.
Proof.
  cbn [search_blocks]. destruct (MAX_LEVELS <? p_depth at_)%nat; [done|]. unfold lift, push_cid, modify, mbind, st_bind, res_bind, fail.
  destruct (src cid) as [[data|]|e|]; try done. cbn. destruct (decode_node_data data) as [nd|e|]; try done.
  destruct (for_each_key nd) as [keys|e|]; try done. destruct (all_admitted at_ _) as [[]|e|]; try done.
  destruct (first_at_least keys key) as [[[|i] [|]]|]; try done.
  all: unfold next_block, slot_cid, mbind; cbn; repeat case_match; simplify_eq; done.
Qed.

(** The subtree to search is in the slot where the key belongs. *)
Lemma next_block_slot nd keys key i : for_each_key nd = Ok keys -> search (entries_of keys) key = (i, false) ->
  next_block nd (first_at_least keys key) = slot_cid nd i.
Proof.
  intros Hk Hs. pose proof (first_at_least_search keys key) as Hf. rewrite Hs in Hf. destruct Hf as (-> & Hi & _).
  destruct (Nat.ltb_spec i (length keys)); [done|]. assert (i = length keys) as -> by lia. cbn.
  apply for_each_key_from_data in Hk. apply (f_equal length) in Hk. rewrite length_map in Hk. rewrite Hk, last_lookup.
  destruct (data_entries nd) as [|e es] eqn:He; [done|]. cbn [length pred slot_cid].
  destruct (lookup_lt_is_Some_2 (e :: es) (length es)) as [x Hx]; [cbn; lia|]. by rewrite He, Hx.
Qed.

(** What [search_blocks] answers is settled by the blocks it read, and any
    source with those blocks makes it answer the same. *)
Lemma search_blocks_finds fuel src cid key at_ path v path' : search_blocks fuel src cid key at_ path = (Ok v, path') ->
  exists p, path' = path ++ p /\ block_finds src key cid v p /\
    forall src' path0, (forall d, d ∈ p -> src' d = src d) -> search_blocks fuel src' cid key at_ path0 = (Ok v, path0 ++ p).
Proof.
  revert cid at_ path. induction fuel as [|fuel IH]; intros cid at_ path; [done|]. rewrite search_blocks_step.
  destruct (MAX_LEVELS <? p_depth at_)%nat eqn:Hd; [done|]. destruct (src cid) as [[data|]|e|] eqn:Hsrc; try done.
  destruct (decode_node_data data) as [nd|e|] eqn:Hnd; try done.
  destruct (_ ≫= _) as [keys|e|] eqn:Hkeys in |- *; try done.
  assert (Hk : for_each_key nd = Ok keys).
  { apply res_bind_Ok in Hkeys as (ks & Hk & Hr). apply res_bind_Ok in Hr as ([] & _ & [= <-]). done. }
  assert (Hat : block_at src cid nd keys) by (by exists data). cbv zeta.
  pose proof (first_at_least_search keys key) as Hf. pose proof (next_block_slot nd keys key) as Hslot.
  destruct (search (entries_of keys) key) as [i found] eqn:Hs. destruct Hf as (Hf & Hi & Hlt).
  (* the same step from another source *)
  assert (Hstep : forall src' path0, src' cid = src cid -> search_blocks (S fuel) src' cid key at_ path0 =
    match first_at_least keys key with
    | Some (i, true) => (Ok (value <$> data_entries nd !! i), path0 ++ [cid])
    | _ => match next_block nd (first_at_least keys key) with
           | Some next => search_blocks fuel src' next key (block_place at_ keys (first_at_least keys key)) (path0 ++ [cid])
           | None => (Ok None, path0 ++ [cid])
           end
    end).
  { intros src' path0 He. by rewrite search_blocks_step, Hd, He, Hsrc, Hnd, Hkeys. }
  destruct found.
  - specialize (Hlt eq_refl). rewrite Hf in *. replace (i <? length keys)%nat with true in * by lia. intros [= <- <-].
    exists [cid]. split; [done|]. split; [|intros src' path0 Hp; apply Hstep, Hp; by left].
    destruct (lookup_lt_is_Some_2 keys i Hlt) as [x Hx]. pose proof (for_each_key_from_data _ _ _ _ Hk) as Hm.
    rewrite <- Hm. change (map fst keys) with (fst <$> keys). rewrite list_lookup_fmap, Hx. by eapply bf_here.
  - specialize (Hslot i Hk eq_refl).
    assert (Hne : forall A (a : nat -> A) (b : A), match first_at_least keys key with Some (i, true) => a i | _ => b end = b).
    { intros A a b. rewrite Hf. by destruct (i <? length keys)%nat. }
    rewrite Hne, Hslot. destruct (slot_cid nd i) as [next|] eqn:Hnext.
    + intros Hrun. destruct (IH _ _ _ Hrun) as (p & -> & Hp & Hsub). exists (cid :: p). rewrite <- app_assoc. split; [done|].
      split; [by eapply bf_below|]. intros src' path0 Hd'. rewrite Hstep by (apply Hd'; by left). rewrite Hne, Hslot.
      rewrite Hsub by (intros d Hin; apply Hd'; by right). by rewrite <- app_assoc.
    + intros [= <- <-]. exists [cid]. split; [done|]. split; [by eapply bf_none|].
      intros src' path0 Hd'. rewrite Hstep by (apply Hd'; by left). by rewrite Hne, Hslot.
Qed.
End Paths.

(** ** Trees on blocks *)

Section Trees.
Context `{Sha2} `{Simdutf8}.

Lemma search_nodes_finds fuel src n key at_ path c v path' : backed src n -> n_cid n = Some c ->
  search_nodes fuel src n key at_ path = (Ok v, path') -> exists p, path' = path ++ p /\ block_finds src key c v p.
Proof.
  revert n at_ path c. induction fuel as [|fuel IH]; intros n at_ path c Hb Hcid; [done|]. cbn [search_nodes].
  rewrite (st_bind_run _ _ path c path) by (unfold lift, ok_or; by rewrite Hcid). inversion Hb as [m Hl _|m cd nd keys Hl Hcd Hat Hkv Hch Hbk]; subst.
  { rewrite Hl. cbn [negb]. intros Hrun. destruct (search_blocks_finds _ _ _ _ _ _ _ _ Hrun) as (p & Hp & Hf & _). by exists p. }
  assert (cd = c) as -> by congruence. rewrite Hl. cbn [negb]. rewrite (st_bind_run _ _ path () (path ++ [c])) by done.
  destruct (search (n_entries n) key) as [i [|]] eqn:Hs.
  - intros (e & s1 & He & [= <- <-])%st_bind_Ok. unfold lift, index in He. destruct (n_entries n !! i) as [e'|] eqn:Hi; [|done].
    injection He as -> <-. destruct (backed_entry n keys i e Hkv Hi) as (x & Hx & ->).
    exists [c]. split; [done|]. eapply bf_here; [done| |done]. by rewrite <- (backed_search n keys).
  - rewrite (backed_search n keys) in Hs by done. specialize (Hch i). destruct (child n i) as [m|] eqn:Hc; cbn in Hch.
    + specialize (Hbk i m Hc). destruct (n_cid m) as [c'|] eqn:Hm; [|exfalso; destruct Hbk; congruence].
      intros Hrun. destruct (IH m _ _ c' Hbk Hm Hrun) as (p & -> & Hf). exists (c :: p). rewrite <- app_assoc. split; [done|].
      by eapply bf_below.
    + intros [= <- <-]. exists [c]. split; [done|]. by eapply bf_none.
Qed.

(** What is loaded of the tree with the root [r] came from the source. *)
Definition tree_backed (src : Source) (t : DetachedTree) (r : Cid) : Prop :=
  exists n, root t = Some n /\ n_cid n = Some r /\ backed src n.

Lemma load_tree_backed src r : tree_backed src (load_tree r) r.
Proof. exists (stub r 0). split_and!; [done..|]. by apply backed_stub. Qed.

Lemma get_backed src t r key : (forall c, no_panic (src c)) -> tree_backed src t r ->
  let '(v, t') := get src key t in
  tree_backed src t' r /\ match v with Ok v => exists p, block_finds src key r v p | Err _ => True | Panic => False end.
Proof.
  intros Hsrc (n & Hn & Hc & Hb). unfold get. destruct (poisoned t) eqn:Hp.
  { unfold check_usable, mbind, st_bind. rewrite Hp. split; [by exists n|done]. }
  rewrite (st_bind_run _ _ t () t) by (unfold check_usable; by rewrite Hp). unfold on_root. rewrite Hn.
  pose proof (get_node_ok src Hsrc (load_fuel n ROOT) key ROOT n (refs t) (Nat.le_refl _)) as Hrun. unfold run_ok in Hrun.
  destruct (get_node _ _ _ _ _) as [v [n' refs']]. destruct Hrun as (Hl & _ & Hv).
  destruct (loads_backed src ROOT n n' Hl Hb) as [Hb' Hc']. assert (Hcn : n_cid n' = Some r) by congruence.
  split; [by exists n'|]. destruct v as [v|e|]; [|done..]. by eapply finds_backed.
Qed.

Lemma search_path_finds src t r key path v path' : tree_backed src t r -> search_path src t key path = (Ok v, path') ->
  exists p, path' = path ++ p /\ block_finds src key r v p.
Proof.
  intros (n & Hn & Hc & Hb). unfold search_path, check_usable. destruct (poisoned t); [done|].
  rewrite (st_bind_run _ _ path () path) by done. rewrite Hn. by apply search_nodes_finds.
Qed.

Lemma search_path_load src r key path : search_path src (load_tree r) key path = search_blocks (S (blocks_fuel ROOT)) src r key ROOT path.
Proof. done. Qed.

(** Lookups under one root agree: whatever two sources hold and whatever
    was loaded from them, two lookups that succeed give the same value, if the
    sources do not hold different blocks under one CID. *)
Theorem lookups_agree src1 src2 t1 t2 r key : (forall c, no_panic (src1 c)) -> (forall c, no_panic (src2 c)) ->
  agree src1 src2 -> tree_backed src1 t1 r -> tree_backed src2 t2 r ->
  match (get src1 key t1).1, (get src2 key t2).1 with
  | Ok v1, Ok v2 => v1 = v2
  | _, _ => True
  end.
Proof.
  intros Hs1 Hs2 Ha Ht1 Ht2. pose proof (get_backed src1 t1 r key Hs1 Ht1) as H1. pose proof (get_backed src2 t2 r key Hs2 Ht2) as H2.
  destruct (get src1 key t1) as [[v1|e|] t1'], (get src2 key t2) as [[v2|e'|] t2']; try done. cbn.
  destruct H1 as (_ & p1 & Hf1), H2 as (_ & p2 & Hf2). by destruct (block_finds_agree src1 src2 key r v1 v2 p1 p2 Ha Hf1 Hf2).
Qed.

(** The path [search_path] names is a proof: its first block is the root,
    any source with those blocks gives the same answer and the same path, and
    no source that agrees on them makes a lookup give another answer. *)
Theorem search_path_proves src r key v p : search_path src (load_tree r) key [] = (Ok v, p) ->
  head p = Some r /\
  (forall src', (forall c, c ∈ p -> src' c = src c) -> search_path src' (load_tree r) key [] = (Ok v, p)) /\
  (forall src', (forall c, no_panic (src' c)) -> agree src src' ->
     match (get src' key (load_tree r)).1 with Ok v' => v' = v | _ => True end).
Proof.
  rewrite search_path_load. intros (q & -> & Hf & Hsub)%search_blocks_finds. cbn [app] in *. split_and!.
  - by destruct Hf.
  - intros src' Hs. rewrite search_path_load. by apply Hsub.
  - intros src' Hs Ha. pose proof (get_backed src' (load_tree r) r key Hs (load_tree_backed src' r)) as Hg.
    destruct (get src' key (load_tree r)) as [[v'|e|] t']; [|done..]. destruct Hg as (_ & p' & Hf').
    by destruct (block_finds_agree src src' key r v v' q p' Ha Hf Hf').
Qed.
End Trees.

(** ** Paths in the tree of a map *)

Section Honest.
Context `{Simdutf8Laws} `{Sha2Laws} `{!Stubs} `{!StubsLaws} (src : Source).
Hypothesis src_faithful : faithful src.

Lemma admitted_root keys : all_admitted ROOT keys = Ok ().
Proof. by induction keys. Qed.

Lemma populate_child_stub n nd at_ n' i m : populate_node n nd at_ = Ok n' -> child n' i = Some m -> exists c h, m = stub c h.
Proof.
  intros (keys & _ & _ & ->)%populate_node_Ok. cbn zeta. unfold child. destruct i as [|j]; cbn [slot n_left n_entries].
  - intros (c & _ & ->)%fmap_Some. by eexists _, _.
  - change (map ?f keys) with (f <$> keys). rewrite list_lookup_fmap. destruct (keys !! j) as [[ed k]|]; cbn; [|done].
    intros (c & _ & ->)%fmap_Some. by eexists _, _.
Qed.

(** The blocks of a map hold the map. *)
Lemma block_finds_get key c v p : block_finds src key c v p -> forall h, stub_shape h c -> 0 <= h ->
  tree_cid h (stub_contents c) = Some c -> ordered (stub_contents c) -> v = SortedMap.get key (stub_contents c).
Proof.
  assert (Hnode : forall c nd keys h, block_at src c nd keys -> stub_shape h c -> 0 <= h ->
    tree_cid h (stub_contents c) = Some c -> exists n, populate_node (stub c h) nd ROOT = Ok n /\ n_loaded n = true /\
      contents n = stub_contents c /\ shape h n /\ map kv (n_entries n) = map (fun x => (x.2, value x.1)) keys /\
      (forall i, slot_of (child n i) (slot_cid nd i)) /\ forall i m, child n i = Some m -> exists c h, m = stub c h).
  { clear c v p. intros c nd keys h (data & Hs & Hd & Hk) Hst Hh Htc.
    assert (nd = list_node h (stub_contents c)) as -> by (by eapply faithful_decode).
    assert (Hpop : exists n, populate_node (stub c h) (list_node h (stub_contents c)) ROOT = Ok n).
    { unfold populate_node. rewrite Hk. cbn [mbind res_bind]. rewrite admitted_root. by eexists. }
    destruct Hpop as [n Hpop]. exists n.
    destruct (populate_stub h (stub c h) c n ROOT eq_refl eq_refl Hst Hh Htc (or_introl eq_refl) Hpop) as [Hcon Hsh].
    pose proof (populate_backed src (stub c h) _ ROOT n c data eq_refl Hs Hd Hpop) as Hb.
    assert (Hl : n_loaded n = true) by (by apply populate_node_Ok in Hpop as (ks & _ & _ & ->)).
    inversion Hb as [m Hl' _|m cd nd' keys' _ Hcd Hat Hkv Hch _]; subst; [congruence|].
    assert (cd = c) as -> by (apply populate_node_Ok in Hpop as (ks & _ & _ & ->); cbn in Hcd; congruence).
    destruct Hat as (data' & Hs' & Hd' & Hk'). assert (data' = data) as -> by congruence.
    assert (nd' = list_node h (stub_contents c)) as -> by congruence. assert (keys' = keys) as -> by congruence.
    split_and!; try done. intros i m. by apply (populate_child_stub _ _ _ _ _ _ Hpop). }
  induction 1 as [c nd keys i x Hat Hs Hx|c nd keys i Hat Hs Hn|c nd keys i c' v p Hat Hs Hc _ IH]; intros h Hst Hh Htc Ho;
    destruct (Hnode c nd keys h Hat Hst Hh Htc) as (n & _ & Hl & Hcon & Hsh & Hkv & Hch & Hstub); rewrite <- Hcon in *;
    rewrite <- (backed_search n keys key Hkv) in Hs.
  - apply cut_present in Hs as (e & He & _ & Hce & Hb & _); [|done..]. rewrite Hce, get_mid by done.
    destruct (backed_entry n keys i e Hkv He) as (x' & Hx' & Hv). congruence.
  - destruct (absent_child n key i Hl Ho Hs) as [_ ->]. specialize (Hch i). rewrite Hn in Hch.
    destruct (child n i) as [m|] eqn:Hm; [|done]. destruct (Hstub i m Hm) as (c' & h' & ->). done.
  - destruct (absent_child n key i Hl Ho Hs) as [Hoc ->]. specialize (Hch i). rewrite Hc in Hch.
    pose proof (shape_child h n i Hl Hsh) as Hsc. destruct (child n i) as [m|] eqn:Hm; [|done].
    destruct (Hstub i m Hm) as (c1 & h' & ->). cbn in Hch. injection Hch as ->.
    destruct Hsc as [(_ & Hh' & Hok & Hst') _]. by apply (IH (h - 1)); [..|apply Hok|].
Qed.

(** The block of an empty tree holds nothing. *)
Lemma block_finds_empty key c v p : block_finds src key c v p -> stub_shape 0 c -> stub_contents c = [] -> v = None.
Proof.
  intros Hf Hst Hcon.
  assert (Hnode : forall nd keys, block_at src c nd keys -> nd = MkNodeData None [] /\ keys = []).
  { intros nd keys (data & Hs & Hd & Hk). assert (nd = list_node 0 (stub_contents c)) as Hnd by (by eapply faithful_decode).
    rewrite Hcon in Hnd. change (list_node 0 []) with (MkNodeData None []) in Hnd. subst nd. split; [done|]. by injection Hk. }
  inversion Hf as [c' nd keys i x Hat Hs Hx|c' nd keys i Hat Hs Hn|c' nd keys i c1 v' p' Hat Hs Hn _]; subst; [|done|];
    destruct (Hnode nd keys Hat) as [-> ->]; cbn in Hs; [done|]. by injection Hs as <-.
Qed.

Hypothesis src_no_panic : forall c, no_panic (src c).

Lemma all_admitted_no_panic at_ keys : no_panic (all_admitted at_ keys).
Proof. induction keys as [|k keys IH]; [done|]. cbn. by destruct (negb _). Qed.

Lemma search_blocks_no_panic fuel cid key at_ path : (blocks_fuel at_ < fuel)%nat ->
  (search_blocks fuel src cid key at_ path).1 <> Panic.
Proof.
  revert cid at_ path. induction fuel as [|fuel IH]; intros cid at_ path Hf; [lia|].
  - rewrite search_blocks_step. destruct (Nat.ltb_spec MAX_LEVELS (p_depth at_)); [done|].
    pose proof (src_no_panic cid) as Hsrc. destruct (src cid) as [[data|]|e|]; try done.
    pose proof (decode_node_data_no_panic data (cbor_decode_no_panic data)) as Hdec. destruct (decode_node_data data) as [nd|e|]; try done.
    pose proof (for_each_key_from_no_panic true [] (data_entries nd)) as Hk. change (for_each_key_from true [] (data_entries nd)) with (for_each_key nd) in Hk. destruct (for_each_key nd) as [keys|e|]; try done. cbn [mbind res_bind].
    pose proof (all_admitted_no_panic at_ (option_list (snd <$> head keys) ++ option_list (snd <$> last keys))) as Ha.
    destruct (all_admitted at_ _) as [[]|e|]; try done. cbv zeta.
    assert (Hgo : (match next_block nd (first_at_least keys key) with
      | Some next => search_blocks fuel src next key (block_place at_ keys (first_at_least keys key)) (path ++ [cid])
      | None => (Ok None, path ++ [cid])
      end).1 <> Panic).
    { destruct (next_block _ _); [|done]. apply IH. unfold blocks_fuel in *. cbn [p_depth block_place]. lia. }
    change (Ok () ≫= λ _ : (), Ok keys) with (@Ok MstError _ keys). cbv iota. by destruct (first_at_least keys key) as [[j [|]]|].
Qed.

(** [search_nodes] in memory, down to the blocks. *)
Lemma search_nodes_get fuel n h key at_ path : (levels n <= fuel)%nat -> shape h n -> ordered (contents n) ->
  match (search_nodes fuel src n key at_ path).1 with
  | Ok v => v = SortedMap.get key (contents n)
  | Err _ => True
  | Panic => False
  end.
Proof.
  revert n h at_ path. induction fuel as [|fuel IH]; intros n h at_ path Hf Hs Ho; [destruct n; cbn in Hf; lia|].
  cbn [search_nodes]. destruct (n_cid n) as [c|] eqn:Hc; [|done].
  rewrite (st_bind_run _ _ path c path) by done. destruct (n_loaded n) eqn:Hl; cbn [negb].
  - rewrite (st_bind_run _ _ path () (path ++ [c])) by done. destruct (search (n_entries n) key) as [i [|]] eqn:Hsr.
    + apply cut_present in Hsr as (e & He & _ & Hce & Hb & _); [|done..].
      rewrite (st_bind_run _ _ _ e (path ++ [c])) by (unfold lift, index; by rewrite He). cbn. by rewrite Hce, get_mid.
    + destruct (absent_child n key i Hl Ho Hsr) as [Hoc ->]. pose proof (shape_child h n i Hl Hs) as Hsc.
      pose proof (child_levels n i) as Hlv. destruct (child n i) as [m|]; [|done]. specialize (Hlv m eq_refl).
      apply (IH m (h - 1)); [lia|apply Hsc|done].
  - destruct n as [l es cd ht ld]. cbn in Hl, Hc. subst ld cd. destruct Hs as (_ & Hh & Hok & Hst). cbn [contents] in *.
    pose proof (search_blocks_no_panic (S (blocks_fuel at_)) c key at_ path (Nat.lt_succ_diag_r _)) as Hnp.
    destruct (search_blocks _ _ _ _ _ _) as [[v|e|] path'] eqn:Hrun; [|done..]. cbn.
    apply search_blocks_finds in Hrun as (p & _ & Hf' & _). eapply block_finds_get; [exact Hf'|done..|by apply Hok|done].
Qed.

(** [search_path] answers with the value of the key in the map, in a tree
    loaded as far as it may be, and it does not panic. *)
Theorem search_path_get t l key path : stands_for t l ->
  match (search_path src t key path).1 with
  | Ok v => v = SortedMap.get key l
  | Err _ => True
  | Panic => False
  end.
Proof.
  intros (Hp & _ & Ho & _ & Hr). unfold search_path, check_usable. rewrite Hp. rewrite (st_bind_run _ _ path () path) by done.
  destruct (root t) as [n|]; [|destruct Hr as [-> _]; by destruct (empty_root t)]. destruct Hr as [[[Hs|Hs] Hc] _].
  - destruct (n_loaded n) eqn:Hl.
    + apply root_shape_loaded in Hs as (h & Hs & _); [|done]. rewrite <- Hc in *. by apply (search_nodes_get _ _ h).
    + unfold root_shape in Hs. rewrite Hl in Hs. destruct Hs as (h & c & Hcd & Hst & Hh & Htc & _).
      destruct n as [lf es cd ht ld]. cbn in Hl, Hcd. subst ld cd. cbn [contents] in Hc. subst l. cbn [levels search_nodes].
      rewrite (st_bind_run _ _ path c path) by done. cbn [n_loaded negb].
      pose proof (search_blocks_no_panic (S (blocks_fuel ROOT)) c key ROOT path (Nat.lt_succ_diag_r _)) as Hnp.
      destruct (search_blocks _ _ _ _ _ _) as [[v|e|] path'] eqn:Hrun; [|done..].
      apply search_blocks_finds in Hrun as (p & _ & Hf' & _). by eapply block_finds_get.
  - rewrite (root_empty_contents n Hs) in Hc. subst l. destruct Hs as (c & Hcd & _ & _ & Hn). destruct n as [lf es cd ht ld].
    cbn in Hcd. subst cd. destruct ld; cbn in Hn.
    + by destruct Hn as [-> ->].
    + destruct Hn as [Hst Hcon]. cbn [levels search_nodes]. rewrite (st_bind_run _ _ path c path) by done. cbn [n_loaded negb].
      pose proof (search_blocks_no_panic (S (blocks_fuel ROOT)) c key ROOT path (Nat.lt_succ_diag_r _)) as Hnp.
      destruct (search_blocks _ _ _ _ _ _) as [[v|e|] path'] eqn:Hrun; [|done..].
      apply search_blocks_finds in Hrun as (p & _ & Hf' & _). by eapply block_finds_empty.
Qed.
End Honest.

(** ** Examples *)

#[local] Existing Instances simd_ref simd_ref_laws sha2_toy sha2_toy_laws ex_stubs ex_stubs_laws.

(** Another source with the same root block, and other things. *)
Definition ex_other_source : Source := fun c => Ok (Some (if bool_decide (c = ex_root) then ex_block else [])).

Lemma ex_other_agrees : agree ex_source ex_other_source.
Proof.
  intros c d d'. unfold ex_source, ex_other_source. case_bool_decide; [|done]. intros <-%served_inj <-%served_inj. done.
Qed.

Example lookups_agree_witness :
  match (get ex_source ex_key (load_tree ex_root)).1, (get ex_other_source ex_key (load_tree ex_root)).1 with
  | Ok v1, Ok v2 => v1 = v2
  | _, _ => True
  end /\ (get ex_other_source ex_key (load_tree ex_root)).1 = Ok (Some ex_val).
Proof.
  split; [|vm_compute; reflexivity].
  apply (lookups_agree ex_source ex_other_source _ _ ex_root ex_key ex_source_no_panic (fun _ => no_panic_Ok _) ex_other_agrees);
    apply load_tree_backed.
Defined.

Example search_path_proves_witness : search_path ex_other_source (load_tree ex_root) ex_key [] = (Ok (Some ex_val), [ex_root]).
Proof.
  assert (Hrun : search_path ex_source (load_tree ex_root) ex_key [] = (Ok (Some ex_val), [ex_root])) by (vm_compute; reflexivity).
  destruct (search_path_proves ex_source ex_root ex_key _ _ Hrun) as (_ & Hsub & _). apply Hsub.
  intros c ->%list_elem_of_singleton. unfold ex_source, ex_other_source. by rewrite !bool_decide_true.
Defined.

Example search_path_get_witness : (search_path ex_source (load_tree ex_root) ex_key []).1 = Ok (Some ex_val).
Proof.
  pose proof (search_path_get ex_source ex_source_faithful ex_source_no_panic _ _ ex_key [] ex_stands_for) as Hg.
  assert (Hok : exists v, (search_path ex_source (load_tree ex_root) ex_key []).1 = Ok v) by (vm_compute; by eexists).
  destruct Hok as [v Hv]. rewrite Hv in *. rewrite Hg. vm_compute. reflexivity.
Defined.
