(* ===== verification/MstPieces.v ===== *)
(** The pieces of a map that its Merkle search tree has nodes for, and what
    the CIDs of the nodes tell about them. As long as no two blocks with one
    hash are known, a CID belongs to one piece and occurs at one place, so a
    tree of which some blocks are not loaded shares none of them with the
    nodes in memory.

    Trees of which a part is in memory: the nodes that are not loaded stand
    for pieces of a map whose blocks are in storage. What is shown: those
    pieces are pieces of the map the tree stands for, too; none of their
    blocks is that of a node in memory; and once every node has its CID, the
    blocks of the map are those of the nodes and of those pieces. *)
From S2P Require Import Prelude StateError SyntaxError CborError Cid CborEncode CborDecode CborCodec MstHeight SortedMap MstNode MstTree MstShape.
From S2P Require Import MstMutate MstRemove MstFlush MstLoad MstLoadSpec MstLoaded MstDetached MstDetachedSpec MstFlushed.

(** ** Pieces *)

Section Parts.
Context `{Sha2Laws}.

(** The pieces as a list. *)
Fixpoint pieces_at (levels : nat) (h : Z) (l : kvs) : list (Z * kvs) :=
  match l, levels with
  | [], _ | _, O => []
  | _, S levels => (h, l) :: concat (map (pieces_at levels (h - 1)) (cuts h l))
  end.

Definition map_pieces (l : kvs) : list (Z * kvs) :=
  match l with [] => [(0, [])] | _ => pieces_at (S (Z.to_nat (tree_height l))) (tree_height l) l end.

Definition low (h : Z) (l : kvs) : Prop := Forall (fun e => height_for_key e.1 <= h) l.

Lemma cuts_low h l s : low h l -> s ∈ cuts h l -> low (h - 1) s.
Proof.
  intros Hl. unfold cuts. revert s. induction Hl as [|e l He Hl IH]; intros s; cbn [cut_levels].
  { cbn. intros ->%list_elem_of_singleton. constructor. }
  destruct (cut_levels h l) as [pre segs]. cbn [fst snd] in IH. destruct (Z.eqb_spec (height_for_key e.1) h); cbn [fst snd].
  - cbn [fmap list_fmap snd]. rewrite !elem_of_cons. intros [->|[->|Hs]]; [constructor|apply IH; by left|apply IH; by right].
  - rewrite elem_of_cons. intros [->|Hs]; [|apply IH; by right]. constructor; [lia|]. apply IH. by left.
Qed.

Lemma cuts_incl h l s x : s ∈ cuts h l -> x ∈ s -> x ∈ l.
Proof.
  unfold cuts. revert s. induction l as [|e l IH]; intros s; cbn [cut_levels].
  { cbn. by intros ->%list_elem_of_singleton. }
  destruct (cut_levels h l) as [pre segs]. cbn [fst snd] in IH. destruct (height_for_key e.1 =? h); cbn [fst snd fmap list_fmap].
  - rewrite !elem_of_cons. intros [->|[->|Hs]] Hx; [by apply elem_of_nil in Hx|right; apply (IH pre); [by left|done]|right; apply (IH s); [by right|done]].
  - rewrite !elem_of_cons. intros [->|Hs] Hx.
    + apply elem_of_cons in Hx as [->|Hx]; [by left|right]. apply (IH pre); [by left|done].
    + right. apply (IH s); [by right|done].
Qed.

Lemma low_nonneg h l : low h l -> l <> [] -> 0 <= h.
Proof. destruct 1 as [|e l He _]; [done|]. intros _. cbn beta in He. pose proof (height_for_key_range e.1). lia. Qed.

Lemma part_low h l h' s : part h l h' s -> low h l -> low h' s /\ h' <= h.
Proof.
  induction 1 as [h l|h l s h' s' Hs Hne _ IH]; intros Hl; [by split; [|lia]|].
  destruct (IH (cuts_low _ _ _ Hl Hs)). split; [done|lia].
Qed.

Lemma part_nonempty h l h' s : part h l h' s -> l <> [] -> s <> [].
Proof. induction 1; auto. Qed.

Lemma part_incl h l h' s x : part h l h' s -> x ∈ s -> x ∈ l.
Proof. induction 1 as [|h l s h' s' Hs _ _ IH]; [done|]. intros Hx. by eapply cuts_incl, IH. Qed.

Lemma part_trans h1 l1 h2 l2 h3 l3 : part h1 l1 h2 l2 -> part h2 l2 h3 l3 -> part h1 l1 h3 l3.
Proof. induction 1 as [|h l s h' s' Hs Hne _ IH]; [done|]. intros H3. by eapply part_below, IH. Qed.

(** A part that is not the whole is lower. *)
Definition below_part (h : Z) (l : kvs) (h' : Z) (s' : kvs) : Prop := exists s, s ∈ cuts h l /\ s <> [] /\ part (h - 1) s h' s'.

Lemma below_is_part h l h' s : below_part h l h' s -> part h l h' s.
Proof. intros (s0 & Hs & Hne & Hp). by eapply part_below. Qed.

Lemma below_lower h l h' s : below_part h l h' s -> low h l -> h' < h.
Proof. intros (s0 & Hs & Hne & Hp) Hl. apply part_low in Hp as [_ ?]; [lia|]. by eapply cuts_low. Qed.

Lemma pieces_at_part levels h l h' s : low h l -> (Z.to_nat h < levels)%nat -> (h', s) ∈ pieces_at levels h l <-> l <> [] /\ part h l h' s.
Proof.
  revert h l. induction levels as [|levels IH]; intros h l Hl Hlev; [lia|].
  destruct l as [|e l']; [cbn; by split; [intros ?%elem_of_nil|intros []]|]. set (l := e :: l') in *.
  change (pieces_at (S levels) h l) with ((h, l) :: concat (map (pieces_at levels (h - 1)) (cuts h l))).
  assert (Hh : 0 <= h) by (by apply (low_nonneg h l)).
  rewrite elem_of_cons, list_elem_of_In, in_concat. split.
  - intros [[= -> ->]|(ps & Hps & Hin)]; [split; [done|constructor]|]. split; [done|].
    apply in_map_iff in Hps as (s0 & <- & Hs0%list_elem_of_In). apply list_elem_of_In in Hin.
    destruct (decide (s0 = [])) as [->|Hne]; [by destruct levels; apply elem_of_nil in Hin|].
    apply IH in Hin as [_ Hp]; [by eapply part_below|by eapply cuts_low|].
    pose proof (low_nonneg (h - 1) s0 (cuts_low _ _ _ Hl Hs0) Hne). lia.
  - intros [_ Hp]. inversion Hp as [|s0 h1 s1 Hs0 Hne Hp']; subst; [by left|right].
    exists (pieces_at levels (h - 1) s0). split; [by apply in_map, list_elem_of_In|]. apply list_elem_of_In, IH; [by eapply cuts_low| |done].
    pose proof (low_nonneg (h - 1) s0 (cuts_low _ _ _ Hl Hs0) Hne). lia.
Qed.

Lemma tree_height_low l : low (tree_height l) l.
Proof.
  unfold low, tree_height. induction l as [|e l IH]; [constructor|]. cbn. constructor; [lia|].
  eapply Forall_impl; [exact IH|]. cbn. lia.
Qed.

(** The pieces of a whole map. *)
Lemma map_pieces_part l h s : (h, s) ∈ map_pieces l <-> map_part l h s.
Proof.
  destruct l as [|e l]; cbn -[tree_height pieces_at].
  - rewrite list_elem_of_singleton. unfold map_part. naive_solver.
  - rewrite pieces_at_part; [|apply tree_height_low|lia]. unfold map_part. naive_solver.
Qed.

Lemma map_part_low l h s : map_part l h s -> low h s.
Proof. intros [(-> & -> & ->)|[_ Hp]]; [constructor|]. eapply part_low; [done|apply tree_height_low]. Qed.

Lemma map_part_cut l h s s' : map_part l h s -> s' ∈ cuts h s -> s' <> [] -> map_part l (h - 1) s'.
Proof.
  intros [(-> & -> & ->)|[Hl Hp]] Hin Hne; [by cbn in Hin; apply list_elem_of_singleton in Hin|]. right. split; [done|].
  eapply part_trans; [done|]. by eapply part_below; [..|constructor].
Qed.

Lemma map_part_part l h s h' s' : map_part l h s -> part h s h' s' -> map_part l h' s'.
Proof.
  intros Hm Hp. revert Hm. induction Hp as [|h s s1 h' s' Hs Hne _ IH]; [done|]. intros Hm. apply IH. by eapply map_part_cut.
Qed.

(** ** The block of a piece *)

Definition node_block (nd : NodeData) : bytes := match encode_node_data nd with Ok data => data | _ => [] end.
Definition cid_of (h : Z) (s : kvs) : Cid := compute Drisl (node_block (list_node h s)).

Lemma encode_node_block nd : encode_node_data nd = Ok (node_block nd).
Proof. unfold node_block. assert (exists data, encode_node_data nd = Ok data) as [data ->] by (by eexists). done. Qed.

Lemma block_cid_eq nd : block_cid nd = Some (compute Drisl (node_block nd)).
Proof. unfold block_cid. by rewrite encode_node_block. Qed.

Lemma tree_cid_eq h s : s <> [] -> tree_cid h s = Some (cid_of h s).
Proof.
  destruct s as [|e s]; [done|]. intros _. unfold cid_of. rewrite <- block_cid_eq. unfold tree_cid, list_node. cbn -[cut_levels block_cid].
  by destruct (cut_levels h (e :: s)).
Qed.

Lemma tree_cid_Some h s c : tree_cid h s = Some c -> s <> [] /\ c = cid_of h s.
Proof. destruct s as [|e s]; [done|]. rewrite tree_cid_eq by done. by intros [= <-]. Qed.

Lemma map_root_part l c : map_root l = Some c -> exists h, map_part l h l /\ cid_of h l = c /\ (l <> [] -> h = tree_height l).
Proof.
  destruct l as [|e l]; cbn [map_root].
  - intros Hc. exists 0. split; [by left|]. split; [|done]. rewrite block_cid_eq in Hc. by injection Hc as <-.
  - intros [_ ->]%tree_cid_Some. eexists. split; [right; split; [done|constructor]|done].
Qed.

Lemma map_root_eq l : exists c, map_root l = Some c.
Proof. destruct l as [|e l]; cbn [map_root]; [rewrite block_cid_eq|rewrite tree_cid_eq by done]; by eexists. Qed.

(** The node's links and entries. *)
Definition link (h : Z) (s : kvs) : option Cid := tree_cid_at (Z.to_nat h) (h - 1) s.

Lemma link_eq h s : 0 <= h -> low (h - 1) s -> link h s = if decide (s = []) then None else Some (cid_of (h - 1) s).
Proof.
  intros Hh Hs. unfold link. case_decide as Hne; [subst; by destruct (Z.to_nat h)|].
  pose proof (low_nonneg _ _ Hs Hne). replace (Z.to_nat h) with (S (Z.to_nat (h - 1))) by lia. by apply tree_cid_eq.
Qed.

Lemma compress_inj prev es es' : compress prev es = compress prev es' -> es = es'.
Proof.
  revert prev es'. induction es as [|[[k v] r] es IH]; intros prev [|[[k' v'] r'] es']; try done. cbn [compress].
  intros [= Hp Hk -> -> Hes]. assert (k = k') as <-.
  { rewrite <- (take_drop (common_prefix_len prev k) k), <- (take_drop (common_prefix_len prev k') k'), Hk.
    rewrite <- !common_prefix_len_take. by rewrite Hp. }
  f_equal. by eapply IH.
Qed.

Lemma list_node_inj h h' a b : list_node h a = list_node h' b ->
  link h (cut_levels h a).1 = link h' (cut_levels h' b).1 /\
  map (fun s => (s.1, link h s.2)) (cut_levels h a).2 = map (fun s => (s.1, link h' s.2)) (cut_levels h' b).2.
Proof.
  unfold list_node. destruct (cut_levels h a) as [pre segs], (cut_levels h' b) as [pre' segs']. intros [= Hl Hes%compress_inj]. done.
Qed.
End Parts.

(** ** A CID belongs to one piece *)

Section Known.
Context `{Simdutf8Laws} `{Sha2Laws} (known : bytes -> Prop).

(** No two blocks that are known have one hash. *)
Definition collision_free : Prop := forall a b, known a -> known b -> compute Drisl a = compute Drisl b -> a = b.

(** The block is one that is known, within the limits of the decoder. *)
Definition readable (nd : NodeData) : Prop :=
  node_ok nd /\ Z.of_nat (length (node_block nd)) <= i64_max /\ known (node_block nd).

Definition tree_ok (h : Z) (l : kvs) : Prop := forall h' s, part h l h' s -> readable (list_node h' s).
Definition map_ok (l : kvs) : Prop := forall h s, map_part l h s -> readable (list_node h s).

Lemma tree_ok_cut h l s : tree_ok h l -> s ∈ cuts h l -> s <> [] -> tree_ok (h - 1) s.
Proof. intros Hl Hs Hne h' s' Hp. apply Hl. by eapply part_below. Qed.

Lemma map_part_ok l h s : map_ok l -> map_part l h s -> tree_ok h s.
Proof. intros Hl Hm h' s' Hp. apply Hl. by eapply map_part_part. Qed.

Lemma readable_decode nd : readable nd -> decode_node_data (node_block nd) = Ok nd.
Proof.
  intros (Hok & Hlen & _). assert (Hb : node_block nd = enc (node_value nd)) by (unfold node_block; by rewrite encode_node_data_eq).
  rewrite Hb in *. by apply decode_node_value.
Qed.

Hypothesis known_inj : collision_free.

Lemma readable_inj a b : readable a -> readable b -> compute Drisl (node_block a) = compute Drisl (node_block b) -> a = b.
Proof.
  intros Ha Hb Hc. apply known_inj in Hc; [|apply Ha|apply Hb]. pose proof (readable_decode a Ha) as Hda.
  rewrite Hc, (readable_decode b Hb) in Hda. by injection Hda as ->.
Qed.

Lemma link_inj h s t : 0 <= h -> low (h - 1) s -> low (h - 1) t -> link h s = link h t ->
  (s <> [] -> t <> [] -> cid_of (h - 1) s = cid_of (h - 1) t -> s = t) -> s = t.
Proof. intros Hh Hs Ht. rewrite !link_eq by done. do 2 case_decide; intros He Hi; [congruence..|]. apply Hi; congruence. Qed.

(** Nodes of one height. *)
Lemma node_inj_same h a b : 0 <= h -> low h a -> low h b ->
  (forall s t, s ∈ cuts h a -> t ∈ cuts h b -> s <> [] -> t <> [] -> cid_of (h - 1) s = cid_of (h - 1) t -> s = t) ->
  list_node h a = list_node h b -> a = b.
Proof.
  intros Hh Ha Hb Hrec [Hl Hs]%list_node_inj. pose proof (cut_levels_join h a) as Hja. pose proof (cut_levels_join h b) as Hjb.
  assert (Hla : forall s, s ∈ cuts h a -> low (h - 1) s) by (intros s Hs'; exact (cuts_low h a s Ha Hs')).
  assert (Hlb : forall s, s ∈ cuts h b -> low (h - 1) s) by (intros s Hs'; exact (cuts_low h b s Hb Hs')).
  unfold cuts in *. destruct (cut_levels h a) as [pre segs], (cut_levels h b) as [pre' segs']. cbn [fst snd] in *. rewrite Hja, Hjb. clear Hja Hjb Ha Hb. f_equal.
  - eapply (link_inj h); [done|apply Hla; by left|apply Hlb; by left|done|]. apply Hrec; by left.
  - do 2 f_equal. clear Hl. assert (Hrec' : forall s t, s ∈ segs -> t ∈ segs' -> s.2 <> [] -> t.2 <> [] -> cid_of (h - 1) s.2 = cid_of (h - 1) t.2 -> s.2 = t.2).
    { intros s t Hs' Ht'. apply Hrec; right; by apply list_elem_of_fmap_2. }
    assert (Hla' : forall s, s ∈ segs -> low (h - 1) s.2) by (intros s Hs'; apply Hla; right; by apply list_elem_of_fmap_2).
    assert (Hlb' : forall s, s ∈ segs' -> low (h - 1) s.2) by (intros s Hs'; apply Hlb; right; by apply list_elem_of_fmap_2).
    clear Hrec Hla Hlb. revert segs' Hs Hrec' Hlb'. induction segs as [|[e s] segs IH]; intros [|[e' s'] segs'] Hs Hrec Hlb; try done.
    cbn [map fst snd] in Hs. injection Hs as <- Hl Hs. f_equal.
    + f_equal. eapply (link_inj h); [done|apply (Hla' (e, s)); by left|apply (Hlb (e, s')); by left|done|].
      apply (Hrec (e, s) (e, s')); by left.
    + apply IH; [|done|intros x y Hx Hy; apply Hrec; by right|intros x Hx; apply Hlb; by right]. intros x Hx. apply Hla'. by right.
Qed.

(** Nodes of different heights: both have one link and no entry. *)
Lemma node_inj_diff h h' a b : h <> h' -> list_node h a = list_node h' b -> cuts h a = [a] /\ cuts h' b = [b] /\ link h a = link h' b.
Proof.
  intros Hne [Hl Hs]%list_node_inj. pose proof (cut_levels_join h a) as Hja. pose proof (cut_levels_join h' b) as Hjb.
  pose proof (cut_levels_heights h a) as Hga. pose proof (cut_levels_heights h' b) as Hgb. unfold cuts.
  destruct (cut_levels h a) as [pre segs], (cut_levels h' b) as [pre' segs']. cbn [fst snd] in *.
  destruct segs as [|[e s] segs], segs' as [|[e' s'] segs']; try done.
  - rewrite app_nil_r in *. by subst.
  - cbn in Hs. injection Hs as -> _ _. inversion_clear Hga. inversion_clear Hgb. cbn in *. congruence.
Qed.

Lemma tree_inj_at n h h' a b : (Z.to_nat h < n)%nat -> low h a -> low h' b -> a <> [] -> b <> [] ->
  tree_ok h a -> tree_ok h' b -> cid_of h a = cid_of h' b -> a = b /\ h = h'.
Proof.
  revert h h' a b. induction n as [|n IH]; intros h h' a b Hn Ha Hb Hna Hnb Hta Htb Hc; [lia|].
  pose proof (low_nonneg _ _ Ha Hna) as Hh. pose proof (low_nonneg _ _ Hb Hnb) as Hh'.
  assert (He : list_node h a = list_node h' b) by (apply readable_inj; [apply Hta; constructor|apply Htb; constructor|done]).
  destruct (decide (h = h')) as [<-|Hne].
  - split; [|done]. apply (node_inj_same h); [done..| |done]. intros s t Hs Ht Hs0 Ht0 Hst.
    pose proof (cuts_low _ _ _ Ha Hs) as Hls. pose proof (low_nonneg _ _ Hls Hs0).
    apply (IH (h - 1) (h - 1) s t); [lia|done|exact (cuts_low _ _ _ Hb Ht)|done|done|exact (tree_ok_cut _ _ _ Hta Hs Hs0)|exact (tree_ok_cut _ _ _ Htb Ht Ht0)|done].
  - destruct (node_inj_diff h h' a b Hne He) as (Hca & Hcb & Hl).
    assert (Hia : a ∈ cuts h a) by (rewrite Hca; by left). assert (Hib : b ∈ cuts h' b) by (rewrite Hcb; by left).
    pose proof (cuts_low _ _ _ Ha Hia) as Hla. pose proof (cuts_low _ _ _ Hb Hib) as Hlb. pose proof (low_nonneg _ _ Hla Hna).
    rewrite !link_eq, !decide_False in Hl by done. assert (cid_of (h - 1) a = cid_of (h' - 1) b) as Hl' by congruence. clear Hl.
    destruct (IH (h - 1) (h' - 1) a b) as [-> ?]; [lia|done..|exact (tree_ok_cut _ _ _ Hta Hia Hna)|exact (tree_ok_cut _ _ _ Htb Hib Hnb)|done|]. split; [done|lia].
Qed.

Lemma tree_inj h h' a b : low h a -> low h' b -> a <> [] -> b <> [] ->
  tree_ok h a -> tree_ok h' b -> cid_of h a = cid_of h' b -> a = b /\ h = h'.
Proof. apply (tree_inj_at (S (Z.to_nat h))). lia. Qed.

(** The node of an empty map is that of no other piece. *)
Lemma empty_inj h b : readable (list_node 0 []) -> low h b -> tree_ok h b -> cid_of 0 [] = cid_of h b -> b = [].
Proof.
  intros Hr Hb Ht Hc. destruct (decide (b = [])) as [|Hne]; [done|]. exfalso.
  assert (He : list_node 0 [] = list_node h b) by (apply readable_inj; [done|apply Ht; constructor|done]).
  apply list_node_inj in He as [Hl Hs]. pose proof (cut_levels_join h b) as Hj. pose proof (low_nonneg _ _ Hb Hne) as Hh.
  assert (Hlp : low (h - 1) (cut_levels h b).1) by (eapply cuts_low; [exact Hb|by left]).
  rewrite (link_eq h) in Hl by done. destruct (cut_levels h b) as [pre [|]]; [|done]. cbn [fst snd concat map] in *.
  rewrite app_nil_r in Hj. subst pre. rewrite decide_False in Hl by done. done.
Qed.

(** Two pieces of maps with one CID are the same piece. *)
Lemma map_part_inj l l' h h' s s' : map_ok l -> map_ok l' -> map_part l h s -> map_part l' h' s' ->
  cid_of h s = cid_of h' s' -> s = s' /\ h = h'.
Proof.
  intros Hl Hl' Hm Hm' Hc. pose proof (map_part_ok _ _ _ Hl Hm) as Ht. pose proof (map_part_ok _ _ _ Hl' Hm') as Ht'.
  assert (Hnil : forall l h, map_part l h [] -> h = 0).
  { intros l1 h1 [(-> & -> & _)|[Hn Hp]]; [done|]. by apply part_nonempty in Hp. }
  destruct (decide (s = [])) as [->|Hs], (decide (s' = [])) as [->|Hs'].
  - apply Hnil in Hm as ->, Hm' as ->. done.
  - rewrite (Hnil _ _ Hm) in *. exfalso. apply Hs'. eapply empty_inj; [apply Ht; constructor|by eapply map_part_low|done|done].
  - rewrite (Hnil _ _ Hm') in *. exfalso. apply Hs. eapply empty_inj; [apply Ht'; constructor|by eapply map_part_low|done|done].
  - apply tree_inj; [by eapply map_part_low|by eapply map_part_low|done..].
Qed.
End Known.

(** ** Subtrees *)

Definition kids (n : Node) : list Node := option_list (n_left n) ++ omap e_right (n_entries n).

Lemma elem_of_kids n m : m ∈ kids n <-> n_left n = Some m \/ exists e, e ∈ n_entries n /\ e_right e = Some m.
Proof.
  unfold kids. rewrite elem_of_app, list_elem_of_omap. destruct (n_left n) as [k|]; cbn.
  - rewrite list_elem_of_singleton. naive_solver.
  - rewrite elem_of_nil. naive_solver.
Qed.

Lemma Node_kids_ind (P : Node -> Prop) : (forall n, (forall m, m ∈ kids n -> P m) -> P n) -> forall n, P n.
Proof.
  intros Hs n. induction n as [l es c h ld IHl IHes] using Node_ind'. apply Hs. intros m [Hm|(e & He & Hm)]%elem_of_kids; cbn in *.
  - by rewrite Hm in IHl.
  - apply (proj1 (Forall_forall _ _) IHes) in He. by rewrite Hm in He.
Qed.

(** The CIDs of the nodes that are not loaded. *)
Fixpoint stub_cids (n : Node) : list Cid :=
  let '(MkNode l es c _ loaded) := n in
  if loaded then
    match l with Some c => stub_cids c | None => [] end ++
    concat (map (fun e : Entry => match e_right e with Some c => stub_cids c | None => [] end) es)
  else option_list c.

Lemma concat_omap {A B C} (f : A -> option B) (g : B -> list C) (l : list A) :
  concat (map (fun a => match f a with Some b => g b | None => [] end) l) = concat (map g (omap f l)).
Proof. induction l as [|a l IH]; [done|]. cbn. destruct (f a); cbn; by rewrite IH. Qed.

Lemma stub_cids_kids n : n_loaded n = true -> stub_cids n = concat (map stub_cids (kids n)).
Proof.
  destruct n as [l es c h []]; [|done]. intros _. unfold kids. cbn [stub_cids n_left n_entries]. rewrite map_app, concat_app, concat_omap.
  by destruct l; cbn; rewrite ?app_nil_r.
Qed.

Section Kids.
Context `{Simdutf8Laws} `{Sha2Laws} `{!Stubs} `{!StubsLaws}.

Lemma cids_kids n : n_loaded n = true -> cids n = option_list (n_cid n) ++ concat (map cids (kids n)).
Proof.
  destruct n as [l es c h []]; [|done]. intros _. unfold kids. cbn [cids n_left n_entries n_cid]. rewrite map_app, concat_app, concat_omap.
  by destruct l; cbn; rewrite ?app_nil_r.
Qed.

Lemma shape_kids h n : n_loaded n = true -> shape h n <-> n_height n = h /\ 0 <= h /\ cid_ok h n /\
  Forall (fun e => height_for_key (e_key e) = h) (n_entries n) /\ Forall (fun m => shape (h - 1) m /\ is_empty_node m = false) (kids n).
Proof.
  intros Hl. rewrite shape_bare, bare_loaded by done. unfold kids. rewrite Forall_app.
  assert (Hes : Forall (entry_shape h) (n_entries n) <-> Forall (fun e => height_for_key (e_key e) = h) (n_entries n) /\
    Forall (fun m => shape (h - 1) m /\ is_empty_node m = false) (omap e_right (n_entries n))).
  { induction (n_entries n) as [|e es IH]; [cbn; by rewrite !Forall_nil|]. cbn [omap list_omap]. rewrite !Forall_cons, IH. unfold entry_shape.
    destruct (e_right e); cbn [shape_of]; rewrite ?Forall_cons; tauto. }
  rewrite Hes. unfold option_list. destruct (n_left n); cbn [option_rect shape_of]; rewrite ?Forall_cons, ?Forall_nil; tauto.
Qed.

Lemma kids_shape h n m : n_loaded n = true -> shape h n -> m ∈ kids n -> shape (h - 1) m /\ is_empty_node m = false.
Proof. intros Hl (_ & _ & _ & _ & Hk)%shape_kids Hm; [|done]. exact (proj1 (Forall_forall _ _) Hk m Hm). Qed.

Lemma kids_cut h n s : n_loaded n = true -> shape h n -> s ∈ cuts h (contents n) -> s <> [] -> exists m, m ∈ kids n /\ contents m = s.
Proof.
  intros Hl Hs Hin Hne. apply shape_to_bare in Hs; [|done]. unfold cuts in Hin. rewrite cut_levels_node in Hin by done. cbn [fst snd] in Hin.
  apply elem_of_cons in Hin as [->|Hin].
  - destruct (n_left n) as [m|] eqn:Hm; [|done]. exists m. split; [apply elem_of_kids; by left|done].
  - apply list_elem_of_fmap in Hin as ([x s'] & -> & Hin). apply list_elem_of_In, in_map_iff in Hin as (e & [= _ <-] & He%list_elem_of_In).
    cbn in *. destruct (e_right e) as [m|] eqn:Hm; [|done]. exists m. split; [apply elem_of_kids; right; by exists e|done].
Qed.

Lemma kids_in_cuts h n m : n_loaded n = true -> shape h n -> m ∈ kids n -> contents m ∈ cuts h (contents n) /\ contents m <> [].
Proof.
  intros Hl Hs Hm. destruct (kids_shape h n m Hl Hs Hm) as [Hsm Hem]. split; [|by eapply shape_nonempty].
  apply shape_to_bare in Hs; [|done]. unfold cuts. rewrite cut_levels_node by done. cbn [fst snd].
  apply elem_of_kids in Hm as [Hm|(e & He & Hm)]; [rewrite Hm; by left|]. right. apply list_elem_of_fmap.
  exists (kv e, contents_of (e_right e)). rewrite Hm. split; [done|]. rewrite list_elem_of_In. apply in_map_iff.
  exists e. rewrite Hm. split; [done|by apply list_elem_of_In].
Qed.

Lemma contents_kids n : n_loaded n = true -> contents n ≡ₚ map kv (n_entries n) ++ concat (map contents (kids n)).
Proof.
  intros Hl. rewrite contents_loaded by done. unfold kids. rewrite map_app, concat_app.
  assert (He : entries_contents (n_entries n) ≡ₚ map kv (n_entries n) ++ concat (map contents (omap e_right (n_entries n)))).
  { induction (n_entries n) as [|e es IH]; [done|]. rewrite entries_contents_cons, IH. cbn [map omap list_omap app].
    destruct (e_right e); cbn [contents_of opt_map map concat]; [solve_Permutation|done]. }
  rewrite He. unfold option_list. destruct (n_left n); cbn [contents_of opt_map option_rect map concat app]; [|done]. rewrite app_nil_r. solve_Permutation.
Qed.

Lemma ordered_nodup (l : kvs) : ordered l -> NoDup l.
Proof.
  unfold ordered. induction l as [|e l IH]; [constructor|]. cbn [fmap list_fmap]. intros Ho. inversion_clear Ho as [|? ? Ho' Hall].
  constructor; [|auto]. intros Hin. apply (bytes_lt_irrefl e.1). apply (proj1 (Forall_forall _ _) Hall). by apply list_elem_of_fmap_2.
Qed.

Lemma nodup_concat {A B} (f : A -> list B) (l : list A) a b x : NoDup (concat (map f l)) -> a ∈ l -> b ∈ l -> x ∈ f a -> x ∈ f b -> a = b.
Proof.
  induction l as [|c l IH]; [by intros _ ?%elem_of_nil|]. cbn [map concat]. intros (Hc & Hd & Hl)%NoDup_app.
  assert (Hout : forall d, d ∈ l -> x ∈ f d -> x ∈ concat (map f l)).
  { intros d Hin Hx. apply list_elem_of_In, in_concat. exists (f d). split; [by apply in_map, list_elem_of_In|by apply list_elem_of_In]. }
  intros [->|Ha]%elem_of_cons [->|Hb]%elem_of_cons Hxa Hxb; [done| | |by apply IH].
  - destruct (Hd x Hxa). by apply (Hout b).
  - destruct (Hd x Hxb). by apply (Hout a).
Qed.

(** The contents of the subtrees are apart. *)
Lemma kids_apart n m1 m2 x : n_loaded n = true -> ordered (contents n) -> m1 ∈ kids n -> m2 ∈ kids n ->
  x ∈ contents m1 -> x ∈ contents m2 -> m1 = m2.
Proof.
  intros Hl Ho%ordered_nodup. rewrite contents_kids in Ho by done. apply NoDup_app in Ho as (_ & _ & Ho). by eapply nodup_concat.
Qed.

Lemma kids_ordered h n m : n_loaded n = true -> shape h n -> ordered (contents n) -> m ∈ kids n -> ordered (contents m).
Proof.
  intros Hl Hs Ho Hm. apply shape_to_bare in Hs; [|done]. rewrite contents_loaded in Ho by done.
  apply elem_of_kids in Hm as [Hm|(e & He & Hm)]; [rewrite Hm in Ho; by eapply ordered_app_l|].
  apply ordered_app_r in Ho. apply list_elem_of_split in He as (a & b & Hab). rewrite Hab, entries_contents_app, entries_contents_cons, Hm in Ho.
  apply ordered_app_r in Ho. destruct (kv e) as [k v]. apply ordered_cons in Ho as [_ Ho]. by eapply ordered_app_l.
Qed.

Lemma elem_of_concat_map {A B} (f : A -> list B) (l : list A) x : x ∈ concat (map f l) <-> exists a, a ∈ l /\ x ∈ f a.
Proof.
  rewrite list_elem_of_In, in_concat. setoid_rewrite in_map_iff. setoid_rewrite list_elem_of_In. naive_solver.
Qed.
End Kids.

(** ** The pieces of a map as what stubs stand for *)

Section StubsOf.
Context `{Simdutf8Laws} `{Sha2Laws} (known : bytes -> Prop).
Hypothesis known_inj : collision_free known.

Definition piece_of (l0 : kvs) (c : Cid) : kvs :=
  default [] (snd <$> find (fun p => bool_decide (cid_of p.1 p.2 = c)) (map_pieces l0)).

(** [c] is the CID of a piece of the map of height [h]. *)
Definition piece_at (l0 : kvs) (h : Z) (c : Cid) : Prop := map_part l0 h (piece_of l0 c) /\ cid_of h (piece_of l0 c) = c.

(** Stubs are pieces of [l0] that satisfy [P]. *)
Definition stubs_of (l0 : kvs) (P : Z -> kvs -> Prop) : Stubs := {|
  stub_contents := piece_of l0;
  stub_shape h c := piece_at l0 h c /\ P h (piece_of l0 c)
|}.

Definition closed (P : Z -> kvs -> Prop) : Prop := forall h s s', P h s -> s' ∈ cuts h s -> s' <> [] -> P (h - 1) s'.

Lemma piece_of_cid l0 h s : map_ok known l0 -> map_part l0 h s -> piece_of l0 (cid_of h s) = s.
Proof.
  intros Hok Hm. unfold piece_of. destruct (find _ (map_pieces l0)) as [[h' s']|] eqn:Hf; cbn.
  - apply find_some in Hf as [Hin%list_elem_of_In Hc]. cbn [fst snd] in Hc. apply bool_decide_eq_true in Hc. apply map_pieces_part in Hin.
    by destruct (map_part_inj known known_inj l0 l0 h' h s' s).
  - exfalso. apply map_pieces_part, list_elem_of_In in Hm. apply (find_none _ _ Hf) in Hm. cbn in Hm. by apply bool_decide_eq_false in Hm.
Qed.

Lemma piece_at_cid l0 h s : map_ok known l0 -> map_part l0 h s -> piece_at l0 h (cid_of h s).
Proof. intros Hok Hm. unfold piece_at. by rewrite piece_of_cid. Qed.

Lemma stubs_of_laws l0 P : map_ok known l0 -> closed P -> @StubsLaws _ (stubs_of l0 P).
Proof.
  intros Hok HP. split; cbn.
  - intros h c [[Hm _] _]. by eapply map_part_low.
  - intros h c s [[Hm Hc] Hp] Hs Hne. assert (Hin : s ∈ cuts h (piece_of l0 c)) by (unfold cuts; rewrite elem_of_cons; naive_solver).
    pose proof (map_part_cut _ _ _ _ Hm Hin Hne) as Hm'. exists (cid_of (h - 1) s). rewrite piece_of_cid by done.
    pose proof (low_nonneg _ _ (map_part_low _ _ _ Hm') Hne). split; [lia|]. split; [by apply tree_cid_eq|].
    split; [done|]. split; [by apply piece_at_cid|by eapply HP].
Qed.

(** A source that has, for the pieces, nothing but their blocks. *)
Definition serves (src : Source) (l0 : kvs) : Prop :=
  forall h s data, map_part l0 h s -> src (cid_of h s) = Ok (Some data) -> data = node_block (list_node h s).

Lemma serves_faithful src l0 P : map_ok known l0 -> serves src l0 -> @faithful _ (stubs_of l0 P) src.
Proof.
  intros Hok Hs h c data [[Hm Hc] _] Hd. cbn in *. rewrite <- Hc in Hd. rewrite (Hs _ _ _ Hm Hd).
  destruct (Hok _ _ Hm) as (Hn & Hlen & _). split; [apply encode_node_block|done].
Qed.

(** A source whose blocks are known and hash to their CIDs is such a one. *)
Definition honest (src : Source) : Prop :=
  forall c data, src c = Ok (Some data) -> codec c = Drisl -> known data /\ compute Drisl data = c.

Lemma honest_serves src l0 : map_ok known l0 -> honest src -> serves src l0.
Proof.
  intros Hok Hs h s data Hm Hd. destruct (Hs _ _ Hd eq_refl) as [Hk Hc]. apply known_inj; [done|apply (Hok h s Hm)|done].
Qed.

(** *** What stubs there are *)

Section Nodes.
Context (l0 : kvs) (Hl0 : map_ok known l0).
Implicit Types P Q : Z -> kvs -> Prop.

Abbreviation shape_with P := (@shape _ (stubs_of l0 P)).
Abbreviation contents_with P := (@contents (stubs_of l0 P)).

(** The same tree, its stubs taken for pieces of another map, with another
    condition on them. *)
Lemma shape_rebase l1 P Q n h : (forall c h', c ∈ stub_cids n -> piece_at l0 h' c -> P h' (piece_of l0 c) ->
    piece_of l1 c = piece_of l0 c /\ piece_at l1 h' c /\ Q h' (piece_of l0 c)) -> shape_with P h n ->
  @contents (stubs_of l1 Q) n = contents_with P n /\ @shape _ (stubs_of l1 Q) h n.
Proof.
  revert h. induction n as [n IH] using Node_kids_ind. intros h Hq Hs. destruct (n_loaded n) eqn:Hl.
  - assert (Hk : forall m, m ∈ kids n -> @contents (stubs_of l1 Q) m = contents_with P m /\ @shape _ (stubs_of l1 Q) (h - 1) m).
    { intros m Hm. apply (IH m Hm); [|by eapply kids_shape]. intros c h' Hin. apply Hq. rewrite stub_cids_kids by done.
      apply elem_of_concat_map. by exists m. }
    assert (Hc : @contents (stubs_of l1 Q) n = contents_with P n).
    { rewrite !contents_loaded by done. f_equal.
      - destruct (n_left n) as [m|] eqn:Hm; [|done]. apply Hk, elem_of_kids. by left.
      - unfold entries_contents. f_equal. apply map_ext_in. intros e He%list_elem_of_In. f_equal.
        destruct (e_right e) as [m|] eqn:Hm; [|done]. apply Hk, elem_of_kids. right. by exists e. }
    split; [done|]. rewrite (@shape_kids _ (stubs_of l0 P)) in Hs by done. rewrite (@shape_kids _ (stubs_of l1 Q)) by done.
    destruct Hs as (Hh & Hnn & Hcid & Hes & Hf). split_and!; [done|done| |done|].
    + intros c Hc'. rewrite Hc. by apply Hcid.
    + apply Forall_forall. intros m Hm. apply (proj1 (Forall_forall _ _) Hf) in Hm as Hkm. split; [by apply Hk|apply Hkm].
  - destruct n as [lf es c ht ld]. cbn in Hl. subst ld. cbn [shape stub_cids contents] in *. destruct Hs as (? & ? & Hc & Hst).
    destruct c as [c|]; [|done]. destruct Hst as [Ha Hp]. destruct (Hq c h) as (He & Ha' & HQ); [by left|done..|]. cbn [stub_contents stubs_of] in *.
    rewrite He. split; [done|]. split_and!; [done..|]. cbn. by rewrite He.
Qed.

(** A stub is a piece of the node's contents. *)
Lemma stub_part P n h c : @StubsLaws _ (stubs_of l0 P) -> shape_with P h n -> c ∈ stub_cids n ->
  exists h', part h (contents_with P n) h' (piece_of l0 c) /\ piece_at l0 h' c /\ P h' (piece_of l0 c) /\ piece_of l0 c <> [].
Proof.
  intros HL. revert h. induction n as [n IH] using Node_kids_ind. intros h Hs Hc. destruct (n_loaded n) eqn:Hl.
  - rewrite stub_cids_kids in Hc by done. apply elem_of_concat_map in Hc as (m & Hm & Hc).
    destruct (kids_shape h n m Hl Hs Hm) as [Hsm _]. destruct (IH m Hm _ Hsm Hc) as (h' & Hp & Hat & HP & Hne).
    exists h'. split; [|done]. destruct (kids_in_cuts h n m Hl Hs Hm). by eapply part_below.
  - destruct n as [lf es cd ht ld]. cbn in Hl. subst ld. cbn [shape stub_cids contents] in *. destruct Hs as (? & ? & Hok & Hst).
    destruct cd as [cd|]; cbn in Hc; [|by apply elem_of_nil in Hc]. apply list_elem_of_singleton in Hc as ->.
    exists h. destruct Hst as [Hat HP]. specialize (Hok cd eq_refl). apply tree_cid_Some in Hok as [Hne _].
    split; [constructor|done].
Qed.

(** The CID of a node in memory is that of a piece of the contents. *)
Lemma held_part P n h c : @StubsLaws _ (stubs_of l0 P) -> shape_with P h n -> c ∈ cids n ->
  exists h' s, part h (contents_with P n) h' s /\ cid_of h' s = c /\ s <> [].
Proof.
  intros HL. revert h. induction n as [n IH] using Node_kids_ind. intros h Hs Hc.
  assert (Hself : forall c, n_cid n = Some c -> exists h' s, part h (contents_with P n) h' s /\ cid_of h' s = c /\ s <> []).
  { intros c' Hc'. assert (Ht : tree_cid h (contents_with P n) = Some c') by (destruct n; cbn in Hc' |- *; apply Hs; done).
    apply tree_cid_Some in Ht as [Hne ->]. exists h, (contents_with P n). split; [constructor|done]. }
  destruct (n_loaded n) eqn:Hl.
  - rewrite cids_kids in Hc by done. apply elem_of_app in Hc as [Hc|Hc].
    { destruct (n_cid n) as [c'|] eqn:Hcid; cbn in Hc; [|by apply elem_of_nil in Hc]. apply list_elem_of_singleton in Hc as ->. by apply Hself. }
    apply elem_of_concat_map in Hc as (m & Hm & Hc). destruct (kids_shape h n m Hl Hs Hm) as [Hsm _].
    destruct (IH m Hm _ Hsm Hc) as (h' & s & Hp & Hcs & Hne). exists h', s. split; [|done].
    destruct (kids_in_cuts h n m Hl Hs Hm). by eapply part_below.
  - apply Hself. destruct n as [lf es cd ht ld]. cbn in Hl. subst ld. cbn in Hc. rewrite app_nil_r in Hc.
    destruct cd; cbn in Hc; [|by apply elem_of_nil in Hc]. by apply list_elem_of_singleton in Hc as ->.
Qed.

(** No block under a stub is that of a node in memory. *)
Lemma stub_apart P n h c u h' : @StubsLaws _ (stubs_of l0 P) -> shape_with P h n -> tree_ok known h (contents_with P n) ->
  ordered (contents_with P n) -> c ∈ cids n -> u ∈ stub_cids n -> piece_at l0 h' u ->
  forall h2 s2, below_part h' (piece_of l0 u) h2 s2 -> cid_of h2 s2 <> c.
Proof.
  intros HL. revert h. induction n as [n IH] using Node_kids_ind. intros h Hs Hok Ho Hc Hu Hat h2 s2 Hb Heq.
  pose proof (shape_heights h n Hs) as Hlow.
  (* the piece under the stub is a part, below the top *)
  destruct (stub_part P n h u HL Hs Hu) as (h1 & Hp & Hat1 & _ & Hne1).
  assert (h1 = h') as ->.
  { destruct Hat as [Hm Hcu], Hat1 as [Hm1 Hcu1]. by destruct (map_part_inj known known_inj l0 l0 _ _ _ _ Hl0 Hl0 Hm Hm1 (eq_trans Hcu (eq_sym Hcu1))). }
  assert (Hlow1 : low h' (piece_of l0 u)) by exact (proj1 (part_low _ _ _ _ Hp Hlow)).
  assert (Hlt : h2 < h') by (by eapply below_lower). apply below_is_part in Hb as Hp2.
  assert (Hp02 : part h (contents_with P n) h2 s2) by (by eapply part_trans).
  assert (Hne2 : s2 <> []) by exact (part_nonempty _ _ _ _ Hp2 Hne1).
  assert (Hself : n_cid n = Some c -> False).
  { intros Hcid. assert (Ht : tree_cid h (contents_with P n) = Some c) by (destruct n; cbn in Hcid |- *; apply Hs; done).
    apply tree_cid_Some in Ht as [Hne Hcc]. rewrite Hcc in Heq.
    destruct (part_low _ _ _ _ Hp02 Hlow) as [Hlow2 _].
    destruct (tree_inj known known_inj h2 h s2 (contents_with P n)) as [_ Hh]; [done|done|done|done| |done|done|].
    - intros h3 s3 H3. apply Hok. by eapply part_trans.
    - pose proof (proj2 (part_low _ _ _ _ Hp Hlow)). lia. }
  destruct (n_loaded n) eqn:Hl.
  - rewrite cids_kids in Hc by done. apply elem_of_app in Hc as [Hc|Hc].
    { destruct (n_cid n); cbn in Hc; [|by apply elem_of_nil in Hc]. apply list_elem_of_singleton in Hc as ->. by apply Hself. }
    apply elem_of_concat_map in Hc as (m1 & Hm1 & Hc). rewrite stub_cids_kids in Hu by done. apply elem_of_concat_map in Hu as (m2 & Hm2 & Hu).
    destruct (kids_shape h n m1 Hl Hs Hm1) as [Hs1 _], (kids_shape h n m2 Hl Hs Hm2) as [Hs2 _].
    destruct (kids_in_cuts h n m1 Hl Hs Hm1) as [Hcut1 Hn1], (kids_in_cuts h n m2 Hl Hs Hm2) as [Hcut2 Hn2].
    destruct (held_part P m1 (h - 1) c HL Hs1 Hc) as (h3 & s3 & Hp3 & Hc3 & Hne3).
    destruct (stub_part P m2 (h - 1) u HL Hs2 Hu) as (h4 & Hp4 & Hat4 & _ & _).
    assert (h4 = h') as ->.
    { destruct Hat1 as [Hm Hcu], Hat4 as [Hm4 Hcu4]. by destruct (map_part_inj known known_inj l0 l0 _ _ _ _ Hl0 Hl0 Hm4 Hm (eq_trans Hcu4 (eq_sym Hcu))). }
    assert (Hp42 : part (h - 1) (contents_with P m2) h2 s2) by (by eapply part_trans).
    assert (Hok1 : tree_ok known (h - 1) (contents_with P m1)) by (by eapply tree_ok_cut).
    assert (Hok2 : tree_ok known (h - 1) (contents_with P m2)) by (by eapply tree_ok_cut).
    assert (Hsame : s3 = s2).
    { destruct (tree_inj known known_inj h3 h2 s3 s2) as [He _]; [..|done].
      - exact (proj1 (part_low _ _ _ _ Hp3 (cuts_low _ _ _ Hlow Hcut1))).
      - exact (proj1 (part_low _ _ _ _ Hp42 (cuts_low _ _ _ Hlow Hcut2))).
      - done.
      - done.
      - intros ? ? H5. apply Hok1. by eapply part_trans.
      - intros ? ? H5. apply Hok2. by eapply part_trans.
      - congruence. }
    subst s3. destruct s2 as [|x s2]; [done|].
    assert (m1 = m2) as <-.
    { eapply (kids_apart n m1 m2 x); [done|done|done|done| |]; [eapply part_incl; [exact Hp3|by left]|eapply part_incl; [exact Hp42|by left]]. }
    apply (IH m1 Hm1 (h - 1) Hs1 Hok1 (kids_ordered h n m1 Hl Hs Ho Hm1) Hc Hu Hat _ _ Hb Heq).
  - apply Hself. destruct n as [lf es cd ht ld]. cbn in Hl. subst ld. cbn in Hc. rewrite app_nil_r in Hc.
    destruct cd; cbn in Hc; [|by apply elem_of_nil in Hc]. by apply list_elem_of_singleton in Hc as ->.
Qed.
End Nodes.

(** *** Trees *)

(** A root whose height is set to that of its contents. *)
Definition at_height (h : Z) (n : Node) : Node := let '(MkNode l es c _ ld) := n in MkNode l es c h ld.

Lemma at_height_eq `{!Stubs} h n : contents (at_height h n) = contents n /\ cids (at_height h n) = cids n /\
  stub_cids (at_height h n) = stub_cids n /\ n_cid (at_height h n) = n_cid n /\ n_loaded (at_height h n) = n_loaded n.
Proof. by destruct n as [l es c ht []]. Qed.

Lemma root_ok_shape `{!Stubs} `{!StubsLaws} n : root_ok n ->
  (exists h, shape h (at_height h n) /\ contents n <> [] /\ tree_height (contents n) = h /\ (n_loaded n = true -> n_height n = h)) \/ root_empty n.
Proof.
  intros [Hs|Hs]; [left|by right]. destruct (n_loaded n) eqn:Hl.
  - apply root_shape_loaded in Hs as (h & Hs & He); [|done]. exists h. destruct (shape_height _ _ Hs) as [Hh Hnn].
    assert (at_height h n = n) as -> by (destruct n; cbn in *; by subst). split; [done|].
    destruct (keys_loaded n h Hl Hs He) as (e & Hin & Heh). split; [intros Hc; rewrite Hc in Hin; by apply elem_of_nil in Hin|].
    split; [|done]. apply tree_height_eq; [done|by apply shape_heights|by exists e].
  - unfold root_shape in Hs. rewrite Hl in Hs. destruct Hs as (h & c & Hc & Hst & Hh & Htc & Hcut). exists h.
    destruct n as [l es cd ht ld]. cbn in Hl, Hc. subst ld cd. cbn [at_height contents]. split.
    { cbn. split_and!; [done..| |done]. by intros ? [= <-]. }
    split; [exact (proj1 (tree_cid_Some _ _ _ Htc))|]. split; [|done]. apply tree_height_eq; [done|by apply stub_heights|by apply cut_levels_nonempty].
Qed.

Definition tree_stubs (t : DetachedTree) : list Cid := match root t with Some n => stub_cids n | None => [] end.

Section Trees.
Context (l0 : kvs) (Hl0 : map_ok known l0).
Implicit Types P Q : Z -> kvs -> Prop.

(** The tree stands for a map, its stubs for pieces of [l0] in [P]. *)
Definition stands (P : Z -> kvs -> Prop) (t : DetachedTree) (l : kvs) : Prop := @stands_for _ (stubs_of l0 P) t l.

Lemma root_empty_stub P n u : @root_empty _ (stubs_of l0 P) n -> u ∈ stub_cids n ->
  piece_at l0 0 u /\ P 0 (piece_of l0 u) /\ piece_of l0 u = [].
Proof.
  intros (c & Hc & _ & _ & Hn) Hu. destruct n as [l es cd ht []]; cbn in *.
  - destruct Hn as [-> ->]. by apply elem_of_nil in Hu.
  - subst cd. cbn in Hu. apply list_elem_of_singleton in Hu as ->. by destruct Hn as [[] ?].
Qed.

Lemma map_part_top l h s : l <> [] -> part (tree_height l) l h s -> map_part l h s.
Proof. intros Hl Hp. by right. Qed.

(** A stub of the tree is a piece of its map. *)
Lemma tree_stub_part P t l u : closed P -> stands P t l -> u ∈ tree_stubs t ->
  exists h, map_part l h (piece_of l0 u) /\ piece_at l0 h u /\ P h (piece_of l0 u).
Proof.
  intros HP (_ & _ & _ & _ & Hr) Hu. unfold tree_stubs in Hu. destruct (root t) as [n|]; [|by apply elem_of_nil in Hu].
  destruct Hr as [[Hr <-] _]. pose proof (stubs_of_laws l0 P Hl0 HP) as HL.
  destruct (root_ok_shape n Hr) as [(h & Hs & Hne & Hh & _)|He].
  - destruct (@at_height_eq (stubs_of l0 P) h n) as (Hcon & _ & Hst & _). destruct (stub_part l0 P (at_height h n) h u HL Hs) as (h' & Hp & Hat & Hq & _); [by rewrite Hst|].
    rewrite Hcon in Hp. exists h'. split; [|done]. subst h. by apply map_part_top.
  - pose proof (root_empty_contents n He) as ->. destruct (root_empty_stub P n u He Hu) as (Hat & Hq & Hnil). exists 0. rewrite Hnil in *. by split; [left|].
Qed.

(** The CID of a node in memory is that of a piece of the map. *)
Lemma tree_held_part P t l c : closed P -> stands P t l -> c ∈ held t -> exists h s, map_part l h s /\ cid_of h s = c.
Proof.
  intros HP (_ & _ & _ & _ & Hr) Hc. pose proof (stubs_of_laws l0 P Hl0 HP) as HL. unfold held in Hc.
  assert (Hempty : map_root [] = Some c -> exists h s, map_part [] h s /\ cid_of h s = c).
  { intros (h & Hm & Hcc & _)%map_root_part. by exists h, []. }
  destruct (root t) as [n|].
  - destruct Hr as [[Hr <-] Hemp]. rewrite Hemp, app_nil_r in Hc. cbn [cids_of opt_map] in Hc.
    destruct (root_ok_shape n Hr) as [(h & Hs & Hne & Hh & _)|He].
    + destruct (@at_height_eq (stubs_of l0 P) h n) as (Hcon & Hci & _). destruct (held_part l0 P (at_height h n) h c HL Hs) as (h' & s & Hp & Hcc & _); [by rewrite Hci|].
      rewrite Hcon in Hp. exists h', s. split; [|done]. subst h. by apply map_part_top.
    + pose proof (root_empty_contents n He) as ->. destruct He as (c' & Hcid & Hroot & _ & Hn). apply Hempty.
      destruct n as [l es cd ht []]; cbn in *; subst cd; [destruct Hn as [-> ->]|]; cbn in Hc; apply list_elem_of_singleton in Hc as ->; done.
  - destruct Hr as [-> Hemp]. cbn in Hc. destruct (empty_root t) as [c'|]; cbn in Hc; [|by apply elem_of_nil in Hc].
    apply list_elem_of_singleton in Hc as ->. apply Hempty. by apply Hemp.
Qed.

(** No block below a piece is [c]; every block of a piece is in [X]. *)
Definition apart (c : Cid) (h : Z) (s : kvs) : Prop := forall h2 s2, below_part h s h2 s2 -> cid_of h2 s2 <> c.
Definition within (X : Cid -> Prop) (h : Z) (s : kvs) : Prop := forall h2 s2, part h s h2 s2 -> X (cid_of h2 s2).

Lemma apart_closed c : closed (apart c).
Proof. intros h s s' Ha Hin Hne h2 s2 Hb%below_is_part. apply Ha. by exists s'. Qed.

Lemma within_closed X : closed (within X).
Proof. intros h s s' Ha Hin Hne h2 s2 Hp. apply Ha. by eapply part_below. Qed.

Lemma any_closed : closed (fun _ _ => True).
Proof. done. Qed.

(** The same tree, with its stubs taken for pieces of another map. *)
Lemma stands_rebase l1 P Q t l : (forall u h, u ∈ tree_stubs t -> piece_at l0 h u -> P h (piece_of l0 u) ->
    piece_of l1 u = piece_of l0 u /\ piece_at l1 h u /\ Q h (piece_of l0 u)) ->
  closed P -> stands P t l -> @stands_for _ (stubs_of l1 Q) t l.
Proof.
  intros Hq HP (Hp & Hok & Ho & Hv & Hr). pose proof (stubs_of_laws l0 P Hl0 HP) as HL. split_and!; [done..|].
  unfold tree_stubs in Hq. destruct (root t) as [n|]; [|done]. destruct Hr as [[Hr Hc] He]. split; [|done].
  destruct (root_ok_shape n Hr) as [(h & Hs & Hne & Hh & Hht)|Hem].
  - destruct (@at_height_eq (stubs_of l0 P) h n) as (Hcon & Hci & Hst & Hcid & Hld).
    destruct (shape_rebase l0 l1 P Q (at_height h n) h) as [Hcq Hsq]; [|done|]. { intros u h'. rewrite Hst. apply Hq. }
    assert (Hcn : @contents (stubs_of l1 Q) n = l).
    { rewrite <- Hc, <- Hcon, <- Hcq. symmetry. apply (@at_height_eq (stubs_of l1 Q)). }
    split; [|done]. destruct Hr as [Hr|Hr]; [left|by rewrite (root_empty_contents n Hr) in Hne].
    destruct (n_loaded n) eqn:Hl.
    + apply root_shape_loaded in Hr as (h' & Hs' & Hes); [|done]. apply (@root_shape_loaded _ (stubs_of l1 Q)); [done|]. exists h'.
      split; [|done]. assert (h' = h) as ->. { destruct (shape_height _ _ Hs'). rewrite <- Hht by done. done. }
      destruct (shape_rebase l0 l1 P Q n h) as [_ ?]; done.
    + unfold root_shape in Hr |- *. rewrite Hl in *. destruct Hr as (h' & c & Hcid' & [Hat Hpc] & Hnn & Htc & Hcut).
      cbn [stub_contents stub_shape stubs_of] in *. exists h', c. destruct (Hq c h') as (Heq & Hat' & HQ); [|done|done|].
      { destruct n as [lf es cd ht ld]. cbn in Hl, Hcid'. subst. by left. }
      cbn. rewrite Heq. by split_and!.
  - assert (Hl : l = []) by (rewrite <- Hc; by apply root_empty_contents). destruct Hem as (c & Hcid & Hroot & Hht & Hn). destruct (n_loaded n) eqn:Hl'.
    + split; [right; exists c; by rewrite Hl'|]. destruct Hn as [Hn1 Hn2]. by rewrite contents_loaded, Hn1, Hn2.
    + destruct Hn as [[Hat Hpc] Hnil]. cbn [stub_contents stubs_of] in *.
      assert (Hin : c ∈ stub_cids n) by (destruct n as [lf es cd ht ld]; cbn in Hl', Hcid; subst; by left).
      destruct (Hq c 0) as (Heq & Hat' & HQ); [done..|]. split.
      * right. exists c. rewrite Hl'. do 3 (split; [done|]). cbn. rewrite Heq. by split_and!.
      * destruct n as [lf es cd ht ld]. cbn in Hl', Hcid. subst. cbn. congruence.
Qed.

Lemma stands_change P Q t l : (forall u h, u ∈ tree_stubs t -> piece_at l0 h u -> P h (piece_of l0 u) -> Q h (piece_of l0 u)) ->
  closed P -> stands P t l -> stands Q t l.
Proof. intros Hq HP. apply stands_rebase; [|done]. intros u h Hu Hat Hp. split; [done|]. split; [done|]. by apply (Hq u h). Qed.

(** No block below a stub is that of a node in memory. *)
Lemma tree_stub_apart P t l c : closed P -> map_ok known l -> stands P t l -> c ∈ held t -> stands (apart c) t l.
Proof.
  intros HP Hl Ht Hc. apply (stands_change P); [|done..]. intros u h Hu Hat _ h2 s2 Hb.
  pose proof (stubs_of_laws l0 P Hl0 HP) as HL. pose proof Ht as (_ & _ & Ho & _ & Hr). unfold tree_stubs in Hu. unfold held in Hc.
  destruct (root t) as [n|]; [|by apply elem_of_nil in Hu]. destruct Hr as [[Hr Hcon] Hemp]. rewrite Hemp, app_nil_r in Hc. cbn [cids_of opt_map] in Hc.
  destruct (root_ok_shape n Hr) as [(h' & Hs & Hne & Hh & _)|He].
  - destruct (@at_height_eq (stubs_of l0 P) h' n) as (Hc1 & Hc2 & Hc3 & _).
    apply (stub_apart l0 Hl0 P (at_height h' n) h' c u h HL Hs); try done.
    + intros h3 s3 H3. apply Hl. rewrite Hc1 in H3. subst h'. rewrite Hcon in *. by apply map_part_top.
    + by rewrite Hc1, Hcon.
    + by rewrite Hc2.
    + by rewrite Hc3.
  - destruct (root_empty_stub P n u He Hu) as (_ & _ & Hnil). rewrite Hnil in Hb. destruct Hb as (s & Hs & Hne & _).
    cbn in Hs. by apply list_elem_of_singleton in Hs.
Qed.
End Trees.
End StubsOf.
