(* ===== verification/MstStored.v ===== *)
(** Methods that only load: what they leave is the same tree with more of it
    in memory, and none of them panics, [covering_proof] among them.

    A node that has its CID has children that have theirs. Every method of
    the tree keeps it so, and after a flush every node has its CID: the blocks
    of the map are then those of the nodes in memory and of the pieces their
    stubs stand for. *)
From S2P Require Import Prelude StateError SyntaxError CborError Cid CborDecode CborCodec MstHeight SortedMap MstNode MstTree MstShape.
From S2P Require Import MstMutate MstRemove MstFlush MstLoad MstLoadSpec MstLoaded MstDetached MstProof MstDetachedSpec MstFlushed MstPieces.

Inductive sealed : Node -> Prop :=
| sealed_intro n : (n_cid n <> None -> forall m, m ∈ kids n -> n_cid m <> None) -> (forall m, m ∈ kids n -> sealed m) -> sealed n.

Definition sealed_of (o : option Node) : Prop := match o with Some n => sealed n | None => True end.

Lemma sealed_kids n m : sealed n -> m ∈ kids n -> sealed m.
Proof. intros [n' _ Hk]. apply Hk. Qed.

Lemma sealed_open n : n_cid n = None -> (forall m, m ∈ kids n -> sealed m) -> sealed n.
Proof. intros Hc Hk. constructor; [by rewrite Hc|done]. Qed.

Lemma child_kids n i m : child n i = Some m -> m ∈ kids n.
Proof.
  unfold child. rewrite elem_of_kids. destruct i as [|j]; cbn [slot]; [by left|]. intros (e & He & Hr)%bind_Some. right.
  exists e. split; [by eapply list_elem_of_lookup_2|done].
Qed.

Lemma sealed_child n i : sealed n -> sealed_of (child n i).
Proof. intros Hn. destruct (child n i) as [m|] eqn:Hm; [|done]. eapply sealed_kids; [done|by eapply child_kids]. Qed.

Lemma kids_set_child n i c m : m ∈ kids (set_child n i c) -> c = Some m \/ m ∈ kids n.
Proof.
  rewrite !elem_of_kids. destruct n as [l es cd h ld], i as [|j]; cbn.
  - naive_solver.
  - intros [Hm|(e & He & Hm)]; [naive_solver|]. apply list_elem_of_lookup in He as [k He].
    destruct (decide (k = j)) as [->|Hne].
    + rewrite list_lookup_alter_eq in He. destruct (es !! j) as [e'|] eqn:He'; cbn in He; [|done]. injection He as <-. by left.
    + rewrite list_lookup_alter_ne in He by done. right. right. exists e. split; [by eapply list_elem_of_lookup_2|done].
Qed.

(** The kids of a node with some of the entries of another, and a few more. *)
Lemma kids_entries l es c h ld m : m ∈ kids (MkNode l es c h ld) <-> l = Some m \/ exists e, e ∈ es /\ e_right e = Some m.
Proof. by rewrite elem_of_kids. Qed.

Lemma kids_set_cid n m c : m ∈ kids (set_cid c n) <-> m ∈ kids n.
Proof. by destruct n. Qed.

(** ** Mutations *)

(** Whatever [m] returns satisfies [Q]. *)
Definition yields {S E A} (m : st S E A) (Q : A -> Prop) : Prop := forall s a s', m s = (Ok a, s') -> Q a.

Lemma yields_ret {S E A} (a : A) (Q : A -> Prop) : Q a -> yields (mret a : st S E A) Q.
Proof. intros Hq s b s' [<- _]%st_ret_Ok. done. Qed.

Lemma yields_bind {S E A B} (m : st S E A) (f : A -> st S E B) Q R : yields m Q -> (forall a, Q a -> yields (f a) R) -> yields (m ≫= f) R.
Proof. intros Hm Hf s b s' (a & s1 & H1 & H2)%st_bind_Ok. eapply Hf; [|exact H2]. by eapply Hm. Qed.

Lemma yields_any {S E A} (m : st S E A) : yields m (fun _ => True).
Proof. done. Qed.

Lemma yields_weaken {S E A} (m : st S E A) (Q R : A -> Prop) : yields m Q -> (forall a, Q a -> R a) -> yields m R.
Proof. intros Hm Hw s a s' Hr. eapply Hw, Hm, Hr. Qed.

Lemma yields_err {S E A} (m : st S E A) (Q : A -> Prop) : (forall s, ~ is_ok (m s).1) -> yields m Q.
Proof. intros Hm s a s' Hr. destruct (Hm s). by rewrite Hr. Qed.

Lemma touch_yields n : yields (touch n) (fun n' => n' = set_cid None n).
Proof. intros s a s' [= <- _]. done. Qed.

Lemma index_yields {A} (l : list A) i : yields (lift (S := list Cid) (index (E := MstError) l i)) (fun a => l !! i = Some a).
Proof. intros s a s' [Hi _]%st_lift_Ok. unfold index in Hi. destruct (l !! i); [by injection Hi as ->|done]. Qed.

Lemma take_child_yields n i : yields (take_child n i) (fun o => o = child n i).
Proof.
  destruct i as [|j]; [by apply yields_ret|]. eapply yields_bind; [apply index_yields|]. intros e He. apply yields_ret.
  unfold child. cbn. by rewrite He.
Qed.

Lemma put_child_yields n i c : yields (put_child n i c) (fun n' => n' = set_child n i c).
Proof.
  destruct i as [|j]; [by apply yields_ret|]. eapply yields_bind; [apply index_yields|]. intros e He. apply yields_ret.
  cbn. by rewrite (alter_insert _ _ _ e).
Qed.

Lemma sealed_set_child n i c : n_cid n = None -> (forall m, m ∈ kids n -> sealed m) -> sealed_of c -> sealed (set_child n i c).
Proof.
  intros Hc Hk Hs. apply sealed_open; [by rewrite (proj1 (set_child_fields n i c))|]. intros m [->|Hm]%kids_set_child; [done|auto].
Qed.

Lemma update_node_sealed fuel n key v : sealed n -> yields (update_node fuel n key v) sealed.
Proof.
  revert n. induction fuel as [|fuel IH]; intros n Hn; [by intros ???|]. cbn [update_node].
  eapply yields_bind; [apply yields_any|]. intros _ _. eapply yields_bind; [apply touch_yields|]. intros n' ->.
  assert (Hk : forall m, m ∈ kids (set_cid None n) -> sealed m) by (intros m Hm%kids_set_cid; by eapply sealed_kids).
  assert (Hc : n_cid (set_cid None n) = None) by (by destruct n).
  destruct (search (n_entries (set_cid None n)) key) as [i [|]].
  - eapply yields_bind; [apply index_yields|]. intros e He. apply yields_ret. apply sealed_open; [by destruct n|]. intros m Hm.
    apply Hk. destruct n as [l es cd h ld]. cbn in *. apply kids_entries in Hm as [Hm|(d & Hd & Hm)]; apply kids_entries; [by left|right].
    apply list_elem_of_lookup in Hd as [j Hd]. destruct (decide (i = j)) as [->|Hne].
    + rewrite list_lookup_insert_eq in Hd by (by eapply lookup_lt_Some). injection Hd as <-. exists e. split; [by eapply list_elem_of_lookup_2|done].
    + rewrite list_lookup_insert_ne in Hd by done. exists d. split; [by eapply list_elem_of_lookup_2|done].
  - destruct (child (set_cid None n) i) as [c|] eqn:Hch; [|by intros ???]. eapply yields_bind; [apply IH|].
    { apply Hk. by eapply child_kids. }
    intros c' Hc'. eapply yields_weaken; [apply put_child_yields|]. intros ? ->. by apply sealed_set_child.
Qed.

Lemma trim_node_sealed n : sealed n -> sealed_of (trim_node n).
Proof. unfold trim_node. by destruct (is_empty_node n). Qed.

Lemma filler_sealed o h : sealed_of o -> sealed_of (trim_node_opt ((fun c => fresh h (Some c) []) <$> o)).
Proof.
  destruct o as [c|]; [|done]. intros Hc. apply trim_node_sealed, sealed_open; [done|]. intros m Hm.
  apply kids_entries in Hm as [[= <-]|(e & He%elem_of_nil & _)]; done.
Qed.

Definition sealed_pair (x : option Node * option Node) : Prop := sealed_of x.1 /\ sealed_of x.2.

Lemma split_node_sealed fuel n key : sealed_of n -> yields (split_node fuel n key) sealed_pair.
Proof.
  revert n. induction fuel as [|fuel IH]; intros n Hn; [by intros ???|]. destruct n as [n|]; [|by apply yields_ret]. cbn [split_node].
  eapply yields_bind; [apply yields_any|]. intros _ _. eapply yields_bind; [apply touch_yields|]. intros n' ->.
  assert (Hk : forall m, m ∈ kids (set_cid None n) -> sealed m) by (intros m Hm%kids_set_cid; by eapply sealed_kids).
  assert (Hc : n_cid (set_cid None n) = None) by (by destruct n). set (n0 := set_cid None n) in *. clearbody n0.
  assert (Hch : forall i, sealed_of (child n0 i)).
  { intros i. destruct (child n0 i) as [m|] eqn:Hm; [|done]. apply Hk. by eapply child_kids. }
  unfold split_entries. set (i := (search (n_entries n0) key).1). destruct (length (n_entries n0) <=? i)%nat eqn:Hi.
  - eapply yields_bind; [apply take_child_yields|]. intros o ->. eapply yields_bind; [apply IH, Hch|]. intros [cl cr] [Hcl Hcr].
    eapply yields_bind; [apply put_child_yields|]. intros n' ->. apply yields_ret. split; [|by apply filler_sealed].
    apply trim_node_sealed. by apply sealed_set_child.
  - destruct i as [|j] eqn:Hij.
    + eapply yields_bind; [apply IH, (Hch 0%nat)|]. intros [cl cr] [Hcl Hcr]. apply yields_ret. split; [by apply filler_sealed|].
      apply trim_node_sealed. by apply (sealed_set_child n0 0).
    + set (left := fresh (n_height n0) (n_left n0) (take (S j) (n_entries n0))).
      assert (Hkl : forall m, m ∈ kids left -> sealed m).
      { intros m Hm. apply Hk. apply kids_entries in Hm as [Hm|(e & He & Hm)]; apply elem_of_kids; [by left|right].
        exists e. split; [by eapply elem_of_take in He as (? & ? & ?); eapply list_elem_of_lookup_2|done]. }
      eapply yields_bind; [apply take_child_yields|]. intros o ->. eapply yields_bind; [apply IH|].
      { destruct (child left (S j)) as [m|] eqn:Hm; [|done]. apply Hkl. by eapply child_kids. }
      intros [cl cr] [Hcl Hcr]. eapply yields_bind; [apply put_child_yields|]. intros n' ->. apply yields_ret.
      split; apply trim_node_sealed; [by apply sealed_set_child|]. apply sealed_open; [done|]. intros m Hm.
      apply kids_entries in Hm as [->|(e & He & Hm)]; [done|]. apply Hk, elem_of_kids. right. exists e. split; [|done].
      apply list_elem_of_lookup in He as [k He]. rewrite lookup_drop in He. by eapply list_elem_of_lookup_2.
Qed.

(** A node touched last: what it was made of counts. *)
Lemma touch_sealed n : (forall m, m ∈ kids n -> sealed m) -> yields (touch n) sealed.
Proof.
  intros Hk. eapply yields_weaken; [apply touch_yields|]. intros n' ->. apply sealed_open; [by destruct n|].
  intros m Hm%kids_set_cid. auto.
Qed.

Lemma insert_at_level_sealed n key v : sealed n -> yields (insert_at_level n key v) sealed.
Proof.
  intros Hn. unfold insert_at_level. destruct (search (n_entries n) key) as [i [|]].
  - eapply yields_bind; [apply index_yields|]. intros e He. apply touch_sealed. intros m Hm. apply (sealed_kids n); [done|].
    destruct n as [l es cd h ld]. cbn in *. apply kids_entries in Hm as [Hm|(d & Hd & Hm)]; apply kids_entries; [by left|right].
    apply list_elem_of_lookup in Hd as [j Hd]. destruct (decide (i = j)) as [->|Hne].
    + rewrite list_lookup_insert_eq in Hd by (by eapply lookup_lt_Some). injection Hd as <-. exists e. split; [by eapply list_elem_of_lookup_2|done].
    + rewrite list_lookup_insert_ne in Hd by done. exists d. split; [by eapply list_elem_of_lookup_2|done].
  - eapply yields_bind; [apply take_child_yields|]. intros o ->. eapply yields_bind; [by apply split_node_sealed, sealed_child|].
    intros [l r] [Hl Hr]. cbn [fst snd] in *. eapply yields_bind; [apply put_child_yields|]. intros n' ->. apply touch_sealed.
    intros m [->|Hm]%kids_set_child; [done|]. destruct n as [lf es cd h ld]. cbn [set_entries n_entries] in Hm.
    apply kids_entries in Hm as [Hm|(e & He & Hm)].
    + apply (sealed_kids (MkNode lf es cd h ld)); [done|]. apply kids_entries. by left.
    + unfold insert_entry in He. rewrite elem_of_app, elem_of_cons in He. destruct He as [He|[->|He]].
      * apply (sealed_kids (MkNode lf es cd h ld)); [done|]. apply kids_entries. right. exists e. split; [|done].
        eapply elem_of_take in He as (? & ? & ?). by eapply list_elem_of_lookup_2.
      * cbn in Hm. by subst r.
      * apply (sealed_kids (MkNode lf es cd h ld)); [done|]. apply kids_entries. right. exists e. split; [|done].
        apply list_elem_of_lookup in He as [k He]. rewrite lookup_drop in He. by eapply list_elem_of_lookup_2.
Qed.

Lemma sealed_fresh h key v : sealed (fresh h None [MkEntry key v None]).
Proof. apply sealed_open; [done|]. by intros m [?|(e & ->%list_elem_of_singleton & ?)]%kids_entries. Qed.

Lemma sealed_hollow h : sealed (fresh h None []).
Proof. apply sealed_open; [done|]. by intros m [?|(e & ?%elem_of_nil & ?)]%kids_entries. Qed.

(** The node is touched, then a subtree is put in. *)
Lemma touch_put_sealed n i c : sealed n -> sealed c -> yields (n ← touch n; put_child n i (Some c)) sealed.
Proof.
  intros Hn Hc. eapply yields_bind; [apply touch_yields|]. intros n' ->. eapply yields_weaken; [apply put_child_yields|]. intros ? ->.
  apply sealed_set_child; [by destruct n| |done]. intros m Hm%kids_set_cid. exact (sealed_kids n m Hn Hm).
Qed.

Lemma insert_node_sealed fuel o key v h : sealed_of o -> yields (insert_node fuel o key v h) sealed.
Proof.
  revert o. induction fuel as [|fuel IH]; intros o Ho; [by intros ???|]. destruct o as [n|]; [|by apply yields_ret, sealed_fresh].
  cbn [insert_node]. eapply yields_bind; [apply yields_any|]. intros _ _. destruct (n_height n <? h).
  { apply IH, sealed_open; [done|]. intros m [[= <-]|(e & He%elem_of_nil & _)]%kids_entries; done. }
  destruct (h <? n_height n); [|by apply insert_at_level_sealed]. unfold insert_below.
  eapply yields_bind; [apply take_child_yields|]. intros c ->. destruct (bool_decide _ && _).
  { apply touch_put_sealed; [done|apply sealed_fresh]. }
  eapply yields_bind; [apply (IH (Some _))|].
  { destruct (child n (find_child_index n key)) as [c|] eqn:Hc; [|apply sealed_hollow]. eapply sealed_kids; [done|by eapply child_kids]. }
  intros c' Hc'. by apply touch_put_sealed.
Qed.

Lemma merge_nodes_sealed fuel l r : sealed_of l -> sealed_of r -> yields (merge_nodes fuel l r) sealed_of.
Proof.
  revert l r. induction fuel as [|fuel IH]; intros l r Hl Hr; [by intros ???|]. destruct l as [l|]; [|by apply yields_ret].
  destruct r as [r|]; [|by apply yields_ret]. cbn [merge_nodes]. do 2 (eapply yields_bind; [apply yields_any|]; intros _ _).
  eapply yields_bind; [apply take_child_yields|]. intros o ->. eapply yields_bind; [apply IH|].
  { by apply (sealed_child l). } { destruct (n_left r) as [m|] eqn:Hm; [|done]. apply (sealed_kids r); [exact Hr|]. apply elem_of_kids. by left. }
  intros m Hm. eapply yields_bind; [apply put_child_yields|]. intros l' ->. eapply yields_bind; [apply touch_sealed|].
  - set (l1 := set_child l _ m). intros k Hk. assert (Hin : k ∈ kids l1 \/ k ∈ kids r).
    { destruct l1 as [lf es cd h ld]. cbn [set_entries] in Hk. apply kids_entries in Hk as [Hk|(e & He & Hk)]; [left; apply kids_entries; by left|].
      apply elem_of_app in He as [He|He]; [left; apply kids_entries; right; by exists e|right; apply elem_of_kids; right; by exists e]. }
    destruct Hin as [[->|Hin]%kids_set_child|Hin]; [done|exact (sealed_kids l k Hl Hin)|exact (sealed_kids r k Hr Hin)].
  - intros l2 Hl2. eapply yields_bind; [apply yields_any|]. intros _ _. by apply yields_ret.
Qed.

Lemma prune_empty_yields n : yields (prune_empty n) (fun o => o = None \/ o = Some n).
Proof.
  unfold prune_empty. destruct (is_empty_node n); [|apply yields_ret; by right]. eapply yields_bind; [apply yields_any|]. intros _ _.
  apply yields_ret. by left.
Qed.

(** A node from which nothing is removed keeps its CID, if it has one. *)
Lemma remove_node_sealed fuel n key : sealed n ->
  yields (remove_node fuel n key) (fun x => sealed_of x.1 /\ (x.2 = None -> x.1 = None \/ exists n', x.1 = Some n' /\ n_cid n' = n_cid n)).
Proof.
  revert n. induction fuel as [|fuel IH]; intros n Hn; [by intros ???|]. cbn [remove_node].
  eapply yields_bind; [apply yields_any|]. intros _ _. destruct (search (n_entries n) key) as [i [|]].
  - eapply yields_bind; [apply index_yields|]. intros e He. cbn beta in He. eapply yields_bind; [apply take_child_yields|]. intros o ->.
    eapply yields_bind; [apply merge_nodes_sealed; [by apply sealed_child|]|].
    { destruct (e_right e) as [m|] eqn:Hm; [|done]. eapply sealed_kids; [done|]. apply elem_of_kids. right. exists e.
      split; [by eapply list_elem_of_lookup_2|done]. }
    intros m Hm. eapply yields_bind; [apply put_child_yields|]. intros n' ->. eapply yields_bind; [apply touch_sealed|].
    { intros k [->|Hk]%kids_set_child; [done|]. eapply sealed_kids; [exact Hn|]. destruct n as [lf es cd h ld]. cbn [set_entries n_entries] in *.
      apply kids_entries in Hk as [Hk|(d & Hd & Hk)]; apply kids_entries; [by left|right]. exists d. split; [|done]. unfold remove_entry in Hd.
      apply elem_of_app in Hd as [Hd|Hd]; [eapply elem_of_take in Hd as (? & ? & ?); by eapply list_elem_of_lookup_2|].
      apply list_elem_of_lookup in Hd as [k' Hd]. rewrite lookup_drop in Hd. by eapply list_elem_of_lookup_2. }
    intros n1 Hn1. eapply yields_bind; [apply prune_empty_yields|]. intros o Ho. apply yields_ret. cbn. split; [|done].
    by destruct Ho as [->| ->].
  - eapply yields_bind; [apply take_child_yields|]. intros o ->. destruct (child n i) as [c|] eqn:Hc.
    2: { apply yields_ret. cbn. split; [done|]. intros _. right. by exists n. }
    assert (Hck : c ∈ kids n) by (by eapply child_kids). eapply yields_bind; [by apply IH, (sealed_kids n)|]. intros [nc removed] [Hnc Hcid]. cbn [fst snd] in *.
    destruct removed as [v|].
    + rewrite bool_decide_false by done. eapply yields_bind; [apply touch_yields|]. intros n1 ->. eapply yields_bind; [apply put_child_yields|].
      intros n2 ->. assert (Hs : sealed (set_child (set_cid None n) i nc)).
      { apply sealed_set_child; [by destruct n| |done]. intros m Hm%kids_set_cid. by eapply sealed_kids. }
      eapply yields_bind; [apply prune_empty_yields|]. intros o Ho. apply yields_ret. cbn. split; [|done]. by destruct Ho as [->| ->].
    + rewrite bool_decide_true by done. eapply yields_bind; [by apply (yields_ret n (fun n1 => n1 = n))|]. intros n1 ->.
      eapply yields_bind; [apply put_child_yields|]. intros n2 ->. eapply yields_bind; [apply prune_empty_yields|]. intros o Ho.
      apply yields_ret. cbn. assert (Hs : sealed (set_child n i nc)).
      { constructor.
        - rewrite (proj1 (set_child_fields n i nc)). intros Hk m [Hm|Hm]%kids_set_child; inversion Hn as [? Hkn _]; subst; [|by apply Hkn].
          destruct (Hcid eq_refl) as [?|(n' & [= <-] & Hn')]; [done|]. rewrite Hn'. by apply Hkn.
        - intros m [Hm|Hm]%kids_set_child; [by subst|by eapply sealed_kids]. }
      split; [by destruct Ho as [->| ->]|]. intros _. destruct Ho as [->| ->]; [by left|right]. eexists. split; [done|]. apply set_child_fields.
Qed.

Lemma trim_top_sealed fuel o : sealed_of o -> yields (trim_top fuel o) sealed_of.
Proof.
  revert o. induction fuel as [|fuel IH]; intros o Ho; [by intros ???|]. destruct o as [n|]; [|by apply yields_ret]. cbn [trim_top].
  destruct (negb (n_loaded n) && (n_height n =? 0)); [by apply yields_ret|]. eapply yields_bind; [apply yields_any|]. intros _ _.
  destruct (n_entries n); [|by apply yields_ret]. eapply yields_bind; [apply yields_any|]. intros _ _. apply IH.
  destruct (n_left n) as [m|] eqn:Hm; [|done]. eapply sealed_kids; [exact Ho|]. apply elem_of_kids. by left.
Qed.

Lemma remove_from_root_sealed n key : sealed n -> yields (remove_from_root n key) (fun x => sealed_of x.1).
Proof.
  intros Hn. unfold remove_from_root. eapply yields_bind; [by apply remove_node_sealed|]. intros [o removed] [Ho _].
  eapply yields_bind; [by apply trim_top_sealed|]. intros o' Ho'. by apply yields_ret.
Qed.

(** ** Loading *)

Section Loads.
Context `{Sha2} `{Simdutf8} (src : Source).

Lemma load_step_sealed at_ n n' : load_step src at_ n n' -> sealed n -> sealed n' /\ n_cid n' = n_cid n.
Proof.
  induction 1 as [at_ n n' cid data nd Hl Hcid Hd Hsrc Hdec Hpop|at_ n i c c' Hl Hc _ IH]; intros Hn.
  - apply populate_node_Ok in Hpop as (keys & _ & _ & ->). cbn zeta. set (h := match head keys with Some _ => _ | None => _ end). clearbody h.
    split; [|done]. assert (Hk : forall m, m ∈ kids (MkNode ((fun c => stub c (Z.max 0 (h - 1))) <$> data_left nd)
        (map (fun x : EntryData * bytes => MkEntry x.2 (value x.1) ((fun c => stub c (Z.max 0 (h - 1))) <$> data_right x.1)) keys) (n_cid n) h true) ->
      exists c, m = stub c (Z.max 0 (h - 1))).
    { intros m [Hm|(e & He & Hm)]%kids_entries.
      - destruct (data_left nd) as [c|]; [|done]. injection Hm as <-. by exists c.
      - apply list_elem_of_In, in_map_iff in He as (x & <- & _). cbn in Hm. destruct (data_right x.1) as [c|]; [|done]. injection Hm as <-. by exists c. }
    constructor.
    + intros _ m Hm. destruct (Hk m Hm) as [c ->]. done.
    + intros m Hm. destruct (Hk m Hm) as [c ->]. constructor; [intros _|]; intros k Hin; by apply not_elem_of_nil in Hin.
  - assert (Hck : c ∈ kids n) by (by eapply child_kids). destruct (IH (sealed_kids n c Hn Hck)) as [Hs Hcc].
    split; [|apply set_child_fields]. inversion Hn as [? Hcn Hkn]; subst. constructor.
    + rewrite (proj1 (set_child_fields n i _)). intros Hk m [[= <-]|Hm]%kids_set_child; [rewrite Hcc|]; by apply Hcn.
    + intros m [[= <-]|Hm]%kids_set_child; [done|auto].
Qed.

Lemma loads_sealed at_ n n' : loads src at_ n n' -> sealed n -> sealed n'.
Proof. induction 1 as [n|n n1 n' Hs _ IH]; [done|]. intros Hn. apply IH. by eapply load_step_sealed. Qed.
End Loads.

(** ** Writing *)

Section Write.
Context `{Sha2}.

Definition written (n : Node) : Prop := sealed n -> yields (write_node n) (fun x => sealed x.2 /\ n_cid x.2 = Some x.1).

Lemma write_right_sealed e : opt_all written (e_right e) -> sealed_of (e_right e) ->
  yields (write_right write_node e) (fun e' => forall m, e_right e' = Some m -> sealed m /\ n_cid m <> None).
Proof.
  intros Hw Hs. destruct e as [k v [r|]]; cbn in *; [|by apply yields_ret]. eapply yields_bind; [by apply Hw|].
  intros [c r'] [Hr Hc]. apply yields_ret. cbn in *. intros m [= <-]. by rewrite Hc.
Qed.

Lemma write_rights_sealed es : Forall (fun e : Entry => opt_all written (e_right e)) es -> Forall (fun e : Entry => sealed_of (e_right e)) es ->
  yields (write_rights write_node es) (fun es' => forall e m, e ∈ es' -> e_right e = Some m -> sealed m /\ n_cid m <> None).
Proof.
  intros Hw Hs. induction es as [|e es IH]; [apply yields_ret; by intros ?? ?%elem_of_nil|].
  inversion_clear Hw as [|? ? Hwe Hw']. inversion_clear Hs as [|? ? Hse Hs']. cbn [write_rights].
  eapply yields_bind; [by apply write_right_sealed|]. intros e' He'. eapply yields_bind; [by apply IH|]. intros es' Hes'.
  apply yields_ret. cbn beta in *. intros d m [->|Hd]%elem_of_cons Hm; [by apply He'|by apply (Hes' d)].
Qed.

Lemma write_node_sealed n : written n.
Proof.
  induction n as [l es c ht ld IHl IHes] using Node_ind'. intros Hn. cbn [write_node]. destruct c as [cid|]; [by apply yields_ret|].
  destruct ld; [|by intros ???]. eapply (yields_bind _ _ (fun l' => forall m, l' = Some m -> sealed m /\ n_cid m <> None)).
  { destruct l as [m|]; [|by apply yields_ret]. cbn [write_left]. eapply yields_bind; [apply IHl|].
    - apply (sealed_kids _ _ Hn). apply kids_entries. by left.
    - intros [c m'] [Hm Hc]. apply yields_ret. cbn in *. intros k [= <-]. by rewrite Hc. }
  intros l' Hl'. eapply yields_bind; [apply write_rights_sealed; [done|]|].
  { apply Forall_forall. intros e He. destruct (e_right e) as [m|] eqn:Hm; [|done]. apply (sealed_kids _ _ Hn). apply kids_entries. right. by exists e. }
  intros es' Hes'. eapply yields_bind; [apply yields_any|]. intros data _. eapply yields_bind; [apply yields_any|]. intros _ _.
  apply yields_ret. cbn beta in *. split; [|done].
  assert (Hk : forall m, m ∈ kids (MkNode l' es' (Some (compute Drisl data)) ht true) -> sealed m /\ n_cid m <> None).
  { intros m [Hm|(e & He & Hm)]%kids_entries; [by apply Hl'|by apply (Hes' e)]. }
  constructor; [intros _|]; intros m Hm; by apply Hk.
Qed.
End Write.

(** ** The blocks of a tree that is written *)

Section Blocks.
Context `{Simdutf8Laws} `{Sha2Laws} (known : bytes -> Prop).
Hypothesis known_inj : collision_free known.
Context (l0 : kvs) (Hl0 : map_ok known l0) (P : Z -> kvs -> Prop) (HP : closed P).

(** The block of a piece is that of a node in memory, or that of a piece below
    a stub. *)
Lemma parts_held n h h' s : @shape _ (stubs_of l0 P) h n -> sealed n -> n_cid n <> None ->
  part h (@contents (stubs_of l0 P) n) h' s -> @contents (stubs_of l0 P) n <> [] ->
  cid_of h' s ∈ cids n \/ exists u hu, u ∈ stub_cids n /\ piece_at l0 hu u /\ below_part hu (piece_of l0 u) h' s.
Proof.
  pose proof (stubs_of_laws known known_inj l0 P Hl0 HP) as HL.
  revert h. induction n as [n IH] using Node_kids_ind. intros h Hs Hn Hc Hp Hne.
  destruct (n_cid n) as [c|] eqn:Hcid; [|done]. clear Hc.
  assert (Ht : tree_cid h (@contents (stubs_of l0 P) n) = Some c) by (destruct n; cbn in Hcid |- *; apply Hs; done).
  apply tree_cid_Some in Ht as [_ Hcc].
  assert (Hself : c ∈ cids n) by (destruct n as [? ? ? ? []]; cbn in *; subst; by left).
  destruct (n_loaded n) eqn:Hl.
  - destruct Hp as [|s1 h' s Hs1 Hn1 Hp']; [left; by rewrite <- Hcc|].
    destruct (kids_cut h n s1 Hl Hs Hs1 Hn1) as (m & Hm & <-). destruct (kids_shape h n m Hl Hs Hm) as [Hsm _].
    inversion Hn as [? Hk1 Hk2]; subst. destruct (IH m Hm (h - 1) Hsm (Hk2 m Hm)) as [Hin|(u & hu & Hu & Hat & Hb)]; [|done|done| |].
    + apply Hk1; [by rewrite Hcid|done].
    + left. rewrite cids_kids by done. apply elem_of_app. right. apply elem_of_concat_map. by exists m.
    + right. exists u, hu. split; [|done]. rewrite stub_cids_kids by done. apply elem_of_concat_map. by exists m.
  - destruct Hp as [|s1 h' s Hs1 Hn1 Hp']; [left; by rewrite <- Hcc|]. right. exists c, h.
    destruct n as [lf es cd ht ld]. cbn in Hl, Hcid. subst ld cd. cbn [shape contents stub_cids] in *. destruct Hs as (_ & _ & _ & Hat & _).
    split; [by left|]. split; [done|]. by exists s1.
Qed.

Definition sealed_tree (t : DetachedTree) : Prop := match root t with Some n => sealed n | None => True end.

Lemma tree_parts t l h s : stands l0 P t l -> sealed_tree t -> root_cid t <> None -> map_part l h s ->
  cid_of h s ∈ held t \/ exists u hu, u ∈ tree_stubs t /\ piece_at l0 hu u /\ below_part hu (piece_of l0 u) h s.
Proof.
  pose proof (stubs_of_laws known known_inj l0 P Hl0 HP) as HL.
  intros (_ & _ & _ & _ & Hr) Hsl Hrc Hm. unfold sealed_tree, root_cid, held, tree_stubs in *. destruct (root t) as [n|].
  - destruct Hr as [[Hr Hcon] He]. rewrite He, app_nil_r. cbn [cids_of opt_map].
    destruct (root_ok_shape n Hr) as [(h' & Hs & Hne & Hh & _)|Hem].
    + destruct (@at_height_eq (stubs_of l0 P) h' n) as (Hc1 & Hc2 & Hc3 & Hc4 & _). rewrite <- Hc2, <- Hc3.
      apply (parts_held _ h'); [done| |by rewrite Hc4| |by rewrite Hc1].
      * destruct Hsl as [n0 Hk1 Hk2]. constructor; by destruct n0.
      * rewrite Hc1, Hcon. destruct Hm as [(-> & _)|[_ Hp]]; [by rewrite Hcon in Hne|]. by rewrite Hcon in Hh; subst h'.
    + pose proof (root_empty_contents n Hem) as Hnil. rewrite Hcon in Hnil. subst l. rewrite Hnil in Hm.
      destruct Hm as [(_ & -> & ->)|[? _]]; [|done]. left. destruct Hem as (c & Hcid & Hroot & _).
      apply map_root_part in Hroot as (h & [(_ & -> & _)|[? _]] & <- & _); [|done].
      destruct n as [lf es cd ht []]; cbn in *; subst; by left.
  - destruct Hr as [-> He]. destruct Hm as [(_ & -> & ->)|[? _]]; [|done]. left. destruct (empty_root t) as [c|]; [|done].
    specialize (He c eq_refl). apply map_root_part in He as (h & [(_ & -> & _)|[? _]] & <- & _); [|done]. by left.
Qed.
End Blocks.

(** ** Trees of which more is loaded *)

Section More.
Context `{Simdutf8Laws} `{Sha2Laws} (src : Source).

Definition more (t t' : DetachedTree) : Prop :=
  match root t with Some n => exists n', loaded_more src t n t' n' | None => t' = t end.

Lemma more_refl t : refs_ok t -> more t t.
Proof. intros Hok. unfold more. destruct (root t) as [n|] eqn:Hn; [|done]. exists n. split; [constructor|done]. Qed.

Lemma more_trans t1 t2 t3 : more t1 t2 -> more t2 t3 -> more t1 t3.
Proof.
  unfold more. destruct (root t1) as [n|] eqn:Hn; [|intros ->; by rewrite Hn]. intros (n1 & Hl & -> & _ & Hr & He & Hp) (n2 & Hl2 & Hn2 & Hok & Hr2 & He2 & Hp2).
  exists n2. split_and!; [by etrans|done|done|congruence..].
Qed.

(** The method loads, and does nothing else. *)
Definition only_loads {A} (m : method A) (Q : DetachedTree -> A -> Prop) : Prop := forall t, refs_ok t -> poisoned t = false ->
  let '(r, t') := m t in more t t' /\ match r with Ok a => Q t' a | Err _ => True | Panic => False end.

Lemma more_ok t t' : refs_ok t -> more t t' -> refs_ok t' /\ poisoned t' = poisoned t.
Proof. unfold more. destruct (root t) as [n|]; [|by intros ? ->]. intros _ (n' & _ & _ & ? & _ & _ & ?). done. Qed.

Lemma only_loads_bind {A B} (m : method A) (f : A -> method B) Q R : only_loads m Q ->
  (forall a, (exists t, Q t a) -> only_loads (f a) R) -> only_loads (m ≫= f) R.
Proof.
  intros Hm Hf t Hok Hp. specialize (Hm t Hok Hp). unfold mbind, st_bind. destruct (m t) as [[a|e|] t1]; destruct Hm as [Ht1 Hq]; [|done..].
  destruct (more_ok t t1 Hok Ht1) as [Hok1 Hp1]. rewrite Hp in Hp1. specialize (Hf a ltac:(by exists t1) t1 Hok1 Hp1).
  destruct (f a t1) as [r t2]. destruct Hf as [Ht2 Hr]. split; [by eapply more_trans|done].
Qed.

Lemma only_loads_ret {A} (a : A) (Q : DetachedTree -> A -> Prop) : (forall t, Q t a) -> only_loads (mret a) Q.
Proof. intros Hq t Hok _. split; [by apply more_refl|done]. Qed.

Lemma check_usable_loads Q : (forall t, Q t ()) -> only_loads check_usable Q.
Proof. intros Hq t Hok Hp. unfold check_usable. rewrite Hp. split; [by apply more_refl|done]. Qed.

Lemma on_root_loads {A} (none : A) m Q : (forall n rf, run_ok src ROOT (m n) n rf (fun _ a => Q a)) -> Q none ->
  only_loads (on_root none m) (fun _ a => Q a).
Proof.
  intros Hm Hnone t Hok _. destruct (root t) as [n|] eqn:Hn.
  - pose proof (on_root_run src none m t n _ Hn Hok (Hm n (refs t))) as Hrun. destruct (on_root none m t) as [r t'].
    destruct Hrun as (n' & Hl & Hq). unfold more. rewrite Hn. split; [by exists n'|done].
  - unfold on_root. rewrite Hn. split; [|done]. by apply more_refl.
Qed.

Hypothesis src_no_panic : forall c, no_panic (src c).

Lemma get_loads key : only_loads (MstDetached.get src key) (fun _ _ => True).
Proof.
  unfold MstDetached.get. eapply only_loads_bind; [by apply (check_usable_loads (fun _ _ => True))|]. intros _ _.
  apply on_root_loads; [|done]. intros n rf. eapply run_ok_weaken; [by apply get_node_ok|done].
Qed.

Lemma visit_keys_ok visit keys n rf : run_ok src ROOT (visit_keys src visit keys) n rf (fun _ _ => True).
Proof.
  revert n rf. induction keys as [|key keys IH]; intros n rf; cbn [visit_keys]; [by apply run_ok_ret|]. apply the_node_ok.
  eapply run_ok_bind; [apply visit_key_path_ok; [done|lia]|]. intros n1 rf1 ms _ _.
  eapply run_ok_bind; [apply IH|]. intros n2 rf2 ms' _ _. by apply run_ok_ret.
Qed.

Lemma missing_loads keys visit : only_loads (missing src keys visit) (fun _ _ => True).
Proof.
  unfold missing. eapply only_loads_bind; [by apply (check_usable_loads (fun _ _ => True))|]. intros _ _.
  eapply only_loads_bind; [apply (on_root_loads _ _ (fun _ => True)); [intros n rf; apply visit_keys_ok|done]|]. intros ms _. by apply only_loads_ret.
Qed.

Lemma load_key_path_loads key visit : only_loads (load_key_path src key visit) (fun _ _ => True).
Proof.
  apply on_root_loads; [|done]. intros n rf. eapply run_ok_weaken; [by apply load_key_path_run|done].
Qed.

(** ** [covering_proof] *)

Lemma kids_child n m : m ∈ kids n -> exists i, child n i = Some m.
Proof.
  unfold child. intros [Hm|(e & He & Hm)]%elem_of_kids; [by exists 0%nat|]. apply list_elem_of_lookup in He as [j Hj].
  exists (S j). cbn [slot]. by rewrite Hj.
Qed.

(** How deep a tree may come to be. *)
Definition reaches (n : Node) (at_ : Place) : nat := Nat.max (levels n) (S (S MAX_LEVELS) - p_depth at_).

Lemma levels_kids n k : (levels n <= S k)%nat <-> forall m, m ∈ kids n -> (levels m <= k)%nat.
Proof.
  destruct n as [l es cd h ld]. cbn [levels]. split.
  - intros Hle m [Hm|(e & He & Hm)]%kids_entries; [subst l; lia|].
    assert (Hmax : (list_max (map (fun e : Entry => match e_right e with Some c => levels c | None => 0%nat end) es) <= k)%nat) by lia.
    rewrite list_max_le, List.Forall_map, List.Forall_forall in Hmax. specialize (Hmax e). rewrite <- list_elem_of_In, Hm in Hmax. by apply Hmax.
  - intros Hk. apply le_n_S, Nat.max_lub.
    + destruct l as [m|]; [|lia]. apply Hk, kids_entries. by left.
    + apply list_max_le, List.Forall_map, List.Forall_forall. intros e He%list_elem_of_In. destruct (e_right e) as [m|] eqn:Hm; [|lia].
      apply Hk, kids_entries. right. by exists e.
Qed.

Lemma load_step_reaches at_ n n' : load_step src at_ n n' -> (reaches n' at_ <= reaches n at_)%nat.
Proof.
  unfold reaches. induction 1 as [at_ n n' cid data nd Hl Hcid Hd _ _ Hpop|at_ n i c c' Hl Hc _ IH].
  - assert (Hlev : (levels n' <= 2)%nat).
    { apply levels_kids. intros m Hm. apply kids_child in Hm as [i Hi]. by rewrite (populate_children n nd at_ n' i m Hpop Hi). }
    unfold MAX_LEVELS in *. lia.
  - cbn [child_place p_depth] in IH. pose proof (child_levels n i c Hc) as Hlc.
    destruct (levels n) as [|k] eqn:Hk; [lia|]. assert (Hlev : (levels (set_child n i (Some c')) <= S (Nat.max k (levels c')))%nat).
    { apply levels_kids. intros m [[= ->]|Hm]%kids_set_child; [lia|]. pose proof (proj1 (levels_kids n k) ltac:(lia) m Hm). lia. }
    lia.
Qed.

Lemma loads_reaches at_ n n' : loads src at_ n n' -> (reaches n' at_ <= reaches n at_)%nat.
Proof. induction 1 as [n|n n1 n' Hs _ IH]; [lia|]. apply load_step_reaches in Hs. lia. Qed.

Lemma child_reaches n i c at_ : child n i = Some c -> (reaches c (child_place (n_entries n) i at_) < reaches n at_)%nat.
Proof. intros Hc. pose proof (child_levels n i c Hc). unfold reaches. cbn [child_place p_depth]. lia. Qed.

Definition run_in (k : nat) (r : Slot * nat * nat) : Prop := (r.1.2 <= r.2 <= k)%nat.

Lemma add_run_in runs slot k : Forall (run_in k) runs -> Forall (run_in (S k)) (add_run runs slot k).
Proof.
  intros Hr. assert (Hw : Forall (run_in (S k)) runs) by (eapply Forall_impl; [exact Hr|]; unfold run_in; lia).
  assert (Hnew : Forall (run_in (S k)) (runs ++ [(slot, k, S k)])).
  { apply Forall_app. split; [done|]. repeat constructor; cbn; lia. }
  unfold add_run. destruct (last runs) as [[[s start] e]|] eqn:Hlast; [|done]. case_bool_decide; [|done].
  apply last_Some in Hlast as [l' ->]. apply Forall_app in Hr as [_ He], Hw as [Hl _]. rewrite removelast_last.
  apply Forall_app. split; [done|]. inversion_clear He as [|? ? He' _]. unfold run_in in He'. cbn in He'. repeat constructor; cbn; lia.
Qed.

Lemma proof_runs_in step n keys k included runs : Forall (run_in k) runs ->
  Forall (run_in (k + length keys)) (proof_runs step n keys k included runs).2.
Proof.
  revert k included runs. induction keys as [|key keys IH]; intros k included runs Hr; cbn [proof_runs length].
  { by rewrite Nat.add_0_r. }
  destruct (step n key) as [include next]. rewrite <- Nat.add_succ_comm. apply IH.
  assert (Hw : Forall (run_in (S k)) runs) by (eapply Forall_impl; [exact Hr|]; unfold run_in; lia).
  destruct next as [[]|]; [by apply add_run_in|done|by apply add_run_in|done].
Qed.

Lemma walk_ok_loads {S A} at_ (m : st (Node * Refs * S) MstError A) n rf s Q : walk_ok src at_ m n rf s Q ->
  walk_ok src at_ m n rf s (fun n' s' a => loads src at_ n n' /\ Q n' s' a).
Proof. unfold walk_ok. destruct (m (n, rf, s)) as [[a|e|] [[n' rf'] s']]; intros (Hl & Hk & Hq); split_and!; done. Qed.

Lemma walk_ok_any {S A} at_ (m : st (Node * Refs * S) MstError A) n rf s (Q R : Node -> S -> A -> Prop) : walk_ok src at_ m n rf s Q ->
  (forall n' s' a, Q n' s' a -> R n' s' a) -> walk_ok src at_ m n rf s R.
Proof. unfold walk_ok. destruct (m (n, rf, s)) as [[a|e|] [[n' rf'] s']]; intros (Hl & Hk & Hq) Hw; split_and!; auto. Qed.

(** Nodes in memory keep their CIDs. *)
Lemma load_step_count at_ n n' c : load_step src at_ n n' -> (count c (cids n) <= count c (cids n'))%nat.
Proof.
  induction 1 as [at_ n n' cid data nd Hl _ _ _ _ Hpop|at_ n i m m' Hl Hm _ IH].
  - pose proof (populate_cids n nd at_ n' Hl Hpop) as Hp. rewrite perm_count in Hp. specialize (Hp c). rewrite count_app in Hp. lia.
  - pose proof (cids_set_child n i (Some m') Hl (child_le n i m Hm)) as Hp. rewrite Hm in Hp. cbn [cids_of opt_map] in Hp.
    rewrite perm_count in Hp. specialize (Hp c). rewrite !count_app in Hp. lia.
Qed.

Lemma loads_cids at_ n n' c : loads src at_ n n' -> c ∈ cids n -> c ∈ cids n'.
Proof.
  rewrite <- !count_in. induction 1 as [n|n n1 n' Hs _ IH]; [done|]. intros Hc. apply IH. pose proof (load_step_count _ _ _ c Hs). lia.
Qed.

Lemma n_cid_in n c : n_cid n = Some c -> c ∈ cids n.
Proof. destruct n as [l es cd h []]; cbn; intros ->; by left. Qed.

(** A loop that keeps what holds of the node and the state. *)
Lemma walk_for_each {S A} at_ (f : A -> st (Node * Refs * S) MstError ()) l (I : Node -> S -> Prop) n rf s : I n s ->
  (forall a n rf s, a ∈ l -> I n s -> walk_ok src at_ (f a) n rf s (fun n' s' _ => I n' s')) ->
  walk_ok src at_ (for_each f l) n rf s (fun n' s' _ => I n' s').
Proof.
  revert n rf s. induction l as [|a l IH]; intros n rf s Hn Hf; cbn [for_each]; [by apply walk_ok_stay|].
  eapply walk_ok_bind; [apply Hf; [by left|done]|]. intros n' rf' s' [] Hn'. apply IH; [done|]. intros b n2 rf2 s2 Hb. apply Hf. by right.
Qed.

(** What a pass adds are the CIDs of nodes in memory. *)
Definition found_in (out : list Cid) (n' : Node) (out' : list Cid) : Prop := forall c, c ∈ out' -> c ∈ out \/ c ∈ cids n'.

Lemma found_in_loads at_ out n out1 n' : loads src at_ n n' -> found_in out n out1 -> found_in out n' out1.
Proof. intros Hl Hf c Hc. destruct (Hf c Hc) as [?|Hn]; [by left|right]. by eapply loads_cids. Qed.

Lemma found_in_trans at_ out n1 out1 n2 out2 : loads src at_ n1 n2 -> found_in out n1 out1 -> found_in out1 n2 out2 -> found_in out n2 out2.
Proof. intros Hl Hf1 Hf2 c Hc. destruct (Hf2 c Hc) as [Hc1|?]; [|by right]. by eapply found_in_loads. Qed.

Lemma cids_in_child n i c x : n_loaded n = true -> child n i = Some c -> x ∈ cids c -> x ∈ cids n.
Proof.
  intros Hl Hc Hx. rewrite cids_kids by done. apply elem_of_app. right. apply elem_of_concat_map. exists c. split; [by eapply child_kids|done].
Qed.

Lemma proof_pass_ok step fuel keys at_ n rf out : (reaches n at_ <= fuel)%nat ->
  walk_ok src at_ (proof_pass fuel src keys step at_) n rf out (fun n' out' _ => found_in out n' out').
Proof.
  revert keys at_ n rf out. induction fuel as [|fuel IH]; intros keys at_ n rf out Hf; [unfold reaches in Hf; destruct n; cbn in Hf; lia|].
  cbn [proof_pass]. eapply walk_ok_bind; [apply walk_ok_loads, on_tree_ok, ensure_loaded_ok; done|].
  intros n1 rf1 s1 [] (Hl1%loads_reaches & -> & Hld & _).
  eapply (walk_ok_bind _ _ _ _ _ _ _ (fun n' s' a => n' = n1 /\ s' = out /\ a = n1)); [by apply walk_ok_stay|]. intros ? rf2 s2 ? (-> & -> & ->).
  pose proof (proof_runs_in step n1 keys 0 false [] ltac:(constructor)) as Hruns. destruct (proof_runs step n1 keys 0 false []) as [included runs].
  cbn [snd Nat.add] in Hruns. eapply (walk_ok_bind _ _ _ _ _ _ _ (fun n' s' _ => n' = n1 /\ found_in out n1 s')).
  { destruct included; [|apply walk_ok_stay; split; [done|by left]]. destruct (n_cid n1) as [cid|] eqn:Hcid; [|by apply walk_ok_stay].
    split; [constructor|split; [apply kept_refl|]]. split; [done|]. intros c [Hc|Hc%list_elem_of_singleton]%elem_of_app; [by left|right].
    subst c. by apply n_cid_in. }
  intros ? rf3 s3 [] [-> H3]. eapply walk_ok_any.
  { apply (walk_for_each at_ _ runs (fun n' s' => n_loaded n' = true /\ map e_key (n_entries n') = map e_key (n_entries n1) /\
      (reaches n' at_ <= Datatypes.S fuel)%nat /\ found_in out n' s')); [split_and!; [done..|lia|done]|].
    intros [[slot start] end_] m rfm sm Hin (Hlm & Hkm & Hrm & Hfm). apply (proj1 (Forall_forall _ _) Hruns) in Hin as [Hse Hek]. cbn in Hse, Hek.
    destruct (slot_subtree slot) as [i|]; [|by apply walk_ok_stay]. eapply walk_ok_any.
    { apply walk_ok_loads, (on_child_walk_ok src at_ i _ m rfm sm (fun m' s' _ => n_loaded m' = true /\
        map e_key (n_entries m') = map e_key (n_entries n1) /\ found_in sm m' s')); [done| |].
      { intros _. split; [done|]. split; [done|]. by left. }
      intros c Hc. pose proof (child_reaches m i c at_ Hc). rewrite slice_Ok by done.
      rewrite (child_place_keys (n_entries m) (n_entries n1)) in * by done. eapply walk_ok_any; [apply IH; lia|].
      intros c' s' [] Hfc. rewrite set_child_loaded, set_child_keys. split; [done|]. split; [done|]. intros x Hx.
      destruct (Hfc x Hx) as [?|Hin]; [by left|right]. eapply (cids_in_child _ i c'); [by rewrite set_child_loaded| |done].
      apply child_set_child. by eapply child_le. }
    intros m' s' [] (Hl & Hlm' & Hkm' & Hfm'). pose proof (loads_reaches _ _ _ Hl). split_and!; [done..|lia|]. by eapply found_in_trans. }
  intros n' s' [] (_ & _ & _ & Hf'). done.
Qed.

Lemma proof_passes_loads keys : only_loads (proof_passes src keys) (fun t' out => forall c, c ∈ out -> c ∈ held t' \/ map_root [] = Some c).
Proof.
  intros t Hok _. unfold proof_passes. destruct (root t) as [n|] eqn:Hn.
  - set (m := for_each _ _). assert (Hm : walk_ok src ROOT m n (refs t) [] (fun n' out _ => found_in [] n' out)).
    { eapply walk_ok_any; [apply (walk_for_each ROOT _ _ (fun n' out => found_in [] n' out))|done].
      - intros c Hc. by apply elem_of_nil in Hc.
      - intros step n1 rf1 s1 _ Hs1. eapply (walk_ok_bind _ _ _ _ _ _ _ (fun n' s' a => n' = n1 /\ s' = s1 /\ a = n1)); [by apply walk_ok_stay|].
        intros ? rf2 ? ? (-> & -> & ->). eapply walk_ok_any.
        + apply walk_ok_loads, proof_pass_ok. unfold reaches, load_fuel. lia.
        + intros n' s' [] (Hl & Hf). by eapply found_in_trans. }
    unfold walk_ok in Hm. destruct (m (n, refs t, [])) as [r [[n' rf'] out]]. destruct Hm as (Hl & Hk & Hq).
    set (t' := set_refs rf' (set_root (Some n') t)).
    assert (Hmore : more t t') by (unfold more; rewrite Hn; exists n'; split_and!; try done; by eapply refs_ok_loaded).
    destruct r as [[]|e|]; [|done..]. split; [done|]. intros c Hc. left. destruct (Hq c Hc) as [Hnil|Hin]; [by apply elem_of_nil in Hnil|].
    unfold held. cbn. apply elem_of_app. by left.
  - destruct empty_node_block_ok as (c & d & -> & Hc & _). split; [by apply more_refl|].
    intros x ->%list_elem_of_singleton. by right.
Qed.

Lemma elem_of_dedup `{EqDecision A} (l : list A) a : a ∈ dedup l -> a ∈ l.
Proof.
  induction l as [|x l IH]; [done|]. cbn [dedup]. destruct l as [|y l]; [done|]. case_bool_decide; [right; auto|].
  intros [->|?]%elem_of_cons; [by left|right; auto].
Qed.

Lemma covering_proof_loads keys : only_loads (covering_proof src keys) (fun t' out => forall c, c ∈ out -> c ∈ held t' \/ map_root [] = Some c).
Proof.
  unfold covering_proof. eapply only_loads_bind; [by apply (check_usable_loads (fun _ _ => True))|]. intros _ _. case_bool_decide.
  { apply only_loads_ret. by intros t c ?%elem_of_nil. }
  intros t Hok Hp. pose proof (proof_passes_loads (dedup (sort_keys keys)) t Hok Hp) as Hpass. unfold mbind, st_bind.
  destruct (proof_passes src _ t) as [[out|e|] t']; destruct Hpass as [Hm Hq]; [|done..]. split; [done|].
  intros c Hc%elem_of_dedup. unfold sort_cids in Hc. rewrite merge_sort_Permutation in Hc. by apply Hq.
Qed.
End More.
