(* ===== verification/MstBacked.v ===== *)
(** Trees whose stubs are in storage: loading keeps them so, and so does every
    change of what storage holds that a flush asks for. *)
From S2P Require Import Prelude StateError SyntaxError CborError Cid CborDecode CborCodec MstHeight SortedMap MstNode MstTree MstShape.
From S2P Require Import MstMutate MstRemove MstFlush MstLoad MstLoadSpec MstLoaded MstDetached MstProof MstDetachedSpec MstFlushed MstPieces MstStored.

Section Stubs.
Context `{Simdutf8Laws} `{Sha2Laws} (known : bytes -> Prop).
Hypothesis known_inj : collision_free known.
Context (l0 : kvs) (Hl0 : map_ok known l0) (src : Source) (Hsrc : serves src l0).
Implicit Types P : Z -> kvs -> Prop.

(** [c] is the CID of a piece of the map in [P]. *)
Definition stub_in P (c : Cid) : Prop := exists h, piece_at l0 h c /\ P h (piece_of l0 c).

Lemma stub_in_cid P h s : map_part l0 h s -> P h s -> stub_in P (cid_of h s).
Proof. intros Hm HP. exists h. rewrite (piece_of_cid known known_inj) by done. split; [by eapply piece_at_cid|done]. Qed.

Lemma compress_rights prev es : omap data_right (compress prev es) = omap snd es.
Proof. revert prev. induction es as [|[[k v] [c|]] es IH]; intros prev; cbn; [done| |]; by rewrite <- (IH k). Qed.

Lemma map_part_nonneg l h s : map_part l h s -> 0 <= h.
Proof.
  intros Hm. pose proof (map_part_low _ _ _ Hm) as Hl. destruct Hm as [(_ & -> & _)|[Hn Hp]]; [done|].
  apply (low_nonneg h s Hl). by eapply part_nonempty.
Qed.

(** The links of a piece's block. *)
Lemma children_link h s c : map_part l0 h s -> c ∈ children (list_node h s) -> exists s', s' ∈ cuts h s /\ s' <> [] /\ c = cid_of (h - 1) s'.
Proof.
  intros Hm. pose proof (map_part_nonneg _ _ _ Hm) as Hh. pose proof (map_part_low _ _ _ Hm) as Hl.
  assert (Hlink : forall s', s' ∈ cuts h s -> link h s' = Some c -> exists s', s' ∈ cuts h s /\ s' <> [] /\ c = cid_of (h - 1) s').
  { intros s' Hs'. rewrite link_eq by (done || by eapply cuts_low). case_decide; [done|]. intros [= <-]. by exists s'. }
  unfold children, list_node, link in *. unfold cuts in *. destruct (cut_levels h s) as [pre segs]. cbn [fst snd data_left data_entries] in *.
  rewrite compress_rights. intros [Hc|Hc]%elem_of_app.
  - apply (Hlink pre); [by left|]. destruct (tree_cid_at _ _ pre) as [c'|]; cbn in Hc; [|by apply elem_of_nil in Hc].
    by apply list_elem_of_singleton in Hc as ->.
  - apply list_elem_of_omap in Hc as (x & Hx & Hc). apply list_elem_of_In, in_map_iff in Hx as (y & <- & Hy%list_elem_of_In).
    apply (Hlink y.2); [right; by apply list_elem_of_fmap_2|done].
Qed.

Lemma populate_stubs n nd at_ n' c : populate_node n nd at_ = Ok n' -> c ∈ stub_cids n' -> c ∈ children nd.
Proof.
  intros (keys & Hk & _ & ->)%populate_node_Ok. cbn zeta. set (h := match head keys with Some _ => _ | None => _ end). clearbody h.
  apply for_each_key_from_data in Hk. rewrite stub_cids_kids by done. intros (m & Hm & Hc)%elem_of_concat_map. unfold children. rewrite elem_of_app.
  apply kids_entries in Hm as [Hm|(e & He & Hm)].
  - left. destruct (data_left nd); [|done]. injection Hm as <-. done.
  - right. apply list_elem_of_In, in_map_iff in He as ([ed k] & <- & Hin%list_elem_of_In). cbn in Hm.
    apply list_elem_of_omap. exists ed. split; [rewrite <- Hk; apply list_elem_of_In, in_map_iff; exists (ed, k); by rewrite <- list_elem_of_In|].
    destruct (data_right ed); [|done]. injection Hm as <-. cbn in Hc. by apply list_elem_of_singleton in Hc as ->.
Qed.

Lemma load_step_in P at_ n n' : closed P -> load_step src at_ n n' -> (forall u, u ∈ stub_cids n -> stub_in P u) ->
  (forall u, u ∈ stub_cids n' -> stub_in P u) /\ (forall c, c ∈ cids n' -> c ∈ cids n \/ stub_in P c).
Proof.
  intros HP. induction 1 as [at_ n n' cid data nd Hl Hcid Hd Hdat Hdec Hpop|at_ n i m m' Hl Hm _ IH]; intros Hst.
  - assert (Hu : cid ∈ stub_cids n) by (destruct n; cbn in *; subst; by left). destruct (Hst cid Hu) as (h & [Hmp Hc] & HPh).
    assert (Hch : forall c, c ∈ children nd -> stub_in P c).
    { rewrite <- Hc in Hdat. rewrite (Hsrc _ _ _ Hmp Hdat), (readable_decode known) in Hdec by (by apply Hl0). injection Hdec as <-.
      intros c (s' & Hs' & Hne & ->)%children_link; [|done]. apply stub_in_cid; [by eapply map_part_cut|by eapply HP]. }
    split; [intros u Hu'; eapply Hch, populate_stubs; done|]. intros c Hcin. rewrite (populate_cids n nd at_ n' Hl Hpop) in Hcin.
    apply elem_of_app in Hcin as [?|?]; [by left|right; auto].
  - assert (Hmk : m ∈ kids n) by (by eapply child_kids). destruct IH as [IHs IHc].
    { intros u Hu. apply Hst. rewrite stub_cids_kids by done. apply elem_of_concat_map. by exists m. }
    assert (Hl' : n_loaded (set_child n i (Some m')) = true) by (by rewrite set_child_loaded). split.
    + intros u Hu. rewrite stub_cids_kids in Hu by done. apply elem_of_concat_map in Hu as (k & Hk & Hu).
      apply kids_set_child in Hk as [[= ->]|Hk]; [auto|]. apply Hst. rewrite stub_cids_kids by done. apply elem_of_concat_map. by exists k.
    + intros c Hc. rewrite cids_kids in Hc by done. rewrite cids_kids by done. rewrite (proj1 (set_child_fields n i (Some m'))) in Hc.
      rewrite elem_of_app in Hc |- *. destruct Hc as [Hc|(k & Hk & Hc)%elem_of_concat_map]; [by left; left|].
      apply kids_set_child in Hk as [[= ->]|Hk].
      * destruct (IHc c Hc) as [?|?]; [|by right]. left. right. apply elem_of_concat_map. by exists m.
      * left. right. apply elem_of_concat_map. by exists k.
Qed.

Lemma loads_in P at_ n n' : closed P -> loads src at_ n n' -> (forall u, u ∈ stub_cids n -> stub_in P u) ->
  (forall c, c ∈ cids n' -> c ∈ cids n \/ stub_in P c).
Proof.
  intros HP. induction 1 as [n|n n1 n' Hs _ IH]; intros Hst c Hc; [by left|].
  destruct (load_step_in P at_ n n1 HP Hs Hst) as [Hst1 Hc1]. destruct (IH Hst1 c Hc) as [Hin|?]; [auto|by right].
Qed.
End Stubs.

(** ** What storage has to hold *)

Section Backed.
Context `{Simdutf8Laws} `{Sha2Laws} (known : bytes -> Prop).
Hypothesis known_inj : collision_free known.
Implicit Types (l : kvs) (X : Cid -> Prop).

(** The CID of a node. *)
Definition node_cid_ok (c : Cid) : Prop := exists nd, readable known nd /\ c = compute Drisl (node_block nd).

(** The blocks under the stubs and those of the CIDs that are counted are in
    storage, and none of the latter is below a stub. *)
Record backed X (l0 : kvs) (t : DetachedTree) l : Prop := {
  backed_stubs : stands l0 (within X) t l;
  backed_sealed : sealed_tree t;
  backed_apart c : is_Some (refs t !! c) -> stands l0 (apart c) t l;
  backed_refs c : is_Some (refs t !! c) -> X c;
  backed_nodes c : is_Some (refs t !! c) -> node_cid_ok c
}.

Lemma backed_weaken X X' l0 t l : (forall c, X c -> X' c) -> map_ok known l0 -> backed X l0 t l -> backed X' l0 t l.
Proof.
  intros HX Hl0 [Hst Hse Hap Hre Hno]. split; [|done|done|auto|done].
  apply (stands_change known known_inj l0 Hl0 (within X)); [|apply within_closed|done]. intros u h _ _ Hw h2 s2 Hp. by apply HX, Hw.
Qed.

Lemma map_part_node l h s : map_ok known l -> map_part l h s -> node_cid_ok (cid_of h s).
Proof. intros Hl Hm. exists (list_node h s). split; [by apply Hl|done]. Qed.

Lemma held_node (l0 : kvs) P t l c : map_ok known l0 -> map_ok known l -> closed P -> stands l0 P t l -> c ∈ held t -> node_cid_ok c.
Proof.
  intros Hl0 Hl HP Ht Hc. destruct (tree_held_part known known_inj l0 Hl0 P t l c HP Ht Hc) as (h & s & Hm & <-). by apply (map_part_node l).
Qed.

(** *** Loading *)

Section Loading.
Context (l0 : kvs) (Hl0 : map_ok known l0) (src : Source) (Hsrc : serves src l0).

Lemma more_stands P t t' l : closed P -> stands l0 P t l -> more src t t' -> stands l0 P t' l.
Proof.
  intros HP Ht. unfold more. destruct (root t) as [n|] eqn:Hn; [|by intros ->]. intros (n' & Hm).
  pose proof (stubs_of_laws known known_inj l0 P Hl0 HP) as HL. refine (stands_for_loaded (H3 := stubs_of l0 P) src _ t t' n n' l Ht Hn Hm).
  by apply (serves_faithful known).
Qed.

Lemma more_held P t t' l c : closed P -> stands l0 P t l -> more src t t' -> c ∈ held t' -> c ∈ held t \/ stub_in l0 P c.
Proof.
  intros HP Ht. unfold more, held. destruct (root t) as [n|] eqn:Hn; [|intros ->; rewrite Hn; by left].
  intros (n' & Hl & Hn' & _ & _ & He & _). rewrite Hn', He, !elem_of_app. intros [Hc|?]; [|by left; right]. cbn [cids_of opt_map] in *.
  destruct (loads_in known known_inj l0 Hl0 src Hsrc P ROOT n n' HP Hl) with (c := c) as [?|?]; [|done|by left; left|by right].
  intros u Hu. destruct (tree_stub_part known known_inj l0 Hl0 P t l u HP Ht) as (h & _ & Hat & HPh); [|by exists h].
  unfold tree_stubs. by rewrite Hn.
Qed.

Lemma more_sealed t t' : more src t t' -> sealed_tree t -> sealed_tree t'.
Proof.
  unfold more, sealed_tree. destruct (root t) as [n|] eqn:Hn; [|intros ->; by rewrite Hn].
  intros (n' & Hl & -> & _) Hs. by eapply loads_sealed.
Qed.

Lemma more_released t t' : more src t t' -> released t' = released t.
Proof. unfold more. destruct (root t); [by intros (? & _ & _ & _ & ? & _)|by intros ->]. Qed.

Lemma backed_more X t t' l : map_ok known l -> backed X l0 t l -> more src t t' -> backed X l0 t' l.
Proof.
  intros Hl [Hst Hse Hap Hre Hno] Hm. pose proof (within_closed X) as HX.
  assert (Hst' : stands l0 (within X) t' l) by (by eapply more_stands).
  assert (Hok : refs_ok t) by apply Hst. destruct (more_ok src t t' Hok Hm) as [Hok' _].
  pose proof (more_released t t' Hm) as Hrel.
  assert (Hsplit : forall c, is_Some (refs t' !! c) -> c ∈ held t' \/ is_Some (refs t !! c)).
  { intros c. rewrite !refs_ok_dom by done. rewrite Hrel. intros Hc. destruct (decide (c ∈ held t')) as [|Hni]; [by left|right].
    rewrite <- count_in in Hni. lia. }
  split; [done|by eapply more_sealed|..]; intros c [Hc|Hc]%Hsplit.
  - by eapply (tree_stub_apart known).
  - eapply more_stands; [by apply apart_closed|by apply Hap|done].
  - destruct (more_held (within X) t t' l c HX Hst Hm Hc) as [Hin|(h & [_ Hcc] & Hw)]; [|rewrite <- Hcc; apply Hw; constructor].
    apply Hre, refs_ok_dom; [done|]. apply count_in in Hin. lia.
  - by apply Hre.
  - exact (held_node l0 _ t' l c Hl0 Hl HX Hst' Hc).
  - by apply Hno.
Qed.
End Loading.

(** *** Changes *)

Section Changes.
Context (l0 : kvs) (Hl0 : map_ok known l0).

Lemma no_blocks_faithful `{!Stubs} : faithful NoBlocks.
Proof. by intros h c data _ [=]. Qed.

Lemma insert_rest_stands P t l key v : closed P -> stands l0 P t l -> is_valid_key key = true -> path_visited key Lookup t ->
  exists t', insert_rest key v (SortedMap.get key l) t = (Ok (SortedMap.get key l), t') /\ stands l0 P t' (upsert key v l) /\ refs t' = refs t.
Proof.
  intros HP. pose proof (stubs_of_laws known known_inj l0 P Hl0 HP) as HL.
  apply (insert_rest_stands_for (H3 := stubs_of l0 P) NoBlocks); [done|apply no_blocks_faithful].
Qed.

Lemma remove_rest_stands P t l key : closed P -> stands l0 P t l -> path_visited key Remove t ->
  exists t', remove_rest key (SortedMap.get key l) t = (Ok (SortedMap.get key l), t') /\ stands l0 P t' (without key l) /\ refs t' = refs t.
Proof.
  intros HP. pose proof (stubs_of_laws known known_inj l0 P Hl0 HP) as HL.
  exact (remove_rest_stands_for (H3 := stubs_of l0 P) t l key).
Qed.

Lemma flush_stands P t l : closed P -> stands l0 P t l ->
  exists w t', flush t = (Ok w, t') /\ map_root l = Some (w_root w) /\ stands l0 P t' l /\ root_cid t' = Some (w_root w) /\
    released t' = [] /\ accounts (refs t) (refs t') w /\ Forall (map_block l) (new_blocks w).
Proof.
  intros HP Ht. pose proof (stubs_of_laws known known_inj l0 P Hl0 HP) as HL.
  destruct (flush_stands_for (H3 := stubs_of l0 P) t l Ht) as (w & t' & Hrun & Hf). exists w, t'. split; [done|]. exact Hf.
Qed.

End Changes.

(** Changes keep the trees sealed. *)
Lemma poisoning_Ok {A} (m : method A) t a t' : poisoning m t = (Ok a, t') -> m t = (Ok a, t').
Proof. unfold poisoning. by destruct (m t) as [[]]. Qed.

Lemma mutate_yields {A} (m : mut A) (Q : A -> Prop) t a t' : yields m Q -> mutate m t = (Ok a, t') -> Q a /\ root t' = root t.
Proof. intros Hm. unfold mutate. destruct (m (released t)) as [r rel] eqn:Hr. intros [= -> <-]. split; [by eapply Hm|done]. Qed.

Lemma insert_rest_sealed key v prev t a t' : sealed_tree t -> insert_rest key v prev t = (Ok a, t') -> sealed_tree t'.
Proof.
  unfold sealed_tree, insert_rest. intros Hs. case_bool_decide; [by intros [_ <-]%st_ret_Ok|]. destruct prev as [w|].
  - intros (x & t1 & Hrun%poisoning_Ok & [_ <-]%st_ret_Ok)%st_bind_Ok. cbn beta in Hrun. destruct (root t) as [n|]; [|done].
    apply st_bind_Ok in Hrun as (n' & t2 & Hm & Hset). apply st_modify_Ok in Hset as <-.
    exact (proj1 (mutate_yields _ sealed _ _ _ (update_node_sealed _ n key v Hs) Hm)).
  - cbn zeta. intros (r & t1 & [Hr <-]%st_gets_Ok & Hrun)%st_bind_Ok. apply st_bind_Ok in Hrun as ([] & t2 & _ & Hrun).
    apply st_bind_Ok in Hrun as ([] & t3 & _ & Hrun). apply st_bind_Ok in Hrun as (n & t4 & Hm%poisoning_Ok & Hrun).
    apply st_bind_Ok in Hrun as ([] & t5 & Hset & [_ <-]%st_ret_Ok). apply st_modify_Ok in Hset as <-.
    refine (proj1 (mutate_yields _ sealed _ _ _ (insert_node_sealed _ r key v _ _) Hm)). rewrite <- Hr. exact Hs.
Qed.

Lemma remove_rest_sealed key found t a t' : sealed_tree t -> remove_rest key found t = (Ok a, t') -> sealed_tree t'.
Proof.
  unfold sealed_tree, remove_rest. intros Hs. case_bool_decide; [by intros [_ <-]%st_ret_Ok|].
  intros (r & t1 & [Hr <-]%st_gets_Ok & Hrun)%st_bind_Ok. subst r. destruct (root t) as [n|] eqn:Hn; [|apply st_ret_Ok in Hrun as [_ <-]; by rewrite Hn].
  apply st_bind_Ok in Hrun as ([] & t2 & _ & Hrun). apply st_bind_Ok in Hrun as ([o removed] & t3 & Hm%poisoning_Ok & Hrun).
  apply st_bind_Ok in Hrun as ([] & t4 & Hset & [_ <-]%st_ret_Ok). apply st_modify_Ok in Hset as <-. cbn.
  exact (proj1 (mutate_yields _ _ _ _ _ (remove_from_root_sealed n key Hs) Hm)).
Qed.

Lemma flush_sealed t w t' : sealed_tree t -> flush t = (Ok w, t') -> sealed_tree t'.
Proof.
  intros Hs. unfold flush. intros ([] & t1 & Hu & Hrun)%st_bind_Ok. assert (t1 = t) as ->.
  { unfold check_usable in Hu. destruct (poisoned t); [done|by injection Hu]. }
  apply st_bind_Ok in Hrun as ([r blocks] & t2 & Hw%poisoning_Ok & Hrun). apply st_bind_Ok in Hrun as ([] & t3 & He & Hset%poisoning_Ok).
  apply st_modify_Ok in He. assert (Hroot3 : root t3 = root t2) by (rewrite <- He; by case_bool_decide).
  assert (Hroot : root t' = root t3).
  { unfold settle in Hset. destruct (release _ _) as [[[]|e|] rf]; [|done..]. destruct (retain_new _ _), (retire _ _). by injection Hset as _ <-. }
  unfold sealed_tree in *. rewrite Hroot, Hroot3. unfold write_root in Hw. destruct (root t) as [n|] eqn:Hn.
  - destruct (write_node n []) as [[[c n']|e|] out] eqn:Hwn; [|done..]. injection Hw as _ _ <-. cbn.
    exact (proj1 (write_node_sealed n Hs [] (c, n') out Hwn)).
  - destruct empty_node_block as [[c d]|e|]; [|done..]. injection Hw as _ _ <-. cbn. by rewrite Hn.
Qed.

(** *** The three together *)

Section Together.
Context (l0 : kvs) (Hl0 : map_ok known l0).

Lemma backed_insert X t l key v : backed X l0 t l -> is_valid_key key = true -> path_visited key Lookup t ->
  exists t', insert_rest key v (SortedMap.get key l) t = (Ok (SortedMap.get key l), t') /\ backed X l0 t' (upsert key v l).
Proof.
  intros [Hst Hse Hap Hre Hno] Hkey Hvis. pose proof (insert_rest_stands l0 Hl0) as Hins.
  destruct (Hins _ t l key v (within_closed X) Hst Hkey Hvis) as (t' & Hrun & Hst' & Href). exists t'. split; [done|]. split.
  - done.
  - by eapply insert_rest_sealed.
  - intros c Hc. rewrite Href in Hc. destruct (Hins _ t l key v (apart_closed c) (Hap c Hc) Hkey Hvis) as (t2 & Hrun2 & Hst2 & _).
    rewrite Hrun in Hrun2. by injection Hrun2 as <-.
  - intros c. rewrite Href. apply Hre.
  - intros c. rewrite Href. apply Hno.
Qed.

Lemma backed_remove X t l key : backed X l0 t l -> path_visited key Remove t ->
  exists t', remove_rest key (SortedMap.get key l) t = (Ok (SortedMap.get key l), t') /\ backed X l0 t' (without key l).
Proof.
  intros [Hst Hse Hap Hre Hno] Hvis. pose proof (remove_rest_stands l0 Hl0) as Hrem.
  destruct (Hrem _ t l key (within_closed X) Hst Hvis) as (t' & Hrun & Hst' & Href). exists t'. split; [done|]. split.
  - done.
  - by eapply remove_rest_sealed.
  - intros c Hc. rewrite Href in Hc. destruct (Hrem _ t l key (apart_closed c) (Hap c Hc) Hvis) as (t2 & Hrun2 & Hst2 & _).
    rewrite Hrun in Hrun2. by injection Hrun2 as <-.
  - intros c. rewrite Href. apply Hre.
  - intros c. rewrite Href. apply Hno.
Qed.

Lemma stub_cids_held n c : c ∈ stub_cids n -> c ∈ cids n.
Proof.
  induction n as [n IH] using Node_kids_ind. intros Hc. destruct (n_loaded n) eqn:Hl.
  - rewrite stub_cids_kids in Hc by done. apply elem_of_concat_map in Hc as (m & Hm & Hc). rewrite cids_kids by done.
    apply elem_of_app. right. apply elem_of_concat_map. exists m. split; [done|by apply IH].
  - destruct n as [l es cd h ld]. cbn in *. subst ld. by rewrite app_nil_r.
Qed.

Lemma tree_stubs_held t c : c ∈ tree_stubs t -> c ∈ held t.
Proof. unfold tree_stubs, held. destruct (root t); [|by intros ?%elem_of_nil]. intros Hc%stub_cids_held. apply elem_of_app. by left. Qed.

Lemma piece_at_height h h' u : piece_at l0 h u -> piece_at l0 h' u -> h = h'.
Proof.
  intros [Hm Hc] [Hm' Hc']. by destruct (map_part_inj known known_inj l0 l0 h h' _ _ Hl0 Hl0 Hm Hm' (eq_trans Hc (eq_sym Hc'))).
Qed.

(** What is known of a stub, at the height at hand. *)
Lemma stub_holds P t l u h : closed P -> stands l0 P t l -> u ∈ tree_stubs t -> piece_at l0 h u -> P h (piece_of l0 u).
Proof.
  intros HP Ht Hu Hat. destruct (tree_stub_part known known_inj l0 Hl0 P t l u HP Ht Hu) as (h' & _ & Hat' & HPh).
  by rewrite (piece_at_height h h' u Hat Hat').
Qed.

(** What storage holds once it has what a flush returns. *)
Definition after (w : TreeWrite) X (c : Cid) : Prop := c ∈ (new_blocks w).*1 \/ (X c /\ c ∉ retired w).

Lemma part_cases h l h' s : part h l h' s -> (h' = h /\ s = l) \/ below_part h l h' s.
Proof. intros [|s1 h2 s2 Hs Hne Hp]; [by left|right]. by exists s1. Qed.

Lemma backed_flush X t l : map_ok known l -> backed X l0 t l ->
  exists w t', flush t = (Ok w, t') /\ map_root l = Some (w_root w) /\ root_cid t' = Some (w_root w) /\ backed (after w X) l0 t' l /\
    (forall h s, map_part l h s -> after w X (cid_of h s)) /\ Forall (map_block l) (new_blocks w) /\ accounts (refs t) (refs t') w /\ released t' = [].
Proof.
  intros Hl [Hst Hse Hap Hre Hno]. pose proof (flush_stands l0 Hl0) as Hfl.
  destruct (Hfl _ t l (within_closed X) Hst) as (w & t' & Hrun & Hroot & Hst' & Hcid & Hrel & Hacc & Hb).
  assert (Hok : refs_ok t') by apply Hst'. pose proof Hacc as (Hnew & _ & Hret & _ & _).
  assert (Hheld : forall c, is_Some (refs t' !! c) <-> c ∈ held t').
  { intros c. rewrite refs_ok_dom by done. rewrite Hrel, <- count_in. cbn. lia. }
  assert (Hrefs : forall c, is_Some (refs t' !! c) -> after w X c).
  { intros c Hc. destruct (refs t !! c) as [k|] eqn:Hk; [right|left; by apply Hnew]. split; [by apply Hre|].
    intros [_ Hnone]%Hret. rewrite Hnone in Hc. by destruct Hc. }
  assert (Hafter : stands l0 (within (after w X)) t' l).
  { eapply (stands_change known known_inj l0 Hl0 (within X)); [|apply within_closed|exact Hst']. intros u h Hu Hat Hw h2 s2 Hp.
    assert (Hself : after w X u) by (apply Hrefs, Hheld, tree_stubs_held; done).
    destruct (part_cases _ _ _ _ Hp) as [[-> ->]|Hbelow]; [by rewrite (proj2 Hat)|]. right. split; [by apply Hw|].
    intros [Hc _]%Hret. pose proof (Hap _ Hc) as Hapc. destruct (Hfl _ t l (apart_closed _) Hapc) as (w2 & t2 & Hrun2 & _ & Hst2 & _).
    rewrite Hrun in Hrun2. injection Hrun2 as <- <-.
    by apply (stub_holds _ t' l u h (apart_closed _) Hst2 Hu Hat _ _ Hbelow). }
  exists w, t'. split_and!; try done.
  - split; [done|by eapply flush_sealed| |done|]; intros c Hc%Hheld.
    + by eapply (tree_stub_apart known known_inj l0 Hl0 _ t' l c (within_closed X)).
    + exact (held_node l0 _ t' l c Hl0 Hl (within_closed X) Hst' Hc).
  - intros h s Hm. destruct (tree_parts known known_inj l0 Hl0 _ (within_closed (after w X)) t' l h s Hafter) as [Hin|(u & hu & Hu & Hat & Hbelow)].
    + by eapply flush_sealed.
    + by rewrite Hcid.
    + done.
    + by apply Hrefs, Hheld.
    + apply (stub_holds _ t' l u hu (within_closed _) Hafter Hu Hat). by apply below_is_part.
Qed.
End Together.

(** *** The methods *)

Section Methods.
Context (l0 : kvs) (Hl0 : map_ok known l0) (src : Source) (Hsrc : serves src l0).
Hypothesis src_no_panic : forall c, no_panic (src c).
Context (X : Cid -> Prop).

(** What a method leaves and returns. *)
Definition does {A} (t : DetachedTree) (l : kvs) (m : method A) (Q : DetachedTree -> A -> Prop) : Prop :=
  let '(r, t') := m t in
  match r with Ok a => Q t' a | Err _ => backed X l0 t' l | Panic => False end.

Lemma does_bind {A B} t l (m : method A) (f : A -> method B) Q R : does t l m Q ->
  (forall t' a, Q t' a -> does t' l (f a) R) -> does t l (m ≫= f) R.
Proof.
  unfold does. unfold mbind, st_bind. destruct (m t) as [[a|e|] t']; intros Hm Hf; [|done..]. by apply Hf.
Qed.

Lemma does_loads {A} t l (m : method A) Q : map_ok known l -> only_loads src m Q -> backed X l0 t l ->
  does t l m (fun t' a => backed X l0 t' l /\ released t' = released t /\ Q t' a).
Proof.
  intros Hl Hm Ht. pose proof (backed_stubs _ _ _ _ Ht) as (Hp & Hok & _). specialize (Hm t Hok Hp). unfold does.
  destruct (m t) as [[a|e|] t']; destruct Hm as [Hm Hq]; [|by eapply backed_more|done].
  split; [by eapply backed_more|]. split; [by eapply more_released|done].
Qed.

Lemma backed_usable t l : backed X l0 t l -> does t l check_usable (fun t' _ => t' = t).
Proof. intros Ht. unfold does, check_usable. by rewrite (proj1 (backed_stubs _ _ _ _ Ht)). Qed.

Lemma within_faithful : @faithful _ (stubs_of l0 (within X)) src.
Proof. by apply (serves_faithful known). Qed.

Lemma backed_get t l key : map_ok known l -> backed X l0 t l ->
  does t l (MstDetached.get src key) (fun t' v => backed X l0 t' l /\ v = SortedMap.get key l).
Proof.
  intros Hl Ht. pose proof (does_loads t l _ _ Hl (get_loads src src_no_panic key) Ht) as Hload.
  pose proof (stubs_of_laws known known_inj l0 _ Hl0 (within_closed X)) as HL.
  pose proof (get_stands_for (H3 := stubs_of l0 (within X)) src src_no_panic within_faithful t l key (backed_stubs _ _ _ _ Ht)) as Hget.
  unfold does in *. destruct (MstDetached.get src key t) as [[v|e|] t']; [|done..]. split; [apply Hload|apply Hget].
Qed.

Lemma backed_path t l key visit : map_ok known l -> backed X l0 t l ->
  does t l (load_key_path src key visit) (fun t' v => backed X l0 t' l /\ v = SortedMap.get key l /\ path_visited key visit t').
Proof.
  intros Hl Ht. pose proof (does_loads t l _ _ Hl (load_key_path_loads src src_no_panic key visit) Ht) as Hload.
  pose proof (stubs_of_laws known known_inj l0 _ Hl0 (within_closed X)) as HL.
  pose proof (load_key_path_stands_for (H3 := stubs_of l0 (within X)) src src_no_panic within_faithful t l key visit (backed_stubs _ _ _ _ Ht)) as Hpath.
  unfold does in *. destruct (load_key_path src key visit t) as [[v|e|] t']; [|done..]. split; [apply Hload|apply Hpath].
Qed.

Lemma backed_insert_any t l key v : map_ok known l -> backed X l0 t l ->
  does t l (insert src key v) (fun t' prev => is_valid_key key = true /\ prev = SortedMap.get key l /\ backed X l0 t' (upsert key v l)).
Proof.
  intros Hl Ht. rewrite insert_eq. eapply does_bind; [by apply backed_usable|]. intros ? [] ->.
  destruct (is_valid_key key) eqn:Hkey; cbn [negb]; [|done]. eapply does_bind; [by apply backed_path|].
  intros t1 prev (Ht1 & -> & Hvis). destruct (backed_insert l0 Hl0 X t1 l key v Ht1 Hkey Hvis) as (t' & Hrun & Ht'). unfold does. by rewrite Hrun.
Qed.

Lemma backed_remove_any t l key : map_ok known l -> backed X l0 t l ->
  does t l (remove src key) (fun t' removed => removed = SortedMap.get key l /\ backed X l0 t' (without key l)).
Proof.
  intros Hl Ht. rewrite remove_eq. eapply does_bind; [by apply backed_usable|]. intros ? [] ->.
  eapply does_bind; [by apply backed_path|]. intros t1 found (Ht1 & -> & Hvis).
  destruct (backed_remove l0 Hl0 X t1 l key Ht1 Hvis) as (t' & Hrun & Ht'). unfold does. by rewrite Hrun.
Qed.

Lemma backed_missing t l keys visit : map_ok known l -> backed X l0 t l ->
  does t l (missing src keys visit) (fun t' _ => backed X l0 t' l).
Proof.
  intros Hl Ht. pose proof (does_loads t l _ _ Hl (missing_loads src src_no_panic keys visit) Ht) as Hm. unfold does in *.
  destruct (missing src keys visit t) as [[v|e|] t']; [apply Hm|done..].
Qed.

Lemma backed_proof t l keys : map_ok known l -> backed X l0 t l ->
  does t l (covering_proof src keys) (fun t' out => backed X l0 t' l /\ released t' = released t /\ forall c, c ∈ out -> c ∈ held t' \/ map_root [] = Some c).
Proof. intros Hl Ht. exact (does_loads t l _ _ Hl (covering_proof_loads src src_no_panic keys) Ht). Qed.
End Methods.
End Backed.
