(* ===== verification/Did.v ===== *)
(** DIDs: [src/src/syntax/did.rs]. *)
From S2P Require Import Prelude SyntaxError.
From S2P Require SmallString.

Definition is_did_ident_char (b : Z) : bool :=
  is_ascii_alphanumeric b || (b =? ch_dot) || (b =? ch_underscore) || (b =? ch_colon)
  || (b =? ch_hyphen).

Definition did_prefix : bytes := Eval cbv in b# "did:".

Definition validate (raw : bytes) : res SyntaxError () :=
  let err msg := InvalidDid (About raw msg) in
  if bool_decide (raw = []) then Err (err "empty"%string)
  else if (2048 <? length raw)%nat then Err (err "too long"%string)
  else if negb (starts_with did_prefix raw) then Err (err "must start with did:"%string)
  else
    after_prefix ← slice_from raw 4;
    method_end ← ok_or (err "missing identifier after method"%string)
                   (position (fun b => b =? ch_colon) after_prefix);
    if (method_end =? 0)%nat then Err (err "empty method"%string)
    else
      method ← slice_to after_prefix method_end;
      if negb (forallb is_ascii_lowercase method) then
        Err (err "method must be lowercase alpha"%string)
      else
        let ident_start := (4 + method_end + 1)%nat in
        if (length raw <=? ident_start)%nat then Err (err "empty identifier"%string)
        else
          ident ← slice_from raw ident_start;
          if negb (fold_valid is_did_ident_char ident) then
            Err (err "invalid character in identifier"%string)
          else
            last ← ok_or (err "empty identifier"%string) (last ident);
            if last =? ch_colon then Err (err "identifier cannot end with ':'"%string)
            else Ok ().

(** [Did(SmallString)] *)
Definition Did : Type := SmallString.Storage.

Definition as_str (d : Did) : res () bytes := SmallString.as_str d.

Definition try_from (raw : bytes) : res SyntaxError Did :=
  validate raw ≫= fun _ => Ok (SmallString.from raw).

(** [rest.find(':').unwrap_or(rest.len())] *)
Definition colon_or_end (rest : bytes) : nat :=
  default (length rest) (position (fun b => b =? ch_colon) rest).

Definition method (d : Did) : res () bytes :=
  s ← as_str d;
  rest ← slice_from s 4;
  slice_to rest (colon_or_end rest).

Definition identifier (d : Did) : res () bytes :=
  s ← as_str d;
  rest ← slice_from s 4;
  slice_from rest (Nat.min (colon_or_end rest + 1) (length rest)).

(** [derive(Default)] *)
Definition default : Did := SmallString.default.

(** ** The grammar *)

Record grammar (raw m i : bytes) : Prop := {
  g_shape : raw = did_prefix ++ m ++ ch_colon :: i;
  g_len : (length raw <= 2048)%nat;
  g_method : m <> [] /\ Forall (fun b => is_ascii_lowercase b = true) m;
  g_ident : i <> [] /\ Forall (fun b => is_did_ident_char b = true) i;
  g_last : last i <> Some ch_colon;
}.

Lemma lowercase_no_colon m : Forall (fun b => is_ascii_lowercase b = true) m ->
  Forall (fun b => (b =? ch_colon) = false) m.
Proof. intros H. eapply Forall_impl; [exact H|]. cbn. intros b Hb. ascii_lia. Qed.

Lemma validate_sound raw : validate raw = Ok () -> exists m i, grammar raw m i.
Proof.
  unfold validate. res_facts.
  intros (Hne & Hlen & [r ->]%starts_with_true & ap & [_ ->] & me & Hme & Hme0 & m & [Hml ->]
    & Hm & Hil & i & [_ ->] & Hi & l & Hl & Hlc & _).
  change (drop 4 (did_prefix ++ r)) with r in *.
  apply position_Some in Hme as (c & Hc & Hcc & Hmc).
  apply forallb_Forall in Hm. rewrite fold_valid_forallb in Hi. apply forallb_Forall in Hi.
  assert (Hshape : r = take me r ++ ch_colon :: drop (S me) r).
  { rewrite <- (take_drop_middle r me c Hc) at 1. f_equal. f_equal. lia. }
  assert (Hd : drop (4 + me + 1) (did_prefix ++ r) = drop (S me) r)
    by (replace (4 + me + 1)%nat with (length did_prefix + S me)%nat by (cbn; lia);
        by rewrite drop_app_add).
  rewrite Hd in *. exists (take me r), (drop (S me) r). split.
  - by rewrite <- Hshape.
  - lia.
  - split; [|done]. intros H%(f_equal length). rewrite length_take in H. cbn in H. lia.
  - split; [|done]. intros H. by rewrite H in Hl.
  - rewrite Hl. intros [= ->]. done.
Qed.

Lemma validate_complete raw m i : grammar raw m i -> validate raw = Ok ().
Proof.
  intros [-> Hlen [Hm Hml] [Hi Hic] Hlast]. unfold validate. res_facts.
  set (raw := did_prefix ++ _) in *.
  assert (Hr : drop 4 raw = m ++ ch_colon :: i) by done.
  assert (Hraw : length raw = (4 + (length m + S (length i)))%nat)
    by (unfold raw; rewrite !length_app; done).
  split_and!; [done|lia|by apply starts_with_true; eexists|].
  exists (m ++ ch_colon :: i). split; [by rewrite Hr; split; [lia|]|].
  exists (length m). split; [by apply position_app_r; [apply lowercase_no_colon|]|].
  split; [by destruct m|]. exists m. rewrite take_app_length, length_app.
  split; [by split; [lia|]|]. split; [by apply forallb_Forall|].
  assert (length i <> 0%nat) by (by destruct i). split; [lia|].
  exists i. split; [split; [lia|]|].
  { replace (4 + length m + 1)%nat with (4 + (length m + 1))%nat by lia.
    rewrite <- drop_drop, Hr. by rewrite drop_app_add. }
  rewrite fold_valid_forallb. split; [by apply forallb_Forall|].
  destruct (last i) as [l|] eqn:Hl; [|by apply last_None in Hl].
  exists l. split; [done|]. split; [|done].
  destruct (Z.eqb_spec l ch_colon); congruence.
Qed.

Lemma did_validate_no_panic raw : no_panic (validate raw).
Proof.
  unfold validate. repeat (apply no_panic_if; intros ?).
  match goal with H : negb _ = false |- _ =>
    apply negb_false_iff, starts_with_true in H as [r ->] end.
  apply no_panic_bind; [by rewrite slice_from_Ok by (rewrite length_app; cbn; lia)|].
  intros ap [_ ->]%slice_from_Ok_iff. apply no_panic_bind; [apply no_panic_ok_or|].
  intros me Hme%ok_or_Ok%position_lt. apply no_panic_if; intros _.
  apply no_panic_bind; [by rewrite slice_to_Ok by lia|]. intros m _.
  apply no_panic_if; intros _. apply no_panic_if; intros ?.
  apply no_panic_bind; [by rewrite slice_from_Ok by lia|]. intros i _.
  apply no_panic_if; intros _. apply no_panic_bind; [apply no_panic_ok_or|].
  intros l _. by apply no_panic_if.
Qed.

(** [Did::validate] accepts exactly [did:<method>:<identifier>] with a
    non-empty lowercase method, a non-empty identifier over its character
    class that does not end in a colon, in at most 2048 bytes; it never
    panics. *)
Theorem did_validate_spec raw :
  no_panic (validate raw) /\ (validate raw = Ok () <-> exists m i, grammar raw m i).
Proof.
  split; [apply did_validate_no_panic|]. split; [apply validate_sound|].
  intros (m & i & H). by apply (validate_complete raw m i).
Qed.

Lemma did_grammar_ascii raw m i : grammar raw m i -> utf8_valid raw = true.
Proof.
  intros [-> _ [_ Hm] [_ Hi] _]. apply utf8_valid_ascii, Forall_app. split; [by repeat constructor|].
  apply Forall_app. split; [|constructor; [done|]].
  - eapply Forall_impl; [exact Hm|]. cbn. intros b. ascii_lia.
  - eapply Forall_impl; [exact Hi|]. cbn. unfold is_did_ident_char. intros b. ascii_lia.
Qed.

Lemma did_parts raw m i d : grammar raw m i -> SmallString.represents d raw ->
  as_str d = Ok raw /\ method d = Ok m /\ identifier d = Ok i.
Proof.
  intros Hg Hd. pose proof (did_grammar_ascii _ _ _ Hg) as Hu.
  unfold method, identifier, as_str.
  rewrite (SmallString.as_str_represents d raw Hu Hd). split; [done|].
  destruct Hg as [-> _ [_ Hm] _ _]. cbn [mbind res_bind].
  rewrite slice_from_Ok by (rewrite !length_app; cbn; lia).
  change (drop 4 (did_prefix ++ m ++ ch_colon :: i)) with (m ++ ch_colon :: i). cbn [mbind res_bind].
  unfold colon_or_end. rewrite (position_app_r _ m ch_colon i) by (done || by apply lowercase_no_colon).
  cbn [from_option id]. rewrite slice_to_Ok, slice_from_Ok by (rewrite length_app; cbn; lia).
  rewrite take_app_length, length_app, Nat.min_l by (cbn; lia). by rewrite drop_app_add.
Qed.

(** The accessors of a parsed DID split its text back into the parts. *)
Theorem did_accessors raw d : try_from raw = Ok d ->
  exists m i, method d = Ok m /\ identifier d = Ok i /\ as_str d = Ok raw /\
    raw = did_prefix ++ m ++ ch_colon :: i /\ m <> [] /\ i <> [].
Proof.
  unfold try_from. intros ([] & Hv & [= <-])%res_bind_Ok.
  apply validate_sound in Hv as (m & i & Hg).
  destruct (did_parts raw m i (SmallString.from raw) Hg (SmallString.from_represents raw))
    as (? & ? & ?). destruct Hg. exists m, i. naive_solver.
Qed.

Example did_accessors_witness :
  exists m i, method (SmallString.from (b# "did:web:example.com:u:1")) = Ok m /\
    identifier (SmallString.from (b# "did:web:example.com:u:1")) = Ok i /\
    as_str (SmallString.from (b# "did:web:example.com:u:1")) = Ok (b# "did:web:example.com:u:1") /\
    b# "did:web:example.com:u:1" = did_prefix ++ m ++ ch_colon :: i /\ m <> [] /\ i <> [].
Proof.
  apply (did_accessors (b# "did:web:example.com:u:1")). vm_compute. reflexivity.
Defined.

(** The derived [Default] is the empty string, which no constructor that
    validates could produce; its accessors panic. *)
Theorem did_default_panics :
  validate [] <> Ok () /\ method default = Panic /\ identifier default = Panic.
Proof. by vm_compute. Qed.
