(* ===== verification/RecordKey.v ===== *)
(** Record keys: [src/src/syntax/recordkey.rs]. *)
From S2P Require Import Prelude SyntaxError.
From S2P Require SmallString.

Definition is_record_key_char (b : Z) : bool :=
  is_ascii_alphanumeric b || (b =? ch_underscore) || (b =? ch_tilde) || (b =? ch_dot)
  || (b =? ch_colon) || (b =? ch_hyphen).

Definition dot : bytes := [ch_dot].
Definition dot_dot : bytes := [ch_dot; ch_dot].

Definition validate (raw : bytes) : res SyntaxError () :=
  let err msg := InvalidRecordKey (About raw msg) in
  if bool_decide (raw = []) then Err (err "empty"%string)
  else if (512 <? length raw)%nat then Err (err "too long"%string)
  else if bool_decide (raw = dot) || bool_decide (raw = dot_dot) then
    Err (err "disallowed value"%string)
  else if negb (fold_valid is_record_key_char raw) then Err (err "invalid character"%string)
  else Ok ().

Definition RecordKey : Type := SmallString.Storage.
Definition as_str (k : RecordKey) : res () bytes := SmallString.as_str k.

Definition try_from (raw : bytes) : res SyntaxError RecordKey :=
  validate raw ≫= fun _ => Ok (SmallString.from raw).

Record grammar (raw : bytes) : Prop := {
  g_len : (1 <= length raw <= 512)%nat;
  g_chars : Forall (fun b => is_record_key_char b = true) raw;
  g_reserved : raw <> dot /\ raw <> dot_dot;
}.

Lemma record_key_validate_no_panic raw : no_panic (validate raw).
Proof. unfold validate. repeat (apply no_panic_if; intros ?). done. Qed.

Lemma record_key_validate_iff raw : validate raw = Ok () <-> grammar raw.
Proof.
  unfold validate. res_facts. rewrite orb_false_iff, !bool_decide_eq_false.
  rewrite fold_valid_forallb, forallb_Forall. split.
  - intros (Hne & Hl & Hr & Hc & _). split; [|done..].
    assert (length raw <> 0%nat) by (by destruct raw). lia.
  - intros [Hl Hc Hr]. assert (raw <> []) by (intros ->; cbn in Hl; lia).
    destruct Hr. split_and!; done || lia.
Qed.

Lemma record_key_grammar_ascii raw : grammar raw -> Forall (fun b => is_ascii b = true) raw.
Proof.
  intros [_ Hc _]. eapply Forall_impl; [exact Hc|]. cbn. unfold is_record_key_char.
  intros b. ascii_lia.
Qed.

Lemma record_key_text raw k : try_from raw = Ok k -> as_str k = Ok raw.
Proof.
  intros ([] & Hv & [= <-])%res_bind_Ok. apply SmallString.as_str_represents.
  - by apply utf8_valid_ascii, record_key_grammar_ascii, record_key_validate_iff.
  - apply SmallString.from_represents.
Qed.

(** [RecordKey::validate] accepts exactly 1 to 512 characters of its class,
    other than [.] and [..], and the key made from an accepted text reads
    back as it. *)
Theorem record_key_spec raw :
  no_panic (validate raw) /\ (validate raw = Ok () <-> grammar raw) /\
  (forall k, try_from raw = Ok k -> as_str k = Ok raw).
Proof.
  split_and!; [apply record_key_validate_no_panic|apply record_key_validate_iff|apply record_key_text].
Qed.
