(* ===== verification/DnsLabel.v ===== *)
(** The label checks that handles and NSIDs share, and what they accept.

    [Handle::validate] inlines them; [nsid.rs] has them as
    [validate_domain_label]. They differ only in the error they build. *)
From S2P Require Import Prelude SyntaxError.

Definition is_alphanumeric_or_hyphen (b : Z) : bool :=
  is_ascii_alphanumeric b || (b =? ch_hyphen).

Definition check (err : string -> SyntaxError) (label : bytes) : res SyntaxError () :=
  if bool_decide (label = []) then Err (err "empty label"%string)
  else if (63 <? length label)%nat then Err (err "label too long"%string)
  else
    first ← index label 0;
    if negb (is_ascii_alphanumeric first) then
      Err (err "label must start with alphanumeric"%string)
    else
      last ← index label (length label - 1);
      if negb (is_ascii_alphanumeric last) then
        Err (err "label must end with alphanumeric"%string)
      else if (3 <=? length label)%nat then
        interior ← slice label 1 (length label - 1);
        if negb (forallb is_alphanumeric_or_hyphen interior) then
          Err (err "invalid character in label"%string)
        else Ok ()
      else Ok ().

(** A DNS label: 1 to 63 letters, digits and hyphens, with no hyphen at
    either end. *)
Record valid_label (l : bytes) : Prop := {
  l_len : (1 <= length l <= 63)%nat;
  l_chars : Forall (fun b => is_alphanumeric_or_hyphen b = true) l;
  l_head : exists b, head l = Some b /\ is_ascii_alphanumeric b = true;
  l_last : exists b, last l = Some b /\ is_ascii_alphanumeric b = true;
}.

Lemma interior_split {A} (l : list A) a b :
  (3 <= length l)%nat -> l !! 0%nat = Some a -> l !! (length l - 1)%nat = Some b ->
  l = a :: take (length l - 1 - 1) (drop 1 l) ++ [b].
Proof.
  intros Hl Ha Hb. destruct l as [|x l]; [done|]. cbn in Ha. injection Ha as ->.
  cbn [length drop] in *. f_equal. rewrite Nat.sub_succ, Nat.sub_0_r in *.
  destruct (length l) as [|n] eqn:Hn; [lia|]. cbn in Hb.
  rewrite Nat.sub_succ, Nat.sub_0_r. rewrite <- (take_drop_middle l n b Hb) at 1.
  f_equal. by rewrite drop_ge by lia.
Qed.

Lemma last_index {A} (l : list A) : last l = l !! (length l - 1)%nat.
Proof. rewrite last_lookup. f_equal. lia. Qed.

Lemma check_valid err l : check err l = Ok () <-> valid_label l.
Proof.
  unfold check. res_facts. split.
  - intros (Hne & Hlen & a & Ha & Haa & b & Hb & Hbb & H).
    apply bool_decide_eq_false in Hne. assert (length l <> 0%nat) by (by destruct l).
    split; [lia| |exists a; by rewrite head_lookup|exists b; by rewrite last_index].
    assert (Hal : forall c, is_ascii_alphanumeric c = true -> is_alphanumeric_or_hyphen c = true)
      by (unfold is_alphanumeric_or_hyphen; intros c ->; done).
    destruct (3 <=? length l)%nat eqn:H3.
    + apply res_bind_Ok in H as (i & [_ ->]%slice_Ok_iff & [Hi _]%if_err_Ok).
      apply negb_false_iff, forallb_Forall in Hi.
      rewrite (interior_split l a b) by (done || lia).
      constructor; [auto|]. apply Forall_app. auto.
    + destruct l as [|x [|y [|z l]]]; cbn in *; simplify_eq; auto.
  - intros [Hl Hc (a & Ha & Haa) (b & Hb & Hbb)].
    rewrite head_lookup in Ha. rewrite last_index in Hb.
    split; [apply bool_decide_eq_false; by intros ->|]. split; [lia|].
    exists a. split_and!; [done..|]. exists b. split_and!; [done..|].
    destruct (3 <=? length l)%nat eqn:H3; [|done].
    rewrite slice_Ok by lia. cbn.
    assert (forallb is_alphanumeric_or_hyphen (take (length l - 1 - 1) (drop 1 l)) = true) as ->;
      [|done].
    by apply forallb_Forall, Forall_take, Forall_drop.
Qed.

Lemma check_no_panic err l : no_panic (check err l).
Proof.
  unfold check. apply no_panic_if; intros Hne%bool_decide_eq_false.
  assert (length l <> 0%nat) by (by destruct l).
  apply no_panic_if; intros _. apply no_panic_bind; [apply no_panic_index; lia|].
  intros a _. apply no_panic_if; intros _.
  apply no_panic_bind; [apply no_panic_index; lia|].
  intros b _. apply no_panic_if; intros _. destruct (3 <=? _)%nat eqn:?; [|done].
  rewrite slice_Ok by lia. cbn. by apply no_panic_if.
Qed.

Lemma label_ascii l : valid_label l -> Forall (fun b => is_ascii b = true) l.
Proof.
  intros [_ Hc _ _]. eapply Forall_impl; [exact Hc|]. cbn.
  unfold is_alphanumeric_or_hyphen. intros b. ascii_lia.
Qed.

Lemma labels_ascii sep s : is_ascii sep = true ->
  Forall valid_label (split_on sep s) -> Forall (fun b => is_ascii b = true) s.
Proof.
  intros Hsep Hall. apply (split_on_forall sep); [done|].
  eapply Forall_impl; [exact Hall|]. exact label_ascii.
Qed.

(** Lowercasing keeps labels valid. *)
Lemma lowercase_alphanumeric b :
  is_ascii_alphanumeric (to_ascii_lowercase b) = is_ascii_alphanumeric b.
Proof. unfold to_ascii_lowercase. destruct (is_ascii_uppercase b) eqn:?; ascii_lia. Qed.

Lemma lowercase_alphabetic b :
  is_ascii_alphabetic (to_ascii_lowercase b) = is_ascii_alphabetic b.
Proof. unfold to_ascii_lowercase. destruct (is_ascii_uppercase b) eqn:?; ascii_lia. Qed.

Lemma lowercase_eqb_nonletter c b : is_ascii_alphabetic c = false ->
  (to_ascii_lowercase b =? c) = (b =? c).
Proof. unfold to_ascii_lowercase. destruct (is_ascii_uppercase b) eqn:?; ascii_lia. Qed.

Lemma lowercase_label l : valid_label l -> valid_label (make_ascii_lowercase l).
Proof.
  intros [Hl Hc (a & Ha & Haa) (b & Hb & Hbb)]. split.
  - by rewrite make_ascii_lowercase_length.
  - apply Forall_fmap. eapply Forall_impl; [exact Hc|]. cbn. intros c.
    unfold is_alphanumeric_or_hyphen.
    by rewrite lowercase_alphanumeric, lowercase_eqb_nonletter.
  - exists (to_ascii_lowercase a). unfold make_ascii_lowercase.
    rewrite head_lookup in Ha |- *. by rewrite list_lookup_fmap, Ha, lowercase_alphanumeric.
  - exists (to_ascii_lowercase b). unfold make_ascii_lowercase.
    by rewrite fmap_last, Hb, lowercase_alphanumeric.
Qed.
