(* ===== verification/Handle.v ===== *)
(** Handles: [src/src/syntax/handle.rs]. *)
From S2P Require Import Prelude SyntaxError DnsLabel.

Definition check_label (raw label : bytes) : res SyntaxError () :=
  DnsLabel.check (fun msg => InvalidHandle (About raw msg)) label.

(** The loop of [validate] over [i]: [rest] is [bytes[i..]], [start] where
    the current label began. Returns the number of labels. *)
Fixpoint label_loop (raw rest : bytes) (i start label_count : nat) : res SyntaxError nat :=
  match rest with
  | [] =>
      label ← slice raw start i;
      _ ← check_label raw label;
      Ok (S label_count)
  | b :: rest' =>
      if b =? ch_dot then
        label ← slice raw start i;
        _ ← check_label raw label;
        label_loop raw rest' (S i) (S i) (S label_count)
      else if negb (is_ascii b) then Err (InvalidHandle (About raw "non-ASCII character"))
      else label_loop raw rest' (S i) start label_count
  end.

Definition validate (raw : bytes) : res SyntaxError () :=
  let err msg := InvalidHandle (About raw msg) in
  if bool_decide (raw = []) then Err (err "empty"%string)
  else if (253 <? length raw)%nat then Err (err "too long"%string)
  else
    label_count ← label_loop raw raw 0 0 0;
    if (label_count <? 2)%nat then Err (err "must have at least two labels"%string)
    else
      last_dot ← ok_or (err "must have at least two labels"%string)
                   (rposition (fun b => b =? ch_dot) raw);
      tld ← slice_from raw (last_dot + 1);
      first ← index tld 0;
      if negb (is_ascii_alphabetic first) then Err (err "TLD must start with a letter"%string)
      else Ok ().

(** [Handle(String)], in lowercase. *)
Definition Handle : Type := bytes.

Definition try_from (raw : bytes) : res SyntaxError Handle :=
  validate raw ≫= fun _ => Ok (make_ascii_lowercase raw).

(** ** The grammar *)

Record grammar (raw : bytes) : Prop := {
  g_len : (length raw <= 253)%nat;
  g_labels : Forall valid_label (split_on ch_dot raw);
  g_count : (2 <= length (split_on ch_dot raw))%nat;
  g_tld : exists tld b, last (split_on ch_dot raw) = Some tld /\
    head tld = Some b /\ is_ascii_alphabetic b = true;
}.

Definition no_dot (s : bytes) : Prop := Forall (fun b => (b =? ch_dot) = false) s.

Lemma check_label_valid raw l : check_label raw l = Ok () <-> valid_label l.
Proof. apply check_valid. Qed.

(** The loop, part way through a label: [pre] is what earlier labels took,
    [seg] the label so far. *)
Lemma label_loop_Ok raw rest pre seg n k :
  raw = pre ++ seg ++ rest -> no_dot seg ->
  label_loop raw rest (length pre + length seg) (length pre) n = Ok k <->
  Forall valid_label (split_on ch_dot (seg ++ rest)) /\
  k = (n + length (split_on ch_dot (seg ++ rest)))%nat.
Proof.
  revert pre seg n. induction rest as [|b rest IH]; intros pre seg n Hraw Hdot;
    cbn [label_loop].
  - rewrite (slice_middle raw pre seg []), app_nil_r, split_on_piece by done. cbn [mbind res_bind].
    rewrite res_bind_Ok, Forall_singleton. cbn [length]. split.
    + intros ([] & Hc%check_label_valid & [= <-]). split; [done|lia].
    + intros [Hc%(check_label_valid raw) ->]. exists (). split; [done|]. f_equal. lia.
  - destruct (Z.eqb_spec b ch_dot) as [->|Hb].
    + rewrite (slice_middle raw pre seg (ch_dot :: rest)) by done. cbn [mbind res_bind].
      rewrite split_on_app, Forall_cons, res_bind_Ok by done. cbn [length].
      assert (Hraw' : raw = (pre ++ seg ++ [ch_dot]) ++ [] ++ rest)
        by (rewrite Hraw, <- !app_assoc; done).
      pose proof (IH _ [] (S n) Hraw' ltac:(constructor)) as IH'.
      rewrite !length_app in IH'. cbn [length app] in IH'.
      replace (length pre + (length seg + 1) + 0)%nat with (S (length pre + length seg)) in IH' by lia.
      replace (length pre + (length seg + 1))%nat with (S (length pre + length seg)) in IH' by lia.
      split.
      * intros ([] & Hc%check_label_valid & Hk%IH'). destruct Hk. split; [done|lia].
      * intros [[Hc%(check_label_valid raw) Hall] ->]. exists (). split; [done|].
        apply IH'. split; [done|lia].
    + assert (Hbd : (b =? ch_dot) = false) by lia.
      assert (Hraw' : raw = pre ++ (seg ++ [b]) ++ rest)
        by (rewrite Hraw, <- !app_assoc; done).
      destruct (is_ascii b) eqn:Ha; cbn [negb].
      * pose proof (IH pre (seg ++ [b]) n Hraw') as IH'.
        rewrite <- app_assoc, length_app in IH'. cbn [length app] in IH'.
        rewrite <- IH' by (apply Forall_app; split; [done|by repeat constructor]).
        by replace (length pre + (length seg + 1))%nat with (S (length pre + length seg)) by lia.
      * split; [done|]. intros [Hall _]. apply labels_ascii in Hall; [|done].
        apply Forall_app in Hall as [_ [Ha' _]%Forall_cons]. congruence.
Qed.

Lemma label_loop_no_panic raw rest pre seg n :
  raw = pre ++ seg ++ rest -> no_dot seg ->
  no_panic (label_loop raw rest (length pre + length seg) (length pre) n).
Proof.
  revert pre seg n. induction rest as [|b rest IH]; intros pre seg n Hraw Hdot; cbn [label_loop].
  - rewrite (slice_middle raw pre seg []) by done. cbn [mbind res_bind].
    apply no_panic_bind; [apply check_no_panic|done].
  - assert (Hraw' : raw = pre ++ (seg ++ [b]) ++ rest) by (rewrite Hraw, <- !app_assoc; done).
    destruct (Z.eqb_spec b ch_dot) as [->|Hb].
    + rewrite (slice_middle raw pre seg (ch_dot :: rest)) by done. cbn [mbind res_bind].
      apply no_panic_bind; [apply check_no_panic|]. intros [] _.
      specialize (IH (pre ++ seg ++ [ch_dot]) [] (S n)).
      rewrite !length_app in IH. cbn [length app] in IH.
      replace (length pre + (length seg + 1) + 0)%nat with (S (length pre + length seg)) in IH by lia.
      replace (length pre + (length seg + 1))%nat with (S (length pre + length seg)) in IH by lia.
      apply IH; [by rewrite Hraw', <- !app_assoc|constructor].
    + apply no_panic_if. intros _. specialize (IH pre (seg ++ [b]) n Hraw').
      rewrite length_app in IH. cbn [length] in IH.
      replace (length pre + (length seg + 1))%nat with (S (length pre + length seg)) in IH by lia.
      apply IH. apply Forall_app. split; [done|]. repeat constructor. lia.
Qed.

Lemma count_labels raw k :
  label_loop raw raw 0 0 0 = Ok k <->
  Forall valid_label (split_on ch_dot raw) /\ k = length (split_on ch_dot raw).
Proof. apply (label_loop_Ok raw raw [] [] 0); [done|constructor]. Qed.

Lemma handle_validate_iff raw : validate raw = Ok () <-> grammar raw.
Proof.
  unfold validate. res_facts. setoid_rewrite count_labels.
  pose proof (split_on_rposition ch_dot raw) as Hr. split.
  - intros (_ & Hl & k & [Hall ->] & Hk & ld & Hld & t & [_ ->] & b & Hb & Halpha & _).
    rewrite Hld in Hr. destruct Hr as [_ Hr]. split; [lia|done|lia|].
    rewrite Nat.add_1_r in Hb. exists (drop (S ld) raw), b.
    by rewrite Hr, last_snoc, head_lookup.
  - intros [Hl Hall Hk (t & b & Ht & Hb & Ha)].
    destruct (rposition _ raw) as [ld|]; [|rewrite Hr in Hk; cbn in Hk; lia].
    destruct Hr as [Hld Hr]. rewrite Hr, last_snoc in Ht. injection Ht as <-.
    split; [|split; [lia|]].
    { apply bool_decide_eq_false. intros ->. cbn in Hld. lia. }
    exists (length (split_on ch_dot raw)). split; [done|]. split; [lia|].
    exists ld. split; [done|]. exists (drop (S ld) raw).
    rewrite Nat.add_1_r. split; [split; [lia|done]|].
    exists b. by rewrite <- head_lookup.
Qed.

Lemma handle_validate_no_panic raw : no_panic (validate raw).
Proof.
  unfold validate. repeat (apply no_panic_if; intros _). apply no_panic_bind.
  { apply (label_loop_no_panic raw raw [] [] 0); [done|constructor]. }
  intros k [Hall ->]%count_labels. apply no_panic_if; intros Hk.
  apply no_panic_bind; [apply no_panic_ok_or|]. intros ld Hld%ok_or_Ok.
  pose proof (split_on_rposition ch_dot raw) as Hr. rewrite Hld in Hr. destruct Hr as [Hlt Hr].
  rewrite slice_from_Ok by lia. cbn [mbind res_bind].
  apply no_panic_bind; [|intros b _; by apply no_panic_if].
  apply no_panic_index. rewrite Hr in Hall. apply Forall_app in Hall as [_ Hall].
  apply Forall_singleton in Hall as [Hl _ _ _]. rewrite Nat.add_1_r. lia.
Qed.

(** [Handle::validate] accepts exactly the names of at least two labels in
    at most 253 bytes whose last label starts with a letter; it never
    panics. *)
Theorem handle_validate_spec raw :
  no_panic (validate raw) /\ (validate raw = Ok () <-> grammar raw).
Proof. split; [apply handle_validate_no_panic|apply handle_validate_iff]. Qed.

Lemma lowercase_grammar raw : grammar raw -> grammar (make_ascii_lowercase raw).
Proof.
  intros [Hl Hall Hk (t & b & Ht & Hb & Ha)].
  assert (Hs : split_on ch_dot (make_ascii_lowercase raw) =
    make_ascii_lowercase <$> split_on ch_dot raw).
  { apply split_on_fmap. intros c. by apply lowercase_eqb_nonletter. }
  split; rewrite ?Hs.
  - by rewrite make_ascii_lowercase_length.
  - apply Forall_fmap. eapply Forall_impl; [exact Hall|]. exact lowercase_label.
  - by rewrite length_fmap.
  - exists (make_ascii_lowercase t), (to_ascii_lowercase b).
    rewrite fmap_last, Ht, head_lookup. unfold make_ascii_lowercase.
    rewrite head_lookup in Hb. by rewrite list_lookup_fmap, Hb, lowercase_alphabetic.
Qed.

(** A parsed handle is in normal form: it is lowercase, parses to itself,
    and any two spellings that differ only in case parse to the same one. *)
Theorem handle_normal_form raw h : try_from raw = Ok h ->
  h = make_ascii_lowercase raw /\ try_from h = Ok h /\
  (forall raw', grammar raw' -> eq_ignore_ascii_case raw raw' = true -> try_from raw' = Ok h).
Proof.
  intros ([] & Hv%handle_validate_iff & [= <-])%res_bind_Ok. split; [done|]. split.
  - unfold try_from. apply lowercase_grammar, handle_validate_iff in Hv. rewrite Hv. cbn.
    by rewrite make_ascii_lowercase_idemp.
  - intros raw' Hv'%handle_validate_iff He%bool_decide_eq_true. unfold try_from.
    by rewrite Hv', He.
Qed.

Example handle_normal_form_witness :
  b# "alice.bsky.social" = make_ascii_lowercase (b# "Alice.bsky.Social") /\
  try_from (b# "alice.bsky.social") = Ok (b# "alice.bsky.social") /\
  (forall raw', grammar raw' -> eq_ignore_ascii_case (b# "Alice.bsky.Social") raw' = true ->
    try_from raw' = Ok (b# "alice.bsky.social")).
Proof. apply (handle_normal_form (b# "Alice.bsky.Social")). vm_compute. reflexivity. Defined.
