(* ===== verification/Nsid.v ===== *)
(** NSIDs: [src/src/syntax/nsid.rs]. *)
From S2P Require Import Prelude SyntaxError DnsLabel.
From S2P Require SmallString.

Definition is_alpha (b : Z) : bool := is_ascii_alphabetic b.
Definition is_alphanumeric (b : Z) : bool := is_ascii_alphanumeric b.

Definition validate_domain_label (label raw : bytes) : res SyntaxError () :=
  DnsLabel.check (fun msg => InvalidNsid (About raw msg)) label.

(** [seg.is_empty() || !is_alpha(seg.as_bytes()[0])] *)
Definition starts_badly (seg : bytes) : bool :=
  match seg with [] => true | b :: _ => negb (is_alpha b) end.

(** The loop of [validate] over [i]: [rest] is [bytes[i..]], [start] where
    the current segment began. Returns the segment count and the last dot. *)
Fixpoint seg_loop (raw rest : bytes) (i start seg_count : nat) (last_dot : option nat)
    : res SyntaxError (nat * option nat) :=
  match rest with
  | [] => seg ← slice raw start i; Ok (S seg_count, last_dot)
  | b :: rest' =>
      if b =? ch_dot then
        seg ← slice raw start i;
        _ ← validate_domain_label seg raw;
        if (S seg_count =? 1)%nat && starts_badly seg then
          Err (InvalidNsid (About raw "first segment must start with a letter"))
        else seg_loop raw rest' (S i) (S i) (S seg_count) (Some i)
      else seg_loop raw rest' (S i) start seg_count last_dot
  end.

(** Returns the authority/name separator. *)
Definition validate (raw : bytes) : res SyntaxError nat :=
  let err msg := InvalidNsid (About raw msg) in
  if bool_decide (raw = []) then Err (err "empty"%string)
  else if (317 <? length raw)%nat then Err (err "too long"%string)
  else
    '(seg_count, last_dot) ← seg_loop raw raw 0 0 0 None;
    if (seg_count <? 3)%nat then Err (err "must have at least 3 segments"%string)
    else
      let name_start := match last_dot with Some d => (d + 1)%nat | None => 0%nat end in
      name ← slice_from raw name_start;
      if bool_decide (name = []) || (63 <? length name)%nat then
        Err (err "name segment must be 1-63 characters"%string)
      else
        first ← index name 0;
        if negb (is_alpha first) then Err (err "name segment must start with a letter"%string)
        else
          tail ← slice_from name 1;
          if negb (forallb is_alphanumeric tail) then
            Err (err "name segment must be alphanumeric only"%string)
          else Ok (default 0%nat last_dot).

(** [Nsid(SmallString)], the authority in lowercase. *)
Definition Nsid : Type := SmallString.Storage.
Definition as_str (n : Nsid) : res () bytes := SmallString.as_str n.

Definition try_from (raw : bytes) : res SyntaxError Nsid :=
  last_dot ← validate raw;
  match SmallString.lowercase_prefix (SmallString.from raw) last_dot with
  | Ok normalized => Ok normalized
  | _ => Panic
  end.

(** [s.rfind('.').unwrap_or(0)] *)
Definition last_dot_or_0 (s : bytes) : nat :=
  default 0%nat (rposition (fun b => b =? ch_dot) s).

Definition authority (n : Nsid) : res () bytes :=
  s ← as_str n;
  domain ← slice_to s (last_dot_or_0 s);
  Ok (join_with ch_dot (rev (split_on ch_dot domain))).

Definition name (n : Nsid) : res () bytes :=
  s ← as_str n;
  slice_from s (last_dot_or_0 s + 1).

(** ** The grammar *)

Record valid_name (l : bytes) : Prop := {
  n_len : (1 <= length l <= 63)%nat;
  n_chars : Forall (fun b => is_alphanumeric b = true) l;
  n_head : exists b, head l = Some b /\ is_alpha b = true;
}.

(** [segs] are the authority's segments, most significant first. *)
Record grammar (raw : bytes) (segs : list bytes) (nm : bytes) : Prop := {
  g_shape : split_on ch_dot raw = segs ++ [nm];
  g_len : (length raw <= 317)%nat;
  g_segs : (2 <= length segs)%nat /\ Forall valid_label segs;
  g_first : exists seg b, head segs = Some seg /\ head seg = Some b /\ is_alpha b = true;
  g_name : valid_name nm;
}.

Definition no_dot (s : bytes) : Prop := Forall (fun b => (b =? ch_dot) = false) s.

Lemma validate_domain_label_valid raw l :
  validate_domain_label l raw = Ok () <-> valid_label l.
Proof. apply check_valid. Qed.

#[local] Opaque validate_domain_label.

Lemma starts_badly_false seg : starts_badly seg = false <->
  exists b, head seg = Some b /\ is_alpha b = true.
Proof. destruct seg as [|b seg]; cbn; [naive_solver|]. rewrite negb_false_iff. naive_solver. Qed.

(** What the loop requires of the segments still to come, the first of which
    is segment number [n + 1]. *)
Definition loop_ok (n : nat) (segs : list bytes) : Prop :=
  Forall valid_label (removelast segs) /\
  (n = 0%nat -> match segs with seg :: _ :: _ => starts_badly seg = false | _ => True end).

(** The last dot of [raw = pre ++ s], if [d] is the last dot of [pre]. *)
Definition dot_after (pre : nat) (s : bytes) (d : option nat) : option nat :=
  match rposition (fun b => b =? ch_dot) s with Some k => Some (pre + k)%nat | None => d end.

Lemma rposition_app_skip {A} (p : A -> bool) l a k :
  Forall (fun b => p b = false) l -> p a = true ->
  rposition p (l ++ a :: k) =
    Some (match rposition p k with Some j => length l + S j | None => length l end)%nat.
Proof.
  intros Hl Ha. induction Hl as [|b l Hb _ IH]; cbn.
  - by destruct (rposition p k); rewrite ?Ha.
  - rewrite IH. f_equal. destruct (rposition p k); lia.
Qed.

Lemma seg_loop_Ok raw rest pre seg n d r :
  raw = pre ++ seg ++ rest -> no_dot seg ->
  seg_loop raw rest (length pre + length seg) (length pre) n d = Ok r <->
  loop_ok n (split_on ch_dot (seg ++ rest)) /\
  r = ((n + length (split_on ch_dot (seg ++ rest)))%nat, dot_after (length pre) (seg ++ rest) d).
Proof.
  revert pre seg n d. induction rest as [|b rest IH]; intros pre seg n d Hraw Hdot;
    cbn [seg_loop].
  - rewrite (slice_middle raw pre seg []), app_nil_r, split_on_piece by done.
    cbn [mbind res_bind length]. unfold dot_after, loop_ok. rewrite rposition_none by done.
    cbn. rewrite Nat.add_1_r. split; [intros [= <-]; by repeat split|]. by intros [_ ->].
  - destruct (Z.eqb_spec b ch_dot) as [->|Hb].
    + rewrite (slice_middle raw pre seg (ch_dot :: rest)) by done. cbn [mbind res_bind].
      rewrite split_on_app, res_bind_Ok by done. cbn [length].
      assert (Hraw' : raw = (pre ++ seg ++ [ch_dot]) ++ [] ++ rest)
        by (rewrite Hraw, <- !app_assoc; done).
      pose proof (IH _ [] (S n) (Some (length pre + length seg)%nat) Hraw' ltac:(constructor)) as IH'.
      rewrite !length_app in IH'. cbn [length app] in IH'.
      replace (length pre + (length seg + 1) + 0)%nat with (S (length pre + length seg)) in IH' by lia.
      replace (length pre + (length seg + 1))%nat with (S (length pre + length seg)) in IH' by lia.
      assert (Hd : dot_after (S (length pre + length seg)) rest (Some (length pre + length seg)%nat)
        = dot_after (length pre) (seg ++ ch_dot :: rest) d).
      { unfold dot_after. rewrite rposition_app_skip by done.
        destruct (rposition _ rest); f_equal; lia. }
      pose proof (split_on_nonempty ch_dot rest) as Hne.
      setoid_rewrite if_err_Ok. setoid_rewrite IH'. rewrite Hd.
      assert (Hlo : loop_ok n (seg :: split_on ch_dot rest) <->
        valid_label seg /\ ((S n =? 1)%nat && starts_badly seg) = false /\
        loop_ok (S n) (split_on ch_dot rest)).
      { unfold loop_ok. destruct (split_on ch_dot rest) as [|q qs]; [done|].
        change (removelast (seg :: q :: qs)) with (seg :: removelast (q :: qs)).
        rewrite Forall_cons, andb_false_iff. destruct n; cbn; naive_solver. }
      rewrite Hlo. split.
      * intros ([] & Hc%validate_domain_label_valid & Hs & Hl & ->).
        split; [done|]. f_equal. lia.
      * intros [(Hc%(validate_domain_label_valid raw) & Hs & Hl) ->].
        exists (). split_and!; try done. f_equal. lia.
    + assert (Hbd : (b =? ch_dot) = false) by lia.
      assert (Hraw' : raw = pre ++ (seg ++ [b]) ++ rest)
        by (rewrite Hraw, <- !app_assoc; done).
      pose proof (IH pre (seg ++ [b]) n d Hraw') as IH'.
      rewrite <- app_assoc, length_app in IH'. cbn [length app] in IH'.
      rewrite <- IH' by (apply Forall_app; split; [done|by repeat constructor]).
      by replace (length pre + (length seg + 1))%nat with (S (length pre + length seg)) by lia.
Qed.

Lemma segments raw r :
  seg_loop raw raw 0 0 0 None = Ok r <->
  loop_ok 0 (split_on ch_dot raw) /\
  r = (length (split_on ch_dot raw), rposition (fun b => b =? ch_dot) raw).
Proof.
  rewrite (seg_loop_Ok raw raw [] [] 0 None) by (done || constructor).
  unfold dot_after. cbn [length app Nat.add]. by destruct (rposition _ raw).
Qed.

#[local] Opaque seg_loop.

Lemma nsid_validate_iff raw d : validate raw = Ok d <->
  exists segs nm, grammar raw segs nm /\ rposition (fun b => b =? ch_dot) raw = Some d.
Proof.
  unfold validate. pose proof (split_on_rposition ch_dot raw) as Hr. split.
  - intros [_ [Hl H]%if_err_Ok]%if_err_Ok.
    apply res_bind_Ok in H as ([cnt ld] & [[Hall Hfirst] [= -> ->]]%segments & H).
    cbn in H. apply if_err_Ok in H as [Hk H].
    destruct (rposition _ raw) as [k|]; [|rewrite Hr in Hk; cbn in Hk; lia].
    destruct Hr as [Hkl Hr]. apply res_bind_Ok in H as (nm & [_ ->]%slice_from_Ok_iff & H).
    apply if_err_Ok in H as [[Hne Hnl]%orb_false_iff H]. apply bool_decide_eq_false in Hne.
    apply res_bind_Ok in H as (b & Hb%index_Ok & H).
    apply if_err_Ok in H as [Hba%negb_false_iff H].
    apply res_bind_Ok in H as (tl & [_ ->]%slice_from_Ok_iff & H).
    apply if_err_Ok in H as [Ht%negb_false_iff%forallb_Forall [= ->]].
    rewrite Nat.add_1_r in *. exists (split_on ch_dot (take d raw)), (drop (S d) raw).
    split; [|done]. rewrite Hr, length_app in Hk. cbn in Hk.
    rewrite Hr, removelast_last in Hall. split; try done; [lia|split; [lia|done]| |].
    + rewrite Hr in Hfirst. specialize (Hfirst eq_refl).
      destruct (split_on ch_dot (take d raw)) as [|seg [|q qs]]; cbn in *; try lia.
      apply starts_badly_false in Hfirst as (c & ? & ?). eauto.
    + split; [|destruct (drop (S d) raw); [done|]; cbn in Hb; simplify_eq|].
      * assert (length (drop (S d) raw) <> 0%nat) by (by destruct (drop (S d) raw)). lia.
      * constructor; [|done]. unfold is_alpha, is_alphanumeric in *. ascii_lia.
      * exists b. by rewrite head_lookup.
  - intros (segs & nm & [Hs Hl [Hsl Hall] (seg & c & Hseg & Hc & Hca) [Hnl Hnc (b & Hb & Hba)]] & Hd).
    rewrite Hd in *. destruct Hr as [Hdl Hr]. rewrite Hr in Hs.
    apply app_inj_tail in Hs as [Hs Hnm].
    assert (bool_decide (raw = []) = false) as ->
      by (apply bool_decide_eq_false; intros ->; cbn in Hdl; lia).
    assert ((317 <? length raw)%nat = false) as -> by lia.
    assert (seg_loop raw raw 0 0 0 None = Ok (length (split_on ch_dot raw), Some d)) as ->.
    { apply segments. rewrite Hd. split; [|done]. unfold loop_ok.
      rewrite Hr, removelast_last, Hs. split; [done|]. intros _.
      destruct segs as [|seg' segs]; [done|]. cbn in Hseg. injection Hseg as ->.
      cbn. destruct (segs ++ _); [done|]. apply starts_badly_false. eauto. }
    cbn [mbind res_bind]. rewrite Hr, length_app, Hs. cbn [length].
    assert ((length segs + 1 <? 3)%nat = false) as -> by lia.
    rewrite slice_from_Ok by lia. cbn [mbind res_bind]. rewrite Nat.add_1_r, Hnm.
    assert (bool_decide (nm = []) = false) as ->
      by (apply bool_decide_eq_false; intros ->; done).
    assert ((63 <? length nm)%nat = false) as -> by lia. cbn [orb].
    rewrite head_lookup in Hb. unfold index. rewrite Hb. cbn [mbind res_bind].
    rewrite Hba. cbn [negb]. rewrite slice_from_Ok by lia. cbn [mbind res_bind].
    assert (forallb is_alphanumeric (drop 1 nm) = true) as ->; [|done].
    by apply forallb_Forall, Forall_drop.
Qed.

#[local] Transparent seg_loop validate_domain_label.
Lemma seg_loop_no_panic raw rest pre seg n d :
  raw = pre ++ seg ++ rest ->
  no_panic (seg_loop raw rest (length pre + length seg) (length pre) n d).
Proof.
  revert pre seg n d. induction rest as [|b rest IH]; intros pre seg n d Hraw; cbn [seg_loop].
  - by rewrite (slice_middle raw pre seg []).
  - assert (Hraw' : raw = pre ++ (seg ++ [b]) ++ rest) by (rewrite Hraw, <- !app_assoc; done).
    destruct (Z.eqb_spec b ch_dot) as [->|Hb].
    + rewrite (slice_middle raw pre seg (ch_dot :: rest)) by done. cbn [mbind res_bind].
      apply no_panic_bind; [apply check_no_panic|]. intros [] _. apply no_panic_if. intros _.
      specialize (IH (pre ++ seg ++ [ch_dot]) [] (S n)).
      rewrite !length_app in IH. cbn [length app] in IH.
      replace (length pre + (length seg + 1) + 0)%nat with (S (length pre + length seg)) in IH by lia.
      replace (length pre + (length seg + 1))%nat with (S (length pre + length seg)) in IH by lia.
      apply IH. by rewrite Hraw', <- !app_assoc.
    + specialize (IH pre (seg ++ [b]) n d Hraw').
      rewrite length_app in IH. cbn [length] in IH.
      by replace (length pre + (length seg + 1))%nat with (S (length pre + length seg)) in IH by lia.
Qed.

Lemma nsid_validate_no_panic raw : no_panic (validate raw).
Proof.
  unfold validate. repeat (apply no_panic_if; intros _). apply no_panic_bind.
  { by apply (seg_loop_no_panic raw raw [] [] 0 None). }
  intros [cnt ld] [_ [= -> ->]]%segments. cbv beta iota. apply no_panic_if; intros Hk.
  pose proof (split_on_rposition ch_dot raw) as Hr.
  destruct (rposition _ raw) as [k|]; [|rewrite Hr in Hk; cbn in Hk; lia].
  destruct Hr as [Hkl _]. rewrite slice_from_Ok by lia. cbn [mbind res_bind].
  apply no_panic_if; intros [Hne _]%orb_false_iff. apply bool_decide_eq_false in Hne.
  assert (length (drop (k + 1) raw) <> 0%nat) by (by destruct (drop (k + 1) raw)).
  apply no_panic_bind; [apply no_panic_index; lia|]. intros b _. apply no_panic_if; intros _.
  rewrite slice_from_Ok by lia. cbn [mbind res_bind]. by apply no_panic_if.
Qed.

(** [Nsid::validate] accepts exactly the names of at least two domain labels
    and a name segment, the first starting with a letter, in at most 317
    bytes, and returns the position of the last dot; it never panics. *)
Theorem nsid_validate_spec raw d :
  no_panic (validate raw) /\
  (validate raw = Ok d <->
   exists segs nm, grammar raw segs nm /\ rposition (fun b => b =? ch_dot) raw = Some d).
Proof. split; [apply nsid_validate_no_panic|apply nsid_validate_iff]. Qed.

Lemma nsid_grammar_ascii raw segs nm : grammar raw segs nm -> Forall (fun b => is_ascii b = true) raw.
Proof.
  intros [Hs _ [_ Hall] _ [_ Hn _]]. apply (split_on_forall ch_dot); [done|]. rewrite Hs.
  apply Forall_app. split; [eapply Forall_impl; [exact Hall|exact label_ascii]|].
  apply Forall_singleton. eapply Forall_impl; [exact Hn|]. cbn. unfold is_alphanumeric.
  intros b. ascii_lia.
Qed.

Lemma name_no_dot nm : valid_name nm -> no_dot nm.
Proof.
  intros [_ Hn _]. eapply Forall_impl; [exact Hn|]. cbn. unfold is_alphanumeric.
  intros b. ascii_lia.
Qed.

(** What parsing stores, and what the accessors make of it. *)
Lemma nsid_parts raw segs nm dom n :
  utf8_valid raw = true -> raw = dom ++ ch_dot :: nm -> split_on ch_dot dom = segs -> no_dot nm ->
  SmallString.represents n (make_ascii_lowercase dom ++ ch_dot :: nm) ->
  as_str n = Ok (make_ascii_lowercase dom ++ ch_dot :: nm) /\
  authority n = Ok (join_with ch_dot (rev (make_ascii_lowercase <$> segs))) /\ name n = Ok nm.
Proof.
  intros Hu Hraw Hsegs Hnm Hn. set (s := make_ascii_lowercase dom ++ ch_dot :: nm) in *.
  assert (Has : as_str n = Ok s).
  { apply SmallString.as_str_represents; [|done].
    replace s with (SmallString.lower_prefix (length dom) raw).
    - by apply SmallString.lower_prefix_utf8.
    - unfold SmallString.lower_prefix, s. rewrite Hraw.
      by rewrite take_app_length, drop_app_length. }
  assert (Hld : last_dot_or_0 s = length dom).
  { unfold last_dot_or_0, s. rewrite rposition_app_r by done.
    cbn. apply make_ascii_lowercase_length. }
  split; [done|]. unfold authority, name. rewrite Has. cbn [mbind res_bind]. rewrite Hld.
  assert (length s = (length dom + S (length nm))%nat)
    by (unfold s; by rewrite length_app, make_ascii_lowercase_length).
  rewrite slice_to_Ok, slice_from_Ok by lia. cbn [mbind res_bind]. unfold s.
  split.
  - rewrite take_app_length' by (by rewrite make_ascii_lowercase_length). subst segs.
    unfold make_ascii_lowercase at 1. rewrite split_on_fmap; [done|].
    intros b. by apply lowercase_eqb_nonletter.
  - rewrite <- (make_ascii_lowercase_length dom). by rewrite drop_app_add.
Qed.

(** The storage of an accepted NSID holds the input with its authority in
    lower case. *)
Lemma nsid_lowered raw d : validate raw = Ok d -> exists st,
  SmallString.lowercase_prefix (SmallString.from raw) d = Ok st /\
  SmallString.represents st (SmallString.lower_prefix d raw) /\ utf8_valid (SmallString.lower_prefix d raw) = true.
Proof.
  intros (segs & nm & Hg & Hd)%nsid_validate_iff. destruct (rposition_cut _ _ _ Hd) as (x & _ & Hcut%(f_equal length)). rewrite length_app, length_cons, length_take in Hcut.
  destruct (SmallString.lowercase_prefix_represents (SmallString.from raw) raw d ltac:(lia)
    (SmallString.from_represents raw)) as (st & Hst & Hrep).
  exists st. split_and!; [done..|]. by apply SmallString.lower_prefix_utf8, utf8_valid_ascii, (nsid_grammar_ascii raw segs nm).
Qed.

(** Parsing an NSID never panics, and neither does reading its text. *)
Lemma nsid_try_from_no_panic raw : no_panic (try_from raw).
Proof.
  apply no_panic_bind; [apply nsid_validate_no_panic|]. intros d (st & -> & _)%nsid_lowered. done.
Qed.

Lemma nsid_text raw n : try_from raw = Ok n -> exists d, validate raw = Ok d /\ as_str n = Ok (SmallString.lower_prefix d raw).
Proof.
  intros (d & Hv & H)%res_bind_Ok. destruct (nsid_lowered raw d Hv) as (st & Hst & Hr & Hu). rewrite Hst in H.
  injection H as <-. exists d. split; [done|]. by apply SmallString.as_str_represents.
Qed.

(** A parsed NSID is its segments with the authority in lowercase; its
    accessors give the authority in DNS order and the name unchanged. *)
Theorem nsid_parse_spec raw n : try_from raw = Ok n ->
  exists segs nm, grammar raw segs nm /\
    as_str n = Ok (join_with ch_dot ((make_ascii_lowercase <$> segs) ++ [nm])) /\
    authority n = Ok (join_with ch_dot (rev (make_ascii_lowercase <$> segs))) /\
    name n = Ok nm.
Proof.
  unfold try_from. intros (d & Hv & H)%res_bind_Ok.
  apply nsid_validate_iff in Hv as (segs & nm & Hg & Hd).
  pose proof (split_on_rposition ch_dot raw) as Hr. rewrite Hd in Hr. destruct Hr as [Hdl Hr].
  destruct (rposition_cut _ _ _ Hd) as (c & Hc & Hcut). apply Z.eqb_eq in Hc. subst c.
  pose proof (g_shape _ _ _ Hg) as Hs. pose proof (g_name _ _ _ Hg) as Hname. rewrite Hr in Hs.
  apply app_inj_tail in Hs as [Hss Hnm]. subst nm.
  destruct (SmallString.lowercase_prefix_represents (SmallString.from raw) raw d ltac:(lia)
    (SmallString.from_represents raw)) as (st & Hst & Hrep).
  rewrite Hst in H. injection H as ->.
  exists segs, (drop (S d) raw). split; [done|].
  assert (Hlp : SmallString.lower_prefix d raw =
    make_ascii_lowercase (take d raw) ++ ch_dot :: drop (S d) raw).
  { unfold SmallString.lower_prefix. f_equal.
    rewrite Hcut at 1. by rewrite drop_app_length' by (rewrite length_take; lia). }
  rewrite Hlp in Hrep.
  destruct (nsid_parts raw segs (drop (S d) raw) (take d raw) n) as (Ha & ? & ?); try done.
  - by apply utf8_valid_ascii, (nsid_grammar_ascii raw segs (drop (S d) raw)).
  - by apply name_no_dot.
  - split; [|done]. rewrite Ha. f_equal. rewrite <- (join_split_on ch_dot (_ ++ _)). f_equal.
    pose proof (split_on_rposition ch_dot (make_ascii_lowercase (take d raw) ++ ch_dot :: drop (S d) raw)) as Hr'.
    rewrite rposition_app_r in Hr' by (done || by apply name_no_dot).
    destruct Hr' as [_ ->]. rewrite take_app_length. f_equal.
    + subst segs. apply split_on_fmap. intros b. by apply lowercase_eqb_nonletter.
    + f_equal. replace (S (length (make_ascii_lowercase (take d raw)))) with
        (length (make_ascii_lowercase (take d raw)) + 1)%nat by lia. by rewrite drop_app_add.
Qed.

Example nsid_parse_spec_witness :
  exists segs nm, grammar (b# "App.Bsky.feed.getPosts") segs nm /\
    as_str (SmallString.from (b# "app.bsky.feed.getPosts")) =
      Ok (join_with ch_dot ((make_ascii_lowercase <$> segs) ++ [nm])) /\
    authority (SmallString.from (b# "app.bsky.feed.getPosts")) =
      Ok (join_with ch_dot (rev (make_ascii_lowercase <$> segs))) /\
    name (SmallString.from (b# "app.bsky.feed.getPosts")) = Ok nm.
Proof. apply (nsid_parse_spec (b# "App.Bsky.feed.getPosts")). vm_compute. reflexivity. Defined.
