(* ===== verification/AtIdentifier.v ===== *)
(** AT identifiers, a DID or a handle: [src/src/syntax/at_identifier.rs]. *)
From S2P Require Import Prelude SyntaxError.
From S2P Require Did Handle.

Inductive AtIdentifier :=
| IsDid (d : Did.Did)
| IsHandle (h : Handle.Handle).

Definition validate (raw : bytes) : res SyntaxError () :=
  if starts_with Did.did_prefix raw then Did.validate raw else Handle.validate raw.

Definition try_from (raw : bytes) : res SyntaxError AtIdentifier :=
  if starts_with Did.did_prefix raw then IsDid <$> Did.try_from raw
  else IsHandle <$> Handle.try_from raw.

Definition is_did (a : AtIdentifier) : bool :=
  match a with IsDid _ => true | IsHandle _ => false end.
Definition is_handle (a : AtIdentifier) : bool :=
  match a with IsDid _ => false | IsHandle _ => true end.
Definition as_did (a : AtIdentifier) : option Did.Did :=
  match a with IsDid d => Some d | IsHandle _ => None end.
Definition as_handle (a : AtIdentifier) : option Handle.Handle :=
  match a with IsDid _ => None | IsHandle h => Some h end.

Definition display (a : AtIdentifier) : res () bytes :=
  match a with IsDid d => Did.as_str d | IsHandle h => Ok h end.

(** The texts [validate] accepts. *)
Definition grammar (raw : bytes) : Prop :=
  (exists m i, Did.grammar raw m i) \/ Handle.grammar raw.

Lemma handle_not_did raw : Handle.grammar raw -> starts_with Did.did_prefix raw = false.
Proof.
  intros [_ Hall _ _]. destruct (starts_with _ raw) eqn:H; [|done].
  apply starts_with_true in H as [r ->]. exfalso.
  assert (Hc : Forall (fun b => b <> ch_colon) (Did.did_prefix ++ r)).
  { apply (split_on_forall ch_dot); [done|]. eapply Forall_impl; [exact Hall|].
    intros l [_ Hc _ _]. eapply Forall_impl; [exact Hc|]. cbn.
    unfold DnsLabel.is_alphanumeric_or_hyphen. intros b. ascii_lia. }
  apply Forall_app in Hc as [Hc _]. rewrite Forall_forall in Hc.
  apply (Hc ch_colon); [|done]. repeat constructor.
Qed.

Lemma at_identifier_validate_iff raw : validate raw = Ok () <-> grammar raw.
Proof.
  unfold validate, grammar. destruct (Did.did_validate_spec raw) as [_ Hd].
  pose proof (Handle.handle_validate_iff raw) as Hh.
  destruct (starts_with Did.did_prefix raw) eqn:Hp.
  - rewrite Hd. split; [by left|]. intros [?|Hg%handle_not_did]; [done|congruence].
  - rewrite Hh. split; [by right|]. intros [(m & i & [-> _ _ _ _])|?]; [|done].
    exfalso. assert (starts_with Did.did_prefix (Did.did_prefix ++ m ++ ch_colon :: i) = true);
      [apply starts_with_true; by eexists|congruence].
Qed.

Lemma at_identifier_validate_no_panic raw : no_panic (validate raw).
Proof.
  unfold validate. destruct (starts_with _ _);
    [apply Did.did_validate_no_panic|apply Handle.handle_validate_no_panic].
Qed.

(** A text is an AT identifier iff it is a DID or a handle; [try_from]
    accepts the same texts, as the kind the prefix says, and a DID displays
    as its text. *)
Theorem at_identifier_spec raw :
  no_panic (validate raw) /\ (validate raw = Ok () <-> grammar raw) /\
  (forall a, try_from raw = Ok a ->
    validate raw = Ok () /\ is_did a = starts_with Did.did_prefix raw /\
    display a = Ok (if is_did a then raw else make_ascii_lowercase raw)).
Proof.
  split_and!; [apply at_identifier_validate_no_panic|apply at_identifier_validate_iff|].
  unfold try_from, validate. intros a. destruct (starts_with _ raw) eqn:Hp.
  - destruct (Did.try_from raw) as [d| |] eqn:Hd; [|done..]. intros [= <-]. cbn.
    destruct (Did.did_accessors raw d Hd) as (m & i & _ & _ & Has & _). rewrite Has.
    unfold Did.try_from in Hd. by apply res_bind_Ok in Hd as ([] & -> & _).
  - destruct (Handle.try_from raw) as [h| |] eqn:Hh; [|done..]. intros [= <-]. cbn.
    unfold Handle.try_from in Hh. by apply res_bind_Ok in Hh as ([] & -> & [= <-]).
Qed.
