(* ===== verification/AtUri.v ===== *)
(** AT-URIs: [src/src/syntax/aturi.rs]. *)
From S2P Require Import Prelude SyntaxError.
From S2P Require AtIdentifier Nsid RecordKey.

Definition scheme : bytes := Eval cbv in b# "at://".
Definition fragment_punctuation : bytes := Eval cbv in b# "._~:@!$&'()*+,;=%[]/-".

(** ** Fragments *)

Definition is_fragment_char (b : Z) : bool :=
  is_ascii_alphanumeric b || bool_decide (b ∈ fragment_punctuation).

(** [char::to_digit(16)] *)
Definition hex_value (b : Z) : option Z :=
  if is_ascii_digit b then Some (b - 48)
  else if in_range 97 102 b then Some (b - 87)
  else if in_range 65 70 b then Some (b - 55)
  else None.

(** The loop that undoes the percent-encoding. *)
Fixpoint percent_decode (b decoded : bytes) : res string bytes :=
  match b with
  | [] => Ok decoded
  | c :: b' =>
      if c =? ch_percent then
        match b' with
        | h :: l :: b'' =>
            match hex_value h, hex_value l with
            | Some hi, Some lo => percent_decode b'' (decoded ++ [Z.lor (Z.shiftl hi 4) lo])
            | _, _ => Err "'%' must be followed by two hex digits"%string
            end
        | _ => Err "'%' must be followed by two hex digits"%string
        end
      else percent_decode b' (decoded ++ [c])
  end.

Definition validate_fragment (fragment : bytes) : res string () :=
  if negb (starts_with [ch_slash] fragment) then
    Err "must be a JSON pointer, starting with '/'"%string
  else if negb (forallb is_fragment_char fragment) then Err "invalid character"%string
  else if negb (bool_decide (ch_percent ∈ fragment)) then Ok ()
  else
    decoded ← percent_decode fragment [];
    if utf8_valid decoded then Ok () else Err "percent-encoding is not UTF-8"%string.

(** ** Validation *)

(** [match find(s, b'/') { Some(idx) => (&s[..idx], true), None => (s, false) }] *)
Definition split_slash (s : bytes) : res SyntaxError (bytes * bool) :=
  match position (fun b => b =? ch_slash) s with
  | Some idx => head ← slice_to s idx; Ok (head, true)
  | None => Ok (s, false)
  end.

(** [validate] from the scheme on: [uri] is [raw] without its fragment. *)
Definition validate_uri (raw uri : bytes) : res SyntaxError () :=
  let err msg := InvalidAtUri (About raw msg) in
  let cause msg e := InvalidAtUri (AboutCause raw msg e) in
  if negb (starts_with scheme uri) then Err (err "must start with at://"%string)
  else
    rest ← slice_from uri 5;
    if bool_decide (rest = []) then Err (err "empty authority"%string)
    else
      '(authority, has_path) ← split_slash rest;
      if bool_decide (authority = []) then Err (err "empty authority"%string)
      else
        _ ← map_err (cause "invalid authority"%string) (AtIdentifier.validate authority);
        if negb has_path then Ok ()
        else
          after_auth ← slice_from rest (length authority + 1);
          if bool_decide (after_auth = []) then
            Err (err "trailing slash without collection"%string)
          else
            '(collection, has_rkey) ← split_slash after_auth;
            if bool_decide (collection = []) then Err (err "empty collection segment"%string)
            else
              _ ← map_err (cause "invalid collection"%string) (Nsid.validate collection);
              if negb has_rkey then Ok ()
              else
                rkey ← slice_from after_auth (length collection + 1);
                if bool_decide (rkey = []) then
                  Err (err "trailing slash without record key"%string)
                else
                  map_err (cause "invalid record key"%string) (RecordKey.validate rkey).

Definition validate (raw : bytes) : res SyntaxError () :=
  let err msg := InvalidAtUri (About raw msg) in
  if bool_decide (raw = []) then Err (err "empty"%string)
  else if (8192 <? length raw)%nat then Err (err "too long"%string)
  else
    uri ← match position (fun b => b =? ch_hash) raw with
          | Some hash =>
              fragment ← slice_from raw (hash + 1);
              _ ← map_err (fun m => err ("invalid fragment: " +:+ m)) (validate_fragment fragment);
              slice_to raw hash
          | None => Ok raw
          end;
    validate_uri raw uri.

(** [AtUri(String)] *)
Definition AtUri : Type := bytes.

Definition try_from (raw : bytes) : res SyntaxError AtUri :=
  validate raw ≫= fun _ => Ok raw.

(** ** Accessors *)

Definition find (c : Z) (s : bytes) : option nat := position (fun b => b =? c) s.

Definition after_scheme (u : AtUri) : res () bytes :=
  let end_ := default (length u) (find ch_hash u) in
  slice u 5 end_.

Definition authority (u : AtUri) : res () bytes :=
  rest ← after_scheme u;
  match find ch_slash rest with
  | Some idx => slice_to rest idx
  | None => Ok rest
  end.

Definition collection (u : AtUri) : res () (option bytes) :=
  rest ← after_scheme u;
  match find ch_slash rest with
  | None => Ok None
  | Some idx =>
      after_auth ← slice_from rest (idx + 1);
      if bool_decide (after_auth = []) then Ok None
      else match find ch_slash after_auth with
           | Some idx => c ← slice_to after_auth idx; Ok (Some c)
           | None => Ok (Some after_auth)
           end
  end.

Definition rkey (u : AtUri) : res () (option bytes) :=
  rest ← after_scheme u;
  match find ch_slash rest with
  | None => Ok None
  | Some idx =>
      after_auth ← slice_from rest (idx + 1);
      match find ch_slash after_auth with
      | None => Ok None
      | Some idx =>
          after_coll ← slice_from after_auth (idx + 1);
          if bool_decide (after_coll = []) then Ok None else Ok (Some after_coll)
      end
  end.

(** [self.0.split_once('#').map(|(_, f)| f)] *)
Definition fragment (u : AtUri) : option bytes :=
  (fun i => drop (S i) u) <$> find ch_hash u.

(** ** The grammar *)

(** A fragment is a JSON pointer that is not empty, written with the
    characters of a URI path, brackets among them, whose percent-encoding is
    of UTF-8 text. *)
Definition pchar (b : Z) : Prop :=
  is_ascii_alphanumeric b = true \/ b ∈ b# "-._~" \/ b ∈ b# "!$&'()*+,;=" \/ b ∈ b# ":@/%[]".

Definition hex_digit (b v : Z) : Prop :=
  48 <= b <= 57 /\ v = b - 48 \/ 65 <= b <= 70 /\ v = b - 65 + 10 \/ 97 <= b <= 102 /\ v = b - 97 + 10.

Inductive decodes : bytes -> bytes -> Prop :=
| decodes_nil : decodes [] []
| decodes_char b s d : b <> ch_percent -> decodes s d -> decodes (b :: s) (b :: d)
| decodes_percent h l hi lo s d : hex_digit h hi -> hex_digit l lo -> decodes s d -> decodes (ch_percent :: h :: l :: s) (16 * hi + lo :: d).

Record fragment_grammar (f : bytes) : Prop := {
  fg_pointer : exists pointer, f = ch_slash :: pointer;
  fg_chars : Forall pchar f;
  fg_text : exists text, decodes f text /\ utf8_valid text = true
}.

Lemma is_fragment_char_pchar b : is_fragment_char b = true <-> pchar b.
Proof.
  unfold is_fragment_char, pchar. rewrite orb_true_iff, bool_decide_eq_true. apply or_iff_compat_l.
  change fragment_punctuation with (b# "._~:@!$&'()*+,;=%[]/-"). vm_compute bytes_of_string. rewrite !elem_of_cons, !elem_of_nil. tauto.
Qed.

Lemma hex_value_digit b v : hex_value b = Some v <-> hex_digit b v.
Proof.
  unfold hex_value, hex_digit, in_range.
  repeat case_match; (split; [intros Hv; first [discriminate Hv|injection Hv as <-; ascii_lia]|intros Hv; first [f_equal; ascii_lia|exfalso; ascii_lia]]).
Qed.

Lemma hex_pair h l hi lo : hex_digit h hi -> hex_digit l lo -> Z.lor (Z.shiftl hi 4) lo = 16 * hi + lo.
Proof.
  intros Hh Hl. rewrite Z.shiftl_mul_pow2 by lia. rewrite lor_disjoint by (unfold hex_digit in *; lia). lia.
Qed.

(** The loop gives what the text stands for, if it stands for anything. *)
Lemma percent_decode_Ok s acc text : percent_decode s acc = Ok text <-> exists d, text = acc ++ d /\ decodes s d.
Proof.
  remember (length s) as n eqn:Hn. assert (length s <= n)%nat as Hle by lia. clear Hn.
  revert s acc Hle. induction n as [|n IH]; intros [|c s] acc Hle; cbn in Hle; try lia.
  1, 2: split; [intros [= <-]; exists []; rewrite app_nil_r; split; [done|constructor]|intros (d & -> & Hd); inversion Hd; by rewrite app_nil_r].
  cbn [percent_decode]. destruct (Z.eqb_spec c ch_percent) as [->|Hc].
  - destruct s as [|h [|l s]]; [split; [done|intros (d & -> & Hd); by inversion Hd]..|].
    destruct (hex_value h) as [hi|] eqn:Hh; [destruct (hex_value l) as [lo|] eqn:Hl|].
    + apply hex_value_digit in Hh, Hl. rewrite (hex_pair h l) by done. rewrite IH by (cbn in Hle; lia). split.
      * intros (d & -> & Hd). exists (16 * hi + lo :: d). rewrite <- app_assoc. split; [done|by apply decodes_percent].
      * intros (d & -> & Hd). inversion Hd as [| |? ? hi' lo' ? d' Hh' Hl' Hd']; subst; [done|].
        apply hex_value_digit in Hh, Hl, Hh', Hl'. assert (hi' = hi /\ lo' = lo) as [-> ->] by (split; congruence).
        exists d'. by rewrite <- app_assoc.
    + split; [done|]. intros (d & -> & Hd). inversion Hd as [| |? ? hi' lo' ? d' Hh' Hl' Hd']; subst; [done|]. apply hex_value_digit in Hl'. congruence.
    + split; [done|]. intros (d & -> & Hd). inversion Hd as [| |? ? hi' lo' ? d' Hh' Hl' Hd']; subst; [done|]. apply hex_value_digit in Hh'. congruence.
  - rewrite IH by lia. split.
    + intros (d & -> & Hd). exists (c :: d). rewrite <- app_assoc. split; [done|by constructor].
    + intros (d & -> & Hd). inversion Hd as [|? ? d' _ Hd'|]; subst; [|done]. exists d'. by rewrite <- app_assoc.
Qed.

Lemma decodes_plain s : ch_percent ∉ s -> decodes s s.
Proof.
  induction s as [|b s IH]; [constructor|]. rewrite not_elem_of_cons. intros [Hb Hs]. constructor; [by intros ->|by apply IH].
Qed.

Lemma validate_fragment_iff f : validate_fragment f = Ok () <-> fragment_grammar f.
Proof.
  assert (Hpchar : forallb is_fragment_char f = true <-> Forall pchar f).
  { rewrite forallb_Forall. split; (intros Hf; eapply Forall_impl; [exact Hf|]); intros b Hb; by apply is_fragment_char_pchar. }
  assert (Hstart : starts_with [ch_slash] f = true <-> exists pointer, f = ch_slash :: pointer) by apply starts_with_true.
  unfold validate_fragment. rewrite !if_err_Ok, !negb_false_iff, Hstart, Hpchar. case_bool_decide as Hin; cbn [negb].
  - rewrite res_bind_Ok. setoid_rewrite percent_decode_Ok. split.
    + intros (Hp & Hc & text & (d & -> & Hd) & Ht). split; [done..|]. exists d. split; [done|]. cbn in Ht. by destruct (utf8_valid d).
    + intros [Hp Hc (d & Hd & Ht)]. split; [done|]. split; [done|]. exists d. split; [by exists d|]. by rewrite Ht.
  - split; [|by intros []]. intros (Hp & Hc & _). split; [done..|]. exists f. split; [by apply decodes_plain|]. apply utf8_valid_ascii.
    eapply Forall_impl; [exact Hc|]. intros b Hb%is_fragment_char_pchar. unfold is_fragment_char in Hb. apply orb_true_iff in Hb as [Hb|Hb]; [ascii_lia|].
    apply bool_decide_eq_true in Hb. assert (Hall : forallb is_ascii fragment_punctuation = true) by reflexivity.
    rewrite forallb_Forall, Forall_forall in Hall. by apply Hall.
Qed.

Record parts := Parts {
  p_authority : bytes;
  p_path : option (bytes * option bytes);  (* collection, record key *)
  p_fragment : option bytes;
}.

Definition render_path (path : option (bytes * option bytes)) : bytes :=
  match path with
  | None => []
  | Some (c, None) => ch_slash :: c
  | Some (c, Some k) => ch_slash :: c ++ ch_slash :: k
  end.

Definition render_fragment (f : option bytes) : bytes :=
  match f with None => [] | Some f => ch_hash :: f end.

Definition render (p : parts) : bytes :=
  scheme ++ p_authority p ++ render_path (p_path p) ++ render_fragment (p_fragment p).

Lemma nsid_valid c : (exists segs nm, Nsid.grammar c segs nm) <-> exists d, Nsid.validate c = Ok d.
Proof.
  split; [|intros [d (segs & nm & Hg & _)%Nsid.nsid_validate_iff]; eauto]. intros (segs & nm & Hg). pose proof (split_on_rposition ch_dot c) as Hr.
  destruct (rposition _ c) as [d|] eqn:Hd; [exists d; apply Nsid.nsid_validate_iff; eauto|].
  pose proof (Nsid.g_shape _ _ _ Hg) as Hs. rewrite Hr in Hs. apply (f_equal length) in Hs. rewrite length_app in Hs.
  pose proof (proj1 (Nsid.g_segs _ _ _ Hg)). cbn in Hs. lia.
Qed.

Definition valid_path (path : option (bytes * option bytes)) : Prop :=
  match path with
  | None => True
  | Some (c, k) =>
      (exists segs nm, Nsid.grammar c segs nm) /\
      match k with None => True | Some k => RecordKey.grammar k end
  end.

Record valid (p : parts) : Prop := {
  v_authority : AtIdentifier.grammar (p_authority p);
  v_path : valid_path (p_path p);
  v_fragment : match p_fragment p with None => True | Some f => fragment_grammar f end;
  v_len : (length (render p) <= 8192)%nat;
}.

(** No part but the fragment has a [#], none but the fragment a [/]. *)
Definition plain (s : bytes) : Prop :=
  Forall (fun b => (b =? ch_slash) = false /\ (b =? ch_hash) = false) s.

Lemma authority_plain a : AtIdentifier.grammar a -> plain a.
Proof.
  intros [(m & i & [-> _ [_ Hm] [_ Hi] _])|[_ Hall _ _]].
  - apply Forall_app. split; [by repeat constructor|]. apply Forall_app.
    split; [|constructor; [done|]]; (eapply Forall_impl; [eassumption|]); cbn;
      unfold Did.is_did_ident_char; intros b; ascii_lia.
  - apply (split_on_forall ch_dot); [done|]. eapply Forall_impl; [exact Hall|].
    intros l [_ Hc _ _]. eapply Forall_impl; [exact Hc|]. cbn.
    unfold DnsLabel.is_alphanumeric_or_hyphen. intros b. ascii_lia.
Qed.

Lemma nsid_plain c d : Nsid.validate c = Ok d -> plain c.
Proof.
  intros (segs & nm & [Hs _ [_ Hall] _ [_ Hn _]] & _)%Nsid.nsid_validate_iff.
  apply (split_on_forall ch_dot); [done|]. rewrite Hs. apply Forall_app. split.
  - eapply Forall_impl; [exact Hall|]. intros l [_ Hc _ _].
    eapply Forall_impl; [exact Hc|]. cbn.
    unfold DnsLabel.is_alphanumeric_or_hyphen. intros b. ascii_lia.
  - apply Forall_singleton. eapply Forall_impl; [exact Hn|]. cbn.
    unfold Nsid.is_alphanumeric. intros b. ascii_lia.
Qed.

Lemma rkey_plain k : RecordKey.grammar k -> plain k.
Proof.
  intros [_ Hc _]. eapply Forall_impl; [exact Hc|]. cbn.
  unfold RecordKey.is_record_key_char. intros b. ascii_lia.
Qed.

Lemma plain_no_slash s : plain s -> Forall (fun b => (b =? ch_slash) = false) s.
Proof. intros H. eapply Forall_impl; [exact H|]. naive_solver. Qed.

Lemma plain_no_hash s : plain s -> Forall (fun b => (b =? ch_hash) = false) s.
Proof. intros H. eapply Forall_impl; [exact H|]. naive_solver. Qed.

(** ** Validation accepts the grammar *)

Lemma split_slash_none s : plain s -> split_slash s = Ok (s, false).
Proof.
  intros Hs%plain_no_slash. unfold split_slash.
  assert (position (fun b => b =? ch_slash) s = None) as ->; [by apply position_None|done].
Qed.

Lemma split_slash_some a r : plain a -> split_slash (a ++ ch_slash :: r) = Ok (a, true).
Proof.
  intros Ha%plain_no_slash. unfold split_slash. rewrite position_app_r by done.
  rewrite slice_to_Ok by (rewrite length_app; lia). cbn. by rewrite take_app_length.
Qed.

Lemma split_slash_inv s h b : split_slash s = Ok (h, b) ->
  s = if b then h ++ ch_slash :: drop (length h + 1) s else h.
Proof.
  unfold split_slash. destruct (position _ s) as [i|] eqn:Hi; [|by intros [= <- <-]].
  intros (t & [Hil ->]%slice_to_Ok_iff & [= <- <-])%res_bind_Ok.
  apply position_cut in Hi as (c & Hc & Hcut & _). apply Z.eqb_eq in Hc. subst c.
  rewrite length_take, Nat.min_l, Nat.add_1_r by done. exact Hcut.
Qed.

Lemma split_slash_no_panic s : no_panic (split_slash s).
Proof.
  unfold split_slash. destruct (position _ s) eqn:H; [|done].
  apply position_lt in H. rewrite slice_to_Ok by lia. done.
Qed.

#[local] Opaque AtIdentifier.validate Nsid.validate RecordKey.validate split_slash.

Lemma validate_uri_complete raw a path :
  AtIdentifier.grammar a -> valid_path path ->
  validate_uri raw (scheme ++ a ++ render_path path) = Ok ().
Proof.
  intros Ha Hp. pose proof (authority_plain a Ha) as Hap. unfold validate_uri.
  assert (starts_with scheme (scheme ++ a ++ render_path path) = true) as ->
    by (apply starts_with_true; by eexists).
  cbn [negb]. rewrite slice_from_Ok by (rewrite length_app; cbn; lia).
  change (drop 5 (scheme ++ a ++ render_path path)) with (a ++ render_path path).
  cbn [mbind res_bind].
  assert (Hane : a <> []).
  { intros ->. destruct Ha as [(m & i & [H _ _ _ _])|[_ Hall _ _]]; [done|].
    cbn in Hall. inversion_clear Hall as [|? ? [Hl _ _ _]]. cbn in Hl. lia. }
  rewrite bool_decide_eq_false_2 by (by destruct a).
  assert (HA : map_err (fun e => InvalidAtUri (AboutCause raw "invalid authority" e))
    (AtIdentifier.validate a) = Ok ()) by (by apply map_err_Ok, AtIdentifier.at_identifier_validate_iff).
  destruct path as [[c k]|]; cbn [render_path valid_path] in *.
  2:{ rewrite app_nil_r, split_slash_none by done. cbn [mbind res_bind].
      by rewrite bool_decide_eq_false_2, HA by done. }
  destruct Hp as [[d Hc]%nsid_valid Hk]. pose proof (nsid_plain c d Hc) as Hcp.
  assert (Hcne : c <> []) by (intros ->; vm_compute in Hc; done).
  assert (HC : map_err (fun e => InvalidAtUri (AboutCause raw "invalid collection" e))
    (Nsid.validate c) = Ok d) by (by apply map_err_Ok).
  destruct k as [k|].
  - rewrite split_slash_some by done. cbn [mbind res_bind].
    rewrite bool_decide_eq_false_2, HA by done. cbn [negb].
    rewrite slice_from_Ok by (rewrite length_app; cbn; lia). rewrite drop_app_add.
    change (drop 1 (ch_slash :: c ++ ch_slash :: k)) with (c ++ ch_slash :: k).
    cbn [mbind res_bind]. rewrite bool_decide_eq_false_2 by (by destruct c).
    rewrite split_slash_some by done. cbn [mbind res_bind].
    rewrite bool_decide_eq_false_2, HC by done. cbn [mbind res_bind negb].
    rewrite slice_from_Ok by (rewrite length_app; cbn; lia). rewrite drop_app_add.
    change (drop 1 (ch_slash :: k)) with k. cbn [mbind res_bind].
    rewrite bool_decide_eq_false_2 by (intros ->; destruct Hk as [Hl _ _]; cbn in Hl; lia).
    by apply map_err_Ok, RecordKey.record_key_validate_iff.
  - rewrite split_slash_some by done. cbn [mbind res_bind].
    rewrite bool_decide_eq_false_2, HA by done. cbn [negb].
    rewrite slice_from_Ok by (rewrite length_app; cbn; lia). rewrite drop_app_add.
    change (drop 1 (ch_slash :: c)) with c.
    cbn [mbind res_bind]. rewrite bool_decide_eq_false_2 by done.
    rewrite split_slash_none by done. cbn [mbind res_bind].
    by rewrite bool_decide_eq_false_2, HC by done.
Qed.

Lemma validate_uri_sound raw uri : validate_uri raw uri = Ok () ->
  exists a path, uri = scheme ++ a ++ render_path path /\
    AtIdentifier.grammar a /\ valid_path path.
Proof.
  unfold validate_uri. intros [[r ->]%negb_false_iff%starts_with_true H]%if_err_Ok.
  rewrite slice_from_Ok in H by (rewrite length_app; cbn; lia). cbn [mbind res_bind] in H.
  change (drop 5 (scheme ++ r)) with r in H.
  apply if_err_Ok in H as [_ H]. apply res_bind_Ok in H as ([a hp] & Hs & H).
  apply split_slash_inv in Hs. apply if_err_Ok in H as [_ H].
  apply res_bind_Ok in H as ([] & Ha%map_err_Ok%AtIdentifier.at_identifier_validate_iff & H).
  exists a. destruct hp; cbn [negb] in H.
  2:{ exists None. cbn. rewrite app_nil_r. by subst r. }
  apply res_bind_Ok in H as (aa & [_ ->]%slice_from_Ok_iff & H).
  apply if_err_Ok in H as [_ H]. set (aa := drop (length a + 1) r) in *.
  apply res_bind_Ok in H as ([c hr] & Hs' & H).
  apply split_slash_inv in Hs'. apply if_err_Ok in H as [_ H].
  apply res_bind_Ok in H as (d & Hc%map_err_Ok & H).
  assert (Hg : exists segs nm, Nsid.grammar c segs nm) by (apply nsid_valid; by exists d).
  destruct hr; cbn [negb] in H.
  - apply res_bind_Ok in H as (k & [_ ->]%slice_from_Ok_iff & H).
    apply if_err_Ok in H as [_ Hk%map_err_Ok%RecordKey.record_key_validate_iff].
    exists (Some (c, Some (drop (length c + 1) aa))). cbn.
    split; [by rewrite <- Hs', <- Hs|]. eauto.
  - exists (Some (c, None)). cbn. split; [by rewrite Hs; subst aa; rewrite Hs'|]. eauto.
Qed.

Lemma render_split a path f :
  scheme ++ a ++ render_path path ++ f = (scheme ++ a ++ render_path path) ++ f.
Proof. by rewrite <- !app_assoc. Qed.

Lemma path_no_hash path : valid_path path ->
  Forall (fun b => (b =? ch_hash) = false) (render_path path).
Proof.
  destruct path as [[c [k|]]|]; cbn; [| |constructor].
  - intros [[d Hc]%nsid_valid Hk]. constructor; [done|]. apply Forall_app.
    split; [by apply plain_no_hash, (nsid_plain c d)|]. constructor; [done|].
    by apply plain_no_hash, rkey_plain.
  - intros [[d Hc]%nsid_valid _]. constructor; [done|]. by apply plain_no_hash, (nsid_plain c d).
Qed.

Lemma uri_no_hash a path : AtIdentifier.grammar a -> valid_path path ->
  Forall (fun b => (b =? ch_hash) = false) (scheme ++ a ++ render_path path).
Proof.
  intros Ha Hp. apply Forall_app. split; [by repeat constructor|]. apply Forall_app.
  split; [by apply plain_no_hash, authority_plain|by apply path_no_hash].
Qed.

#[local] Opaque validate_uri validate_fragment.

Lemma at_uri_validate_iff raw : validate raw = Ok () <-> exists p, raw = render p /\ valid p.
Proof.
  unfold validate. split.
  - intros [_ [Hl (uri & Hu & (a & path & -> & Ha & Hp)%validate_uri_sound)%res_bind_Ok]
      %if_err_Ok]%if_err_Ok.
    destruct (position _ raw) as [h|] eqn:Hh.
    + apply res_bind_Ok in Hu as (f & [_ ->]%slice_from_Ok_iff & Hu).
      apply res_bind_Ok in Hu as ([] & Hf%map_err_Ok%validate_fragment_iff & [_ Hu]%slice_to_Ok_iff).
      apply position_cut in Hh as (c & Hc & Hcut & _). apply Z.eqb_eq in Hc. subst c.
      rewrite Nat.add_1_r in Hf.
      assert (Hraw : raw = render (Parts a path (Some (drop (S h) raw)))).
      { unfold render. cbn [p_authority p_path p_fragment render_fragment].
        rewrite render_split, Hu. exact Hcut. }
      exists (Parts a path (Some (drop (S h) raw))). split; [done|].
      split; try done. rewrite <- Hraw. lia.
    + assert (raw = scheme ++ a ++ render_path path) as -> by congruence. clear Hu.
      exists (Parts a path None).
      assert (Hr : scheme ++ a ++ render_path path = render (Parts a path None))
        by (unfold render; cbn [p_authority p_path p_fragment render_fragment];
            by rewrite app_nil_r).
      split; [done|]. split; try done. rewrite <- Hr. lia.
  - intros (p & -> & [Ha Hp Hf Hl]).
    assert (bool_decide (render p = []) = false) as -> by done.
    assert ((8192 <? length (render p))%nat = false) as -> by lia.
    pose proof (uri_no_hash _ _ Ha Hp) as Hnh.
    assert (Hr : render p = (scheme ++ p_authority p ++ render_path (p_path p))
      ++ render_fragment (p_fragment p)) by apply render_split.
    pose proof (validate_uri_complete (render p) _ _ Ha Hp) as Hv.
    set (base := scheme ++ p_authority p ++ render_path (p_path p)) in *. clearbody base.
    destruct (p_fragment p) as [f|] eqn:Hpf; cbn [render_fragment] in Hr.
    + assert (position (fun b => b =? ch_hash) (render p) = Some (length base)) as ->
        by (rewrite Hr; by apply position_app_r).
      assert (length (render p) = (length base + S (length f))%nat)
        by (rewrite Hr; apply length_app).
      rewrite slice_from_Ok, slice_to_Ok by lia. cbn [mbind res_bind].
      assert (drop (length base + 1) (render p) = f) as -> by (by rewrite Hr, drop_app_add).
      rewrite (proj2 (validate_fragment_iff f) Hf). cbn [map_err mbind res_bind].
      assert (take (length base) (render p) = base) as -> by (rewrite Hr; apply take_app_length).
      done.
    + assert (position (fun b => b =? ch_hash) (render p) = None) as ->.
      { apply position_None. by rewrite Hr, app_nil_r. }
      cbn [mbind res_bind]. rewrite app_nil_r in Hr. by rewrite Hr at 2.
Qed.

(** ** No panics *)

#[local] Transparent validate_uri validate_fragment.

Lemma percent_decode_no_panic b d : no_panic (percent_decode b d).
Proof.
  remember (length b) as n eqn:Hn. assert (length b <= n)%nat as Hle by lia. clear Hn.
  revert b d Hle. induction n as [|n IH]; intros [|c b] d Hle; cbn in *; try done; [lia|].
  destruct (c =? ch_percent).
  - destruct b as [|h [|l b]]; try done. destruct (hex_value h), (hex_value l); try done.
    apply IH. cbn in Hle. lia.
  - apply IH. lia.
Qed.

Lemma validate_fragment_no_panic f : no_panic (validate_fragment f).
Proof.
  unfold validate_fragment. repeat (apply no_panic_if; intros _).
  destruct (negb _); [done|].
  apply no_panic_bind; [apply percent_decode_no_panic|]. intros d _. by destruct (utf8_valid d).
Qed.

Lemma starts_with_length p s : starts_with p s = true -> (length p <= length s)%nat.
Proof. intros [r ->]%starts_with_true. rewrite length_app. lia. Qed.

#[local] Transparent split_slash.
Lemma split_slash_length s h b : split_slash s = Ok (h, b) -> b = true ->
  (length h + 1 <= length s)%nat.
Proof.
  intros Hs ->. apply split_slash_inv in Hs. rewrite Hs, length_app. cbn. lia.
Qed.
#[local] Opaque split_slash.

Lemma validate_uri_no_panic raw uri : no_panic (validate_uri raw uri).
Proof.
  unfold validate_uri. apply no_panic_if; intros Hs%negb_false_iff%starts_with_length.
  rewrite slice_from_Ok by (cbn in Hs; lia). cbn [mbind res_bind].
  apply no_panic_if; intros _. apply no_panic_bind; [apply split_slash_no_panic|].
  intros [a hp] Ha. apply no_panic_if; intros _.
  apply no_panic_bind; [apply no_panic_map_err, AtIdentifier.at_identifier_validate_no_panic|]. intros [] _.
  destruct hp; [|done]. cbn [negb].
  rewrite slice_from_Ok by (by eapply split_slash_length). cbn [mbind res_bind].
  apply no_panic_if; intros _. apply no_panic_bind; [apply split_slash_no_panic|].
  intros [c hr] Hc. apply no_panic_if; intros _.
  apply no_panic_bind; [apply no_panic_map_err, Nsid.nsid_validate_no_panic|]. intros d _.
  destruct hr; [|done]. cbn [negb].
  rewrite slice_from_Ok by (by eapply split_slash_length). cbn [mbind res_bind].
  apply no_panic_if; intros _. apply no_panic_map_err, RecordKey.record_key_validate_no_panic.
Qed.

Lemma at_uri_validate_no_panic raw : no_panic (validate raw).
Proof.
  unfold validate. repeat (apply no_panic_if; intros _).
  apply no_panic_bind; [|intros u _; apply validate_uri_no_panic].
  destruct (position _ raw) as [h|] eqn:Hh; [|done]. apply position_lt in Hh.
  rewrite slice_from_Ok, slice_to_Ok by lia. cbn [mbind res_bind].
  apply no_panic_bind; [apply no_panic_map_err, validate_fragment_no_panic|done].
Qed.

(** ** Accessors *)

(** The text between the scheme and the fragment. *)
Definition hier (p : parts) : bytes := p_authority p ++ render_path (p_path p).

Section Accessors.
Variable p : parts.
Hypothesis Hv : valid p.

Lemma find_path : find ch_slash (hier p) =
  match p_path p with None => None | Some _ => Some (length (p_authority p)) end.
Proof.
  unfold find, hier. destruct Hv as [Ha _ _ _].
  pose proof (plain_no_slash _ (authority_plain _ Ha)) as Hns.
  destruct (p_path p) as [[c [k|]]|]; cbn [render_path].
  - by rewrite position_app_r.
  - by rewrite position_app_r.
  - apply position_None. by rewrite app_nil_r.
Qed.

Lemma after_scheme_render : after_scheme (render p) = Ok (hier p).
Proof.
  destruct Hv as [Ha Hp _ _]. pose proof (uri_no_hash _ _ Ha Hp) as Hnh.
  assert (Hr : render p = (scheme ++ (hier p)) ++ render_fragment (p_fragment p))
    by (unfold render, hier; by rewrite <- !app_assoc).
  assert (He : from_option id (length (render p)) (find ch_hash (render p)) = (5 + length (hier p))%nat).
  { unfold find. destruct (p_fragment p) as [f|]; cbn [render_fragment] in Hr.
    - rewrite Hr, position_app_r by done. cbn [from_option id]. by rewrite length_app.
    - rewrite app_nil_r in Hr.
      assert (position (fun b => b =? ch_hash) (render p) = None) as ->
        by (apply position_None; by rewrite Hr).
      cbn [from_option]. by rewrite Hr, length_app. }
  unfold after_scheme. rewrite He, Hr, <- app_assoc.
  exact (slice_middle _ scheme (hier p) _ eq_refl).
Qed.

Lemma authority_render : authority (render p) = Ok (p_authority p).
Proof.
  unfold authority. rewrite after_scheme_render. cbn [mbind res_bind]. rewrite find_path.
  unfold hier. destruct (p_path p) as [[c k]|]; cbn [render_path].
  - rewrite slice_to_Ok by (rewrite length_app; lia). by rewrite take_app_length.
  - by rewrite app_nil_r.
Qed.

Lemma after_auth_render c k : p_path p = Some (c, k) ->
  slice_from (E:=()) (hier p) (length (p_authority p) + 1) =
    Ok (c ++ match k with None => [] | Some k => ch_slash :: k end).
Proof.
  intros Hp. unfold hier. rewrite Hp. rewrite slice_from_Ok.
  - rewrite drop_app_add. destruct k; cbn; by rewrite ?app_nil_r.
  - rewrite length_app. destruct k; cbn; lia.
Qed.

Lemma collection_facts c k : p_path p = Some (c, k) ->
  c <> [] /\ Forall (fun b => (b =? ch_slash) = false) c /\ k <> Some [].
Proof.
  intros Hp. destruct Hv as [_ Hpv _ _]. rewrite Hp in Hpv. destruct Hpv as [[d Hc]%nsid_valid Hk].
  split_and!.
  - intros ->. vm_compute in Hc. done.
  - by apply plain_no_slash, (nsid_plain c d).
  - intros ->. destruct Hk as [Hl _ _]. cbn in Hl. lia.
Qed.

Lemma collection_render : collection (render p) = Ok (fst <$> p_path p).
Proof.
  unfold collection. rewrite after_scheme_render. cbn [mbind res_bind]. rewrite find_path.
  destruct (p_path p) as [[c k]|] eqn:Hp; [|done].
  destruct (collection_facts c k Hp) as (Hne & Hns & _).
  rewrite (after_auth_render c k) by done. cbn [mbind res_bind].
  rewrite bool_decide_eq_false_2 by (by destruct c). unfold find.
  destruct k as [k|].
  - rewrite position_app_r by done. rewrite slice_to_Ok by (rewrite length_app; lia).
    cbn. by rewrite take_app_length.
  - rewrite app_nil_r.
    by assert (position (fun b => b =? ch_slash) c = None) as -> by (by apply position_None).
Qed.

Lemma rkey_render : rkey (render p) = Ok (p_path p ≫= snd).
Proof.
  unfold rkey. rewrite after_scheme_render. cbn [mbind res_bind]. rewrite find_path.
  destruct (p_path p) as [[c k]|] eqn:Hp; [|done].
  destruct (collection_facts c k Hp) as (Hne & Hns & Hk).
  rewrite (after_auth_render c k) by done. cbn [mbind res_bind]. unfold find.
  destruct k as [k|].
  - rewrite position_app_r by done.
    rewrite slice_from_Ok by (rewrite length_app; cbn; lia). cbn [mbind res_bind].
    rewrite drop_app_add. change (drop 1 (ch_slash :: k)) with k.
    rewrite bool_decide_eq_false_2; [done|]. by intros ->.
  - rewrite app_nil_r.
    by assert (position (fun b => b =? ch_slash) c = None) as -> by (by apply position_None).
Qed.

Lemma fragment_render : fragment (render p) = p_fragment p.
Proof.
  destruct Hv as [Ha Hp _ _]. pose proof (uri_no_hash _ _ Ha Hp) as Hnh.
  unfold fragment, find, render. rewrite render_split.
  destruct (p_fragment p) as [f|]; cbn [render_fragment].
  - rewrite position_app_r by done. cbn [fmap option_fmap option_map].
    by rewrite <- Nat.add_1_r, drop_app_add.
  - rewrite app_nil_r.
    by assert (position (fun b => b =? ch_hash) (scheme ++ p_authority p ++ render_path (p_path p))
      = None) as -> by (by apply position_None).
Qed.
End Accessors.

(** C39. [AtUri::validate] accepts exactly the texts assembled from a valid
    authority, an optional collection with an optional record key, and an
    optional fragment, in at most 8192 bytes; the accessors of the parsed
    URI give back exactly those parts. Nothing panics. *)
Theorem at_uri_spec raw :
  no_panic (validate raw) /\
  (validate raw = Ok () <-> exists p, raw = render p /\ valid p) /\
  (forall u p, try_from raw = Ok u -> raw = render p -> valid p ->
     u = raw /\ authority u = Ok (p_authority p) /\ collection u = Ok (fst <$> p_path p) /\
     rkey u = Ok (p_path p ≫= snd) /\ fragment u = p_fragment p).
Proof.
  split_and!; [apply at_uri_validate_no_panic|apply at_uri_validate_iff|].
  intros u p ([] & _ & [= <-])%res_bind_Ok -> Hv.
  by rewrite authority_render, collection_render, rkey_render, fragment_render.
Qed.

(** The derived [Default] is the empty string, on which every accessor but
    [fragment] panics. *)
Theorem at_uri_default_panics :
  validate [] <> Ok () /\ authority [] = Panic /\ collection [] = Panic /\ rkey [] = Panic.
Proof. by vm_compute. Qed.
