(* ===== verification/Datetime.v ===== *)
(** Datetimes: [src/src/syntax/datetime.rs]. *)
From S2P Require Import Prelude SyntaxError.

(** ** The RFC 3339 subset *)

(** [if !b[i].is_ascii_digit() || ... { return Err(()) }] over the indices. *)
Fixpoint digits_at (b : bytes) (ix : list nat) : res () () :=
  match ix with
  | [] => Ok ()
  | i :: ix' => c ← index b i; if negb (is_ascii_digit c) then Err () else digits_at b ix'
  end.

(** [if b[i] != c { return Err(()) }] *)
Definition expect (b : bytes) (i : nat) (c : Z) : res () () :=
  d ← index b i; if negb (d =? c) then Err () else Ok ().

(** [(b[i] - b'0') * 10 + (b[i + 1] - b'0')], in [u8]. *)
Definition two_digits (b : bytes) (i : nat) : res () Z :=
  x ← index b i; y ← index b (i + 1);
  Ok (as_u8 ((x - 48) * 10 + (y - 48))).

(** [while i < n && b[i].is_ascii_digit() { i += 1 }], as the length of the
    run of digits that starts at [i]. *)
Fixpoint digit_run (s : bytes) : nat :=
  match s with
  | [] => 0
  | c :: s' => if is_ascii_digit c then S (digit_run s') else 0
  end.

Definition minus_zero : bytes := Eval cbv in b# "-00:00".

(** The optional fraction at [i]; returns the index after it. *)
Definition skip_fraction (b : bytes) (i : nat) : res () nat :=
  match b !! i with
  | Some c =>
      if c =? ch_dot then
        let frac_start := S i in
        let i := (frac_start + digit_run (drop frac_start b))%nat in
        if (i =? frac_start)%nat then Err () else Ok i
      else Ok i
  | None => Ok i
  end.

(** The zone at [i]; returns the index after it. *)
Definition skip_zone (b : bytes) (i : nat) : res () nat :=
  let n := length b in
  if (n <=? i)%nat then Err ()
  else
    c ← index b i;
    if c =? ch_Z then Ok (S i)
    else if (c =? ch_plus) || (c =? ch_hyphen) then
      rest ← slice_from b i;
      if bool_decide (rest = minus_zero) then Err ()
      else
        let i := S i in
        if (n <? i + 5)%nat then Err ()
        else
          _ ← digits_at b [i; (i + 1)%nat];
          _ ← expect b (i + 2) ch_colon;
          _ ← digits_at b [(i + 3)%nat; (i + 4)%nat];
          off_hour ← two_digits b i;
          if 23 <? off_hour then Err ()
          else
            off_min ← two_digits b (i + 3);
            if 59 <? off_min then Err () else Ok (i + 5)%nat
    else Err ().

(** Validate the structural format: YYYY-MM-DDThh:mm:ss[.frac](Z|[+-]hh:mm) *)
Definition validate_datetime_syntax (b : bytes) : res () () :=
  let n := length b in
  if (n <? 20)%nat then Err ()
  else
    _ ← digits_at b [0; 1; 2; 3]%nat;
    _ ← expect b 4 ch_hyphen;
    _ ← digits_at b [5; 6]%nat;
    _ ← expect b 7 ch_hyphen;
    _ ← digits_at b [8; 9]%nat;
    _ ← expect b 10 ch_T;
    _ ← digits_at b [11; 12]%nat;
    _ ← expect b 13 ch_colon;
    _ ← digits_at b [14; 15]%nat;
    _ ← expect b 16 ch_colon;
    _ ← digits_at b [17; 18]%nat;
    month ← two_digits b 5;
    if negb (in_range 1 12 month) then Err ()
    else
      day ← two_digits b 8;
      if negb (in_range 1 31 day) then Err ()
      else
        hour ← two_digits b 11;
        if 23 <? hour then Err ()
        else
          minute ← two_digits b 14;
          if 59 <? minute then Err ()
          else
            second ← two_digits b 17;
            if 60 <? second then Err ()
            else
              i ← skip_fraction b 19;
              i ← skip_zone b i;
              if negb (i =? n)%nat then Err () else Ok ().

Definition validate (raw : bytes) : res SyntaxError () :=
  let err msg := InvalidDatetime (About raw msg) in
  if bool_decide (raw = []) then Err (err "empty"%string)
  else if (64 <? length raw)%nat then Err (err "too long"%string)
  else map_err (fun _ => err "invalid datetime syntax"%string) (validate_datetime_syntax raw).

(** [Datetime(String)] *)
Definition Datetime : Type := bytes.

Definition try_from (raw : bytes) : res SyntaxError Datetime :=
  validate raw ≫= fun _ => Ok raw.

(** ** Lenient parsing *)

Definition plus_zero : bytes := Eval cbv in b# "+00:00".
Definition minus_zero_basic : bytes := Eval cbv in b# "-0000".
Definition plus_zero_basic : bytes := Eval cbv in b# "+0000".

Definition has_timezone (s : bytes) : bool :=
  if bool_decide (s = []) then false
  else if bool_decide (last s = Some ch_Z) then true
  else if (6 <=? length s)%nat then
    match s !! (length s - 6)%nat with
    | Some c => (c =? ch_plus) || (c =? ch_hyphen)
    | None => false
    end
  else false.

(** [fixed.truncate(fixed.len() - k); fixed.push_str(suffix)] *)
Definition replace_end (k : nat) (suffix s : bytes) : bytes :=
  take (length s - k) s ++ suffix.

Definition repair (raw : bytes) : bytes :=
  let fixed := if ends_with minus_zero raw then replace_end 6 plus_zero raw else raw in
  let fixed :=
    if ends_with minus_zero_basic fixed || ends_with plus_zero_basic fixed
    then replace_end 5 plus_zero fixed else fixed in
  if has_timezone fixed then fixed else fixed ++ [ch_Z].

Definition parse_lenient (raw : bytes) : res SyntaxError Datetime :=
  match try_from raw with
  | Ok dt => Ok dt
  | Panic => Panic
  | Err _ => try_from (repair raw)
  end.

(** ** The grammar *)

Definition digit (c : Z) : Prop := is_ascii_digit c = true.

(** Two digits and the number they write. *)
Inductive number2 : bytes -> Z -> Prop :=
| Number2 x y : digit x -> digit y -> number2 [x; y] ((x - 48) * 10 + (y - 48)).

Inductive fraction : bytes -> Prop :=
| NoFraction : fraction []
| Fraction f : f <> [] -> Forall digit f -> fraction (ch_dot :: f).

Inductive zone : bytes -> Prop :=
| Utc : zone [ch_Z]
| Offset sign hh mm h m :
    sign = ch_plus \/ sign = ch_hyphen -> number2 hh h -> number2 mm m ->
    h <= 23 -> m <= 59 -> sign :: hh ++ ch_colon :: mm <> minus_zero ->
    zone (sign :: hh ++ ch_colon :: mm).

(** [y-mm-ddThh:mi:ss] with a fraction and a zone, and the numbers it writes. *)
Definition datetime_parts (raw y mm dd hh mi ss f z : bytes) (mon day h m s : Z) : Prop :=
  raw = y ++ ch_hyphen :: mm ++ ch_hyphen :: dd ++ ch_T :: hh ++ ch_colon :: mi ++
    ch_colon :: ss ++ f ++ z /\
  length y = 4%nat /\ Forall digit y /\
  number2 mm mon /\ 1 <= mon <= 12 /\ number2 dd day /\ 1 <= day <= 31 /\
  number2 hh h /\ h <= 23 /\ number2 mi m /\ m <= 59 /\ number2 ss s /\ s <= 60 /\
  fraction f /\ zone z.

Record grammar (raw : bytes) : Prop := Grammar {
  g_len : (length raw <= 64)%nat;
  g_shape : exists y mm dd hh mi ss f z mon day h m s,
    datetime_parts raw y mm dd hh mi ss f z mon day h m s
}.

(** ** Validation accepts the grammar *)

Lemma two_digits_small x y : digit x -> digit y ->
  as_u8 ((x - 48) * 10 + (y - 48)) = (x - 48) * 10 + (y - 48) /\
  0 <= (x - 48) * 10 + (y - 48).
Proof.
  unfold digit, as_u8. intros Hx Hy. rewrite Z.mod_small; ascii_lia.
Qed.

Lemma digit_run_app f z : Forall digit f -> match z with c :: _ => ~ digit c | [] => True end ->
  digit_run (f ++ z) = length f.
Proof.
  intros Hf Hz. induction Hf as [|c f Hc _ IH]; cbn.
  - destruct z as [|c z]; [done|]. cbn. unfold digit in Hz. by destruct (is_ascii_digit c).
  - by rewrite Hc, IH.
Qed.

Lemma digit_run_take s : Forall digit (take (digit_run s) s).
Proof.
  induction s as [|c s IH]; [constructor|]. cbn. destruct (is_ascii_digit c) eqn:?; by constructor.
Qed.

Lemma digit_run_le s : (digit_run s <= length s)%nat.
Proof. induction s as [|c s IH]; cbn; [lia|]. destruct (is_ascii_digit c); lia. Qed.

Lemma zone_head z : zone z -> exists c z', z = c :: z' /\ ~ digit c /\ c <> ch_dot.
Proof. intros [|sign hh mm h m [->| ->] _ _ _ _ _]; unfold digit; eauto. Qed.

(** ** Cutting off a prefix *)

Section Shift.
Variables (pre s : bytes).
Let n := length pre.

Lemma index_shift k i : k = (n + i)%nat -> index (E:=()) (pre ++ s) k = index s i.
Proof.
  intros ->. unfold index, n. rewrite lookup_app_r by lia.
  by replace (length pre + i - length pre)%nat with i by lia.
Qed.

Lemma digits_at_shift ks ix : ks = map (Nat.add n) ix ->
  digits_at (pre ++ s) ks = digits_at s ix.
Proof.
  intros ->. induction ix as [|i ix IH]; [done|]. cbn -[index].
  by rewrite (index_shift _ i), IH.
Qed.

Lemma expect_shift k i c : k = (n + i)%nat -> expect (pre ++ s) k c = expect s i c.
Proof. intros Hk. unfold expect. by rewrite (index_shift k i). Qed.

Lemma two_digits_shift k i : k = (n + i)%nat -> two_digits (pre ++ s) k = two_digits s i.
Proof. intros Hk. unfold two_digits. rewrite (index_shift k i), (index_shift _ (i + 1)); [done|lia..]. Qed.

Lemma skip_zone_shift : skip_zone (pre ++ s) n = Nat.add n <$> skip_zone s 0.
Proof.
  unfold skip_zone. rewrite length_app. fold n.
  replace (n + length s <=? n)%nat with (length s <=? 0)%nat by lia.
  destruct (length s <=? 0)%nat eqn:Hs; [done|].
  rewrite (index_shift n 0) by lia. destruct (index s 0) as [c| |]; cbn [mbind res_bind]; [|done..].
  destruct (c =? ch_Z); [cbn; f_equal; lia|].
  destruct (_ || _); [|done].
  rewrite slice_from_Ok, slice_from_Ok by (rewrite ?length_app; fold n; lia).
  cbn [mbind res_bind]. unfold n. rewrite drop_app_length, drop_0. fold n.
  case_bool_decide; [done|].
  replace (n + length s <? S n + 5)%nat with (length s <? 1 + 5)%nat by lia.
  destruct (_ <? _)%nat; [done|].
  rewrite (digits_at_shift [S n; S n + 1]%nat [1; 2]%nat) by (cbn; repeat f_equal; lia).
  rewrite (digits_at_shift [S n + 3; S n + 4]%nat [4; 5]%nat) by (cbn; repeat f_equal; lia).
  rewrite (expect_shift _ 3), (two_digits_shift (S n) 1), (two_digits_shift (S n + 3) 4) by lia.
  cbn [Nat.add]. unfold mbind, res_bind, fmap, res_fmap.
  repeat (case_match; try done). f_equal. lia.
Qed.
End Shift.

(** ** The zone and the fraction *)

Lemma digits_at_2 s i j : digits_at s [i; j] = Ok () <->
  exists x y, s !! i = Some x /\ s !! j = Some y /\ digit x /\ digit y.
Proof. unfold digit. cbn [digits_at]. res_facts. naive_solver. Qed.

Lemma expect_Ok s i c u : expect s i c = Ok u <-> s !! i = Some c.
Proof. unfold expect. res_facts. setoid_rewrite Z.eqb_eq. destruct u. naive_solver. Qed.

Lemma two_digits_Ok s i v : two_digits s i = Ok v <->
  exists x y, s !! i = Some x /\ s !! (i + 1)%nat = Some y /\ as_u8 ((x - 48) * 10 + (y - 48)) = v.
Proof. unfold two_digits. res_facts. naive_solver. Qed.

Lemma skip_zone_Ok s : skip_zone s 0 = Ok (length s) <-> zone s.
Proof.
  split.
  - unfold skip_zone. destruct s as [|c s]; [done|].
    replace (length (c :: s) <=? 0)%nat with false by done.
    cbn -[two_digits digits_at expect length drop slice_from].
    destruct (Z.eqb_spec c ch_Z) as [->|]; [destruct s; [intros _; constructor|done]|].
    destruct (_ || _) eqn:Hc; [|done]. rewrite slice_from_Ok by lia.
    cbn [mbind res_bind]. rewrite drop_0. case_bool_decide as Hne; [done|].
    destruct (_ <? _)%nat; [done|]. intros ([] & Hd1 & H)%res_bind_Ok.
    apply res_bind_Ok in H as (? & ?%expect_Ok & ([] & Hd2 & H)%res_bind_Ok).
    apply res_bind_Ok in H as (h & Hh & H). split_ifs_in H.
    apply res_bind_Ok in H as (m & Hm & H). split_ifs_in H.
    apply two_digits_Ok in Hh as (? & ? & ? & ? & ?), Hm as (? & ? & ? & ? & ?).
    apply digits_at_2 in Hd1 as (d1 & d2 & ? & ? & D1 & D2), Hd2 as (d4 & d5 & ? & ? & D4 & D5).
    destruct s as [|? [|? [|? [|? [|? [|]]]]]]; simplify_eq/=.
    pose proof (two_digits_small _ _ D1 D2) as [E1 _]. pose proof (two_digits_small _ _ D4 D5) as [E2 _].
    eapply (Offset c [d1; d2] [d4; d5]); [lia|by constructor..| | |done]; lia.
  - intros [|sign hh mm h m Hs [x y Dx Dy] [x' y' Dx' Dy'] Hh Hm Hne]; [done|].
    pose proof (two_digits_small _ _ Dx Dy) as [E1 _]. pose proof (two_digits_small _ _ Dx' Dy') as [E2 _].
    unfold skip_zone. cbn -[two_digits digits_at expect drop slice_from].
    replace (_ <=? _)%nat with false by done.
    replace (sign =? ch_Z) with false by lia. replace (_ || _) with true by lia.
    rewrite slice_from_Ok by (cbn; lia). cbn [mbind res_bind]. rewrite drop_0, bool_decide_false by done.
    unfold digit in *. cbn. rewrite Dx, Dy. cbn. rewrite Dx', Dy'. cbn. rewrite E1, E2.
    split_ifs. done.
Qed.

Lemma no_panic_digits_at s ix : Forall (fun i => i < length s)%nat ix -> no_panic (digits_at s ix).
Proof.
  induction 1 as [|i ix Hi _ IH]; [done|]. cbn.
  apply no_panic_bind; [by apply no_panic_index|]. intros. by destruct (negb _).
Qed.

Lemma no_panic_expect s i c : (i < length s)%nat -> no_panic (expect s i c).
Proof.
  intros. apply no_panic_bind; [by apply no_panic_index|]. intros. by destruct (negb _).
Qed.

Lemma no_panic_two_digits s i : (i + 1 < length s)%nat -> no_panic (two_digits s i).
Proof.
  intros. apply no_panic_bind; [apply no_panic_index; lia|]. intros.
  apply no_panic_bind; [by apply no_panic_index|]. done.
Qed.

(** Splits a chain of fallible reads into their bounds. *)
Ltac reads :=
  repeat first
    [ apply no_panic_Ok | apply no_panic_Err
    | apply no_panic_digits_at; repeat constructor; lia
    | apply no_panic_expect; lia | apply no_panic_two_digits; lia
    | apply no_panic_index; lia
    | apply no_panic_bind; [|intros ? ?]
    | apply no_panic_if; intros ? ].

Lemma no_panic_skip_zone s i : no_panic (skip_zone s i).
Proof.
  unfold skip_zone. reads. destruct (_ =? _); [done|]. destruct (_ || _); [|done].
  rewrite slice_from_Ok by lia. cbn [mbind res_bind]. reads.
Qed.

Lemma skip_fraction_shift pre s :
  skip_fraction (pre ++ s) (length pre) = Nat.add (length pre) <$> skip_fraction s 0.
Proof.
  unfold skip_fraction. rewrite lookup_app_r, Nat.sub_diag by lia.
  replace (drop (S (length pre)) (pre ++ s)) with (drop 1 s)
    by (rewrite drop_app_ge by lia; f_equal; lia).
  destruct s as [|c s]; cbn; [f_equal; lia|].
  split_ifs; try done; cbn; f_equal; lia.
Qed.

Lemma skip_fraction_Ok s j : skip_fraction s 0 = Ok j ->
  fraction (take j s) /\ (j <= length s)%nat.
Proof.
  unfold skip_fraction. destruct s as [|c s]; cbn; [intros [= <-]; split; [constructor|lia]|].
  destruct (Z.eqb_spec c ch_dot) as [->|]; [|intros [= <-]; split; [constructor|lia]].
  rewrite drop_0. destruct (_ =? _)%nat eqn:?; [done|]. intros [= <-]. cbn [take].
  pose proof (digit_run_le s). split; [|lia]. constructor; [|apply digit_run_take].
  destruct s; [done|]. by destruct (digit_run _).
Qed.

Lemma skip_fraction_app f z : fraction f -> zone z -> skip_fraction (f ++ z) 0 = Ok (length f).
Proof.
  intros Hf (c & z' & -> & Hc & Hdot)%zone_head. unfold skip_fraction.
  destruct Hf as [|f Hne Hf]; cbn -[drop].
  - by replace (c =? ch_dot) with false by lia.
  - change (drop 1 (ch_dot :: ?s)) with s. rewrite digit_run_app by done.
    by destruct f.
Qed.

(** ** The theorem *)

Lemma skip_tail pre tl :
  (exists i j, skip_fraction (pre ++ tl) (length pre) = Ok i /\ skip_zone (pre ++ tl) i = Ok j /\
    j = length (pre ++ tl)) <->
  exists f z, tl = f ++ z /\ fraction f /\ zone z.
Proof.
  setoid_rewrite skip_fraction_shift. split.
  - intros (i & j & Hf & Hz & ->). destruct (skip_fraction tl 0) as [k| |] eqn:Hk; [|done..].
    injection Hf as <-. apply skip_fraction_Ok in Hk as [Hf Hk].
    exists (take k tl), (drop k tl). rewrite take_drop. split_and!; [done..|].
    apply skip_zone_Ok. revert Hz. rewrite <- (take_drop k tl) at 1. rewrite app_assoc.
    replace (length pre + k)%nat with (length (pre ++ take k tl)) by (rewrite length_app, length_take; lia).
    rewrite skip_zone_shift. destruct (skip_zone _ 0); [|done..]. cbn.
    intros [= Hz]. f_equal. rewrite !length_app, length_take in Hz. rewrite length_drop. lia.
  - intros (f & z & -> & Hf & Hz). exists (length pre + length f)%nat, (length (pre ++ f ++ z)).
    rewrite skip_fraction_app by done. split_and!; [done| |done].
    rewrite app_assoc, <- length_app, skip_zone_shift. apply skip_zone_Ok in Hz. rewrite Hz.
    cbn. by rewrite !length_app.
Qed.

Lemma no_panic_skip_fraction s i : no_panic (skip_fraction s i).
Proof. unfold skip_fraction. destruct (s !! i); [|done]. split_ifs; done. Qed.

#[local] Opaque skip_fraction skip_zone.

Definition num2 (x y : Z) : Z := as_u8 ((x - 48) * 10 + (y - 48)).

Lemma number2_small x y : digit x -> digit y -> number2 [x; y] (num2 x y).
Proof. intros Hx Hy. unfold num2. rewrite (proj1 (two_digits_small x y Hx Hy)). by constructor. Qed.

Lemma validate_datetime_syntax_no_panic b : no_panic (validate_datetime_syntax b).
Proof.
  unfold validate_datetime_syntax. reads.
  - apply no_panic_skip_fraction.
  - apply no_panic_skip_zone.
Qed.

(** The shape of an accepted string whose first nineteen bytes are given. *)
Ltac next_test :=
  match goal with
  | |- (if negb ?b then _ else _) = Ok _ -> _ => destruct b eqn:?; [|done]
  | |- (if ?b then _ else _) = Ok _ -> _ => destruct b eqn:?; [done|]
  | |- ((if negb ?b then _ else _) ≫= _) = Ok _ -> _ => destruct b eqn:?; [|done]
  end; cbn [negb mbind res_bind].

Lemma validate_datetime_syntax_sound b :
  validate_datetime_syntax b = Ok () -> exists y mm dd hh mi ss f z mon day h m s,
    datetime_parts b y mm dd hh mi ss f z mon day h m s.
Proof.
  unfold validate_datetime_syntax. do 19 (destruct b as [|? b]; [done|]).
  match goal with |- context [skip_fraction ?s 19] => pose proof (skip_tail (take 19 s) b) as Ht end.
  cbn [take app] in Ht. rewrite take_0 in Ht. cbn [app] in Ht. cbn -[length].
  destruct (_ <? _)%nat; [done|]. repeat next_test.
  intros (i & Hf & (j & Hz & Hj)%res_bind_Ok)%res_bind_Ok.
  match type of Hz with skip_zone ?s _ = _ =>
    destruct (Nat.eqb_spec j (length s)) as [->|]; [clear Hj|done];
    destruct Ht as [(f & z' & -> & Hf' & Hz') _]; [by exists i, (length s)|]
  end.
  exists [z; z0; z1; z2], [z4; z5], [z7; z8], [z10; z11], [z13; z14], [z16; z17], f, z'.
  exists (num2 z4 z5), (num2 z7 z8), (num2 z10 z11), (num2 z13 z14), (num2 z16 z17).
  repeat match goal with H : (_ =? _) = true |- _ => apply Z.eqb_eq in H as -> end.
  split; [reflexivity|]. clear Hf Hz i. unfold in_range in *.
  rewrite andb_true_iff, !Z.leb_le, ?Z.ltb_ge in *.
  split; [done|]. split; [by repeat constructor|].
  do 5 (split; [by apply number2_small|]; split; [assumption|]). done.
Qed.

Lemma validate_datetime_syntax_complete b y mm dd hh mi ss f z mon day h m s :
  datetime_parts b y mm dd hh mi ss f z mon day h m s -> validate_datetime_syntax b = Ok ().
Proof.
  intros (-> & Hl & Hy & Hmm & ? & Hdd & ? & Hhh & ? & Hmi & ? & Hss & ? & Hf & Hz).
  destruct y as [|y1 [|y2 [|y3 [|y4 [|]]]]]; try done. rewrite !Forall_cons in Hy.
  destruct Hy as (? & ? & ? & ? & _).
  destruct Hmm as [? ? D1 D2], Hdd as [? ? D3 D4], Hhh as [? ? D5 D6], Hmi as [? ? D7 D8], Hss as [? ? D9 D10].
  cbn [app]. unfold validate_datetime_syntax.
  match goal with |- context [skip_fraction ?s 19] =>
    destruct (skip_tail (take 19 s) (f ++ z)) as [_ Ht]; set (whole := s) in *
  end.
  assert (length whole <? 20 = false)%nat as ->.
  { destruct (zone_head _ Hz) as (? & ? & -> & _). subst whole. cbn. rewrite length_app. cbn. lia. }
  repeat match goal with |- (?m ≫= _) = _ =>
    assert (m = Ok ()) as -> by (cbn; unfold digit in *; repeat match goal with H : is_ascii_digit _ = true |- _ => rewrite H; clear H end; done); cbn [mbind res_bind] end.
  assert (Htwo : forall i a b, whole !! i = Some a -> whole !! (i + 1)%nat = Some b ->
    digit a -> digit b -> two_digits whole i = Ok ((a - 48) * 10 + (b - 48))).
  { intros i a b Ha Hb Da Db. apply two_digits_Ok. exists a, b.
    split_and!; [done..|]. by apply two_digits_small. }
  assert (Hrange : forall lo hi v, lo <= v <= hi -> negb (in_range lo hi v) = false)
    by (unfold in_range; lia).
  rewrite (Htwo 5%nat x y), (Htwo 8%nat x0 y0), (Htwo 11%nat x1 y5), (Htwo 14%nat x2 y6),
    (Htwo 17%nat x3 y7) by done.
  cbn [mbind res_bind]. rewrite !Hrange by done.
  do 3 (rewrite (proj2 (Z.ltb_ge _ _)) by done).
  destruct Ht as (i & j & Hi & Hj & ->); [by exists f, z|].
  change (take 19 whole ++ f ++ z) with whole in *. change (length (take 19 whole)) with 19%nat in Hi.
  rewrite Hi. cbn [mbind res_bind]. rewrite Hj. cbn [mbind res_bind]. by rewrite Nat.eqb_refl.
Qed.

Lemma datetime_validate_iff raw :
  (validate raw = Ok () <-> grammar raw) /\
  (~ grammar raw -> exists m, validate raw = Err (InvalidDatetime m)).
Proof.
  pose proof (validate_datetime_syntax_no_panic raw) as Hnp.
  assert (Hiff : validate raw = Ok () <-> grammar raw).
  { unfold validate. case_bool_decide as He.
    { subst. split; [done|]. by intros [_ ([]&?&?&?&?&?&?&?&?&?&?&?&?& [? _])]. }
    destruct (64 <? length raw)%nat eqn:?; [split; [done|intros []; lia]|].
    rewrite map_err_Ok. split.
    - intros H. split; [lia|]. by apply validate_datetime_syntax_sound.
    - intros [_ (?&?&?&?&?&?&?&?&?&?&?&?&?&?)]. by eapply validate_datetime_syntax_complete. }
  split; [done|]. rewrite <- Hiff. unfold validate.
  case_bool_decide; [eauto|]. destruct (_ <? _)%nat; [eauto|].
  destruct (validate_datetime_syntax raw) as [[]| |]; cbn; [done|eauto|done].
Qed.

(** C40. Validation of a datetime never panics, accepts exactly the RFC 3339
    subset written down by [grammar], and refuses with [InvalidDatetime]. *)
Theorem datetime_validate_spec raw :
  (validate raw = Ok () <-> grammar raw) /\
  (~ grammar raw -> exists m, validate raw = Err (InvalidDatetime m)).
Proof. apply datetime_validate_iff. Qed.

Lemma try_from_grammar s : grammar s -> try_from s = Ok s.
Proof. intros Hs. unfold try_from. by rewrite (proj2 (proj1 (datetime_validate_iff s)) Hs). Qed.

Lemma try_from_sound s d : try_from s = Ok d -> grammar s /\ d = s.
Proof.
  unfold try_from. intros ([] & Hv & [= ->])%res_bind_Ok. split; [|done]. by apply datetime_validate_iff.
Qed.

Lemma try_from_no_panic s : no_panic (try_from s).
Proof.
  unfold try_from, no_panic. rewrite res_bind_Panic. intros [Hv|(? & _ & ?)]; [|done].
  unfold validate in Hv. case_bool_decide; [done|]. destruct (_ <? _)%nat; [done|].
  rewrite map_err_Panic in Hv. by apply validate_datetime_syntax_no_panic in Hv.
Qed.

(** ** Lenient parsing *)

(** A datetime before its zone. *)
Definition local_time (l : bytes) : Prop := exists y mm dd hh mi ss f mon day h m s,
  datetime_parts (l ++ [ch_Z]) y mm dd hh mi ss f [ch_Z] mon day h m s.

(** What [parse_lenient] makes of the text in the place of the zone. *)
Inductive repaired : bytes -> bytes -> Prop :=
| KeepZone z : zone z -> repaired z z
| MinusZero : repaired minus_zero plus_zero
| MinusZeroBasic : repaired minus_zero_basic plus_zero
| PlusZeroBasic : repaired plus_zero_basic plus_zero
| MissingZone : repaired [] [ch_Z].

Lemma local_time_eq l y mm dd hh mi ss f :
  l ++ [ch_Z] = y ++ ch_hyphen :: mm ++ ch_hyphen :: dd ++ ch_T :: hh ++ ch_colon :: mi ++
    ch_colon :: ss ++ f ++ [ch_Z] ->
  l = y ++ ch_hyphen :: mm ++ ch_hyphen :: dd ++ ch_T :: hh ++ ch_colon :: mi ++
    ch_colon :: ss ++ f.
Proof.
  intros He. apply (app_inj_tail _ _ ch_Z ch_Z). rewrite He.
  by repeat (rewrite <- ?app_assoc; cbn [app]).
Qed.

Lemma local_time_zone l z : local_time l -> zone z -> (length (l ++ z) <= 64)%nat -> grammar (l ++ z).
Proof.
  intros (y & mm & dd & hh & mi & ss & f & mon & day & h & m & s & ->%local_time_eq & H) Hz Hl.
  split; [done|]. exists y, mm, dd, hh, mi, ss, f, z, mon, day, h, m, s. split; [|naive_solver].
  by repeat (rewrite <- ?app_assoc; cbn [app]).
Qed.

(** The clock part and the fraction are digits, colons and dots. *)
Definition clock_char (c : Z) : Prop := c <> ch_plus /\ c <> ch_hyphen /\ c <> ch_Z.

Lemma digit_clock_char c : digit c -> clock_char c.
Proof. unfold digit, clock_char. ascii_lia. Qed.

Lemma local_time_tail l : local_time l ->
  exists p k, l = p ++ k /\ (8 <= length k)%nat /\ Forall clock_char k.
Proof.
  intros (y & mm & dd & hh & mi & ss & f & mon & day & h & m & s & ->%local_time_eq & H).
  destruct H as (Hl & Hy & Hmm & _ & Hdd & _ & Hhh & _ & Hmi & _ & Hss & _ & Hf & _).
  exists (y ++ ch_hyphen :: mm ++ ch_hyphen :: dd ++ [ch_T]), (hh ++ ch_colon :: mi ++ ch_colon :: ss ++ f).
  split; [|split].
  - by repeat (rewrite <- ?app_assoc; cbn [app]).
  - destruct Hhh, Hmi, Hss. cbn. lia.
  - assert (Hf' : Forall clock_char f).
    { destruct Hf as [|f' _ Hf]; constructor; [by unfold clock_char|].
      eapply Forall_impl; [done|]. apply digit_clock_char. }
    destruct Hhh, Hmi, Hss. repeat constructor; try (by apply digit_clock_char); done.
Qed.

Lemma local_time_last l : local_time l ->
  exists a b c d e f r, reverse l = a :: b :: c :: d :: e :: f :: r /\
    Forall clock_char [a; b; c; d; e; f].
Proof.
  intros (p & k & -> & Hk & Hc%Forall_reverse)%local_time_tail.
  rewrite reverse_app. rewrite <- length_reverse in Hk.
  destruct (reverse k) as [|a [|b [|c [|d [|e [|f r]]]]]]; cbn in Hk; try lia.
  exists a, b, c, d, e, f, (r ++ reverse p). rewrite !Forall_cons in *. naive_solver.
Qed.

(** Reads an equation or a test on the end of a string backwards. *)
Ltac backwards H :=
  apply (f_equal reverse) in H; rewrite ?reverse_app, ?reverse_involutive in H; cbn in H.

Lemma grammar_zone raw : grammar raw -> exists p z, raw = p ++ z /\ zone z.
Proof.
  intros [_ (y & mm & dd & hh & mi & ss & f & z & ? & ? & ? & ? & ? & -> & H)].
  exists (y ++ ch_hyphen :: mm ++ ch_hyphen :: dd ++ ch_T :: hh ++ ch_colon :: mi ++ ch_colon :: ss ++ f), z.
  split; [|naive_solver]. by repeat (rewrite <- ?app_assoc; cbn [app]).
Qed.

Lemma not_grammar_repaired l t z : local_time l -> repaired t z -> ~ zone t -> ~ grammar (l ++ t).
Proof.
  intros Hl Hr Ht (p & z' & He & Hz)%grammar_zone.
  destruct Hz as [|sign hh mm h m Hs [] [] _ _ Hne];
    destruct Hr; try done; backwards He; simplify_eq/=; try done;
    destruct (local_time_last l Hl) as (?&?&?&?&?&?&?& Hrev & Hc);
    rewrite Hrev in He; rewrite !Forall_cons in Hc; unfold clock_char in Hc; naive_solver.
Qed.

Lemma ends_with_reverse p s : ends_with p s = starts_with (reverse p) (reverse s).
Proof.
  apply eq_true_iff_eq. rewrite ends_with_true, starts_with_true. split.
  - intros [r ->]. exists (reverse r). apply reverse_app.
  - intros [r Hr]. exists (reverse r). by backwards Hr.
Qed.

Lemma has_timezone_reverse s : has_timezone s =
  match reverse s with
  | c :: _ => (c =? ch_Z) || match reverse s !! 5%nat with
                            | Some c => (c =? ch_plus) || (c =? ch_hyphen) | None => false end
  | [] => false
  end.
Proof.
  rewrite <- (reverse_involutive s) at 1. generalize (reverse s) as r. intros [|c r]; [done|].
  unfold has_timezone. rewrite bool_decide_false; [|intros He; by backwards He].
  rewrite reverse_cons, last_snoc. destruct (Z.eqb_spec c ch_Z) as [->|]; [done|].
  rewrite bool_decide_false by naive_solver. rewrite <- reverse_cons, length_reverse.
  cbn [orb]. destruct (_ <=? _)%nat eqn:Hle.
  - rewrite reverse_lookup by (cbn; lia). cbn [length] in *.
    by replace (S (length r) - S (S (length r) - 6))%nat with 5%nat by lia.
  - by rewrite (lookup_ge_None_2 _ 5) by lia.
Qed.

Lemma replace_end_app l t s k : length t = k -> replace_end k s (l ++ t) = l ++ s.
Proof.
  intros <-. unfold replace_end. rewrite length_app, Nat.add_sub. by rewrite take_app_length.
Qed.

(** Decides a test on the end of [l ++ t], from the last characters of [l]. *)
Ltac end_test Hrev :=
  rewrite ?ends_with_reverse, ?has_timezone_reverse, ?reverse_app, Hrev;
  unfold starts_with; cbn;
  first [done | apply bool_decide_eq_false_2; intros ?; simplify_eq/=; naive_solver | lia].

Lemma repair_repaired l t z : local_time l -> repaired t z -> ~ zone t -> repair (l ++ t) = l ++ z.
Proof.
  intros (a & b & c & d & e & f & r & Hrev & Hc)%local_time_last Hr Hz.
  rewrite !Forall_cons in Hc. unfold clock_char in Hc.
  assert (Hplus : ends_with minus_zero_basic (l ++ plus_zero) = false) by end_test Hrev.
  assert (Hplus' : ends_with plus_zero_basic (l ++ plus_zero) = false) by end_test Hrev.
  assert (Htz : has_timezone (l ++ plus_zero) = true) by end_test Hrev.
  destruct Hr; [done|..]; unfold repair.
  - assert (ends_with minus_zero (l ++ minus_zero) = true) as -> by end_test Hrev.
    rewrite (replace_end_app l minus_zero _ 6), Hplus, Hplus' by done. cbn [orb]. by rewrite Htz.
  - assert (ends_with minus_zero (l ++ minus_zero_basic) = false) as -> by end_test Hrev.
    assert (ends_with minus_zero_basic (l ++ minus_zero_basic) = true) as -> by end_test Hrev.
    cbn [orb]. rewrite (replace_end_app l minus_zero_basic _ 5) by done. by rewrite Htz.
  - assert (ends_with minus_zero (l ++ plus_zero_basic) = false) as -> by end_test Hrev.
    assert (ends_with plus_zero_basic (l ++ plus_zero_basic) = true) as -> by end_test Hrev.
    rewrite orb_true_r, (replace_end_app l plus_zero_basic _ 5) by done. by rewrite Htz.
  - rewrite app_nil_r.
    assert (ends_with minus_zero l = false) as -> by end_test Hrev.
    assert (ends_with minus_zero_basic l = false) as -> by end_test Hrev.
    assert (ends_with plus_zero_basic l = false) as -> by end_test Hrev.
    cbn [orb]. by assert (has_timezone l = false) as -> by end_test Hrev.
Qed.

Lemma repaired_zone t z : repaired t z -> zone z.
Proof.
  destruct 1 as [z Hz| | | |]; [done| | | |constructor];
    by apply (Offset ch_plus [48; 48] [48; 48] 0 0); try apply (Number2 48 48); try (left).
Qed.

Lemma repaired_not_zone t z : repaired t z -> z <> t -> ~ zone t.
Proof.
  intros Hr Hne Hz. remember t as t0 eqn:Ht in Hz.
  destruct Hz as [|sign hh mm h m _ [] [] _ _ Hz]; destruct Hr; simplify_eq/=; congruence.
Qed.

(** Lenient parsing leaves a strict datetime alone, puts a valid zone in the
    place of [-00:00], [-0000], [+0000] or of a missing one, and whatever it
    returns is a strict datetime. *)
Theorem parse_lenient_spec raw :
  (grammar raw -> parse_lenient raw = Ok raw) /\
  (forall l t z, raw = l ++ t -> local_time l -> repaired t z -> (length (l ++ z) <= 64)%nat ->
    parse_lenient raw = Ok (l ++ z)) /\
  (forall d, parse_lenient raw = Ok d -> grammar d) /\
  no_panic (parse_lenient raw).
Proof.
  split_and!.
  - intros H. unfold parse_lenient. by rewrite try_from_grammar.
  - intros l t z -> Hl Hr Hlen.
    pose proof (local_time_zone _ _ Hl (repaired_zone _ _ Hr) Hlen) as Hg.
    destruct (decide (z = t)) as [->|Hne]; unfold parse_lenient; [by rewrite try_from_grammar|].
    pose proof (repaired_not_zone _ _ Hr Hne) as Hz.
    pose proof (not_grammar_repaired _ _ _ Hl Hr Hz) as Hng.
    pose proof (try_from_no_panic (l ++ t)). destruct (try_from (l ++ t)) as [d| |] eqn:Ht; [|..].
    + by apply try_from_sound in Ht as [? _].
    + by rewrite (repair_repaired _ _ _ Hl Hr Hz), try_from_grammar.
    + done.
  - intros d. unfold parse_lenient. destruct (try_from raw) eqn:Ht; [|..|done].
    + intros [= ->]. by apply try_from_sound in Ht as [? ->].
    + by intros [? ->]%try_from_sound.
  - unfold parse_lenient. pose proof (try_from_no_panic raw). destruct (try_from raw); [done| |done].
    apply try_from_no_panic.
Qed.

Example parse_lenient_spec_witness :
  parse_lenient (b# "2024-01-02T03:04:05.6-00:00") = Ok (b# "2024-01-02T03:04:05.6+00:00").
Proof.
  apply (parse_lenient_spec (b# "2024-01-02T03:04:05.6-00:00"))
    with (l := b# "2024-01-02T03:04:05.6") (t := minus_zero); [reflexivity| |constructor|vm_compute; lia].
  exists (b# "2024"), (b# "01"), (b# "02"), (b# "03"), (b# "04"), (b# "05"), (b# ".6"), 1, 2, 3, 4, 5.
  split; [reflexivity|]. split_and!; try (vm_compute; congruence);
    try (by repeat constructor); try exact (Number2 48 _ eq_refl eq_refl).
Defined.
