(* ===== verification/Language.v ===== *)
(** Language tags: [src/src/syntax/language.rs]. The parser takes subtags
    greedily; it accepts what the grammar of RFC 5646 does. *)
From S2P Require Import Prelude SyntaxError.

Definition Language : Type := bytes.
Definition as_str (l : Language) : bytes := l.

Definition GRANDFATHERED : list bytes := [
  b# "en-GB-oed"; b# "i-ami"; b# "i-bnn"; b# "i-default"; b# "i-enochian"; b# "i-hak"; b# "i-klingon"; b# "i-lux"; b# "i-mingo";
  b# "i-navajo"; b# "i-pwn"; b# "i-tao"; b# "i-tay"; b# "i-tsu"; b# "sgn-BE-FR"; b# "sgn-BE-NL"; b# "sgn-CH-DE"; b# "art-lojban";
  b# "cel-gaulish"; b# "no-bok"; b# "no-nyn"; b# "zh-guoyu"; b# "zh-hakka"; b# "zh-min"; b# "zh-min-nan"; b# "zh-xiang"].

Definition is_alpha (t : bytes) : bool := forallb is_ascii_alphabetic t.
Definition is_digit (t : bytes) : bool := forallb is_ascii_digit t.
Definition is_alnum (t : bytes) : bool := forallb is_ascii_alphanumeric t.

(** [(lo..=hi).contains(&t.len())] *)
Definition sized (lo hi : nat) (t : bytes) : bool := (lo <=? length t)%nat && (length t <=? hi)%nat.

(** [t.as_bytes()[0]] is read only where there is one. *)
Definition is_variant (t : bytes) : bool :=
  is_alnum t && (sized 5 8 t || (length t =? 4)%nat && match t with b :: _ => is_ascii_digit b | [] => false end).

Definition is_x (t : bytes) : bool := eq_ignore_ascii_case t (b# "x").

(** The tests that [is_langtag_or_private_use] gives to [next_if]. *)
Definition is_primary (t : bytes) : bool := sized 2 3 t && forallb is_ascii_lowercase t.
Definition is_extlang (t : bytes) : bool := (length t =? 3)%nat && is_alpha t.
Definition is_script (t : bytes) : bool := (length t =? 4)%nat && is_alpha t.
Definition is_region (t : bytes) : bool := (length t =? 2)%nat && is_alpha t || (length t =? 3)%nat && is_digit t.
Definition is_singleton (t : bytes) : bool := (length t =? 1)%nat && is_alnum t && negb (is_x t).
Definition is_ext_subtag (t : bytes) : bool := sized 2 8 t && is_alnum t.
Definition is_private_subtag (t : bytes) : bool := sized 1 8 t && is_alnum t.

(** [tags.next_if(p)], on what is left of the iterator. *)
Definition next_if (p : bytes -> bool) (tags : list bytes) : option bytes * list bytes :=
  match tags with
  | t :: rest => if p t then (Some t, rest) else (None, tags)
  | [] => (None, [])
  end.

Definition is_private_use (tags : list bytes) : bool := forallb is_private_subtag tags && negb (bool_decide (tags = [])).

(** [for _ in 0..3 { .. }] *)
Fixpoint extlangs (n : nat) (tags : list bytes) : list bytes :=
  match n with
  | O => tags
  | S n => match next_if is_extlang tags with (Some _, rest) => extlangs n rest | (None, tags) => tags end
  end.

(** The loop over the variants; [Err] is [return false]. *)
Fixpoint variants_loop (variants tags : list bytes) : res () (list bytes) :=
  match tags with
  | v :: rest =>
      if is_variant v then
        if existsb (fun seen => eq_ignore_ascii_case seen v) variants then Err () else variants_loop (variants ++ [v]) rest
      else Ok tags
  | [] => Ok []
  end.

(** [while tags.next_if(..).is_some() { subtags += 1; }] *)
Fixpoint ext_subtags (n : nat) (tags : list bytes) : nat * list bytes :=
  match tags with
  | t :: rest => if is_ext_subtag t then ext_subtags (S n) rest else (n, tags)
  | [] => (n, [])
  end.

(** The loop over the extensions. *)
Fixpoint extensions_loop (fuel : nat) (singletons : list Z) (tags : list bytes) : res () (list bytes) :=
  match fuel with
  | O => Panic
  | S fuel =>
      match next_if is_singleton tags with
      | (None, tags) => Ok tags
      | (Some t, tags) =>
          b ← index t 0;
          let s := to_ascii_lowercase b in
          if bool_decide (s ∈ singletons) then Err ()
          else
            let '(subtags, tags) := ext_subtags 0 tags in
            if (subtags =? 0)%nat then Err () else extensions_loop fuel (singletons ++ [s]) tags
      end
  end.

Definition langtag_or_private_use (raw : bytes) : res () bool :=
  match split_on ch_hyphen raw with
  | [] => Err ()
  | primary :: tags =>
      if is_x primary then Ok (is_private_use tags)
      else if negb (is_primary primary) then Err ()
      else
        let tags := extlangs 3 tags in
        let tags := (next_if is_script tags).2 in
        let tags := (next_if is_region tags).2 in
        tags ← variants_loop [] tags;
        tags ← extensions_loop (S (length tags)) [] tags;
        Ok (match tags with [] => true | x :: tags => is_x x && is_private_use tags end)
  end.

Definition is_langtag_or_private_use (raw : bytes) : res SyntaxError bool :=
  match langtag_or_private_use raw with Ok b => Ok b | Err _ => Ok false | Panic => Panic end.

Definition validate (raw : bytes) : res SyntaxError () :=
  ok ← (if bool_decide (raw ∈ GRANDFATHERED) then Ok true else is_langtag_or_private_use raw);
  if negb ok then Err (InvalidLanguage (About raw "not a valid BCP-47 language tag")) else Ok ().

Definition try_from (raw : bytes) : res SyntaxError Language :=
  _ ← validate raw; Ok raw.

(** ** The grammar of RFC 5646, section 2.1 *)

(** The parts of a tag, as its productions name them. *)
Record Langtag := MkLangtag {
  primary : bytes;
  extlang : list bytes;
  script : option bytes;
  region : option bytes;
  variants : list bytes;
  extensions : list (bytes * list bytes);
  privateuse : option (bytes * list bytes)
}.

Definition part (p : bytes * list bytes) : list bytes := p.1 :: p.2.

Definition subtags (t : Langtag) : list bytes :=
  primary t :: extlang t ++ option_list (script t) ++ option_list (region t) ++ variants t ++ concat (map part (extensions t)) ++
  match privateuse t with Some p => part p | None => [] end.

Definition each (p : bytes -> bool) (tags : list bytes) : Prop := Forall (fun t => p t = true) tags.
Definition folded : list bytes -> list bytes := map make_ascii_lowercase.

Definition extension_ok (e : bytes * list bytes) : Prop := is_singleton e.1 = true /\ e.2 <> [] /\ each is_ext_subtag e.2.
Definition private_ok (p : bytes * list bytes) : Prop := is_x p.1 = true /\ p.2 <> [] /\ each is_private_subtag p.2.

Record langtag_ok (t : Langtag) : Prop := {
  lt_primary : is_primary (primary t) = true;
  lt_extlang : (length (extlang t) <= 3)%nat /\ each is_extlang (extlang t);
  lt_script : each is_script (option_list (script t));
  lt_region : each is_region (option_list (region t));
  lt_variants : each is_variant (variants t) /\ NoDup (folded (variants t));
  lt_extensions : Forall extension_ok (extensions t) /\ NoDup (folded (map fst (extensions t)));
  lt_private p : privateuse t = Some p -> private_ok p
}.

Inductive well_formed : list bytes -> Prop :=
| wf_private p : private_ok p -> well_formed (part p)
| wf_langtag t : langtag_ok t -> well_formed (subtags t).

(** ** What is taken is taken whole *)

(** A run of subtags ends here. *)
Definition stops (p : bytes -> bool) (tags : list bytes) : Prop := match tags with [] => True | t :: _ => p t = false end.

Lemma stops_app p a b : stops p a -> stops p b -> stops p (a ++ b).
Proof. by destruct a. Qed.

Lemma stops_each p q tags : (forall t, q t = true -> p t = false) -> each q tags -> stops p tags.
Proof. intros Hq Ht. destruct Ht as [|t tags Ht _]; [done|by apply Hq]. Qed.

(** Subtags of different kinds differ in length, or in being letters. *)
Section Kinds.
Variable t : bytes.

Lemma digit_not_alpha : is_digit t = true -> t <> [] -> is_alpha t = false.
Proof. destruct t as [|b t']; [done|]. cbn. intros [Hb _]%andb_true_iff _. apply andb_false_iff. left. ascii_lia. Qed.

Lemma is_extlang_shape : is_extlang t = true -> length t = 3%nat /\ is_alpha t = true.
Proof. unfold is_extlang. lia. Qed.

Lemma is_script_shape : is_script t = true -> length t = 4%nat /\ is_alpha t = true.
Proof. unfold is_script. lia. Qed.

Lemma is_region_shape : is_region t = true -> length t = 2%nat \/ length t = 3%nat /\ is_alpha t = false.
Proof.
  unfold is_region. intros Ht. pose proof digit_not_alpha as Hd. destruct (is_digit t); [|lia].
  assert (t <> []) as Hne by (intros ->; cbn in Ht; lia). specialize (Hd eq_refl Hne). lia.
Qed.

Lemma is_variant_shape : is_variant t = true -> (5 <= length t <= 8)%nat \/ length t = 4%nat /\ is_alpha t = false.
Proof.
  unfold is_variant, sized. destruct t as [|b t']; [done|]. intros Ht.
  assert (Hh : is_ascii_digit b = true -> is_alpha (b :: t') = false) by (cbn; intros Hb; apply andb_false_iff; left; ascii_lia). lia.
Qed.

Lemma is_x_shape : is_x t = true -> length t = 1%nat.
Proof. unfold is_x, eq_ignore_ascii_case. rewrite bool_decide_eq_true. intros Ht. by rewrite <- (make_ascii_lowercase_length t), Ht. Qed.

Lemma is_singleton_shape : is_singleton t = true -> length t = 1%nat /\ is_x t = false.
Proof. unfold is_singleton. lia. Qed.

Lemma is_ext_subtag_shape : is_ext_subtag t = true -> (2 <= length t <= 8)%nat.
Proof. unfold is_ext_subtag, sized. lia. Qed.
End Kinds.

Ltac kinds :=
  repeat match goal with
         | Hk : is_extlang _ = true |- _ => apply is_extlang_shape in Hk
         | Hk : is_script _ = true |- _ => apply is_script_shape in Hk
         | Hk : is_region _ = true |- _ => apply is_region_shape in Hk
         | Hk : is_variant _ = true |- _ => apply is_variant_shape in Hk
         | Hk : is_singleton _ = true |- _ => apply is_singleton_shape in Hk
         | Hk : is_ext_subtag _ = true |- _ => apply is_ext_subtag_shape in Hk
         | Hk : is_x ?t = true |- _ => lazymatch goal with _ : length t = 1%nat |- _ => fail | _ => pose proof (is_x_shape t Hk) end
         end.

(** Nothing of the second kind is of the first. *)
Ltac apart := let Hq := fresh "Hq" in let Hp := fresh "Hp" in intros ? Hq; apply not_true_is_false; intros Hp; kinds; lia.

(** The later kinds stop a run of the earlier ones. *)
Lemma stops_private p o : (forall x, o = Some x -> private_ok x) -> (forall t, is_x t = true -> p t = false) ->
  stops p (match o with Some x => part x | None => [] end).
Proof. intros Ho Hp. destruct o as [x|]; [|done]. apply Hp, (Ho x eq_refl). Qed.

Lemma stops_extensions p es : Forall extension_ok es -> (forall t, is_singleton t = true -> p t = false) -> stops p (concat (map part es)).
Proof. intros He Hp. destruct He as [|e es [Hs _] _]; [done|by apply Hp]. Qed.

(** *** The stages *)

Lemma extlangs_cut n tags : exists ext, tags = ext ++ extlangs n tags /\ (length ext <= n)%nat /\ each is_extlang ext.
Proof.
  revert tags. induction n as [|n IH]; intros [|t tags]; cbn [extlangs next_if]; try (exists []; split_and!; [done|cbn; lia|constructor]).
  destruct (is_extlang t) eqn:Ht; [|exists []; split_and!; [done|cbn; lia|constructor]].
  destruct (IH tags) as (ext & He & Hl & Ha). exists (t :: ext). cbn. split_and!; [by f_equal|lia|by constructor].
Qed.

Lemma extlangs_take n ext rest : (length ext <= n)%nat -> each is_extlang ext -> stops is_extlang rest -> extlangs n (ext ++ rest) = rest.
Proof.
  intros Hl He Hr. revert n Hl. induction He as [|t ext Ht _ IH]; intros [|n] Hl; cbn in *; [done| |lia|rewrite Ht; apply IH; lia].
  destruct rest as [|t rest]; [done|]. cbn in *. by rewrite Hr.
Qed.

Lemma next_if_cut p tags : exists o, tags = option_list o ++ (next_if p tags).2 /\ each p (option_list o).
Proof.
  destruct tags as [|t tags]; [by exists None; split; [|constructor]|]. cbn. destruct (p t) eqn:Ht; [|by exists None; split; [|constructor]].
  exists (Some t). split; [done|by repeat constructor].
Qed.

Lemma next_if_take p o rest : each p (option_list o) -> stops p rest -> (next_if p (option_list o ++ rest)).2 = rest.
Proof.
  intros Ho Hr. destruct o as [t|]; cbn in *; [by inversion Ho as [|? ? Ht _]; subst; rewrite Ht|]. destruct rest as [|t rest]; [done|]. cbn in *. by rewrite Hr.
Qed.

Lemma folded_app a b : folded (a ++ b) = folded a ++ folded b.
Proof. apply map_app. Qed.

Lemma seen_variant vs v : existsb (fun seen => eq_ignore_ascii_case seen v) vs = true <-> make_ascii_lowercase v ∈ folded vs.
Proof.
  rewrite existsb_exists. unfold folded. change (map ?f ?l) with (f <$> l). rewrite list_elem_of_fmap. unfold eq_ignore_ascii_case.
  split; intros (x & H1' & H2'); exists x; [apply list_elem_of_In in H1'; apply bool_decide_eq_true in H2'|rewrite bool_decide_eq_true, <- list_elem_of_In]; done.
Qed.

Lemma NoDup_snoc {A} (l : list A) a : NoDup (l ++ [a]) <-> NoDup l /\ a ∉ l.
Proof.
  rewrite NoDup_app. split.
  - intros (Hl & Ha & _). split; [done|]. intros Hin. apply (Ha a Hin). by left.
  - intros [Hl Ha]. split; [done|]. split; [intros x Hx ->%list_elem_of_singleton; done|]. apply NoDup_singleton.
Qed.

Lemma variants_cut vs tags rest : variants_loop vs tags = Ok rest -> NoDup (folded vs) ->
  exists new, tags = new ++ rest /\ each is_variant new /\ NoDup (folded (vs ++ new)).
Proof.
  revert vs. induction tags as [|v tags IH]; intros vs; cbn.
  { intros [= <-] Hv. exists []. rewrite (app_nil_r vs). split; [done|]. split; [by apply Forall_nil|done]. }
  destruct (is_variant v) eqn:Hv; [|intros [= <-] Hd; exists []; rewrite (app_nil_r vs); split; [done|split; [by apply Forall_nil|done]]].
  destruct (existsb _ vs) eqn:Hs; [done|]. intros Hr Hd. destruct (IH _ Hr) as (new & -> & Hn & Hd').
  - rewrite folded_app. apply NoDup_snoc. split; [done|]. intros Hin%seen_variant. congruence.
  - exists (v :: new). rewrite <- app_assoc in Hd'. split_and!; [done|by constructor|done].
Qed.

Lemma variants_take vs new rest : each is_variant new -> NoDup (folded (vs ++ new)) -> stops is_variant rest -> variants_loop vs (new ++ rest) = Ok rest.
Proof.
  intros Hn Hd Hr. revert vs Hd. induction Hn as [|v new Hv _ IH]; intros vs Hd; cbn.
  { destruct rest as [|t rest]; [done|]. cbn in *. by rewrite Hr. }
  rewrite Hv. destruct (existsb _ vs) eqn:Hs; [|apply IH; by rewrite <- app_assoc].
  apply seen_variant in Hs. rewrite folded_app in Hd. apply NoDup_app in Hd as (_ & Hd & _). exfalso. apply (Hd _ Hs). by left.
Qed.

Lemma variants_no_panic vs tags : no_panic (variants_loop vs tags).
Proof. revert vs. induction tags as [|v tags IH]; intros vs; [done|]. cbn. destruct (is_variant v); [|done]. by destruct (existsb _ vs). Qed.

(** *** Extensions *)

Lemma ext_subtags_cut n tags : exists new, tags = new ++ (ext_subtags n tags).2 /\ (ext_subtags n tags).1 = (n + length new)%nat /\ each is_ext_subtag new.
Proof.
  revert n. induction tags as [|t tags IH]; intros n; cbn; [exists []; split_and!; [done|cbn; lia|by apply Forall_nil]|].
  destruct (is_ext_subtag t) eqn:Ht; [|exists []; split_and!; [done|cbn; lia|by apply Forall_nil]].
  destruct (IH (S n)) as (new & He & Hl & Ha). exists (t :: new). cbn. split_and!; [by f_equal|lia|by constructor].
Qed.

Lemma ext_subtags_take n new rest : each is_ext_subtag new -> stops is_ext_subtag rest -> ext_subtags n (new ++ rest) = ((n + length new)%nat, rest).
Proof.
  intros Hn Hr. revert n. induction Hn as [|t new Ht _ IH]; intros n; cbn.
  - rewrite Nat.add_0_r. destruct rest as [|t rest]; [done|]. cbn in *. by rewrite Hr.
  - rewrite Ht, IH. f_equal. lia.
Qed.

(** What the loop knows of the extensions it has read. *)
Definition letters (es : list (bytes * list bytes)) : list bytes := folded (map fst es).

Lemma letters_snoc es e : letters (es ++ [e]) = letters es ++ [make_ascii_lowercase e.1].
Proof. unfold letters. by rewrite map_app, folded_app. Qed.

Lemma singleton_byte t : is_singleton t = true -> exists b, t = [b].
Proof. intros [Hl _]%is_singleton_shape. destruct t as [|b [|]]; [done|by exists b|done]. Qed.

Lemma fresh_letter ss es b : map (fun s => [s]) ss = letters es -> to_ascii_lowercase b ∈ ss <-> make_ascii_lowercase [b] ∈ letters es.
Proof.
  intros <-. change (map ?f ?l) with (f <$> l). rewrite list_elem_of_fmap. cbn. split; [intros Hb; by eexists|by intros (s & [= ->] & Hs)].
Qed.

Lemma extensions_cut fuel ss es tags rest : extensions_loop fuel ss tags = Ok rest -> map (fun s => [s]) ss = letters es -> NoDup (letters es) ->
  exists new, tags = concat (map part new) ++ rest /\ Forall extension_ok new /\ NoDup (letters (es ++ new)).
Proof.
  revert ss es tags. induction fuel as [|fuel IH]; intros ss es tags; [done|]. cbn [extensions_loop].
  destruct tags as [|t tags]; cbn [next_if]; [|destruct (is_singleton t) eqn:Ht]; cycle 1.
  - destruct (singleton_byte t Ht) as [b ->]. cbn [index nth_error lookup list_lookup mbind res_bind]. case_bool_decide as Hin; [done|].
    destruct (ext_subtags_cut 0 tags) as (subs & Htags & Hn & Hsubs). destruct (ext_subtags 0 tags) as [n tags']. cbn in Hn, Htags. subst n tags.
    destruct (length subs =? 0)%nat eqn:Hl; [done|]. apply Nat.eqb_neq in Hl. intros Hr Hss Hd.
    rewrite (fresh_letter ss es b Hss) in Hin. set (e := ([b], subs)).
    destruct (IH (ss ++ [to_ascii_lowercase b]) (es ++ [e]) tags' Hr) as (new & -> & Hnew & Hd').
    + rewrite letters_snoc, map_app. by f_equal.
    + rewrite letters_snoc. by apply NoDup_snoc.
    + exists (e :: new). rewrite <- app_assoc in Hd'. split_and!; [cbn; by rewrite <- app_assoc|constructor; [|done]|done].
      split; [done|]. split; [cbn; intros Hs; by rewrite Hs in Hl|done].
  - intros [= <-] _ Hd. exists []. rewrite (app_nil_r es). split; [done|]. split; [by apply Forall_nil|done].
  - intros [= <-] _ Hd. exists []. rewrite (app_nil_r es). split; [done|]. split; [by apply Forall_nil|done].
Qed.

Lemma extensions_take fuel ss es new rest : (length new < fuel)%nat -> map (fun s => [s]) ss = letters es -> Forall extension_ok new ->
  NoDup (letters (es ++ new)) -> stops is_singleton rest -> stops is_ext_subtag rest -> extensions_loop fuel ss (concat (map part new) ++ rest) = Ok rest.
Proof.
  intros Hf Hss Hn Hd Hr Hr'. revert fuel ss es Hf Hss Hd. induction Hn as [|[t subs] new (Ht & Hne & Hsubs) Hn IH]; intros [|fuel] ss es Hf Hss Hd; cbn in Hf; [lia| |lia|].
  - cbn. destruct rest as [|t rest]; [done|]. cbn in *. by rewrite Hr.
  - cbn [map concat part fst snd app extensions_loop next_if] in *. rewrite Ht. destruct (singleton_byte t Ht) as [b ->]. cbn [index nth_error lookup list_lookup mbind res_bind].
    assert (Hfresh : to_ascii_lowercase b ∉ ss).
    { rewrite (fresh_letter ss es b Hss). unfold letters, folded in *. rewrite !map_app in Hd. apply NoDup_app in Hd as (_ & Hd & _). intros Hin. apply (Hd _ Hin). by left. }
    rewrite bool_decide_false by done. rewrite <- app_assoc, ext_subtags_take; [|done|].
    + destruct subs as [|s subs]; [done|]. cbn [length Nat.add Nat.eqb]. apply (IH fuel _ (es ++ [([b], s :: subs)])); [lia| |by rewrite <- app_assoc].
      rewrite letters_snoc, map_app. by f_equal.
    + apply stops_app; [|done]. apply stops_extensions; [done|]. apart.
Qed.

Lemma extensions_no_panic fuel ss tags : (length tags < fuel)%nat -> no_panic (extensions_loop fuel ss tags).
Proof.
  revert ss tags. induction fuel as [|fuel IH]; intros ss tags Hl; [lia|]. cbn [extensions_loop]. destruct tags as [|t tags]; [done|]. cbn [next_if].
  destruct (is_singleton t) eqn:Ht; [|done]. destruct (singleton_byte t Ht) as [b ->]. cbn [index nth_error lookup list_lookup mbind res_bind]. case_bool_decide; [done|].
  destruct (ext_subtags_cut 0 tags) as (subs & Htags & _ & _). destruct (ext_subtags 0 tags) as [n tags']. cbn in Htags. subst tags.
  destruct (n =? 0)%nat; [done|]. apply IH. cbn in Hl. rewrite length_app in Hl. lia.
Qed.

(** *** Whole tags *)

(** What follows each part, and where the runs before it stop. *)
Section Rests.
Context (t : Langtag) (Ht : langtag_ok t).

Definition rest_private : list bytes := match privateuse t with Some p => part p | None => [] end.
Definition rest_extensions : list bytes := concat (map part (extensions t)) ++ rest_private.
Definition rest_variants : list bytes := variants t ++ rest_extensions.
Definition rest_region : list bytes := option_list (region t) ++ rest_variants.
Definition rest_script : list bytes := option_list (script t) ++ rest_region.

Lemma stops_rest_private p : (forall s, is_x s = true -> p s = false) -> stops p rest_private.
Proof. intros Hp. apply stops_private; [apply Ht|done]. Qed.

Lemma stops_rest_extensions p : (forall s, is_singleton s = true -> p s = false) -> (forall s, is_x s = true -> p s = false) -> stops p rest_extensions.
Proof. intros Hs Hp. apply stops_app; [apply stops_extensions; [apply Ht|done]|by apply stops_rest_private]. Qed.

Lemma extlangs_rest : extlangs 3 (extlang t ++ rest_script) = rest_script.
Proof.
  apply extlangs_take; [apply Ht..|]. apply stops_app; [apply (stops_each _ is_script); [apart|apply Ht]|].
  apply stops_app; [apply (stops_each _ is_region); [apart|apply Ht]|]. apply stops_app; [apply (stops_each _ is_variant); [apart|apply Ht]|].
  apply stops_rest_extensions; apart.
Qed.

Lemma script_rest : (next_if is_script rest_script).2 = rest_region.
Proof.
  apply next_if_take; [apply Ht|]. apply stops_app; [apply (stops_each _ is_region); [apart|apply Ht]|].
  apply stops_app; [apply (stops_each _ is_variant); [apart|apply Ht]|]. apply stops_rest_extensions; apart.
Qed.

Lemma region_rest : (next_if is_region rest_region).2 = rest_variants.
Proof.
  apply next_if_take; [apply Ht|]. apply stops_app; [apply (stops_each _ is_variant); [apart|apply Ht]|]. apply stops_rest_extensions; apart.
Qed.

Lemma variants_rest : variants_loop [] rest_variants = Ok rest_extensions.
Proof. apply variants_take; [apply Ht|apply (lt_variants t Ht)|]. apply stops_rest_extensions; apart. Qed.

Lemma extensions_rest : extensions_loop (S (length rest_extensions)) [] rest_extensions = Ok rest_private.
Proof.
  apply (extensions_take _ _ []); [|done|apply Ht|apply (lt_extensions t Ht)|apply stops_rest_private; apart..].
  unfold rest_extensions. rewrite length_app. induction (extensions t) as [|e es IH]; cbn; [lia|]. rewrite length_app. lia.
Qed.
End Rests.

Lemma is_primary_not_x p : is_primary p = true -> is_x p = false.
Proof. intros Hp. apply not_true_is_false. intros Hx%is_x_shape. unfold is_primary, sized in Hp. lia. Qed.

Lemma is_private_use_ok x tags : is_x x = true -> is_private_use tags = true <-> private_ok (x, tags).
Proof.
  intros Hx. unfold is_private_use. rewrite andb_true_iff, negb_true_iff, bool_decide_eq_false, forallb_Forall. unfold private_ok, each. cbn. tauto.
Qed.

Lemma no_panic_langtag raw : no_panic (langtag_or_private_use raw).
Proof.
  unfold langtag_or_private_use. destruct (split_on _ raw) as [|p tags]; [done|]. destruct (is_x p); [done|]. destruct (is_primary p); [|done]. cbn [negb].
  apply no_panic_bind; [apply variants_no_panic|]. intros es _. apply no_panic_bind; [apply extensions_no_panic; lia|done].
Qed.

Lemma well_formed_parses raw : well_formed (split_on ch_hyphen raw) -> langtag_or_private_use raw = Ok true.
Proof.
  intros Hw. unfold langtag_or_private_use. destruct Hw as [[x subs] Hp|t Ht].
  - cbn. pose proof Hp as [Hx _]. cbn in Hx. rewrite Hx. f_equal. by apply (is_private_use_ok x).
  - unfold subtags. rewrite (is_primary_not_x _ (lt_primary t Ht)), (lt_primary t Ht). cbn [negb].
    fold (rest_private t). fold (rest_extensions t). fold (rest_variants t). fold (rest_region t). fold (rest_script t).
    rewrite extlangs_rest, script_rest, region_rest, variants_rest by done. cbn [mbind res_bind]. rewrite extensions_rest by done. cbn [mbind res_bind].
    unfold rest_private. destruct (privateuse t) as [[x subs]|] eqn:Hp; [|done]. apply (lt_private t Ht) in Hp. pose proof Hp as [Hx _]. cbn in *. rewrite Hx. cbn.
    f_equal. by apply (is_private_use_ok x).
Qed.

Lemma parses_well_formed raw : langtag_or_private_use raw = Ok true -> well_formed (split_on ch_hyphen raw).
Proof.
  unfold langtag_or_private_use. destruct (split_on _ raw) as [|p tags]; [done|]. destruct (is_x p) eqn:Hx.
  { intros [= Hp]. apply (wf_private (p, tags)). by apply is_private_use_ok. }
  destruct (is_primary p) eqn:Hp; [|done]. cbn [negb]. intros (rest & Hv & (rest' & He & [= Hend])%res_bind_Ok)%res_bind_Ok.
  destruct (extlangs_cut 3 tags) as (ext & Htags & Hl & Hext). destruct (next_if_cut is_script (extlangs 3 tags)) as (sc & Hsc & Hsco).
  destruct (next_if_cut is_region (next_if is_script (extlangs 3 tags)).2) as (rg & Hrg & Hrgo).
  destruct (variants_cut _ _ _ Hv ltac:(constructor)) as (vs & Hvs & Hvo & Hvd).
  destruct (extensions_cut _ _ [] _ _ He eq_refl ltac:(constructor)) as (es & Hes & Heo & Hed).
  set (o := match rest' with [] => None | x :: subs => Some (x, subs) end).
  assert (Ho : rest' = match o with Some p => part p | None => [] end) by (by destruct rest').
  assert (Hpo : forall p, o = Some p -> private_ok p).
  { unfold o. destruct rest' as [|x subs]; [done|]. apply andb_true_iff in Hend as [Hx' Hs]. intros q [= <-]. by apply is_private_use_ok. }
  replace (p :: tags) with (subtags (MkLangtag p ext sc rg vs es o)); [by apply wf_langtag|].
  unfold subtags. cbn [primary extlang script region variants extensions privateuse]. rewrite <- Ho, <- Hes, <- Hvs, <- Hrg, <- Hsc. by rewrite <- Htags.
Qed.

(** *** Tags as text *)

Definition no_hyphen (s : bytes) : Prop := Forall (fun b => (b =? ch_hyphen) = false) s.

Lemma alnum_no_hyphen s : is_alnum s = true -> no_hyphen s.
Proof. unfold is_alnum. rewrite forallb_Forall. intros Hs. eapply Forall_impl; [exact Hs|]. cbn. intros b. ascii_lia. Qed.

Lemma alpha_alnum s : is_alpha s = true -> is_alnum s = true.
Proof. unfold is_alpha, is_alnum. rewrite !forallb_Forall. intros Hs. eapply Forall_impl; [exact Hs|]. cbn. intros b. ascii_lia. Qed.

Lemma digit_alnum s : is_digit s = true -> is_alnum s = true.
Proof. unfold is_digit, is_alnum. rewrite !forallb_Forall. intros Hs. eapply Forall_impl; [exact Hs|]. cbn. intros b. ascii_lia. Qed.

Lemma lower_alnum s : forallb is_ascii_lowercase s = true -> is_alnum s = true.
Proof. unfold is_alnum. rewrite !forallb_Forall. intros Hs. eapply Forall_impl; [exact Hs|]. cbn. intros b. ascii_lia. Qed.

Lemma x_no_hyphen s : is_x s = true -> no_hyphen s.
Proof.
  intros Hs. pose proof (is_x_shape s Hs) as Hl. destruct s as [|b [|]]; [done| |done]. constructor; [|constructor].
  unfold is_x, eq_ignore_ascii_case in Hs. apply bool_decide_eq_true in Hs. cbn in Hs. injection Hs as Hs. destruct (Z.eqb_spec b ch_hyphen) as [->|]; done.
Qed.

Lemma each_no_hyphen p tags : (forall s, p s = true -> is_alnum s = true) -> each p tags -> Forall no_hyphen tags.
Proof. intros Hp Ht. eapply Forall_impl; [exact Ht|]. cbn. intros s Hs. by apply alnum_no_hyphen, Hp. Qed.

Lemma private_no_hyphen x : private_ok x -> Forall no_hyphen (part x).
Proof. intros (Hx & _ & Hs). constructor; [by apply x_no_hyphen|]. eapply each_no_hyphen; [|exact Hs]. unfold is_private_subtag. lia. Qed.

Lemma well_formed_no_hyphen tags : well_formed tags -> Forall no_hyphen tags.
Proof.
  intros [x Hx|t Ht]; [by apply private_no_hyphen|]. unfold subtags. apply Forall_cons. split.
  { apply alnum_no_hyphen, lower_alnum. pose proof (lt_primary t Ht) as Hp. unfold is_primary in Hp. lia. }
  rewrite !Forall_app. split_and!.
  - eapply each_no_hyphen; [|apply (lt_extlang t Ht)]. intros s [_ Ha]%is_extlang_shape. by apply alpha_alnum.
  - eapply each_no_hyphen; [|apply (lt_script t Ht)]. intros s [_ Ha]%is_script_shape. by apply alpha_alnum.
  - eapply each_no_hyphen; [|apply (lt_region t Ht)]. unfold is_region. intros s [[_ Ha]%andb_true_iff|[_ Ha]%andb_true_iff]%orb_true_iff; [by apply alpha_alnum|by apply digit_alnum].
  - eapply each_no_hyphen; [|apply (lt_variants t Ht)]. unfold is_variant. intros s. lia.
  - apply Forall_concat, Forall_map. eapply Forall_impl; [apply (lt_extensions t Ht)|]. intros e (Hs & _ & Hsubs). constructor.
    + apply alnum_no_hyphen. unfold is_singleton in Hs. lia.
    + eapply each_no_hyphen; [|exact Hsubs]. unfold is_ext_subtag. lia.
  - destruct (privateuse t) as [x|] eqn:Hp; [|constructor]. apply private_no_hyphen. by apply (lt_private t Ht).
Qed.

Lemma well_formed_nonempty tags : well_formed tags -> tags <> [].
Proof. by intros []. Qed.

Lemma langtag_iff raw : langtag_or_private_use raw = Ok true <-> exists tags, well_formed tags /\ raw = join_with ch_hyphen tags.
Proof.
  split.
  - intros Hr. exists (split_on ch_hyphen raw). split; [by apply parses_well_formed|]. by rewrite join_split_on.
  - intros (tags & Hw & ->). apply well_formed_parses. rewrite split_on_join; [done|by apply well_formed_nonempty|by apply well_formed_no_hyphen].
Qed.

Lemma language_no_panic raw : no_panic (validate raw).
Proof.
  unfold validate. apply no_panic_bind; [|by intros []]. case_bool_decide; [done|]. pose proof (no_panic_langtag raw) as Hn.
  unfold is_langtag_or_private_use. by destruct (langtag_or_private_use raw).
Qed.

Lemma language_validate_iff raw : validate raw = Ok () <-> raw ∈ GRANDFATHERED \/ exists tags, well_formed tags /\ raw = join_with ch_hyphen tags.
Proof.
  unfold validate. rewrite <- langtag_iff. case_bool_decide as Hg; [by split; [left|]|]. unfold is_langtag_or_private_use.
  pose proof (no_panic_langtag raw) as Hn. destruct (langtag_or_private_use raw) as [[|]|e|]; cbn; naive_solver.
Qed.

(** *** One reading *)

Lemma extensions_inj es es' : Forall extension_ok es -> Forall extension_ok es' -> concat (map part es) = concat (map part es') -> es = es'.
Proof.
  intros He. revert es'. induction He as [|[s subs] es (_ & _ & Hsubs) Hes IH]; intros es' He' Heq; destruct He' as [|[s' subs'] es' (_ & _ & Hsubs') Hes']; [done..|].
  cbn [map concat part fst snd app] in Heq. injection Heq as <- Heq.
  assert (Hstop : forall es, Forall extension_ok es -> stops is_ext_subtag (concat (map part es))) by (intros ? ?; apply stops_extensions; [done|apart]).
  pose proof (ext_subtags_take 0 subs _ Hsubs (Hstop es Hes)) as H1'. pose proof (ext_subtags_take 0 subs' _ Hsubs' (Hstop es' Hes')) as H2'.
  rewrite Heq, H2' in H1'. injection H1' as _ Hrest. rewrite Hrest in Heq. apply app_inv_tail in Heq as ->. by rewrite (IH es').
Qed.

Lemma option_list_inj {A} (o o' : option A) : option_list o = option_list o' -> o = o'.
Proof. destruct o, o'; cbn; congruence. Qed.

Lemma subtags_inj t t' : langtag_ok t -> langtag_ok t' -> subtags t = subtags t' -> t = t'.
Proof.
  intros Ht Ht'. unfold subtags. fold (rest_private t) (rest_private t'). fold (rest_extensions t) (rest_extensions t').
  fold (rest_variants t) (rest_variants t'). fold (rest_region t) (rest_region t'). fold (rest_script t) (rest_script t'). intros [= Hp Hall].
  assert (Hscript : rest_script t = rest_script t') by (by rewrite <- (extlangs_rest t Ht), <- (extlangs_rest t' Ht'), Hall).
  rewrite Hscript in Hall. apply app_inv_tail in Hall.
  assert (Hregion : rest_region t = rest_region t') by (by rewrite <- (script_rest t Ht), <- (script_rest t' Ht'), Hscript).
  unfold rest_script in Hscript. rewrite Hregion in Hscript. apply app_inv_tail, option_list_inj in Hscript.
  assert (Hvars : rest_variants t = rest_variants t') by (by rewrite <- (region_rest t Ht), <- (region_rest t' Ht'), Hregion).
  unfold rest_region in Hregion. rewrite Hvars in Hregion. apply app_inv_tail, option_list_inj in Hregion.
  pose proof (variants_rest t Ht) as Hv. pose proof (variants_rest t' Ht') as Hv'. rewrite Hvars, Hv' in Hv. injection Hv as Hexts. symmetry in Hexts.
  unfold rest_variants in Hvars. rewrite Hexts in Hvars. apply app_inv_tail in Hvars.
  pose proof (extensions_rest t Ht) as He. pose proof (extensions_rest t' Ht') as He'. rewrite Hexts, He' in He. injection He as Hpriv. symmetry in Hpriv.
  unfold rest_extensions in Hexts. rewrite Hpriv in Hexts. apply app_inv_tail, extensions_inj in Hexts; [|apply Ht|apply Ht'].
  assert (privateuse t = privateuse t') by (unfold rest_private, part in Hpriv; destruct (privateuse t) as [[]|], (privateuse t') as [[]|]; cbn in *; congruence).
  destruct t, t'; cbn in *; congruence.
Qed.


(** ** Examples *)

Definition accepted (raw : bytes) : bool := is_ok (validate raw).

Example language_valid : forallb accepted [
  b# "en"; b# "en-US"; b# "X-fr-CH"; b# "x-a-12345678"; b# "en-x-a-x-b"; b# "zh-yue-abc-def"; b# "zh-Hant-TW"; b# "es-419"; b# "en-US-u-ca-gregory";
  b# "en-a-bb-b-cc"; b# "sl-rozaj-biske-1994"; b# "i-klingon"; b# "zh-min-nan"] = true.
Proof. vm_compute. reflexivity. Qed.

Example language_invalid : existsb accepted [
  b# ""; b# "i"; b# "I-default"; b# "en-gb-oed"; b# "en-a"; b# "en-a-b"; b# "en-x"; b# "x-"; b# "x-123456789"; b# "en-rozaj-ROZAJ"; b# "en-a-foo-A-bar";
  b# "en-US-US"; b# "zh-yue-abc-def-ghi"; b# "abcd"; b# "En"; b# "en_US"; b# "en-"; b# "-en"; b# "en--US"; b# "en-x-123456789"] = false.
Proof. vm_compute. reflexivity. Qed.
