(* ===== verification/Crypto.v ===== *)
(** Signatures and the traits of keys: [src/src/crypto/signature.rs] and
    [src/src/crypto/mod.rs]. The curves are crates, so a key is an instance
    of the trait. *)
From S2P Require Import Prelude SyntaxError.

Inductive CryptoError :=
| InvalidKey (m : ErrMsg)
| InvalidSignature (m : ErrMsg)
| SigningFailed (m : ErrMsg).

(** [Signature([u8; 64])] *)
Record Signature := MkSignature { sig_bytes : bytes }.

#[export] Instance signature_eq_dec : EqDecision Signature.
Proof. solve_decision. Defined.

Definition sig_ok (s : Signature) : Prop := length (sig_bytes s) = 64%nat /\ Forall is_u8 (sig_bytes s).

Definition require_compressed (key : bytes) : res CryptoError () :=
  tag ← index key 0;
  if (tag =? 2) || (tag =? 3) then Ok () else Err (InvalidKey (Text "not a compressed SEC1 point")).

(** The methods of the traits that commits use. *)
Class VerifyingKey (V : Type) : Type := verify_sig : V -> bytes -> Signature -> res CryptoError ().

Class SigningKey (K V : Type) : Type := {
  public_key : K -> V;
  sign_bytes : K -> bytes -> res CryptoError Signature
}.

(** What a signing key promises: its public key accepts what it signs. *)
Class SigningLaws {K V} `{VerifyingKey V} `{!SigningKey K V} : Prop := {
  sign_no_panic k content : no_panic (sign_bytes k content);
  sign_ok k content s : sign_bytes k content = Ok s -> sig_ok s;
  sign_verifies k content s : sign_bytes k content = Ok s -> verify_sig (public_key k) content s = Ok ()
}.

(** A key whose signatures name it and the length of the content: enough for
    examples. *)
Definition toy_sign (k : Z) (content : bytes) : Signature :=
  MkSignature (as_u8 k :: as_u8 (Z.of_nat (length content)) :: replicate 62 0).
Definition toy_verifying : VerifyingKey Z := fun k content s =>
  if decide (s = toy_sign k content) then Ok () else Err (InvalidSignature (Text "toy")).
Definition toy_signing : SigningKey Z Z :=
  {| public_key := id; sign_bytes := fun k content => Ok (toy_sign k content) |}.

#[local] Existing Instances toy_verifying toy_signing.

Lemma toy_laws : SigningLaws (K:=Z) (V:=Z).
Proof.
  split.
  - done.
  - intros k content s [= <-]. split; [done|]. constructor; [|constructor; [|by apply u8_literal]].
    all: unfold is_u8, as_u8; apply Z.mod_pos_bound; lia.
  - intros k content s [= <-]. unfold verify_sig, toy_verifying, public_key. cbn. by rewrite decide_True.
Qed.
