(* ===== verification/RepoCommit.v ===== *)
(** Commits, the signed roots of repositories: [src/src/repo/commit.rs], with
    the errors of [src/src/repo/mod.rs].

    The file shows that a commit and its block determine each other, that the
    decoder reads exactly the maps with the fields it wants, and that a
    signature covers every field of the commit. *)
From S2P Require Import Prelude StateError SyntaxError CborError Cid CborValue CborEncode CborEncoder CborDecode CborCodec Crypto.
From S2P Require Did Tid Car MstNode MstLoadSpec.

(** ** Errors *)

(** What the text of [RepoError::Commit] is formatted from. *)
Inductive CommitMsg :=
| Plain (m : ErrMsg)
| Caused (text : string) (e : SyntaxError)
| WithCid (text : string) (c : Cid).

Inductive RepoError :=
| RecordExists (key : bytes)
| RecordNotFound (key : bytes)
| CommitError (m : CommitMsg)
| NoCommit
| StoreNotEmpty
| MissingBlock (c : Cid)
| CidMismatch (c : Cid)
| RootCount (n : nat)
| RepoCar (e : Car.CarError)
| RepoStorage (m : ErrMsg)
| RepoMst (e : MstNode.MstError)
| InvalidPath (key : bytes)
| RepoCbor (e : CborError)
| RepoCrypto (e : CryptoError).

Definition commit_error (s : string) : RepoError := CommitError (Plain (Text s)).

(** [impl From<MstError> for RepoError] *)
Definition repo_of_mst (e : MstNode.MstError) : RepoError :=
  match e with MstNode.Storage m => RepoStorage m | e => RepoMst e end.

(** ** The commit *)

Record Commit := MkCommit {
  did : Did.Did;
  version : Z;
  rev : Z;
  prev : option Cid;
  data : Cid;
  sig : option Signature
}.

Record SignedCommit := MkSignedCommit { commit : Commit; cid : Cid; block : bytes }.

Definition key_did : bytes := Eval cbv in b# "did".
Definition key_rev : bytes := Eval cbv in b# "rev".
Definition key_sig : bytes := Eval cbv in b# "sig".
Definition key_data : bytes := Eval cbv in b# "data".
Definition key_prev : bytes := Eval cbv in b# "prev".
Definition key_version : bytes := Eval cbv in b# "version".

(** [as_str] and [to_string] have no error to return. *)
Definition unfailing {E A} (m : res () A) : res E A := match m with Ok a => Ok a | _ => Panic end.

(** ** Encoding *)

Definition encode_field {W} `{Write W} (c : Commit) (key : bytes) : st W CborError () :=
  if bool_decide (key = key_did) then text ← lift (unfailing (Did.as_str (did c))); encode_text text
  else if bool_decide (key = key_rev) then text ← lift (unfailing (Tid.display (rev c))); encode_text text
  else if bool_decide (key = key_sig) then
    match sig c with
    | Some s => encode_bytes (sig_bytes s)
    | None => encode_bytes (replicate 64 0)
    end
  else if bool_decide (key = key_data) then encode_cid (data c)
  else if bool_decide (key = key_prev) then
    match prev c with Some cid => encode_cid cid | None => encode_null end
  else if bool_decide (key = key_version) then encode_u64 (version c)
  else mret ().

(** The map of these fields, into a [Vec]. *)
Definition encode_fields (c : Commit) (keys : list bytes) (buf : bytes) : res CborError () * bytes :=
  let '(r, (_, buf)) := @encode_text_map bytes vec_write () keys
    (fun key => @on_writer bytes () (@encode_field bytes vec_write c key)) ((), buf) in (r, buf).

Definition unsigned_keys : list bytes := [key_did; key_rev; key_data; key_prev; key_version].
Definition commit_keys : list bytes := [key_did; key_rev; key_sig; key_data; key_prev; key_version].

Definition unsigned_bytes_into (c : Commit) : st bytes RepoError () := fun _ =>
  let '(r, buf) := encode_fields c unsigned_keys [] in (map_err RepoCbor r, buf).

Definition unsigned_bytes (c : Commit) : res RepoError bytes :=
  match unsigned_bytes_into c [] with
  | (Ok _, buf) => Ok buf
  | (Err e, _) => Err e
  | (Panic, _) => Panic
  end.

Definition to_cbor (c : Commit) : res RepoError bytes :=
  match sig c with
  | None => Err (commit_error "cannot encode an unsigned commit with to_cbor; sign it first")
  | Some _ =>
      match encode_fields c commit_keys [] with
      | (Ok _, buf) => Ok buf
      | (Err e, _) => Err (RepoCbor e)
      | (Panic, _) => Panic
      end
  end.

(** ** Signing *)

Definition set_sig (s : Signature) (c : Commit) : Commit :=
  MkCommit (did c) (version c) (rev c) (prev c) (data c) (Some s).

Section Keys.
Context {K V : Type} `{VerifyingKey V} `{!SigningKey K V} `{Sha2}.

Definition sign (key : K) : st Commit RepoError () :=
  unsigned ← (fun c => (unsigned_bytes c, c));
  s ← lift (map_err RepoCrypto (sign_bytes key unsigned));
  modify (set_sig s).

Definition verify (c : Commit) (key : V) : res RepoError () :=
  s ← ok_or (commit_error "commit has no signature") (sig c);
  unsigned ← unsigned_bytes c;
  map_err RepoCrypto (verify_sig key unsigned s).

Definition create_signed (d : Did.Did) (r : Z) (root : Cid) (key : K) : res RepoError SignedCommit :=
  match sign key (MkCommit d 3 r None root None) with
  | (Ok _, c) => bytes ← to_cbor c; Ok (MkSignedCommit c (Cid.compute Drisl bytes) bytes)
  | (Err e, _) => Err e
  | (Panic, _) => Panic
  end.
End Keys.

(** ** Decoding *)

(** The locals of [from_cbor]. *)
Record Found := MkFound {
  f_did : option Did.Did; f_version : option Z; f_rev : option Z;
  f_prev : option Cid; f_data : option Cid; f_sig : option Signature
}.

Definition found_nothing : Found := MkFound None None None None None None.

Definition from_field (key : bytes) (v : Value) (f : Found) : res RepoError Found :=
  let '(MkFound d n r p t s) := f in
  if bool_decide (key = key_did) then
    match v with
    | Value.Text text =>
        d ← map_err (fun e => CommitError (Caused "invalid did" e)) (Did.try_from text);
        Ok (MkFound (Some d) n r p t s)
    | _ => Err (commit_error "'did' is not a string")
    end
  else if bool_decide (key = key_version) then
    match v with
    | Value.Unsigned n =>
        if negb (n =? 2) && negb (n =? 3) then
          Err (CommitError (Plain (TextArgs "unsupported commit version, expected 2 or 3" [n])))
        else Ok (MkFound d (Some (as_u32 n)) r p t s)
    | _ => Err (commit_error "'version' is not an integer")
    end
  else if bool_decide (key = key_rev) then
    match v with
    | Value.Text text =>
        r ← map_err (fun e => CommitError (Caused "invalid rev" e)) (Tid.try_from text);
        Ok (MkFound d n (Some r) p t s)
    | _ => Err (commit_error "'rev' is not a string")
    end
  else if bool_decide (key = key_data) then
    match v with
    | Value.Cid c => Ok (MkFound d n r p (Some c) s)
    | _ => Err (commit_error "'data' is not a CID")
    end
  else if bool_decide (key = key_prev) then
    match v with
    | Value.Cid c => Ok (MkFound d n r (Some c) t s)
    | Value.Null => Ok f
    | _ => Err (commit_error "'prev' is not a CID or null")
    end
  else if bool_decide (key = key_sig) then
    match v with
    | Value.Bytes b =>
        if negb (length b =? 64)%nat then
          Err (CommitError (Plain (TextArgs "sig must be 64 bytes" [Z.of_nat (length b)])))
        else Ok (MkFound d n r p t (Some (MkSignature b)))
    | _ => Err (commit_error "'sig' is not bytes")
    end
  else Ok f.

Fixpoint from_fields (entries : list (bytes * Value)) (f : Found) : res RepoError Found :=
  match entries with
  | [] => Ok f
  | (key, v) :: entries' => f ← from_field key v f; from_fields entries' f
  end.

Definition assemble (f : Found) : res RepoError Commit :=
  ver ← ok_or (commit_error "missing 'version'") (f_version f);
  d ← ok_or (commit_error "missing 'did'") (f_did f);
  c ← ok_or (commit_error "missing 'data'") (f_data f);
  if (ver =? 3) && bool_decide (f_rev f = None) then Err (commit_error "v3 commit missing required 'rev'")
  else if (ver =? 3) && bool_decide (f_sig f = None) then Err (commit_error "v3 commit missing required 'sig'")
  else Ok (MkCommit d ver (default 0 (f_rev f)) (f_prev f) c (f_sig f)).

Definition from_cbor `{Simdutf8} (block : bytes) : res RepoError Commit :=
  val ← map_err RepoCbor (cbor_decode block);
  match val with
  | Value.Map entries => f ← from_fields entries found_nothing; assemble f
  | _ => Err (commit_error "commit is not a CBOR map")
  end.

(** ** The commit as a CBOR value *)

Definition did_text (d : Did.Did) : bytes := match Did.as_str d with Ok s => s | _ => [] end.

Definition field_value (c : Commit) (key : bytes) : Value :=
  if bool_decide (key = key_did) then Value.Text (did_text (did c))
  else if bool_decide (key = key_rev) then Value.Text (Tid.digits 13 (rev c))
  else if bool_decide (key = key_sig) then
    Value.Bytes (match sig c with Some s => sig_bytes s | None => replicate 64 0 end)
  else if bool_decide (key = key_data) then Value.Cid (data c)
  else if bool_decide (key = key_prev) then MstNode.cid_or_null (prev c)
  else Value.Unsigned (version c).

Definition commit_value (keys : list bytes) (c : Commit) : Value :=
  Value.Map (map (fun key => (key, field_value c key)) keys).

(** The types of the fields: a [Did] is one that parsed, and the decoder
    takes two versions. *)
Record commit_ok (c : Commit) : Prop := {
  ok_did : exists raw, Forall is_u8 raw /\ Did.try_from raw = Ok (did c);
  ok_version : version c = 2 \/ version c = 3;
  ok_rev : is_u64 (rev c);
  ok_prev : MstNode.opt_cid_wf (prev c);
  ok_data : cid_wf (data c);
  ok_sig : match sig c with Some s => sig_ok s | None => True end;
  ok_signed : version c = 3 -> sig c <> None
}.

Lemma did_try_from_text raw d : Did.try_from raw = Ok d ->
  Did.as_str d = Ok raw /\ did_text d = raw /\ utf8_valid raw = true /\ (length raw <= 2048)%nat.
Proof.
  intros Hd. unfold did_text. destruct (Did.did_accessors raw d Hd) as (m & i & _ & _ & Has & _).
  rewrite Has. unfold Did.try_from in Hd. apply res_bind_Ok in Hd as ([] & Hv & _).
  apply Did.validate_sound in Hv as (m' & i' & Hg). split_and!; [done..|by eapply Did.did_grammar_ascii|].
  by destruct Hg.
Qed.

Lemma lift_on_vec {A} (r : res CborError A) a (k : A -> st bytes CborError ()) out :
  r = Ok a -> writes (k a) out -> writes (a ← lift r; k a) out.
Proof. intros -> Hk w. by rewrite (st_bind_run _ _ _ a w). Qed.

Lemma field_value_normal c key : normalize (field_value c key) = field_value c key.
Proof. unfold field_value. repeat case_bool_decide; try done. by destruct (prev c). Qed.

(** The closure writes the value of its key. *)
Lemma encode_field_writes c key raw : Did.try_from raw = Ok (did c) -> In key commit_keys ->
  writes (@encode_field bytes vec_write c key) (enc (field_value c key)).
Proof.
  intros (Has & Ht & _)%did_try_from_text Hk.
  unfold encode_field, field_value. repeat case_bool_decide.
  - rewrite Ht. apply (lift_on_vec _ raw); [by rewrite Has|]. apply writes_text.
  - apply (lift_on_vec _ (Tid.digits 13 (rev c))); [by rewrite Tid.display_digits|]. apply writes_text.
  - destruct (sig c); apply writes_bytes.
  - apply writes_emit.
  - destruct (prev c); apply writes_emit.
  - apply writes_head.
  - exfalso. unfold commit_keys in Hk. cbn [In] in Hk. naive_solver.
Qed.

Lemma commit_value_normal keys c : keys = unsigned_keys \/ keys = commit_keys ->
  normalize (commit_value keys c) = commit_value keys c.
Proof.
  intros Hk. unfold commit_value. cbn [normalize]. rewrite map_map. cbn [fst snd].
  rewrite (map_ext _ (fun key => (key, field_value c key))) by (intros; by rewrite field_value_normal).
  by destruct Hk as [-> | ->].
Qed.

Lemma encode_fields_eq c keys raw : Did.try_from raw = Ok (did c) -> keys = unsigned_keys \/ keys = commit_keys ->
  encode_fields c keys [] = (Ok (), enc (commit_value keys c)).
Proof.
  intros Hd Hk. rewrite <- (commit_value_normal keys c Hk). unfold encode_fields.
  destruct (encode_text_map_spec keys (field_value c) (fun key => @on_writer bytes () (@encode_field bytes vec_write c key)) () [])
    as [[] ->]; [|done].
  intros key [] w Hin. exists (). unfold on_writer. rewrite field_value_normal.
  rewrite (encode_field_writes c key raw Hd); [done|]. destruct Hk as [-> | ->]; [|done].
  unfold unsigned_keys, commit_keys in *. cbn [In] in *. naive_solver.
Qed.

Lemma unsigned_bytes_eq c raw : Did.try_from raw = Ok (did c) ->
  unsigned_bytes c = Ok (enc (commit_value unsigned_keys c)).
Proof.
  intros Hd. unfold unsigned_bytes, unsigned_bytes_into. by rewrite (encode_fields_eq c _ raw) by auto.
Qed.

Lemma to_cbor_eq c raw : Did.try_from raw = Ok (did c) -> sig c <> None ->
  to_cbor c = Ok (enc (commit_value commit_keys c)).
Proof.
  intros Hd Hs. unfold to_cbor. destruct (sig c) eqn:Hsig; [|done]. by rewrite (encode_fields_eq c _ raw) by auto.
Qed.

Lemma digits_u8 n v : Forall is_u8 (Tid.digits n v).
Proof.
  eapply Forall_impl; [apply Tid.digits_chars|]. intros b Hb. cbn in Hb. unfold is_u8.
  unfold Tid.is_tid_char, in_range, is_ascii_lowercase in Hb. lia.
Qed.

Lemma digits_utf8 n v : utf8_valid (Tid.digits n v) = true.
Proof.
  apply utf8_valid_ascii. eapply Forall_impl; [apply Tid.digits_chars|]. intros b Hb. cbn in Hb.
  unfold Tid.is_tid_char, in_range in Hb. ascii_lia.
Qed.

Lemma field_value_canonical c key : commit_ok c -> canonical 1 (field_value c key).
Proof.
  intros [(raw & Hu & Hd) Hv Hr Hp Ht Hs _]. assert (Hm : (1 < MAX_DEPTH)%nat) by (unfold MAX_DEPTH; lia).
  destruct (did_try_from_text raw (did c) Hd) as (_ & Ht' & Hutf & Hlen).
  unfold field_value, i64_max in *. rewrite Ht'. repeat case_bool_decide.
  - apply CText; [done|done|]. unfold i64_max. lia.
  - apply CText; [done|split; [apply digits_u8|apply digits_utf8]|]. rewrite Tid.digits_length. unfold i64_max. lia.
  - destruct (sig c) as [s|].
    + destruct Hs as [Hl Hs]. apply CBytes; [done..|]. rewrite Hl. unfold i64_max. lia.
    + apply CBytes; [done|by apply u8_literal|done].
  - by apply CCid.
  - by apply MstNode.opt_cid_canonical.
  - apply CUnsigned; [done|]. unfold i64_max. lia.
Qed.

Lemma commit_value_canonical keys c : commit_ok c -> keys = unsigned_keys \/ keys = commit_keys ->
  canonical 0 (commit_value keys c).
Proof.
  intros Hc Hk. apply CMap.
  - unfold MAX_DEPTH. lia.
  - by destruct Hk as [-> | ->].
  - unfold keys_sorted. rewrite <- list_fmap_compose. unfold compose. cbn [fst]. rewrite list_fmap_id.
    destruct Hk as [-> | ->]; apply (bool_decide_unpack _); by vm_compute.
  - apply Forall_map. destruct Hk as [-> | ->]; repeat constructor; try done; by apply u8_literal.
  - apply Forall_map, Forall_forall. intros key _. by apply field_value_canonical.
Qed.

(** ** What the decoder reads *)

Fixpoint field (key : bytes) (entries : list (bytes * Value)) : option Value :=
  match entries with
  | [] => None
  | (k, v) :: entries' => if bool_decide (key = k) then Some v else field key entries'
  end.

(** What a field adds to what was found of it. *)
Definition reads_did (v : option Value) (old new : option Did.Did) : Prop :=
  match v with
  | None => new = old
  | Some (Value.Text text) => match Did.try_from text with Ok d => new = Some d | _ => False end
  | _ => False
  end.

Definition reads_version (v : option Value) (old new : option Z) : Prop :=
  match v with
  | None => new = old
  | Some (Value.Unsigned n) => (n = 2 \/ n = 3) /\ new = Some n
  | _ => False
  end.

Definition reads_rev (v : option Value) (old new : option Z) : Prop :=
  match v with
  | None => new = old
  | Some (Value.Text text) => match Tid.try_from text with Ok r => new = Some r | _ => False end
  | _ => False
  end.

Definition reads_data (v : option Value) (old new : option Cid) : Prop :=
  match v with
  | None => new = old
  | Some (Value.Cid c) => new = Some c
  | _ => False
  end.

Definition reads_prev (v : option Value) (old new : option Cid) : Prop :=
  match v with
  | None | Some Value.Null => new = old
  | Some (Value.Cid c) => new = Some c
  | _ => False
  end.

Definition reads_sig (v : option Value) (old new : option Signature) : Prop :=
  match v with
  | None => new = old
  | Some (Value.Bytes b) => length b = 64%nat /\ new = Some (MkSignature b)
  | _ => False
  end.

Definition reads (entries : list (bytes * Value)) (f f' : Found) : Prop :=
  reads_did (field key_did entries) (f_did f) (f_did f') /\
  reads_version (field key_version entries) (f_version f) (f_version f') /\
  reads_rev (field key_rev entries) (f_rev f) (f_rev f') /\
  reads_prev (field key_prev entries) (f_prev f) (f_prev f') /\
  reads_data (field key_data entries) (f_data f) (f_data f') /\
  reads_sig (field key_sig entries) (f_sig f) (f_sig f').

Lemma field_absent key entries : ~ key ∈ entries.*1 -> field key entries = None.
Proof.
  induction entries as [|[k v] entries IH]; [done|]. cbn. rewrite not_elem_of_cons. intros [Hk Hin].
  rewrite bool_decide_false by done. by apply IH.
Qed.

(** Leaves the fields that are not read as they are. *)
Ltac reads_solver :=
  cbn;
  repeat match goal with
  | |- context [reads_did ?v ?a ?b] => generalize (reads_did v a b)
  | |- context [reads_version ?v ?a ?b] => generalize (reads_version v a b)
  | |- context [reads_rev ?v ?a ?b] => generalize (reads_rev v a b)
  | |- context [reads_prev ?v ?a ?b] => generalize (reads_prev v a b)
  | |- context [reads_data ?v ?a ?b] => generalize (reads_data v a b)
  | |- context [reads_sig ?v ?a ?b] => generalize (reads_sig v a b)
  end; intros; naive_solver.

Ltac decide_key k :=
  match goal with Hin : ~ ?key ∈ _ |- _ =>
    destruct (decide (key = k)) as [->|?];
    [rewrite (field_absent _ _ Hin), (bool_decide_true (k = k)) by done; rewrite ?(bool_decide_false (_ = _)) by done
    |rewrite (bool_decide_false (key = k)), (bool_decide_false (k = key)) by done]
  end.

(** Each entry is about one field, and no other entry is about it. *)
Lemma from_field_reads key v f f' entries f2 : ~ key ∈ entries.*1 -> from_field key v f = Ok f' ->
  reads entries f' f2 <-> reads ((key, v) :: entries) f f2.
Proof.
  intros Hin. unfold reads. cbn [field]. destruct f as [d n r p t s]. unfold from_field.
  decide_key key_did; [|decide_key key_version; [|decide_key key_rev; [|decide_key key_data; [|decide_key key_prev;
    [|decide_key key_sig]]]]].
  - destruct v; try done. intros (d' & Hd%map_err_Ok & [= <-])%res_bind_Ok. cbn. rewrite Hd. reads_solver.
  - destruct v as [n'| | | | | | | | |]; try done. destruct (negb _ && _) eqn:Hn; [done|]. intros [= <-].
    assert (Hn' : n' = 2 \/ n' = 3) by lia. replace (as_u32 n') with n' by (by destruct Hn' as [-> | ->]). reads_solver.
  - destruct v; try done. intros (r' & Hr%map_err_Ok & [= <-])%res_bind_Ok. cbn. rewrite Hr. reads_solver.
  - destruct v; try done. intros [= <-]. reads_solver.
  - destruct v; try done; intros [= <-]; reads_solver.
  - destruct v; try done. destruct (negb _) eqn:Hl; [done|]. apply negb_false_iff, Nat.eqb_eq in Hl.
    intros [= <-]. reads_solver.
  - by intros [= <-].
Qed.

Lemma from_field_total key v f entries f2 : ~ key ∈ entries.*1 -> reads ((key, v) :: entries) f f2 ->
  exists f', from_field key v f = Ok f'.
Proof.
  intros Hin. unfold reads. cbn [field]. destruct f as [d n r p t s]. unfold from_field.
  decide_key key_did; [|decide_key key_version; [|decide_key key_rev; [|decide_key key_data; [|decide_key key_prev;
    [|decide_key key_sig]]]]].
  - destruct v as [| | | | |text| | | |]; try by intros []. cbn. intros [Hd _].
    destruct (Did.try_from text); [by eexists|done..].
  - destruct v as [n'| | | | | | | | |]; try by intros (_ & [] & _). cbn. intros (_ & [Hn _] & _).
    replace (negb (n' =? 2) && negb (n' =? 3)) with false by lia. by eexists.
  - destruct v as [| | | | |text| | | |]; try by intros (_ & _ & [] & _). cbn. intros (_ & _ & Hr & _).
    destruct (Tid.try_from text); [by eexists|done..].
  - destruct v; try by intros (_ & _ & _ & _ & [] & _). by eexists.
  - destruct v; try by intros (_ & _ & _ & [] & _). all: by eexists.
  - destruct v as [| | | | | |b| | |]; try by intros (_ & _ & _ & _ & _ & []). cbn. intros (_ & _ & _ & _ & _ & Hl & _).
    rewrite Hl. by eexists.
  - by eexists.
Qed.

Lemma from_fields_reads entries f f2 : NoDup entries.*1 -> from_fields entries f = Ok f2 <-> reads entries f f2.
Proof.
  revert f. induction entries as [|[key v] entries IH]; intros f.
  - intros _. unfold reads. destruct f, f2. cbn. split; [by intros [= -> -> -> -> -> ->]|by intros (-> & -> & -> & -> & -> & ->)].
  - rewrite fmap_cons. intros [Hin Hnd]%NoDup_cons. cbn [from_fields fst] in *. rewrite res_bind_Ok. split.
    + intros (f' & Hf & Hr). by apply (from_field_reads key v f f' entries f2 Hin Hf), IH.
    + intros Hr. destruct (from_field_total key v f entries f2 Hin Hr) as [f' Hf]. exists f'. split; [done|].
      by apply IH, (from_field_reads key v f f' entries f2 Hin Hf).
Qed.

Lemma tid_try_from_no_panic raw : no_panic (Tid.try_from raw).
Proof.
  unfold Tid.try_from. destruct (Nat.eqb_spec (length raw) 13) as [Hl|]; [|done]. cbn [negb].
  apply no_panic_bind; [apply no_panic_index; lia|]. intros b _. by repeat case_match.
Qed.

Lemma from_cbor_no_panic `{Simdutf8} block : no_panic (from_cbor block).
Proof.
  apply no_panic_bind; [apply no_panic_map_err, MstLoadSpec.cbor_decode_no_panic|]. intros v _. destruct v; try done.
  assert (Hf : forall entries f, no_panic (from_fields entries f)).
  { clear. induction entries as [|[key v] entries IH]; intros f; [done|]. cbn [from_fields]. apply no_panic_bind; [|done].
    destruct f. unfold from_field. repeat case_bool_decide; destruct v; try done; try case_match; try done.
    all: apply no_panic_bind; [apply no_panic_map_err|done].
    - apply no_panic_bind; [apply Did.did_validate_no_panic|done].
    - apply tid_try_from_no_panic. }
  apply no_panic_bind; [apply Hf|]. intros f _. unfold assemble.
  repeat (apply no_panic_bind; [apply no_panic_ok_or|intros ? _]). by repeat case_match.
Qed.

(** ** The block and the commit determine each other *)

(** The commit a map describes. A version 2 commit may lack a revision and a
    signature. *)
Record describes (entries : list (bytes * Value)) (c : Commit) : Prop := {
  d_did : match field key_did entries with Some (Value.Text s) => Did.try_from s = Ok (did c) | _ => False end;
  d_version : field key_version entries = Some (Value.Unsigned (version c)) /\ (version c = 2 \/ version c = 3);
  d_rev : match field key_rev entries with
          | Some (Value.Text s) => Tid.try_from s = Ok (rev c)
          | None => version c = 2 /\ rev c = 0
          | _ => False
          end;
  d_prev : match field key_prev entries with
           | Some (Value.Cid p) => prev c = Some p
           | None | Some Value.Null => prev c = None
           | _ => False
           end;
  d_data : field key_data entries = Some (Value.Cid (data c));
  d_sig : match field key_sig entries with
          | Some (Value.Bytes b) => length b = 64%nat /\ sig c = Some (MkSignature b)
          | None => version c = 2 /\ sig c = None
          | _ => False
          end
}.

Lemma assemble_Ok f c : assemble f = Ok c <->
  f_version f = Some (version c) /\ f_did f = Some (did c) /\ f_data f = Some (data c) /\
  (version c = 3 -> f_rev f <> None /\ f_sig f <> None) /\
  rev c = default 0 (f_rev f) /\ prev c = f_prev f /\ sig c = f_sig f.
Proof.
  destruct f as [[d|] [n|] r p [t|] s], c as [d' n' r' p' t' s']; cbn;
    try (split; [done|intros (? & ? & ? & _); congruence]).
  destruct (n =? 3) eqn:Hn; cbn [andb].
  - apply Z.eqb_eq in Hn as ->. repeat case_bool_decide; cbn; try (split; [done|naive_solver]).
    split; [by intros [= <- <- <- <- <- <-]|]. intros (? & ? & ? & _ & ? & ? & ?). congruence.
  - apply Z.eqb_neq in Hn. split; [by intros [= <- <- <- <- <- <-]|].
    intros (? & ? & ? & _ & ? & ? & ?). congruence.
Qed.

(** What the fields found so far have in common. *)
Lemma from_fields_inv (P : Found -> Prop) : (forall key v f f', P f -> from_field key v f = Ok f' -> P f') ->
  forall entries f f', P f -> from_fields entries f = Ok f' -> P f'.
Proof.
  intros Hf. induction entries as [|[key v] entries IH]; intros f f' Hp; cbn [from_fields]; [by intros <-%Ok_inj|].
  intros (f1 & H1 & H2)%res_bind_Ok. exact (IH f1 f' (Hf _ _ _ _ Hp H1) H2).
Qed.

(** The DID of a commit that decodes has parsed, and its revision is a [u64]. *)
Definition found_ok (f : Found) : Prop :=
  (forall d, f_did f = Some d -> exists raw, Did.try_from raw = Ok d) /\ (forall r, f_rev f = Some r -> is_u64 r).

Lemma from_field_ok key v f f' : found_ok f -> from_field key v f = Ok f' -> found_ok f'.
Proof.
  destruct f as [d n r p t s]. intros [Hd Hr] H1. unfold from_field in H1. cbn in Hd, Hr.
  repeat case_bool_decide; destruct v; try done; repeat (case_match; try done); simplify_eq; try done.
  all: apply res_bind_Ok in H1 as (x & Hx%map_err_Ok & <-%Ok_inj); split; cbn; try done.
  - intros y [= <-]. by eexists.
  - intros y [= <-]. by apply Tid.try_from_inv in Hx as [? _].
Qed.

Lemma from_cbor_found `{Simdutf8} block c : from_cbor block = Ok c -> (exists raw, Did.try_from raw = Ok (did c)) /\ is_u64 (rev c).
Proof.
  intros (v & _ & Hr)%res_bind_Ok. destruct v as [| | | | | | | | |entries]; try done.
  apply res_bind_Ok in Hr as (f & Hf & Ha). apply (from_fields_inv found_ok from_field_ok) in Hf as [Hd Hrev]; [|done].
  apply assemble_Ok in Ha as (_ & Hdid & _ & _ & -> & _). split; [by apply Hd|].
  destruct (f_rev f) as [r|]; [by apply Hrev|]. cbn. unfold is_u64. lia.
Qed.

Lemma from_cbor_did `{Simdutf8} block c : from_cbor block = Ok c -> exists raw, Did.try_from raw = Ok (did c).
Proof. intros Hc. by apply from_cbor_found in Hc as [? _]. Qed.

Lemma from_cbor_rev `{Simdutf8} block c : from_cbor block = Ok c -> is_u64 (rev c).
Proof. intros Hc. by apply from_cbor_found in Hc as [_ ?]. Qed.

Lemma reads_describes entries c :
  (exists f, reads entries found_nothing f /\ assemble f = Ok c) <-> describes entries c.
Proof.
  setoid_rewrite assemble_Ok. split.
  - intros (f & (Hd & Hv & Hr & Hp & Ht & Hs) & Hfv & Hfd & Hft & H3 & Hrev & Hprev & Hsig).
    rewrite Hfd in Hd. rewrite Hfv in Hv. rewrite Hft in Ht. cbn in *.
    assert (Hn : field key_version entries = Some (Value.Unsigned (version c)) /\ (version c = 2 \/ version c = 3))
      by (destruct (field key_version entries) as [[]|]; naive_solver). split.
    + destruct (field key_did entries) as [[]|]; try done. cbn in Hd. destruct (Did.try_from _); naive_solver.
    + done.
    + destruct (field key_rev entries) as [[]|]; try done; cbn in Hr.
      * destruct (Tid.try_from _); try done. by rewrite Hrev, Hr.
      * rewrite Hr in *. destruct Hn as [_ [Hn|Hn]]; [done|by destruct (H3 Hn)].
    + destruct (field key_prev entries) as [[]|]; try done; cbn in Hp; congruence.
    + destruct (field key_data entries) as [[]|]; try done; cbn in Ht; congruence.
    + destruct (field key_sig entries) as [[]|]; cbn in Hs; try done; [destruct Hs; split; congruence|].
      rewrite Hs in *. destruct Hn as [_ [Hn|Hn]]; [done|by destruct (H3 Hn)].
  - intros [Hd [Hv Hn] Hr Hp Ht Hs].
    exists (MkFound (Some (did c)) (Some (version c))
      (match field key_rev entries with Some _ => Some (rev c) | None => None end) (prev c) (Some (data c)) (sig c)).
    unfold reads. cbn. rewrite Hv, Ht. split.
    + split_and!; try done.
      * destruct (field key_did entries) as [[]|]; try done. cbn. by rewrite Hd.
      * destruct (field key_rev entries) as [[]|]; try done. cbn. by rewrite Hr.
      * destruct (field key_sig entries) as [[]|]; try done. by destruct Hs.
    + split_and!; try done.
      * intros H3. split; [destruct (field key_rev entries); [done|]; destruct Hr; lia|].
        intros Hc. destruct (field key_sig entries) as [[]|]; destruct Hs; (lia || congruence).
      * destruct (field key_rev entries) as [[]|]; try done. by destruct Hr.
Qed.

Lemma from_cbor_Ok `{Simdutf8Laws} block c : Forall is_u8 block -> Z.of_nat (length block) <= i64_max ->
  from_cbor block = Ok c <->
  exists entries, canonical 0 (Value.Map entries) /\ block = enc (Value.Map entries) /\ describes entries c.
Proof.
  intros Hu Hl. unfold from_cbor. rewrite res_bind_Ok. setoid_rewrite map_err_Ok. split.
  - intros (v & Hv & Hc). apply cbor_decode_Ok in Hv as [Hcan ->]; [|done..].
    destruct v as [| | | | | | | | |entries]; try done. exists entries. split_and!; [done..|].
    apply reads_describes. apply res_bind_Ok in Hc as (f & Hf & Ha). exists f. split; [|done].
    inversion_clear Hcan. by apply from_fields_reads; [apply keys_sorted_nodup|].
  - intros (entries & Hcan & -> & (f & Hr & Ha)%reads_describes). exists (Value.Map entries).
    split; [by apply cbor_decode_Ok|]. apply res_bind_Ok. exists f. split; [|done].
    inversion_clear Hcan. by apply from_fields_reads; [apply keys_sorted_nodup|].
Qed.

(** C33. [from_cbor] reads exactly the canonical maps in which the fields of a
    commit, found by their keys in any company, have its values; it never
    panics. *)
Theorem from_cbor_spec `{Simdutf8Laws} block c : Forall is_u8 block -> Z.of_nat (length block) <= i64_max ->
  no_panic (from_cbor block) /\
  (from_cbor block = Ok c <->
   exists entries, canonical 0 (Value.Map entries) /\ block = enc (Value.Map entries) /\ describes entries c).
Proof. intros. split; [apply from_cbor_no_panic|by apply from_cbor_Ok]. Qed.

Lemma string_length (s : bytes) major : 0 <= major < 8 -> (length s <= 2048)%nat ->
  (length (head major (len_u64 s) ++ s) <= 2057)%nat.
Proof.
  intros Hm Hs. rewrite length_app. pose proof (head_length_9 major (len_u64 s) Hm (len_u64_range _)). lia.
Qed.

Lemma field_value_length c key : commit_ok c -> (length (enc (field_value c key)) <= 2057)%nat.
Proof.
  intros [(raw & _ & Hd) Hv _ Hp Ht Hs _]. destruct (did_try_from_text raw (did c) Hd) as (_ & Htext & _ & Hlen).
  assert (Hcid : forall x, cid_wf x -> (length (enc (Value.Cid x)) <= 2057)%nat).
  { intros x Hx. cbn [enc]. unfold tag42. rewrite length_app, (to_bytes_length _ Hx). cbn. lia. }
  unfold field_value. rewrite Htext. repeat case_bool_decide; cbn [enc].
  - by apply string_length.
  - apply string_length; [done|]. rewrite Tid.digits_length. lia.
  - apply string_length; [done|]. destruct (sig c) as [s|]; [destruct Hs as [-> _]; lia|]. rewrite length_replicate. lia.
  - by apply Hcid.
  - unfold MstNode.cid_or_null. destruct (prev c); [by apply Hcid|]. cbn. lia.
  - pose proof (head_length_9 0 (version c) ltac:(lia) ltac:(unfold is_u64; lia)). lia.
Qed.

Lemma commit_value_length keys c : commit_ok c -> keys = unsigned_keys \/ keys = commit_keys ->
  Z.of_nat (length (enc (commit_value keys c))) <= i64_max.
Proof.
  intros Hc Hk. assert (Hl : forall ks, Forall (fun key => (length key <= 7)%nat) ks ->
    (length (concat (map (fun e => text_enc e.1 ++ enc e.2) (map (fun key => (key, field_value c key)) ks))) <= length ks * 2100)%nat).
  { induction 1 as [|key ks Hkey _ IH]; [cbn; lia|]. cbn [map concat fst snd length]. rewrite !length_app.
    pose proof (field_value_length c key Hc). unfold text_enc at 1.
    pose proof (head_length_9 3 (len_u64 key) ltac:(lia) (len_u64_range _)). rewrite length_app. lia. }
  unfold commit_value. cbn [enc]. rewrite length_app.
  assert (H9 : forall A (l : list A), Z.of_nat (length (head 5 (len_u64 l))) <= 9)
    by (intros; apply head_length_9; [lia|apply len_u64_range]).
  specialize (H9 _ (map (fun key => (key, field_value c key)) keys)).
  assert (Hks : Forall (fun key => (length key <= 7)%nat) keys /\ (length keys <= 6)%nat)
    by (destruct Hk as [-> | ->]; (split; [repeat constructor; cbn; lia|cbn; lia])).
  destruct Hks as [Hks Hn]. specialize (Hl keys Hks). unfold i64_max. cbv beta in *. lia.
Qed.

Lemma field_map (f : bytes -> Value) key keys : In key keys -> field key (map (fun k => (k, f k)) keys) = Some (f key).
Proof.
  induction keys as [|k keys IH]; [done|]. cbn. intros Hin. case_bool_decide as Hk; [by subst|].
  apply IH. by destruct Hin.
Qed.

(** The decoder reads back the fields the encoder wrote. *)
Lemma commit_value_describes c : commit_ok c -> sig c <> None ->
  describes (map (fun key => (key, field_value c key)) commit_keys) c.
Proof.
  intros [(raw & _ & Hd) Hv Hr Hp Ht Hs _] Hsig. destruct (did_try_from_text raw (did c) Hd) as (_ & Htext & _).
  assert (Hf : forall key, In key commit_keys -> field key (map (fun key => (key, field_value c key)) commit_keys) = Some (field_value c key))
    by (intros; by apply field_map).
  split; rewrite Hf by (unfold commit_keys; cbn [In]; tauto).
  - change (Did.try_from (did_text (did c)) = Ok (did c)). by rewrite Htext.
  - done.
  - change (Tid.try_from (Tid.digits 13 (rev c)) = Ok (rev c)). by apply Tid.try_from_digits.
  - change (field_value c key_prev) with (MstNode.cid_or_null (prev c)). unfold MstNode.cid_or_null. by destruct (prev c).
  - done.
  - destruct (sig c) as [[b]|] eqn:Hsb; [|done]. destruct Hs.
    change (field_value c key_sig) with (Value.Bytes (match sig c with Some s => sig_bytes s | None => replicate 64 0 end)).
    by rewrite Hsb.
Qed.

(** A signed commit encodes, and its block decodes to it. *)
Theorem commit_roundtrip `{Simdutf8Laws} c : commit_ok c -> sig c <> None ->
  exists block, to_cbor c = Ok block /\ from_cbor block = Ok c.
Proof.
  intros Hc Hs. pose proof (ok_did c Hc) as (raw & _ & Hd). exists (enc (commit_value commit_keys c)).
  split; [by apply (to_cbor_eq c raw)|]. pose proof (commit_value_canonical commit_keys c Hc (or_intror eq_refl)) as Hcan.
  apply from_cbor_Ok; [by eapply enc_u8|by apply commit_value_length; auto|].
  eexists. split_and!; [exact Hcan|done|by apply commit_value_describes].
Qed.

Lemma enc_injective `{Simdutf8Laws} v1 v2 : canonical 0 v1 -> canonical 0 v2 ->
  Z.of_nat (length (enc v1)) <= i64_max -> enc v1 = enc v2 -> v1 = v2.
Proof.
  intros H1 H2 Hl He. pose proof (fun v => cbor_decode_Ok (enc v1) v (enc_u8 _ _ H1) Hl) as Hd.
  apply (Ok_inj (E:=CborError)). by rewrite <- (proj2 (Hd v1)), <- (proj2 (Hd v2)).
Qed.

Lemma did_text_inj raw1 raw2 d1 d2 : Did.try_from raw1 = Ok d1 -> Did.try_from raw2 = Ok d2 ->
  did_text d1 = did_text d2 -> d1 = d2.
Proof.
  intros H1 H2. destruct (did_try_from_text _ _ H1) as (_ & -> & _), (did_try_from_text _ _ H2) as (_ & -> & _).
  intros ->. apply (Ok_inj (E:=SyntaxError)). congruence.
Qed.

Lemma tid_digits_inj r1 r2 : is_u64 r1 -> is_u64 r2 -> Tid.digits 13 r1 = Tid.digits 13 r2 -> r1 = r2.
Proof.
  intros H1 H2 He. apply (Ok_inj (E:=SyntaxError)). rewrite <- !Tid.try_from_digits by done. by rewrite He.
Qed.

Lemma field_of_value keys c1 c2 key : In key keys -> commit_value keys c1 = commit_value keys c2 ->
  field_value c1 key = field_value c2 key.
Proof.
  intros Hin He. assert (Hm : map (fun k => (k, field_value c1 k)) keys = map (fun k => (k, field_value c2 k)) keys)
    by (unfold commit_value in He; congruence).
  pose proof (field_map (field_value c1) key keys Hin) as H1. rewrite Hm, field_map in H1 by done. congruence.
Qed.

(** C32. The bytes that are signed determine every field of the commit but the
    signature. *)
Theorem unsigned_bytes_injective `{Simdutf8Laws} c1 c2 : commit_ok c1 -> commit_ok c2 ->
  unsigned_bytes c1 = unsigned_bytes c2 ->
  did c1 = did c2 /\ version c1 = version c2 /\ rev c1 = rev c2 /\ prev c1 = prev c2 /\ data c1 = data c2.
Proof.
  intros H1 H2. pose proof (ok_did c1 H1) as (raw1 & _ & Hd1). pose proof (ok_did c2 H2) as (raw2 & _ & Hd2).
  rewrite (unsigned_bytes_eq c1 raw1), (unsigned_bytes_eq c2 raw2) by done. intros He%Ok_inj.
  apply enc_injective in He; [|by apply commit_value_canonical; auto..|by apply commit_value_length; auto].
  assert (Hf : forall key, In key unsigned_keys -> field_value c1 key = field_value c2 key)
    by (intros; by apply (field_of_value unsigned_keys)).
  unfold unsigned_keys in Hf. cbn [In] in Hf.
  pose proof (Hf key_did ltac:(tauto)) as Hdid. pose proof (Hf key_rev ltac:(tauto)) as Hrev.
  pose proof (Hf key_data ltac:(tauto)) as Hdata. pose proof (Hf key_prev ltac:(tauto)) as Hprev.
  pose proof (Hf key_version ltac:(tauto)) as Hver. clear Hf He. split_and!.
  - apply (did_text_inj raw1 raw2); [done..|].
    change (Value.Text (did_text (did c1)) = Value.Text (did_text (did c2))) in Hdid. congruence.
  - change (Value.Unsigned (version c1) = Value.Unsigned (version c2)) in Hver. congruence.
  - change (Value.Text (Tid.digits 13 (rev c1)) = Value.Text (Tid.digits 13 (rev c2))) in Hrev.
    apply tid_digits_inj; [by apply ok_rev..|]. congruence.
  - change (MstNode.cid_or_null (prev c1) = MstNode.cid_or_null (prev c2)) in Hprev. unfold MstNode.cid_or_null in Hprev.
    destruct (prev c1), (prev c2); congruence.
  - change (Value.Cid (data c1) = Value.Cid (data c2)) in Hdata. congruence.
Qed.

(** ** Signed commits *)

Section Signed.
Context {K V : Type} `{SigningLaws K V} `{Sha2} `{Simdutf8Laws}.

(** What [create_signed] returns. *)
Lemma create_signed_ok raw d r root key : Forall is_u8 raw -> Did.try_from raw = Ok d -> is_u64 r -> cid_wf root ->
  match create_signed d r root key with
  | Ok sc =>
      verify (commit sc) (public_key key) = Ok () /\ from_cbor (block sc) = Ok (commit sc) /\
      cid sc = Cid.compute Drisl (block sc) /\ did (commit sc) = d /\ rev (commit sc) = r /\
      data (commit sc) = root /\ prev (commit sc) = None /\ version (commit sc) = 3
  | Err e => exists e', e = RepoCrypto e'
  | Panic => False
  end.
Proof.
  intros Hu Hd Hr Hroot. unfold create_signed, sign. set (c := MkCommit d 3 r None root None).
  pose proof (unsigned_bytes_eq c raw Hd) as Hub. set (unsigned := enc (commit_value unsigned_keys c)) in *.
  rewrite (st_bind_run _ _ c unsigned c) by (by rewrite Hub).
  pose proof (sign_no_panic key unsigned) as Hnp. destruct (sign_bytes key unsigned) as [s|e|] eqn:Hs; [|by exists e|done].
  rewrite (st_bind_run _ _ c s c) by done. unfold modify. cbv beta iota.
  assert (Hok : commit_ok (set_sig s c)).
  { split; [by exists raw|by right|done..|by apply (sign_ok key unsigned)|done]. }
  rewrite (to_cbor_eq (set_sig s c) raw) by done. cbn [mbind res_bind commit cid block].
  split_and!; try done.
  - unfold verify. change (sig (set_sig s c)) with (Some s). cbn [ok_or mbind res_bind].
    change (unsigned_bytes (set_sig s c)) with (unsigned_bytes c). rewrite Hub. cbn [mbind res_bind].
    by rewrite (sign_verifies key unsigned s Hs).
  - pose proof (commit_value_canonical commit_keys _ Hok (or_intror eq_refl)) as Hcan.
    apply from_cbor_Ok; [by eapply enc_u8|by apply commit_value_length; auto|].
    eexists. split_and!; [exact Hcan|done|by apply commit_value_describes].
Qed.

(** A commit that was created verifies under its key, decodes from its
    block, and is named by it; creating one fails only with the key. *)
Theorem create_signed_spec raw d r root key : Forall is_u8 raw -> Did.try_from raw = Ok d -> is_u64 r -> cid_wf root ->
  match create_signed d r root key with
  | Ok sc =>
      verify (commit sc) (public_key key) = Ok () /\ from_cbor (block sc) = Ok (commit sc) /\
      cid sc = Cid.compute Drisl (block sc) /\ did (commit sc) = d /\ rev (commit sc) = r /\
      data (commit sc) = root /\ prev (commit sc) = None /\ version (commit sc) = 3
  | Err e => exists e', e = RepoCrypto e'
  | Panic => False
  end.
Proof. apply create_signed_ok. Qed.
End Signed.

(** ** Examples *)

Definition ex_did : Did.Did := Eval vm_compute in
  match Did.try_from (b# "did:web:example.com") with Ok d => d | _ => Did.default end.
Definition ex_data : Cid := MkCid Drisl (replicate 32 7).
Definition ex_signed : Commit :=
  MkCommit ex_did 3 1945000000000000512 None ex_data (Some (MkSignature (replicate 64 1))).
Definition ex_v2 : Commit := MkCommit ex_did 2 0 (Some ex_data) ex_data None.

Lemma ex_did_ok : Did.try_from (b# "did:web:example.com") = Ok ex_did.
Proof. vm_compute. reflexivity. Qed.

Lemma ex_did_parsed : exists raw, Forall is_u8 raw /\ Did.try_from raw = Ok ex_did.
Proof. eexists. split; [|exact ex_did_ok]. apply u8_literal. reflexivity. Qed.

Lemma ex_signed_ok : commit_ok ex_signed.
Proof.
  split; [exact ex_did_parsed|by right|unfold is_u64; cbn; lia|done| |split; [done|apply u8_literal; reflexivity]|done].
  split; [done|apply u8_literal; reflexivity].
Qed.

#[local] Existing Instances simd_ref simd_ref_laws sha2_toy toy_verifying toy_signing toy_laws.

Example commit_roundtrip_witness : exists block, to_cbor ex_signed = Ok block /\ from_cbor block = Ok ex_signed.
Proof. apply commit_roundtrip; [exact ex_signed_ok|done]. Defined.

Example from_cbor_spec_witness : no_panic (from_cbor [0xa0]) /\
  (from_cbor [0xa0] = Ok ex_v2 <->
   exists entries, canonical 0 (Value.Map entries) /\ [0xa0] = enc (Value.Map entries) /\ describes entries ex_v2).
Proof. apply from_cbor_spec; [apply u8_literal; reflexivity|vm_compute; discriminate]. Defined.

Definition ex_resigned : Commit := set_sig (MkSignature (replicate 64 2)) ex_signed.

Lemma ex_resigned_ok : commit_ok ex_resigned.
Proof. split; [apply ex_signed_ok..|split; [done|apply u8_literal; reflexivity]|done]. Qed.

Example unsigned_bytes_injective_witness : did ex_signed = did ex_resigned /\ version ex_signed = version ex_resigned /\
  rev ex_signed = rev ex_resigned /\ prev ex_signed = prev ex_resigned /\ data ex_signed = data ex_resigned.
Proof. apply unsigned_bytes_injective; [exact ex_signed_ok|exact ex_resigned_ok|reflexivity]. Defined.

Example create_signed_spec_witness : exists sc, create_signed ex_did 7 ex_data 5 = Ok sc /\
  verify (commit sc) (public_key 5) = Ok () /\ from_cbor (block sc) = Ok (commit sc).
Proof.
  pose proof (create_signed_spec (b# "did:web:example.com") ex_did 7 ex_data 5
    ltac:(apply u8_literal; reflexivity) ex_did_ok ltac:(unfold is_u64; lia)
    ltac:(split; [done|apply u8_literal; reflexivity])) as Hs.
  destruct (create_signed ex_did 7 ex_data 5) as [sc|e|] eqn:Hc.
  - exists sc. naive_solver.
  - exfalso. assert (Hok : is_ok (create_signed ex_did 7 ex_data 5) = true) by (vm_compute; reflexivity).
    by rewrite Hc in Hok.
  - done.
Defined.
