(* ===== verification/RepoProof.v ===== *)
(** Record proofs: [src/src/repo/proof.rs].

    A proof is an archive whose root is a signed commit. What is shown: a
    proof that verifies tells the truth about every repository that commits
    to its root, unless two blocks with one hash are known; no archive makes
    the verifiers panic. *)
From S2P Require Import Prelude StateError SyntaxError CborError Cid CborValue CborEncode CborEncoder CborDecode CborCodec Crypto.
From S2P Require Import MstHeight SortedMap MstNode MstTree MstShape MstLoad MstLoadSpec MstLoaded MstDetached MstStore MstProof MstHostile MstPath.
From S2P Require Did Nsid RecordKey SmallString Car CarSlice CarWriter RepoCommit.
Abbreviation Commit := RepoCommit.Commit.

(** ** Errors and results *)

Inductive ProofError :=
| ProofCar (e : Car.CarError)
| ProofRootCount (n : nat)
| ProofCidMismatch (c : Cid)
| ProofMissingBlock (c : Cid)
| InvalidCommit (e : RepoCommit.RepoError)
| DidMismatch (expected found : Did.Did)
| ProofSignature (e : RepoCommit.RepoError)
| ProofMst (e : MstError)
| NotDrisl (c : Cid)
| NotRecord (c : Cid)
| ProofInvalidPath (key : bytes)
| ProofNoCommit.

Record RecordProof := MkRecordProof { rp_commit : Commit; rp_commit_cid : Cid; rp_record : option (Cid * bytes) }.

Record RecordClaim := MkClaim { cl_collection : Nsid.Nsid; cl_rkey : RecordKey.RecordKey; cl_cid : option Cid }.

Record ProofVerdict := MkVerdict {
  pv_commit : Commit; pv_commit_cid : Cid; verified : list RecordClaim; unverified : list RecordClaim
}.

Record VerifiedRecord := MkVerified {
  vr_collection : Nsid.Nsid; vr_rkey : RecordKey.RecordKey; vr_cid : Cid; vr_record : bytes
}.

(** A [CidMap] of borrowed blocks. *)
Abbreviation Blocks := (gmap Cid bytes).

Record OpenProof := MkOpen { op_blocks : Blocks; op_commit_cid : Cid; op_commit : Commit }.

(** [mst_key] of [src/src/repo/repo.rs] *)
Definition mst_key {E} (collection : Nsid.Nsid) (rkey : RecordKey.RecordKey) : res E bytes :=
  col ← RepoCommit.unfailing (Nsid.as_str collection);
  rk ← RepoCommit.unfailing (RecordKey.as_str rkey);
  Ok (col ++ [ch_slash] ++ rk).

(** ** Reading proofs *)

Section Verify.
Context `{Sha2} `{Simdutf8} {V : Type} `{VerifyingKey V}.

Definition drisl_block (blocks : Blocks) (cid : Cid) : res ProofError bytes :=
  if negb (bool_decide (codec cid = Drisl)) then Err (NotDrisl cid)
  else ok_or (ProofMissingBlock cid) (blocks !! cid).

Definition record_block (blocks : Blocks) (cid : Cid) : res ProofError bytes :=
  data ← drisl_block blocks cid;
  match cbor_decode data with
  | Ok (Value.Map _) => Ok data
  | Panic => Panic
  | _ => Err (NotRecord cid)
  end.

(** [for block in reader { .. blocks.entry(cid).or_insert(data) }] *)
Fixpoint checked_blocks (fuel : nat) (reader : CarSlice.SliceReader) (blocks : Blocks) : res ProofError Blocks :=
  match fuel with
  | O => Panic
  | S fuel =>
      match CarSlice.next reader with
      | (None, _) => Ok blocks
      | (Some block, reader) =>
          block ← map_err ProofCar block;
          if negb (bool_decide (compute (codec (Car.cid block)) (Car.data block) = Car.cid block)) then
            Err (ProofCidMismatch (Car.cid block))
          else
            checked_blocks fuel reader
              (match blocks !! Car.cid block with Some _ => blocks | None => <[Car.cid block := Car.data block]> blocks end)
      end
  end.

Definition open_proof (car : bytes) (d : Did.Did) (key : V) : res ProofError OpenProof :=
  reader ← map_err ProofCar (CarSlice.new car);
  match CarSlice.roots reader with
  | [commit_cid] =>
      blocks ← checked_blocks (S (length (CarSlice.rest reader))) reader ∅;
      block ← drisl_block blocks commit_cid;
      commit ← map_err InvalidCommit (RepoCommit.from_cbor block);
      same ← RepoCommit.unfailing (SmallString.eq (RepoCommit.did commit) d);
      if negb same then Err (DidMismatch d (RepoCommit.did commit))
      else
        _ ← map_err ProofSignature (RepoCommit.verify commit key);
        Ok (MkOpen blocks commit_cid commit)
  | roots => Err (ProofRootCount (length roots))
  end.

Definition verify_record_proof (car : bytes) (d : Did.Did) (key : V) (collection : Nsid.Nsid) (rkey : RecordKey.RecordKey) :
    res ProofError RecordProof :=
  proof ← open_proof car d key;
  let tree := load_tree (RepoCommit.data (op_commit proof)) in
  k ← mst_key collection rkey;
  found ← map_err ProofMst (get (read_block (op_blocks proof)) k tree).1;
  record ← match found with
           | None => Ok None
           | Some cid => data ← record_block (op_blocks proof) cid; Ok (Some (cid, data))
           end;
  Ok (MkRecordProof (op_commit proof) (op_commit_cid proof) record).

(** The loop over the claims, with the tree it loads. *)
Fixpoint check_claims (blocks : Blocks) (claims : list RecordClaim) (tree : DetachedTree)
    (yes no : list RecordClaim) : res ProofError (list RecordClaim * list RecordClaim) :=
  match claims with
  | [] => Ok (yes, no)
  | claim :: claims =>
      k ← mst_key (cl_collection claim) (cl_rkey claim);
      let '(found, tree) := get (read_block blocks) k tree in
      found ← map_err ProofMst found;
      _ ← match found with Some cid => record_block blocks cid | None => Ok [] end;
      if bool_decide (found = cl_cid claim) then check_claims blocks claims tree (yes ++ [claim]) no
      else check_claims blocks claims tree yes (no ++ [claim])
  end.

Definition verify_proofs (car : bytes) (d : Did.Did) (key : V) (claims : list RecordClaim) : res ProofError ProofVerdict :=
  proof ← open_proof car d key;
  '(yes, no) ← check_claims (op_blocks proof) claims (load_tree (RepoCommit.data (op_commit proof))) [] [];
  Ok (MkVerdict (op_commit proof) (op_commit_cid proof) yes no).

(** [key.split_once('/').and_then(..)] *)
Definition record_path (key : bytes) : res ProofError (Nsid.Nsid * RecordKey.RecordKey) :=
  match position (fun b => b =? ch_slash) key with
  | None => Err (ProofInvalidPath key)
  | Some slash =>
      match Nsid.try_from (take slash key), RecordKey.try_from (drop (S slash) key) with
      | Ok collection, Ok rkey => Ok (collection, rkey)
      | Panic, _ => Panic
      | Ok _, Panic => Panic
      | _, _ => Err (ProofInvalidPath key)
      end
  end.

Fixpoint present_records (blocks : Blocks) (entries : list (bytes * Cid)) : res ProofError (list VerifiedRecord) :=
  match entries with
  | [] => Ok []
  | (key, cid) :: entries =>
      '(collection, rkey) ← record_path key;
      match record_block blocks cid with
      | Ok record => records ← present_records blocks entries; Ok (MkVerified collection rkey cid record :: records)
      | Err _ => present_records blocks entries
      | Panic => Panic
      end
  end.

Definition verify_records (car : bytes) (d : Did.Did) (key : V) : res ProofError (list VerifiedRecord) :=
  proof ← open_proof car d key;
  let '(r, (_, entries)) := walk_reachable (read_block (op_blocks proof)) push_entry
    (load_tree (RepoCommit.data (op_commit proof)), []) in
  _ ← map_err ProofMst r;
  present_records (op_blocks proof) entries.

(** ** Making proofs *)

(** The paths of the keys, with the values found. A source is a function
    here, so what the recorder saw is what a second read gives. *)
Fixpoint search_paths (src : Source) (tree : DetachedTree) (paths : list (Nsid.Nsid * RecordKey.RecordKey)) (found : list Cid) :
    st (list Cid) ProofError (list Cid) :=
  match paths with
  | [] => mret found
  | (collection, rkey) :: paths =>
      k ← lift (mst_key collection rkey);
      value ← (fun nodes => let '(r, nodes) := search_path src tree k nodes in (map_err ProofMst r, nodes));
      search_paths src tree paths (found ++ option_list value)
  end.

Definition in_writer {A} (m : st bytes Car.CarError A) : st bytes ProofError A := fun car =>
  let '(r, car) := m car in (map_err ProofCar r, car).

Definition read_for_proof (src : Source) (cid : Cid) : res ProofError bytes :=
  data ← map_err ProofMst (src cid);
  ok_or (ProofMissingBlock cid) data.

(** Each block once, in the order first needed. *)
Fixpoint write_needed (src : Source) (cids : list Cid) (seen : gset Cid) : st bytes ProofError () :=
  match cids with
  | [] => mret ()
  | cid :: cids =>
      if bool_decide (cid ∈ seen) then write_needed src cids seen
      else
        data ← lift (read_for_proof src cid);
        _ ← in_writer (@CarWriter.write_block_ref bytes vec_write (Car.MkBlock cid data));
        write_needed src cids ({[cid]} ∪ seen)
  end.

Definition proof_car (src : Source) (tree : DetachedTree) (commit_cid : Cid) (commit_bytes : bytes)
    (paths : list (Nsid.Nsid * RecordKey.RecordKey)) : res ProofError bytes :=
  let '(r, nodes) := search_paths src tree paths [] [] in
  found ← r;
  let '(r, car) :=
    (_ ← in_writer (@CarWriter.new bytes vec_write [commit_cid]);
     _ ← in_writer (@CarWriter.write_block_ref bytes vec_write (Car.MkBlock commit_cid commit_bytes));
     write_needed src (nodes ++ found) {[commit_cid]}) [] in
  _ ← r;
  Ok car.

Definition record_proofs_car (src : Source) (commit_cid : Cid) (paths : list (Nsid.Nsid * RecordKey.RecordKey)) : res ProofError bytes :=
  commit_bytes ← read_for_proof src commit_cid;
  commit ← map_err InvalidCommit (RepoCommit.from_cbor commit_bytes);
  proof_car src (load_tree (RepoCommit.data commit)) commit_cid commit_bytes paths.

Definition record_proof_car (src : Source) (commit_cid : Cid) (collection : Nsid.Nsid) (rkey : RecordKey.RecordKey) : res ProofError bytes :=
  record_proofs_car src commit_cid [(collection, rkey)].
End Verify.

(** ** What a proof that verifies shows *)

(** A source whose blocks hash to the CIDs they are asked for by. *)
Definition content_addressed `{Sha2} (src : Source) : Prop :=
  forall c d, src c = Ok (Some d) -> compute (codec c) d = c.

(** Two sources serve different blocks with one hash. *)
Definition collide `{Sha2} (src src' : Source) : Prop :=
  exists c d d', d <> d' /\ src c = Ok (Some d) /\ src' c = Ok (Some d') /\ compute (codec c) d = compute (codec c) d'.

(** Lookups in the blocks of two such sources agree, unless those collide. *)
Lemma block_finds_or_collide `{Sha2} `{Simdutf8} src1 src2 key c v1 v2 p1 p2 : content_addressed src1 -> content_addressed src2 ->
  block_finds src1 key c v1 p1 -> block_finds src2 key c v2 p2 -> v1 = v2 \/ collide src1 src2.
Proof.
  intros H1 H2 Hf. revert v2 p2.
  assert (Hat : forall c nd nd' keys keys', block_at src1 c nd keys -> block_at src2 c nd' keys' ->
    (nd = nd' /\ keys = keys') \/ collide src1 src2).
  { intros c0 nd nd' keys keys' (d & Hs & Hd & Hk) (d' & Hs' & Hd' & Hk'). destruct (decide (d = d')) as [<-|Hne].
    - left. split; congruence.
    - right. exists c0, d, d'. by rewrite (H1 _ _ Hs), (H2 _ _ Hs'). }
  induction Hf as [c nd keys i x Hb Hs Hx|c nd keys i Hb Hs Hn|c nd keys i c1 v p Hb Hs Hc _ IH];
    intros v' p' Hf'; inversion Hf' as [c' nd' keys' i' x' Hb' Hs' Hx'|c' nd' keys' i' Hb' Hs' Hn'|c' nd' keys' i' c2 v2 p2 Hb' Hs' Hc' Hf2]; subst;
    (destruct (Hat _ _ _ _ _ Hb Hb') as [[<- <-]|?]; [|by right]); rewrite Hs in Hs'; simplify_eq; try by left.
  by apply (IH _ _ Hf2).
Qed.

Section Sound.
Context `{Sha2} `{Simdutf8} {V : Type} `{VerifyingKey V}.

(** The blocks of an archive that was read hash to their CIDs. *)
Definition hashed (blocks : Blocks) : Prop := forall c d, blocks !! c = Some d -> compute (codec c) d = c.

Lemma checked_blocks_hashed fuel reader blocks blocks' : hashed blocks ->
  checked_blocks fuel reader blocks = Ok blocks' -> hashed blocks'.
Proof.
  revert reader blocks. induction fuel as [|fuel IH]; intros reader blocks Hb; [done|]. cbn [checked_blocks].
  destruct (CarSlice.next reader) as [[block|] reader']; [|by intros [= <-]].
  intros (b & _ & Hr)%res_bind_Ok. case_bool_decide as Hc; [|done]. cbn [negb] in Hr. eapply IH; [|exact Hr].
  destruct (blocks !! Car.cid b); [done|]. intros c d Hd. apply lookup_insert_Some in Hd as [[<- <-]|[_ Hd]]; [done|by apply Hb].
Qed.

Lemma read_block_addressed blocks : hashed blocks -> content_addressed (read_block blocks).
Proof. intros Hb c d [= Hd]. by apply Hb. Qed.

Lemma drisl_block_Ok blocks c d : drisl_block blocks c = Ok d <-> codec c = Drisl /\ blocks !! c = Some d.
Proof. unfold drisl_block. rewrite if_err_Ok, negb_false_iff, bool_decide_eq_true, ok_or_Ok. done. Qed.

(** A record's bytes, as [verify_record_proof] returns them. *)
Definition is_record (c : Cid) (data : bytes) : Prop :=
  codec c = Drisl /\ compute Drisl data = c /\ exists m, cbor_decode data = Ok (Value.Map m).

Lemma record_block_Ok blocks c data : hashed blocks -> record_block blocks c = Ok data -> is_record c data.
Proof.
  intros Hb (d & (Hk & Hd)%drisl_block_Ok & Hr)%res_bind_Ok. destruct (cbor_decode d) as [[]| |] eqn:Hdec; try done.
  assert (d = data) as -> by congruence. split; [done|]. rewrite <- Hk. split; [by apply Hb|by eexists].
Qed.

(** What [open_proof] has checked. *)
Record opened (d : Did.Did) (key : V) (proof : OpenProof) : Prop := {
  o_hashed : hashed (op_blocks proof);
  o_block : exists block, compute Drisl block = op_commit_cid proof /\ RepoCommit.from_cbor block = Ok (op_commit proof);
  o_did : exists s, Did.as_str (RepoCommit.did (op_commit proof)) = Ok s /\ Did.as_str d = Ok s;
  o_signed : RepoCommit.verify (op_commit proof) key = Ok ()
}.

Lemma open_proof_Ok car d key proof : open_proof car d key = Ok proof -> opened d key proof.
Proof.
  intros (reader & _ & Hr)%res_bind_Ok. destruct (CarSlice.roots reader) as [|c [|]]; [done| |done].
  apply res_bind_Ok in Hr as (blocks & Hb & Hr). apply checked_blocks_hashed in Hb; [|by intros ? ? ?%lookup_empty_Some].
  apply res_bind_Ok in Hr as (block & (Hk & Hblock)%drisl_block_Ok & Hr).
  apply res_bind_Ok in Hr as (commit & Hc%map_err_Ok & Hr). apply res_bind_Ok in Hr as (same & Hs & Hr).
  destruct same; [|done]. cbn [negb] in Hr. apply res_bind_Ok in Hr as ([] & Hv%map_err_Ok & [= <-]).
  split; [done| | |done].
  - exists block. cbn. split; [|done]. rewrite <- Hk. by apply Hb.
  - unfold RepoCommit.unfailing in Hs. destruct (SmallString.eq _ _) as [same| |] eqn:He; [|done..].
    apply Ok_inj in Hs. subst same. unfold SmallString.eq in He. cbn [op_commit].
    apply res_bind_Ok in He as (x & Hx & (y & Hy & Hxy%Ok_inj)%res_bind_Ok). apply bool_decide_eq_true in Hxy as <-. by exists x.
Qed.

(** The answer for a key, in the blocks of the proof, is that of any
    repository with the same root. *)
Definition binds (blocks : Blocks) (root : Cid) (key : bytes) (v : option Cid) : Prop :=
  forall src, (forall c, no_panic (src c)) -> content_addressed src ->
  match (get src key (load_tree root)).1 with Ok v' => v' = v \/ collide src (read_block blocks) | _ => True end.

Lemma block_finds_binds blocks root key v p : hashed blocks -> block_finds (read_block blocks) key root v p -> binds blocks root key v.
Proof.
  intros Hb Hf src Hnp Hs. pose proof (get_backed src (load_tree root) root key Hnp (load_tree_backed src root)) as Hg.
  destruct (get src key (load_tree root)) as [[v'|e|] t']; [|done..]. destruct Hg as (_ & p' & Hf'). cbn.
  exact (block_finds_or_collide src (read_block blocks) key root v' v p' p Hs (read_block_addressed blocks Hb) Hf' Hf).
Qed.

Lemma read_block_no_panic (blocks : Blocks) c : no_panic (read_block blocks c).
Proof. done. Qed.

Lemma mst_key_any {E F} collection rkey k : mst_key (E:=E) collection rkey = Ok k -> mst_key (E:=F) collection rkey = Ok k.
Proof.
  unfold mst_key, RepoCommit.unfailing.
  destruct (Nsid.as_str collection), (RecordKey.as_str rkey); cbn; (done || by intros <-%Ok_inj).
Qed.

(** C34. A record proof that verifies: its commit is the DID's, signed by the
    key and named by the proof's root; the record hashes to the CID it is
    found under and is a CBOR map; and every lookup of the key in any
    content-addressed repository with this commit's tree gives the same
    answer, unless it holds a block that collides with one of the proof. *)
Theorem verify_record_proof_sound car d key collection rkey p :
  verify_record_proof car d key collection rkey = Ok p ->
  exists proof k, open_proof car d key = Ok proof /\ opened d key proof /\ mst_key (E:=ProofError) collection rkey = Ok k /\
    rp_commit p = op_commit proof /\ rp_commit_cid p = op_commit_cid proof /\
    match rp_record p with Some (c, data) => is_record c data | None => True end /\
    binds (op_blocks proof) (RepoCommit.data (rp_commit p)) k (fst <$> rp_record p).
Proof.
  intros (proof & Ho & Hr)%res_bind_Ok. pose proof (open_proof_Ok _ _ _ _ Ho) as Hop. cbv zeta in Hr.
  apply res_bind_Ok in Hr as (k & Hk & Hr). apply res_bind_Ok in Hr as (found & Hf%map_err_Ok & Hr).
  apply res_bind_Ok in Hr as (record & Hrec & [= <-]). exists proof, k. cbn [rp_commit rp_commit_cid rp_record].
  set (root := RepoCommit.data (op_commit proof)) in *.
  pose proof (get_backed (read_block (op_blocks proof)) (load_tree root) root k (read_block_no_panic _) (load_tree_backed _ root)) as Hg.
  destruct (get _ k (load_tree root)) as [r t']. cbn in Hf. subst r. destruct Hg as (_ & path & Hg).
  assert (Hbinds : binds (op_blocks proof) root k found) by (eapply block_finds_binds; [apply Hop|exact Hg]).
  split_and!; try done.
  - destruct found as [c|]; [|by apply Ok_inj in Hrec as <-]. apply res_bind_Ok in Hrec as (data & Hd & [= <-]).
    eapply record_block_Ok; [apply Hop|exact Hd].
  - replace (fst <$> record) with found; [done|]. destruct found as [c|]; [|by apply Ok_inj in Hrec as <-].
    by apply res_bind_Ok in Hrec as (data & _ & [= <-]).
Qed.

(** The claims that the answers bear out, and those they do not. *)
Definition agreeing (claims : list RecordClaim) (answers : list (option Cid)) : list RecordClaim :=
  (filter (fun x => x.2 = cl_cid x.1) (zip claims answers)).*1.
Definition differing (claims : list RecordClaim) (answers : list (option Cid)) : list RecordClaim :=
  (filter (fun x => x.2 <> cl_cid x.1) (zip claims answers)).*1.

Definition answers_claim (blocks : Blocks) (root : Cid) (claim : RecordClaim) (a : option Cid) : Prop :=
  exists k, mst_key (E:=ProofError) (cl_collection claim) (cl_rkey claim) = Ok k /\ binds blocks root k a.

Lemma check_claims_spec blocks root claims tree yes no yes' no' : hashed blocks -> tree_backed (read_block blocks) tree root ->
  check_claims blocks claims tree yes no = Ok (yes', no') ->
  exists answers, Forall2 (answers_claim blocks root) claims answers /\
    yes' = yes ++ agreeing claims answers /\ no' = no ++ differing claims answers.
Proof.
  intros Hb. revert tree yes no. induction claims as [|claim claims IH]; intros tree yes no Ht; cbn [check_claims].
  { intros [= <- <-]. exists []. split; [constructor|]. unfold agreeing, differing. cbn. by rewrite !app_nil_r. }
  intros (k & Hk & Hr)%res_bind_Ok. pose proof (get_backed (read_block blocks) tree root k (read_block_no_panic _) Ht) as Hg.
  destruct (get (read_block blocks) k tree) as [found tree']. destruct Hg as [Ht' Hg].
  apply res_bind_Ok in Hr as (v & Hv%map_err_Ok & Hr). subst found. destruct Hg as [path Hf].
  apply res_bind_Ok in Hr as (_ & _ & Hr). pose proof (block_finds_binds blocks root k v path Hb Hf) as Hbinds.
  unfold agreeing, differing. case_bool_decide as Hc; apply (IH tree' _ _ Ht') in Hr as (answers & Ha & -> & ->); exists (v :: answers);
    (split; [constructor; [by exists k|done]|]); cbn [zip zip_with]; rewrite !filter_cons; cbn [fst snd].
  - rewrite decide_True, decide_False by auto. cbn. by rewrite <- app_assoc.
  - rewrite decide_False, decide_True by auto. cbn. by rewrite <- app_assoc.
Qed.

(** [verify_proofs] sorts the claims by the answers of the proof, in
    order, and each answer is that of every content-addressed repository with
    this commit's tree, up to collisions. *)
Theorem verify_proofs_sound car d key claims v : verify_proofs car d key claims = Ok v ->
  exists proof answers, open_proof car d key = Ok proof /\ opened d key proof /\ pv_commit v = op_commit proof /\
    Forall2 (answers_claim (op_blocks proof) (RepoCommit.data (pv_commit v))) claims answers /\
    verified v = agreeing claims answers /\ unverified v = differing claims answers.
Proof.
  intros (proof & Ho & Hr)%res_bind_Ok. pose proof (open_proof_Ok _ _ _ _ Ho) as Hop.
  apply res_bind_Ok in Hr as ([yes no] & Hc & [= <-]).
  apply check_claims_spec with (root := RepoCommit.data (op_commit proof)) in Hc as (answers & Ha & -> & ->); [|apply Hop|apply load_tree_backed].
  by exists proof, answers.
Qed.

Lemma record_path_key key collection rkey : record_path key = Ok (collection, rkey) ->
  exists slash, position (fun b => b =? ch_slash) key = Some slash /\
    Nsid.try_from (take slash key) = Ok collection /\ RecordKey.try_from (drop (S slash) key) = Ok rkey.
Proof.
  unfold record_path. destruct (position _ key) as [slash|]; [|done]. intros Hr. exists slash. split; [done|].
  destruct (Nsid.try_from _) as [c| |], (RecordKey.try_from _) as [r| |]; try done. by injection Hr as <- <-.
Qed.

Lemma present_records_spec blocks entries records : hashed blocks -> present_records blocks entries = Ok records ->
  Forall (fun r => exists key, (key, vr_cid r) ∈ entries /\ record_path key = Ok (vr_collection r, vr_rkey r) /\
    is_record (vr_cid r) (vr_record r)) records.
Proof.
  intros Hb. revert records. induction entries as [|[key c] entries IH]; intros records; cbn [present_records]; [by intros [= <-]|].
  intros ([collection rkey] & Hp & Hr)%res_bind_Ok.
  assert (Hmono : forall rs, Forall (fun r => exists key, (key, vr_cid r) ∈ entries /\ record_path key = Ok (vr_collection r, vr_rkey r) /\
      is_record (vr_cid r) (vr_record r)) rs ->
    Forall (fun r => exists key', (key', vr_cid r) ∈ (key, c) :: entries /\ record_path key' = Ok (vr_collection r, vr_rkey r) /\
      is_record (vr_cid r) (vr_record r)) rs).
  { intros rs Hrs. eapply Forall_impl; [exact Hrs|]. intros r (k & Hin & Hk). exists k. split; [by right|done]. }
  destruct (record_block blocks c) as [data| |] eqn:Hd; [|by apply Hmono, IH|done].
  apply res_bind_Ok in Hr as (rs & Hrs & [= <-]). constructor; [|by apply Hmono, IH].
  exists key. cbn. split; [by left|]. split; [done|]. by eapply record_block_Ok.
Qed.

Lemma sane_stub `{Sha2Laws} r : sane ROOT (stub r 0).
Proof. split; [apply SortedMap.ordered_nil|apply Forall_nil_2]. Qed.

(** Each record [verify_records] lists hashes to its CID, and that CID is
    what every content-addressed repository with this commit's tree has under
    the record's key, up to collisions. *)
Theorem verify_records_sound `{!Sha2Laws} car d key records : verify_records car d key = Ok records ->
  exists proof, open_proof car d key = Ok proof /\ opened d key proof /\
    Forall (fun r => is_record (vr_cid r) (vr_record r) /\
      exists k, record_path k = Ok (vr_collection r, vr_rkey r) /\
        binds (op_blocks proof) (RepoCommit.data (op_commit proof)) k (Some (vr_cid r))) records.
Proof.
  intros (proof & Ho & Hr)%res_bind_Ok. pose proof (open_proof_Ok _ _ _ _ Ho) as Hop. exists proof. split_and!; [done..|].
  set (root := RepoCommit.data (op_commit proof)) in *. set (blocks := op_blocks proof) in *.
  pose proof (walk_reachable_finds (read_block blocks) (load_tree root) (stub root 0) (read_block_no_panic _) eq_refl eq_refl (sane_stub root)) as Hw.
  destruct (walk_reachable (read_block blocks) push_entry (load_tree root, [])) as [r [t' entries]]. destruct Hw as (n' & _ & Hl & Hq).
  apply res_bind_Ok in Hr as ([] & Hr%map_err_Ok & Hp). subst r. destruct Hq as [_ Hq].
  destruct (loads_backed _ _ _ _ Hl (backed_stub _ (stub root 0) eq_refl ltac:(done))) as [Hb' Hc'].
  apply present_records_spec in Hp; [|apply Hop]. eapply Forall_impl; [exact Hp|]. intros rec (k & Hin & Hk & Hrec).
  split; [done|]. exists k. split; [done|]. apply (proj1 (Forall_forall _ _) Hq) in Hin as [_ Hf].
  destruct (finds_backed _ _ _ _ root Hf Hb' Hc') as [p Hp']. eapply block_finds_binds; [apply Hop|exact Hp'].
Qed.
End Sound.

(** ** No archive makes the verifiers panic *)

Section Safe.
Context `{Sha2Laws} `{Simdutf8Laws} {V : Type} `{VerifyingKey V}.

Lemma checked_blocks_no_panic fuel reader blocks : no_panic (CarSlice.collect_blocks fuel reader) ->
  no_panic (checked_blocks fuel reader blocks).
Proof.
  revert reader blocks. induction fuel as [|fuel IH]; intros reader blocks; cbn [CarSlice.collect_blocks checked_blocks]; [done|].
  destruct (CarSlice.next reader) as [[[b|e|]|] reader']; cbn [mbind res_bind map_err]; [|done..].
  intros Hc. case_bool_decide; [|done]. apply IH. intros Hp. by rewrite Hp in Hc.
Qed.

Lemma unfailing_no_panic {E A} (m : res () A) a : m = Ok a -> no_panic (RepoCommit.unfailing (E:=E) m).
Proof. by intros ->. Qed.

Variable key : V.
Hypothesis verify_no_panic : forall content s, no_panic (verify_sig key content s).

Lemma commit_verify_no_panic c raw : Did.try_from raw = Ok (RepoCommit.did c) -> no_panic (RepoCommit.verify c key).
Proof.
  intros Hd. unfold RepoCommit.verify. apply no_panic_bind; [apply no_panic_ok_or|]. intros s _.
  rewrite (RepoCommit.unsigned_bytes_eq c raw Hd). cbn [mbind res_bind]. by apply no_panic_map_err.
Qed.

Lemma open_proof_no_panic car raw d : Forall is_u8 car -> Did.try_from raw = Ok d -> no_panic (open_proof car d key).
Proof.
  intros Hu Hd. pose proof (CarSlice.read_slice_no_panic car Hu) as Hrs. unfold CarSlice.read_slice in Hrs.
  apply no_panic_bind; [apply no_panic_map_err, CarSlice.new_no_panic; done|]. intros reader Hr%map_err_Ok.
  rewrite Hr in Hrs. cbn [mbind res_bind] in Hrs. destruct (CarSlice.roots reader) as [|c [|]]; [done| |done].
  apply no_panic_bind; [apply checked_blocks_no_panic; intros Hp; by rewrite Hp in Hrs|]. intros blocks _.
  apply no_panic_bind.
  { unfold drisl_block. apply no_panic_if; intros _. apply no_panic_ok_or. }
  intros block _. apply no_panic_bind; [apply no_panic_map_err, RepoCommit.from_cbor_no_panic|]. intros commit [raw' Hc]%map_err_Ok%RepoCommit.from_cbor_did.
  destruct (RepoCommit.did_try_from_text _ _ Hd) as (Has & _). destruct (RepoCommit.did_try_from_text _ _ Hc) as (Hac & _).
  apply no_panic_bind.
  { eapply unfailing_no_panic. unfold SmallString.eq. unfold Did.as_str in *. by rewrite Has, Hac. }
  intros same _. apply no_panic_if; intros _. apply no_panic_bind; [|done].
  by apply no_panic_map_err, (commit_verify_no_panic commit raw').
Qed.

Lemma record_block_no_panic blocks c : no_panic (record_block blocks c).
Proof.
  apply no_panic_bind; [unfold drisl_block; apply no_panic_if; intros _; apply no_panic_ok_or|].
  intros data _. pose proof (cbor_decode_no_panic data) as Hd. destruct (cbor_decode data) as [[]| |]; done.
Qed.

(** A collection and a record key that parsed. *)
Definition parsed_path (collection : Nsid.Nsid) (rkey : RecordKey.RecordKey) : Prop :=
  (exists c, Nsid.try_from c = Ok collection) /\ exists r, RecordKey.try_from r = Ok rkey.

Lemma mst_key_parsed {E} collection rkey : parsed_path collection rkey -> exists k, mst_key (E:=E) collection rkey = Ok k.
Proof.
  intros [[c Hc] [r Hr]]. destruct (Nsid.nsid_text c collection Hc) as (d & _ & Hs).
  unfold mst_key. rewrite Hs. destruct (RecordKey.record_key_spec r) as (_ & _ & Hk). rewrite (Hk _ Hr). by eexists.
Qed.

Lemma check_claims_no_panic blocks root claims tree yes no : tree_backed (read_block blocks) tree root ->
  Forall (fun c => parsed_path (cl_collection c) (cl_rkey c)) claims -> no_panic (check_claims blocks claims tree yes no).
Proof.
  intros Ht Hc. revert tree yes no Ht. induction Hc as [|claim claims Hp _ IH]; intros tree yes no Ht; [done|]. cbn [check_claims].
  destruct (mst_key_parsed (E:=ProofError) _ _ Hp) as [k ->]. cbn [mbind res_bind].
  pose proof (get_backed (read_block blocks) tree root k (read_block_no_panic _) Ht) as Hg.
  destruct (get (read_block blocks) k tree) as [found tree']. destruct Hg as [Ht' Hg].
  apply no_panic_bind; [by apply no_panic_map_err; destruct found|]. intros v _. apply no_panic_bind; [by destruct v; [apply record_block_no_panic|]|].
  intros _ _. case_bool_decide; by apply IH.
Qed.

Lemma present_records_no_panic blocks entries : no_panic (present_records blocks entries).
Proof.
  induction entries as [|[k c] entries IH]; [done|]. cbn [present_records]. apply no_panic_bind.
  - unfold record_path. destruct (position _ k) as [slash|]; [|done]. pose proof (Nsid.nsid_try_from_no_panic (take slash k)) as Hn.
    assert (Hr : no_panic (RecordKey.try_from (drop (S slash) k)))
      by (apply no_panic_bind; [apply RecordKey.record_key_validate_no_panic|done]).
    destruct (Nsid.try_from _), (RecordKey.try_from _); done.
  - intros [collection rkey] _. pose proof (record_block_no_panic blocks c) as Hb. destruct (record_block blocks c); [|done..].
    by apply no_panic_bind.
Qed.

(** Whatever bytes are given as a proof, the three verifiers return: none
    of them panics. *)
Theorem verifiers_no_panic car raw d : Forall is_u8 car -> Did.try_from raw = Ok d ->
  (forall collection rkey, parsed_path collection rkey -> no_panic (verify_record_proof car d key collection rkey)) /\
  (forall claims, Forall (fun c => parsed_path (cl_collection c) (cl_rkey c)) claims -> no_panic (verify_proofs car d key claims)) /\
  no_panic (verify_records car d key).
Proof.
  intros Hu Hd. pose proof (open_proof_no_panic car raw d Hu Hd) as Ho. split_and!.
  - intros collection rkey Hp. apply no_panic_bind; [done|]. intros proof _. cbv zeta.
    destruct (mst_key_parsed (E:=ProofError) _ _ Hp) as [k ->]. cbn [mbind res_bind]. apply no_panic_bind.
    + apply no_panic_map_err. pose proof (get_backed (read_block (op_blocks proof)) _ _ k (read_block_no_panic _) (load_tree_backed _ (RepoCommit.data (op_commit proof)))) as Hg.
      destruct (get _ _ _) as [r t']. by destruct r; destruct Hg.
    + intros found _. apply no_panic_bind; [|done]. destruct found as [c|]; [|done]. apply no_panic_bind; [apply record_block_no_panic|done].
  - intros claims Hc. apply no_panic_bind; [done|]. intros proof _. apply no_panic_bind; [|by intros []].
    by eapply check_claims_no_panic; [apply load_tree_backed|].
  - apply no_panic_bind; [done|]. intros proof _. set (root := RepoCommit.data (op_commit proof)).
    pose proof (walk_reachable_finds (read_block (op_blocks proof)) (load_tree root) (stub root 0) (read_block_no_panic _) eq_refl eq_refl (sane_stub root)) as Hw.
    destruct (walk_reachable (read_block (op_blocks proof)) push_entry (load_tree root, [])) as [r [t' entries]]. destruct Hw as (n' & _ & _ & Hq).
    apply no_panic_bind; [by apply no_panic_map_err; destruct r|]. intros [] _. apply present_records_no_panic.
Qed.
End Safe.

(** ** Paths *)

(** The collection [verify_records] reports is the one of the key with
    its authority in lower case: the path stands for the key itself exactly
    if the key's authority had no capital letter. *)
Theorem record_path_spec key collection rkey : record_path key = Ok (collection, rkey) ->
  exists c r d, key = c ++ ch_slash :: r /\ Nsid.validate c = Ok d /\
    mst_key (E:=ProofError) collection rkey = Ok (SmallString.lower_prefix d c ++ ch_slash :: r) /\
    (mst_key (E:=ProofError) collection rkey = Ok key <-> make_ascii_lowercase (take d c) = take d c).
Proof.
  intros (slash & (x & ->%Z.eqb_eq & Hcut & _)%position_cut & Hc & Hr)%record_path_key.
  set (c := take slash key) in *. set (r := drop (S slash) key) in *.
  destruct (Nsid.nsid_text c collection Hc) as (d & Hv & Ht). destruct (RecordKey.record_key_spec r) as (_ & _ & Hk).
  exists c, r, d. assert (Hm : mst_key (E:=ProofError) collection rkey = Ok (SmallString.lower_prefix d c ++ ch_slash :: r)).
  { unfold mst_key. rewrite Ht, (Hk _ Hr). done. }
  split_and!; [done..|]. rewrite Hm, Hcut. unfold SmallString.lower_prefix. split.
  - intros [= He%app_inv_tail]. rewrite <- (take_drop d c) in He at 3. by apply app_inj_1 in He as [? _]; [|rewrite make_ascii_lowercase_length].
  - intros ->. by rewrite take_drop.
Qed.

(** ** Examples *)

#[local] Existing Instances simd_ref simd_ref_laws sha2_toy sha2_toy_laws toy_verifying toy_signing toy_laws.

(** A repository of one record, and proofs read from its blocks. *)
Definition ex_record : bytes := [0xa0].
Definition ex_record_cid : Cid := compute Drisl ex_record.
Definition ex_entries : kvs := [(b# "app.bsky.feed.post/3k", ex_record_cid)].
Definition ex_node : bytes := match encode_node_data (list_node (tree_height ex_entries) ex_entries) with Ok data => data | _ => [] end.
Definition ex_tree : Cid := compute Drisl ex_node.
Definition ex_commit : bytes := match RepoCommit.create_signed RepoCommit.ex_did 7 ex_tree 5 with Ok sc => RepoCommit.block sc | _ => [] end.
Definition ex_commit_cid : Cid := compute Drisl ex_commit.
Definition ex_repo : Source := fun c =>
  Ok (if decide (c = ex_commit_cid) then Some ex_commit else if decide (c = ex_tree) then Some ex_node
      else if decide (c = ex_record_cid) then Some ex_record else None).
Definition ex_collection : Nsid.Nsid := match Nsid.try_from (b# "app.bsky.feed.post") with Ok n => n | _ => SmallString.default end.
Definition ex_rkey (s : bytes) : RecordKey.RecordKey := match RecordKey.try_from s with Ok r => r | _ => SmallString.default end.
Definition ex_paths := [(ex_collection, ex_rkey (b# "3k")); (ex_collection, ex_rkey (b# "4k"))].
Definition ex_car : bytes := Eval vm_compute in match record_proofs_car ex_repo ex_commit_cid ex_paths with Ok car => car | _ => [] end.

Lemma ex_car_proves : rp_record <$> verify_record_proof ex_car RepoCommit.ex_did 5 ex_collection (ex_rkey (b# "3k")) = Ok (Some (ex_record_cid, ex_record)).
Proof. vm_compute. reflexivity. Qed.

Example verify_record_proof_sound_witness : exists proof k, open_proof ex_car RepoCommit.ex_did 5 = Ok proof /\
  mst_key (E:=ProofError) ex_collection (ex_rkey (b# "3k")) = Ok k /\ is_record ex_record_cid ex_record /\
  binds (op_blocks proof) (RepoCommit.data (op_commit proof)) k (Some ex_record_cid).
Proof.
  pose proof ex_car_proves as He. destruct (verify_record_proof _ _ _ _ _) as [p| |] eqn:Hp; [|done..].
  apply verify_record_proof_sound in Hp as (proof & k & Ho & _ & Hk & Hc & _ & Hr & Hb). apply Ok_inj in He. rewrite He in Hr, Hb.
  rewrite Hc in Hb. exists proof, k. exact (conj Ho (conj Hk (conj Hr Hb))).
Defined.

Definition ex_claims : list RecordClaim :=
  [MkClaim ex_collection (ex_rkey (b# "3k")) None; MkClaim ex_collection (ex_rkey (b# "4k")) None].

Lemma ex_claims_checked : verified <$> verify_proofs ex_car RepoCommit.ex_did 5 ex_claims = Ok (drop 1 ex_claims).
Proof. vm_compute. reflexivity. Qed.

Example verify_proofs_sound_witness : exists proof answers, open_proof ex_car RepoCommit.ex_did 5 = Ok proof /\
  Forall2 (answers_claim (op_blocks proof) (RepoCommit.data (op_commit proof))) ex_claims answers /\
  agreeing ex_claims answers = drop 1 ex_claims.
Proof.
  pose proof ex_claims_checked as He. destruct (verify_proofs _ _ _ _) as [v| |] eqn:Hv; [|done..]. apply Ok_inj in He.
  apply verify_proofs_sound in Hv as (proof & answers & Ho & _ & Hc & Ha & Hy & _). exists proof, answers.
  rewrite Hc in Ha. rewrite Hy in He. exact (conj Ho (conj Ha He)).
Defined.

Lemma ex_records_found : (fun rs => map vr_cid rs) <$> verify_records ex_car RepoCommit.ex_did 5 = Ok [ex_record_cid].
Proof. vm_compute. reflexivity. Qed.

Example verify_records_sound_witness : exists proof records, open_proof ex_car RepoCommit.ex_did 5 = Ok proof /\
  map vr_cid records = [ex_record_cid] /\ Forall (fun r => is_record (vr_cid r) (vr_record r)) records.
Proof.
  pose proof ex_records_found as He. destruct (verify_records _ _ _) as [rs| |] eqn:Hr; [|done..]. apply Ok_inj in He.
  apply verify_records_sound in Hr as (proof & Ho & _ & Hr). exists proof, rs. split; [exact Ho|]. split; [exact He|].
  eapply Forall_impl; [exact Hr|]. intros r [Hi _]. exact Hi.
Defined.

Example verifiers_no_panic_witness : no_panic (verify_records ex_car RepoCommit.ex_did 5).
Proof.
  refine (proj2 (proj2 (verifiers_no_panic 5 _ ex_car _ RepoCommit.ex_did _ RepoCommit.ex_did_ok)));
    [|apply u8_literal; vm_compute; reflexivity].
  intros content sg. unfold verify_sig, toy_verifying. by case_decide.
Defined.

(** A key whose authority has a capital letter is listed under another path,
    which the tree does not have. *)
Example record_path_spec_witness : exists p, record_path (b# "App.bsky.feed.post/3k") = Ok p /\
  mst_key (E:=ProofError) p.1 p.2 = Ok (b# "app.bsky.feed.post/3k").
Proof.
  destruct (record_path (b# "App.bsky.feed.post/3k")) as [[c r]| |] eqn:Hp; [|exfalso; revert Hp; vm_compute; done..].
  exists (c, r). split; [done|]. pose proof (record_path_spec _ _ _ Hp) as (c' & r' & d & _ & _ & _ & _).
  injection Hp as <- <-. vm_compute. reflexivity.
Defined.
