(* ===== verification/RepoStore.v ===== *)
(** The storage of a repository: [src/src/repo/store.rs].

    A store reads blocks, names the current commit and applies commits. It is
    a class here, with the laws the trait's comments ask of an implementation,
    and [MemRepoStore] is an instance of both. *)
From S2P Require Import Prelude StateError SyntaxError Cid MstDetached.
From S2P Require Did Nsid RecordKey Car CarWriter RepoCommit RepoProof.
Abbreviation Commit := RepoCommit.Commit.
Abbreviation Nsid := Nsid.Nsid.
Abbreviation RecordKey := RecordKey.RecordKey.

(** ** What a commit changed *)

Inductive RecordAction := Create | Update | Delete.

#[export] Instance RecordAction_eq_dec : EqDecision RecordAction.
Proof. solve_decision. Defined.

(** [RecordAction::as_str] *)
Definition action_text (a : RecordAction) : bytes :=
  match a with Create => b# "create" | Update => b# "update" | Delete => b# "delete" end.

Record RecordOp := MkRecordOp {
  op_action : RecordAction;
  op_collection : Nsid;
  op_rkey : RecordKey;
  op_cid : option Cid;
  op_prev : option Cid
}.

(** [RecordOp::path] *)
Definition op_path {E} (op : RecordOp) : res E bytes := RepoProof.mst_key (op_collection op) (op_rkey op).

Record CommitData := MkCommitData {
  cd_cid : Cid;
  cd_commit : Commit;
  cd_since : option Z;
  cd_prev : option Cid;
  cd_prev_data : option Cid;
  cd_new_blocks : gmap Cid bytes;
  cd_relevant_blocks : gmap Cid bytes;
  cd_removed_cids : list Cid;
  cd_ops : list RecordOp
}.

(** [CommitData::rev] *)
Definition cd_rev (d : CommitData) : Z := RepoCommit.rev (cd_commit d).

(** A [BTreeMap] of blocks, in the order of its keys. *)
Definition block_le (a b : Cid * bytes) : Prop := cid_le a.1 b.1.

#[export] Instance block_le_dec a b : Decision (block_le a b).
Proof. unfold block_le. apply _. Defined.

Definition in_order (blocks : gmap Cid bytes) : list (Cid * bytes) := merge_sort block_le (map_to_list blocks).

(** [CommitData::relevant_car] *)
Definition relevant_car (d : CommitData) : res Car.CarError bytes :=
  CarWriter.write_all [cd_cid d] (map (fun b => Car.MkBlock b.1 b.2) (in_order (cd_relevant_blocks d))).

(** ** Writes *)

Inductive WriteOp :=
| WriteCreate (collection : Nsid) (rkey : RecordKey) (record : bytes)
| WriteUpdate (collection : Nsid) (rkey : RecordKey) (record : bytes)
| WriteDelete (collection : Nsid) (rkey : RecordKey).

(** [WriteOp::path] *)
Definition write_path (w : WriteOp) : Nsid * RecordKey :=
  match w with
  | WriteCreate collection rkey _ | WriteUpdate collection rkey _ | WriteDelete collection rkey => (collection, rkey)
  end.

(** ** Stores *)

(** The trait [RepoStore]. A store's own error is boxed by its callers: it is
    the message they keep. *)
Class RepoStore (S : Type) := {
  get_block : S -> Cid -> res ErrMsg (option bytes);
  borrow_block : S -> Cid -> res ErrMsg (option bytes);
  store_head : S -> res ErrMsg (option Cid);
  apply_commit : CommitData -> st S ErrMsg ()
}.

(** [borrow_block]'s default *)
Definition default_borrow_block {S} (get : S -> Cid -> res ErrMsg (option bytes)) (s : S) (cid : Cid) : res ErrMsg (option bytes) :=
  get s cid.

Record MemRepoStore := MkMemStore { mem_blocks : gmap Cid bytes; mem_head : option Cid }.

Definition mem_repo_new : MemRepoStore := MkMemStore ∅ None.
Definition mem_len (s : MemRepoStore) : nat := size (mem_blocks s).
Definition mem_is_empty (s : MemRepoStore) : bool := (size (mem_blocks s) =? 0)%nat.

Definition mem_apply_commit (d : CommitData) : st MemRepoStore ErrMsg () := fun s =>
  (Ok (), MkMemStore (cd_new_blocks d ∪ foldl (fun blocks c => delete c blocks) (mem_blocks s) (cd_removed_cids d)) (Some (cd_cid d))).

#[export] Instance mem_repo_store : RepoStore MemRepoStore := {|
  get_block s cid := Ok (mem_blocks s !! cid);
  borrow_block s cid := Ok (mem_blocks s !! cid);
  store_head s := Ok (mem_head s);
  apply_commit := mem_apply_commit
|}.

(** ** What stores promise *)

(** A store holds blocks and perhaps the CID of a commit. What it answers is
    what it holds; it may fail to answer. A commit that is applied leaves the
    blocks that it does not remove and adds the new ones; a block that is both
    removed and new may be there or not, as the comments give two orders. A
    commit that is not applied leaves the head, removes nothing and adds
    nothing else. *)
Class RepoStoreLaws (S : Type) `{RepoStore S} := {
  store_blocks : S -> gmap Cid bytes;
  store_at : S -> option Cid;
  get_block_law s cid : match get_block s cid with Ok v => v = store_blocks s !! cid | Err _ => True | Panic => False end;
  borrow_block_law s cid : match borrow_block s cid with Ok v => v = store_blocks s !! cid | Err _ => True | Panic => False end;
  store_head_law s : match store_head s with Ok v => v = store_at s | Err _ => True | Panic => False end;
  apply_commit_law d s : let '(r, s') := apply_commit d s in
    match r with
    | Ok _ => store_at s' = Some (cd_cid d) /\
        (forall c, c ∉ cd_removed_cids d -> store_blocks s' !! c = (cd_new_blocks d ∪ store_blocks s) !! c) /\
        (forall c, c ∈ cd_removed_cids d -> store_blocks s' !! c = None \/ store_blocks s' !! c = (cd_new_blocks d ∪ store_blocks s) !! c)
    | Err _ => store_at s' = store_at s /\ forall c, store_blocks s' !! c = store_blocks s !! c \/
        (store_blocks s !! c = None /\ store_blocks s' !! c = cd_new_blocks d !! c)
    | Panic => False
    end
}.

Lemma foldl_delete_lookup (blocks : gmap Cid bytes) cs c :
  foldl (fun blocks c => delete c blocks) blocks cs !! c = if decide (c ∈ cs) then None else blocks !! c.
Proof.
  revert blocks. induction cs as [|d cs IH]; intros blocks; cbn [foldl]; [by rewrite decide_False by set_solver|].
  rewrite IH. destruct (decide (c = d)) as [->|Hne].
  - rewrite lookup_delete_eq. by rewrite (decide_True (P := d ∈ d :: cs)) by set_solver; case_decide.
  - rewrite lookup_delete_ne by done. repeat case_decide; set_solver.
Qed.

#[export] Program Instance mem_repo_store_laws : RepoStoreLaws MemRepoStore := {|
  store_blocks := mem_blocks;
  store_at := mem_head
|}.
Solve Obligations with done.
Next Obligation.
  intros d s. cbn. split; [done|]. split; intros c Hc; rewrite !lookup_union, foldl_delete_lookup.
  - by rewrite decide_False.
  - rewrite decide_True by done. destruct (cd_new_blocks d !! c) as [b|]; [right|left]; [|done].
    by destruct (mem_blocks s !! c).
Qed.
