(* ===== verification/Repo.v ===== *)
(** A repository: [src/src/repo/repo.rs].

    Writes are staged in the tree in memory until [commit] signs its root and
    hands the store everything that changed. Methods that take [&mut self] run
    in the state of the repository, so what a failed call leaves behind is
    part of the model. *)
From S2P Require Import Prelude StateError SyntaxError CborError Cid CborDecode Crypto MstHeight SortedMap MstNode MstTree MstFlush MstLoad MstDetached MstProof RepoStore.
From S2P Require Did Nsid RecordKey Tid Car CarSlice CarWriter RepoCommit RepoProof.
Import RepoCommit (RepoError(..), commit_error, repo_of_mst).

(** ** The state *)

(** [TidClock], with the ticks of [Tid]. *)
Record TidClock := MkTidClock { clock_id : Z; ticks : Tid.clock }.

(** [TidClock::observe] *)
Definition clock_observe (tid : Z) (c : TidClock) : TidClock := MkTidClock (clock_id c) (Tid.observe (ticks c) tid).

(** [TidClock::next] of the one thread that holds the clock, at time [now]:
    its exchange does not fail for good. *)
Definition clock_next (now : Z) (c : TidClock) : Z * TidClock :=
  let prev := Tid.last (ticks c) in
  (Tid.next_tid (clock_id c) (Tid.next_ts prev now),
   MkTidClock (clock_id c) (Tid.exchange (clock_id c) (Tid.load (ticks c) 0) 0 prev now)).

Record Staged := MkStaged { st_collection : Nsid; st_rkey : RecordKey; st_prev : option Cid; st_cid : option Cid }.

Record Unsaved := MkUnsaved { nodes : gmap Cid bytes; unsaved_retired : gset Cid }.

Definition unsaved_default : Unsaved := MkUnsaved ∅ ∅.

Record Head := MkHead { head_cid : Cid; head_commit : Commit }.

Record Repo (S : Type) := MkRepo {
  did : Did.Did;
  clock : TidClock;
  store : S;
  tree : DetachedTree;
  records : gmap Cid bytes;
  staged : list (bytes * Staged);
  unsaved : Unsaved;
  head : option Head
}.
Arguments MkRepo {S}.
Arguments did {S}.
Arguments clock {S}.
Arguments store {S}.
Arguments tree {S}.
Arguments records {S}.
Arguments staged {S}.
Arguments unsaved {S}.
Arguments head {S}.

Section Setters.
Context {S : Type}.
Implicit Type r : Repo S.

Definition set_clock c r := MkRepo (did r) c (store r) (tree r) (records r) (staged r) (unsaved r) (head r).
Definition set_store (s : S) r : Repo S := MkRepo (did r) (clock r) s (tree r) (records r) (staged r) (unsaved r) (head r).
Definition set_tree t r := MkRepo (did r) (clock r) (store r) t (records r) (staged r) (unsaved r) (head r).
Definition set_records x r := MkRepo (did r) (clock r) (store r) (tree r) x (staged r) (unsaved r) (head r).
Definition set_staged x r := MkRepo (did r) (clock r) (store r) (tree r) (records r) x (unsaved r) (head r).
Definition set_unsaved x r := MkRepo (did r) (clock r) (store r) (tree r) (records r) (staged r) x (head r).
End Setters.

(** [storage]: a store's error, boxed. *)
Definition storage {A} (m : res ErrMsg A) : res RepoError A := map_err RepoStorage m.

Section Repo.
Context `{Sha2} `{Simdutf8} {S : Type} `{RepoStore S}.
Abbreviation on_repo := (st (Repo S) RepoError).

(** ** Sources *)

Definition StoreSource (s : S) : Source := fun cid => map_err Storage (borrow_block s cid).

(** Unsaved nodes over a store. *)
Definition Overlay (blocks : gmap Cid bytes) (s : S) : Source := fun cid =>
  match blocks !! cid with Some data => Ok (Some data) | None => map_err Storage (borrow_block s cid) end.

(** A computation that only reads the repository. *)
Definition reads {A} (f : Repo S -> res RepoError A) : on_repo A := fun r => (f r, r).

(** A method of the tree, with its errors. *)
Definition in_tree {A} (m : Repo S -> method A) : on_repo A := fun r =>
  let '(a, t) := m r (tree r) in (map_err repo_of_mst a, set_tree t r).

(** A method that reads the store. *)
Definition on_store {A} (m : Source -> method A) : on_repo A := in_tree (fun r => m (StoreSource (store r))).

Definition stored_block (s : S) (cid : Cid) : res RepoError bytes :=
  data ← storage (get_block s cid); ok_or (MissingBlock cid) data.

(** [src.read_block(cid)?.ok_or(RepoError::MissingBlock(cid))?] *)
Definition source_block (src : Source) (cid : Cid) : res RepoError bytes :=
  data ← map_err repo_of_mst (src cid); ok_or (MissingBlock cid) data.

(** ** Opening *)

Definition empty (s : S) (d : Did.Did) (c : TidClock) : Repo S :=
  MkRepo d c s MstDetached.new ∅ [] unsaved_default None.

Definition init (s : S) (d : Did.Did) (c : TidClock) : res RepoError (Repo S) :=
  at_ ← storage (store_head s);
  if bool_decide (is_Some at_) then Err StoreNotEmpty else Ok (empty s d c).

Definition open (s : S) : res RepoError (Repo S) :=
  at_ ← storage (store_head s);
  cid ← ok_or NoCommit at_;
  data ← stored_block s cid;
  commit ← RepoCommit.from_cbor data;
  '(_, id) ← map_err (fun e => CommitError (RepoCommit.Caused "" e)) (Tid.clock_new (Tid.clock_id (RepoCommit.rev commit)));
  Ok (MkRepo (RepoCommit.did commit) (clock_observe (RepoCommit.rev commit) (MkTidClock id Tid.init)) s
    (load_tree (RepoCommit.data commit)) ∅ [] unsaved_default (Some (MkHead cid commit))).

(** [head], [head_cid], [has_staged_writes] *)
Definition last_commit (r : Repo S) : option Commit := head_commit <$> head r.
Definition last_cid (r : Repo S) : option Cid := head_cid <$> head r.
Definition has_staged_writes (r : Repo S) : bool := negb (bool_decide (staged r = [])).

(** ** Records *)

Abbreviation mst_key := (RepoProof.mst_key (E := RepoError)).

Definition get (collection : Nsid) (rkey : RecordKey) : on_repo (option (Cid * bytes)) :=
  key ← lift (mst_key collection rkey);
  found ← on_store (fun src => MstDetached.get src key);
  match found with
  | None => mret None
  | Some cid =>
      data ← reads (fun r => match records r !! cid with Some data => Ok data | None => stored_block (store r) cid end);
      mret (Some (cid, data))
  end.

(** [stage]: the value before is kept from the first change. *)
Definition stage (collection : Nsid) (rkey : RecordKey) (key : bytes) (prev cid : option Cid) : on_repo () := modify (fun r =>
  let entry := match SortedMap.get key (staged r) with
    | Some s => MkStaged (st_collection s) (st_rkey s) (st_prev s) cid
    | None => MkStaged collection rkey prev cid
    end in
  set_staged (upsert key entry (staged r)) r).

Definition put (collection : Nsid) (rkey : RecordKey) (key record : bytes) : on_repo Cid :=
  let cid := compute Drisl record in
  prev ← on_store (fun src => insert src key cid);
  _ ← modify (fun r => set_records (<[cid := record]> (records r)) r);
  _ ← stage collection rkey key prev (Some cid);
  mret cid.

Definition create (collection : Nsid) (rkey : RecordKey) (record : bytes) : on_repo Cid :=
  key ← lift (mst_key collection rkey);
  found ← on_store (fun src => MstDetached.get src key);
  if bool_decide (is_Some found) then fail (RecordExists key) else put collection rkey key record.

Definition update (collection : Nsid) (rkey : RecordKey) (record : bytes) : on_repo Cid :=
  key ← lift (mst_key collection rkey);
  found ← on_store (fun src => MstDetached.get src key);
  if bool_decide (found = None) then fail (RecordNotFound key) else put collection rkey key record.

Definition delete (collection : Nsid) (rkey : RecordKey) : on_repo () :=
  key ← lift (mst_key collection rkey);
  removed ← on_store (fun src => remove src key);
  match removed with
  | None => fail (RecordNotFound key)
  | Some prev => stage collection rkey key (Some prev) None
  end.

(** ** Commits *)

(** The nodes of a flush: a node that comes back was never retired, and one
    that goes again was never new. *)
Definition keep_new (u : Unsaved) (b : Cid * bytes) : Unsaved :=
  if bool_decide (b.1 ∈ unsaved_retired u) then MkUnsaved (nodes u) (unsaved_retired u ∖ {[b.1]})
  else MkUnsaved (<[b.1 := b.2]> (nodes u)) (unsaved_retired u).

Definition keep_retired (u : Unsaved) (c : Cid) : Unsaved :=
  if bool_decide (is_Some (nodes u !! c)) then MkUnsaved (base.delete c (nodes u)) (unsaved_retired u)
  else MkUnsaved (nodes u) ({[c]} ∪ unsaved_retired u).

Definition keep_write (w : TreeWrite) (u : Unsaved) : Unsaved :=
  foldl keep_retired (foldl keep_new u (new_blocks w)) (retired w).

(** What became of a record that was staged; nothing, perhaps. *)
Definition staged_action (s : Staged) : option RecordAction :=
  if bool_decide (st_prev s = st_cid s) then None
  else match st_prev s, st_cid s with
       | None, _ => Some Create
       | _, None => Some Delete
       | Some _, Some _ => Some Update
       end.

(** [for staged in self.staged.values() { .. }]: the operations and the
    records they need. *)
Fixpoint commit_ops (rs : gmap Cid bytes) (entries : list (bytes * Staged)) (ops : list RecordOp) (leaves : gmap Cid bytes) :
    res RepoError (list RecordOp * gmap Cid bytes) :=
  match entries with
  | [] => Ok (ops, leaves)
  | (_, s) :: entries =>
      match staged_action s with
      | None => commit_ops rs entries ops leaves
      | Some action =>
          leaves ← match st_cid s with
            | Some cid =>
                data ← ok_or (CommitError (RepoCommit.WithCid "staged record block is missing" cid)) (rs !! cid);
                Ok (<[cid := data]> leaves)
            | None => Ok leaves
            end;
          commit_ops rs entries (ops ++ [MkRecordOp action (st_collection s) (st_rkey s) (st_cid s) (st_prev s)]) leaves
      end
  end.

(** [for cid in proof_nodes { .. }] *)
Fixpoint read_blocks (src : Source) (cids : list Cid) (blocks : gmap Cid bytes) : res RepoError (gmap Cid bytes) :=
  match cids with
  | [] => Ok blocks
  | cid :: cids => data ← source_block src cid; read_blocks src cids (<[cid := data]> blocks)
  end.

(** [src] of [commit]. *)
Definition overlay_of (r : Repo S) : Source := Overlay (nodes (unsaved r)) (store r).

(** The revision of a new commit, after the clock has seen the last one. *)
Definition next_rev (now : Z) : on_repo Z :=
  since ← gets (fun r => RepoCommit.rev <$> last_commit r);
  _ ← modify (fun r => match since with Some rev => set_clock (clock_observe rev (clock r)) r | None => r end);
  rev ← gets (fun r => (clock_next now (clock r)).1);
  _ ← modify (fun r => set_clock (clock_next now (clock r)).2 r);
  if match since with Some since => rev <=? since | None => false end
  then fail (commit_error "clock cannot produce a revision after the last") else mret rev.

(** What the store is given. *)
Definition commit_data (r : Repo S) (signed : RepoCommit.SignedCommit) (ops : list RecordOp) (leaves relevant : gmap Cid bytes) : CommitData :=
  MkCommitData (RepoCommit.cid signed) (RepoCommit.commit signed)
    (RepoCommit.rev <$> last_commit r) (last_cid r) (RepoCommit.data <$> last_commit r)
    (<[RepoCommit.cid signed := RepoCommit.block signed]> (leaves ∪ nodes (unsaved r)))
    (<[RepoCommit.cid signed := RepoCommit.block signed]> relevant)
    (sort_cids (elements (unsaved_retired (unsaved r))) ++ option_list (last_cid r))
    ops.

(** The state after the store has accepted a commit. *)
Definition committed (d : CommitData) (r : Repo S) : Repo S :=
  MkRepo (did r) (clock r) (store r) (tree r) ∅ [] unsaved_default (Some (MkHead (cd_cid d) (cd_commit d))).

Definition save_commit (d : CommitData) : on_repo () := fun r =>
  let '(a, s) := apply_commit d (store r) in (storage a, set_store s r).

Section Signing.
Context {K V : Type} `{VerifyingKey V} `{!SigningKey K V}.

Definition commit (key : K) (now : Z) : on_repo CommitData :=
  write ← in_tree (fun _ => flush);
  _ ← modify (fun r => set_unsaved (keep_write write (unsaved r)) r);
  proof_nodes ← in_tree (fun r => covering_proof (overlay_of r) (staged r).*1);
  '(ops, leaves) ← reads (fun r => commit_ops (records r) (staged r) [] ∅);
  relevant ← reads (fun r => read_blocks (overlay_of r) proof_nodes leaves);
  rev ← next_rev now;
  signed ← reads (fun r => RepoCommit.create_signed (did r) rev (w_root write) key);
  data ← gets (fun r => commit_data r signed ops leaves relevant);
  _ ← save_commit data;
  _ ← modify (committed data);
  mret data.

(** ** Batches *)

(** The keys of the writes. *)
Fixpoint write_keys (writes : list WriteOp) : res RepoError (list bytes) :=
  match writes with
  | [] => Ok []
  | w :: writes =>
      let '(collection, rkey) := write_path w in
      key ← mst_key collection rkey; keys ← write_keys writes; Ok (key :: keys)
  end.

Definition is_delete (w : WriteOp) : bool := match w with WriteDelete _ _ => true | _ => false end.

(** The keys of the writes that delete, and of the others. *)
Definition partition_keys (writes : list WriteOp) (keys : list bytes) : list bytes * list bytes :=
  let ws := zip writes keys in
  ((filter (fun x => is_delete x.1 = true) ws).*2, (filter (fun x => is_delete x.1 = false) ws).*2).

(** The check of a write against the map it will meet, and whether its key is
    there after it. *)
Definition check_write (w : WriteOp) (key : bytes) (present : bool) : res RepoError bool :=
  match w with
  | WriteCreate _ _ _ => if present then Err (RecordExists key) else Ok true
  | WriteUpdate _ _ _ => if present then Ok true else Err (RecordNotFound key)
  | WriteDelete _ _ => if present then Ok false else Err (RecordNotFound key)
  end.

Fixpoint check_writes (writes : list (WriteOp * bytes)) (exists_ : gmap bytes bool) : on_repo () :=
  match writes with
  | [] => mret ()
  | (w, key) :: writes =>
      present ← match exists_ !! key with
        | Some present => mret present
        | None => found ← on_store (fun src => MstDetached.get src key); mret (bool_decide (is_Some found))
        end;
      after ← lift (check_write w key present);
      check_writes writes (<[key := after]> exists_)
  end.

Definition apply_write (w : WriteOp) : on_repo () :=
  match w with
  | WriteCreate collection rkey record | WriteUpdate collection rkey record =>
      key ← lift (mst_key collection rkey); _ ← put collection rkey key record; mret ()
  | WriteDelete collection rkey => delete collection rkey
  end.

Definition apply_writes (writes : list WriteOp) (key : K) (now : Z) : on_repo CommitData :=
  keys ← lift (write_keys writes);
  let '(deleted, written) := partition_keys writes keys in
  missing ← on_store (fun src => missing_blocks src written);
  missing' ← on_store (fun src => missing_blocks_for_remove src deleted);
  match missing ++ missing' with
  | cid :: _ => fail (MissingBlock cid)
  | [] =>
      _ ← check_writes (zip writes keys) ∅;
      _ ← for_each apply_write writes;
      commit key now
  end.
End Signing.
End Repo.
