(* ===== verification/RepoSpec.v ===== *)
(** A repository as a map of records with a last commit: what its methods
    return and leave, whatever its store does.

    What a repository keeps for its store between a flush and the commit that
    hands it over: [Unsaved] of [src/src/repo/repo.rs]. Its nodes and retired
    CIDs together stand for the blocks that storage will have. *)
From S2P Require Import Prelude StateError SyntaxError CborError Cid CborValue CborEncode CborDecode CborCodec Crypto.
From S2P Require Import MstHeight SortedMap MstNode MstTree MstShape MstFlush MstLoad MstDetached MstProof MstFlushed MstPieces MstStored MstBacked.
From S2P Require Import RepoStore Repo.
From S2P Require Did Nsid RecordKey Tid RepoCommit RepoProof.
Import RepoCommit (RepoError(..), commit_error, repo_of_mst).

Section Unsaved.
Context (blocks : gmap Cid bytes).

(** The block is there, now or once the commit is applied. *)
Definition have (u : Unsaved) (c : Cid) : Prop :=
  is_Some (nodes u !! c) \/ (is_Some (blocks !! c) /\ c ∉ unsaved_retired u).

(** No new node is to be removed, and storage has what is. *)
Record unsaved_ok (u : Unsaved) : Prop := {
  unsaved_apart c : is_Some (nodes u !! c) -> c ∉ unsaved_retired u;
  unsaved_stored c : c ∈ unsaved_retired u -> is_Some (blocks !! c)
}.

Lemma unsaved_default_ok : unsaved_ok unsaved_default.
Proof. split; cbn; [|set_solver]. intros c [b Hb]. by rewrite lookup_empty in Hb. Qed.

Lemma keep_new_all bs u : NoDup bs.*1 ->
  (forall c, nodes (foldl keep_new u bs) !! c = if decide (c ∈ unsaved_retired u) then nodes u !! c
     else ((list_to_map bs : gmap Cid bytes) ∪ nodes u) !! c) /\
  (forall c, c ∈ unsaved_retired (foldl keep_new u bs) <-> c ∈ unsaved_retired u /\ c ∉ bs.*1).
Proof.
  revert u. induction bs as [|[d data] bs IH]; intros u; cbn [foldl fmap list_fmap fst].
  { intros _. split; intros c; [rewrite list_to_map_nil, (left_id_L ∅ _); by case_decide|]. set_solver. }
  intros [Hd Hnd]%NoDup_cons. destruct (IH (keep_new u (d, data)) Hnd) as [Hn Hr]. clear IH.
  assert (Hfind : (list_to_map bs : gmap Cid bytes) !! d = None) by (by apply not_elem_of_list_to_map_1).
  assert (Hc : forall c, c ∈ unsaved_retired (keep_new u (d, data)) <-> c ∈ unsaved_retired u /\ c <> d).
  { intros c. unfold keep_new. cbn [fst snd]. case_bool_decide; cbn [unsaved_retired]; set_solver. }
  split; intros c; [rewrite Hn|rewrite Hr, Hc; set_solver]. rewrite (decide_ext _ _ _ _ (Hc c)). unfold keep_new. cbn [fst snd].
  rewrite list_to_map_cons.
  destruct (decide (c = d)) as [->|Hne].
  - rewrite (decide_False (P := _ /\ d <> d)) by naive_solver. case_bool_decide as Hin.
    + rewrite decide_True by done. cbn [nodes]. rewrite lookup_union, Hfind. by rewrite (left_id_L None _).
    + rewrite decide_False by done. cbn [nodes]. rewrite !lookup_union, !lookup_insert_eq, Hfind. by destruct (nodes u !! d).
  - assert (Hiff : c ∈ unsaved_retired u /\ c <> d <-> c ∈ unsaved_retired u) by naive_solver. rewrite (decide_ext _ _ _ _ Hiff).
    case_bool_decide; cbn [nodes]; rewrite !lookup_union, ?lookup_insert_ne by done; done.
Qed.

Lemma keep_retired_all cs u : NoDup cs ->
  (forall c, nodes (foldl keep_retired u cs) !! c = if decide (c ∈ cs) then None else nodes u !! c) /\
  (forall c, c ∈ unsaved_retired (foldl keep_retired u cs) <-> c ∈ unsaved_retired u \/ (c ∈ cs /\ nodes u !! c = None)).
Proof.
  revert u. induction cs as [|d cs IH]; intros u; cbn [foldl].
  { intros _. split; intros c; [by rewrite decide_False by set_solver|set_solver]. }
  intros [Hd Hnd]%NoDup_cons. destruct (IH (keep_retired u d) Hnd) as [Hn Hr]. unfold keep_retired in *.
  case_bool_decide as Hin; cbn [nodes unsaved_retired] in *; split; intros c.
  - rewrite Hn. destruct (decide (d = c)) as [->|Hne].
    + rewrite lookup_delete_eq, (decide_True (P := c ∈ c :: cs)) by set_solver. by case_decide.
    + rewrite lookup_delete_ne by done. repeat case_decide; set_solver.
  - rewrite Hr. destruct (decide (d = c)) as [->|Hne].
    + rewrite lookup_delete_eq. destruct Hin as [b Hb]. set_solver.
    + rewrite lookup_delete_ne by done. set_solver.
  - rewrite Hn. destruct (decide (d = c)) as [->|Hne].
    + rewrite (decide_True (P := c ∈ c :: cs)), decide_False by set_solver. by apply eq_None_not_Some.
    + repeat case_decide; set_solver.
  - rewrite Hr. apply eq_None_not_Some in Hin. destruct (decide (d = c)) as [->|Hne]; set_solver.
Qed.

(** A flush, kept: what will be there is what [after] says, and every new
    block is the flush's or was there. *)
Lemma keep_write_ok rf rf' w u : unsaved_ok u -> accounts rf rf' w -> (forall c, is_Some (rf !! c) -> have u c) ->
  unsaved_ok (keep_write w u) /\ (forall c, after w (have u) c -> have (keep_write w u) c) /\
  (forall c data, nodes (keep_write w u) !! c = Some data -> (c, data) ∈ new_blocks w \/ nodes u !! c = Some data) /\
  forall c, c ∈ unsaved_retired (keep_write w u) -> c ∈ unsaved_retired u \/ is_Some (rf !! c).
Proof.
  intros [Hap Hst] (Hnew & Hnd & Hret & Hnr & _) Hrf. unfold keep_write.
  destruct (keep_new_all (new_blocks w) u Hnd) as [Hn1 Hr1]. set (u1 := foldl keep_new u (new_blocks w)) in *.
  destruct (keep_retired_all (retired w) u1 Hnr) as [Hn2 Hr2]. set (u2 := foldl keep_retired u1 (retired w)) in *.
  assert (Hdisj : forall c, c ∈ (new_blocks w).*1 -> c ∉ retired w).
  { intros c [Hnone _]%Hnew [[k Hk] _]%Hret. by rewrite Hk in Hnone. }
  assert (Hin1 : forall c, is_Some (nodes u !! c) -> is_Some (nodes u1 !! c)).
  { intros c Hc. rewrite Hn1. case_decide; [done|]. rewrite lookup_union_is_Some. by right. }
  split; [split|split; [|split]].
  - intros c Hc. rewrite Hn2 in Hc. rewrite Hr2, Hr1. destruct (decide (c ∈ retired w)) as [|Hnr']; [by destruct Hc|].
    intros [[Hru Hcn]|[? _]]; [|done]. rewrite Hn1 in Hc. rewrite decide_True in Hc by done. by apply (Hap c Hc).
  - intros c. rewrite Hr2, Hr1. intros [[Hc _]|[Hc Hnone]]; [by apply Hst|]. apply Hret in Hc as [Hrc _].
    destruct (Hrf c Hrc) as [Hc|[? _]]; [|done]. apply Hin1 in Hc as [b Hb]. by rewrite Hb in Hnone.
  - intros c [Hc|[[Hc|[Hb Hc]] Hnr']]; unfold have; rewrite Hn2, Hr2, Hr1.
    + pose proof (Hdisj c Hc) as Hdc. rewrite decide_False by done. rewrite Hn1. case_decide as Hru.
      * right. split; [by apply Hst|]. set_solver.
      * left. rewrite lookup_union_is_Some. left. apply list_elem_of_fmap in Hc as ([c' data] & -> & Hb). exists data.
        by apply elem_of_list_to_map_1.
    + rewrite decide_False by done. left. by apply Hin1.
    + right. split; [done|]. set_solver.
  - intros c data. rewrite Hn2. case_decide; [done|]. rewrite Hn1. case_decide; [by right|].
    intros [Hc|[_ Hc]]%lookup_union_Some_raw; [left|by right]. by apply elem_of_list_to_map_2.
  - intros c. rewrite Hr2, Hr1. intros [[? _]|[Hc _]]; [by left|right]. by apply Hret in Hc as [? _].
Qed.
End Unsaved.

Abbreviation mst_key := (RepoProof.mst_key (E := RepoError)).

(** ** Nodes are no commits *)

Lemma node_not_commit `{Simdutf8Laws} `{Sha2Laws} known nd c : readable known nd -> RepoCommit.from_cbor (node_block nd) <> Ok c.
Proof.
  intros (Hok & Hlen & _). assert (Hb : node_block nd = enc (node_value nd)) by (unfold node_block; by rewrite encode_node_data_eq).
  rewrite Hb in *. unfold RepoCommit.from_cbor.
  pose proof (node_value_canonical nd Hok) as Hc.
  rewrite (proj2 (cbor_decode_Ok _ (node_value nd) (enc_u8 _ _ Hc) Hlen)) by done. unfold node_value.
  cbn [map_err mbind res_bind RepoCommit.from_fields]. done.
Qed.

(** ** What was staged *)

(** The entries are the keys that were touched since the last commit, with
    their values then, in [l0], and now, in [l]. *)
Record staged_ok (entries : list (bytes * Staged)) (l0 l : kvs) : Prop := {
  staged_ordered : ordered entries;
  staged_value key : match SortedMap.get key entries with
    | Some s => mst_key (st_collection s) (st_rkey s) = Ok key /\ st_prev s = SortedMap.get key l0 /\ st_cid s = SortedMap.get key l
    | None => SortedMap.get key l = SortedMap.get key l0
    end
}.

Lemma staged_nil l : staged_ok [] l l.
Proof. split; [constructor|done]. Qed.

(** [stage] after a change of one key. *)
Definition staged_entry (collection : Nsid) (rkey : RecordKey) (key : bytes) (prev cid : option Cid) (entries : list (bytes * Staged)) : Staged :=
  match SortedMap.get key entries with
  | Some s => MkStaged (st_collection s) (st_rkey s) (st_prev s) cid
  | None => MkStaged collection rkey prev cid
  end.

Lemma staged_change entries l0 l l' collection rkey key cid : staged_ok entries l0 l -> mst_key collection rkey = Ok key ->
  SortedMap.get key l' = cid -> (forall j, j <> key -> SortedMap.get j l' = SortedMap.get j l) ->
  staged_ok (upsert key (staged_entry collection rkey key (SortedMap.get key l) cid entries) entries) l0 l'.
Proof.
  intros [Ho Hv] Hkey Hcid Hsame. split; [by apply ordered_upsert|]. intros j. rewrite get_upsert by done. specialize (Hv j).
  case_decide as Hj; [subst j|]; [|by rewrite Hsame]. unfold staged_entry.
  destruct (SortedMap.get key entries) as [s|]; cbn; [|by rewrite Hcid]. destruct Hv as (Hk & Hp & _). by rewrite Hcid.
Qed.

Section Repo.
Context `{Simdutf8Laws} `{Sha2Laws} {S : Type} `{RepoStoreLaws S} (known : bytes -> Prop).
Hypothesis known_inj : collision_free known.

(** ** The invariant *)

(** The blocks of a commit's and a node's kind are known and hash to their CIDs. *)
Definition honest_blocks (blocks : gmap Cid bytes) : Prop :=
  forall c data, blocks !! c = Some data -> codec c = Drisl -> known data /\ compute Drisl data = c.

(** The store holds the commit and its tree's nodes. *)
Record stored (s : S) (h : Head) (l : kvs) : Prop := {
  stored_root : map_root l = Some (RepoCommit.data (head_commit h));
  stored_map : ordered l /\ Forall (fun e => is_valid_key e.1 = true) l;
  stored_codec : codec (head_cid h) = Drisl;
  stored_commit : exists block, store_blocks s !! head_cid h = Some block /\ RepoCommit.from_cbor block = Ok (head_commit h);
  stored_nodes height piece : map_part l height piece -> is_Some (store_blocks s !! cid_of height piece)
}.

(** The repository stands for the records [l]; [l0] were those of its last
    commit. *)
Record repo_ok (r : Repo S) (l l0 : kvs) : Prop := {
  ok_did : exists raw, Forall is_u8 raw /\ Did.try_from raw = Ok (did r);
  ok_map : map_ok known l;
  ok_last_map : map_ok known l0;
  ok_tree : backed known (have (store_blocks (store r)) (unsaved r)) l0 (tree r) l;
  ok_unsaved : unsaved_ok (store_blocks (store r)) (unsaved r);
  ok_retired c : c ∈ unsaved_retired (unsaved r) -> node_cid_ok known c;
  ok_blocks : honest_blocks (store_blocks (store r)) /\ honest_blocks (nodes (unsaved r)) /\ honest_blocks (records r);
  ok_staged : staged_ok (staged r) l0 l;
  ok_records key s cid : (key, s) ∈ staged r -> st_cid s = Some cid -> is_Some (records r !! cid);
  ok_head : match head r with Some h => stored (store r) h l0 /\ store_at (store r) = Some (head_cid h) | None => l0 = [] /\ store_at (store r) = None end
}.

(** *** Sources *)

Lemma repo_source_no_panic (s : S) c : no_panic (StoreSource s c).
Proof. unfold StoreSource. pose proof (borrow_block_law s c) as Hb. by destruct (borrow_block s c). Qed.

Lemma store_source_honest (s : S) : honest_blocks (store_blocks s) -> honest known (StoreSource s).
Proof.
  intros Hs c data. unfold StoreSource. pose proof (borrow_block_law s c) as Hb. destruct (borrow_block s c) as [v|e|]; [|done..].
  cbn. intros [= ->]. by apply Hs.
Qed.

Lemma overlay_no_panic blocks (s : S) c : no_panic (Overlay blocks s c).
Proof. unfold Overlay. destruct (blocks !! c); [done|]. apply (repo_source_no_panic s c). Qed.

Lemma overlay_honest blocks (s : S) : honest_blocks blocks -> honest_blocks (store_blocks s) -> honest known (Overlay blocks s).
Proof.
  intros Hb Hs c data. unfold Overlay. destruct (blocks !! c) as [d|] eqn:Hd; [|by apply store_source_honest].
  intros [= <-]. by apply Hb.
Qed.

(** *** Methods of the tree *)

(** An error of the tree, or of the store it reads. *)
Definition of_tree (e : RepoError) : Prop := exists e', e = repo_of_mst e'.

Definition run_ok {A} (m : st (Repo S) RepoError A) (r : Repo S) (l l0 : kvs) (Q : Repo S -> A -> Prop) : Prop :=
  let '(a, r') := m r in
  match a with Ok a => Q r' a | Err _ => repo_ok r' l l0 | Panic => False end.

Lemma repo_run_bind {A B} (m : st (Repo S) RepoError A) (f : A -> st (Repo S) RepoError B) r l l0 Q R : run_ok m r l l0 Q ->
  (forall r' a, Q r' a -> run_ok (f a) r' l l0 R) -> run_ok (m ≫= f) r l l0 R.
Proof. unfold run_ok, mbind, st_bind. destruct (m r) as [[a|e|] r']; intros Hm Hf; [|done..]. by apply Hf. Qed.

Lemma repo_ok_tree r l l0 t : repo_ok r l l0 -> backed known (have (store_blocks (store r)) (unsaved r)) l0 t l -> repo_ok (set_tree t r) l l0.
Proof. intros [] Ht. by split. Qed.

(** A method of the tree that leaves its map alone. *)
Lemma in_tree_ok {A} (m : Repo S -> method A) r l l0 Q : repo_ok r l l0 ->
  does known l0 (have (store_blocks (store r)) (unsaved r)) (tree r) l (m r)
    (fun t' a => backed known (have (store_blocks (store r)) (unsaved r)) l0 t' l /\ Q t' a) ->
  run_ok (in_tree m) r l l0 (fun r' a => repo_ok r' l l0 /\ exists t', r' = set_tree t' r /\ Q t' a).
Proof.
  intros Hr. unfold does, run_ok, in_tree. destruct (m r (tree r)) as [[a|e|] t']; cbn; intros Hm; [|by apply repo_ok_tree|done].
  split; [apply repo_ok_tree; [done|apply Hm]|]. exists t'. split; [done|apply Hm].
Qed.

(** ** Records *)

Lemma honest_insert (m : gmap Cid bytes) data : known data -> honest_blocks m -> honest_blocks (<[compute Drisl data := data]> m).
Proof.
  intros Hk Hm c d. destruct (decide (compute Drisl data = c)) as [<-|Hne].
  - rewrite lookup_insert_eq. by intros [= <-] _.
  - rewrite lookup_insert_ne by done. apply Hm.
Qed.

Lemma stored_block_run (s : S) c : match stored_block s c with Ok data => store_blocks s !! c = Some data | Err _ => True | Panic => False end.
Proof.
  unfold stored_block. pose proof (get_block_law s c) as Hg. destruct (get_block s c) as [v|e|]; [|done..]. cbn. by destruct v.
Qed.

Section Ops.
Context (r : Repo S) (l l0 : kvs) (collection : Nsid) (rkey : RecordKey) (key : bytes).
Hypothesis Hr : repo_ok r l l0.
Hypothesis Hkey : mst_key collection rkey = Ok key.

Lemma on_store_run {A} (m : Source -> method A) Q :
  does known l0 (have (store_blocks (store r)) (unsaved r)) (tree r) l (m (StoreSource (store r)))
    (fun t' a => backed known (have (store_blocks (store r)) (unsaved r)) l0 t' l /\ Q a) ->
  run_ok (on_store m) r l l0 (fun r' a => repo_ok r' l l0 /\ exists t', r' = set_tree t' r /\ Q a).
Proof. intros Hm. by apply (in_tree_ok (fun r => m (StoreSource (store r)))). Qed.

Lemma serves_store : serves (StoreSource (store r)) l0.
Proof. apply (honest_serves known known_inj); [apply Hr|]. apply store_source_honest, Hr. Qed.

Lemma tree_get_run : run_ok (on_store (fun src => MstDetached.get src key)) r l l0
  (fun r' found => repo_ok r' l l0 /\ exists t', r' = set_tree t' r /\ found = SortedMap.get key l).
Proof.
  apply on_store_run. apply (backed_get known known_inj l0); [apply Hr|apply serves_store|apply repo_source_no_panic|apply Hr|apply Hr].
Qed.

Lemma lift_key {A} (f : bytes -> st (Repo S) RepoError A) Q : run_ok (f key) r l l0 Q -> run_ok (key ← lift (mst_key collection rkey); f key) r l l0 Q.
Proof. unfold run_ok. rewrite (st_bind_run _ _ r key r) by (unfold lift; by rewrite Hkey). done. Qed.

Lemma get_run : run_ok (get collection rkey) r l l0 (fun r' a => repo_ok r' l l0 /\ (exists t', r' = set_tree t' r) /\
  match a with
  | None => SortedMap.get key l = None
  | Some (cid, data) => SortedMap.get key l = Some cid /\ (codec cid = Drisl -> compute Drisl data = cid)
  end).
Proof.
  unfold get. apply lift_key. eapply repo_run_bind; [apply tree_get_run|]. intros r' found (Hr' & t' & -> & ->).
  destruct (SortedMap.get key l) as [cid|]; [|by split_and!; [|exists t'|]]. set (r1 := set_tree t' r) in *.
  set (block := fun r : Repo S => match records r !! cid with Some data => Ok data | None => stored_block (store r) cid end).
  assert (Hblock : match block r1 with Ok data => codec cid = Drisl -> compute Drisl data = cid | Err _ => True | Panic => False end).
  { destruct (ok_blocks _ _ _ Hr') as (Hst & _ & Hre). unfold block. destruct (records r1 !! cid) as [data|] eqn:Hd; [intros Hc; by apply Hre|].
    pose proof (stored_block_run (store r1) cid) as Hs. destruct (stored_block (store r1) cid); [intros Hc; by apply Hst|done..]. }
  unfold run_ok, reads, mbind, st_bind. change (match records r1 !! cid with Some data => Ok data | None => stored_block (store r1) cid end) with (block r1).
  destruct (block r1) as [data|e|]; [|done..]. split; [done|]. split; [by exists t'|done].
Qed.

(** The state after a change of one key. *)
Lemma put_run record : known record -> map_ok known (upsert key (compute Drisl record) l) ->
  run_ok (put collection rkey key record) r l l0 (fun r' cid => cid = compute Drisl record /\ is_valid_key key = true /\
    repo_ok r' (upsert key cid l) l0 /\ store r' = store r).
Proof.
  intros Hrec Hmap. unfold put. set (cid := compute Drisl record).
  pose proof (backed_insert_any known known_inj l0 (ok_last_map _ _ _ Hr) _ serves_store (repo_source_no_panic _) _ (tree r) l key cid
    (ok_map _ _ _ Hr) (ok_tree _ _ _ Hr)) as Hins.
  unfold run_ok, on_store, in_tree, mbind, st_bind. unfold does in Hins. destruct (insert (StoreSource (store r)) key cid (tree r)) as [[prev|e|] t'];
    [|by apply repo_ok_tree|done]. destruct Hins as (Hv & -> & Ht'). cbn -[SortedMap.get]. split; [done|]. split; [done|]. split; [|done].
  destruct Hr as [Hd Hm Hm0 Ht Hu Hrt Hb Hst Hre Hh]. assert (Ho : ordered l) by apply Ht.
  split; cbn [did tree store records staged unsaved head set_tree set_records set_staged]; try done.
  - split_and!; [apply Hb..|]. by apply honest_insert, Hb.
  - change (match SortedMap.get key (staged r) with Some s => _ | None => _ end) with
      (staged_entry collection rkey key (SortedMap.get key l) (Some cid) (staged r)).
    apply (staged_change _ _ l); [done|done|rewrite get_upsert by done; by rewrite decide_True|].
    intros j Hj. rewrite get_upsert by done. by rewrite decide_False.
  - intros k s c Hin Hc. apply upsert_in in Hin as [[= -> ->]|Hin].
    + assert (c = cid) as ->. { revert Hc. destruct (SortedMap.get key (staged r)); cbn; congruence. }
      exists record. apply lookup_insert_eq.
    + destruct (Hre k s c Hin Hc) as [data Hdata]. destruct (decide (cid = c)) as [->|Hne]; [exists record; apply lookup_insert_eq|].
      exists data. by rewrite lookup_insert_ne.
Qed.
Lemma delete_run : map_ok known (without key l) ->
  let '(a, r') := delete collection rkey r in
  match a with
  | Ok _ => is_Some (SortedMap.get key l) /\ repo_ok r' (without key l) l0 /\ store r' = store r
  | Err e => repo_ok r' l l0 /\ (of_tree e \/ (e = RecordNotFound key /\ SortedMap.get key l = None))
  | Panic => False
  end.
Proof.
  intros Hmap. unfold delete. rewrite (st_bind_run _ _ r key r) by (unfold lift; by rewrite Hkey).
  pose proof (backed_remove_any known known_inj l0 (ok_last_map _ _ _ Hr) _ serves_store (repo_source_no_panic _) _ (tree r) l key
    (ok_map _ _ _ Hr) (ok_tree _ _ _ Hr)) as Hrem.
  unfold on_store, in_tree, mbind, st_bind. unfold does in Hrem. destruct (remove (StoreSource (store r)) key (tree r)) as [[prev|e|] t'];
    [|by split; [apply repo_ok_tree|left; eexists]|done]. destruct Hrem as (-> & Ht'). cbn -[SortedMap.get stage]. assert (Ho : ordered l) by apply (ok_tree _ _ _ Hr).
  destruct (SortedMap.get key l) as [prev|] eqn:Hprev.
  2: { split; [|by right]. apply repo_ok_tree; [done|]. by rewrite without_absent in Ht' by done. }
  cbn -[SortedMap.get]. split; [by eexists|]. split; [|done].
  destruct Hr as [Hd Hm Hm0 Ht Hu Hrt Hb Hst Hre Hh].
  split; cbn [did tree store records staged unsaved head set_tree set_records set_staged]; try done.
  - rewrite <- Hprev. change (match SortedMap.get key (staged r) with Some s => _ | None => _ end) with
      (staged_entry collection rkey key (SortedMap.get key l) None (staged r)).
    apply (staged_change _ _ l); [done|done|rewrite get_without by done; by rewrite decide_True|].
    intros j Hj. rewrite get_without by done. by rewrite decide_False.
  - intros k s c Hin Hc. apply upsert_in in Hin as [[= -> ->]|Hin]; [|by apply (Hre k s c)].
    revert Hc. destruct (SortedMap.get key (staged r)); cbn; congruence.
Qed.
End Ops.

Lemma on_store_error {A} (m : Source -> method A) (r r' : Repo S) e : on_store m r = (Err e, r') -> of_tree e.
Proof. unfold on_store, in_tree. destruct (m _ _) as [[a|e'|] t']; cbn; intros [= <-]; by eexists. Qed.

Lemma put_error collection rkey key record (r r' : Repo S) e : put collection rkey key record r = (Err e, r') -> of_tree e.
Proof.
  unfold put, mbind, st_bind. destruct (on_store _ r) as [[prev|e'|] r1] eqn:Hrun; cbn; [done| |done]. intros [= <- _]. by eapply on_store_error.
Qed.

Section Writes.
Context (r : Repo S) (l l0 : kvs) (collection : Nsid) (rkey : RecordKey) (key record : bytes).
Hypothesis Hr : repo_ok r l l0.
Hypothesis Hkey : mst_key collection rkey = Ok key.
Hypothesis Hrec : known record.
Hypothesis Hmap : map_ok known (upsert key (compute Drisl record) l).

(** The two write methods. *)
Lemma write_run (refused : RepoError) (refuse : option Cid -> bool) :
  let '(a, r') := (key ← lift (mst_key collection rkey);
    found ← on_store (fun src => MstDetached.get src key);
    if refuse found then fail refused else put collection rkey key record) r in
  match a with
  | Ok cid => refuse (SortedMap.get key l) = false /\ cid = compute Drisl record /\ is_valid_key key = true /\
      repo_ok r' (upsert key cid l) l0
  | Err e => repo_ok r' l l0 /\ (of_tree e \/ (e = refused /\ refuse (SortedMap.get key l) = true))
  | Panic => False
  end.
Proof.
  rewrite (st_bind_run _ _ r key r) by (unfold lift; by rewrite Hkey).
  pose proof (tree_get_run r l l0 key Hr) as Hget. unfold run_ok, mbind, st_bind in *.
  destruct (on_store _ r) as [[found|e|] r1] eqn:Hrun; [| |done].
  - destruct Hget as (Hr1 & t' & _ & ->). destruct (refuse (SortedMap.get key l)) eqn:Hre; cbn; [by split; [|right]|].
    pose proof (put_run r1 l l0 collection rkey key Hr1 Hkey record Hrec Hmap) as Hput. unfold run_ok in Hput.
    destruct (put collection rkey key record r1) as [[cid|e|] r2] eqn:Hp; [by destruct Hput as (? & ? & ? & _)| |done].
    split; [done|]. left. by eapply put_error.
  - split; [done|]. left. by eapply on_store_error.
Qed.
End Writes.
End Repo.
