(* ===== verification/RepoSave.v ===== *)
(** The commit of a repository: the operations it lists are the changes since
    the last one, what it gives the store is what the new tree needs, and if
    it fails the repository is what it was. *)
From S2P Require Import Prelude StateError SyntaxError CborError Cid CborDecode Crypto.
From S2P Require Import MstHeight SortedMap MstNode MstTree MstShape MstFlush MstLoad MstDetached MstProof MstDetachedSpec MstFlushed MstPieces MstStored MstBacked.
From S2P Require Import RepoStore Repo RepoSpec.
From S2P Require Did Nsid RecordKey Tid RepoCommit RepoProof.
Import RepoCommit (RepoError(..), commit_error, repo_of_mst).

(** ** Operations *)

(** The operation of one entry. *)
Definition staged_op (e : bytes * Staged) : option RecordOp :=
  action ← staged_action e.2; Some (MkRecordOp action (st_collection e.2) (st_rkey e.2) (st_cid e.2) (st_prev e.2)).

(** The blocks of the records that were written. *)
Definition leaves_ok (rs : gmap Cid bytes) (entries : list (bytes * Staged)) (leaves leaves' : gmap Cid bytes) : Prop :=
  (forall c data, leaves' !! c = Some data -> leaves !! c = Some data \/ rs !! c = Some data) /\
  (forall c, is_Some (leaves !! c) -> is_Some (leaves' !! c)) /\
  forall key s c, (key, s) ∈ entries -> st_prev s <> st_cid s -> st_cid s = Some c -> is_Some (leaves' !! c).

Lemma commit_ops_eq rs entries ops leaves : (forall key s c, (key, s) ∈ entries -> st_cid s = Some c -> is_Some (rs !! c)) ->
  exists leaves', commit_ops rs entries ops leaves = Ok (ops ++ omap staged_op entries, leaves') /\ leaves_ok rs entries leaves leaves'.
Proof.
  revert ops leaves. induction entries as [|[key s] entries IH]; intros ops leaves Hrs.
  { exists leaves. rewrite app_nil_r. split; [done|]. split_and!; [by left|done|]. intros ? ? ? []%elem_of_nil. }
  assert (Hrs' : forall key s c, (key, s) ∈ entries -> st_cid s = Some c -> is_Some (rs !! c)).
  { intros k s' c Hin. apply (Hrs k). by right. }
  cbn [commit_ops omap list_omap]. unfold staged_op at 1. cbn [snd]. unfold staged_action. case_bool_decide as Hsame.
  { destruct (IH ops leaves Hrs') as (leaves' & -> & Hl). exists leaves'. split; [done|]. destruct Hl as (H1 & H2 & H3).
    split_and!; [done..|]. intros k s' c [[= -> ->]|Hin]%elem_of_cons Hne; [done|]. by apply (H3 k). }
  set (action := match st_prev s with None => _ | _ => _ end).
  assert (Hact : exists a, action = Some a) by (unfold action; destruct (st_prev s), (st_cid s); by eexists). destruct Hact as [a ->].
  change (Some a ≫= (fun action => Some (MkRecordOp action (st_collection s) (st_rkey s) (st_cid s) (st_prev s))))
    with (Some (MkRecordOp a (st_collection s) (st_rkey s) (st_cid s) (st_prev s))). cbv iota.
  set (op := MkRecordOp a _ _ _ _). replace (ops ++ op :: omap staged_op entries) with ((ops ++ [op]) ++ omap staged_op entries) by (by rewrite <- app_assoc).
  destruct (st_cid s) as [cid|] eqn:Hcid.
  - destruct (Hrs key s cid ltac:(by left) Hcid) as [data Hdata]. rewrite Hdata. cbn [ok_or mbind res_bind].
    destruct (IH (ops ++ [op]) (<[cid := data]> leaves) Hrs') as (leaves' & -> & H1 & H2 & H3). exists leaves'. split; [done|]. split_and!.
    + intros c d Hc. destruct (H1 c d Hc) as [Hc'|?]; [|by right]. destruct (decide (cid = c)) as [->|Hne].
      * rewrite lookup_insert_eq in Hc'. right. congruence.
      * rewrite lookup_insert_ne in Hc' by done. by left.
    + intros c Hc. apply H2. destruct (decide (cid = c)) as [->|Hne]; [by rewrite lookup_insert_eq; eexists|by rewrite lookup_insert_ne].
    + intros k s' c [[= -> ->]|Hin]%elem_of_cons Hne Hc; [|by apply (H3 k s')]. apply H2. assert (c = cid) as -> by congruence.
      rewrite lookup_insert_eq. by eexists.
  - cbn [mbind res_bind]. destruct (IH (ops ++ [op]) leaves Hrs') as (leaves' & -> & H1 & H2 & H3). exists leaves'. split; [done|]. split_and!; [done..|].
    intros k s' c [[= -> ->]|Hin]%elem_of_cons Hne Hc; [congruence|by apply (H3 k s')].
Qed.

(** The difference of two maps: what became of a key. *)
Definition change (old new : option Cid) : option RecordAction :=
  if bool_decide (old = new) then None
  else match old, new with None, _ => Some Create | _, None => Some Delete | _, _ => Some Update end.

(** The operations are the keys that changed, in order, each with its old and
    its new value. *)
Record exact_ops (l0 l : kvs) (ops : list RecordOp) (keys : list bytes) : Prop := {
  ops_paths : Forall2 (fun op key => op_path (E := RepoError) op = Ok key) ops keys;
  ops_sorted : StronglySorted bytes_lt keys;
  ops_keys key : key ∈ keys <-> SortedMap.get key l0 <> SortedMap.get key l;
  ops_values : Forall2 (fun op key => op_prev op = SortedMap.get key l0 /\ op_cid op = SortedMap.get key l /\
    Some (op_action op) = change (SortedMap.get key l0) (SortedMap.get key l)) ops keys
}.

Lemma staged_action_change s : staged_action s = change (st_prev s) (st_cid s).
Proof. unfold staged_action, change. case_bool_decide; [done|]. by destruct (st_prev s), (st_cid s). Qed.

Lemma change_None old new : change old new = None <-> old = new.
Proof. unfold change. case_bool_decide; [done|]. destruct old, new; done. Qed.

(** The keys of the entries that changed. *)
Definition op_key (e : bytes * Staged) : option bytes := if bool_decide (st_prev e.2 = st_cid e.2) then None else Some e.1.

Lemma omap_sorted {B} (f : bytes * B -> option bytes) (l : list (bytes * B)) : (forall e k, f e = Some k -> k = e.1) -> ordered l -> StronglySorted bytes_lt (omap f l).
Proof.
  intros Hf. induction l as [|[k b] l IH]; [constructor|]. intros [Ha Ho]%ordered_cons. cbn [omap list_omap].
  destruct (f (k, b)) as [k'|] eqn:Hk; [|by apply IH]. apply Hf in Hk as ->. constructor; [by apply IH|]. apply Forall_forall.
  intros j (e & He & Hj)%list_elem_of_omap. apply Hf in Hj as ->. exact (proj1 (Forall_forall _ _) Ha e He).
Qed.

Lemma omap_Forall2 {A B C} (f : A -> option B) (g : A -> option C) (P : B -> C -> Prop) (l : list A) :
  (forall a, a ∈ l -> match f a, g a with Some b, Some c => P b c | None, None => True | _, _ => False end) -> Forall2 P (omap f l) (omap g l).
Proof.
  induction l as [|a l IH]; intros Hl; [constructor|]. cbn [omap list_omap]. pose proof (Hl a ltac:(by left)) as Ha.
  destruct (f a), (g a); try done; [constructor; [done|]|]; apply IH; intros a' Hin; apply Hl; by right.
Qed.

Lemma staged_exact entries l0 l : staged_ok entries l0 l -> exact_ops l0 l (omap staged_op entries) (omap op_key entries).
Proof.
  intros [Ho Hv]. assert (Hin : forall key s, (key, s) ∈ entries -> mst_key (st_collection s) (st_rkey s) = Ok key /\
    st_prev s = SortedMap.get key l0 /\ st_cid s = SortedMap.get key l).
  { intros key s Hs. specialize (Hv key). assert (Hg : SortedMap.get key entries = Some s).
    { apply list_elem_of_split in Hs as (a & b & ->). apply ordered_mid in Ho as (_ & _ & Ha & _). by apply get_mid. }
    by rewrite Hg in Hv. }
  assert (Hop : forall key s, (key, s) ∈ entries -> staged_op (key, s) = (if bool_decide (st_prev s = st_cid s) then None else
    match change (st_prev s) (st_cid s) with Some a => Some (MkRecordOp a (st_collection s) (st_rkey s) (st_cid s) (st_prev s)) | None => None end)).
  { intros key s _. unfold staged_op. cbn [snd]. rewrite staged_action_change. case_bool_decide as Hs; [by rewrite (proj2 (change_None _ _) Hs)|].
    by destruct (change _ _). }
  assert (Hne : forall s, st_prev s <> st_cid s -> exists a, change (st_prev s) (st_cid s) = Some a).
  { intros s Hs. destruct (change _ _) as [a|] eqn:Ha; [by exists a|]. by apply change_None in Ha. }
  split.
  - apply omap_Forall2. intros [key s] Hs. destruct (Hin key s Hs) as (Hk & _). rewrite (Hop key s Hs). unfold op_key. cbn [fst snd].
    case_bool_decide as Hsame; [done|]. destruct (Hne s Hsame) as [a ->]. exact Hk.
  - apply omap_sorted; [|done]. unfold op_key. intros e k. case_bool_decide; [done|]. by intros [= ->].
  - intros key. rewrite list_elem_of_omap. split.
    + intros ([k s] & Hs & Hk). unfold op_key in Hk. cbn [fst snd] in Hk. case_bool_decide as Hsame; [done|]. injection Hk as ->.
      destruct (Hin key s Hs) as (_ & <- & <-). done.
    + intros Hd. specialize (Hv key). destruct (SortedMap.get key entries) as [s|] eqn:Hg; [|congruence]. destruct Hv as (_ & Hp & Hc).
      exists (key, s). split; [by apply get_Some_in|]. unfold op_key. cbn [fst snd]. by rewrite bool_decide_false by congruence.
  - apply omap_Forall2. intros [key s] Hs. destruct (Hin key s Hs) as (_ & Hp & Hc). rewrite (Hop key s Hs). unfold op_key. cbn [fst snd].
    case_bool_decide as Hsame; [done|]. destruct (Hne s Hsame) as [a Ha]. rewrite Ha. cbn. by rewrite <- Hp, <- Hc.
Qed.

Section Save.
Context `{Simdutf8Laws} `{Sha2Laws} {S : Type} `{RepoStoreLaws S} (known : bytes -> Prop).
Hypothesis known_inj : collision_free known.
Implicit Types (r : Repo S) (l : kvs).

Abbreviation repo_ok := (repo_ok known).
Abbreviation run_ok := (run_ok known).

Lemma source_block_ok src c : no_panic (src c) -> match source_block src c with Ok data => src c = Ok (Some data) | Err _ => True | Panic => False end.
Proof. intros Hp. unfold source_block. destruct (src c) as [[data|]|e|]; done. Qed.

Lemma read_blocks_ok src cids blocks : (forall c, no_panic (src c)) ->
  match read_blocks src cids blocks with
  | Ok blocks' => forall c, is_Some (blocks !! c) \/ c ∈ cids -> is_Some (blocks' !! c)
  | Err _ => True
  | Panic => False
  end.
Proof.
  intros Hp. revert blocks. induction cids as [|c cids IH]; intros blocks; cbn [read_blocks]; [by intros c [?|[]%elem_of_nil]|].
  pose proof (source_block_ok src c (Hp c)) as Hb. destruct (source_block src c) as [data|e|]; [|done..]. cbn [mbind res_bind].
  specialize (IH (<[c := data]> blocks)). destruct (read_blocks _ _ _) as [blocks'|e|]; [|done..]. intros c' Hc'. apply IH.
  destruct (decide (c = c')) as [->|Hne]; [left; rewrite lookup_insert_eq; by eexists|]. rewrite lookup_insert_ne by done. set_solver.
Qed.

(** *** After the flush *)

(** The tree has nothing to write, and storage will have its nodes. *)
Record flushed_repo r l (root : Cid) : Prop := {
  fr_root : map_root l = Some root;
  fr_have h s : map_part l h s -> have (store_blocks (store r)) (unsaved r) (cid_of h s);
  fr_released : released (tree r) = []
}.

Lemma honest_nodes l w u : map_ok known l -> Forall (map_block l) (new_blocks w) ->
  (forall c data, nodes (keep_write w u) !! c = Some data -> (c, data) ∈ new_blocks w \/ nodes u !! c = Some data) ->
  honest_blocks known (nodes u) -> honest_blocks known (nodes (keep_write w u)).
Proof.
  intros Hl Hb Hn Hu c data Hc Hcd. destruct (Hn c data Hc) as [Hin|?]; [|by apply Hu].
  apply (proj1 (Forall_forall _ _) Hb) in Hin as (h & s & Hm & Hcid & Henc). cbn [fst snd] in *.
  destruct (Hl h s Hm) as (_ & _ & Hk). rewrite encode_node_block in Henc. injection Henc as <-. by split.
Qed.

(** What a commit does to the repository before the store sees it. *)
Record same_repo r r' : Prop := {
  same_did : did r' = did r;
  same_store : store r' = store r;
  same_records : records r' = records r;
  same_staged : staged r' = staged r;
  same_head : head r' = head r
}.

Lemma flush_run r l l0 : repo_ok r l l0 ->
  run_ok (write ← in_tree (fun _ => flush); _ ← modify (fun r => set_unsaved (keep_write write (unsaved r)) r); mret write) r l l0
    (fun r' w => repo_ok r' l l0 /\ flushed_repo r' l (w_root w) /\ same_repo r r' /\ clock r' = clock r).
Proof.
  intros Hr. pose proof Hr as [Hd Hm Hm0 Ht Hu Hrt (Hb1 & Hb2 & Hb3) Hst Hre Hh].
  destruct (backed_flush known known_inj l0 Hm0 _ (tree r) l Hm Ht) as (w & t' & Hrun & Hroot & Hcid & Ht' & Hhave & Hblocks & Hacc & Hrel).
  destruct (keep_write_ok (store_blocks (store r)) _ _ w (unsaved r) Hu Hacc (backed_refs _ _ _ _ _ Ht)) as (Hu' & Hafter & Hnodes & Hret).
  unfold RepoSpec.run_ok, in_tree, mbind, st_bind. rewrite Hrun. cbn.
  set (r' := set_unsaved _ _).
  assert (Hr' : repo_ok r' l l0).
  { split; try done.
    - by eapply (backed_weaken known known_inj); [exact Hafter| |].
    - intros c Hc. destruct (Hret c Hc) as [?|Hrf]; [by apply Hrt|by apply (backed_nodes _ _ _ _ _ Ht)].
    - split_and!; [done|exact (honest_nodes l w (unsaved r) Hm Hblocks Hnodes Hb2)|done]. }
  split; [done|]. split; [|done]. split; [done| |done]. intros h s Hp. by apply Hafter, Hhave.
Qed.

Lemma proof_run r l l0 root : repo_ok r l l0 -> flushed_repo r l root ->
  run_ok (in_tree (fun r => covering_proof (overlay_of r) (staged r).*1)) r l l0
    (fun r' _ => repo_ok r' l l0 /\ flushed_repo r' l root /\ same_repo r r' /\ clock r' = clock r).
Proof.
  intros Hr [Hroot Hhave Hrel]. destruct (ok_blocks _ _ _ _ Hr) as (Hb1 & Hb2 & _).
  pose proof (backed_proof known known_inj l0 (ok_last_map _ _ _ _ Hr) (overlay_of r)
    (honest_serves known known_inj _ _ (ok_last_map _ _ _ _ Hr) (overlay_honest known _ _ Hb2 Hb1)) (overlay_no_panic _ _) _
    (tree r) l (staged r).*1 (ok_map _ _ _ _ Hr) (ok_tree _ _ _ _ Hr)) as Hp.
  unfold RepoSpec.run_ok, in_tree. unfold does in Hp. destruct (covering_proof _ _ (tree r)) as [[out|e|] t']; cbn; [|by apply repo_ok_tree|done].
  destruct Hp as (Ht' & Hrel' & _). split; [by apply repo_ok_tree|]. split; [|done]. split; [done|done|]. cbn. congruence.
Qed.

(** *** The revision *)

Definition coming_rev r (now : Z) : Z :=
  (clock_next now (match last_commit r with Some c => clock_observe (RepoCommit.rev c) (clock r) | None => clock r end)).1.

Lemma next_rev_run r now : let '(a, r') := next_rev now r in
  (exists c, r' = set_clock c r) /\
  match a with
  | Ok rev => rev = coming_rev r now /\ forall h, head r = Some h -> RepoCommit.rev (head_commit h) < rev
  | Err _ => True
  | Panic => False
  end.
Proof.
  unfold next_rev, coming_rev, last_commit. unfold gets, modify, mbind, st_bind, fail. destruct (head r) as [h|] eqn:Hh; cbn -[clock_next Z.leb].
  - destruct (Z.leb_spec (clock_next now (clock_observe (RepoCommit.rev (head_commit h)) (clock r))).1 (RepoCommit.rev (head_commit h))).
    + split; [by eexists|done].
    + split; [by eexists|]. split; [done|]. by intros ? [= <-].
  - split; [by eexists|]. done.
Qed.

Lemma repo_ok_clock r l l0 c : repo_ok r l l0 -> repo_ok (set_clock c r) l l0.
Proof. intros []. by split. Qed.

(** The revision is one that a TID can have. *)
Lemma coming_rev_u64 r now : is_u64 (coming_rev r now).
Proof.
  unfold coming_rev, clock_next, Tid.next_tid, Tid.from_integer. cbn [fst].
  change (as_u64 (Z.lnot (Z.shiftl 1 63))) with (Z.ones 63). rewrite Z.land_ones by lia.
  pose proof (Z.mod_pos_bound (Z.lor (as_u64 (Z.shiftl (Tid.next_ts (Tid.last (ticks (match last_commit r with Some c => clock_observe (RepoCommit.rev c) (clock r) | None => clock r end))) now) 10)) (clock_id (match last_commit r with Some c => clock_observe (RepoCommit.rev c) (clock r) | None => clock r end))) (2 ^ 63) ltac:(lia)).
  unfold is_u64. lia.
Qed.

(** *** What the store does *)

Lemma have_stored (blocks blocks' : gmap Cid bytes) u : (forall c, is_Some (blocks !! c) -> is_Some (blocks' !! c)) ->
  (forall c, have blocks u c -> have blocks' u c) /\ (unsaved_ok blocks u -> unsaved_ok blocks' u).
Proof.
  intros Hb. split.
  - intros c [?|[? ?]]; [by left|right]. split; [by apply Hb|done].
  - intros [H1' H2']. split; [done|]. intros c Hc. by apply Hb, H2'.
Qed.

(** A store that refused the commit. *)
Lemma refused_ok r l l0 (s' : S) (new : gmap Cid bytes) : repo_ok r l l0 -> honest_blocks known new -> store_at s' = store_at (store r) ->
  (forall c, store_blocks s' !! c = store_blocks (store r) !! c \/ (store_blocks (store r) !! c = None /\ store_blocks s' !! c = new !! c)) ->
  repo_ok (set_store s' r) l l0.
Proof.
  intros [Hd Hm Hm0 Ht Hu Hrt (Hb1 & Hb2 & Hb3) Hst Hre Hh] Hnew Hat Hblocks.
  assert (Hmono : forall c b, store_blocks (store r) !! c = Some b -> store_blocks s' !! c = Some b).
  { intros c b Hc. destruct (Hblocks c) as [->|[Hn _]]; congruence. }
  destruct (have_stored (store_blocks (store r)) (store_blocks s') (unsaved r)) as [Hhave Huok].
  { intros c [b Hc]. exists b. by apply Hmono. }
  split; cbn [did tree store records staged unsaved head set_store]; try done.
  - by eapply (backed_weaken known known_inj); [exact Hhave| |].
  - by apply Huok.
  - split_and!; [|done..]. intros c data Hc. destruct (Hblocks c) as [He|[_ He]]; rewrite He in Hc; [by apply Hb1|by apply Hnew].
  - destruct (head r) as [h|]; [|by rewrite Hat]. destruct Hh as [[Hroot Hmap Hcodec (block & Hblock & Hfrom) Hnodes] Hat0]. split; [|by rewrite Hat].
    split; [done..| |].
    + exists block. split; [by apply Hmono|done].
    + intros height piece Hp. destruct (Hnodes height piece Hp) as [b Hb]. exists b. by apply Hmono.
Qed.

(** The last commit's block is that of no node. *)
Lemma last_not_node (s : S) h l0 c : honest_blocks known (store_blocks s) -> stored s h l0 -> node_cid_ok known c -> c <> head_cid h.
Proof.
  intros Hb [_ _ Hcodec (block & Hblock & Hfrom) _] (nd & Hrd & Hc) Heq. destruct (Hb _ _ Hblock Hcodec) as [Hk Hcid].
  assert (node_block nd = block) as <- by (apply known_inj; [apply Hrd|done|congruence]). by eapply (node_not_commit known).
Qed.

(** A commit that was signed, with what goes with it. *)
Record signed_ok r l (sc : RepoCommit.SignedCommit) (leaves : gmap Cid bytes) : Prop := {
  sg_known : known (RepoCommit.block sc);
  sg_block : RepoCommit.from_cbor (RepoCommit.block sc) = Ok (RepoCommit.commit sc);
  sg_cid : RepoCommit.cid sc = compute Drisl (RepoCommit.block sc);
  sg_root : map_root l = Some (RepoCommit.data (RepoCommit.commit sc));
  sg_later h : head r = Some h -> RepoCommit.rev (head_commit h) < RepoCommit.rev (RepoCommit.commit sc);
  sg_leaves c data : leaves !! c = Some data -> records r !! c = Some data
}.

Lemma new_blocks_honest r l l0 sc ops leaves relevant : repo_ok r l l0 -> signed_ok r l sc leaves ->
  honest_blocks known (cd_new_blocks (commit_data r sc ops leaves relevant)).
Proof.
  intros Hr Hs. destruct (ok_blocks _ _ _ _ Hr) as (_ & Hb2 & Hb3). cbn. rewrite (sg_cid _ _ _ _ Hs). apply (honest_insert known); [apply Hs|].
  intros c data [Hc|[_ Hc]]%lookup_union_Some_raw Hcodec; [apply (sg_leaves _ _ _ _ Hs) in Hc; by apply Hb3|by apply Hb2].
Qed.

Lemma not_removed r l l0 sc ops leaves relevant c : repo_ok r l l0 -> c ∉ unsaved_retired (unsaved r) ->
  (forall h, head r = Some h -> c <> head_cid h) -> c ∉ cd_removed_cids (commit_data r sc ops leaves relevant).
Proof.
  intros Hr Hc Hh. cbn. unfold sort_cids, last_cid. rewrite elem_of_app, merge_sort_Permutation, elem_of_elements. intros [?|Hin]; [done|].
  destruct (head r) as [h|]; cbn in Hin; [|by apply elem_of_nil in Hin]. apply list_elem_of_singleton in Hin. by apply (Hh h).
Qed.

(** A store that took it. *)
Section Taken.
Context r l l0 (root : Cid) (sc : RepoCommit.SignedCommit) (ops : list RecordOp) (leaves relevant : gmap Cid bytes) (s' : S).
Hypothesis Hr : repo_ok r l l0.
Hypothesis Hf : flushed_repo r l root.
Hypothesis Hs : signed_ok r l sc leaves.
Let d := commit_data r sc ops leaves relevant.
Hypothesis Hat : store_at s' = Some (cd_cid d).
Hypothesis Hkept : forall c, c ∉ cd_removed_cids d -> store_blocks s' !! c = (cd_new_blocks d ∪ store_blocks (store r)) !! c.
Hypothesis Hgone : forall c, c ∈ cd_removed_cids d -> store_blocks s' !! c = None \/ store_blocks s' !! c = (cd_new_blocks d ∪ store_blocks (store r)) !! c.

Lemma taken_honest : honest_blocks known (store_blocks s').
Proof.
  intros c data Hc Hcodec. assert (Hu : (cd_new_blocks d ∪ store_blocks (store r)) !! c = Some data).
  { destruct (decide (c ∈ cd_removed_cids d)) as [Hin|Hin]; [destruct (Hgone c Hin) as [He|He]|pose proof (Hkept c Hin) as He]; congruence. }
  apply lookup_union_Some_raw in Hu as [Hn|[_ Ho]].
  - by apply (new_blocks_honest r l l0 sc ops leaves relevant Hr Hs c data).
  - by apply (proj1 (ok_blocks _ _ _ _ Hr) c data).
Qed.

(** What is to be there is there, but for the last commit's block. *)
Lemma taken_have c : have (store_blocks (store r)) (unsaved r) c -> (forall h, head r = Some h -> c <> head_cid h) -> is_Some (store_blocks s' !! c).
Proof.
  intros Hc Hh. assert (Hnr : c ∉ unsaved_retired (unsaved r)).
  { destruct Hc as [Hc|[_ Hc]]; [|done]. by apply (unsaved_apart _ _ (ok_unsaved _ _ _ _ Hr)). }
  rewrite (Hkept c) by (by eapply not_removed). rewrite lookup_union_is_Some. destruct Hc as [[b Hb]|[Hb _]]; [left|by right].
  cbn. destruct (decide (RepoCommit.cid sc = c)) as [->|Hne]; [rewrite lookup_insert_eq; by eexists|]. rewrite lookup_insert_ne by done.
  rewrite lookup_union_is_Some. right. by exists b.
Qed.

Lemma node_not_head c : node_cid_ok known c -> forall h, head r = Some h -> c <> head_cid h.
Proof.
  intros Hc h Hh. pose proof (ok_head _ _ _ _ Hr) as Hhd. rewrite Hh in Hhd. destruct Hhd as [Hst _].
  by apply (last_not_node (store r) h l0 c (proj1 (ok_blocks _ _ _ _ Hr)) Hst).
Qed.

Lemma taken_nodes h s : map_part l h s -> is_Some (store_blocks s' !! cid_of h s).
Proof.
  intros Hm. apply taken_have; [by apply (fr_have _ _ _ Hf)|]. apply node_not_head. by eapply map_part_node; [apply Hr|].
Qed.

(** The new commit's block is no node's and not the last commit's. *)
Lemma taken_commit : store_blocks s' !! RepoCommit.cid sc = Some (RepoCommit.block sc).
Proof.
  rewrite (Hkept (RepoCommit.cid sc)).
  { rewrite lookup_union. cbn. rewrite lookup_insert_eq. by destruct (store_blocks (store r) !! _). }
  eapply not_removed; [done| |].
  - intros (nd & Hrd & Hc)%(ok_retired _ _ _ _ Hr). rewrite (sg_cid _ _ _ _ Hs) in Hc.
    apply known_inj in Hc; [|apply Hs|apply Hrd]. apply (node_not_commit known nd (RepoCommit.commit sc) Hrd). rewrite <- Hc. apply Hs.
  - intros h Hh Hc. pose proof (ok_head _ _ _ _ Hr) as Hhd. rewrite Hh in Hhd. destruct Hhd as [[_ _ Hcodec (block & Hblock & Hfrom) _] _].
    destruct (proj1 (ok_blocks _ _ _ _ Hr) _ _ Hblock Hcodec) as [Hk Hcid]. rewrite (sg_cid _ _ _ _ Hs) in Hc.
    assert (RepoCommit.block sc = block) as Hsame by (apply known_inj; [apply Hs|done|congruence]).
    pose proof (sg_block _ _ _ _ Hs) as Hb. rewrite Hsame, Hfrom in Hb. pose proof (sg_later _ _ _ _ Hs h Hh) as Hlt.
    assert (head_commit h = RepoCommit.commit sc) as He by congruence. rewrite He in Hlt. lia.
Qed.

Lemma taken_stored : stored s' (MkHead (RepoCommit.cid sc) (RepoCommit.commit sc)) l.
Proof.
  pose proof (backed_stubs _ _ _ _ _ (ok_tree _ _ _ _ Hr)) as (_ & _ & Ho & Hv & _). split; cbn.
  - apply Hs.
  - done.
  - by rewrite (sg_cid _ _ _ _ Hs).
  - exists (RepoCommit.block sc). split; [apply taken_commit|apply Hs].
  - apply taken_nodes.
Qed.

Lemma taken_tree : backed known (have (store_blocks s') unsaved_default) l (tree r) l.
Proof.
  pose proof (ok_tree _ _ _ _ Hr) as Ht. pose proof (ok_map _ _ _ _ Hr) as Hm. pose proof (ok_last_map _ _ _ _ Hr) as Hm0.
  assert (Hhave : forall h s, map_part l h s -> have (store_blocks s') unsaved_default (cid_of h s)).
  { intros h s Hp. right. split; [by apply taken_nodes|by cbn]. }
  assert (Hheld : forall c, is_Some (refs (tree r) !! c) -> exists h s, map_part l h s /\ cid_of h s = c).
  { intros c Hc. assert (Hok : refs_ok (tree r)) by apply Ht. apply refs_ok_dom in Hc; [|done]. rewrite (fr_released _ _ _ Hf) in Hc.
    apply (tree_held_part known known_inj l0 Hm0 _ (tree r) l c (within_closed _) (backed_stubs _ _ _ _ _ Ht)). apply count_in. cbn in Hc. lia. }
  assert (Hbase : forall P Q, closed P -> stands l0 P (tree r) l -> (forall u h, u ∈ tree_stubs (tree r) -> piece_at l0 h u -> P h (piece_of l0 u) ->
     map_part l h (piece_of l0 u) -> Q h (piece_of l0 u)) -> stands l Q (tree r) l).
  { intros P Q HP Hst HQ. eapply (stands_rebase known known_inj l0 Hm0 l P Q); [|done|done]. intros u h Hu Hat' HPu.
    destruct (tree_stub_part known known_inj l0 Hm0 P (tree r) l u HP Hst Hu) as (h' & Hmp & Hat2 & _).
    rewrite (piece_at_height known known_inj l0 Hm0 h' h u Hat2 Hat') in Hmp. destruct Hat' as [Hm' Hc'].
    assert (Hpo : piece_of l u = piece_of l0 u) by (rewrite <- Hc' at 1; by apply (piece_of_cid known known_inj)).
    split; [done|]. split; [split; by rewrite Hpo|]. by apply HQ. }
  split.
  - eapply Hbase; [apply within_closed|apply Ht|]. intros u h _ _ _ Hmp h2 s2 Hp. apply Hhave. by eapply map_part_part.
  - apply Ht.
  - intros c Hc. eapply Hbase; [apply apart_closed|by apply Ht|done].
  - intros c (h & s & Hp & <-)%Hheld. by apply Hhave.
  - apply Ht.
Qed.

Lemma taken_ok : repo_ok (committed d (set_store s' r)) l l.
Proof.
  split; cbn [committed did tree store records staged unsaved head set_store].
  - apply Hr.
  - apply Hr.
  - apply Hr.
  - apply taken_tree.
  - apply unsaved_default_ok.
  - intros c Hc. cbn in Hc. set_solver.
  - split_and!; [apply taken_honest|..]; intros c data Hc; cbn in Hc; by rewrite lookup_empty in Hc.
  - apply staged_nil.
  - by intros ? ? ? ?%elem_of_nil.
  - split; [exact taken_stored|exact Hat].
Qed.
End Taken.

(** *** The commit *)

Section Commit.
Context {K V : Type} `{SigningLaws K V}.

Record committed_as r l l0 (key : K) (now : Z) (d : CommitData) : Prop := {
  ca_root : map_root l = Some (RepoCommit.data (cd_commit d));
  ca_signed : RepoCommit.verify (cd_commit d) (public_key key) = Ok ();
  ca_did : RepoCommit.did (cd_commit d) = did r;
  ca_rev : cd_rev d = coming_rev r now;
  ca_since : cd_since d = RepoCommit.rev <$> last_commit r;
  ca_later since : cd_since d = Some since -> since < cd_rev d;
  ca_prev : cd_prev d = last_cid r /\ cd_prev_data d = RepoCommit.data <$> last_commit r;
  ca_ops : exists keys, exact_ops l0 l (cd_ops d) keys
}.

(** The blocks the store keeps: those it had and the written records', but
    for nodes and the commit before. *)
Definition keeps_blocks r r' (d : CommitData) : Prop := forall c, ~ node_cid_ok known c -> last_cid r <> Some c ->
  is_Some (store_blocks (store r) !! c) \/ (exists op, op ∈ cd_ops d /\ op_cid op = Some c) -> is_Some (store_blocks (store r') !! c).

Lemma flush_step {A} r l l0 (k : TreeWrite -> st (Repo S) RepoError A) Q : repo_ok r l l0 ->
  (forall r' w, repo_ok r' l l0 -> flushed_repo r' l (w_root w) -> same_repo r r' -> clock r' = clock r -> run_ok (k w) r' l l0 Q) ->
  run_ok (write ← in_tree (fun _ => flush); _ ← modify (fun r => set_unsaved (keep_write write (unsaved r)) r); k write) r l l0 Q.
Proof.
  intros Hr Hk. pose proof (flush_run r l l0 Hr) as Hf. unfold RepoSpec.run_ok, mbind, st_bind in *.
  destruct (in_tree (fun _ => flush) r) as [[w|e|] r1]; [|done..]. cbn in *. destruct Hf as (Hr1 & Hf1 & Hs1 & Hc1). by apply Hk.
Qed.

Lemma read_step {A B} r l l0 (f : Repo S -> res RepoError A) (k : A -> st (Repo S) RepoError B) Q : repo_ok r l l0 -> no_panic (f r) ->
  (forall a, f r = Ok a -> run_ok (k a) r l l0 Q) -> run_ok (a ← reads f; k a) r l l0 Q.
Proof.
  intros Hr Hp Hk. unfold RepoSpec.run_ok, reads, mbind, st_bind. destruct (f r) as [a|e|]; [by apply Hk|done..].
Qed.

Lemma get_step {A B} r l l0 (f : Repo S -> A) (k : A -> st (Repo S) RepoError B) Q : run_ok (k (f r)) r l l0 Q -> run_ok (a ← gets f; k a) r l l0 Q.
Proof. done. Qed.

Lemma repo_run_weaken {A} (m : st (Repo S) RepoError A) r l l0 (Q R : Repo S -> A -> Prop) : run_ok m r l l0 Q -> (forall r' a, Q r' a -> R r' a) -> run_ok m r l l0 R.
Proof. unfold RepoSpec.run_ok. destruct (m r) as [[a|e|] r']; auto. Qed.

Lemma save_run r l l0 root sc ops leaves relevant : repo_ok r l l0 -> flushed_repo r l root -> signed_ok r l sc leaves ->
  let d := commit_data r sc ops leaves relevant in
  run_ok (_ ← save_commit d; _ ← modify (committed d); mret d) r l l0 (fun r' a => a = d /\ repo_ok r' l l /\ exists s', r' = committed d (set_store s' r) /\
    forall c, ~ node_cid_ok known c -> last_cid r <> Some c -> is_Some (store_blocks (store r) !! c) \/ is_Some (leaves !! c) -> is_Some (store_blocks s' !! c)).
Proof.
  intros Hr Hf Hs d. unfold RepoSpec.run_ok, save_commit, modify, mbind, st_bind. pose proof (apply_commit_law d (store r)) as Hlaw.
  destruct (apply_commit d (store r)) as [[[]|e|] s']; cbn [storage map_err]; [| |done].
  - destruct Hlaw as (Hat & Hkept & Hgone). cbn. split; [done|]. split; [by eapply taken_ok|]. exists s'. split; [done|]. intros c Hn Hlast Hc.
    rewrite (Hkept c).
    2: { eapply not_removed; [done| |].
      - intros Hret. by apply Hn, (ok_retired _ _ _ _ Hr).
      - intros h Hh ->. apply Hlast. unfold last_cid. by rewrite Hh. }
    rewrite lookup_union_is_Some. destruct Hc as [Hc|Hc]; [by right|left]. cbn.
    destruct (decide (RepoCommit.cid sc = c)) as [->|Hne]; [rewrite lookup_insert_eq; by eexists|]. rewrite lookup_insert_ne by done.
    rewrite lookup_union_is_Some. by left.
  - destruct Hlaw as (Hat & Hblocks). eapply refused_ok; [done| |exact Hat|exact Hblocks]. by eapply new_blocks_honest.
Qed.

Lemma coming_rev_same r r' now : clock r' = clock r -> head r' = head r -> coming_rev r' now = coming_rev r now.
Proof. intros Hc Hh. unfold coming_rev, last_commit. by rewrite Hc, Hh. Qed.

Lemma commit_run r l l0 (key : K) now : repo_ok r l l0 ->
  (forall root sc, map_root l = Some root -> RepoCommit.create_signed (did r) (coming_rev r now) root key = Ok sc -> known (RepoCommit.block sc)) ->
  run_ok (commit key now) r l l0 (fun r' d => repo_ok r' l l /\ head r' = Some (MkHead (cd_cid d) (cd_commit d)) /\ committed_as r l l0 key now d /\ keeps_blocks r r' d).
Proof.
  intros Hr Hknown. unfold commit. apply flush_step; [done|]. intros r1 w Hr1 Hf1 Hs1 Hc1.
  eapply repo_run_bind; [by eapply proof_run|]. intros r2 nodes (Hr2 & Hf2 & Hs2 & Hc2).
  destruct (commit_ops_eq (records r2) (staged r2) [] ∅ (ok_records _ _ _ _ Hr2)) as (leaves & Hops & Hleaves).
  apply read_step; [done|by rewrite Hops|]. intros [ops leaves'] He. rewrite Hops in He. injection He as <- <-.
  apply read_step; [done| |].
  { pose proof (read_blocks_ok (overlay_of r2) nodes leaves (overlay_no_panic _ _)) as Hb. unfold no_panic. by destruct (read_blocks _ _ _). }
  intros relevant _. pose proof (next_rev_run r2 now) as Hrev.
  unfold RepoSpec.run_ok at 1. unfold mbind at 1, st_bind at 1. destruct (next_rev now r2) as [[rev|e|] r3]; destruct Hrev as [[clk ->] Hrev];
    [|by apply repo_ok_clock|done]. destruct Hrev as [-> Hlater].
  assert (Hsame : did r2 = did r /\ head r2 = head r /\ clock r2 = clock r).
  { destruct Hs1 as [? _ _ _ ?], Hs2 as [? _ _ _ ?]. split_and!; congruence. }
  destruct Hsame as (Hdid & Hhead & Hclock). rewrite (coming_rev_same r r2) in * by done.
  destruct (ok_did _ _ _ _ Hr2) as (raw & Hraw & Hparse).
  assert (Hwf : cid_wf (w_root w)).
  { destruct (map_root_part _ _ (fr_root _ _ _ Hf2)) as (h & _ & <- & _). split; [apply sha256_length|apply sha256_u8]. }
  pose proof (RepoCommit.create_signed_ok raw (did r2) (coming_rev r now) (w_root w) key Hraw Hparse (coming_rev_u64 _ _) Hwf) as Hsig.
  specialize (Hknown (w_root w)). rewrite <- Hdid in Hknown. apply (repo_ok_clock r2 l l0 clk) in Hr2 as Hr3.
  apply read_step; [done| |]; cbn [did set_clock].
  { unfold no_panic. by destruct (RepoCommit.create_signed _ _ _ _). }
  intros sc Hsc. rewrite Hsc in Hsig. destruct Hsig as (Hver & Hfrom & Hcid & Hscd & Hscr & Hscdata & _ & _).
  assert (Hsg : signed_ok (set_clock clk r2) l sc leaves).
  { split; [by apply Hknown; [apply Hf2|]|done|done|rewrite Hscdata; apply Hf2|rewrite Hscr; exact Hlater|].
    intros c data Hc. destruct Hleaves as (Hl1 & _). destruct (Hl1 c data Hc) as [He|?]; [by rewrite lookup_empty in He|done]. }
  apply get_step. eapply repo_run_weaken; [apply (save_run (set_clock clk r2) l l0 (w_root w)); [done|by split; apply Hf2|done]|].
  intros r' d (-> & Hr' & s' & -> & Hkeep). split; [done|]. split; [done|]. set (d := commit_data _ _ _ _ _).
  assert (Hlast : last_commit r2 = last_commit r) by (unfold last_commit; by rewrite Hhead).
  assert (Hcid2 : last_cid r2 = last_cid r) by (unfold last_cid; by rewrite Hhead).
  assert (Hstore : store r2 = store r) by (destruct Hs1 as [_ ? _ _ _], Hs2 as [_ ? _ _ _]; congruence).
  split.
  2: { intros c Hn Hl0 Hc. apply Hkeep; [done|by rewrite <- Hcid2 in Hl0|]. destruct Hc as [Hc|(op & Hop & Hc)]; [left; cbn; by rewrite Hstore|right].
    cbn in Hop. apply list_elem_of_omap in Hop as ([k st] & Hin & Hop). unfold staged_op in Hop. cbn [snd] in Hop.
    destruct (staged_action st) as [act|] eqn:Hact; [|done]. injection Hop as <-. cbn in Hc. apply (proj2 (proj2 Hleaves) k st c); [done| |done].
    unfold staged_action in Hact. by case_bool_decide. }
  split; cbn -[last_commit last_cid]; change (last_commit (set_clock clk r2)) with (last_commit r2); change (last_cid (set_clock clk r2)) with (last_cid r2); rewrite ?Hlast, ?Hcid2; try done.
  - rewrite Hscdata. apply Hf2.
  - by rewrite Hscd.
  - intros since. rewrite fmap_Some. intros (c & Hc & ->). apply fmap_Some in Hc as (h & Hh & ->). unfold cd_rev. cbn.
    rewrite Hscr. apply Hlater. by rewrite Hhead.
  - exists (omap op_key (staged r2)). apply staged_exact, Hr2.
Qed.
End Commit.
End Save.
