(* ===== verification/RepoDurable.v ===== *)
(** The records of a repository: what was written can be read, from memory
    until it is committed and from storage after, if the blocks of records are
    not those of nodes or commits.

    Opening a repository: a store that holds a commit and its tree is opened
    as a repository of that tree's records. *)
From S2P Require Import Prelude StateError SyntaxError CborError Cid CborDecode Crypto.
From S2P Require Import MstHeight SortedMap MstNode MstTree MstShape MstFlush MstLoad MstDetached MstProof MstDetachedSpec MstFlushed MstMap MstPieces MstStored MstBacked.
From S2P Require Import RepoStore Repo RepoSpec RepoSave.
From S2P Require Did Nsid RecordKey Tid RepoCommit RepoProof.
Import RepoCommit (RepoError(..), commit_error, repo_of_mst).

Section Open.
Context `{Simdutf8Laws} `{Sha2Laws} {S : Type} `{RepoStoreLaws S} (known : bytes -> Prop).
Hypothesis known_inj : collision_free known.

Lemma map_root_height l c : map_root l = Some c -> map_part l (tree_height l) l /\ cid_of (tree_height l) l = c.
Proof.
  intros (h & Hm & Hc & Hh)%map_root_part. destruct l as [|e l].
  - destruct Hm as [(_ & -> & _)|[? _]]; [|done]. by split; [left|].
  - rewrite <- Hh by done. done.
Qed.

(** The root alone, with all its tree in storage. *)
Lemma load_backed (X : Cid -> Prop) l c : map_ok known l -> ordered l -> Forall (fun e => is_valid_key e.1 = true) l -> map_root l = Some c ->
  (forall h s, map_part l h s -> X (cid_of h s)) -> backed known X l (load_tree c) l.
Proof.
  intros Hl Ho Hv Hroot HX. destruct (map_root_height l c Hroot) as [Hm Hc].
  assert (Hpiece : piece_of l c = l) by (rewrite <- Hc; by apply (piece_of_cid known known_inj)).
  assert (Hst : forall P, closed P -> P (tree_height l) l -> stands l P (load_tree c) l).
  { intros P HP Hp. pose proof (stubs_of_laws known known_inj l P Hl HP) as HL.
    apply (load_stands_for (H3 := stubs_of l P)); [done|done|done|exact Hpiece|]. cbn. unfold piece_at. by rewrite Hpiece. }
  assert (Hrefs : forall d, is_Some (refs (load_tree c) !! d) -> d = c).
  { intros d [k Hk]. cbn in Hk. by apply lookup_singleton_Some in Hk as [-> _]. }
  split.
  - apply Hst; [apply within_closed|]. intros h2 s2 Hp. apply HX. by eapply map_part_part.
  - constructor; [intros _|]; by intros m ?%elem_of_nil.
  - intros d ->%Hrefs. apply Hst; [apply apart_closed|]. intros h2 s2 Hb Heq.
    assert (Hm2 : map_part l h2 s2) by (eapply map_part_part; [exact Hm|by apply below_is_part]).
    destruct (map_part_inj known known_inj l l h2 (tree_height l) s2 l Hl Hl Hm2 Hm ltac:(congruence)) as [_ Hh].
    apply below_lower in Hb; [lia|]. by eapply map_part_low.
  - intros d ->%Hrefs. rewrite <- Hc. by apply HX.
  - intros d ->%Hrefs. rewrite <- Hc. by eapply map_part_node.
Qed.

Lemma did_u8 raw d : Did.try_from raw = Ok d -> Forall is_u8 raw.
Proof.
  unfold Did.try_from. intros ([] & Hv & _)%res_bind_Ok. apply Did.validate_sound in Hv as (m & i & [-> _ [_ Hm] [_ Hi] _]).
  apply Forall_app. split; [by repeat constructor|]. apply Forall_app. split.
  - eapply Forall_impl; [exact Hm|]. cbn. intros b. ascii_lia.
  - constructor; [done|]. eapply Forall_impl; [exact Hi|]. cbn. unfold Did.is_did_ident_char. intros b. ascii_lia.
Qed.

Lemma clock_id_new t : exists id, Tid.clock_new (Tid.clock_id t) = Ok (0, id).
Proof.
  unfold Tid.clock_new, Tid.clock_id. assert (Hle : as_u16 (Z.land t 0x3FF) < 1024).
  { change 0x3FF with (Z.ones 10). rewrite Z.land_ones by lia. unfold as_u16. pose proof (Z.mod_pos_bound t (2 ^ 10) ltac:(lia)).
    rewrite Z.mod_small; [lia|]. change (2 ^ 10) with 1024 in *. lia. }
  destruct (Z.leb_spec 1024 (as_u16 (Z.land t 0x3FF))); [lia|by eexists].
Qed.

Lemma open_run (s : S) h l : honest_blocks known (store_blocks s) -> map_ok known l -> stored s h l -> store_at s = Some (head_cid h) ->
  match open s with
  | Ok r => repo_ok known r l l /\ store r = s /\ head r = Some h /\ did r = RepoCommit.did (head_commit h)
  | Err e => exists m, e = RepoStorage m
  | Panic => False
  end.
Proof.
  intros Hb Hl Hst Hat. unfold open. pose proof (store_head_law s) as Hhead. destruct (store_head s) as [v|m|]; [|by exists m|done].
  rewrite Hat in Hhead. subst v. cbn [storage map_err mbind res_bind ok_or].
  pose proof Hst as [Hroot [Ho Hv] Hcodec (block & Hblock & Hfrom) Hnodes].
  unfold stored_block. pose proof (get_block_law s (head_cid h)) as Hget. destruct (get_block s (head_cid h)) as [v|m|]; [|by exists m|done].
  rewrite Hblock in Hget. subst v. cbn [storage map_err mbind res_bind ok_or]. rewrite Hfrom. cbn [mbind res_bind].
  destruct (clock_id_new (RepoCommit.rev (head_commit h))) as [id ->]. cbn [map_err mbind res_bind].
  split; [|by split; [|split; [by destruct h|]]]. split; cbn [did tree store records staged unsaved head].
  - destruct (RepoCommit.from_cbor_did block _ Hfrom) as [raw Hraw]. exists raw. split; [by eapply did_u8|done].
  - done.
  - done.
  - apply load_backed; [done..|]. intros hh p Hp. right. split; [by apply Hnodes|by cbn].
  - apply unsaved_default_ok.
  - intros c Hc. cbn in Hc. set_solver.
  - split_and!; [done|..]; intros c data Hc; cbn in Hc; by rewrite lookup_empty in Hc.
  - apply staged_nil.
  - by intros ? ? ? ?%elem_of_nil.
  - split; [by destruct h|done].
Qed.
End Open.

Section Durable.
Context `{Simdutf8Laws} `{Sha2Laws} {S : Type} `{RepoStoreLaws S} (known : bytes -> Prop).
Hypothesis known_inj : collision_free known.
Implicit Types (r : Repo S) (l : kvs).

Abbreviation repo_ok := (repo_ok known).

(** A record that is neither a node nor a commit. *)
Definition plain (data : bytes) : Prop :=
  known data /\ (forall nd, readable known nd -> node_block nd <> data) /\ forall c, RepoCommit.from_cbor data <> Ok c.

Definition plain_cid (c : Cid) : Prop := exists data, plain data /\ c = compute Drisl data.

Lemma plain_not_node c : plain_cid c -> ~ node_cid_ok known c.
Proof.
  intros (data & (Hk & Hn & _) & ->) (nd & Hrd & Hc). apply (Hn nd Hrd). symmetry. apply known_inj; [done|apply Hrd|done].
Qed.

Lemma plain_not_head r l l0 c : repo_ok r l l0 -> plain_cid c -> last_cid r <> Some c.
Proof.
  intros Hr (data & (Hk & _ & Hc) & ->) Hlast. unfold last_cid in Hlast. apply fmap_Some in Hlast as (h & Hh & Hcid).
  pose proof (ok_head _ _ _ _ Hr) as Hhd. rewrite Hh in Hhd. destruct Hhd as [[_ _ Hcodec (block & Hblock & Hfrom) _] _].
  destruct (proj1 (ok_blocks _ _ _ _ Hr) _ _ Hblock Hcodec) as [Hkb Hcb].
  apply (Hc (head_commit h)). rewrite <- Hfrom. f_equal. apply known_inj; [done..|congruence].
Qed.

(** The blocks of the records of [l] are at hand, and those of [l0] stored. *)
Record durable r l l0 : Prop := {
  dur_plain key c : SortedMap.get key l = Some c -> plain_cid c;
  dur_now key c : SortedMap.get key l = Some c -> is_Some (records r !! c) \/ is_Some (store_blocks (store r) !! c);
  dur_last key c : SortedMap.get key l0 = Some c -> plain_cid c /\ is_Some (store_blocks (store r) !! c)
}.

(** *** Methods that add blocks *)

Definition grows r r' : Prop :=
  (forall c, is_Some (records r !! c) -> is_Some (records r' !! c)) /\
  forall c, is_Some (store_blocks (store r) !! c) -> is_Some (store_blocks (store r') !! c).

Lemma grows_refl r : grows r r.
Proof. done. Qed.

Lemma grows_trans r1 r2 r3 : grows r1 r2 -> grows r2 r3 -> grows r1 r3.
Proof. intros [H1' H2'] [H3' H4']. split; auto. Qed.

Lemma durable_grows r r' l l0 : durable r l l0 -> grows r r' -> durable r' l l0.
Proof.
  intros [H1' H2' H3'] [Hg1 Hg2]. split; [done|intros key c Hc; destruct (H2' key c Hc); auto|].
  intros key c Hc. destruct (H3' key c Hc). auto.
Qed.

Definition growing {A} (m : st (Repo S) RepoError A) : Prop := forall r, grows r (m r).2.
Definition grows_on_error {A} (m : st (Repo S) RepoError A) : Prop := forall r e r', m r = (Err e, r') -> grows r r'.

Lemma growing_bind {A B} (m : st (Repo S) RepoError A) (f : A -> st (Repo S) RepoError B) : growing m -> (forall a, growing (f a)) -> growing (m ≫= f).
Proof.
  intros Hm Hf r. unfold mbind, st_bind. specialize (Hm r). destruct (m r) as [[a|e|] r1]; [|done..]. eapply grows_trans; [exact Hm|apply Hf].
Qed.

Lemma grows_on_error_bind {A B} (m : st (Repo S) RepoError A) (f : A -> st (Repo S) RepoError B) :
  growing m -> (forall a, grows_on_error (f a)) -> grows_on_error (m ≫= f).
Proof.
  intros Hm Hf r e r'. unfold mbind, st_bind. specialize (Hm r). destruct (m r) as [[a|e'|] r1]; [|by intros [= _ <-]|done].
  intros Hrun. eapply grows_trans; [exact Hm|by eapply Hf].
Qed.

Lemma on_store_growing {A} (m : Source -> method A) : growing (on_store m).
Proof. intros r. unfold on_store, in_tree. by destruct (m _ _). Qed.

Lemma in_tree_growing {A} (m : Repo S -> method A) : growing (in_tree m).
Proof. intros r. unfold in_tree. by destruct (m _ _). Qed.

Lemma put_growing collection rkey key record : growing (put collection rkey key record).
Proof.
  apply growing_bind; [apply on_store_growing|]. intros prev. apply growing_bind.
  { intros r. split; [|done]. cbn. intros c Hc. destruct (decide (compute Drisl record = c)) as [->|Hne];
      [rewrite lookup_insert_eq; by eexists|by rewrite lookup_insert_ne]. }
  intros _. apply growing_bind; [done|]. by intros _.
Qed.

Lemma delete_growing collection rkey : growing (delete collection rkey).
Proof.
  apply growing_bind; [done|]. intros key. apply growing_bind; [apply on_store_growing|]. by intros [prev|].
Qed.

Lemma put_keeps collection rkey key record r cid r' : put collection rkey key record r = (Ok cid, r') -> is_Some (records r' !! cid).
Proof.
  unfold put, mbind, st_bind. destruct (on_store _ r) as [[prev|e|] r1]; [|done..]. cbn. intros [= <- <-]. cbn. rewrite lookup_insert_eq. by eexists.
Qed.

Lemma put_cid collection rkey key record r cid r' : put collection rkey key record r = (Ok cid, r') -> cid = compute Drisl record.
Proof. unfold put, mbind, st_bind. destruct (on_store _ r) as [[prev|e|] r1]; [|done..]. cbn. by intros [= <- _]. Qed.

Lemma next_rev_growing now : growing (next_rev now : st (Repo S) RepoError Z).
Proof.
  intros r. pose proof (next_rev_run r now) as Hn. destruct (next_rev now r) as [a r']. by destruct Hn as [[c ->] _].
Qed.

Lemma save_on_error (d : CommitData) : grows_on_error (save_commit d).
Proof.
  intros r e r'. unfold save_commit. pose proof (apply_commit_law d (store r)) as Hl. destruct (apply_commit d (store r)) as [[[]|m|] s']; cbn; [done| |done].
  intros [= _ <-]. split; [done|]. cbn. intros c [b Hb]. destruct (proj2 Hl c) as [->|[Hn _]]; [by exists b|congruence].
Qed.

(** *** Reading *)

Lemma durable_get r l l0 collection rkey key : repo_ok r l l0 -> durable r l l0 -> mst_key collection rkey = Ok key ->
  let '(a, r') := get collection rkey r in
  durable r' l l0 /\ match a with Err e => of_tree e \/ exists m, e = RepoStorage m | _ => True end.
Proof.
  intros Hr Hd Hk. unfold get. rewrite (st_bind_run _ _ r key r) by (unfold lift; by rewrite Hk).
  pose proof (tree_get_run known known_inj r l l0 key Hr) as Hget. pose proof (on_store_growing (fun src => MstDetached.get src key) r) as Hg.
  unfold run_ok, mbind, st_bind in *. destruct (on_store _ r) as [[found|e|] r1] eqn:Hrun; cbn [snd] in Hg.
  2: { split; [by eapply durable_grows|]. left. by eapply on_store_error. }
  2: { done. }
  destruct Hget as (Hr1 & _ & _ & ->). apply (durable_grows _ _ _ _ Hd) in Hg as Hd1.
  destruct (SortedMap.get key l) as [c|] eqn:Hc; [|done]. unfold reads. cbv beta iota.
  pose proof (dur_now _ _ _ Hd1 key c Hc) as Hnow. destruct (records r1 !! c) as [data|]; [done|].
  destruct Hnow as [[? ?]|[b Hb]]; [done|]. unfold stored_block. pose proof (get_block_law (store r1) c) as Hl.
  destruct (get_block (store r1) c) as [v|m|]; [rewrite Hl, Hb; cbn; by split|cbn; split; [done|right; by eexists]|done].
Qed.

(** *** Writing *)

Lemma durable_upsert r r' l l0 key c : ordered l -> durable r l l0 -> grows r r' -> plain_cid c -> is_Some (records r' !! c) ->
  durable r' (upsert key c l) l0.
Proof.
  intros Ho Hd Hg Hp Hc. destruct (durable_grows _ _ _ _ Hd Hg) as [H1' H2' H3']. split; [| |done].
  - intros k d. rewrite get_upsert by done. case_decide; [by intros [= <-]|apply H1'].
  - intros k d. rewrite get_upsert by done. case_decide; [intros [= <-]; by left|apply H2'].
Qed.

Lemma durable_without r r' l l0 key : ordered l -> durable r l l0 -> grows r r' -> durable r' (without key l) l0.
Proof.
  intros Ho Hd Hg. destruct (durable_grows _ _ _ _ Hd Hg) as [H1' H2' H3']. split; [| |done].
  - intros k d. rewrite get_without by done. case_decide; [done|apply H1'].
  - intros k d. rewrite get_without by done. case_decide; [done|apply H2'].
Qed.

(** *** Committing *)

Section Commit.
Context {K V : Type} `{SigningLaws K V}.

Lemma commit_on_error (key : K) now : grows_on_error (commit (S := S) key now).
Proof.
  assert (Hid : forall A (f : Repo S -> res RepoError A), growing (reads f)) by done.
  apply grows_on_error_bind; [apply in_tree_growing|]. intros w. apply grows_on_error_bind; [done|]. intros _.
  apply grows_on_error_bind; [apply in_tree_growing|]. intros nodes. apply grows_on_error_bind; [done|]. intros [ops leaves].
  apply grows_on_error_bind; [done|]. intros relevant. apply grows_on_error_bind; [apply next_rev_growing|]. intros rev.
  apply grows_on_error_bind; [done|]. intros sc. apply grows_on_error_bind; [done|]. intros d.
  intros r e r' Hrun. pose proof (save_on_error d r) as Hs. unfold mbind, st_bind in Hrun.
  destruct (save_commit d r) as [[[]|e'|] r1]; [done| |done]. injection Hrun as _ <-. by eapply Hs.
Qed.

Lemma durable_committed r l l0 (d : CommitData) r' (keys : list bytes) : repo_ok r l l0 -> durable r l l0 -> exact_ops l0 l (cd_ops d) keys -> keeps_blocks known r r' d ->
  durable r' l l.
Proof.
  intros Hr Hd Hops Hkeep.
  assert (Hst : forall key c, SortedMap.get key l = Some c -> is_Some (store_blocks (store r') !! c)).
  { intros key c Hc. pose proof (dur_plain _ _ _ Hd key c Hc) as Hp.
    apply Hkeep; [by apply plain_not_node|by eapply plain_not_head|].
    destruct (decide (SortedMap.get key l0 = SortedMap.get key l)) as [He|Hne].
    - left. apply (dur_last _ _ _ Hd key c). congruence.
    - right. apply (ops_keys _ _ _ _ Hops) in Hne. apply list_elem_of_lookup in Hne as [i Hi].
      destruct (Forall2_lookup_r _ _ _ _ _ (ops_values _ _ _ _ Hops) Hi) as (op & Hop & _ & Hcid & _).
      exists op. split; [by apply list_elem_of_lookup; exists i|congruence]. }
  split; [apply Hd|intros key c Hc; right; by eapply Hst|].
  intros key c Hc. split; [by eapply (dur_plain _ _ _ Hd)|by eapply Hst].
Qed.

Lemma durable_commit r l l0 (key : K) now : repo_ok r l l0 -> durable r l l0 ->
  (forall root sc, map_root l = Some root -> RepoCommit.create_signed (did r) (coming_rev r now) root key = Ok sc -> known (RepoCommit.block sc)) ->
  let '(a, r') := commit key now r in match a with Ok _ => durable r' l l | Err _ => durable r' l l0 | Panic => False end.
Proof.
  intros Hr Hd Hkn. pose proof (commit_run known known_inj r l l0 key now Hr Hkn) as Hc. pose proof (commit_on_error key now r) as He.
  unfold run_ok in Hc. destruct (commit key now r) as [[d|e|] r']; [| |done].
  - destruct Hc as (_ & _ & Hca & Hkeep). destruct (ca_ops _ _ _ _ _ _ Hca) as [keys Hops]. by eapply durable_committed.
  - eapply durable_grows; [done|by eapply He].
Qed.
End Commit.

(** *** Opening *)

Lemma durable_open r l l0 r' : durable r l l0 -> store r' = store r -> durable r' l0 l0.
Proof.
  intros [_ _ H3'] Hs. split; intros key c Hc; rewrite ?Hs; [by eapply H3'|right; by eapply H3'|by eapply H3'].
Qed.

End Durable.
