(* ===== verification/RepoBatch.v ===== *)
(** Batches of writes, [Repo::apply_writes]: a batch with an invalid write
    changes nothing, and one that is valid is applied in order and committed. *)
From S2P Require Import Prelude StateError SyntaxError CborError Cid CborDecode Crypto.
From S2P Require Import MstHeight SortedMap MstNode MstTree MstShape MstFlush MstLoad MstDetached MstProof MstPieces MstStored MstBacked.
From S2P Require Import RepoStore Repo RepoSpec RepoSave RepoDurable.
From S2P Require Did Nsid RecordKey Tid RepoCommit RepoProof.
Import RepoCommit (RepoError(..), commit_error, repo_of_mst).

(** ** The reference: writes on a map *)

Definition write_to `{Sha2} (w : WriteOp) (key : bytes) (l : kvs) : kvs :=
  match w with
  | WriteCreate _ _ record | WriteUpdate _ _ record => upsert key (compute Drisl record) l
  | WriteDelete _ _ => without key l
  end.

Definition present (key : bytes) (l : kvs) : bool := bool_decide (is_Some (SortedMap.get key l)).

(** The error of a write whose key is there, or is not. *)
Definition write_refusal (w : WriteOp) (key : bytes) (l : kvs) : option RepoError :=
  match w, SortedMap.get key l with
  | WriteCreate _ _ _, Some _ => Some (RecordExists key)
  | WriteUpdate _ _ _, None | WriteDelete _ _, None => Some (RecordNotFound key)
  | _, _ => None
  end.

(** Every write meets the map that those before it leave. *)
Fixpoint batch `{Sha2} (writes : list (WriteOp * bytes)) (l : kvs) : res RepoError kvs :=
  match writes with
  | [] => Ok l
  | (w, key) :: writes => match write_refusal w key l with Some e => Err e | None => batch writes (write_to w key l) end
  end.

(** The errors that refuse a write. *)
Definition refuses (e : RepoError) : Prop := exists key, e = RecordExists key \/ e = RecordNotFound key.

Lemma check_write_spec w key l : check_write w key (present key l) =
  match write_refusal w key l with Some e => Err e | None => Ok (negb (is_delete w)) end.
Proof. unfold present. destruct w; cbn; by destruct (SortedMap.get key l). Qed.

(** The map after the first writes of a batch. *)
Definition written_to `{Sha2} (writes : list (WriteOp * bytes)) (l : kvs) : kvs := foldl (fun l w => write_to w.1 w.2 l) l writes.

Lemma batch_Ok `{Sha2} writes l l' : batch writes l = Ok l' -> l' = written_to writes l.
Proof.
  revert l. induction writes as [|[w key] writes IH]; intros l; cbn [batch written_to foldl]; [by intros [= <-]|].
  destruct (write_refusal w key l); [done|]. apply IH.
Qed.

Lemma batch_no_panic `{Sha2} writes l : batch writes l <> Panic.
Proof. revert l. induction writes as [|[w key] writes IH]; intros l; cbn [batch]; [done|]. by destruct (write_refusal w key l). Qed.

Lemma write_to_after `{Sha2} w key l : ordered l ->
  negb (is_delete w) = present key (write_to w key l) /\ forall j, j <> key -> SortedMap.get j (write_to w key l) = SortedMap.get j l.
Proof.
  intros Ho. unfold present. destruct w; cbn [write_to is_delete negb]; (split; [|intros j Hj]);
    rewrite ?get_upsert, ?get_without by done; rewrite ?decide_True, ?decide_False by done; done.
Qed.

Lemma write_to_ordered `{Sha2} w key l : ordered l -> ordered (write_to w key l).
Proof. destruct w; cbn; intros; by apply ordered_upsert || apply ordered_without. Qed.

Section Batch.
Context `{Simdutf8Laws} `{Sha2Laws} {S : Type} `{RepoStoreLaws S} (known : bytes -> Prop).
Hypothesis known_inj : collision_free known.
Implicit Types (r : Repo S) (l : kvs).

Abbreviation repo_ok := (repo_ok known).
Abbreviation run_ok := (run_ok known).

(** *** The check *)

(** What the check has learnt is true of the map [l1] the writes so far leave. *)
Definition learnt (exists_ : gmap bytes bool) l l1 : Prop := forall key,
  match exists_ !! key with Some b => b = present key l1 | None => SortedMap.get key l1 = SortedMap.get key l end.

Definition reads_only r r' : Prop := exists t, r' = set_tree t r.

Lemma reads_only_refl r : reads_only r r.
Proof. exists (tree r). by destruct r. Qed.

Lemma reads_only_trans r1 r2 r3 : reads_only r1 r2 -> reads_only r2 r3 -> reads_only r1 r3.
Proof. intros [t ->] [t' ->]. by exists t'. Qed.

Lemma on_store_reads {A} (m : Source -> method A) r : reads_only r (on_store m r).2.
Proof. unfold on_store, in_tree. destruct (m _ _) as [a t']. by exists t'. Qed.

(** A method that leaves the map alone and fails with an error of the tree's. *)
Definition looks {A} (m : st (Repo S) RepoError A) r l l0 (Q : A -> Prop) (R : RepoError -> Prop) : Prop :=
  let '(a, r') := m r in repo_ok r' l l0 /\ reads_only r r' /\ match a with Ok a => Q a | Err e => R e | Panic => False end.

Lemma looks_bind {A B} (m : st (Repo S) RepoError A) (f : A -> st (Repo S) RepoError B) r l l0 Q Q' R : looks m r l l0 Q R ->
  (forall a r', repo_ok r' l l0 -> Q a -> looks (f a) r' l l0 Q' R) -> looks (m ≫= f) r l l0 Q' R.
Proof.
  unfold looks, mbind, st_bind. destruct (m r) as [[a|e|] r1]; intros (Hr & Ht & Hq) Hf; [|done..]. specialize (Hf a r1 Hr Hq).
  destruct (f a r1) as [b r2]. destruct Hf as (Hr2 & Ht2 & Hb). split; [done|]. split; [by eapply reads_only_trans|done].
Qed.

Lemma looks_ret {A} (a : A) r l l0 (Q : A -> Prop) R : repo_ok r l l0 -> Q a -> looks (mret a) r l l0 Q R.
Proof. intros Hr Hq. split; [done|]. split; [apply reads_only_refl|done]. Qed.

Lemma looks_weaken {A} (m : st (Repo S) RepoError A) r l l0 (Q Q' : A -> Prop) (R R' : RepoError -> Prop) : looks m r l l0 Q R ->
  (forall a, Q a -> Q' a) -> (forall e, R e -> R' e) -> looks m r l l0 Q' R'.
Proof. unfold looks. destruct (m r) as [[a|e|] r']; intros (Hr & Ht & Hq) Hw Hw'; split_and!; auto. Qed.

Lemma on_store_looks {A} (m : Source -> method A) r l l0 Q : repo_ok r l l0 ->
  run_ok (on_store m) r l l0 (fun r' a => repo_ok r' l l0 /\ exists t', r' = set_tree t' r /\ Q a) -> looks (on_store m) r l l0 Q of_tree.
Proof.
  intros Hr Hm. pose proof (on_store_reads m r) as Ht. unfold looks, RepoSpec.run_ok in *. pose proof (on_store_error m r) as He.
  destruct (on_store m r) as [[a|e|] r']; cbn [snd] in Ht; [|split_and!; [done..|by eapply He]|done].
  destruct Hm as (Hr' & t' & _ & Hq). by split_and!.
Qed.

Lemma tree_get_looks r l l0 key : repo_ok r l l0 ->
  looks (on_store (fun src => MstDetached.get src key)) r l l0 (fun found => found = SortedMap.get key l) of_tree.
Proof. intros Hr. apply on_store_looks; [done|]. by apply (tree_get_run known known_inj). Qed.

Lemma check_writes_run writes exists_ r l l0 l1 : repo_ok r l l0 -> ordered l1 -> learnt exists_ l l1 ->
  looks (check_writes writes exists_) r l l0 (fun _ => exists l', batch writes l1 = Ok l') (fun e => batch writes l1 = Err e \/ of_tree e).
Proof.
  revert exists_ r l1. induction writes as [|[w key] writes IH]; intros exists_ r l1 Hr Ho Hl; cbn [check_writes batch].
  { apply looks_ret; [done|by eexists]. }
  eapply (looks_bind _ _ _ _ _ (fun b => b = present key l1)).
  { specialize (Hl key). destruct (exists_ !! key) as [b|]; [by apply looks_ret|]. eapply looks_bind.
    - eapply looks_weaken; [by apply tree_get_looks|done|by right].
    - intros found r' Hr' ->. apply looks_ret; [done|]. by rewrite <- Hl. }
  intros b r1 Hr1 ->. rewrite check_write_spec. destruct (write_refusal w key l1) as [e|].
  { split; [done|]. split; [apply reads_only_refl|by left]. }
  apply (looks_bind _ _ _ _ _ (fun b' => b' = negb (is_delete w))); [split; [done|split; [apply reads_only_refl|done]]|].
  intros ? r2 Hr2 ->. destruct (write_to_after w key l1 Ho) as [Hb Hsame]. rewrite Hb.
  apply IH; [done|by apply write_to_ordered|]. intros j. destruct (decide (key = j)) as [<-|Hne]; [by rewrite lookup_insert_eq|].
  rewrite lookup_insert_ne by done. specialize (Hl j). unfold present in *. rewrite Hsame by done. done.
Qed.

(** *** The writes *)

Lemma apply_write_run r l l0 w key : repo_ok r l l0 -> mst_key (write_path w).1 (write_path w).2 = Ok key ->
  match w with WriteCreate _ _ record | WriteUpdate _ _ record => known record | WriteDelete _ _ => present key l = true end ->
  map_ok known (write_to w key l) ->
  run_ok (apply_write w) r l l0 (fun r' _ => repo_ok r' (write_to w key l) l0) /\
  forall e r', apply_write w r = (Err e, r') -> of_tree e.
Proof.
  intros Hr Hk Hw Hm. destruct w as [collection rkey record|collection rkey record|collection rkey]; cbn [apply_write write_path fst snd write_to] in *.
  3: { pose proof (delete_run known known_inj r l l0 collection rkey key Hr Hk Hm) as Hd. unfold RepoSpec.run_ok.
    destruct (delete collection rkey r) as [[[]|e|] r'] eqn:Hrun; [|split; [by destruct Hd|]|done].
    - by destruct Hd as (_ & ? & ?).
    - intros ? ? [= <- <-]. destruct Hd as [_ [?|[_ Hn]]]; [done|]. unfold present in Hw. by rewrite Hn in Hw. }
  all: pose proof (put_run known known_inj r l l0 collection rkey key Hr Hk record Hw Hm) as Hp; unfold RepoSpec.run_ok in *;
    rewrite (st_bind_run _ _ r key r) by (unfold lift; by rewrite Hk); unfold mbind, st_bind;
    pose proof (put_error collection rkey key record r) as He; destruct (put collection rkey key record r) as [[cid|e|] r']; [|split; [done|]|done].
  1, 3: by destruct Hp as (-> & _ & ? & _).
  all: intros ? ? [= <- <-]; by eapply He.
Qed.

Lemma apply_write_growing w : growing (S := S) (apply_write w).
Proof.
  destruct w; cbn [apply_write]; [| |apply delete_growing]; (apply growing_bind; [done|]); intros key; (apply growing_bind; [apply put_growing|]); by intros c.
Qed.

Lemma apply_write_durable r l l0 w key : ordered l -> durable known r l l0 -> mst_key (write_path w).1 (write_path w).2 = Ok key ->
  match w with WriteCreate _ _ record | WriteUpdate _ _ record => plain known record | WriteDelete _ _ => True end ->
  let '(a, r') := apply_write w r in
  match a with Ok _ => durable known r' (write_to w key l) l0 | Err _ => durable known r' l l0 | Panic => True end.
Proof.
  intros Ho Hd Hk Hw. pose proof (apply_write_growing w r) as Hg. destruct (apply_write w r) as [[[]|e|] r'] eqn:Hrun; cbn [snd] in Hg; [|by eapply durable_grows|done].
  destruct w as [collection rkey record|collection rkey record|collection rkey]; cbn [write_to]; [| |by eapply durable_without].
  all: eapply durable_upsert; [done|exact Hd|exact Hg|by exists record|].
  all: cbn [apply_write write_path fst snd] in *; rewrite (st_bind_run _ _ r key r) in Hrun by (unfold lift; by rewrite Hk);
    unfold mbind, st_bind in Hrun; destruct (put collection rkey key record r) as [[c|e|] r1] eqn:Hput; [|done..];
    injection Hrun as <-; pose proof Hput as Hcid%put_keeps; by rewrite (put_cid _ _ _ _ _ _ _ Hput) in Hcid.
Qed.

(** *** The rest of the repository *)

(** Only the tree, and what is staged with it, changes. *)
Record keeps r r' : Prop := {
  keeps_did : did r' = did r;
  keeps_clock : clock r' = clock r;
  keeps_store : store r' = store r;
  keeps_head : head r' = head r
}.

Lemma keeps_refl r : keeps r r.
Proof. done. Qed.

Lemma keeps_trans r1 r2 r3 : keeps r1 r2 -> keeps r2 r3 -> keeps r1 r3.
Proof. intros [] []. split; congruence. Qed.

Definition keeping {A} (m : st (Repo S) RepoError A) : Prop := forall r, keeps r (m r).2.

Lemma keeping_bind {A B} (m : st (Repo S) RepoError A) (f : A -> st (Repo S) RepoError B) : keeping m -> (forall a, keeping (f a)) -> keeping (m ≫= f).
Proof.
  intros Hm Hf r. unfold mbind, st_bind. specialize (Hm r). destruct (m r) as [[a|e|] r1]; [|done..]. eapply keeps_trans; [exact Hm|apply Hf].
Qed.

Lemma keeping_id {A} (m : st (Repo S) RepoError A) : (forall r, (m r).2 = r) -> keeping m.
Proof. intros Hm r. rewrite Hm. apply keeps_refl. Qed.

Lemma reads_only_keeps r r' : reads_only r r' -> keeps r r'.
Proof. by intros [t ->]. Qed.

Lemma on_store_keeping {A} (m : Source -> method A) : keeping (on_store m).
Proof. intros r. apply reads_only_keeps, on_store_reads. Qed.

Lemma put_keeping collection rkey key record : keeping (put collection rkey key record).
Proof.
  apply keeping_bind; [apply on_store_keeping|]. intros prev. apply keeping_bind; [done|]. intros _. apply keeping_bind; [done|]. by intros _.
Qed.

Lemma apply_write_keeping w : keeping (apply_write w).
Proof.
  destruct w; cbn [apply_write]; (apply keeping_bind; [done|]); intros key; (apply keeping_bind; [apply put_keeping || apply on_store_keeping|]).
  1, 2: done.
  by intros [c|].
Qed.

Lemma for_each_keeping {A} (f : A -> st (Repo S) RepoError ()) xs : (forall x, keeping (f x)) -> keeping (for_each f xs).
Proof. intros Hf. induction xs as [|x xs IH]; [done|]. cbn [for_each]. apply keeping_bind; [apply Hf|]. by intros _. Qed.

(** *** All the writes *)

(** The records of the writes are plain. *)
Definition write_known (w : WriteOp) : Prop :=
  match w with WriteCreate _ _ record | WriteUpdate _ _ record => plain known record | WriteDelete _ _ => True end.

(** The map after each of the first writes is one whose blocks are known. *)
Definition batch_known (writes : list (WriteOp * bytes)) l : Prop :=
  Forall (fun w => write_known w.1) writes /\ forall n, map_ok known (written_to (take n writes) l).

Lemma batch_known_tail w writes l : batch_known (w :: writes) l -> batch_known writes (write_to w.1 w.2 l).
Proof. intros [Hw Hm]. split; [by inversion Hw|]. intros n. apply (Hm (Datatypes.S n)). Qed.

Lemma apply_all_run writes keys r l l0 l' : repo_ok r l l0 -> durable known r l l0 ->
  Forall2 (fun w key => mst_key (write_path w).1 (write_path w).2 = Ok key) writes keys ->
  batch_known (zip writes keys) l -> batch (zip writes keys) l = Ok l' ->
  let '(a, r') := for_each apply_write writes r in
  match a with
  | Ok _ => repo_ok r' l' l0 /\ durable known r' l' l0
  | Err e => of_tree e /\ exists n, repo_ok r' (written_to (take n (zip writes keys)) l) l0 /\ durable known r' (written_to (take n (zip writes keys)) l) l0
  | Panic => False
  end.
Proof.
  intros Hr Hd Hk. revert r l Hr Hd. induction Hk as [|w key writes keys Hk _ IH]; intros r l Hr Hd Hb; cbn [zip zip_with batch for_each]; [by intros [= <-]|].
  destruct (write_refusal w key l) as [|] eqn:Hc; [done|]. intros Hrest. pose proof Hb as [Hkn Hm]. inversion Hkn as [|? ? Hw _]; subst. cbn [fst] in Hw.
  destruct (apply_write_run r l l0 w key Hr Hk) as [Hrun He].
  { destruct w; cbn in *; [apply Hw..|]. unfold present. by destruct (SortedMap.get key l). }
  { apply (Hm 1%nat). }
  pose proof (apply_write_durable r l l0 w key ltac:(by apply (ok_tree _ _ _ _ Hr)) Hd Hk Hw) as Hdw.
  unfold mbind, st_bind. unfold RepoSpec.run_ok in Hrun. destruct (apply_write w r) as [[[]|e|] r1]; [| |done].
  - specialize (IH r1 _ Hrun Hdw (batch_known_tail _ _ _ Hb) Hrest). destruct (for_each apply_write writes r1) as [[[]|e|] r2]; [done| |done].
    destruct IH as [Hof [n Hn]]. split; [done|]. by exists (Datatypes.S n).
  - split; [by eapply He|]. by exists O.
Qed.

Lemma write_keys_Ok writes keys : write_keys writes = Ok keys -> Forall2 (fun w key => mst_key (write_path w).1 (write_path w).2 = Ok key) writes keys.
Proof.
  revert keys. induction writes as [|w writes IH]; intros keys; cbn [write_keys]; [intros [= <-]; constructor|].
  destruct (write_path w) as [c k] eqn:Hp. intros (key & Hk & (ks & Hks & [= <-])%res_bind_Ok)%res_bind_Ok. constructor; [by rewrite Hp|by apply IH].
Qed.

(** *** What the environment does not do *)

(** An error of the tree, or of the environment, does not refuse a write. *)
Lemma of_tree_not_refuses e : of_tree e -> ~ refuses e.
Proof. intros [e' ->] [key [Hk|Hk]]; by destruct e'. Qed.

Definition unrefusing {A} (m : st (Repo S) RepoError A) : Prop := forall r, match (m r).1 with Err e => ~ refuses e | _ => True end.

Lemma unrefusing_bind {A B} (m : st (Repo S) RepoError A) (f : A -> st (Repo S) RepoError B) : unrefusing m -> (forall a, unrefusing (f a)) -> unrefusing (m ≫= f).
Proof. intros Hm Hf r. unfold mbind, st_bind. specialize (Hm r). destruct (m r) as [[a|e|] r1]; [apply Hf|done..]. Qed.

Lemma unrefusing_in_tree {A} (m : Repo S -> method A) : unrefusing (in_tree m).
Proof. intros r. unfold in_tree. destruct (m r (tree r)) as [[a|e|] t]; cbn; try done. apply of_tree_not_refuses. by exists e. Qed.

Lemma unrefusing_reads {A} (f : Repo S -> res RepoError A) : (forall r, match f r with Err e => ~ refuses e | _ => True end) -> unrefusing (reads f).
Proof. intros Hf r. apply Hf. Qed.

Lemma not_refuses e : match e with RecordExists _ | RecordNotFound _ => False | _ => True end -> ~ refuses e.
Proof. intros He [key [-> | ->]]; done. Qed.

Lemma commit_ops_unrefusing rs entries ops leaves : match commit_ops rs entries ops leaves with Err e => ~ refuses e | _ => True end.
Proof.
  revert ops leaves. induction entries as [|[k s] entries IH]; intros ops leaves; cbn [commit_ops]; [done|]. destruct (staged_action s); [|apply IH].
  destruct (st_cid s) as [cid|]; cbn [mbind res_bind]; [|apply IH]. destruct (rs !! cid); cbn; [apply IH|by apply not_refuses].
Qed.

Lemma read_blocks_unrefusing src cids blocks : match read_blocks src cids blocks with Err e => ~ refuses e | _ => True end.
Proof.
  revert blocks. induction cids as [|c cids IH]; intros blocks; cbn [read_blocks]; [done|]. unfold source_block.
  destruct (src c) as [[data|]|e|]; cbn; [apply IH|by apply not_refuses|apply of_tree_not_refuses; by exists e|done].
Qed.

Section Commits.
Context {K V : Type} `{SigningLaws K V}.

Lemma create_signed_unrefusing d rev root (key : K) : match RepoCommit.create_signed d rev root key with Err e => ~ refuses e | _ => True end.
Proof.
  unfold RepoCommit.create_signed, RepoCommit.sign, mbind, st_bind, RepoCommit.unsigned_bytes, RepoCommit.unsigned_bytes_into.
  destruct (RepoCommit.encode_fields _ _ _) as [[[]|e|] buf]; cbn; [|by apply not_refuses|done].
  destruct (sign_bytes key buf) as [s|e|]; cbn; [|by apply not_refuses|done].
  unfold RepoCommit.to_cbor. cbn. by destruct (RepoCommit.encode_fields _ _ _) as [[[]|e|] buf2]; cbn; [|apply not_refuses|].
Qed.

Lemma commit_unrefusing (key : K) now : unrefusing (commit key now).
Proof.
  apply unrefusing_bind; [apply unrefusing_in_tree|]. intros w. apply unrefusing_bind; [by intros r|]. intros _.
  apply unrefusing_bind; [apply unrefusing_in_tree|]. intros nodes. apply unrefusing_bind; [apply unrefusing_reads; intros r; apply commit_ops_unrefusing|].
  intros [ops leaves]. apply unrefusing_bind; [apply unrefusing_reads; intros r; apply read_blocks_unrefusing|]. intros relevant.
  apply unrefusing_bind.
  { do 4 (apply unrefusing_bind; [by intros r|]; intros ?). intros r. destruct (match _ with Some _ => _ | None => _ end); [by apply not_refuses|done]. }
  intros rev. apply unrefusing_bind; [apply unrefusing_reads; intros r; apply create_signed_unrefusing|]. intros sc.
  apply unrefusing_bind; [by intros r|]. intros d. apply unrefusing_bind; [|intros _; by apply unrefusing_bind].
  intros r. unfold save_commit. destruct (apply_commit d (store r)) as [[[]|e|] s]; cbn; [done|by apply not_refuses|done].
Qed.
End Commits.

(** *** The whole batch *)

Lemma missing_looks keys visit r l l0 : repo_ok r l l0 -> looks (on_store (fun src => missing src keys visit)) r l l0 (fun _ => True) of_tree.
Proof.
  intros Hr. apply on_store_looks; [done|]. apply on_store_run; [done|].
  pose proof (backed_missing known known_inj l0 (ok_last_map _ _ _ _ Hr) _ (serves_store known known_inj r l l0 Hr) (repo_source_no_panic _) _
    (tree r) l keys visit (ok_map _ _ _ _ Hr) (ok_tree _ _ _ _ Hr)) as Hm. unfold does in *. by destruct (missing _ _ _ (tree r)) as [[v|e|] t'].
Qed.

(** What comes before the writes: nothing changes. *)
Definition batch_checks (writes : list WriteOp) (keys : list bytes) : st (Repo S) RepoError () :=
  let '(deleted, written) := partition_keys writes keys in
  missing ← on_store (fun src => missing_blocks src written);
  missing' ← on_store (fun src => missing_blocks_for_remove src deleted);
  match missing ++ missing' with
  | cid :: _ => fail (MissingBlock cid)
  | [] => check_writes (zip writes keys) ∅
  end.

(** An error that is not about the writes. *)
Definition unread (e : RepoError) : Prop := of_tree e \/ exists c, e = MissingBlock c.

Lemma batch_checks_run writes keys r l l0 : repo_ok r l l0 -> looks (batch_checks writes keys) r l l0
  (fun _ => exists l', batch (zip writes keys) l = Ok l') (fun e => batch (zip writes keys) l = Err e \/ unread e).
Proof.
  intros Hr. unfold batch_checks. destruct (partition_keys writes keys) as [deleted written].
  eapply looks_bind; [eapply looks_weaken; [by apply missing_looks|done|by right; left]|]. intros m1 r1 Hr1 _.
  eapply looks_bind; [eapply looks_weaken; [by apply missing_looks|done|by right; left]|]. intros m2 r2 Hr2 _.
  destruct (m1 ++ m2) as [|c cs]; [|split; [done|]; split; [apply reads_only_refl|]; right; right; by eexists].
  eapply looks_weaken; [apply (check_writes_run _ ∅ r2 l l0 l); [done|by apply (ok_tree _ _ _ _ Hr2)|]|done|].
  - intros key. by rewrite lookup_empty.
  - intros e [?|?]; [by left|right; by left].
Qed.

Section Apply.
Context {K V : Type} `{SigningLaws K V}.

Lemma apply_writes_split writes (key : K) now r keys : write_keys writes = Ok keys ->
  apply_writes writes key now r = (_ ← batch_checks writes keys; _ ← for_each apply_write writes; commit key now) r.
Proof.
  intros Hk. unfold apply_writes, batch_checks. rewrite (st_bind_run _ _ r keys r) by (unfold lift; by rewrite Hk).
  destruct (partition_keys writes keys) as [deleted written]. rewrite st_bind_assoc. unfold mbind, st_bind.
  destruct (on_store (fun src => missing_blocks src written) r) as [[m1|e|] r1]; [|done..].
  destruct (on_store (fun src => missing_blocks_for_remove src deleted) r1) as [[m2|e|] r2]; [|done..].
  by destruct (m1 ++ m2).
Qed.

Lemma apply_writes_run writes keys (key : K) now r l l0 : repo_ok r l l0 -> durable known r l l0 -> write_keys writes = Ok keys -> batch_known (zip writes keys) l ->
  (forall l' root sc, batch (zip writes keys) l = Ok l' -> map_root l' = Some root ->
     RepoCommit.create_signed (did r) (coming_rev r now) root key = Ok sc -> known (RepoCommit.block sc)) ->
  let '(a, r') := apply_writes writes key now r in
  match batch (zip writes keys) l, a with
  | Ok l', Ok d => repo_ok r' l' l' /\ durable known r' l' l' /\ head r' = Some (MkHead (cd_cid d) (cd_commit d)) /\ committed_as r l' l0 key now d
  | Ok _, Err e => ~ refuses e /\ exists n, repo_ok r' (written_to (take n (zip writes keys)) l) l0 /\ durable known r' (written_to (take n (zip writes keys)) l) l0
  | Err e, Err e' => repo_ok r' l l0 /\ durable known r' l l0 /\ (e' = e \/ unread e')
  | _, _ => False
  end.
Proof.
  intros Hr Hd Hk Hb Hknown. rewrite (apply_writes_split writes key now r keys Hk). pose proof (batch_checks_run writes keys r l l0 Hr) as Hc.
  assert (Hdur : forall t, durable known (set_tree t r) l l0) by (intros t; by eapply durable_grows).
  unfold looks, mbind, st_bind in *. destruct (batch_checks writes keys r) as [[[]|e|] r1]; [| |by destruct Hc as (_ & _ & ?)].
  2: { destruct Hc as (Hr1 & [t ->] & Hc). destruct (batch (zip writes keys) l) as [l'|e'|] eqn:Hbatch; [| |].
    - split; [|by exists O]. destruct Hc as [?|[?|[c ->]]]; [done|by apply of_tree_not_refuses|by apply not_refuses].
    - split; [done|]. split; [done|]. destruct Hc as [[= ->]|?]; [by left|by right].
    - by apply batch_no_panic in Hbatch. }
  destruct Hc as (Hr1 & Hro & l' & Hl'). assert (Hd1 : durable known r1 l l0) by (by destruct Hro as [t ->]).
  rewrite Hl'. pose proof (apply_all_run writes keys r1 l l0 l' Hr1 Hd1 (write_keys_Ok _ _ Hk) Hb Hl') as Ha.
  pose proof (keeps_trans _ _ _ (reads_only_keeps _ _ Hro) (for_each_keeping apply_write writes apply_write_keeping r1)) as [Hdid Hclock _ Hhead].
  destruct (for_each apply_write writes r1) as [[[]|e|] r2]; [|by destruct Ha as [?%of_tree_not_refuses ?]|done]. cbn [snd] in *. destruct Ha as [Hr2 Hd2].
  assert (Hsame : coming_rev r2 now = coming_rev r now) by (unfold coming_rev, last_commit; by rewrite Hclock, Hhead).
  assert (Hkn : forall root sc, map_root l' = Some root -> RepoCommit.create_signed (did r2) (coming_rev r2 now) root key = Ok sc -> known (RepoCommit.block sc)).
  { rewrite Hdid, Hsame. exact (fun root sc => Hknown l' root sc Hl'). }
  pose proof (commit_run known known_inj r2 l' l0 key now Hr2 Hkn) as Hco. pose proof (durable_commit known known_inj r2 l' l0 key now Hr2 Hd2 Hkn) as Hdc.
  pose proof (commit_unrefusing key now r2) as He. unfold RepoSpec.run_ok in Hco. destruct (commit key now r2) as [[d|e|] r3]; [| |done].
  - destruct Hco as (Hr3 & Hh3 & [ ] & _). split; [done|]. split; [done|]. split; [done|].
    unfold last_commit, last_cid in *. split; unfold last_commit, last_cid; rewrite <- ?Hhead, <- ?Hdid, <- ?Hsame; done.
  - split; [done|]. exists (length (zip writes keys)). rewrite take_ge by lia. by rewrite <- (batch_Ok _ _ _ Hl').
Qed.
End Apply.
End Batch.
