(* ===== verification/RepoMap.v ===== *)
(** A repository refines a map of records and its last commit: the answer and
    the effect of every call, what a failed call leaves, what is read after a
    restart, and batches. *)
From S2P Require Import Prelude StateError SyntaxError CborError Cid CborDecode Crypto.
From S2P Require Import MstHeight SortedMap MstNode MstTree MstShape MstFlush MstLoad MstDetached MstDetachedSpec MstProof MstMap MstPieces MstStored MstBacked.
From S2P Require Import RepoStore Repo RepoSpec RepoSave RepoDurable RepoBatch.
From S2P Require Did Nsid RecordKey Tid RepoCommit RepoProof.
Import RepoCommit (RepoError(..), commit_error, repo_of_mst).

(** ** Calls *)

Inductive Call :=
| CallGet (collection : Nsid) (rkey : RecordKey)
| CallCreate (collection : Nsid) (rkey : RecordKey) (record : bytes)
| CallUpdate (collection : Nsid) (rkey : RecordKey) (record : bytes)
| CallDelete (collection : Nsid) (rkey : RecordKey)
| CallCommit (now : Z).

Inductive Answer := Found (v : option (Cid * bytes)) | Wrote (c : Cid) | Deleted | Committed (d : CommitData).

Definition call_key (call : Call) : res RepoError bytes :=
  match call with
  | CallGet collection rkey | CallCreate collection rkey _ | CallUpdate collection rkey _ | CallDelete collection rkey => mst_key collection rkey
  | CallCommit _ => Ok []
  end.

(** *** What a call is to do *)

(** The error of a call on a key that is there, or is not. *)
Definition refusal (call : Call) (key : bytes) (l : kvs) : option RepoError :=
  match call with
  | CallCreate _ _ _ => if present key l then Some (RecordExists key) else None
  | CallUpdate _ _ _ | CallDelete _ _ => if present key l then None else Some (RecordNotFound key)
  | CallGet _ _ | CallCommit _ => None
  end.

(** The records after a call, and those of the last commit. *)
Definition effect `{Sha2} (call : Call) (key : bytes) (l l0 : kvs) : kvs * kvs :=
  match call with
  | CallGet _ _ => (l, l0)
  | CallCreate _ _ record | CallUpdate _ _ record => (upsert key (compute Drisl record) l, l0)
  | CallDelete _ _ => (without key l, l0)
  | CallCommit _ => (l, l)
  end.

Section Map.
Context `{Simdutf8Laws} `{Sha2Laws} {S : Type} `{RepoStoreLaws S} {K V : Type} `{SigningLaws K V}.
Context (known : bytes -> Prop) (known_inj : collision_free known) (signer : K).
Implicit Types (r : Repo S) (l : kvs).

Definition run_call (call : Call) : st (Repo S) RepoError Answer :=
  match call with
  | CallGet collection rkey => v ← get collection rkey; mret (Found v)
  | CallCreate collection rkey record => c ← create collection rkey record; mret (Wrote c)
  | CallUpdate collection rkey record => c ← update collection rkey record; mret (Wrote c)
  | CallDelete collection rkey => _ ← delete collection rkey; mret Deleted
  | CallCommit now => d ← commit signer now; mret (Committed d)
  end.

(** The answer of a call that succeeds. *)
Definition answers (call : Call) (key : bytes) r l l0 (a : Answer) r' : Prop :=
  match call, a with
  | CallGet _ _, Found None => SortedMap.get key l = None
  | CallGet _ _, Found (Some (c, data)) => SortedMap.get key l = Some c /\ compute Drisl data = c
  | CallCreate _ _ record, Wrote c | CallUpdate _ _ record, Wrote c => c = compute Drisl record /\ is_valid_key key = true
  | CallDelete _ _, Deleted => True
  | CallCommit now, Committed d => head r' = Some (MkHead (cd_cid d) (cd_commit d)) /\ committed_as r l l0 signer now d
  | _, _ => False
  end.

(** What must be known of a call's blocks. *)
Definition call_known (call : Call) (key : bytes) r l : Prop :=
  match call with
  | CallGet _ _ => True
  | CallCreate _ _ record | CallUpdate _ _ record => plain known record /\ map_ok known (upsert key (compute Drisl record) l)
  | CallDelete _ _ => map_ok known (without key l)
  | CallCommit now => forall root sc, map_root l = Some root ->
      RepoCommit.create_signed (did r) (coming_rev r now) root signer = Ok sc -> known (RepoCommit.block sc)
  end.

(** An error of storage, of the nodes it holds or, for a commit, of the signer
    or the clock: none that refuses a write. *)
Definition environment (call : Call) (e : RepoError) : Prop :=
  match call with CallCommit _ => ~ refuses e | _ => of_tree e \/ exists m, e = RepoStorage m end.

(** The repository stands for [l], with [l0] in its last commit. *)
Definition stands_as r l l0 : Prop := repo_ok known r l l0 /\ durable known r l l0.

(** *** Each call *)

Definition call_spec (call : Call) (key : bytes) r l l0 : Prop :=
  let '(a, r') := run_call call r in
  match a with
  | Ok a => refusal call key l = None /\ stands_as r' (effect call key l l0).1 (effect call key l l0).2 /\ answers call key r l l0 a r'
  | Err e => stands_as r' l l0 /\ (refusal call key l = Some e \/ environment call e)
  | Panic => False
  end.

Lemma present_spec key l : present key l = true <-> is_Some (SortedMap.get key l).
Proof. unfold present. by rewrite bool_decide_eq_true. Qed.

Lemma call_get collection rkey key r l l0 : stands_as r l l0 -> mst_key collection rkey = Ok key -> call_spec (CallGet collection rkey) key r l l0.
Proof.
  intros [Hr Hd] Hk. unfold call_spec. cbn [run_call effect refusal]. unfold mbind, st_bind.
  pose proof (get_run known known_inj r l l0 collection rkey key Hr Hk) as Hg. pose proof (durable_get known known_inj r l l0 collection rkey key Hr Hd Hk) as Hdg.
  unfold RepoSpec.run_ok in Hg. destruct (get collection rkey r) as [[v|e|] r']; [|destruct Hdg as [? ?]; split; [by split|by right]|done].
  destruct Hg as (Hr' & _ & Hv). destruct Hdg as [Hd' _]. split; [done|]. split; [by split|]. cbn [answers].
  destruct v as [[c data]|]; [|done]. destruct Hv as [Hc Hh]. split; [done|]. apply Hh.
  destruct (dur_plain _ _ _ _ Hd key c Hc) as (b & _ & ->). done.
Qed.

Lemma call_write (create_ : bool) collection rkey record key r l l0 : stands_as r l l0 -> mst_key collection rkey = Ok key ->
  plain known record -> map_ok known (upsert key (compute Drisl record) l) ->
  call_spec (if create_ then CallCreate collection rkey record else CallUpdate collection rkey record) key r l l0.
Proof.
  intros [Hr Hd] Hk Hp Hm. set (refuse := fun found : option Cid => if create_ then bool_decide (is_Some found) else bool_decide (found = None)).
  set (refused := if create_ then RecordExists key else RecordNotFound key).
  pose proof (write_run known known_inj r l l0 collection rkey key record Hr Hk (proj1 Hp) Hm refused refuse) as Hw.
  set (m := (key ← lift (mst_key collection rkey); found ← on_store (fun src => MstDetached.get src key);
    if refuse found then fail refused else put collection rkey key record) : st (Repo S) RepoError Cid) in *.
  assert (Hrun : (if create_ then create collection rkey record else update collection rkey record) r = m r).
  { assert (Hl : forall (f : bytes -> st (Repo S) RepoError Cid), (key ← lift (mst_key collection rkey); f key) r = f key r).
    { intros f. apply st_bind_run. unfold lift. by rewrite Hk. }
    unfold m. rewrite Hl. unfold refuse, refused. destruct create_; unfold create, update; by rewrite Hl. }
  assert (Hg : growing (S := S) m).
  { apply growing_bind; [done|]. intros k. apply growing_bind; [apply on_store_growing|]. intros found. destruct (refuse found); [done|apply put_growing]. }
  assert (Hkeep : forall c r', m r = (Ok c, r') -> is_Some (records r' !! c)).
  { intros c r'. unfold m. rewrite (st_bind_run _ _ r key r) by (unfold lift; by rewrite Hk). unfold mbind, st_bind.
    destruct (on_store _ r) as [[found|e|] r1]; [|done..]. destruct (refuse found); [done|]. apply put_keeps. }
  specialize (Hg r). specialize (Hkeep). unfold call_spec.
  assert (Hcall : run_call (if create_ then CallCreate collection rkey record else CallUpdate collection rkey record) r =
    (c ← m; mret (Wrote c)) r).
  { transitivity ((c ← (if create_ then create collection rkey record else update collection rkey record); mret (Wrote c)) r); [by destruct create_|].
    unfold mbind, st_bind. by rewrite Hrun. }
  rewrite Hcall. unfold mbind, st_bind. destruct (m r) as [[c|e|] r'] eqn:He; cbn [snd] in Hg; [| |done].
  - destruct Hw as (Hnot & -> & Hv & Hr'). specialize (Hkeep _ _ eq_refl).
    assert (Hd' : durable known r' (upsert key (compute Drisl record) l) l0).
    { eapply durable_upsert; [by apply (ok_tree _ _ _ _ Hr)|exact Hd|exact Hg|by exists record|done]. }
    unfold refuse in Hnot. destruct create_; (split; [|split; [split|]]); try done; cbn; unfold present.
    + by rewrite Hnot.
    + apply bool_decide_eq_false in Hnot. rewrite bool_decide_true; [done|]. by apply not_eq_None_Some.
  - destruct Hw as [Hr' Hw]. split; [split; [done|by eapply durable_grows]|].
    destruct Hw as [?|[-> Hre]]; [right; destruct create_; by left|left]. unfold refuse, refused in *. destruct create_; cbn; unfold present; [by rewrite Hre|].
    apply bool_decide_eq_true in Hre. rewrite Hre. done.
Qed.

Lemma call_delete collection rkey key r l l0 : stands_as r l l0 -> mst_key collection rkey = Ok key -> map_ok known (without key l) ->
  call_spec (CallDelete collection rkey) key r l l0.
Proof.
  intros [Hr Hd] Hk Hm. unfold call_spec. cbn [run_call effect refusal]. unfold mbind, st_bind.
  pose proof (delete_run known known_inj r l l0 collection rkey key Hr Hk Hm) as Hw. pose proof (delete_growing collection rkey r) as Hg.
  destruct (delete collection rkey r) as [[[]|e|] r']; cbn [snd] in Hg; [| |done].
  - destruct Hw as (Hin & Hr' & _). apply present_spec in Hin. rewrite Hin. split; [done|]. split; [split; [done|]|done].
    eapply durable_without; [by apply (ok_tree _ _ _ _ Hr)|exact Hd|exact Hg].
  - destruct Hw as [Hr' Hw]. split; [split; [done|by eapply durable_grows]|]. destruct Hw as [?|[-> Hn]]; [right; by left|left].
    unfold present. by rewrite Hn.
Qed.

Lemma call_commit now key r l l0 : stands_as r l l0 ->
  (forall root sc, map_root l = Some root -> RepoCommit.create_signed (did r) (coming_rev r now) root signer = Ok sc -> known (RepoCommit.block sc)) ->
  call_spec (CallCommit now) key r l l0.
Proof.
  intros [Hr Hd] Hkn. unfold call_spec. cbn [run_call effect refusal]. unfold mbind, st_bind.
  pose proof (commit_run known known_inj r l l0 signer now Hr Hkn) as Hc. pose proof (durable_commit known known_inj r l l0 signer now Hr Hd Hkn) as Hdc.
  pose proof (commit_unrefusing signer now r) as He. unfold RepoSpec.run_ok in Hc. destruct (commit signer now r) as [[d|e|] r']; [|split; [done|]; by right|done].
  destruct Hc as (Hr' & Hh & Hca & _). by split_and!.
Qed.

Lemma run_call_spec call key r l l0 : stands_as r l l0 -> call_key call = Ok key -> call_known call key r l -> call_spec call key r l l0.
Proof.
  intros Hr Hk Hkn. destruct call; cbn in Hk, Hkn.
  - by apply call_get.
  - destruct Hkn. by apply (call_write true).
  - destruct Hkn. by apply (call_write false).
  - by apply call_delete.
  - by apply call_commit.
Qed.

(** ** Restarts *)

(** Opening a repository's store again. *)
Lemma reopen_run r l l0 h : stands_as r l l0 -> head r = Some h ->
  match open (store r) with
  | Ok r' => stands_as r' l0 l0 /\ store r' = store r /\ head r' = Some h /\ did r' = RepoCommit.did (head_commit h) /\ has_staged_writes r' = false
  | Err e => exists m, e = RepoStorage m
  | Panic => False
  end.
Proof.
  intros [Hr Hd] Hh. pose proof (ok_head _ _ _ _ Hr) as Hhd. rewrite Hh in Hhd. destruct Hhd as [Hst Hat].
  pose proof (open_run known known_inj (store r) h l0 (proj1 (ok_blocks _ _ _ _ Hr)) (ok_last_map _ _ _ _ Hr) Hst Hat) as Ho.
  assert (Hstaged : forall r', open (store r) = Ok r' -> staged r' = []).
  { intros r'. unfold open. intros (at_ & _ & (c & _ & (data & _ & (cm & _ & ([t id] & _ & [= <-])%res_bind_Ok)%res_bind_Ok)%res_bind_Ok)%res_bind_Ok)%res_bind_Ok. done. }
  destruct (open (store r)) as [r'|e|]; [|done..]. destruct Ho as (Hr' & Hs & Hh' & Hdid).
  split; [by split; [|eapply durable_open]|]. split_and!; [done..|]. unfold has_staged_writes. by rewrite (Hstaged r').
Qed.

(** A new repository. *)
Lemma empty_run (s : S) (d : Did.Did) (c : TidClock) raw : Forall is_u8 raw -> Did.try_from raw = Ok d -> honest_blocks known (store_blocks s) -> store_at s = None ->
  map_ok known [] -> stands_as (empty s d c) [] [].
Proof.
  intros Hu Hraw Hb Hat Hm. assert (Hno : forall (A : Type) (x : Cid) (a : A), (∅ : gmap Cid A) !! x <> Some a) by (intros A x a; by rewrite lookup_empty).
  split; [split|by split]; cbn [empty did tree store records staged unsaved head]; [by exists raw|done|done|..].
  - pose proof (fun P => new_stands_for (H3 := stubs_of [] P)) as Hnew.
    split; [apply Hnew|done|..]; intros x [y Hx]; by apply Hno in Hx.
  - apply unsaved_default_ok.
  - intros x Hx. cbn in Hx. set_solver.
  - split_and!; [done|..]; intros x data Hx; by apply Hno in Hx.
  - apply staged_nil.
  - by intros ? ? ? ?%elem_of_nil.
  - done.
Qed.
End Map.
