(* ===== verification/RepoExample.v ===== *)
(** A small repository in memory, for examples: one record under a toy hash
    and a toy key, with every block that is met.

    Why records are to be plain: a record whose bytes are those of a node is
    lost when the node is. *)
From S2P Require Import Prelude StateError SyntaxError CborError Cid CborValue CborEncode CborDecode CborCodec Crypto.
From S2P Require Import MstHeight SortedMap MstNode MstTree MstShape MstFlush MstLoad MstDetached MstDetachedSpec MstProof MstMap MstPieces MstStored MstBacked.
From S2P Require Import RepoStore Repo RepoSpec RepoSave RepoDurable RepoBatch RepoMap.
From S2P Require SmallString Did Nsid RecordKey Tid RepoCommit RepoProof.
Import RepoCommit (RepoError(..), commit_error, repo_of_mst).

#[local] Existing Instances simd_ref simd_ref_laws sha2_toy sha2_toy_laws toy_verifying toy_signing toy_laws.

Definition ex_raw : bytes := b# "did:web:example.com".
Definition ex_did : Did.Did := Eval vm_compute in match Did.try_from ex_raw with Ok d => d | _ => Did.default end.
Definition ex_collection : Nsid := Eval vm_compute in match Nsid.try_from (b# "app.bsky.feed.post") with Ok n => n | _ => SmallString.default end.
Definition ex_rkey : RecordKey := Eval vm_compute in match RecordKey.try_from (b# "3k") with Ok k => k | _ => SmallString.default end.
Definition ex_signer : Z := 5.
Definition ex_now : Z := 1700000000000000.

(** The record of an empty object. *)
Definition ex_record : bytes := [0xa0].
Definition ex_key : bytes := b# "app.bsky.feed.post/3k".
Definition ex_map : kvs := [(ex_key, compute Drisl ex_record)].

(** The repository, new and with the record. *)
Definition ex_repo : Repo MemRepoStore := empty mem_repo_new ex_did (MkTidClock 0 Tid.init).
Definition ex_written : Repo MemRepoStore := (create ex_collection ex_rkey ex_record ex_repo).2.

Definition ex_root : Cid := match map_root ex_map with Some c => c | None => MkCid Raw [] end.
Definition ex_commit : bytes :=
  match RepoCommit.create_signed ex_did (coming_rev ex_repo ex_now) ex_root ex_signer with Ok sc => RepoCommit.block sc | _ => [] end.

(** The blocks of the examples. *)
Definition ex_blocks : list bytes :=
  [node_block (list_node 0 []); node_block (list_node (tree_height ex_map) ex_map); ex_record; ex_commit].
Definition ex_known (data : bytes) : Prop := data ∈ ex_blocks.

(** *** What is known of them *)

Lemma ex_raw_did : Did.try_from ex_raw = Ok ex_did.
Proof. vm_compute. reflexivity. Qed.

Lemma ex_key_ok : mst_key ex_collection ex_rkey = Ok ex_key.
Proof. vm_compute. reflexivity. Qed.

Definition apart_blocks (blocks : list bytes) : bool :=
  forallb (fun a => forallb (fun b => bool_decide (a = b) || negb (bool_decide (compute Drisl a = compute Drisl b))) blocks) blocks.

Lemma apart_blocks_inj blocks : apart_blocks blocks = true -> collision_free (fun data => data ∈ blocks).
Proof.
  intros Hb a b Ha%list_elem_of_In Hb'%list_elem_of_In Hc. unfold apart_blocks in Hb.
  pose proof (proj1 (forallb_forall _ _) (proj1 (forallb_forall _ _) Hb a Ha) b Hb') as Hab. cbv beta in Hab.
  rewrite (bool_decide_true (compute Drisl a = compute Drisl b)) in Hab by done. rewrite orb_false_r in Hab. by apply bool_decide_eq_true in Hab.
Qed.

Lemma ex_known_inj : collision_free ex_known.
Proof. apply apart_blocks_inj. vm_compute. reflexivity. Qed.

Lemma ex_empty_part h s : map_part [] h s -> h = 0 /\ s = [].
Proof. intros [Hm|[Hn _]]; [apply Hm|done]. Qed.

Lemma ex_map_part h s : map_part ex_map h s -> h = tree_height ex_map /\ s = ex_map.
Proof.
  intros [[Hn _]|[_ Hp]]; [done|]. inversion Hp as [|s1 h1 s2 Hs Hne _]; subst; [done|]. exfalso.
  assert (Hcut : cuts (tree_height ex_map) ex_map = [[]; []]) by (vm_compute; reflexivity). rewrite Hcut in Hs.
  apply Hne. apply elem_of_cons in Hs as [Hs|Hs%list_elem_of_singleton]; exact Hs.
Qed.

Lemma ex_empty_ok : map_ok ex_known [].
Proof.
  intros h s Hp. apply ex_empty_part in Hp as [-> ->]. split; [|split; [vm_compute; discriminate|by left]].
  assert (list_node 0 [] = MkNodeData None []) as -> by (vm_compute; reflexivity).
  split; [done|]. split; [constructor|done].
Qed.

Lemma ex_map_ok : map_ok ex_known ex_map.
Proof.
  intros h s Hp. apply ex_map_part in Hp as [-> ->]. split; [|split; [vm_compute; discriminate|by right; left]].
  assert (list_node (tree_height ex_map) ex_map = MkNodeData None [MkEntryData 0 ex_key (compute Drisl ex_record) None]) as -> by (vm_compute; reflexivity).
  split; [done|]. split; [|done]. constructor; [|constructor]. split; [done|]. split; [apply u8_literal; vm_compute; reflexivity|].
  split; [done|]. split; [|done]. split; [vm_compute; reflexivity|apply u8_literal; vm_compute; reflexivity].
Qed.

Lemma ex_record_plain : plain ex_known ex_record.
Proof.
  split; [by right; right; left|]. split; [|vm_compute; discriminate].
  intros nd Hnd Heq. pose proof (readable_decode _ _ Hnd) as Hdec. rewrite Heq in Hdec.
  assert (Hlit : decode_node_data ex_record = Ok (MkNodeData None [])) by (vm_compute; reflexivity).
  rewrite Hlit in Hdec. injection Hdec as <-. vm_compute in Heq. discriminate.
Qed.

Lemma ex_signed_known root sc : map_root ex_map = Some root ->
  RepoCommit.create_signed ex_did (coming_rev ex_repo ex_now) root ex_signer = Ok sc -> ex_known (RepoCommit.block sc).
Proof.
  intros Hroot Hsc. assert (ex_root = root) as Hr by (unfold ex_root; by rewrite Hroot).
  assert (Hblock : ex_commit = RepoCommit.block sc) by (unfold ex_commit; by rewrite Hr, Hsc).
  rewrite <- Hblock. right. right. right. by left.
Qed.

(** *** What it stands for *)

Abbreviation ex_stands_as := (stands_as (S := MemRepoStore) ex_known).

Lemma ex_new_stands : ex_stands_as ex_repo [] [].
Proof.
  apply (empty_run (K := Z) (V := Z) ex_known ex_known_inj _ _ _ ex_raw); [apply u8_literal; reflexivity|exact ex_raw_did| |done|exact ex_empty_ok].
  intros c data Hc. cbn in Hc. by rewrite lookup_empty in Hc.
Qed.

Lemma ex_create_known : call_known ex_known ex_signer (CallCreate ex_collection ex_rkey ex_record) ex_key ex_repo [].
Proof. split; [exact ex_record_plain|exact ex_map_ok]. Qed.

Lemma ex_create_ok : exists c, run_call ex_signer (CallCreate ex_collection ex_rkey ex_record) ex_repo = (Ok (Wrote c), ex_written).
Proof.
  unfold ex_written. cbn [run_call]. unfold mbind, st_bind.
  assert (Hok : is_ok (create ex_collection ex_rkey ex_record ex_repo).1 = true) by (vm_compute; reflexivity).
  destruct (create ex_collection ex_rkey ex_record ex_repo) as [[c|e|] r]; [by exists c|done..].
Qed.

Lemma ex_written_stands : ex_stands_as ex_written ex_map [].
Proof.
  pose proof (run_call_spec ex_known ex_known_inj ex_signer (CallCreate ex_collection ex_rkey ex_record) ex_key ex_repo [] [] ex_new_stands ex_key_ok ex_create_known) as Hc.
  destruct ex_create_ok as [c Hrun]. unfold call_spec in Hc. rewrite Hrun in Hc. apply Hc.
Qed.

(** The repository after its first commit. *)
Definition ex_committed : Repo MemRepoStore := (commit ex_signer ex_now ex_written).2.

Lemma ex_commit_known : call_known ex_known ex_signer (CallCommit ex_now) [] ex_written ex_map.
Proof.
  assert (Hdid : did ex_written = ex_did) by (vm_compute; reflexivity).
  assert (Hrev : coming_rev ex_written ex_now = coming_rev ex_repo ex_now) by (vm_compute; reflexivity).
  cbn [call_known]. rewrite Hdid, Hrev. exact ex_signed_known.
Qed.

Lemma ex_commit_ok : exists d, run_call ex_signer (CallCommit ex_now) ex_written = (Ok (Committed d), ex_committed).
Proof.
  unfold ex_committed. cbn [run_call]. unfold mbind, st_bind.
  assert (Hok : is_ok (commit ex_signer ex_now ex_written).1 = true) by (vm_compute; reflexivity).
  destruct (commit ex_signer ex_now ex_written) as [[d|e|] r]; [by exists d|done..].
Qed.

Lemma ex_committed_stands : ex_stands_as ex_committed ex_map ex_map /\ exists h, head ex_committed = Some h.
Proof.
  pose proof (run_call_spec ex_known ex_known_inj ex_signer (CallCommit ex_now) [] ex_written ex_map [] ex_written_stands eq_refl ex_commit_known) as Hc.
  destruct ex_commit_ok as [d Hrun]. unfold call_spec in Hc. rewrite Hrun in Hc. destruct Hc as (_ & Hs & Hh & _).
  split; [exact Hs|by eexists].
Qed.

(** ** A record that is lost *)

Section Lost.
(** A block function whose digests differ in their first bits, so that keys
    have different heights. *)
Definition sha2_mixing : Sha2 := fun s bs =>
  fold_left (fun (s : list Z) b => (fun w => as_u32 (w + 2654435761 * foldr Z.add 0 b)) <$> s) bs s.

#[local] Existing Instances simd_ref sha2_mixing toy_verifying toy_signing.

Definition lost_rkey : RecordKey := match RecordKey.try_from (b# "3d") with Ok k => k | _ => SmallString.default end.

(** The block of the node that has the key of height 0. *)
Definition node_record : bytes := node_block (list_node 0 [(ex_key, compute Drisl ex_record)]).

(** Two records are committed, one a node of the tree that the other makes; it
    is read; the other is deleted, and that is committed. *)
Definition losing_writes : st (Repo MemRepoStore) RepoError (option (Cid * bytes) * CommitData) :=
  _ ← create ex_collection ex_rkey ex_record;
  _ ← create ex_collection lost_rkey node_record;
  _ ← commit ex_signer ex_now;
  found ← get ex_collection lost_rkey;
  _ ← delete ex_collection ex_rkey;
  d ← commit ex_signer ex_now;
  mret (found, d).

(** Its block is then among those that the commit removes, though the commit
    has the record, and reading it fails. *)
Lemma node_record_lost :
  let '(a, r) := losing_writes ex_repo in
  match a with
  | Ok (found, d) => found = Some (compute Drisl node_record, node_record) /\ compute Drisl node_record ∈ cd_removed_cids d
  | _ => False
  end /\ (get ex_collection lost_rkey r).1 = Err (MissingBlock (compute Drisl node_record)).
Proof.
  assert (Hcheck : (let '(a, r) := losing_writes ex_repo in
    match a with
    | Ok (found, d) => bool_decide (found = Some (compute Drisl node_record, node_record)) && bool_decide (compute Drisl node_record ∈ cd_removed_cids d)
    | _ => false
    end && match (get ex_collection lost_rkey r).1 with Err (MissingBlock c) => bool_decide (c = compute Drisl node_record) | _ => false end) = true)
    by (vm_compute; reflexivity).
  destruct (losing_writes ex_repo) as [[[found d]|e|] r]; [|done..]. apply andb_true_iff in Hcheck as [[Hf%bool_decide_eq_true Hd%bool_decide_eq_true]%andb_true_iff Hg].
  split; [by split|]. destruct (get ex_collection lost_rkey r).1 as [v|e|]; [done| |done]. destruct e; try done. apply bool_decide_eq_true in Hg. by rewrite Hg.
Qed.
End Lost.
