(* ===== verification/RepoRefines.v ===== *)
(** What a repository does, over every sequence of calls and restarts. *)
From S2P Require Import Prelude StateError SyntaxError CborError Cid CborDecode Crypto.
From S2P Require Import MstHeight SortedMap MstNode MstTree MstShape MstFlush MstLoad MstDetached MstPieces MstBacked.
From S2P Require Import RepoStore Repo RepoSpec RepoSave RepoDurable RepoBatch RepoMap RepoExample.
From S2P Require Did Nsid RecordKey Tid RepoCommit RepoProof.
Import RepoCommit (RepoError(..)).

Section Refines.
Context `{Simdutf8Laws} `{Sha2Laws} {S : Type} `{RepoStoreLaws S} {K V : Type} `{SigningLaws K V}.
Context (known : bytes -> Prop) (known_inj : collision_free known) (signer : K).
Implicit Types (r : Repo S) (l : kvs).

(** The repositories that calls and restarts come to, with the records of each
    and of its last commit. A call that fails is one of them. *)
Inductive reached : Repo S -> kvs -> kvs -> Prop :=
| reached_new (s : S) d c raw : Forall is_u8 raw -> Did.try_from raw = Ok d -> honest_blocks known (store_blocks s) -> store_at s = None ->
    map_ok known [] -> reached (empty s d c) [] []
| reached_ok r l l0 call key a r' : reached r l l0 -> call_key call = Ok key -> call_known known signer call key r l ->
    run_call signer call r = (Ok a, r') -> reached r' (effect call key l l0).1 (effect call key l l0).2
| reached_err r l l0 call key e r' : reached r l l0 -> call_key call = Ok key -> call_known known signer call key r l ->
    run_call signer call r = (Err e, r') -> reached r' l l0
| reached_again r l l0 h r' : reached r l l0 -> head r = Some h -> open (store r) = Ok r' -> reached r' l0 l0.

Lemma reached_stands r l l0 : reached r l l0 -> stands_as known r l l0.
Proof.
  induction 1 as [s d c raw Hu Hraw Hb Hat Hm|r l l0 call key a r' _ IH Hk Hkn Hrun|r l l0 call key e r' _ IH Hk Hkn Hrun|r l l0 h r' _ IH Hh Ho].
  - by apply (empty_run (K := K) (V := V) known known_inj _ _ _ raw).
  - pose proof (run_call_spec known known_inj signer call key r l l0 IH Hk Hkn) as Hc. unfold call_spec in Hc. rewrite Hrun in Hc. apply Hc.
  - pose proof (run_call_spec known known_inj signer call key r l l0 IH Hk Hkn) as Hc. unfold call_spec in Hc. rewrite Hrun in Hc. apply Hc.
  - pose proof (reopen_run known known_inj r l l0 h IH Hh) as Hc. rewrite Ho in Hc. apply Hc.
Qed.

(** C2. A repository is a map of records. Whatever calls were made on it,
    failed ones among them, and however often it was opened again, [get]
    answers with the record of the map and its bytes, [create], [update] and
    [delete] change just their key or refuse as documented, [commit] makes
    the map that of the last commit; a call that fails changes nothing, and
    fails for the key's sake or its storage's. This is so as long as no record
    written has the bytes of a tree node or of a commit ([plain], which
    [call_known] asks of every record): one that has may be lost, as
    [node_record_lost] shows. *)
Theorem repo_refines_map r l l0 call key : reached r l l0 -> call_key call = Ok key -> call_known known signer call key r l ->
  let '(a, r') := run_call signer call r in
  match a with
  | Ok a => refusal call key l = None /\ stands_as known r' (effect call key l l0).1 (effect call key l l0).2 /\ answers signer call key r l l0 a r'
  | Err e => stands_as known r' l l0 /\ (refusal call key l = Some e \/ environment call e)
  | Panic => False
  end.
Proof. intros Hr. apply (run_call_spec known known_inj). by apply reached_stands. Qed.

(** C4. Nothing that happens between commits is seen after a restart, and
    nothing of the last commit is lost: at any time, whatever is staged and
    whatever commits have failed, the store opens as a repository of the last
    commit's records, with that commit as its head and nothing staged; it
    fails to only if the store does. *)
Theorem repo_restart r l l0 h : reached r l l0 -> head r = Some h ->
  match open (store r) with
  | Ok r' => stands_as known r' l0 l0 /\ head r' = Some h /\ did r' = RepoCommit.did (head_commit h) /\ has_staged_writes r' = false
  | Err e => exists m, e = RepoStorage m
  | Panic => False
  end.
Proof.
  intros Hr%reached_stands Hh. pose proof (reopen_run known known_inj r l l0 h Hr Hh) as Ho.
  destruct (open (store r)) as [r'|e|]; [|done..]. by destruct Ho as (? & _ & ? & ? & ?).
Qed.

(** C3. A commit that succeeds is signed by the key, later than the one
    before, names it, has the root of the map's Merkle search tree, and lists
    as operations the keys whose value changed since, in order, each with its
    values before and after. Storage then holds every node of the tree and
    every record, as long as no record written has had the bytes of a tree
    node or of a commit ([plain], asked of every record on the way to
    [reached]; [node_record_lost] shows one that is lost). A commit that fails
    leaves the repository, staged writes and all. *)
Theorem repo_commit r l l0 now : reached r l l0 ->
  (forall root sc, map_root l = Some root -> RepoCommit.create_signed (did r) (coming_rev r now) root signer = Ok sc -> known (RepoCommit.block sc)) ->
  let '(a, r') := commit signer now r in
  match a with
  | Ok d => committed_as r l l0 signer now d /\ stands_as known r' l l /\ stored (store r') (MkHead (cd_cid d) (cd_commit d)) l /\
      store_at (store r') = Some (cd_cid d) /\ (forall key c, SortedMap.get key l = Some c -> is_Some (store_blocks (store r') !! c))
  | Err _ => stands_as known r' l l0
  | Panic => False
  end.
Proof.
  intros Hr%reached_stands Hkn. pose proof (run_call_spec known known_inj signer (CallCommit now) [] r l l0 Hr eq_refl Hkn) as Hc.
  unfold call_spec in Hc. cbn [run_call] in Hc. unfold mbind, st_bind in Hc. destruct (commit signer now r) as [[d|e|] r']; [|apply Hc|done].
  destruct Hc as (_ & Hs & Hh & Hca). split; [done|]. split; [exact Hs|]. destruct Hs as [Hr' Hd'].
  pose proof (ok_head _ _ _ _ Hr') as Hhd. rewrite Hh in Hhd. split; [apply Hhd|]. split; [apply Hhd|].
  intros key c Hc. by apply (dur_last _ _ _ _ Hd' key c).
Qed.

(** C5. A batch is checked as if its writes were made one after the other. If
    one of them is of a record that is there already and would create it, or of
    one that is not and would update or delete it, none is made and the batch
    fails with that write's error, or because of what could not be read.
    Otherwise they are all made and committed, together with what was staged,
    or the batch fails, with no such error, in the middle of its work: its
    first writes are then staged and the last commit is as it was. (Records
    are [plain], as for single writes.) *)
Theorem repo_apply_writes r l l0 writes keys now : reached r l l0 -> write_keys writes = Ok keys -> batch_known known (zip writes keys) l ->
  (forall l' root sc, batch (zip writes keys) l = Ok l' -> map_root l' = Some root ->
     RepoCommit.create_signed (did r) (coming_rev r now) root signer = Ok sc -> known (RepoCommit.block sc)) ->
  let '(a, r') := apply_writes writes signer now r in
  match batch (zip writes keys) l, a with
  | Ok l', Ok d => stands_as known r' l' l' /\ head r' = Some (MkHead (cd_cid d) (cd_commit d)) /\ committed_as r l' l0 signer now d
  | Ok _, Err e => ~ refuses e /\ exists n, stands_as known r' (written_to (take n (zip writes keys)) l) l0
  | Err e, Err e' => stands_as known r' l l0 /\ (e' = e \/ unread e')
  | _, _ => False
  end.
Proof.
  intros [Hr Hd]%reached_stands Hk Hb Hkn. pose proof (apply_writes_run known known_inj writes keys signer now r l l0 Hr Hd Hk Hb Hkn) as Ha.
  destruct (apply_writes writes signer now r) as [[d|e|] r'], (batch (zip writes keys) l) as [l'|e'|]; try done.
  - destruct Ha as (? & ? & ? & ?). by split_and!.
  - destruct Ha as (? & ? & ?). by split_and!.
Qed.
End Refines.

(** ** Examples *)

#[local] Existing Instances simd_ref simd_ref_laws sha2_toy sha2_toy_laws toy_verifying toy_signing toy_laws.

Abbreviation ex_reached := (reached (S := MemRepoStore) ex_known ex_signer).

Lemma ex_new_reached : ex_reached ex_repo [] [].
Proof.
  apply (reached_new ex_known ex_signer _ _ _ ex_raw); [apply u8_literal; reflexivity|exact ex_raw_did| |done|exact ex_empty_ok].
  intros c data Hc. cbn in Hc. by rewrite lookup_empty in Hc.
Qed.

Lemma ex_written_reached : ex_reached ex_written ex_map [].
Proof.
  destruct ex_create_ok as [c Hrun].
  exact (reached_ok ex_known ex_signer ex_repo [] [] (CallCreate ex_collection ex_rkey ex_record) ex_key (Wrote c) ex_written ex_new_reached ex_key_ok ex_create_known Hrun).
Qed.

Lemma ex_committed_reached : ex_reached ex_committed ex_map ex_map.
Proof.
  destruct ex_commit_ok as [d Hrun].
  exact (reached_ok ex_known ex_signer ex_written ex_map [] (CallCommit ex_now) [] (Committed d) ex_committed ex_written_reached eq_refl ex_commit_known Hrun).
Qed.

Example repo_refines_map_witness : exists c,
  run_call ex_signer (CallCreate ex_collection ex_rkey ex_record) ex_repo = (Ok (Wrote c), ex_written) /\ stands_as ex_known ex_written ex_map [].
Proof.
  pose proof (repo_refines_map ex_known ex_known_inj ex_signer ex_repo [] [] (CallCreate ex_collection ex_rkey ex_record) ex_key
    ex_new_reached ex_key_ok ex_create_known) as Hc.
  destruct ex_create_ok as [c Hrun]. exists c. rewrite Hrun in Hc. split; [exact Hrun|apply Hc].
Defined.

Lemma ex_open_ok : is_ok (open (store ex_committed)) = true.
Proof. vm_compute. reflexivity. Qed.

Example repo_restart_witness : exists r', open (store ex_committed) = Ok r' /\ stands_as ex_known r' ex_map ex_map /\ has_staged_writes r' = false.
Proof.
  destruct ex_committed_stands as (_ & h & Hh).
  pose proof (repo_restart ex_known ex_known_inj ex_signer ex_committed ex_map ex_map h ex_committed_reached Hh) as Ho.
  pose proof ex_open_ok as Hok. destruct (open (store ex_committed)) as [r'|e|]; [|done..].
  exists r'. split; [done|]. destruct Ho as (Hs & _ & _ & Hst). by split.
Defined.

Example repo_commit_witness : exists d, (commit ex_signer ex_now ex_written).1 = Ok d /\ committed_as ex_written ex_map [] ex_signer ex_now d.
Proof.
  pose proof (repo_commit ex_known ex_known_inj ex_signer ex_written ex_map [] ex_now ex_written_reached ex_commit_known) as Hc.
  assert (Hok : is_ok (commit ex_signer ex_now ex_written).1 = true) by (vm_compute; reflexivity).
  destruct (commit ex_signer ex_now ex_written) as [[d|e|] r']; [|done..]. exists d. split; [done|apply Hc].
Defined.

Definition ex_writes : list WriteOp := [WriteCreate ex_collection ex_rkey ex_record].

Lemma ex_write_keys : write_keys ex_writes = Ok [ex_key].
Proof. vm_compute. reflexivity. Qed.

Lemma ex_batch_known : batch_known ex_known (zip ex_writes [ex_key]) [].
Proof.
  split; [constructor; [exact ex_record_plain|constructor]|]. intros [|n]; [exact ex_empty_ok|].
  destruct n; exact ex_map_ok.
Qed.

Lemma ex_batch_signed l' root sc : batch (zip ex_writes [ex_key]) [] = Ok l' -> map_root l' = Some root ->
  RepoCommit.create_signed (did ex_repo) (coming_rev ex_repo ex_now) root ex_signer = Ok sc -> ex_known (RepoCommit.block sc).
Proof. intros ->%batch_Ok. exact (ex_signed_known root sc). Qed.

Lemma ex_apply_ok : is_ok (apply_writes ex_writes ex_signer ex_now ex_repo).1 = true.
Proof. vm_compute. reflexivity. Qed.

Example repo_apply_writes_witness : exists d, (apply_writes ex_writes ex_signer ex_now ex_repo).1 = Ok d /\
  stands_as ex_known (apply_writes ex_writes ex_signer ex_now ex_repo).2 ex_map ex_map.
Proof.
  pose proof (repo_apply_writes ex_known ex_known_inj ex_signer ex_repo [] [] ex_writes [ex_key] ex_now ex_new_reached ex_write_keys
    ex_batch_known ex_batch_signed) as Ha.
  pose proof ex_apply_ok as Hok. destruct (apply_writes ex_writes ex_signer ex_now ex_repo) as [[d|e|] r']; [|done..].
  exists d. split; [done|]. apply Ha.
Defined.
