(* ===== verification/RepoTransfer.v ===== *)
(** The rest of [src/src/repo/repo.rs]: listing a collection, moving whole
    repositories in and out of CAR files, and serving record proofs. *)
From S2P Require Import Prelude StateError SyntaxError CborError Cid CborDecode Crypto MstHeight SortedMap MstNode MstTree MstFlush MstLoad MstDetached MstProof RepoStore Repo.
From S2P Require Did Nsid RecordKey Tid Car CarSlice CarWriter RepoCommit RepoProof.
Import RepoCommit (RepoError(..), commit_error, repo_of_mst).

(** ** [Recorder] *)

(** What a closure of [reachable_blocks] keeps: the leaves it has met, the
    blocks seen, in order, and an error of its own. *)
Record Seen := MkSeen { leaves : gset Cid; seen : list (Cid * bytes); leaf_err : option RepoError }.

Definition push_seen (b : Cid * bytes) (s : Seen) : Seen := MkSeen (leaves s) (seen s ++ [b]) (leaf_err s).

Section Transfer.
Context `{Sha2} `{Simdutf8}.

(** The source of the recorder hands out the block of a node when the node is
    loaded, and remembers it. *)
Definition record_node (src : Source) (at_ : Place) : st (Node * Refs * Seen) MstError () := fun '(n, refs, s) =>
  (Ok (), (n, refs,
    if n_loaded n || (MAX_LEVELS <? p_depth at_)%nat then s
    else match n_cid n with
         | Some cid => match src cid with Ok (Some data) => push_seen (cid, data) s | _ => s end
         | None => s
         end)).

(** [DetachedTree::walk] on a recorder. *)
Fixpoint recorded_walk (fuel : nat) (src : Source) (f : bytes -> Cid -> st Seen MstError ()) (at_ : Place) :
    st (Node * Refs * Seen) MstError () :=
  match fuel with
  | O => panic
  | S fuel =>
      _ ← record_node src at_;
      _ ← on_tree (ensure_loaded src at_);
      n ← on_tree the_node;
      for_each (fun i => _ ← call f (entry_before n i);
                         on_child_walk i (recorded_walk fuel src f (child_place (n_entries n) i at_)))
        (seq 0 (S (length (n_entries n))))
  end.

(** The closure of [reachable_blocks]. *)
Definition visit_leaf (src : Source) (_ : bytes) (cid : Cid) : st Seen MstError () := fun s =>
  if bool_decide (cid ∈ leaves s) then (Ok (), s)
  else
    let s := MkSeen ({[cid]} ∪ leaves s) (seen s) (leaf_err s) in
    match src cid with
    | Ok (Some data) => (Ok (), push_seen (cid, data) s)
    | Ok None => (Err (BlockNotFound cid), MkSeen (leaves s) (seen s) (Some (MissingBlock cid)))
    | Err e => (Err e, s)
    | Panic => (Panic, s)
    end.

Definition reachable_blocks (src : Source) (root : Cid) : res RepoError (list (Cid * bytes)) :=
  let n := stub root 0 in
  let '(r, (_, _, s)) :=
    recorded_walk (load_fuel n ROOT) src (visit_leaf src) ROOT (n, {[root := 1%nat]}, MkSeen ∅ [] None) in
  match r with
  | Ok _ => Ok (seen s)
  | Err e => Err (default (repo_of_mst e) (leaf_err s))
  | Panic => Panic
  end.

(** ** Importing *)

(** [for block in reader { .. }] *)
Fixpoint import_blocks (fuel : nat) (reader : CarSlice.SliceReader) (blocks : gmap Cid bytes) : res RepoError (gmap Cid bytes) :=
  match fuel with
  | O => Panic
  | S fuel =>
      match CarSlice.next reader with
      | (None, _) => Ok blocks
      | (Some block, reader) =>
          block ← map_err RepoCar block;
          if negb (bool_decide (compute (codec (Car.cid block)) (Car.data block) = Car.cid block)) then
            Err (CidMismatch (Car.cid block))
          else
            import_blocks fuel reader
              (match blocks !! Car.cid block with Some _ => blocks | None => <[Car.cid block := Car.data block]> blocks end)
      end
  end.

(** The commit of an archive and every block it reaches. *)
Definition read_repo (car : bytes) : res RepoError (Cid * Commit * gmap Cid bytes) :=
  reader ← map_err RepoCar (CarSlice.new car);
  root ← match CarSlice.roots reader with [root] => Ok root | roots => Err (RootCount (length roots)) end;
  blocks ← import_blocks (S (length (CarSlice.rest reader))) reader ∅;
  if negb (bool_decide (codec root = Drisl)) then Err (CommitError (RepoCommit.WithCid "commit is not DRISL" root)) else
  commit_bytes ← ok_or (MissingBlock root) (blocks !! root);
  commit ← RepoCommit.from_cbor commit_bytes;
  reachable ← reachable_blocks (fun cid => Ok (base.delete root blocks !! cid)) (RepoCommit.data commit);
  Ok (root, commit, <[root := commit_bytes]> (list_to_map (List.rev reachable))).

Section Store.
Context {S : Type} `{RepoStore S}.

(** [store.apply_commit(..).map_err(storage)] *)
Definition store_commit (d : CommitData) : st S RepoError () := fun s => let '(a, s) := apply_commit d s in (storage a, s).

Definition head_of : st S RepoError (option Cid) := fun s => (storage (store_head s), s).
Definition open_again : st S RepoError (Repo S) := fun s => (open s, s).

Definition import_car (car : bytes) : st S RepoError (Repo S) :=
  at_ ← head_of;
  if bool_decide (is_Some at_) then fail StoreNotEmpty else
  '(root, commit, new_blocks) ← lift (read_repo car);
  _ ← store_commit (MkCommitData root commit None None None new_blocks ∅ [] []);
  open_again.

(** ** Exporting *)

Definition export_car (r : Repo S) : res RepoError bytes :=
  head ← ok_or NoCommit (head r);
  let src := StoreSource (store r) in
  commit ← source_block src (head_cid head);
  blocks ← reachable_blocks src (RepoCommit.data (head_commit head));
  map_err RepoCar (CarWriter.write_all [head_cid head]
    (Car.MkBlock (head_cid head) commit :: map (fun b => Car.MkBlock b.1 b.2) blocks)).

Definition records_proof (r : Repo S) (paths : list (Nsid * RecordKey)) : res RepoProof.ProofError bytes :=
  head ← ok_or RepoProof.ProofNoCommit (head r);
  let src := StoreSource (store r) in
  commit ← RepoProof.read_for_proof src (head_cid head);
  let data := RepoCommit.data (head_commit head) in
  RepoProof.proof_car src (if bool_decide (root_cid (tree r) = Some data) then tree r else load_tree data) (head_cid head) commit paths.

Definition record_proof (r : Repo S) (collection : Nsid) (rkey : RecordKey) : res RepoProof.ProofError bytes :=
  records_proof r [(collection, rkey)].

(** ** Listing *)

(** The results so far, and an error of the closure's own. *)
Abbreviation Listing := (list (RecordKey * Cid) * option RepoError)%type.

Definition has_prefix (col key : bytes) : bool :=
  (length col + 1 <? length key)%nat && bool_decide (key !! length col = Some ch_slash) && bool_decide (take (length col) key = col).

Definition list_entry (col key : bytes) (cid : Cid) : st Listing MstError () := fun '(results, invalid) =>
  if has_prefix col key then
    match RecordKey.try_from (drop (length col + 1) key) with
    | Ok rkey => (Ok (), (results ++ [(rkey, cid)], invalid))
    | Err _ => (Err (InvalidNode (About key "invalid")), (results, Some (InvalidPath key)))
    | Panic => (Panic, (results, invalid))
    end
  else (Ok (), (results, invalid)).

Definition list (collection : Nsid) : st (Repo S) RepoError (list (RecordKey * Cid)) := fun r =>
  match RepoCommit.unfailing (Nsid.as_str collection) with
  | Ok col =>
      let '(a, (t, (results, invalid))) := walk (StoreSource (store r)) (list_entry col) (tree r, ([], None)) in
      (match a with
       | Ok _ => Ok results
       | Err e => Err (default (repo_of_mst e) invalid)
       | Panic => Panic
       end, set_tree t r)
  | Err e => (Err e, r)
  | Panic => (Panic, r)
  end.
End Store.

(** ** In memory *)

Definition new (d : Did.Did) (c : TidClock) : Repo MemRepoStore := empty mem_repo_new d c.
Definition load_car (car : bytes) : res RepoError (Repo MemRepoStore) := (import_car car mem_repo_new).1.
End Transfer.
