(* ===== verification/RepoArchive.v ===== *)
(** Listing a collection, and the blocks that a tree reaches, defined from the
    blocks alone. *)
From S2P Require Import Prelude StateError SyntaxError CborError Cid CborDecode Crypto.
From S2P Require Import MstHeight SortedMap MstNode MstTree MstShape MstFlush MstLoad MstLoadSpec MstLoaded MstDetached MstDetachedSpec MstProof MstPath MstPieces MstStored MstBacked.
From S2P Require Import RepoStore Repo RepoSpec RepoSave RepoDurable RepoBatch RepoMap RepoExample RepoRefines RepoTransfer.
From S2P Require Did Nsid RecordKey Tid Car CarSlice CarWriter RepoCommit RepoProof.
Import RepoCommit (RepoError(..), commit_error, repo_of_mst).

(** ** Walks *)

(** What a closure keeps of its state, the walk keeps, however it ends. *)
Section Keeps.
Context `{Sha2} `{Simdutf8} {S : Type} (src : Source) (f : bytes -> Cid -> st S MstError ()) (P : S -> Prop).
Hypothesis f_keeps : forall key c s, P s -> P (f key c s).2.

Abbreviation walking := (st (Node * Refs * S) MstError).

Definition state_keeps {A} (m : walking A) : Prop := forall x s, P s -> P (m (x, s)).2.2.

Lemma state_keeps_bind {A B} (m : walking A) (g : A -> walking B) : state_keeps m -> (forall a, state_keeps (g a)) -> state_keeps (m ≫= g).
Proof.
  intros Hm Hg x s Hs. unfold mbind, st_bind. specialize (Hm x s Hs). destruct (m (x, s)) as [[a|e|] [x' s']]; [|done..]. by apply Hg.
Qed.

Lemma on_tree_keeps {A} (m : loading A) : state_keeps (on_tree m).
Proof. intros x s Hs. cbn. destruct (m x) as [a x']. done. Qed.

Lemma for_each_keeps {A} (g : A -> walking ()) l : (forall a, state_keeps (g a)) -> state_keeps (for_each g l).
Proof. intros Hg. induction l as [|a l IH]; [by intros x s Hs|]. cbn [for_each]. apply state_keeps_bind; [apply Hg|]. by intros _. Qed.

Lemma call_keeps e : state_keeps (call f e).
Proof. intros x s Hs. destruct e as [e|]; [|done]. cbn. pose proof (f_keeps (e_key e) (e_val e) s Hs). by destruct (f _ _ s). Qed.

Lemma on_child_keeps i (m : walking ()) : state_keeps m -> state_keeps (on_child_walk i m).
Proof.
  intros Hm [n refs] s Hs. unfold on_child_walk. destruct (child n i) as [c|]; [|done]. specialize (Hm (c, refs) s Hs).
  by destruct (m (c, refs, s)) as [r [[c' refs'] s']].
Qed.

Lemma walk_node_keeps fuel at_ : state_keeps (walk_node fuel src f at_).
Proof.
  revert at_. induction fuel as [|fuel IH]; intros at_; [by intros x s Hs|]. cbn [walk_node]. apply state_keeps_bind; [apply on_tree_keeps|]. intros _.
  apply state_keeps_bind; [apply on_tree_keeps|]. intros n. apply for_each_keeps. intros i. apply state_keeps_bind; [apply call_keeps|].
  intros _. by apply on_child_keeps.
Qed.

Lemma walk_keeps t s : P s -> P (walk src f (t, s)).2.2.
Proof.
  intros Hs. unfold walk. destruct (check_usable t) as [[[]|e|] t']; [|done..]. destruct (root t') as [n|]; [|done].
  pose proof (walk_node_keeps (load_fuel n ROOT) ROOT (n, refs t') s Hs) as Hw. by destruct (walk_node _ _ _ _ _) as [r [[n' rf] s']].
Qed.
End Keeps.

(** ** Listing *)

(** The records of a map that are in a collection. *)
Definition listed (col : bytes) (e : bytes * Cid) : option (RecordKey * Cid) :=
  if has_prefix col e.1 then match RecordKey.try_from (drop (length col + 1) e.1) with Ok rkey => Some (rkey, e.2) | _ => None end else None.

Lemma has_prefix_spec col key : has_prefix col key = true <-> exists rest, rest <> [] /\ key = col ++ [ch_slash] ++ rest.
Proof.
  unfold has_prefix. rewrite !andb_true_iff, !bool_decide_eq_true, Nat.ltb_lt. split.
  - intros [[Hl Hs] Ht]. exists (drop (length col + 1) key). split.
    { intros Hn. apply (f_equal length) in Hn. rewrite length_drop in Hn. cbn in Hn. lia. }
    rewrite <- (take_drop (length col) key) at 1. rewrite Ht. f_equal. rewrite <- (take_drop_middle key (length col) ch_slash Hs), Ht.
    rewrite drop_app_ge by lia. rewrite Nat.sub_diag. cbn. rewrite drop_app_ge by lia. replace (length col + 1 - length col)%nat with 1%nat by lia. done.
  - intros (rest & Hr & ->). rewrite !length_app. cbn. assert (length rest <> 0%nat) by (by destruct rest). split; [split; [lia|]|].
    + rewrite lookup_app_r by lia. by rewrite Nat.sub_diag.
    + by rewrite take_app_length.
Qed.

Lemma drop_prefix (col rest : bytes) : drop (length col + 1) (col ++ [ch_slash] ++ rest) = rest.
Proof. rewrite drop_app_ge by lia. replace (length col + 1 - length col)%nat with 1%nat by lia. done. Qed.

Section Walks.
Context `{Simdutf8Laws} `{Sha2Laws} (known : bytes -> Prop) (known_inj : collision_free known).
Context (l0 : kvs) (Hl0 : map_ok known l0) (src : Source) (Hsrc : serves src l0).
Hypothesis src_no_panic : forall c, no_panic (src c).

(** A walk of a tree for [l] makes its calls on the entries of [l], in order. *)
Lemma backed_walk {S} (f : bytes -> Cid -> st S MstError ()) X t l (s : S) : (forall key c s, (f key c s).1 <> Panic) -> map_ok known l -> backed known X l0 t l ->
  let '(a, (t', s')) := walk src f (t, s) in
  backed known X l0 t' l /\ match a with Ok _ => calls f l s = (Ok (), s') | Err _ => True | Panic => False end.
Proof.
  intros Hf Hl Ht. pose proof (backed_stubs _ _ _ _ _ Ht) as (Hp & Hok & _ & _ & Hr). unfold walk, check_usable. rewrite Hp.
  destruct (root t) as [n|] eqn:Hn; [|split; [done|]; by destruct Hr as [-> _]].
  pose proof (walk_node_ok (H1 := stubs_of l0 (within X)) src src_no_panic f Hf (load_fuel n ROOT) ROOT n (refs t) s (Nat.le_refl _)) as Hw.
  unfold walk_ok in Hw. destruct (walk_node _ _ _ _ _) as [r [[n' rf] s']]. destruct Hw as (Hld & Hk & Hq).
  assert (Hmore : loaded_more src t n (set_refs rf (set_root (Some n') t)) n') by (split_and!; try done; by eapply refs_ok_loaded).
  split; [apply (backed_more known known_inj l0 Hl0 src Hsrc X t); [done|done|]; unfold more; rewrite Hn; by exists n'|].
  destruct r as [[]|e|]; [|done..]. destruct Hq as [_ Hc].
  destruct Hr as [[Hs Hcont] _]. pose proof (stubs_of_laws known known_inj l0 _ Hl0 (within_closed X)) as HL.
  destruct (loads_root (H3 := stubs_of l0 (within X)) src n n' (serves_faithful known src l0 _ Hl0 Hsrc) Hld Hs) as [Hc' _]. congruence.
Qed.
End Walks.

(** *** The listing *)

Lemma list_entry_calls col l acc results invalid : calls (list_entry col) l (acc, None) = (Ok (), (results, invalid)) ->
  results = acc ++ omap (listed col) l /\ forall key c, (key, c) ∈ l -> has_prefix col key = true -> is_ok (RecordKey.try_from (drop (length col + 1) key)) = true.
Proof.
  unfold calls. revert acc. induction l as [|[key c] l IH]; intros acc.
  { intros [= <- _]. rewrite app_nil_r. split; [done|]. intros ? ? []%elem_of_nil. }
  cbn [for_each fst snd]. unfold mbind, st_bind, list_entry at 1. cbn [omap list_omap]. unfold listed at 1. cbn [fst snd].
  destruct (has_prefix col key) eqn:Hp.
  - destruct (RecordKey.try_from _) as [rkey|e|] eqn:Hk; [|done..]. intros Hrun. destruct (IH _ Hrun) as [-> Hok]. split; [by rewrite <- app_assoc|].
    intros k d [[= -> ->]|Hin]%elem_of_cons; [by rewrite Hk|by apply (Hok k d)].
  - intros Hrun. destruct (IH _ Hrun) as [-> Hok]. split; [done|]. intros k d [[= -> ->]|Hin]%elem_of_cons; [congruence|by apply (Hok k d)].
Qed.

(** A key that starts like the collection's, and is none of its records'. *)
Definition not_a_path (col : bytes) (e : RepoError) : Prop :=
  exists key, e = InvalidPath key /\ has_prefix col key = true /\ is_ok (RecordKey.try_from (drop (length col + 1) key)) = false.

Lemma list_entry_keeps col key c s : (forall e, s.2 = Some e -> not_a_path col e) -> forall e, (list_entry col key c s).2.2 = Some e -> not_a_path col e.
Proof.
  destruct s as [results invalid]. cbn. intros Hs. destruct (has_prefix col key) eqn:Hp; [|done].
  destruct (RecordKey.try_from _) as [rkey|e|] eqn:Hk; [done| |done]. cbn. intros e' [= <-]. exists key. split; [done|]. split; [done|]. by rewrite Hk.
Qed.

Lemma record_key_no_panic raw : no_panic (RecordKey.try_from raw).
Proof.
  unfold RecordKey.try_from, no_panic. pose proof (RecordKey.record_key_validate_no_panic raw). destruct (RecordKey.validate raw); done.
Qed.

Lemma list_entry_no_panic col key c s : (list_entry col key c s).1 <> Panic.
Proof.
  destruct s as [results invalid]. unfold list_entry. destruct (has_prefix col key); [|done].
  pose proof (record_key_no_panic (drop (length col + 1) key)) as Hn. by destruct (RecordKey.try_from _).
Qed.

(** The records of the collection, by key: all of them, and in order. *)
Record lists (collection : Nsid) l (results : Datatypes.list (RecordKey * Cid)) : Prop := {
  lists_sound : exists keys, StronglySorted bytes_lt keys /\
    Forall2 (fun x key => mst_key collection x.1 = Ok key /\ SortedMap.get key l = Some x.2) results keys;
  lists_complete raw rkey key c : RecordKey.try_from raw = Ok rkey -> mst_key collection rkey = Ok key -> SortedMap.get key l = Some c -> (rkey, c) ∈ results
}.

Lemma mst_key_text collection rkey raw col : RepoCommit.unfailing (Nsid.as_str collection) = Ok (E := RepoError) col -> RecordKey.try_from raw = Ok rkey ->
  mst_key collection rkey = Ok (col ++ [ch_slash] ++ raw).
Proof. intros Hc Hk. unfold mst_key. rewrite Hc. cbn [mbind res_bind]. by rewrite (RecordKey.record_key_text raw rkey Hk). Qed.

Lemma omap_lists collection col l : ordered l -> RepoCommit.unfailing (Nsid.as_str collection) = Ok (E := RepoError) col -> lists collection l (omap (listed col) l).
Proof.
  intros Ho Hc. set (key_of := fun e : bytes * Cid => if listed col e then Some e.1 else None).
  assert (Hlisted : forall e x, listed col e = Some x -> mst_key collection x.1 = Ok e.1 /\ x.2 = e.2).
  { intros [key c] x. unfold listed. cbn. destruct (has_prefix col key) eqn:Hp; [|done]. destruct (RecordKey.try_from _) as [rkey|e|] eqn:Hk; [|done..].
    intros [= <-]. split; [|done]. apply has_prefix_spec in Hp as (rest & _ & ->). rewrite drop_prefix in Hk. by apply mst_key_text. }
  split.
  - exists (omap key_of l). split.
    + apply omap_sorted; [|done]. unfold key_of. intros e k. destruct (listed col e); [|done]. by intros [= <-].
    + apply omap_Forall2. intros [key c] Hin. unfold key_of. destruct (listed col (key, c)) as [x|] eqn:Hx; [|done].
      destruct (Hlisted _ _ Hx) as [Hk Hv]. cbn in *. split; [done|]. rewrite Hv. by apply get_in.
  - intros raw rkey key c Hraw Hkey Hget. rewrite (mst_key_text collection rkey raw col Hc Hraw) in Hkey. injection Hkey as <-.
    apply list_elem_of_omap. exists (col ++ [ch_slash] ++ raw, c). split; [by apply get_Some_in|]. unfold listed. cbn [fst snd].
    assert (Hne : raw <> []). { intros ->. vm_compute in Hraw. discriminate. }
    rewrite (proj2 (has_prefix_spec col _)) by (exists raw; by split). by rewrite drop_prefix, Hraw.
Qed.

Section Listing.
Context `{Simdutf8Laws} `{Sha2Laws} {S : Type} `{RepoStoreLaws S} {K V : Type} `{SigningLaws K V}.
Context (known : bytes -> Prop) (known_inj : collision_free known) (signer : K).
Implicit Types (r : Repo S) (l : kvs).

End Listing.

(** ** What a tree reaches *)

Section Reaches.
Context `{Simdutf8} (has : Cid -> bytes -> Prop) (root : Cid).

(** The subtrees of a node, by its block. *)
Definition links (nd : NodeData) (c : Cid) : Prop := data_left nd = Some c \/ exists e, e ∈ data_entries nd /\ data_right e = Some c.

(** The nodes of the tree at [root] in blocks, and its nodes and records. *)
Inductive tree_node : Cid -> Prop :=
| tree_root : tree_node root
| tree_link c data nd d : tree_node c -> has c data -> decode_node_data data = Ok nd -> links nd d -> tree_node d.

Inductive reaches_block : Cid -> Prop :=
| reach_node c : tree_node c -> reaches_block c
| reach_record c data nd e : tree_node c -> has c data -> decode_node_data data = Ok nd -> e ∈ data_entries nd -> reaches_block (value e).
End Reaches.

Lemma tree_node_mono `{Simdutf8} (has has' : Cid -> bytes -> Prop) root c : (forall c data, tree_node has root c -> has c data -> has' c data) ->
  tree_node has root c -> tree_node has' root c.
Proof. intros Hh. induction 1 as [|c data nd d Hc IH Hd Hdec Hl]; [apply tree_root|]. eapply tree_link; [exact IH|by apply Hh|done..]. Qed.

Lemma reaches_mono `{Simdutf8} (has has' : Cid -> bytes -> Prop) root c : (forall c data, tree_node has root c -> has c data -> has' c data) ->
  reaches_block has root c -> reaches_block has' root c.
Proof.
  intros Hh [d Hd|d data nd e Hd Hb Hdec He]; [apply reach_node|eapply reach_record; [|by apply Hh|done..]]; by eapply tree_node_mono.
Qed.

(** *** Nodes that are what their blocks say *)

Section OfBlocks.
Context `{Sha2} `{Simdutf8} (src : Source).

Inductive of_blocks : Node -> Prop :=
| of_stub n : n_loaded n = false -> kids n = [] -> of_blocks n
| of_block n c data nd : n_loaded n = true -> n_cid n = Some c -> src c = Ok (Some data) -> decode_node_data data = Ok nd ->
    (forall d, links nd d <-> exists i m, child n i = Some m /\ n_cid m = Some d) ->
    map e_val (n_entries n) = map value (data_entries nd) -> (forall i m, child n i = Some m -> of_blocks m) -> of_blocks n.

Lemma populate_of_block n nd at_ n' c data : populate_node n nd at_ = Ok n' -> n_cid n = Some c -> src c = Ok (Some data) -> decode_node_data data = Ok nd -> of_blocks n'.
Proof.
  intros Hp Hc Hs Hdec. pose proof (fun i m => populate_child_stub n nd at_ n' i m Hp) as Hstub.
  apply populate_node_Ok in Hp as (keys & Hk & _ & ->). unfold for_each_key in Hk. apply for_each_key_from_data in Hk.
  eapply (of_block _ c data nd); [done..| | |].
  - intros d. unfold links. split.
    + intros [Hl|(e & He & Hr)].
      * eexists 0%nat, _. unfold child. cbn [slot n_left]. rewrite Hl. by split.
      * rewrite <- Hk in He. apply list_elem_of_In, in_map_iff in He as ([e' key] & <- & Hin%list_elem_of_In). cbn in Hr.
        apply list_elem_of_lookup in Hin as [j Hj]. eexists (S j), _. unfold child. cbn [slot n_entries]. change (map ?f keys) with (f <$> keys).
        rewrite list_lookup_fmap, Hj. cbn. rewrite Hr. by split.
    + intros (i & m & Hm & Hd). unfold child in Hm. destruct i as [|j]; cbn [slot n_left n_entries] in Hm.
      * left. apply fmap_Some in Hm as (d' & Hd' & ->). cbn in Hd. congruence.
      * right. change (map ?f keys) with (f <$> keys) in Hm. rewrite list_lookup_fmap in Hm. destruct (keys !! j) as [[e key]|] eqn:Hj; [|done]. cbn in Hm.
        apply fmap_Some in Hm as (d' & Hd' & ->). cbn in Hd. exists e. split; [|congruence].
        rewrite <- Hk. apply list_elem_of_In, in_map_iff. exists (e, key). split; [done|]. apply list_elem_of_In. by eapply list_elem_of_lookup_2.
  - cbn [n_entries]. rewrite <- Hk, !map_map. done.
  - intros i m Hm. destruct (Hstub i m Hm) as (d & h & ->). by apply of_stub.
Qed.

Lemma load_step_of_blocks at_ n n' : load_step src at_ n n' -> of_blocks n -> of_blocks n'.
Proof.
  induction 1 as [at_ n n' c data nd _ Hc _ Hs Hdec Hp|at_ n i k k' Hl Hk Hstep IH]; [intros _; by eapply populate_of_block|].
  intros Hn. inversion Hn as [x Hx|x c data nd _ Hc Hs Hdec Hlinks Hvals Hkids]; subst; [congruence|].
  pose proof (child_set_child n i (Some k') (child_le n i k Hk)) as Hi. pose proof (load_step_cid _ _ _ _ Hstep) as Hcid.
  apply (of_block _ c data nd); [by rewrite set_child_loaded|by rewrite (proj1 (set_child_fields n i (Some k')))|done..| | |].
  - intros d. rewrite Hlinks. split; intros (j & m & Hm & Hd); exists j; destruct (decide (i = j)) as [<-|Hne].
    + exists k'. rewrite Hi. split; [done|]. rewrite Hcid. congruence.
    + exists m. by rewrite child_set_child_ne.
    + rewrite Hi in Hm. injection Hm as <-. exists k. split; [done|]. by rewrite <- Hcid.
    + rewrite child_set_child_ne in Hm by done. by exists m.
  - rewrite <- Hvals. clear. destruct n as [l es cd h ld], i as [|j]; [done|]. cbn. revert j. induction es as [|e es IH]; intros [|j]; cbn; [done..|]. f_equal. apply IH.
  - intros j m Hm. destruct (decide (i = j)) as [<-|Hne]; [rewrite Hi in Hm; injection Hm as <-; by apply IH, (Hkids i)|].
    rewrite child_set_child_ne in Hm by done. by apply (Hkids j).
Qed.

Lemma loads_of_blocks at_ n n' : loads src at_ n n' -> of_blocks n -> of_blocks n'.
Proof. induction 1 as [|n n1 n' Hstep _ IH]; [done|]. intros Hn. by eapply IH, load_step_of_blocks. Qed.

Abbreviation in_source := (fun c data => src c = Ok (Some data)).

(** What is in memory is reached, and what is reached is in memory. *)
Lemma of_blocks_reached `{Stubs} root n : full n -> of_blocks n -> (forall c, n_cid n = Some c -> tree_node in_source root c) ->
  (forall c, c ∈ cids n -> tree_node in_source root c) /\ forall e, e ∈ contents n -> reaches_block in_source root e.2.
Proof.
  induction n as [n IH] using Node_kids_ind. intros Hf Hn Hc. inversion Hf as [x Hl Hfc]; subst.
  inversion Hn as [x Hx|x c data nd _ Hcid Hs Hdec Hlinks Hvals Hkids]; subst; [congruence|].
  assert (Hkid : forall m, m ∈ kids n -> (forall c, c ∈ cids m -> tree_node in_source root c) /\ forall e, e ∈ contents m -> reaches_block in_source root e.2).
  { intros m Hm. destruct (kids_child n m Hm) as [i Hi]. apply IH; [done|by apply (Hfc i)|by apply (Hkids i)|].
    intros d Hd. eapply tree_link; [by apply Hc|exact Hs|exact Hdec|]. apply Hlinks. by exists i, m. }
  split.
  - intros d. rewrite cids_kids by done. rewrite Hcid, elem_of_app, elem_of_concat_map. cbn. intros [Hd%list_elem_of_singleton|(m & Hm & Hd)]; [subst d; by apply Hc|].
    by apply (Hkid m).
  - intros e. rewrite contents_kids by done. rewrite elem_of_app, elem_of_concat_map. intros [He|(m & Hm & He)]; [|by apply (Hkid m)].
    assert (Hv : e.2 ∈ map e_val (n_entries n)).
    { apply list_elem_of_In, in_map_iff in He as (en & <- & Hin). apply list_elem_of_In, in_map_iff. by exists en. }
    rewrite Hvals in Hv. apply list_elem_of_In, in_map_iff in Hv as (ed & <- & Hin%list_elem_of_In). by eapply reach_record; [apply Hc| | |].
Qed.

(** Each node in memory has its subtrees and records there. *)
Lemma of_blocks_closed `{Stubs} n c : full n -> of_blocks n -> c ∈ cids n -> exists data nd, src c = Ok (Some data) /\ decode_node_data data = Ok nd /\
  (forall d, links nd d -> d ∈ cids n) /\ forall e, e ∈ data_entries nd -> exists e', e' ∈ contents n /\ e'.2 = value e.
Proof.
  induction n as [n IH] using Node_kids_ind. intros Hf Hn Hin. inversion Hf as [x Hl Hfc]; subst.
  inversion Hn as [x Hx|x c0 data nd _ Hcid Hs Hdec Hlinks Hvals Hkids]; subst; [congruence|].
  assert (Hup : forall m d, m ∈ kids n -> d ∈ cids m -> d ∈ cids n).
  { intros m d Hm Hd. rewrite cids_kids by done. apply elem_of_app. right. apply elem_of_concat_map. by exists m. }
  assert (Hup' : forall m e, m ∈ kids n -> e ∈ contents m -> e ∈ contents n).
  { intros m e Hm He. rewrite contents_kids by done. apply elem_of_app. right. apply elem_of_concat_map. by exists m. }
  rewrite cids_kids in Hin by done. rewrite Hcid, elem_of_app, elem_of_concat_map in Hin. destruct Hin as [Hc|(m & Hm & Hc)].
  - cbn in Hc. apply list_elem_of_singleton in Hc. subst c. exists data, nd. split_and!; [done..| |].
    + intros d (i & m & Hm & Hd)%Hlinks. apply (Hup m); [by eapply child_kids|by apply n_cid_in].
    + intros e He. assert (Hv : value e ∈ map e_val (n_entries n)) by (rewrite Hvals; apply list_elem_of_In, in_map; by apply list_elem_of_In).
      apply list_elem_of_In, in_map_iff in Hv as (en & He' & Hin). exists (kv en). split; [|done]. rewrite contents_kids by done. apply elem_of_app. left.
      by apply list_elem_of_In, in_map.
  - destruct (kids_child n m Hm) as [i Hi]. destruct (IH m Hm (Hfc i m Hi) (Hkids i m Hi) Hc) as (data' & nd' & Hs' & Hdec' & Hl' & He').
    exists data', nd'. split_and!; [done..|intros d Hd; by apply (Hup m), Hl'|]. intros e (e' & Hin & Hv)%He'. exists e'. split; [by apply (Hup' m)|done].
Qed.
End OfBlocks.

(** ** An example *)

#[local] Existing Instances simd_ref simd_ref_laws sha2_toy sha2_toy_laws toy_verifying toy_signing toy_laws.

Definition ex_col : bytes := b# "app.bsky.feed.post".

Lemma ex_col_ok : RepoCommit.unfailing (Nsid.as_str ex_collection) = Ok (E := RepoError) ex_col.
Proof. vm_compute. reflexivity. Qed.

Lemma ex_list_ok : is_ok (list ex_collection ex_committed).1 = true.
Proof. vm_compute. reflexivity. Qed.

