(* ===== verification/RepoImport.v ===== *)
(** Importing and exporting repositories: an archive that is imported is
    stored whole, what is exported is imported again, and no bytes make
    [import_car] panic. *)
From S2P Require Import Prelude StateError SyntaxError CborError Cid CborDecode CborCodec Crypto.
From S2P Require Import MstHeight SortedMap MstNode MstTree MstShape MstFlush MstLoad MstLoadSpec MstLoaded MstDetached MstDetachedSpec MstFlushed MstProof MstPath MstPieces MstStored MstBacked.
From S2P Require Import RepoStore Repo RepoSpec RepoSave RepoDurable RepoMap RepoExample RepoRefines RepoTransfer RepoArchive.
From S2P Require Did Nsid RecordKey Tid Car CarSlice CarWriter RepoCommit RepoProof.
Import RepoCommit (RepoError(..), commit_error, repo_of_mst).

(** ** Nodes that were recorded *)

(** Every node in memory has its block among those seen. *)
Inductive logged (L : Cid -> Prop) : Node -> Prop :=
| logged_stub n : n_loaded n = false -> kids n = [] -> logged L n
| logged_node n : n_loaded n = true -> (forall c, n_cid n = Some c -> L c) -> (forall m, m ∈ kids n -> logged L m) -> logged L n.

Lemma logged_mono (L L' : Cid -> Prop) n : (forall c, L c -> L' c) -> logged L n -> logged L' n.
Proof. intros HL. induction 1 as [n Hn Hk|n Hn Hc _ IH]; [by apply logged_stub|]. apply logged_node; [done|auto|done]. Qed.

Lemma logged_kid L n m : logged L n -> m ∈ kids n -> logged L m.
Proof. intros Hn Hin. inversion Hn as [k _ Hk|k _ _ Hm]; subst; [|by apply Hm]. rewrite Hk in Hin. by apply elem_of_nil in Hin. Qed.

Lemma logged_set_child L n i c c' : child n i = Some c -> logged L n -> logged L c' -> logged L (set_child n i (Some c')).
Proof.
  intros Hi Hn Hc. inversion Hn as [k _ Hk|k Hl Hcid Hm]; subst.
  { apply child_kids in Hi. rewrite Hk in Hi. by apply elem_of_nil in Hi. }
  apply logged_node; [by rewrite set_child_loaded| |].
  - intros d. rewrite (proj1 (set_child_fields n i (Some c'))). apply Hcid.
  - intros m [[= <-]|Hin]%kids_set_child; [done|by apply Hm].
Qed.

Lemma logged_cids L n c : full n -> logged L n -> c ∈ cids n -> L c.
Proof.
  revert c. induction n as [n IH] using Node_kids_ind. intros c Hf Hn Hc. inversion Hf as [k Hl Hfc]; subst.
  inversion Hn as [|k _ Hcid Hm]; subst; [congruence|]. rewrite cids_kids in Hc by done. apply elem_of_app in Hc as [Hc|Hc].
  - apply Hcid. destruct (n_cid n) as [d|]; cbn in Hc; [|by apply elem_of_nil in Hc]. apply list_elem_of_singleton in Hc. by subst.
  - apply elem_of_concat_map in Hc as (m & Hin & Hc). apply (IH m Hin c); [|by apply Hm|done].
    destruct (kids_child n m Hin) as [i Hi]. by apply (Hfc i).
Qed.

(** ** The recorder *)

Abbreviation recording := (st (Node * Refs * Seen) MstError).

Section Recorder.
Context `{Sha2} `{Simdutf8} (src src' : Source).

Lemma populate_logged L n nd at_ n' : populate_node n nd at_ = Ok n' -> (forall c, n_cid n' = Some c -> L c) -> logged L n'.
Proof.
  intros Hp Hc. apply logged_node; [by apply populate_node_Ok in Hp as (keys & _ & _ & ->)|done|]. intros m Hm. destruct (kids_child n' m Hm) as [i Hi].
  destruct (populate_child_stub n nd at_ n' i m Hp Hi) as (c & h & ->). by apply logged_stub.
Qed.

Definition seen_in (s : Seen) (c : Cid) : Prop := c ∈ (seen s).*1.

(** What was seen is what the source has, and no leaf is missing. *)
Record seen_ok (s : Seen) : Prop := {
  seen_leaves c : c ∈ leaves s -> seen_in s c;
  seen_blocks b : b ∈ seen s -> src b.1 = Ok (Some b.2)
}.

(** What a step that ends well has recorded: what it loaded and visited, and
    nothing else. *)
Record recorded (n : Node) (s : Seen) (n' : Node) (s' : Seen) : Prop := {
  rec_logged : logged (seen_in s') n';
  rec_ok : seen_ok s';
  rec_seen b : b ∈ seen s -> b ∈ seen s';
  rec_cids c : c ∈ cids n -> c ∈ cids n';
  rec_leaves c : c ∈ leaves s -> c ∈ leaves s';
  rec_origin b : b ∈ seen s' -> b ∈ seen s \/ b.1 ∈ leaves s' \/ b.1 ∈ cids n'
}.

Lemma recorded_trans n s n1 s1 n2 s2 : recorded n s n1 s1 -> recorded n1 s1 n2 s2 -> recorded n s n2 s2.
Proof.
  intros [] [Hl Hok Hse Hc Hle Ho]. split; [done|done|auto|auto|auto|]. intros b Hb. destruct (Ho b Hb) as [Hb1|?]; [|auto].
  destruct (rec_origin0 b Hb1) as [?|[?|?]]; auto.
Qed.

Lemma recorded_same n s : logged (seen_in s) n -> seen_ok s -> recorded n s n s.
Proof. intros. split; auto. Qed.

(** Such a step is the same on another source that has what was seen. *)
Definition records {A} (m m' : recording A) : Prop := forall n rf s a n' rf' s', m (n, rf, s) = (Ok a, (n', rf', s')) ->
  logged (seen_in s) n -> seen_ok s ->
  recorded n s n' s' /\ ((forall b, b ∈ seen s' -> src' b.1 = Ok (Some b.2)) -> m' (n, rf, s) = (Ok a, (n', rf', s'))).

Lemma records_bind {A B} (m m' : recording A) (f f' : A -> recording B) : records m m' -> (forall a, records (f a) (f' a)) -> records (m ≫= f) (m' ≫= f').
Proof.
  intros Hm Hf n rf s b n' rf' s' Hrun Hn Hs. apply st_bind_Ok in Hrun as (a & [[n1 rf1] s1] & Hrun1 & Hrun2).
  destruct (Hm _ _ _ _ _ _ _ Hrun1 Hn Hs) as (Hr1 & He1). destruct (Hf a _ _ _ _ _ _ _ Hrun2 (rec_logged _ _ _ _ Hr1) (rec_ok _ _ _ _ Hr1)) as (Hr2 & He2).
  split; [by eapply recorded_trans|]. intros Hall. rewrite (st_bind_run _ _ _ a (n1, rf1, s1)); [by apply He2|].
  apply He1. intros x Hx. by apply Hall, (rec_seen _ _ _ _ Hr2).
Qed.

Lemma records_for_each {A} (f f' : A -> recording ()) l : (forall a, records (f a) (f' a)) -> records (for_each f l) (for_each f' l).
Proof.
  intros Hf. induction l as [|a l IH]; cbn [for_each]; [|apply records_bind; [apply Hf|by intros _]].
  intros n rf s b n' rf' s' Hrun Hn Hs. injection Hrun as <- <- <- <-. split; [by apply recorded_same|done].
Qed.

Lemma records_the_node : records (on_tree the_node) (on_tree the_node).
Proof. intros n rf s a n' rf' s' Hrun Hn Hs. injection Hrun as <- <- <- <-. split; [by apply recorded_same|done]. Qed.

Lemma seen_ok_nil : seen_ok (MkSeen ∅ [] None).
Proof. split; intros x Hx; cbn in Hx; [by apply elem_of_empty in Hx|by apply elem_of_nil in Hx]. Qed.

Lemma seen_ok_push s c data : seen_ok s -> src c = Ok (Some data) -> seen_ok (push_seen (c, data) s).
Proof.
  intros [Hl Hb] Hd. split; unfold seen_in; cbn.
  - intros d Hin. rewrite fmap_app, elem_of_app. left. by apply Hl.
  - intros b [Hin|Hin%list_elem_of_singleton]%elem_of_app; [by apply Hb|by subst].
Qed.

Lemma seen_in_push s c data d : seen_in s d -> seen_in (push_seen (c, data) s) d.
Proof. unfold seen_in. cbn. rewrite fmap_app, elem_of_app. by left. Qed.

Lemma records_leaf e : records (call (visit_leaf src) e) (call (visit_leaf src') e).
Proof.
  intros n rf s [] n' rf' s' Hrun Hn Hs. destruct e as [e|]; [|injection Hrun as <- <- <-; split; [by apply recorded_same|done]]. cbn in Hrun. unfold visit_leaf in Hrun.
  case_bool_decide as Hin; [injection Hrun as <- <- <-; split; [by apply recorded_same|]; intros _; cbn; unfold visit_leaf; by rewrite bool_decide_true|].
  destruct (src (e_val e)) as [[data|]|e'|] eqn:Hd; [|done..]. injection Hrun as <- <- <-. set (s1 := MkSeen ({[e_val e]} ∪ leaves s) (seen s) (leaf_err s)).
  assert (Hmono : forall d, seen_in s d -> seen_in (push_seen (e_val e, data) s1) d) by (intros d; apply (seen_in_push s1)).
  split; [split; [by eapply logged_mono| | |done| |]|].
  { split.
    - intros c Hc. cbn in Hc. apply elem_of_union in Hc as [Hc%elem_of_singleton|Hc]; [subst c|by apply Hmono, Hs].
      unfold seen_in. cbn. rewrite fmap_app, elem_of_app. right. by left.
    - intros b [Hb|Hb%list_elem_of_singleton]%elem_of_app; [by apply Hs|by subst b]. }
  { intros b Hb. apply elem_of_app. by left. }
  { intros c Hc. cbn. set_solver. }
  { intros b [Hb|Hb%list_elem_of_singleton]%elem_of_app; [by left|]. right. left. subst b. cbn. set_solver. }
  intros Hall. cbn. unfold visit_leaf. rewrite bool_decide_false by done.
  specialize (Hall (e_val e, data)). cbn in Hall. rewrite Hall; [done|]. apply elem_of_app. right. by left.
Qed.

Lemma records_child i (m m' : recording ()) : records m m' -> records (on_child_walk i m) (on_child_walk i m').
Proof.
  intros Hm n rf s a n' rf' s' Hrun Hn Hs. unfold on_child_walk in *. destruct (child n i) as [c|] eqn:Hc; [|injection Hrun as <- <- <- <-; split; [by apply recorded_same|done]].
  destruct (m (c, rf, s)) as [r [[c' rf1] s1]] eqn:Hrec. injection Hrun as -> <- <- <-.
  destruct (Hm _ _ _ _ _ _ _ Hrec) as ([Hc' Hs1 Hi Hcids Hleaves Hor] & He); [by eapply logged_kid, child_kids|done|].
  split; [|intros Hall; by rewrite He].
  assert (Hl : n_loaded n = true). { inversion Hn as [k _ Hk|]; subst; [|done]. apply child_kids in Hc. rewrite Hk in Hc. by apply elem_of_nil in Hc. }
  pose proof (child_set_child n i (Some c') (child_le n i c Hc)) as Hci.
  assert (Hin : forall d, d ∈ cids c' -> d ∈ cids (set_child n i (Some c'))).
  { intros d. by apply (cids_in_child _ i); [rewrite set_child_loaded|]. }
  split; [|done|done| |done|].
  2: { intros d Hd. assert (Hp : d ∈ cids (set_child n i (Some c')) ++ cids_of (child n i)).
    { rewrite (cids_set_child n i (Some c')) by (done || by eapply child_le). apply elem_of_app. by left. }
    rewrite Hc in Hp. apply elem_of_app in Hp as [?|Hp]; [done|]. by apply Hin, Hcids. }
  2: { intros b Hb. destruct (Hor b Hb) as [?|[?|?]]; auto. }
  eapply logged_set_child; [exact Hc| |done]. eapply logged_mono; [|exact Hn]. intros d. unfold seen_in. rewrite !list_elem_of_fmap.
  intros (b & Hb & Hbin). exists b. by split; [|apply Hi].
Qed.

(** What it takes to load a node. *)
Lemma ensure_loaded_run at_ n rf n' rf' : ensure_loaded src at_ (n, rf) = (Ok (), (n', rf')) ->
  (n_loaded n = true /\ n' = n /\ rf' = rf) \/
  (n_loaded n = false /\ exists cid data nd, n_cid n = Some cid /\ (MAX_LEVELS <? p_depth at_)%nat = false /\ src cid = Ok (Some data) /\
    populate_node n nd at_ = Ok n' /\ forall src2 : Source, src2 cid = Ok (Some data) -> ensure_loaded src2 at_ (n, rf) = (Ok (), (n', rf'))).
Proof.
  unfold ensure_loaded. intros ([c|] & [n1 rf1] & Hload & Hret)%st_bind_Ok; [done|]. apply st_ret_Ok in Hret as [_ [= <- <-]].
  pose proof Hload as Hl. unfold load in Hl. destruct (n_loaded n) eqn:Hn; [injection Hl as <- <-; by left|right]. split; [done|].
  destruct (n_cid n) as [cid|] eqn:Hcid; [|done]. destruct (MAX_LEVELS <? p_depth at_)%nat eqn:Hd; [done|].
  destruct (src cid) as [[data|]|e|] eqn:Hs; cbn [mbind res_bind] in Hl; [|done..].
  destruct (decode_node_data data) as [nd|e|] eqn:Hdec; cbn [mbind res_bind] in Hl; [|done..].
  exists cid, data, nd. split_and!; [done..| |].
  - destruct (link_children _ _ _) as [r [rf2 linked]]. destruct r as [[]|e|]; cbn [mbind res_bind] in Hl; [|done..].
    destruct (populate_node n nd at_) as [k|e|]; [by injection Hl as <- _|done..].
  - intros src2 Hs2. rewrite (st_bind_run _ _ (n, rf) None (n1, rf1)); [done|]. rewrite <- Hload. unfold load. by rewrite Hn, Hcid, Hd, Hs, Hs2.
Qed.

(** A node that is loaded is recorded. *)
Lemma records_load at_ : records (_ ← record_node src at_; on_tree (ensure_loaded src at_)) (_ ← record_node src' at_; on_tree (ensure_loaded src' at_)).
Proof.
  intros n rf s [] n' rf' s' Hrun Hn Hs. apply st_bind_Ok in Hrun as ([] & [[n1 rf1] s1] & Hrec & Hload). injection Hrec as <- <- <-.
  unfold on_tree in Hload. destruct (ensure_loaded src at_ (n, rf)) as [r [n1 rf1]] eqn:Hens. injection Hload as -> <- <- <-.
  assert (Hother : forall src2 : Source, forall s2, record_node src2 at_ (n, rf, s) = (Ok (), (n, rf, s2)) -> ensure_loaded src2 at_ (n, rf) = (Ok (), (n1, rf1)) ->
    (_ ← record_node src2 at_; on_tree (ensure_loaded src2 at_)) (n, rf, s) = (Ok (), (n1, rf1, s2))).
  { intros src2 s2 Hr He. rewrite (st_bind_run _ _ _ () (n, rf, s2) Hr). unfold on_tree. by rewrite He. }
  destruct (ensure_loaded_run at_ n rf n1 rf1 Hens) as [(Hl & -> & ->)|(Hl & cid & data & nd & Hcid & Hd & Hsrc & Hp & Hagain)].
  - rewrite Hl. split; [by apply recorded_same|]. intros _. apply Hother; [cbn; by rewrite Hl|]. unfold ensure_loaded, mbind, st_bind, load. by rewrite Hl.
  - rewrite Hl, Hcid, Hd, Hsrc. cbn [orb]. pose proof (populate_cids n nd at_ n1 Hl Hp) as Hperm. split; [split|].
    { eapply populate_logged; [exact Hp|]. intros c Hc. apply populate_node_Ok in Hp as (keys & _ & _ & ->). cbn in Hc. rewrite Hcid in Hc. injection Hc as <-.
      unfold seen_in. cbn. rewrite fmap_app, elem_of_app. right. by left. }
    { by apply seen_ok_push. }
    { intros b Hb. apply elem_of_app. by left. }
    { intros c Hc. rewrite Hperm. apply elem_of_app. by left. }
    { done. }
    { intros b [Hb|Hb%list_elem_of_singleton]%elem_of_app; [by left|]. right. right. subst b. rewrite Hperm. apply elem_of_app. left. by apply n_cid_in. }
    intros Hall.
    assert (Hsrc' : src' cid = Ok (Some data)). { apply (Hall (cid, data)). apply elem_of_app. right. by left. }
    apply Hother; [cbn; by rewrite Hl, Hcid, Hd, Hsrc'|by apply Hagain].
Qed.

Lemma records_ext {A} (m m' k k' : recording A) : (forall x, m x = k x) -> (forall x, m' x = k' x) -> records m m' -> records k k'.
Proof. intros Hm Hm' Hr n rf s a n' rf' s'. rewrite <- Hm, <- Hm'. apply Hr. Qed.

Lemma records_walk fuel at_ : records (recorded_walk fuel src (visit_leaf src) at_) (recorded_walk fuel src' (visit_leaf src') at_).
Proof.
  revert at_. induction fuel as [|fuel IH]; intros at_; [by intros n rf s a n' rf' s' ?|]. cbn [recorded_walk].
  eapply records_ext; [intros x; apply st_bind_assoc|intros x; apply st_bind_assoc|].
  apply records_bind; [apply records_load|]. intros _. apply records_bind; [apply records_the_node|]. intros n.
  apply records_for_each. intros i. apply records_bind; [apply records_leaf|]. intros _. apply records_child, IH.
Qed.

(** *** Without the record *)

(** The walk is [walk_node] but for what it records. *)
Definition erase (s : Seen) : Seen := MkSeen (leaves s) [] (leaf_err s).

Definition quiet (f : bytes -> Cid -> st Seen MstError ()) (key : bytes) (c : Cid) : st Seen MstError () := fun s =>
  let '(a, s') := f key c s in (a, erase s').

Definition same_but {A} (m k : recording A) : Prop := forall x s, let '(a, (x', s')) := m (x, s) in k (x, erase s) = (a, (x', erase s')).

Lemma same_but_bind {A B} (m k : recording A) (f g : A -> recording B) : same_but m k -> (forall a, same_but (f a) (g a)) -> same_but (m ≫= f) (k ≫= g).
Proof.
  intros Hm Hf x s. unfold mbind, st_bind. specialize (Hm x s). destruct (m (x, s)) as [[a|e|] [x' s']]; rewrite Hm; [apply Hf|done..].
Qed.

Lemma same_but_for_each {A} (f g : A -> recording ()) l : (forall a, same_but (f a) (g a)) -> same_but (for_each f l) (for_each g l).
Proof. intros Hf. induction l as [|a l IH]; cbn [for_each]; [by intros x s|]. apply same_but_bind; [apply Hf|by intros _]. Qed.

Lemma same_but_tree {A} (m : loading A) : same_but (on_tree m) (on_tree m).
Proof. intros x s. unfold on_tree. by destruct (m x) as [a x']. Qed.

Lemma same_but_leaf e : same_but (call (visit_leaf src) e) (call (quiet (visit_leaf src)) e).
Proof.
  intros x s. destruct e as [e|]; [|done]. cbn. unfold quiet, visit_leaf. cbn [leaves erase]. case_bool_decide; [done|].
  by destruct (src (e_val e)) as [[data|]|e'|].
Qed.

Lemma same_but_child i (m k : recording ()) : same_but m k -> same_but (on_child_walk i m) (on_child_walk i k).
Proof.
  intros Hm [n rf] s. unfold on_child_walk. destruct (child n i) as [c|]; [|done]. specialize (Hm (c, rf) s).
  destruct (m (c, rf, s)) as [r [[c' rf'] s']]. by rewrite Hm.
Qed.

Lemma same_but_walk fuel at_ : same_but (recorded_walk fuel src (visit_leaf src) at_) (walk_node fuel src (quiet (visit_leaf src)) at_).
Proof.
  revert at_. induction fuel as [|fuel IH]; intros at_; [by intros x s|]. cbn [recorded_walk walk_node]. intros [n rf] s.
  unfold mbind at 1, st_bind at 1, record_node at 1. cbv beta iota.
  set (s1 := if n_loaded n || _ then s else _). replace (erase s) with (erase s1).
  2: { unfold s1. destruct (_ || _); [done|]. destruct (n_cid n) as [c|]; [|done]. by destruct (src c) as [[data|]|e|]. }
  apply (same_but_bind _ _ _ _ (same_but_tree (ensure_loaded src at_))). intros _. apply same_but_bind; [apply same_but_tree|]. intros k.
  apply same_but_for_each. intros i. apply same_but_bind; [apply same_but_leaf|]. intros _. apply same_but_child, IH.
Qed.

Lemma quiet_calls l s s' : calls (quiet (visit_leaf src)) l s = (Ok (), s') -> forall c, c ∈ leaves s' <-> c ∈ leaves s \/ exists e, e ∈ l /\ e.2 = c.
Proof.
  clear src'. unfold calls. revert s. induction l as [|e l IH]; intros s; cbn [for_each].
  { intros [= <-] c. split; [by left|]. intros [?|(e & He%elem_of_nil & _)]; done. }
  intros ([] & s1 & Hcall & Hrest)%st_bind_Ok c. rewrite (IH s1 Hrest c).
  assert (Hs1 : c ∈ leaves s1 <-> c = e.2 \/ c ∈ leaves s).
  { unfold quiet, visit_leaf in Hcall. case_bool_decide as Hin; [injection Hcall as <-; cbn; naive_solver|].
    destruct (src e.2) as [[data|]|e'|]; [|done..]. injection Hcall as <-. cbn. by rewrite elem_of_union, elem_of_singleton. }
  rewrite Hs1. setoid_rewrite elem_of_cons. naive_solver.
Qed.

(** *** Reachable blocks *)

Hypothesis src_no_panic : forall c, no_panic (src c).

Lemma visit_leaf_no_panic key c s : (quiet (visit_leaf src) key c s).1 <> Panic.
Proof.
  unfold quiet, visit_leaf. case_bool_decide; [done|]. pose proof (src_no_panic c). by destruct (src c) as [[data|]|e|].
Qed.
End Recorder.

Section Reachable.
Context `{Sha2} `{Simdutf8} (src : Source).
Hypothesis src_no_panic : forall c, no_panic (src c).

#[local] Instance no_stubs : Stubs := {| stub_contents _ := []; stub_shape _ _ := False |}.

(** The walk of [reachable_blocks]. *)
Definition reachable_walk (source : Source) (root : Cid) : res MstError () * (Node * Refs * Seen) :=
  recorded_walk (load_fuel (stub root 0) ROOT) source (visit_leaf source) ROOT (stub root 0, {[root := 1%nat]}, MkSeen ∅ [] None).

Lemma reachable_walk_ok root : let '(r, (n', _, s')) := reachable_walk src root in
  match r with
  | Ok _ => (exists t, walk src (quiet (visit_leaf src)) (load_tree root, MkSeen ∅ [] None) = (Ok (), (t, erase s')) /\ MstDetached.root t = Some n') /\
      n_cid n' = Some root /\ full n' /\ of_blocks src n' /\ forall c, c ∈ leaves s' <-> exists e, e ∈ contents n' /\ e.2 = c
  | Err _ => True
  | Panic => False
  end.
Proof.
  unfold reachable_walk. pose proof (same_but_walk src (load_fuel (stub root 0) ROOT) ROOT (stub root 0, {[root := 1%nat]}) (MkSeen ∅ [] None)) as Hsame.
  destruct (recorded_walk _ _ _ _ _) as [r [[n' rf'] s']]. change (erase (MkSeen ∅ [] None)) with (MkSeen ∅ [] None) in Hsame.
  pose proof (walk_node_ok src src_no_panic (quiet (visit_leaf src)) (visit_leaf_no_panic src src_no_panic) (load_fuel (stub root 0) ROOT) ROOT
    (stub root 0) {[root := 1%nat]} (MkSeen ∅ [] None) (Nat.le_refl _)) as Hw.
  unfold walk_ok in Hw. rewrite Hsame in Hw. destruct Hw as (Hl & _ & Hq). destruct r as [[]|e|]; [|done..].
  destruct Hq as [Hf Hc]. split; [|split; [|split; [done|split; [by eapply loads_of_blocks, of_stub|]]]].
  2: { change (Some root) with (n_cid (stub root 0)). clear -Hl. induction Hl as [|x y z Hxy _ IH]; [done|]. rewrite IH. by eapply load_step_cid. }
  { exists (set_refs rf' (set_root (Some n') (load_tree root))). split; [|done]. unfold walk. cbn [check_usable load_tree poisoned MstDetached.root MstDetached.refs].
    by rewrite Hsame. } intros c. pose proof (quiet_calls src _ _ _ Hc c) as Hq. change (leaves (erase s')) with (leaves s') in Hq. rewrite Hq. split; [intros [Hn|?]; [by apply elem_of_empty in Hn|done]|by right].
Qed.

Lemma reachable_no_panic root : no_panic (reachable_blocks src root).
Proof.
  pose proof (reachable_walk_ok root) as Hw. unfold reachable_walk in Hw. unfold no_panic, reachable_blocks.
  by destruct (recorded_walk _ _ _ _ _) as [[[]|e|] [[n' rf'] s']].
Qed.

(** The blocks are the source's, are those of every node and leaf, and are
    found again by any source that has them. *)
Lemma reachable_Ok root bs : reachable_blocks src root = Ok bs ->
  (forall b, b ∈ bs -> src b.1 = Ok (Some b.2)) /\
  (forall src' : Source, (forall b, b ∈ bs -> src' b.1 = Ok (Some b.2)) -> reachable_blocks src' root = Ok bs) /\
  exists n' t s, walk src (quiet (visit_leaf src)) (load_tree root, MkSeen ∅ [] None) = (Ok (), (t, s)) /\ MstDetached.root t = Some n' /\
    n_cid n' = Some root /\ full n' /\ of_blocks src n' /\ (forall c, c ∈ cids n' -> c ∈ bs.*1) /\ (forall e, e ∈ contents n' -> e.2 ∈ bs.*1) /\
    (forall b, b ∈ bs -> b.1 ∈ cids n' \/ exists e, e ∈ contents n' /\ e.2 = b.1).
Proof.
  intros Hr. pose proof (reachable_walk_ok root) as Hw. unfold reachable_walk, reachable_blocks in *.
  destruct (recorded_walk _ _ _ _ _) as [r [[n' rf'] s']] eqn:Hrun. destruct r as [[]|e|]; [|done..]. injection Hr as <-. destruct Hw as ((t & Ht & Hroot) & Hrc & Hf & Hob & Hc).
  assert (Hstart : logged (seen_in (MkSeen ∅ [] None)) (stub root 0)) by (by apply logged_stub).
  pose proof (seen_ok_nil src) as Hempty.
  split; [|split].
  - intros b Hb. destruct (records_walk src src _ _ _ _ _ _ _ _ _ Hrun Hstart Hempty) as (Hrec & _). by apply (rec_ok _ _ _ _ _ Hrec).
  - intros src' Hall. destruct (records_walk src src' _ _ _ _ _ _ _ _ _ Hrun Hstart Hempty) as (_ & Hsame).
    by rewrite (Hsame Hall).
  - destruct (records_walk src src _ _ _ _ _ _ _ _ _ Hrun Hstart Hempty) as (Hrec & _). exists n', t, (erase s'). destruct Hrec as [Hlog Hok _ _ _ Hor]. split_and!; [done..| | |].
    + intros c Hin. exact (logged_cids _ n' c Hf Hlog Hin).
    + intros e He. apply (seen_leaves _ _ Hok), Hc. by exists e.
    + intros b Hb. destruct (Hor b Hb) as [?%elem_of_nil|[?|?]]; [done|right; by apply Hc|by left].
Qed.

(** They are those that the tree reaches, and are all there. *)
Lemma reachable_reaches root bs : reachable_blocks src root = Ok bs -> let has c data := (c, data) ∈ bs in
  (forall c, reaches_block has root c <-> c ∈ bs.*1) /\ forall c, tree_node has root c -> exists data nd, has c data /\ decode_node_data data = Ok nd.
Proof.
  intros Hr has. destruct (reachable_Ok root bs Hr) as (Hsrc & _ & n' & t & s & _ & _ & Hrc & Hf & Hob & Hcids & Hleaves & Horigin).
  destruct (of_blocks_reached src root n' Hf Hob) as [Hnodes Hrecs].
  { intros c Hc. rewrite Hrc in Hc. injection Hc as <-. apply tree_root. }
  assert (Hin : forall c, tree_node has root c -> c ∈ cids n').
  { induction 1 as [|c data nd d _ IH Hd Hdec Hl]; [by apply n_cid_in|]. destruct (of_blocks_closed src n' c Hf Hob IH) as (data' & nd' & Hs & Hdec' & Hcl & _).
    apply Hcl. apply Hsrc in Hd. cbn in Hd. rewrite Hs in Hd. injection Hd as ->. by assert (nd' = nd) as <- by congruence. }
  assert (Hhas : forall c data, c ∈ bs.*1 -> src c = Ok (Some data) -> has c data).
  { intros c data ([c' d] & -> & Hb)%list_elem_of_fmap Hs. pose proof (Hsrc _ Hb) as Hd. cbn in *. rewrite Hs in Hd. injection Hd as ->. exact Hb. }
  assert (Hback : forall c data, tree_node (fun c data => src c = Ok (Some data)) root c -> src c = Ok (Some data) -> has c data).
  { intros c data Hc Hd. apply Hhas; [|done]. apply Hcids. clear data Hd. induction Hc as [|c data nd d _ IH Hd Hdec Hl]; [by apply n_cid_in|].
    destruct (of_blocks_closed src n' c Hf Hob IH) as (data' & nd' & Hs & Hdec' & Hcl & _). apply Hcl. rewrite Hs in Hd. injection Hd as ->.
    by assert (nd' = nd) as <- by congruence. }
  split.
  - intros c. split.
    + intros [d Hd|d data nd e Hd Hb Hdec He]; [by apply Hcids, Hin|]. destruct (of_blocks_closed src n' d Hf Hob (Hin d Hd)) as (data' & nd' & Hs & Hdec' & _ & Hrec).
      apply Hsrc in Hb. cbn in Hb. rewrite Hs in Hb. injection Hb as ->. assert (nd' = nd) as -> by congruence.
      destruct (Hrec e He) as (e' & Hin' & <-). by apply Hleaves.
    + intros ([c' d] & -> & Hb)%list_elem_of_fmap. cbn. eapply reaches_mono; [exact Hback|].
      destruct (Horigin _ Hb) as [Hc|(e & He & Hc)]; cbn in Hc; [apply reach_node; by apply Hnodes|]. rewrite <- Hc. by apply Hrecs.
  - intros c Hc. destruct (of_blocks_closed src n' c Hf Hob (Hin c Hc)) as (data & nd & Hs & Hdec & _). exists data, nd. split; [|done].
    apply Hhas; [by apply Hcids, Hin|done].
Qed.
End Reachable.

(** ** The blocks of an archive *)

Section Archives.
Context `{Simdutf8Laws} `{Sha2Laws}.

(** Every block hashes to its CID. *)
Definition hashed (blocks : gmap Cid bytes) : Prop := forall c data, blocks !! c = Some data -> compute (codec c) data = c.

Lemma import_blocks_Ok fuel reader m m' : import_blocks fuel reader m = Ok m' -> hashed m -> hashed m'.
Proof.
  revert reader m. induction fuel as [|fuel IH]; intros reader m; [done|]. cbn [import_blocks].
  destruct (CarSlice.next reader) as [[b|] reader']; [|by intros [= <-]]. intros (blk & _ & Hrest)%res_bind_Ok Hm.
  case_bool_decide as Hh; cbn [negb] in Hrest; [|done]. apply (IH _ _ Hrest). destruct (m !! Car.cid blk); [done|].
  intros c data. destruct (decide (Car.cid blk = c)) as [<-|Hne]; [rewrite lookup_insert_eq; by intros [= <-]|rewrite lookup_insert_ne by done; apply Hm].
Qed.

Lemma import_blocks_no_panic fuel reader m : Forall is_u8 (CarSlice.rest reader) -> (length (CarSlice.rest reader) < fuel)%nat ->
  no_panic (import_blocks fuel reader m).
Proof.
  revert reader m. induction fuel as [|fuel IH]; intros reader m Hu Hl; [lia|]. cbn [import_blocks]. unfold CarSlice.next.
  case_bool_decide; [done|]. pose proof (CarSlice.split_block_no_panic reader Hu) as Hp.
  destruct (CarSlice.split_block reader) as [[b|e|] reader'] eqn:Hs; cbn [is_ok map_err mbind res_bind]; [|done..].
  pose proof (CarSlice.split_block_shorter reader b reader' Hu Hs) as [Hlt Hu']. case_bool_decide; cbn [negb]; [|done]. apply IH; [done|lia].
Qed.

(** The first block of each CID. *)
Definition add_blocks (bs : Datatypes.list Car.Block) (m : gmap Cid bytes) : gmap Cid bytes :=
  foldl (fun m b => match m !! Car.cid b with Some _ => m | None => <[Car.cid b := Car.data b]> m end) m bs.

Lemma import_collect fuel reader bs m : CarSlice.collect_blocks fuel reader = Ok bs ->
  (forall b, b ∈ bs -> compute (codec (Car.cid b)) (Car.data b) = Car.cid b) -> import_blocks fuel reader m = Ok (add_blocks bs m).
Proof.
  revert reader bs m. induction fuel as [|fuel IH]; intros reader bs m; [done|]. cbn [CarSlice.collect_blocks import_blocks].
  destruct (CarSlice.next reader) as [[b|] reader']; [|by intros [= <-]].
  intros (blk & -> & (bs' & Hrest & [= <-])%res_bind_Ok)%res_bind_Ok Hall. cbn [map_err mbind res_bind].
  rewrite (Hall blk) by (by left). rewrite bool_decide_true by done. cbn [negb]. cbn [add_blocks foldl]. apply IH; [done|]. intros b Hb. apply Hall. by right.
Qed.

(** Every block of the archive is read, and hashes to its CID. *)
Lemma import_blocks_collects fuel reader m m' : import_blocks fuel reader m = Ok m' ->
  exists all, CarSlice.collect_blocks fuel reader = Ok all /\ Forall (fun b => compute (codec (Car.cid b)) (Car.data b) = Car.cid b) all /\
    forall c data, m' !! c = Some data -> m !! c = Some data \/ Car.MkBlock c data ∈ all.
Proof.
  revert reader m. induction fuel as [|fuel IH]; intros reader m; [done|]. cbn [import_blocks CarSlice.collect_blocks].
  destruct (CarSlice.next reader) as [[b|] reader']; [|intros [= <-]; exists []; split_and!; [done|constructor|by left]].
  intros (blk & Hb%map_err_Ok & Hrest)%res_bind_Ok. subst b. cbn [mbind res_bind]. case_bool_decide as Hh; cbn [negb] in Hrest; [|done].
  destruct (IH _ _ Hrest) as (all & Hall & Hha & Hm). rewrite Hall. cbn [mbind res_bind]. exists (blk :: all). split; [done|]. split; [by constructor|].
  intros c data Hc. rewrite elem_of_cons. destruct (Hm c data Hc) as [Hm1|?]; [|by right; right]. destruct (m !! Car.cid blk); [by left|].
  apply lookup_insert_Some in Hm1 as [[<- <-]|[_ ?]]; [right; left; by destruct blk|by left].
Qed.

(** All from one map. *)
Lemma add_blocks_same (F : Cid -> option bytes) bs m : (forall b, b ∈ bs -> F (Car.cid b) = Some (Car.data b)) -> (forall c data, m !! c = Some data -> F c = Some data) ->
  (forall c data, add_blocks bs m !! c = Some data -> F c = Some data) /\
  (forall c, is_Some (m !! c) \/ c ∈ map Car.cid bs -> is_Some (add_blocks bs m !! c)).
Proof.
  revert m. induction bs as [|b bs IH]; intros m Hb Hm; cbn [add_blocks foldl map].
  { split; [done|]. intros c [?|Hc%elem_of_nil]; done. }
  set (m1 := match m !! Car.cid b with Some _ => m | None => <[Car.cid b := Car.data b]> m end).
  assert (Hm1 : forall c data, m1 !! c = Some data -> F c = Some data).
  { intros c data. unfold m1. destruct (m !! Car.cid b); [apply Hm|]. destruct (decide (Car.cid b = c)) as [<-|Hne].
    - rewrite lookup_insert_eq. intros [= <-]. apply Hb. by left.
    - rewrite lookup_insert_ne by done. apply Hm. }
  assert (Hs1 : forall c, is_Some (m !! c) \/ c = Car.cid b -> is_Some (m1 !! c)).
  { intros c Hc. unfold m1. destruct (m !! Car.cid b) as [d|] eqn:Hd; [destruct Hc as [?| ->]; [done|by exists d]|].
    destruct (decide (Car.cid b = c)) as [<-|Hne]; [rewrite lookup_insert_eq; by eexists|]. rewrite lookup_insert_ne by done. destruct Hc as [?|?]; [done|congruence]. }
  destruct (IH m1) as [H1' H2']; [intros b' Hb'; apply Hb; by right|done|]. split; [done|]. intros c [Hc|[Hc|Hc]%elem_of_cons]; apply H2'; auto.
Qed.

(** *** A repository in an archive *)

(** The commit [block] at [root] and the blocks that its tree reaches. *)
Record archived (root : Cid) (commit : Commit) (block : bytes) (bs : Datatypes.list (Cid * bytes)) : Prop := {
  ar_codec : codec root = Drisl;
  ar_commit : RepoCommit.from_cbor block = Ok commit;
  ar_hash b : b ∈ (root, block) :: bs -> compute (codec b.1) b.2 = b.1;
  ar_one b b' : b ∈ (root, block) :: bs -> b' ∈ (root, block) :: bs -> b.1 = b'.1 -> b = b';
  ar_apart b : b ∈ bs -> b.1 <> root;
  ar_reach (src : Source) : (forall b, b ∈ bs -> src b.1 = Ok (Some b.2)) -> reachable_blocks src (RepoCommit.data commit) = Ok bs
}.

(** The blocks as a map. *)
Definition archive_map (root : Cid) (block : bytes) (bs : Datatypes.list (Cid * bytes)) : gmap Cid bytes :=
  <[root := block]> (list_to_map (List.rev bs)).

Lemma archive_map_lookup root commit block bs c data : archived root commit block bs ->
  archive_map root block bs !! c = Some data <-> (c, data) ∈ (root, block) :: bs.
Proof.
  intros Ha. unfold archive_map. assert (Hrev : forall b, b ∈ List.rev bs <-> b ∈ bs) by (intros b; rewrite !list_elem_of_In; symmetry; apply in_rev).
  destruct (decide (root = c)) as [<-|Hne].
  - rewrite lookup_insert_eq. split; [intros [= <-]; by left|]. intros Hin. f_equal.
    by injection (ar_one _ _ _ _ Ha (root, block) (root, data) ltac:(by left) Hin eq_refl).
  - rewrite lookup_insert_ne by done. split.
    + intros Hc%elem_of_list_to_map_2. right. by apply Hrev.
    + intros [[= <- <-]|Hin]%elem_of_cons; [done|]. apply elem_of_list_to_map_1'; [|by apply Hrev].
      intros d Hd%Hrev. by injection (ar_one _ _ _ _ Ha (c, d) (c, data) ltac:(by right) ltac:(by right) eq_refl).
Qed.

(** The archive [car] has one root and blocks that hash to their CIDs, these
    among them. *)
Definition from_archive (car : bytes) (root : Cid) (block : bytes) (bs : Datatypes.list (Cid * bytes)) : Prop :=
  exists all, CarSlice.read_slice car = Ok ([root], all) /\ Forall (fun b => compute (codec (Car.cid b)) (Car.data b) = Car.cid b) all /\
    forall b, b ∈ (root, block) :: bs -> Car.MkBlock b.1 b.2 ∈ all.

Lemma source_no_panic (m : gmap Cid bytes) c : no_panic (Ok (m !! c) : res MstError (option bytes)).
Proof. done. Qed.

Lemma read_repo_Ok car root commit new_blocks : read_repo car = Ok (root, commit, new_blocks) ->
  exists block bs, archived root commit block bs /\ new_blocks = archive_map root block bs /\ from_archive car root block bs.
Proof.
  unfold read_repo. intros (reader & Hreader%map_err_Ok & (root' & Hroot & (blocks & Hblocks & Hrest)%res_bind_Ok)%res_bind_Ok)%res_bind_Ok.
  case_bool_decide as Hcodec; cbn [negb] in Hrest; [|done].
  apply res_bind_Ok in Hrest as (block & Hblock%ok_or_Ok & (commit' & Hfrom & (bs & Hreach & [= <- <- <-])%res_bind_Ok)%res_bind_Ok).
  exists block, bs. destruct (import_blocks_collects _ _ _ _ Hblocks) as (all & Hcol & Hha & Hmem).
  pose proof (import_blocks_Ok _ _ _ _ Hblocks ltac:(intros c d; by rewrite lookup_empty)) as Hhash.
  destruct (reachable_Ok (fun cid => Ok (base.delete root' blocks !! cid)) (source_no_panic _) _ _ Hreach) as (Hsrc & Hagain & _).
  assert (Hin : forall b, b ∈ bs -> b.1 <> root' /\ blocks !! b.1 = Some b.2).
  { intros b Hb. apply Hsrc in Hb. injection Hb as Hb. apply lookup_delete_Some in Hb as [? ?]. by split. }
  assert (Hall : forall b, b ∈ (root', block) :: bs -> blocks !! b.1 = Some b.2) by (intros b [->|Hb]%elem_of_cons; [done|by apply Hin]).
  split; [|split; [done|]].
  2: { exists all. split; [|split; [done|]].
    - unfold CarSlice.read_slice. rewrite Hreader. cbn [mbind res_bind]. rewrite Hcol. cbn [mbind res_bind]. do 2 f_equal.
      destruct (CarSlice.roots reader) as [|? [|]]; [done| |done]. by injection Hroot as ->.
    - intros b Hb. destruct (Hmem b.1 b.2 (Hall b Hb)) as [Hn|?]; [by rewrite lookup_empty in Hn|done]. }
  split; [done|done| | |by apply Hin|exact Hagain].
  - intros b Hb. by apply Hhash, Hall.
  - intros [c d] [c' d'] Hb Hb' He. apply Hall in Hb, Hb'. cbn in *. subst c'. congruence.
Qed.

(** A whole repository: the block of its commit, and exactly the blocks that
    its tree reaches, every node and every record. *)
Record whole (root : Cid) (commit : Commit) (block : bytes) (bs : Datatypes.list (Cid * bytes)) : Prop := {
  wh_codec : codec root = Drisl;
  wh_commit : RepoCommit.from_cbor block = Ok commit;
  wh_hash b : b ∈ (root, block) :: bs -> compute (codec b.1) b.2 = b.1;
  wh_reach c : reaches_block (fun c data => (c, data) ∈ bs) (RepoCommit.data commit) c <-> c ∈ bs.*1;
  wh_nodes c : tree_node (fun c data => (c, data) ∈ bs) (RepoCommit.data commit) c -> exists data nd, (c, data) ∈ bs /\ decode_node_data data = Ok nd
}.

Lemma archived_whole root commit block bs : archived root commit block bs -> whole root commit block bs.
Proof.
  intros Ha. assert (Hr : reachable_blocks (fun c => Ok (archive_map root block bs !! c)) (RepoCommit.data commit) = Ok bs).
  { apply (ar_reach _ _ _ _ Ha). intros [c data] Hb. f_equal. cbn. apply (archive_map_lookup root commit); [done|by right]. }
  destruct (reachable_reaches _ (source_no_panic _) _ _ Hr) as [Hreach Hnodes]. by destruct Ha; split.
Qed.

Lemma read_repo_no_panic car : Forall is_u8 car -> no_panic (read_repo car).
Proof.
  intros Hu. unfold read_repo. apply no_panic_bind; [by apply no_panic_map_err, CarSlice.new_no_panic|]. intros reader Hnew%map_err_Ok.
  apply no_panic_bind; [by destruct (CarSlice.roots reader) as [|? [|]]|]. intros root _.
  apply (CarSlice.new_Ok _ _ Hu) in Hnew as (hd & -> & _). apply Forall_app in Hu as [_ Hu].
  apply no_panic_bind; [apply import_blocks_no_panic; [done|lia]|]. intros blocks _. apply no_panic_if; intros _.
  apply no_panic_bind; [by apply no_panic_ok_or|]. intros block _. apply no_panic_bind; [apply RepoCommit.from_cbor_no_panic|]. intros commit _.
  apply no_panic_bind; [by apply reachable_no_panic|done].
Qed.
End Archives.

(** ** Importing *)

Section Store.
Context `{Simdutf8Laws} `{Sha2Laws} {S : Type} `{RepoStoreLaws S}.
Implicit Types (r : Repo S) (s : S).

(** What the store is given, and what it then holds. *)
Definition import_data (root : Cid) (commit : Commit) (new_blocks : gmap Cid bytes) : CommitData :=
  MkCommitData root commit None None None new_blocks ∅ [] [].

(** The store holds what the archive has, and nothing else that it did not. *)
Record stored_archive s s' (root : Cid) (block : bytes) (bs : Datatypes.list (Cid * bytes)) : Prop := {
  sa_head : store_at s' = Some root;
  sa_has b : b ∈ (root, block) :: bs -> store_blocks s' !! b.1 = Some b.2;
  sa_only c data : store_blocks s' !! c = Some data -> store_blocks s !! c = Some data \/ (c, data) ∈ (root, block) :: bs
}.

Lemma store_archive s root commit block bs : archived root commit block bs ->
  let '(a, s') := store_commit (import_data root commit (archive_map root block bs)) s in
  match a with
  | Ok _ => stored_archive s s' root block bs
  | Err e => exists m, e = RepoStorage m
  | Panic => False
  end.
Proof.
  intros Ha. unfold store_commit. pose proof (apply_commit_law (import_data root commit (archive_map root block bs)) s) as Hlaw.
  destruct (apply_commit _ s) as [[[]|m|] s']; cbn; [|by exists m|done]. destruct Hlaw as (Hat & Hkept & _). cbn in Hat, Hkept.
  assert (Hlook : forall c, store_blocks s' !! c = (archive_map root block bs ∪ store_blocks s) !! c) by (intros c; apply Hkept; by intros ?%elem_of_nil).
  split; [done| |].
  - intros [c data] Hb. cbn. rewrite Hlook. apply lookup_union_Some_raw. left. by apply (archive_map_lookup root commit).
  - intros c data. rewrite Hlook. intros [Hc|[_ Hc]]%lookup_union_Some_raw; [right; by apply (archive_map_lookup root commit) in Hc|by left].
Qed.

(** Opening a store that holds a commit. *)
Lemma open_archive s root commit block bs s0 : archived root commit block bs -> stored_archive s0 s root block bs ->
  match open s with
  | Ok r => store r = s /\ head r = Some (MkHead root commit)
  | Err e => exists m, e = RepoStorage m
  | Panic => False
  end.
Proof.
  intros Ha Hs. unfold open. pose proof (store_head_law s) as Hhead. destruct (store_head s) as [v|m|]; [|by exists m|done].
  rewrite (sa_head _ _ _ _ _ Hs) in Hhead. subst v. cbn [storage map_err mbind res_bind ok_or].
  unfold stored_block. pose proof (get_block_law s root) as Hget. destruct (get_block s root) as [v|m|]; [|by exists m|done].
  pose proof (sa_has _ _ _ _ _ Hs (root, block) ltac:(by left)) as Hroot. cbn in Hroot. rewrite Hroot in Hget. subst v. cbn [storage map_err mbind res_bind ok_or].
  rewrite (ar_commit _ _ _ _ Ha). cbn [mbind res_bind]. destruct (clock_id_new (RepoCommit.rev commit)) as [id ->]. by cbn.
Qed.

Lemma import_car_run car s : Forall is_u8 car ->
  let '(a, s') := import_car car s in
  match a with
  | Ok r => open s' = Ok r /\ store_at s = None /\ exists root commit block bs, read_repo car = Ok (root, commit, archive_map root block bs) /\
      store r = s' /\ head r = Some (MkHead root commit) /\ archived root commit block bs /\ from_archive car root block bs /\ stored_archive s s' root block bs
  | Err e => (s' = s /\ ((e = StoreNotEmpty /\ store_at s <> None) \/ store_at s = None /\ read_repo car = Err e)) \/ exists m, e = RepoStorage m
  | Panic => False
  end.
Proof.
  intros Hu. unfold import_car, head_of, mbind, st_bind. pose proof (store_head_law s) as Hhead.
  destruct (store_head s) as [v|m|]; cbn [storage map_err]; [|right; by exists m|done]. subst v.
  case_bool_decide as Hat; [left; split; [done|]; left; split; [done|by apply not_eq_None_Some]|]. apply eq_None_not_Some in Hat.
  unfold lift. pose proof (read_repo_no_panic car Hu) as Hnp. destruct (read_repo car) as [[[root commit] nb]|e|] eqn:Hread; [|by left; split; [|by right]|done].
  destruct (read_repo_Ok _ _ _ _ Hread) as (block & bs & Ha & -> & Hfa). pose proof (store_archive s root commit block bs Ha) as Hst. unfold import_data in Hst.
  destruct (store_commit _ s) as [[[]|e|] s']; [|by right|done].
  unfold open_again. pose proof (open_archive s' root commit block bs s Ha Hst) as Ho. destruct (open s') as [r|e|]; [|by right|done].
  destruct Ho as [Hs Hh]. split; [done|]. split; [done|]. by exists root, commit, block, bs.
Qed.

(** ** Exporting *)

(** The store answers what it is asked. *)
Definition answering s : Prop := forall c, borrow_block s c = Ok (store_blocks s !! c).

Definition archive_blocks (root : Cid) (block : bytes) (bs : Datatypes.list (Cid * bytes)) : Datatypes.list Car.Block :=
  map (fun b => Car.MkBlock b.1 b.2) ((root, block) :: bs).

Lemma export_archive r root commit block bs s0 : head r = Some (MkHead root commit) -> archived root commit block bs ->
  stored_archive s0 (store r) root block bs -> answering (store r) ->
  export_car r = map_err RepoCar (CarWriter.write_all [root] (archive_blocks root block bs)).
Proof.
  intros Hh Ha Hs Hans. unfold export_car. rewrite Hh. cbn [ok_or mbind res_bind head_cid head_commit].
  assert (Hsrc : forall b, b ∈ (root, block) :: bs -> StoreSource (store r) b.1 = Ok (Some b.2)).
  { intros b Hb. unfold StoreSource. rewrite Hans, (sa_has _ _ _ _ _ Hs b Hb). done. }
  unfold source_block. pose proof (Hsrc (root, block) ltac:(by left)) as Hroot. cbn [fst snd] in Hroot. rewrite Hroot. cbn [map_err mbind res_bind ok_or].
  rewrite (ar_reach _ _ _ _ Ha (StoreSource (store r))) by (intros b Hb; apply Hsrc; by right). done.
Qed.

Lemma archive_blocks_car root block bs b : b ∈ archive_blocks root block bs <-> (Car.cid b, Car.data b) ∈ (root, block) :: bs.
Proof.
  unfold archive_blocks. change (map ?f ?l) with (f <$> l). rewrite list_elem_of_fmap. split.
  - by intros ([c d] & -> & Hin).
  - intros Hin. exists (Car.cid b, Car.data b). by destruct b.
Qed.

Lemma write_all_read root (blocks : Datatypes.list Car.Block) out : cid_wf root -> Forall CarWriter.block_fits blocks ->
  CarWriter.write_all [root] blocks = Ok out -> Forall is_u8 out /\ CarSlice.read_slice out = Ok ([root], blocks).
Proof.
  intros Hr Hb Hw. destruct (CarWriter.write_all_format [root] blocks) as (car & Hw' & Hf); [by constructor|done|done|].
  rewrite Hw in Hw'. injection Hw' as <-. assert (Hu : Forall is_u8 out).
  { eapply CarWriter.car_format_u8; [|exact Hf]. eapply Forall_impl; [exact Hb|]. by intros b (_ & ? & _). }
  split; [done|]. by apply CarSlice.read_slice_Ok.
Qed.

(** What was written is read. *)
Lemma read_written root commit block bs out : archived root commit block bs -> Forall CarWriter.block_fits (archive_blocks root block bs) ->
  CarWriter.write_all [root] (archive_blocks root block bs) = Ok out -> Forall is_u8 out /\ read_repo out = Ok (root, commit, archive_map root block bs).
Proof.
  intros Ha Hfit Hw. assert (Hroot : cid_wf root) by (by inversion Hfit as [|? ? (? & _) _]).
  destruct (write_all_read root _ out Hroot Hfit Hw) as [Hu Hread]. split; [done|].
  unfold CarSlice.read_slice in Hread. apply res_bind_Ok in Hread as (reader & Hnew & (blocks & Hcol & [= Hroots ->])%res_bind_Ok).
  unfold read_repo. rewrite Hnew. cbn [map_err mbind res_bind]. rewrite Hroots. cbn [mbind res_bind].
  rewrite (import_collect _ _ _ ∅ Hcol).
  2: { intros b Hb%archive_blocks_car. apply (ar_hash _ _ _ _ Ha _ Hb). }
  cbn [mbind res_bind]. rewrite (ar_codec _ _ _ _ Ha), bool_decide_true by done. cbn [negb].
  set (m := add_blocks (archive_blocks root block bs) ∅).
  assert (Hm : forall b, b ∈ (root, block) :: bs -> m !! b.1 = Some b.2).
  { destruct (add_blocks_same (fun c => archive_map root block bs !! c) (archive_blocks root block bs) ∅) as [Hs1 Hs2].
    - intros b Hb%archive_blocks_car. by apply (archive_map_lookup root commit).
    - intros c data. by rewrite lookup_empty.
    - intros [c data] Hb. change (m !! c = Some data). destruct (Hs2 c) as [d Hd].
      { right. change (map ?f ?l) with (f <$> l). apply list_elem_of_fmap. exists (Car.MkBlock c data). split; [done|]. by apply archive_blocks_car. }
      change (m !! c = Some d) in Hd. rewrite Hd. apply Hs1 in Hd. rewrite <- Hd. by apply (archive_map_lookup root commit). }
  pose proof (Hm (root, block) ltac:(by left)) as Hmr. cbn [fst snd] in Hmr. rewrite Hmr. cbn [ok_or mbind res_bind]. rewrite (ar_commit _ _ _ _ Ha). cbn [mbind res_bind].
  rewrite (ar_reach _ _ _ _ Ha); [done|]. intros b Hb. f_equal. rewrite lookup_delete_ne; [by apply Hm; right|].
  intros Hc. by apply (ar_apart _ _ _ _ Ha b Hb).
Qed.
End Store.

(** ** From one store to another *)

Lemma full_no_stubs n : full n -> stub_cids n = [].
Proof.
  induction n as [n IH] using Node_kids_ind. intros Hf. inversion Hf as [k Hl Hk]; subst. rewrite stub_cids_kids by done.
  apply elem_of_nil_inv. intros c (m & Hm & Hc)%elem_of_concat_map. destruct (kids_child n m Hm) as [i Hi]. rewrite (IH m Hm) in Hc by (by apply (Hk i)).
  by apply elem_of_nil in Hc.
Qed.

Lemma full_entries (St1 St2 : Stubs) n e : full n -> e ∈ @contents St1 n -> e ∈ @contents St2 n.
Proof.
  induction n as [n IH] using Node_kids_ind. intros Hf. inversion Hf as [k Hl Hk]; subst. rewrite !contents_kids by done.
  rewrite !elem_of_app, !elem_of_concat_map. intros [?|(m & Hm & He)]; [by left|right]. exists m. split; [done|].
  destruct (kids_child n m Hm) as [i Hi]. apply IH; [done|by apply (Hk i)|done].
Qed.

Section Transfer.
Context `{Simdutf8Laws} `{Sha2Laws} {S S2 : Type} `{RepoStoreLaws S} `{RepoStoreLaws S2} {K V : Type} `{SigningLaws K V}.
Context (known : bytes -> Prop) (known_inj : collision_free known) (signer : K).
Implicit Types (r : Repo S) (l : kvs).

(** The blocks that a stored tree reaches: those of its nodes and records. *)
Lemma reachable_tree (s : S) h l bs : honest_blocks known (store_blocks s) -> map_ok known l -> stored s h l ->
  reachable_blocks (StoreSource s) (RepoCommit.data (head_commit h)) = Ok bs ->
  (forall height piece, map_part l height piece -> cid_of height piece ∈ bs.*1) /\
  (forall key c, (key, c) ∈ l -> c ∈ bs.*1) /\
  forall b, b ∈ bs -> node_cid_ok known b.1 \/ exists key, (key, b.1) ∈ l.
Proof.
  intros Hb Hl [Hroot [Ho Hv] _ _ _] Hr.
  destruct (reachable_Ok _ (repo_source_no_panic s) _ _ Hr) as (_ & _ & n' & t & st & Hwalk & Hn & Hrc & Hf & _ & Hcids & Hleaves & Horigin).
  assert (Ht0 : backed known (fun _ => True) l (load_tree (RepoCommit.data (head_commit h))) l) by (by apply load_backed).
  assert (Hsrc : serves (StoreSource s) l) by (apply (honest_serves known known_inj); [done|by apply store_source_honest]).
  pose proof (backed_walk known known_inj l Hl (StoreSource s) Hsrc (repo_source_no_panic s) (quiet (visit_leaf (StoreSource s)))
    _ _ l (MkSeen ∅ [] None) (visit_leaf_no_panic _ (repo_source_no_panic s)) Hl Ht0) as Hw. rewrite Hwalk in Hw. destruct Hw as [Ht _].
  pose proof (backed_stubs _ _ _ _ _ Ht) as Hst. pose proof Hst as (_ & _ & _ & _ & Hrt). rewrite Hn in Hrt. destruct Hrt as [[_ Hcont] Hemp].
  assert (Hheld : forall c, c ∈ held t <-> c ∈ cids n').
  { intros c. unfold held. rewrite Hn, Hemp. cbn. by rewrite app_nil_r. }
  split_and!.
  - intros height piece Hp. apply Hcids, Hheld.
    destruct (tree_parts known known_inj l Hl _ (within_closed _) t l height piece Hst) as [?|(u & hu & Hu & _)]; [by apply Ht| |done|done|].
    + unfold root_cid. rewrite Hn. by rewrite Hrc.
    + unfold tree_stubs in Hu. rewrite Hn, (full_no_stubs n' Hf) in Hu. by apply elem_of_nil in Hu.
  - intros key c Hin. rewrite <- Hcont in Hin. apply (Hleaves (key, c)). by eapply full_entries.
  - intros b Hb'. destruct (Horigin b Hb') as [Hc|([key c] & He & Hc)].
    + left. apply (held_node known known_inj l _ t l b.1 Hl Hl (within_closed _) Hst). by apply Hheld.
    + right. cbn in Hc. subst c. exists key. rewrite <- Hcont. by eapply full_entries.
Qed.

(** Every block of the store fits in an archive. *)
Definition fitting (s : S) : Prop := forall c data, store_blocks s !! c = Some data -> CarWriter.block_fits (Car.MkBlock c data).

Lemma store_source_Some (s : S) c data : StoreSource s c = Ok (Some data) -> store_blocks s !! c = Some data.
Proof.
  unfold StoreSource. pose proof (borrow_block_law s c) as Hb. destruct (borrow_block s c) as [v|e|]; [|done..]. cbn. intros [= ->]. by rewrite Hb.
Qed.

(** What a repository exports is its last commit, with every block of it. *)
Lemma export_run r l l0 h out : stands_as known r l l0 -> head r = Some h -> export_car r = Ok out ->
  exists block bs, archived (head_cid h) (head_commit h) block bs /\
    CarWriter.write_all [head_cid h] (archive_blocks (head_cid h) block bs) = Ok out /\
    (forall b, b ∈ (head_cid h, block) :: bs -> store_blocks (store r) !! b.1 = Some b.2) /\
    reachable_blocks (StoreSource (store r)) (RepoCommit.data (head_commit h)) = Ok bs.
Proof.
  intros [Hr Hd] Hh. unfold export_car. rewrite Hh. cbn [ok_or mbind res_bind].
  intros (block & (v & Hv%map_err_Ok & Hblock%ok_or_Ok)%res_bind_Ok & (bs & Hbs & Hout%map_err_Ok)%res_bind_Ok)%res_bind_Ok. subst v.
  apply store_source_Some in Hv. pose proof (ok_head _ _ _ _ Hr) as Hhd. rewrite Hh in Hhd. destruct Hhd as [Hst _].
  pose proof (proj1 (ok_blocks _ _ _ _ Hr)) as Hb. pose proof Hst as [_ _ Hcodec (block' & Hblock' & Hfrom) _].
  rewrite Hv in Hblock'. injection Hblock' as <-.
  destruct (reachable_tree (store r) h l0 bs Hb (ok_last_map _ _ _ _ Hr) Hst Hbs) as (_ & _ & Hor).
  destruct (reachable_Ok _ (repo_source_no_panic (store r)) _ _ Hbs) as (Hsrc & Hagain & _).
  assert (Hall : forall b, b ∈ (head_cid h, block) :: bs -> store_blocks (store r) !! b.1 = Some b.2).
  { intros b [->|Hin]%elem_of_cons; [done|]. by apply store_source_Some, Hsrc. }
  assert (Hleaf : forall (b : Cid * bytes) key, (key, b.1) ∈ l0 -> plain_cid known b.1).
  { intros b key Hin. apply (dur_last _ _ _ _ Hd key). apply get_in; [|done]. apply Hst. }
  exists block, bs. split; [|by split_and!]. split; [done|done| | | |exact Hagain].
  - intros b Hin. pose proof (Hall b Hin) as Hlook. assert (codec b.1 = Drisl) as Hc.
    { apply elem_of_cons in Hin as [->|Hin]; [done|]. destruct (Hor b Hin) as [(nd & _ & Hc)|[key Hk]]; [by (rewrite Hc || rewrite <- Hc)|]. by destruct (Hleaf b key Hk) as (d & _ & ->). }
    rewrite Hc. by apply Hb.
  - intros [c d] [c' d'] Hin Hin' Heq. apply Hall in Hin, Hin'. cbn in *. subst c'. congruence.
  - intros b Hin. destruct (Hor b Hin) as [Hn|[key Hk]]; [by apply (last_not_node known known_inj (store r) h l0)|].
    intros Heq. apply (plain_not_head known known_inj r l l0 b.1 Hr); [by eapply Hleaf|]. unfold last_cid. rewrite Hh. cbn. congruence.
Qed.

(** A store that has the blocks of an export has the repository. *)
Lemma stored_run r l l0 h block bs (s s' : S2) : stands_as known r l l0 -> head r = Some h -> archived (head_cid h) (head_commit h) block bs ->
  reachable_blocks (StoreSource (store r)) (RepoCommit.data (head_commit h)) = Ok bs ->
  stored_archive s s' (head_cid h) block bs -> honest_blocks known (store_blocks s) ->
  (forall b, b ∈ (head_cid h, block) :: bs -> store_blocks (store r) !! b.1 = Some b.2) ->
  match open s' with
  | Ok r2 => store r2 = s' /\ head r2 = Some h /\ did r2 = RepoCommit.did (head_commit h) /\ stands_as known r2 l0 l0
  | Err e => exists m, e = RepoStorage m
  | Panic => False
  end.
Proof.
  intros [Hr Hd] Hh Ha Hbs Hsa Hs Hall. pose proof (ok_head _ _ _ _ Hr) as Hhd. rewrite Hh in Hhd. destruct Hhd as [Hst _].
  pose proof (proj1 (ok_blocks _ _ _ _ Hr)) as Hb.
  destruct (reachable_tree (store r) h l0 bs Hb (ok_last_map _ _ _ _ Hr) Hst Hbs) as (Hparts & Hleaves & _).
  assert (Hhas : forall c, c ∈ bs.*1 -> is_Some (store_blocks s' !! c)).
  { intros c ([c' d] & -> & Hin)%list_elem_of_fmap. exists d. apply (sa_has _ _ _ _ _ Hsa (c', d)). by right. }
  assert (Hhonest : honest_blocks known (store_blocks s')).
  { intros c d [Hc|Hin]%(sa_only _ _ _ _ _ Hsa) Hcodec; [by apply Hs|]. apply Hb; [|done]. apply (Hall (c, d) Hin). }
  assert (Hstored : stored s' h l0).
  { split; [apply Hst|apply Hst|apply Hst| |].
    - exists block. split; [|by apply (ar_commit _ _ _ _ Ha)]. apply (sa_has _ _ _ _ _ Hsa (head_cid h, block)). by left.
    - intros height piece Hp. by apply Hhas, Hparts. }
  pose proof (open_run known known_inj s' h l0 Hhonest (ok_last_map _ _ _ _ Hr) Hstored (sa_head _ _ _ _ _ Hsa)) as Ho.
  destruct (open s') as [r2|e|]; [|done..]. destruct Ho as (Hr2 & Hs2 & Hh2 & Hdid). split_and!; [done..|]. split; [done|].
  assert (Hget : forall key c, SortedMap.get key l0 = Some c -> plain_cid known c /\ is_Some (store_blocks (store r2) !! c)).
  { intros key c Hc. split; [by apply (dur_last _ _ _ _ Hd key)|]. rewrite Hs2. apply Hhas, (Hleaves key). by apply get_Some_in. }
  split; [|by right; apply (Hget key)|done]. intros key c Hc. by apply (Hget key).
Qed.
(** C7. Whatever bytes it is given, [import_car] does not panic, and refuses a
    store that has a commit. If it succeeds, the archive has one root, every
    block of it hashes to its CID, and the root is a commit that parses; what
    the store has besides what it held are the commit's block and exactly the
    blocks that the tree of the commit reaches, node by node from its root,
    which are all in the archive; the repository has that commit as its head,
    and, if the store answers, exports the same blocks. If it fails, the store
    is unchanged, or is what failed. *)
Theorem repo_import car (s : S) : Forall is_u8 car ->
  let '(a, s') := import_car car s in
  match a with
  | Ok r => store r = s' /\ store_at s = None /\ exists root commit block bs,
      head r = Some (MkHead root commit) /\ from_archive car root block bs /\ whole root commit block bs /\ stored_archive s s' root block bs /\
      (answering s' -> export_car r = map_err RepoCar (CarWriter.write_all [root] (archive_blocks root block bs)))
  | Err e => (s' = s /\ (store_at s <> None -> e = StoreNotEmpty)) \/ exists m, e = RepoStorage m
  | Panic => False
  end.
Proof.
  intros Hu. pose proof (import_car_run car s Hu) as Hrun. destruct (import_car car s) as [[r|e|] s']; [| |done].
  - destruct Hrun as (_ & Hat & root & commit & block & bs & _ & <- & Hh & Ha & Hfa & Hs). split; [done|]. split; [done|].
    exists root, commit, block, bs. split; [done|]. split; [done|]. split; [by apply archived_whole|]. split; [done|]. by eapply export_archive.
  - destruct Hrun as [[-> [[-> Hat]|(Hat & Hread)]]|[m ->]]; [by left| |by right; exists m]. by left.
Qed.

(** C6. A repository that is exported and imported into an empty store, of
    whatever kind, is there the repository of its last commit: the same head,
    the same DID, and the same map, whatever was staged. The import fails
    only if the store does. Every block of the repository must be within the
    limits of an archive's readers ([fitting]), which neither writes nor the
    export enforce, and its records plain. *)
Theorem repo_roundtrip r l l0 h out (s2 : S2) : reached known signer r l l0 -> head r = Some h -> fitting (store r) -> export_car r = Ok out ->
  honest_blocks known (store_blocks s2) -> store_at s2 = None ->
  let '(a, s') := import_car out s2 in
  match a with
  | Ok r2 => store r2 = s' /\ head r2 = Some h /\ did r2 = RepoCommit.did (head_commit h) /\ stands_as known r2 l0 l0
  | Err e => exists m, e = RepoStorage m
  | Panic => False
  end.
Proof.
  intros Hr%(reached_stands known known_inj) Hh Hfit Hout Hs2 Hat.
  destruct (export_run r l l0 h out Hr Hh Hout) as (block & bs & Ha & Hw & Hall & Hbs).
  assert (Hfits : Forall CarWriter.block_fits (archive_blocks (head_cid h) block bs)).
  { apply Forall_forall. intros [c d] Hb%archive_blocks_car. by apply Hfit, (Hall (c, d)). }
  destruct (read_written _ _ _ _ _ Ha Hfits Hw) as [Hu Hread].
  pose proof (import_car_run out s2 Hu) as Hrun. destruct (import_car out s2) as [[r2|e|] s']; [| |done].
  - destruct Hrun as (Hopen & _ & root & commit & block' & bs' & Hread' & _ & _ & Ha' & _ & Hsa). rewrite Hread in Hread'.
    injection Hread' as <- <- Hmap.
    assert (Hin : forall c d, (c, d) ∈ (head_cid h, block') :: bs' <-> (c, d) ∈ (head_cid h, block) :: bs).
    { intros c d. rewrite <- (archive_map_lookup _ _ _ _ c d Ha'), <- (archive_map_lookup _ _ _ _ c d Ha). by rewrite Hmap. }
    assert (Hsa' : stored_archive s2 s' (head_cid h) block bs).
    { destruct Hsa as [H1' H2' H3']. split; [done|intros [c d] Hb; by apply (H2' (c, d)), Hin|]. intros c d Hc.
      destruct (H3' c d Hc) as [?|?%Hin]; [by left|by right]. }
    pose proof (stored_run r l l0 h block bs s2 s' Hr Hh Ha Hbs Hsa' Hs2 Hall) as Ho. by rewrite Hopen in Ho.
  - destruct Hrun as [[_ [[_ ?]|[_ Herr]]]|?]; [done|congruence|done].
Qed.
End Transfer.

(** ** Examples *)

#[local] Existing Instances simd_ref simd_ref_laws sha2_toy sha2_toy_laws toy_verifying toy_signing toy_laws.

(** What the repository of [RepoExample] exports. *)
Definition ex_car : bytes := match export_car ex_committed with Ok out => out | _ => [] end.

Lemma ex_car_ok : export_car ex_committed = Ok ex_car.
Proof. assert (Hok : is_ok (export_car ex_committed) = true) by (vm_compute; reflexivity). unfold ex_car. by destruct (export_car ex_committed). Qed.

Lemma ex_car_u8 : Forall is_u8 ex_car.
Proof. apply u8_literal. vm_compute. reflexivity. Qed.

Lemma ex_import_ok : is_ok (import_car ex_car mem_repo_new).1 = true.
Proof. vm_compute. reflexivity. Qed.

Definition fits_in (b : Cid * bytes) : bool :=
  (length (hash b.1) =? 32)%nat && forallb (fun b => (0 <=? b) && (b <? 256)) (hash b.1) && forallb (fun b => (0 <=? b) && (b <? 256)) b.2 &&
  (Z.of_nat (Car.CID_LEN + length b.2) <=? Car.MAX_BLOCK_SIZE).

Lemma fits_in_fits (s : MemRepoStore) : forallb fits_in (map_to_list (mem_blocks s)) = true -> fitting s.
Proof.
  intros Hall c data Hc. apply elem_of_map_to_list, list_elem_of_In in Hc. pose proof (proj1 (forallb_forall _ _) Hall _ Hc) as Hb.
  unfold fits_in in Hb. apply andb_true_iff in Hb as [[[Hl%Nat.eqb_eq Hh]%andb_true_iff Hd]%andb_true_iff Hz%Z.leb_le].
  split; [split; [done|by apply u8_literal]|]. split; [by apply u8_literal|done].
Qed.

Lemma ex_fitting : fitting (store ex_committed).
Proof. apply fits_in_fits. vm_compute. reflexivity. Qed.

Lemma ex_empty_store : honest_blocks ex_known (store_blocks mem_repo_new).
Proof. intros c data Hc. cbn in Hc. by rewrite lookup_empty in Hc. Qed.

Example repo_import_witness : exists r s', import_car ex_car mem_repo_new = (Ok r, s') /\ store r = s'.
Proof.
  pose proof (repo_import ex_car mem_repo_new ex_car_u8) as Hi. pose proof ex_import_ok as Hok.
  destruct (import_car ex_car mem_repo_new) as [[r|e|] s']; [|done..]. exists r, s'. split; [done|apply Hi].
Defined.

Example repo_roundtrip_witness : exists r s', import_car ex_car mem_repo_new = (Ok r, s') /\ head r = head ex_committed /\ stands_as ex_known r ex_map ex_map.
Proof.
  destruct ex_committed_stands as (_ & h & Hh).
  pose proof (repo_roundtrip ex_known ex_known_inj ex_signer ex_committed ex_map ex_map h ex_car mem_repo_new ex_committed_reached Hh ex_fitting ex_car_ok
    ex_empty_store eq_refl) as Hr.
  pose proof ex_import_ok as Hok. destruct (import_car ex_car mem_repo_new) as [[r|e|] s']; [|done..].
  exists r, s'. split; [done|]. rewrite Hh. split; apply Hr.
Defined.
