(* ===== verification/SyncRaw.v ===== *)
(** Firehose frames: [src/src/sync/raw.rs].

    A frame is two CBOR values, a header that names the type of the event and
    the event. The parser is shown to accept exactly the frames whose second
    value has the fields of that type, to return what those fields say, and to
    panic on no bytes. *)
From S2P Require Import Prelude StateError SyntaxError CborError Cid CborValue CborEncode CborDecode CborCodec.
From S2P Require Did Handle Tid MstLoadSpec RepoCommit.

(** ** Events *)

(** What the text of [ParseCbor] is formatted from. *)
Inductive Malformed :=
| Because (what : string)
| InPart (part : string) (e : CborError)
| FrameOp (op : Z)
| Trailing (at_ : nat)
| OfField (what : string) (key : bytes)
| NotSyntax (what : string) (key : bytes) (e : SyntaxError).

Inductive RawSyncError :=
| ParseCbor (m : Malformed)
| UnknownType (tag : bytes).

Record RawRepoOp := MkOp { action : bytes; path : bytes; op_cid : option Cid; op_prev : option Cid }.

Record RawCommit := MkRawCommit {
  repo : Did.Did;
  rev : Z;
  seq : Z;
  time : bytes;
  since : option Z;
  commit : Cid;
  blocks : bytes;
  ops : list RawRepoOp;
  blobs : list Cid;
  prev_data : option Cid;
  too_big : bool;
  rebase : bool
}.

Record RawSync := MkRawSync { s_did : Did.Did; s_rev : bytes; s_seq : Z; s_time : bytes; s_blocks : bytes }.

Record RawAccount := MkRawAccount {
  a_did : Did.Did; a_seq : Z; a_time : bytes; a_active : bool; a_status : option bytes
}.

Record RawIdentity := MkRawIdentity { i_did : Did.Did; i_seq : Z; i_time : bytes; i_handle : option Handle.Handle }.

Inductive RawSyncEvent :=
| EvCommit (c : RawCommit)
| EvSync (s : RawSync)
| EvAccount (a : RawAccount)
| EvIdentity (i : RawIdentity)
| EvInfo.

Definition into_commit (e : RawSyncEvent) : option RawCommit := match e with EvCommit v => Some v | _ => None end.
Definition into_sync (e : RawSyncEvent) : option RawSync := match e with EvSync v => Some v | _ => None end.
Definition into_account (e : RawSyncEvent) : option RawAccount := match e with EvAccount v => Some v | _ => None end.

(** ** Fields *)

Abbreviation Fields := (list (bytes * Value)).
Abbreviation raw_res := (res RawSyncError).

Definition malformed {A} (what : string) (key : bytes) : raw_res A := Err (ParseCbor (OfField what key)).

Definition field_value (fields : Fields) (key : bytes) : option Value :=
  snd <$> List.find (fun e => bool_decide (e.1 = key)) fields.

Definition require_map (v : Value) (context : string) : raw_res Fields :=
  match v with Value.Map fields => Ok fields | _ => Err (ParseCbor (Because context)) end.

Definition require_text (fields : Fields) (key : bytes) : raw_res bytes :=
  match field_value fields key with
  | Some (Value.Text s) => Ok s
  | Some _ => malformed "must be a text string" key
  | None => malformed "missing" key
  end.

Definition optional_text (fields : Fields) (key : bytes) : raw_res (option bytes) :=
  match field_value fields key with
  | Some (Value.Text s) => Ok (Some s)
  | Some Value.Null | None => Ok None
  | Some _ => malformed "must be a text string" key
  end.

Definition require_int (fields : Fields) (key : bytes) : raw_res Z :=
  match field_value fields key with
  | Some (Value.Unsigned n) => if n <=? i64_max then Ok n else malformed "overflows i64" key
  | Some (Value.Signed n) => Ok n
  | Some _ => malformed "must be an integer" key
  | None => malformed "missing" key
  end.

Definition require_bool (fields : Fields) (key : bytes) : raw_res bool :=
  match field_value fields key with
  | Some (Value.Bool b) => Ok b
  | Some _ => malformed "must be a boolean" key
  | None => malformed "missing" key
  end.

Definition require_bytes (fields : Fields) (key : bytes) : raw_res bytes :=
  match field_value fields key with
  | Some (Value.Bytes b) => Ok b
  | Some _ => malformed "must be bytes" key
  | None => malformed "missing" key
  end.

Definition require_cid (fields : Fields) (key : bytes) : raw_res Cid :=
  match field_value fields key with
  | Some (Value.Cid c) => Ok c
  | Some _ => malformed "must be a CID" key
  | None => malformed "missing" key
  end.

Definition optional_cid (fields : Fields) (key : bytes) : raw_res (option Cid) :=
  match field_value fields key with
  | Some (Value.Cid c) => Ok (Some c)
  | Some Value.Null | None => Ok None
  | Some _ => malformed "must be a CID" key
  end.

Definition not_syntax {A} (what : string) (key : bytes) (r : res SyntaxError A) : raw_res A :=
  map_err (fun e => ParseCbor (NotSyntax what key e)) r.

(** [optional_text(..)?.map(parse).transpose()] *)
Definition optional_parsed {A} (parse : bytes -> res SyntaxError A) (what : string) (fields : Fields) (key : bytes) :
    raw_res (option A) :=
  text ← optional_text fields key;
  match text with
  | None => Ok None
  | Some s => v ← not_syntax what key (parse s); Ok (Some v)
  end.

Definition optional_tid (fields : Fields) (key : bytes) : raw_res (option Z) :=
  optional_parsed Tid.try_from "TID" fields key.

Definition parse_did (value key : bytes) : raw_res Did.Did := not_syntax "DID" key (Did.try_from value).

(** ** Lists *)

Fixpoint parse_ops (items : list Value) : raw_res (list RawRepoOp) :=
  match items with
  | [] => Ok []
  | Value.Map fields :: items =>
      a ← require_text fields (b# "action");
      p ← require_text fields (b# "path");
      c ← optional_cid fields (b# "cid");
      v ← optional_cid fields (b# "prev");
      ops ← parse_ops items;
      Ok (MkOp a p c v :: ops)
  | _ => Err (ParseCbor (Because "repo op body must be a CBOR map"))
  end.

Definition parse_repo_ops (fields : Fields) : raw_res (list RawRepoOp) :=
  match field_value fields (b# "ops") with
  | None => Ok []
  | Some (Value.Array items) => parse_ops items
  | Some _ => malformed "must be an array" (b# "ops")
  end.

Fixpoint parse_cids (items : list Value) : raw_res (list Cid) :=
  match items with
  | [] => Ok []
  | Value.Cid c :: items => cids ← parse_cids items; Ok (c :: cids)
  | _ => malformed "entries must be CIDs" (b# "blobs")
  end.

Definition parse_blobs (fields : Fields) : raw_res (list Cid) :=
  match field_value fields (b# "blobs") with
  | None => Ok []
  | Some (Value.Array items) => parse_cids items
  | Some _ => malformed "must be an array" (b# "blobs")
  end.

(** ** Events of each type *)

Definition parse_commit (body : Value) : raw_res RawCommit :=
  fields ← require_map body "#commit";
  text ← require_text fields (b# "repo");
  repo ← parse_did text (b# "repo");
  text ← require_text fields (b# "rev");
  rev ← not_syntax "TID" (b# "rev") (Tid.try_from text);
  seq ← require_int fields (b# "seq");
  time ← require_text fields (b# "time");
  since ← optional_tid fields (b# "since");
  commit ← require_cid fields (b# "commit");
  blocks ← require_bytes fields (b# "blocks");
  ops ← parse_repo_ops fields;
  blobs ← parse_blobs fields;
  prev_data ← optional_cid fields (b# "prevData");
  too_big ← require_bool fields (b# "tooBig");
  rebase ← require_bool fields (b# "rebase");
  Ok (MkRawCommit repo rev seq time since commit blocks ops blobs prev_data too_big rebase).

Definition parse_sync (body : Value) : raw_res RawSync :=
  fields ← require_map body "#sync";
  text ← require_text fields (b# "did");
  did ← parse_did text (b# "did");
  rev ← require_text fields (b# "rev");
  seq ← require_int fields (b# "seq");
  time ← require_text fields (b# "time");
  blocks ← require_bytes fields (b# "blocks");
  Ok (MkRawSync did rev seq time blocks).

Definition parse_account (body : Value) : raw_res RawAccount :=
  fields ← require_map body "#account";
  text ← require_text fields (b# "did");
  did ← parse_did text (b# "did");
  seq ← require_int fields (b# "seq");
  time ← require_text fields (b# "time");
  active ← require_bool fields (b# "active");
  status ← optional_text fields (b# "status");
  Ok (MkRawAccount did seq time active status).

Definition parse_identity (body : Value) : raw_res RawIdentity :=
  fields ← require_map body "#identity";
  handle ← optional_parsed Handle.try_from "handle" fields (b# "handle");
  text ← require_text fields (b# "did");
  did ← parse_did text (b# "did");
  seq ← require_int fields (b# "seq");
  time ← require_text fields (b# "time");
  Ok (MkRawIdentity did seq time handle).

(** ** Frames *)

Definition extract_frame_header (header : Value) : raw_res (Z * bytes) :=
  match header with
  | Value.Map fields => op ← require_int fields (b# "op"); t ← require_text fields (b# "t"); Ok (op, t)
  | _ => Err (ParseCbor (Because "frame header must be a CBOR map"))
  end.

(** The match on the type's tag. *)
Definition parse_body (tag : bytes) (body : Value) : raw_res RawSyncEvent :=
  if bool_decide (tag = b# "#commit") then EvCommit <$> parse_commit body
  else if bool_decide (tag = b# "#sync") then EvSync <$> parse_sync body
  else if bool_decide (tag = b# "#account") then EvAccount <$> parse_account body
  else if bool_decide (tag = b# "#identity") then EvIdentity <$> parse_identity body
  else if bool_decide (tag = b# "#info") then _ ← require_map body "#info"; Ok EvInfo
  else Err (UnknownType tag).

Definition parse_raw_sync_frame `{Simdutf8} (data : bytes) : raw_res RawSyncEvent :=
  let '(header, dec) := decode data new in
  header ← map_err (fun e => ParseCbor (InPart "header" e)) header;
  '(op, tag) ← extract_frame_header header;
  if negb (op =? 1) then Err (ParseCbor (FrameOp op))
  else
    let '(body, dec) := decode data dec in
    body ← map_err (fun e => ParseCbor (InPart "body" e)) body;
    if negb (is_empty data dec) then Err (ParseCbor (Trailing (pos dec)))
    else parse_body tag body.

(** ** What a frame says *)

Definition as_text (v : Value) : option bytes := match v with Value.Text s => Some s | _ => None end.
Definition as_bytes (v : Value) : option bytes := match v with Value.Bytes b => Some b | _ => None end.
Definition as_bool (v : Value) : option bool := match v with Value.Bool b => Some b | _ => None end.
Definition as_cid (v : Value) : option Cid := match v with Value.Cid c => Some c | _ => None end.
Definition as_int (v : Value) : option Z :=
  match v with Value.Unsigned n => if n <=? i64_max then Some n else None | Value.Signed n => Some n | _ => None end.

(** The field has a value of the type. *)
Definition required {A} (as_ : Value -> option A) (fields : Fields) (key : bytes) (a : A) : Prop :=
  exists v, field_value fields key = Some v /\ as_ v = Some a.

(** The field has a value of the type, or is absent or null. *)
Definition optional {A} (as_ : Value -> option A) (fields : Fields) (key : bytes) (o : option A) : Prop :=
  match field_value fields key with None | Some Value.Null => o = None | Some v => exists a, as_ v = Some a /\ o = Some a end.

(** The field is a list of such values, or is absent. *)
Definition listed {A} (item : Value -> A -> Prop) (fields : Fields) (key : bytes) (l : list A) : Prop :=
  match field_value fields key with None => l = [] | Some (Value.Array items) => Forall2 item items l | Some _ => False end.

(** A text field parses. *)
Definition parses {A} (parse : bytes -> res SyntaxError A) (fields : Fields) (key : bytes) (a : A) : Prop :=
  exists s, required as_text fields key s /\ parse s = Ok a.
Definition parses_opt {A} (parse : bytes -> res SyntaxError A) (fields : Fields) (key : bytes) (o : option A) : Prop :=
  exists s, optional as_text fields key s /\ match s with None => o = None | Some s => exists a, parse s = Ok a /\ o = Some a end.

Definition op_means (v : Value) (o : RawRepoOp) : Prop :=
  exists fields, v = Value.Map fields /\ required as_text fields (b# "action") (action o) /\
    required as_text fields (b# "path") (path o) /\ optional as_cid fields (b# "cid") (op_cid o) /\
    optional as_cid fields (b# "prev") (op_prev o).

Record commit_means (fields : Fields) (c : RawCommit) : Prop := {
  m_repo : parses Did.try_from fields (b# "repo") (repo c);
  m_rev : parses Tid.try_from fields (b# "rev") (rev c);
  m_seq : required as_int fields (b# "seq") (seq c);
  m_time : required as_text fields (b# "time") (time c);
  m_since : parses_opt Tid.try_from fields (b# "since") (since c);
  m_commit : required as_cid fields (b# "commit") (commit c);
  m_blocks : required as_bytes fields (b# "blocks") (blocks c);
  m_ops : listed op_means fields (b# "ops") (ops c);
  m_blobs : listed (fun v c => v = Value.Cid c) fields (b# "blobs") (blobs c);
  m_prev_data : optional as_cid fields (b# "prevData") (prev_data c);
  m_too_big : required as_bool fields (b# "tooBig") (too_big c);
  m_rebase : required as_bool fields (b# "rebase") (rebase c)
}.

Record sync_means (fields : Fields) (s : RawSync) : Prop := {
  m_s_did : parses Did.try_from fields (b# "did") (s_did s);
  m_s_rev : required as_text fields (b# "rev") (s_rev s);
  m_s_seq : required as_int fields (b# "seq") (s_seq s);
  m_s_time : required as_text fields (b# "time") (s_time s);
  m_s_blocks : required as_bytes fields (b# "blocks") (s_blocks s)
}.

Record account_means (fields : Fields) (a : RawAccount) : Prop := {
  m_a_did : parses Did.try_from fields (b# "did") (a_did a);
  m_a_seq : required as_int fields (b# "seq") (a_seq a);
  m_a_time : required as_text fields (b# "time") (a_time a);
  m_a_active : required as_bool fields (b# "active") (a_active a);
  m_a_status : optional as_text fields (b# "status") (a_status a)
}.

Record identity_means (fields : Fields) (i : RawIdentity) : Prop := {
  m_i_did : parses Did.try_from fields (b# "did") (i_did i);
  m_i_seq : required as_int fields (b# "seq") (i_seq i);
  m_i_time : required as_text fields (b# "time") (i_time i);
  m_i_handle : parses_opt Handle.try_from fields (b# "handle") (i_handle i)
}.

Definition event_means (tag : bytes) (fields : Fields) (e : RawSyncEvent) : Prop :=
  match e with
  | EvCommit c => tag = b# "#commit" /\ commit_means fields c
  | EvSync s => tag = b# "#sync" /\ sync_means fields s
  | EvAccount a => tag = b# "#account" /\ account_means fields a
  | EvIdentity i => tag = b# "#identity" /\ identity_means fields i
  | EvInfo => tag = b# "#info"
  end.

(** A header and an event, each in canonical CBOR. *)
Definition frame_means (data : bytes) (e : RawSyncEvent) : Prop :=
  exists header tag fields, canonical 0 (Value.Map header) /\ canonical 0 (Value.Map fields) /\
    data = enc (Value.Map header) ++ enc (Value.Map fields) /\
    required as_int header (b# "op") 1 /\ required as_text header (b# "t") tag /\ event_means tag fields e.

(** ** The readers of fields *)

Section Readers.
Implicit Types (fields : Fields) (key : bytes).

Lemma require_text_Ok fields key s : require_text fields key = Ok s <-> required as_text fields key s.
Proof. unfold require_text, required. destruct (field_value fields key) as [[]|]; naive_solver. Qed.
Lemma require_bool_Ok fields key b : require_bool fields key = Ok b <-> required as_bool fields key b.
Proof. unfold require_bool, required. destruct (field_value fields key) as [[]|]; naive_solver. Qed.
Lemma require_bytes_Ok fields key b : require_bytes fields key = Ok b <-> required as_bytes fields key b.
Proof. unfold require_bytes, required. destruct (field_value fields key) as [[]|]; naive_solver. Qed.
Lemma require_cid_Ok fields key c : require_cid fields key = Ok c <-> required as_cid fields key c.
Proof. unfold require_cid, required. destruct (field_value fields key) as [[]|]; naive_solver. Qed.
Lemma require_int_Ok fields key n : require_int fields key = Ok n <-> required as_int fields key n.
Proof.
  unfold require_int, required, as_int. destruct (field_value fields key) as [[m| | | | | | | | |]|]; try naive_solver.
  destruct (m <=? i64_max) eqn:Hm; split; intros Hr.
  - exists (Value.Unsigned m). rewrite Hm. naive_solver.
  - destruct Hr as (v & [= <-] & Hv). rewrite Hm in Hv. naive_solver.
  - done.
  - destruct Hr as (v & [= <-] & Hv). by rewrite Hm in Hv.
Qed.
Lemma optional_text_Ok fields key o : optional_text fields key = Ok o <-> optional as_text fields key o.
Proof. unfold optional_text, optional. destruct (field_value fields key) as [[]|]; naive_solver. Qed.
Lemma optional_cid_Ok fields key o : optional_cid fields key = Ok o <-> optional as_cid fields key o.
Proof. unfold optional_cid, optional. destruct (field_value fields key) as [[]|]; naive_solver. Qed.

Lemma not_syntax_Ok {A} what key (r : res SyntaxError A) a : not_syntax what key r = Ok a <-> r = Ok a.
Proof. apply map_err_Ok. Qed.

Lemma optional_parsed_Ok {A} (parse : bytes -> res SyntaxError A) what fields key o :
  optional_parsed parse what fields key = Ok o <-> parses_opt parse fields key o.
Proof.
  unfold optional_parsed, parses_opt. rewrite res_bind_Ok. setoid_rewrite optional_text_Ok.
  split; intros (s & Hs & Hr); exists s; (split; [done|]); destruct s as [s|]; try naive_solver.
  - apply res_bind_Ok in Hr as (a & Ha%not_syntax_Ok & [= <-]). by exists a.
  - destruct Hr as (a & Ha & ->). by rewrite (proj2 (not_syntax_Ok what key (parse s) a) Ha).
Qed.

Lemma parse_ops_Ok items l : parse_ops items = Ok l <-> Forall2 op_means items l.
Proof.
  revert l. induction items as [|v items IH]; intros l; cbn [parse_ops].
  { split; [by intros [= <-]|]. by intros ->%Forall2_nil_inv_l. }
  split.
  - destruct v as [| | | | | | | | |fields]; try done.
    intros (a & Ha%require_text_Ok & (p & Hp%require_text_Ok & (c & Hc%optional_cid_Ok & (w & Hw%optional_cid_Ok & (r & Hr%IH & [= <-])%res_bind_Ok)%res_bind_Ok)%res_bind_Ok)%res_bind_Ok)%res_bind_Ok.
    constructor; [by exists fields|done].
  - intros (o & r & (fields & -> & Ha & Hp & Hc & Hw) & Hr & ->)%Forall2_cons_inv_l. destruct o as [a p c w]. cbn in *.
    rewrite (proj2 (require_text_Ok _ _ _) Ha), (proj2 (require_text_Ok _ _ _) Hp). cbn [mbind res_bind].
    by rewrite (proj2 (optional_cid_Ok _ _ _) Hc), (proj2 (optional_cid_Ok _ _ _) Hw), (proj2 (IH r) Hr).
Qed.

Lemma parse_repo_ops_Ok fields l : parse_repo_ops fields = Ok l <-> listed op_means fields (b# "ops") l.
Proof.
  unfold parse_repo_ops, listed. destruct (field_value fields _) as [[]|]; try done; [apply parse_ops_Ok|naive_solver].
Qed.

Lemma parse_cids_Ok items l : parse_cids items = Ok l <-> Forall2 (fun v c => v = Value.Cid c) items l.
Proof.
  revert l. induction items as [|v items IH]; intros l; cbn [parse_cids].
  { split; [by intros [= <-]|]. by intros ->%Forall2_nil_inv_l. }
  split.
  - destruct v; try done. intros (r & Hr%IH & [= <-])%res_bind_Ok. by constructor.
  - intros (c & r & -> & Hr%IH & ->)%Forall2_cons_inv_l. by rewrite Hr.
Qed.

Lemma parse_blobs_Ok fields l : parse_blobs fields = Ok l <-> listed (fun v c => v = Value.Cid c) fields (b# "blobs") l.
Proof.
  unfold parse_blobs, listed. destruct (field_value fields _) as [[]|]; try done; [apply parse_cids_Ok|naive_solver].
Qed.
End Readers.

(** ** The parsers of events *)

Lemma read_with {A B} (m : raw_res A) a (f : A -> raw_res B) : m = Ok a -> m ≫= f = f a.
Proof. by intros ->. Qed.

Lemma parses_Ok {A B} (parse : bytes -> res SyntaxError A) what fields key a (f : A -> raw_res B) :
  parses parse fields key a -> (s ← require_text fields key; v ← not_syntax what key (parse s); f v) = f a.
Proof.
  intros (s & Hs & Hp). rewrite (read_with _ s) by by apply require_text_Ok. apply read_with. by apply not_syntax_Ok.
Qed.

Ltac read_fields H :=
  repeat (let x := fresh "x" in let Hx := fresh "Hx" in apply res_bind_Ok in H as (x & Hx & H);
    first [apply require_text_Ok in Hx|apply require_int_Ok in Hx|apply require_bool_Ok in Hx|apply require_bytes_Ok in Hx
          |apply require_cid_Ok in Hx|apply optional_cid_Ok in Hx|apply optional_text_Ok in Hx|apply optional_parsed_Ok in Hx
          |apply parse_repo_ops_Ok in Hx|apply parse_blobs_Ok in Hx|apply not_syntax_Ok in Hx]).

Ltac write_fields :=
  repeat (first
    [erewrite parses_Ok by eassumption
    |erewrite read_with by (first
      [apply require_text_Ok|apply require_int_Ok|apply require_bool_Ok|apply require_bytes_Ok
      |apply require_cid_Ok|apply optional_cid_Ok|apply optional_text_Ok|apply optional_parsed_Ok
      |apply parse_repo_ops_Ok|apply parse_blobs_Ok]; eassumption)]).

Lemma parse_commit_Ok fields c : parse_commit (Value.Map fields) = Ok c <-> commit_means fields c.
Proof.
  unfold parse_commit, optional_tid, parse_did. cbn [require_map mbind res_bind]. split.
  - intros H. read_fields H. injection H as <-. split; cbn; (done || by eexists).
  - intros []. write_fields. by destruct c.
Qed.

Lemma parse_sync_Ok fields s : parse_sync (Value.Map fields) = Ok s <-> sync_means fields s.
Proof.
  unfold parse_sync, parse_did. cbn [require_map mbind res_bind]. split.
  - intros H. read_fields H. injection H as <-. split; cbn; (done || by eexists).
  - intros []. write_fields. by destruct s.
Qed.

Lemma parse_account_Ok fields a : parse_account (Value.Map fields) = Ok a <-> account_means fields a.
Proof.
  unfold parse_account, parse_did. cbn [require_map mbind res_bind]. split.
  - intros H. read_fields H. injection H as <-. split; cbn; (done || by eexists).
  - intros []. write_fields. by destruct a.
Qed.

Lemma parse_identity_Ok fields i : parse_identity (Value.Map fields) = Ok i <-> identity_means fields i.
Proof.
  unfold parse_identity, parse_did. cbn [require_map mbind res_bind]. split.
  - intros H. read_fields H. injection H as <-. split; cbn; (done || by eexists).
  - intros []. write_fields. by destruct i.
Qed.

Lemma fmap_Ok {A B} (f : A -> B) (m : raw_res A) b : f <$> m = Ok b <-> exists a, m = Ok a /\ b = f a.
Proof. destruct m; cbn; naive_solver. Qed.

(** The tag settles the type of the event. *)
Lemma means_tag {A} (f : A -> RawSyncEvent) (P : Fields -> A -> Prop) tag tag' body e : tag = tag' ->
  (forall fields a, event_means tag' fields (f a) <-> tag' = tag' /\ P fields a) ->
  (forall fields e, event_means tag' fields e -> exists a, e = f a) ->
  (exists fields, body = Value.Map fields /\ exists a, P fields a /\ e = f a) <->
  exists fields, body = Value.Map fields /\ event_means tag fields e.
Proof.
  intros -> Hm Hf. split; intros (fields & -> & He); exists fields; (split; [done|]).
  - destruct He as (a & Ha & ->). by apply Hm.
  - destruct (Hf _ _ He) as [a ->]. exists a. split; [|done]. by apply (Hm fields a).
Qed.

Ltac means_tag_tac :=
  eapply means_tag; [eassumption|done|];
  intros fields []; cbn; intros Ht; first [discriminate Ht|destruct Ht as [Ht _]; discriminate Ht|by eexists].

Lemma parse_body_Ok tag body e : parse_body tag body = Ok e <-> exists fields, body = Value.Map fields /\ event_means tag fields e.
Proof.
  assert (Hmap : forall A (f : A -> RawSyncEvent) (p : Value -> raw_res A) (P : Fields -> A -> Prop),
    (forall v a, p v = Ok a -> exists fields, v = Value.Map fields) -> (forall fields a, p (Value.Map fields) = Ok a <-> P fields a) ->
    f <$> p body = Ok e <-> exists fields, body = Value.Map fields /\ exists a, P fields a /\ e = f a).
  { intros A f p P Hv Hp. rewrite fmap_Ok. split.
    - intros (a & Ha & ->). destruct (Hv _ _ Ha) as [fields ->]. exists fields. rewrite Hp in Ha. eauto.
    - intros (fields & -> & a & Ha & ->). exists a. by rewrite Hp. }
  unfold parse_body. repeat case_bool_decide.
  - rewrite (Hmap _ _ _ commit_means); [|intros [] ?; try done; by eexists|apply parse_commit_Ok]. means_tag_tac.
  - rewrite (Hmap _ _ _ sync_means); [|intros [] ?; try done; by eexists|apply parse_sync_Ok]. means_tag_tac.
  - rewrite (Hmap _ _ _ account_means); [|intros [] ?; try done; by eexists|apply parse_account_Ok]. means_tag_tac.
  - rewrite (Hmap _ _ _ identity_means); [|intros [] ?; try done; by eexists|apply parse_identity_Ok]. means_tag_tac.
  - subst tag. clear. destruct body as [| | | | | | | | |fields]; cbn; split; try (by intros (? & ? & _)); try done.
    + intros [= <-]. by exists fields.
    + intros (fields' & _ & Hm). destruct e; cbn in Hm; (done || by destruct Hm).
  - clear Hmap. split; [done|]. intros (fields & _ & Hm). destruct e; try destruct Hm as [Hm _]; contradiction.
Qed.

(** ** Frames *)

Section Frames.
Context `{Simdutf8Laws}.

Lemma two_values data d v w : Forall is_u8 data -> Z.of_nat (length data) <= i64_max ->
  (exists s, decode data new = (Ok v, s) /\ decode data s = (Ok w, d) /\ is_empty data d = true) <->
  canonical 0 v /\ canonical 0 w /\ data = enc v ++ enc w /\ d = MkDecoder (length data) 0.
Proof.
  intros Hu Hl. split.
  - intros (s & Hv & Hw & He). unfold new in Hv.
    apply (decode_decodes data Hu Hl 0%nat 0%nat v s ltac:(lia)) in Hv as (Hcv & (pre & rest & Hd & Hpre) & ->).
    destruct pre; [|done]. cbn [app] in Hd. cbn [Nat.add] in Hw.
    apply (decode_decodes data Hu Hl 0%nat (length (enc v)) w d) in Hw as (Hcw & (pre & rest' & Hd' & Hpre') & ->); [|rewrite Hd, length_app; lia].
    unfold is_empty in He. cbn [pos] in He. assert (pre = enc v) as -> by (rewrite Hd in Hd'; symmetry; by eapply app_inj_1 in Hd' as [? _]).
    rewrite Hd', !length_app in He. destruct rest'; [|cbn in He; lia]. rewrite app_nil_r in Hd'.
    split_and!; [done..|]. f_equal. rewrite Hd', length_app. lia.
  - intros (Hcv & Hcw & Hd & ->). exists (MkDecoder (length (enc v)) 0). unfold new. split_and!.
    + apply (decode_decodes data Hu Hl 0%nat 0%nat v); [lia|]. split_and!; [done| |done]. by exists [], (enc w).
    + apply (decode_decodes data Hu Hl 0%nat (length (enc v)) w); [rewrite Hd, length_app; lia|].
      split_and!; [done| |rewrite Hd, length_app; done]. exists (enc v), []. by rewrite app_nil_r.
    + unfold is_empty. cbn [pos]. by rewrite Nat.leb_refl.
Qed.

Lemma parse_raw_sync_frame_Ok data e : Forall is_u8 data -> Z.of_nat (length data) <= i64_max ->
  parse_raw_sync_frame data = Ok e <-> frame_means data e.
Proof.
  intros Hu Hl. unfold parse_raw_sync_frame. split.
  - destruct (decode data new) as [header s] eqn:Hh.
    intros (hv & ->%map_err_Ok & ([op tag] & Hx & Hr)%res_bind_Ok)%res_bind_Ok.
    destruct (op =? 1) eqn:Hop; [|done]. cbn [negb] in Hr. destruct (decode data s) as [body d] eqn:Hb.
    apply res_bind_Ok in Hr as (bv & ->%map_err_Ok & Hr). destruct (is_empty data d) eqn:Hemp; [|done]. cbn [negb] in Hr.
    destruct (proj1 (two_values data d hv bv Hu Hl)) as (Hch & Hcb & Hd & _); [by exists s|].
    apply parse_body_Ok in Hr as (fields & -> & Hm). destruct hv as [| | | | | | | | |hf]; try done. cbn [extract_frame_header] in Hx.
    apply res_bind_Ok in Hx as (op' & Ho%require_int_Ok & (t' & Ht%require_text_Ok & [= -> ->])%res_bind_Ok).
    apply Z.eqb_eq in Hop as ->. by exists hf, tag, fields.
  - intros (hf & tag & fields & Hch & Hcb & Hd & Ho & Ht & Hm).
    destruct (proj2 (two_values data _ _ _ Hu Hl) (conj Hch (conj Hcb (conj Hd eq_refl)))) as (s & -> & Hb & He).
    cbn [map_err mbind res_bind extract_frame_header]. rewrite (proj2 (require_int_Ok _ _ _) Ho). cbn [mbind res_bind].
    rewrite (proj2 (require_text_Ok _ _ _) Ht). cbn [mbind res_bind negb Z.eqb Pos.eqb]. rewrite Hb. cbn [map_err mbind res_bind].
    rewrite He. cbn [negb]. apply parse_body_Ok. by exists fields.
Qed.
End Frames.

(** ** No frame makes the parser panic *)

Section Safe.
Context `{Simdutf8Laws}.

Lemma require_no_panic fields key : no_panic (require_text fields key) /\ no_panic (require_int fields key) /\
  no_panic (require_bool fields key) /\ no_panic (require_bytes fields key) /\ no_panic (require_cid fields key) /\
  no_panic (optional_text fields key) /\ no_panic (optional_cid fields key).
Proof.
  unfold require_text, require_int, require_bool, require_bytes, require_cid, optional_text, optional_cid.
  destruct (field_value fields key) as [[n| | | | | | | | |]|]; split_and!; try done. by destruct (n <=? i64_max).
Qed.

Lemma optional_parsed_no_panic {A} (parse : bytes -> res SyntaxError A) what fields key : (forall s, no_panic (parse s)) ->
  no_panic (optional_parsed parse what fields key).
Proof.
  intros Hp. apply no_panic_bind; [apply require_no_panic|]. intros [s|] _; [|done].
  apply no_panic_bind; [by apply no_panic_map_err|done].
Qed.

Lemma did_try_from_no_panic s : no_panic (Did.try_from s).
Proof. apply no_panic_bind; [apply Did.did_validate_no_panic|done]. Qed.

Lemma handle_try_from_no_panic s : no_panic (Handle.try_from s).
Proof. apply no_panic_bind; [apply Handle.handle_validate_no_panic|done]. Qed.

Lemma parse_ops_no_panic items : no_panic (parse_ops items).
Proof.
  induction items as [|v items IH]; [done|]. destruct v; try done. cbn [parse_ops].
  repeat (apply no_panic_bind; [first [apply require_no_panic|exact IH]|intros ? _]). done.
Qed.

Lemma parse_cids_no_panic items : no_panic (parse_cids items).
Proof. induction items as [|v items IH]; [done|]. destruct v; try done. by apply no_panic_bind. Qed.

Lemma parse_lists_no_panic fields : no_panic (parse_repo_ops fields) /\ no_panic (parse_blobs fields).
Proof.
  unfold parse_repo_ops, parse_blobs.
  split; destruct (field_value fields _) as [[]|]; try done; [apply parse_ops_no_panic|apply parse_cids_no_panic].
Qed.

Ltac no_panic_fields :=
  repeat (apply no_panic_bind;
    [first [apply require_no_panic|apply parse_lists_no_panic|apply no_panic_map_err, did_try_from_no_panic
           |apply no_panic_map_err, RepoCommit.tid_try_from_no_panic
           |apply optional_parsed_no_panic; first [apply RepoCommit.tid_try_from_no_panic|apply handle_try_from_no_panic]]
    |intros ? _]); done.

Lemma parse_body_no_panic tag body : no_panic (parse_body tag body).
Proof.
  assert (Hmap : forall A (f : A -> RawSyncEvent) (m : raw_res A), no_panic m -> no_panic (f <$> m)) by (intros A f m; by destruct m).
  unfold parse_body. repeat case_bool_decide; [apply Hmap..|by destruct body|done];
    (apply no_panic_bind; [by destruct body|]; intros fields _; no_panic_fields).
Qed.

Lemma parse_raw_sync_frame_no_panic data : no_panic (parse_raw_sync_frame data).
Proof.
  unfold parse_raw_sync_frame. pose proof (safe_decode data new ltac:(cbn; lia)) as Hs.
  destruct (decode data new) as [[hv|e|] s]; [|done..]. cbn [map_err mbind res_bind]. apply no_panic_bind.
  { destruct hv; try done. cbn [extract_frame_header]. no_panic_fields. }
  intros [op tag] _. destruct (negb (op =? 1)); [done|].
  pose proof (safe_decode data s ltac:(lia)) as Hs'. destruct (decode data s) as [[bv|e|] d]; [|done..]. cbn [map_err mbind res_bind].
  destruct (negb (is_empty data d)); [done|apply parse_body_no_panic].
Qed.

(** C24. The frame parser never panics, and accepts exactly the frames of a
    canonical header that names a type and canonical fields of that type, with
    the event that those fields say. *)
Theorem parse_raw_sync_frame_spec data e : Forall is_u8 data -> Z.of_nat (length data) <= i64_max ->
  no_panic (parse_raw_sync_frame data) /\ (parse_raw_sync_frame data = Ok e <-> frame_means data e).
Proof. intros Hu Hl. split; [apply parse_raw_sync_frame_no_panic|by apply parse_raw_sync_frame_Ok]. Qed.
End Safe.

(** ** Examples *)

#[local] Existing Instances simd_ref simd_ref_laws.

Definition ex_cid : Cid := MkCid Drisl (replicate 32 7).

(** The frame of a commit that updates a record, with its fields in order. *)
Definition ex_frame : bytes := Eval vm_compute in
  enc (Value.Map [(b# "t", Value.Text (b# "#commit")); (b# "op", Value.Unsigned 1)]) ++
  enc (Value.Map [(b# "ops", Value.Array [Value.Map [(b# "cid", Value.Cid ex_cid); (b# "path", Value.Text (b# "a.b.c/d"));
                   (b# "prev", Value.Cid ex_cid); (b# "action", Value.Text (b# "update"))]]);
                  (b# "rev", Value.Text (Tid.digits 13 5)); (b# "seq", Value.Unsigned 9); (b# "repo", Value.Text (b# "did:web:example.com"));
                  (b# "time", Value.Text (b# "now")); (b# "blobs", Value.Array []); (b# "since", Value.Null);
                  (b# "blocks", Value.Bytes [1]); (b# "commit", Value.Cid ex_cid); (b# "rebase", Value.Bool false);
                  (b# "tooBig", Value.Bool false)]).

Definition ex_event : RawCommit :=
  MkRawCommit RepoCommit.ex_did 5 9 (b# "now") None ex_cid [1]
    [MkOp (b# "update") (b# "a.b.c/d") (Some ex_cid) (Some ex_cid)] [] None false false.

Example parse_raw_sync_frame_spec_witness :
  parse_raw_sync_frame ex_frame = Ok (EvCommit ex_event) /\ frame_means ex_frame (EvCommit ex_event).
Proof.
  assert (Hp : parse_raw_sync_frame ex_frame = Ok (EvCommit ex_event)) by (vm_compute; reflexivity).
  split; [exact Hp|]. apply parse_raw_sync_frame_spec; [apply u8_literal; reflexivity|vm_compute; discriminate|exact Hp].
Defined.
