(* ===== verification/SyncInvert.v ===== *)
(** Commits of the firehose, against the blocks they carry:
    [src/src/sync/invert.rs] with the errors of [error.rs].

    A commit event carries the new tree as far as it changed and a list of
    operations. The verifier undoes the operations on the new tree and gets
    the root of the old one. What is shown: no bytes make it panic, and the
    root it gets is that of a map to which the operations lead back. *)
From S2P Require Import Prelude StateError SyntaxError CborError Cid CborValue CborDecode MstHeight SortedMap MstNode MstTree MstShape.
From S2P Require Import MstFlush MstLoad MstLoadSpec MstDetached MstDetachedSpec MstFlushed MstMap MstHostile MstStore MstStoreSpec SyncRaw.
From S2P Require Did Tid Car CarSlice RepoCommit.
Abbreviation Commit := RepoCommit.Commit.

(** ** Errors *)

(** A revision as an error shows it: a TID that parsed, or the text sent. *)
Inductive RevText := OfTid (tid : Z) | OfText (s : bytes).

(** A field as an error shows it. *)
Inductive Shown := ShowCid (c : Cid) | ShowText (s : bytes) | ShowRev (r : RevText) | ShowInt (n : Z).

(** What the text of [Inversion] is formatted from. *)
Inductive InvertMsg :=
| Because (what : string)
| AboutCid (what : string) (c : Cid)
| AboutOp (what : string) (action path : bytes)
| MstFailed (e : MstError).

(** The errors of the traits a verifier is given: a state store, an identity
    directory and a source of repositories. *)
Class Outside := { StateStoreError : Type; IdentityError : Type; SyncError : Type }.

Inductive SignatureReason := NoSigningKey | NotVerified (e : RepoCommit.RepoError).

Inductive ResyncReason `{Outside} :=
| BrokenChain (expected actual : option Cid)
| NoRepoSource
| FetchFailed (e : SyncError).

Inductive VerifierError `{Outside} :=
| FutureRev (did : Did.Did) (rev : RevText)
| ChainBreak (did : Did.Did) (rev : RevText) (expected actual : option Cid)
| FieldMismatch (did : Did.Did) (rev : option RevText) (field : string) (expected actual : Shown)
| SignatureInvalid (did : Did.Did) (rev : RevText) (first second : SignatureReason)
| OpCidMismatch (did : Did.Did) (rev : RevText) (path : bytes) (expected actual : option Cid)
| DuplicatePath (did : Did.Did) (rev : RevText) (path : bytes)
| LegacyCommit (did : Did.Did) (rev : RevText) (seen_rev : option bytes) (seen_data : option Cid)
| OversizedCommit (did : Did.Did) (rev : option RevText) (field : string) (size limit : nat)
| RepoInactive (did : Did.Did) (status : option bytes) (seq : option Z) (time : option bytes)
| ResyncRequired (did : Did.Did) (reason : ResyncReason)
| ResyncRateLimited (did : Did.Did)
| BufferOverflow (did : Did.Did) (len limit : nat)
| RevRegression (did : Did.Did) (current : bytes) (fetched : RevText)
| ResyncFailed (did : Did.Did) (source : VerifierError)
| Inversion (did : Did.Did) (rev : RevText) (message : InvertMsg)
| StateStoreFailed (e : StateStoreError)
| CarFailed (did : option Did.Did) (rev : option RevText) (source : Car.CarError)
| RepoFailed (did : option Did.Did) (rev : option RevText) (source : RepoCommit.RepoError)
| IdentityFailed (did : Did.Did) (source : IdentityError).

(** ** The blocks of a CAR *)

Record CarBlockStore := MkCarStore { car_blocks : gmap Cid bytes; generated : gmap Cid bytes }.

Definition car_store_new (blocks : gmap Cid bytes) : CarBlockStore := MkCarStore blocks ∅.

(** [CarBlockStore::get] *)
Definition car_store_get (s : CarBlockStore) (c : Cid) : option bytes := car_blocks s !! c.

Definition generated_block (s : CarBlockStore) (c : Cid) : option bytes := generated s !! c.

Definition car_put_block (c : Cid) (data : bytes) : st CarBlockStore MstError () := fun s =>
  match car_blocks s !! c with
  | Some existing => (if bool_decide (existing <> data) then Err (internal "attempted to overwrite CAR block") else Ok (), s)
  | None =>
      match generated s !! c with
      | Some existing => (if bool_decide (existing <> data) then Err (internal "attempted to overwrite generated block") else Ok (), s)
      | None => (Ok (), MkCarStore (car_blocks s) (<[c := data]> (generated s)))
      end
  end.

#[export] Instance car_block_store : BlockStore CarBlockStore := {|
  get_block s c :=
    ok_or (BlockNotFound c) (match car_blocks s !! c with Some data => Some data | None => generated_block s c end);
  put_block := car_put_block;
  has_block s c := Ok (bool_decide (is_Some (car_blocks s !! c)) || bool_decide (is_Some (generated s !! c)))
|}.

Record DecodedCommitCar := MkDecoded { dc_inner : Commit; dc_store : CarBlockStore; dc_car_root : Cid }.

Section Invert.
Context `{Sha2} `{Simdutf8} `{Outside}.
Abbreviation verifier_res := (res VerifierError).

Definition inversion_error (raw : RawCommit) (message : InvertMsg) : VerifierError :=
  Inversion (repo raw) (OfTid (rev raw)) message.

Definition mst_inversion_error (raw : RawCommit) (source : MstError) := inversion_error raw (MstFailed source).

(** ** Decoding *)

(** The loop over the blocks. *)
Fixpoint block_map (error : Car.CarError -> VerifierError) (blocks : list Car.BlockRef)
    (m : gmap Cid bytes) : verifier_res (gmap Cid bytes) :=
  match blocks with
  | [] => Ok m
  | Car.MkBlock c data :: blocks =>
      if negb (bool_decide (compute (codec c) data = c)) then
        Err (error (Car.invalid_block "CID mismatch for block"))
      else
        match m !! c with
        | Some existing =>
            if bool_decide (existing <> data) then Err (error (Car.invalid_block "duplicate block with different bytes"))
            else block_map error blocks m
        | None => block_map error blocks (<[c := data]> m)
        end
  end.

Definition decode_commit_car (raw : RawCommit) : verifier_res DecodedCommitCar :=
  let car_error := CarFailed (Some (repo raw)) (Some (OfTid (rev raw))) in
  '(roots, blocks) ← map_err car_error (CarSlice.read_slice (blocks raw));
  car_root ← ok_or (inversion_error raw (Because "CAR has no roots")) (head roots);
  if negb (bool_decide (car_root = commit raw)) then
    Err (FieldMismatch (repo raw) (Some (OfTid (rev raw))) "commit" (ShowCid (commit raw)) (ShowCid car_root))
  else
    m ← block_map car_error blocks ∅;
    let store := car_store_new m in
    block ← ok_or (inversion_error raw (AboutCid "commit block missing from CAR" (commit raw))) (car_store_get store (commit raw));
    inner ← map_err (RepoFailed (Some (repo raw)) (Some (OfTid (rev raw)))) (RepoCommit.from_cbor block);
    Ok (MkDecoded inner store car_root).

Definition decode_sync_commit (did : Did.Did) (rev : bytes) (blocks : bytes) : verifier_res Commit :=
  let car_error := CarFailed (Some did) (Some (OfText rev)) in
  '(roots, car_blocks) ← map_err car_error (CarSlice.read_slice blocks);
  commit_cid ← ok_or (Inversion did (OfText rev) (Because "sync CAR has no roots")) (head roots);
  block ← ok_or (Inversion did (OfText rev) (AboutCid "commit block missing from sync CAR" commit_cid))
    (List.find (fun b => bool_decide (Car.cid b = commit_cid)) car_blocks);
  if negb (bool_decide (compute (codec (Car.cid block)) (Car.data block) = Car.cid block)) then
    Err (car_error (Car.invalid_block "CID mismatch for sync commit block"))
  else map_err (RepoFailed (Some did) (Some (OfText rev))) (RepoCommit.from_cbor (Car.data block)).

(** ** Inversion *)

Fixpoint duplicate_path (ops : list RawRepoOp) (seen : gset bytes) : option bytes :=
  match ops with
  | [] => None
  | op :: ops => if bool_decide (path op ∈ seen) then Some (path op) else duplicate_path ops ({[path op]} ∪ seen)
  end.

Definition find_duplicate_path (ops : list RawRepoOp) : option bytes := duplicate_path ops ∅.

(** One operation undone. *)
Definition invert_op (raw : RawCommit) (op : RawRepoOp) : st (Tree CarBlockStore) VerifierError () := fun tree =>
  if bool_decide (action op = b# "create") then
    let '(r, tree) := tree_remove (path op) tree in (_ ← map_err (mst_inversion_error raw) r; Ok (), tree)
  else if bool_decide (action op = b# "update" \/ action op = b# "delete") then
    match op_prev op with
    | None => (Err (inversion_error raw (AboutOp "missing prev for op" (action op) (path op))), tree)
    | Some prev => let '(r, tree) := tree_insert (path op) prev tree in (map_err (mst_inversion_error raw) r, tree)
    end
  else (Err (inversion_error raw (AboutOp "unknown repo op action" (action op) (path op))), tree).

Definition invert_decoded_commit (raw : RawCommit) (inner : Commit) (store : CarBlockStore) : verifier_res Cid :=
  match find_duplicate_path (ops raw) with
  | Some path => Err (DuplicatePath (repo raw) (OfTid (rev raw)) path)
  | None =>
      match for_each (invert_op raw) (List.rev (ops raw)) (tree_load store (RepoCommit.data inner)) with
      | (Ok _, tree) => map_err (mst_inversion_error raw) (tree_root_cid tree).1
      | (Err e, _) => Err e
      | (Panic, _) => Panic
      end
  end.

Definition invert_commit (raw : RawCommit) : verifier_res Cid :=
  match find_duplicate_path (ops raw) with
  | Some path => Err (DuplicatePath (repo raw) (OfTid (rev raw)) path)
  | None => decoded ← decode_commit_car raw; invert_decoded_commit raw (dc_inner decoded) (dc_store decoded)
  end.

(** ** The claims of the operations *)

Definition op_mismatch (raw : RawCommit) (op : RawRepoOp) (expected actual : option Cid) : VerifierError :=
  OpCidMismatch (repo raw) (OfTid (rev raw)) (path op) expected actual.

Definition check_op (raw : RawCommit) (op : RawRepoOp) : st (Tree CarBlockStore) VerifierError () := fun tree =>
  if bool_decide (action op = b# "create" \/ action op = b# "update") then
    match op_cid op with
    | None => (Err (op_mismatch raw op None None), tree)
    | Some expected =>
        let '(r, tree) := tree_get (path op) tree in
        (actual ← map_err (fun _ => op_mismatch raw op (Some expected) None) r;
         if negb (bool_decide (actual = Some expected)) then Err (op_mismatch raw op (Some expected) actual) else Ok (), tree)
    end
  else if bool_decide (action op = b# "delete") then
    match op_cid op with
    | Some claimed => (Err (op_mismatch raw op None (Some claimed)), tree)
    | None =>
        let '(r, tree) := tree_get (path op) tree in
        (actual ← map_err (fun _ => op_mismatch raw op None None) r;
         if bool_decide (is_Some actual) then Err (op_mismatch raw op None actual) else Ok (), tree)
    end
  else (Err (inversion_error raw (AboutOp "unknown repo op action" (action op) (path op))), tree).

Definition check_op_cids (raw : RawCommit) (data_cid : Cid) (store : CarBlockStore) : verifier_res () :=
  (for_each (check_op raw) (ops raw) (tree_load store data_cid)).1.
End Invert.

(** ** The store keeps the trait's promises *)

Lemma car_get_block (s : CarBlockStore) c : get_block s c =
  ok_or (BlockNotFound c) (match car_blocks s !! c with Some data => Some data | None => generated s !! c end).
Proof. done. Qed.

Lemma car_put_block_spec c data s : let '(r, s') := car_put_block c data s in
  car_blocks s' = car_blocks s /\ (forall c', is_Some (generated s !! c') -> is_Some (generated s' !! c')) /\
  match r with Ok _ => get_block s' c = Ok data | Err _ => s' = s | Panic => False end.
Proof.
  unfold car_put_block. destruct (car_blocks s !! c) as [d|] eqn:Hc; [|destruct (generated s !! c) as [d|] eqn:Hg].
  - case_bool_decide as Hne; split_and!; try done. rewrite car_get_block, Hc. cbn. by rewrite Hne.
  - case_bool_decide as Hne; split_and!; try done. rewrite car_get_block, Hc, Hg. cbn. by rewrite Hne.
  - split_and!; [done| |].
    + intros c' Hs. cbn. destruct (decide (c = c')) as [->|Hn]; [by rewrite Hg in Hs; destruct Hs|by rewrite lookup_insert_ne].
    + rewrite car_get_block. cbn. by rewrite Hc, lookup_insert_eq.
Qed.

#[export] Instance car_block_store_laws : BlockStoreLaws CarBlockStore.
Proof.
  split.
  - intros s c. apply no_panic_ok_or.
  - intros c data s. pose proof (car_put_block_spec c data s) as Hp. cbn [put_block car_block_store].
    destruct (car_put_block c data s) as [[|e|] s']; naive_solver.
  - intros c data s c' [d Hd]. pose proof (car_put_block_spec c data s) as Hp. cbn [put_block car_block_store].
    destruct (car_put_block c data s) as [r s']. destruct Hp as (Hb & Hg & _). unfold stored. cbn [snd].
    rewrite car_get_block in *. rewrite Hb. destruct (car_blocks s !! c') as [x|]; [by exists x|].
    destruct (Hg c') as [x ->]; [|by exists x]. destruct (generated s !! c'); [by eexists|done].
Qed.

(** ** What a CAR holds *)

(** The blocks hash to their CIDs. *)
Definition all_hashed `{Sha2} (m : gmap Cid bytes) : Prop := forall c data, m !! c = Some data -> compute (codec c) data = c.

Section Decoded.
Context `{Sha2} `{Simdutf8} `{Outside}.

Lemma block_map_Ok error blocks m m' : block_map error blocks m = Ok m' -> all_hashed m ->
  all_hashed m' /\ forall c data, m' !! c = Some data <-> m !! c = Some data \/ Car.MkBlock c data ∈ blocks.
Proof.
  revert m. induction blocks as [|[c0 d0] blocks IH]; intros m; cbn [block_map].
  { intros [= <-] Hh. split; [done|]. intros c data. split; [by left|]. intros [?|?%elem_of_nil]; done. }
  case_bool_decide as Hc; cbn [negb]; [|done]. destruct (m !! c0) as [x|] eqn:Hx.
  - case_bool_decide as Hd; [done|]. try (apply dec_stable in Hd). subst x. intros Hr Hh. destruct (IH m Hr Hh) as [Hh' Hm]. split; [done|].
    intros c data. rewrite Hm, elem_of_cons. naive_solver.
  - intros Hr Hh. destruct (IH (<[c0 := d0]> m) Hr) as [Hh' Hm].
    { intros c data [[<- <-]|[_ Hin]]%lookup_insert_Some; [done|by apply Hh]. }
    split; [done|]. intros c data. rewrite Hm, lookup_insert_Some, elem_of_cons. split.
    + intros [[[<- <-]|[_ ?]]|?]; auto.
    + intros [Hin|[[= -> ->]|?]]; [|by left; left|by right]. left. right. split; [|done]. intros <-. by rewrite Hx in Hin.
Qed.

(** What [decode_commit_car] has checked. *)
Record decoded_from (raw : RawCommit) (d : DecodedCommitCar) : Prop := {
  df_car : exists roots bs, CarSlice.read_slice (blocks raw) = Ok (roots, bs) /\ head roots = Some (commit raw) /\
    forall c data, car_blocks (dc_store d) !! c = Some data <-> Car.MkBlock c data ∈ bs;
  df_hashed : all_hashed (car_blocks (dc_store d));
  df_new : generated (dc_store d) = ∅;
  df_inner : exists block, car_blocks (dc_store d) !! commit raw = Some block /\ RepoCommit.from_cbor block = Ok (dc_inner d)
}.

Lemma decode_commit_car_Ok raw d : decode_commit_car raw = Ok d -> decoded_from raw d.
Proof.
  unfold decode_commit_car. intros ([roots bs] & Hs%map_err_Ok & (root & Hroot%ok_or_Ok & Hr)%res_bind_Ok)%res_bind_Ok.
  case_bool_decide as He; [|done]. subst root. cbn [negb] in Hr. apply res_bind_Ok in Hr as (m & Hm & Hr). cbv zeta in Hr.
  apply res_bind_Ok in Hr as (block & Hb%ok_or_Ok & (inner & Hi%map_err_Ok & [= <-])%res_bind_Ok).
  apply block_map_Ok in Hm as [Hh Hm]; [|by intros c data ?%lookup_empty_Some]. split; cbn.
  - exists roots, bs. split_and!; [done..|]. intros c data. rewrite Hm, lookup_empty. naive_solver.
  - done.
  - done.
  - by exists block.
Qed.

End Decoded.

(** ** Operations on maps *)

(** An operation undone, and done, on the map of the repository. *)
Definition undo (op : RawRepoOp) (l : kvs) : kvs :=
  if decide (action op = b# "create") then without (path op) l
  else match op_prev op with Some prev => upsert (path op) prev l | None => l end.
Definition redo (op : RawRepoOp) (l : kvs) : kvs :=
  if decide (action op = b# "delete") then without (path op) l
  else match op_cid op with Some c => upsert (path op) c l | None => l end.

Definition undo_all (ops : list RawRepoOp) (l : kvs) : kvs := foldr undo l ops.
Definition redo_all (ops : list RawRepoOp) (l : kvs) : kvs := foldl (fun l op => redo op l) l ops.

(** An operation with the fields its action needs. *)
Definition op_complete (op : RawRepoOp) : Prop :=
  action op = b# "create" \/ ((action op = b# "update" \/ action op = b# "delete") /\ is_Some (op_prev op)).

(** What an operation says of the map after it: the record, or its absence. *)
Definition op_after (l : kvs) (op : RawRepoOp) : Prop :=
  (action op = b# "create" \/ action op = b# "update" \/ action op = b# "delete") /\
  SortedMap.get (path op) l = op_cid op /\ (action op = b# "delete" <-> op_cid op = None).

(** And of the map before it: a creation is of a new path, the others name the
    record they replace. *)
Definition op_before (l : kvs) (op : RawRepoOp) : Prop :=
  SortedMap.get (path op) l = if decide (action op = b# "create") then None else op_prev op.

Lemma ordered_undo op l : ordered l -> ordered (undo op l).
Proof.
  intros Ho. unfold undo. case_decide; [by apply ordered_without|]. destruct (op_prev op); [by apply ordered_upsert|done].
Qed.

Lemma ordered_undo_all ops l : ordered l -> ordered (undo_all ops l).
Proof. intros Ho. induction ops as [|op ops IH]; [done|]. by apply ordered_undo. Qed.

Lemma get_undo_ne op l key : ordered l -> key <> path op -> SortedMap.get key (undo op l) = SortedMap.get key l.
Proof.
  intros Ho Hne. unfold undo. case_decide; [by rewrite get_without, decide_False|].
  destruct (op_prev op); [by rewrite get_upsert, decide_False|done].
Qed.

Lemma get_undo_all_ne ops l key : ordered l -> Forall (fun op => path op <> key) ops ->
  SortedMap.get key (undo_all ops l) = SortedMap.get key l.
Proof.
  intros Ho. induction 1 as [|op ops Hne _ IH]; [done|]. change (undo_all (op :: ops) l) with (undo op (undo_all ops l)).
  rewrite get_undo_ne; [done|by apply ordered_undo_all|done].
Qed.

Lemma get_undo op l : ordered l -> op_complete op -> op_before (undo op l) op.
Proof.
  intros Ho Hc. unfold op_before, undo. case_decide as Ha; [by rewrite get_without, decide_True|].
  destruct Hc as [?|[_ [p Hp]]]; [done|]. by rewrite Hp, get_upsert, decide_True.
Qed.

Lemma redo_undo op l : ordered l -> op_after l op -> redo op (undo op l) = l.
Proof.
  intros Ho (Ha & Hg & Hd). apply ordered_ext; [|done|].
  - unfold redo. case_decide; [by apply ordered_without, ordered_undo|].
    destruct (op_cid op); [by apply ordered_upsert, ordered_undo|by apply ordered_undo].
  - intros key. unfold redo. case_decide as Hdel.
    + rewrite get_without by by apply ordered_undo. case_decide as Hk; [subst key; by rewrite Hg, (proj1 Hd)|by apply get_undo_ne].
    + destruct (op_cid op) as [c|] eqn:Hc; [|by destruct Hdel; apply Hd].
      rewrite get_upsert by by apply ordered_undo. case_decide as Hk; [by subst key|by apply get_undo_ne].
Qed.

(** Operations on different paths can be undone and done again. *)
Lemma redo_undo_all ops l : ordered l -> NoDup (map path ops) -> Forall (op_after l) ops -> redo_all ops (undo_all ops l) = l.
Proof.
  intros Ho. induction ops as [|op ops IH]; [done|]. cbn [map]. intros [Hn Hnd]%NoDup_cons [Ha Hall]%Forall_cons.
  change (redo_all ops (redo op (undo op (undo_all ops l))) = l). rewrite redo_undo; [by apply IH|by apply ordered_undo_all|].
  destruct Ha as (Ha & Hg & Hd). split; [done|]. split; [|done]. rewrite get_undo_all_ne; [done..|].
  apply Forall_forall. intros op' Hin Heq. apply Hn. rewrite <- Heq. by apply list_elem_of_fmap_2.
Qed.

Lemma undo_all_before ops l : ordered l -> NoDup (map path ops) -> Forall op_complete ops -> Forall (op_before (undo_all ops l)) ops.
Proof.
  intros Ho. induction ops as [|op ops IH]; [done|]. cbn [map]. intros [Hn Hnd]%NoDup_cons [Hc Hall]%Forall_cons.
  change (undo_all (op :: ops) l) with (undo op (undo_all ops l)). constructor; [apply get_undo; [by apply ordered_undo_all|done]|].
  specialize (IH Hnd Hall). apply Forall_forall. intros op' Hin. rewrite Forall_forall in IH. specialize (IH _ Hin).
  unfold op_before in *. rewrite get_undo_ne; [done|by apply ordered_undo_all|].
  intros Heq. apply Hn. rewrite <- Heq. by apply list_elem_of_fmap_2.
Qed.

(** ** Duplicate paths *)

Lemma fresh_paths (op : RawRepoOp) (ops : list RawRepoOp) (seen : gset bytes) : path op ∉ seen -> NoDup (map path ops) ->
  Forall (fun op' => path op' ∉ ({[path op]} ∪ seen : gset bytes)) ops ->
  NoDup (map path (op :: ops)) /\ Forall (fun op => path op ∉ seen) (op :: ops).
Proof.
  intros Hin Hn Hf. cbn [map]. rewrite Forall_forall in Hf. split.
  - constructor; [|done]. intros (op' & Heq & Hop)%list_elem_of_fmap. specialize (Hf op' Hop). set_solver.
  - constructor; [done|]. apply Forall_forall. intros op' Hop. specialize (Hf op' Hop). set_solver.
Qed.

Lemma duplicate_path_spec ops seen : match duplicate_path ops seen with
  | None => NoDup (map path ops) /\ Forall (fun op => path op ∉ seen) ops
  | Some p => exists a op b, ops = a ++ op :: b /\ path op = p /\ (p ∈ seen \/ p ∈ map path a) /\
      NoDup (map path a) /\ Forall (fun op => path op ∉ seen) a
  end.
Proof.
  revert seen. induction ops as [|op ops IH]; intros seen; cbn [duplicate_path]; [by split; [constructor|]|].
  case_bool_decide as Hin.
  { exists [], op, ops. split_and!; [done..|by left|constructor|done]. }
  specialize (IH ({[path op]} ∪ seen)). destruct (duplicate_path ops _) as [p|].
  - destruct IH as (a & op' & b & -> & Hp & Hs & Hn & Hf). destruct (fresh_paths op a seen Hin Hn Hf) as [Hn' Hf'].
    exists (op :: a), op', b. split_and!; [done..| |done|done]. cbn [map]. rewrite elem_of_cons. set_solver.
  - destruct IH as [Hn Hf]. by apply fresh_paths.
Qed.

Lemma find_duplicate_None ops : find_duplicate_path ops = None -> NoDup (map path ops).
Proof. intros Hd. pose proof (duplicate_path_spec ops ∅) as Hs. unfold find_duplicate_path in Hd. rewrite Hd in Hs. apply Hs. Qed.

(** [find_duplicate_path] finds a path that two operations have, the one
    whose second occurrence comes first, and nothing exactly if there is
    none. *)
Theorem find_duplicate_path_spec ops : match find_duplicate_path ops with
  | None => NoDup (map path ops)
  | Some p => exists a op b, ops = a ++ op :: b /\ path op = p /\ p ∈ map path a /\ NoDup (map path a)
  end.
Proof.
  unfold find_duplicate_path. pose proof (duplicate_path_spec ops ∅) as Hd. destruct (duplicate_path ops ∅) as [p|]; [|apply Hd].
  destruct Hd as (a & op & b & -> & Hp & [Hs|Hs] & Hn & _); [by apply not_elem_of_empty in Hs|]. by exists a, op, b.
Qed.

(** ** The map of the repository before a commit *)

Section Sound.
Context `{Simdutf8Laws} `{Sha2Laws} `{!Stubs} `{!StubsLaws} `{Outside}.
Implicit Types (t : Tree CarBlockStore) (l : kvs).

Lemma tree_get_for key t l : tree_for t l -> let '(r, t') := tree_get key t in
  tree_for t' l /\ match r with Ok v => v = SortedMap.get key l | Err _ => True | Panic => False end.
Proof.
  intros [Ht Hs]. pose proof (get_stands_for _ (store_source_no_panic (store t)) Hs _ _ key Ht) as Hg.
  unfold tree_get. rewrite on_inner_run. destruct (get _ _ _) as [r t']. cbn. by destruct Hg.
Qed.

Lemma tree_insert_for key v t l : tree_for t l -> let '(r, t') := tree_insert key v t in
  match r with Ok _ => tree_for t' (upsert key v l) | Err _ => True | Panic => False end.
Proof.
  intros [Ht Hs]. pose proof (insert_stands_for _ (store_source_no_panic (store t)) Hs _ _ key v Ht) as Hg.
  unfold tree_insert, mbind, st_bind. rewrite on_inner_run. destruct (insert _ _ _ _) as [[p|e|] t']; [|done..]. by destruct Hg as (_ & _ & ?).
Qed.

Lemma tree_remove_for key t l : tree_for t l -> let '(r, t') := tree_remove key t in
  match r with Ok _ => tree_for t' (without key l) | Err _ => True | Panic => False end.
Proof.
  intros [Ht Hs]. pose proof (remove_stands_for _ (store_source_no_panic (store t)) Hs _ _ key Ht) as Hg.
  unfold tree_remove. rewrite on_inner_run. destruct (remove _ _ _) as [[p|e|] t']; [|done..]. by destruct Hg as (_ & ?).
Qed.

Lemma invert_op_for raw op t l : tree_for t l -> let '(r, t') := invert_op raw op t in
  match r with Ok _ => op_complete op /\ tree_for t' (undo op l) | Err _ => True | Panic => False end.
Proof.
  intros Ht. unfold invert_op, undo, op_complete. case_bool_decide as Hc; [|case_bool_decide as Hu].
  - pose proof (tree_remove_for (path op) t l Ht) as Hr. destruct (tree_remove _ _) as [[v|e|] t']; [|done..].
    cbn. rewrite decide_True by done. by split; [left|].
  - destruct (op_prev op) as [prev|]; [|done]. pose proof (tree_insert_for (path op) prev t l Ht) as Hr.
    destruct (tree_insert _ _ _) as [[v|e|] t']; [|done..]. cbn. rewrite decide_False by done. split; [|done]. right. by split; [|eexists].
  - done.
Qed.

Lemma invert_ops_for raw ops t l : tree_for t l -> let '(r, t') := for_each (invert_op raw) ops t in
  match r with Ok _ => Forall op_complete ops /\ tree_for t' (foldl (fun l op => undo op l) l ops) | Err _ => True | Panic => False end.
Proof.
  revert t l. induction ops as [|op ops IH]; intros t l Ht; cbn [for_each]; [done|].
  pose proof (invert_op_for raw op t l Ht) as Ho. unfold mbind, st_bind. destruct (invert_op raw op t) as [[[]|e|] t']; [|done..].
  destruct Ho as [Hc Ht']. specialize (IH t' _ Ht'). destruct (for_each _ ops t') as [[[]|e|] t'']; [|done..].
  destruct IH as [Hall Hf]. by split; [constructor|].
Qed.

Lemma undo_all_rev ops l : foldl (fun l op => undo op l) l (List.rev ops) = undo_all ops l.
Proof. induction ops as [|op ops IH]; [done|]. cbn [List.rev]. rewrite foldl_app, IH. done. Qed.

Lemma check_op_for raw op t l : tree_for t l -> let '(r, t') := check_op raw op t in
  tree_for t' l /\ match r with Ok _ => op_after l op | Err _ => True | Panic => False end.
Proof.
  intros Ht. unfold check_op, op_after. pose proof (tree_get_for (path op) t l Ht) as Hg.
  case_bool_decide as Hc; [|case_bool_decide as Hd; [|done]].
  - destruct (op_cid op) as [c|]; [|done]. destruct (tree_get _ _) as [[v|e|] t']; destruct Hg as [Ht' Hv]; [|done..].
    cbn. case_bool_decide as He; [|done]. cbn. split; [done|]. rewrite <- Hv. split; [naive_solver|]. split; [done|].
    split; [|done]. intros Ha. rewrite Ha in Hc. by destruct Hc.
  - destruct (op_cid op) as [c|]; [done|]. destruct (tree_get _ _) as [[v|e|] t']; destruct Hg as [Ht' Hv]; [|done..].
    cbn. case_bool_decide as He; [done|]. cbn. split; [done|]. rewrite <- Hv. split; [naive_solver|]. split; [|done].
    destruct v; [by destruct He|done].
Qed.

Lemma check_ops_for raw ops t l : tree_for t l -> let '(r, t') := for_each (check_op raw) ops t in
  match r with Ok _ => Forall (op_after l) ops | Err _ => True | Panic => False end.
Proof.
  revert t. induction ops as [|op ops IH]; intros t Ht; cbn [for_each]; [by constructor|].
  pose proof (check_op_for raw op t l Ht) as Ho. unfold mbind, st_bind. destruct (check_op raw op t) as [[[]|e|] t']; destruct Ho as [Ht' Ha]; [|done..].
  specialize (IH t' Ht'). destruct (for_each _ ops t') as [[[]|e|] t'']; [|done..]. by constructor.
Qed.

(** The root of a commit stands for a map whose blocks the store serves. *)
Definition commits_to (inner : Commit) (s : CarBlockStore) l : Prop := tree_for (tree_load s (RepoCommit.data inner)) l.

Lemma invert_decoded_commit_for raw inner s l : commits_to inner s l ->
  match invert_decoded_commit raw inner s with
  | Ok root => NoDup (map path (ops raw)) /\ Forall op_complete (ops raw) /\ map_root (undo_all (ops raw) l) = Some root
  | Err _ => True
  | Panic => False
  end.
Proof.
  intros Ht. unfold invert_decoded_commit. pose proof (duplicate_path_spec (ops raw) ∅) as Hd. fold (find_duplicate_path (ops raw)) in Hd.
  destruct (find_duplicate_path (ops raw)) as [p|]; [done|]. destruct Hd as [Hd _].
  pose proof (invert_ops_for raw (List.rev (ops raw)) _ _ Ht) as Hi. rewrite undo_all_rev in Hi.
  destruct (for_each _ _ _) as [[[]|e|] t']; [|done..]. destruct Hi as [Hall [Hs _]].
  pose proof (tree_root_cid_for t' _ Hs) as Hr. destruct (tree_root_cid t') as [[root|e|] t'']; cbn; [|done|naive_solver].
  split_and!; [done| |naive_solver]. rewrite Forall_forall in *. intros op Hop. apply Hall.
  by apply list_elem_of_In, in_rev; rewrite rev_involutive; apply list_elem_of_In.
Qed.

Lemma inversion_history raw inner s l : commits_to inner s l ->
  no_panic (check_op_cids raw (RepoCommit.data inner) s) /\ no_panic (invert_decoded_commit raw inner s) /\
  forall root, check_op_cids raw (RepoCommit.data inner) s = Ok () -> invert_decoded_commit raw inner s = Ok root ->
  exists l0, map_root l0 = Some root /\ ordered l0 /\ redo_all (ops raw) l0 = l /\
    Forall (op_before l0) (ops raw) /\ Forall (op_after l) (ops raw).
Proof.
  intros Ht. pose proof (invert_decoded_commit_for raw inner s l Ht) as Hi. pose proof (check_ops_for raw (ops raw) _ _ Ht) as Hc.
  unfold check_op_cids. destruct (for_each (check_op raw) _ _) as [rc t']. cbn [fst].
  split; [by destruct rc|]. split; [by destruct (invert_decoded_commit raw inner s)|]. intros root -> Hr. rewrite Hr in Hi.
  destruct Hi as (Hn & Hall & Hroot). assert (Ho : ordered l) by apply Ht. exists (undo_all (ops raw) l).
  split_and!; [done|by apply ordered_undo_all|by apply redo_undo_all|by apply undo_all_before|done].
Qed.
(** C23. A commit that passes both checks carries a true history: the root
    that [invert_decoded_commit] returns is that of a map from which the
    operations, done in order, lead to the map the commit's root stands for;
    creations are of new paths, and the other operations name the records
    they replace. Neither check panics. *)
Theorem inversion_sound raw inner s l : commits_to inner s l ->
  no_panic (check_op_cids raw (RepoCommit.data inner) s) /\ no_panic (invert_decoded_commit raw inner s) /\
  forall root, check_op_cids raw (RepoCommit.data inner) s = Ok () -> invert_decoded_commit raw inner s = Ok root ->
  exists l0, map_root l0 = Some root /\ ordered l0 /\ redo_all (ops raw) l0 = l /\
    Forall (op_before l0) (ops raw) /\ Forall (op_after l) (ops raw).
Proof. apply inversion_history. Qed.
End Sound.

(** ** Commits of any bytes *)

Section Hostile.
Context `{Simdutf8Laws} `{Sha2Laws} `{Outside}.

Lemma car_source_no_panic (s : CarBlockStore) c : no_panic (store_source s c).
Proof. apply store_source_no_panic. Qed.

Definition usable (t : Tree CarBlockStore) : Prop := sound (inner t).

Lemma tree_load_usable s c : usable (tree_load s c).
Proof. split_and!; [done|apply refs_ok_load|]. split; [apply ordered_nil|apply Forall_nil_2]. Qed.

Lemma tree_get_usable key t : usable t -> usable (tree_get key t).2 /\ no_panic (tree_get key t).1.
Proof.
  intros Ht. pose proof (get_sound _ (car_source_no_panic (store t)) _ key Ht) as Hg. unfold tree_get. rewrite on_inner_run.
  destruct (get _ _ _) as [r t']. destruct Hg as [Ht' Hr]. split; [done|]. by destruct r.
Qed.

Lemma tree_insert_usable key v t : usable t -> usable (tree_insert key v t).2 /\ no_panic (tree_insert key v t).1.
Proof.
  intros Ht. pose proof (insert_sound _ (car_source_no_panic (store t)) _ key v Ht) as Hg. unfold tree_insert, mbind, st_bind.
  rewrite on_inner_run. destruct (insert _ _ _ _) as [r t']. destruct Hg as [Ht' Hr]. by destruct r.
Qed.

Lemma tree_remove_usable key t : usable t -> usable (tree_remove key t).2 /\ no_panic (tree_remove key t).1.
Proof.
  intros Ht. pose proof (remove_sound _ (car_source_no_panic (store t)) _ key Ht) as Hg. unfold tree_remove. rewrite on_inner_run.
  destruct (remove _ _ _) as [r t']. destruct Hg as [Ht' Hr]. split; [done|]. by destruct r.
Qed.

Lemma tree_root_cid_no_panic t : usable t -> no_panic (tree_root_cid t).1.
Proof.
  intros Ht. pose proof (flush_safe _ Ht) as Hf. unfold tree_root_cid. unfold mbind at 1, st_bind at 1. rewrite on_inner_run.
  destruct (flush (inner t)) as [[w|e|] t']; [|done..]. unfold mbind, st_bind, modify, save_unsaved. cbn [fst snd inner store unsaved].
  pose proof (save_spec (List.rev (unsaved t ++ new_blocks w)) (store t)) as Hs. destruct (save _ _) as [[[]|e|] [p s']]; [done..|].
  by destruct Hs as (_ & _ & []).
Qed.

(** Runs of the two loops. *)
Lemma for_each_usable (f : RawRepoOp -> st (Tree CarBlockStore) VerifierError ()) ops t :
  (forall op t, usable t -> usable (f op t).2 /\ no_panic (f op t).1) -> usable t ->
  usable (for_each f ops t).2 /\ no_panic (for_each f ops t).1.
Proof.
  intros Hf. revert t. induction ops as [|op ops IH]; intros t Ht; cbn [for_each]; [done|].
  destruct (Hf op t Ht) as [Ht' Hr]. unfold mbind, st_bind. destruct (f op t) as [[[]|e|] t']; [by apply IH|done..].
Qed.

Lemma invert_op_usable raw op t : usable t -> usable (invert_op raw op t).2 /\ no_panic (invert_op raw op t).1.
Proof.
  intros Ht. unfold invert_op. case_bool_decide; [|case_bool_decide; [|done]].
  - destruct (tree_remove_usable (path op) t Ht) as [Ht' Hr]. destruct (tree_remove _ _) as [[] t']; done.
  - destruct (op_prev op) as [prev|]; [|done]. destruct (tree_insert_usable (path op) prev t Ht) as [Ht' Hr].
    destruct (tree_insert _ _ _) as [[] t']; done.
Qed.

Lemma check_op_usable raw op t : usable t -> usable (check_op raw op t).2 /\ no_panic (check_op raw op t).1.
Proof.
  intros Ht. unfold check_op. destruct (tree_get_usable (path op) t Ht) as [Ht' Hr].
  case_bool_decide; [|case_bool_decide; [|done]]; destruct (op_cid op); try done; destruct (tree_get _ _) as [[v|e|] t']; try done;
    cbn; (split; [done|]); case_bool_decide; done.
Qed.

Lemma invert_decoded_commit_no_panic raw inner s : no_panic (invert_decoded_commit raw inner s).
Proof.
  unfold invert_decoded_commit. destruct (find_duplicate_path _); [done|].
  destruct (for_each_usable (invert_op raw) (List.rev (ops raw)) (tree_load s (RepoCommit.data inner)) (invert_op_usable raw) (tree_load_usable _ _)) as [Ht Hr].
  destruct (for_each _ _ _) as [[[]|e|] t']; [|done..]. by apply no_panic_map_err, tree_root_cid_no_panic.
Qed.

Lemma check_op_cids_no_panic raw c s : no_panic (check_op_cids raw c s).
Proof. apply for_each_usable; [apply check_op_usable|apply tree_load_usable]. Qed.

Lemma block_map_no_panic error blocks m : no_panic (block_map error blocks m).
Proof.
  revert m. induction blocks as [|[c data] blocks IH]; intros m; cbn [block_map]; [done|].
  case_bool_decide; cbn [negb]; [|done]. destruct (m !! c); [by case_bool_decide|done].
Qed.

Lemma decode_commit_car_no_panic raw : Forall is_u8 (blocks raw) -> no_panic (decode_commit_car raw).
Proof.
  intros Hu. unfold decode_commit_car. apply no_panic_bind; [by apply no_panic_map_err, CarSlice.read_slice_no_panic|].
  intros [roots bs] _. apply no_panic_bind; [apply no_panic_ok_or|]. intros root _. apply no_panic_if; intros _.
  apply no_panic_bind; [apply block_map_no_panic|]. intros m _. cbv zeta. apply no_panic_bind; [apply no_panic_ok_or|]. intros block _.
  apply no_panic_bind; [|done]. apply no_panic_map_err, RepoCommit.from_cbor_no_panic.
Qed.

Lemma decode_sync_commit_no_panic did rev bs : Forall is_u8 bs -> no_panic (decode_sync_commit did rev bs).
Proof.
  intros Hu. unfold decode_sync_commit. apply no_panic_bind; [by apply no_panic_map_err, CarSlice.read_slice_no_panic|].
  intros [roots cb] _. apply no_panic_bind; [apply no_panic_ok_or|]. intros c _. apply no_panic_bind; [apply no_panic_ok_or|]. intros b _.
  apply no_panic_if; intros _. apply no_panic_map_err, RepoCommit.from_cbor_no_panic.
Qed.
End Hostile.

(** ** Examples *)

#[local] Existing Instances simd_ref simd_ref_laws sha2_toy sha2_toy_laws ex_stubs ex_stubs_laws.

(** Nothing outside fails. *)
Definition ex_outside : Outside := {| StateStoreError := Empty_set; IdentityError := Empty_set; SyncError := Empty_set |}.
#[local] Existing Instance ex_outside.

(** A commit that created the record of the example map. *)
Definition ex_store : CarBlockStore := car_store_new {[ex_root := ex_block]}.
Definition ex_inner : Commit := RepoCommit.MkCommit RepoCommit.ex_did 3 7 None ex_root None.
Definition ex_created : RawCommit :=
  MkRawCommit RepoCommit.ex_did 7 1 [] None ex_root [] [MkOp (b# "create") ex_key (Some ex_val) None] [] None false false.

Lemma ex_store_source c : store_source ex_store c = ex_source c.
Proof.
  unfold store_source, ex_source. rewrite car_get_block. unfold ex_store, car_store_new. cbn [car_blocks generated].
  rewrite lookup_empty. case_bool_decide as Hc; [by rewrite Hc, lookup_singleton_eq|by rewrite lookup_singleton_ne].
Qed.

Lemma ex_commits_to : commits_to ex_inner ex_store ex_map.
Proof. split; [exact ex_stands_for|]. intros h c data Hc. unfold tree_load, store. rewrite ex_store_source. by apply ex_source_faithful. Qed.

Example inversion_sound_witness : exists root l0, invert_decoded_commit ex_created ex_inner ex_store = Ok root /\
  map_root l0 = Some root /\ redo_all (ops ex_created) l0 = ex_map /\ Forall (op_before l0) (ops ex_created).
Proof.
  pose proof (inversion_sound ex_created ex_inner ex_store ex_map ex_commits_to) as (_ & _ & Hs).
  assert (Hi : exists root, invert_decoded_commit ex_created ex_inner ex_store = Ok root) by (vm_compute; by eexists).
  assert (Hc : check_op_cids ex_created (RepoCommit.data ex_inner) ex_store = Ok ()) by (vm_compute; reflexivity).
  destruct Hi as [root Hi]. destruct (Hs root Hc Hi) as (l0 & Hroot & _ & Hredo & Hb & _). exists root, l0.
  exact (conj Hi (conj Hroot (conj Hredo Hb))).
Defined.
