(* ===== verification/SyncResync.v ===== *)
(** Whole repositories, as fetched to resynchronise: [src/src/sync/resync.rs].

    The loader takes a CAR in chunks and refuses it as soon as it crosses a
    limit. What is shown: the limits hold at every step, no bytes make it
    panic, every block it keeps hashes to its CID, and the operations it
    returns list the repository's records in order. *)
From S2P Require Import Prelude StateError SyntaxError CborError Cid CborValue CborDecode MstHeight SortedMap MstNode MstTree MstShape.
From S2P Require Import MstFlush MstLoad MstLoadSpec MstDetached MstDetachedSpec MstFlushed MstMap MstHostile MstStore MstStoreSpec SyncInvert.
From S2P Require Did Tid SmallString Car CarSlice CarIncremental RepoCommit RepoProof.

(** [usize::saturating_add] *)
Definition saturating_add (a b : Z) : Z := Z.min (a + b) usize_max.

Definition DEFAULT_MAX_REPO_CAR_BYTES : Z := 512 * 1024 * 1024.
Definition DEFAULT_MAX_REPO_BLOCKS : Z := 1000000.
Definition DEFAULT_MAX_REPO_BLOCK_BYTES : Z := 512 * 1024 * 1024.
Definition DEFAULT_MAX_REPO_RECORDS : Z := 1000000.

Record RepoLoadLimits := MkLimits { max_car_bytes : Z; max_blocks : Z; max_block_bytes : Z; max_records : Z }.

Definition limits_default : RepoLoadLimits :=
  MkLimits DEFAULT_MAX_REPO_CAR_BYTES DEFAULT_MAX_REPO_BLOCKS DEFAULT_MAX_REPO_BLOCK_BYTES DEFAULT_MAX_REPO_RECORDS.

(** [VerifierOp] of [verifier.rs] *)
Record VerifierOp := MkVerifierOp {
  v_repo : Did.Did; v_rev : Z; v_action : bytes; v_path : bytes; v_cid : option Cid; v_prev : option Cid; v_record : bytes
}.

Record LoadedRepo := MkLoaded { l_commit : Commit; l_ops : list VerifierOp }.

Record RepoCarLoader := MkLoader {
  r_did : Did.Did;
  limits : RepoLoadLimits;
  reader : CarIncremental.IncrementalReader;
  car_bytes : Z;
  block_count : Z;
  block_bytes : Z;
  r_blocks : gmap Cid bytes
}.

Definition loader_new (did : Did.Did) (limits : RepoLoadLimits) : RepoCarLoader :=
  MkLoader did limits CarIncremental.new 0 0 0 ∅.

Definition set_reader r l := MkLoader (r_did l) (limits l) r (car_bytes l) (block_count l) (block_bytes l) (r_blocks l).
Definition set_car_bytes n l := MkLoader (r_did l) (limits l) (reader l) n (block_count l) (block_bytes l) (r_blocks l).
Definition set_counts n m l := MkLoader (r_did l) (limits l) (reader l) (car_bytes l) n m (r_blocks l).
Definition set_blocks b l := MkLoader (r_did l) (limits l) (reader l) (car_bytes l) (block_count l) (block_bytes l) b.

Section Loader.
Context `{Sha2} `{Simdutf8} `{Outside}.
Abbreviation loading := (st RepoCarLoader VerifierError).

Definition loader_oversized (l : RepoCarLoader) (field : string) (size limit : Z) : VerifierError :=
  OversizedCommit (r_did l) None field (Z.to_nat size) (Z.to_nat limit).
Definition car_err (l : RepoCarLoader) (source : Car.CarError) : VerifierError := CarFailed (Some (r_did l)) None source.

(** A method of the reader. *)
Definition on_reader {A} (m : st CarIncremental.IncrementalReader Car.CarError A) : loading A := fun l =>
  let '(r, reader) := m (reader l) in (map_err (car_err l) r, set_reader reader l).

Definition add_block (block : Car.Block) : loading () := fun l =>
  if negb (bool_decide (compute (codec (Car.cid block)) (Car.data block) = Car.cid block)) then
    (Err (car_err l (Car.invalid_block "CID mismatch for block")), l)
  else
    match r_blocks l !! Car.cid block with
    | Some existing =>
        (if bool_decide (existing <> Car.data block) then Err (car_err l (Car.invalid_block "duplicate block with different bytes")) else Ok (), l)
    | None => (Ok (), set_blocks (<[Car.cid block := Car.data block]> (r_blocks l)) l)
    end.

(** The loop over the blocks that the bytes so far complete. *)
Fixpoint push_blocks (fuel : nat) : loading () :=
  match fuel with
  | O => panic
  | S fuel =>
      len ← on_reader CarIncremental.next_block_data_len;
      match len with
      | None => mret ()
      | Some len =>
          self ← gets id;
          let count := block_count self + 1 in
          if max_blocks (limits self) <? count then
            fail (loader_oversized self "repo_blocks" count (max_blocks (limits self)))
          else
            let size := saturating_add (block_bytes self) (Z.of_nat len) in
            if max_block_bytes (limits self) <? size then
              fail (loader_oversized self "repo_block_bytes" size (max_block_bytes (limits self)))
            else
              block ← on_reader CarIncremental.next_block;
              match block with
              | None => mret ()
              | Some block =>
                  _ ← modify (set_counts count size);
                  _ ← add_block block;
                  push_blocks fuel
              end
      end
  end.

Definition loader_push (chunk : bytes) : loading () :=
  _ ← modify (fun l => set_car_bytes (saturating_add (car_bytes l) (Z.of_nat (length chunk))) l);
  self ← gets id;
  if max_car_bytes (limits self) <? car_bytes self then
    fail (loader_oversized self "repo_car_bytes" (car_bytes self) (max_car_bytes (limits self)))
  else
    _ ← on_reader (CarIncremental.push chunk);
    self ← gets id;
    push_blocks (S (length (CarIncremental.pending (reader self)))).

(** The operations of a listing, with their records. *)
Fixpoint ops_of_entries (did : Did.Did) (rev : Z) (s : CarBlockStore) (entries : list (bytes * Cid)) : res VerifierError (list VerifierOp) :=
  match entries with
  | [] => Ok []
  | (path, cid) :: entries =>
      match car_store_get s cid with
      | None => Err (OpCidMismatch did (OfTid rev) path (Some cid) None)
      | Some record =>
          ops ← ops_of_entries did rev s entries;
          Ok (MkVerifierOp did rev (b# "resync") path (Some cid) None record :: ops)
      end
  end.

Definition repo_ops (did : Did.Did) (rev : Z) (data : Cid) (s : CarBlockStore) (limits : RepoLoadLimits) : res VerifierError (list VerifierOp) :=
  entries ← map_err (fun e => Inversion did (OfTid rev) (MstFailed e)) (tree_entries (tree_load s data)).1;
  if max_records limits <? Z.of_nat (length entries) then
    Err (OversizedCommit did (Some (OfTid rev)) "repo_records" (length entries) (Z.to_nat (max_records limits)))
  else ops_of_entries did rev s entries.

Definition load_repo (did : Did.Did) (commit_cid : Cid) (blocks : gmap Cid bytes) (limits : RepoLoadLimits) : res VerifierError LoadedRepo :=
  let s := car_store_new blocks in
  block ← ok_or (Inversion did (OfText (b# "<unknown>")) (AboutCid "commit block missing from CAR" commit_cid)) (car_store_get s commit_cid);
  commit ← map_err (RepoFailed (Some did) None) (RepoCommit.from_cbor block);
  same ← RepoCommit.unfailing (SmallString.eq (RepoCommit.did commit) did);
  if negb same then
    Err (FieldMismatch did (Some (OfTid (RepoCommit.rev commit))) "did" (ShowText (RepoCommit.did_text did)) (ShowText (RepoCommit.did_text (RepoCommit.did commit))))
  else if negb (RepoCommit.version commit =? 3) then
    Err (FieldMismatch did (Some (OfTid (RepoCommit.rev commit))) "version" (ShowInt 3) (ShowInt (RepoCommit.version commit)))
  else
    ops ← repo_ops did (RepoCommit.rev commit) (RepoCommit.data commit) s limits;
    Ok (MkLoaded commit ops).

Definition loader_finish (l : RepoCarLoader) : res VerifierError LoadedRepo :=
  _ ← map_err (car_err l) (CarIncremental.finish (reader l));
  commit_cid ← ok_or (Inversion (r_did l) (OfText (b# "<unknown>")) (Because "CAR has no roots"))
    (CarIncremental.roots (reader l) ≫= head);
  load_repo (r_did l) commit_cid (r_blocks l) (limits l).

(** [loader.push(&chunk.map_err(fetch_failed)?)?] of [resync_inner] *)
Definition push_chunk (chunk : res SyncError bytes) : loading () := fun l =>
  (chunk ← lift (map_err (fun e => ResyncRequired (r_did l) (FetchFailed e)) chunk); loader_push chunk) l.

(** [while let Some(chunk) = car.next().await { .. } loader.finish()] *)
Definition load_chunks (did : Did.Did) (limits : RepoLoadLimits) (chunks : list (res SyncError bytes)) : res VerifierError LoadedRepo :=
  match for_each push_chunk chunks (loader_new did limits) with
  | (Ok _, l) => loader_finish l
  | (Err e, _) => Err e
  | (Panic, _) => Panic
  end.
End Loader.

(** ** The limits *)

(** The bytes of the blocks kept. *)
Definition kept_bytes (m : gmap Cid bytes) : Z := map_fold (fun _ data n => Z.of_nat (length data) + n) 0 m.

Lemma kept_bytes_insert m c data : m !! c = None -> kept_bytes (<[c := data]> m) = Z.of_nat (length data) + kept_bytes m.
Proof. intros Hc. unfold kept_bytes. rewrite map_fold_insert_L; [done|lia|done]. Qed.

Section Limits.
Context `{Simdutf8Laws} `{Sha2} `{Outside} (d : Did.Did) (L : RepoLoadLimits).
Hypothesis limit_small : max_block_bytes L < usize_max.

(** What the loader holds: no more blocks and bytes than the limits, each
    block under its hash. *)
Record bounded (l : RepoCarLoader) : Prop := {
  b_did : r_did l = d;
  b_limits : limits l = L;
  b_count : Z.of_nat (size (r_blocks l)) <= block_count l <= max_blocks L;
  b_bytes : kept_bytes (r_blocks l) <= block_bytes l <= max_block_bytes L;
  b_hashed : all_hashed (r_blocks l)
}.

Definition ready (l : RepoCarLoader) : Prop := CarIncremental.wf (reader l) /\ bounded l.

Lemma bounded_reader r l : bounded l -> bounded (set_reader r l).
Proof. by intros []. Qed.

(** A length that [next_block_data_len] announces is that of the next block. *)
Lemma next_block_data_len_spec s : CarIncremental.wf s ->
  match CarIncremental.next_block_data_len s with
  | (Ok (Some len), s') => CarIncremental.wf s' /\ (length (CarIncremental.pending s') <= length (CarIncremental.pending s))%nat /\
      match CarIncremental.next_block s' with
      | (Ok (Some b), s'') => CarIncremental.wf s'' /\ length (Car.data b) = len /\
          (length (CarIncremental.pending s'') < length (CarIncremental.pending s'))%nat
      | (Ok None, s'') => s'' = s'
      | (Err _, _) => True
      | (Panic, _) => False
      end
  | (Ok None, s') => CarIncremental.wf s'
  | (Err _, _) => True
  | (Panic, _) => False
  end.
Proof.
  intros Hw. pose proof (CarIncremental.read_header_spec s Hw) as Hh. unfold CarIncremental.next_block_data_len.
  unfold mbind at 1, st_bind at 1. destruct (CarIncremental.read_header s) as [[[|]|e|] s1]; cbn [negb]; [|by destruct Hh as [-> _]|done..].
  destruct Hh as [Hw1 Hr]. assert (Hroots : exists r, CarIncremental.roots s1 = Some r) by (destruct (CarIncremental.roots s) as [r0|] eqn:Hr0; [subst s1; by exists r0|destruct Hr as (h & r & _ & _ & Hr); by exists r]).
  assert (Hlen : (length (CarIncremental.pending s1) <= length (CarIncremental.pending s))%nat).
  { destruct (CarIncremental.roots s); [by subst s1|]. destruct Hr as (h & r & _ & -> & _). rewrite length_app. lia. }
  destruct Hroots as [r Hroot]. pose proof (CarIncremental.next_block_spec s1 r Hw1 Hroot) as Hn.
  assert (Hup : Forall is_u8 (CarIncremental.pending s1)) by (apply Forall_drop, Hw1).
  unfold mbind, st_bind, gets, lift. rewrite slice_from_Ok by apply Hw1. fold (CarIncremental.pending s1).
  pose proof (Car.varint_from_slice_no_panic (CarIncremental.pending s1)) as Hnp.
  destruct (Car.varint_from_slice (CarIncremental.pending s1)) as [[[v n]|]|e|] eqn:Hv; [|done..].
  pose proof (Car.check_block_len_no_panic v) as Hcp. destruct (Car.check_block_len v) as [len|e|] eqn:Hc; [|done..]. cbn [mret st_ret].
  split; [done|]. split; [done|]. destruct (CarIncremental.next_block s1) as [[[b|]|e|] s2]; [|naive_solver|done..].
  destruct Hn as (Hw2 & _ & Hlt & f & (enc & He & _ & -> & Hcb)%Car.block_frame_parts & Hp). split_and!; [done| |done].
  rewrite Hp, <- app_assoc, Car.varint_from_slice_app in Hv by done. injection Hv as <- <-.
  rewrite Hcb in Hc. apply Ok_inj in Hc. lia.
Qed.

Lemma saturating_exact a b : 0 <= a -> 0 <= b -> saturating_add a b <= max_block_bytes L -> saturating_add a b = a + b.
Proof. unfold saturating_add. lia. Qed.

Lemma add_block_bounded b l n m : bounded l -> n = block_count l + 1 -> m = block_bytes l + Z.of_nat (length (Car.data b)) ->
  n <= max_blocks L -> m <= max_block_bytes L ->
  let '(r, l') := add_block b (set_counts n m l) in bounded l' /\ reader l' = reader l /\ no_panic r.
Proof.
  intros [Hd HL Hc Hb Hh] -> -> Hn Hm. unfold add_block. cbn [r_blocks set_counts].
  assert (Hkeep : bounded (set_counts (block_count l + 1) (block_bytes l + Z.of_nat (length (Car.data b))) l)).
  { split; cbn; [done|done|lia|lia|done]. }
  case_bool_decide as Hcid; cbn [negb]; [|done]. destruct (r_blocks l !! Car.cid b) as [x|] eqn:Hx; [by case_bool_decide|].
  split; [|done]. split; cbn; [done|done| | |].
  - rewrite map_size_insert_None by done. lia.
  - rewrite kept_bytes_insert by done. lia.
  - intros c data' [[<- <-]|[_ Hin]]%lookup_insert_Some; [done|by apply Hh].
Qed.

Lemma push_blocks_spec fuel l : ready l -> (length (CarIncremental.pending (reader l)) < fuel)%nat ->
  let '(r, l') := push_blocks fuel l in bounded l' /\ match r with Ok _ => ready l' | Err _ => True | Panic => False end.
Proof.
  revert l. induction fuel as [|fuel IH]; intros l [Hw Hb] Hf; [lia|]. cbn [push_blocks]. unfold mbind at 1, st_bind at 1, on_reader at 1.
  pose proof (next_block_data_len_spec (reader l) Hw) as Hn. destruct (CarIncremental.next_block_data_len (reader l)) as [[[len|]|e|] s]; cbn [map_err].
  2: { split; [by apply bounded_reader|split; [done|by apply bounded_reader]]. }
  2: { split; [by apply bounded_reader|done]. }
  2: done.
  destruct Hn as (Hws & Hle & Hn). unfold mbind at 1, st_bind at 1, gets. cbn [id]. cbv zeta.
  assert (Hb1 : bounded (set_reader s l)) by by apply bounded_reader. destruct Hb as [Hd HL Hc Hby Hh]. cbn [limits set_reader block_count block_bytes]. rewrite HL.
  destruct (Z.ltb_spec (max_blocks L) (block_count l + 1)) as [|Hcount]; [done|].
  destruct (Z.ltb_spec (max_block_bytes L) (saturating_add (block_bytes l) (Z.of_nat len))) as [|Hsize]; [done|].
  assert (Hex : saturating_add (block_bytes l) (Z.of_nat len) = block_bytes l + Z.of_nat len).
  { apply saturating_exact; [|lia|done]. assert (0 <= kept_bytes (r_blocks l)); [|lia]. unfold kept_bytes.
    apply (map_fold_weak_ind (fun n _ => 0 <= n)); [lia|]. intros. lia. }
  rewrite Hex in *. unfold mbind at 1, st_bind at 1, on_reader at 1. cbn [reader set_reader].
  destruct (CarIncremental.next_block s) as [[[b|]|e|] s2]; cbn [map_err]; [|subst s2; by split; [|split]| |done].
  2: { split; [|done]. by apply (bounded_reader s2) in Hb1. }
  destruct Hn as (Hw2 & <- & Hlt). unfold mbind at 1, st_bind at 1, modify at 1.
  pose proof (add_block_bounded b (set_reader s2 (set_reader s l)) _ _ (bounded_reader s2 _ Hb1) eq_refl eq_refl Hcount Hsize) as Ha.
  unfold mbind at 1, st_bind at 1. cbn [block_count block_bytes set_reader] in Ha. destruct (add_block b _) as [[[]|e|] l']; [|by destruct Ha|by destruct Ha as (_ & _ & [])].
  destruct Ha as (Hb' & Hr' & _). apply IH; [split; [by rewrite Hr'|done]|]. rewrite Hr'. cbn. lia.
Qed.

Lemma loader_push_spec chunk l : ready l -> Forall is_u8 chunk ->
  let '(r, l') := loader_push chunk l in bounded l' /\
  match r with
  | Ok _ => ready l' /\ car_bytes l' = saturating_add (car_bytes l) (Z.of_nat (length chunk)) /\ car_bytes l' <= max_car_bytes L
  | Err _ => True
  | Panic => False
  end.
Proof.
  intros [Hw Hb] Hu. unfold loader_push. unfold mbind at 1, st_bind at 1, modify at 1. unfold mbind at 1, st_bind at 1, gets at 1. cbn [id limits set_car_bytes car_bytes].
  set (n := saturating_add _ _). set (l1 := set_car_bytes n l). assert (Hb1 : bounded l1) by by destruct Hb.
  rewrite (b_limits l Hb). destruct (Z.ltb_spec (max_car_bytes L) n) as [|Hn]; [done|].
  unfold mbind at 1, st_bind at 1, on_reader at 1. destruct (CarIncremental.push_spec chunk (reader l1) Hw Hu) as (s' & -> & Hws & _). cbn [map_err].
  unfold mbind at 1, st_bind at 1, gets at 1. cbn [id].
  pose proof (push_blocks_spec (S (length (CarIncremental.pending (reader (set_reader s' l1))))) (set_reader s' l1)
    (conj Hws (bounded_reader s' _ Hb1)) ltac:(lia)) as Hp.
  assert (Hcar : forall fuel l0, car_bytes (push_blocks fuel l0).2 = car_bytes l0).
  { clear. induction fuel as [|fuel IH]; intros l0; [done|]. cbn [push_blocks]. unfold mbind, st_bind, on_reader, gets, modify, add_block.
    destruct (CarIncremental.next_block_data_len _) as [[[len|]|e|] s]; cbn [map_err]; try done. cbv zeta. cbn [id].
    destruct (_ <? _); [done|]. destruct (_ <? _); [done|]. destruct (CarIncremental.next_block _) as [[[b|]|e|] s2]; cbn [map_err]; try done.
    case_bool_decide; cbn [negb]; [|done]. destruct (r_blocks _ !! _); [case_bool_decide; [done|]|]; by rewrite IH. }
  specialize (Hcar (S (length (CarIncremental.pending (reader (set_reader s' l1))))) (set_reader s' l1)).
  destruct (push_blocks _ _) as [[[]|e|] l']; destruct Hp as [Hb' Hr]; (split; [done|]); [|done..]. cbn in Hcar. by rewrite Hcar.
Qed.

Lemma loader_new_ready : 0 <= max_blocks L -> 0 <= max_block_bytes L -> ready (loader_new d L).
Proof.
  intros. split; [by split; [cbn; lia|constructor]|]. split; cbn; [done|done|by rewrite map_size_empty|by unfold kept_bytes; rewrite map_fold_empty|].
  by intros c data ?%lookup_empty_Some.
Qed.
End Limits.

(** ** Loading *)

Section Load.
Context `{Simdutf8Laws} `{Sha2Laws} `{Outside} (d : Did.Did) (L : RepoLoadLimits).
Hypothesis limit_small : max_block_bytes L < usize_max.

(** A chunk that arrived is of bytes; the bytes of a stream. *)
Definition chunk_ok (c : res SyncError bytes) : Prop := match c with Ok bs => Forall is_u8 bs | Err _ => True | Panic => False end.
Definition stream_bytes (chunks : list (res SyncError bytes)) : Z :=
  foldr (fun c n => match c with Ok bs => Z.of_nat (length bs) | _ => 0 end + n) 0 chunks.

Lemma pushes_spec chunks l : ready d L l -> Forall chunk_ok chunks -> 0 <= car_bytes l ->
  let '(r, l') := for_each push_chunk chunks l in bounded d L l' /\
  match r with
  | Ok _ => ready d L l' /\ (max_car_bytes L < usize_max -> car_bytes l' = car_bytes l + stream_bytes chunks) /\
      (car_bytes l <= max_car_bytes L -> car_bytes l' <= max_car_bytes L)
  | Err _ => True
  | Panic => False
  end.
Proof.
  intros Hl Hu. revert l Hl. induction Hu as [|chunk chunks Hc _ IH]; intros l Hl Hz; cbn [for_each].
  { cbn. split; [apply Hl|]. split; [done|]. split; lia. }
  destruct chunk as [bs|e|]; [|split; [apply Hl|done]|done]. pose proof (loader_push_spec d L limit_small bs l Hl Hc) as Hp.
  unfold mbind, st_bind. change (push_chunk (Ok bs) l) with (loader_push bs l).
  destruct (loader_push bs l) as [[[]|e|] l1]; destruct Hp as [Hb1 Hp]; [|done..]. destruct Hp as (Hl1 & Hcar & Hmax).
  assert (Hz1 : 0 <= car_bytes l1) by (unfold saturating_add, usize_max in *; lia).
  specialize (IH l1 Hl1 Hz1). destruct (for_each push_chunk chunks l1) as [[[]|e|] l2]; destruct IH as [Hb2 IH]; (split; [done|]); [|done..].
  destruct IH as (Hl2 & Hcar2 & Hmax2). split; [done|]. cbn [stream_bytes foldr]. fold (stream_bytes chunks).
  split; [intros Hs; rewrite Hcar2 by done; unfold saturating_add in *; lia|lia].
Qed.

(** C26. Whatever chunks arrive, the loader never panics and never holds more
    blocks, or more bytes in them, than its limits allow, refused chunks
    included; every block it holds hashes to its CID. *)
Theorem loader_within_limits chunks : 0 <= max_blocks L -> 0 <= max_block_bytes L -> Forall chunk_ok chunks ->
  let '(r, l) := for_each push_chunk chunks (loader_new d L) in
  no_panic r /\ Z.of_nat (size (r_blocks l)) <= max_blocks L /\ kept_bytes (r_blocks l) <= max_block_bytes L /\ all_hashed (r_blocks l).
Proof.
  intros Hn Hm Hu. pose proof (pushes_spec chunks _ (loader_new_ready d L Hn Hm) Hu (Z.le_refl 0)) as Hp.
  destruct (for_each _ _ _) as [r l]. destruct Hp as [[_ _ Hc Hb Hh] Hr]. split_and!; [by destruct r|lia|lia|done].
Qed.

(** What a listed operation says: a record of the repository, under its hash. *)
Definition op_lists (commit : Commit) (blocks : gmap Cid bytes) (op : VerifierOp) (e : bytes * Cid) : Prop :=
  op = MkVerifierOp d (RepoCommit.rev commit) (b# "resync") e.1 (Some e.2) None (v_record op) /\ blocks !! e.2 = Some (v_record op).

Lemma ops_of_entries_spec commit blocks entries : match ops_of_entries d (RepoCommit.rev commit) (car_store_new blocks) entries with
  | Ok ops => Forall2 (op_lists commit blocks) ops entries
  | Err _ => True
  | Panic => False
  end.
Proof.
  induction entries as [|[p c] entries IH]; cbn [ops_of_entries]; [constructor|]. unfold car_store_get. cbn [car_blocks car_store_new].
  destruct (blocks !! c) as [data|] eqn:Hc; [|done]. destruct (ops_of_entries _ _ _ entries) as [ops|e|]; [|done..].
  cbn. constructor; [|done]. by split.
Qed.

Lemma tree_entries_hostile (s : CarBlockStore) c : match (tree_entries (tree_load s c)).1 with
  | Ok es => StronglySorted bytes_lt es.*1 /\ Forall (fun e => is_valid_key e.1 = true) es
  | Err _ => True
  | Panic => False
  end.
Proof.
  pose proof (entries_sound _ (car_source_no_panic s) (load_tree c) (tree_load_usable s c)) as He. unfold tree_entries. rewrite on_inner_run.
  change (inner (tree_load s c)) with (load_tree c). change (store (tree_load s c)) with s.
  destruct (entries _ _) as [[es|e|] t']; cbn; [|done|by destruct He]. destruct He as [Ht ->]. by apply sound_keys.
Qed.

(** A repository as it was loaded. *)
Record loads_to (blocks : gmap Cid bytes) (loaded : LoadedRepo) : Prop := {
  lt_hashed : all_hashed blocks;
  lt_commit : exists c block, blocks !! c = Some block /\ RepoCommit.from_cbor block = Ok (l_commit loaded);
  lt_version : RepoCommit.version (l_commit loaded) = 3;
  lt_did : Did.as_str (RepoCommit.did (l_commit loaded)) = Did.as_str d;
  lt_ops : exists es, (tree_entries (tree_load (car_store_new blocks) (RepoCommit.data (l_commit loaded)))).1 = Ok es /\
    Forall2 (op_lists (l_commit loaded) blocks) (l_ops loaded) es;
  lt_sorted : StronglySorted bytes_lt (map v_path (l_ops loaded)) /\ Forall (fun op => is_valid_key (v_path op) = true) (l_ops loaded);
  lt_records : Z.of_nat (length (l_ops loaded)) <= max_records L
}.

Lemma op_lists_paths commit blocks ops es : Forall2 (op_lists commit blocks) ops es -> map v_path ops = es.*1.
Proof. induction 1 as [|op e ops es [-> _] _ IH]; [done|]. cbn. by rewrite IH. Qed.

Lemma load_repo_spec c blocks raw : all_hashed blocks -> Did.try_from raw = Ok d ->
  match load_repo d c blocks L with
  | Ok loaded => loads_to blocks loaded
  | Err _ => True
  | Panic => False
  end.
Proof.
  intros Hh Hd. unfold load_repo. cbv zeta. destruct (car_store_get _ c) as [block|] eqn:Hblock; [|done]. cbn [ok_or mbind res_bind].
  pose proof (RepoCommit.from_cbor_no_panic block) as Hnp. destruct (RepoCommit.from_cbor block) as [commit|e|] eqn:Hc; [|done..].
  cbn [map_err mbind res_bind]. destruct (RepoCommit.from_cbor_did block commit Hc) as [raw' Hd'].
  destruct (RepoCommit.did_try_from_text _ _ Hd) as (Has & _). destruct (RepoCommit.did_try_from_text _ _ Hd') as (Has' & _).
  unfold Did.as_str in Has, Has'. unfold SmallString.eq. rewrite Has, Has'. cbn [mbind res_bind RepoCommit.unfailing].
  case_bool_decide as Heq; cbn [negb]; [|done]. subst raw'. destruct (Z.eqb_spec (RepoCommit.version commit) 3) as [Hv|]; cbn [negb]; [|done].
  unfold repo_ops. pose proof (tree_entries_hostile (car_store_new blocks) (RepoCommit.data commit)) as He.
  destruct (tree_entries _).1 as [es|e|] eqn:Hes; [|done..]. cbn [map_err mbind res_bind].
  destruct (Z.ltb_spec (max_records L) (Z.of_nat (length es))) as [|Hn]; [done|].
  pose proof (ops_of_entries_spec commit blocks es) as Ho. destruct (ops_of_entries _ _ _ _) as [ops|e|]; [|done..]. cbn [mbind res_bind].
  pose proof (op_lists_paths _ _ _ _ Ho) as Hp. split; cbn [l_commit l_ops].
  - done.
  - by exists c, block.
  - done.
  - unfold Did.as_str. by rewrite Has, Has'.
  - by exists es.
  - rewrite Hp. split; [apply He|]. rewrite <- (Forall_map v_path (fun p => is_valid_key p = true)), Hp, Forall_map. apply He.
  - by rewrite (Forall2_length _ _ _ Ho).
Qed.

Lemma load_chunks_Ok chunks raw : 0 <= max_blocks L -> 0 <= max_block_bytes L -> 0 <= max_car_bytes L < usize_max ->
  Forall chunk_ok chunks -> Did.try_from raw = Ok d ->
  match load_chunks d L chunks with
  | Ok loaded => stream_bytes chunks <= max_car_bytes L /\ exists blocks, loads_to blocks loaded
  | Err _ => True
  | Panic => False
  end.
Proof.
  intros Hn Hm Hcb Hu Hd. unfold load_chunks. pose proof (pushes_spec chunks _ (loader_new_ready d L Hn Hm) Hu (Z.le_refl 0)) as Hp.
  destruct (for_each _ _ _) as [[[]|e|] l]; destruct Hp as [Hb Hr]; [|done..]. destruct Hr as ([Hw _] & Hcar & Hmax).
  unfold loader_finish. pose proof (CarIncremental.finish_no_panic (reader l) Hw) as Hf.
  destruct (CarIncremental.finish (reader l)) as [[]|e|]; [|done..]. cbn [map_err mbind res_bind].
  destruct (CarIncremental.roots (reader l) ≫= head) as [c|]; [|done]. cbn [ok_or mbind res_bind].
  destruct Hb as [Hbd Hbl _ _ Hh]. rewrite Hbd, Hbl. pose proof (load_repo_spec c (r_blocks l) raw Hh Hd) as Hlr.
  destruct (load_repo d c (r_blocks l) L) as [loaded|e|]; [|done..]. split; [|by eexists].
  cbn in Hcar, Hmax. lia.
Qed.

(** C25. A repository that loads: its archive was within the limits, its
    commit is the DID's, of version 3 and among its blocks, every block hashes
    to its CID, and the operations are the listing of the commit's tree: valid
    paths in order, each with the record its CID hashes. No archive makes the
    loader panic. *)
Theorem load_chunks_spec chunks raw : 0 <= max_blocks L -> 0 <= max_block_bytes L -> 0 <= max_car_bytes L < usize_max ->
  Forall chunk_ok chunks -> Did.try_from raw = Ok d ->
  match load_chunks d L chunks with
  | Ok loaded => stream_bytes chunks <= max_car_bytes L /\ exists blocks, loads_to blocks loaded
  | Err _ => True
  | Panic => False
  end.
Proof. apply load_chunks_Ok. Qed.
End Load.

(** ** Examples *)

#[local] Existing Instances simd_ref simd_ref_laws sha2_toy sha2_toy_laws ex_outside.

(** The archive of a repository of one record, in two chunks. *)
Definition ex_chunks : list (res SyncError bytes) := [Ok (take 100 RepoProof.ex_car); Ok (drop 100 RepoProof.ex_car)].

Lemma ex_chunks_ok : Forall chunk_ok ex_chunks.
Proof. constructor; [|constructor; [|constructor]]; apply u8_literal; vm_compute; reflexivity. Qed.

Lemma ex_pushed : match for_each push_chunk ex_chunks (loader_new RepoCommit.ex_did limits_default) with
  (Ok _, l) => size (r_blocks l) = 3%nat | _ => False end.
Proof. vm_compute. reflexivity. Qed.

Lemma ex_loaded : match load_chunks RepoCommit.ex_did limits_default ex_chunks with
  Ok loaded => map v_path (l_ops loaded) = [b# "app.bsky.feed.post/3k"] | _ => False end.
Proof. vm_compute. reflexivity. Qed.

Lemma ex_limits : max_block_bytes limits_default < usize_max /\ 0 <= max_blocks limits_default /\ 0 <= max_block_bytes limits_default /\
  0 <= max_car_bytes limits_default < usize_max.
Proof. vm_compute. split_and!; (reflexivity || discriminate). Qed.

Example loader_within_limits_witness : exists l, for_each push_chunk ex_chunks (loader_new RepoCommit.ex_did limits_default) = (Ok (), l) /\
  size (r_blocks l) = 3%nat /\ all_hashed (r_blocks l).
Proof.
  destruct ex_limits as (Hs & Hn & Hm & _). pose proof (loader_within_limits RepoCommit.ex_did limits_default Hs ex_chunks Hn Hm ex_chunks_ok) as Hl.
  pose proof ex_pushed as Hr. destruct (for_each _ _ _) as [[[]|e|] l]; [|destruct Hr..].
  destruct Hl as (_ & _ & _ & Hh). exists l. exact (conj eq_refl (conj Hr Hh)).
Defined.

Example load_chunks_spec_witness : exists loaded blocks, load_chunks RepoCommit.ex_did limits_default ex_chunks = Ok loaded /\
  map v_path (l_ops loaded) = [b# "app.bsky.feed.post/3k"] /\ loads_to RepoCommit.ex_did limits_default blocks loaded.
Proof.
  destruct ex_limits as (Hs & Hn & Hm & Hc). pose proof (load_chunks_spec RepoCommit.ex_did limits_default Hs ex_chunks _ Hn Hm Hc ex_chunks_ok RepoCommit.ex_did_ok) as Hl.
  pose proof ex_loaded as Hr. destruct (load_chunks _ _ _) as [loaded|e|]; [|destruct Hr..].
  destruct Hl as (_ & blocks & Hb). exists loaded, blocks. exact (conj eq_refl (conj Hr Hb)).
Defined.
