(* ===== verification/SyncState.v ===== *)
(** What a verifier keeps: the state store of [src/src/sync/state.rs], and the
    token buckets that bound resynchronisation, of [verifier.rs]. *)
From S2P Require Import Prelude StateError SyntaxError Cid SyncInvert.
From S2P Require Did RepoCommit.
From Stdlib Require Import SpecFloat.

(** ** Chain and hosting state *)

Record ChainState := MkChain { c_rev : bytes; c_data : Cid }.

Record HostingState := MkHosting { h_active : bool; h_status : option bytes; h_seq : Z; h_time : bytes }.

(** [HostingState::is_active] *)
Definition is_active (state : option HostingState) : bool := default true (h_active <$> state).

(** [trait StateStore]. Its methods take [&self] and change what is behind it. *)
Class StateStore `{Outside} (S : Type) := {
  load_chain : Did.Did -> S -> res StateStoreError (option ChainState);
  save_chain : Did.Did -> ChainState -> st S StateStoreError ();
  load_hosting : Did.Did -> S -> res StateStoreError (option HostingState);
  save_hosting : Did.Did -> HostingState -> st S StateStoreError ();
  delete_state : Did.Did -> st S StateStoreError ()
}.

(** DIDs are equal, and hash alike, if their texts are. *)
Abbreviation key_of := RepoCommit.did_text.

(** [MemStateStore] *)
Record MemStateStore := MkMem { chains : gmap bytes ChainState; hosting : gmap bytes HostingState }.

Definition mem_state_new : MemStateStore := MkMem ∅ ∅.

#[export] Instance mem_state_store `{Outside} : StateStore MemStateStore := {|
  load_chain did s := Ok (chains s !! key_of did);
  save_chain did state := modify (fun s => MkMem (<[key_of did := state]> (chains s)) (hosting s));
  load_hosting did s := Ok (hosting s !! key_of did);
  save_hosting did state := modify (fun s => MkMem (chains s) (<[key_of did := state]> (hosting s)));
  delete_state did := modify (fun s => MkMem (delete (key_of did) (chains s)) (delete (key_of did) (hosting s)))
|}.

(** What a verifier relies on: a state that was saved is loaded again, states
    of other DIDs stay, and a call that fails changes nothing. *)
Class StateStoreLaws `{Outside} (S : Type) `{!StateStore S} : Prop := {
  store_no_panic did (s : S) : no_panic (load_chain did s) /\ no_panic (load_hosting did s);
  store_by_text d d' (s : S) : key_of d = key_of d' -> load_chain d s = load_chain d' s /\ load_hosting d s = load_hosting d' s;
  save_chain_spec did c (s : S) : let '(r, s') := save_chain did c s in
    match r with
    | Ok _ => forall d, load_chain d s' = (if decide (key_of d = key_of did) then Ok (Some c) else load_chain d s) /\ load_hosting d s' = load_hosting d s
    | Err _ => forall d, load_chain d s' = load_chain d s /\ load_hosting d s' = load_hosting d s
    | Panic => False
    end;
  save_hosting_spec did h (s : S) : let '(r, s') := save_hosting did h s in
    match r with
    | Ok _ => forall d, load_hosting d s' = (if decide (key_of d = key_of did) then Ok (Some h) else load_hosting d s) /\ load_chain d s' = load_chain d s
    | Err _ => forall d, load_chain d s' = load_chain d s /\ load_hosting d s' = load_hosting d s
    | Panic => False
    end
}.

#[export] Instance mem_state_store_laws `{Outside} : StateStoreLaws MemStateStore.
Proof.
  split; [done| | |].
  - intros d d' s Hd. cbn. by rewrite Hd.
  - intros did c s d. cbn. split; [|done]. case_decide as Hd; [by rewrite Hd, lookup_insert_eq|by rewrite lookup_insert_ne].
  - intros did c s d. cbn. split; [|done]. case_decide as Hd; [by rewrite Hd, lookup_insert_eq|by rewrite lookup_insert_ne].
Qed.

(** ** Token buckets

    The [f64]s of the limiter are computed with: they are the IEEE 754 values
    of binary64 and the operations round to nearest, ties to even. *)

Abbreviation f64 := spec_float.
Definition f64_of (n : Z) : f64 := binary_normalize 53 1024 n 0 false.
Definition f64_add : f64 -> f64 -> f64 := SFadd 53 1024.
Definition f64_sub : f64 -> f64 -> f64 := SFsub 53 1024.
Definition f64_mul : f64 -> f64 -> f64 := SFmul 53 1024.
Definition f64_div : f64 -> f64 -> f64 := SFdiv 53 1024.
Definition f64_lt : f64 -> f64 -> bool := SFltb.
Definition f64_le : f64 -> f64 -> bool := SFleb.

(** [f64::min]: the other argument if one is not a number. *)
Definition f64_min (a b : f64) : f64 :=
  match a, b with
  | S754_nan, _ => b
  | _, S754_nan => a
  | _, _ => if f64_le a b then a else b
  end.

Definition sign_bit (a : f64) : bool :=
  match a with S754_zero s | S754_infinity s | S754_finite s _ _ => s | S754_nan => false end.

(** [f64::total_cmp] *)
Definition f64_total_cmp (a b : f64) : comparison :=
  match SFcompare a b with
  | Some Eq => match sign_bit a, sign_bit b with true, false => Lt | false, true => Gt | _, _ => Eq end
  | Some c => c
  | None => match a, b with S754_nan, S754_nan => Eq | S754_nan, _ => Gt | _, _ => Lt end
  end.

(** [Duration::as_secs_f64], of nanoseconds *)
Definition as_secs_f64 (nanos : Z) : f64 :=
  f64_add (f64_of (nanos / 1000000000)) (f64_div (f64_of (nanos mod 1000000000)) (f64_of 1000000000)).

Record ResyncRateLimit := MkRate { per_second : f64; burst : f64 }.

Definition DEFAULT_RESYNC_LIMIT_PER_SECOND : f64 := f64_div (f64_of 5) (f64_of 60).
Definition DEFAULT_RESYNC_BURST : f64 := f64_of 5.
Definition rate_default : ResyncRateLimit := MkRate DEFAULT_RESYNC_LIMIT_PER_SECOND DEFAULT_RESYNC_BURST.
Definition rate_unlimited : ResyncRateLimit := MkRate (f64_of 0) (f64_of 0).
Definition is_enabled (l : ResyncRateLimit) : bool := f64_lt (f64_of 0) (per_second l) && f64_lt (f64_of 0) (burst l).

(** The time of the last refill is in nanoseconds. *)
Record TokenBucket := MkBucket { tokens : f64; last_refill : Z }.

(** [max_by(total_cmp)]: the last of the greatest. *)
Fixpoint fullest (buckets : list (bytes * TokenBucket)) : option (bytes * TokenBucket) :=
  match buckets with
  | [] => None
  | b :: buckets =>
      match fullest buckets with
      | Some b' => if match f64_total_cmp (tokens b.2) (tokens b'.2) with Gt => true | _ => false end then Some b else Some b'
      | None => Some b
      end
  end.

(** The order of the buckets is the hash map's, here that of [map_to_list]. *)
Definition evict_fullest_bucket (limiters : gmap bytes TokenBucket) : gmap bytes TokenBucket :=
  match fullest (map_to_list limiters) with Some (key, _) => delete key limiters | None => limiters end.

(** [allow_resync], with the time it reads. *)
Definition allow_resync (limit : ResyncRateLimit) (capacity : nat) (key : bytes) (now : Z) (limiters : gmap bytes TokenBucket) :
    bool * gmap bytes TokenBucket :=
  if negb (is_enabled limit) then (true, limiters)
  else
    let limiters :=
      if bool_decide (limiters !! key = None) && (capacity <=? size limiters)%nat then evict_fullest_bucket limiters else limiters in
    let bucket := default (MkBucket (burst limit) now) (limiters !! key) in
    let elapsed := as_secs_f64 (Z.max 0 (now - last_refill bucket)) in
    let tokens := f64_min (f64_add (tokens bucket) (f64_mul elapsed (per_second limit))) (burst limit) in
    if f64_le (f64_of 1) tokens then (true, <[key := MkBucket (f64_sub tokens (f64_of 1)) now]> limiters)
    else (false, <[key := MkBucket tokens now]> limiters).

(** ** The buckets are bounded *)

Lemma fullest_in buckets b : fullest buckets = Some b -> b ∈ buckets.
Proof.
  revert b. induction buckets as [|b0 buckets IH]; intros b; [done|]. cbn [fullest].
  destruct (fullest buckets) as [b'|]; [|intros [= <-]; by left].
  destruct (match f64_total_cmp _ _ with Gt => true | _ => false end); intros [= <-]; [by left|right; by apply IH].
Qed.

Lemma fullest_None buckets : fullest buckets = None <-> buckets = [].
Proof.
  destruct buckets as [|b buckets]; [done|]. cbn. split; [|done].
  destruct (fullest buckets) as [b'|]; [|done]. by destruct (match f64_total_cmp _ _ with Gt => true | _ => false end).
Qed.

Lemma evict_size limiters : size (evict_fullest_bucket limiters) = Nat.pred (size limiters).
Proof.
  unfold evict_fullest_bucket. destruct (fullest (map_to_list limiters)) as [[key b]|] eqn:Hf.
  - apply fullest_in, elem_of_map_to_list in Hf. by rewrite map_size_delete_Some by (by eexists).
  - apply fullest_None in Hf. apply map_to_list_empty_iff in Hf as ->. by rewrite map_size_empty.
Qed.

Lemma evict_lookup limiters key : limiters !! key = None -> evict_fullest_bucket limiters !! key = None.
Proof.
  unfold evict_fullest_bucket. destruct (fullest _) as [[k b]|]; [|done]. intros Hn. by rewrite lookup_delete_None; right.
Qed.

Lemma allow_resync_size limit capacity key now limiters : (1 <= capacity)%nat -> (size limiters <= capacity)%nat ->
  (size (allow_resync limit capacity key now limiters).2 <= capacity)%nat.
Proof.
  intros Hc Hs. unfold allow_resync. destruct (is_enabled limit); cbn [negb]; [|done].
  set (l := if _ && _ then _ else limiters). assert (Hl : (size (<[key := MkBucket (f64_of 0) 0]> l) <= capacity)%nat).
  { unfold l. case_bool_decide as Hn; cbn [andb].
    - destruct (Nat.leb_spec capacity (size limiters)).
      + rewrite map_size_insert_None, evict_size by (by apply evict_lookup). lia.
      + rewrite map_size_insert_None by done. lia.
    - rewrite map_size_insert_Some by (by destruct (limiters !! key); [eexists|]). done. }
  cbv zeta. assert (Hi : forall b, size (<[key := b]> l) = size (<[key := MkBucket (f64_of 0) 0]> l)).
  { intros b. destruct (l !! key) eqn:Hk; [by rewrite !map_size_insert_Some by (by rewrite Hk)|by rewrite !map_size_insert_None]. }
  by destruct (f64_le _ _); cbn [snd]; rewrite Hi.
Qed.

(** A limit that is off lets every resync through. *)
Lemma allow_resync_disabled limit capacity key now limiters : is_enabled limit = false ->
  allow_resync limit capacity key now limiters = (true, limiters).
Proof. intros He. unfold allow_resync. by rewrite He. Qed.
