(* ===== verification/SyncVerifier.v ===== *)
(** The verifier of the firehose: [src/src/sync/verifier.rs].

    It checks each commit against the state it keeps of the repository, and
    fetches the whole repository when the two do not meet. A handler that
    holds the lock of its DID is one step here; steps of different handlers
    interleave in any order. What is shown: no event makes a handler panic;
    what an accepted commit guarantees; and that revisions only grow,
    whatever the order of the steps. *)
From S2P Require Import Prelude StateError SyntaxError CborError Cid CborValue CborDecode MstHeight SortedMap MstNode MstTree Crypto.
From S2P Require Import MstShape MstLoad MstLoadSpec MstDetached MstDetachedSpec MstMap MstHostile MstStore MstStoreSpec.
From S2P Require Import SyncRaw SyncInvert SyncResync SyncState.
From S2P Require Did Tid SmallString Car CarSlice RepoCommit RepoProof.

(** ** Options *)

Definition DEFAULT_FUTURE_REV_TOLERANCE : Z := 5 * 60 * 1000000.
Definition MAX_COMMIT_BLOCKS_BYTES : nat := 2000 * 1000.
Definition MAX_COMMIT_OPS : nat := 200.
Definition DEFAULT_PENDING_QUEUE_CAPACITY : nat := 64.
Definition DEFAULT_RESYNC_LIMITER_CAPACITY : nat := 128 * 128.

Inductive VerifierPolicy := Resync | PolicyError.
Inductive HostingPolicy := Track | Gate.
Inductive LegacyCommitPolicy := Accept | Reject.

#[export] Instance verifier_policy_eq_dec : EqDecision VerifierPolicy.
Proof. solve_decision. Defined.
#[export] Instance hosting_policy_eq_dec : EqDecision HostingPolicy.
Proof. solve_decision. Defined.
#[export] Instance legacy_policy_eq_dec : EqDecision LegacyCommitPolicy.
Proof. solve_decision. Defined.

(** The options without the traits, which are classes. Times are in
    microseconds. *)
Record VerifierOptions := MkOptions {
  has_repo_source : bool;
  verifier_policy : VerifierPolicy;
  hosting_policy : HostingPolicy;
  legacy_commit_policy : LegacyCommitPolicy;
  repo_load_limits : RepoLoadLimits;
  async_resync_workers : nat;
  pending_queue_capacity : nat;
  lenient_inversion : bool;
  future_rev_tolerance : Z;
  resync_rate_limit : ResyncRateLimit;
  resync_limiter_capacity : nat
}.

Definition options_new : VerifierOptions :=
  MkOptions false Resync Track Accept limits_default 0 DEFAULT_PENDING_QUEUE_CAPACITY true DEFAULT_FUTURE_REV_TOLERANCE
    rate_default DEFAULT_RESYNC_LIMITER_CAPACITY.

(** ** Counters *)

Inductive Counter :=
| events_verified | chain_breaks | inversion_failures | inversion_incomplete | signature_failures | rev_replays_dropped
| chain_state_save_failures | future_revs_rejected | field_mismatches | op_cid_mismatches | legacy_commits
| missing_record_blocks_ops | duplicate_paths | oversized_commits | accounts_inactive | account_event_replays_dropped
| sync_no_ops | resyncs | resync_failures | resync_rate_limited.

#[export] Instance counter_eq_dec : EqDecision Counter.
Proof. solve_decision. Defined.

(** [VerifierCounters], and [VerifierStats] when read: a number of each. *)
Definition VerifierStats : Type := Counter -> Z.

Definition fetch_add (c : Counter) (stats : VerifierStats) : VerifierStats :=
  fun c' => if decide (c' = c) then (stats c' + 1) mod 2 ^ 64 else stats c'.

(** ** What is outside *)

(** [IdentityResolver], [SyncRepoSource] and the clock, which are traits
    behind [Arc]s. An identity is its keys; a stream is what it yields. *)
Definition Identity (V : Type) : Type := gmap bytes V.

Definition signing_key {V} (identity : Identity V) : option V := identity !! (b# "#atproto").

Class Environment `{Outside} (W V : Type) := {
  now : W -> Z * W;
  lookup_did : Did.Did -> st W IdentityError (Identity V);
  purge : Did.Did -> st W IdentityError ();
  get_repo_car_stream : Did.Did -> st W SyncError (list (res SyncError bytes))
}.

(** Its methods return. *)
Class EnvironmentLaws `{Outside} (W V : Type) `{!Environment W V} : Prop := {
  lookup_no_panic did (w : W) : no_panic (lookup_did did w).1;
  purge_no_panic did (w : W) : no_panic (purge did w).1;
  stream_no_panic did (w : W) : match (get_repo_car_stream did w).1 with
    | Ok chunks => Forall (fun c => match c with Ok bs => Forall is_u8 bs | Err _ => True | Panic => False end) chunks
    | Err _ => True
    | Panic => False
    end
}.

(** ** The verifier *)

Record PendingResync `{Outside} := MkPending { old_rev : option bytes; reason : VerifierError; commits : list RawCommit }.

Record ResyncEvent `{Outside} := MkResyncEvent {
  ev_did : Did.Did; ev_old_rev : option bytes; ev_new_rev : bytes; ev_reason : VerifierError; ev_ops : list VerifierOp
}.

Arguments MkPending {_}.
Arguments old_rev {_} p.
Arguments reason {_} p.
Arguments commits {_} p.
Arguments MkResyncEvent {_}.

(** Channels are logs of what was sent before they were closed; [jobs] are the
    tasks spawned. *)
Record Verifier `{Outside} (S W : Type) := MkVerifier {
  state_store : S;
  world : W;
  stats : VerifierStats;
  limiters : gmap bytes TokenBucket;
  pending : gmap bytes PendingResync;
  closed : bool;
  jobs : list Did.Did;
  async_errors : list VerifierError;
  resync_events : list ResyncEvent
}.
Arguments MkVerifier {_ S W}.
Arguments state_store {_ S W} v.
Arguments world {_ S W} v.
Arguments stats {_ S W} v.
Arguments limiters {_ S W} v.
Arguments pending {_ S W} v.
Arguments closed {_ S W} v.
Arguments jobs {_ S W} v.
Arguments async_errors {_ S W} v.
Arguments resync_events {_ S W} v.

Section Setters.
Context `{Outside} {S W : Type}.
Implicit Types v : Verifier S W.
Definition set_store (s : S) v := MkVerifier s (world v) (stats v) (limiters v) (pending v) (closed v) (jobs v) (async_errors v) (resync_events v).
Definition set_world (w : W) v := MkVerifier (state_store v) w (stats v) (limiters v) (pending v) (closed v) (jobs v) (async_errors v) (resync_events v).
Definition set_stats s v := MkVerifier (state_store v) (world v) s (limiters v) (pending v) (closed v) (jobs v) (async_errors v) (resync_events v).
Definition set_limiters l v := MkVerifier (state_store v) (world v) (stats v) l (pending v) (closed v) (jobs v) (async_errors v) (resync_events v).
Definition set_pending p v := MkVerifier (state_store v) (world v) (stats v) (limiters v) p (closed v) (jobs v) (async_errors v) (resync_events v).
Definition set_closed b v := MkVerifier (state_store v) (world v) (stats v) (limiters v) (pending v) b (jobs v) (async_errors v) (resync_events v).
Definition set_jobs j v := MkVerifier (state_store v) (world v) (stats v) (limiters v) (pending v) (closed v) j (async_errors v) (resync_events v).
Definition set_errors e v := MkVerifier (state_store v) (world v) (stats v) (limiters v) (pending v) (closed v) (jobs v) e (resync_events v).
Definition set_events e v := MkVerifier (state_store v) (world v) (stats v) (limiters v) (pending v) (closed v) (jobs v) (async_errors v) e.
End Setters.

Inductive SignatureAttemptError `{Outside} := SigIdentity (e : VerifierError) | SigInvalid (reason : SignatureReason).

Section Handlers.
Context `{Sha2} `{Simdutf8} `{Outside} {S W V : Type} `{!StateStore S} `{!Environment W V} `{!VerifyingKey V}.
Variable options : VerifierOptions.
Abbreviation handler := (st (Verifier S W) VerifierError).

(** A method of the store, of the world. *)
Definition in_store {A} (m : st S StateStoreError A) : handler A := fun v =>
  let '(r, s) := m (state_store v) in (map_err StateStoreFailed r, set_store s v).
Definition from_store {A} (m : S -> res StateStoreError A) : handler A := fun v => (map_err StateStoreFailed (m (state_store v)), v).
Definition in_world {E A} (m : st W E A) : st (Verifier S W) E A := fun v =>
  let '(r, w) := m (world v) in (r, set_world w v).
Definition read_clock {E} : st (Verifier S W) E Z := in_world (fun w => let '(t, w) := now w in (Ok t, w)).

Definition count {E} (c : Counter) : st (Verifier S W) E () := modify (fun v => set_stats (fetch_add c (stats v)) v).

(** [rev.to_string()] *)
Definition rev_string {E} (rev : Z) : st (Verifier S W) E bytes := lift (RepoCommit.unfailing (Tid.display rev)).

(** ** Checks of a frame *)

(** [duration_since(UNIX_EPOCH).unwrap_or_default().as_micros() as u64], of
    nanoseconds *)
Definition now_micros (nanos : Z) : Z := as_u64 (Z.max 0 nanos / 1000).

Definition saturating_add_u64 (a b : Z) : Z := Z.min (a + b) (2 ^ 64 - 1).

Definition reject_future_rev (raw : RawCommit) : handler () :=
  nanos ← read_clock;
  if saturating_add_u64 (now_micros nanos) (as_u64 (future_rev_tolerance options)) <? Tid.timestamp_micros (rev raw) then
    _ ← count future_revs_rejected; fail (FutureRev (repo raw) (OfTid (rev raw)))
  else mret ().

Definition reject_future_sync_rev (raw : RawSync) (rev : Z) : handler () :=
  nanos ← read_clock;
  if saturating_add_u64 (now_micros nanos) (as_u64 (future_rev_tolerance options)) <? Tid.timestamp_micros rev then
    _ ← count future_revs_rejected; fail (FutureRev (s_did raw) (OfText (s_rev raw)))
  else mret ().

Definition reject_oversized (raw : RawCommit) : handler () :=
  if (MAX_COMMIT_BLOCKS_BYTES <? length (blocks raw))%nat then
    _ ← count oversized_commits;
    fail (OversizedCommit (repo raw) (Some (OfTid (rev raw))) "blocks" (length (blocks raw)) MAX_COMMIT_BLOCKS_BYTES)
  else if (MAX_COMMIT_OPS <? length (ops raw))%nat then
    _ ← count oversized_commits;
    fail (OversizedCommit (repo raw) (Some (OfTid (rev raw))) "ops" (length (ops raw)) MAX_COMMIT_OPS)
  else mret ().

Definition check_hosting_gate_for_did (did : Did.Did) : handler () :=
  if negb (bool_decide (hosting_policy options = Gate)) then mret ()
  else
    hosting ← from_store (load_hosting did);
    if is_active hosting then mret ()
    else
      _ ← count accounts_inactive;
      fail (RepoInactive did (hosting ≫= h_status) (h_seq <$> hosting) (h_time <$> hosting)).

(** [Tid::try_from(chain.rev)] with its error. *)
Definition chain_tid (did : Did.Did) (shown : RevText) (chain : ChainState) : res VerifierError Z :=
  map_err (fun _ => FieldMismatch did (Some shown) "chain.rev" (ShowText (b# "valid TID")) (ShowText (c_rev chain))) (Tid.try_from (c_rev chain)).

Definition is_rev_replay (did : Did.Did) (rev : Z) (chain : option ChainState) : res VerifierError bool :=
  match chain with
  | None => Ok false
  | Some chain => chain_rev ← chain_tid did (OfTid rev) chain; Ok (rev <=? chain_rev)
  end.

Definition is_legacy_shape (raw : RawCommit) (chain : option ChainState) : bool :=
  bool_decide (is_Some chain) && bool_decide (prev_data raw = None) && negb (bool_decide (ops raw = [])) &&
  forallb (fun op => bool_decide (op_prev op = None))
    (filter (fun op => action op = b# "update" \/ action op = b# "delete") (ops raw)).

Definition previous_root (raw : RawCommit) (inner : Commit) (store : CarBlockStore) (chain : option ChainState) : handler (option Cid) :=
  if bool_decide (chain = None) then mret None
  else if is_legacy_shape raw chain then
    _ ← count legacy_commits;
    if bool_decide (legacy_commit_policy options = Reject) then
      fail (LegacyCommit (repo raw) (OfTid (rev raw)) (c_rev <$> chain) (c_data <$> chain))
    else mret None
  else root ← lift (invert_decoded_commit raw inner store); mret (Some root).

(** What a broken chain is under each policy: an error to return after the
    state is saved, or one to recover from. *)
Definition broken_chain (raw : RawCommit) (expected actual : option Cid) : handler (option VerifierError) :=
  match verifier_policy options with
  | PolicyError => mret (Some (ChainBreak (repo raw) (OfTid (rev raw)) expected actual))
  | Resync => fail (ResyncRequired (repo raw) (BrokenChain expected actual))
  end.

Definition check_chain (raw : RawCommit) (chain : option ChainState) (previous_root : option Cid) : handler (option VerifierError) :=
  match chain with
  | None => mret None
  | Some chain =>
      if bool_decide (previous_root = None) then mret None
      else
        let expected := Some (c_data chain) in
        if bool_decide (prev_data raw = expected) && bool_decide (previous_root <> expected) then
          if lenient_inversion options then _ ← count inversion_incomplete; mret None
          else _ ← count chain_breaks; broken_chain raw expected previous_root
        else if bool_decide (prev_data raw = expected) && bool_decide (previous_root = expected) then mret None
        else
          _ ← count chain_breaks;
          broken_chain raw expected (match prev_data raw with Some c => Some c | None => previous_root end)
  end.

(** ** The commit's fields *)

Definition field_mismatch {A} (raw : RawCommit) (field : string) (expected actual : Shown) : handler A :=
  _ ← count field_mismatches; fail (FieldMismatch (repo raw) (Some (OfTid (rev raw))) field expected actual).

(** [inner.did != raw.repo] *)
Definition same_did {E} (a b : Did.Did) : st (Verifier S W) E bool := lift (RepoCommit.unfailing (SmallString.eq a b)).

Definition show_did (d : Did.Did) : Shown := ShowText (RepoCommit.did_text d).

Definition check_fields (raw : RawCommit) (inner : Commit) : handler () :=
  same ← same_did (RepoCommit.did inner) (repo raw);
  if negb same then field_mismatch raw "did" (show_did (repo raw)) (show_did (RepoCommit.did inner))
  else if negb (RepoCommit.rev inner =? rev raw) then
    field_mismatch raw "rev" (ShowRev (OfTid (rev raw))) (ShowRev (OfTid (RepoCommit.rev inner)))
  else if negb (RepoCommit.version inner =? 3) then field_mismatch raw "version" (ShowInt 3) (ShowInt (RepoCommit.version inner))
  else mret ().

Definition check_sync_fields (raw : RawSync) (rev : Z) (inner : Commit) : handler () :=
  let mismatch field expected actual :=
    _ ← count field_mismatches; fail (FieldMismatch (s_did raw) (Some (OfText (s_rev raw))) field expected actual) in
  same ← same_did (RepoCommit.did inner) (s_did raw);
  if negb same then mismatch "did" (show_did (s_did raw)) (show_did (RepoCommit.did inner))
  else if negb (RepoCommit.rev inner =? rev) then mismatch "rev" (ShowText (s_rev raw)) (ShowRev (OfTid (RepoCommit.rev inner)))
  else if negb (RepoCommit.version inner =? 3) then mismatch "version" (ShowInt 3) (ShowInt (RepoCommit.version inner))
  else mret ().

(** ** The signature *)

Definition verify_signature_once (did : Did.Did) (inner : Commit) : st (Verifier S W) SignatureAttemptError () := fun v =>
  let '(identity, v) := in_world (lookup_did did) v in
  (identity ← map_err (fun e => SigIdentity (IdentityFailed did e)) identity;
   key ← ok_or (SigInvalid NoSigningKey) (signing_key identity);
   map_err (fun e => SigInvalid (NotVerified e)) (RepoCommit.verify inner key), v).

Definition verify_signature (did : Did.Did) (rev : Z) (inner : Commit) : handler () := fun v =>
  match verify_signature_once did inner v with
  | (Ok _, v) => (Ok (), v)
  | (Panic, v) => (Panic, v)
  | (Err (SigIdentity err), v) => (Err err, v)
  | (Err (SigInvalid first_reason), v) =>
      match in_world (purge did) v with
      | (Err e, v) => (Err (IdentityFailed did e), v)
      | (Panic, v) => (Panic, v)
      | (Ok _, v) =>
          match verify_signature_once did inner v with
          | (Ok _, v) => (Ok (), v)
          | (Panic, v) => (Panic, v)
          | (Err (SigIdentity err), v) => (Err err, v)
          | (Err (SigInvalid second_reason), v) =>
              (_ ← count signature_failures; fail (SignatureInvalid did (OfTid rev) first_reason second_reason)) v
          end
      end
  end.

(** ** Errors *)

Definition is_car_root_mismatch (err : VerifierError) : bool :=
  match err with FieldMismatch _ _ field _ _ => bool_decide (field = "commit"%string) | _ => false end.

Definition wrap_resync_error (did : Did.Did) (err : VerifierError) : VerifierError :=
  match err with ResyncFailed _ _ => err | err => ResyncFailed did err end.

Definition count_decode_error {E} (err : VerifierError) : st (Verifier S W) E () :=
  match err with FieldMismatch _ _ _ _ _ => count field_mismatches | DuplicatePath _ _ _ => count duplicate_paths | _ => mret () end.

Definition count_inversion_error {E} (err : VerifierError) : st (Verifier S W) E () :=
  match err with DuplicatePath _ _ _ => count duplicate_paths | _ => count inversion_failures end.

Definition count_resync_error {E} (err : VerifierError) : st (Verifier S W) E () :=
  match (match err with ResyncFailed _ source => source | err => err end) with
  | OversizedCommit _ _ _ _ _ => count oversized_commits
  | FieldMismatch _ _ _ _ _ => count field_mismatches
  | OpCidMismatch _ _ _ _ _ => count op_cid_mismatches
  | _ => mret ()
  end.

(** ** Resynchronising in the background *)

Definition send_async_error {E} (err : VerifierError) : st (Verifier S W) E () :=
  modify (fun v => if closed v then v else set_errors (async_errors v ++ [err]) v).
Definition report_async_error {E} (err : VerifierError) : st (Verifier S W) E () := send_async_error err.
Definition send_resync_event {E} (event : ResyncEvent) : st (Verifier S W) E () :=
  modify (fun v => if closed v then v else set_events (resync_events v ++ [event]) v).

(** A commit put in the queue of its DID, or an error if that is full. *)
Definition push_back {E} (raw : RawCommit) (state : PendingResync) : st (Verifier S W) E () :=
  if (pending_queue_capacity options <=? length (commits state))%nat then
    send_async_error (BufferOverflow (repo raw) (length (commits state)) (pending_queue_capacity options))
  else modify (fun v => set_pending (<[key_of (repo raw) := MkPending (old_rev state) (reason state) (commits state ++ [raw])]> (pending v)) v).

Definition spawn_resync_job {E} (did : Did.Did) : st (Verifier S W) E () := modify (fun v => set_jobs (jobs v ++ [did]) v).

Definition enqueue_resync {E} (raw : RawCommit) (old_rev : option bytes) (err : VerifierError) : st (Verifier S W) E () :=
  state ← gets (fun v => pending v !! key_of (repo raw));
  match state with
  | Some state => push_back raw state
  | None =>
      _ ← modify (fun v => set_pending (<[key_of (repo raw) := MkPending old_rev err []]> (pending v)) v);
      spawn_resync_job (repo raw)
  end.

Definition buffer_commit_if_resyncing {E} (raw : RawCommit) : st (Verifier S W) E bool :=
  v ← gets id;
  if (async_resync_workers options =? 0)%nat || closed v then mret false
  else
    match pending v !! key_of (repo raw) with
    | None => mret false
    | Some state => _ ← push_back raw state; mret true
    end.

Definition handle_recoverable_resync (raw : RawCommit) (chain : option ChainState) (err : VerifierError) (allow_async_resync : bool) :
    handler (option (list VerifierOp)) :=
  v ← gets id;
  if bool_decide (verifier_policy options = Resync) && allow_async_resync && (0 <? async_resync_workers options)%nat && negb (closed v) then
    _ ← enqueue_resync raw (c_rev <$> chain) err; mret None
  else fail err.

(** ** Commits *)

(** The record of an operation, if the CAR has it. *)
Definition op_record (raw : RawCommit) (store : CarBlockStore) (op : RawRepoOp) : handler bytes :=
  match op_cid op with
  | Some cid => match car_store_get store cid with Some data => mret data | None => _ ← count missing_record_blocks_ops; mret [] end
  | None => mret []
  end.

Fixpoint verifier_ops (raw : RawCommit) (store : CarBlockStore) (ops : list RawRepoOp) : handler (list VerifierOp) :=
  match ops with
  | [] => mret []
  | op :: ops =>
      record ← op_record raw store op;
      rest ← verifier_ops raw store ops;
      mret (MkVerifierOp (repo raw) (rev raw) (action op) (path op) (op_cid op) (op_prev op) record :: rest)
  end.

(** A failure to save does not hide an error found before. *)
Definition save_verified (raw : RawCommit) (data : Cid) (original_error : option VerifierError) : handler () :=
  text ← rev_string (rev raw);
  saved ← attempt (in_store (save_chain (repo raw) (MkChain text data)));
  match saved with
  | Err err => if bool_decide (is_Some original_error) then count chain_state_save_failures else fail err
  | _ => mret ()
  end.

(** [verify_commit_internal] from the chain check on. *)
Definition verify_against (raw : RawCommit) (chain : option ChainState) (decoded : DecodedCommitCar) (chain_error : option VerifierError)
    (allow_async_resync : bool) : handler (option (list VerifierOp)) :=
  let inner := dc_inner decoded in
  _ ← check_fields raw inner;
  _ ← verify_signature (repo raw) (rev raw) inner;
  match check_op_cids raw (RepoCommit.data inner) (dc_store decoded) with
  | Panic => panic
  | Err err =>
      _ ← (match err with OpCidMismatch _ _ _ _ _ => count op_cid_mismatches | _ => mret () end);
      handle_recoverable_resync raw chain err allow_async_resync
  | Ok _ =>
      _ ← save_verified raw (RepoCommit.data inner) chain_error;
      match chain_error with
      | Some err => fail err
      | None =>
          _ ← count events_verified;
          ops ← verifier_ops raw (dc_store decoded) (ops raw);
          mret (Some ops)
      end
  end.

(** And from its CAR on. *)
Definition verify_decoded (raw : RawCommit) (chain : option ChainState) (decoded : DecodedCommitCar) (allow_async_resync : bool) :
    handler (option (list VerifierOp)) :=
  previous ← attempt (previous_root raw (dc_inner decoded) (dc_store decoded) chain);
  match previous with
  | Panic => panic
  | Err err => _ ← count_inversion_error err; handle_recoverable_resync raw chain err allow_async_resync
  | Ok previous =>
      chain_error ← attempt (check_chain raw chain previous);
      match chain_error with
      | Panic => panic
      | Err err => handle_recoverable_resync raw chain err allow_async_resync
      | Ok chain_error => verify_against raw chain decoded chain_error allow_async_resync
      end
  end.

(** The part that holds the lock of the DID. *)
Definition verify_locked (raw : RawCommit) (allow_async_resync : bool) : handler (option (list VerifierOp)) :=
  _ ← check_hosting_gate_for_did (repo raw);
  chain ← from_store (load_chain (repo raw));
  replay ← lift (is_rev_replay (repo raw) (rev raw) chain);
  if (replay : bool) then _ ← count rev_replays_dropped; mret None
  else
    match find_duplicate_path (ops raw) with
    | Some path =>
        _ ← count duplicate_paths;
        handle_recoverable_resync raw chain (DuplicatePath (repo raw) (OfTid (rev raw)) path) allow_async_resync
    | None =>
        match decode_commit_car raw with
        | Panic => panic
        | Err err =>
            _ ← count_decode_error err;
            if is_car_root_mismatch err then fail err else handle_recoverable_resync raw chain err allow_async_resync
        | Ok decoded => verify_decoded raw chain decoded allow_async_resync
        end
    end.

Definition verify_commit_internal (raw : RawCommit) (allow_async_resync : bool) : handler (option (list VerifierOp)) :=
  _ ← reject_future_rev raw;
  _ ← reject_oversized raw;
  buffered ← (if allow_async_resync then buffer_commit_if_resyncing raw else mret false);
  if (buffered : bool) then mret None else verify_locked raw allow_async_resync.

Definition verify_commit (raw : RawCommit) : handler (option (list VerifierOp)) := verify_commit_internal raw true.

(** ** Accounts *)

Definition on_account_event (raw : RawAccount) : handler () :=
  current ← from_store (load_hosting (a_did raw));
  if default false ((fun state => a_seq raw <=? h_seq state) <$> current) then count account_event_replays_dropped
  else in_store (save_hosting (a_did raw) (MkHosting (a_active raw) (a_status raw) (a_seq raw) (a_time raw))).

(** ** Resynchronising *)

Definition on_limiters {E A : Type} (f : gmap bytes TokenBucket -> A * gmap bytes TokenBucket) : st (Verifier S W) E A := fun v =>
  let '(a, l) := f (limiters v) in (Ok a, set_limiters l v).

Definition take_token (did : Did.Did) : handler bool :=
  if negb (is_enabled (resync_rate_limit options)) then mret true
  else
    nanos ← read_clock;
    on_limiters (allow_resync (resync_rate_limit options) (resync_limiter_capacity options) (key_of did) nanos).

Definition get_stream (did : Did.Did) : handler (list (res SyncError bytes)) := fun v =>
  let '(r, v) := in_world (get_repo_car_stream did) v in (map_err (fun e => ResyncRequired did (FetchFailed e)) r, v).

Definition fetch_repo (did : Did.Did) : handler LoadedRepo :=
  if negb (has_repo_source options) then fail (ResyncRequired did NoRepoSource)
  else
    car ← get_stream did;
    lift (load_chunks did (repo_load_limits options) car).

Definition verify_loaded_repo (did : Did.Did) (loaded : LoadedRepo) : handler () :=
  same ← same_did (RepoCommit.did (l_commit loaded)) did;
  if negb same then
    fail (FieldMismatch did (Some (OfTid (RepoCommit.rev (l_commit loaded)))) "did" (show_did did) (show_did (RepoCommit.did (l_commit loaded))))
  else verify_signature did (RepoCommit.rev (l_commit loaded)) (l_commit loaded).

(** The second time under the lock. *)
Definition store_loaded (did : Did.Did) (loaded : LoadedRepo) : handler (list VerifierOp) :=
  let commit := l_commit loaded in
  _ ← check_hosting_gate_for_did did;
  chain ← from_store (load_chain did);
  _ ← (match chain with
       | None => mret ()
       | Some chain =>
           current_rev ← lift (chain_tid did (OfTid (RepoCommit.rev commit)) chain);
           if (RepoCommit.rev commit <? current_rev) ||
              ((RepoCommit.rev commit =? current_rev) && bool_decide (RepoCommit.data commit <> c_data chain)) then
             fail (RevRegression did (c_rev chain) (OfTid (RepoCommit.rev commit)))
           else mret ()
       end);
  text ← rev_string (RepoCommit.rev commit);
  _ ← in_store (save_chain did (MkChain text (RepoCommit.data commit)));
  _ ← count resyncs;
  mret (l_ops loaded).

Definition resync_inner (did : Did.Did) : handler (list VerifierOp) :=
  _ ← check_hosting_gate_for_did did;
  allowed ← take_token did;
  if negb allowed then fail (ResyncRateLimited did)
  else
    loaded ← fetch_repo did;
    _ ← verify_loaded_repo did loaded;
    store_loaded did loaded.

Definition resync (did : Did.Did) : handler (list VerifierOp) :=
  r ← attempt (resync_inner did);
  match r with
  | Panic => panic
  | Ok ops => mret ops
  | Err (ResyncRateLimited d) => _ ← count resync_rate_limited; fail (ResyncRateLimited d)
  | Err err =>
      let err := wrap_resync_error did err in
      _ ← count resync_failures;
      _ ← count_resync_error err;
      fail err
  end.

(** ** Sync events *)

Definition parse_sync_rev (raw : RawSync) : res VerifierError Z :=
  map_err (fun _ => FieldMismatch (s_did raw) (Some (OfText (s_rev raw))) "rev" (ShowText (b# "valid TID")) (ShowText (s_rev raw)))
    (Tid.try_from (s_rev raw)).

(** The part under the lock: [Some] of what is returned, or [None] for the
    repository to be fetched. *)
Definition sync_locked (raw : RawSync) (rev : Z) : handler (option (option (list VerifierOp))) :=
  _ ← check_hosting_gate_for_did (s_did raw);
  chain ← from_store (load_chain (s_did raw));
  replay ← lift (is_rev_replay (s_did raw) rev chain);
  if (replay : bool) then _ ← count rev_replays_dropped; mret (Some None)
  else
    match chain with
    | None => mret None
    | Some chain =>
        if bool_decide (s_blocks raw = []) || (MAX_COMMIT_BLOCKS_BYTES <? length (s_blocks raw))%nat then mret None
        else
          match decode_sync_commit (s_did raw) (s_rev raw) (s_blocks raw) with
          | Panic => panic
          | Err _ => mret None
          | Ok inner =>
              if negb (bool_decide (RepoCommit.data inner = c_data chain)) then mret None
              else
                _ ← check_sync_fields raw rev inner;
                _ ← verify_signature (s_did raw) (RepoCommit.rev inner) inner;
                text ← rev_string rev;
                _ ← in_store (save_chain (s_did raw) (MkChain text (RepoCommit.data inner)));
                _ ← count sync_no_ops;
                mret (Some None)
          end
    end.

Definition verify_sync (raw : RawSync) : handler (option (list VerifierOp)) :=
  rev ← lift (parse_sync_rev raw);
  _ ← reject_future_sync_rev raw rev;
  done ← sync_locked raw rev;
  match done with
  | Some r => mret r
  | None => ops ← resync (s_did raw); mret (Some ops)
  end.

(** ** Jobs *)

Definition finish_resync_job {E} (did : Did.Did) : st (Verifier S W) E () :=
  modify (fun v => set_pending (delete (key_of did) (pending v)) v).

(** The queued commits, taken out. *)
Definition drain_commits {E} (did : Did.Did) : st (Verifier S W) E (list RawCommit) := fun v =>
  match pending v !! key_of did with
  | Some state => (Ok (commits state), set_pending (<[key_of did := MkPending (old_rev state) (reason state) []]> (pending v)) v)
  | None => (Ok [], v)
  end.

(** [pending.remove(did)] if its queue is still empty; whether it was. *)
Definition leave_if_empty {E} (did : Did.Did) : st (Verifier S W) E bool := fun v =>
  match pending v !! key_of did with
  | Some state => if bool_decide (commits state = []) then (Ok true, set_pending (delete (key_of did) (pending v)) v) else (Ok false, v)
  | None => (Ok false, v)
  end.

Fixpoint replay_commits (ops : list VerifierOp) (commits : list RawCommit) : handler (list VerifierOp) :=
  match commits with
  | [] => mret ops
  | commit :: commits =>
      r ← attempt (verify_commit_internal commit false);
      match r with
      | Ok (Some commit_ops) => replay_commits (ops ++ commit_ops) commits
      | Ok None => replay_commits ops commits
      | Err err => _ ← send_async_error err; replay_commits ops commits
      | Panic => panic
      end
  end.

(** The loop, run alone; it ends when [leave_if_empty] says so. *)
Fixpoint job_loop (fuel : nat) (did : Did.Did) (ops : list VerifierOp) : handler (list VerifierOp) :=
  match fuel with
  | O => panic
  | Datatypes.S fuel =>
      commits ← drain_commits did;
      match commits with
      | [] => left ← leave_if_empty did; if (left : bool) then mret ops else job_loop fuel did ops
      | _ => ops ← replay_commits ops commits; job_loop fuel did ops
      end
  end.

Definition run_resync_job (fuel : nat) (did : Did.Did) : handler () :=
  state ← gets (fun v => pending v !! key_of did);
  match state with
  | None => mret ()
  | Some state =>
      r ← attempt (resync did);
      match r with
      | Panic => panic
      | Err err => _ ← finish_resync_job did; send_async_error err
      | Ok ops =>
          ops ← job_loop fuel did ops;
          chain ← attempt (from_store (load_chain did));
          new_rev ← (match chain with
                     | Ok (Some chain) => mret (c_rev chain)
                     | Ok None => mret []
                     | Err err => _ ← send_async_error err; mret []
                     | Panic => panic
                     end);
          send_resync_event (MkResyncEvent did (old_rev state) new_rev (reason state) ops)
      end
  end.

Definition close {E} : st (Verifier S W) E () := modify (fun v => set_jobs [] (set_pending ∅ (set_closed true v))).
End Handlers.

(** ** An example *)

#[local] Existing Instances simd_ref simd_ref_laws sha2_toy sha2_toy_laws toy_verifying ex_outside.

(** A world in which the clock stands at a second and every identity has the
    key 5; the host serves the repository of one record. *)
Definition ex_environment : Environment () Z := {|
  now := fun w => (1000000000, w);
  lookup_did := fun d w => (Ok {[b# "#atproto" := 5]}, w);
  purge := fun d w => (Ok (), w);
  get_repo_car_stream := fun d w => (Ok ex_chunks, w)
|}.
#[local] Existing Instance ex_environment.

Lemma ex_environment_laws : EnvironmentLaws () Z.
Proof. split; [done|done|]. intros d w. exact ex_chunks_ok. Qed.

Definition verifier_new (s : MemStateStore) : Verifier MemStateStore () :=
  MkVerifier s () (fun _ => 0) ∅ ∅ false [] [] [].

(** The repository before its record: the root of the empty tree. *)
Definition ex_before : Cid := Eval vm_compute in default RepoCommit.ex_data (map_root []).
Definition ex_raw : RawCommit :=
  MkRawCommit RepoCommit.ex_did 7 2 [] None RepoProof.ex_commit_cid RepoProof.ex_car
    [MkOp (b# "create") (b# "app.bsky.feed.post/3k") (Some RepoProof.ex_record_cid) None] [] (Some ex_before) false false.
Definition ex_kept : MemStateStore := MkMem {[key_of RepoCommit.ex_did := MkChain (Tid.digits 13 6) ex_before]} ∅.
Definition ex_options : VerifierOptions := MkOptions true PolicyError Gate Reject limits_default 0 64 false 0 rate_default 16.

Lemma ex_accepted : match verify_commit ex_options ex_raw (verifier_new ex_kept) with
  (Ok (Some out), v') => map v_record out = [RepoProof.ex_record] /\
    load_chain RepoCommit.ex_did (state_store v') = Ok (Some (MkChain (Tid.digits 13 7) RepoProof.ex_tree))
  | _ => False end.
Proof. vm_compute. by split. Qed.
