(* ===== verification/SyncChain.v ===== *)
(** The verifier's handlers: none of them panics, and the state they keep of
    a repository only moves forward, however their steps interleave. *)
From stdpp Require Import relations.
From S2P Require Import Prelude StateError SyntaxError CborError Cid CborValue CborDecode MstHeight SortedMap MstNode MstTree Crypto.
From S2P Require Import MstShape MstLoad MstLoadSpec MstDetached MstDetachedSpec MstMap MstHostile MstStore MstStoreSpec.
From S2P Require Import SyncRaw SyncInvert SyncResync SyncState SyncVerifier.
From S2P Require Did Tid SmallString Car CarSlice RepoCommit.

(** A DID that parsed. *)
Definition parsed (d : Did.Did) : Prop := exists raw, Did.try_from raw = Ok d.

Section Calm.
Context `{Simdutf8Laws} `{Sha2Laws} `{Outside} {S W V : Type} `{!StateStore S} `{!StateStoreLaws S} `{!Environment W V} `{!EnvironmentLaws W V} `{!VerifyingKey V}.
Hypothesis verify_no_panic : forall (key : V) content s, no_panic (verify_sig key content s).
Variable options : VerifierOptions.
Abbreviation Verifier := (Verifier S W).

(** A handler that leaves the state store alone and does not panic. *)
Definition calm {E A} (m : st Verifier E A) : Prop := forall v, state_store (m v).2 = state_store v /\ no_panic (m v).1.

Lemma calm_bind {E A B} (m : st Verifier E A) (f : A -> st Verifier E B) : calm m -> (forall a, calm (f a)) -> calm (m ≫= f).
Proof.
  intros Hm Hf v. unfold mbind, st_bind. destruct (Hm v) as [Hs Hn]. destruct (m v) as [[a|e|] v']; [|done..].
  destruct (Hf a v') as [Hs' Hn']. cbn in Hs. by rewrite Hs'.
Qed.

Lemma calm_ret {E A} (a : A) : calm (mret a : st Verifier E A).
Proof. done. Qed.
Lemma calm_fail {E A} (e : E) : calm (fail e : st Verifier E A).
Proof. done. Qed.
Lemma calm_lift {E A} (r : res E A) : no_panic r -> calm (lift r : st Verifier E A).
Proof. done. Qed.
Lemma calm_gets {E A} (f : Verifier -> A) : calm (gets f : st Verifier E A).
Proof. done. Qed.
Lemma calm_modify {E} (f : Verifier -> Verifier) : (forall v, state_store (f v) = state_store v) -> calm (modify f : st Verifier E ()).
Proof. intros Hf v. by split; [apply Hf|]. Qed.
Lemma calm_if {E A} (b : bool) (m m' : st Verifier E A) : calm m -> calm m' -> calm (if b then m else m').
Proof. by destruct b. Qed.
Lemma calm_attempt {E A} (m : st Verifier E A) : calm m -> calm (attempt m).
Proof. intros Hm v. unfold attempt. destruct (Hm v) as [Hs Hn]. by destruct (m v) as [[] v']. Qed.

Lemma calm_world {E A} (m : st W E A) : (forall w, no_panic (m w).1) -> calm (in_world (S:=S) m).
Proof. intros Hm v. unfold in_world. specialize (Hm (world v)). by destruct (m (world v)) as [r w]. Qed.

Lemma calm_clock {E} : calm (read_clock : st Verifier E Z).
Proof. apply calm_world. intros w. by destruct (now w). Qed.

Lemma calm_count {E} c : calm (count c : st Verifier E ()).
Proof. by apply calm_modify. Qed.

Lemma calm_from_store {A} (m : S -> res StateStoreError A) : (forall s, no_panic (m s)) -> calm (from_store (W:=W) m).
Proof. intros Hm v. split; [done|]. by apply no_panic_map_err. Qed.

Lemma calm_load_chain d : calm (from_store (W:=W) (load_chain d)).
Proof. apply calm_from_store. intros s. apply store_no_panic. Qed.
Lemma calm_load_hosting d : calm (from_store (W:=W) (load_hosting d)).
Proof. apply calm_from_store. intros s. apply store_no_panic. Qed.

Lemma calm_send {E} err : calm (send_async_error err : st Verifier E ()).
Proof. apply calm_modify. intros v. by destruct (closed v). Qed.

Lemma calm_rev_string {E} r : calm (rev_string r : st Verifier E bytes).
Proof. apply calm_lift. by rewrite Tid.display_digits. Qed.

Lemma calm_same_did {E} a b : parsed a -> parsed b -> calm (same_did a b : st Verifier E bool).
Proof.
  intros [ra Ha] [rb Hb]. apply calm_lift. destruct (RepoCommit.did_try_from_text _ _ Ha) as (Hsa & _).
  destruct (RepoCommit.did_try_from_text _ _ Hb) as (Hsb & _). unfold SmallString.eq. unfold Did.as_str in *. by rewrite Hsa, Hsb.
Qed.

#[local] Hint Resolve calm_ret calm_fail calm_gets calm_clock calm_count calm_load_chain calm_load_hosting calm_send calm_rev_string calm_same_did : calm.

Ltac calm :=
  repeat first [progress eauto 2 with calm | apply calm_bind; [|intros ?] | apply calm_if | apply calm_attempt | case_match];
  eauto 2 with calm.

Lemma calm_reject_future raw : calm (reject_future_rev options raw : st Verifier _ _).
Proof. unfold reject_future_rev. calm. Qed.
Lemma calm_reject_future_sync raw r : calm (reject_future_sync_rev options raw r : st Verifier _ _).
Proof. unfold reject_future_sync_rev. calm. Qed.
Lemma calm_reject_oversized raw : calm (reject_oversized raw : st Verifier _ _).
Proof. unfold reject_oversized. calm. Qed.
Lemma calm_gate d : calm (check_hosting_gate_for_did options d : st Verifier _ _).
Proof. unfold check_hosting_gate_for_did. calm. Qed.

Lemma chain_tid_no_panic d s c : no_panic (chain_tid d s c).
Proof. apply no_panic_map_err, RepoCommit.tid_try_from_no_panic. Qed.
Lemma is_rev_replay_no_panic d r c : no_panic (is_rev_replay d r c).
Proof. destruct c; [|done]. by apply no_panic_bind; [apply chain_tid_no_panic|]. Qed.

Lemma calm_previous_root raw inner s c : calm (previous_root options raw inner s c : st Verifier _ _).
Proof. unfold previous_root. calm. apply calm_lift, invert_decoded_commit_no_panic. Qed.

Lemma calm_broken raw a b : calm (broken_chain options raw a b : st Verifier _ _).
Proof. unfold broken_chain. calm. Qed.
#[local] Hint Resolve calm_broken calm_gate : calm.

Lemma calm_check_chain raw c p : calm (check_chain options raw c p : st Verifier _ _).
Proof. unfold check_chain. cbv zeta. calm. Qed.

Lemma calm_check_fields raw inner : parsed (RepoCommit.did inner) -> parsed (repo raw) -> calm (check_fields raw inner : st Verifier _ _).
Proof. intros. unfold check_fields, field_mismatch. calm. Qed.
Lemma calm_check_sync_fields raw r inner : parsed (RepoCommit.did inner) -> parsed (s_did raw) -> calm (check_sync_fields raw r inner : st Verifier _ _).
Proof. intros. unfold check_sync_fields. cbv zeta. calm. Qed.

Lemma calm_signature_once d inner : parsed (RepoCommit.did inner) -> calm (verify_signature_once d inner : st Verifier _ _).
Proof.
  intros [raw Hd] v. unfold verify_signature_once. destruct (calm_world (lookup_did d) (lookup_no_panic d) v) as [Hs Hn].
  destruct (in_world _ v) as [r v']. cbn [fst snd] in *. split; [done|].
  apply no_panic_bind; [by apply no_panic_map_err|]. intros identity _. apply no_panic_bind; [apply no_panic_ok_or|]. intros key _.
  apply no_panic_map_err. unfold RepoCommit.verify. apply no_panic_bind; [apply no_panic_ok_or|]. intros sg _.
  rewrite (RepoCommit.unsigned_bytes_eq inner raw Hd). by apply no_panic_map_err.
Qed.

Lemma calm_signature d r inner : parsed (RepoCommit.did inner) -> calm (verify_signature d r inner : st Verifier _ _).
Proof.
  intros Hd v. unfold verify_signature. destruct (calm_signature_once d inner Hd v) as [Hs Hn].
  destruct (verify_signature_once d inner v) as [[[]|[e|e]|] v1]; cbn [fst snd] in *; [done|done| |done].
  destruct (calm_world (purge d) (purge_no_panic d) v1) as [Hs1 Hn1]. destruct (in_world (purge d) v1) as [[[]|e1|] v2]; cbn [fst snd] in *; [|split; [congruence|done]|done].
  destruct (calm_signature_once d inner Hd v2) as [Hs2 Hn2].
  destruct (verify_signature_once d inner v2) as [[[]|[e2|e2]|] v3]; cbn [fst snd] in *; [split; [congruence|done]..| |done].
  split; [exact (eq_trans Hs2 (eq_trans Hs1 Hs))|done].
Qed.

Lemma calm_push_back {E} raw state : calm (push_back options raw state : st Verifier E ()).
Proof. unfold push_back. calm. by apply calm_modify. Qed.
#[local] Hint Resolve calm_push_back : calm.

Lemma calm_enqueue {E} raw o err : calm (enqueue_resync options raw o err : st Verifier E ()).
Proof. unfold enqueue_resync, spawn_resync_job. calm; by apply calm_modify. Qed.
#[local] Hint Resolve calm_enqueue : calm.

Lemma calm_buffer {E} raw : calm (buffer_commit_if_resyncing options raw : st Verifier E bool).
Proof. unfold buffer_commit_if_resyncing. calm. Qed.

Lemma calm_recover raw c err allow : calm (handle_recoverable_resync options raw c err allow : st Verifier _ _).
Proof. unfold handle_recoverable_resync. calm. Qed.

Lemma calm_count_decode {E} err : calm (count_decode_error err : st Verifier E ()).
Proof. unfold count_decode_error. calm. Qed.
Lemma calm_count_inversion {E} err : calm (count_inversion_error err : st Verifier E ()).
Proof. unfold count_inversion_error. calm. Qed.
Lemma calm_count_resync {E} err : calm (count_resync_error err : st Verifier E ()).
Proof. unfold count_resync_error. calm. Qed.

Lemma calm_ops raw s ops : calm (verifier_ops raw s ops : st Verifier _ _).
Proof. induction ops as [|op ops IH]; cbn [verifier_ops]; [done|]. unfold op_record. calm. Qed.

(** ** The state moves forward *)

(** A chain state is kept, or gives way to one of a greater revision. *)
Definition chain_le (c c' : ChainState) : Prop :=
  c' = c \/ exists r r', Tid.try_from (c_rev c) = Ok r /\ Tid.try_from (c_rev c') = Ok r' /\ r < r'.

Definition hosting_le (h h' : HostingState) : Prop := h' = h \/ h_seq h < h_seq h'.

Definition forward (s s' : S) : Prop := forall d,
  (forall c, load_chain d s = Ok (Some c) -> exists c', load_chain d s' = Ok (Some c') /\ chain_le c c') /\
  (forall h, load_hosting d s = Ok (Some h) -> exists h', load_hosting d s' = Ok (Some h') /\ hosting_le h h').

Lemma chain_le_trans a b c : chain_le a b -> chain_le b c -> chain_le a c.
Proof.
  intros [->|(r & r' & Hr & Hr' & Hlt)] [->|(q & q' & Hq & Hq' & Hlt')]; [by left|right; by exists q, q'|right; by exists r, r'|right].
  exists r, q'. rewrite Hr' in Hq. injection Hq as ->. split_and!; [done..|lia].
Qed.

Lemma forward_refl s : forward s s.
Proof. intros d. split; intros x Hx; exists x; (split; [done|by left]). Qed.

Lemma forward_trans s1 s2 s3 : forward s1 s2 -> forward s2 s3 -> forward s1 s3.
Proof.
  intros H12 H23 d. destruct (H12 d) as [Hc Hh]. destruct (H23 d) as [Hc' Hh']. split.
  - intros c (c2 & Hc2 & Hle)%Hc. destruct (Hc' c2 Hc2) as (c3 & Hc3 & Hle'). exists c3. split; [done|by eapply chain_le_trans].
  - intros h (h2 & Hh2 & Hle)%Hh. destruct (Hh' h2 Hh2) as (h3 & Hh3 & Hle'). exists h3. split; [done|].
    destruct Hle as [->|], Hle' as [->|]; unfold hosting_le in *; (by left) || (right; lia).
Qed.

(** From a store with [P], a handler moves forward and does not panic. *)
Definition moves {E A} (P : S -> Prop) (m : st Verifier E A) : Prop := forall v, P (state_store v) ->
  forward (state_store v) (state_store (m v).2) /\ no_panic (m v).1.

Lemma moves_calm {E A} P (m : st Verifier E A) : calm m -> moves P m.
Proof. intros Hm v _. destruct (Hm v) as [-> Hn]. split; [apply forward_refl|done]. Qed.

Lemma moves_weaken {E A} (P Q : S -> Prop) (m : st Verifier E A) : (forall s, Q s -> P s) -> moves P m -> moves Q m.
Proof. intros HQ Hm v Hv. by apply Hm, HQ. Qed.

Lemma moves_after {E A B} P (m : st Verifier E A) (f : A -> st Verifier E B) : calm m -> (forall a, moves P (f a)) -> moves P (m ≫= f).
Proof.
  intros Hm Hf v Hv. unfold mbind, st_bind. destruct (Hm v) as [Hs Hn]. destruct (m v) as [[a|e|] v']; cbn [fst snd] in *;
    [|rewrite Hs; split; [apply forward_refl|done]..].
  rewrite <- Hs in Hv |- *. by apply Hf.
Qed.

Lemma moves_then {E A B} P (m : st Verifier E A) (f : A -> st Verifier E B) : moves P m -> (forall a, moves (fun _ => True) (f a)) -> moves P (m ≫= f).
Proof.
  intros Hm Hf v Hv. unfold mbind, st_bind. destruct (Hm v Hv) as [Hs Hn]. destruct (m v) as [[a|e|] v']; [|done..].
  destruct (Hf a v' I) as [Hs' Hn']. split; [by eapply forward_trans|done].
Qed.

Lemma moves_load {A} P (m : S -> res StateStoreError A) {B} (f : A -> st Verifier _ B) : (forall s, no_panic (m s)) ->
  (forall a, moves (fun s => P s /\ m s = Ok a) (f a)) -> moves P (from_store m ≫= f).
Proof.
  intros Hm Hf v Hv. unfold mbind, st_bind, from_store. specialize (Hm (state_store v)).
  destruct (m (state_store v)) as [a|e|] eqn:Ha; cbn [map_err]; [|split; [apply forward_refl|done]..]. by apply Hf.
Qed.

Lemma moves_lift {E A B} P (r : res E A) (f : A -> st Verifier E B) : no_panic r -> (forall a, r = Ok a -> moves P (f a)) -> moves P (lift r ≫= f).
Proof. intros Hr Hf v Hv. unfold mbind, st_bind, lift. destruct r as [a|e|]; [by apply Hf|split; [apply forward_refl|done]|done]. Qed.

Lemma moves_if_true {E A} P (b : bool) (m m' : st Verifier E A) : (b = true -> moves P m) -> (b = false -> moves P m') -> moves P (if b then m else m').
Proof. destruct b; auto. Qed.

(** Saving a state that is no older than the one before. *)
Definition may_save (d : Did.Did) (c' : ChainState) (s : S) : Prop := forall c, load_chain d s = Ok (Some c) -> chain_le c c'.

Lemma moves_save d c : moves (may_save d c) (in_store (save_chain d c) : st Verifier _ _).
Proof.
  intros v Hv. unfold in_store. pose proof (save_chain_spec d c (state_store v)) as Hs.
  destruct (save_chain d c (state_store v)) as [[[]|e|] s']; [|split; [|done]|done]; cbn [snd fst state_store set_store map_err].
  - split; [|done]. intros d'. destruct (Hs d') as [Hc Hh]. split; [|intros h Hh0; exists h; split; [by rewrite Hh|by left]].
    intros c0 Hc0. rewrite Hc. case_decide as Hk; [|exists c0; split; [done|by left]].
    exists c. split; [done|]. apply Hv. by rewrite <- (proj1 (store_by_text d' d _ Hk)).
  - intros d'. destruct (Hs d') as [Hc Hh]. split; [intros c0 Hc0; exists c0; split; [by rewrite Hc|by left]|].
    intros h Hh0. exists h. split; [by rewrite Hh|by left].
Qed.

Lemma moves_save_hosting d h : moves (fun s => forall h0, load_hosting d s = Ok (Some h0) -> hosting_le h0 h) (in_store (save_hosting d h) : st Verifier _ _).
Proof.
  intros v Hv. unfold in_store. pose proof (save_hosting_spec d h (state_store v)) as Hs.
  destruct (save_hosting d h (state_store v)) as [[[]|e|] s']; [|split; [|done]|done]; cbn [snd fst state_store set_store map_err].
  - split; [|done]. intros d'. destruct (Hs d') as [Hh Hc]. split; [intros c Hc0; exists c; split; [by rewrite Hc|by left]|].
    intros h0 Hh0. rewrite Hh. case_decide as Hk; [|exists h0; split; [done|by left]].
    exists h. split; [done|]. apply Hv. by rewrite <- (proj2 (store_by_text d' d _ Hk)).
  - intros d'. destruct (Hs d') as [Hc Hh]. split; [intros c0 Hc0; exists c0; split; [by rewrite Hc|by left]|].
    intros h0 Hh0. exists h0. split; [by rewrite Hh|by left].
Qed.

(** The revision of a chain, printed and read back. *)
Lemma newer_chain c r rev data : Tid.try_from (c_rev c) = Ok r -> is_u64 rev -> r < rev -> chain_le c (MkChain (Tid.digits 13 rev) data).
Proof. intros Hr Hu Hlt. right. exists r, rev. split_and!; [done|by apply Tid.try_from_digits|done]. Qed.

Lemma same_chain c r data : Tid.try_from (c_rev c) = Ok r -> data = c_data c -> MkChain (Tid.digits 13 r) data = c.
Proof. intros [_ Hr]%Tid.try_from_inv ->. destruct c. cbn in *. by subst. Qed.

(** ** The handlers *)

(** An event whose types the parser has checked. *)
Record commit_event (raw : RawCommit) : Prop := { ce_did : parsed (repo raw); ce_rev : is_u64 (rev raw); ce_blocks : Forall is_u8 (blocks raw) }.
Record sync_event (raw : RawSync) : Prop := { se_did : parsed (s_did raw); se_blocks : Forall is_u8 (s_blocks raw) }.

Definition event_ok (e : RawSyncEvent) : Prop :=
  match e with EvCommit raw => commit_event raw | EvSync raw => sync_event raw | EvAccount raw => parsed (a_did raw) | _ => True end.

Lemma canonical_bytes_field fields key b : canonical 0 (Value.Map fields) -> required as_bytes fields key b -> Forall is_u8 b.
Proof.
  inversion 1 as [| | | | | | | | |? ? _ _ _ _ Hc]; subst. intros (v & Hf & Hv). unfold field_value in Hf.
  destruct (List.find _ fields) as [[k v']|] eqn:Hfind; [|done]. injection Hf as ->. apply find_some in Hfind as [Hin _].
  rewrite Forall_forall in Hc. specialize (Hc _ (proj2 (list_elem_of_In _ _) Hin)). cbn in Hc. destruct v; try done. injection Hv as ->. by inversion Hc.
Qed.

(** Events that were parsed are such events. *)
Lemma frame_event_ok data e : frame_means data e -> event_ok e.
Proof.
  intros (hf & tag & fields & _ & Hc & _ & _ & _ & Hm). destruct e; cbn in *; try done; destruct Hm as [_ []].
  - split; [destruct m_repo as (t & _ & ?); by exists t| |by eapply canonical_bytes_field].
    destruct m_rev as (t & _ & Hr). by apply Tid.try_from_inv in Hr as [? _].
  - split; [destruct m_s_did as (t & _ & ?); by exists t|by eapply canonical_bytes_field].
  - destruct m_a_did as (t & _ & ?). by exists t.
Qed.

Lemma decoded_did raw decoded : decode_commit_car raw = Ok decoded -> parsed (RepoCommit.did (dc_inner decoded)).
Proof.
  unfold decode_commit_car. intros ([roots bs] & _ & (root & _ & Hr)%res_bind_Ok)%res_bind_Ok.
  case_bool_decide; [|done]. cbn [negb] in Hr. apply res_bind_Ok in Hr as (m & _ & Hr). cbv zeta in Hr.
  apply res_bind_Ok in Hr as (block & _ & (inner & Hi%map_err_Ok & [= <-])%res_bind_Ok). by apply RepoCommit.from_cbor_did in Hi.
Qed.

Lemma sync_commit_did did rev bs inner : decode_sync_commit did rev bs = Ok inner -> parsed (RepoCommit.did inner).
Proof.
  unfold decode_sync_commit. intros ([roots cb] & _ & (c & _ & (b & _ & Hr)%res_bind_Ok)%res_bind_Ok)%res_bind_Ok.
  case_bool_decide; [|done]. cbn [negb] in Hr. by apply map_err_Ok, RepoCommit.from_cbor_did in Hr.
Qed.

Lemma moves_save_verified P raw data ce : (forall s, P s -> may_save (repo raw) (MkChain (Tid.digits 13 (rev raw)) data) s) ->
  moves P (save_verified raw data ce : st Verifier _ _).
Proof.
  intros HP. unfold save_verified, rev_string. rewrite Tid.display_digits. cbn [RepoCommit.unfailing].
  apply moves_lift; [done|]. intros text [= <-]. apply moves_then.
  - intros v Hv. unfold attempt. destruct (moves_save _ _ v (HP _ Hv)) as [Hf Hn]. by destruct (in_store _ v) as [[] v'].
  - intros [u|e|]; [by apply moves_calm|apply moves_calm, calm_if; [apply calm_count|done]|by apply moves_calm].
Qed.

Definition newer_than (raw : RawCommit) (s : S) : Prop :=
  forall c, load_chain (repo raw) s = Ok (Some c) -> exists r, Tid.try_from (c_rev c) = Ok r /\ r < rev raw.

Lemma moves_verify_against raw chain decoded ce allow : commit_event raw -> parsed (RepoCommit.did (dc_inner decoded)) ->
  moves (newer_than raw) (verify_against options raw chain decoded ce allow : st Verifier _ _).
Proof.
  intros Hraw Hd. unfold verify_against. cbv zeta. apply moves_after; [by apply calm_check_fields, Hraw|]. intros [].
  apply moves_after; [by apply calm_signature|]. intros [].
  pose proof (check_op_cids_no_panic raw (RepoCommit.data (dc_inner decoded)) (dc_store decoded)) as Hc.
  destruct (check_op_cids _ _ _) as [[]|err|]; [| |done].
  - apply moves_then.
    + apply moves_save_verified. intros s Hs c Hl. destruct (Hs c Hl) as (r & Hr & Hlt). eapply newer_chain; [done|apply Hraw|done].
    + intros []. destruct ce as [err|]; [by apply moves_calm|]. apply moves_calm. apply calm_bind; [apply calm_count|]. intros [].
      apply calm_bind; [apply calm_ops|done].
  - apply moves_calm, calm_bind; [by destruct err; try apply calm_count|]. intros []. apply calm_recover.
Qed.

(** What [attempt] gives is not a panic, if there was none. *)
Lemma moves_attempt {E A B} P (m : st Verifier E A) (f : res E A -> st Verifier E B) : calm m ->
  (forall r, no_panic r -> moves P (f r)) -> moves P (attempt m ≫= f).
Proof.
  intros Hm Hf v Hv. unfold mbind, st_bind, attempt. destruct (Hm v) as [Hs Hn]. destruct (m v) as [[a|e|] v']; cbn [fst snd] in *; [| |done].
  - rewrite <- Hs in Hv |- *. by apply Hf.
  - rewrite <- Hs in Hv |- *. by apply Hf.
Qed.

Lemma moves_verify_decoded raw chain decoded allow : commit_event raw -> parsed (RepoCommit.did (dc_inner decoded)) ->
  moves (newer_than raw) (verify_decoded options raw chain decoded allow : st Verifier _ _).
Proof.
  intros Hraw Hd. unfold verify_decoded. apply moves_attempt; [apply calm_previous_root|]. intros [previous|err|] Hn; [| |done].
  - apply moves_attempt; [apply calm_check_chain|]. intros [ce|err|] Hn'; [by apply moves_verify_against|apply moves_calm, calm_recover|done].
  - apply moves_calm, calm_bind; [apply calm_count_inversion|]. intros []. apply calm_recover.
Qed.

Lemma moves_verify_locked raw allow : commit_event raw -> moves (fun _ => True) (verify_locked options raw allow : st Verifier _ _).
Proof.
  intros Hraw. unfold verify_locked. apply moves_after; [apply calm_gate|]. intros [].
  apply moves_load; [intros s; apply store_no_panic|]. intros chain. apply moves_lift; [apply is_rev_replay_no_panic|]. intros replay Hr.
  destruct replay; [apply moves_calm, calm_bind; [apply calm_count|done]|].
  assert (Hnew : forall s, True /\ load_chain (repo raw) s = Ok chain -> newer_than raw s).
  { intros s [_ Hs] c Hc. rewrite Hs in Hc. injection Hc as ->. cbn [is_rev_replay] in Hr.
    apply res_bind_Ok in Hr as (r & Hr%map_err_Ok & Hle). exists r. split; [done|]. apply Ok_inj in Hle. lia. }
  destruct (find_duplicate_path (ops raw)) as [p|].
  { apply moves_calm, calm_bind; [apply calm_count|]. intros []. apply calm_recover. }
  pose proof (decode_commit_car_no_panic raw (ce_blocks raw Hraw)) as Hdec.
  destruct (decode_commit_car raw) as [decoded|err|] eqn:Hd; [| |done].
  - eapply moves_weaken; [exact Hnew|]. apply moves_verify_decoded; [done|by eapply decoded_did].
  - apply moves_calm, calm_bind; [apply calm_count_decode|]. intros []. apply calm_if; [done|apply calm_recover].
Qed.

Lemma moves_verify_commit raw allow : commit_event raw -> moves (fun _ => True) (verify_commit_internal options raw allow : st Verifier _ _).
Proof.
  intros Hraw. unfold verify_commit_internal. apply moves_after; [apply calm_reject_future|]. intros [].
  apply moves_after; [apply calm_reject_oversized|]. intros []. apply moves_after; [destruct allow; [apply calm_buffer|done]|]. intros [|]; [by apply moves_calm|].
  by apply moves_verify_locked.
Qed.

Lemma moves_account raw : moves (fun _ => True) (on_account_event raw : st Verifier _ _).
Proof.
  unfold on_account_event. apply moves_load; [intros s; apply store_no_panic|]. intros current.
  destruct (default false _) eqn:Hd; [apply moves_calm, calm_count|]. eapply moves_weaken; [|apply moves_save_hosting].
  intros s [_ Hs] h Hh. rewrite Hs in Hh. injection Hh as ->. cbn in Hd. right. cbn. lia.
Qed.

Lemma moves_sync_locked raw r : sync_event raw -> is_u64 r -> moves (fun _ => True) (sync_locked options raw r : st Verifier _ _).
Proof.
  intros Hraw Hu. unfold sync_locked. apply moves_after; [apply calm_gate|]. intros [].
  apply moves_load; [intros s; apply store_no_panic|]. intros chain. apply moves_lift; [apply is_rev_replay_no_panic|]. intros replay Hr.
  destruct replay; [apply moves_calm, calm_bind; [apply calm_count|done]|]. destruct chain as [chain|]; [|by apply moves_calm].
  destruct (_ || _); [by apply moves_calm|].
  pose proof (decode_sync_commit_no_panic (s_did raw) (s_rev raw) (s_blocks raw) (se_blocks raw Hraw)) as Hdec.
  destruct (decode_sync_commit _ _ _) as [inner|err|] eqn:Hd; [|by apply moves_calm|done]. apply sync_commit_did in Hd.
  case_bool_decide as Hdata; cbn [negb]; [|by apply moves_calm].
  apply moves_after; [by apply calm_check_sync_fields; [|apply Hraw]|]. intros []. apply moves_after; [by apply calm_signature|]. intros [].
  unfold rev_string. rewrite Tid.display_digits. cbn [RepoCommit.unfailing]. apply moves_lift; [done|]. intros text [= <-].
  apply moves_then; [|intros []; apply moves_calm, calm_bind; [apply calm_count|done]].
  eapply moves_weaken; [|apply moves_save]. intros s [_ Hs] c Hc. rewrite Hs in Hc. injection Hc as ->. cbn [is_rev_replay] in Hr.
  apply res_bind_Ok in Hr as (q & Hq%map_err_Ok & Hle%Ok_inj). apply (newer_chain _ q); [done..|lia].
Qed.

(** ** Resynchronising *)

Lemma calm_take_token d : calm (take_token options d : st Verifier _ _).
Proof.
  unfold take_token. apply calm_if; [done|]. apply calm_bind; [apply calm_clock|]. intros nanos v. unfold on_limiters.
  by destruct (allow_resync _ _ _ _ _).
Qed.

Hypothesis limit_small : max_block_bytes (repo_load_limits options) < usize_max.
Hypothesis limits_nonneg : 0 <= max_blocks (repo_load_limits options) /\ 0 <= max_block_bytes (repo_load_limits options) /\
  0 <= max_car_bytes (repo_load_limits options) < usize_max.

(** A repository that was loaded: its commit's DID has parsed. *)
Definition loaded_ok (loaded : LoadedRepo) : Prop := parsed (RepoCommit.did (l_commit loaded)) /\ is_u64 (RepoCommit.rev (l_commit loaded)).

Lemma calm_stream d : calm (get_stream d : st Verifier _ _).
Proof.
  intros v. unfold get_stream. pose proof (stream_no_panic (V:=V) d (world v)) as Hs.
  unfold in_world. destruct (get_repo_car_stream d (world v)) as [[c|e|] w]; [done..|by destruct Hs].
Qed.

(** A handler that leaves the store alone, with what its result satisfies. *)
Lemma moves_result {E A B} P (Q : A -> Prop) (m : st Verifier E A) (f : A -> st Verifier E B) :
  (forall v, let '(r, v') := m v in state_store v' = state_store v /\ match r with Ok a => Q a | Err _ => True | Panic => False end) ->
  (forall a, Q a -> moves P (f a)) -> moves P (m ≫= f).
Proof.
  intros Hm Hf v Hv. unfold mbind, st_bind. specialize (Hm v). destruct (m v) as [[a|e|] v']; destruct Hm as [Hs Hq]; [| |done].
  - rewrite <- Hs in Hv |- *. by apply Hf.
  - cbn. rewrite Hs. split; [apply forward_refl|done].
Qed.

Lemma fetch_result d (v : Verifier) : parsed d -> let '(r, v') := fetch_repo options d v in
  state_store v' = state_store v /\ match r with Ok loaded => loaded_ok loaded | Err _ => True | Panic => False end.
Proof.
  intros [raw Hd]. unfold fetch_repo. destruct (has_repo_source options); cbn [negb]; [|done].
  pose proof (stream_no_panic (V:=V) d (world v)) as Hs. unfold mbind, st_bind, get_stream, in_world.
  destruct (get_repo_car_stream d (world v)) as [[car|e|] w]; cbn [fst map_err] in *; [|done|by destruct Hs].
  destruct limits_nonneg as (Hn & Hm & Hc). pose proof (load_chunks_Ok d (repo_load_limits options) limit_small car raw Hn Hm Hc Hs Hd) as Hl.
  unfold lift. split; [done|]. destruct (load_chunks d (repo_load_limits options) car) as [loaded|e|]; [|done..].
  destruct Hl as (_ & bs & Hl). destruct (lt_commit _ _ _ _ Hl) as (c & block & _ & Hcommit).
  split; [by eapply RepoCommit.from_cbor_did|by eapply RepoCommit.from_cbor_rev].
Qed.

Lemma moves_store_loaded d loaded : loaded_ok loaded -> moves (fun _ => True) (store_loaded options d loaded : st Verifier _ _).
Proof.
  intros [Hd Hu]. unfold store_loaded. cbv zeta. apply moves_after; [apply calm_gate|]. intros [].
  apply moves_load; [intros s; apply store_no_panic|]. intros chain. set (commit := l_commit loaded) in *.
  assert (Hsave : forall P : S -> Prop, (forall s, P s -> may_save d (MkChain (Tid.digits 13 (RepoCommit.rev commit)) (RepoCommit.data commit)) s) ->
    moves P (text ← rev_string (RepoCommit.rev commit); _ ← in_store (save_chain d (MkChain text (RepoCommit.data commit))); _ ← count resyncs; mret (l_ops loaded) : st Verifier _ _)).
  { intros P HP. unfold rev_string. rewrite Tid.display_digits. cbn [RepoCommit.unfailing]. apply moves_lift; [done|]. intros text [= <-].
    apply moves_then; [by eapply moves_weaken; [|apply moves_save]|]. intros []. apply moves_calm, calm_bind; [apply calm_count|done]. }
  destruct chain as [chain|].
  - apply (moves_result _ (fun _ => exists q, Tid.try_from (c_rev chain) = Ok q /\
      (RepoCommit.rev commit <? q) || ((RepoCommit.rev commit =? q) && bool_decide (RepoCommit.data commit <> c_data chain)) = false)).
    { intros v. unfold mbind, st_bind, lift. pose proof (chain_tid_no_panic d (OfTid (RepoCommit.rev commit)) chain) as Hn.
      destruct (chain_tid d (OfTid (RepoCommit.rev commit)) chain) as [q|e|] eqn:Hq; [|done..]. apply map_err_Ok in Hq.
      destruct (_ || _) eqn:Hold; [done|]. split; [done|]. by exists q. }
    intros [] (q & Hq & Hold). apply Hsave. intros s [_ Hs] c Hc. rewrite Hs in Hc. injection Hc as <-.
    apply orb_false_iff in Hold as [Hlt Hsame]. destruct (Z.eq_dec (RepoCommit.rev commit) q) as [He|Hne].
    + left. rewrite He in *. rewrite Z.eqb_refl in Hsame. cbn [andb] in Hsame. apply bool_decide_eq_false, dec_stable in Hsame. by apply same_chain.
    + apply (newer_chain _ q); [done..|lia].
  - apply moves_after; [done|]. intros []. apply Hsave. intros s [_ Hs] c Hc. congruence.
Qed.

Lemma calm_verify_loaded d loaded : parsed d -> loaded_ok loaded -> calm (verify_loaded_repo d loaded : st Verifier _ _).
Proof.
  intros Hd [Hl _]. unfold verify_loaded_repo. apply calm_bind; [by apply calm_same_did|]. intros same. apply calm_if; [done|by apply calm_signature].
Qed.

Lemma moves_resync d : parsed d -> moves (fun _ => True) (resync options d : st Verifier _ _).
Proof.
  intros Hd. assert (Hin : moves (fun _ => True) (resync_inner options d : st Verifier _ _)).
  { unfold resync_inner. apply moves_after; [apply calm_gate|]. intros []. apply moves_after; [apply calm_take_token|]. intros allowed.
    destruct (negb allowed); [by apply moves_calm|]. apply (moves_result _ loaded_ok); [intros v; by apply fetch_result|]. intros loaded Hl.
    apply moves_after; [by apply calm_verify_loaded|]. intros []. by apply moves_store_loaded. }
  intros v _. destruct (Hin v I) as [Hf Hn]. unfold resync.
  assert (Hrun : forall f, (attempt (resync_inner options d) ≫= f) v =
    match resync_inner options d v with (Panic, v') => (Panic, v') | (r, v') => f r v' end :> res VerifierError (list VerifierOp) * Verifier).
  { intros f. unfold mbind, st_bind, attempt. by destruct (resync_inner options d v) as [[]]. }
  rewrite Hrun. destruct (resync_inner options d v) as [[ops|err|] v']; cbn [fst snd] in *; [done| |done].
  assert (Hc : calm (match err with
    | ResyncRateLimited d0 => _ ← count resync_rate_limited; fail (ResyncRateLimited d0)
    | err => let err := wrap_resync_error d err in _ ← count resync_failures; _ ← count_resync_error err; fail err
    end : st Verifier VerifierError (list VerifierOp))).
  { destruct err; cbv zeta; apply calm_bind; (apply calm_count || intros []); try done; (apply calm_bind; [apply calm_count_resync|done]). }
  destruct (Hc v') as [Hs Hn']. destruct err; cbv zeta in *; (split; [by rewrite Hs|done]).
Qed.

Lemma moves_verify_sync raw : sync_event raw -> moves (fun _ => True) (verify_sync options raw : st Verifier _ _).
Proof.
  intros Hraw. unfold verify_sync. apply moves_lift; [apply no_panic_map_err, RepoCommit.tid_try_from_no_panic|].
  intros r Hr%map_err_Ok. apply moves_after; [apply calm_reject_future_sync|]. intros [].
  apply moves_then; [apply moves_sync_locked; [done|by apply Tid.try_from_inv in Hr as [? _]]|]. intros [r'|]; [by apply moves_calm|].
  apply moves_then; [apply moves_resync, Hraw|]. intros ops. by apply moves_calm.
Qed.
End Calm.
