(* ===== verification/SyncAccept.v ===== *)
(** What it takes for a commit to be accepted, and that one that is not
    leaves what is kept of every repository as it was. *)
From S2P Require Import Prelude StateError SyntaxError CborError Cid CborValue CborDecode MstHeight SortedMap MstNode MstTree Crypto.
From S2P Require Import MstShape MstLoad MstLoadSpec MstDetached MstDetachedSpec MstMap MstHostile MstStore MstStoreSpec.
From S2P Require Import SyncRaw SyncInvert SyncResync SyncState SyncVerifier SyncChain.
From S2P Require Did Tid SmallString Car CarSlice RepoCommit.

Section Runs.
Context {St E A : Type}.

(** What holds of the outcome of a run. *)
Definition runs (m : st St E A) (v : St) (Q : res E A -> St -> Prop) : Prop := let '(r, v') := m v in Q r v'.

Lemma runs_weaken (m : st St E A) v (P Q : res E A -> St -> Prop) : runs m v P -> (forall r v', P r v' -> Q r v') -> runs m v Q.
Proof. unfold runs. destruct (m v) as [r v']. auto. Qed.
End Runs.

Lemma runs_bind {St E A B} (m : st St E A) (f : A -> st St E B) v Q :
  runs m v (fun r v' => match r with Ok a => runs (f a) v' Q | Err e => Q (Err e) v' | Panic => Q Panic v' end) -> runs (m ≫= f) v Q.
Proof. unfold runs, mbind, st_bind. by destruct (m v) as [[a|e|] v']. Qed.

Lemma runs_attempt {St E A} (m : st St E A) v Q :
  runs m v (fun r v' => match r with Panic => Q Panic v' | r => Q (Ok r) v' end) -> runs (attempt m) v Q.
Proof. unfold runs, attempt. by destruct (m v) as [[a|e|] v']. Qed.

Section Accept.
Context `{Simdutf8Laws} `{Sha2Laws} `{Outside} {S W V : Type} `{!StateStore S} `{!StateStoreLaws S} `{!Environment W V} `{!EnvironmentLaws W V} `{!VerifyingKey V}.
Hypothesis verify_no_panic : forall (key : V) content s, no_panic (verify_sig key content s).
Variable options : VerifierOptions.
Abbreviation Verifier := (Verifier S W).
Implicit Types v : Verifier.

(** Two stores of which the same is loaded. *)
Definition same_state (s s' : S) : Prop := forall d, load_chain d s' = load_chain d s /\ load_hosting d s' = load_hosting d s.

(** A key that the directory has given for a DID. *)
Definition key_found (d : Did.Did) (key : V) : Prop :=
  exists w identity, (lookup_did (Environment:=_ : Environment W V) d w).1 = Ok identity /\ signing_key identity = Some key.

(** A handler that is calm, with what its outcome satisfies. *)
Definition gives {E A} (m : st Verifier E A) (Q : res E A -> Prop) : Prop :=
  forall v, runs m v (fun r v' => state_store v' = state_store v /\ no_panic r /\ Q r).

Lemma gives_calm {E A} (m : st Verifier E A) : calm m -> gives m (fun _ => True).
Proof. intros Hm v. unfold runs. destruct (Hm v) as [Hs Hn]. by destruct (m v). Qed.

Lemma gives_with {E A} (m : st Verifier E A) (Q : res E A -> Prop) : calm m -> (forall v, Q (m v).1) -> gives m Q.
Proof. intros Hm HQ v. unfold runs. destruct (Hm v) as [Hs Hn]. specialize (HQ v). by destruct (m v). Qed.

Lemma runs_gives {E A B} (m : st Verifier E A) (f : A -> st Verifier E B) Q v (R : res E B -> Verifier -> Prop) : gives m Q ->
  (forall a v', state_store v' = state_store v -> Q (Ok a) -> runs (f a) v' R) ->
  (forall e v', state_store v' = state_store v -> Q (Err e) -> R (Err e) v') -> runs (m ≫= f) v R.
Proof.
  intros Hm Hf He. apply runs_bind. eapply runs_weaken; [apply Hm|]. intros [a|e|] v' (Hs & Hn & HQ); [by apply Hf|by apply He|done].
Qed.

(** ** The checks *)

Definition fields_match (raw : RawCommit) (inner : Commit) : Prop :=
  key_of (RepoCommit.did inner) = key_of (repo raw) /\ RepoCommit.rev inner = rev raw /\ RepoCommit.version inner = 3.

Lemma check_fields_gives raw inner : parsed (RepoCommit.did inner) -> parsed (repo raw) ->
  gives (check_fields raw inner) (fun r => forall u, r = Ok u -> fields_match raw inner).
Proof.
  intros Hi Hr. apply gives_with; [by apply calm_check_fields|]. intros v u. destruct Hi as [ri Hi], Hr as [rr Hr].
  destruct (RepoCommit.did_try_from_text _ _ Hi) as (Hti & _ & Hki). destruct (RepoCommit.did_try_from_text _ _ Hr) as (Htr & _ & Hkr).
  unfold check_fields, same_did, fields_match, key_of, RepoCommit.did_text, field_mismatch, SmallString.eq. unfold Did.as_str in *. rewrite Hti, Htr.
  cbn. case_bool_decide as Ht; cbn [negb]; [|done]. subst rr.
  destruct (Z.eqb_spec (RepoCommit.rev inner) (rev raw)); cbn [negb]; [|done].
  destruct (Z.eqb_spec (RepoCommit.version inner) 3); cbn [negb]; [|done]. done.
Qed.

Lemma signature_once_Ok d inner v u v' : verify_signature_once d inner v = (Ok u, v') ->
  exists key, key_found d key /\ RepoCommit.verify inner key = Ok ().
Proof.
  unfold verify_signature_once, in_world. destruct (lookup_did d (world v)) as [r w] eqn:Hl. destruct u. intros [= Hr _].
  apply res_bind_Ok in Hr as (identity & ->%map_err_Ok & (key & Hk%ok_or_Ok & Hv%map_err_Ok)%res_bind_Ok).
  exists key. split; [|done]. exists (world v), identity. by rewrite Hl.
Qed.

Lemma signature_gives d r inner : parsed (RepoCommit.did inner) ->
  gives (verify_signature d r inner) (fun res => forall u, res = Ok u -> exists key, key_found d key /\ RepoCommit.verify inner key = Ok ()).
Proof.
  intros Hd. apply gives_with; [by apply calm_signature|]. intros v u. unfold verify_signature.
  destruct (verify_signature_once d inner v) as [[[]|[e|e]|] v1] eqn:Hfst; cbn; [intros _; by eapply signature_once_Ok|done| |done].
  destruct (in_world (purge d) v1) as [[[]|e1|] v2]; cbn; [|done..].
  destruct (verify_signature_once d inner v2) as [[[]|[e2|e2]|] v3] eqn:Hsnd; cbn; [intros _; by eapply signature_once_Ok|done..].
Qed.

(** How a commit continues a chain: it is of the old shape, which says nothing
    of what was before it, and the policy accepts that; or it names the tree
    of the chain, and undoing its operations leads there, or the policy is
    lenient about blocks that the archive lacks. *)
Definition continues (raw : RawCommit) (decoded : DecodedCommitCar) (c : ChainState) : Prop :=
  (is_legacy_shape raw (Some c) = true /\ legacy_commit_policy options = Accept) \/
  (prev_data raw = Some (c_data c) /\ exists root, invert_decoded_commit raw (dc_inner decoded) (dc_store decoded) = Ok root /\
    (root = c_data c \/ lenient_inversion options = true)).

Definition continues_all (raw : RawCommit) (decoded : DecodedCommitCar) (chain : option ChainState) : Prop :=
  forall c, chain = Some c -> continues raw decoded c.

Lemma previous_root_gives raw decoded chain :
  gives (previous_root options raw (dc_inner decoded) (dc_store decoded) chain) (fun r => forall root, r = Ok root ->
    match root with
    | None => chain = None \/ (is_legacy_shape raw chain = true /\ legacy_commit_policy options = Accept)
    | Some root => invert_decoded_commit raw (dc_inner decoded) (dc_store decoded) = Ok root
    end).
Proof.
  apply gives_with; [apply calm_previous_root|]. intros v root. unfold previous_root. case_bool_decide; [intros [= <-]; by left|].
  destruct (is_legacy_shape raw chain) eqn:Hl.
  - unfold mbind, st_bind, count, modify. case_bool_decide as Hp; [done|]. intros [= <-]. right. split; [done|]. by destruct (legacy_commit_policy options).
  - unfold mbind, st_bind, lift. by destruct (invert_decoded_commit _ _ _) as [x|e|]; [intros [= <-]|..].
Qed.

Lemma check_chain_gives raw decoded chain prev :
  match prev with
  | None => chain = None \/ (is_legacy_shape raw chain = true /\ legacy_commit_policy options = Accept)
  | Some root => invert_decoded_commit raw (dc_inner decoded) (dc_store decoded) = Ok root
  end ->
  gives (check_chain options raw chain prev) (fun r => forall ce, r = Ok ce ->
    match ce with
    | None => continues_all raw decoded chain
    | Some e => verifier_policy options = PolicyError /\ exists expected actual, e = ChainBreak (repo raw) (OfTid (rev raw)) expected actual
    end).
Proof.
  intros Hp. apply gives_with; [apply calm_check_chain|]. intros v ce. unfold check_chain, broken_chain.
  destruct chain as [c|]; [|by intros [= <-]]. case_bool_decide as Hn.
  { intros [= <-] c' [= <-]. subst prev. left. destruct Hp as [?|?]; done. }
  destruct prev as [root|]; [|done]. cbv zeta.
  repeat case_bool_decide; cbn [andb]; unfold mbind, st_bind, count, modify; cbn;
    try (destruct (lenient_inversion options) eqn:Hl; cbn); try (destruct (verifier_policy options); cbn);
    intros [= <-]; try (split; [done|by do 2 eexists]); intros c' [= <-]; right; (split; [done|]); exists root; (split; [done|]);
    first [by right|left; congruence].
Qed.

(** What is returned for an operation: the operation, with its record. *)
Definition op_with_record (raw : RawCommit) (store : CarBlockStore) (op : RawRepoOp) (out : VerifierOp) : Prop :=
  out = MkVerifierOp (repo raw) (rev raw) (action op) (path op) (op_cid op) (op_prev op) (v_record out) /\
  v_record out = default [] (op_cid op ≫= car_store_get store).

Lemma verifier_ops_gives raw store ops : gives (verifier_ops raw store ops) (fun r => exists out, r = Ok out /\ Forall2 (op_with_record raw store) ops out).
Proof.
  apply gives_with; [apply calm_ops|]. induction ops as [|op ops IH]; intros v; cbn [verifier_ops]; [by exists []|].
  assert (Ho : exists v1, op_record raw store op v = (Ok (default [] (op_cid op ≫= car_store_get store)), v1)).
  { unfold op_record. destruct (op_cid op) as [c|]; [|by eexists]. cbn. destruct (car_store_get store c); by eexists. }
  destruct Ho as [v1 Ho]. rewrite (st_bind_run _ _ _ _ _ Ho). destruct (IH v1) as (rest & Hr & Hf). unfold mbind, st_bind.
  destruct (verifier_ops raw store ops v1) as [r v2]. cbn in Hr. subst r. eexists. split; [done|]. by constructor.
Qed.

Lemma recover_gives raw chain err allow :
  gives (handle_recoverable_resync options raw chain err allow) (fun r => r = Ok None \/ r = Err err).
Proof.
  apply gives_with; [apply calm_recover|]. intros v. unfold handle_recoverable_resync, mbind, st_bind, gets. cbn.
  destruct (_ && _ && _ && _); [|by right]. left. unfold enqueue_resync, mbind, st_bind, gets.
  destruct (pending v !! key_of (repo raw)); [|done]. unfold push_back. by destruct (_ <=? _)%nat.
Qed.

(** ** Commits *)

(** What an accepted commit has been checked for, in the store [s]. *)
Record accepted (raw : RawCommit) (s : S) (decoded : DecodedCommitCar) (out : list VerifierOp) : Prop := {
  ac_active : hosting_policy options = Gate -> exists h, load_hosting (repo raw) s = Ok h /\ is_active h = true;
  ac_chain : exists chain, load_chain (repo raw) s = Ok chain /\ continues_all raw decoded chain /\
    forall c, chain = Some c -> exists r, Tid.try_from (c_rev c) = Ok r /\ r < rev raw;
  ac_paths : NoDup (map path (ops raw));
  ac_decoded : decode_commit_car raw = Ok decoded /\ decoded_from raw decoded;
  ac_fields : fields_match raw (dc_inner decoded);
  ac_signed : exists key, key_found (repo raw) key /\ RepoCommit.verify (dc_inner decoded) key = Ok ();
  ac_ops : check_op_cids raw (RepoCommit.data (dc_inner decoded)) (dc_store decoded) = Ok ();
  ac_out : Forall2 (op_with_record raw (dc_store decoded)) (ops raw) out
}.

(** The state after: that of the commit for its repository, the rest kept. *)
Definition saved (d : Did.Did) (c : ChainState) (s s' : S) : Prop := forall d',
  load_chain d' s' = (if decide (key_of d' = key_of d) then Ok (Some c) else load_chain d' s) /\ load_hosting d' s' = load_hosting d' s.

Definition new_chain (raw : RawCommit) (decoded : DecodedCommitCar) : ChainState :=
  MkChain (Tid.digits 13 (rev raw)) (RepoCommit.data (dc_inner decoded)).

Lemma save_runs d c v : runs (in_store (save_chain d c)) v (fun r v' =>
  match r with Ok _ => saved d c (state_store v) (state_store v') | Err _ => same_state (state_store v) (state_store v') | Panic => False end).
Proof.
  unfold runs, in_store. pose proof (save_chain_spec d c (state_store v)) as Hs.
  destruct (save_chain d c (state_store v)) as [[[]|e|] s']; [done| |done]. exact Hs.
Qed.

(** What may happen to a commit: it is accepted and its state saved; it is
    refused or put off and nothing is saved; or the chain is broken, which the
    policy reports, and the state of the commit is saved unless that fails. *)
Definition commit_outcome (raw : RawCommit) (s : S) (r : res VerifierError (option (list VerifierOp))) (s' : S) : Prop :=
  match r with
  | Ok (Some out) => exists decoded, accepted raw s decoded out /\ saved (repo raw) (new_chain raw decoded) s s'
  | Ok None => same_state s s'
  | Err e => same_state s s' \/ exists decoded expected actual, verifier_policy options = PolicyError /\
      e = ChainBreak (repo raw) (OfTid (rev raw)) expected actual /\
      decode_commit_car raw = Ok decoded /\ saved (repo raw) (new_chain raw decoded) s s'
  | Panic => False
  end.

Lemma calm_outcome raw s (m : st Verifier VerifierError (option (list VerifierOp))) Q v : gives m Q -> state_store v = s ->
  (forall r, Q r -> match r with Ok (Some _) => False | _ => True end) -> runs m v (fun r v' => commit_outcome raw s r (state_store v')).
Proof.
  intros Hm Hs Hq. eapply runs_weaken; [apply Hm|]. intros r v' (-> & Hn & HQ). rewrite Hs. specialize (Hq r HQ).
  destruct r as [[out|]|e|]; [done|done|by left|done].
Qed.

Lemma recover_outcome raw s chain err allow v : state_store v = s ->
  runs (handle_recoverable_resync options raw chain err allow) v (fun r v' => commit_outcome raw s r (state_store v')).
Proof. intros Hs. eapply calm_outcome; [apply recover_gives|done|]. by intros r [->| ->]. Qed.

(** Counting first changes nothing of that. *)
Lemma count_outcome raw s {A} (c : st Verifier VerifierError A) m v : calm c -> state_store v = s ->
  (forall v, state_store v = s -> runs m v (fun r v' => commit_outcome raw s r (state_store v'))) ->
  runs (_ ← c; m) v (fun r v' => commit_outcome raw s r (state_store v')).
Proof.
  intros Hc Hs Hm. eapply runs_gives; [by apply gives_calm|..]; [intros; apply Hm; congruence|].
  intros e v' Hv _. left. by rewrite Hv, Hs.
Qed.

Lemma verify_against_outcome raw chain decoded ce allow v : commit_event raw -> decode_commit_car raw = Ok decoded ->
  match ce with
  | None => forall out, fields_match raw (dc_inner decoded) ->
      (exists key, key_found (repo raw) key /\ RepoCommit.verify (dc_inner decoded) key = Ok ()) ->
      check_op_cids raw (RepoCommit.data (dc_inner decoded)) (dc_store decoded) = Ok () ->
      Forall2 (op_with_record raw (dc_store decoded)) (ops raw) out -> accepted raw (state_store v) decoded out
  | Some e => verifier_policy options = PolicyError /\ exists expected actual, e = ChainBreak (repo raw) (OfTid (rev raw)) expected actual
  end ->
  runs (verify_against options raw chain decoded ce allow) v (fun r v' => commit_outcome raw (state_store v) r (state_store v')).
Proof.
  intros Hraw Hdec Hce. pose proof (decoded_did raw decoded Hdec) as Hd. unfold verify_against. cbv zeta.
  eapply runs_gives; [by apply check_fields_gives; [|apply Hraw]| |intros e v1 -> _; by left]. intros [] v1 Hv1 Hfields.
  eapply runs_gives; [by apply signature_gives| |intros e v2 -> _; left; by rewrite Hv1]. intros [] v2 Hv2 Hsig. rewrite Hv1 in Hv2.
  pose proof (check_op_cids_no_panic raw (RepoCommit.data (dc_inner decoded)) (dc_store decoded)) as Hnp.
  destruct (check_op_cids _ _ _) as [[]|err|] eqn:Hops; [| |done].
  2: { apply count_outcome; [by destruct err; try apply calm_count|done|]. intros v3 Hv3. by apply recover_outcome. }
  unfold save_verified, rev_string. rewrite Tid.display_digits. cbn [RepoCommit.unfailing].
  rewrite <- Hv2. clear Hnp. apply runs_bind. apply runs_bind. unfold runs at 1, lift. fold (new_chain raw decoded).
  apply runs_bind, runs_attempt. eapply runs_weaken; [apply save_runs|]. intros r v3 Hr.
  assert (Hend : forall v4, state_store v4 = state_store v3 -> (exists u, r = Ok u) \/ (exists e, ce = Some e /\ same_state (state_store v2) (state_store v3)) ->
    runs match ce with Some err => fail err | None => _ ← count events_verified; ops ← verifier_ops raw (dc_store decoded) (ops raw); mret (Some ops) end v4
      (fun r v' => commit_outcome raw (state_store v2) r (state_store v'))).
  { intros v4 Hv4 Hcase. destruct ce as [e|].
    - destruct Hce as (Hp & expected & actual & He). unfold runs, fail. rewrite Hv4.
      destruct Hcase as [[u ->]|(e' & _ & Hsame)]; [right; by exists decoded, expected, actual|by left].
    - destruct Hcase as [[u ->]|(e' & ? & _)]; [|done]. apply runs_bind. unfold runs at 1, count, modify.
      apply runs_bind. eapply runs_weaken; [apply verifier_ops_gives|]. intros r' v6 (Hv6 & _ & out & -> & Hout).
      unfold runs, mret, st_ret. exists decoded. split; [|by rewrite Hv6; cbn; rewrite Hv4]. rewrite Hv2.
      apply Hce; [by apply (Hfields ())|by apply (Hsig ())|done|done]. }
  destruct r as [[]|e|]; [| |done]; cbn.
  - apply Hend; [done|left; by exists ()].
  - case_bool_decide as Hs.
    + destruct Hs as [e' ->]. apply Hend; [done|]. right. by exists e'.
    + by left.
Qed.

Lemma verify_decoded_outcome raw chain decoded allow v : commit_event raw -> decode_commit_car raw = Ok decoded ->
  (forall out, continues_all raw decoded chain -> fields_match raw (dc_inner decoded) ->
    (exists key, key_found (repo raw) key /\ RepoCommit.verify (dc_inner decoded) key = Ok ()) ->
    check_op_cids raw (RepoCommit.data (dc_inner decoded)) (dc_store decoded) = Ok () ->
    Forall2 (op_with_record raw (dc_store decoded)) (ops raw) out -> accepted raw (state_store v) decoded out) ->
  runs (verify_decoded options raw chain decoded allow) v (fun r v' => commit_outcome raw (state_store v) r (state_store v')).
Proof.
  intros Hraw Hdec Hacc. unfold verify_decoded. apply runs_bind, runs_attempt. eapply runs_weaken; [apply previous_root_gives|].
  intros r v1 (Hv1 & Hn & Hprev). destruct r as [prev|err|]; [| |done].
  2: { apply count_outcome; [apply calm_count_inversion|done|]. intros v2 Hv2. by apply recover_outcome. }
  apply runs_bind, runs_attempt. eapply runs_weaken; [apply check_chain_gives, (Hprev prev eq_refl)|].
  intros r v2 (Hv2 & Hn2 & Hce). rewrite Hv1 in Hv2. destruct r as [ce|err|]; [|by apply recover_outcome|done].
  specialize (Hce ce eq_refl). rewrite <- Hv2. apply verify_against_outcome; [done|done|]. destruct ce as [e|]; [done|].
  intros out. rewrite Hv2. by apply Hacc.
Qed.

Lemma gate_gives d v : runs (check_hosting_gate_for_did options d) v (fun r v' => state_store v' = state_store v /\ no_panic r /\
  forall u, r = Ok u -> hosting_policy options = Gate -> exists h, load_hosting d (state_store v) = Ok h /\ is_active h = true).
Proof.
  pose proof (calm_gate options d v) as Hc. unfold runs. destruct (check_hosting_gate_for_did options d v) as [r v'] eqn:Hr. cbn in Hc.
  split_and!; [apply Hc..|]. intros u -> Hg. unfold check_hosting_gate_for_did in Hr. rewrite Hg, bool_decide_true in Hr by done. cbn [negb] in Hr.
  apply st_bind_Ok in Hr as (h & v1 & Hl & Hr). unfold from_store in Hl. injection Hl as Hl%map_err_Ok <-. exists h. split; [done|].
  destruct (is_active h); [done|]. by apply st_bind_Ok in Hr as (? & ? & _ & ?).
Qed.

Lemma runs_load {A B} (m : S -> res StateStoreError A) (f : A -> st Verifier _ B) v Q :
  match m (state_store v) with Ok a => runs (f a) v Q | Err e => Q (Err (StateStoreFailed e)) v | Panic => Q Panic v end ->
  runs (from_store m ≫= f) v Q.
Proof. intros Hm. apply runs_bind. unfold runs at 1, from_store. by destruct (m (state_store v)). Qed.

Lemma runs_lift {E A B} (r : res E A) (f : A -> st Verifier E B) v Q :
  match r with Ok a => runs (f a) v Q | Err e => Q (Err e) v | Panic => Q Panic v end -> runs (lift r ≫= f) v Q.
Proof. intros Hm. by apply runs_bind. Qed.

Lemma verify_locked_outcome raw allow v : commit_event raw ->
  runs (verify_locked options raw allow) v (fun r v' => commit_outcome raw (state_store v) r (state_store v')).
Proof.
  intros Hraw. unfold verify_locked. apply runs_bind. eapply runs_weaken; [apply gate_gives|].
  intros [[]|e|] v1 (Hv1 & Hn & Hgate); [|by left; rewrite Hv1|done]. specialize (Hgate () eq_refl).
  apply runs_load. pose proof (proj1 (store_no_panic (repo raw) (state_store v1))) as Hnl. rewrite Hv1 in *.
  destruct (load_chain (repo raw) (state_store v)) as [chain|e|] eqn:Hchain; [|by left|done].
  apply runs_lift. pose proof (is_rev_replay_no_panic (repo raw) (rev raw) chain) as Hnr.
  destruct (is_rev_replay _ _ _) as [replay|e|] eqn:Hreplay; [|by left; rewrite Hv1|done]. destruct replay.
  { apply count_outcome; [apply calm_count|done|]. intros v2 Hv2. unfold runs. cbn. by rewrite Hv2. }
  pose proof (find_duplicate_None (ops raw)) as Hdup. destruct (find_duplicate_path (ops raw)) as [p|].
  { apply count_outcome; [apply calm_count|done|]. intros v2 Hv2. by apply recover_outcome. }
  pose proof (decode_commit_car_no_panic raw (ce_blocks raw Hraw)) as Hnd. destruct (decode_commit_car raw) as [decoded|err|] eqn:Hdec; [| |done].
  2: { apply count_outcome; [apply calm_count_decode|done|]. intros v2 Hv2. destruct (is_car_root_mismatch err); [|by apply recover_outcome].
       unfold runs. cbn. left. by rewrite Hv2. }
  rewrite <- Hv1. apply verify_decoded_outcome; [done|done|]. intros out Hcont Hf Hs Hc Ho. rewrite Hv1. split; try done.
  - exists chain. split_and!; [done..|]. intros c ->. cbn [is_rev_replay] in Hreplay.
    apply res_bind_Ok in Hreplay as (r & Hr%map_err_Ok & Hle%Ok_inj). exists r. split; [done|lia].
  - by apply Hdup.
  - split; [done|by apply decode_commit_car_Ok].
Qed.

Lemma small_checks raw : gives (reject_future_rev options raw) (fun _ => True) /\ gives (reject_oversized raw)
  (fun r => forall u, r = Ok u -> (length (blocks raw) <= MAX_COMMIT_BLOCKS_BYTES)%nat /\ (length (ops raw) <= MAX_COMMIT_OPS)%nat).
Proof.
  split; [apply gives_calm, calm_reject_future|]. apply gives_with; [apply calm_reject_oversized|]. intros v u. unfold reject_oversized.
  destruct (Nat.ltb_spec MAX_COMMIT_BLOCKS_BYTES (length (blocks raw))); [done|].
  destruct (Nat.ltb_spec MAX_COMMIT_OPS (length (ops raw))); [done|]. intros _. by split.
Qed.

Lemma verify_commit_outcome raw v : commit_event raw ->
  let '(r, v') := verify_commit options raw v in
  commit_outcome raw (state_store v) r (state_store v') /\
  forall out, r = Ok (Some out) -> (length (blocks raw) <= MAX_COMMIT_BLOCKS_BYTES)%nat /\ (length (ops raw) <= MAX_COMMIT_OPS)%nat.
Proof.
  intros Hraw. change (runs (verify_commit options raw) v (fun r v' => commit_outcome raw (state_store v) r (state_store v') /\
    forall out, r = Ok (Some out) -> (length (blocks raw) <= MAX_COMMIT_BLOCKS_BYTES)%nat /\ (length (ops raw) <= MAX_COMMIT_OPS)%nat)).
  unfold verify_commit, verify_commit_internal. destruct (small_checks raw) as [Hfut Hover].
  eapply runs_gives; [exact Hfut| |intros e v1 -> _; by split; [left|]]. intros [] v1 Hv1 _.
  eapply runs_gives; [exact Hover| |intros e v2 -> _; split; [left; by rewrite Hv1|done]]. intros [] v2 Hv2 Hsize. rewrite Hv1 in Hv2. specialize (Hsize () eq_refl).
  eapply runs_gives; [apply gives_calm, calm_buffer| |intros e v3 -> _; split; [left; by rewrite Hv2|done]]. intros buffered v3 Hv3 _. rewrite Hv2 in Hv3.
  destruct buffered; [unfold runs, mret, st_ret; split; [cbn; by rewrite Hv3|done]|].
  rewrite <- Hv3. eapply runs_weaken; [by apply verify_locked_outcome|]. intros r v' Hr. split; [done|]. by intros out _.
Qed.

(** C10. [verify_commit], for any event, store, directory and policy. It accepts
    only a commit of an active account, newer than what is kept of its
    repository, within the size limits and with no path twice, whose archive
    holds it with blocks that hash to their CIDs, whose fields are the
    event's, which a key found for the DID has signed, whose operations its
    tree bears out and which continues the chain; then its revision and root
    are saved, and the operations returned are the event's with their records.
    A commit that is not accepted changes nothing that is kept, unless the
    policy reports broken chains: then that commit's state is saved too. *)
Theorem verify_commit_spec raw v : commit_event raw ->
  let '(r, v') := verify_commit options raw v in
  commit_outcome raw (state_store v) r (state_store v') /\
  forall out, r = Ok (Some out) -> (length (blocks raw) <= MAX_COMMIT_BLOCKS_BYTES)%nat /\ (length (ops raw) <= MAX_COMMIT_OPS)%nat.
Proof. apply verify_commit_outcome. Qed.
End Accept.

(** ** An example *)

#[local] Existing Instances simd_ref simd_ref_laws sha2_toy sha2_toy_laws toy_verifying ex_outside ex_environment ex_environment_laws.

Lemma toy_no_panic (key : Z) content s : no_panic (verify_sig key content s).
Proof. unfold verify_sig, toy_verifying. by case_decide. Qed.

Lemma ex_raw_ok : commit_event ex_raw.
Proof. split; [by eexists; exact RepoCommit.ex_did_ok|unfold is_u64; cbn; lia|apply u8_literal; vm_compute; reflexivity]. Qed.

Example verify_commit_spec_witness : exists out decoded, (verify_commit ex_options ex_raw (verifier_new ex_kept)).1 = Ok (Some out) /\
  accepted ex_options ex_raw ex_kept decoded out.
Proof.
  pose proof (verify_commit_spec toy_no_panic ex_options ex_raw (verifier_new ex_kept) ex_raw_ok) as Hs. pose proof ex_accepted as Ha.
  destruct (verify_commit ex_options ex_raw (verifier_new ex_kept)) as [[[out|]|e|] v']; [|destruct Ha..].
  destruct Hs as [(decoded & Hacc & _) _]. exists out, decoded. exact (conj eq_refl Hacc).
Defined.
