(* ===== verification/SyncRun.v ===== *)
(** The verifier at work: its handlers are sequences of steps, the steps of
    different handlers interleave, and what they keep moves forward and stays
    bounded. A resynchronisation that runs ends. *)
From stdpp Require Import relations.
From S2P Require Import Prelude StateError SyntaxError CborError Cid CborValue CborDecode MstHeight SortedMap MstNode MstTree Crypto.
From S2P Require Import MstShape MstLoad MstLoadSpec MstDetached MstDetachedSpec MstMap MstHostile MstStore MstStoreSpec.
From S2P Require Import SyncRaw SyncInvert SyncResync SyncState SyncVerifier SyncChain SyncAccept.
From S2P Require Did Tid SmallString Car CarSlice RepoCommit.

(** ** Invariants of the verifier *)

Section Holds.
Context `{Simdutf8} `{Sha2} `{Outside} {S W V : Type} `{!StateStore S} `{!Environment W V} `{!VerifyingKey V}.
Variable options : VerifierOptions.
Abbreviation Verifier := (Verifier S W).
Implicit Types v : Verifier.

(** A property of the verifier that depends neither on what is outside, nor
    on the counters and the channels. *)
Variable I : Verifier -> Prop.
Hypothesis I_store : forall s v, I v -> I (set_store s v).
Hypothesis I_world : forall w v, I v -> I (set_world w v).
Hypothesis I_stats : forall s v, I v -> I (set_stats s v).
Hypothesis I_errors : forall e v, I v -> I (set_errors e v).
Hypothesis I_events : forall e v, I v -> I (set_events e v).

Definition holds {E A} (m : st Verifier E A) : Prop := forall v, I v -> I (m v).2.

Lemma holds_bind {E A B} (m : st Verifier E A) (f : A -> st Verifier E B) : holds m -> (forall a, holds (f a)) -> holds (m ≫= f).
Proof.
  intros Hm Hf v Hv. unfold mbind, st_bind. specialize (Hm v Hv). destruct (m v) as [[a|e|] v']; [by apply Hf|done..].
Qed.

Lemma holds_ret {E A} (a : A) : holds (mret a : st Verifier E A).
Proof. by intros v. Qed.
Lemma holds_fail {E A} (e : E) : holds (fail e : st Verifier E A).
Proof. by intros v. Qed.
Lemma holds_panic {E A} : holds (panic : st Verifier E A).
Proof. by intros v. Qed.
Lemma holds_lift {E A} (r : res E A) : holds (lift r : st Verifier E A).
Proof. by intros v. Qed.
Lemma holds_gets {E A} (f : Verifier -> A) : holds (gets f : st Verifier E A).
Proof. by intros v. Qed.
Lemma holds_attempt {E A} (m : st Verifier E A) : holds m -> holds (attempt m).
Proof. intros Hm v Hv. unfold attempt. specialize (Hm v Hv). by destruct (m v) as [[] v']. Qed.
Lemma holds_modify {E} (f : Verifier -> Verifier) : (forall v, I v -> I (f v)) -> holds (modify f : st Verifier E ()).
Proof. intros Hf v Hv. by apply Hf. Qed.

Lemma holds_in_store {A} (m : st S StateStoreError A) : holds (in_store m).
Proof. intros v Hv. unfold in_store. destruct (m (state_store v)) as [r s]. by apply I_store. Qed.
Lemma holds_from_store {A} (m : S -> res StateStoreError A) : holds (from_store m).
Proof. by intros v. Qed.
Lemma holds_world {E A} (m : st W E A) : holds (in_world m).
Proof. intros v Hv. unfold in_world. destruct (m (world v)) as [r w]. by apply I_world. Qed.
Lemma holds_clock {E} : holds (read_clock : st Verifier E Z).
Proof. apply holds_world. Qed.
Lemma holds_count {E} c : holds (count c : st Verifier E ()).
Proof. apply holds_modify. intros v. apply I_stats. Qed.
Lemma holds_send {E} err : holds (send_async_error err : st Verifier E ()).
Proof. apply holds_modify. intros v Hv. destruct (closed v); [done|by apply I_errors]. Qed.
Lemma holds_event {E} ev : holds (send_resync_event ev : st Verifier E ()).
Proof. apply holds_modify. intros v Hv. destruct (closed v); [done|by apply I_events]. Qed.
Lemma holds_rev_string {E} r : holds (rev_string r : st Verifier E bytes).
Proof. apply holds_lift. Qed.
Lemma holds_same_did {E} a b : holds (same_did a b : st Verifier E bool).
Proof. apply holds_lift. Qed.

#[local] Hint Resolve holds_ret holds_fail holds_panic holds_lift holds_gets holds_in_store holds_from_store holds_world holds_clock
  holds_count holds_send holds_event holds_rev_string holds_same_did : holds.

Ltac holds := repeat first [progress eauto 2 with holds | apply holds_bind; [|intros ?] | apply holds_attempt | case_match]; eauto 2 with holds.

Lemma holds_reject_future raw : holds (reject_future_rev options raw).
Proof. unfold reject_future_rev. holds. Qed.
Lemma holds_reject_future_sync raw r : holds (reject_future_sync_rev options raw r).
Proof. unfold reject_future_sync_rev. holds. Qed.
Lemma holds_reject_oversized raw : holds (reject_oversized raw).
Proof. unfold reject_oversized. holds. Qed.
Lemma holds_gate d : holds (check_hosting_gate_for_did options d).
Proof. unfold check_hosting_gate_for_did. holds. Qed.
Lemma holds_previous_root raw inner s c : holds (previous_root options raw inner s c).
Proof. unfold previous_root. holds. Qed.
Lemma holds_check_chain raw c p : holds (check_chain options raw c p).
Proof. unfold check_chain, broken_chain. cbv zeta. holds. Qed.
Lemma holds_check_fields raw inner : holds (check_fields raw inner).
Proof. unfold check_fields, field_mismatch. holds. Qed.
Lemma holds_check_sync_fields raw r inner : holds (check_sync_fields raw r inner).
Proof. unfold check_sync_fields. cbv zeta. holds. Qed.

Lemma holds_signature_once d inner : holds (verify_signature_once d inner).
Proof.
  intros v Hv. unfold verify_signature_once. pose proof (holds_world (lookup_did d) v Hv) as Hw. by destruct (in_world _ v) as [r v'].
Qed.

Lemma holds_signature d r inner : holds (verify_signature d r inner).
Proof.
  intros v Hv. unfold verify_signature. pose proof (holds_signature_once d inner v Hv) as Hfst.
  destruct (verify_signature_once d inner v) as [[[]|[e|e]|] v1]; cbn [snd] in *; try done.
  pose proof (holds_world (purge d) v1 Hfst) as Hp. destruct (in_world (purge d) v1) as [[[]|e1|] v2]; cbn [snd] in *; try done.
  pose proof (holds_signature_once d inner v2 Hp) as Hsnd.
  destruct (verify_signature_once d inner v2) as [[[]|[e2|e2]|] v3]; cbn [snd] in *; try done. by apply I_stats.
Qed.

Lemma holds_ops raw s ops : holds (verifier_ops raw s ops).
Proof. induction ops as [|op ops IH]; cbn [verifier_ops]; [holds|]. unfold op_record. holds. Qed.

#[local] Hint Resolve holds_reject_future holds_reject_future_sync holds_reject_oversized holds_gate holds_previous_root holds_check_chain
  holds_check_fields holds_check_sync_fields holds_signature holds_ops : holds.

Lemma holds_save_verified raw data ce : holds (save_verified raw data ce).
Proof. unfold save_verified. holds. Qed.
#[local] Hint Resolve holds_save_verified : holds.

(** Recovering changes the queues only if a job may be started. *)
Lemma holds_recover raw chain err allow : (allow = true -> holds (enqueue_resync options raw (c_rev <$> chain) err : st Verifier VerifierError ())) ->
  holds (handle_recoverable_resync options raw chain err allow).
Proof.
  intros Hq. unfold handle_recoverable_resync. apply holds_bind; [holds|]. intros v0.
  destruct allow; [destruct (_ && _ && _ && _); holds|]. rewrite andb_false_r. apply holds_fail.
Qed.

Definition may_enqueue (raw : RawCommit) (allow : bool) : Prop :=
  allow = true -> forall old_rev err, holds (enqueue_resync options raw old_rev err : st Verifier VerifierError ()).

Lemma holds_verify_locked raw allow : may_enqueue raw allow -> holds (verify_locked options raw allow).
Proof.
  intros Hq. assert (Hrec : forall chain err, holds (handle_recoverable_resync options raw chain err allow)).
  { intros chain err. apply holds_recover. intros Ha. by apply Hq. }
  unfold verify_locked, verify_decoded, verify_against, count_decode_error, count_inversion_error. cbv zeta. holds.
Qed.

Lemma holds_verify_commit raw : holds (verify_commit_internal options raw false).
Proof. unfold verify_commit_internal. pose proof (holds_verify_locked raw false ltac:(done)). holds. Qed.

Lemma holds_account raw : holds (on_account_event raw).
Proof. unfold on_account_event. holds. Qed.

Lemma holds_fetch d : holds (get_stream d) /\ holds (fetch_repo options d).
Proof.
  assert (Hs : holds (get_stream d)).
  { intros v Hv. unfold get_stream. pose proof (holds_world (get_repo_car_stream d) v Hv) as Hw. by destruct (in_world _ v). }
  split; [done|]. unfold fetch_repo. holds.
Qed.

Lemma holds_verify_loaded d loaded : holds (verify_loaded_repo d loaded).
Proof. unfold verify_loaded_repo. holds. Qed.

Lemma holds_store_loaded d loaded : holds (store_loaded options d loaded).
Proof. unfold store_loaded. cbv zeta. holds. Qed.

Lemma holds_sync_locked raw r : holds (sync_locked options raw r).
Proof. unfold sync_locked. holds. Qed.

Lemma holds_resync d : holds (take_token options d) -> holds (resync options d).
Proof.
  intros Ht. unfold resync, resync_inner, count_resync_error. pose proof (proj2 (holds_fetch d)). pose proof (holds_verify_loaded d).
  pose proof (holds_store_loaded d). cbv zeta. holds.
Qed.

Lemma holds_replay ops commits : holds (replay_commits options ops commits).
Proof.
  revert ops. induction commits as [|commit commits IH]; intros ops; cbn [replay_commits]; [holds|].
  pose proof (holds_verify_commit commit). holds.
Qed.
End Holds.

(** ** Steps *)

Section Steps.
Context `{Simdutf8Laws} `{Sha2Laws} `{Outside} {S W V : Type} `{!StateStore S} `{!StateStoreLaws S} `{!Environment W V} `{!EnvironmentLaws W V} `{!VerifyingKey V}.
Hypothesis verify_no_panic : forall (key : V) content s, no_panic (verify_sig key content s).
Variable options : VerifierOptions.
Abbreviation Verifier := (Verifier S W).
Abbreviation handler := (st Verifier VerifierError).
Implicit Types v : Verifier.

(** What runs without another handler in between: the sections that hold the
    lock of a DID, of the queues or of the buckets, and single calls. *)
Inductive step (v : Verifier) : Verifier -> Prop :=
| step_reject raw : step v (reject_future_rev options raw v).2
| step_oversized raw : step v (reject_oversized raw v).2
| step_buffer raw : commit_event raw -> step v ((buffer_commit_if_resyncing options raw : handler bool) v).2
| step_commit raw allow : commit_event raw -> step v (verify_locked options raw allow v).2
| step_account raw : step v (on_account_event raw v).2
| step_reject_sync raw r : step v (reject_future_sync_rev options raw r v).2
| step_sync raw r : sync_event raw -> is_u64 r -> step v (sync_locked options raw r v).2
| step_gate d : step v (check_hosting_gate_for_did options d v).2
| step_token d : step v (take_token options d v).2
| step_fetch d : parsed d -> step v (fetch_repo options d v).2
| step_verify d loaded : parsed d -> loaded_ok loaded -> step v (verify_loaded_repo d loaded v).2
| step_store d loaded : loaded_ok loaded -> step v (store_loaded options d loaded v).2
| step_count c : step v ((count c : handler ()) v).2
| step_drain d : step v ((drain_commits d : handler _) v).2
| step_leave d : step v ((leave_if_empty d : handler _) v).2
| step_finish d : step v ((finish_resync_job d : handler _) v).2
| step_load d : step v (from_store (load_chain d) v).2
| step_error err : step v ((send_async_error err : handler _) v).2
| step_event ev : step v ((send_resync_event ev : handler _) v).2
| step_close : step v ((close : handler ()) v).2.

Hypothesis limit_small : max_block_bytes (repo_load_limits options) < usize_max.
Hypothesis limits_nonneg : 0 <= max_blocks (repo_load_limits options) /\ 0 <= max_block_bytes (repo_load_limits options) /\
  0 <= max_car_bytes (repo_load_limits options) < usize_max.

Lemma step_forward v v' : step v v' -> forward (state_store v) (state_store v').
Proof.
  assert (Hc : forall E A (m : st Verifier E A), calm m -> forward (state_store v) (state_store (m v).2)).
  { intros E A m Hm. destruct (Hm v) as [-> _]. apply forward_refl. }
  destruct 1 as [raw|raw|raw Hraw|raw allow Hraw|raw|raw r|raw r Hraw Hr|d|d|d Hd|d loaded Hd Hl|d loaded Hl|c|d|d|d|d|err|ev|].
  - apply Hc, calm_reject_future.
  - apply Hc, calm_reject_oversized.
  - apply Hc, calm_buffer.
  - by apply moves_verify_locked.
  - by apply moves_account.
  - apply Hc, calm_reject_future_sync.
  - by apply moves_sync_locked.
  - apply Hc, calm_gate.
  - apply Hc, calm_take_token.
  - pose proof (fetch_result options limit_small limits_nonneg d v Hd) as Hf. destruct (fetch_repo options d v) as [r v'].
    destruct Hf as [Hs _]. cbn. rewrite Hs. apply forward_refl.
  - by apply Hc, calm_verify_loaded.
  - by apply moves_store_loaded.
  - apply Hc, calm_count.
  - unfold drain_commits. destruct (pending v !! key_of d); apply forward_refl.
  - unfold leave_if_empty. destruct (pending v !! key_of d); [case_bool_decide|]; apply forward_refl.
  - apply forward_refl.
  - apply forward_refl.
  - apply Hc, calm_send.
  - apply Hc, calm_modify. intros v0. by destruct (closed v0).
  - apply forward_refl.
Qed.

Lemma steps_forward v v' : rtc step v v' -> forward (state_store v) (state_store v').
Proof. induction 1 as [v|v1 v2 v3 Hstep _ IH]; [apply forward_refl|]. eapply forward_trans; [by apply step_forward|done]. Qed.

(** ** Bounds *)

(** The queues of commits and the buckets are within their capacities. *)
Definition within_capacity v : Prop :=
  map_Forall (fun _ state => (length (commits state) <= pending_queue_capacity options)%nat) (pending v) /\
  (size (limiters v) <= resync_limiter_capacity options)%nat.

Lemma within_push_back {E} raw state : (length (commits state) <= pending_queue_capacity options)%nat ->
  holds within_capacity (push_back options raw state : st Verifier E ()).
Proof.
  intros Hl. unfold push_back. destruct (Nat.leb_spec (pending_queue_capacity options) (length (commits state))); [by apply holds_send|].
  apply holds_modify. intros v [Hp Hs]. split; [|done]. cbn. apply map_Forall_insert_2; [|done]. cbn. rewrite length_app. cbn. lia.
Qed.

Lemma within_enqueue {E} raw o err : holds within_capacity (enqueue_resync options raw o err : st Verifier E ()).
Proof.
  intros v Hv. unfold enqueue_resync, mbind, st_bind, gets. destruct (pending v !! key_of (repo raw)) as [state|] eqn:Hs.
  - apply within_push_back; [|done]. by apply (proj1 Hv) in Hs.
  - destruct Hv as [Hp Hl]. split; [|done]. cbn. apply map_Forall_insert_2; [cbn; lia|done].
Qed.

Lemma within_buffer {E} raw : holds within_capacity (buffer_commit_if_resyncing options raw : st Verifier E bool).
Proof.
  intros v Hv. unfold buffer_commit_if_resyncing, mbind, st_bind, gets. cbn. destruct (_ || _); [done|].
  destruct (pending v !! key_of (repo raw)) as [state|] eqn:Hs; [|done].
  pose proof (within_push_back (E:=E) raw state (proj1 Hv _ _ Hs) v Hv) as Hp. by destruct (push_back _ _ _ v) as [[]].
Qed.

Lemma within_token d : (1 <= resync_limiter_capacity options)%nat -> holds within_capacity (take_token options d).
Proof.
  intros capacity_pos. unfold take_token. destruct (negb _); [by apply holds_ret|]. apply holds_bind; [by apply holds_clock|]. intros nanos v [Hp Hl]. unfold on_limiters.
  pose proof (allow_resync_size (resync_rate_limit options) _ (key_of d) nanos _ capacity_pos Hl) as Ha.
  destruct (allow_resync _ _ _ _ _) as [a l]. done.
Qed.

Lemma within_delete d v : within_capacity v -> within_capacity (set_pending (delete (key_of d) (pending v)) v).
Proof. intros [Hp Hl]. split; [|done]. by apply map_Forall_delete. Qed.

Lemma step_within v v' : (1 <= resync_limiter_capacity options)%nat -> step v v' -> within_capacity v -> within_capacity v'.
Proof.
  intros Hcap Hstep Hv. destruct Hstep as [raw|raw|raw Hraw|raw allow Hraw|raw|raw r|raw r Hraw Hr|d|d|d Hd|d loaded Hd Hl|d loaded Hl|c|d|d|d|d|err|ev|].
  - by apply holds_reject_future.
  - by apply holds_reject_oversized.
  - by apply within_buffer.
  - apply holds_verify_locked; try done. intros _ o err. apply within_enqueue.
  - by apply holds_account.
  - by apply holds_reject_future_sync.
  - by apply holds_sync_locked.
  - by apply holds_gate.
  - by apply within_token.
  - by apply holds_fetch.
  - by apply holds_verify_loaded.
  - by apply holds_store_loaded.
  - done.
  - unfold drain_commits. destruct (pending v !! key_of d); [|done]. destruct Hv as [Hp Hs]. split; [|done]. cbn. apply map_Forall_insert_2; [cbn; lia|done].
  - unfold leave_if_empty. destruct (pending v !! key_of d); [|done]. case_bool_decide; [by apply within_delete|done].
  - by apply within_delete.
  - done.
  - by apply holds_send.
  - by apply holds_event.
  - destruct Hv. split; [apply map_Forall_empty|done].
Qed.

Lemma steps_within v v' : (1 <= resync_limiter_capacity options)%nat -> rtc step v v' -> within_capacity v -> within_capacity v'.
Proof. intros Hcap. induction 1 as [v|v1 v2 v3 Hstep _ IH]; [done|]. intros Hv. by eapply IH, step_within. Qed.

(** ** Commits in a queue *)

(** The commits in the queues are events that parsed. *)
Definition queued_ok v : Prop := map_Forall (fun _ state => Forall commit_event (commits state)) (pending v).

Lemma queued_push_back {E} raw state : commit_event raw -> Forall commit_event (commits state) ->
  holds queued_ok (push_back options raw state : st Verifier E ()).
Proof.
  intros Hraw Hl. unfold push_back. destruct (_ <=? _)%nat; [by apply holds_send|].
  apply holds_modify. intros v Hp. cbn. apply map_Forall_insert_2; [|done]. by apply Forall_app_2; [|constructor].
Qed.

Lemma queued_enqueue {E} raw o err : commit_event raw -> holds queued_ok (enqueue_resync options raw o err : st Verifier E ()).
Proof.
  intros Hraw v Hv. unfold enqueue_resync, mbind, st_bind, gets. destruct (pending v !! key_of (repo raw)) as [state|] eqn:Hs.
  - apply queued_push_back; [done| |done]. by apply Hv in Hs.
  - cbn. apply map_Forall_insert_2; [constructor|done].
Qed.

Lemma queued_buffer {E} raw : commit_event raw -> holds queued_ok (buffer_commit_if_resyncing options raw : st Verifier E bool).
Proof.
  intros Hraw v Hv. unfold buffer_commit_if_resyncing, mbind, st_bind, gets. cbn. destruct (_ || _); [done|].
  destruct (pending v !! key_of (repo raw)) as [state|] eqn:Hs; [|done].
  pose proof (queued_push_back (E:=E) raw state Hraw (Hv _ _ Hs) v Hv) as Hp. by destruct (push_back _ _ _ v) as [[]].
Qed.

Lemma holds_take_token (I : Verifier -> Prop) d : (forall w v, I v -> I (set_world w v)) -> (forall l v, I v -> I (set_limiters l v)) ->
  holds I (take_token options d).
Proof.
  intros Hw Hl. unfold take_token. destruct (negb _); [by apply holds_ret|]. apply holds_bind; [by apply holds_clock|]. intros nanos v Hv.
  unfold on_limiters. destruct (allow_resync _ _ _ _ _). by apply Hl.
Qed.

Lemma step_queued v v' : step v v' -> queued_ok v -> queued_ok v'.
Proof.
  intros Hstep Hv. destruct Hstep as [raw|raw|raw Hraw|raw allow Hraw|raw|raw r|raw r Hraw Hr|d|d|d Hd|d loaded Hd Hl|d loaded Hl|c|d|d|d|d|err|ev|].
  - by apply holds_reject_future.
  - by apply holds_reject_oversized.
  - by apply queued_buffer.
  - apply holds_verify_locked; try done. intros _ o err. by apply queued_enqueue.
  - by apply holds_account.
  - by apply holds_reject_future_sync.
  - by apply holds_sync_locked.
  - by apply holds_gate.
  - by apply holds_take_token.
  - by apply holds_fetch.
  - by apply holds_verify_loaded.
  - by apply holds_store_loaded.
  - done.
  - unfold drain_commits. destruct (pending v !! key_of d); [|done]. cbn. apply map_Forall_insert_2; [constructor|done].
  - unfold leave_if_empty. destruct (pending v !! key_of d); [|done]. case_bool_decide; [by apply map_Forall_delete|done].
  - by apply map_Forall_delete.
  - done.
  - by apply holds_send.
  - by apply holds_event.
  - apply map_Forall_empty.
Qed.

(** ** Handlers are sequences of steps *)

Definition by_steps {E A} (m : st Verifier E A) : Prop := forall v, queued_ok v -> rtc step v (m v).2.

Lemma steps_queued v v' : rtc step v v' -> queued_ok v -> queued_ok v'.
Proof. induction 1 as [v|v1 v2 v3 Hstep _ IH]; [done|]. intros Hv. by eapply IH, step_queued. Qed.

Lemma by_one {E A} (m : st Verifier E A) : (forall v, step v (m v).2) -> by_steps m.
Proof. intros Hm v _. by apply rtc_once. Qed.

Lemma by_bind {E A B} (m : st Verifier E A) (f : A -> st Verifier E B) (Q : A -> Prop) : by_steps m ->
  (forall v, match (m v).1 with Ok a => Q a | _ => True end) -> (forall a, Q a -> by_steps (f a)) -> by_steps (m ≫= f).
Proof.
  intros Hm HQ Hf v Hv. unfold mbind, st_bind. specialize (Hm v Hv). specialize (HQ v). destruct (m v) as [[a|e|] v']; [|done..].
  etrans; [exact Hm|]. by apply Hf; [|eapply steps_queued].
Qed.

Lemma by_then {E A B} (m : st Verifier E A) (f : A -> st Verifier E B) : by_steps m -> (forall a, by_steps (f a)) -> by_steps (m ≫= f).
Proof. intros Hm Hf. apply (by_bind _ _ (fun _ => True)); [done|intros v; by destruct (m v).1|auto]. Qed.

Lemma by_attempt {E A} (m : st Verifier E A) : by_steps m -> by_steps (attempt m).
Proof. intros Hm v Hv. unfold attempt. specialize (Hm v Hv). by destruct (m v) as [[]]. Qed.

Lemma by_nothing {E A} (r : Verifier -> res E A) : by_steps (fun v => (r v, v)).
Proof. intros v _. apply rtc_refl. Qed.

Lemma by_count c : by_steps (count c : handler ()).
Proof. apply by_one. intros v. apply step_count. Qed.

Lemma by_verify_commit raw allow : commit_event raw -> by_steps (verify_commit_internal options raw allow).
Proof.
  intros Hraw. unfold verify_commit_internal. apply by_then; [apply by_one; intros ?; apply step_reject|]. intros []. apply by_then; [apply by_one; intros ?; apply step_oversized|].
  intros []. apply by_then; [destruct allow; [apply by_one; intros v; by apply step_buffer|apply by_nothing]|].
  intros [|]; [apply by_nothing|]. apply by_one. intros v. by apply step_commit.
Qed.

Lemma by_resync d : parsed d -> by_steps (resync options d).
Proof.
  intros Hd. unfold resync. apply by_then.
  - apply by_attempt. unfold resync_inner. apply by_then; [apply by_one; intros ?; apply step_gate|]. intros []. apply by_then; [apply by_one; intros ?; apply step_token|].
    intros allowed. destruct (negb allowed); [apply by_nothing|]. apply (by_bind _ _ loaded_ok).
    + apply by_one. intros v. by apply step_fetch.
    + intros v. pose proof (fetch_result options limit_small limits_nonneg d v Hd) as Hf. destruct (fetch_repo options d v) as [[l|e|] v']; [apply Hf|done..].
    + intros loaded Hl. apply by_then; [apply by_one; intros v; by apply step_verify|]. intros []. apply by_one. intros v. by apply step_store.
  - intros [ops|err|]; [apply by_nothing| |apply by_nothing].
    assert (Hother : by_steps (let err := wrap_resync_error d err in _ ← count resync_failures; _ ← count_resync_error err; fail err : handler (list VerifierOp))).
    { cbv zeta. apply by_then; [apply by_count|]. intros []. apply by_then; [|intros; apply by_nothing].
      unfold count_resync_error. repeat case_match; first [apply by_count|apply by_nothing]. }
    destruct err; try exact Hother. apply by_then; [apply by_count|]. intros. apply by_nothing.
Qed.

Lemma by_verify_sync raw : sync_event raw -> by_steps (verify_sync options raw).
Proof.
  intros Hraw. unfold verify_sync. apply (by_bind _ _ is_u64); [apply by_nothing| |].
  - intros v. unfold lift, parse_sync_rev. cbn. destruct (map_err _ _) as [r|e|] eqn:Hr; [|done..]. apply map_err_Ok in Hr. by apply Tid.try_from_inv in Hr as [? _].
  - intros r Hr. apply by_then; [apply by_one; intros ?; apply step_reject_sync|]. intros []. apply by_then; [apply by_one; intros v; by apply step_sync|].
    intros [r'|]; [apply by_nothing|]. apply by_then; [apply by_resync, Hraw|]. intros ops. apply by_nothing.
Qed.

Lemma by_replay ops commits : Forall commit_event commits -> by_steps (replay_commits options ops commits).
Proof.
  intros Hc. revert ops. induction Hc as [|commit commits Hc _ IH]; intros ops; cbn [replay_commits]; [apply by_nothing|].
  apply by_then; [by apply by_attempt, by_verify_commit|]. intros [[ops'|]|err|]; [apply IH|apply IH| |apply by_nothing].
  apply by_then; [apply by_one; intros ?; apply step_error|]. intros []. apply IH.
Qed.

Lemma by_job_loop fuel did ops : by_steps (job_loop options fuel did ops).
Proof.
  revert ops. induction fuel as [|fuel IH]; intros ops v Hv; cbn [job_loop]; [apply rtc_refl|].
  unfold mbind at 1, st_bind at 1. assert (Hd : by_steps (drain_commits did : handler _)) by (apply by_one; intros ?; apply step_drain). specialize (Hd v Hv).
  assert (Hq : match (drain_commits (E:=VerifierError) did v).1 with Ok cs => Forall commit_event cs | _ => True end).
  { unfold drain_commits. destruct (pending v !! key_of did) eqn:Hs; [by apply Hv in Hs|by constructor]. }
  destruct (drain_commits did v) as [[cs|e|] v1]; [|done..]. cbn [fst snd] in *. etrans; [exact Hd|].
  assert (Hrest : by_steps match cs with [] => left ← leave_if_empty did; if (left : bool) then mret ops else job_loop options fuel did ops
    | _ => ops ← replay_commits options ops cs; job_loop options fuel did ops end); [|by apply Hrest; eapply steps_queued].
  destruct cs as [|c cs].
  - apply by_then; [apply by_one; intros ?; apply step_leave|]. intros [|]; [apply by_nothing|apply IH].
  - apply by_then; [by apply by_replay|]. intros ops'. apply IH.
Qed.

Lemma by_job fuel did : parsed did -> by_steps (run_resync_job options fuel did).
Proof.
  intros Hd. unfold run_resync_job. apply by_then; [apply by_nothing|]. intros [state|]; [|apply by_nothing].
  apply by_then; [by apply by_attempt, by_resync|]. intros [ops|err|]; [| |apply by_nothing].
  - apply by_then; [apply by_job_loop|]. intros ops'. apply by_then; [apply by_attempt, by_one; intros ?; apply step_load|]. intros chain.
    apply by_then; [|intros; apply by_one; intros ?; apply step_event]. destruct chain as [[c|]|err|]; try apply by_nothing.
    apply by_then; [apply by_one; intros ?; apply step_error|intros; apply by_nothing].
  - apply by_then; [apply by_one; intros ?; apply step_finish|]. intros []. apply by_one; intros ?; apply step_error.
Qed.

(** ** Jobs end *)

Lemma replay_runs ops cs v : Forall commit_event cs -> exists ops' v', replay_commits options ops cs v = (Ok ops', v') /\ pending v' = pending v.
Proof.
  intros Hc. assert (Hr : exists ops', (replay_commits options ops cs v).1 = Ok ops').
  { revert ops v. induction Hc as [|c cs Hc _ IH]; intros ops v; cbn [replay_commits]; [by exists ops|]. unfold mbind, st_bind, attempt.
    destruct (moves_verify_commit verify_no_panic options c false Hc v I) as [_ Hn].
    destruct (verify_commit_internal options c false v) as [[[o|]|err|] v1]; [apply IH|apply IH|apply IH|done]. }
  destruct Hr as [ops' Hr]. pose proof (holds_replay options (fun v' => pending v' = pending v)) as Hp.
  specialize (Hp ltac:(done) ltac:(done) ltac:(done) ltac:(done) ops cs v eq_refl).
  destruct (replay_commits options ops cs v) as [r v']. cbn in Hr, Hp. subst r. by exists ops', v'.
Qed.

(** The queues of the other repositories. *)
Definition others (d : Did.Did) (p p' : gmap bytes PendingResync) : Prop := forall key, key <> key_of d -> p' !! key = p !! key.

Lemma others_delete d p : others d p (delete (key_of d) p).
Proof. intros key Hne. by rewrite lookup_delete_ne. Qed.

Lemma job_loop_leaves fuel did ops v : (1 <= fuel)%nat -> (commits <$> pending v !! key_of did) = Some [] ->
  exists v', job_loop options fuel did ops v = (Ok ops, v') /\ pending v' !! key_of did = None /\ others did (pending v) (pending v').
Proof.
  intros Hf (state & Hp & Hs)%fmap_Some. destruct fuel as [|fuel]; [lia|]. cbn [job_loop]. unfold mbind, st_bind, drain_commits. rewrite Hp, <- Hs.
  unfold leave_if_empty. cbn [pending set_pending]. rewrite lookup_insert_eq. cbn [commits]. rewrite bool_decide_true by done.
  eexists. split; [done|]. cbn [pending set_pending]. rewrite lookup_delete_eq. split; [done|]. intros key Hne. by rewrite lookup_delete_ne, lookup_insert_ne.
Qed.

Lemma job_loop_Ok fuel did ops v : (2 <= fuel)%nat -> queued_ok v -> is_Some (pending v !! key_of did) ->
  exists ops' v', job_loop options fuel did ops v = (Ok ops', v') /\ pending v' !! key_of did = None /\ others did (pending v) (pending v').
Proof.
  intros Hf Hq [state Hs]. destruct (commits state) as [|c cs] eqn:Hcs.
  { destruct (job_loop_leaves fuel did ops v) as (v' & Hj & Hr); [lia|by rewrite Hs, <- Hcs|]. by exists ops, v'. }
  destruct fuel as [|fuel]; [lia|]. cbn [job_loop]. unfold mbind at 1, st_bind at 1, drain_commits at 1. rewrite Hs, Hcs.
  pose proof (Hq _ _ Hs) as Hc. cbv beta in Hc. rewrite Hcs in Hc. set (v1 := set_pending _ v).
  destruct (replay_runs ops (c :: cs) v1 Hc) as (ops' & v2 & Hr & Hp2). rewrite (st_bind_run _ _ _ _ _ Hr).
  destruct (job_loop_leaves fuel did ops' v2) as (v' & Hj & Hn & Ho); [lia|by rewrite Hp2; cbn; rewrite lookup_insert_eq|].
  exists ops', v'. split_and!; [done..|]. intros key Hne. rewrite (Ho key Hne), Hp2. cbn. by rewrite lookup_insert_ne.
Qed.

Lemma job_loop_spins fuel did ops v : pending v !! key_of did = None -> job_loop options fuel did ops v = (Panic, v).
Proof.
  intros Hn. induction fuel as [|fuel IH]; [done|]. cbn [job_loop]. unfold mbind, st_bind, drain_commits. rewrite Hn.
  unfold leave_if_empty. by rewrite Hn.
Qed.

Lemma resync_pending d v : pending (resync options d v).2 = pending v.
Proof. apply (holds_resync options (fun v' => pending v' = pending v)); try done. by apply holds_take_token. Qed.

Lemma job_runs fuel did v : (2 <= fuel)%nat -> parsed did -> queued_ok v ->
  let '(r, v') := run_resync_job options fuel did v in
  r = Ok () /\ pending v' !! key_of did = None /\ others did (pending v) (pending v').
Proof.
  intros Hf Hd Hq. unfold run_resync_job. unfold mbind at 1, st_bind at 1, gets. destruct (pending v !! key_of did) as [state|] eqn:Hs; [|done].
  pose proof (resync_pending did v) as Hp. destruct (moves_resync verify_no_panic options limit_small limits_nonneg did Hd v I) as [_ Hn].
  unfold mbind at 1, st_bind at 1, attempt at 1. destruct (resync options did v) as [[ops|err|] v1]; cbn [fst snd] in *; [| |done].
  - assert (Hq1 : queued_ok v1) by (unfold queued_ok; by rewrite Hp).
    destruct (job_loop_Ok fuel did ops v1) as (ops' & v2 & Hj & Hn2 & Ho2); [done|done|by rewrite Hp; eexists|].
    rewrite (st_bind_run _ _ _ _ _ Hj). rewrite Hp in Ho2.
    assert (Hend : forall new_rev v3, pending v3 = pending v2 ->
      let '(r, v') := (send_resync_event (MkResyncEvent did (old_rev state) new_rev (reason state) ops') : handler ()) v3 in
      r = Ok () /\ pending v' !! key_of did = None /\ others did (pending v) (pending v')).
    { intros new_rev v3 Hv3. unfold send_resync_event, modify. split; [done|]. assert (pending (if closed v3 then v3 else set_events (resync_events v3 ++ [MkResyncEvent did (old_rev state) new_rev (reason state) ops']) v3) = pending v2) as -> by by destruct (closed v3).
      done. }
    unfold mbind at 1, st_bind at 1, attempt, from_store. pose proof (proj1 (store_no_panic did (state_store v2))) as Hnl.
    destruct (load_chain did (state_store v2)) as [[c|]|e|]; cbn [map_err]; [| | |done].
    + by apply (Hend (c_rev c)).
    + by apply (Hend []).
    + unfold mbind, st_bind, send_async_error, modify. apply (Hend []). by destruct (closed v2).
  - unfold mbind at 1, st_bind at 1, finish_resync_job, modify at 1, send_async_error, modify. split; [done|].
    assert (Hp' : forall v3, pending (if closed v3 then v3 else set_errors (async_errors v3 ++ [err]) v3) = pending v3) by (intros v3; by destruct (closed v3)).
    rewrite Hp'. cbn. rewrite Hp, lookup_delete_eq. split; [done|apply others_delete].
Qed.

(** ** What is shown *)

(** C19. Whatever the events, the store, the directory and the archives that
    the host serves, no handler of the verifier panics, and no job does. *)
Theorem handlers_no_panic v : queued_ok v ->
  (forall raw, commit_event raw -> no_panic (verify_commit options raw v).1) /\
  (forall raw, sync_event raw -> no_panic (verify_sync options raw v).1) /\
  (forall raw, no_panic (on_account_event raw v).1) /\
  (forall d, parsed d -> no_panic (resync options d v).1) /\
  (forall d fuel, parsed d -> (2 <= fuel)%nat -> no_panic (run_resync_job options fuel d v).1).
Proof.
  intros Hq. split_and!.
  - intros raw Hraw. by apply moves_verify_commit.
  - intros raw Hraw. by apply moves_verify_sync.
  - intros raw. by apply moves_account.
  - intros d Hd. by apply moves_resync.
  - intros d fuel Hd Hf. pose proof (job_runs fuel d v Hf Hd Hq) as Hj. destruct (run_resync_job _ _ _ _) as [r v']. by destruct Hj as [-> _].
Qed.

(** C18. In whatever order the steps of the handlers and of the jobs run, the
    state kept of a repository only moves forward: a chain state, once there,
    stays or gives way to one of a greater revision, and a hosting state to
    one of a greater sequence number. *)
Theorem interleavings_move_forward v v' : rtc step v v' -> forward (state_store v) (state_store v').
Proof. apply steps_forward. Qed.

(** C22. And in whatever order they run, no queue outgrows
    [pending_queue_capacity] and the buckets do not outgrow
    [resync_limiter_capacity]. *)
Theorem interleavings_stay_bounded v v' : (1 <= resync_limiter_capacity options)%nat ->
  within_capacity v -> rtc step v v' -> within_capacity v'.
Proof. intros Hc Hv Hs. by eapply steps_within. Qed.

(** The handlers and the jobs, run from beginning to end, are sequences of
    those steps: what holds of every interleaving holds of them. *)
Lemma handlers_by_steps v : queued_ok v ->
  (forall raw, commit_event raw -> rtc step v (verify_commit options raw v).2) /\
  (forall raw, sync_event raw -> rtc step v (verify_sync options raw v).2) /\
  (forall raw, rtc step v (on_account_event raw v).2) /\
  (forall d, parsed d -> rtc step v (resync options d v).2) /\
  (forall d fuel, parsed d -> rtc step v (run_resync_job options fuel d v).2).
Proof.
  intros Hq. split_and!.
  - intros raw Hraw. by apply by_verify_commit.
  - intros raw Hraw. by apply by_verify_sync.
  - intros raw. apply rtc_once, step_account.
  - intros d Hd. by apply by_resync.
  - intros d fuel Hd. by apply by_job.
Qed.

(** C20. A resynchronisation job that runs with no step of another handler or
    job between its own ends after at most two rounds of its loop, whatever
    was queued before it and whether or not the repository could be fetched;
    its queue is gone then, and the other queues stay. (A commit that another
    handler queues while the job replays takes it a round more.) *)
Theorem resync_job_ends fuel did v : (2 <= fuel)%nat -> parsed did -> queued_ok v ->
  let '(r, v') := run_resync_job options fuel did v in
  r = Ok () /\ pending v' !! key_of did = None /\ others did (pending v) (pending v').
Proof. apply job_runs. Qed.

(** C21. Run with no other step between its own, the loop of a job ends exactly
    if its queue is there: a job whose
    queue [close] has taken away, and that is not aborted, never ends. *)
Theorem job_loop_ends_iff did ops v : queued_ok v ->
  (exists fuel ops' v', job_loop options fuel did ops v = (Ok ops', v')) <-> is_Some (pending v !! key_of did).
Proof.
  intros Hq. split.
  - intros (fuel & ops' & v' & Hj). destruct (pending v !! key_of did) eqn:Hp; [by eexists|]. by rewrite job_loop_spins in Hj.
  - intros Hs. destruct (job_loop_Ok 2 did ops v) as (ops' & v' & Hj & _); [done..|]. by exists 2%nat, ops', v'.
Qed.
End Steps.

(** ** Examples *)

#[local] Existing Instances simd_ref simd_ref_laws sha2_toy sha2_toy_laws toy_verifying ex_outside ex_environment ex_environment_laws.

Definition ex_parsed : parsed RepoCommit.ex_did := ex_intro _ _ RepoCommit.ex_did_ok.

(** A verifier that is fetching the example's repository, with a commit
    waiting. *)
Definition ex_waiting : Verifier MemStateStore () :=
  set_pending {[key_of RepoCommit.ex_did := MkPending None (ResyncRateLimited RepoCommit.ex_did) [ex_raw]]} (verifier_new ex_kept).

Lemma ex_waiting_ok : queued_ok ex_waiting.
Proof. apply map_Forall_singleton. constructor; [exact ex_raw_ok|constructor]. Qed.

Lemma ex_limits' : max_block_bytes (repo_load_limits ex_options) < usize_max.
Proof. apply ex_limits. Qed.
Lemma ex_limits'' : 0 <= max_blocks (repo_load_limits ex_options) /\ 0 <= max_block_bytes (repo_load_limits ex_options) /\
  0 <= max_car_bytes (repo_load_limits ex_options) < usize_max.
Proof. apply ex_limits. Qed.

Example handlers_no_panic_witness : no_panic (verify_commit ex_options ex_raw ex_waiting).1 /\
  no_panic (run_resync_job ex_options 2 RepoCommit.ex_did ex_waiting).1.
Proof.
  pose proof (handlers_no_panic toy_no_panic ex_options ex_limits' ex_limits'' ex_waiting ex_waiting_ok) as (Hc & _ & _ & _ & Hj).
  exact (conj (Hc ex_raw ex_raw_ok) (Hj RepoCommit.ex_did 2%nat ex_parsed (le_n 2))).
Defined.

(** The commit, then an older one. *)
Lemma ex_steps : rtc (step (S:=MemStateStore) (W:=()) ex_options) (verifier_new ex_kept) (verify_locked ex_options ex_raw true (verifier_new ex_kept)).2.
Proof. apply rtc_once, step_commit, ex_raw_ok. Qed.

Example interleavings_move_forward_witness :
  forward ex_kept (state_store (verify_locked ex_options ex_raw true (verifier_new ex_kept)).2).
Proof. exact (interleavings_move_forward toy_no_panic ex_options ex_limits' ex_limits'' _ _ ex_steps). Defined.

Example interleavings_stay_bounded_witness :
  within_capacity ex_options (verify_locked ex_options ex_raw true (verifier_new ex_kept)).2.
Proof.
  refine (interleavings_stay_bounded ex_options _ _ _ _ ex_steps); [cbn; lia|]. split; [apply map_Forall_empty|cbn; rewrite map_size_empty; lia].
Defined.

Example resync_job_ends_witness : pending (run_resync_job ex_options 2 RepoCommit.ex_did ex_waiting).2 !! key_of RepoCommit.ex_did = None.
Proof.
  pose proof (resync_job_ends toy_no_panic ex_options ex_limits' ex_limits'' 2 RepoCommit.ex_did ex_waiting (le_n 2) ex_parsed ex_waiting_ok) as Hj.
  destruct (run_resync_job _ _ _ _) as [r v']. exact (proj1 (proj2 Hj)).
Defined.

Example job_loop_ends_iff_witness :
  exists fuel ops' v', job_loop ex_options fuel RepoCommit.ex_did [] ex_waiting = (Ok ops', v').
Proof.
  apply (job_loop_ends_iff toy_no_panic ex_options RepoCommit.ex_did [] ex_waiting ex_waiting_ok).
  unfold ex_waiting. cbn [pending set_pending]. rewrite lookup_singleton_eq. by eexists.
Defined.
