(* ===== verification/StreamEvents.v ===== *)
(** The events of a stream: [src/src/streaming/event.rs] and the frame parser
    of [streaming/mod.rs].

    This parser serves clients without a verifier. It is shown to panic on no
    bytes, to give each created or updated record the bytes that hash to its
    CID, and to agree with the verifier's parser of frames wherever both give
    a commit. *)
From S2P Require Import Prelude StateError SyntaxError CborError Cid CborValue CborEncode CborDecode CborCodec.
From S2P Require Did Handle Nsid RecordKey Tid Car CarSlice RepoCommit RepoProof SyncRaw SyncInvert.

(** ** Events *)

Inductive Operation :=
| Create (collection : Nsid.Nsid) (rkey : RecordKey.RecordKey) (cid : Cid) (record : bytes)
| Update (collection : Nsid.Nsid) (rkey : RecordKey.RecordKey) (cid : Cid) (record : bytes)
| Delete (collection : Nsid.Nsid) (rkey : RecordKey.RecordKey)
| OpResync (collection : Nsid.Nsid) (rkey : RecordKey.RecordKey) (cid : option Cid) (record : bytes).

Record Label := MkLabel { src : Did.Did; uri : bytes; val : bytes; neg : bool }.

Inductive Event :=
| EventCommit (did : Did.Did) (rev : Z) (seq : Z) (operations : list Operation)
| EventIdentity (did : Did.Did) (seq : Z) (handle : option Handle.Handle)
| EventAccount (did : Did.Did) (seq : Z) (active : bool)
| EventLabels (seq : Z) (labels : list Label).

(** ** Errors *)

(** What the text of [ParseCbor] is formatted from. *)
Inductive Said :=
| Because (what : string)
| About (what : string) (text : bytes)
| OfCbor (part : string) (e : CborError)
| OfSyntax (what : string) (e : SyntaxError)
| OfCar (e : Car.CarError)
| OfRaw (e : SyncRaw.RawSyncError)
| CidMismatch (declared computed : Cid)
| AbsentBlock (action : bytes) (cid : Cid).

(** What the text of [UnknownType] is formatted from. *)
Inductive Unknown := OfTag (tag : bytes) | OfFrameOp (op : Z).

Inductive StreamError `{SyncInvert.Outside} :=
| ParseJson (m : Said)
| ParseCbor (m : Said)
| WebSocket (m : bytes)
| UnknownType (what : Unknown)
| RelayError (error : bytes) (message : option bytes)
| Verifier (e : SyncInvert.VerifierError)
| QueueOverflow (did : bytes) (seq : Z).

Section Parse.
Context `{Sha2} `{Simdutf8} `{SyncInvert.Outside}.
Abbreviation stream_res := (res StreamError).
Abbreviation Fields := (list (bytes * Value)).

Definition malformed {A} (what : string) (key : bytes) : stream_res A := Err (ParseCbor (About what key)).

(** ** Fields *)

(** The first field with the key. *)
Definition find_field (fields : Fields) (key : bytes) : option Value :=
  snd <$> List.find (fun e => bool_decide (e.1 = key)) fields.

Definition require_map (v : Value) (context : string) : stream_res Fields :=
  match v with Value.Map m => Ok m | _ => Err (ParseCbor (Because context)) end.

Definition require_text (fields : Fields) (key : bytes) : stream_res bytes :=
  match find_field fields key with
  | Some (Value.Text s) => Ok s
  | Some _ => malformed "must be a text string" key
  | None => malformed "missing" key
  end.

Definition require_int (fields : Fields) (key : bytes) : stream_res Z :=
  match find_field fields key with
  | Some (Value.Unsigned n) => if n <=? i64_max then Ok n else malformed "overflows i64" key
  | Some (Value.Signed n) => Ok n
  | Some _ => malformed "must be an integer" key
  | None => malformed "missing" key
  end.

(** The first field with the key and of the type. *)
Fixpoint optional_text (fields : Fields) (key : bytes) : option bytes :=
  match fields with
  | [] => None
  | (k, v) :: fields => match v with Value.Text s => if bool_decide (k = key) then Some s else optional_text fields key | _ => optional_text fields key end
  end.

Fixpoint optional_bool (fields : Fields) (key : bytes) : option bool :=
  match fields with
  | [] => None
  | (k, v) :: fields => match v with Value.Bool b => if bool_decide (k = key) then Some b else optional_bool fields key | _ => optional_bool fields key end
  end.

Fixpoint extract_bytes (fields : Fields) (key : bytes) : option bytes :=
  match fields with
  | [] => None
  | (k, v) :: fields => match v with Value.Bytes b => if bool_decide (k = key) then Some b else extract_bytes fields key | _ => extract_bytes fields key end
  end.

Definition extract_cid_optional (fields : Fields) (key : bytes) : option Cid :=
  match find_field fields key with Some (Value.Cid c) => Some c | _ => None end.

(** ** The header *)

(** The loop over its entries. *)
Fixpoint frame_header_fields (entries : Fields) (op : option Z) (t : option bytes) : stream_res (option Z * option bytes) :=
  match entries with
  | [] => Ok (op, t)
  | (key, v) :: entries =>
      if bool_decide (key = b# "op") then
        match v with
        | Value.Unsigned n => if n <=? i64_max then frame_header_fields entries (Some n) t else Err (ParseCbor (Because "op overflow"))
        | Value.Signed n => frame_header_fields entries (Some n) t
        | _ => Err (ParseCbor (Because "op must be an integer"))
        end
      else if bool_decide (key = b# "t") then
        match v with
        | Value.Text s => frame_header_fields entries op (Some s)
        | _ => Err (ParseCbor (Because "t must be a text string"))
        end
      else frame_header_fields entries op t
  end.

Definition extract_frame_header (header : Value) : stream_res (Z * bytes) :=
  match header with
  | Value.Map entries =>
      '(op, t) ← frame_header_fields entries None None;
      op ← ok_or (ParseCbor (Because "missing op in frame header")) op;
      t ← ok_or (ParseCbor (Because "missing t in frame header")) t;
      Ok (op, t)
  | _ => Err (ParseCbor (Because "frame header must be a CBOR map"))
  end.

(** The loop over the entries of an error frame's body. *)
Fixpoint error_fields (entries : Fields) (error message : option bytes) : option bytes * option bytes :=
  match entries with
  | [] => (error, message)
  | (key, Value.Text s) :: entries =>
      if bool_decide (key = b# "error") then error_fields entries (Some s) message
      else if bool_decide (key = b# "message") then error_fields entries error (Some s)
      else error_fields entries error message
  | _ :: entries => error_fields entries error message
  end.

Definition extract_error_frame_body (body : Value) : bytes * option bytes :=
  match body with
  | Value.Map entries => let '(error, message) := error_fields entries None None in (default (b# "Unknown") error, message)
  | _ => (b# "Unknown", None)
  end.

(** ** The blocks of a commit *)

Inductive CommitBlocks := Few (blocks : list Car.BlockRef) | Many (index : gmap Cid bytes).

Definition SCAN_MAX : nat := 32.

Definition index_blocks (blocks : list Car.BlockRef) : gmap Cid bytes :=
  foldl (fun m b => <[Car.cid b := Car.data b]> m) ∅ blocks.

Definition blocks_new (blocks : list Car.BlockRef) : CommitBlocks :=
  if (length blocks <=? SCAN_MAX)%nat then Few blocks else Many (index_blocks blocks).

Definition blocks_get (b : CommitBlocks) (c : Cid) : option bytes :=
  match b with
  | Few blocks => Car.data <$> List.find (fun b => bool_decide (Car.cid b = c)) blocks
  | Many index => index !! c
  end.

(** The loop over the blocks. *)
Fixpoint check_blocks (blocks : list Car.BlockRef) : stream_res () :=
  match blocks with
  | [] => Ok ()
  | Car.MkBlock c data :: blocks =>
      if negb (bool_decide (compute (codec c) data = c)) then Err (ParseCbor (CidMismatch c (compute (codec c) data)))
      else check_blocks blocks
  end.

Definition parse_commit_blocks (fields : Fields) : stream_res CommitBlocks :=
  match extract_bytes fields (b# "blocks") with
  | None => Ok (Few [])
  | Some car =>
      '(_, blocks) ← map_err (fun e => ParseCbor (OfCar e)) (CarSlice.read_slice car);
      _ ← check_blocks blocks;
      Ok (blocks_new blocks)
  end.

(** ** Operations *)

(** [path.split_once('/')] *)
Definition split_once (path : bytes) : option (bytes * bytes) :=
  i ← position (fun b => b =? ch_slash) path; Some (take i path, drop (S i) path).

(** The two parts of a path, parsed. *)
Definition parse_path (what_collection what_rkey : string) (path : bytes) : stream_res (Nsid.Nsid * RecordKey.RecordKey) :=
  '(collection, rkey) ← ok_or (ParseCbor (About "op path missing '/'" path)) (split_once path);
  collection ← map_err (fun e => ParseCbor (OfSyntax what_collection e)) (Nsid.try_from collection);
  rkey ← map_err (fun e => ParseCbor (OfSyntax what_rkey e)) (RecordKey.try_from rkey);
  Ok (collection, rkey).

Definition parse_op (blocks : CommitBlocks) (item : Value) : stream_res Operation :=
  fields ← require_map item "op entry";
  action ← require_text fields (b# "action");
  path ← require_text fields (b# "path");
  '(collection, rkey) ← parse_path "invalid collection" "invalid rkey" path;
  if bool_decide (action = b# "create" \/ action = b# "update") then
    cid ← ok_or (ParseCbor (About "missing cid for op" action)) (extract_cid_optional fields (b# "cid"));
    record ← ok_or (ParseCbor (AbsentBlock action cid)) (blocks_get blocks cid);
    if bool_decide (action = b# "create") then Ok (Create collection rkey cid record) else Ok (Update collection rkey cid record)
  else if bool_decide (action = b# "delete") then Ok (Delete collection rkey)
  else Err (ParseCbor (About "unknown op action" action)).

Fixpoint parse_op_list (blocks : CommitBlocks) (items : list Value) : stream_res (list Operation) :=
  match items with
  | [] => Ok []
  | item :: items => op ← parse_op blocks item; ops ← parse_op_list blocks items; Ok (op :: ops)
  end.

Definition parse_commit_ops (fields : Fields) (blocks : CommitBlocks) : stream_res (list Operation) :=
  match find_field fields (b# "ops") with
  | None => Ok []
  | Some (Value.Array items) => parse_op_list blocks items
  | Some _ => Err (ParseCbor (Because "commit ops must be an array"))
  end.

(** ** Labels *)

Definition parse_did (what : string) (s : bytes) : stream_res Did.Did := map_err (fun e => ParseCbor (OfSyntax what e)) (Did.try_from s).

Definition parse_label (item : Value) : stream_res Label :=
  fields ← require_map item "label entry";
  src ← require_text fields (b# "src");
  uri ← require_text fields (b# "uri");
  val ← require_text fields (b# "val");
  let neg := default false (optional_bool fields (b# "neg")) in
  src ← parse_did "invalid label src DID" src;
  Ok (MkLabel src uri val neg).

Fixpoint parse_label_list (items : list Value) : stream_res (list Label) :=
  match items with
  | [] => Ok []
  | item :: items => l ← parse_label item; ls ← parse_label_list items; Ok (l :: ls)
  end.

Definition parse_labels (fields : Fields) : stream_res (list Label) :=
  match find_field fields (b# "labels") with
  | None => Ok []
  | Some (Value.Array items) => parse_label_list items
  | Some _ => Err (ParseCbor (Because "labels must be an array"))
  end.

(** ** Frames *)

(** [require_text(fields, a).or_else(|_| require_text(fields, b))] *)
Definition text_or (fields : Fields) (a b : bytes) : stream_res bytes :=
  match require_text fields a with Err _ => require_text fields b | r => r end.

(** [Handle::try_from(h).ok()] *)
Definition handle_ok (s : bytes) : stream_res (option Handle.Handle) :=
  match Handle.try_from s with Ok h => Ok (Some h) | Err _ => Ok None | Panic => Panic end.

Definition parse_commit_event (fields : Fields) : stream_res Event :=
  did ← text_or fields (b# "repo") (b# "did");
  did ← parse_did "invalid DID" did;
  rev ← require_text fields (b# "rev");
  rev ← map_err (fun e => ParseCbor (OfSyntax "invalid rev TID" e)) (Tid.try_from rev);
  seq ← require_int fields (b# "seq");
  blocks ← parse_commit_blocks fields;
  operations ← parse_commit_ops fields blocks;
  Ok (EventCommit did rev seq operations).

Definition parse_identity_event (fields : Fields) : stream_res Event :=
  did ← text_or fields (b# "did") (b# "repo");
  did ← parse_did "invalid DID" did;
  seq ← require_int fields (b# "seq");
  handle ← (match optional_text fields (b# "handle") with Some h => handle_ok h | None => Ok None end);
  Ok (EventIdentity did seq handle).

Definition parse_account_event (fields : Fields) : stream_res Event :=
  did ← text_or fields (b# "did") (b# "repo");
  did ← parse_did "invalid DID" did;
  seq ← require_int fields (b# "seq");
  Ok (EventAccount did seq (default false (optional_bool fields (b# "active")))).

Definition parse_labels_event (fields : Fields) : stream_res Event :=
  seq ← require_int fields (b# "seq");
  labels ← parse_labels fields;
  Ok (EventLabels seq labels).

(** The event of a body, by the type. *)
Definition parse_event (tag : bytes) (body : Value) : stream_res Event :=
  if bool_decide (tag = b# "#commit") then fields ← require_map body "#commit"; parse_commit_event fields
  else if bool_decide (tag = b# "#identity") then fields ← require_map body "#identity"; parse_identity_event fields
  else if bool_decide (tag = b# "#account") then fields ← require_map body "#account"; parse_account_event fields
  else if bool_decide (tag = b# "#labels") then fields ← require_map body "#labels"; parse_labels_event fields
  else Err (UnknownType (OfTag tag)).

Definition parse_firehose_frame (data : bytes) : stream_res Event :=
  let '(header, dec) := decode data new in
  header ← map_err (fun e => ParseCbor (OfCbor "header" e)) header;
  '(op, tag) ← extract_frame_header header;
  if op =? -1 then
    let '(body, _) := decode data dec in
    body ← map_err (fun e => ParseCbor (OfCbor "error frame body" e)) body;
    let '(error, message) := extract_error_frame_body body in Err (RelayError error message)
  else if negb (op =? 1) then Err (UnknownType (OfFrameOp op))
  else
    let '(body, dec) := decode data dec in
    body ← map_err (fun e => ParseCbor (OfCbor "body" e)) body;
    if negb (is_empty data dec) then Err (ParseCbor (Because "trailing data after frame body"))
    else parse_event tag body.
End Parse.

(** ** No frame makes the parser panic, and records hash to their CIDs *)

(** What an event carries as the record of a CID is what the CID hashes. *)
Definition authentic `{Sha2} (op : Operation) : Prop :=
  match op with Create _ _ c record | Update _ _ c record => compute (codec c) record = c | _ => True end.

Definition authentic_event `{Sha2} (e : Event) : Prop := match e with EventCommit _ _ _ ops => Forall authentic ops | _ => True end.

Section Safe.
Context `{Sha2} `{Simdutf8Laws} `{SyncInvert.Outside}.

(** An outcome that is not a panic, and whose value has a property. *)
Definition fine {A} (Q : A -> Prop) (r : res StreamError A) : Prop := match r with Ok a => Q a | Err _ => True | Panic => False end.

Lemma fine_bind {A B} (P : A -> Prop) (Q : B -> Prop) (m : res StreamError A) f : fine P m -> (forall a, P a -> fine Q (f a)) -> fine Q (m ≫= f).
Proof. destruct m; cbn; auto. Qed.
Lemma fine_weaken {A} (P Q : A -> Prop) (r : res StreamError A) : fine P r -> (forall a, P a -> Q a) -> fine Q r.
Proof. destruct r; cbn; auto. Qed.
Lemma fine_total {A} (m : res StreamError A) : no_panic m -> fine (fun _ => True) m.
Proof. by destruct m. Qed.
Lemma fine_then {A B} (Q : B -> Prop) (m : res StreamError A) f : no_panic m -> (forall a, fine Q (f a)) -> fine Q (m ≫= f).
Proof. intros Hm Hf. eapply fine_bind; [by apply fine_total|auto]. Qed.
Lemma fine_no_panic {A} Q (m : res StreamError A) : fine Q m -> no_panic m.
Proof. by destruct m. Qed.

Lemma required_no_panic fields key : no_panic (require_text fields key) /\ no_panic (require_int fields key).
Proof.
  unfold require_text, require_int. destruct (find_field fields key) as [[n| | | | | | | | |]|]; split; try done. by destruct (n <=? i64_max).
Qed.
Lemma require_map_no_panic v c : no_panic (require_map v c).
Proof. by destruct v. Qed.
Lemma parse_did_no_panic what s : no_panic (parse_did what s).
Proof. apply no_panic_map_err, SyncRaw.did_try_from_no_panic. Qed.
Lemma text_or_no_panic fields a b : no_panic (text_or fields a b).
Proof.
  unfold text_or. pose proof (proj1 (required_no_panic fields a)). destruct (require_text fields a); [done| |done]. apply required_no_panic.
Qed.
Lemma handle_ok_no_panic s : no_panic (handle_ok s).
Proof. unfold handle_ok. pose proof (SyncRaw.handle_try_from_no_panic s). by destruct (Handle.try_from s). Qed.

Lemma header_no_panic v : no_panic (extract_frame_header v).
Proof.
  assert (Hf : forall entries op t, no_panic (frame_header_fields entries op t)).
  { induction entries as [|[k v'] entries IH]; intros op t; cbn [frame_header_fields]; [done|].
    repeat case_bool_decide; [destruct v' as [n| | | | | | | | |]; try done; by destruct (n <=? i64_max)|by destruct v'|done]. }
  destruct v; try done. cbn [extract_frame_header]. apply no_panic_bind; [apply Hf|]. intros [op t] _.
  apply no_panic_bind; [apply no_panic_ok_or|]. intros o _. by apply no_panic_bind; [apply no_panic_ok_or|].
Qed.

Lemma rkey_try_from_no_panic s : no_panic (RecordKey.try_from s).
Proof. apply no_panic_bind; [apply RecordKey.record_key_validate_no_panic|done]. Qed.

Lemma parse_path_no_panic a b path : no_panic (parse_path a b path).
Proof.
  unfold parse_path. apply no_panic_bind; [apply no_panic_ok_or|]. intros [c r] _.
  apply no_panic_bind; [apply no_panic_map_err, Nsid.nsid_try_from_no_panic|]. intros col _.
  apply no_panic_bind; [apply no_panic_map_err, rkey_try_from_no_panic|done].
Qed.

(** The blocks kept hash to their CIDs. *)
Definition blocks_hashed (b : CommitBlocks) : Prop := forall c data, blocks_get b c = Some data -> compute (codec c) data = c.

Lemma check_blocks_Ok blocks : fine (fun _ => Forall (fun b => compute (codec (Car.cid b)) (Car.data b) = Car.cid b) blocks) (check_blocks blocks).
Proof.
  induction blocks as [|[c d] blocks IH]; cbn [check_blocks fine]; [constructor|]. case_bool_decide as Hc; cbn [negb]; [|done].
  destruct (check_blocks blocks); cbn in *; [|done..]. by constructor.
Qed.

Lemma index_blocks_spec blocks (m : gmap Cid bytes) c data :
  foldl (fun m b => <[Car.cid b := Car.data b]> m) m blocks !! c = Some data -> m !! c = Some data \/ Car.MkBlock c data ∈ blocks.
Proof.
  revert m. induction blocks as [|[c0 d0] blocks IH]; intros m; cbn [foldl]; [by left|].
  intros [[[<- <-]|[_ Hm]]%lookup_insert_Some|Hin]%IH; rewrite elem_of_cons; auto.
Qed.

Lemma blocks_get_in blocks c data : blocks_get (blocks_new blocks) c = Some data -> Car.MkBlock c data ∈ blocks.
Proof.
  unfold blocks_new. destruct (_ <=? _)%nat; cbn [blocks_get].
  - intros (b & Hb & ->)%fmap_Some. apply find_some in Hb as [Hin Hc]. apply bool_decide_eq_true in Hc. subst c. apply list_elem_of_In. by destruct b.
  - intros [Hl|Hin]%index_blocks_spec; [by rewrite lookup_empty in Hl|done].
Qed.

Lemma parse_commit_blocks_fine fields : (forall b, extract_bytes fields (b# "blocks") = Some b -> Forall is_u8 b) ->
  fine blocks_hashed (parse_commit_blocks fields).
Proof.
  intros Hu. unfold parse_commit_blocks. destruct (extract_bytes fields _) as [car|]; [|by intros c data].
  apply fine_then; [by apply no_panic_map_err, CarSlice.read_slice_no_panic, Hu|]. intros [roots blocks].
  eapply fine_bind; [apply check_blocks_Ok|]. intros [] Hh c data Hg%blocks_get_in. rewrite Forall_forall in Hh. by apply Hh in Hg.
Qed.

Lemma parse_op_fine blocks item : blocks_hashed blocks -> fine authentic (parse_op blocks item).
Proof.
  intros Hb. unfold parse_op. apply fine_then; [apply require_map_no_panic|]. intros fields.
  apply fine_then; [apply required_no_panic|]. intros action. apply fine_then; [apply required_no_panic|]. intros path.
  apply fine_then; [apply parse_path_no_panic|]. intros [col rkey]. case_bool_decide; [|by case_bool_decide].
  apply fine_then; [apply no_panic_ok_or|]. intros c. destruct (blocks_get blocks c) as [record|] eqn:Hr; [|done]. cbn [ok_or mbind res_bind].
  by case_bool_decide; cbn; apply Hb.
Qed.

Lemma parse_op_list_fine blocks items : blocks_hashed blocks -> fine (Forall authentic) (parse_op_list blocks items).
Proof.
  intros Hb. induction items as [|item items IH]; cbn [parse_op_list]; [constructor|]. eapply fine_bind; [by apply parse_op_fine|].
  intros op Hop. eapply fine_bind; [exact IH|]. intros ops Hops. by constructor.
Qed.

Lemma parse_labels_no_panic fields : no_panic (parse_labels fields).
Proof.
  assert (Hl : forall items, no_panic (parse_label_list items)).
  { induction items as [|item items IH]; cbn [parse_label_list]; [done|]. apply no_panic_bind; [|intros l _; by apply no_panic_bind].
    unfold parse_label. apply no_panic_bind; [apply require_map_no_panic|]. intros f _.
    do 3 (apply no_panic_bind; [apply required_no_panic|]; intros ? _). cbv zeta. by apply no_panic_bind; [apply parse_did_no_panic|]. }
  unfold parse_labels. by destruct (find_field fields _) as [[]|].
Qed.

Lemma parse_event_fine tag body : (forall fields b, body = Value.Map fields -> extract_bytes fields (b# "blocks") = Some b -> Forall is_u8 b) ->
  fine authentic_event (parse_event tag body).
Proof.
  intros Hu. unfold parse_event. repeat case_bool_decide; [| | | |done];
    (destruct body as [| | | | | | | | |fields]; try done; cbn [require_map mbind res_bind]).
  - unfold parse_commit_event. apply fine_then; [apply text_or_no_panic|]. intros did. apply fine_then; [apply parse_did_no_panic|]. intros did'.
    apply fine_then; [apply required_no_panic|]. intros rv. apply fine_then; [apply no_panic_map_err, RepoCommit.tid_try_from_no_panic|]. intros rev.
    apply fine_then; [apply required_no_panic|]. intros seq. eapply fine_bind; [apply parse_commit_blocks_fine; intros b Hb; by apply (Hu fields b)|]. intros blocks Hb.
    eapply fine_bind; [|intros ops Hops; exact Hops]. unfold parse_commit_ops. destruct (find_field fields _) as [[]|]; try done; [by apply parse_op_list_fine|constructor].
  - unfold parse_identity_event. apply fine_then; [apply text_or_no_panic|]. intros did. apply fine_then; [apply parse_did_no_panic|]. intros did'.
    apply fine_then; [apply required_no_panic|]. intros seq. apply fine_then; [|done]. destruct (optional_text _ _); [apply handle_ok_no_panic|done].
  - unfold parse_account_event. apply fine_then; [apply text_or_no_panic|]. intros did. apply fine_then; [apply parse_did_no_panic|]. intros did'.
    by apply fine_then; [apply required_no_panic|].
  - unfold parse_labels_event. apply fine_then; [apply required_no_panic|]. intros seq. by apply fine_then; [apply parse_labels_no_panic|].
Qed.
End Safe.

(** ** The two parsers agree *)

Section Agree.
Context `{Sha2} `{Simdutf8Laws} `{SyncInvert.Outside}.

(** A field is found alike whether the first or the last with its key is
    taken, as no key is there twice. *)
Lemma find_field_cons (k : bytes) (v : Value) fields key :
  find_field ((k, v) :: fields) key = if decide (k = key) then Some v else find_field fields key.
Proof. unfold find_field. cbn [List.find fst]. case_bool_decide; case_decide; done. Qed.

Lemma find_field_fresh fields key : key ∉ fields.*1 -> find_field fields key = None.
Proof.
  unfold find_field. intros Hn. destruct (List.find _ fields) as [[k v]|] eqn:Hf; [|done].
  apply find_some in Hf as [Hin Hk%bool_decide_eq_true]. cbn in Hk. subst k. destruct Hn. apply list_elem_of_fmap. exists (key, v).
  split; [done|by apply list_elem_of_In].
Qed.

Lemma typed_reads fields key : NoDup fields.*1 ->
  optional_text fields key = match find_field fields key with Some (Value.Text s) => Some s | _ => None end /\
  optional_bool fields key = match find_field fields key with Some (Value.Bool b) => Some b | _ => None end /\
  extract_bytes fields key = match find_field fields key with Some (Value.Bytes b) => Some b | _ => None end.
Proof.
  induction fields as [|[k v] fields IH]; [done|]. cbn [fmap list_fmap fst]. intros [Hn Hnd]%NoDup_cons.
  destruct (IH Hnd) as (IHt & IHb & IHx). rewrite find_field_cons. cbn [optional_text optional_bool extract_bytes].
  rewrite !bool_decide_decide. case_decide as Hk; [subst k|].
  - rewrite (find_field_fresh fields key Hn) in *. by destruct v.
  - rewrite IHt, IHb, IHx. by destruct v.
Qed.

Lemma frame_header_fields_find entries (op : option Z) (t : option bytes) n s : NoDup entries.*1 ->
  match find_field entries (b# "op") with Some v => SyncRaw.as_int v = Some n | None => op = Some n end ->
  match find_field entries (b# "t") with Some v => SyncRaw.as_text v = Some s | None => t = Some s end ->
  frame_header_fields entries op t = Ok (Some n, Some s).
Proof.
  revert op t. induction entries as [|[k v] entries IH]; intros op t; [cbn; by intros _ -> ->|].
  cbn [fmap list_fmap fst]. intros [Hn Hnd]%NoDup_cons. rewrite !find_field_cons. cbn [frame_header_fields]. rewrite !bool_decide_decide.
  repeat case_decide; subst; try done.
  - intros Hv Ht. pose proof (find_field_fresh entries _ Hn) as Hf. specialize (IH (Some n) t Hnd). rewrite Hf in IH. specialize (IH eq_refl Ht).
    destruct v as [m|m| | | | | | | |]; cbn [SyncRaw.as_int] in Hv; try done; [|by injection Hv as ->].
    destruct (m <=? i64_max); [by injection Hv as ->|done].
  - intros Ho Hv. pose proof (find_field_fresh entries _ Hn) as Hf. specialize (IH op (Some s) Hnd). rewrite Hf in IH. specialize (IH Ho eq_refl).
    destruct v; try done. cbn in Hv. by injection Hv as ->.
  - by apply IH.
Qed.

Lemma require_text_reads fields key s : SyncRaw.required SyncRaw.as_text fields key s -> require_text fields key = Ok s.
Proof. intros (v & Hf & Hv). unfold require_text. change (find_field fields key) with (SyncRaw.field_value fields key). rewrite Hf. destruct v; try done. cbn in Hv. by injection Hv as ->. Qed.
Lemma require_int_reads fields key n : SyncRaw.required SyncRaw.as_int fields key n -> require_int fields key = Ok n.
Proof.
  intros (v & Hf & Hv). unfold require_int. change (find_field fields key) with (SyncRaw.field_value fields key). rewrite Hf.
  destruct v as [m|m| | | | | | | |]; cbn [SyncRaw.as_int] in Hv; try done; [|by injection Hv as ->]. destruct (m <=? i64_max); [by injection Hv as ->|done].
Qed.

(** An operation of the one parser, and that of the other. *)
Definition same_op (raw : SyncRaw.RawRepoOp) (op : Operation) : Prop :=
  exists collection rkey, split_once (SyncRaw.path raw) = Some (collection, rkey) /\
  match op with
  | Create c r cid _ => Nsid.try_from collection = Ok c /\ RecordKey.try_from rkey = Ok r /\ SyncRaw.action raw = b# "create" /\ SyncRaw.op_cid raw = Some cid
  | Update c r cid _ => Nsid.try_from collection = Ok c /\ RecordKey.try_from rkey = Ok r /\ SyncRaw.action raw = b# "update" /\ SyncRaw.op_cid raw = Some cid
  | Delete c r => Nsid.try_from collection = Ok c /\ RecordKey.try_from rkey = Ok r /\ SyncRaw.action raw = b# "delete"
  | OpResync _ _ _ _ => False
  end.

Lemma parse_path_Ok a b path c r : parse_path a b path = Ok (c, r) ->
  exists x y, split_once path = Some (x, y) /\ Nsid.try_from x = Ok c /\ RecordKey.try_from y = Ok r.
Proof.
  unfold parse_path. intros ([x y] & Hs%ok_or_Ok & (c' & Hc%map_err_Ok & (r' & Hr%map_err_Ok & [= <- <-])%res_bind_Ok)%res_bind_Ok)%res_bind_Ok.
  by exists x, y.
Qed.

(** What makes an operation of a commit one that the plain parser reads: its
    path has a collection and a record key, and the record that it creates or
    updates is in the archive. *)
Definition op_readable (blocks : list Car.BlockRef) (raw : SyncRaw.RawRepoOp) : Prop :=
  (exists x y c r, split_once (SyncRaw.path raw) = Some (x, y) /\ Nsid.try_from x = Ok c /\ RecordKey.try_from y = Ok r) /\
  ((SyncRaw.action raw = b# "create" \/ SyncRaw.action raw = b# "update") /\ (exists k d, SyncRaw.op_cid raw = Some k /\ Car.MkBlock k d ∈ blocks) \/
   SyncRaw.action raw = b# "delete").

(** A commit that it reads: the blocks are an archive, hash to their CIDs and
    have what every operation needs. *)
Definition commit_readable (c : SyncRaw.RawCommit) (blocks : list Car.BlockRef) : Prop :=
  (exists roots, CarSlice.read_slice (SyncRaw.blocks c) = Ok (roots, blocks)) /\
  Forall (fun b => compute (codec (Car.cid b)) (Car.data b) = Car.cid b) blocks /\ Forall (op_readable blocks) (SyncRaw.ops c).

Definition record_among (blocks : list Car.BlockRef) (op : Operation) : Prop :=
  match op with Create _ _ k d | Update _ _ k d => Car.MkBlock k d ∈ blocks | _ => True end.

(** The event of the one parser, and that of the other. *)
Definition same_event (raw : SyncRaw.RawSyncEvent) (r : res StreamError Event) : Prop :=
  match raw, r with
  | SyncRaw.EvCommit c, Ok (EventCommit did rev seq ops) =>
      did = SyncRaw.repo c /\ rev = SyncRaw.rev c /\ seq = SyncRaw.seq c /\ Forall2 same_op (SyncRaw.ops c) ops /\
      exists blocks, commit_readable c blocks /\ Forall (record_among blocks) ops
  | SyncRaw.EvCommit c, Err e => (exists m, e = ParseCbor m) /\ forall blocks, ~ commit_readable c blocks
  | SyncRaw.EvIdentity i, Ok (EventIdentity did seq handle) => did = SyncRaw.i_did i /\ seq = SyncRaw.i_seq i /\ handle = SyncRaw.i_handle i
  | SyncRaw.EvAccount a, Ok (EventAccount did seq active) => did = SyncRaw.a_did a /\ seq = SyncRaw.a_seq a /\ active = SyncRaw.a_active a
  | SyncRaw.EvSync _, Err e | SyncRaw.EvInfo, Err e => exists t, e = UnknownType t
  | _, _ => False
  end.

Lemma parse_path_Err a b path e : parse_path a b path = Err e ->
  ~ exists x y c r, split_once path = Some (x, y) /\ Nsid.try_from x = Ok c /\ RecordKey.try_from y = Ok r.
Proof. unfold parse_path. intros Hp (x & y & c & r & Hs & Hc & Hr). rewrite Hs in Hp. cbn in Hp. rewrite Hc in Hp. cbn in Hp. by rewrite Hr in Hp. Qed.

Lemma cid_reads fields key o : SyncRaw.optional SyncRaw.as_cid fields key o -> extract_cid_optional fields key = o.
Proof.
  unfold SyncRaw.optional, extract_cid_optional. change (SyncRaw.field_value fields key) with (find_field fields key).
  destruct (find_field fields key) as [[| | | | | | |c| |]|]; intros Ho; try done; try (by destruct Ho as (? & ? & _)). by destruct Ho as (c' & [= ->] & ->).
Qed.

Lemma blocks_get_some blocks c data : Car.MkBlock c data ∈ blocks -> exists d, blocks_get (blocks_new blocks) c = Some d.
Proof.
  intros Hin. unfold blocks_new. destruct (_ <=? _)%nat; cbn [blocks_get].
  - destruct (List.find (fun b => bool_decide (Car.cid b = c)) blocks) as [b|] eqn:Hf; [by exists (Car.data b)|]. apply list_elem_of_In in Hin. pose proof (find_none _ _ Hf _ Hin) as Hn. cbn in Hn.
    by rewrite bool_decide_true in Hn.
  - unfold index_blocks. generalize (∅ : gmap Cid bytes) as m. assert (Hkeep : forall blocks (m : gmap Cid bytes), is_Some (m !! c) ->
      is_Some (foldl (fun m b => <[Car.cid b := Car.data b]> m) m blocks !! c)).
    { clear. induction blocks as [|b blocks IH]; intros m Hm; [done|]. apply IH. destruct (decide (Car.cid b = c)) as [<-|Hne];
        [rewrite lookup_insert_eq; by eexists|by rewrite lookup_insert_ne]. }
    apply list_elem_of_split in Hin as (l & k & ->). intros m. rewrite foldl_app. cbn [foldl]. apply Hkeep. cbn. rewrite lookup_insert_eq. by eexists.
Qed.

(** What the parser makes of an operation. *)
Lemma parse_op_same blocks item raw : SyncRaw.op_means item raw ->
  match parse_op (blocks_new blocks) item with
  | Ok op => op_readable blocks raw /\ same_op raw op /\ record_among blocks op
  | Err _ => ~ op_readable blocks raw
  | Panic => True
  end.
Proof.
  intros (fields & -> & Ha & Hp & Hc%cid_reads & _). unfold parse_op. cbn [require_map mbind res_bind].
  rewrite (require_text_reads _ _ _ Ha). cbn [mbind res_bind]. rewrite (require_text_reads _ _ _ Hp). cbn [mbind res_bind]. rewrite Hc.
  destruct (parse_path _ _ _) as [[c r]|e|] eqn:Hpath; cbn [mbind res_bind]; [|intros [Hr _]; by apply parse_path_Err in Hpath|done].
  apply parse_path_Ok in Hpath as (x & y & Hs & Hx & Hy). assert (Hparts : exists x y c r, split_once (SyncRaw.path raw) = Some (x, y) /\
    Nsid.try_from x = Ok c /\ RecordKey.try_from y = Ok r) by (by exists x, y, c, r).
  case_bool_decide as Hact.
  - assert (Hnot : SyncRaw.action raw <> b# "delete") by (intros Hd; rewrite Hd in Hact; by destruct Hact).
    destruct (SyncRaw.op_cid raw) as [cid|] eqn:Hcid; cbn [ok_or mbind res_bind]; [|intros [_ [[_ (k & d & Hk & _)]|?]]; [congruence|done]].
    destruct (blocks_get _ cid) as [record|] eqn:Hg; cbn [ok_or mbind res_bind].
    + apply blocks_get_in in Hg. assert (op_readable blocks raw) by (split; [done|left; split; [done|]; by exists cid, record]).
      case_bool_decide as Hcr; (split; [done|]); (split; [|done]); exists x, y; split_and!; try done. by destruct Hact.
    + intros [_ [[_ (k & d & Hk & Hin)]|?]]; [|done]. rewrite Hcid in Hk. injection Hk as <-. apply blocks_get_some in Hin as [d' Hd']. congruence.
  - case_bool_decide as Hd.
    + split; [by split; [|right]|]. split; [by exists x, y|done].
    + intros [_ [[Hcu _]|?]]; done.
Qed.

Lemma parse_op_list_same blocks items raws : Forall2 SyncRaw.op_means items raws ->
  match parse_op_list (blocks_new blocks) items with
  | Ok ops => Forall (op_readable blocks) raws /\ Forall2 same_op raws ops /\ Forall (record_among blocks) ops
  | Err _ => ~ Forall (op_readable blocks) raws
  | Panic => True
  end.
Proof.
  intros Hm. induction Hm as [|item raw items raws Hi _ IH]; cbn [parse_op_list]; [by split_and!; constructor|].
  pose proof (parse_op_same blocks item raw Hi) as Hop. destruct (parse_op _ item) as [op|e|]; cbn [mbind res_bind]; [|by intros [? _]%Forall_cons|done].
  destruct Hop as (? & ? & ?). destruct (parse_op_list _ items) as [ops|e|]; cbn [mbind res_bind]; [|by intros [_ ?]%Forall_cons|done].
  destruct IH as (? & ? & ?). by split_and!; constructor.
Qed.

Lemma check_blocks_iff blocks : check_blocks blocks = Ok () <-> Forall (fun b => compute (codec (Car.cid b)) (Car.data b) = Car.cid b) blocks.
Proof.
  induction blocks as [|[c d] blocks IH]; cbn [check_blocks]; [by split|]. rewrite Forall_cons, <- IH. cbn. case_bool_decide; cbn [negb]; naive_solver.
Qed.

(** The blocks of a commit, where the field is there. *)
Lemma parse_commit_blocks_same fields c : NoDup fields.*1 -> SyncRaw.required SyncRaw.as_bytes fields (b# "blocks") (SyncRaw.blocks c) ->
  match parse_commit_blocks fields with
  | Ok b => exists roots blocks, CarSlice.read_slice (SyncRaw.blocks c) = Ok (roots, blocks) /\ b = blocks_new blocks /\
      Forall (fun b => compute (codec (Car.cid b)) (Car.data b) = Car.cid b) blocks
  | Err _ => forall blocks, ~ commit_readable c blocks
  | Panic => True
  end.
Proof.
  intros Hnd (v & Hf & Hv). unfold parse_commit_blocks. rewrite (proj2 (proj2 (typed_reads fields _ Hnd))).
  change (SyncRaw.field_value fields (b# "blocks")) with (find_field fields (b# "blocks")) in Hf. rewrite Hf. destruct v; try done. injection Hv as ->.
  destruct (CarSlice.read_slice _) as [[roots blocks]|e|] eqn:Hread; cbn [map_err mbind res_bind]; [|intros blocks [[roots Hr] _]; congruence|done].
  destruct (check_blocks blocks) as [[]|e|] eqn:Hc; cbn [mbind res_bind]; [|intros blocks' ([roots' Hr] & Hh & _)|done].
  - exists roots, blocks. by rewrite <- check_blocks_iff.
  - assert (blocks' = blocks) as -> by congruence. apply check_blocks_iff in Hh. congruence.
Qed.

(** Errors that are [ParseCbor]s. *)
Definition only_cbor {A} (r : res StreamError A) : Prop := match r with Err e => exists m, e = ParseCbor m | _ => True end.

Lemma only_cbor_bind {A B} (m : res StreamError A) (f : A -> res StreamError B) : only_cbor m -> (forall a, m = Ok a -> only_cbor (f a)) -> only_cbor (m ≫= f).
Proof. destruct m; cbn; auto. Qed.
Lemma only_cbor_map_err {E A} (g : E -> Said) (m : res E A) : only_cbor (map_err (fun e => ParseCbor (g e)) m).
Proof. destruct m; cbn; eauto. Qed.
Lemma only_cbor_ok_or {A} m (o : option A) : only_cbor (ok_or (ParseCbor m) o).
Proof. destruct o; cbn; eauto. Qed.
Lemma only_cbor_require fields key : only_cbor (require_text fields key) /\ only_cbor (require_int fields key).
Proof.
  unfold require_text, require_int, malformed, only_cbor. destruct (find_field fields key) as [[n| | | | | | | | |]|]; split; eauto. destruct (n <=? i64_max); eauto.
Qed.
Lemma only_cbor_map v c : only_cbor (require_map v c).
Proof. destruct v; cbn; eauto. Qed.

Lemma only_cbor_op blocks item : only_cbor (parse_op blocks item).
Proof.
  unfold parse_op. apply only_cbor_bind; [apply only_cbor_map|]. intros f _. do 2 (apply only_cbor_bind; [apply only_cbor_require|]; intros ? _).
  apply only_cbor_bind.
  { unfold parse_path. apply only_cbor_bind; [apply only_cbor_ok_or|]. intros [x y] _.
    do 2 (apply only_cbor_bind; [apply only_cbor_map_err|]; intros ? _). done. }
  intros [c r] _. case_bool_decide; [|case_bool_decide; cbn; eauto].
  apply only_cbor_bind; [apply only_cbor_ok_or|]. intros cid _. apply only_cbor_bind; [apply only_cbor_ok_or|]. intros record _. by case_bool_decide.
Qed.

Lemma only_cbor_commit fields : only_cbor (blocks ← parse_commit_blocks fields; ops ← parse_commit_ops fields blocks; Ok (blocks, ops)).
Proof.
  apply only_cbor_bind.
  - unfold parse_commit_blocks. destruct (extract_bytes _ _); [|done]. apply only_cbor_bind; [apply only_cbor_map_err|]. intros [rs bs] _.
    apply only_cbor_bind; [|done]. induction bs as [|[c d] bs IH]; cbn [check_blocks]; [done|]. case_bool_decide; cbn [negb]; [done|cbn; eauto].
  - intros blocks _. apply only_cbor_bind; [|done]. unfold parse_commit_ops. destruct (find_field _ _) as [[]|]; try (cbn; eauto; done).
    induction items as [|item items IH]; cbn [parse_op_list]; [done|]. apply only_cbor_bind; [apply only_cbor_op|]. intros op _. by apply only_cbor_bind.
Qed.

Lemma text_or_reads fields a b s : SyncRaw.required SyncRaw.as_text fields a s -> text_or fields a b = Ok s.
Proof. intros Hs. unfold text_or. by rewrite (require_text_reads _ _ _ Hs). Qed.

Lemma parse_did_reads what s d : Did.try_from s = Ok d -> parse_did what s = Ok d.
Proof. intros Hd. unfold parse_did. by rewrite Hd. Qed.

Lemma commit_agrees fields c : NoDup fields.*1 -> SyncRaw.commit_means fields c -> no_panic (parse_commit_event fields) ->
  same_event (SyncRaw.EvCommit c) (parse_commit_event fields).
Proof.
  intros Hnd [(did & Hdid & Hd) (rv & Hrv & Hr) Hseq _ _ _ Hblocks Hops _ _ _ _] Hnp. unfold parse_commit_event in *.
  rewrite (text_or_reads _ _ _ _ Hdid) in *. cbn [mbind res_bind] in *. rewrite (parse_did_reads _ _ _ Hd) in *. cbn [mbind res_bind] in *.
  rewrite (require_text_reads _ _ _ Hrv) in *. cbn [mbind res_bind] in *. rewrite Hr in *. cbn [map_err mbind res_bind] in *.
  rewrite (require_int_reads _ _ _ Hseq) in *. cbn [mbind res_bind] in *. pose proof (only_cbor_commit fields) as Hoc.
  pose proof (parse_commit_blocks_same fields c Hnd Hblocks) as Hb.
  destruct (parse_commit_blocks fields) as [bs|e|]; cbn [mbind res_bind] in *; [|by split|by destruct Hnp].
  destruct Hb as (roots & blocks & Hread & -> & Hh).
  assert (Hp : match parse_commit_ops fields (blocks_new blocks) with
    | Ok ops => Forall (op_readable blocks) (SyncRaw.ops c) /\ Forall2 same_op (SyncRaw.ops c) ops /\ Forall (record_among blocks) ops
    | Err _ => ~ Forall (op_readable blocks) (SyncRaw.ops c)
    | Panic => True
    end).
  { unfold parse_commit_ops, SyncRaw.listed in *. change (SyncRaw.field_value fields (b# "ops")) with (find_field fields (b# "ops")) in Hops.
    destruct (find_field fields (b# "ops")) as [[]|]; try done; [by apply parse_op_list_same|]. rewrite Hops. by split_and!; constructor. }
  destruct (parse_commit_ops fields _) as [ops|e|]; cbn [mbind res_bind] in *; [|split; [exact Hoc|]|by destruct Hnp].
  - destruct Hp as (Hr1 & Hr2 & Hr3). split_and!; [done..|]. exists blocks. split; [|done]. split; [by exists roots|done].
  - intros blocks' ([roots' Hr'] & _ & Hall). assert (blocks' = blocks) as -> by congruence. done.
Qed.

Lemma identity_agrees fields i : NoDup fields.*1 -> SyncRaw.identity_means fields i ->
  same_event (SyncRaw.EvIdentity i) (parse_identity_event fields).
Proof.
  intros Hnd [(did & Hdid & Hd) Hseq _ (h & Hopt & Hh)]. unfold parse_identity_event.
  rewrite (text_or_reads _ _ _ _ Hdid). cbn [mbind res_bind]. rewrite (parse_did_reads _ _ _ Hd). cbn [mbind res_bind].
  rewrite (require_int_reads _ _ _ Hseq). cbn [mbind res_bind]. rewrite (proj1 (typed_reads fields _ Hnd)).
  unfold SyncRaw.optional in Hopt. change (SyncRaw.field_value fields (b# "handle")) with (find_field fields (b# "handle")) in Hopt.
  destruct (find_field fields (b# "handle")) as [[]|]; try (destruct Hopt as (a & Ha & ->); discriminate Ha); try (subst h; cbn; done).
  destruct Hopt as (a & [= <-] & ->). destruct Hh as (hd & Hhd & Hi). unfold handle_ok. by rewrite Hhd.
Qed.

Lemma account_agrees fields a : NoDup fields.*1 -> SyncRaw.account_means fields a ->
  same_event (SyncRaw.EvAccount a) (parse_account_event fields).
Proof.
  intros Hnd [(did & Hdid & Hd) Hseq _ (v & Hv & Hb) _]. unfold parse_account_event.
  rewrite (text_or_reads _ _ _ _ Hdid). cbn [mbind res_bind]. rewrite (parse_did_reads _ _ _ Hd). cbn [mbind res_bind].
  rewrite (require_int_reads _ _ _ Hseq). cbn [mbind res_bind]. rewrite (proj1 (proj2 (typed_reads fields _ Hnd))).
  change (SyncRaw.field_value fields (b# "active")) with (find_field fields (b# "active")) in Hv. rewrite Hv.
  destruct v; try done. cbn in Hb. by injection Hb as ->.
Qed.

Lemma canonical_keys fields : canonical 0 (Value.Map fields) -> NoDup fields.*1.
Proof. inversion 1; subst. by apply keys_sorted_nodup. Qed.

(** What the frame parser does with a frame that the verifier's parser reads. *)
Lemma parse_firehose_frame_means data raw : Forall is_u8 data -> Z.of_nat (length data) <= i64_max -> SyncRaw.frame_means data raw ->
  exists tag fields, parse_firehose_frame data = parse_event tag (Value.Map fields) /\ NoDup fields.*1 /\ SyncRaw.event_means tag fields raw.
Proof.
  intros Hu Hl (hf & tag & fields & Hch & Hcf & Hd & (vo & Ho & Hop) & (vt & Ht & Htag) & Hm). exists tag, fields.
  split; [|by split; [apply canonical_keys|]].
  destruct (proj2 (SyncRaw.two_values data _ _ _ Hu Hl) (conj Hch (conj Hcf (conj Hd eq_refl)))) as (s & Hdec & Hb & He).
  unfold parse_firehose_frame. rewrite Hdec. cbn [map_err mbind res_bind extract_frame_header].
  rewrite (frame_header_fields_find hf None None 1 tag); [|by apply canonical_keys| |].
  - cbn [mbind res_bind ok_or]. cbn [Z.eqb Pos.eqb negb]. rewrite Hb. cbn [map_err mbind res_bind]. by rewrite He.
  - change (find_field hf (b# "op")) with (SyncRaw.field_value hf (b# "op")). by rewrite Ho.
  - change (find_field hf (b# "t")) with (SyncRaw.field_value hf (b# "t")). by rewrite Ht.
Qed.

Lemma fields_bytes fields b : canonical 0 (Value.Map fields) -> extract_bytes fields (b# "blocks") = Some b -> Forall is_u8 b.
Proof.
  intros Hc Hb. rewrite (proj2 (proj2 (typed_reads fields _ (canonical_keys _ Hc)))) in Hb.
  destruct (find_field fields _) as [v|] eqn:Hf; [|done]. destruct v; try done. injection Hb as ->. unfold find_field in Hf.
  destruct (List.find _ fields) as [[k v']|] eqn:Hfind; [|done]. injection Hf as ->. apply find_some in Hfind as [Hin _].
  inversion Hc as [| | | | | | | | |? ? _ _ _ _ Hcv]; subst. rewrite Forall_forall in Hcv. specialize (Hcv _ (proj2 (list_elem_of_In _ _) Hin)). by inversion Hcv.
Qed.

(** What was decoded is canonical. *)
Lemma parse_firehose_frame_fine data : Forall is_u8 data -> Z.of_nat (length data) <= i64_max -> fine authentic_event (parse_firehose_frame data).
Proof.
  intros Hu Hl. unfold parse_firehose_frame. pose proof (safe_decode data new ltac:(cbn; lia)) as Hs.
  destruct (decode data new) as [[hv|e|] s] eqn:Hh; [|done..]. cbn [map_err mbind res_bind]. apply fine_then; [apply header_no_panic|]. intros [op tag].
  assert (Hs2 := safe_decode data s ltac:(lia)). destruct (decode data s) as [bv dec] eqn:Hb. destruct (op =? -1).
  { destruct bv as [bv|e|]; [|done..]. cbn [map_err mbind res_bind]. by destruct (extract_error_frame_body bv). }
  destruct (negb (op =? 1)); [done|]. destruct bv as [bv|e|]; [|done..]. cbn [map_err mbind res_bind].
  destruct (is_empty data dec) eqn:He; [|done]. cbn [negb].
  destruct (proj1 (SyncRaw.two_values data dec hv bv Hu Hl)) as (_ & Hcb & _); [by exists s|].
  apply parse_event_fine. intros fields b -> Hx. by eapply fields_bytes.
Qed.

(** C16. The parser of frames panics on no bytes, and what it returns as the
    record of a created or updated path hashes to the operation's CID. *)
Theorem firehose_records_authentic data : Forall is_u8 data -> Z.of_nat (length data) <= i64_max ->
  no_panic (parse_firehose_frame data) /\ forall e, parse_firehose_frame data = Ok e -> authentic_event e.
Proof.
  intros Hu Hl. pose proof (parse_firehose_frame_fine data Hu Hl) as Hf.
  destruct (parse_firehose_frame data) as [e|e|]; [|done..]. split; [done|]. by intros e' [= <-].
Qed.

(** C17. On a frame that the verifier's parser reads, the plain parser agrees
    with it: the same account or identity event; or the same commit with the
    same operations, each record the block of its CID, exactly if the commit's
    blocks are an archive that hashes to its CIDs and has the records, and the
    operations are of the three kinds and on valid paths; frames of the other
    types are skipped. *)
Theorem parsers_agree data raw : Forall is_u8 data -> Z.of_nat (length data) <= i64_max ->
  SyncRaw.parse_raw_sync_frame data = Ok raw -> same_event raw (parse_firehose_frame data).
Proof.
  intros Hu Hl Hr%SyncRaw.parse_raw_sync_frame_Ok; [|done..].
  destruct (parse_firehose_frame_means data raw Hu Hl Hr) as (tag & fields & Hp & Hnd & Hm).
  pose proof (fine_no_panic _ _ (parse_firehose_frame_fine data Hu Hl)) as Hn. rewrite Hp in *. unfold parse_event in *.
  destruct raw; cbn in Hm; [destruct Hm as [-> Hm]..|subst tag]; cbn [bool_decide] in *;
    repeat (rewrite (bool_decide_eq_true_2 (_ = _)) in * by reflexivity || rewrite (bool_decide_eq_false_2 (_ = _)) in * by discriminate); cbn [require_map mbind res_bind] in *.
  - by apply commit_agrees.
  - by eexists.
  - by apply account_agrees.
  - by apply identity_agrees.
  - by eexists.
Qed.
End Agree.

(** ** Examples *)

#[local] Existing Instances simd_ref simd_ref_laws sha2_toy SyncInvert.ex_outside.

(** A frame of a commit that creates the record of the example archive. *)
Definition ex_frame : bytes := Eval vm_compute in
  enc (Value.Map [(b# "t", Value.Text (b# "#commit")); (b# "op", Value.Unsigned 1)]) ++
  enc (Value.Map [(b# "ops", Value.Array [Value.Map [(b# "cid", Value.Cid RepoProof.ex_record_cid);
                   (b# "path", Value.Text (b# "app.bsky.feed.post/3k")); (b# "action", Value.Text (b# "create"))]]);
                  (b# "rev", Value.Text (Tid.digits 13 7)); (b# "seq", Value.Unsigned 2); (b# "repo", Value.Text (b# "did:web:example.com"));
                  (b# "time", Value.Text (b# "now")); (b# "blobs", Value.Array []); (b# "blocks", Value.Bytes RepoProof.ex_car);
                  (b# "commit", Value.Cid RepoProof.ex_commit_cid); (b# "rebase", Value.Bool false); (b# "tooBig", Value.Bool false)]).

Lemma ex_frame_ok : Forall is_u8 ex_frame /\ Z.of_nat (length ex_frame) <= i64_max.
Proof. split; [apply u8_literal; vm_compute; reflexivity|vm_compute; discriminate]. Qed.

Lemma ex_frame_event : match parse_firehose_frame ex_frame with
  Ok (EventCommit _ 7 2 [Create _ _ c [160]]) => c = RepoProof.ex_record_cid | _ => False end.
Proof. vm_compute. reflexivity. Qed.

Example firehose_records_authentic_witness : exists e, parse_firehose_frame ex_frame = Ok e /\ authentic_event e.
Proof.
  pose proof (firehose_records_authentic ex_frame (proj1 ex_frame_ok) (proj2 ex_frame_ok)) as [_ Ha]. pose proof ex_frame_event as He.
  destruct (parse_firehose_frame ex_frame) as [e|e|]; [|destruct He..]. exists e. exact (conj eq_refl (Ha e eq_refl)).
Defined.

Lemma ex_frame_raw : match SyncRaw.parse_raw_sync_frame ex_frame with Ok (SyncRaw.EvCommit c) => SyncRaw.seq c = 2 | _ => False end.
Proof. vm_compute. reflexivity. Qed.

Example parsers_agree_witness : exists c, SyncRaw.parse_raw_sync_frame ex_frame = Ok (SyncRaw.EvCommit c) /\
  same_event (SyncRaw.EvCommit c) (parse_firehose_frame ex_frame).
Proof.
  pose proof (fun raw => parsers_agree ex_frame raw (proj1 ex_frame_ok) (proj2 ex_frame_ok)) as Ha. pose proof ex_frame_raw as He.
  destruct (SyncRaw.parse_raw_sync_frame ex_frame) as [[c| | | |]|e|]; try destruct He. exists c. exact (conj eq_refl (Ha _ eq_refl)).
Defined.
