(* ===== verification/StreamParallel.v ===== *)
(** The scheduler of the parallel stream: [src/src/streaming/parallel.rs].

    Units of work with one key run one after another, in the order they came;
    units with different keys run at once on a pool of workers. The scheduler
    is a state, its lock a step: what is shown holds for every interleaving of
    the dispatcher and the workers. It refines a queue per key, no unit is
    ever left behind without a worker that will come to it, and the set of
    sequence numbers in flight is a sorted multiset. *)
From stdpp Require Import relations.
From S2P Require Import Prelude StateError.

(** ** Sequence numbers in flight *)

(** [slice::partition_point] on a slice that is partitioned: the number of
    leading elements that satisfy [p]. *)
Fixpoint partition_point {A} (p : A -> bool) (l : list A) : nat :=
  match l with a :: l => if p a then S (partition_point p l) else O | [] => O end.

(** [slice::binary_search] on a sorted slice: an index of [a], the first here;
    equal elements are alike. *)
Definition binary_search (a : Z) (l : list Z) : option nat :=
  let i := partition_point (fun x => x <? a) l in if decide (l !! i = Some a) then Some i else None.

(** [InflightSeqs] *)
Definition InflightSeqs : Type := list Z.

Definition inflight_new : InflightSeqs := [].

Definition add (seq : Z) (xs : InflightSeqs) : InflightSeqs :=
  if seq <=? 0 then xs else let idx := partition_point (fun x => x <? seq) xs in take idx xs ++ seq :: drop idx xs.

Definition remove (seq : Z) (xs : InflightSeqs) : InflightSeqs :=
  if seq <=? 0 then xs else match binary_search seq xs with Some idx => take idx xs ++ drop (S idx) xs | None => xs end.

Definition min (xs : InflightSeqs) : Z := default 0 (head xs).
Definition len (xs : InflightSeqs) : nat := length xs.
Definition is_empty (xs : InflightSeqs) : bool := (len xs =? 0)%nat.

(** What the set keeps: its numbers are positive and in order. *)
Definition inflight_ok (xs : InflightSeqs) : Prop := StronglySorted Z.le xs /\ Forall (fun x => 0 < x) xs.

Lemma partition_parts {A} (p : A -> bool) (l : list A) : Forall (fun a => p a = true) (take (partition_point p l) l) /\
  match drop (partition_point p l) l with a :: _ => p a = false | [] => True end.
Proof.
  induction l as [|a l [IH1 IH2]]; cbn; [done|]. destruct (p a) eqn:Ha; cbn; [|done]. split; [by constructor|done].
Qed.

Lemma sorted_app (a b : list Z) : StronglySorted Z.le (a ++ b) <-> StronglySorted Z.le a /\ StronglySorted Z.le b /\ forall x y, x ∈ a -> y ∈ b -> x <= y.
Proof.
  induction a as [|x a IH]; cbn [app].
  { split; [intros Hb; split_and!; [constructor|done|by intros ? ? ?%elem_of_nil]|by intros (_ & ? & _)]. }
  split.
  - inversion_clear 1 as [|? ? Hs Hf]. apply IH in Hs as (Ha & Hb & Hab). apply Forall_app in Hf as [Hfa Hfb]. rewrite Forall_forall in Hfb.
    split_and!; [by constructor|done|]. intros x' y [->|Hx]%elem_of_cons Hy; auto.
  - intros (Ha & Hb & Hab). inversion_clear Ha as [|? ? Hs Hf]. constructor; [apply IH; split_and!; [done..|]; intros x' y Hx Hy; apply Hab; [by right|done]|].
    apply Forall_app. split; [done|]. apply Forall_forall. intros y Hy. apply Hab; [by left|done].
Qed.

Lemma add_cut seq xs : StronglySorted Z.le xs -> exists a b, xs = a ++ b /\ Forall (fun x => x < seq) a /\ Forall (fun x => seq <= x) b /\
  partition_point (fun x => x <? seq) xs = length a.
Proof.
  intros Hs. pose proof (partition_parts (fun x => x <? seq) xs) as [Ha Hb]. set (i := partition_point _ xs) in *.
  assert (Hi : (i <= length xs)%nat). { unfold i. clear. induction xs as [|x xs IH]; cbn; [done|]. destruct (x <? seq); lia. }
  exists (take i xs), (drop i xs). rewrite take_drop, length_take, Nat.min_l by done. split_and!; [done| | |done].
  - eapply Forall_impl; [exact Ha|]. intros x Hx. cbn in Hx. lia.
  - rewrite <- (take_drop i xs), sorted_app in Hs. destruct Hs as (_ & Hd & _). destruct (drop i xs) as [|y ys]; [constructor|].
    inversion_clear Hd as [|? ? Hd' Hf]. constructor; [lia|]. eapply Forall_impl; [exact Hf|]. intros z Hz. cbn in Hz. lia.
Qed.

Lemma add_spec seq xs : inflight_ok xs -> inflight_ok (add seq xs) /\ (0 < seq -> add seq xs ≡ₚ seq :: xs) /\ (seq <= 0 -> add seq xs = xs).
Proof.
  intros [Hs Hp]. unfold add. destruct (Z.leb_spec seq 0); [split; [by split|]; split; [lia|done]|]. split; [|split; [intros _|lia]].
  - destruct (add_cut seq xs Hs) as (a & b & -> & Ha & Hb & ->). rewrite take_app_length, drop_app_length.
    apply sorted_app in Hs as (Hsa & Hsb & Hab). apply Forall_app in Hp as [Hpa Hpb]. rewrite Forall_forall in Ha, Hb. split.
    + apply sorted_app. split_and!; [done| |].
      * constructor; [done|]. apply Forall_forall. auto.
      * intros x y Hx [->|Hy]%elem_of_cons; [specialize (Ha x Hx); cbn in Ha; lia|auto].
    + apply Forall_app. split; [done|]. by constructor.
  - destruct (add_cut seq xs Hs) as (a & b & -> & _ & _ & ->). rewrite take_app_length, drop_app_length. by rewrite <- Permutation_middle.
Qed.

Lemma remove_spec seq xs : inflight_ok xs -> inflight_ok (remove seq xs) /\
  (seq ∈ xs -> xs ≡ₚ seq :: remove seq xs) /\ (seq ∉ xs -> remove seq xs = xs).
Proof.
  intros [Hs Hp]. unfold remove. destruct (Z.leb_spec seq 0) as [Hz|Hz].
  { split; [by split|]. split; [|done]. intros Hin. rewrite Forall_forall in Hp. apply Hp in Hin. lia. }
  unfold binary_search. destruct (add_cut seq xs Hs) as (a & b & -> & Ha & Hb & ->).
  rewrite lookup_app_r, Nat.sub_diag by done. rewrite Forall_forall in Ha. destruct b as [|y b]; cbn [lookup list_lookup].
  { rewrite decide_False by done. rewrite app_nil_r in *. split; [done|]. split; [intros Hin%Ha; cbn in Hin; lia|done]. }
  apply Forall_cons in Hb as [Hy Hb]. apply sorted_app in Hs as (Hsa & Hsb & Hab). inversion_clear Hsb as [|? ? Hsb' Hf].
  apply Forall_app in Hp as [Hpa [Hpy Hpb]%Forall_cons]. case_decide as Hd.
  - injection Hd as ->. rewrite take_app_length. replace (drop (S (length a)) (a ++ seq :: b)) with b
      by (by rewrite drop_app_ge, Nat.sub_succ_l, Nat.sub_diag by lia).
    split; [|split; [by rewrite Permutation_middle|intros Hn; destruct Hn; set_solver]]. split; [|by apply Forall_app].
    apply sorted_app. split_and!; [done..|]. intros x z Hx Hz'. apply Hab; [done|by right].
  - split; [split; [apply sorted_app; split_and!; [done|by constructor|done]|apply Forall_app; split; [done|by constructor]]|].
    split; [|done]. intros [Hin%Ha|[->|Hin]%elem_of_cons]%elem_of_app; [cbn in Hin; lia|done|].
    rewrite Forall_forall in Hf, Hb. specialize (Hf _ Hin). cbn in *. assert (y <> seq) by congruence. lia.
Qed.

Lemma min_spec xs : inflight_ok xs -> match xs with [] => min xs = 0 | _ => 0 < min xs /\ min xs ∈ xs /\ Forall (fun x => min xs <= x) xs end.
Proof.
  intros [Hs Hp]. destruct xs as [|x xs]; [done|]. unfold min. cbn [head default]. apply Forall_cons in Hp as [Hx _].
  inversion_clear Hs as [|? ? Hs' Hf]. split_and!; [done|by left|by constructor].
Qed.

(** ** The scheduler *)

Section Scheduler.
Context {K W R : Type} `{Countable K}.

(** A worker between units: waiting for a key, running a unit, or holding a
    key whose next unit it is about to take. *)
Inductive Worker := Idle | Running (key : K) (work : W) | Between (key : K).

Inductive AddOutcome := Queued | Dropped (work : W) | ShuttingDown (work : W).

(** The scheduler with what its tasks share: the feeder's queue, the pool, the
    results sent. [gone]: the workers have been aborted, which closes the
    feeder; [consumed]: the results have a receiver. *)
Record Scheduler := MkScheduler {
  key_queue_cap : nat;
  active : gmap K (list W);
  feeder : list (K * W);
  workers : list Worker;
  results : list (W * R);
  gone : bool;
  consumed : bool
}.

Definition set_active a s := MkScheduler (key_queue_cap s) a (feeder s) (workers s) (results s) (gone s) (consumed s).
Definition set_feeder f s := MkScheduler (key_queue_cap s) (active s) f (workers s) (results s) (gone s) (consumed s).
Definition set_workers w s := MkScheduler (key_queue_cap s) (active s) (feeder s) w (results s) (gone s) (consumed s).
Definition set_results r s := MkScheduler (key_queue_cap s) (active s) (feeder s) (workers s) r (gone s) (consumed s).

(** [Scheduler::new] *)
Definition scheduler_new (workers key_queue_cap : nat) : Scheduler :=
  MkScheduler key_queue_cap ∅ [] (replicate (Nat.max workers 1) Idle) [] false true.

(** [feeder_tx.send] *)
Definition feed (key : K) (work : W) (s : Scheduler) : bool * Scheduler :=
  if gone s then (false, s) else (true, set_feeder (feeder s ++ [(key, work)]) s).

Definition add_work {E} (key : K) (work : W) : st Scheduler E AddOutcome := fun s =>
  if gone s then (Ok (ShuttingDown work), s)
  else
    match active s !! key with
    | Some queue =>
        if (0 <? key_queue_cap s)%nat && (key_queue_cap s <=? length queue)%nat then
          match queue with
          | dropped :: queue => (Ok (Dropped dropped), set_active (<[key := queue ++ [work]]> (active s)) s)
          | [] => (Panic, s)
          end
        else (Ok Queued, set_active (<[key := queue ++ [work]]> (active s)) s)
    | None =>
        let s := set_active (<[key := []]> (active s)) s in
        match feed key work s with
        | (true, s) => (Ok Queued, s)
        | (false, s) => (Ok (ShuttingDown work), set_active (delete key (active s)) s)
        end
    end.

(** An idle worker takes the next key from the feeder. *)
Definition take_work (i : nat) (s : Scheduler) : option Scheduler :=
  match workers s !! i, feeder s with
  | Some Idle, (key, work) :: rest => Some (set_workers (<[i := Running key work]> (workers s)) (set_feeder rest s))
  | _, _ => None
  end.

(** A unit that was run: its result is sent, or, if nobody receives it, the
    key is released and its chain ends. *)
Definition finish_work (i : nat) (r : R) (s : Scheduler) : option Scheduler :=
  match workers s !! i with
  | Some (Running key work) =>
      if consumed s then Some (set_workers (<[i := Between key]> (workers s)) (set_results (results s ++ [(work, r)]) s))
      else Some (set_workers (<[i := Idle]> (workers s)) (set_active (delete key (active s)) s))
  | _ => None
  end.

(** The next unit of the key, or the key is released. *)
Definition next_work (i : nat) (s : Scheduler) : option Scheduler :=
  match workers s !! i with
  | Some (Between key) =>
      match active s !! key with
      | Some (work :: queue) => Some (set_workers (<[i := Running key work]> (workers s)) (set_active (<[key := queue]> (active s)) s))
      | _ => Some (set_workers (<[i := Idle]> (workers s)) (set_active (delete key (active s)) s))
      end
  | _ => None
  end.

(** ** Steps *)

(** What a step does, as seen from outside. *)
Inductive Label := Accept (key : K) (work : W) | Evict (key : K) (old work : W) | Start (key : K) (work : W)
  | Finish (key : K) (work : W) (r : R) | Stop (key : K) | Unconsumed | Tau.

Inductive step (s : Scheduler) : Label -> Scheduler -> Prop :=
| step_queued key work s' : add_work (E:=()) key work s = (Ok Queued, s') -> step s (Accept key work) s'
| step_dropped key work old s' : add_work (E:=()) key work s = (Ok (Dropped old), s') -> step s (Evict key old work) s'
| step_refused key work w s' : add_work (E:=()) key work s = (Ok (ShuttingDown w), s') -> step s Tau s'
| step_take i key work s' : take_work i s = Some s' -> workers s' !! i = Some (Running key work) -> step s (Start key work) s'
| step_finish i key work r s' : workers s !! i = Some (Running key work) -> consumed s = true -> finish_work i r s = Some s' -> step s (Finish key work r) s'
| step_stop i key work r s' : workers s !! i = Some (Running key work) -> consumed s = false -> finish_work i r s = Some s' -> step s (Stop key) s'
| step_next i key work s' : next_work i s = Some s' -> workers s' !! i = Some (Running key work) -> step s (Start key work) s'
| step_release i s' : next_work i s = Some s' -> workers s' !! i = Some Idle -> step s Tau s'
| step_unconsumed : consumed s = true -> step s Unconsumed (MkScheduler (key_queue_cap s) (active s) (feeder s) (workers s) (results s) (gone s) false).

(** ** A queue per key *)

(** What waits under a key, in order, and what runs. *)
Record Line := MkLine { waiting : list W; running : list W }.

Definition units_of (key : K) (l : list (K * W)) : list W := omap (fun p => if decide (p.1 = key) then Some p.2 else None) l.
Definition running_of (key : K) (ws : list Worker) : list W :=
  omap (fun w => match w with Running k u => if decide (k = key) then Some u else None | _ => None end) ws.

(** The line of a key: the unit fed to the workers, then the queue. *)
Definition line (s : Scheduler) (key : K) : Line :=
  MkLine (units_of key (feeder s) ++ default [] (active s !! key)) (running_of key (workers s)).

(** The specification: at most one unit of a key runs; units start in the
    order they were accepted; a full queue gives up its oldest, which is not
    the one already handed to a worker. *)
Inductive line_step (key : K) (l l' : Line) : Label -> Prop :=
| line_accept work : waiting l' = waiting l ++ [work] -> running l' = running l -> line_step key l l' (Accept key work)
| line_evict fed old rest work : waiting l = fed ++ old :: rest -> (length fed <= 1)%nat -> waiting l' = fed ++ rest ++ [work] ->
    running l' = running l -> line_step key l l' (Evict key old work)
| line_start work : running l = [] -> waiting l = work :: waiting l' -> running l' = [work] -> line_step key l l' (Start key work)
| line_finish work r : running l = [work] -> waiting l' = waiting l -> running l' = [] -> line_step key l l' (Finish key work r)
| line_stop work : running l = [work] -> waiting l' = [] -> running l' = [] -> line_step key l l' (Stop key)
| line_other label : match label with Accept k _ | Evict k _ _ | Start k _ | Finish k _ _ | Stop k => k <> key | Unconsumed | Tau => True end ->
    waiting l' = waiting l -> running l' = running l -> line_step key l l' label.

(** ** The invariant *)

Definition worker_key (w : Worker) : option K := match w with Running k _ | Between k => Some k | Idle => None end.

(** The keys that someone owns: fed, or held by a worker. *)
Definition owners (s : Scheduler) : list K := (feeder s).*1 ++ omap worker_key (workers s).

Record sched_ok (s : Scheduler) : Prop := {
  ok_once : NoDup (owners s);
  ok_active : forall key, is_Some (active s !! key) <-> key ∈ owners s;
  ok_cap : (0 < key_queue_cap s)%nat -> map_Forall (fun _ queue => (length queue <= key_queue_cap s)%nat) (active s)
}.

Lemma split_at {A} (l : list A) i x : l !! i = Some x -> exists a b, l = a ++ x :: b /\ forall y, <[i := y]> l = a ++ y :: b.
Proof.
  intros Hi. exists (take i l), (drop (S i) l). split; [by rewrite take_drop_middle|]. intros y. apply insert_take_drop. by eapply lookup_lt_Some.
Qed.

Lemma units_fresh key l : key ∉ l.*1 -> units_of key l = [].
Proof.
  unfold units_of. induction l as [|[k w] l IH]; [done|]. cbn [fmap list_fmap fst]. intros Hn. cbn. rewrite decide_False by set_solver. apply IH. set_solver.
Qed.

Lemma running_fresh key ws : key ∉ omap worker_key ws -> running_of key ws = [].
Proof.
  unfold running_of. induction ws as [|[|k w|k] ws IH]; cbn; [done|exact IH|..].
  - intros Hn. rewrite decide_False by set_solver. apply IH. set_solver.
  - intros Hn. apply IH. set_solver.
Qed.

Lemma units_app key l l' : units_of key (l ++ l') = units_of key l ++ units_of key l'.
Proof. apply omap_app. Qed.
Lemma running_app key l l' : running_of key (l ++ l') = running_of key l ++ running_of key l'.
Proof. apply omap_app. Qed.

Lemma owners_new n cap : owners (scheduler_new n cap) = [].
Proof. unfold owners, scheduler_new. cbn. by induction (Nat.max n 1). Qed.

Lemma new_ok n cap : sched_ok (scheduler_new n cap).
Proof.
  split; rewrite ?owners_new; [constructor| |intros _; apply map_Forall_empty].
  intros key. cbn. rewrite lookup_empty, elem_of_nil. split; [by intros []|done].
Qed.

(** ** Each step, spelt out *)

Lemma add_work_Ok key work s o s' : sched_ok s -> add_work (E:=()) key work s = (Ok o, s') ->
  (gone s = true /\ o = ShuttingDown work /\ s' = s) \/
  (active s !! key = None /\ o = Queued /\ s' = set_feeder (feeder s ++ [(key, work)]) (set_active (<[key := []]> (active s)) s)) \/
  (exists queue, active s !! key = Some queue /\ o = Queued /\ ((0 < key_queue_cap s)%nat -> (length queue < key_queue_cap s)%nat) /\
     s' = set_active (<[key := queue ++ [work]]> (active s)) s) \/
  (exists old queue, active s !! key = Some (old :: queue) /\ o = Dropped old /\ s' = set_active (<[key := queue ++ [work]]> (active s)) s).
Proof.
  intros Hok. unfold add_work, feed. destruct (gone s) eqn:Hg; [intros [= <- <-]; by left|]. destruct (active s !! key) as [queue|] eqn:Ha.
  - destruct (_ && _) eqn:Hc.
    + destruct queue as [|old queue]; [done|]. intros [= <- <-]. right; right; right. by exists old, queue.
    + intros [= <- <-]. right; right; left. exists queue. split_and!; [done..| |done]. intros Hcap.
      apply andb_false_iff in Hc as [Hc|Hc]; [apply Nat.ltb_ge in Hc; lia|by apply Nat.leb_gt in Hc].
  - cbn [gone set_active]. rewrite Hg. intros [= <- <-]. right; left. done.
Qed.

Lemma add_work_no_panic {E} key work s : no_panic (add_work (E:=E) key work s).1.
Proof.
  unfold add_work, feed. destruct (gone s) eqn:Hg; [done|]. destruct (active s !! key) as [queue|]; [|cbn [gone set_active]; by rewrite Hg].
  destruct ((0 <? key_queue_cap s)%nat) eqn:Hz; [|done]. cbn [andb]. destruct (Nat.leb_spec (key_queue_cap s) (length queue)); [|done].
  destruct queue; [apply Nat.ltb_lt in Hz; cbn in *; lia|done].
Qed.

(** A worker changes: the others are beside it. *)
Lemma with_worker s i w : workers s !! i = Some w -> exists a b, workers s = a ++ w :: b /\ forall y, <[i := y]> (workers s) = a ++ y :: b.
Proof. apply split_at. Qed.

Lemma owners_perm (s s' : Scheduler) : feeder s' = feeder s -> omap worker_key (workers s') ≡ₚ omap worker_key (workers s) -> owners s' ≡ₚ owners s.
Proof. intros Hf Hw. unfold owners. by rewrite Hf, Hw. Qed.

Lemma ok_perm s s' : sched_ok s -> owners s' ≡ₚ owners s -> (forall key, is_Some (active s' !! key) <-> is_Some (active s !! key)) ->
  ((0 < key_queue_cap s')%nat -> map_Forall (fun _ queue => (length queue <= key_queue_cap s')%nat) (active s')) -> sched_ok s'.
Proof.
  intros [Ho Ha Hc] Hp Hk Hc'. split; [by rewrite Hp| |done]. intros key. rewrite Hk, Ha. by rewrite Hp.
Qed.

Lemma is_Some_insert (m : gmap K (list W)) key q key' : is_Some (m !! key) -> is_Some (<[key := q]> m !! key') <-> is_Some (m !! key').
Proof. intros Hk. destruct (decide (key = key')) as [<-|Hne]; [rewrite lookup_insert_eq; naive_solver|by rewrite lookup_insert_ne]. Qed.

(** The key of one worker is given up. *)
Lemma ok_release s s' (key : K) w a b : sched_ok s -> workers s = a ++ w :: b -> worker_key w = Some key -> workers s' = a ++ Idle :: b ->
  active s' = delete key (active s) -> feeder s' = feeder s -> key_queue_cap s' = key_queue_cap s ->
  sched_ok s' /\ key ∉ owners s'.
Proof.
  intros [Ho Ha Hc] Hw Hk Hw' Ha' Hf' Hc'. assert (Hp : owners s ≡ₚ key :: owners s').
  { unfold owners. rewrite Hw, Hw', Hf', !omap_app. cbn. rewrite Hk. cbn. by rewrite <- !Permutation_middle. }
  rewrite Hp in Ho. apply NoDup_cons in Ho as [Hn Ho]. split; [|done]. split; [done| |].
  - intros key'. rewrite Ha'. destruct (decide (key = key')) as [<-|Hne].
    + rewrite lookup_delete_eq. split; [by intros []|done].
    + rewrite lookup_delete_ne, Ha, Hp, elem_of_cons by done. naive_solver.
  - rewrite Hc', Ha'. intros Hz. by apply map_Forall_delete, Hc.
Qed.

(** A worker that keeps its key. *)
Lemma ok_keep s s' w w' a b : sched_ok s -> workers s = a ++ w :: b -> workers s' = a ++ w' :: b -> worker_key w' = worker_key w ->
  feeder s' = feeder s -> (forall key : K, is_Some (active s' !! key) <-> is_Some (active s !! key)) ->
  ((0 < key_queue_cap s')%nat -> map_Forall (fun _ queue => (length queue <= key_queue_cap s')%nat) (active s')) -> sched_ok s'.
Proof.
  intros Hok Hw Hw' Hk Hf Ha Hc. apply (ok_perm s); [done| |done|done]. apply owners_perm; [done|]. rewrite Hw, Hw', !omap_app. cbn. by rewrite Hk.
Qed.

Lemma add_work_ok key work s o s' : sched_ok s -> add_work (E:=()) key work s = (Ok o, s') -> sched_ok s'.
Proof.
  intros Hok [(_ & _ & ->)|[(Hn & _ & ->)|[(queue & Ha & _ & Hl & ->)|(old & queue & Ha & _ & ->)]]]%add_work_Ok; [done|..|done].
  - destruct Hok as [Ho Hk Hc]. assert (Hfresh : key ∉ owners s) by (rewrite <- Hk, Hn; by intros []).
    assert (Hp : owners (set_feeder (feeder s ++ [(key, work)]) (set_active (<[key:=[]]> (active s)) s)) ≡ₚ key :: owners s).
    { unfold owners. cbn. rewrite fmap_app, <- app_assoc. cbn. by rewrite <- Permutation_middle. }
    split; [rewrite Hp; by constructor| |].
    + intros key'. rewrite Hp, elem_of_cons, <- Hk. cbn. destruct (decide (key = key')) as [<-|Hne]; [rewrite lookup_insert_eq; naive_solver|].
      rewrite lookup_insert_ne by done. naive_solver.
    + cbn. intros Hz. apply map_Forall_insert_2; [cbn; lia|by apply Hc].
  - apply (ok_perm s); [done|done| |].
    + intros key'. cbn. apply is_Some_insert. by eexists.
    + cbn. intros Hz. destruct Hok as [_ _ Hc]. apply map_Forall_insert_2; [|by apply Hc]. rewrite length_app. cbn. specialize (Hl Hz). lia.
  - apply (ok_perm s); [done|done| |].
    + intros key'. cbn. apply is_Some_insert. by eexists.
    + cbn. intros Hz. destruct Hok as [_ _ Hc]. specialize (Hc Hz). apply map_Forall_insert_2; [|done]. apply Hc in Ha. cbn in Ha. rewrite length_app. cbn. lia.
Qed.

Lemma take_work_cases i s s' : take_work i s = Some s' -> exists a b key work rest, workers s = a ++ Idle :: b /\ feeder s = (key, work) :: rest /\
  workers s' = a ++ Running key work :: b /\ feeder s' = rest /\ active s' = active s /\ key_queue_cap s' = key_queue_cap s /\ length a = i.
Proof.
  unfold take_work. destruct (workers s !! i) as [[| |]|] eqn:Hi; try done. destruct (feeder s) as [|[key work] rest] eqn:Hf; [done|]. intros [= <-].
  exists (take i (workers s)), (drop (S i) (workers s)), key, work, rest. cbn. rewrite take_drop_middle by done.
  rewrite insert_take_drop by by eapply lookup_lt_Some. split_and!; try done. rewrite length_take. apply lookup_lt_Some in Hi. lia.
Qed.

Lemma next_work_cases i s s' : next_work i s = Some s' -> exists a b key, workers s = a ++ Between key :: b /\ length a = i /\ feeder s' = feeder s /\
  key_queue_cap s' = key_queue_cap s /\
  ((exists work queue, active s !! key = Some (work :: queue) /\ workers s' = a ++ Running key work :: b /\ active s' = <[key := queue]> (active s)) \/
   (default [] (active s !! key) = [] /\ workers s' = a ++ Idle :: b /\ active s' = delete key (active s))).
Proof.
  unfold next_work. destruct (workers s !! i) as [[| |key]|] eqn:Hi; try done. intros Hn.
  exists (take i (workers s)), (drop (S i) (workers s)), key. rewrite take_drop_middle by done.
  assert (Hins : forall y, <[i := y]> (workers s) = take i (workers s) ++ y :: drop (S i) (workers s)) by (intros y; apply insert_take_drop; by eapply lookup_lt_Some).
  assert (Hlen : length (take i (workers s)) = i) by (rewrite length_take; apply lookup_lt_Some in Hi; lia).
  destruct (active s !! key) as [[|work queue]|] eqn:Ha; injection Hn as <-; cbn; rewrite Hins; (split_and!; [done..|]); [by right| |by right].
  left. by exists work, queue.
Qed.

Lemma at_middle {A} (a b : list A) x y : (a ++ x :: b) !! length a = Some y -> x = y.
Proof. rewrite lookup_app_r, Nat.sub_diag by done. by intros [= ->]. Qed.

Lemma step_ok s l s' : sched_ok s -> step s l s' -> sched_ok s'.
Proof.
  intros Hok Hs. destruct Hs as [key work s' Ha|key work old s' Ha|key work w s' Ha|i key work s' Ht Hw|i key work r s' Hi Hc Hf|i key work r s' Hi Hc Hf|i key work s' Hn Hw|i s' Hn Hw|].
  - by eapply add_work_ok.
  - by eapply add_work_ok.
  - by eapply add_work_ok.
  - apply take_work_cases in Ht as (a & b & key' & work' & rest & Hws & Hfd & Hws' & Hfd' & Hact & Hcap & _).
    apply (ok_perm s); [done| |by intros ?; rewrite Hact|rewrite Hcap, Hact; apply Hok].
    unfold owners. rewrite Hws, Hws', Hfd, Hfd', !omap_app. cbn. by rewrite <- !Permutation_middle.
  - unfold finish_work in Hf. rewrite Hi, Hc in Hf. injection Hf as <-. apply split_at in Hi as (a & b & Hws & Hins).
    eapply (ok_keep s _ _ (Between key) a b); try done; cbn; [apply Hins|apply Hok].
  - unfold finish_work in Hf. rewrite Hi, Hc in Hf. injection Hf as <-. apply split_at in Hi as (a & b & Hws & Hins).
    eapply (ok_release s _ key _ a b); try done. apply Hins.
  - apply next_work_cases in Hn as (a & b & key' & Hws & <- & Hfd & Hcap & [(work' & queue & Ha & Hws' & Hact)|(_ & Hws' & _)]).
    + eapply (ok_keep s _ _ _ a b); try done; rewrite Hact.
      * intros k. apply is_Some_insert. by eexists.
      * rewrite Hcap. intros Hz. destruct Hok as [_ _ Hc]. specialize (Hc Hz). apply map_Forall_insert_2; [|done]. apply Hc in Ha. cbn in Ha. lia.
    + rewrite Hws' in Hw. by apply at_middle in Hw.
  - apply next_work_cases in Hn as (a & b & key' & Hws & <- & Hfd & Hcap & [(work' & queue & Ha & Hws' & Hact)|(_ & Hws' & Hact)]).
    + rewrite Hws' in Hw. by apply at_middle in Hw.
    + by eapply (ok_release s _ key' _ a b).
  - by destruct Hok.
Qed.

(** ** The steps are those of the lines *)

Lemma owned_by_worker s (key : K) w a b : sched_ok s -> workers s = a ++ w :: b -> worker_key w = Some key ->
  units_of key (feeder s) = [] /\ running_of key a = [] /\ running_of key b = [].
Proof.
  intros [Ho _ _] Hw Hk. unfold owners in Ho. rewrite Hw, omap_app in Ho. cbn in Ho. rewrite Hk in Ho.
  apply NoDup_app in Ho as (_ & Hf & Ho). apply NoDup_app in Ho as (_ & Ha & [Hb _]%NoDup_cons). split_and!.
  - apply units_fresh. intros Hin. apply (Hf key Hin). rewrite elem_of_app. right. by left.
  - apply running_fresh. intros Hin. apply (Ha key Hin). by left.
  - by apply running_fresh.
Qed.

Lemma owned_by_feeder s (key : K) work rest : sched_ok s -> feeder s = (key, work) :: rest -> running_of key (workers s) = [].
Proof.
  intros [Ho _ _] Hf. unfold owners in Ho. rewrite Hf in Ho. cbn in Ho. apply NoDup_cons in Ho as [Hn _]. apply running_fresh. set_solver.
Qed.

Lemma fed_once s key : sched_ok s -> (length (units_of key (feeder s)) <= 1)%nat.
Proof.
  intros [Ho _ _]. unfold owners in Ho. apply NoDup_app in Ho as (Ho & _ & _). revert Ho. induction (feeder s) as [|[k w] l IH]; [cbn; lia|].
  cbn [fmap list_fmap fst]. intros [Hn Hnd]%NoDup_cons. cbn. case_decide as Hk; cbn; [|by apply IH]. subst k.
  fold (units_of key l). rewrite (units_fresh key l Hn). cbn. lia.
Qed.

(** A worker starts or ends a unit: the lines of other keys do not change. *)
Lemma running_middle (key : K) a b w : running_of key (a ++ w :: b) = running_of key a ++ running_of key [w] ++ running_of key b.
Proof. change (w :: b) with ([w] ++ b). by rewrite !running_app. Qed.

Lemma running_idle key a b w : worker_key w <> Some key -> running_of key (a ++ w :: b) = running_of key (a ++ Idle :: b).
Proof. intros Hw. rewrite !running_middle. destruct w as [|k u|k]; cbn; [done| |done]. rewrite decide_False by (intros ->; by destruct Hw). done. Qed.

Lemma running_alone (key : K) work : running_of key [Running key work] = [work].
Proof. unfold running_of. cbn. by rewrite decide_True. Qed.

Lemma units_first (key : K) work rest : units_of key ((key, work) :: rest) = work :: units_of key rest.
Proof. unfold units_of. cbn. by rewrite decide_True. Qed.

Lemma units_other (key k : K) work rest : k <> key -> units_of key ((k, work) :: rest) = units_of key rest.
Proof. intros Hne. unfold units_of. cbn. by rewrite decide_False. Qed.

#[local] Arguments units_of : simpl never.
#[local] Arguments running_of : simpl never.

Lemma step_line s l s' key : sched_ok s -> step s l s' -> line_step key (line s key) (line s' key) l.
Proof.
  intros Hok Hs. destruct Hs as [k work s' Ha|k work old s' Ha|k work w s' Ha|i k work s' Ht Hw|i k work r s' Hi Hc Hf|i k work r s' Hi Hc Hf|i k work s' Hn Hw|i s' Hn Hw|].
  - destruct (decide (k = key)) as [->|Hne];
      apply add_work_Ok in Ha as [(_ & ? & _)|[(Hnone & _ & ->)|[(queue & Hq & _ & _ & ->)|(? & ? & _ & ? & _)]]]; try done.
    + apply line_accept; [cbn|done]. by rewrite Hnone, lookup_insert_eq, units_app, units_first, !app_nil_r.
    + apply line_accept; [cbn|done]. rewrite Hq, lookup_insert_eq. cbn. by rewrite app_assoc.
    + apply line_other; [done| |done]. cbn. by rewrite lookup_insert_ne, units_app, units_other, app_nil_r.
    + apply line_other; [done| |done]. cbn. by rewrite lookup_insert_ne.
  - apply add_work_Ok in Ha as [(_ & ? & _)|[(_ & ? & _)|[(? & _ & ? & _)|(old' & queue & Hq & [= ->] & ->)]]]; try done.
    destruct (decide (k = key)) as [->|Hne].
    + apply (line_evict _ _ _ (units_of key (feeder s)) old' queue work); [by cbn; rewrite Hq|by apply fed_once|by cbn; rewrite lookup_insert_eq|done].
    + apply line_other; [done|by cbn; rewrite lookup_insert_ne|done].
  - apply add_work_Ok in Ha as [(_ & _ & ->)|[(_ & ? & _)|[(? & _ & ? & _)|(? & ? & _ & ? & _)]]]; try done. by apply line_other.
  - apply take_work_cases in Ht as (a & b & k' & work' & rest & Hws & Hfd & Hws' & Hfd' & Hact & _ & <-). rewrite Hws' in Hw.
    apply at_middle in Hw. injection Hw as -> ->. destruct (decide (k = key)) as [->|Hne].
    + pose proof (owned_by_feeder _ _ _ _ Hok Hfd) as Hr. apply line_start; cbn; [done|by rewrite Hfd, Hfd', Hact, units_first|].
      rewrite Hws, running_middle in Hr. apply app_nil in Hr as [Hra [_ Hrb]%app_nil].
      by rewrite Hws', running_middle, Hra, Hrb, running_alone.
    + apply line_other; [done|..]; cbn.
      * by rewrite Hfd, Hfd', Hact, units_other.
      * rewrite Hws', Hws. apply running_idle. cbn. congruence.
  - unfold finish_work in Hf. rewrite Hi, Hc in Hf. injection Hf as <-. apply split_at in Hi as (a & b & Hws & Hins).
    destruct (decide (k = key)) as [->|Hne].
    + destruct (owned_by_worker _ key _ _ _ Hok Hws eq_refl) as (_ & Hra & Hrb). apply line_finish; cbn; [|done|].
      * by rewrite Hws, running_middle, Hra, Hrb, running_alone.
      * by rewrite Hins, running_middle, Hra, Hrb.
    + apply line_other; [done|done|]. cbn. rewrite Hins, Hws, (running_idle key a b (Running k work)), (running_idle key a b (Between k)); cbn; congruence.
  - unfold finish_work in Hf. rewrite Hi, Hc in Hf. injection Hf as <-. apply split_at in Hi as (a & b & Hws & Hins).
    destruct (decide (k = key)) as [->|Hne].
    + destruct (owned_by_worker _ key _ _ _ Hok Hws eq_refl) as (Hu & Hra & Hrb). apply (line_stop _ _ _ work); cbn.
      * by rewrite Hws, running_middle, Hra, Hrb, running_alone.
      * by rewrite Hu, lookup_delete_eq.
      * by rewrite Hins, running_middle, Hra, Hrb.
    + apply line_other; [done|by cbn; rewrite lookup_delete_ne|]. cbn. rewrite Hins, Hws, (running_idle key a b (Running k work)); cbn; congruence.
  - apply next_work_cases in Hn as (a & b & k' & Hws & <- & Hfd & _ & [(work' & queue & Ha & Hws' & Hact)|(_ & Hws' & _)]);
      rewrite Hws' in Hw; apply at_middle in Hw; [|done]. injection Hw as -> ->. destruct (decide (k = key)) as [->|Hne].
    + destruct (owned_by_worker _ key _ _ _ Hok Hws eq_refl) as (Hu & Hra & Hrb). apply line_start; cbn.
      * by rewrite Hws, running_middle, Hra, Hrb.
      * by rewrite Hfd, Hu, Hact, Ha, lookup_insert_eq.
      * by rewrite Hws', running_middle, Hra, Hrb, running_alone.
    + apply line_other; [done|by cbn; rewrite Hfd, Hact, lookup_insert_ne|]. cbn.
      rewrite Hws', Hws, (running_idle key a b (Running k work)), (running_idle key a b (Between k)); cbn; congruence.
  - apply next_work_cases in Hn as (a & b & k & Hws & <- & Hfd & _ & [(work' & queue & Ha & Hws' & Hact)|(Hq & Hws' & Hact)]);
      rewrite Hws' in Hw; [by apply at_middle in Hw|]. apply line_other; [done|..]; cbn.
    + rewrite Hfd, Hact. destruct (decide (k = key)) as [->|Hne]; [by rewrite lookup_delete_eq, Hq|by rewrite lookup_delete_ne].
    + rewrite Hws', Hws. by rewrite !running_middle.
  - by apply line_other.
Qed.

(** ** Runs *)

Inductive runs : Scheduler -> list Label -> Scheduler -> Prop :=
| runs_nil s : runs s [] s
| runs_cons s l s' ls s'' : step s l s' -> runs s' ls s'' -> runs s (l :: ls) s''.

Inductive line_runs (key : K) : Line -> list Label -> Line -> Prop :=
| line_runs_nil l : line_runs key l [] l
| line_runs_cons l label l' ls l'' : line_step key l l' label -> line_runs key l' ls l'' -> line_runs key l (label :: ls) l''.

(** What a run accepted under a key, what it started, and whether it gave up
    units of the key. *)
Definition accepted (key : K) (ls : list Label) : list W :=
  omap (fun l => match l with Accept k w | Evict k _ w => if decide (k = key) then Some w else None | _ => None end) ls.
Definition started (key : K) (ls : list Label) : list W :=
  omap (fun l => match l with Start k w => if decide (k = key) then Some w else None | _ => None end) ls.
Definition gives_up (key : K) (l : Label) : bool := match l with Evict k _ _ | Stop k => bool_decide (k = key) | _ => false end.

Lemma runs_ok s ls s' : sched_ok s -> runs s ls s' -> sched_ok s'.
Proof. intros Hok. induction 1; [done|]. eauto using step_ok. Qed.

Lemma runs_lines s ls s' key : sched_ok s -> runs s ls s' -> line_runs key (line s key) ls (line s' key).
Proof. intros Hok. induction 1; econstructor; eauto using step_line, step_ok. Qed.

Lemma line_step_order key l l' label : line_step key l l' label ->
  started key [label] ++ waiting l' `sublist_of` waiting l ++ accepted key [label] /\
  (gives_up key label = false -> started key [label] ++ waiting l' = waiting l ++ accepted key [label]).
Proof.
  unfold started, accepted. intros [work Hw _|fed old rest work Hw _ Hw' _|work _ Hw _|work r _ Hw _|work _ Hw _|lab Hl Hw _]; cbn.
  - rewrite decide_True by done. cbn. by rewrite Hw.
  - rewrite decide_True by done. cbn. rewrite Hw, Hw', <- app_assoc. cbn. split; [|by rewrite bool_decide_true].
    apply sublist_app; [done|]. by apply sublist_cons.
  - rewrite decide_True by done. cbn. by rewrite Hw, app_nil_r.
  - by rewrite Hw, app_nil_r.
  - rewrite Hw. split; [apply sublist_nil_l|by rewrite bool_decide_true].
  - rewrite Hw. destruct lab; cbn; rewrite ?decide_False by done; cbn; by rewrite app_nil_r.
Qed.

Lemma line_runs_order key l ls l' : line_runs key l ls l' ->
  started key ls ++ waiting l' `sublist_of` waiting l ++ accepted key ls /\
  (Forall (fun x => gives_up key x = false) ls -> started key ls ++ waiting l' = waiting l ++ accepted key ls).
Proof.
  induction 1 as [l|l label l' ls l'' Hs _ [IH1 IH2]]; [by rewrite app_nil_r|]. apply line_step_order in Hs as [Hs1 Hs2].
  change (label :: ls) with ([label] ++ ls). unfold started, accepted in *. rewrite !omap_app, <- app_assoc. split.
  - etrans; [by apply sublist_app; [done|exact IH1]|]. rewrite !app_assoc. by apply sublist_app.
  - intros [Hg Hgs]%Forall_cons. rewrite (IH2 Hgs), !app_assoc, (Hs2 Hg). done.
Qed.

Lemma running_once s key : sched_ok s -> (length (running (line s key)) <= 1)%nat.
Proof.
  intros [Ho _ _]. unfold owners in Ho. apply NoDup_app in Ho as (_ & _ & Ho). unfold line, running_of. cbn [running].
  revert Ho. generalize (workers s). intros ws. induction ws as [|[|k u|k] ws IH]; cbn; [lia|exact IH|..].
  - intros [Hn Hnd]%NoDup_cons. case_decide as Hk; [|by apply IH]. subst k. cbn. fold (running_of key ws). rewrite running_fresh by done. cbn. lia.
  - intros [Hn Hnd]%NoDup_cons. by apply IH.
Qed.

Lemma waiting_owned s key : sched_ok s -> waiting (line s key) <> [] -> key ∈ owners s.
Proof.
  intros Hok Hw. rewrite <- (ok_active s Hok). destruct (active s !! key) eqn:Ha; [by eexists|]. exfalso. cbn in Hw.
  rewrite Ha, app_nil_r in Hw. apply Hw. apply units_fresh. intros Hin.
  assert (Ho : key ∈ owners s) by (unfold owners; apply elem_of_app; by left). apply (ok_active s Hok) in Ho as [? Ho]. congruence.
Qed.

(** ** Every unit is run *)

(** The steps of the workers. *)
Definition worker_label (l : Label) : bool := match l with Start _ _ | Finish _ _ _ | Stop _ | Tau => true | _ => false end.

Definition worker_weight (w : Worker) : nat := match w with Idle => 0 | Between _ => 1 | Running _ _ => 2 end.
Definition queued (a : gmap K (list W)) : nat := map_fold (fun _ q n => length q + n)%nat O a.

(** How many steps the workers have left, at most. *)
Definition pending (s : Scheduler) : nat :=
  3 * length (feeder s) + 3 * queued (active s) + sum_list_with worker_weight (workers s).

Lemma queued_at a key q : a !! key = Some q -> queued a = (length q + queued (delete key a))%nat.
Proof. intros Ha. unfold queued. apply (map_fold_delete_L (fun _ q n => length q + n)%nat); [intros; lia|done]. Qed.

Lemma queued_delete a key : (queued (delete key a) <= queued a)%nat.
Proof. destruct (a !! key) as [q|] eqn:Ha; [rewrite (queued_at a key q Ha); lia|by rewrite delete_id]. Qed.

Lemma queued_insert a key q q' : a !! key = Some q -> (queued (<[key := q']> a) + length q = queued a + length q')%nat.
Proof. intros Ha. rewrite (queued_at a key q Ha), (queued_at _ key q') by apply lookup_insert_eq. rewrite delete_insert_eq. lia. Qed.

Lemma weights_middle a w b : sum_list_with worker_weight (a ++ w :: b) = (worker_weight w + (sum_list_with worker_weight a + sum_list_with worker_weight b))%nat.
Proof. rewrite sum_list_with_app. cbn. lia. Qed.

Lemma step_pending s l s' : gone s = false -> step s l s' -> worker_label l = true -> (pending s' < pending s)%nat.
Proof.
  intros Hg Hs Hl. destruct Hs as [k work s' Ha|k work old s' Ha|k work w s' Ha|i k work s' Ht Hw|i k work r s' Hi Hc Hf|i k work r s' Hi Hc Hf|i k work s' Hn Hw|i s' Hn Hw|]; try done; unfold pending.
  - unfold add_work, feed in Ha. rewrite Hg in Ha. destruct (active s !! k) as [q|]; [destruct (_ && _); [by destruct q|done]|]. cbn in Ha. by rewrite Hg in Ha.
  - apply take_work_cases in Ht as (a & b & k' & work' & rest & -> & -> & -> & -> & -> & _ & _). rewrite !weights_middle. cbn. lia.
  - unfold finish_work in Hf. rewrite Hi, Hc in Hf. injection Hf as <-. apply split_at in Hi as (a & b & Hws & Hins). cbn. rewrite Hins, Hws, !weights_middle. cbn. lia.
  - unfold finish_work in Hf. rewrite Hi, Hc in Hf. injection Hf as <-. apply split_at in Hi as (a & b & Hws & Hins). cbn. rewrite Hins, Hws, !weights_middle. cbn.
    pose proof (queued_delete (active s) k). lia.
  - apply next_work_cases in Hn as (a & b & k' & Hws & <- & Hfd & _ & [(work' & queue & Ha & Hws' & Hact)|(_ & Hws' & _)]);
      rewrite Hws' in Hw; apply at_middle in Hw; [|done]. rewrite Hfd, Hws, Hws', Hact, !weights_middle.
    pose proof (queued_insert (active s) k' _ queue Ha). cbn in *. lia.
  - apply next_work_cases in Hn as (a & b & k' & Hws & <- & Hfd & _ & [(work' & queue & Ha & Hws' & Hact)|(_ & Hws' & Hact)]);
      rewrite Hws' in Hw; apply at_middle in Hw; [done|]. rewrite Hfd, Hws, Hws', Hact, !weights_middle.
    pose proof (queued_delete (active s) k'). cbn in *. lia.
Qed.

(** The pool is alive, and so it stays. *)
Definition alive (s : Scheduler) : Prop := gone s = false /\ workers s <> [].

Lemma step_alive s l s' : step s l s' -> alive s -> alive s'.
Proof.
  intros Hs [Hg Hw]. assert (Hlen : length (workers s') = length (workers s) /\ gone s' = gone s).
  { destruct Hs as [k work s' Ha|k work old s' Ha|k work w s' Ha|i k work s' Ht _|i k work r s' Hi Hc Hf|i k work r s' Hi Hc Hf|i k work s' Hn _|i s' Hn _|]; [..|done].
    1-3: unfold add_work, feed in Ha; rewrite Hg in Ha; destruct (active s !! k) as [q|]; [destruct (_ && _); [destruct q|]|cbn in Ha; rewrite Hg in Ha]; by simplify_eq.
    - unfold take_work in Ht. repeat case_match; simplify_eq. cbn. by rewrite length_insert.
    - unfold finish_work in Hf. rewrite Hi, Hc in Hf. simplify_eq. cbn. by rewrite length_insert.
    - unfold finish_work in Hf. rewrite Hi, Hc in Hf. simplify_eq. cbn. by rewrite length_insert.
    - unfold next_work in Hn. repeat case_match; simplify_eq; cbn; by rewrite length_insert.
    - unfold next_work in Hn. repeat case_match; simplify_eq; cbn; by rewrite length_insert. }
  destruct Hlen as [Hlen Hg']. split; [by rewrite Hg'|]. intros He. rewrite He in Hlen. by destruct (workers s).
Qed.

Lemma busy_or_idle (ws : list Worker) : (exists w, w ∈ ws /\ w <> Idle) \/ forall w, w ∈ ws -> w = Idle.
Proof.
  induction ws as [|w ws [(w' & Hin & Hne)|IH]]; [right; by intros ? ?%elem_of_nil|left; exists w'; split; [by right|done]|].
  destruct w as [|k u|k]; [right|left; eexists; split; [by left|done]..]. intros w [->|Hin]%elem_of_cons; auto.
Qed.

(** While a key is owned, some worker can move. *)
Lemma owned_moves (r : R) s : alive s -> owners s <> [] -> exists l s', step s l s' /\ worker_label l = true.
Proof.
  intros [Hg Hw] Ho. destruct (busy_or_idle (workers s)) as [(w & Hin & Hne)|Hall].
  - apply list_elem_of_lookup in Hin as [i Hi]. destruct w as [|k work|k]; [done|..].
    + destruct (consumed s) eqn:Hc; eexists _, _.
      * split; [apply (step_finish _ i k work r); [done..|unfold finish_work; by rewrite Hi, Hc]|done].
      * split; [apply (step_stop _ i k work r); [done..|unfold finish_work; by rewrite Hi, Hc]|done].
    + destruct (active s !! k) as [[|work q]|] eqn:Ha.
      1,3: eexists Tau, _; (split; [apply (step_release _ i); [unfold next_work; by rewrite Hi, Ha|cbn; apply list_lookup_insert_eq; by eapply lookup_lt_Some]|done]).
      eexists (Start k work), _. split; [apply (step_next _ i); [unfold next_work; by rewrite Hi, Ha|cbn; apply list_lookup_insert_eq; by eapply lookup_lt_Some]|done].
  - destruct (workers s) as [|w ws] eqn:Hws; [done|]. rewrite (Hall w) in Hws by left.
    destruct (feeder s) as [|[k work] rest] eqn:Hf.
    { destruct Ho. unfold owners. rewrite Hf, Hws. cbn. assert (Hall' : forall w, w ∈ ws -> w = Idle) by (intros; apply Hall; by right).
      clear -Hall'. induction ws as [|w ws IH]; [done|]. rewrite (Hall' w) by left. cbn. apply IH. intros. apply Hall'. by right. }
    eexists (Start k work), _. split; [apply (step_take _ 0)|done]; [unfold take_work; by rewrite Hws, Hf|by cbn].
Qed.

Lemma worker_runs_bounded s ls s' : alive s -> runs s ls s' -> Forall (fun l => worker_label l = true) ls -> alive s' /\ (length ls + pending s' <= pending s)%nat.
Proof.
  intros Hal Hr. induction Hr as [|s l s' ls s'' Hs _ IH]; [by split; [|cbn]|]. intros [Hl Hls]%Forall_cons.
  destruct (IH (step_alive _ _ _ Hs Hal) Hls) as [Hal' Hp]. split; [done|]. destruct Hal as [Hg _].
  pose proof (step_pending _ _ _ Hg Hs Hl). cbn [length]. lia.
Qed.

Lemma runs_alive s ls s' : runs s ls s' -> alive s -> alive s'.
Proof. induction 1; eauto using step_alive. Qed.

Lemma new_alive n cap : alive (scheduler_new n cap).
Proof. split; [done|]. cbn. destruct (Nat.max n 1) eqn:Hn; [lia|done]. Qed.

Lemma no_owner_active s : sched_ok s -> owners s = [] -> active s = ∅.
Proof.
  intros Hok Ho. apply map_empty. intros k. apply eq_None_not_Some. rewrite (ok_active s Hok), Ho. by apply not_elem_of_nil.
Qed.

Lemma no_owner_done s key : sched_ok s -> owners s = [] -> line s key = MkLine [] [].
Proof.
  intros Hok Ho. pose proof (no_owner_active s Hok Ho) as Ha. unfold owners in Ho. apply app_nil in Ho as [Hf Hw]. unfold line. rewrite Ha, lookup_empty. cbn. f_equal.
  - destruct (feeder s); [done|by cbn in Hf].
  - apply running_fresh. rewrite Hw. apply not_elem_of_nil.
Qed.

(** Nothing is given up while the results are consumed and only the workers
    step. *)
Lemma worker_runs_keep s ls s' key : consumed s = true -> runs s ls s' -> Forall (fun l => worker_label l = true) ls ->
  Forall (fun l => gives_up key l = false) ls /\ accepted key ls = [].
Proof.
  intros Hc Hr. induction Hr as [|s l s' ls s'' Hs _ IH]; [by split|]. intros [Hl Hls]%Forall_cons.
  assert (Hc' : consumed s' = true /\ gives_up key l = false /\ accepted key [l] = []).
  { destruct Hs as [k work s' Ha|k work old s' Ha|k work w s' Ha|i k work s' Ht _|i k work r s' Hi _ Hf|i k work r s' Hi Hc' Hf|i k work s' Hn _|i s' Hn _|];
      try done; try congruence.
    - split_and!; [|done..]. unfold add_work, feed in Ha. repeat case_match; by simplify_eq.
    - unfold take_work in Ht. repeat case_match; by simplify_eq.
    - unfold finish_work in Hf. rewrite Hi, Hc in Hf. by simplify_eq.
    - unfold next_work in Hn. repeat case_match; by simplify_eq.
    - unfold next_work in Hn. repeat case_match; by simplify_eq. }
  destruct Hc' as (Hc' & Hg & Ha). destruct (IH Hc' Hls) as [IH1 IH2]. split; [by constructor|].
  change (l :: ls) with ([l] ++ ls). unfold accepted in *. by rewrite omap_app, Ha, IH2.
Qed.

Lemma step_cap s l s' : step s l s' -> key_queue_cap s' = key_queue_cap s.
Proof.
  destruct 1 as [k work s' Ha|k work old s' Ha|k work w s' Ha|i k work s' Ht _|i k work r s' Hi _ Hf|i k work r s' Hi _ Hf|i k work s' Hn _|i s' Hn _|]; [..|done].
  1-3: unfold add_work, feed in Ha; repeat case_match; by simplify_eq.
  - unfold take_work in Ht. repeat case_match; by simplify_eq.
  - unfold finish_work in Hf. repeat case_match; by simplify_eq.
  - unfold finish_work in Hf. repeat case_match; by simplify_eq.
  - unfold next_work in Hn. repeat case_match; by simplify_eq.
  - unfold next_work in Hn. repeat case_match; by simplify_eq.
Qed.

Lemma runs_cap s ls s' : runs s ls s' -> key_queue_cap s' = key_queue_cap s.
Proof. induction 1 as [|s l s' ls s'' Hs _ IH]; [done|]. rewrite IH. by eapply step_cap. Qed.

Lemma waiting_capped s key : sched_ok s -> (0 < key_queue_cap s)%nat -> (length (waiting (line s key)) <= S (key_queue_cap s))%nat.
Proof.
  intros Hok Hz. cbn [line waiting]. rewrite length_app. pose proof (fed_once s key Hok).
  destruct (active s !! key) as [q|] eqn:Ha; cbn; [|lia]. apply (ok_cap s Hok Hz) in Ha. cbn in Ha. lia.
Qed.

(** ** Units *)

(** A property of all units, wherever they are. *)
Definition units_ok (P : K -> W -> Prop) (s : Scheduler) : Prop :=
  Forall (fun p => P p.1 p.2) (feeder s) /\ map_Forall (fun k q => Forall (P k) q) (active s) /\
  Forall (fun w => match w with Running k u => P k u | _ => True end) (workers s).

Definition label_ok (P : K -> W -> Prop) (l : Label) : Prop := match l with Accept k w | Evict k _ w => P k w | _ => True end.

Lemma units_worker P (s : Scheduler) i w : Forall (fun w => match w with Running k u => P k u | _ => True end) (workers s) ->
  (match w with Running k u => P k u | _ => True end) -> Forall (fun w => match w with Running k u => P k u | _ => True end) (<[i:=w]> (workers s)).
Proof. intros Hw Hp. by apply Forall_insert. Qed.

Lemma units_queue (P : K -> W -> Prop) (a : gmap K (list W)) key q : map_Forall (fun k q => Forall (P k) q) a -> a !! key = Some q -> Forall (P key) q.
Proof. intros Ha Hk. by apply (Ha key q) in Hk. Qed.

(** What a step does to the units and the results. *)
Lemma step_units P s l s' : sched_ok s -> step s l s' -> label_ok P l -> units_ok P s ->
  units_ok P s' /\ match l with
  | Finish k w r => results s' = results s ++ [(w, r)] /\ P k w
  | Evict k old _ => results s' = results s /\ P k old
  | _ => results s' = results s
  end.
Proof.
  intros Hok Hs Hl (Hf & Ha & Hw).
  destruct Hs as [k work s' Hadd|k work old s' Hadd|k work w s' Hadd|i k work s' Ht _|i k work r s' Hi Hc Hfin|i k work r s' Hi Hc Hfin|i k work s' Hn _|i s' Hn _|].
  - apply add_work_Ok in Hadd as [(_ & ? & _)|[(Hnone & _ & ->)|[(queue & Hq & _ & _ & ->)|(? & ? & _ & ? & _)]]]; try done; (split; [|done]).
    + split_and!; [by apply Forall_app; split; [|constructor]|apply map_Forall_insert_2; [constructor|done]|done].
    + split_and!; [done|apply map_Forall_insert_2; [|done]|done]. apply Forall_app. split; [by eapply units_queue|by constructor].
  - apply add_work_Ok in Hadd as [(_ & ? & _)|[(_ & ? & _)|[(? & _ & ? & _)|(old' & queue & Hq & [= ->] & ->)]]]; try done.
    pose proof (units_queue _ _ _ _ Ha Hq) as [Hold Hrest]%Forall_cons. split; [|done].
    split_and!; [done|apply map_Forall_insert_2; [|done]|done]. apply Forall_app. split; [done|by constructor].
  - apply add_work_Ok in Hadd as [(_ & _ & ->)|[(_ & ? & _)|[(? & _ & ? & _)|(? & ? & _ & ? & _)]]]; done.
  - unfold take_work in Ht. repeat case_match; simplify_eq. apply Forall_cons in Hf as [Hp Hf]. split; [|done]. split_and!; [done|done|by apply units_worker].
  - unfold finish_work in Hfin. rewrite Hi, Hc in Hfin. simplify_eq. split; [split_and!; [done|done|by apply units_worker]|].
    split; [done|]. rewrite Forall_forall in Hw. apply (Hw _ (list_elem_of_lookup_2 _ _ _ Hi)).
  - unfold finish_work in Hfin. rewrite Hi, Hc in Hfin. simplify_eq. split; [|done]. split_and!; [done|by apply map_Forall_delete|by apply units_worker].
  - unfold next_work in Hn. repeat case_match; simplify_eq; (split; [|done]).
    1,3: split_and!; [done|by apply map_Forall_delete|by apply units_worker].
    match goal with H : active s !! ?k = Some (_ :: _) |- _ => pose proof (units_queue _ _ _ _ Ha H) as [Hp Hq]%Forall_cons end.
    split_and!; [done|by apply map_Forall_insert_2|by apply units_worker].
  - unfold next_work in Hn. repeat case_match; simplify_eq; (split; [|done]).
    1,3: split_and!; [done|by apply map_Forall_delete|by apply units_worker].
    match goal with H : active s !! ?k = Some (_ :: _) |- _ => pose proof (units_queue _ _ _ _ Ha H) as [Hp Hq]%Forall_cons end.
    split_and!; [done|by apply map_Forall_insert_2|by apply units_worker].
  - by split.
Qed.

(** C13. The scheduler refines a queue per key. However the dispatcher, the
    workers and the receiver of the results interleave, starting from
    [Scheduler::new]: what happens to a key is a run of its line, in which one
    unit at most runs at a time; the units of a key start in the order they
    were accepted, and none is lost unless the queue was full or the results
    were dropped; a key with units waiting is fed to the workers or held by one
    of them; and a queue does not outgrow its cap. *)
Theorem keys_run_in_order n cap ls s key : runs (scheduler_new n cap) ls s ->
  line_runs key (MkLine [] []) ls (line s key) /\
  (length (running (line s key)) <= 1)%nat /\
  started key ls ++ waiting (line s key) `sublist_of` accepted key ls /\
  (Forall (fun l => gives_up key l = false) ls -> started key ls ++ waiting (line s key) = accepted key ls) /\
  (waiting (line s key) <> [] -> key ∈ owners s) /\
  ((0 < cap)%nat -> (length (waiting (line s key)) <= S cap)%nat).
Proof.
  intros Hr. pose proof (runs_ok _ _ _ (new_ok n cap) Hr) as Hok. pose proof (runs_lines _ _ _ key (new_ok n cap) Hr) as Hl.
  replace (line (scheduler_new n cap) key) with (MkLine [] []) in Hl
    by (symmetry; apply no_owner_done; [apply new_ok|apply owners_new]).
  pose proof (line_runs_order _ _ _ _ Hl) as [Hs He]. split_and!; [done|by apply running_once|done|done|by apply waiting_owned|].
  assert (Hcap : key_queue_cap s = cap) by by rewrite (runs_cap _ _ _ Hr). intros Hc. rewrite <- Hcap in Hc |- *. by apply waiting_capped.
Qed.

(** C14. No unit is left behind. From any state the scheduler can be in, the
    workers by themselves come to rest: they take at most [pending] steps; and
    where they can take no more, no key is owned, nothing waits and nothing
    runs, and, if the results are consumed, the units that waited under each
    key have been started, each once, in their order. *)
Theorem units_all_run (r : R) n cap ls0 s ls s' : runs (scheduler_new n cap) ls0 s ->
  runs s ls s' -> Forall (fun l => worker_label l = true) ls ->
  (length ls + pending s' <= pending s)%nat /\
  ((forall l s'', step s' l s'' -> worker_label l = false) ->
   active s' = ∅ /\
   forall key, line s' key = MkLine [] [] /\ (consumed s = true -> started key ls = waiting (line s key))).
Proof.
  intros Hr0 Hr Hw. pose proof (runs_ok _ _ _ (new_ok n cap) Hr0) as Hok. pose proof (runs_alive _ _ _ Hr0 (new_alive n cap)) as Hal.
  destruct (worker_runs_bounded _ _ _ Hal Hr Hw) as [Hal' Hp]. split; [done|]. intros Hend. pose proof (runs_ok _ _ _ Hok Hr) as Hok'.
  assert (Ho : owners s' = []).
  { destruct (owners s') as [|k l] eqn:Ho; [done|]. destruct (owned_moves r s' Hal') as (lab & s'' & Hs & Hl); [by rewrite Ho|].
    apply Hend in Hs. congruence. }
  split; [by apply no_owner_active|]. intros key. pose proof (no_owner_done s' key Hok' Ho) as Hline. split; [done|]. intros Hc.
  destruct (worker_runs_keep _ _ _ key Hc Hr Hw) as [Hkeep Hacc]. destruct (line_runs_order key _ _ _ (runs_lines _ _ _ key Hok Hr)) as [_ He].
  specialize (He Hkeep). rewrite Hline, Hacc in He. cbn [waiting] in He. by rewrite !app_nil_r in He.
Qed.
End Scheduler.

(** ** A run of three units under two keys *)

(** Two workers, a cap of one. The third unit of the first key displaces the
    second. *)
Definition ex_labels : list (Label (K:=nat) (W:=nat) (R:=nat)) :=
  [Accept 1 10; Start 1 10; Accept 1 11; Accept 2 20; Evict 1 11 12; Start 2 20; Finish 1 10 0; Start 1 12]%nat.

Definition ex_scheduler : Scheduler (K:=nat) (W:=nat) (R:=nat) :=
  MkScheduler 1 (<[2%nat := []]> (<[1%nat := []]> ∅)) [] [Running 1 12; Running 2 20]%nat [(10, 0)]%nat false true.

Lemma ex_runs : runs (scheduler_new 2 1) ex_labels ex_scheduler.
Proof.
  eapply runs_cons; [eapply step_queued; vm_compute; reflexivity|].
  eapply runs_cons; [eapply (step_take _ 0); vm_compute; reflexivity|].
  eapply runs_cons; [eapply step_queued; vm_compute; reflexivity|].
  eapply runs_cons; [eapply step_queued; vm_compute; reflexivity|].
  eapply runs_cons; [eapply step_dropped; vm_compute; reflexivity|].
  eapply runs_cons; [eapply (step_take _ 1); vm_compute; reflexivity|].
  eapply runs_cons; [eapply (step_finish _ 0); vm_compute; reflexivity|].
  eapply runs_cons; [eapply (step_next _ 0); vm_compute; reflexivity|].
  apply runs_nil.
Qed.

(** Two units under one key: the workers finish on their own. *)
Definition ex_two : list (Label (K:=nat) (W:=nat) (R:=nat)) := [Accept 1 10; Start 1 10; Accept 1 11]%nat.

Definition ex_busy : Scheduler (K:=nat) (W:=nat) (R:=nat) := MkScheduler 1 {[1 := [11]]}%nat [] [Running 1 10; Idle]%nat [] false true.

Lemma ex_two_runs : runs (scheduler_new 2 1) ex_two ex_busy.
Proof.
  eapply runs_cons; [eapply step_queued; vm_compute; reflexivity|].
  eapply runs_cons; [eapply (step_take _ 0); vm_compute; reflexivity|].
  eapply runs_cons; [eapply step_queued; vm_compute; reflexivity|].
  apply runs_nil.
Qed.

Definition ex_rest : list (Label (K:=nat) (W:=nat) (R:=nat)) := [Finish 1 10 0; Start 1 11; Finish 1 11 0; Tau]%nat.

Definition ex_end : Scheduler (K:=nat) (W:=nat) (R:=nat) := MkScheduler 1 ∅ [] [Idle; Idle] [(10, 0); (11, 0)]%nat false true.

Lemma ex_rest_runs : runs ex_busy ex_rest ex_end.
Proof.
  eapply runs_cons; [eapply (step_finish _ 0); vm_compute; reflexivity|].
  eapply runs_cons; [eapply (step_next _ 0); vm_compute; reflexivity|].
  eapply runs_cons; [eapply (step_finish _ 0); vm_compute; reflexivity|].
  eapply runs_cons; [eapply (step_release _ 0); vm_compute; reflexivity|].
  apply runs_nil.
Qed.

Lemma ex_end_rests l s : step ex_end l s -> worker_label l = false.
Proof.
  intros Hs. destruct Hs as [k work s' Ha|k work old s' Ha|k work w s' Ha|i k work s' Ht _|i k work r s' Hi|i k work r s' Hi|i k work s' Hn _|i s' Hn _|]; try done.
  - unfold take_work, ex_end in Ht. cbn in Ht. by repeat case_match.
  - by destruct i as [|[|[|]]].
  - by destruct i as [|[|[|]]].
  - unfold next_work in Hn. by destruct i as [|[|[|]]].
Qed.

Example keys_run_in_order_witness : started 1%nat ex_labels ++ waiting (line ex_scheduler 1%nat) `sublist_of` accepted 1%nat ex_labels.
Proof. exact (proj1 (proj2 (proj2 (keys_run_in_order 2 1 ex_labels ex_scheduler 1%nat ex_runs)))). Defined.

Example units_all_run_witness : active ex_end = ∅ /\ started 1%nat ex_rest = waiting (line ex_busy 1%nat).
Proof.
  destruct (units_all_run 0%nat 2 1 ex_two ex_busy ex_rest ex_end ex_two_runs ex_rest_runs
    ltac:(repeat constructor)) as [_ Hend].
  destruct (Hend ex_end_rests) as [Ha Hk]. exact (conj Ha (proj2 (Hk 1%nat) eq_refl)).
Defined.
