(* ===== verification/StreamClient.v ===== *)
(** The events of a verified stream: the conversions and cursors of
    [src/src/streaming/client.rs].

    A client with a verifier hands each frame to it and delivers what it
    returns. What is delivered for a commit is what was accepted of it. The
    frames of a stream are numbered; how the cursor over them moves is in
    [StreamSerial] and [StreamDispatch].

    What a cursor promises: the specification that the serial and the parallel
    streams of [src/src/streaming/client.rs] are shown to meet.

    A client that restarts from its cursor is sent the frames numbered above
    it. So a frame numbered at or below the cursor must have been dealt with:
    its event delivered, its error yielded, or nothing to tell. A ledger
    relates the cursor to what a stream has handled and what it has told. *)
From S2P Require Import Prelude StateError SyntaxError CborError Cid CborValue CborDecode StreamEvents.
From S2P Require CborEncode Crypto Did Nsid RecordKey Tid CborCodec RepoCommit RepoProof SyncRaw SyncInvert SyncResync SyncState SyncVerifier SyncChain SyncAccept.
Import SyncRaw(RawSyncEvent(..)).

Section Client.
Context `{Sha2} `{Simdutf8} `{SyncInvert.Outside} {S W V : Type} `{!SyncState.StateStore S} `{!SyncVerifier.Environment W V} `{!Crypto.VerifyingKey V}.
Variable options : SyncVerifier.VerifierOptions.
Abbreviation Verified := (SyncVerifier.Verifier S W).
Abbreviation client := (st Verified StreamError).
Abbreviation stream_res := (res StreamError).

(** ** From the verifier's operations to events *)

Definition operation_from_verifier_op (op : SyncResync.VerifierOp) : stream_res Operation :=
  '(collection, rkey) ← parse_path "invalid op collection" "invalid op rkey" (SyncResync.v_path op);
  let action := SyncResync.v_action op in
  if bool_decide (action = b# "create") then
    cid ← ok_or (ParseCbor (Because "create op missing cid")) (SyncResync.v_cid op);
    Ok (Create collection rkey cid (SyncResync.v_record op))
  else if bool_decide (action = b# "update") then
    cid ← ok_or (ParseCbor (Because "update op missing cid")) (SyncResync.v_cid op);
    Ok (Update collection rkey cid (SyncResync.v_record op))
  else if bool_decide (action = b# "delete") then Ok (Delete collection rkey)
  else if bool_decide (action = b# "resync") then Ok (OpResync collection rkey (SyncResync.v_cid op) (SyncResync.v_record op))
  else Err (ParseCbor (About "unknown verified op action" action)).

Fixpoint operations_from (ops : list SyncResync.VerifierOp) : stream_res (list Operation) :=
  match ops with
  | [] => Ok []
  | op :: ops => o ← operation_from_verifier_op op; rest ← operations_from ops; Ok (o :: rest)
  end.

Definition event_from_verifier_ops (did : Did.Did) (rev seq : Z) (ops : list SyncResync.VerifierOp) : stream_res Event :=
  operations ← operations_from ops; Ok (EventCommit did rev seq operations).

Definition event_from_resync_event (event : SyncVerifier.ResyncEvent) : stream_res Event :=
  rev ← map_err (fun e => ParseCbor (OfSyntax "invalid resync rev" e)) (Tid.try_from (SyncVerifier.ev_new_rev event));
  event_from_verifier_ops (SyncVerifier.ev_did event) rev 0 (SyncVerifier.ev_ops event).

(** ** Frames *)

Record VerifyOutcome := MkOutcome { event : option Event; seq : Z }.

Definition event_seq (event : Event) : Z :=
  match event with EventCommit _ _ seq _ | EventIdentity _ seq _ | EventAccount _ seq _ | EventLabels seq _ => seq end.

Definition raw_event_seq (raw : RawSyncEvent) : Z :=
  match raw with
  | EvCommit c => SyncRaw.seq c
  | EvSync s => SyncRaw.s_seq s
  | EvAccount a => SyncRaw.a_seq a
  | EvIdentity i => SyncRaw.i_seq i
  | EvInfo => 0
  end.

Definition frame_key (raw : RawSyncEvent) : option Did.Did :=
  match raw with
  | EvCommit c => Some (SyncRaw.repo c)
  | EvSync s => Some (SyncRaw.s_did s)
  | EvAccount a => Some (SyncRaw.a_did a)
  | EvIdentity i => Some (SyncRaw.i_did i)
  | EvInfo => None
  end.

(** [?] on a call of the verifier. *)
Definition from_verifier {A} (m : st Verified SyncInvert.VerifierError A) : client A := fun v =>
  let '(r, v) := m v in (map_err Verifier r, v).

(** [.map(|ops| event_from_verifier_ops(..)).transpose()?] *)
Definition transpose_event (did : Did.Did) (rev seq : Z) (ops : option (list SyncResync.VerifierOp)) : stream_res (option Event) :=
  match ops with Some ops => e ← event_from_verifier_ops did rev seq ops; Ok (Some e) | None => Ok None end.

Definition verify_raw_event (raw : RawSyncEvent) : client VerifyOutcome :=
  match raw with
  | EvCommit raw =>
      ops ← from_verifier (SyncVerifier.verify_commit options raw);
      event ← lift (transpose_event (SyncRaw.repo raw) (SyncRaw.rev raw) (SyncRaw.seq raw) ops);
      mret (MkOutcome event (SyncRaw.seq raw))
  | EvSync raw =>
      rev ← lift (map_err (fun e => ParseCbor (OfSyntax "invalid sync rev" e)) (Tid.try_from (SyncRaw.s_rev raw)));
      ops ← from_verifier (SyncVerifier.verify_sync options raw);
      event ← lift (transpose_event (SyncRaw.s_did raw) rev (SyncRaw.s_seq raw) ops);
      mret (MkOutcome event (SyncRaw.s_seq raw))
  | EvAccount raw =>
      r ← from_verifier (attempt (SyncVerifier.on_account_event raw));
      _ ← (match r with Err err => SyncVerifier.report_async_error err | _ => mret () end);
      mret (MkOutcome (Some (EventAccount (SyncRaw.a_did raw) (SyncRaw.a_seq raw) (SyncRaw.a_active raw))) (SyncRaw.a_seq raw))
  | EvIdentity raw =>
      mret (MkOutcome (Some (EventIdentity (SyncRaw.i_did raw) (SyncRaw.i_seq raw) (SyncRaw.i_handle raw))) (SyncRaw.i_seq raw))
  | EvInfo => mret (MkOutcome None 0)
  end.

Definition verify_firehose_frame (data : bytes) : client VerifyOutcome :=
  raw ← lift (map_err (fun e => ParseCbor (OfRaw e)) (SyncRaw.parse_raw_sync_frame data));
  verify_raw_event raw.

(** With or without a verifier. *)
Definition parse_firehose_outcome (verifier : bool) (data : bytes) : client VerifyOutcome :=
  if verifier then verify_firehose_frame data
  else
    event ← lift (parse_firehose_frame data);
    mret (MkOutcome (Some event) (event_seq event)).

(** ** Cursors *)

(** [.filter(|&s| s > 0).max().unwrap_or(0)] *)
Definition highest_seq (batch : list Event) : Z := foldr Z.max 0 (filter (fun s => 0 < s) (map event_seq batch)).

(** [if target > 0 { cursor.fetch_max(target) }] *)
Definition fetch_max (cursor target : Z) : Z := if 0 <? target then Z.max cursor target else cursor.

(** The cursor and the watermark after. *)
Definition update_firehose_cursor (cursor : Z) (batch : list Event) (watermark : Z) : Z * Z :=
  (fetch_max cursor (Z.max (highest_seq batch) watermark), 0).

Lemma highest_seq_nonneg batch : 0 <= highest_seq batch.
Proof. unfold highest_seq. induction (filter _ _); cbn; lia. Qed.

Lemma highest_seq_le batch m : 0 <= m -> Forall (fun e => event_seq e <= m) batch -> highest_seq batch <= m.
Proof.
  intros Hm. unfold highest_seq. induction 1 as [|e batch He _ IH]; [done|]. cbn [map]. rewrite filter_cons. case_decide; [cbn; lia|done].
Qed.

Lemma highest_seq_ge batch e : e ∈ batch -> event_seq e <= highest_seq batch.
Proof.
  induction batch as [|e' batch IH]; [by intros ?%elem_of_nil|]. pose proof (highest_seq_nonneg batch) as Hn. unfold highest_seq in *. cbn [map].
  rewrite filter_cons. intros [->|Hin]%elem_of_cons; [case_decide; cbn; lia|]. specialize (IH Hin). case_decide; cbn; lia.
Qed.

Lemma fetch_max_le cursor target : cursor <= fetch_max cursor target.
Proof. unfold fetch_max. destruct (Z.ltb_spec 0 target); lia. Qed.
End Client.

(** ** What is delivered *)

Section Delivered.
Context `{CborDecode.Simdutf8Laws} `{Sha2Laws} `{SyncInvert.Outside} {S W V : Type} `{!SyncState.StateStore S} `{!SyncState.StateStoreLaws S}
  `{!SyncVerifier.Environment W V} `{!SyncVerifier.EnvironmentLaws W V} `{!Crypto.VerifyingKey V}.
Hypothesis verify_no_panic : forall (key : V) content s, no_panic (Crypto.verify_sig key content s).
Variable options : SyncVerifier.VerifierOptions.
Hypothesis limit_small : SyncResync.max_block_bytes (SyncVerifier.repo_load_limits options) < usize_max.
Hypothesis limits_nonneg : 0 <= SyncResync.max_blocks (SyncVerifier.repo_load_limits options) /\
  0 <= SyncResync.max_block_bytes (SyncVerifier.repo_load_limits options) /\
  0 <= SyncResync.max_car_bytes (SyncVerifier.repo_load_limits options) < usize_max.
Abbreviation Verified := (SyncVerifier.Verifier S W).

(** An operation shows one of the verifier's: its path parsed, its CID and its
    record. *)
Definition shows (op : SyncResync.VerifierOp) (o : Operation) : Prop :=
  exists x y c r, split_once (SyncResync.v_path op) = Some (x, y) /\ Nsid.try_from x = Ok c /\ RecordKey.try_from y = Ok r /\
  match o with
  | Create c' r' cid record => (c', r') = (c, r) /\ SyncResync.v_action op = b# "create" /\ SyncResync.v_cid op = Some cid /\ record = SyncResync.v_record op
  | Update c' r' cid record => (c', r') = (c, r) /\ SyncResync.v_action op = b# "update" /\ SyncResync.v_cid op = Some cid /\ record = SyncResync.v_record op
  | Delete c' r' => (c', r') = (c, r) /\ SyncResync.v_action op = b# "delete"
  | OpResync c' r' cid record => (c', r') = (c, r) /\ SyncResync.v_action op = b# "resync" /\ SyncResync.v_cid op = cid /\ record = SyncResync.v_record op
  end.

Lemma operation_fine op : fine (shows op) (operation_from_verifier_op op).
Proof.
  unfold operation_from_verifier_op. pose proof (parse_path_no_panic "invalid op collection" "invalid op rkey" (SyncResync.v_path op)) as Hn.
  destruct (parse_path _ _ _) as [[c r]|e|] eqn:Hp; [|done..]. apply parse_path_Ok in Hp as (x & y & Hs & Hc & Hr). cbn.
  repeat case_bool_decide; destruct (SyncResync.v_cid op) eqn:Hcid; cbn; try done; exists x, y, c, r; by rewrite ?Hcid.
Qed.

Lemma operations_fine ops : fine (Forall2 shows ops) (operations_from ops).
Proof.
  induction ops as [|op ops IH]; [constructor|]. cbn [operations_from]. eapply fine_bind; [apply operation_fine|]. intros o Ho.
  eapply fine_bind; [exact IH|]. intros os Hos. by constructor.
Qed.

Lemma event_fine did rev n ops : fine (fun e => exists operations, e = EventCommit did rev n operations /\ Forall2 shows ops operations)
  (event_from_verifier_ops did rev n ops).
Proof. eapply fine_bind; [apply operations_fine|]. intros os Hos. by exists os. Qed.

(** A resync is delivered as a commit of the new revision, without a number. *)
Lemma resync_event_fine ev : fine (fun e => exists rev operations, Tid.try_from (SyncVerifier.ev_new_rev ev) = Ok rev /\
  e = EventCommit (SyncVerifier.ev_did ev) rev 0 operations /\ Forall2 shows (SyncVerifier.ev_ops ev) operations) (event_from_resync_event ev).
Proof.
  unfold event_from_resync_event. pose proof (RepoCommit.tid_try_from_no_panic (SyncVerifier.ev_new_rev ev)) as Hn.
  destruct (Tid.try_from _) as [rev|e|] eqn:Ht; [|done..]. cbn. eapply fine_weaken; [apply event_fine|].
  intros e (os & -> & Hos). by exists rev, os.
Qed.

(** What a call of [verify_raw_event] may return. *)
Definition returns (raw : RawSyncEvent) (r : res StreamError VerifyOutcome) : Prop :=
  fine (fun o => seq o = raw_event_seq raw /\ forall e, event o = Some e -> event_seq e = raw_event_seq raw) r.

(** The record of an operation is the block that its archive has for the CID,
    and hashes to it; only where the archive has none is it empty. *)
Definition carries (blocks : list Car.BlockRef) (op : Operation) : Prop :=
  match op with
  | Create _ _ k d | Update _ _ k d =>
      Car.MkBlock k d ∈ blocks /\ compute (codec k) d = k \/ d = [] /\ forall data, Car.MkBlock k data ∉ blocks
  | _ => True
  end.

(** What it delivers, and what it leaves in the store. *)
Definition delivered (raw : RawSyncEvent) (v v' : Verified) (o : VerifyOutcome) : Prop :=
  match raw with
  | EvCommit c =>
      match event o with
      | None => SyncAccept.same_state (SyncVerifier.state_store v) (SyncVerifier.state_store v')
      | Some e => exists decoded ops operations,
          SyncAccept.accepted options c (SyncVerifier.state_store v) decoded ops /\
          SyncAccept.saved (SyncRaw.repo c) (SyncAccept.new_chain c decoded) (SyncVerifier.state_store v) (SyncVerifier.state_store v') /\
          e = EventCommit (SyncRaw.repo c) (SyncRaw.rev c) (SyncRaw.seq c) operations /\
          Forall2 same_op (SyncRaw.ops c) operations /\
          exists roots blocks, CarSlice.read_slice (SyncRaw.blocks c) = Ok (roots, blocks) /\ Forall (carries blocks) operations
      end
  | EvSync s => forall e, event o = Some e -> exists rev operations,
      Tid.try_from (SyncRaw.s_rev s) = Ok rev /\ e = EventCommit (SyncRaw.s_did s) rev (SyncRaw.s_seq s) operations
  | EvAccount a => event o = Some (EventAccount (SyncRaw.a_did a) (SyncRaw.a_seq a) (SyncRaw.a_active a))
  | EvIdentity i => event o = Some (EventIdentity (SyncRaw.i_did i) (SyncRaw.i_seq i) (SyncRaw.i_handle i)) /\ v' = v
  | EvInfo => event o = None /\ v' = v
  end.

(** The operations of an accepted commit are of the three kinds. *)
Lemma checked_actions raw ops t : (for_each (SyncInvert.check_op raw) ops t).1 = Ok () ->
  Forall (fun op => SyncRaw.action op = b# "create" \/ SyncRaw.action op = b# "update" \/ SyncRaw.action op = b# "delete") ops.
Proof.
  revert t. induction ops as [|op ops IH]; intros t; cbn [for_each]; [constructor|]. unfold mbind, st_bind.
  destruct (SyncInvert.check_op raw op t) as [[u|e|] t1] eqn:Hc; [|done..]. intros Hr. constructor; [|by eapply IH].
  unfold SyncInvert.check_op in Hc. repeat case_bool_decide; [tauto|by right; right|done].
Qed.

(** A delivered operation shows the event's, and its record is the block of
    its CID, where the archive has that. *)
Lemma shows_same raw store blocks op out o : SyncInvert.all_hashed (SyncInvert.car_blocks store) ->
  (forall c data, SyncInvert.car_blocks store !! c = Some data <-> Car.MkBlock c data ∈ blocks) ->
  SyncRaw.action op = b# "create" \/ SyncRaw.action op = b# "update" \/ SyncRaw.action op = b# "delete" ->
  SyncAccept.op_with_record raw store op out -> shows out o -> same_op op o /\ carries blocks o.
Proof.
  intros Hh Hbs Ha [-> Hrec] (x & y & c & r & Hs & Hc & Hr & Hm). cbn [SyncResync.v_path SyncResync.v_action SyncResync.v_cid SyncResync.v_record] in *.
  assert (Hblock : forall k, SyncRaw.op_cid op = Some k -> let d := SyncResync.v_record out in
    Car.MkBlock k d ∈ blocks /\ compute (codec k) d = k \/ d = [] /\ forall data, Car.MkBlock k data ∉ blocks).
  { intros k Hk. rewrite Hk in Hrec. cbn in Hrec. unfold SyncInvert.car_store_get in Hrec. cbn.
    destruct (SyncInvert.car_blocks store !! k) as [d|] eqn:Hd; cbn in Hrec; rewrite Hrec.
    - left. split; [by apply Hbs|by apply Hh].
    - right. split; [done|]. intros data Hin%Hbs. congruence. }
  destruct o; destruct Hm as [[= -> ->] Hm].
  - destruct Hm as (Hact & Hcid & ->). split; [by exists x, y|by apply Hblock].
  - destruct Hm as (Hact & Hcid & ->). split; [by exists x, y|by apply Hblock].
  - split; [by exists x, y|done].
  - destruct Hm as (Hact & _). rewrite Hact in Ha. by destruct Ha as [|[|]].
Qed.

Lemma commit_delivered c v : SyncChain.commit_event c ->
  let '(r, v') := verify_raw_event options (EvCommit c) v in
  fine (fun o => (seq o = SyncRaw.seq c /\ forall e, event o = Some e -> event_seq e = SyncRaw.seq c) /\ delivered (EvCommit c) v v' o) r.
Proof.
  intros Hc. pose proof (SyncAccept.verify_commit_outcome verify_no_panic options c v Hc) as Ho. cbn [verify_raw_event].
  unfold mbind, st_bind, from_verifier. destruct (SyncVerifier.verify_commit options c v) as [[[ops|]|e|] v']; destruct Ho as [Ho _]; cbn [map_err]; [| |done..].
  - destruct Ho as (decoded & Ha & Hs). cbn [transpose_event lift]. pose proof (event_fine (SyncRaw.repo c) (SyncRaw.rev c) (SyncRaw.seq c) ops) as He.
    destruct (event_from_verifier_ops _ _ _ ops) as [e|err|]; [|done..]. destruct He as (os & -> & Hos). cbn. split; [split; [done|by intros e [= <-]]|].
    destruct (SyncAccept.ac_decoded _ _ _ _ _ Ha) as [_ Hdf]. destruct (SyncInvert.df_car _ _ Hdf) as (roots & bs & Hread & _ & Hbs).
    exists decoded, ops, os. split; [done|]. split; [done|]. split; [done|].
    assert (Hall : Forall2 (fun op o => same_op op o /\ carries bs o) (SyncRaw.ops c) os).
    { pose proof (SyncAccept.ac_out _ _ _ _ _ Ha) as Hout. pose proof (SyncAccept.ac_ops _ _ _ _ _ Ha) as Hact. apply checked_actions in Hact.
      pose proof (SyncInvert.df_hashed _ _ Hdf) as Hh. clear -Hout Hos Hact Hh Hbs. revert os Hos Hact. induction Hout as [|op out rops routs Hop _ IH];
        intros os Hos Hact; inversion Hos as [|? o ? os' Ho Hrest]; subst; constructor; inversion Hact; subst; [by eapply shows_same|auto]. }
    split; [eapply Forall2_impl; [exact Hall|]; by intros ? ? []|]. exists roots, bs. split; [done|].
    eapply Forall2_Forall_r; [exact Hall|]. apply Forall_forall. by intros ? ? ? [].
  - cbn. split; [split; [done|by intros e [=]]|exact Ho].
Qed.

Lemma sync_delivered s v : SyncChain.sync_event s ->
  let '(r, v') := verify_raw_event options (EvSync s) v in
  fine (fun o => (seq o = SyncRaw.s_seq s /\ forall e, event o = Some e -> event_seq e = SyncRaw.s_seq s) /\ delivered (EvSync s) v v' o) r.
Proof.
  intros Hs. cbn [verify_raw_event]. unfold mbind, st_bind, lift. pose proof (RepoCommit.tid_try_from_no_panic (SyncRaw.s_rev s)) as Hn.
  destruct (Tid.try_from (SyncRaw.s_rev s)) as [rev|e|] eqn:Ht; [|done..]. cbn [map_err].
  destruct (SyncChain.moves_verify_sync verify_no_panic options limit_small limits_nonneg s Hs v I) as [_ Hp]. unfold from_verifier.
  destruct (SyncVerifier.verify_sync options s v) as [[ops|e|] v']; cbn [map_err]; [|done..].
  destruct ops as [ops|]; cbn [transpose_event]; [|cbn; split; [split; [done|by intros e [=]]|by intros e [=]]].
  pose proof (event_fine (SyncRaw.s_did s) rev (SyncRaw.s_seq s) ops) as He.
  destruct (event_from_verifier_ops _ _ _ ops) as [e|err|]; [|done..]. destruct He as (os & -> & _). cbn.
  split; [split; [done|by intros e [= <-]]|]. intros e [= <-]. by exists rev, os.
Qed.

Lemma account_delivered a v :
  let '(r, v') := verify_raw_event options (EvAccount a) v in
  fine (fun o => (seq o = SyncRaw.a_seq a /\ forall e, event o = Some e -> event_seq e = SyncRaw.a_seq a) /\ delivered (EvAccount a) v v' o) r.
Proof.
  cbn [verify_raw_event]. unfold mbind, st_bind, from_verifier, attempt. destruct (SyncChain.moves_account a v I) as [_ Hp].
  destruct (SyncVerifier.on_account_event a v) as [[u|e|] v']; cbn [map_err]; [| |done]; cbn; (split; [split; [done|by intros ? [= <-]]|done]).
Qed.

Lemma raw_delivered raw v : SyncChain.event_ok raw ->
  let '(r, v') := verify_raw_event options raw v in
  fine (fun o => (seq o = raw_event_seq raw /\ forall e, event o = Some e -> event_seq e = raw_event_seq raw) /\ delivered raw v v' o) r.
Proof.
  destruct raw as [c|s|a|i|]; intros Hr; cbn [raw_event_seq].
  - by apply commit_delivered.
  - by apply sync_delivered.
  - apply account_delivered.
  - cbn. split; [split; [done|by intros ? [= <-]]|done].
  - cbn. split; [split; [done|by intros ? [=]]|done].
Qed.

Lemma verify_raw_event_returns raw v : SyncChain.event_ok raw -> returns raw (verify_raw_event options raw v).1.
Proof.
  intros Hr. pose proof (raw_delivered raw v Hr) as Hd. destruct (verify_raw_event options raw v) as [r v']. eapply fine_weaken; [exact Hd|]. by intros o [].
Qed.

(** C15. A stream with a verifier, on a frame of any bytes, does not panic, and
    delivers only what the frame says and the verifier accepts: for a commit,
    an event with its DID, revision and number, whose operations are the
    commit's, each record the block of its CID in the commit's archive, hashed,
    and empty only where the archive has none, after the commit has passed all
    checks and its state has been saved; for
    an account or an identity, that event, whatever becomes of the hosting
    state; and an outcome carries its frame's number, event or not. *)
Theorem verified_frame_spec data v : Forall is_u8 data -> Z.of_nat (length data) <= i64_max ->
  let '(r, v') := verify_firehose_frame options data v in
  no_panic r /\
  forall o, r = Ok o -> exists raw, SyncRaw.frame_means data raw /\ seq o = raw_event_seq raw /\
    (forall e, event o = Some e -> event_seq e = raw_event_seq raw) /\ delivered raw v v' o.
Proof.
  intros Hu Hl. unfold verify_firehose_frame, mbind, st_bind, lift. pose proof (SyncRaw.parse_raw_sync_frame_no_panic data) as Hn.
  destruct (SyncRaw.parse_raw_sync_frame data) as [raw|e|] eqn:Hp; [|by split|done]. cbn [map_err]. apply SyncRaw.parse_raw_sync_frame_Ok in Hp; [|done..].
  pose proof (raw_delivered raw v (SyncChain.frame_event_ok data raw Hp)) as Hd. destruct (verify_raw_event options raw v) as [[o|e|] v']; [|by split|done].
  split; [done|]. intros o' [= <-]. destruct Hd as [[Hs He] Hd]. by exists raw.
Qed.
End Delivered.

(** ** An example *)

#[local] Existing Instances CborDecode.simd_ref CborDecode.simd_ref_laws sha2_toy sha2_toy_laws
  Crypto.toy_verifying SyncState.mem_state_store SyncState.mem_state_store_laws SyncInvert.ex_outside SyncVerifier.ex_environment SyncVerifier.ex_environment_laws.

(** The frame of a commit that the verifier's example accepts. *)
Definition ex_commit_frame : bytes := Eval vm_compute in
  CborEncode.enc (Value.Map [(b# "t", Value.Text (b# "#commit")); (b# "op", Value.Unsigned 1)]) ++
  CborEncode.enc (Value.Map [(b# "ops", Value.Array [Value.Map [(b# "cid", Value.Cid RepoProof.ex_record_cid);
                   (b# "path", Value.Text (b# "app.bsky.feed.post/3k")); (b# "action", Value.Text (b# "create"))]]);
                  (b# "rev", Value.Text (Tid.digits 13 7)); (b# "seq", Value.Unsigned 2); (b# "repo", Value.Text (b# "did:web:example.com"));
                  (b# "time", Value.Text (b# "now")); (b# "blobs", Value.Array []); (b# "blocks", Value.Bytes RepoProof.ex_car);
                  (b# "commit", Value.Cid RepoProof.ex_commit_cid); (b# "rebase", Value.Bool false); (b# "tooBig", Value.Bool false);
                  (b# "prevData", Value.Cid SyncVerifier.ex_before)]).

Lemma ex_commit_frame_ok : Forall is_u8 ex_commit_frame /\ Z.of_nat (length ex_commit_frame) <= i64_max.
Proof. split; [apply u8_literal; vm_compute; reflexivity|vm_compute; discriminate]. Qed.

Lemma ex_frame_delivered : match verify_firehose_frame SyncVerifier.ex_options ex_commit_frame (SyncVerifier.verifier_new SyncVerifier.ex_kept) with
  | (Ok (MkOutcome (Some (EventCommit _ 7 2 [Create _ _ c [160]])) 2), _) => c = RepoProof.ex_record_cid | _ => False end.
Proof. vm_compute. reflexivity. Qed.

Example verified_frame_spec_witness : exists o e, (verify_firehose_frame SyncVerifier.ex_options ex_commit_frame (SyncVerifier.verifier_new SyncVerifier.ex_kept)).1 = Ok o /\
  event o = Some e /\ event_seq e = seq o /\ (exists raw, SyncRaw.frame_means ex_commit_frame raw /\ seq o = raw_event_seq raw).
Proof.
  pose proof (verified_frame_spec SyncAccept.toy_no_panic SyncVerifier.ex_options (proj1 SyncResync.ex_limits) (proj2 SyncResync.ex_limits) ex_commit_frame
    (SyncVerifier.verifier_new SyncVerifier.ex_kept) (proj1 ex_commit_frame_ok) (proj2 ex_commit_frame_ok)) as Hs. pose proof ex_frame_delivered as He.
  destruct (verify_firehose_frame SyncVerifier.ex_options ex_commit_frame (SyncVerifier.verifier_new SyncVerifier.ex_kept)) as [[[[e|] n]|err|] v']; [|destruct He..].
  destruct Hs as [_ Hs]. destruct (Hs _ eq_refl) as (raw & Hm & Hn & Hk & _). exists (MkOutcome (Some e) n), e. cbn [seq] in *.
  exact (conj eq_refl (conj eq_refl (conj (eq_trans (Hk e eq_refl) (eq_sym Hn)) (ex_intro _ raw (conj Hm Hn))))).
Defined.

Section Ledger.
Context `{SyncInvert.Outside}.

Abbreviation Outcome := (res StreamError VerifyOutcome).
Abbreviation Output := (res StreamError (list Event)).

(** The outcome of a frame is known to the consumer, or will be: its event is
    in a batch that was yielded or in [batch], its error was yielded or is in
    [pend]. Frames of unknown types are skipped. *)
Definition told (outs : list Output) (batch : list Event) (pend : list StreamError) (r : Outcome) : Prop :=
  match r with
  | Ok o => forall e, event o = Some e -> e ∈ batch \/ exists b, Ok b ∈ outs /\ e ∈ b
  | Err (UnknownType _) => True
  | Err err => err ∈ pend \/ Err err ∈ outs
  | Panic => False
  end.

(** [log]: the numbers upstream; [start]: where the client began; [seen]: the
    highest number read; [inflight]: numbers read and not dealt with. *)
Record ledger (log : list Z) (start cursor seen : Z) (inflight : list Z) (handled : list (Z * Outcome))
    (outs : list Output) (batch : list Event) (pend : list StreamError) : Prop := {
  l_start : start <= cursor;
  l_cursor : cursor <= seen;
  l_batch : Forall (fun e => event_seq e <= seen) batch;
  l_seen n : n ∈ log -> start < n <= seen -> n ∈ inflight \/ n ∈ handled.*1;
  l_told n r : (n, r) ∈ handled -> told outs batch pend r;
  l_safe n : n ∈ log -> start < n <= cursor -> exists r, (n, r) ∈ handled /\ told outs [] pend r
}.

Lemma told_mono outs outs' batch batch' pend pend' r : told outs batch pend r ->
  (forall o, o ∈ outs -> o ∈ outs') ->
  (forall e, e ∈ batch -> e ∈ batch' \/ exists b, Ok b ∈ outs' /\ e ∈ b) ->
  (forall e, e ∈ pend -> e ∈ pend' \/ Err e ∈ outs') -> told outs' batch' pend' r.
Proof.
  unfold told. intros Ht Ho Hb Hp. destruct r as [o|err|]; [|destruct err; naive_solver|done].
  intros e He. destruct (Ht e He) as [Hin|(b & Hin & He')]; [by apply Hb|]. right. exists b. auto.
Qed.

Variable log : list Z.
Variable start : Z.

(** Nothing done yet. *)
Lemma ledger_start : ledger log start start start [] [] [] [] [].
Proof. split; [lia..|constructor|lia|by intros ? ? ?%elem_of_nil|lia]. Qed.

(** More is told: a batch or an error is yielded. *)
Lemma ledger_tell cursor seen inflight handled outs batch pend outs' pend' :
  (forall o, o ∈ outs -> o ∈ outs') -> (forall e, e ∈ pend -> e ∈ pend' \/ Err e ∈ outs') ->
  ledger log start cursor seen inflight handled outs batch pend -> ledger log start cursor seen inflight handled outs' batch pend'.
Proof.
  intros Ho Hp [Hs Hc Hb Hn Ht Hsafe]. split; [done..| |].
  - intros n r Hin. eapply told_mono; [by eapply Ht|done|by left|done].
  - intros n Hin Hr. destruct (Hsafe n Hin Hr) as (r & Hh & Hr'). exists r. split; [done|]. eapply told_mono; [done|done|by left|done].
Qed.

(** An event without a number joins the batch. *)
Lemma ledger_push cursor seen inflight handled outs batch pend e : event_seq e <= seen ->
  ledger log start cursor seen inflight handled outs batch pend -> ledger log start cursor seen inflight handled outs (batch ++ [e]) pend.
Proof.
  intros He [Hs Hc Hb Hn Ht Hsafe]. split; [done..|by apply Forall_app; split; [|constructor]|done| |done].
  intros n r Hin. eapply told_mono; [by eapply Ht|done| |by left]. intros e' He'. left. apply elem_of_app. by left.
Qed.

(** A number is read. *)
Lemma ledger_read cursor seen inflight inflight' handled outs batch pend n : (forall m, m ∈ inflight \/ m = n -> m ∈ inflight') ->
  (forall m, m ∈ log -> seen < m <= n -> m = n) ->
  ledger log start cursor seen inflight handled outs batch pend -> ledger log start cursor (Z.max seen n) inflight' handled outs batch pend.
Proof.
  intros Hi Hg [Hs Hc Hb Hn Ht Hsafe]. split; [done|lia| | |done|done].
  - eapply Forall_impl; [exact Hb|]. cbn. lia.
  - intros m Hm Hr. destruct (decide (m <= seen)) as [Hle|Hgt].
    + destruct (Hn m Hm) as [Hin|Hin]; [lia|left; auto|by right].
    + left. apply Hi. right. apply Hg; [done|lia].
Qed.

(** A number is dealt with. *)
Lemma ledger_handle cursor seen inflight inflight' handled outs batch pend batch' pend' n r :
  (forall m, m ∈ inflight -> m ∈ inflight' \/ m = n) -> told outs batch' pend' r ->
  (forall e, e ∈ batch -> e ∈ batch') -> Forall (fun e => event_seq e <= seen) batch' -> (forall e, e ∈ pend -> e ∈ pend') ->
  ledger log start cursor seen inflight handled outs batch pend ->
  ledger log start cursor seen inflight' (handled ++ [(n, r)]) outs batch' pend'.
Proof.
  intros Hi Hr Hbs Hbseq Hps [Hs Hc Hb Hn Ht Hsafe]. split; [done..| | |].
  - intros m Hm Hmr. rewrite fmap_app, elem_of_app. cbn. destruct (Hn m Hm Hmr) as [[Hin | ->]%Hi|Hin]; [by left|right; right; by left|right; by left].
  - intros m q [Hin|[= -> ->]%list_elem_of_singleton]%elem_of_app; [|done]. eapply told_mono; [by eapply Ht|done|naive_solver|naive_solver].
  - intros m Hm Hmr. destruct (Hsafe m Hm Hmr) as (q & Hh & Hq). exists q. split; [apply elem_of_app; by left|].
    eapply told_mono; [done|done|by left|naive_solver].
Qed.

(** The batch is yielded and the cursor moves to below all that is in
    flight. *)
Lemma ledger_flush cursor seen inflight handled outs outs' batch pend target :
  (forall o, o ∈ outs -> o ∈ outs') -> (forall e, e ∈ batch -> exists b, Ok b ∈ outs' /\ e ∈ b) ->
  target <= seen -> (forall m, m ∈ inflight -> target < m) ->
  ledger log start cursor seen inflight handled outs batch pend ->
  ledger log start (fetch_max cursor target) seen inflight handled outs' [] pend.
Proof.
  intros Ho Hb' Ht' Hi [Hs Hc Hb Hn Ht Hsafe]. assert (Hle : fetch_max cursor target <= seen) by (unfold fetch_max; destruct (Z.ltb_spec 0 target); lia).
  pose proof (fetch_max_le cursor target) as Hge.
  assert (Htold : forall n r, (n, r) ∈ handled -> told outs' [] pend r).
  { intros n r Hin. eapply told_mono; [by eapply Ht|done| |by left]. intros e He. right. auto. }
  split; [lia|done|constructor|done|done|]. intros n Hin Hr. destruct (decide (n <= cursor)) as [Hnc|Hnc].
  - destruct (Hsafe n Hin) as (r & Hh & _); [lia|]. exists r. split; [done|by eapply Htold].
  - assert (Hnt : n <= target) by (unfold fetch_max in Hr; destruct (Z.ltb_spec 0 target); lia).
    destruct (Hn n Hin) as [Hfl|[[m r] [-> Hh]]%list_elem_of_fmap]; [lia|apply Hi in Hfl; lia|]. exists r. split; [done|by eapply Htold].
Qed.
End Ledger.
