(* ===== verification/StreamSerial.v ===== *)
(** The serial stream: [Client::subscribe_serial] of
    [src/src/streaming/client.rs], and the server it reads.

    One turn of the loop is a function of the stream and of what the turn
    meets: the clock, the outcome of connecting and what arrives first. The
    cursor is shown to keep its promise in every run, through lost
    connections, errors and silent drops. *)
From S2P Require Import Prelude StateError SyntaxError CborError Cid CborValue CborDecode StreamEvents StreamClient.
From S2P Require Crypto RepoCommit SyncRaw SyncInvert SyncResync SyncState SyncVerifier SyncChain SyncAccept.

(** The number of a frame: that of the event it parses to. *)
Definition number `{Sha2} `{Simdutf8} `{SyncInvert.Outside} (verifier : bool) (data : bytes) : Z :=
  if verifier then match SyncRaw.parse_raw_sync_frame data with Ok raw => raw_event_seq raw | _ => 0 end
  else match parse_firehose_frame data with Ok e => event_seq e | _ => 0 end.

(** The numbers of frames; those of control frames, 0, left out. *)
Definition numbers `{Sha2} `{Simdutf8} `{SyncInvert.Outside} (verifier : bool) (frames : list bytes) : list Z :=
  filter (fun n => 0 < n) (map (number verifier) frames).

(** What a server sends to a client that connects, by the [cursor] parameter
    of the URL. *)
Class Server := serve : option Z -> list bytes.

(** [connect_ws]: the parameter is left out unless the cursor is positive. *)
Definition cursor_param (cursor : Z) : option Z := if 0 <? cursor then Some cursor else None.

Section Serial.
Context `{Sha2} `{Simdutf8} `{SyncInvert.Outside} {S W V : Type} `{!SyncState.StateStore S} `{!SyncVerifier.Environment W V} `{!Crypto.VerifyingKey V} `{!Server}.
Variable options : SyncVerifier.VerifierOptions.
(** Whether the client has a verifier; [batch_size], [batch_timeout]. *)
Variable verifier : bool.
Variable batch_size : nat.
Variable batch_timeout : Z.
Abbreviation Verified := (SyncVerifier.Verifier S W).
Abbreviation Output := (res StreamError (list Event)).

(** A connection is the frames it has still to give. A receiver is how much of
    its channel it has read. *)
Record BatchState := MkBatch {
  ws : option (list bytes);
  attempt : Z;
  batch : list Event;
  pending_error : option StreamError;
  deadline : option Z;
  dropped_watermark : Z;
  resync_events : option nat;
  async_errors : option nat
}.

Record Stream := MkStream { cursor : Z; verified : Verified; state : BatchState }.

Definition set_ws w s := MkBatch w (attempt s) (batch s) (pending_error s) (deadline s) (dropped_watermark s) (resync_events s) (async_errors s).
Definition set_attempt a s := MkBatch (ws s) a (batch s) (pending_error s) (deadline s) (dropped_watermark s) (resync_events s) (async_errors s).
Definition set_batch b s := MkBatch (ws s) (attempt s) b (pending_error s) (deadline s) (dropped_watermark s) (resync_events s) (async_errors s).
Definition set_pending e s := MkBatch (ws s) (attempt s) (batch s) e (deadline s) (dropped_watermark s) (resync_events s) (async_errors s).
Definition set_deadline d s := MkBatch (ws s) (attempt s) (batch s) (pending_error s) d (dropped_watermark s) (resync_events s) (async_errors s).
Definition set_watermark m s := MkBatch (ws s) (attempt s) (batch s) (pending_error s) (deadline s) m (resync_events s) (async_errors s).
Definition set_resync r s := MkBatch (ws s) (attempt s) (batch s) (pending_error s) (deadline s) (dropped_watermark s) r (async_errors s).
Definition set_errors r s := MkBatch (ws s) (attempt s) (batch s) (pending_error s) (deadline s) (dropped_watermark s) (resync_events s) r.
Definition on_state (f : BatchState -> BatchState) (s : Stream) : Stream := MkStream (cursor s) (verified s) (f (state s)).
Definition set_verified v (s : Stream) : Stream := MkStream (cursor s) v (state s).

(** [BatchState::new], with the receivers of a verifier. *)
Definition batch_new : BatchState :=
  let rx := if verifier then Some O else None in MkBatch None 0 [] None None 0 rx rx.

(** ** A turn *)

Inductive Arrival := NextFrame | Closed | OtherMessage | Broken (e : bytes) | Elapsed.

(** What a turn meets. *)
Record Turn := MkTurn { now : Z; refused : option StreamError; arrival : Arrival; later : Z }.

(** [continue], or what is yielded. *)
Inductive Flow := Continue | Yield (o : Output) | Panicked.

(** [update_firehose_cursor] on the stream. *)
Definition advance (b : list Event) (s : Stream) : Stream :=
  let '(c, w) := update_firehose_cursor (cursor s) b (dropped_watermark (state s)) in
  MkStream c (verified s) (set_watermark w (state s)).

Definition flush (s : Stream) : Flow * Stream :=
  let b := batch (state s) in
  let s := on_state (fun t => set_batch [] (set_deadline None t)) s in
  (Yield (Ok b), advance b s).

(** The batch first, then the error. *)
Definition yield_error (err : StreamError) (s : Stream) : Flow * Stream :=
  if bool_decide (batch (state s) <> []) then flush (on_state (set_pending (Some err)) s)
  else (Yield (Err err), on_state (set_deadline None) s).

Definition push_event (e : Event) (s : Stream) : Flow * Stream :=
  let s := on_state (fun t => set_batch (batch t ++ [e]) t) s in
  if (batch_size <=? length (batch (state s)))%nat then flush s else (Continue, s).

Definition take_async_error (s : Stream) : option StreamError * Stream :=
  match async_errors (state s) with
  | None => (None, s)
  | Some n =>
      match SyncVerifier.async_errors (verified s) !! n with
      | Some err => (Some (Verifier err), on_state (set_errors (Some (1 + n)%nat)) s)
      | None => (None, if SyncVerifier.closed (verified s) then on_state (set_errors None) s else s)
      end
  end.

Definition take_resync_event (s : Stream) : res StreamError (option Event) * Stream :=
  match resync_events (state s) with
  | None => (Ok None, s)
  | Some n =>
      match SyncVerifier.resync_events (verified s) !! n with
      | Some event => (e ← event_from_resync_event event; Ok (Some e), on_state (set_resync (Some (1 + n)%nat)) s)
      | None => (Ok None, if SyncVerifier.closed (verified s) then on_state (set_resync None) s else s)
      end
  end.

(** The start of a turn: errors and events of the verifier's own jobs. *)
Definition poll_channels (s : Stream) : Flow * Stream :=
  match take_async_error s with
  | (Some err, s) => yield_error err s
  | (None, s) =>
      match take_resync_event s with
      | (Ok (Some event), s) => push_event event s
      | (Ok None, s) => (Continue, s)
      | (Err err, s) => yield_error err s
      | (Panic, s) => (Panicked, s)
      end
  end.

Definition saturating_add_u32 (a b : Z) : Z := Z.min (a + b) (2 ^ 32 - 1).
Definition one_more (t : BatchState) : BatchState := set_attempt (saturating_add_u32 (attempt t) 1) t.

(** Connect, if there is no connection. *)
Definition connect (t : Turn) (s : Stream) : Flow * Stream :=
  match ws (state s) with
  | Some _ => (Continue, s)
  | None =>
      match refused t with
      | None => (Continue, on_state (fun b => set_attempt 0 (set_ws (Some (serve (cursor_param (cursor s)))) b)) s)
      | Some e =>
          if bool_decide (batch (state s) <> []) then flush (on_state (set_pending (Some e)) s)
          else (Yield (Err e), on_state one_more s)
      end
  end.

(** A frame, and what became of it. *)
Definition handle_frame (data : bytes) (s : Stream) : Flow * Stream * res StreamError VerifyOutcome :=
  let '(r, v) := parse_firehose_outcome options verifier data (verified s) in
  let s := set_verified v s in
  (match r with
   | Ok (MkOutcome (Some event) _) => push_event event s
   | Ok (MkOutcome None seq) => (Continue, on_state (fun t => set_watermark (Z.max (dropped_watermark t) seq) t) s)
   | Err (UnknownType _) => (Continue, s)
   | Err e => yield_error e s
   | Panic => (Panicked, s)
   end, r).

(** Past the frames dropped, if any. *)
Definition skip_dropped (s : Stream) : Stream := if 0 <? dropped_watermark (state s) then advance [] s else s.

(** [tokio::select!] *)
Definition receive (t : Turn) (s : Stream) : Flow * Stream * option (bytes * res StreamError VerifyOutcome) :=
  let s := on_state (fun b => set_deadline (Some (default (now t + batch_timeout) (deadline b))) b) s in
  match ws (state s) with
  | None => (Continue, s, None)
  | Some frames =>
      match arrival t with
      | NextFrame =>
          match frames with
          | [] => (Continue, s, None)
          | data :: frames => let '(f, r) := handle_frame data (on_state (set_ws (Some frames)) s) in (f, Some (data, r))
          end
      | Closed =>
          let s := on_state (set_ws None) s in
          if bool_decide (batch (state s) <> []) then (flush s, None)
          else (Continue, on_state one_more (skip_dropped s), None)
      | OtherMessage => (Continue, s, None)
      | Broken e =>
          let s := on_state (set_ws None) s in
          if bool_decide (batch (state s) <> []) then (flush (on_state (set_pending (Some (WebSocket e))) s), None)
          else (Yield (Err (WebSocket e)), on_state one_more (skip_dropped s), None)
      | Elapsed =>
          if bool_decide (batch (state s) <> []) then (flush s, None)
          else (Continue, on_state (set_deadline (Some (later t + batch_timeout))) (skip_dropped s), None)
      end
  end.

(** One turn: an error left from before is yielded; or the channels, the
    connection and the socket, up to the first that yields. *)
Definition turn (t : Turn) (s : Stream) : Flow * Stream * option (bytes * res StreamError VerifyOutcome) :=
  match pending_error (state s) with
  | Some err => (Yield (Err err), on_state (set_pending None) s, None)
  | None =>
      match poll_channels s with
      | (Continue, s) => match connect t s with (Continue, s) => receive t s | (f, s) => (f, s, None) end
      | (f, s) => (f, s, None)
      end
  end.

(** Turns in a row, with what they yield and the frames they handle. The
    runtime may lend the verifier to other tasks between two turns. *)
Inductive turns (s : Stream) : list Output -> list (bytes * res StreamError VerifyOutcome) -> Stream -> Prop :=
| turns_nil : turns s [] [] s
| turns_more outs handled s1 v t f s2 h : turns s outs handled s1 -> turn t (set_verified v s1) = (f, s2, h) ->
    turns s (match f with Yield o => outs ++ [o] | _ => outs end) (match h with Some h => handled ++ [h] | None => handled end) s2.
End Serial.

(** ** The log *)

Section Log.
Implicit Types log : list Z.

Lemma filter_same_at (P Q : Z -> Prop) `{forall z, Decision (P z)} `{forall z, Decision (Q z)} log :
  (forall m, m ∈ log -> P m <-> Q m) -> filter P log = filter Q log.
Proof.
  induction log as [|x log IH]; [done|]. intros Hpq. rewrite !filter_cons. rewrite IH by (intros; apply Hpq; by right).
  pose proof (Hpq x (list_elem_of_here _ _)). by repeat case_decide; try tauto.
Qed.

Lemma sorted_filter_lt log p n rest : StronglySorted Z.lt log -> filter (fun m => p < m) log = n :: rest ->
  p < n /\ n ∈ log /\ filter (fun m => n < m) log = rest /\ forall m, m ∈ log -> p < m -> n <= m.
Proof.
  induction 1 as [|x log Hs IH Hf]; [done|]. rewrite !filter_cons. rewrite Forall_forall in Hf. case_decide as Hx.
  - intros [= -> <-]. split_and!; [done|by left| |].
    + rewrite decide_False by lia. apply filter_same_at. intros m Hm. specialize (Hf m Hm). cbn in Hf. lia.
    + intros m [->|Hm]%elem_of_cons _; [lia|]. specialize (Hf m Hm). cbn in Hf. lia.
  - intros Hr. destruct (IH Hr) as (Hp & Hin & Hrest & Hle). split_and!; [done|by right| |].
    + rewrite decide_False by lia. exact Hrest.
    + intros m [->|Hm]%elem_of_cons Hpm; [lia|auto].
Qed.
End Log.

(** ** The cursor keeps its promise *)

Section Safe.
Context `{Simdutf8Laws} `{Sha2Laws} `{SyncInvert.Outside} {S W V : Type} `{!SyncState.StateStore S} `{!SyncState.StateStoreLaws S}
  `{!SyncVerifier.Environment W V} `{!SyncVerifier.EnvironmentLaws W V} `{!Crypto.VerifyingKey V} `{!Server}.
Hypothesis verify_no_panic : forall (key : V) content s, no_panic (Crypto.verify_sig key content s).
Variable options : SyncVerifier.VerifierOptions.
Hypothesis limit_small : SyncResync.max_block_bytes (SyncVerifier.repo_load_limits options) < usize_max.
Hypothesis limits_nonneg : 0 <= SyncResync.max_blocks (SyncVerifier.repo_load_limits options) /\
  0 <= SyncResync.max_block_bytes (SyncVerifier.repo_load_limits options) /\
  0 <= SyncResync.max_car_bytes (SyncVerifier.repo_load_limits options) < usize_max.
Variable verifier : bool.
Variable batch_size : nat.
Variable batch_timeout : Z.
Abbreviation Output := (res StreamError (list Event)).
Abbreviation Outcome := (res StreamError VerifyOutcome).
Abbreviation Stream := (Stream (S:=S) (W:=W)).
Implicit Types s : Stream.

Definition frame_ok (data : bytes) : Prop := Forall is_u8 data /\ Z.of_nat (length data) <= i64_max.

(** The numbered frames upstream; a server that is given a cursor sends those
    above it, in order. *)
Variable log : list Z.
Hypothesis log_sorted : StronglySorted Z.lt log.
Hypothesis serve_log : forall c, 0 < c -> numbers verifier (serve (Some c)) = filter (fun n => c < n) log.
Hypothesis serve_frames : forall c, Forall frame_ok (serve (Some c)).
Variable start : Z.
Hypothesis start_pos : 0 < start.

Lemma outcome_numbered data v : frame_ok data ->
  fine (fun o => seq o = number verifier data /\ forall e, event o = Some e -> event_seq e = number verifier data)
    (parse_firehose_outcome options verifier data v).1.
Proof.
  intros [Hu Hl]. unfold parse_firehose_outcome, number. destruct verifier.
  - unfold verify_firehose_frame, mbind, st_bind, lift. pose proof (SyncRaw.parse_raw_sync_frame_no_panic data) as Hn.
    destruct (SyncRaw.parse_raw_sync_frame data) as [raw|e|] eqn:Hp; [|done..]. cbn [map_err].
    apply SyncRaw.parse_raw_sync_frame_Ok in Hp; [|done..].
    apply (verify_raw_event_returns verify_no_panic options limit_small limits_nonneg), (SyncChain.frame_event_ok data raw Hp).
  - unfold mbind, st_bind, lift. pose proof (fine_no_panic _ _ (parse_firehose_frame_fine data Hu Hl)) as Hn.
    destruct (parse_firehose_frame data) as [e|e|]; [|done..]. cbn. split; [done|by intros ? [= <-]].
Qed.

(** A batch is not empty and not too long. *)
Definition most : nat := Nat.max 1 batch_size.
Definition output_ok (o : Output) : Prop := match o with Ok b => b <> [] /\ (length b <= most)%nat | Err _ => True | Panic => False end.

Definition numbered (handled : list (bytes * Outcome)) : list (Z * Outcome) := map (fun h => (number verifier h.1, h.2)) handled.

Record core (seen : Z) (outs : list Output) (handled : list (bytes * Outcome)) s (pend : list StreamError) : Prop := {
  c_ledger : ledger log start (cursor s) seen [] (numbered handled) outs (batch (state s)) pend;
  c_mark : 0 <= dropped_watermark (state s) <= seen;
  c_ws : forall frames, ws (state s) = Some frames -> Forall frame_ok frames /\
    exists p, p <= seen /\ numbers verifier frames = filter (fun n => p < n) log;
  c_outs : Forall output_ok outs
}.

(** Between turns. *)
Definition good (outs : list Output) (handled : list (bytes * Outcome)) s : Prop :=
  (exists seen, core seen outs handled s (option_list (pending_error (state s)))) /\ (length (batch (state s)) < most)%nat.

(** After one, whatever it did. *)
Definition settled (outs : list Output) (handled : list (bytes * Outcome)) (r : Flow * Stream) : Prop :=
  match r with
  | (Yield o, s) => good (outs ++ [o]) handled s
  | (Continue, s) => good outs handled s /\ pending_error (state s) = None
  | (Panicked, _) => False
  end.

Lemma core_flush seen outs handled s pend : core seen outs handled s pend -> pend = option_list (pending_error (state s)) ->
  batch (state s) <> [] -> (length (batch (state s)) <= most)%nat -> settled outs handled (flush s).
Proof.
  intros [Hl Hm Hw Ho] Hp Hne Hlen. pose proof (l_start _ _ _ _ _ _ _ _ _ Hl) as Hst. pose proof (l_cursor _ _ _ _ _ _ _ _ _ Hl) as Hcur.
  unfold flush, settled, good, advance. cbn. split; [|unfold most; lia]. exists seen. split; cbn; [|lia|exact Hw|].
  - rewrite <- Hp. eapply ledger_flush; [| | | |exact Hl].
    + intros o Hin. apply elem_of_app. by left.
    + intros e He. exists (batch (state s)). split; [apply elem_of_app; right; by left|done].
    + apply Z.max_lub; [|lia]. apply highest_seq_le; [lia|]. apply (l_batch _ _ _ _ _ _ _ _ _ Hl).
    + by intros m ?%elem_of_nil.
  - apply Forall_app. split; [done|]. constructor; [by split|constructor].
Qed.

(** The error was put in [pend] and is not yet in the state. *)
Lemma core_yield_error seen outs handled s err : core seen outs handled s [err] -> (length (batch (state s)) < most)%nat ->
  pending_error (state s) = None -> settled outs handled (yield_error err s).
Proof.
  intros Hc Hlen Hnone. unfold yield_error. case_bool_decide as Hne.
  - eapply (core_flush seen outs handled _ [err]); cbn; [|done|done|lia]. destruct Hc as [Hl Hm Hw Ho]. by split.
  - unfold settled, good. cbn. rewrite Hne, Hnone. split; [|cbn; unfold most; lia]. exists seen.
    destruct Hc as [Hl Hm Hw Ho]. split; cbn; [|done|done|apply Forall_app; split; [done|by constructor]]. rewrite Hne in *.
    eapply ledger_tell; [| |exact Hl].
    + intros o Hin. apply elem_of_app. by left.
    + intros e ->%list_elem_of_singleton. right. apply elem_of_app. right. by left.
Qed.

Lemma core_push_event seen outs handled s e : core seen outs handled (on_state (fun t => set_batch (batch t ++ [e]) t) s) [] ->
  (length (batch (state s)) < most)%nat -> pending_error (state s) = None -> settled outs handled (push_event batch_size e s).
Proof.
  intros Hc Hlen Hnone. unfold push_event. cbv zeta. cbn [on_state state set_batch batch]. rewrite length_app. cbn [length].
  destruct (Nat.leb_spec batch_size (length (batch (state s)) + 1)) as [Hfull|Hroom].
  - eapply core_flush; [exact Hc|cbn; by rewrite Hnone|cbn; by destruct (batch (state s))|cbn; rewrite length_app; cbn; lia].
  - unfold settled, good. cbn. rewrite Hnone, length_app. cbn. split; [|done]. split; [by exists seen|unfold most; lia].
Qed.

(** Changes that the ledger does not see. *)
Lemma core_same seen outs handled s s' pend : core seen outs handled s pend -> cursor s' = cursor s -> batch (state s') = batch (state s) ->
  dropped_watermark (state s') = dropped_watermark (state s) -> (ws (state s') = ws (state s) \/ ws (state s') = None) -> core seen outs handled s' pend.
Proof.
  intros [Hl Hm Hw Ho] Hc Hb Hd Hws. rewrite <- Hb, <- Hc in Hl. rewrite <- Hd in Hm. split; [done..| |done].
  by destruct Hws as [-> | ->].
Qed.

(** A verifier's job has an event to deliver, or an error. *)
Lemma resync_told ev : fine (fun e => event_seq e = 0) (event_from_resync_event ev).
Proof. eapply fine_weaken; [apply resync_event_fine|]. by intros e (rev & os & _ & -> & _). Qed.

Lemma poll_settled outs handled s : good outs handled s -> pending_error (state s) = None -> settled outs handled (poll_channels batch_size s).
Proof.
  intros [[seen Hc] Hlen] Hnone. rewrite Hnone in Hc. cbn [option_list] in Hc. unfold poll_channels.
  assert (Htake : let '(e, s1) := take_async_error s in core seen outs handled s1 [] /\ batch (state s1) = batch (state s) /\ pending_error (state s1) = None).
  { unfold take_async_error. destruct (async_errors (state s)) as [n|]; [|by split]. destruct (SyncVerifier.async_errors (verified s) !! n).
    - split; [|done]. by eapply core_same; [exact Hc|..|left].
    - destruct (SyncVerifier.closed (verified s)); [|by split]. split; [|done]. by eapply core_same; [exact Hc|..|left]. }
  destruct (take_async_error s) as [[err|] s1]; destruct Htake as (Hc1 & Hb1 & Hn1); rewrite <- Hb1 in Hlen; clear Hc Hb1 Hnone s.
  - eapply core_yield_error; [|done|done]. destruct Hc1 as [Hl Hm Hw Ho]. split; [|done..]. eapply ledger_tell; [done| |exact Hl]. by intros e ?%elem_of_nil.
  - assert (Htake : let '(r, s2) := take_resync_event s1 in core seen outs handled s2 [] /\ batch (state s2) = batch (state s1) /\
      pending_error (state s2) = None /\ fine (fun o => forall e, o = Some e -> event_seq e = 0) r).
    { unfold take_resync_event. destruct (resync_events (state s1)) as [n|]; [|by split_and!; try done; intros ? ?].
      destruct (SyncVerifier.resync_events (verified s1) !! n) as [ev|].
      - split_and!; [by eapply core_same; [exact Hc1|..|left]|done|done|]. eapply fine_bind; [apply resync_told|]. intros e He. by intros e' [= <-].
      - destruct (SyncVerifier.closed (verified s1)); (split_and!; [|done|done|by intros e [=]]); [|done]. by eapply core_same; [exact Hc1|..|left]. }
    destruct (take_resync_event s1) as [[[e|]|err|] s2]; destruct Htake as (Hc2 & Hb2 & Hn2 & Hf); rewrite <- Hb2 in Hlen; [..|done].
    + eapply (core_push_event seen); [|done|done]. destruct Hc2 as [Hl Hm Hw Ho]. split; cbn; [|done..]. apply ledger_push; [|exact Hl].
      rewrite (Hf e eq_refl). lia.
    + split; [|done]. split; [|done]. exists seen. by rewrite Hn2.
    + eapply core_yield_error; [|done|done]. destruct Hc2 as [Hl Hm Hw Ho]. split; [|done..]. eapply ledger_tell; [done| |exact Hl]. by intros e ?%elem_of_nil.
Qed.

Lemma connect_settled outs handled t s : good outs handled s -> pending_error (state s) = None -> settled outs handled (connect t s).
Proof.
  intros [[seen Hc] Hlen] Hnone. rewrite Hnone in Hc. cbn [option_list] in Hc. unfold connect.
  destruct (ws (state s)) as [frames|]; [split; [|done]; split; [|done]; exists seen; by rewrite Hnone|]. destruct (refused t) as [e|].
  - case_bool_decide as Hne.
    + eapply (core_flush seen outs handled _ [e]); cbn; [|done|done|lia]. destruct Hc as [Hl Hm Hw Ho]. split; cbn; [|done..].
      eapply ledger_tell; [done| |exact Hl]. by intros e' ?%elem_of_nil.
    + unfold settled, good. cbn. rewrite Hne, Hnone. split; [|cbn; unfold most; lia]. exists seen. destruct Hc as [Hl Hm Hw Ho].
      split; cbn; [|done|done|apply Forall_app; split; [done|by constructor]]. rewrite Hne in *.
      eapply ledger_tell; [|by intros e' ?%elem_of_nil|exact Hl]. intros o Hin. apply elem_of_app. by left.
  - unfold settled, good. cbn. rewrite Hnone. split; [|done]. split; [|done]. exists seen. destruct Hc as [Hl Hm Hw Ho].
    pose proof (l_start _ _ _ _ _ _ _ _ _ Hl) as Hst. pose proof (l_cursor _ _ _ _ _ _ _ _ _ Hl) as Hcur.
    split; cbn; [done|done| |done]. intros frames [= <-]. unfold cursor_param. destruct (Z.ltb_spec 0 (cursor s)); [|lia].
    split; [apply serve_frames|]. exists (cursor s). split; [done|]. by apply serve_log.
Qed.

(** A frame is taken off the connection. *)
Lemma read_number seen data frames p : 0 < seen -> p <= seen -> numbers verifier (data :: frames) = filter (fun n => p < n) log ->
  (forall m, m ∈ log -> seen < m <= number verifier data -> m = number verifier data) /\
  exists q, q <= Z.max seen (number verifier data) /\ numbers verifier frames = filter (fun n => q < n) log.
Proof.
  intros Hpos Hp Hn. unfold numbers in *. cbn [map] in Hn. rewrite filter_cons in Hn. case_decide as Hd.
  - symmetry in Hn. apply sorted_filter_lt in Hn as (Hlt & Hin & Hrest & Hle); [|done]. split.
    + intros m Hm Hr. specialize (Hle m Hm). lia.
    + exists (number verifier data). split; [lia|by symmetry].
  - split; [lia|]. exists p. split; [lia|done].
Qed.

Lemma frame_settled seen outs handled s data frames : core seen outs handled s [] -> ws (state s) = Some (data :: frames) ->
  (length (batch (state s)) < most)%nat -> pending_error (state s) = None ->
  let '(f, r) := handle_frame options verifier batch_size data (on_state (set_ws (Some frames)) s) in settled outs (handled ++ [(data, r)]) f.
Proof.
  intros [Hl Hm Hw Ho] Hws Hlen Hnone. destruct (Hw _ Hws) as [[Hfr Hfrs]%Forall_cons (p & Hp & Hnum)].
  pose proof (l_start _ _ _ _ _ _ _ _ _ Hl) as Hst. pose proof (l_cursor _ _ _ _ _ _ _ _ _ Hl) as Hcur.
  apply (read_number seen) in Hnum as [Hgap Hq]; [|lia|done]. set (n := number verifier data) in *. set (seen' := Z.max seen n).
  assert (Hread : ledger log start (cursor s) seen' [n] (numbered handled) outs (batch (state s)) []).
  { eapply ledger_read; [|exact Hgap|exact Hl]. intros m [Hin| ->]; [by apply elem_of_nil in Hin|by left]. }
  assert (Hhandle : forall r b pend, told outs b pend r -> (forall e, e ∈ batch (state s) -> e ∈ b) -> Forall (fun e => event_seq e <= seen') b ->
    ledger log start (cursor s) seen' [] (numbered (handled ++ [(data, r)])) outs b pend).
  { intros r b pend Ht Hb Hbs. unfold numbered. rewrite map_app. eapply ledger_handle; [|exact Ht|exact Hb|exact Hbs| |exact Hread].
    - intros m ->%list_elem_of_singleton. by right.
    - by intros e ?%elem_of_nil. }
  pose proof (l_batch _ _ _ _ _ _ _ _ _ Hread) as Hbs.
  unfold handle_frame. cbn [on_state verified]. pose proof (outcome_numbered data (verified s) Hfr) as Hout.
  destruct (parse_firehose_outcome options verifier data (verified s)) as [r v]. cbn [fst] in Hout.
  assert (Hcore : forall b mark t, (forall e, e ∈ batch (state s) -> e ∈ b) -> Forall (fun e => event_seq e <= seen') b -> 0 <= mark <= seen' ->
    ws (state t) = Some frames -> cursor t = cursor s -> batch (state t) = b -> dropped_watermark (state t) = mark ->
    forall pend, told outs b pend r -> core seen' outs (handled ++ [(data, r)]) t pend).
  { intros b mark t Hb Hbs' Hmark Hwt Hct Hbt Hmt pend Ht. split; [|by rewrite Hmt| |done].
    - rewrite Hct, Hbt. by apply Hhandle.
    - intros fs. rewrite Hwt. intros [= <-]. split; [done|]. exact Hq. }
  destruct r as [[[e|] n']|err|]; [| | |done].
  - destruct Hout as [_ He]. eapply core_push_event; [|done|done]. eapply Hcore; try reflexivity.
    + intros e' He'. apply elem_of_app. by left.
    + apply Forall_app. split; [done|]. constructor; [|constructor]. rewrite (He e eq_refl). unfold seen'. lia.
    + unfold seen'. cbn. lia.
    + cbn. intros e' [= <-]. left. apply elem_of_app. right. by left.
  - destruct Hout as [Hn' _]. cbn in Hn'. unfold settled, good. cbn. rewrite Hnone. split; [|done]. split; [|done]. exists seen'.
    eapply Hcore; try reflexivity; try done. cbn. unfold seen'. lia.
  - assert (Hin : Forall (fun e => event_seq e <= seen') (batch (state s)) /\ 0 <= dropped_watermark (state s) <= seen') by (split; [done|unfold seen'; lia]).
    destruct Hin as [_ Hmark]. destruct err;
      try (eapply core_yield_error; [|done|done]; eapply Hcore; try reflexivity; try done; left; by left).
    unfold settled, good. cbn. rewrite Hnone. split; [|done]. split; [|done]. exists seen'. by eapply Hcore.
Qed.

(** The cursor moves past frames that were dropped. *)
Lemma skip_core seen outs handled s : core seen outs handled s [] -> batch (state s) = [] -> core seen outs handled (skip_dropped s) [].
Proof.
  intros [Hl Hm Hw Ho] Hb. unfold skip_dropped. destruct (Z.ltb_spec 0 (dropped_watermark (state s))); [|by split].
  unfold advance. cbn. split; cbn; [|lia|done|done]. rewrite Hb in *. eapply ledger_flush; [done| | | |exact Hl].
  - by intros e ?%elem_of_nil.
  - cbn. lia.
  - by intros m ?%elem_of_nil.
Qed.

Lemma skip_same s : batch (state (skip_dropped s)) = batch (state s) /\ pending_error (state (skip_dropped s)) = pending_error (state s) /\
  ws (state (skip_dropped s)) = ws (state s).
Proof. unfold skip_dropped. by destruct (0 <? _). Qed.

Lemma receive_settled outs handled t s : good outs handled s -> pending_error (state s) = None ->
  let '(f, h) := receive options verifier batch_size batch_timeout t s in
  settled outs (match h with Some h => handled ++ [h] | None => handled end) f.
Proof.
  intros [[seen Hc] Hlen] Hnone. rewrite Hnone in Hc. cbn [option_list] in Hc. unfold receive. cbv zeta.
  set (s1 := on_state (fun b => set_deadline (Some (default (now t + batch_timeout) (deadline b))) b) s).
  assert (Hc1 : core seen outs handled s1 []) by (by eapply core_same; [exact Hc|..|left]).
  assert (Hlen1 : (length (batch (state s1)) < most)%nat) by exact Hlen. assert (Hn1 : pending_error (state s1) = None) by exact Hnone.
  clearbody s1. clear Hc Hlen Hnone s. assert (Hsame : settled outs handled (Continue, s1)).
  { split; [|done]. split; [|done]. exists seen. by rewrite Hn1. }
  destruct (ws (state s1)) as [frames|] eqn:Hws; [|exact Hsame].
  set (s2 := on_state (set_ws None) s1).
  assert (Hc2 : core seen outs handled s2 []) by (by eapply core_same; [exact Hc1|..|right]).
  destruct (arrival t) as [| | |e|].
  - destruct frames as [|data frames]; [exact Hsame|]. pose proof (frame_settled seen outs handled s1 data frames Hc1 Hws Hlen1 Hn1) as Hf.
    destruct (handle_frame _ _ _ _ _) as [f r]. exact Hf.
  - case_bool_decide as Hne; [eapply core_flush; [exact Hc2|cbn; by rewrite Hn1|done|unfold most in *; cbn in *; lia]|].
    destruct (skip_same s2) as (Hb & Hp & Hw). unfold settled, good. cbn [on_state state one_more set_attempt pending_error batch].
    rewrite Hb, Hp. split; [|done]. split; [|done]. exists seen. cbn. rewrite Hn1. eapply core_same; [exact (skip_core _ _ _ _ Hc2 Hne)|done|done|done|by left].
  - exact Hsame.
  - case_bool_decide as Hne.
    + eapply (core_flush seen outs handled _ [WebSocket e]); cbn; [|done|done|lia]. destruct Hc2 as [Hl Hm Hw Ho]. split; cbn; [|done..].
      eapply ledger_tell; [done| |exact Hl]. by intros e' ?%elem_of_nil.
    + destruct (skip_same s2) as (Hb & Hp & Hw). unfold settled, good. cbn [on_state state one_more set_attempt pending_error batch].
      rewrite Hb, Hp. split; [|done]. exists seen. cbn. rewrite Hn1. pose proof (skip_core _ _ _ _ Hc2 Hne) as Hk.
      assert (Hk' : core seen outs handled (on_state one_more (skip_dropped s2)) []) by (eapply core_same; [exact Hk|done|done|done|by left]).
      destruct Hk' as [Hl Hm Hw' Ho]. split; [|done|done|apply Forall_app; split; [done|by constructor]].
      eapply ledger_tell; [|by intros e' ?%elem_of_nil|exact Hl]. intros o Hin. apply elem_of_app. by left.
  - case_bool_decide as Hne; [eapply core_flush; [exact Hc1|cbn; by rewrite Hn1|done|unfold most in *; cbn in *; lia]|].
    destruct (skip_same s1) as (Hb & Hp & Hw). unfold settled, good. cbn [on_state state set_deadline pending_error batch].
    rewrite Hb, Hp. split; [|done]. split; [|done]. exists seen. cbn. rewrite Hn1. eapply core_same; [exact (skip_core _ _ _ _ Hc1 Hne)|done|done|done|by left].
Qed.

Lemma turn_settled outs handled t s : good outs handled s ->
  let '(f, s', h) := turn options verifier batch_size batch_timeout t s in
  match f with
  | Yield o => good (outs ++ [o]) (match h with Some h => handled ++ [h] | None => handled end) s'
  | Continue => good outs (match h with Some h => handled ++ [h] | None => handled end) s'
  | Panicked => False
  end.
Proof.
  intros Hg. unfold turn. destruct (pending_error (state s)) as [err|] eqn:Hpend.
  { destruct Hg as [[seen [Hl Hm Hw Ho]] Hlen]. rewrite Hpend in Hl. split; [|done]. exists seen. split; cbn; [|done|done|apply Forall_app; split; [done|by constructor]].
    eapply ledger_tell; [| |exact Hl].
    - intros o Hin. apply elem_of_app. by left.
    - intros e ->%list_elem_of_singleton. right. apply elem_of_app. right. by left. }
  pose proof (poll_settled outs handled s Hg Hpend) as Hp. destruct (poll_channels batch_size s) as [[|o|] s1]; [|exact Hp|exact Hp].
  destruct Hp as [Hg1 Hn1]. pose proof (connect_settled outs handled t s1 Hg1 Hn1) as Hc. destruct (connect t s1) as [[|o|] s2]; [|exact Hc|exact Hc].
  destruct Hc as [Hg2 Hn2]. pose proof (receive_settled outs handled t s2 Hg2 Hn2) as Hr.
  destruct (receive options verifier batch_size batch_timeout t s2) as [[[|o|] s3] h]; [by destruct Hr|exact Hr|exact Hr].
Qed.

(** The cursor never goes back. *)
Lemma flush_le s : cursor s <= cursor (flush s).2.
Proof. unfold flush, advance. cbn. apply fetch_max_le. Qed.

Lemma skip_le s : cursor s <= cursor (skip_dropped s).
Proof. unfold skip_dropped, advance. destruct (0 <? _); cbn; [apply fetch_max_le|done]. Qed.

Lemma yield_error_le err s : cursor s <= cursor (yield_error err s).2.
Proof. unfold yield_error. case_bool_decide; [|done]. apply (flush_le (on_state (set_pending (Some err)) s)). Qed.

Lemma push_event_le e s : cursor s <= cursor (push_event batch_size e s).2.
Proof. unfold push_event. cbv zeta. destruct (_ <=? _)%nat; [|done]. apply (flush_le (on_state (fun t => set_batch (batch t ++ [e]) t) s)). Qed.

Lemma handle_frame_le data s : cursor s <= cursor (handle_frame options verifier batch_size data s).1.2.
Proof.
  unfold handle_frame. destruct (parse_firehose_outcome _ _ _ _) as [r v]. destruct r as [[[e|] n]|err|]; cbn [fst]; [|done| |done].
  - apply (push_event_le e (set_verified v s)).
  - destruct err; first [apply (yield_error_le _ (set_verified v s))|done].
Qed.

Lemma poll_le s : cursor s <= cursor (poll_channels batch_size s).2.
Proof.
  unfold poll_channels. assert (Ht : cursor (take_async_error s).2 = cursor s).
  { unfold take_async_error. destruct (async_errors _); [|done]. destruct (_ !! _); [done|]. by destruct (SyncVerifier.closed _). }
  destruct (take_async_error s) as [[err|] s1]; cbn [snd] in Ht; rewrite <- Ht; [apply yield_error_le|].
  assert (Ht' : cursor (take_resync_event s1).2 = cursor s1).
  { unfold take_resync_event. destruct (resync_events _); [|done]. destruct (_ !! _); [done|]. by destruct (SyncVerifier.closed _). }
  destruct (take_resync_event s1) as [[[e|]|err|] s2]; cbn [snd] in Ht'; rewrite <- Ht'; [apply push_event_le|done|apply yield_error_le|done].
Qed.

Lemma receive_le t s : cursor s <= cursor (receive options verifier batch_size batch_timeout t s).1.2.
Proof.
  unfold receive. cbv zeta. set (s1 := on_state _ s). change (cursor s) with (cursor s1). clearbody s1.
  destruct (ws (state s1)) as [frames|]; [|done]. destruct (arrival t) as [| | |e|]; try done.
  - destruct frames as [|data frames]; [done|]. pose proof (handle_frame_le data (on_state (set_ws (Some frames)) s1)) as Hf.
    destruct (handle_frame _ _ _ _ _) as [f r]. exact Hf.
  - case_bool_decide; [apply (flush_le (on_state (set_ws None) s1))|apply (skip_le (on_state (set_ws None) s1))].
  - case_bool_decide; [apply (flush_le (on_state (set_pending _) (on_state (set_ws None) s1)))|apply (skip_le (on_state (set_ws None) s1))].
  - case_bool_decide; [apply flush_le|apply skip_le].
Qed.

Lemma turn_le t s : cursor s <= cursor (turn options verifier batch_size batch_timeout t s).1.2.
Proof.
  unfold turn. destruct (pending_error (state s)); [done|]. pose proof (poll_le s) as Hp.
  destruct (poll_channels batch_size s) as [[|o|] s1]; [|exact Hp..]. cbn [snd] in Hp.
  assert (Hc : cursor s1 <= cursor (connect t s1).2).
  { unfold connect. destruct (ws (state s1)); [done|]. destruct (refused t) as [e|]; [|done]. case_bool_decide; [|done].
    apply (flush_le (on_state (set_pending (Some e)) s1)). }
  destruct (connect t s1) as [[|o|] s2]; cbn [snd fst] in *; [|lia..]. pose proof (receive_le t s2). lia.
Qed.

Definition stream_new (v : SyncVerifier.Verifier S W) : Stream := MkStream start v (batch_new verifier).

Lemma turns_good v outs handled s : turns options verifier batch_size batch_timeout (stream_new v) outs handled s -> good outs handled s.
Proof.
  induction 1 as [|outs handled s1 v1 t f s2 h _ IH Ht].
  - split; [|cbn; unfold most; lia]. exists start. split; cbn; [apply ledger_start|lia|done|constructor].
  - assert (Hg : good outs handled (set_verified v1 s1)).
    { destruct IH as [[seen Hc] Hlen]. split; [|exact Hlen]. exists seen. by eapply core_same; [exact Hc|..|left]. }
    pose proof (turn_settled outs handled t _ Hg) as Hs. rewrite Ht in Hs. by destruct f.
Qed.

(** C12. The serial stream's cursor is safe. However connections fail, frames
    arrive, the verifier's jobs report and time passes, from a positive cursor
    on: every numbered frame at or below the cursor has been handled, and its
    event is in a batch that was yielded, its error was yielded or is next, or
    it had nothing to tell; so a restart from the cursor misses nothing. The
    cursor never goes back, batches hold between one and [batch_size] events,
    and no turn panics. *)
Theorem serial_cursor_safe v outs handled s : turns options verifier batch_size batch_timeout (stream_new v) outs handled s ->
  (forall n, n ∈ log -> start < n <= cursor s ->
   exists data r, (data, r) ∈ handled /\ number verifier data = n /\ told outs [] (option_list (pending_error (state s))) r) /\
  Forall output_ok outs /\
  forall t v', let '(f, s', _) := turn options verifier batch_size batch_timeout t (set_verified v' s) in f <> Panicked /\ cursor s <= cursor s'.
Proof.
  intros Ht. pose proof (turns_good v outs handled s Ht) as Hg. destruct Hg as [[seen Hc] Hlen]. split_and!.
  - intros n Hn Hr. destruct (l_safe _ _ _ _ _ _ _ _ _ (c_ledger _ _ _ _ _ Hc) n Hn Hr) as (r & Hin & Htold). unfold numbered in Hin.
    apply list_elem_of_fmap in Hin as ([data r'] & [= -> ->] & Hin). by exists data, r'.
  - apply Hc.
  - intros t v'. assert (Hg' : good outs handled (set_verified v' s)).
    { split; [|exact Hlen]. exists seen. by eapply core_same; [exact Hc|..|left]. }
    pose proof (turn_settled outs handled t _ Hg') as Hs. pose proof (turn_le t (set_verified v' s)) as Hle.
    destruct (turn options verifier batch_size batch_timeout t (set_verified v' s)) as [[f s'] h]. split; [|exact Hle]. by destruct f.
Qed.
End Safe.

(** ** An example *)

#[local] Existing Instances CborDecode.simd_ref CborDecode.simd_ref_laws sha2_toy sha2_toy_laws
  Crypto.toy_verifying SyncState.mem_state_store SyncState.mem_state_store_laws SyncInvert.ex_outside SyncVerifier.ex_environment SyncVerifier.ex_environment_laws.

(** A server with one frame, number 2. *)
Definition ex_serve : Server := fun cursor => match cursor with Some c => if c <? 2 then [ex_commit_frame] else [] | None => [ex_commit_frame] end.
#[local] Existing Instance ex_serve.

Lemma ex_number : number true ex_commit_frame = 2.
Proof. vm_compute. reflexivity. Qed.

Lemma ex_serve_log c : 0 < c -> numbers true (serve (Some c)) = filter (fun n => c < n) [2].
Proof.
  intros _. unfold serve, ex_serve, numbers. destruct (Z.ltb_spec c 2); cbn [map]; rewrite ?ex_number, ?filter_cons, ?filter_nil; [|by rewrite decide_False by lia].
  by rewrite !decide_True by lia.
Qed.

Lemma ex_serve_frames c : Forall frame_ok (serve (Some c)).
Proof. unfold serve, ex_serve. destruct (c <? 2); [|constructor]. constructor; [exact ex_commit_frame_ok|constructor]. Qed.

Lemma ex_log_sorted : StronglySorted Z.lt [2].
Proof. repeat constructor. Qed.

Definition ex_turn : Turn := MkTurn 0 None NextFrame 0.
Definition ex_stream : Stream (S:=SyncState.MemStateStore) (W:=()) := stream_new true 1 (SyncVerifier.verifier_new SyncVerifier.ex_kept).

(** The frame is delivered at once, and the cursor is at its number. *)
Lemma ex_turn_yields : match turn SyncVerifier.ex_options true 1 500 ex_turn ex_stream with
  | (Yield (Ok b), s, Some h) => cursor s = 2 /\ map event_seq b = [2] | _ => False end.
Proof. vm_compute. by split. Qed.

Example serial_cursor_safe_witness : exists outs handled s, turns SyncVerifier.ex_options true 1 500 ex_stream outs handled s /\ cursor s = 2 /\
  exists data r, (data, r) ∈ handled /\ number true data = 2 /\ told outs [] (option_list (pending_error (state s))) r.
Proof.
  pose proof ex_turn_yields as Hy. destruct (turn SyncVerifier.ex_options true 1 500 ex_turn ex_stream) as [[f s] h] eqn:Ht.
  destruct f as [|[b|e|]|]; [destruct Hy| |destruct Hy..]. destruct h as [[data r]|]; [|destruct Hy].
  pose proof (turns_more _ _ _ _ _ _ _ _ _ _ _ _ _ (turns_nil SyncVerifier.ex_options true 1 500 ex_stream) Ht) as Hturns.
  pose proof (serial_cursor_safe SyncAccept.toy_no_panic SyncVerifier.ex_options (proj1 SyncResync.ex_limits) (proj2 SyncResync.ex_limits)
    true 1 500 [2] ex_log_sorted ex_serve_log ex_serve_frames 1 ltac:(lia) _ _ _ _ Hturns) as [Hsafe _].
  exists [Ok b], [(data, r)], s. refine (conj Hturns (conj (proj1 Hy) (Hsafe 2 _ _))); [by left|destruct Hy; lia].
Defined.
