(* ===== verification/StreamDispatch.v ===== *)
(** The parallel stream: [Client::subscribe_parallel], [dispatch_loop] and the
    collector of [src/src/streaming/client.rs].

    A dispatcher reads frames and hands them to the scheduler of
    [StreamParallel]; workers verify them; a collector gathers the results in
    batches and moves the cursor to below the lowest number in flight. The
    three run at once: a step is one of theirs between two points where
    another can see what they share. Whatever the order, the cursor keeps the
    promise of [StreamCursor]. *)
From stdpp Require Import relations.
From S2P Require Import Prelude StateError SyntaxError CborError Cid CborValue CborDecode StreamEvents StreamClient StreamSerial.
From S2P Require Crypto RepoCommit SyncRaw SyncInvert SyncResync SyncState SyncVerifier SyncChain SyncAccept StreamParallel.
Import SyncRaw(RawSyncEvent(..)).

(** A frame dispatched, and what came of it. *)
Record ParallelJob := MkJob { raw : RawSyncEvent; job_seq : Z }.
Record ParallelResult `{SyncInvert.Outside} := MkResult { result_seq : Z; outcome : res StreamError VerifyOutcome }.
Arguments MkResult {_}.
Arguments result_seq {_} p.
Arguments outcome {_} p.

Section Parallel.
Context `{Sha2} `{Simdutf8} `{SyncInvert.Outside} `{!Server}.
(** [batch_size], [parallelism] and [per_did_queue]. *)
Variable batch_size : nat.
Abbreviation Output := (res StreamError (list Event)).
Abbreviation Outcome := (res StreamError VerifyOutcome).
Abbreviation Scheduler := (StreamParallel.Scheduler (K:=bytes) (W:=ParallelJob) (R:=ParallelResult)).

(** Where the dispatcher is: reading; with a number reserved; with a job the
    queue gave up, or that was refused; with an error to report; or done. *)
Inductive Dispatcher :=
| Reading | Reserved (key : bytes) (job : ParallelJob) | Evicting (key : bytes) (job : ParallelJob) | Refusing (job : ParallelJob)
| Reporting (err : StreamError) | Stopped.

(** The stream. [target]: the cursor's new value, computed and not yet stored;
    [collected]: how many results were received. *)
Record Parallel := MkParallel {
  cursor : Z;
  inflight : StreamParallel.InflightSeqs;
  scheduler : Scheduler;
  dispatcher : Dispatcher;
  conn : option (list bytes);
  attempt : Z;
  ctrl : list StreamError;
  collected : nat;
  batch : list Event;
  pending_error : option StreamError;
  target : option Z
}.

Definition set_cursor c s := MkParallel c (inflight s) (scheduler s) (dispatcher s) (conn s) (attempt s) (ctrl s) (collected s) (batch s) (pending_error s) (target s).
Definition set_inflight i s := MkParallel (cursor s) i (scheduler s) (dispatcher s) (conn s) (attempt s) (ctrl s) (collected s) (batch s) (pending_error s) (target s).
Definition set_scheduler k s := MkParallel (cursor s) (inflight s) k (dispatcher s) (conn s) (attempt s) (ctrl s) (collected s) (batch s) (pending_error s) (target s).
Definition set_dispatcher d s := MkParallel (cursor s) (inflight s) (scheduler s) d (conn s) (attempt s) (ctrl s) (collected s) (batch s) (pending_error s) (target s).
Definition set_conn c s := MkParallel (cursor s) (inflight s) (scheduler s) (dispatcher s) c (attempt s) (ctrl s) (collected s) (batch s) (pending_error s) (target s).
Definition set_attempt a s := MkParallel (cursor s) (inflight s) (scheduler s) (dispatcher s) (conn s) a (ctrl s) (collected s) (batch s) (pending_error s) (target s).
Definition set_ctrl c s := MkParallel (cursor s) (inflight s) (scheduler s) (dispatcher s) (conn s) (attempt s) c (collected s) (batch s) (pending_error s) (target s).
Definition set_collected n s := MkParallel (cursor s) (inflight s) (scheduler s) (dispatcher s) (conn s) (attempt s) (ctrl s) n (batch s) (pending_error s) (target s).
Definition set_batch b s := MkParallel (cursor s) (inflight s) (scheduler s) (dispatcher s) (conn s) (attempt s) (ctrl s) (collected s) b (pending_error s) (target s).
Definition set_pending e s := MkParallel (cursor s) (inflight s) (scheduler s) (dispatcher s) (conn s) (attempt s) (ctrl s) (collected s) (batch s) e (target s).
Definition set_target t s := MkParallel (cursor s) (inflight s) (scheduler s) (dispatcher s) (conn s) (attempt s) (ctrl s) (collected s) (batch s) (pending_error s) t.

(** [subscribe_parallel], before its first turn. *)
Definition parallel_new (start : Z) (parallelism per_did_queue : nat) : Parallel :=
  MkParallel start StreamParallel.inflight_new (StreamParallel.scheduler_new parallelism per_did_queue) Reading None 0 [] 0 [] None None.

(** ** The dispatcher *)

(** [connect_ws], and a connection lost. *)
Definition dispatch_connect (refused : option StreamError) (s : Parallel) : Parallel :=
  match refused with
  | None => set_conn (Some (serve (cursor_param (cursor s)))) (set_attempt 0 s)
  | Some e => set_attempt (saturating_add_u32 (attempt s) 1) (set_dispatcher (Reporting e) s)
  end.

Definition dispatch_lost (broken : option bytes) (s : Parallel) : Parallel :=
  let s := set_conn None (set_attempt (saturating_add_u32 (attempt s) 1) s) in
  match broken with None => s | Some e => set_dispatcher (Reporting (WebSocket e)) s end.

(** A frame is parsed and its number reserved. *)
Definition dispatch_frame (data : bytes) (s : Parallel) : option Parallel :=
  match SyncRaw.parse_raw_sync_frame data with
  | Ok raw =>
      let seq := raw_event_seq raw in
      match frame_key raw with
      | None => Some s
      | Some key => Some (set_dispatcher (Reserved (RepoCommit.did_text key) (MkJob raw seq)) (set_inflight (StreamParallel.add seq (inflight s)) s))
      end
  | Err err => Some (set_dispatcher (Reporting (ParseCbor (OfRaw err))) s)
  | Panic => None
  end.

Definition dispatch_submit (key : bytes) (job : ParallelJob) (s : Parallel) : option Parallel :=
  let '(r, k) := StreamParallel.add_work (E:=()) key job (scheduler s) in
  let s := set_scheduler k s in
  match r with
  | Ok StreamParallel.Queued => Some (set_dispatcher Reading s)
  | Ok (StreamParallel.Dropped job) => Some (set_dispatcher (Evicting key job) s)
  | Ok (StreamParallel.ShuttingDown job) => Some (set_dispatcher (Refusing job) s)
  | _ => None
  end.

(** The job given up leaves the numbers in flight, and is reported. *)
Definition dispatch_evict (key : bytes) (job : ParallelJob) (s : Parallel) : Parallel :=
  set_dispatcher (Reporting (QueueOverflow key (job_seq job))) (set_inflight (StreamParallel.remove (job_seq job) (inflight s)) s).
Definition dispatch_refuse (job : ParallelJob) (s : Parallel) : Parallel :=
  set_dispatcher Stopped (set_inflight (StreamParallel.remove (job_seq job) (inflight s)) s).
Definition dispatch_report (err : StreamError) (s : Parallel) : Parallel := set_dispatcher Reading (set_ctrl (ctrl s ++ [err]) s).

(** ** The collector *)

(** The first half of [parallel_advance_cursor]: where the cursor is to go. *)
Definition watermark_target (xs : StreamParallel.InflightSeqs) (b : list Event) : Z :=
  let watermark := StreamParallel.min xs in if 0 <? watermark then watermark - 1 else highest_seq b.

Definition parallel_flush (s : Parallel) : Flow * Parallel :=
  (Yield (Ok (batch s)), set_target (Some (watermark_target (inflight s) (batch s))) (set_batch [] s)).

(** The second half. *)
Definition parallel_store (t : Z) (s : Parallel) : Parallel := set_target None (set_cursor (fetch_max (cursor s) t) s).

Definition parallel_yield_error (err : StreamError) (s : Parallel) : Flow * Parallel :=
  if bool_decide (batch s <> []) then parallel_flush (set_pending (Some err) s) else (Yield (Err err), s).

Definition parallel_push (e : Event) (s : Parallel) : Flow * Parallel :=
  let s := set_batch (batch s ++ [e]) s in if (batch_size <=? length (batch s))%nat then parallel_flush s else (Continue, s).

(** What the collector receives. *)
Inductive Received := AsyncError (err : SyncInvert.VerifierError) | CtrlError | ResyncEvent (event : SyncVerifier.ResyncEvent) | Result | Timeout.

(** One turn of the collector, with the result it took. *)
Definition collect (m : Received) (s : Parallel) : Flow * Parallel * option ParallelResult :=
  match pending_error s with
  | Some err => (Yield (Err err), set_pending None s, None)
  | None =>
      match m with
      | AsyncError err => (parallel_yield_error (Verifier err) s, None)
      | CtrlError =>
          match ctrl s with
          | [] => (Continue, s, None)
          | err :: rest => (parallel_yield_error err (set_ctrl rest s), None)
          end
      | ResyncEvent event =>
          match event_from_resync_event event with
          | Ok e => (parallel_push e s, None)
          | Err err => (parallel_yield_error err s, None)
          | Panic => (Panicked, s, None)
          end
      | Result =>
          match StreamParallel.results (scheduler s) !! collected s with
          | None => (Continue, s, None)
          | Some (_, result) =>
              let s := set_inflight (StreamParallel.remove (result_seq result) (inflight s)) (set_collected (1 + collected s)%nat s) in
              (match outcome result with
               | Ok (MkOutcome (Some event) _) => parallel_push event s
               | Ok (MkOutcome None _) | Err (UnknownType _) => (Continue, s)
               | Err err => parallel_yield_error err s
               | Panic => (Panicked, s)
               end, Some result)
          end
      | Timeout =>
          if bool_decide (batch s <> []) then (parallel_flush s, None)
          else (Continue, set_target (Some (watermark_target (inflight s) [])) s, None)
      end
  end.

(** ** Steps *)

(** What a worker may make of a job: what [verify_raw_event] may return, with
    the number of the job. *)
Definition ran (job : ParallelJob) (r : ParallelResult) : Prop := result_seq r = job_seq job /\ returns (raw job) (outcome r).

(** A step of the workers. *)
Definition by_worker (l : StreamParallel.Label (K:=bytes) (W:=ParallelJob) (R:=ParallelResult)) : Prop :=
  match l with
  | StreamParallel.Start _ _ | StreamParallel.Tau => True
  | StreamParallel.Finish _ job r => ran job r
  | _ => False
  end.

(** A step, with what it yields and the numbers it deals with. *)
Inductive move (s : Parallel) : list Output -> list (Z * Outcome) -> Parallel -> Prop :=
| move_connect refused : dispatcher s = Reading -> conn s = None -> move s [] [] (dispatch_connect refused s)
| move_lost broken rest : dispatcher s = Reading -> conn s = Some rest -> move s [] [] (dispatch_lost broken s)
| move_frame data rest s' : dispatcher s = Reading -> conn s = Some (data :: rest) -> dispatch_frame data (set_conn (Some rest) s) = Some s' -> move s [] [] s'
| move_submit key job s' : dispatcher s = Reserved key job -> dispatch_submit key job s = Some s' -> move s [] [] s'
| move_evict key job : dispatcher s = Evicting key job ->
    move s [] [(job_seq job, Err (QueueOverflow key (job_seq job)))] (dispatch_evict key job s)
| move_refuse job : dispatcher s = Refusing job -> move s [] [] (dispatch_refuse job s)
| move_report err : dispatcher s = Reporting err -> move s [] [] (dispatch_report err s)
| move_work l k : StreamParallel.step (scheduler s) l k -> by_worker l -> move s [] [] (set_scheduler k s)
| move_store t : target s = Some t -> move s [] [] (parallel_store t s)
| move_collect m f s' h : target s = None -> collect m s = (f, s', h) ->
    move s (match f with Yield o => [o] | _ => [] end) (match h with Some r => [(result_seq r, outcome r)] | None => [] end) s'.

Inductive moves (s : Parallel) : list Output -> list (Z * Outcome) -> Parallel -> Prop :=
| moves_nil : moves s [] [] s
| moves_more outs handled s1 outs' handled' s2 : moves s outs handled s1 -> move s1 outs' handled' s2 ->
    moves s (outs ++ outs') (handled ++ handled') s2.
End Parallel.

(** ** The cursor keeps its promise *)

Section Safe.
Context `{Simdutf8Laws} `{Sha2Laws} `{SyncInvert.Outside} `{!Server}.
Variable batch_size : nat.
Abbreviation Output := (res StreamError (list Event)).
Abbreviation Outcome := (res StreamError VerifyOutcome).
Implicit Types s : Parallel.

Variable log : list Z.
Hypothesis log_sorted : StronglySorted Z.lt log.
Hypothesis serve_log : forall c, 0 < c -> numbers true (serve (Some c)) = filter (fun n => c < n) log.
Variable start : Z.
Hypothesis start_pos : 0 < start.

(** The errors that are known and not yet yielded. *)
Definition pend s : list StreamError :=
  match dispatcher s with Reporting err => [err] | _ => [] end ++ ctrl s ++ option_list (pending_error s).

(** The cursor, once it is stored. *)
Definition goal s : Z := match target s with Some t => fetch_max (cursor s) t | None => cursor s end.

Definition job_ok (seen : Z) (job : ParallelJob) : Prop := job_seq job = raw_event_seq (raw job) /\ job_seq job <= seen.

Record inv (seen : Z) (outs : list Output) (handled : list (Z * Outcome)) s : Prop := {
  i_ledger : ledger log start (goal s) seen (inflight s) handled outs (batch s) (pend s);
  i_start : start <= cursor s;
  i_inflight : StreamParallel.inflight_ok (inflight s) /\ Forall (fun n => n <= seen) (inflight s);
  i_sched : StreamParallel.sched_ok (scheduler s) /\ StreamParallel.alive (scheduler s);
  i_units : StreamParallel.units_ok (fun _ => job_ok seen) (scheduler s);
  i_results : Forall (fun x => job_ok seen x.1 /\ ran x.1 x.2) (StreamParallel.results (scheduler s));
  i_hand : match dispatcher s with Reserved _ job | Evicting _ job => job_ok seen job | Refusing _ => False | _ => True end;
  i_conn : forall frames, conn s = Some frames -> exists p, p <= seen /\ numbers true frames = filter (fun n => p < n) log;
  i_outs : Forall (output_ok batch_size) outs
}.

Lemma goal_le s : cursor s <= goal s.
Proof. unfold goal. destruct (target s); [apply fetch_max_le|done]. Qed.

Lemma job_ok_mono seen seen' job : seen <= seen' -> job_ok seen job -> job_ok seen' job.
Proof. intros Hle [Hs Hj]. split; [done|lia]. Qed.

Lemma units_mono (seen seen' : Z) (k : StreamParallel.Scheduler (K:=bytes) (W:=ParallelJob) (R:=ParallelResult)) : seen <= seen' ->
  StreamParallel.units_ok (fun _ => job_ok seen) k -> StreamParallel.units_ok (fun _ => job_ok seen') k.
Proof.
  intros Hle (Hf & Ha & Hw). split_and!.
  - eapply Forall_impl; [exact Hf|]. intros p. by apply job_ok_mono.
  - intros key q Hq. eapply Forall_impl; [by apply (Ha key q)|]. intros j. by apply job_ok_mono.
  - eapply Forall_impl; [exact Hw|]. intros [|k' u|k']; [done| |done]. by apply job_ok_mono.
Qed.

(** The ledger when only errors move towards the consumer. *)
Lemma ledger_pend cursor seen fl handled outs b p p' : (forall e, e ∈ p -> e ∈ p') ->
  ledger log start cursor seen fl handled outs b p -> ledger log start cursor seen fl handled outs b p'.
Proof. intros Hp Hl. eapply ledger_tell; [done| |exact Hl]. intros e He. left. auto. Qed.

(** The dispatcher's own steps, which keep what they do not name. *)
Lemma inv_dispatch seen outs handled s d c a : inv seen outs handled s -> dispatcher s = Reading ->
  match d with Reserved _ _ | Evicting _ _ | Refusing _ => False | _ => True end ->
  (forall frames, c = Some frames -> exists p, p <= seen /\ numbers true frames = filter (fun n => p < n) log) ->
  inv seen outs handled (set_conn c (set_attempt a (set_dispatcher d s))).
Proof.
  intros [] Hd Hd' Hc. split; cbn; try done.
  - eapply ledger_pend; [|exact i_ledger0]. intros e He. unfold pend in *. rewrite Hd in He. cbn in He. cbn. apply elem_of_app. by right.
  - by destruct d.
Qed.

Lemma move_connect_inv seen outs handled s refused : inv seen outs handled s -> dispatcher s = Reading -> conn s = None ->
  inv seen outs handled (dispatch_connect refused s).
Proof.
  intros Hi Hd Hn. unfold dispatch_connect. destruct refused as [e|].
  - pose proof (inv_dispatch seen outs handled s (Reporting e) (conn s) (saturating_add_u32 (attempt s) 1) Hi Hd I (i_conn _ _ _ _ Hi)) as Hr. by destruct s.
  - pose proof (inv_dispatch seen outs handled s Reading (Some (serve (cursor_param (cursor s)))) 0 Hi Hd I) as Hr. destruct s. cbn in *. subst. apply Hr.
    intros frames [= <-]. pose proof (i_start _ _ _ _ Hi) as Hst. cbn in Hst. unfold cursor_param. destruct (Z.ltb_spec 0 cursor0); [|lia].
    exists cursor0. split; [|by apply serve_log]. pose proof (goal_le (MkParallel cursor0 inflight0 scheduler0 Reading None attempt0 ctrl0 collected0 batch0 pending_error0 target0)) as Hg.
    pose proof (l_cursor _ _ _ _ _ _ _ _ _ (i_ledger _ _ _ _ Hi)). cbn [cursor] in *. lia.
Qed.

Lemma move_lost_inv seen outs handled s broken : inv seen outs handled s -> dispatcher s = Reading -> inv seen outs handled (dispatch_lost broken s).
Proof.
  intros Hi Hd. unfold dispatch_lost. destruct broken as [e|].
  - pose proof (inv_dispatch seen outs handled s (Reporting (WebSocket e)) None (saturating_add_u32 (attempt s) 1) Hi Hd I ltac:(done)) as Hr. by destruct s.
  - pose proof (inv_dispatch seen outs handled s Reading None (saturating_add_u32 (attempt s) 1) Hi Hd I ltac:(done)) as Hr. destruct s. cbn in *. by subst.
Qed.

(** A number is reserved. *)
Lemma inv_reserve seen outs handled s n key job frames : inv seen outs handled s -> dispatcher s = Reading -> job_seq job = n -> raw_event_seq (raw job) = n ->
  (forall m, m ∈ log -> seen < m <= n -> m = n) -> (exists q, q <= Z.max seen n /\ numbers true frames = filter (fun m => q < m) log) ->
  inv (Z.max seen n) outs handled (set_dispatcher (Reserved key job) (set_inflight (StreamParallel.add n (inflight s)) (set_conn (Some frames) s))).
Proof.
  intros [Hl Hst [Hin Hle] Hs Hu Hr Hh Hc Ho] Hd Hj Hraw Hgap Hq. destruct (StreamParallel.add_spec n (inflight s) Hin) as (Hin' & Hpos & Hneg).
  assert (Hseen : 0 < seen) by (pose proof (l_start _ _ _ _ _ _ _ _ _ Hl); pose proof (l_cursor _ _ _ _ _ _ _ _ _ Hl); lia).
  split; cbn; try done.
  - eapply (ledger_pend _ _ _ _ _ _ (pend s)); [intros e He; unfold pend in *; cbn; by rewrite Hd in He|].
    destruct (Z.le_gt_cases n 0) as [Hn|Hn]; [rewrite (Hneg Hn), Z.max_l by lia; exact Hl|].
    eapply ledger_read; [|exact Hgap|exact Hl]. intros m Hm. rewrite (Hpos Hn). destruct Hm as [Hm| ->]; [by right|by left].
  - split; [done|]. destruct (Z.le_gt_cases n 0) as [Hn|Hn]; [rewrite (Hneg Hn)|rewrite (Hpos Hn); constructor; [lia|]];
      (eapply Forall_impl; [exact Hle|]); cbn; lia.
  - by eapply units_mono; [|exact Hu]; lia.
  - eapply Forall_impl; [exact Hr|]. intros x [Hx Hx']. split; [|done]. by eapply job_ok_mono; [|exact Hx]; lia.
  - split; [by rewrite Hj|rewrite Hj; lia].
  - intros fs [= <-]. exact Hq.
Qed.

Lemma move_frame_inv seen outs handled s data rest s' : inv seen outs handled s -> dispatcher s = Reading -> conn s = Some (data :: rest) ->
  dispatch_frame data (set_conn (Some rest) s) = Some s' -> exists seen', inv seen' outs handled s'.
Proof.
  intros Hi Hd Hcn. destruct (i_conn _ _ _ _ Hi _ Hcn) as (p & Hp & Hnum).
  pose proof (l_start _ _ _ _ _ _ _ _ _ (i_ledger _ _ _ _ Hi)) as Hst. pose proof (l_cursor _ _ _ _ _ _ _ _ _ (i_ledger _ _ _ _ Hi)) as Hcur.
  apply (read_number true log log_sorted seen) in Hnum as [Hgap Hq]; [|lia|done]. unfold dispatch_frame, number in *.
  destruct (SyncRaw.parse_raw_sync_frame data) as [raw|err|] eqn:Hparse; [| |done].
  - destruct (frame_key raw) as [key|] eqn:Hk.
    + intros [= <-]. exists (Z.max seen (raw_event_seq raw)).
      pose proof (inv_reserve seen outs handled s _ (RepoCommit.did_text key) (MkJob raw (raw_event_seq raw)) rest Hi Hd eq_refl eq_refl Hgap Hq) as Hr.
      by destruct s.
    + intros [= <-]. assert (Hz : raw_event_seq raw = 0) by (by destruct raw). rewrite Hz, Z.max_l in Hq by lia. exists seen.
      pose proof (inv_dispatch seen outs handled s Reading (Some rest) (attempt s) Hi Hd I) as Hr. destruct s. cbn in *. subst. apply Hr. by intros fs [= <-].
  - intros [= <-]. rewrite Z.max_l in Hq by lia. exists seen.
    pose proof (inv_dispatch seen outs handled s (Reporting (ParseCbor (OfRaw err))) (Some rest) (attempt s) Hi Hd I) as Hr. destruct s. cbn in *. apply Hr. by intros fs [= <-].
Qed.

(** A step of the scheduler keeps what is known of its jobs. *)
Lemma sched_step (seen : Z) (k k' : StreamParallel.Scheduler (K:=bytes) (W:=ParallelJob) (R:=ParallelResult)) (l : StreamParallel.Label) :
  StreamParallel.sched_ok k /\ StreamParallel.alive k -> StreamParallel.units_ok (fun _ => job_ok seen) k ->
  Forall (fun x => job_ok seen x.1 /\ ran x.1 x.2) (StreamParallel.results k) ->
  StreamParallel.step k l k' -> StreamParallel.label_ok (fun _ => job_ok seen) l ->
  match l with StreamParallel.Finish _ job r => ran job r | _ => True end ->
  (StreamParallel.sched_ok k' /\ StreamParallel.alive k') /\ StreamParallel.units_ok (fun _ => job_ok seen) k' /\
  Forall (fun x => job_ok seen x.1 /\ ran x.1 x.2) (StreamParallel.results k') /\
  match l with StreamParallel.Evict _ old _ => job_ok seen old | _ => True end.
Proof.
  intros [Hok Hal] Hu Hr Hstep Hlab Hran. destruct (StreamParallel.step_units _ _ _ _ Hok Hstep Hlab Hu) as [Hu' Hres].
  split_and!; [by eapply StreamParallel.step_ok|by eapply StreamParallel.step_alive|done| |].
  - destruct l; try (by rewrite Hres). { destruct Hres as [-> _]. done. } destruct Hres as [-> Hj]. apply Forall_app. by split; [|constructor].
  - destruct l; [done| |done..]. by destruct Hres.
Qed.

Lemma move_submit_inv seen outs handled s key job s' : inv seen outs handled s -> dispatcher s = Reserved key job ->
  dispatch_submit key job s = Some s' -> inv seen outs handled s'.
Proof.
  intros [Hl Hst Hin Hs Hu Hr Hh Hc Ho] Hd. rewrite Hd in Hh. unfold dispatch_submit.
  destruct (StreamParallel.add_work (E:=()) key job (scheduler s)) as [r k] eqn:Ha.
  assert (Hpend : forall d, match d with Reporting _ => False | _ => True end -> pend (set_dispatcher d (set_scheduler k s)) = pend s).
  { intros d Hd'. unfold pend. cbn. rewrite Hd. by destruct d. }
  destruct r as [[|old|refused]|e|]; try done.
  - intros [= <-]. destruct (sched_step seen _ k (StreamParallel.Accept key job) Hs Hu Hr) as (Hs' & Hu' & Hr' & _); [by constructor|done|done|].
    rewrite <- (Hpend Reading I) in Hl. by split.
  - intros [= <-]. destruct (sched_step seen _ k (StreamParallel.Evict key old job) Hs Hu Hr) as (Hs' & Hu' & Hr' & Hold); [by constructor|done|done|].
    rewrite <- (Hpend (Evicting key old) I) in Hl. by split.
  - destruct Hs as [Hok [Hg _]]. apply StreamParallel.add_work_Ok in Ha as [(Hgone & _)|[(_ & ? & _)|[(? & _ & ? & _)|(? & ? & _ & ? & _)]]]; try done. congruence.
Qed.

Lemma move_work_inv seen outs handled s l k : inv seen outs handled s -> StreamParallel.step (scheduler s) l k -> by_worker l ->
  inv seen outs handled (set_scheduler k s).
Proof.
  intros [Hl Hst Hin Hs Hu Hr Hh Hc Ho] Hstep Hw.
  destruct (sched_step seen _ k l Hs Hu Hr Hstep) as (Hs' & Hu' & Hr' & _); [by destruct l|by destruct l|]. by split.
Qed.

Lemma move_report_inv seen outs handled s err : inv seen outs handled s -> dispatcher s = Reporting err -> inv seen outs handled (dispatch_report err s).
Proof.
  intros [Hl Hst Hin Hs Hu Hr Hh Hc Ho] Hd. split; cbn; try done. eapply ledger_pend; [|exact Hl].
  intros e. unfold pend. cbn. rewrite Hd. set_solver.
Qed.

(** A number leaves those in flight, with what became of it. *)
Lemma removed n xs : StreamParallel.inflight_ok xs -> forall m, m ∈ xs -> m ∈ StreamParallel.remove n xs \/ m = n.
Proof.
  intros Hx m Hm. destruct (StreamParallel.remove_spec n xs Hx) as (_ & Hin & Hout). destruct (decide (n ∈ xs)) as [Hn|Hn].
  - rewrite (Hin Hn) in Hm. apply elem_of_cons in Hm as [->|Hm]; [by right|by left].
  - left. by rewrite (Hout Hn).
Qed.

Lemma removed_le n xs (seen : Z) : StreamParallel.inflight_ok xs -> Forall (fun m => m <= seen) xs ->
  StreamParallel.inflight_ok (StreamParallel.remove n xs) /\ Forall (fun m => m <= seen) (StreamParallel.remove n xs).
Proof.
  intros Hx Hle. destruct (StreamParallel.remove_spec n xs Hx) as (Hok & Hin & Hout). split; [done|]. destruct (decide (n ∈ xs)) as [Hn|Hn].
  - rewrite Forall_forall in *. intros m Hm. apply Hle. rewrite (Hin Hn). by right.
  - by rewrite (Hout Hn).
Qed.

Lemma move_evict_inv seen outs handled s key job : inv seen outs handled s -> dispatcher s = Evicting key job ->
  inv seen outs (handled ++ [(job_seq job, Err (QueueOverflow key (job_seq job)))]) (dispatch_evict key job s).
Proof.
  intros [Hl Hst [Hin Hle] Hs Hu Hr Hh Hc Ho] Hd. split; cbn; try done.
  - eapply ledger_handle; [by apply removed| |done|apply (l_batch _ _ _ _ _ _ _ _ _ Hl)| |exact Hl].
    + left. unfold pend. cbn. by left.
    + intros e. unfold pend. cbn. rewrite Hd. set_solver.
  - by apply removed_le.
Qed.

Lemma move_store_inv seen outs handled s t : inv seen outs handled s -> target s = Some t -> inv seen outs handled (parallel_store t s).
Proof.
  intros [Hl Hst Hin Hs Hu Hr Hh Hc Ho] Ht. assert (Hg : goal (parallel_store t s) = goal s) by (unfold goal; by rewrite Ht).
  split; try done; [by rewrite Hg|]. cbn. pose proof (fetch_max_le (cursor s) t). lia.
Qed.

(** A flush: the cursor is to go below all that is in flight. *)
Lemma target_below seen outs handled s b : inv seen outs handled s -> Forall (fun e => event_seq e <= seen) b ->
  watermark_target (inflight s) b <= seen /\ forall m, m ∈ inflight s -> watermark_target (inflight s) b < m.
Proof.
  intros [Hl Hst [Hin Hle] Hs Hu Hr Hh Hc Ho] Hb.
  assert (Hseen : 0 < seen) by (pose proof (l_start _ _ _ _ _ _ _ _ _ Hl); pose proof (l_cursor _ _ _ _ _ _ _ _ _ Hl); lia).
  pose proof (StreamParallel.min_spec _ Hin) as Hm. unfold watermark_target. destruct (inflight s) as [|x xs].
  - rewrite Hm. cbn. split; [apply highest_seq_le; [lia|done]|by intros m ?%elem_of_nil].
  - destruct Hm as (Hpos & Hmin & Hall). destruct (Z.ltb_spec 0 (StreamParallel.min (x :: xs))); [|lia]. rewrite Forall_forall in Hle, Hall. split.
    + specialize (Hle _ Hmin). cbv beta in Hle. lia.
    + intros m Hmm. specialize (Hall m Hmm). cbv beta in Hall. lia.
Qed.

(** Between the collector's turns the batch has room. *)
Definition room s : Prop := (length (batch s) < most batch_size)%nat.

(** What a turn of the collector leaves. *)
Definition settled (outs : list Output) (handled : list (Z * Outcome)) (r : Flow * Parallel) : Prop :=
  match r with
  | (Yield o, s) => (exists seen, inv seen (outs ++ [o]) handled s) /\ room s
  | (Continue, s) => (exists seen, inv seen outs handled s) /\ room s
  | (Panicked, _) => False
  end.

Lemma flush_settled seen outs handled s : inv seen outs handled s -> target s = None -> batch s <> [] -> (length (batch s) <= most batch_size)%nat ->
  settled outs handled (parallel_flush s).
Proof.
  intros Hi Ht Hne Hlen. destruct (target_below seen outs handled s (batch s) Hi) as [Hle Hbelow]; [apply (l_batch _ _ _ _ _ _ _ _ _ (i_ledger _ _ _ _ Hi))|].
  destruct Hi as [Hl Hst Hin Hs Hu Hr Hh Hc Ho]. split; [|unfold room, most; cbn; lia]. exists seen.
  split; cbn; try done; [|apply Forall_app; split; [done|]; by repeat constructor].
  unfold goal in *. cbn. rewrite Ht in Hl. eapply ledger_flush; [| |exact Hle|exact Hbelow|exact Hl].
  - intros o Hin'. apply elem_of_app. by left.
  - intros e He. exists (batch s). split; [apply elem_of_app; right; by left|done].
Qed.

Lemma yield_error_settled seen outs handled s err : inv seen outs handled (set_ctrl (err :: ctrl s) s) -> target s = None -> pending_error s = None -> room s ->
  settled outs handled (parallel_yield_error err s).
Proof.
  intros [Hl Hst Hin Hs Hu Hr Hh Hc Ho] Ht Hp Hroom. cbn in Hst, Hin, Hs, Hu, Hr, Hh, Hc. unfold parallel_yield_error. case_bool_decide as Hne.
  - apply (flush_settled seen); [|done|done|unfold room in Hroom; cbn; lia].
    split; try done. eapply ledger_pend; [|exact Hl]. intros e. unfold pend. cbn. rewrite Hp. set_solver.
  - split; [|done]. exists seen. split; try done; [|apply Forall_app; split; [done|by constructor]]. eapply ledger_tell; [| |exact Hl].
    + intros o Hin'. apply elem_of_app. by left.
    + intros e. unfold pend. cbn. intros [He|[->|He]%elem_of_cons]%elem_of_app; [left; set_solver|right; apply elem_of_app; right; by left|left; set_solver].
Qed.

Lemma push_settled seen outs handled s e : inv seen outs handled (set_batch (batch s ++ [e]) s) -> target s = None -> room s ->
  settled outs handled (parallel_push batch_size e s).
Proof.
  intros Hi Ht Hroom. unfold parallel_push, room in *. cbv zeta. cbn [batch set_batch]. rewrite length_app. cbn [length].
  destruct (Nat.leb_spec batch_size (length (batch s) + 1)).
  - apply (flush_settled seen); [done|done|cbn; by destruct (batch s)|cbn; rewrite length_app; cbn; lia].
  - split; [by exists seen|]. unfold room. cbn. rewrite length_app. cbn. unfold most. lia.
Qed.

(** The ledger of a state with one number fewer in flight. *)
Lemma collect_result seen outs handled s job r : inv seen outs handled s -> target s = None ->
  StreamParallel.results (scheduler s) !! collected s = Some (job, r) ->
  let s' := set_inflight (StreamParallel.remove (result_seq r) (inflight s)) (set_collected (1 + collected s)%nat s) in
  fine (fun o => forall e, event o = Some e -> event_seq e <= seen) (outcome r) /\
  forall b p, told outs b (p ++ pend s) (outcome r) -> (forall e, e ∈ batch s -> e ∈ b) -> Forall (fun e => event_seq e <= seen) b ->
    ledger log start (goal s') seen (inflight s') (handled ++ [(result_seq r, outcome r)]) outs b (p ++ pend s).
Proof.
  intros [Hl Hst [Hin Hle] Hs Hu Hr Hh Hc Ho] Ht Hres. cbv zeta. rewrite Forall_forall in Hr.
  destruct (Hr _ (list_elem_of_lookup_2 _ _ _ Hres)) as [[Hj Hjs] [Hrs Hret]]. cbn [fst snd] in *. split.
  - eapply fine_weaken; [exact Hret|]. intros o [_ He] e Hev. rewrite (He e Hev). lia.
  - intros b p Htold Hb Hbs. cbn [inflight set_inflight]. eapply ledger_handle; [by apply removed|done|done|done| |exact Hl].
    intros e He. apply elem_of_app. by right.
Qed.

Lemma result_settled seen outs handled s job r : inv seen outs handled s -> target s = None -> pending_error s = None -> room s ->
  StreamParallel.results (scheduler s) !! collected s = Some (job, r) ->
  let s' := set_inflight (StreamParallel.remove (result_seq r) (inflight s)) (set_collected (1 + collected s)%nat s) in
  settled outs (handled ++ [(result_seq r, outcome r)])
    match outcome r with
    | Ok (MkOutcome (Some event) _) => parallel_push batch_size event s'
    | Ok (MkOutcome None _) | Err (UnknownType _) => (Continue, s')
    | Err err => parallel_yield_error err s'
    | Panic => (Panicked, s')
    end.
Proof.
  intros Hi Ht Hp Hroom Hres. destruct (collect_result seen outs handled s job r Hi Ht Hres) as [Hfine Hled]. cbv zeta in *.
  pose proof (l_batch _ _ _ _ _ _ _ _ _ (i_ledger _ _ _ _ Hi)) as Hbs.
  destruct Hi as [Hl Hst [Hin Hle] Hs Hu Hr Hh Hc Ho]. pose proof (removed_le (result_seq r) _ _ Hin Hle) as Hin'.
  set (s' := set_inflight _ _) in *.
  assert (Hinv : forall b c, ledger log start (goal s') seen (inflight s') (handled ++ [(result_seq r, outcome r)]) outs b (pend (set_ctrl c s')) ->
    inv seen outs (handled ++ [(result_seq r, outcome r)]) (set_batch b (set_ctrl c s'))) by (intros b c Hb; by split).
  destruct (outcome r) as [[[e|] n]|err|] eqn:Hout; [| | |done].
  - apply (push_settled seen); [|done|done]. specialize (Hinv (batch s ++ [e]) (ctrl s)). destruct s. apply Hinv. apply (Hled _ []).
    + cbn. intros e' [= <-]. left. apply elem_of_app. right. by left.
    + intros e' He'. apply elem_of_app. by left.
    + apply Forall_app. split; [done|]. constructor; [by apply Hfine|constructor].
  - split; [|done]. exists seen. specialize (Hinv (batch s) (ctrl s)). destruct s. apply Hinv. by apply (Hled _ []).
  - assert (Herr : forall e, outcome r = Err e -> told outs (batch s) ([e] ++ pend s) (Err e) -> settled outs (handled ++ [(result_seq r, Err e)]) (parallel_yield_error e s')).
    { intros e He Htold. rewrite Hout in He. injection He as ->. apply (yield_error_settled seen); [|done..]. specialize (Hinv (batch s) (e :: ctrl s)).
      destruct s. apply Hinv. eapply ledger_pend; [|by apply (Hled _ [e])]. intros e'. unfold pend. cbn. set_solver. }
    destruct err; try (apply Herr; [done|left; by left]). split; [|done]. exists seen. specialize (Hinv (batch s) (ctrl s)). destruct s. apply Hinv. by apply (Hled _ []).
Qed.

Lemma collect_settled seen outs handled m s : inv seen outs handled s -> target s = None -> room s ->
  let '(f, h) := collect batch_size m s in
  settled outs (handled ++ match h with Some r => [(result_seq r, outcome r)] | None => [] end) f.
Proof.
  intros Hi Ht Hroom. unfold collect. destruct (pending_error s) as [err|] eqn:Hp.
  { rewrite app_nil_r. split; [|done]. exists seen. destruct Hi as [Hl Hst Hin Hs Hu Hr Hh Hc Ho].
    split; try done; [|apply Forall_app; split; [done|by constructor]]. eapply ledger_tell; [| |exact Hl].
    - intros o Hin'. apply elem_of_app. by left.
    - intros e. unfold pend. cbn. rewrite Hp. cbn. intros [He|[He| ->%list_elem_of_singleton]%elem_of_app]%elem_of_app; [left; set_solver..|].
      right. apply elem_of_app. right. by left. }
  assert (Hmore : forall e, inv seen outs handled (set_ctrl (e :: ctrl s) s)).
  { intros e. destruct Hi as [Hl Hst Hin Hs Hu Hr Hh Hc Ho]. split; try done. eapply ledger_pend; [|exact Hl]. intros e'. unfold pend. cbn. set_solver. }
  assert (Hstay : settled outs handled (Continue, s)) by (split; [by exists seen|done]).
  destruct m as [err| |ev| |]; cbn [fst]; rewrite ?app_nil_r.
  - apply (yield_error_settled seen); [by apply Hmore|done..].
  - destruct (ctrl s) as [|err rest] eqn:Hctrl; rewrite ?app_nil_r; [exact Hstay|].
    apply (yield_error_settled seen); [|done..]. cbn. rewrite <- Hctrl. by destruct s.
  - pose proof (resync_told ev) as Hf. destruct (event_from_resync_event ev) as [e|err|]; rewrite ?app_nil_r; [| |done].
    + apply (push_settled seen); [|done|done]. destruct Hi as [Hl Hst Hin Hs Hu Hr Hh Hc Ho]. split; try done.
      cbn. apply ledger_push; [|exact Hl]. cbn in Hf. pose proof (l_start _ _ _ _ _ _ _ _ _ Hl). pose proof (l_cursor _ _ _ _ _ _ _ _ _ Hl). lia.
    + apply (yield_error_settled seen); [by apply Hmore|done..].
  - destruct (StreamParallel.results (scheduler s) !! collected s) as [[job r]|] eqn:Hres; [|rewrite app_nil_r; exact Hstay].
    by apply (result_settled seen outs handled s job r).
  - case_bool_decide as Hne; rewrite app_nil_r; [apply (flush_settled seen); [done..|unfold room in Hroom; lia]|].
    destruct (target_below seen outs handled s [] Hi) as [Hle Hbelow]; [constructor|].
    destruct Hi as [Hl Hst Hin Hs Hu Hr Hh Hc Ho]. split; [|done]. exists seen. split; try done. unfold goal in *. cbn. rewrite Ht in Hl. rewrite Hne in *.
    eapply ledger_flush; [done| |exact Hle|exact Hbelow|exact Hl]. by intros e ?%elem_of_nil.
Qed.

Definition good (outs : list Output) (handled : list (Z * Outcome)) s : Prop := (exists seen, inv seen outs handled s) /\ room s.

Lemma move_good outs handled s outs' handled' s' : good outs handled s -> move batch_size s outs' handled' s' -> good (outs ++ outs') (handled ++ handled') s'.
Proof.
  intros [[seen Hi] Hroom] Hm.
  destruct Hm as [refused Hd Hc|broken rest Hd Hc|data rest s' Hd Hc Hf|key job s' Hd Hf|key job Hd|job Hd|err Hd|l k Hstep Hw|t Ht|m f s' h Ht Hcol];
    rewrite ?app_nil_r.
  - split; [exists seen; by apply move_connect_inv|]. unfold dispatch_connect. by destruct refused.
  - split; [exists seen; by apply move_lost_inv|]. unfold dispatch_lost. by destruct broken.
  - split; [by eapply move_frame_inv|]. unfold dispatch_frame in Hf. repeat case_match; by simplify_eq.
  - split; [exists seen; by eapply move_submit_inv|]. unfold dispatch_submit in Hf. repeat case_match; by simplify_eq.
  - split; [exists seen; by apply move_evict_inv|done].
  - pose proof (i_hand _ _ _ _ Hi) as Hh. by rewrite Hd in Hh.
  - split; [exists seen; by apply move_report_inv|done].
  - split; [exists seen; by eapply move_work_inv|done].
  - split; [exists seen; by apply move_store_inv|done].
  - pose proof (collect_settled seen outs handled m s Hi Ht Hroom) as Hs. rewrite Hcol in Hs. destruct f as [|o|]; [|exact Hs|done].
    by rewrite app_nil_r.
Qed.

Lemma new_good parallelism per_did_queue : good [] [] (parallel_new start parallelism per_did_queue).
Proof.
  split; [|unfold room, most; cbn; lia]. exists start. split; cbn; try done.
  - apply ledger_start.
  - by repeat constructor.
  - split; [apply StreamParallel.new_ok|apply StreamParallel.new_alive].
  - split_and!; [constructor|apply map_Forall_empty|]. cbn. by induction (Nat.max parallelism 1) as [|n IH]; constructor.
Qed.

Lemma moves_good parallelism per_did_queue outs handled s : moves batch_size (parallel_new start parallelism per_did_queue) outs handled s -> good outs handled s.
Proof. induction 1 as [|outs handled s1 outs' handled' s2 _ IH Hm]; [apply new_good|by eapply move_good]. Qed.

(** The cursor never goes back. *)
Lemma move_le s outs handled s' : move batch_size s outs handled s' -> cursor s <= cursor s'.
Proof.
  destruct 1 as [refused Hd Hc|broken rest Hd Hc|data rest s' Hd Hc Hf|key job s' Hd Hf|key job Hd|job Hd|err Hd|l k Hstep Hw|t Ht|m f s' h Ht Hcol]; try done.
  - unfold dispatch_connect. by destruct refused.
  - unfold dispatch_lost. by destruct broken.
  - unfold dispatch_frame in Hf. repeat case_match; by simplify_eq.
  - unfold dispatch_submit in Hf. repeat case_match; by simplify_eq.
  - apply fetch_max_le.
  - unfold collect, parallel_push, parallel_yield_error, parallel_flush in Hcol. cbv zeta in Hcol. repeat case_match; by simplify_eq.
Qed.

(** C11. The parallel stream's cursor is safe. However the dispatcher, the
    workers and the collector interleave, connections fail, queues overflow
    and time passes, from a positive cursor on: every numbered frame at or
    below the cursor has been dealt with, and its event is in a batch that was
    yielded, or its error, which names the frame if a full queue gave it up,
    is yielded or on its way, or it had nothing to tell. The cursor never
    goes back, batches hold between one and [batch_size] events, and nothing
    panics. *)
Theorem parallel_cursor_safe parallelism per_did_queue outs handled s : moves batch_size (parallel_new start parallelism per_did_queue) outs handled s ->
  (forall n, n ∈ log -> start < n <= cursor s -> exists r, (n, r) ∈ handled /\ told outs [] (pend s) r) /\
  Forall (output_ok batch_size) outs /\
  (forall outs' handled' s', move batch_size s outs' handled' s' -> cursor s <= cursor s') /\
  (forall data, is_Some (dispatch_frame data s)) /\
  (forall key job, dispatcher s = Reserved key job -> is_Some (dispatch_submit key job s)) /\
  (forall m, target s = None -> (collect batch_size m s).1.1 <> Panicked).
Proof.
  intros [[seen Hi] Hroom]%moves_good. pose proof (goal_le s) as Hg. split_and!.
  - intros n Hn Hr. apply (l_safe _ _ _ _ _ _ _ _ _ (i_ledger _ _ _ _ Hi) n Hn). lia.
  - apply Hi.
  - intros outs' handled' s'. apply move_le.
  - intros data. unfold dispatch_frame. pose proof (SyncRaw.parse_raw_sync_frame_no_panic data) as Hp.
    destruct (SyncRaw.parse_raw_sync_frame data) as [r|e|]; [|by eexists|done]. destruct (frame_key r); by eexists.
  - intros key job Hd. unfold dispatch_submit. destruct (i_sched _ _ _ _ Hi) as [Hok _]. pose proof (StreamParallel.add_work_no_panic (E:=()) key job (scheduler s)) as Hp.
    destruct (StreamParallel.add_work key job (scheduler s)) as [[[| |]|[]|] k] eqn:Ha; [by eexists..| |by destruct Hp]. exfalso.
    unfold StreamParallel.add_work in Ha. repeat case_match; by simplify_eq.
  - intros m Ht. pose proof (collect_settled seen outs handled m s Hi Ht Hroom) as Hs. destruct (collect batch_size m s) as [[[|o|] s'] h]; done.
Qed.
End Safe.

(** ** Nothing in flight, nothing delivered *)

(** Where every frame was dropped in silence and nothing is in flight, a turn
    of the collector leaves the cursor where it is. *)
Lemma drops_pin_cursor `{SyncInvert.Outside} batch_size s f s' h : inflight s = [] -> batch s = [] -> pending_error s = None -> target s = None ->
  collect batch_size Timeout s = (f, s', h) -> exists t, target s' = Some t /\ cursor (parallel_store t s') = cursor s.
Proof.
  intros Hi Hb Hp Ht. unfold collect. rewrite Hp, bool_decide_eq_false_2 by (intros Hn; by apply Hn). intros [= <- <- <-]. eexists. split; [done|].
  cbn. unfold watermark_target. by rewrite Hi.
Qed.

(** ** An example *)

#[local] Existing Instances CborDecode.simd_ref CborDecode.simd_ref_laws sha2_toy sha2_toy_laws
  Crypto.toy_verifying SyncState.mem_state_store SyncState.mem_state_store_laws SyncInvert.ex_outside SyncVerifier.ex_environment SyncVerifier.ex_environment_laws ex_serve.

Definition ex_parsed : RawSyncEvent := Eval vm_compute in
  match SyncRaw.parse_raw_sync_frame ex_commit_frame with Ok raw => raw | _ => EvInfo end.
Definition ex_key : bytes := Eval vm_compute in match frame_key ex_parsed with Some d => RepoCommit.did_text d | None => [] end.
Definition ex_job : ParallelJob := MkJob ex_parsed 2.
Definition ex_delivered : Event := EventCommit RepoCommit.ex_did 7 2 [].
Definition ex_result : ParallelResult := MkResult 2 (Ok (MkOutcome (Some ex_delivered) 2)).

Lemma ex_ran : ran ex_job ex_result.
Proof. split; [done|]. cbn. split; [done|]. by intros e [= <-]. Qed.

Lemma moves_step batch_size s outs handled s1 outs' handled' s2 o h : moves batch_size s outs handled s1 -> move batch_size s1 outs' handled' s2 ->
  outs ++ outs' = o -> handled ++ handled' = h -> moves batch_size s o h s2.
Proof. intros Hm Hs <- <-. by eapply moves_more. Qed.

(** The frame is read, dispatched, verified, collected and yielded. *)
Definition ex_connected : Parallel := dispatch_connect None (parallel_new 1 2 8).
Definition ex_reserved : Parallel := default ex_connected (dispatch_frame ex_commit_frame (set_conn (Some []) ex_connected)).
Definition ex_submitted : Parallel := default ex_reserved (dispatch_submit ex_key ex_job ex_reserved).
Definition ex_started : Parallel := set_scheduler (default (scheduler ex_submitted) (StreamParallel.take_work 0 (scheduler ex_submitted))) ex_submitted.
Definition ex_finished : Parallel := set_scheduler (default (scheduler ex_started) (StreamParallel.finish_work 0 ex_result (scheduler ex_started))) ex_started.
Definition ex_collected : Parallel := (collect 1 Result ex_finished).1.2.
Definition ex_stored : Parallel := parallel_store 2 ex_collected.

Lemma ex_moves : moves 1 (parallel_new 1 2 8) [Ok [ex_delivered]] [(2, Ok (MkOutcome (Some ex_delivered) 2))] ex_stored.
Proof.
  assert (H1 : moves 1 (parallel_new 1 2 8) [] [] ex_connected) by (eapply moves_step; [apply moves_nil|by apply (move_connect 1 _ None)|done|done]).
  assert (H2 : moves 1 (parallel_new 1 2 8) [] [] ex_reserved).
  { eapply moves_step; [exact H1|apply (move_frame 1 _ ex_commit_frame [])|done|done]; vm_compute; reflexivity. }
  assert (H3 : moves 1 (parallel_new 1 2 8) [] [] ex_submitted).
  { eapply moves_step; [exact H2|apply (move_submit 1 _ ex_key ex_job)|done|done]; vm_compute; reflexivity. }
  assert (H4 : moves 1 (parallel_new 1 2 8) [] [] ex_started).
  { eapply moves_step; [exact H3|apply (move_work 1 _ (StreamParallel.Start ex_key ex_job))|done|done]; [|done].
    apply (StreamParallel.step_take _ 0); vm_compute; reflexivity. }
  assert (H5 : moves 1 (parallel_new 1 2 8) [] [] ex_finished).
  { eapply moves_step; [exact H4|apply (move_work 1 _ (StreamParallel.Finish ex_key ex_job ex_result))|done|done]; [|exact ex_ran].
    apply (StreamParallel.step_finish _ 0); vm_compute; reflexivity. }
  assert (H6 : moves 1 (parallel_new 1 2 8) [Ok [ex_delivered]] [(2, Ok (MkOutcome (Some ex_delivered) 2))] ex_collected).
  { eapply moves_step; [exact H5| |reflexivity|reflexivity].
    exact (move_collect 1 ex_finished Result (Yield (Ok [ex_delivered])) ex_collected (Some ex_result) ltac:(vm_compute; reflexivity) ltac:(vm_compute; reflexivity)). }
  eapply moves_step; [exact H6|apply (move_store 1 _ 2); vm_compute; reflexivity|done|done].
Qed.

Example parallel_cursor_safe_witness : cursor ex_stored = 2 /\
  exists r, (2, r) ∈ [(2, Ok (MkOutcome (Some ex_delivered) 2))] /\ told [Ok [ex_delivered]] [] (pend ex_stored) r.
Proof.
  assert (Hc : cursor ex_stored = 2) by (vm_compute; reflexivity).
  pose proof (parallel_cursor_safe 1 [2] ex_log_sorted (fun c Hc => ex_serve_log c Hc) 1 ltac:(lia) 2 8 _ _ _ ex_moves) as [Hsafe _].
  refine (conj Hc (Hsafe 2 _ _)); [by left|lia].
Defined.
